(* ===== verification/_CoqProject ===== *)
-Q . S2P
Prelude.v
Bytes.v
KVCacheMetadata.v
PoolLayout.v
ReshardTypes.v
WorkUnitDirectory.v
RequestBlockRegistry.v
PoolReshardPlanner.v
TransferProgram.v
ReshardCoordinator.v
ChunkSerializer.v
LruCache.v
LogicalBlockManager.v
StoreBackend.v
WorkerRegistry.v
HostOffloadBackend.v
HostOffloadLookup.v
HostOffloadInsert.v
HostOffloadRecovery.v
HostOffloadTransfer.v
HostOffloadPins.v
KVCacheStoreService.v
KVCacheStoreServiceSteps.v
KVCacheStoreServiceSafety.v
KVCacheStoreTiers.v
KVCacheStore.v
KVCacheStoreWrites.v
KVCacheStoreWriteSteps.v
KVCacheStoreHandover.v
KVCacheStoreSweep.v
KVCacheStoreBlocks.v
GlobalRegistry.v
GlobalRegistryProofs.v
GlobalRegistryAnswers.v
StoreMonitor.v
Tiling.v
TilingProofs.v
TilingShapes.v
ControllerService.v
ControllerServiceSteps.v
ControllerServiceLeases.v
RaidenController.v
RaidenControllerProofs.v
RemoteRead.v
FramedRpc.v
ReshardService.v
ReshardServiceProofs.v
ReshardClient.v
ReshardEndToEnd.v
WorkerService.v
WorkerServiceProofs.v
KVCacheListener.v
KVManagerHolder.v
PoolPlanCheck.v
PoolPlanCheckProofs.v
PoolPlanCoverage.v
PoolPlanReceiver.v
KVCacheManagerBase.v
BlockTransport.v
BlockTransportProofs.v
DataPath.v
PoolTransfer.v
PoolExecutor.v
PoolExecutorProofs.v
PoolSend.v
RawBufferTransport.v
RawBufferProofs.v
