(* ===== verification/Prelude.v ===== *)
(** * TPU Sync: a verification library

    TPU Sync moves the KV cache of language-model servers between accelerators and hosts.
    Its C++ core (src/tpu_sync) keeps cached blocks in host memory and offers them to other
    nodes (kv_cache/), describes how a device pool lays out the live bytes of a block
    (pool_layout.cc), plans and executes the resharding of a request's blocks from the source
    ranks of one job to the pages of another (kv_cache/reshard/), runs the controllers and
    workers of a node (core/controller/) and tiles weight buffers (weight_sync/).  This
    library models those parts as executable definitions and proves what makes them correct.

    ** Parts and files

    Shared:
    - [Prelude.v] (this file): absl::Status and StatusOr ([Ok]/[Err] with the code and
      the StrCat fragments of the message), [let?] for ASSIGN_OR_RETURN, [for_each] for a
      loop that may return early with its induction principles, 64- and 32-bit wrap-around
      ([wrap64], [wrap32], [u64], [u32]), the ranges of counting loops ([zrange]), stable
      sorting over a comparator, the list monad, tactics and hint databases.
    - [Bytes.v]: little-endian scalars and byte stores.

    The cache of a node:
    - [LruCache.v] (lru_cache.h) and [LogicalBlockManager.v] (logical_block_manager.cc): the
      node map with its three lists, the block table; every operation.
    - [KVCacheMetadata.v] (kv_cache_metadata.cc): the persistent table as the bytes of its
      region; an operation is the sequence of byte stores it makes, a crash a prefix of it.
    - [StoreBackend.v]: the class [KVCacheStoreBackend] with the laws the store relies on
      ([BackendLaws]); [HostOffloadBackend.v] implements it (host_offload_backend.cc), with
      its theorems in [HostOffloadLookup.v], [HostOffloadInsert.v], [HostOffloadRecovery.v],
      [HostOffloadTransfer.v] and [HostOffloadPins.v].  It composes the cache, the block
      manager and the metadata table.
    - [KVCacheStoreService.v] (kv_cache_store_service.cc): the destination of remote writes,
      as a heap of operations; [KVCacheStoreServiceSteps.v] is the step relation of its
      threads, [KVCacheStoreServiceSafety.v] what holds under every interleaving.
    - [KVCacheStoreTiers.v], [KVCacheStore.v] (kv_cache_store.cc): the store itself, over any
      backend: saving, reading, sweeping futures and offers; [KVCacheStoreWrites.v] and
      [KVCacheStoreWriteSteps.v] account for the pins of outstanding writes,
      [KVCacheStoreHandover.v] joins the two ends of a write, [KVCacheStoreSweep.v] shows that
      sweeps and waits return, [KVCacheStoreBlocks.v] follows the blocks of a read or save.
    - [GlobalRegistry.v] (global_registry/): the directory of owners, stores and specs and its
      client; [GlobalRegistryProofs.v] and [GlobalRegistryAnswers.v] its refinement and its
      answers; [StoreMonitor.v] the heartbeat that keeps a store in it.

    Resharding:
    - [PoolLayout.v] (pool_layout.cc): regions and pools, their validation, copy extents, live
      segments, translation between compact and physical offsets, in int64 arithmetic.
    - [ReshardTypes.v], [WorkUnitDirectory.v], [RequestBlockRegistry.v]: the value types, the
      directory of work units, and the generations of declared blocks, which use the
      directory through the class [UnitDirectory].
    - [PoolReshardPlanner.v]: BuildPoolReshardPlan, stage by stage.
    - [TransferProgram.v] (core/transfer_program_reshard.cc): compiling and lowering programs.
    - [ReshardCoordinator.v]: a transfer from the request to the messages.
    - [FramedRpc.v], [ReshardService.v], [ReshardClient.v]: the framed wire, the service that
      owns directory, registry and coordinator, and its client.  Protobuf is the class
      [Protobuf] with [ProtobufLaws].  [ReshardServiceProofs.v] has the state of the service,
      [ReshardEndToEnd.v] client and service together.
    - [ChunkSerializer.v] (transport/lib/chunk_serializer.cc): chunks on the data wire.

    The data path of a worker:
    - [PoolPlanCheck.v] (kv_cache_manager_with_transfer.cc, validation of a plan), with
      [PoolPlanCheckProofs.v], [PoolPlanCoverage.v] and [PoolPlanReceiver.v]: what an accepted
      plan writes.
    - [KVCacheManagerBase.v] (kv_cache_manager_base.cc, raiden_manager_base.cc): pools, host
      mirrors, staging slots, registered plans, and the chunks of memory a block resolves to.
    - [BlockTransport.v] (block_transport.cc), [BlockTransportProofs.v]: push streams and the
      handler of an incoming push, over a [Delegate]; [DataPath.v] states what the transport
      needs of a manager (the class [ManagerDelegate]) and follows one stream from the memory
      of a sender to that of the receiver; [PoolTransfer.v] joins plan, managers and streams.
    - [PoolExecutor.v] (kv_cache_manager_with_transfer.cc): sends, receives and polls of the
      pool path, with the threads of a receive as tasks; [PoolExecutorProofs.v] has every
      interleaving of them, [PoolSend.v] the verdict of a send.
    - [RawBufferTransport.v] (transport/lib/raw_buffer_transport.cc), [RawBufferProofs.v]:
      batches of byte ranges, their handler and the counters of a receiver.

    Controllers and workers:
    - [WorkerRegistry.v] (worker_registry.cc); [ControllerService.v] (controller_service.cc)
      the read leases of a source, over the class [LeaseHooks]; [ControllerServiceSteps.v] and
      [ControllerServiceLeases.v] its steps, its theorems and the instance for the store.
    - [RaidenController.v] (raiden_controller.cc, buffer.cc), [RaidenControllerProofs.v];
      [RemoteRead.v] the lease protocol of a remote read, reader and source together.
    - [WorkerService.v] (worker_service_impl.cc), [WorkerServiceProofs.v]: buffers, transfers
      and programs on a worker; [KVCacheListener.v] the framed door of a worker, with the
      equivalence of the two doors; [KVManagerHolder.v] (kv_manager_holder.h) the type-erased
      manager behind the service.

    Weights:
    - [Tiling.v], [TilingProofs.v], [TilingShapes.v] (weight_sync/tiling_utils.cc): tiling and
      detiling as lists of byte stores, one list per thread of the pool.

    How they interact: the store saves into and reads from a backend, offers blocks to the
    service of another store and reads remote blocks through its controller under a lease of
    the source's; owners of blocks are found in the global registry.  The reshard client
    drives the service; the coordinator plans with the directory, the registry and the pool
    layouts, and sends one request per unit, framed to a listener or compiled to a program
    for a worker service.  The executor of a worker validates the plan of the request,
    registers it with its manager, stages pools and pushes them through the block transport;
    the transport of the receiver asks its manager where the bytes go and tells the executor
    when a pool is complete.

    ** What the theorems show

    - Planning and coordination: a plan schedules exactly the declared copies and writes each
      live byte of each destination block once; the messages of the two sides agree in both
      delivery modes; claims are given back exactly when nothing was sent; each call of the
      client is the operation it stands for; the two doors of a worker make the same executor
      call; a framed call is exact or fails wherever the streams are cut.
    - Remote writes and reads: the pins of a store are those of its outstanding writes under
      every interleaving; a verdict is final and nothing commits after its deadline, so the
      source may let its blocks go; a read that is reported good had its lease continuously.
    - Registry: the service implements an abstract directory for every sequence of calls, and
      the backend's lookups over it return live owners.
    - Backend and cache: lookups, inserts, evictions and recovery with their pins; eviction
      order, pinning, exact allocation, crash recovery at every byte store.
    - Layout, programs, chunks, tiling: exact byte sets, round trips, exact admission.
    - Controllers and workers: a broadcast names the right peers; a worker runs the transfer
      the controller asked for; handles are fresh.
    - Data path: a receiver accepts exactly the plans that write each live byte of its blocks
      once; the streams of such a plan, however cut and interleaved, leave exactly the planned
      bytes in the mirrors; a pool is complete on its last expected stream; pools are uploaded
      once, in rank order, with one right verdict per request, and a receive whose copies go
      well ends; batches of raw pushes arrive whole, and are announced once.
    A theorem with hypotheses has a witness that applies it to a concrete input.

    ** Bounds and fuel

    A loop that is not structural carries fuel, of which every iteration consumes at least
    one, so that the fuel the definitions pass is enough: the bytes left to copy or cover
    ([translate_loop], [split_loop], [cover_loop]), the bytes asked for ([read_loop]), the
    hashes left to pull ([pull_batches]), the bytes of a row ([vectors]), the tile columns
    ([detile_vector]), the requests left to write ([push_payloads]), the tasks left to batch
    ([sub_batches], [peer_batches], [all_batches]).  A loop that waits for the outside is a recursion over what the
    outside does: rounds of polling ([wait_batch]), rounds of connecting ([connect_loop]),
    draws of an id; that it ends is a theorem about how many rounds are enough.  Integer
    fields are kept in Z; an unchecked C++ operation is wrapped at its width (the overflow
    itself is undefined in C++; wrapping is what the compiled code does), and theorems that
    need a range say so in their hypotheses.  Clocks are integers.

    ** Not modelled

    gRPC, protobuf and FlatBuffers encodings (messages are records of their fields; the fixed
    FlatBuffers structs are their bytes), device copies and PJRT, memory mapping, the set-up of
    sockets and threads (a critical section is one step; where threads interleave, the steps
    do), telemetry, the bindings and the controllers written in Python, the construction and
    teardown of the store.  Of the data path: pulls and the scheduler of write tasks in
    block_transport.cc, the control connections and the staging of the pull path in
    kv_cache_manager_with_transfer.cc, the drivers of device copies in
    kv_cache_manager_base.cc, and weight_synchronizer_base.cc; they drive sockets, futures and
    device copies around the parts modelled here. *)

From Stdlib Require Import ZArith Lia Bool.
From stdpp Require Export base gmap strings list option sorting pretty.

#[export] Set Warnings "-clear-no-such-hyp,-level-tolerance".
#[global] Open Scope Z_scope.

(** ** absl::Status and absl::StatusOr *)

(** The canonical codes the modelled functions return. *)
Inductive StatusCode : Type :=
  | kInvalidArgument
  | kFailedPrecondition
  | kResourceExhausted
  | kOutOfRange
  | kNotFound
  | kUnimplemented
  | kInternal
  | kAlreadyExists
  | kAborted
  | kCancelled
  | kDeadlineExceeded
  | kUnavailable.

(** A message is the list of arguments the source gives to [absl::StrCat]:
    literal text and integers, before the integers are rendered. *)
Inductive Frag : Type :=
  | FStr (s : string)
  | FInt (z : Z).

Bind Scope string_scope with Frag.
Coercion FStr : string >-> Frag.
Coercion FInt : Z >-> Frag.

Inductive StatusOr (A : Type) : Type :=
  | Ok (a : A)
  | Err (code : StatusCode) (msg : list Frag).
Arguments Ok {A} a.
Arguments Err {A} code msg.

Abbreviation Status := (StatusOr unit).
Abbreviation OkStatus := (Ok tt).

#[global] Instance StatusCode_eq_dec : EqDecision StatusCode.
Proof. solve_decision. Defined.
#[global] Instance Frag_eq_dec : EqDecision Frag.
Proof. solve_decision. Defined.
#[global] Instance StatusOr_eq_dec `{EqDecision A} : EqDecision (StatusOr A).
Proof. solve_decision. Defined.

Definition ok {A} (s : StatusOr A) : bool :=
  match s with Ok _ => true | Err _ _ => false end.

Declare Scope status_scope.
Delimit Scope status_scope with status.
Open Scope status_scope.

Notation "'StrCat' [ x ]" := (@cons Frag (x : Frag) nil)
  (at level 0, x at level 200) : status_scope.
Notation "'StrCat' [ x ; y ; .. ; z ]" :=
  (@cons Frag (x : Frag) (@cons Frag (y : Frag) .. (@cons Frag (z : Frag) nil) ..))
  (at level 0, x at level 200, y at level 200, z at level 200) : status_scope.

(** The text of a message. *)
Definition render (msg : list Frag) : string :=
  foldr (fun f acc => String.append (match f with FStr s => s | FInt z => pretty z end) acc) EmptyString msg.

(** [ASSIGN_OR_RETURN]: continue with the value, return the error. *)
Notation "'let?' x ':=' m 'in' k" :=
  (match m with Ok x => k | Err c e => Err c e end)
  (at level 10, x pattern, m at level 100, k at level 200) : status_scope.

(** Run a fallible body over a list, stopping at the first error. *)
Fixpoint for_each {A S} (body : S -> A -> StatusOr S) (l : list A) (s : S) : StatusOr S :=
  match l with
  | [] => Ok s
  | x :: l' => let? s' := body s x in for_each body l' s'
  end.

Lemma for_each_app {A S} (body : S -> A -> StatusOr S) l1 l2 s :
  for_each body (l1 ++ l2) s = let? s' := for_each body l1 s in for_each body l2 s'.
Proof.
  revert s; induction l1 as [|x l1 IH]; intros s; simpl; [done|].
  destruct (body s x); [apply IH|done].
Qed.

(** Induction principle of a loop: an invariant of the body, indexed by the
    elements already processed, holds of the final state. *)
Lemma for_each_ind {A S} (body : S -> A -> StatusOr S) (I : list A -> S -> Prop) l s r :
  I [] s ->
  (forall done_ x rest st st', l = done_ ++ x :: rest -> I done_ st ->
     body st x = Ok st' -> I (done_ ++ [x]) st') ->
  for_each body l s = Ok r -> I l r.
Proof.
  intros H0 Hstep.
  enough (Hgen : forall rest done_ st, l = done_ ++ rest -> I done_ st ->
            for_each body rest st = Ok r -> I l r).
  { intros Hr. by apply (Hgen l [] s). }
  induction rest as [|x rest IH]; intros done_ st Hl HI Hr; simpl in Hr.
  - rewrite app_nil_r in Hl. by simplify_eq.
  - destruct (body st x) as [st'|] eqn:Hb; [|done].
    apply (IH (done_ ++ [x]) st'); [by rewrite <-app_assoc|by eapply Hstep|done].
Qed.

(** A loop that collects: each iteration adds what its element denotes to the meaning
    [sem] of the state and keeps [inv]. *)
Lemma for_each_collect {A S B} (body : S -> A -> StatusOr S) (inv : S -> Prop)
    (sem : S -> B -> Prop) (P : A -> B -> Prop) l s r :
  (forall st x st', x ∈ l -> inv st -> body st x = Ok st' ->
     inv st' /\ forall a, sem st' a <-> sem st a \/ P x a) ->
  inv s -> for_each body l s = Ok r ->
  inv r /\ forall a, sem r a <-> sem s a \/ exists x, x ∈ l /\ P x a.
Proof.
  revert s. induction l as [|x l IH]; intros s Hbody Hs; simpl.
  { intros [= <-]. split; [done|]. intros a. split; [by left|].
    intros [?|(? & ?%elem_of_nil & _)]; done. }
  destruct (body s x) as [s'|] eqn:Hb; [|done]. intros Hr.
  destruct (Hbody s x s') as [Hs' Hsem]; [by left|done|done|].
  destruct (IH s') as [Hinv Hall]; [|done|done|].
  { intros st y st' Hy. apply Hbody. by right. }
  split; [done|]. intros a. rewrite Hall, Hsem. setoid_rewrite elem_of_cons. naive_solver.
Qed.

(** A loop whose body never fails on states that satisfy the invariant. *)
Lemma for_each_succeeds {A S} (body : S -> A -> StatusOr S) (inv : S -> Prop) l s :
  (forall st x, x ∈ l -> inv st -> exists st', body st x = Ok st' /\ inv st') ->
  inv s -> exists r, for_each body l s = Ok r /\ inv r.
Proof.
  revert s. induction l as [|x l IH]; intros s Hbody Hs; simpl; [eauto|].
  destruct (Hbody s x) as (s' & -> & Hs'); [by left|done|].
  apply IH; [|done]. intros st y Hy. apply Hbody. by right.
Qed.

(** A loop that only checks: it passes when every check does. *)
Lemma for_each_check {A} (check : A -> Status) l :
  ok (for_each (fun _ x => check x) l tt) = true <-> Forall (fun x => ok (check x) = true) l.
Proof.
  induction l as [|x l IH]; simpl; [split; [constructor|done]|].
  rewrite Forall_cons, <-IH. destruct (check x) as [[]|]; simpl; naive_solver.
Qed.

(** ** Tactics *)

(** Boolean comparisons to propositions, in the hypotheses and the goal. *)
Ltac to_prop :=
  repeat (rewrite ?andb_true_iff, ?andb_false_iff, ?orb_true_iff, ?orb_false_iff,
            ?negb_true_iff, ?negb_false_iff,
            ?Z.ltb_lt, ?Z.ltb_ge, ?Z.leb_le, ?Z.leb_gt, ?Z.eqb_eq, ?Z.eqb_neq,
            ?Z.gtb_ltb, ?Z.geb_leb, ?Nat.ltb_lt, ?Nat.ltb_ge, ?Nat.leb_le, ?Nat.leb_gt,
            ?Nat.eqb_eq, ?Nat.eqb_neq, ?bool_decide_eq_true, ?bool_decide_eq_false in *).

(** Walk through the early returns of a function whose result is known to be
    [Ok]: each guard contributes its negation to the context. *)
Ltac step_guard H :=
  lazymatch type of H with
  | (if ?b then Err _ _ else _) = Ok _ =>
      let E := fresh "Hguard" in destruct b eqn:E; [discriminate H|]
  | (match ?m with Ok _ => _ | Err _ _ => _ end) = Ok _ =>
      let E := fresh "Hcall" in destruct m eqn:E; [|discriminate H]
  end.
Ltac guards H := repeat (step_guard H; cbv zeta in H).

(** ** Fixed-width integers *)

Definition int64_max : Z := 9223372036854775807.
Definition int64_min : Z := -9223372036854775808.
Definition int32_max : Z := 2147483647.
Definition int32_min : Z := -2147483648.

Definition in_int64 (x : Z) : Prop := int64_min <= x <= int64_max.
Definition in_int32 (x : Z) : Prop := int32_min <= x <= int32_max.

(** Two's complement conversion of a mathematical integer to 64 or 32 bits: what
    an unchecked signed operation leaves in the register when it overflows. *)
Definition wrap64 (x : Z) : Z := (x + 2 ^ 63) mod 2 ^ 64 - 2 ^ 63.
Definition wrap32 (x : Z) : Z := (x + 2 ^ 31) mod 2 ^ 32 - 2 ^ 31.
Definition u64 (x : Z) : Z := x mod 2 ^ 64.
Definition u32 (x : Z) : Z := x mod 2 ^ 32.

Lemma wrap64_id x : in_int64 x -> wrap64 x = x.
Proof. unfold in_int64, int64_min, int64_max, wrap64. intros. rewrite Z.mod_small; lia. Qed.
Lemma wrap32_id x : in_int32 x -> wrap32 x = x.
Proof. unfold in_int32, int32_min, int32_max, wrap32. intros. rewrite Z.mod_small; lia. Qed.
Lemma wrap64_range x : in_int64 (wrap64 x).
Proof.
  unfold in_int64, int64_min, int64_max, wrap64.
  pose proof (Z.mod_pos_bound (x + 2 ^ 63) (2 ^ 64)). lia.
Qed.
(** Wrapping an intermediate result does not change the wrapped final one. *)
Lemma wrap64_add_l x y : wrap64 (wrap64 x + y) = wrap64 (x + y).
Proof.
  unfold wrap64. replace ((x + 2 ^ 63) mod 2 ^ 64 - 2 ^ 63 + y + 2 ^ 63) with ((x + 2 ^ 63) mod 2 ^ 64 + y) by lia.
  rewrite Zplus_mod_idemp_l. f_equal. f_equal. lia.
Qed.
Lemma wrap64_sub_l x y : wrap64 (wrap64 x - y) = wrap64 (x - y).
Proof. unfold Z.sub at 1. rewrite wrap64_add_l. f_equal. Qed.
Lemma u64_id x : 0 <= x < 2 ^ 64 -> u64 x = x.
Proof. apply Z.mod_small. Qed.
Lemma u64_of_wrap64 x : in_int64 x -> wrap64 (u64 x) = x.
Proof.
  unfold in_int64, int64_min, int64_max, wrap64, u64. intros Hx.
  destruct (decide (0 <= x)) as [H|H].
  - rewrite (Z.mod_small x) by lia. rewrite Z.mod_small; lia.
  - replace (x mod 2 ^ 64) with (x + 2 ^ 64).
    + replace (x + 2 ^ 64 + 2 ^ 63) with (x + 2 ^ 63 + 1 * 2 ^ 64) by lia.
      rewrite Z.mod_add by lia. rewrite Z.mod_small; lia.
    + symmetry. replace x with (x + 2 ^ 64 + (-1) * 2 ^ 64) at 1 by lia.
      rewrite Z.mod_add by lia. apply Z.mod_small; lia.
Qed.

(** ** Integer ranges as lists *)

(** The values of a [for (i = lo; i < hi; ++i)] loop. *)
Definition zrange (lo hi : Z) : list Z :=
  (fun k : nat => lo + Z.of_nat k) <$> seq 0 (Z.to_nat (hi - lo)).

Lemma elem_of_zrange lo hi x : x ∈ zrange lo hi <-> lo <= x < hi.
Proof.
  unfold zrange. rewrite list_elem_of_fmap. split.
  - intros (k & -> & Hk%elem_of_seq). lia.
  - intros H. exists (Z.to_nat (x - lo)). split; [lia|]. apply elem_of_seq. lia.
Qed.

Lemma NoDup_zrange lo hi : NoDup (zrange lo hi).
Proof. unfold zrange. apply NoDup_fmap_2; [|apply NoDup_seq]. intros x y. lia. Qed.

Lemma length_zrange lo hi : length (zrange lo hi) = Z.to_nat (hi - lo).
Proof. unfold zrange. by rewrite length_fmap, length_seq. Qed.

Lemma zrange_app a b c : a <= b <= c -> zrange a b ++ zrange b c = zrange a c.
Proof.
  intros H. unfold zrange. replace (Z.to_nat (c - a)) with (Z.to_nat (b - a) + Z.to_nat (c - b))%nat by lia.
  rewrite seq_app, fmap_app. f_equal. simpl. rewrite <-(Nat.add_0_r (Z.to_nat (b - a))), <-fmap_add_seq.
  rewrite <-list_fmap_compose. apply list_fmap_ext. intros i x _. simpl. lia.
Qed.
Lemma zrange_empty a b : b <= a -> zrange a b = [].
Proof. intros. unfold zrange. by replace (Z.to_nat (b - a)) with 0%nat by lia. Qed.
Lemma zrange_shift k a b : zrange (k + a) (k + b) = Z.add k <$> zrange a b.
Proof.
  unfold zrange. rewrite <-list_fmap_compose. replace (k + b - (k + a)) with (b - a) by lia.
  apply list_fmap_ext. intros i x _. simpl. lia.
Qed.
Lemma zrange_cons a b : a < b -> zrange a b = a :: zrange (a + 1) b.
Proof.
  intros. rewrite <-(zrange_app a (a + 1) b) by lia. f_equal.
  unfold zrange. replace (Z.to_nat (a + 1 - a)) with 1%nat by lia. simpl. f_equal. lia.
Qed.
Lemma zrange_lookup lo hi i : 0 <= i < hi - lo -> zrange lo hi !! Z.to_nat i = Some (lo + i).
Proof.
  intros Hi. unfold zrange. rewrite list_lookup_fmap, lookup_seq_lt by lia. simpl. f_equal. lia.
Qed.

(** ** Sums *)

Definition zsum (l : list Z) : Z := foldr Z.add 0 l.

Lemma zsum_cons x l : zsum (x :: l) = x + zsum l.
Proof. done. Qed.
Lemma zsum_app l1 l2 : zsum (l1 ++ l2) = zsum l1 + zsum l2.
Proof. unfold zsum. induction l1 as [|x l1 IH]; simpl; [done|]. rewrite IH. lia. Qed.
Lemma zsum_nonneg l : Forall (fun x => 0 <= x) l -> 0 <= zsum l.
Proof. induction 1; unfold zsum in *; simpl; lia. Qed.

(** ** Sorting *)

(** [std::stable_sort] (and [std::sort] where ties are equal elements) as a
    stable insertion sort over the source's strict comparator. *)
Fixpoint insert_by {A} (lt : A -> A -> bool) (x : A) (l : list A) : list A :=
  match l with
  | [] => [x]
  | y :: l' => if lt y x then y :: insert_by lt x l' else x :: y :: l'
  end.
Definition sort_by {A} (lt : A -> A -> bool) (l : list A) : list A := foldr (insert_by lt) [] l.

Lemma insert_by_perm {A} (lt : A -> A -> bool) x l : insert_by lt x l ≡ₚ x :: l.
Proof.
  induction l as [|y l IH]; simpl; [done|]. destruct (lt y x); [|done].
  rewrite IH. apply Permutation_swap.
Qed.
Lemma sort_by_perm {A} (lt : A -> A -> bool) l : sort_by lt l ≡ₚ l.
Proof. induction l as [|x l IH]; simpl; [done|]. rewrite insert_by_perm. by rewrite IH. Qed.

(** Strict weak orders, as the C++ comparators must be. *)
Class StrictWeakOrder {A} (lt : A -> A -> bool) : Prop := {
  swo_asym x y : lt x y = true -> lt y x = false;
  swo_le_trans x y z : lt y x = false -> lt z y = false -> lt z x = false
}.

Section sorted.
Context {A : Type} (lt : A -> A -> bool) `{!StrictWeakOrder lt}.
Definition not_after (x y : A) : Prop := lt y x = false.

Lemma insert_by_sorted x l :
  StronglySorted not_after l -> StronglySorted not_after (insert_by lt x l).
Proof.
  induction 1 as [|y l Hs IH Hall]; simpl; [repeat constructor|].
  destruct (lt y x) eqn:E.
  - constructor; [done|]. rewrite insert_by_perm. constructor; [|done].
    by apply swo_asym.
  - constructor; [by constructor|]. constructor; [done|].
    eapply Forall_impl; [done|]. intros z Hz. by eapply swo_le_trans.
Qed.
Lemma sort_by_sorted l : StronglySorted not_after (sort_by lt l).
Proof. induction l; simpl; [constructor|]. by apply insert_by_sorted. Qed.
End sorted.

Lemma StronglySorted_rev {A} (R : A -> A -> Prop) l :
  StronglySorted R l -> StronglySorted (flip R) (rev l).
Proof.
  induction 1 as [|x l Hl IH Hx]; simpl; [constructor|].
  assert (Hall : Forall (fun y => flip R y x) (rev l)).
  { apply Forall_forall. intros y Hy. rewrite list_elem_of_In, <-in_rev, <-list_elem_of_In in Hy.
    rewrite Forall_forall in Hx. by apply Hx. }
  clear Hx Hl. induction IH as [|y m Hm IHm Hy]; simpl; [repeat constructor|].
  apply Forall_cons in Hall as [Hyx Hall]. constructor; [by apply IHm|].
  apply Forall_app. split; [done|]. by constructor.
Qed.
Lemma elem_of_rev {A} (x : A) l : x ∈ rev l <-> x ∈ l.
Proof. by rewrite !list_elem_of_In, <-in_rev. Qed.

(** Lexicographic order on pairs, [std::pair]'s [operator<]. *)
Definition pair_ltb (a b : Z * Z) : bool :=
  (a.1 <? b.1) || ((a.1 =? b.1) && (a.2 <? b.2)).

#[global] Instance zltb_swo : StrictWeakOrder Z.ltb.
Proof. split; intros; to_prop; lia. Qed.
#[global] Instance pair_ltb_swo : StrictWeakOrder pair_ltb.
Proof.
  split; unfold pair_ltb; intros [] []; [|intros []]; simpl; intros; to_prop; lia.
Qed.

(** ** Prefixes *)

Lemma elem_of_take_weaken {A} (x : A) n l : x ∈ take n l -> x ∈ l.
Proof. intros H. rewrite <-(take_drop n l). apply elem_of_app. by left. Qed.
Lemma NoDup_take {A} n (l : list A) : NoDup l -> NoDup (take n l).
Proof. rewrite <-(take_drop n l) at 1. by intros [? _]%NoDup_app. Qed.

Lemma length_filter_fmap {A B} (f : A -> B) (P : B -> Prop) `{!forall x, Decision (P x)} l :
  length (filter P (f <$> l)) = length (filter (fun x => P (f x)) l).
Proof.
  induction l as [|x l IH]; [done|]. rewrite fmap_cons, !filter_cons.
  repeat case_decide; simpl; congruence.
Qed.

(** ** The list monad *)

Lemma eq_perm {A} (l k : list A) : l = k -> l ≡ₚ k.
Proof. by intros ->. Qed.
Lemma bind_ext_Forall {A B} (f g : A -> list B) l : Forall (fun x => f x = g x) l -> (l ≫= f) = l ≫= g.
Proof. induction 1 as [|x l Hx _ IH]; [done|]. by rewrite !bind_cons, Hx, IH. Qed.
Lemma bind_app_perm {A B} (f g : A -> list B) l : (l ≫= fun x => f x ++ g x) ≡ₚ (l ≫= f) ++ (l ≫= g).
Proof.
  induction l as [|x l IH]; [done|]. rewrite !bind_cons, IH, <-!app_assoc. f_equiv.
  rewrite !app_assoc. f_equiv. apply Permutation_app_comm.
Qed.
Lemma bind_unique `{EqDecision A} {B} (k : A) l (y : list B) :
  NoDup l -> (l ≫= fun j => if decide (k = j) then y else []) = if decide (k ∈ l) then y else [].
Proof.
  induction 1 as [|x l Hx Hl IH]; [done|]. rewrite bind_cons, IH.
  destruct (decide (k = x)) as [->|Hne].
  - rewrite (decide_False (P := x ∈ l)), app_nil_r, decide_True by (done || by left). done.
  - destruct (decide (k ∈ l)) as [Hk|Hk]; [rewrite decide_True by (by right)|rewrite decide_False by set_solver]; done.
Qed.
Lemma fmap_bind_list {A B C} (h : B -> C) (f : A -> list B) l : h <$> (l ≫= f) = l ≫= fun x => h <$> f x.
Proof. induction l as [|x l IH]; [done|]. by rewrite !bind_cons, fmap_app, IH. Qed.
Lemma bind_fmap_list {A B C} (h : A -> B) (f : B -> list C) l : ((h <$> l) ≫= f) = l ≫= fun x => f (h x).
Proof. induction l as [|x l IH]; [done|]. by rewrite fmap_cons, !bind_cons, IH. Qed.
Lemma bind_bind_list {A B C} (f : A -> list B) (g : B -> list C) l :
  ((l ≫= f) ≫= g) = l ≫= fun x => f x ≫= g.
Proof. induction l as [|x l IH]; [done|]. by rewrite !bind_cons, bind_app, IH. Qed.
Lemma fmap_zip_with_l {A B C D} (f : A -> B -> C) (g : C -> D) (h : A -> D) l k :
  (forall x y, g (f x y) = h x) -> length k = length l -> g <$> zip_with f l k = h <$> l.
Proof.
  intros Hgf. revert k. induction l as [|x l IH]; intros [|y k] Hlen; simpl in *; try done.
  rewrite Hgf. f_equal. apply IH. lia.
Qed.
Lemma filter_bind_list {A B} (P : B -> Prop) `{!forall x, Decision (P x)} (f : A -> list B) l :
  filter P (l ≫= f) = l ≫= fun x => filter P (f x).
Proof. induction l as [|x l IH]; [done|]. by rewrite !bind_cons, filter_app, IH. Qed.
Lemma filter_all {A} (P : A -> Prop) `{!forall x, Decision (P x)} l : Forall P l -> filter P l = l.
Proof. induction 1 as [|x l Hx _ IH]; [done|]. by rewrite filter_cons_True, IH. Qed.
Lemma filter_none {A} (P : A -> Prop) `{!forall x, Decision (P x)} l : Forall (fun x => ~ P x) l -> filter P l = [].
Proof. induction 1 as [|x l Hx _ IH]; [done|]. by rewrite filter_cons_False, IH. Qed.

(** ** Removing one element of a duplicate-free list (erasing by iterator) *)

Definition remove_elem `{EqDecision A} (k : A) (l : list A) : list A := filter (.≠ k) l.

Section remove_elem.
Context `{EqDecision A}.
Implicit Types (k : A) (l : list A).

Lemma elem_of_remove_elem k k' l : k' ∈ remove_elem k l <-> k' ≠ k /\ k' ∈ l.
Proof. unfold remove_elem. by rewrite list_elem_of_filter. Qed.
Lemma NoDup_remove_elem k l : NoDup l -> NoDup (remove_elem k l).
Proof. apply NoDup_filter. Qed.
Lemma remove_elem_notin k l : k ∉ l -> remove_elem k l = l.
Proof.
  unfold remove_elem. induction l as [|x l IH]; intros Hk; [done|].
  apply not_elem_of_cons in Hk as [Hne Hk].
  rewrite filter_cons_True by congruence. by rewrite IH.
Qed.
Lemma remove_elem_cons_eq k l : remove_elem k (k :: l) = remove_elem k l.
Proof. unfold remove_elem. by rewrite filter_cons_False by naive_solver. Qed.
Lemma remove_elem_cons_ne k x l : x ≠ k -> remove_elem k (x :: l) = x :: remove_elem k l.
Proof. intros. unfold remove_elem. by rewrite filter_cons_True. Qed.
Lemma remove_elem_app k l1 l2 : remove_elem k (l1 ++ l2) = remove_elem k l1 ++ remove_elem k l2.
Proof. apply filter_app. Qed.
Lemma length_remove_elem k l : NoDup l -> k ∈ l -> length l = S (length (remove_elem k l)).
Proof.
  induction 1 as [|x l Hx Hnd IH]; [by intros ?%elem_of_nil|].
  intros [->|Hk]%elem_of_cons.
  - by rewrite remove_elem_cons_eq, remove_elem_notin.
  - rewrite remove_elem_cons_ne by naive_solver. simpl. by rewrite <-IH.
Qed.
Lemma length_remove_elem_le k l : (length (remove_elem k l) <= length l)%nat.
Proof. apply length_filter. Qed.
End remove_elem.

(** ** Hint databases *)

Create HintDb tpusync.
Create Rewrite HintDb tpusync_elem.
#[export] Hint Resolve NoDup_remove_elem NoDup_zrange wrap64_range : tpusync.
#[export] Hint Rewrite @elem_of_remove_elem @elem_of_cons @elem_of_app @elem_of_nil elem_of_zrange : tpusync_elem.
