(* ===== verification/Bytes.v ===== *)
(** * Byte-level memory

    Little-endian integers and byte-addressed regions, shared by the components
    that define a memory or wire layout ([KVCacheMetadata.v], [ChunkSerializer.v]).
    A byte is an integer in [0, 256); a region is the list of its bytes. *)

From S2P Require Import Prelude.

Definition is_byte (b : Z) : Prop := 0 <= b < 256.

#[global] Instance is_byte_dec b : Decision (is_byte b).
Proof. unfold is_byte. apply _. Defined.

(** ** Little-endian integers *)

Fixpoint le_bytes (n : nat) (z : Z) : list Z :=
  match n with
  | O => []
  | S n' => z mod 256 :: le_bytes n' (z / 256)
  end.

Fixpoint of_le (bs : list Z) : Z :=
  match bs with
  | [] => 0
  | b :: bs' => b + 256 * of_le bs'
  end.

Lemma length_le_bytes n z : length (le_bytes n z) = n.
Proof. revert z; induction n; intros z; simpl; auto. Qed.

Lemma le_bytes_is_byte n z : Forall is_byte (le_bytes n z).
Proof.
  revert z; induction n as [|n IH]; intros z; simpl; constructor; [|apply IH].
  apply Z.mod_pos_bound. lia.
Qed.

Lemma of_le_le_bytes n z : 0 <= z < 256 ^ Z.of_nat n -> of_le (le_bytes n z) = z.
Proof.
  revert z; induction n as [|n IH]; intros z Hz; simpl.
  - change (256 ^ Z.of_nat 0) with 1 in Hz. lia.
  - rewrite Nat2Z.inj_succ, Z.pow_succ_r in Hz by lia.
    rewrite IH; [pose proof (Z.div_mod z 256); lia|].
    split; [apply Z.div_pos; lia|apply Z.div_lt_upper_bound; lia].
Qed.

Lemma of_le_range bs : Forall is_byte bs -> 0 <= of_le bs < 256 ^ Z.of_nat (length bs).
Proof.
  unfold is_byte. induction 1 as [|b bs Hb Hbs IH]; cbn [of_le length].
  - change (256 ^ Z.of_nat 0) with 1. lia.
  - rewrite Nat2Z.inj_succ, Z.pow_succ_r by lia. lia.
Qed.

Lemma le_bytes_of_le bs : Forall is_byte bs -> le_bytes (length bs) (of_le bs) = bs.
Proof.
  unfold is_byte. induction 1 as [|b bs Hb Hbs IH]; simpl; [done|].
  rewrite (Z.mul_comm 256), Z.mod_add, Z.mod_small by lia.
  rewrite Z.div_add, (Z.div_small b) by lia. by rewrite Z.add_0_l, IH.
Qed.

(** ** Loads *)

Definition load (mem : list Z) (off len : nat) : list Z := take len (drop off mem).

Lemma length_load mem off len : (off + len <= length mem)%nat -> length (load mem off len) = len.
Proof. intros. unfold load. rewrite length_take, length_drop. lia. Qed.

Lemma lookup_load mem off len i : (i < len)%nat -> load mem off len !! i = mem !! (off + i)%nat.
Proof. intros. unfold load. by rewrite lookup_take_lt, lookup_drop. Qed.

(** A load only depends on the bytes it covers. *)
Lemma load_ext mem1 mem2 off len :
  (forall o, (off <= o < off + len)%nat -> mem1 !! o = mem2 !! o) ->
  load mem1 off len = load mem2 off len.
Proof.
  intros H. apply list_eq. intros i. unfold load. destruct (decide (i < len)%nat) as [Hi|Hi].
  - rewrite !lookup_take_lt, !lookup_drop by done. apply H. lia.
  - rewrite !lookup_take_ge by lia. done.
Qed.

(** What a load returns, byte by byte. *)
Lemma load_eq mem off bs :
  (forall i b, bs !! i = Some b -> mem !! (off + i)%nat = Some b) ->
  load mem off (length bs) = bs.
Proof.
  intros H. apply list_eq. intros i. destruct (bs !! i) as [b|] eqn:Hb.
  - rewrite lookup_load by (by eapply lookup_lt_Some). by apply H.
  - apply lookup_ge_None in Hb. unfold load. by rewrite lookup_take_ge.
Qed.

(** A field of an object that lies at the start of the memory. *)
Lemma load_field mem bs pre f post off len :
  (forall i b, bs !! i = Some b -> mem !! i = Some b) ->
  bs = pre ++ f ++ post -> length pre = off -> length f = len -> load mem off len = f.
Proof.
  intros Hmem -> <- <-. apply load_eq. intros i b Hi. apply Hmem.
  rewrite lookup_app_r by lia. replace (length pre + i - length pre)%nat with i by lia.
  rewrite lookup_app_l; [done|]. by eapply lookup_lt_Some.
Qed.

(** ** Byte stores *)

(** One byte store: the address and the byte. *)
Definition Store : Type := nat * Z.

Definition exec (stores : list Store) (mem : list Z) : list Z :=
  foldl (fun mem s => <[s.1 := s.2]> mem) mem stores.

(** The stores of a multi-byte object: one per byte, in address order. *)
Definition bytes_at (off : nat) (bs : list Z) : list Store := imap (fun i b => ((off + i)%nat, b)) bs.

Lemma exec_app ws1 ws2 mem : exec (ws1 ++ ws2) mem = exec ws2 (exec ws1 mem).
Proof. apply foldl_app. Qed.

Lemma length_exec ws mem : length (exec ws mem) = length mem.
Proof. revert mem; induction ws as [|w ws IH]; intros mem; simpl; [done|]. by rewrite IH, length_insert. Qed.

Lemma lookup_exec_ne ws mem o : o ∉ ws.*1 -> exec ws mem !! o = mem !! o.
Proof.
  revert mem; induction ws as [|w ws IH]; intros mem Ho; [done|].
  rewrite fmap_cons, not_elem_of_cons in Ho. destruct Ho as [H1 H2].
  simpl. rewrite IH by done. by apply list_lookup_insert_ne.
Qed.

(** Stores to distinct addresses: the value of each address does not depend on
    the order they are performed in. *)
Lemma lookup_exec_eq ws mem o b :
  NoDup (ws.*1) -> (o, b) ∈ ws -> (o < length mem)%nat -> exec ws mem !! o = Some b.
Proof.
  revert mem; induction ws as [|w ws IH]; intros mem Hnd Hin Ho; [by apply elem_of_nil in Hin|].
  rewrite fmap_cons in Hnd. apply NoDup_cons in Hnd as [Hw Hnd].
  apply elem_of_cons in Hin as [<-|Hin]; simpl.
  - rewrite lookup_exec_ne by done. by apply list_lookup_insert_eq.
  - apply IH; [done..|]. by rewrite length_insert.
Qed.

Lemma elem_of_bytes_at off bs o b :
  (o, b) ∈ bytes_at off bs <-> exists i, o = (off + i)%nat /\ bs !! i = Some b.
Proof. unfold bytes_at. rewrite elem_of_lookup_imap. naive_solver. Qed.

Lemma elem_of_bytes_at_fst off bs o : o ∈ (bytes_at off bs).*1 <-> (off <= o < off + length bs)%nat.
Proof.
  rewrite list_elem_of_fmap. split.
  - intros ([o' b] & -> & (i & -> & Hi)%elem_of_bytes_at). apply lookup_lt_Some in Hi. simpl. lia.
  - intros Ho. destruct (lookup_lt_is_Some_2 bs (o - off)%nat) as [b Hb]; [lia|].
    exists (o, b). split; [done|]. apply elem_of_bytes_at. exists (o - off)%nat. split; [lia|done].
Qed.

Lemma NoDup_bytes_at off bs : NoDup ((bytes_at off bs).*1).
Proof.
  unfold bytes_at. rewrite fmap_imap. revert off. induction bs as [|b bs IH]; intros off; simpl; [constructor|].
  constructor.
  - intros Hin. apply elem_of_lookup_imap in Hin as (i & y & Heq & _). simpl in Heq. lia.
  - erewrite imap_ext; [apply (IH (S off))|]. intros i x _. simpl. lia.
Qed.

#[export] Hint Rewrite elem_of_bytes_at_fst : tpusync_elem.
