(* ===== verification/KVCacheMetadata.v ===== *)
(** * The crash-surviving binding table ([src/tpu_sync/kv_cache/kv_cache_metadata.cc])

    A table of hash-to-block bindings laid out in a shared memory region: a
    128-byte header and one 128-byte entry per block.  The model is at byte level:
    the region is the list of its bytes, the fields are little-endian loads at the
    offsets the structs declare, and an update is the list of byte stores the
    source performs, so that a crash is a prefix of it.  [table_refines] relates
    the bytes to a finite map from block ids to bindings. *)

From S2P Require Import Prelude Bytes.

Module KVMeta.

(** ** Layout *)

Definition kHeaderSize : nat := 128.
Definition kEntrySize : nat := 128.
Definition kModelUidSize : nat := 64.
Definition kMaxHashLength : nat := 112.
Definition kAlign : Z := 64.

Record KVCacheMetadataHeader : Type := mkHeader {
  magic : Z;
  version : Z;
  hdr_num_blocks : Z;
  entry_size : Z;
  model_uid : list Z
}.

(** The default member initializers. *)
Definition default_header : KVCacheMetadataHeader :=
  mkHeader 5927099142165646157 1 0 0 (replicate kModelUidSize 0).

(** The object representation: the fields, then 44 bytes of alignment padding
    whose values the language leaves open. *)
Definition header_bytes (h : KVCacheMetadataHeader) (padding : nat -> Z) : list Z :=
  le_bytes 8 (magic h) ++ le_bytes 4 (version h) ++ le_bytes 4 (hdr_num_blocks h) ++
  le_bytes 4 (entry_size h) ++ model_uid h ++ (padding <$> seq 0 44).

Definition read_header (mem : list Z) : KVCacheMetadataHeader :=
  mkHeader (of_le (load mem 0 8)) (of_le (load mem 8 4)) (of_le (load mem 12 4))
    (of_le (load mem 16 4)) (load mem 20 kModelUidSize).

Record KVCacheMetadataEntry : Type := mkSlot {
  seq_ : Z;
  hash_len : Z;
  valid : Z;
  hash_ : list Z
}.

Definition read_slot (mem : list Z) (off : nat) : KVCacheMetadataEntry :=
  mkSlot (of_le (load mem off 8)) (of_le (load mem (off + 8) 2)) (of_le (load mem (off + 10) 1))
    (load mem (off + 16) kMaxHashLength).

(** ** Regions *)

(** [absl::Span<uint8_t>]: the address ([None] for null) and the bytes. *)
Record Span : Type := mkSpan { data : option Z; mem_ : list Z }.

Definition RequiredSizeBytes (num_blocks : Z) : Z :=
  u64 (Z.of_nat kHeaderSize + u64 (u64 num_blocks * Z.of_nat kEntrySize)).

Definition ValidateRegion (region : Span) (num_blocks : Z) (uid : list Z) : Status :=
  if num_blocks <=? 0 then
    Err kInvalidArgument StrCat["num_blocks must be positive, got "; num_blocks]
  else if (kModelUidSize <=? length uid)%nat then
    Err kInvalidArgument
      StrCat["model_uid length "; Z.of_nat (length uid); " exceeds the maximum of ";
             Z.of_nat kModelUidSize - 1]
  else
    match data region with
    | None => Err kInvalidArgument StrCat["Metadata region is null"]
    | Some addr =>
        if negb (addr mod kAlign =? 0) then
          Err kInvalidArgument StrCat["Metadata region must be "; kAlign; "-byte aligned"]
        else
          let required := RequiredSizeBytes num_blocks in
          if Z.of_nat (length (mem_ region)) <? required then
            Err kInvalidArgument
              StrCat["Metadata region too small: "; Z.of_nat (length (mem_ region));
                     " bytes, need "; required]
          else OkStatus
    end.

(** The view: [header_] and [entries_] are pointers into the region, here offsets. *)
Record KVCacheMetadata : Type := mkView {
  header_ : nat;
  entries_ : nat;
  num_blocks_ : Z
}.

Definition view (num_blocks : Z) : KVCacheMetadata := mkView 0 kHeaderSize num_blocks.

(** [std::memcpy(fresh.model_uid, model_uid.data(), model_uid.size())] over a zeroed array. *)
Definition copy_uid (uid : list Z) : list Z := uid ++ replicate (kModelUidSize - length uid) 0.

Definition fresh_header (num_blocks : Z) (uid : list Z) : KVCacheMetadataHeader :=
  mkHeader (magic default_header) (version default_header) (u32 num_blocks) (Z.of_nat kEntrySize)
    (copy_uid uid).

Definition Format (region : Span) (num_blocks : Z) (uid : list Z) (padding : nat -> Z) :
    StatusOr KVCacheMetadata * list Z :=
  match ValidateRegion region num_blocks uid with
  | Err code msg => (Err code msg, mem_ region)
  | Ok _ =>
      let mem := exec (bytes_at 0 (replicate (Z.to_nat (RequiredSizeBytes num_blocks)) 0)) (mem_ region) in
      let mem := exec (bytes_at 0 (header_bytes (fresh_header num_blocks uid) padding)) mem in
      (Ok (view num_blocks), mem)
  end.

(** [strnlen] as a view: the bytes before the first NUL. *)
Fixpoint c_string (bs : list Z) : list Z :=
  match bs with
  | [] => []
  | b :: bs' => if b =? 0 then [] else b :: c_string bs'
  end.

Definition string_of_bytes (bs : list Z) : string :=
  foldr (fun b s => String (Ascii.ascii_of_N (Z.to_N b)) s) EmptyString bs.
Definition quote : string := String (Ascii.ascii_of_nat 34) EmptyString.

Definition Attach (region : Span) (num_blocks : Z) (uid : list Z) : StatusOr KVCacheMetadata :=
  let? _ := ValidateRegion region num_blocks uid in
  let header := read_header (mem_ region) in
  let expected := default_header in
  if negb (magic header =? magic expected) then
    Err kFailedPrecondition StrCat["Metadata region magic mismatch"]
  else if negb (version header =? version expected) then
    Err kFailedPrecondition
      StrCat["Metadata region version mismatch: "; version header; " vs "; version expected]
  else if negb (entry_size header =? Z.of_nat kEntrySize) then
    Err kFailedPrecondition
      StrCat["Metadata entry size mismatch: "; entry_size header; " vs "; Z.of_nat kEntrySize]
  else if negb (hdr_num_blocks header =? u32 num_blocks) then
    Err kFailedPrecondition
      StrCat["Metadata num_blocks mismatch: "; hdr_num_blocks header; " vs "; num_blocks]
  else
    let recorded_uid := c_string (model_uid header) in
    if negb (bool_decide (recorded_uid = uid)) then
      Err kFailedPrecondition
        StrCat["Metadata model_uid mismatch: "; quote; string_of_bytes recorded_uid; quote; " vs ";
               quote; string_of_bytes uid; quote]
    else Ok (view num_blocks).

(** ** Updates *)

Implicit Types (v : KVCacheMetadata) (mem hash : list Z).

Definition entry_off v (block_id : Z) : nat := (entries_ v + kEntrySize * Z.to_nat block_id)%nat.

Definition store_valid v (block_id : Z) (b : Z) : Store := ((entry_off v block_id + 10)%nat, b).

(** The plain stores of [Set]: [seq], [hash_len] and the copied hash. *)
Definition plain_stores v (block_id : Z) hash (seq : Z) : list Store :=
  bytes_at (entry_off v block_id) (le_bytes 8 seq) ++
  bytes_at (entry_off v block_id + 8) (le_bytes 2 (Z.of_nat (length hash))) ++
  bytes_at (entry_off v block_id + 16) hash.

Definition set_stores v (block_id : Z) hash (seq : Z) : list Store :=
  [store_valid v block_id 0] ++ plain_stores v block_id hash seq ++ [store_valid v block_id 1].

Definition check_block v (block_id : Z) : Status :=
  if (block_id <? 0) || (num_blocks_ v <=? block_id) then
    Err kInvalidArgument StrCat["Block ID out of range: "; block_id]
  else OkStatus.

Definition check_set v (block_id : Z) hash : Status :=
  let? _ := check_block v block_id in
  if (length hash =? 0)%nat then Err kInvalidArgument StrCat["Hash must not be empty"]
  else if (kMaxHashLength <? length hash)%nat then
    Err kInvalidArgument
      StrCat["Hash length "; Z.of_nat (length hash); " exceeds the maximum of "; Z.of_nat kMaxHashLength]
  else OkStatus.

Definition Set_ v mem (block_id : Z) hash (seq : Z) : Status * list Z :=
  match check_set v block_id hash with
  | Err code msg => (Err code msg, mem)
  | Ok _ => (OkStatus, exec (set_stores v block_id hash seq) mem)
  end.

Definition Clear v mem (block_id : Z) : Status * list Z :=
  match check_block v block_id with
  | Err code msg => (Err code msg, mem)
  | Ok _ => (OkStatus, exec [store_valid v block_id 0] mem)
  end.

Record Entry : Type := mkEntry {
  entry_block_id : Z;
  entry_hash : list Z;
  entry_seq : Z
}.

(** One iteration of [ValidEntries]: the entry of a slot, unless it is skipped. *)
Definition valid_entry v mem (i : Z) : option Entry :=
  let entry := read_slot mem (entry_off v i) in
  if valid entry =? 0 then None
  else if (hash_len entry =? 0) || (Z.of_nat kMaxHashLength <? hash_len entry) then None
  else Some (mkEntry i (take (Z.to_nat (hash_len entry)) (hash_ entry)) (seq_ entry)).

Definition ValidEntries v mem : list Entry := omap (valid_entry v mem) (zrange 0 (num_blocks_ v)).

(** ** Calls, and the map they implement *)

Inductive Op : Type :=
  | OpSet (block_id : Z) (hash : list Z) (seq : Z)
  | OpClear (block_id : Z).

Definition apply_op v (o : Op) mem : list Z :=
  match o with
  | OpSet id h s => (Set_ v mem id h s).2
  | OpClear id => (Clear v mem id).2
  end.
Definition op_status v (o : Op) : Status :=
  match o with
  | OpSet id h _ => check_set v id h
  | OpClear id => check_block v id
  end.
Definition run v (ops : list Op) mem : list Z := foldl (fun mem o => apply_op v o mem) mem ops.

(** The abstract table: at most one binding per block. *)
Abbreviation Table := (gmap Z (list Z * Z)).

Definition spec_op v (o : Op) (t : Table) : Table :=
  if ok (op_status v o) then
    match o with
    | OpSet id h s => <[id := (h, s)]> t
    | OpClear id => delete id t
    end
  else t.
Definition spec_run v (ops : list Op) (t : Table) : Table := foldl (fun t o => spec_op v o t) t ops.

(** The arguments a C++ caller can pass: [seq] is a [uint64_t] and the hash is bytes. *)
Definition op_typed (o : Op) : Prop :=
  match o with
  | OpSet _ h s => Forall is_byte h /\ 0 <= s < 2 ^ 64
  | OpClear _ => True
  end.

Definition binding (t : Table) (i : Z) : option Entry :=
  (fun b => mkEntry i b.1 b.2) <$> t !! i.

(** The listing of a table, in block order. *)
Definition spec_entries v (t : Table) : list Entry := omap (binding t) (zrange 0 (num_blocks_ v)).

(** The byte image of a table. *)
Record represents v mem (t : Table) : Prop := {
  rep_view : v = view (num_blocks_ v);
  rep_size : (kHeaderSize + kEntrySize * Z.to_nat (num_blocks_ v) <= length mem)%nat;
  rep_entries i : 0 <= i < num_blocks_ v -> valid_entry v mem i = binding t i
}.

(** The stores of a call; [order] rearranges the plain stores, which nothing orders
    among themselves. *)
Definition op_stores v (o : Op) (order : list Store) : list Store :=
  match o with
  | OpSet id _ _ => [store_valid v id 0] ++ order ++ [store_valid v id 1]
  | OpClear id => [store_valid v id 0]
  end.
Definition op_order v (o : Op) (order : list Store) : Prop :=
  match o with
  | OpSet id h s => order ≡ₚ plain_stores v id h s
  | OpClear _ => order = []
  end.
Definition op_block (o : Op) : Z := match o with OpSet id _ _ => id | OpClear id => id end.

(** The table a crash leaves: [k] of the [total] stores of the call were performed. *)
Definition crash_table v (o : Op) (k total : nat) (t : Table) : Table :=
  if (k =? 0)%nat then t else if (k <? total)%nat then delete (op_block o) t else spec_op v o t.

(** The orders the language allows for the stores of [Set]: a release store keeps
    the earlier stores before it, so the plain stores precede the commit, but
    nothing keeps a later plain store after the invalidation. *)
Definition release_order v (id : Z) hash (seq : Z) (ws : list Store) : Prop :=
  exists ws', ws = ws' ++ [store_valid v id 1] /\
    ws' ≡ₚ store_valid v id 0 :: plain_stores v id hash seq.

(** ** Slots and stores *)

Lemma plain_stores_range v id hash seq o :
  (length hash <= kMaxHashLength)%nat -> o ∈ (plain_stores v id hash seq).*1 ->
  (entry_off v id <= o < entry_off v id + kEntrySize)%nat /\ o ≠ (entry_off v id + 10)%nat.
Proof.
  unfold plain_stores, kMaxHashLength, kEntrySize. intros Hlen. rewrite !fmap_app.
  autorewrite with tpusync_elem. rewrite !length_le_bytes. lia.
Qed.

Lemma plain_stores_NoDup v id hash seq : NoDup ((plain_stores v id hash seq).*1).
Proof.
  unfold plain_stores. rewrite !fmap_app.
  repeat (apply NoDup_app; split_and!; [apply NoDup_bytes_at| |]); [| |apply NoDup_bytes_at];
    intros o; autorewrite with tpusync_elem; rewrite !length_le_bytes; lia.
Qed.

(** The slots of different blocks do not overlap. *)
Lemma entry_off_disjoint v i j o : 0 <= i -> 0 <= j -> i ≠ j ->
  (entry_off v i <= o < entry_off v i + kEntrySize)%nat ->
  ~ (entry_off v j <= o < entry_off v j + kEntrySize)%nat.
Proof. unfold entry_off, kEntrySize. lia. Qed.

Lemma valid_entry_ext v mem1 mem2 i :
  (forall o, (entry_off v i <= o < entry_off v i + kEntrySize)%nat -> mem1 !! o = mem2 !! o) ->
  valid_entry v mem1 i = valid_entry v mem2 i.
Proof.
  intros H. unfold valid_entry, read_slot. unfold kEntrySize, kMaxHashLength in *.
  rewrite (load_ext mem1 mem2 (entry_off v i) 8), (load_ext mem1 mem2 (entry_off v i + 8) 2),
    (load_ext mem1 mem2 (entry_off v i + 10) 1), (load_ext mem1 mem2 (entry_off v i + 16) 112);
    [done|intros; apply H; lia..].
Qed.

Lemma load_byte mem o b : mem !! o = Some b -> load mem o 1 = [b].
Proof.
  intros H. apply (load_eq mem o [b]). intros [|i] b' Hi; simplify_eq/=. by rewrite Nat.add_0_r.
Qed.

Lemma valid_entry_cleared v mem i :
  mem !! (entry_off v i + 10)%nat = Some 0 -> valid_entry v mem i = None.
Proof. intros H. unfold valid_entry, read_slot. simpl. by rewrite (load_byte _ _ _ H). Qed.

Lemma valid_entry_written v mem i h s :
  (0 < length h <= kMaxHashLength)%nat -> 0 <= s < 2 ^ 64 ->
  mem !! (entry_off v i + 10)%nat = Some 1 ->
  (forall o b, (o, b) ∈ plain_stores v i h s -> mem !! o = Some b) ->
  valid_entry v mem i = Some (mkEntry i h s).
Proof.
  intros Hlen Hs Hvalid Hplain. unfold plain_stores in Hplain. unfold kMaxHashLength in Hlen.
  assert (Hread : forall off n bs, length bs = n ->
            (forall o b, (o, b) ∈ bytes_at off bs -> mem !! o = Some b) -> load mem off n = bs).
  { intros off n bs <- Hb. apply load_eq. intros j b Hj. apply Hb, elem_of_bytes_at. eauto. }
  setoid_rewrite elem_of_app in Hplain. setoid_rewrite elem_of_app in Hplain.
  assert (Hs8 : load mem (entry_off v i) 8 = le_bytes 8 s) by (apply Hread; [done|auto]).
  assert (Hl2 : load mem (entry_off v i + 8) 2 = le_bytes 2 (Z.of_nat (length h)))
    by (apply Hread; [done|auto]).
  assert (Hh : load mem (entry_off v i + 16) (length h) = h) by (apply Hread; [done|auto]).
  unfold valid_entry, read_slot, kMaxHashLength. cbn [valid hash_len hash_ seq_].
  rewrite (load_byte _ _ _ Hvalid), Hs8, Hl2. cbn -[le_bytes load of_le Z.ltb Z.eqb].
  rewrite !of_le_le_bytes by lia. change (of_le [1] =? 0) with false. cbn [negb].
  rewrite (proj2 (Z.eqb_neq _ 0)), (proj2 (Z.ltb_ge 112 _)) by lia. cbn [orb].
  rewrite Nat2Z.id. f_equal. f_equal. rewrite <-Hh at 2. unfold load.
  rewrite take_take. f_equal. lia.
Qed.

(** ** One call *)

Lemma check_block_ok v id : ok (check_block v id) = true <-> 0 <= id < num_blocks_ v.
Proof.
  unfold check_block. destruct ((id <? 0) || (num_blocks_ v <=? id)) eqn:E; simpl; to_prop;
    split; intros; try done; lia.
Qed.
Lemma check_set_ok v id h :
  ok (check_set v id h) = true <-> 0 <= id < num_blocks_ v /\ (0 < length h <= kMaxHashLength)%nat.
Proof.
  unfold check_set. rewrite <-check_block_ok. destruct (check_block v id); simpl; [|naive_solver].
  destruct (length h =? 0)%nat eqn:E1; [simpl; to_prop; split; [done|lia]|].
  destruct (kMaxHashLength <? length h)%nat eqn:E2; simpl; to_prop; split; intros; try done; lia.
Qed.

(** The stores of a call stay in the slot of its block. *)
Lemma op_stores_slot v o order a :
  ok (op_status v o) = true -> op_order v o order -> a ∈ (op_stores v o order).*1 ->
  (entry_off v (op_block o) <= a < entry_off v (op_block o) + kEntrySize)%nat.
Proof.
  intros Hok Hord. destruct o as [id h s|id]; simpl in *.
  - apply check_set_ok in Hok as [_ Hlen]. rewrite fmap_app. simpl.
    autorewrite with tpusync_elem. rewrite Hord. unfold kEntrySize.
    intros [->|[Hin|[->|[]]]]; [lia| |lia].
    by apply (plain_stores_range v id h s a) in Hin as [? _]; [|lia].
  - autorewrite with tpusync_elem. unfold kEntrySize. intros [->|[]]. lia.
Qed.

Lemma op_block_range v o : ok (op_status v o) = true -> 0 <= op_block o < num_blocks_ v.
Proof. destruct o; simpl; [by intros []%check_set_ok|by intros ?%check_block_ok]. Qed.

(** Stores to one slot leave the other entries alone. *)
Lemma slot_frame v ws mem i id :
  0 <= i -> 0 <= id -> i ≠ id ->
  (forall a, a ∈ ws.*1 -> (entry_off v id <= a < entry_off v id + kEntrySize)%nat) ->
  valid_entry v (exec ws mem) i = valid_entry v mem i.
Proof.
  intros Hi Hid Hne Hws. apply valid_entry_ext. intros o Ho. apply lookup_exec_ne.
  intros Hin%Hws. by eapply (entry_off_disjoint v i id).
Qed.

(** Every byte of a slot is inside the region. *)
Lemma slot_in_region v mem t i k :
  represents v mem t -> 0 <= i < num_blocks_ v -> (k < kEntrySize)%nat ->
  (entry_off v i + k < length mem)%nat.
Proof.
  intros [Hv Hsize _] Hi Hk. rewrite Hv in Hsize |- *.
  unfold entry_off, kEntrySize, kHeaderSize in *. simpl in *. nia.
Qed.

(** The slot after all the stores of [Set], in any order of the plain stores. *)
Lemma set_stores_entry v mem t id h s order :
  represents v mem t -> 0 <= id < num_blocks_ v -> (0 < length h <= kMaxHashLength)%nat ->
  0 <= s < 2 ^ 64 -> order ≡ₚ plain_stores v id h s ->
  valid_entry v (exec ([store_valid v id 0] ++ order ++ [store_valid v id 1]) mem) id
  = Some (mkEntry id h s).
Proof.
  intros Hrep Hid Hlen Hs Hord. rewrite !exec_app. apply valid_entry_written; [done..| |]; simpl.
  - apply list_lookup_insert_eq. rewrite length_exec, length_insert.
    eapply slot_in_region; [done..|]. unfold kEntrySize. lia.
  - intros o b Hin. rewrite <-Hord in Hin.
    assert (Ho : o ∈ (plain_stores v id h s).*1).
    { rewrite <-Hord. apply list_elem_of_fmap. by exists (o, b). }
    apply plain_stores_range in Ho as [Hr Hne10]; [|lia].
    rewrite list_lookup_insert_ne by done. apply lookup_exec_eq; [|done|].
    + rewrite Hord. apply plain_stores_NoDup.
    + rewrite length_insert. replace o with (entry_off v id + (o - entry_off v id))%nat by lia.
      eapply slot_in_region; [done..|]. lia.
Qed.

(** The binding of the slot a call updates. *)
Lemma op_complete_slot v mem t o order :
  represents v mem t -> op_typed o -> ok (op_status v o) = true -> op_order v o order ->
  valid_entry v (exec (op_stores v o order) mem) (op_block o) = binding (spec_op v o t) (op_block o).
Proof.
  intros Hrep Hty Hok Hord. unfold spec_op, binding. rewrite Hok.
  destruct o as [id h s|id]; cbn [op_block op_stores op_status op_typed op_order] in *.
  - apply check_set_ok in Hok as [Hid Hlen]. rewrite (lookup_insert_eq t). simpl.
    apply (set_stores_entry v mem t); tauto.
  - rewrite lookup_delete_eq. simpl. apply valid_entry_cleared, list_lookup_insert_eq.
    eapply slot_in_region; [done|by apply check_block_ok|]. unfold kEntrySize. lia.
Qed.

Lemma binding_other v t o i : i ≠ op_block o -> binding (spec_op v o t) i = binding t i.
Proof.
  intros Hne. unfold binding, spec_op. destruct (ok _); [|done]. destruct o; simpl in *.
  - by rewrite lookup_insert_ne.
  - by rewrite lookup_delete_ne.
Qed.

(** A completed call implements the abstract one, in any order of the plain stores. *)
Lemma op_complete v mem t o order :
  represents v mem t -> op_typed o -> ok (op_status v o) = true -> op_order v o order ->
  represents v (exec (op_stores v o order) mem) (spec_op v o t).
Proof.
  intros Hrep Hty Hok Hord. split; [apply Hrep|rewrite length_exec; apply Hrep|]. intros i Hi.
  destruct (decide (i = op_block o)) as [->|Hne]; [by apply op_complete_slot|].
  rewrite (slot_frame v _ mem i (op_block o)); [|lia|apply op_block_range in Hok; lia|done|].
  - rewrite binding_other by done. by apply Hrep.
  - intros a. by apply op_stores_slot.
Qed.

(** A crash between the first and the last store of a call leaves the block unbound. *)
Lemma op_partial v mem t o order k :
  represents v mem t -> ok (op_status v o) = true -> op_order v o order ->
  (0 < k < length (op_stores v o order))%nat ->
  represents v (exec (take k (op_stores v o order)) mem) (delete (op_block o) t).
Proof.
  intros Hrep Hok Hord Hk. split; [apply Hrep|rewrite length_exec; apply Hrep|]. intros i Hi.
  assert (Hslot : forall a, a ∈ (take k (op_stores v o order)).*1 ->
            (entry_off v (op_block o) <= a < entry_off v (op_block o) + kEntrySize)%nat).
  { intros a Ha. rewrite fmap_take in Ha. apply elem_of_take_weaken in Ha. by eapply op_stores_slot. }
  unfold binding. destruct (decide (i = op_block o)) as [->|Hne].
  - rewrite lookup_delete_eq. simpl. destruct o as [id h s|id]; simpl in *; [|lia].
    destruct k as [|k]; [lia|]. simpl. rewrite take_app_le by (rewrite length_app in Hk; simpl in Hk; lia).
    apply valid_entry_cleared. apply check_set_ok in Hok as [Hid Hlen].
    rewrite lookup_exec_ne.
    + apply list_lookup_insert_eq. eapply slot_in_region; [done..|]. unfold kEntrySize. lia.
    + rewrite fmap_take. intros Ha%elem_of_take_weaken. rewrite Hord in Ha.
      apply plain_stores_range in Ha as [_ []]; [done|lia].
  - rewrite lookup_delete_ne by done. fold (binding t i). rewrite <-(rep_entries _ _ _ Hrep) by done.
    apply slot_frame with (op_block o); [lia|apply op_block_range in Hok; lia|done|done].
Qed.

Lemma apply_op_stores v o mem :
  exists order, op_order v o order /\
    apply_op v o mem = if ok (op_status v o) then exec (op_stores v o order) mem else mem.
Proof.
  destruct o as [id h s|id]; simpl.
  - exists (plain_stores v id h s). split; [done|]. unfold Set_. by destruct (check_set v id h).
  - exists []. split; [done|]. unfold Clear. by destruct (check_block v id).
Qed.

Lemma apply_op_represents v o mem t :
  represents v mem t -> op_typed o -> represents v (apply_op v o mem) (spec_op v o t).
Proof.
  intros Hrep Hty. destruct (apply_op_stores v o mem) as (order & Hord & ->).
  destruct (ok (op_status v o)) eqn:Hok; [by apply op_complete|].
  unfold spec_op. by rewrite Hok.
Qed.

Lemma meta_run_represents v ops mem t :
  represents v mem t -> Forall op_typed ops -> represents v (run v ops mem) (spec_run v ops t).
Proof.
  intros Hrep Hty. revert mem t Hrep. induction Hty as [|o ops Ho _ IH]; intros mem t Hrep; [done|].
  apply IH. by apply apply_op_represents.
Qed.

Lemma represents_entries v mem t : represents v mem t -> ValidEntries v mem = spec_entries v t.
Proof.
  intros Hrep. unfold ValidEntries, spec_entries.
  assert (Hall : Forall (fun i => valid_entry v mem i = binding t i) (zrange 0 (num_blocks_ v))).
  { apply Forall_forall. intros i Hi%elem_of_zrange. apply Hrep. lia. }
  induction Hall as [|i l Hi _ IH]; [done|]. cbn. rewrite Hi. by destruct (binding t i); rewrite <-IH.
Qed.

(** ** Headers *)

Lemma validate_region_ok region n uid :
  ok (ValidateRegion region n uid) = true -> in_int32 n ->
  0 < n /\ (length uid < kModelUidSize)%nat /\
  RequiredSizeBytes n = Z.of_nat (kHeaderSize + kEntrySize * Z.to_nat n) /\
  (kHeaderSize + kEntrySize * Z.to_nat n <= length (mem_ region))%nat.
Proof.
  unfold ValidateRegion, in_int32, int32_max, int32_min. intros Hok Hn.
  destruct (n <=? 0) eqn:E1; [done|]. destruct (kModelUidSize <=? length uid)%nat eqn:E2; [done|].
  destruct (data region) as [addr|]; [|done]. destruct (negb _); [done|]. cbv zeta in Hok.
  assert (Hreq : RequiredSizeBytes n = Z.of_nat (kHeaderSize + kEntrySize * Z.to_nat n)).
  { to_prop. unfold RequiredSizeBytes, kHeaderSize, kEntrySize.
    rewrite (u64_id n), (u64_id (n * _)), u64_id; lia. }
  rewrite Hreq in Hok.
  destruct (Z.of_nat (length (mem_ region)) <? _) eqn:E3; [done|]. to_prop. lia.
Qed.

Lemma validate_region_length region mem n uid :
  length mem = length (mem_ region) ->
  ValidateRegion (mkSpan (data region) mem) n uid = ValidateRegion region n uid.
Proof. intros Hlen. unfold ValidateRegion. simpl. by rewrite Hlen. Qed.

Lemma read_header_ext mem1 mem2 :
  (forall o, (o < kHeaderSize)%nat -> mem1 !! o = mem2 !! o) -> read_header mem1 = read_header mem2.
Proof.
  intros H. unfold read_header. unfold kHeaderSize, kModelUidSize in *.
  rewrite (load_ext mem1 mem2 0 8), (load_ext mem1 mem2 8 4), (load_ext mem1 mem2 12 4),
    (load_ext mem1 mem2 16 4), (load_ext mem1 mem2 20 64); [done|intros; apply H; lia..].
Qed.

Lemma length_header_bytes h pad :
  length (model_uid h) = kModelUidSize -> length (header_bytes h pad) = kHeaderSize.
Proof.
  intros H. unfold header_bytes. rewrite !length_app, !length_le_bytes, length_fmap, length_seq, H. done.
Qed.

(** Reading back a header that was copied to the start of the region. *)
Lemma read_header_bytes mem h pad :
  length (model_uid h) = kModelUidSize ->
  0 <= magic h < 2 ^ 64 -> 0 <= version h < 2 ^ 32 -> 0 <= hdr_num_blocks h < 2 ^ 32 ->
  0 <= entry_size h < 2 ^ 32 ->
  (forall i b, header_bytes h pad !! i = Some b -> mem !! i = Some b) -> read_header mem = h.
Proof.
  intros Hu Hm Hv Hn He Hmem. destruct h as [m ve n e u]. unfold header_bytes in Hmem.
  cbn [magic version hdr_num_blocks entry_size model_uid] in *. unfold read_header.
  set (M := le_bytes 8 m) in *. set (V := le_bytes 4 ve) in *. set (N := le_bytes 4 n) in *.
  set (E := le_bytes 4 e) in *. set (P := pad <$> seq 0 44) in *.
  rewrite (load_field mem _ [] M (V ++ N ++ E ++ u ++ P) 0 8 Hmem),
    (load_field mem _ M V (N ++ E ++ u ++ P) 8 4 Hmem),
    (load_field mem _ (M ++ V) N (E ++ u ++ P) 12 4 Hmem),
    (load_field mem _ (M ++ V ++ N) E (u ++ P) 16 4 Hmem),
    (load_field mem _ (M ++ V ++ N ++ E) u P 20 kModelUidSize Hmem)
    by (done || by rewrite <-?app_assoc).
  unfold M, V, N, E. by rewrite !of_le_le_bytes.
Qed.

Lemma c_string_copy_uid uid : c_string (copy_uid uid) = c_string uid.
Proof.
  unfold copy_uid. generalize (kModelUidSize - length uid)%nat. intros k.
  induction uid as [|b uid IH]; simpl; [by destruct k|]. destruct (b =? 0); [done|]. by rewrite IH.
Qed.
Lemma c_string_no_nul uid : 0 ∉ uid -> c_string uid = uid.
Proof.
  induction uid as [|b uid IH]; [done|]. intros [Hb Hu]%not_elem_of_cons. simpl.
  rewrite (proj2 (Z.eqb_neq b 0)) by done. by rewrite IH.
Qed.

Lemma length_copy_uid uid : (length uid < kModelUidSize)%nat -> length (copy_uid uid) = kModelUidSize.
Proof. intros. unfold copy_uid. rewrite length_app, length_replicate. lia. Qed.

Lemma fresh_header_written mem n uid pad :
  (length uid < kModelUidSize)%nat -> (kHeaderSize <= length mem)%nat ->
  read_header (exec (bytes_at 0 (header_bytes (fresh_header n uid) pad)) mem) = fresh_header n uid.
Proof.
  intros Hu Hmem. apply read_header_bytes with pad;
    cbn [fresh_header default_header magic version hdr_num_blocks entry_size model_uid].
  - by apply length_copy_uid.
  - done.
  - done.
  - unfold u32. apply Z.mod_pos_bound. lia.
  - done.
  - intros i b Hi. apply lookup_exec_eq; [apply NoDup_bytes_at| |].
    + apply elem_of_bytes_at. by exists i.
    + apply lookup_lt_Some in Hi. rewrite length_header_bytes in Hi; [lia|]. by apply length_copy_uid.
Qed.

(** The zeroed entries after the header is written represent the empty table. *)
Lemma zeroed_represents mem n uid pad :
  (length uid < kModelUidSize)%nat ->
  (kHeaderSize + kEntrySize * Z.to_nat n <= length mem)%nat ->
  represents (view n)
    (exec (bytes_at 0 (header_bytes (fresh_header n uid) pad))
       (exec (bytes_at 0 (replicate (kHeaderSize + kEntrySize * Z.to_nat n) 0)) mem)) ∅.
Proof.
  intros Hu Hsize. split; [done|by rewrite !length_exec|]. intros i Hi.
  unfold binding. rewrite lookup_empty. cbn [fmap option_fmap option_map]. apply valid_entry_cleared.
  assert (Hrange : (kHeaderSize <= entry_off (view n) i + 10
                     < kHeaderSize + kEntrySize * Z.to_nat n)%nat).
  { unfold entry_off, view, kEntrySize in *. cbn [num_blocks_ entries_] in *. nia. }
  revert Hrange. generalize (entry_off (view n) i + 10)%nat. intros o Ho. rewrite lookup_exec_ne.
  - apply lookup_exec_eq; [apply NoDup_bytes_at| |lia]. apply elem_of_bytes_at. exists o.
    split; [lia|]. apply lookup_replicate. split; [done|lia].
  - autorewrite with tpusync_elem. rewrite length_header_bytes by (by apply length_copy_uid). lia.
Qed.

(** What [Format] leaves in a region it accepts. *)
Lemma format_region region n uid pad v mem :
  in_int32 n -> Format region n uid pad = (Ok v, mem) ->
  v = view n /\ length mem = length (mem_ region) /\ ok (ValidateRegion region n uid) = true /\
  read_header mem = fresh_header n uid /\ represents v mem ∅.
Proof.
  intros Hn. unfold Format. destruct (ValidateRegion region n uid) as [u|] eqn:Hval; [|done].
  intros Hf. pose proof (f_equal snd Hf) as Hmem. apply (f_equal fst) in Hf.
  cbn [fst snd] in *. assert (v = view n) as -> by congruence. clear Hf.
  destruct (validate_region_ok region n uid) as (Hpos & Hu & Hreq & Hsize); [by rewrite Hval|done|].
  rewrite Hreq, Nat2Z.id in Hmem. split_and!; [done| |done| |]; subst mem.
  - by rewrite !length_exec.
  - apply fresh_header_written; [done|]. rewrite length_exec. lia.
  - by apply zeroed_represents.
Qed.

(** The calls never touch the header. *)
Lemma op_stores_header v mem o order k t :
  represents v mem t -> ok (op_status v o) = true -> op_order v o order ->
  read_header (exec (take k (op_stores v o order)) mem) = read_header mem.
Proof.
  intros Hrep Hok Hord. apply read_header_ext. intros a Ha. apply lookup_exec_ne.
  rewrite fmap_take. intros Hin%elem_of_take_weaken. apply op_stores_slot in Hin; [|done..].
  rewrite (rep_view _ _ _ Hrep) in Hin. unfold entry_off, view in Hin. cbn [entries_] in Hin. lia.
Qed.

Lemma run_header v ops mem t :
  represents v mem t -> Forall op_typed ops ->
  read_header (run v ops mem) = read_header mem /\ length (run v ops mem) = length mem.
Proof.
  intros Hrep Hty. revert mem t Hrep. induction Hty as [|o ops Ho _ IH]; intros mem t Hrep; [done|].
  change (run v (o :: ops) mem) with (run v ops (apply_op v o mem)).
  destruct (IH _ _ (apply_op_represents _ _ _ _ Hrep Ho)) as [-> ->].
  destruct (apply_op_stores v o mem) as (order & Hord & ->).
  destruct (ok (op_status v o)) eqn:Hok; [|done]. rewrite length_exec. split; [|done].
  rewrite <-(firstn_all (op_stores v o order)). by eapply op_stores_header.
Qed.

(** [Attach] on a region whose header [Format] wrote. *)
Lemma attach_fresh dat mem n uid n' uid' :
  in_int32 n -> 0 < n -> in_int32 n' -> read_header mem = fresh_header n uid ->
  ok (ValidateRegion (mkSpan dat mem) n' uid') = true ->
  if bool_decide (n' = n /\ uid' = c_string uid) then Attach (mkSpan dat mem) n' uid' = Ok (view n')
  else exists msg, Attach (mkSpan dat mem) n' uid' = Err kFailedPrecondition msg.
Proof.
  intros Hn Hpos Hn' Hh Hval. pose proof (validate_region_ok _ _ _ Hval Hn') as (Hpos' & _ & _ & _).
  unfold Attach. destruct (ValidateRegion (mkSpan dat mem) n' uid'); [|done]. cbn [mem_]. rewrite Hh.
  cbn [fresh_header magic version entry_size hdr_num_blocks model_uid]. rewrite !Z.eqb_refl. cbn [negb].
  rewrite c_string_copy_uid. unfold in_int32, int32_max, u32 in *.
  rewrite !Z.mod_small by lia. destruct (n =? n') eqn:E; cbn [negb]; to_prop.
  - subst n'. destruct (decide (c_string uid = uid')) as [Hu|Hu].
    + rewrite !bool_decide_eq_true_2 by (try split; congruence). done.
    + rewrite (bool_decide_eq_false_2 (_ /\ _)) by (intros []; congruence).
      rewrite bool_decide_eq_false_2 by done. by eexists.
  - rewrite bool_decide_eq_false_2 by (intros []; congruence). eauto.
Qed.

(** ** Properties *)

(** Format then Attach.  On a region Format accepted, Attach with any other
    arguments it can validate succeeds exactly for the block count and the
    model_uid (up to its first NUL) that Format recorded, returning the same view,
    and otherwise reports FailedPrecondition; the fresh table has no entries. *)
Theorem meta_format_attach region n uid pad v mem n' uid' :
  in_int32 n -> in_int32 n' -> Format region n uid pad = (Ok v, mem) ->
  ok (ValidateRegion region n' uid') = true ->
  ValidEntries v mem = [] /\
  if bool_decide (n' = n /\ uid' = c_string uid)
  then Attach (mkSpan (data region) mem) n' uid' = Ok v
  else exists msg, Attach (mkSpan (data region) mem) n' uid' = Err kFailedPrecondition msg.
Proof.
  intros Hn Hn' Hf Hval. apply format_region in Hf as (-> & Hlen & Hok & Hh & Hrep); [|done].
  split.
  - rewrite (represents_entries _ _ _ Hrep). unfold spec_entries, binding.
    induction (zrange 0 (num_blocks_ (view n))) as [|i l IH]; [done|]. exact IH.
  - rewrite <-(validate_region_length region mem) in Hval by done.
    apply validate_region_ok in Hok as (Hpos & _); [|done].
    pose proof (attach_fresh (data region) mem n uid n' uid' Hn Hpos Hn' Hh Hval) as Hat.
    case_bool_decide as E; [|done]. destruct E as [-> _]. done.
Qed.


(** C38: Refinement.  After Format and any sequence of Set and Clear calls, the
    bytes of the region are the image of the finite map the calls build (a refused
    call leaves it alone), ValidEntries lists that map in block order, and a
    restarted process attaches to the region and reads the same listing. *)
Theorem meta_table_refines region n uid pad v mem ops :
  in_int32 n -> 0 ∉ uid -> Format region n uid pad = (Ok v, mem) -> Forall op_typed ops ->
  let mem' := run v ops mem in
  represents v mem' (spec_run v ops ∅) /\
  ValidEntries v mem' = spec_entries v (spec_run v ops ∅) /\
  Attach (mkSpan (data region) mem') n uid = Ok v.
Proof.
  intros Hn Hu Hf Hty. apply format_region in Hf as (-> & Hlen & Hok & Hh & Hrep); [|done]. simpl.
  pose proof (meta_run_represents _ _ _ _ Hrep Hty) as Hrep'.
  destruct (run_header _ _ _ _ Hrep Hty) as [Hh' Hlen'].
  split; [done|]. split; [by apply represents_entries|].
  pose proof (validate_region_ok _ _ _ Hok Hn) as [Hpos _].
  rewrite <-(validate_region_length region (run (view n) ops mem)) in Hok by congruence.
  pose proof (attach_fresh (data region) _ n uid n uid Hn Hpos Hn (eq_trans Hh' Hh) Hok) as Hat.
  rewrite c_string_no_nul, bool_decide_eq_true_2 in Hat; done.
Qed.

Lemma meta_table_refines_witness :
  exists mem, Format (mkSpan (Some 64) (replicate 512 7)) 3 [97] (fun _ => 9) = (Ok (view 3), mem) /\
    ValidEntries (view 3) (run (view 3) [OpSet 2 [5; 6] 9; OpSet 0 [4] 10; OpClear 2; OpSet 7 [1] 1] mem)
    = [mkEntry 0 [4] 10].
Proof.
  eexists. split; [vm_compute; reflexivity|].
  eapply eq_trans.
  - refine (proj1 (proj2 (meta_table_refines (mkSpan (Some 64) (replicate 512 7)) 3 [97] (fun _ => 9)
      (view 3) _ [OpSet 2 [5; 6] 9; OpSet 0 [4] 10; OpClear 2; OpSet 7 [1] 1] _ _ eq_refl _))).
    + vm_compute; split; congruence.
    + apply not_elem_of_cons; split; [discriminate|apply not_elem_of_nil].
    + repeat constructor; vm_compute; congruence.
  - vm_compute. reflexivity.
Defined.

(** C9: Crash recovery.  A process that crashes in the middle of a Set or Clear,
    after any number of its byte stores and whatever the order of the plain stores
    between the invalidation and the commit, leaves a region a restart attaches to;
    the listing is the one before the call, the one after it, or the old one with
    the block of the call missing.  No entry with mixed contents is ever listed. *)
Theorem meta_crash_recovery region n uid pad v mem ops o order k :
  in_int32 n -> 0 ∉ uid -> Format region n uid pad = (Ok v, mem) ->
  Forall op_typed ops -> op_typed o -> ok (op_status v o) = true -> op_order v o order ->
  let total := length (op_stores v o order) in
  let crashed := exec (take k (op_stores v o order)) (run v ops mem) in
  Attach (mkSpan (data region) crashed) n uid = Ok v /\
  ValidEntries v crashed = spec_entries v (crash_table v o k total (spec_run v ops ∅)).
Proof.
  intros Hn Hu Hf Hty Hoty Hok Hord total crashed.
  apply format_region in Hf as (-> & Hlen & Hval & Hh & Hrep); [|done].
  pose proof (meta_run_represents _ _ _ _ Hrep Hty) as Hrep'.
  destruct (run_header _ _ _ _ Hrep Hty) as [Hh' Hlen']. split.
  - pose proof (validate_region_ok _ _ _ Hval Hn) as [Hpos _].
    assert (Hh'' : read_header crashed = fresh_header n uid).
    { rewrite <-Hh, <-Hh'. by eapply op_stores_header. }
    rewrite <-(validate_region_length region crashed) in Hval
      by (unfold crashed; rewrite length_exec; congruence).
    pose proof (attach_fresh (data region) _ n uid n uid Hn Hpos Hn Hh'' Hval) as Hat.
    rewrite c_string_no_nul, bool_decide_eq_true_2 in Hat; done.
  - apply represents_entries. unfold crash_table, crashed, total.
    destruct (k =? 0)%nat eqn:E0; to_prop; [by subst k|].
    destruct (k <? _)%nat eqn:E1; to_prop; [apply op_partial; auto with lia|].
    rewrite take_ge by lia. by apply op_complete.
Qed.

Lemma meta_crash_recovery_witness :
  exists mem, Format (mkSpan (Some 64) (replicate 512 7)) 3 [97] (fun _ => 9) = (Ok (view 3), mem) /\
    ValidEntries (view 3)
      (exec (take 5 (op_stores (view 3) (OpSet 1 [8; 8] 3) (plain_stores (view 3) 1 [8; 8] 3)))
         (run (view 3) [OpSet 1 [5; 6] 9; OpSet 0 [4] 10] mem)) = [mkEntry 0 [4] 10].
Proof.
  eexists. split; [vm_compute; reflexivity|].
  eapply eq_trans.
  - refine (proj2 (meta_crash_recovery (mkSpan (Some 64) (replicate 512 7)) 3 [97] (fun _ => 9) (view 3) _
      [OpSet 1 [5; 6] 9; OpSet 0 [4] 10] (OpSet 1 [8; 8] 3) (plain_stores (view 3) 1 [8; 8] 3) 5
      _ _ eq_refl _ _ eq_refl _)).
    + vm_compute; split; congruence.
    + apply not_elem_of_cons; split; [discriminate|apply not_elem_of_nil].
    + repeat constructor; vm_compute; congruence.
    + repeat constructor; vm_compute; congruence.
    + simpl. reflexivity.
  - vm_compute. reflexivity.
Defined.

(** The invalidating store is a release store, which orders the stores before
    it and not those after it: in an order of the stores of Set that the language
    allows, a crash leaves block 0 listed under a hash and a sequence number that
    no call ever bound together. *)
Theorem meta_release_order_torn :
  exists mem ws k,
    Format (mkSpan (Some 64) (replicate 256 0)) 1 [97] (fun _ => 0) = (Ok (view 1), mem) /\
    release_order (view 1) 0 [8; 8] 3 ws /\
    ValidEntries (view 1) (exec (take k ws) (run (view 1) [OpSet 0 [5; 6] 9] mem))
    = [mkEntry 0 [5; 6] 3].
Proof.
  eexists _, (plain_stores (view 1) 0 [8; 8] 3 ++ [store_valid (view 1) 0 0] ++ [store_valid (view 1) 0 1]), 8%nat.
  split; [vm_compute; reflexivity|]. split.
  - exists (plain_stores (view 1) 0 [8; 8] 3 ++ [store_valid (view 1) 0 0]).
    split; [by rewrite <-app_assoc|]. by rewrite (Permutation_app_comm _ [_]).
  - vm_compute. reflexivity.
Qed.

End KVMeta.
