(* ===== verification/PoolLayout.v ===== *)
(** * Pool layouts ([src/tpu_sync/kv_cache/pool_layout.cc])

    Byte geometry of block pools: a region is a strided run of live bytes inside a
    block, a pool is an array of equally strided blocks with the same regions.
    Arithmetic is on [int64_t] (and [size_t] where the source casts): a checked
    operation returns its result or an error, an unchecked one wraps.  The theorems
    compare every computation with [live_byte], the set of bytes the regions denote
    over unbounded integers. *)

From S2P Require Import Prelude.

Module Pool.

(** ** Data *)

Record RegionSpec : Type := mkRegion {
  name : string;
  offset_bytes : Z;
  stride_bytes : Z;
  unit_bytes : Z;
  num_units : Z;
  units_per_stride : Z
}.

Record PoolSpec : Type := mkPool {
  tag : string;
  storage_index : Z;
  base_offset_bytes : Z;
  block_stride_bytes : Z;
  num_blocks : Z;
  regions : list RegionSpec;
  dtype_tag : string
}.

Record PoolBlockCopyExtent : Type := mkExtent {
  ext_offset_bytes : Z;
  size_bytes : Z
}.

Record PoolLiveSegment : Type := mkSegment {
  logical_offset : Z;
  physical_offset : Z;
  size : Z
}.

Record LiveCopyChunk : Type := mkChunk {
  src_physical : Z;
  dst_physical : Z;
  chunk_size : Z
}.

#[global] Instance RegionSpec_eq_dec : EqDecision RegionSpec.
Proof. solve_decision. Defined.
#[global] Instance PoolSpec_eq_dec : EqDecision PoolSpec.
Proof. solve_decision. Defined.
#[global] Instance PoolLiveSegment_eq_dec : EqDecision PoolLiveSegment.
Proof. solve_decision. Defined.
#[global] Instance LiveCopyChunk_eq_dec : EqDecision LiveCopyChunk.
Proof. solve_decision. Defined.

Implicit Types (r region : RegionSpec) (pool : PoolSpec).

(** ** Checked arithmetic *)

(** C++ integer division truncates. *)
Definition MulWillOverflow (lhs rhs : Z) : bool :=
  if (lhs =? 0) || (rhs =? 0) then false else (int64_max ÷ rhs <? lhs).

Definition CheckedMul (lhs rhs : Z) (field_name : list Frag) : StatusOr Z :=
  if (lhs <? 0) || (rhs <? 0) then
    Err kInvalidArgument (field_name ++ StrCat[" operands must be non-negative"])
  else if MulWillOverflow lhs rhs then
    Err kInvalidArgument (field_name ++ StrCat[" overflows int64"])
  else Ok (wrap64 (lhs * rhs)).

Definition CheckedAdd (lhs rhs : Z) (field_name : list Frag) : StatusOr Z :=
  if (lhs <? 0) || (rhs <? 0) then
    Err kInvalidArgument (field_name ++ StrCat[" operands must be non-negative"])
  else if wrap64 (int64_max - rhs) <? lhs then
    Err kInvalidArgument (field_name ++ StrCat[" overflows int64"])
  else Ok (wrap64 (lhs + rhs)).

(** ** Regions *)

Definition live_bytes r : Z :=
  if MulWillOverflow (unit_bytes r) (num_units r) then int64_max
  else
    let unit_total := wrap64 (unit_bytes r * num_units r) in
    if MulWillOverflow unit_total (units_per_stride r) then int64_max
    else wrap64 (unit_total * units_per_stride r).

Definition extent_end_bytes r : Z :=
  if num_units r =? 0 then offset_bytes r
  else if (num_units r <? 0) || (stride_bytes r <? 0) || (unit_bytes r <? 0) ||
          (units_per_stride r <? 0) || (offset_bytes r <? 0) then int64_max
  else if MulWillOverflow (num_units r - 1) (stride_bytes r) then int64_max
  else
    let strided_offset := wrap64 ((num_units r - 1) * stride_bytes r) in
    if MulWillOverflow (units_per_stride r) (unit_bytes r) then int64_max
    else
      let packed_bytes := wrap64 (units_per_stride r * unit_bytes r) in
      if wrap64 (int64_max - strided_offset) <? offset_bytes r then int64_max
      else
        let start := wrap64 (offset_bytes r + strided_offset) in
        if wrap64 (int64_max - packed_bytes) <? start then int64_max
        else wrap64 (start + packed_bytes).

Definition Region_Validate r (slot_bytes : Z) : Status :=
  if bool_decide (name r = EmptyString) then
    Err kInvalidArgument StrCat["region name must be non-empty"]
  else if slot_bytes <=? 0 then Err kInvalidArgument StrCat["slot_bytes must be positive"]
  else if offset_bytes r <? 0 then
    Err kInvalidArgument StrCat["region "; name r; " offset_bytes must be >= 0"]
  else if stride_bytes r <? 0 then
    Err kInvalidArgument StrCat["region "; name r; " stride_bytes must be >= 0"]
  else if unit_bytes r <? 0 then
    Err kInvalidArgument StrCat["region "; name r; " unit_bytes must be >= 0"]
  else if num_units r <? 0 then
    Err kInvalidArgument StrCat["region "; name r; " num_units must be >= 0"]
  else if units_per_stride r <=? 0 then
    Err kInvalidArgument StrCat["region "; name r; " units_per_stride must be positive"]
  else if (0 <? num_units r) && (unit_bytes r <=? 0) then
    Err kInvalidArgument StrCat["region "; name r; " unit_bytes must be positive"]
  else if (1 <? num_units r) && (stride_bytes r <=? 0) then
    Err kInvalidArgument StrCat["region "; name r; " stride_bytes must be positive"]
  else
    let? packed_bytes := CheckedMul (units_per_stride r) (unit_bytes r)
                           StrCat["region "; name r; " packed unit bytes"] in
    if (0 <? num_units r) && (stride_bytes r <? packed_bytes) then
      Err kInvalidArgument StrCat["region "; name r; " stride_bytes is smaller than packed units"]
    else
      let? stride_extent := CheckedMul (if 0 <? num_units r then num_units r - 1 else 0) (stride_bytes r)
                              StrCat["region "; name r; " stride extent"] in
      let? extent_start := CheckedAdd (offset_bytes r) stride_extent
                             StrCat["region "; name r; " extent start"] in
      let? extent_end := CheckedAdd extent_start packed_bytes
                           StrCat["region "; name r; " extent end"] in
      if slot_bytes <? extent_end then
        Err kInvalidArgument
          StrCat["region "; name r; " exceeds slot bytes: end="; extent_end; " slot="; slot_bytes]
      else OkStatus.

(** ** Pools *)

Definition storage_extent_end_bytes pool : Z :=
  if (base_offset_bytes pool <? 0) || (block_stride_bytes pool <? 0) || (num_blocks pool <=? 0) then
    int64_max
  else if MulWillOverflow (num_blocks pool - 1) (block_stride_bytes pool) then int64_max
  else
    let block_offset := wrap64 ((num_blocks pool - 1) * block_stride_bytes pool) in
    let block_live_end := foldl (fun e r => Z.max e (extent_end_bytes r)) 0 (regions pool) in
    if wrap64 (int64_max - block_offset) <? base_offset_bytes pool then int64_max
    else
      let last_block := wrap64 (base_offset_bytes pool + block_offset) in
      if (block_live_end <? 0) || (wrap64 (int64_max - block_live_end) <? last_block) then int64_max
      else wrap64 (last_block + block_live_end).

(** One iteration of the region loop of [PoolSpec::Validate]. *)
Definition validate_region pool r : Status :=
  match Region_Validate r (block_stride_bytes pool) with
  | Ok _ => OkStatus
  | Err _ msg => Err kInvalidArgument (StrCat["pool "; tag pool; ": "] ++ msg)
  end.

Definition Validate pool (storage_bytes : Z) : Status :=
  if bool_decide (tag pool = EmptyString) then
    Err kInvalidArgument StrCat["pool tag must be non-empty"]
  else if block_stride_bytes pool <=? 0 then
    Err kInvalidArgument StrCat["pool "; tag pool; " block_stride_bytes must be positive"]
  else if num_blocks pool <=? 0 then
    Err kInvalidArgument StrCat["pool "; tag pool; " num_blocks must be positive"]
  else if base_offset_bytes pool <? 0 then
    Err kInvalidArgument StrCat["pool "; tag pool; " base_offset_bytes must be >= 0"]
  else if bool_decide (regions pool = []) then
    Err kInvalidArgument StrCat["pool "; tag pool; " must contain at least one region"]
  else
    let? _ := for_each (fun _ r => validate_region pool r) (regions pool) tt in
    if 0 <=? storage_bytes then
      let live_end := storage_extent_end_bytes pool in
      if live_end =? int64_max then
        Err kInvalidArgument StrCat["pool "; tag pool; " live storage extent overflows int64"]
      else if storage_bytes <? live_end then
        Err kInvalidArgument
          StrCat["pool "; tag pool; " exceeds storage bytes (live regions): end="; live_end;
                 " storage="; storage_bytes]
      else OkStatus
    else OkStatus.

(** ** Coverage of a range *)

(** The bool result and [*covered_end] as an option; offsets are [size_t]. *)
Definition RegionCoversOffset r (offset : Z) : option Z :=
  if num_units r <=? 0 then None
  else
    let region_offset := u64 (offset_bytes r) in
    let stride := u64 (stride_bytes r) in
    let packed_bytes := u64 (u64 (unit_bytes r) * u64 (units_per_stride r)) in
    let num_units := u64 (num_units r) in
    if (offset <? region_offset) || (packed_bytes =? 0) then None
    else
      let unit_idx :=
        if 1 <? num_units then
          if stride =? 0 then None
          else
            let unit_idx := u64 (offset - region_offset) / stride in
            if num_units <=? unit_idx then None else Some unit_idx
        else Some 0 in
      match unit_idx with
      | None => None
      | Some unit_idx =>
          let segment_start := u64 (region_offset + u64 (unit_idx * stride)) in
          let segment_end := u64 (segment_start + packed_bytes) in
          if (offset <? segment_start) || (segment_end <=? offset) then None else Some segment_end
      end.

(** The [next] one pass over the regions computes from [cursor]. *)
Definition cover_step (rs : list RegionSpec) (end_ cursor : Z) : Z :=
  foldl (fun next r =>
           match RegionCoversOffset r cursor with
           | Some covered_end => Z.max next (Z.min covered_end end_)
           | None => next
           end) cursor rs.

(** [None] when the fuel runs out. *)
Fixpoint cover_loop (fuel : nat) (rs : list RegionSpec) (end_ cursor : Z) : option bool :=
  if cursor <? end_ then
    match fuel with
    | O => None
    | S fuel' =>
        let next := cover_step rs end_ cursor in
        if next =? cursor then Some false else cover_loop fuel' rs end_ next
    end
  else Some true.

Definition RegionsCoverRange (rs : list RegionSpec) (start end_ : Z) : option bool :=
  cover_loop (Z.to_nat (end_ - start)) rs end_ start.

(** ** Copy extents *)

Definition field pool r (what : string) : list Frag :=
  StrCat["pool "; tag pool; " region "; name r; what].

Definition unit_extent pool r (block_base packed_bytes : Z) (extents : list PoolBlockCopyExtent)
    (unit : Z) : StatusOr (list PoolBlockCopyExtent) :=
  let? unit_delta := CheckedMul unit (stride_bytes r) (field pool r " unit offset") in
  let? region_base := CheckedAdd block_base (offset_bytes r) (field pool r " base") in
  let? offset := CheckedAdd region_base unit_delta (field pool r " unit address") in
  Ok (extents ++ [mkExtent offset packed_bytes]).

Definition region_extents pool (block_base : Z) (extents : list PoolBlockCopyExtent) r :
    StatusOr (list PoolBlockCopyExtent) :=
  let? packed_bytes := CheckedMul (unit_bytes r) (units_per_stride r) (field pool r " packed bytes") in
  if (num_units r =? 0) || (packed_bytes =? 0) then Ok extents
  else if stride_bytes r =? packed_bytes then
    let? region_bytes := CheckedMul (num_units r) packed_bytes (field pool r " live bytes") in
    let? offset := CheckedAdd block_base (offset_bytes r) (field pool r " offset") in
    Ok (extents ++ [mkExtent offset region_bytes])
  else for_each (unit_extent pool r block_base packed_bytes) (zrange 0 (num_units r)) extents.

Definition block_extents pool (extents : list PoolBlockCopyExtent) (block_id : Z) :
    StatusOr (list PoolBlockCopyExtent) :=
  if (block_id <? 0) || (num_blocks pool <=? block_id) then
    Err kOutOfRange
      StrCat["pool "; tag pool; " block_id "; block_id; " out of range [0, "; num_blocks pool; ")"]
  else
    let? block_delta := CheckedMul block_id (block_stride_bytes pool)
                          StrCat["pool "; tag pool; " block offset"] in
    let? block_base := CheckedAdd (base_offset_bytes pool) block_delta
                         StrCat["pool "; tag pool; " block base"] in
    for_each (region_extents pool block_base) (regions pool) extents.

Definition extent_ltb (lhs rhs : PoolBlockCopyExtent) : bool :=
  if negb (ext_offset_bytes lhs =? ext_offset_bytes rhs)
  then ext_offset_bytes lhs <? ext_offset_bytes rhs
  else size_bytes lhs <? size_bytes rhs.

(** One iteration of the merge loop; [merged] is kept with its back first. *)
Definition merge_extent pool (merged : list PoolBlockCopyExtent) (extent : PoolBlockCopyExtent) :
    StatusOr (list PoolBlockCopyExtent) :=
  let? extent_end := CheckedAdd (ext_offset_bytes extent) (size_bytes extent)
                       StrCat["pool "; tag pool; " copy extent end"] in
  match merged with
  | [] => Ok [extent]
  | previous :: rest =>
      let? previous_end := CheckedAdd (ext_offset_bytes previous) (size_bytes previous)
                             StrCat["pool "; tag pool; " previous copy extent end"] in
      if previous_end <? ext_offset_bytes extent then Ok (extent :: merged)
      else
        Ok (mkExtent (ext_offset_bytes previous)
              (wrap64 (Z.max previous_end extent_end - ext_offset_bytes previous)) :: rest)
  end.

Definition ComputePoolBlockCopyExtents pool (block_ids : list Z) : StatusOr (list PoolBlockCopyExtent) :=
  let? extents := for_each (block_extents pool) block_ids [] in
  let? merged := for_each (merge_extent pool) (sort_by extent_ltb extents) [] in
  Ok (rev merged).

(** ** Live segments *)

Definition kMaxLiveSegments : Z := 1048576.

Definition expand_unit pool r (packed_bytes : Z) (intervals : list (Z * Z)) (unit : Z) :
    StatusOr (list (Z * Z)) :=
  if MulWillOverflow unit (stride_bytes r) then
    Err kInvalidArgument StrCat["pool "; tag pool; " region byte geometry overflows"]
  else
    let start := wrap64 (offset_bytes r + wrap64 (unit * stride_bytes r)) in
    let end_ := wrap64 (start + packed_bytes) in
    if block_stride_bytes pool <? end_ then
      Err kInvalidArgument
        StrCat["pool "; tag pool; " live region exceeds its block stride: end="; end_; ", stride=";
               block_stride_bytes pool]
    else Ok (intervals ++ [(start, end_)]).

Definition expand_region pool (intervals : list (Z * Z)) r : StatusOr (list (Z * Z)) :=
  if (offset_bytes r <? 0) || (stride_bytes r <? 0) || (unit_bytes r <? 0) || (num_units r <? 0) then
    Err kInvalidArgument StrCat["pool "; tag pool; " has negative region geometry"]
  else if units_per_stride r <=? 0 then
    Err kInvalidArgument StrCat["pool "; tag pool; " has non-positive units_per_stride"]
  else if MulWillOverflow (unit_bytes r) (units_per_stride r) then
    Err kInvalidArgument StrCat["pool "; tag pool; " region byte geometry overflows"]
  else
    let packed_bytes := wrap64 (unit_bytes r * units_per_stride r) in
    if (0 <? num_units r) && (packed_bytes <=? 0) then
      Err kInvalidArgument StrCat["pool "; tag pool; " has an empty live region"]
    else if (1 <? num_units r) && (stride_bytes r <=? 0) then
      Err kInvalidArgument StrCat["pool "; tag pool; " has a non-positive region stride"]
    else if (0 <? num_units r) && (stride_bytes r <? packed_bytes) then
      Err kInvalidArgument StrCat["pool "; tag pool; " has overlapping units within one region"]
    else if kMaxLiveSegments <? wrap64 (Z.of_nat (length intervals) + num_units r) then
      Err kInvalidArgument StrCat["pool "; tag pool; " exceeds the live-region expansion bound"]
    else if (0 <? num_units r) && (stride_bytes r =? packed_bytes) then
      if MulWillOverflow (num_units r) packed_bytes then
        Err kInvalidArgument StrCat["pool "; tag pool; " region byte geometry overflows"]
      else
        let end_ := wrap64 (offset_bytes r + wrap64 (num_units r * packed_bytes)) in
        if block_stride_bytes pool <? end_ then
          Err kInvalidArgument
            StrCat["pool "; tag pool; " live region exceeds its block stride: end="; end_; ", stride=";
                   block_stride_bytes pool]
        else Ok (intervals ++ [(offset_bytes r, end_)])
    else for_each (expand_unit pool r packed_bytes) (zrange 0 (num_units r)) intervals.

(** One iteration of the coalescing loop; [physical] is kept with its back first. *)
Definition coalesce pool (physical : list (Z * Z)) (interval : Z * Z) : StatusOr (list (Z * Z)) :=
  let '(start, end_) := interval in
  match physical with
  | [] => Ok [(start, end_)]
  | (back_start, back_end) :: rest =>
      if start <? back_end then
        Err kInvalidArgument StrCat["pool "; tag pool; " has overlapping live regions at byte "; start]
      else if start =? back_end then Ok ((back_start, end_) :: rest)
      else Ok ((start, end_) :: physical)
  end.

Fixpoint number_segments (logical : Z) (physical : list (Z * Z)) : list PoolLiveSegment :=
  match physical with
  | [] => []
  | (start, end_) :: rest =>
      mkSegment logical start (wrap64 (end_ - start)) ::
      number_segments (wrap64 (logical + wrap64 (end_ - start))) rest
  end.

Definition ExpandPoolLiveSegments pool : StatusOr (list PoolLiveSegment) :=
  if block_stride_bytes pool <=? 0 then
    Err kInvalidArgument StrCat["pool "; tag pool; " has non-positive block stride"]
  else
    let? intervals := for_each (expand_region pool) (regions pool) [] in
    let? physical := for_each (coalesce pool) (sort_by pair_ltb intervals) [] in
    Ok (number_segments 0 (rev physical)).

(** ** Coordinate translation *)

Definition PhysicalLiveRangeToLogical (segments : list PoolLiveSegment) (physical_offset_ size_ : Z) :
    StatusOr (Z * Z) :=
  if (physical_offset_ <? 0) || (size_ <=? 0) then
    Err kInvalidArgument StrCat["physical live range offset/size is invalid"]
  else
    let physical_end := wrap64 (physical_offset_ + size_) in
    match find (fun s => (physical_offset s <=? physical_offset_) &&
                         (physical_end <=? wrap64 (physical_offset s + size s))) segments with
    | Some s =>
        let logical := wrap64 (wrap64 (logical_offset s + physical_offset_) - physical_offset s) in
        Ok (logical, wrap64 (logical + size_))
    | None =>
        Err kInvalidArgument
          StrCat["physical range ["; physical_offset_; ", "; physical_end;
                 ") crosses padding or lies outside declared live regions"]
    end.

(** The lambda of [TranslateLiveCopy]: physical position and bytes available in the
    containing segment. *)
Definition locate (segments : list PoolLiveSegment) (logical : Z) : StatusOr (Z * Z) :=
  match find (fun s => (logical_offset s <=? logical) &&
                       (logical <? wrap64 (logical_offset s + size s))) segments with
  | Some s =>
      Ok (wrap64 (wrap64 (physical_offset s + logical) - logical_offset s),
          wrap64 (wrap64 (logical_offset s + size s) - logical))
  | None => Err kInvalidArgument StrCat["Compact-live offset "; logical; " is out of range"]
  end.

(** The [while] loop; [None] when the fuel runs out. *)
Fixpoint translate_loop (fuel : nat) (src_segments dst_segments : list PoolLiveSegment)
    (chunks : list LiveCopyChunk) (remaining src_cursor dst_cursor : Z) :
    option (StatusOr (list LiveCopyChunk)) :=
  if 0 <? remaining then
    match fuel with
    | O => None
    | S fuel' =>
        match locate src_segments src_cursor with
        | Err c e => Some (Err c e)
        | Ok src_loc =>
            match locate dst_segments dst_cursor with
            | Err c e => Some (Err c e)
            | Ok dst_loc =>
                let n := Z.min remaining (Z.min src_loc.2 dst_loc.2) in
                let chunks := chunks ++ [mkChunk src_loc.1 dst_loc.1 n] in
                if kMaxLiveSegments <? Z.of_nat (length chunks) then
                  Some (Err kInvalidArgument
                          StrCat["Compact-live copy exceeds the segment expansion bound"])
                else
                  translate_loop fuel' src_segments dst_segments chunks (wrap64 (remaining - n))
                    (wrap64 (src_cursor + n)) (wrap64 (dst_cursor + n))
            end
        end
    end
  else Some (Ok chunks).

Definition TranslateLiveCopy (src_segments dst_segments : list PoolLiveSegment)
    (src_offset dst_offset size_ : Z) : option (StatusOr (list LiveCopyChunk)) :=
  if (src_offset <? 0) || (dst_offset <? 0) || (size_ <=? 0) then
    Some (Err kInvalidArgument StrCat["Compact-live copy offsets/size are invalid"])
  else translate_loop (Z.to_nat size_) src_segments dst_segments [] size_ src_offset dst_offset.

(** ** Messages *)

(** [RegionSpecProto] and [PoolSpecProto]: generated classes with the same fields,
    [storage_index] an [int64]. *)
Record RegionSpecProto : Type := mkRegionProto {
  p_name : string;
  p_offset_bytes : Z;
  p_stride_bytes : Z;
  p_unit_bytes : Z;
  p_num_units : Z;
  p_units_per_stride : Z
}.
Record PoolSpecProto : Type := mkPoolProto {
  p_tag : string;
  p_storage_index : Z;
  p_base_offset_bytes : Z;
  p_block_stride_bytes : Z;
  p_num_blocks : Z;
  p_regions : list RegionSpecProto;
  p_dtype_tag : string
}.

Definition Region_ToProto r : RegionSpecProto :=
  mkRegionProto (name r) (offset_bytes r) (stride_bytes r) (unit_bytes r) (num_units r)
    (units_per_stride r).

Definition RegionSpecFromProto (p : RegionSpecProto) : StatusOr RegionSpec :=
  Ok (mkRegion (p_name p) (p_offset_bytes p) (p_stride_bytes p) (p_unit_bytes p) (p_num_units p)
        (p_units_per_stride p)).

Definition Pool_ToProto pool : PoolSpecProto :=
  mkPoolProto (tag pool) (wrap64 (storage_index pool)) (base_offset_bytes pool)
    (block_stride_bytes pool) (num_blocks pool) (Region_ToProto <$> regions pool) (dtype_tag pool).

Definition PoolSpecFromProto (p : PoolSpecProto) : StatusOr PoolSpec :=
  if p_storage_index p <? 0 then
    Err kInvalidArgument StrCat["storage_index must be non-negative"]
  else
    let? rs := for_each (fun rs rp => let? spec := RegionSpecFromProto rp in Ok (rs ++ [spec])) (p_regions p) [] in
    Ok (mkPool (p_tag p) (u64 (p_storage_index p)) (p_base_offset_bytes p) (p_block_stride_bytes p)
          (p_num_blocks p) rs (p_dtype_tag p)).

(** ** The bytes a layout denotes *)

Definition packed r : Z := units_per_stride r * unit_bytes r.

(** Byte [o] of a block is in unit [u] of the region. *)
Definition unit_byte r (u o : Z) : Prop :=
  offset_bytes r + u * stride_bytes r <= o < offset_bytes r + u * stride_bytes r + packed r.
Definition live_byte r (o : Z) : Prop := exists u, 0 <= u < num_units r /\ unit_byte r u o.
Definition live_in (rs : list RegionSpec) (o : Z) : Prop := exists r, r ∈ rs /\ live_byte r o.

(** The geometry [RegionSpec::Validate] is meant to enforce, over unbounded integers. *)
Record region_ok (slot : Z) r : Prop := {
  ro_name : name r ≠ EmptyString;
  ro_slot : 0 < slot;
  ro_offset : 0 <= offset_bytes r;
  ro_stride : 0 <= stride_bytes r;
  ro_unit : 0 <= unit_bytes r;
  ro_num : 0 <= num_units r;
  ro_per : 0 < units_per_stride r;
  ro_nonempty : 0 < num_units r -> 0 < unit_bytes r /\ packed r <= stride_bytes r;
  ro_fits : offset_bytes r + Z.max 0 (num_units r - 1) * stride_bytes r + packed r <= slot
}.

(** Every [int64_t] field holds an [int64_t]. *)
Definition region_int64 r : Prop :=
  in_int64 (offset_bytes r) /\ in_int64 (stride_bytes r) /\ in_int64 (unit_bytes r) /\
  in_int64 (num_units r) /\ in_int64 (units_per_stride r).
Definition pool_int64 pool : Prop :=
  in_int64 (base_offset_bytes pool) /\ in_int64 (block_stride_bytes pool) /\
  in_int64 (num_blocks pool) /\ Forall region_int64 (regions pool).

(** The geometry [PoolSpec::Validate] is meant to enforce. *)
Record pool_ok pool : Prop := {
  po_tag : tag pool ≠ EmptyString;
  po_stride : 0 < block_stride_bytes pool;
  po_blocks : 0 < num_blocks pool;
  po_base : 0 <= base_offset_bytes pool;
  po_regions : regions pool ≠ [];
  po_each : Forall (region_ok (block_stride_bytes pool)) (regions pool)
}.

(** The end of the bytes a region declares, and what has to fit in the storage. *)
Definition region_extent r : Z :=
  if num_units r =? 0 then offset_bytes r
  else offset_bytes r + (num_units r - 1) * stride_bytes r + packed r.
Definition pool_fits pool (storage_bytes : Z) : Prop :=
  Forall (fun r => base_offset_bytes pool + (num_blocks pool - 1) * block_stride_bytes pool
                   + region_extent r <= Z.min storage_bytes (int64_max - 1)) (regions pool).

(** Byte [a] of the storage is a live byte of block [b]. *)
Definition block_live_byte pool (b a : Z) : Prop :=
  live_in (regions pool) (a - (base_offset_bytes pool + b * block_stride_bytes pool)).


(** ** Checked arithmetic is exact *)

Ltac int64_unfold := unfold in_int64, int64_min, int64_max in *.

Lemma mul_will_overflow a b : 0 <= a -> 0 <= b -> MulWillOverflow a b = true <-> int64_max < a * b.
Proof.
  intros Ha Hb. unfold MulWillOverflow. destruct (a =? 0) eqn:E1, (b =? 0) eqn:E2; simpl; to_prop;
    subst; rewrite ?Z.mul_0_l, ?Z.mul_0_r; try (split; [done|int64_unfold; lia]).
  rewrite Z.quot_div_nonneg by (int64_unfold; lia). split; intros H.
  - pose proof (Z.mul_succ_div_gt int64_max b). nia.
  - apply Z.div_lt_upper_bound; lia.
Qed.
Lemma mul_fits a b : 0 <= a -> 0 <= b -> MulWillOverflow a b = false <-> a * b <= int64_max.
Proof. intros. rewrite <-not_true_iff_false, mul_will_overflow by done. lia. Qed.

Lemma wrap64_mul a b : 0 <= a -> 0 <= b -> a * b <= int64_max -> wrap64 (a * b) = a * b.
Proof. intros. apply wrap64_id. int64_unfold. nia. Qed.
Lemma wrap64_nonneg x : 0 <= x <= int64_max -> wrap64 x = x.
Proof. intros. apply wrap64_id. int64_unfold. lia. Qed.

(** A checked operation returns the mathematical result, or an InvalidArgument
    error exactly when an operand is negative or the result does not fit. *)
Lemma checked_mul_spec a b f :
  match CheckedMul a b f with
  | Ok c => 0 <= a /\ 0 <= b /\ a * b <= int64_max /\ c = a * b
  | Err code _ => code = kInvalidArgument /\ (a < 0 \/ b < 0 \/ int64_max < a * b)
  end.
Proof.
  unfold CheckedMul. destruct ((a <? 0) || (b <? 0)) eqn:E; to_prop; [split; [done|lia]|]. destruct E.
  destruct (MulWillOverflow a b) eqn:E.
  - apply mul_will_overflow in E; [|lia..]. split; [done|lia].
  - apply mul_fits in E; [|lia..]. rewrite wrap64_mul by lia. lia.
Qed.
Lemma checked_add_spec a b f : a <= int64_max -> b <= int64_max ->
  match CheckedAdd a b f with
  | Ok c => 0 <= a /\ 0 <= b /\ a + b <= int64_max /\ c = a + b
  | Err code _ => code = kInvalidArgument /\ (a < 0 \/ b < 0 \/ int64_max < a + b)
  end.
Proof.
  intros. unfold CheckedAdd. destruct ((a <? 0) || (b <? 0)) eqn:E; to_prop; [split; [done|lia]|]. destruct E.
  rewrite (wrap64_nonneg (int64_max - b)) by (int64_unfold; lia).
  destruct (int64_max - b <? a) eqn:E; to_prop; [split; [done|lia]|]. rewrite wrap64_nonneg by lia. lia.
Qed.

Lemma checked_mul_ok a b f : 0 <= a -> 0 <= b -> a * b <= int64_max -> CheckedMul a b f = Ok (a * b).
Proof. intros. pose proof (checked_mul_spec a b f). destruct (CheckedMul a b f); [f_equal; tauto|lia]. Qed.
Lemma checked_add_ok a b f : 0 <= a -> 0 <= b -> a + b <= int64_max -> CheckedAdd a b f = Ok (a + b).
Proof.
  intros. pose proof (checked_add_spec a b f ltac:(lia) ltac:(lia)).
  destruct (CheckedAdd a b f); [f_equal; tauto|lia].
Qed.
Lemma checked_mul_inv a b f c : CheckedMul a b f = Ok c -> 0 <= a /\ 0 <= b /\ a * b <= int64_max /\ c = a * b.
Proof. intros H. pose proof (checked_mul_spec a b f) as Hs. by rewrite H in Hs. Qed.
Lemma checked_add_inv a b f c : a <= int64_max -> b <= int64_max ->
  CheckedAdd a b f = Ok c -> 0 <= a /\ 0 <= b /\ a + b <= int64_max /\ c = a + b.
Proof. intros Ha Hb H. pose proof (checked_add_spec a b f Ha Hb) as Hs. by rewrite H in Hs. Qed.

(** ** Validation *)

(** Peel one guard off [ok (if b then Err .. else ..) = true <-> P]. *)
Ltac peel_guard :=
  match goal with
  | |- ok (if ?b then Err _ _ else _) = true <-> _ =>
      let E := fresh "Hg" in
      destruct b eqn:E; to_prop; [split; [done|intros []; exfalso; first [done|lia|unfold packed in *; nia]]|]
  end.

Lemma region_validate_iff r slot :
  region_int64 r -> in_int64 slot -> ok (Region_Validate r slot) = true <-> region_ok slot r.
Proof.
  intros (Ho & Hs & Hu & Hn & Hp) Hslot. unfold Region_Validate. int64_unfold. fold int64_max in *.
  repeat peel_guard.
  pose proof (checked_mul_spec (units_per_stride r) (unit_bytes r)
                StrCat["region "; name r; " packed unit bytes"]) as Hm.
  destruct (CheckedMul _ _ _) as [p|]; fold (packed r) in Hm.
  2:{ split; [done|]. intros []. exfalso. int64_unfold. nia. }
  destruct Hm as (_ & _ & Hpmax & ->). peel_guard.
  set (m := if 0 <? num_units r then num_units r - 1 else 0).
  assert (Hmm : m = Z.max 0 (num_units r - 1)).
  { subst m. destruct (0 <? num_units r) eqn:E; to_prop; lia. }
  assert (0 <= packed r) by (unfold packed; nia).
  pose proof (checked_mul_spec m (stride_bytes r) StrCat["region "; name r; " stride extent"]) as Hm.
  destruct (CheckedMul m _ _) as [se|].
  2:{ split; [done|]. intros []. exfalso. int64_unfold. nia. }
  destruct Hm as (_ & _ & Hsmax & ->).
  pose proof (checked_add_spec (offset_bytes r) (m * stride_bytes r)
    StrCat["region "; name r; " extent start"] ltac:(int64_unfold; lia) ltac:(int64_unfold; lia)) as Hm.
  destruct (CheckedAdd (offset_bytes r) _ _) as [es|].
  2:{ split; [done|]. intros []. exfalso. int64_unfold. nia. }
  destruct Hm as (_ & _ & Hemax & ->).
  pose proof (checked_add_spec (offset_bytes r + m * stride_bytes r) (packed r)
    StrCat["region "; name r; " extent end"] ltac:(int64_unfold; lia) ltac:(int64_unfold; lia)) as Hm.
  destruct (CheckedAdd _ (packed r) _) as [ee|].
  2:{ split; [done|]. intros []. exfalso. rewrite <-Hmm in *. int64_unfold. lia. }
  destruct Hm as (_ & _ & Hxmax & ->). rewrite Hmm in *.
  destruct (slot <? _) eqn:Hfit; to_prop; [split; [done|intros []; lia]|].
  split; [|done]. intros _. split; try done; try lia.
Qed.

Lemma region_ok_extent slot r :
  region_ok slot r -> slot <= int64_max ->
  extent_end_bytes r = region_extent r /\ 0 <= region_extent r <= slot.
Proof.
  intros [] Hslot. unfold extent_end_bytes, region_extent.
  destruct (num_units r =? 0) eqn:E0; to_prop.
  { assert (0 <= packed r) by (unfold packed; nia). split; [done|]. nia. }
  rewrite (Z.max_r 0) in ro_fits0 by lia.
  assert (0 <= packed r) by (unfold packed; nia). fold (packed r).
  assert (0 <= (num_units r - 1) * stride_bytes r) by nia.
  replace ((num_units r <? 0) || _ || _ || _ || _) with false
    by (symmetry; repeat (apply orb_false_iff; split); to_prop; lia).
  rewrite (proj2 (mul_fits (num_units r - 1) (stride_bytes r) ltac:(lia) ltac:(lia))) by lia.
  rewrite (proj2 (mul_fits (units_per_stride r) (unit_bytes r) ltac:(lia) ltac:(lia)))
    by (fold (packed r); lia).
  rewrite (wrap64_nonneg (_ * stride_bytes r)), (wrap64_nonneg (packed r)) by (int64_unfold; lia).
  rewrite !(wrap64_nonneg (int64_max - _)), (wrap64_nonneg (offset_bytes r + _)) by (int64_unfold; lia).
  rewrite wrap64_nonneg by (int64_unfold; lia).
  rewrite !(proj2 (Z.ltb_ge _ _)) by (int64_unfold; lia). lia.
Qed.

Lemma foldl_max_le {A} (f : A -> Z) l a m :
  foldl (fun e x => Z.max e (f x)) a l <= m <-> a <= m /\ Forall (fun x => f x <= m) l.
Proof.
  revert a; induction l as [|x l IH]; intros a; simpl; [split; [by split; [|constructor]|tauto]|].
  rewrite IH, Forall_cons, Z.max_lub_iff. tauto.
Qed.

(** What [storage_extent_end_bytes] computes for a pool with valid regions. *)
Lemma storage_extent_end_le pool m :
  pool_int64 pool -> pool_ok pool -> m < int64_max ->
  storage_extent_end_bytes pool <= m <->
  Forall (fun r => base_offset_bytes pool + (num_blocks pool - 1) * block_stride_bytes pool
                   + region_extent r <= m) (regions pool).
Proof.
  intros (Hb & Hs & Hn & _) [Ht Hst Hnb Hbase Hne Hall] Hm. unfold storage_extent_end_bytes.
  set (live := foldl _ 0 _).
  assert (Hext : forall r, r ∈ regions pool ->
            extent_end_bytes r = region_extent r /\ 0 <= region_extent r <= block_stride_bytes pool).
  { intros r Hr. rewrite Forall_forall in Hall. apply region_ok_extent; [by apply Hall|apply Hs]. }
  assert (Hlive : forall k, live <= k <-> 0 <= k /\ Forall (fun r => region_extent r <= k) (regions pool)).
  { intros k. unfold live. rewrite foldl_max_le, !Forall_forall.
    split; intros [H0 H]; (split; [done|]); intros r Hr; specialize (H r Hr); apply Hext in Hr as [He _]; lia. }
  assert (Hlub : 0 <= live <= block_stride_bytes pool).
  { split; [apply (Hlive live); lia|]. apply Hlive. split; [lia|]. apply Forall_forall.
    intros r Hr. apply Hext in Hr. lia. }
  destruct (regions pool) as [|r0 rs] eqn:Hregs; [done|]. rewrite <-Hregs in *.
  assert (Hr0 : r0 ∈ regions pool) by (rewrite Hregs; left).
  assert (Hsum : forall x, x + live <= m <->
            0 <= m - x /\ Forall (fun r => x + region_extent r <= m) (regions pool)).
  { intros x. transitivity (live <= m - x); [lia|]. rewrite Hlive, !Forall_forall.
    split; intros [H0 H]; (split; [done|]); intros r Hr; specialize (H r Hr); lia. }
  specialize (Hsum (base_offset_bytes pool + (num_blocks pool - 1) * block_stride_bytes pool)).
  clearbody live. clear Hlive.
  assert (Hnn : 0 <= (num_blocks pool - 1) * block_stride_bytes pool) by nia.
  set (off := (num_blocks pool - 1) * block_stride_bytes pool) in *.
  assert (Hno : Forall (fun r => base_offset_bytes pool + off + region_extent r <= m) (regions pool) ->
                base_offset_bytes pool + off <= m /\ base_offset_bytes pool + off + live <= m).
  { intros HF. pose proof (proj1 (Forall_forall _ _) HF r0 Hr0) as H0. simpl in H0.
    destruct (Hext r0 Hr0). split; [lia|]. apply Hsum. split; [lia|done]. }
  replace ((base_offset_bytes pool <? 0) || _ || _) with false
    by (symmetry; repeat (apply orb_false_iff; split); to_prop; lia).
  int64_unfold. fold int64_max in *.
  destruct (MulWillOverflow _ _) eqn:E1.
  { apply mul_will_overflow in E1; [|lia..]. fold off in E1. split; [lia|intros []%Hno; lia]. }
  apply mul_fits in E1; [|lia..]. fold off in E1.
  rewrite (wrap64_nonneg off), (wrap64_nonneg (int64_max - off)) by lia.
  destruct (_ <? base_offset_bytes pool) eqn:E2; to_prop; [split; [lia|intros []%Hno; lia]|].
  rewrite (wrap64_nonneg (_ + off)), (wrap64_nonneg (int64_max - live)) by (int64_unfold; lia).
  replace (live <? 0) with false by (symmetry; to_prop; lia). simpl.
  destruct (_ <? base_offset_bytes pool + off) eqn:E3; to_prop; [split; [lia|intros []%Hno; lia]|].
  rewrite wrap64_nonneg by lia. split; [by intros []%Hsum|]. intros HF. by apply Hno.
Qed.

Lemma validate_region_same pool r :
  ok (validate_region pool r) = ok (Region_Validate r (block_stride_bytes pool)).
Proof. unfold validate_region. by destruct (Region_Validate _ _). Qed.

Lemma storage_extent_end_max pool : storage_extent_end_bytes pool <= int64_max.
Proof.
  unfold storage_extent_end_bytes. cbv zeta. repeat case_match; try lia. apply wrap64_range.
Qed.

Lemma pool_validate_ok pool storage :
  pool_int64 pool -> in_int64 storage ->
  ok (Validate pool storage) = true <-> pool_ok pool /\ (0 <= storage -> pool_fits pool storage).
Proof.
  intros Hint Hst. pose proof Hint as (Hb & Hs & Hn & Hr). unfold Validate.
  destruct (bool_decide (tag pool = EmptyString)) eqn:E1; to_prop; [split; [done|by intros [[] _]]|].
  destruct (block_stride_bytes pool <=? 0) eqn:E2; to_prop; [split; [done|intros [[] _]; lia]|].
  destruct (num_blocks pool <=? 0) eqn:E3; to_prop; [split; [done|intros [[] _]; lia]|].
  destruct (base_offset_bytes pool <? 0) eqn:E4; to_prop; [split; [done|intros [[] _]; lia]|].
  destruct (bool_decide (regions pool = [])) eqn:E5; to_prop; [split; [done|by intros [[] _]]|].
  assert (Heach : ok (for_each (fun _ r => validate_region pool r) (regions pool) tt) = true <->
            Forall (region_ok (block_stride_bytes pool)) (regions pool)).
  { rewrite for_each_check, !Forall_forall. rewrite Forall_forall in Hr.
    by split; intros H r Hin; specialize (H r Hin);
      [rewrite validate_region_same in H|rewrite validate_region_same]; apply region_validate_iff; auto. }
  destruct (for_each _ _ _) as [u|]; simpl in Heach.
  2:{ split; [done|]. intros [[] _]. by apply Heach. }
  assert (Hok : pool_ok pool) by (split; try done; by apply Heach).
  destruct (0 <=? storage) eqn:E6; to_prop; [|split; [intros _; split; [done|lia]|done]].
  unfold pool_fits. rewrite <-(storage_extent_end_le pool) by (done || lia).
  pose proof (storage_extent_end_max pool).
  destruct (storage_extent_end_bytes pool =? int64_max) eqn:E7; to_prop; [split; [done|intros [_ H']; lia]|].
  destruct (storage <? storage_extent_end_bytes pool) eqn:E8; to_prop; [split; [done|intros [_ H']; lia]|].
  split; [|done]. intros _. split; [done|]. intros _. lia.
Qed.

Lemma packed_nonneg slot r : region_ok slot r -> 0 <= packed r.
Proof. intros []. unfold packed. nia. Qed.

Lemma live_byte_extent slot r o :
  region_ok slot r -> live_byte r o -> offset_bytes r <= o < region_extent r.
Proof.
  intros [] (u & Hu & Ho). unfold unit_byte in Ho. unfold region_extent.
  rewrite (proj2 (Z.eqb_neq _ _)) by lia. nia.
Qed.

(** C40: Validation is exact.  [PoolSpec::Validate] accepts a pool of int64 fields
    precisely when its geometry, computed over unbounded integers, is well formed and
    (with a storage size) fits the storage; no overflow makes it accept or refuse
    wrongly.  Every live byte of every block of an accepted pool then lies inside the
    block and inside the storage. *)
Theorem pool_validate_exact pool storage :
  pool_int64 pool -> in_int64 storage ->
  (ok (Validate pool storage) = true <-> pool_ok pool /\ (0 <= storage -> pool_fits pool storage)) /\
  (ok (Validate pool storage) = true -> 0 <= storage -> forall b a,
     0 <= b < num_blocks pool -> block_live_byte pool b a ->
     0 <= a - (base_offset_bytes pool + b * block_stride_bytes pool) < block_stride_bytes pool /\
     0 <= a < storage).
Proof.
  intros Hint Hst. split; [by apply pool_validate_ok|].
  intros [Hok Hfits]%pool_validate_ok H0 b a Hb (r & Hr & Hlive); [|done..].
  specialize (Hfits H0). destruct Hok as [_ Hstride _ Hbase _ Heach].
  rewrite Forall_forall in Heach. unfold pool_fits in Hfits. rewrite Forall_forall in Hfits.
  pose proof (live_byte_extent _ _ _ (Heach r Hr) Hlive) as Hext.
  destruct (region_ok_extent _ _ (Heach r Hr)) as [_ Hmax]; [apply Hint|].
  destruct (Heach r Hr). specialize (Hfits r Hr). simpl in Hfits. nia.
Qed.

Definition example_pool : PoolSpec :=
  mkPool "kv" 0 16 100 3 [mkRegion "k" 0 20 8 2 2; mkRegion "v" 50 40 10 1 4] "bf16".

Lemma example_pool_int64 : pool_int64 example_pool.
Proof. unfold pool_int64, region_int64, in_int64. simpl. repeat constructor; simpl; int64_unfold; lia. Qed.

Lemma pool_validate_exact_witness :
  ok (Validate example_pool 306) = true /\ ok (Validate example_pool 305) = false /\
  block_live_byte example_pool 2 305 /\ 0 <= 305 < 306.
Proof.
  assert (Hb : block_live_byte example_pool 2 305).
  { exists (mkRegion "v" 50 40 10 1 4). split; [right; left|]. exists 0. vm_compute. split; split; congruence. }
  split; [reflexivity|]. split; [reflexivity|]. split; [exact Hb|].
  assert (Hint : pool_int64 example_pool) by apply example_pool_int64.
  assert (Hst : in_int64 306) by (int64_unfold; lia).
  assert (Hok : ok (Validate example_pool 306) = true) by reflexivity.
  pose proof (proj2 (pool_validate_exact example_pool 306 Hint Hst) Hok) as H.
  apply (H ltac:(lia) 2 305); [simpl; lia|exact Hb].
Defined.

(** ** Coverage *)

Lemma covers_offset_progress r o e : RegionCoversOffset r o = Some e -> o < e.
Proof.
  unfold RegionCoversOffset. cbv zeta. intros H. repeat case_match; simplify_eq; to_prop; lia.
Qed.

(** [RegionCoversOffset] on a valid region: the end of the unit that contains the
    offset, if there is one. *)
Lemma covers_offset_live slot r o :
  region_ok slot r -> region_int64 r -> slot <= int64_max -> 0 <= o < 2 ^ 64 ->
  match RegionCoversOffset r o with
  | Some e => forall o', o <= o' < e -> live_byte r o'
  | None => ~ live_byte r o
  end.
Proof.
  intros [] (Ho & Hs & Hu & Hn & Hp) Hslot Hoff. unfold RegionCoversOffset, live_byte, unit_byte.
  destruct (num_units r <=? 0) eqn:E0; to_prop; [intros (u & ? & _); lia|].
  destruct (ro_nonempty0 ltac:(lia)) as [Hup Hps]. rewrite Z.max_r in ro_fits0 by lia.
  assert (Hpos : 0 < packed r) by (unfold packed; nia).
  int64_unfold. rewrite !(u64_id (_ r)) by lia.
  rewrite (Z.mul_comm (unit_bytes r)). fold (packed r). rewrite (u64_id (packed r)) by nia. cbv zeta.
  destruct ((o <? offset_bytes r) || (packed r =? 0)) eqn:E1; to_prop.
  { destruct E1; [|lia]. intros (u & ? & ?). nia. }
  destruct E1 as [E1 _]. rewrite (u64_id (o - _)) by lia.
  set (idx := if 1 <? num_units r then _ else _).
  assert (Hidx : match idx with
                 | Some i => 0 <= i < num_units r /\ offset_bytes r + i * stride_bytes r <= o /\
                             (i + 1 < num_units r -> o < offset_bytes r + (i + 1) * stride_bytes r)
                 | None => offset_bytes r + num_units r * stride_bytes r <= o
                 end).
  { subst idx. destruct (1 <? num_units r) eqn:E2; to_prop; [|lia].
    destruct (stride_bytes r =? 0) eqn:E3; to_prop; [lia|].
    pose proof (Z.div_mod (o - offset_bytes r) (stride_bytes r) E3).
    pose proof (Z.mod_pos_bound (o - offset_bytes r) (stride_bytes r) ltac:(lia)).
    pose proof (Z.div_pos (o - offset_bytes r) (stride_bytes r) ltac:(lia) ltac:(lia)).
    destruct (_ <=? _) eqn:E4; to_prop; nia. }
  destruct idx as [i|]; [|intros (u & ? & ?); nia]. destruct Hidx as (Hi & Hlo & Hhi).
  assert (0 <= i * stride_bytes r <= (num_units r - 1) * stride_bytes r) by nia.
  rewrite (u64_id (i * _)), (u64_id (_ + i * _)), (u64_id (_ + packed r)) by lia.
  destruct ((o <? _) || (_ <=? o)) eqn:E5; to_prop.
  - intros (u & Hur & Huo). destruct E5; [lia|].
    assert (u < i \/ u = i \/ i < u) as [|[->|]] by lia; [|lia|].
    + assert ((u + 1) * stride_bytes r <= i * stride_bytes r) by (apply Z.mul_le_mono_nonneg_r; lia). lia.
    + assert ((i + 1) * stride_bytes r <= u * stride_bytes r) by (apply Z.mul_le_mono_nonneg_r; lia). lia.
  - intros o' Ho'. exists i. lia.
Qed.

(** One pass over the regions: progress exactly when the cursor byte is live, over
    live bytes only, never past the end. *)
Lemma cover_step_bounds rs end_ cursor :
  cursor < end_ -> cursor <= cover_step rs end_ cursor <= end_.
Proof.
  intros Hc. unfold cover_step.
  enough (H : forall next, cursor <= next <= end_ -> cursor <= foldl (fun next r =>
    match RegionCoversOffset r cursor with
    | Some e => Z.max next (Z.min e end_) | None => next end) next rs <= end_) by (apply H; lia).
  induction rs as [|r rs IH]; intros next Hnext; simpl; [done|]. apply IH.
  destruct (RegionCoversOffset r cursor) as [e|] eqn:Hr; [|done].
  apply covers_offset_progress in Hr. lia.
Qed.

Lemma cover_step_live slot rs end_ cursor :
  Forall (fun r => region_ok slot r /\ region_int64 r) rs -> slot <= int64_max ->
  0 <= cursor < end_ -> end_ <= 2 ^ 64 ->
  (forall o, cursor <= o < cover_step rs end_ cursor -> live_in rs o) /\
  (cover_step rs end_ cursor = cursor -> ~ live_in rs cursor).
Proof.
  intros Hok Hslot Hc He. unfold cover_step.
  enough (H : forall next, cursor <= next -> let n := foldl (fun next r =>
    match RegionCoversOffset r cursor with
    | Some e => Z.max next (Z.min e end_) | None => next end) next rs in
    next <= n /\ (forall o, next <= o < n -> live_in rs o) /\ (n = cursor -> ~ live_in rs cursor)).
  { destruct (H cursor) as (_ & ? & ?); [lia|]. done. }
  induction Hok as [|r rs [Hr Hrint] _ IH]; intros next Hnext; simpl.
  { split; [lia|]. split; [lia|]. intros _ (? & ?%elem_of_nil & _). done. }
  pose proof (covers_offset_live slot r cursor Hr Hrint Hslot ltac:(lia)) as Hcov.
  pose proof (covers_offset_progress r cursor) as Hprog.
  assert (Hcons : forall o, live_in (r :: rs) o <-> live_byte r o \/ live_in rs o).
  { intros o. unfold live_in. setoid_rewrite elem_of_cons. naive_solver. }
  setoid_rewrite Hcons. destruct (RegionCoversOffset r cursor) as [e|].
  - specialize (Hprog e eq_refl). destruct (IH (Z.max next (Z.min e end_))) as (Hge & Hlive & Hstop); [lia|].
    split; [lia|]. split; [|lia]. intros o Ho.
    destruct (decide (o < Z.min e end_)); [left; apply Hcov; lia|right; apply Hlive; lia].
  - destruct (IH next Hnext) as (Hge & Hlive & Hstop). split; [done|]. split; [by right; apply Hlive|].
    intros Hn [?|?]; [done|]. by apply Hstop.
Qed.

Lemma cover_loop_total fuel rs end_ cursor :
  (Z.to_nat (end_ - cursor) <= fuel)%nat -> exists b, cover_loop fuel rs end_ cursor = Some b.
Proof.
  revert cursor; induction fuel as [|fuel IH]; intros cursor Hf; simpl;
    (destruct (cursor <? end_) eqn:E; to_prop; [|eauto]); [lia|].
  destruct (_ =? _) eqn:E2; to_prop; [eauto|].
  pose proof (cover_step_bounds rs end_ cursor E). apply IH. lia.
Qed.

Lemma cover_loop_live slot rs end_ fuel cursor b :
  Forall (fun r => region_ok slot r /\ region_int64 r) rs -> slot <= int64_max ->
  0 <= cursor -> end_ <= 2 ^ 64 -> cover_loop fuel rs end_ cursor = Some b ->
  b = true <-> forall o, cursor <= o < end_ -> live_in rs o.
Proof.
  intros Hok Hslot Hc He. revert cursor Hc. induction fuel as [|fuel IH]; intros cursor Hc; simpl;
    (destruct (cursor <? end_) eqn:E; to_prop; [|intros [= <-]; split; [lia|done]]); [done|].
  destruct (cover_step_live slot rs end_ cursor Hok Hslot ltac:(lia) He) as [Hlive Hstop].
  pose proof (cover_step_bounds rs end_ cursor E).
  destruct (_ =? _) eqn:E2; to_prop.
  - intros [= <-]. split; [done|]. intros H'. destruct (Hstop E2). apply H'. lia.
  - intros Hb%IH; [|lia]. rewrite Hb. split; intros H' o Ho; [|apply H'; lia].
    destruct (decide (o < cover_step rs end_ cursor)); [apply Hlive; lia|apply H'; lia].
Qed.

(** Coverage.  RegionsCoverRange terminates on any regions within end - start
    iterations, and on regions that validate it returns true exactly when every byte
    of [start, end) is a live byte. *)
Theorem pool_cover_range_exact rs start end_ slot :
  0 <= start -> end_ <= 2 ^ 64 -> slot <= int64_max ->
  exists b, RegionsCoverRange rs start end_ = Some b /\
    (Forall region_int64 rs -> Forall (region_ok slot) rs ->
     b = true <-> forall o, start <= o < end_ -> live_in rs o).
Proof.
  intros Hs He Hslot. destruct (cover_loop_total (Z.to_nat (end_ - start)) rs end_ start) as [b Hb]; [lia|].
  exists b. split; [done|]. intros Hint Hok. eapply cover_loop_live; [|done..].
  by apply Forall_and.
Qed.

Lemma example_pool_ok : pool_ok example_pool.
Proof.
  apply (pool_validate_ok example_pool (-1)); [apply example_pool_int64|int64_unfold; lia|reflexivity].
Qed.

Lemma pool_cover_range_exact_witness :
  RegionsCoverRange (regions example_pool) 50 90 = Some true /\
  forall o, 50 <= o < 90 -> live_in (regions example_pool) o.
Proof.
  split; [reflexivity|].
  destruct (pool_cover_range_exact (regions example_pool) 50 90 100) as (b & Hb & Hiff);
    [lia|lia|int64_unfold; lia|].
  apply Hiff; [apply example_pool_int64|apply (po_each _ example_pool_ok)|].
  vm_compute in Hb. congruence.
Defined.

(** ** Copy extents *)

Definition ext_end (e : PoolBlockCopyExtent) : Z := ext_offset_bytes e + size_bytes e.
Definition ext_byte (e : PoolBlockCopyExtent) (a : Z) : Prop := ext_offset_bytes e <= a < ext_end e.
Definition in_extents (es : list PoolBlockCopyExtent) (a : Z) : Prop := exists e, e ∈ es /\ ext_byte e a.
(** Non-empty, with [int64_t] fields. *)
Definition ext_pos (e : PoolBlockCopyExtent) : Prop :=
  0 <= ext_offset_bytes e <= int64_max /\ 0 < size_bytes e <= int64_max.

Lemma in_extents_app es1 es2 a : in_extents (es1 ++ es2) a <-> in_extents es1 a \/ in_extents es2 a.
Proof. unfold in_extents. setoid_rewrite elem_of_app. naive_solver. Qed.
Lemma in_extents_cons e es a : in_extents (e :: es) a <-> ext_byte e a \/ in_extents es a.
Proof. unfold in_extents. setoid_rewrite elem_of_cons. naive_solver. Qed.
Lemma in_extents_perm es1 es2 a : es1 ≡ₚ es2 -> in_extents es1 a <-> in_extents es2 a.
Proof. intros H. unfold in_extents. by setoid_rewrite H. Qed.
Lemma in_extents_rev es a : in_extents (rev es) a <-> in_extents es a.
Proof. unfold in_extents. by setoid_rewrite elem_of_rev. Qed.

(** The bytes of one region of the block at [base]. *)
Definition region_byte (base : Z) r (a : Z) : Prop := live_byte r (a - base).

Lemma unit_extent_collect pool r base p es u es' :
  region_int64 r -> base <= int64_max -> 0 < p <= int64_max ->
  Forall ext_pos es -> unit_extent pool r base p es u = Ok es' ->
  Forall ext_pos es' /\
  forall a, in_extents es' a <-> in_extents es a \/
    base + offset_bytes r + u * stride_bytes r <= a < base + offset_bytes r + u * stride_bytes r + p.
Proof.
  intros (Ho & Hs & _) Hbase Hp Hes H. unfold unit_extent in H. int64_unfold. fold int64_max in *.
  guards H. apply checked_mul_inv in Hcall as (? & ? & ? & ->).
  apply checked_add_inv in Hcall0 as (? & ? & ? & ->); [|lia..].
  apply checked_add_inv in Hcall1 as (? & ? & ? & ->); [|lia..]. injection H as <-.
  split; [apply Forall_app; repeat constructor; simpl; auto with lia|].
  intros a. rewrite in_extents_app, in_extents_cons. unfold ext_byte, ext_end. simpl.
  assert (Hnil : ~ in_extents [] a) by (intros (? & ?%elem_of_nil & _); done). tauto.
Qed.

Lemma region_extents_collect pool base es r es' :
  region_int64 r -> base <= int64_max -> Forall ext_pos es ->
  region_extents pool base es r = Ok es' ->
  Forall ext_pos es' /\ forall a, in_extents es' a <-> in_extents es a \/ region_byte base r a.
Proof.
  intros Hint Hbase Hes H. pose proof Hint as (Ho & Hs & Hu & Hn & Hp). unfold region_extents in H.
  int64_unfold. fold int64_max in *. step_guard H.
  apply checked_mul_inv in Hcall as (Hu0 & Hp0 & Hpmax & ->).
  assert (Hpk : unit_bytes r * units_per_stride r = packed r) by (unfold packed; lia). rewrite Hpk in *.
  unfold region_byte, live_byte, unit_byte. destruct (_ || _) eqn:E1; to_prop.
  { injection H as <-. split; [done|]. intros a. split; [by left|]. intros [?|(u & ? & ?)]; [done|].
    destruct E1; lia. }
  destruct E1 as [En Ep]. destruct (stride_bytes r =? packed r) eqn:E2; to_prop.
  - guards H. apply checked_mul_inv in Hcall as (Hn0 & _ & Hmax & ->).
    apply checked_add_inv in Hcall0 as (? & ? & ? & ->); [|lia..]. injection H as <-.
    split; [apply Forall_app; repeat constructor; simpl; auto with lia; nia|].
    intros a. rewrite in_extents_app, in_extents_cons. unfold ext_byte, ext_end. simpl. rewrite E2.
    assert (Hnil : ~ in_extents [] a) by (intros (? & ?%elem_of_nil & _); done).
    assert (Hu2 : base + offset_bytes r <= a < base + offset_bytes r + num_units r * packed r <->
      exists u, 0 <= u < num_units r /\ offset_bytes r + u * packed r <= a - base < offset_bytes r + u * packed r + packed r).
    { split; [|intros (u & ? & ?); nia]. intros Ha. exists ((a - base - offset_bytes r) / packed r).
      pose proof (Z.div_mod (a - base - offset_bytes r) (packed r) Ep).
      pose proof (Z.mod_pos_bound (a - base - offset_bytes r) (packed r) ltac:(lia)).
      pose proof (Z.div_pos (a - base - offset_bytes r) (packed r) ltac:(lia) ltac:(lia)). nia. }
    tauto.
  - apply (for_each_collect _ (Forall ext_pos) in_extents (fun u a =>
      base + offset_bytes r + u * stride_bytes r <= a < base + offset_bytes r + u * stride_bytes r + packed r)) in H.
    + destruct H as [Hpos Hsem]. split; [done|]. intros a. rewrite Hsem. apply or_iff_compat_l.
      setoid_rewrite elem_of_zrange. split; intros (u & Hu' & Ha); exists u; lia.
    + intros st u st' _ Hst Hbody. eapply unit_extent_collect; eauto with lia.
    + done.
Qed.

Lemma block_extents_collect pool es b es' :
  pool_int64 pool -> Forall ext_pos es -> block_extents pool es b = Ok es' ->
  Forall ext_pos es' /\
  forall a, in_extents es' a <-> in_extents es a \/ (0 <= b < num_blocks pool /\ block_live_byte pool b a).
Proof.
  intros (Hb & Hs & Hn & Hr) Hes H. unfold block_extents in H. int64_unfold. fold int64_max in *. guards H.
  apply checked_mul_inv in Hcall as (? & ? & ? & ->). to_prop.
  apply checked_add_inv in Hcall0 as (? & ? & ? & ->); [|lia..].
  apply (for_each_collect _ (Forall ext_pos) in_extents
    (region_byte (base_offset_bytes pool + b * block_stride_bytes pool))) in H; [|clear H|done].
  - destruct H as [Hpos Hsem]. split; [done|]. intros a. rewrite Hsem. apply or_iff_compat_l.
    unfold block_live_byte, live_in, region_byte. tauto.
  - intros st r st' Hin Hst Hbody. rewrite Forall_forall in Hr.
    eapply region_extents_collect; eauto with lia.
Qed.

Lemma region_extents_total pool base es r slot :
  region_ok slot r -> slot <= int64_max -> 0 <= base -> base + region_extent r <= int64_max ->
  exists es', region_extents pool base es r = Ok es'.
Proof.
  intros Hr Hslot Hbase Hfit. pose proof (region_ok_extent _ _ Hr Hslot) as [_ Hext].
  pose proof (packed_nonneg _ _ Hr) as Hp. destruct Hr. unfold region_extents.
  assert (Hpk : unit_bytes r * units_per_stride r = packed r) by (unfold packed; lia).
  assert (packed r <= slot) by nia.
  rewrite checked_mul_ok, Hpk by lia.
  destruct (_ || _) eqn:E1; [eauto|]. to_prop. unfold region_extent in *.
  rewrite (proj2 (Z.eqb_neq _ _)) in Hfit, Hext by lia.
  destruct (stride_bytes r =? packed r) eqn:E2; to_prop.
  - rewrite checked_mul_ok, checked_add_ok by nia. eauto.
  - edestruct (for_each_succeeds (unit_extent pool r base (packed r)) (fun _ => True)
      (zrange 0 (num_units r)) es) as (es' & -> & _); [|done|eauto].
    intros st u Hu%elem_of_zrange _. unfold unit_extent.
    assert (0 <= u * stride_bytes r <= (num_units r - 1) * stride_bytes r) by nia.
    rewrite checked_mul_ok, checked_add_ok, checked_add_ok by lia. eauto.
Qed.

(** The merged list, back first: extents separated by gaps, in [int64_t] range. *)
Definition ext_after (e e' : PoolBlockCopyExtent) : Prop := ext_end e' < ext_offset_bytes e.
Definition ext_ok (e : PoolBlockCopyExtent) : Prop := ext_pos e /\ ext_end e <= int64_max.
Definition merged_inv (m : list PoolBlockCopyExtent) : Prop := StronglySorted ext_after m /\ Forall ext_ok m.

#[global] Instance extent_ltb_swo : StrictWeakOrder extent_ltb.
Proof.
  split; unfold extent_ltb; intros [] []; [|intros []]; simpl; repeat case_match; to_prop; lia.
Qed.

Lemma merge_extent_step pool m e m' :
  merged_inv m -> ext_pos e -> Forall (fun h => ext_offset_bytes h <= ext_offset_bytes e) m ->
  merge_extent pool m e = Ok m' ->
  merged_inv m' /\ Forall (fun h => ext_offset_bytes h <= ext_offset_bytes e) m' /\
  (forall a, in_extents m' a <-> in_extents m a \/ ext_byte e a).
Proof.
  intros [Hsort Hok] [Ho Hs] Hhead H. unfold merge_extent in H. step_guard H.
  apply checked_add_inv in Hcall as (_ & _ & He & ->); [|lia..]. destruct m as [|p rest].
  - injection H as <-. split; [|split].
    + split; repeat constructor; unfold ext_end; lia.
    + repeat constructor. lia.
    + intros a. rewrite in_extents_cons. tauto.
  - apply Forall_cons in Hok as [[[Hpo Hps] Hpe] Hok]. apply Forall_cons in Hhead as [Hph Hhead].
    apply StronglySorted_inv in Hsort as [Hsort Hlt]. unfold ext_end in Hpe. step_guard H.
    apply checked_add_inv in Hcall as (_ & _ & _ & ->); [|lia..].
    destruct (_ <? ext_offset_bytes e) eqn:E; to_prop; injection H as <-.
    + split; [|split].
      * split; [|repeat constructor; unfold ext_end; auto with lia].
        repeat constructor; [done|done|unfold ext_after, ext_end; lia|].
        eapply Forall_impl; [exact Hlt|]. unfold ext_after, ext_end in *. intros x Hx. simpl in Hx. lia.
      * repeat constructor; [lia|lia|]. eapply Forall_impl; [exact Hhead|]. simpl. lia.
      * intros a. rewrite in_extents_cons. tauto.
    + rewrite wrap64_nonneg by (int64_unfold; lia). split; [|split].
      * split; [by constructor|]. constructor; [|done]. unfold ext_ok, ext_pos, ext_end. simpl. lia.
      * by constructor.
      * intros a. rewrite !in_extents_cons. unfold ext_byte, ext_end. simpl.
        set (R := in_extents rest a). clearbody R.
        assert (Hm : ext_offset_bytes p <= a < ext_offset_bytes p + (Z.max (ext_offset_bytes p + size_bytes p)
           (ext_offset_bytes e + size_bytes e) - ext_offset_bytes p) <->
          ext_offset_bytes p <= a < ext_offset_bytes p + size_bytes p \/
          ext_offset_bytes e <= a < ext_offset_bytes e + size_bytes e) by lia.
        tauto.
Qed.

Lemma merge_loop pool es m res :
  merged_inv m -> Forall ext_pos es -> StronglySorted (not_after extent_ltb) es ->
  Forall (fun e => Forall (fun h => ext_offset_bytes h <= ext_offset_bytes e) m) es ->
  for_each (merge_extent pool) es m = Ok res ->
  merged_inv res /\ forall a, in_extents res a <-> in_extents m a \/ in_extents es a.
Proof.
  intros Hm Hpos Hsort. revert m Hm. induction Hsort as [|e es Hsort IH Hall]; intros m Hm Hle; simpl.
  { intros [= <-]. split; [done|]. intros a.
    assert (Hnil : ~ in_extents [] a) by (intros (? & ?%elem_of_nil & _); done). tauto. }
  apply Forall_cons in Hpos as [He Hpos]. apply Forall_cons in Hle as [Hle1 Hle].
  destruct (merge_extent pool m e) as [m'|] eqn:Hb; [|done]. intros Hr.
  destruct (merge_extent_step _ _ _ _ Hm He Hle1 Hb) as (Hm' & Hle' & Hsem).
  apply IH in Hr as [Hinv Hsem']; [|done|done|].
  - split; [done|]. intros a. rewrite Hsem', Hsem, (in_extents_cons e). tauto.
  - eapply Forall_impl; [exact Hall|]. intros x Hx. eapply Forall_impl; [exact Hle'|]. simpl. intros h Hh.
    unfold not_after, extent_ltb in Hx. repeat case_match; to_prop; lia.
Qed.

Lemma merge_total pool es m :
  merged_inv m -> Forall ext_ok es ->
  (forall e, e ∈ es -> Forall (fun h => ext_offset_bytes h <= ext_offset_bytes e) m) ->
  StronglySorted (not_after extent_ltb) es -> exists res, for_each (merge_extent pool) es m = Ok res.
Proof.
  intros Hm Hok Hle Hsort. revert m Hm Hle. induction Hsort as [|e es Hsort IH Hall]; intros m Hm Hle; simpl; [eauto|].
  apply Forall_cons in Hok as [[[Ho Hs] He] Hok]. unfold ext_end in He.
  assert (exists m', merge_extent pool m e = Ok m') as [m' Hb].
  { unfold merge_extent. rewrite checked_add_ok by lia. destruct m as [|p rest]; [eauto|].
    destruct Hm as [_ [[[Hpo Hps] Hpe] _]%Forall_cons]. unfold ext_end in Hpe.
    rewrite checked_add_ok by lia. destruct (_ <? _); eauto. }
  rewrite Hb. destruct (merge_extent_step _ _ _ _ Hm (conj Ho Hs) (Hle e ltac:(left)) Hb) as (Hm' & Hle' & _).
  apply IH; [done|done|]. intros x Hx. rewrite Forall_forall in Hall. specialize (Hall x Hx).
  eapply Forall_impl; [exact Hle'|]. simpl. intros h Hh.
  unfold not_after, extent_ltb in Hall. repeat case_match; to_prop; lia.
Qed.

(** Every id the collection loop accepts is a block of the pool. *)
Lemma block_extents_ids pool ids es es' :
  for_each (block_extents pool) ids es = Ok es' -> Forall (fun b => 0 <= b < num_blocks pool) ids.
Proof.
  revert es. induction ids as [|b ids IH]; intros es; simpl; [constructor|].
  destruct (block_extents pool es b) as [es1|] eqn:Hb; [|done]. intros H. constructor; [|by eapply IH].
  unfold block_extents in Hb. step_guard Hb. to_prop. lia.
Qed.

Lemma copy_extents_sound pool ids out :
  pool_int64 pool -> ComputePoolBlockCopyExtents pool ids = Ok out ->
  Forall (fun b => 0 <= b < num_blocks pool) ids /\
  StronglySorted (fun e e' => ext_end e < ext_offset_bytes e') out /\ Forall ext_ok out /\
  forall a, in_extents out a <-> exists b, b ∈ ids /\ block_live_byte pool b a.
Proof.
  intros Hint H. unfold ComputePoolBlockCopyExtents in H. guards H. injection H as <-.
  pose proof (block_extents_ids _ _ _ _ Hcall) as Hids. split; [done|].
  apply (for_each_collect _ (Forall ext_pos) in_extents
    (fun b a => 0 <= b < num_blocks pool /\ block_live_byte pool b a)) in Hcall as [Hpos Hsem];
    [|intros st b st' _ Hst Hbody; by eapply block_extents_collect|constructor].
  apply merge_loop in Hcall0 as [[Hsort Hok] Hsem'].
  - split; [by apply (StronglySorted_rev ext_after)|]. split; [by apply Forall_rev|].
    intros x. rewrite in_extents_rev, Hsem', (in_extents_perm _ _ _ (sort_by_perm _ _)), Hsem.
    assert (Hnil : ~ in_extents [] x) by (intros (? & ?%elem_of_nil & _); done).
    rewrite Forall_forall in Hids. naive_solver.
  - split; constructor.
  - by rewrite sort_by_perm.
  - apply sort_by_sorted, _.
  - apply Forall_forall. intros; constructor.
Qed.

Lemma copy_extents_total pool ids storage :
  pool_int64 pool -> in_int64 storage -> 0 <= storage -> ok (Validate pool storage) = true ->
  Forall (fun b => 0 <= b < num_blocks pool) ids ->
  exists out, ComputePoolBlockCopyExtents pool ids = Ok out.
Proof.
  intros Hint Hst H0 Hval Hids. pose proof Hval as [Hok Hfits]%pool_validate_ok; [|done..].
  specialize (Hfits H0). destruct Hok. unfold pool_fits in Hfits.
  rewrite Forall_forall in Hfits. rewrite Forall_forall in po_each0.
  rewrite Forall_forall in Hids. pose proof Hint as (_ & Hbs & _ & _).
  assert (Hbase : forall b r, 0 <= b < num_blocks pool -> r ∈ regions pool ->
    base_offset_bytes pool + b * block_stride_bytes pool + region_extent r <= int64_max - 1).
  { intros b r Hb Hr. specialize (Hfits r Hr). simpl in Hfits. nia. }
  destruct (for_each_succeeds (block_extents pool) (fun _ => True) ids []) as (es & Hes & _); [|done|].
  { intros st b Hb _. specialize (Hids b Hb). simpl in Hids. unfold block_extents.
    rewrite (proj2 (orb_false_iff _ _)) by (to_prop; lia).
    assert (0 <= b * block_stride_bytes pool) by nia.
    assert (base_offset_bytes pool + b * block_stride_bytes pool <= int64_max).
    { destruct (regions pool) as [|r0 rs] eqn:Hregs; [done|]. specialize (Hbase b r0 Hids ltac:(left)).
      destruct (region_ok_extent _ r0 (po_each0 r0 ltac:(left))) as [_ ?]; [apply Hbs|lia]. }
    rewrite checked_mul_ok, checked_add_ok by lia.
    edestruct (for_each_succeeds (region_extents pool (base_offset_bytes pool + b * block_stride_bytes pool))
      (fun _ => True) (regions pool) st) as (st' & Hst' & _); [|done|eauto].
    intros st1 r Hr _. edestruct (region_extents_total pool (base_offset_bytes pool + b * block_stride_bytes pool) st1 r)
      as [st2 Hst2]; [by apply po_each0|apply Hbs|lia|specialize (Hbase b r Hids Hr); lia|eauto]. }
  unfold ComputePoolBlockCopyExtents. rewrite Hes.
  apply (for_each_collect _ (Forall ext_pos) in_extents
    (fun b a => 0 <= b < num_blocks pool /\ block_live_byte pool b a)) in Hes as [Hpos Hsem];
    [|intros st b st' _ Hst' Hbody; by eapply block_extents_collect|constructor].
  destruct (merge_total pool (sort_by extent_ltb es) []) as [m Hm]; [split; constructor| | | |rewrite Hm; eauto].
  - rewrite sort_by_perm, Forall_forall. rewrite Forall_forall in Hpos. intros e He. split; [by apply Hpos|].
    destruct (Hpos e He) as [? ?]. assert (Hin : in_extents es (ext_end e - 1)).
    { exists e. split; [done|]. unfold ext_byte, ext_end. lia. }
    apply Hsem in Hin as [(? & ?%elem_of_nil & _)|(b & Hb & Hbr & r & Hr & Hlive)]; [done|].
    apply (live_byte_extent _ _ _ (po_each0 r Hr)) in Hlive. specialize (Hbase b r Hbr Hr). lia.
  - intros. constructor.
  - apply sort_by_sorted, _.
Qed.

(** C27: Copy extents.  What ComputePoolBlockCopyExtents returns for a pool of int64
    fields is sorted, non-empty extents with a gap between each and the next, inside
    int64 range, that contain exactly the live bytes of the listed blocks, all of
    which exist: padding is never copied and no live byte is missed.  On a pool that
    validates against its storage it succeeds for every list of existing blocks. *)
Theorem pool_copy_extents_exact pool ids :
  pool_int64 pool ->
  (forall out, ComputePoolBlockCopyExtents pool ids = Ok out ->
     Forall (fun b => 0 <= b < num_blocks pool) ids /\
     StronglySorted (fun e e' => ext_end e < ext_offset_bytes e') out /\ Forall ext_ok out /\
     forall a, in_extents out a <-> exists b, b ∈ ids /\ block_live_byte pool b a) /\
  (forall storage, in_int64 storage -> 0 <= storage -> ok (Validate pool storage) = true ->
     Forall (fun b => 0 <= b < num_blocks pool) ids ->
     exists out, ComputePoolBlockCopyExtents pool ids = Ok out).
Proof.
  intros Hint. split; [intros out; by apply copy_extents_sound|].
  intros storage. by apply copy_extents_total.
Qed.

Lemma pool_copy_extents_exact_witness :
  ComputePoolBlockCopyExtents example_pool [1; 0; 1] =
    Ok [mkExtent 16 16; mkExtent 36 16; mkExtent 66 40; mkExtent 116 16; mkExtent 136 16; mkExtent 166 40] /\
  ~ (exists b, b ∈ [1; 0; 1] /\ block_live_byte example_pool b 32).
Proof.
  assert (H : ComputePoolBlockCopyExtents example_pool [1; 0; 1] =
    Ok [mkExtent 16 16; mkExtent 36 16; mkExtent 66 40; mkExtent 116 16; mkExtent 136 16; mkExtent 166 40])
    by reflexivity.
  split; [exact H|].
  destruct (proj1 (pool_copy_extents_exact example_pool [1; 0; 1] example_pool_int64) _ H) as (_ & _ & _ & Hex).
  rewrite <-Hex. intros (e & He & Hb). unfold ext_byte, ext_end in Hb.
  repeat (apply elem_of_cons in He as [->|He]; [simpl in Hb; lia|]). by apply elem_of_nil in He.
Defined.

(** ** Live segments *)

(** The bytes of half-open intervals, and their total length. *)
Definition in_intervals (ivs : list (Z * Z)) (o : Z) : Prop := exists i, i ∈ ivs /\ i.1 <= o < i.2.
Definition interval_ok (bound : Z) (i : Z * Z) : Prop := 0 <= i.1 < i.2 /\ i.2 <= bound.
Definition total_length (ivs : list (Z * Z)) : Z := zsum ((fun i => i.2 - i.1) <$> ivs).

Lemma in_intervals_app iv1 iv2 o : in_intervals (iv1 ++ iv2) o <-> in_intervals iv1 o \/ in_intervals iv2 o.
Proof. unfold in_intervals. setoid_rewrite elem_of_app. naive_solver. Qed.
Lemma in_intervals_cons i ivs o : in_intervals (i :: ivs) o <-> i.1 <= o < i.2 \/ in_intervals ivs o.
Proof. unfold in_intervals. setoid_rewrite elem_of_cons. naive_solver. Qed.
Lemma in_intervals_one i o : in_intervals [i] o <-> i.1 <= o < i.2.
Proof.
  rewrite in_intervals_cons. assert (~ in_intervals [] o) by (intros (? & ?%elem_of_nil & _); done). tauto.
Qed.
Lemma total_length_app iv1 iv2 : total_length (iv1 ++ iv2) = total_length iv1 + total_length iv2.
Proof. unfold total_length. by rewrite fmap_app, zsum_app. Qed.
Lemma total_length_cons i ivs : total_length (i :: ivs) = i.2 - i.1 + total_length ivs.
Proof. done. Qed.

(** The live bytes of a region over unbounded integers. *)
Definition region_live r : Z := num_units r * packed r.

Lemma live_byte_contiguous r o :
  0 < packed r -> stride_bytes r = packed r -> 0 <= num_units r ->
  live_byte r o <-> offset_bytes r <= o < offset_bytes r + num_units r * packed r.
Proof.
  intros Hp Hs Hn. unfold live_byte, unit_byte. rewrite Hs. split; [intros (u & ? & ?); nia|].
  intros Ho. exists ((o - offset_bytes r) / packed r).
  pose proof (Z.div_mod (o - offset_bytes r) (packed r) ltac:(lia)).
  pose proof (Z.mod_pos_bound (o - offset_bytes r) (packed r) ltac:(lia)).
  pose proof (Z.div_pos (o - offset_bytes r) (packed r) ltac:(lia) ltac:(lia)). nia.
Qed.

(** The units of one region, one interval each. *)
Lemma expand_units pool r ivs us res :
  region_ok (block_stride_bytes pool) r -> block_stride_bytes pool <= int64_max ->
  Forall (fun u => 0 <= u < num_units r) us -> Forall (interval_ok (block_stride_bytes pool)) ivs ->
  for_each (expand_unit pool r (packed r)) us ivs = Ok res ->
  Forall (interval_ok (block_stride_bytes pool)) res /\
  (forall o, in_intervals res o <-> in_intervals ivs o \/ exists u, u ∈ us /\ unit_byte r u o) /\
  total_length res = total_length ivs + Z.of_nat (length us) * packed r.
Proof.
  intros Hr Hbs Hus. pose proof (packed_nonneg _ _ Hr). destruct Hr.
  revert ivs. induction Hus as [|u us Hu _ IH]; intros ivs His; simpl.
  { intros [= <-]. split; [done|]. split; [|lia]. intros o. split; [by left|].
    intros [?|(? & ?%elem_of_nil & _)]; done. }
  rewrite Z.max_r in ro_fits0 by lia. destruct (ro_nonempty0 ltac:(lia)).
  assert (0 < packed r) by (unfold packed; nia).
  assert (0 <= u * stride_bytes r <= (num_units r - 1) * stride_bytes r) by nia.
  unfold expand_unit at 1. rewrite (proj2 (mul_fits u (stride_bytes r) ltac:(lia) ltac:(lia))) by lia.
  rewrite (wrap64_nonneg (u * _)), (wrap64_nonneg (_ + u * _)), (wrap64_nonneg (_ + packed r)) by lia.
  rewrite (proj2 (Z.ltb_ge _ _)) by lia.
  intros (Hok & Hsem & Htot)%IH.
  2:{ apply Forall_app. repeat constructor; simpl; auto with lia. }
  split; [done|]. split.
  - intros o. rewrite Hsem, in_intervals_app, in_intervals_one. simpl. setoid_rewrite elem_of_cons.
    unfold unit_byte. naive_solver.
  - rewrite Htot, total_length_app, total_length_cons. unfold total_length at 2. simpl. lia.
Qed.

Lemma expand_region_spec pool ivs r res :
  region_ok (block_stride_bytes pool) r -> block_stride_bytes pool <= int64_max ->
  Forall (interval_ok (block_stride_bytes pool)) ivs -> expand_region pool ivs r = Ok res ->
  Forall (interval_ok (block_stride_bytes pool)) res /\
  (forall o, in_intervals res o <-> in_intervals ivs o \/ live_byte r o) /\
  total_length res = total_length ivs + region_live r.
Proof.
  intros Hr Hbs His H. pose proof (packed_nonneg _ _ Hr). pose proof Hr as [].
  assert (packed r <= block_stride_bytes pool) by nia.
  unfold expand_region in H. rewrite (Z.mul_comm (unit_bytes r)) in H. fold (packed r) in H.
  rewrite (wrap64_nonneg (packed r)) in H by lia. do 7 (step_guard H; cbv zeta in H).
  destruct (_ && _) eqn:E in H; to_prop.
  - destruct E as [Hn Hst]. rewrite Z.max_r in ro_fits0 by lia.
    assert (Hfit : 0 < num_units r * packed r /\ offset_bytes r + num_units r * packed r <= block_stride_bytes pool).
    { destruct (ro_nonempty0 Hn). assert (0 < packed r) by (unfold packed; nia). nia. }
    step_guard H. rewrite (wrap64_nonneg (num_units r * _)), (wrap64_nonneg (_ + num_units r * _)) in H by lia.
    step_guard H. injection H as <-. split; [apply Forall_app; repeat constructor; simpl; auto with lia|]. split.
    + intros o. rewrite in_intervals_app, in_intervals_one, live_byte_contiguous by (nia || lia). done.
    + rewrite total_length_app, total_length_cons. unfold total_length at 2, region_live. simpl. lia.
  - apply expand_units in H as (Hok & Hsem & Htot); [|done|done| |done].
    + split; [done|]. split.
      * intros o. rewrite Hsem. unfold live_byte. by setoid_rewrite elem_of_zrange.
      * rewrite Htot, length_zrange. unfold region_live. lia.
    + apply Forall_forall. by intros u ?%elem_of_zrange.
Qed.

(** The coalesced runs, back first: non-empty, separated by gaps. *)
Definition runs_inv (bound : Z) (m : list (Z * Z)) : Prop :=
  StronglySorted (fun i j : Z * Z => j.2 < i.1) m /\ Forall (interval_ok bound) m.

Lemma coalesce_step pool bound m i m' :
  runs_inv bound m -> interval_ok bound i -> coalesce pool m i = Ok m' ->
  runs_inv bound m' /\ (forall o, in_intervals m' o <-> in_intervals m o \/ i.1 <= o < i.2) /\
  total_length m' = total_length m + (i.2 - i.1).
Proof.
  intros [Hsort Hok] Hi H. destruct i as [s e]. unfold coalesce in H. simpl.
  destruct m as [|[bs be] rest].
  { injection H as <-. split; [split; repeat constructor; apply Hi|]. split; [|unfold total_length; simpl; lia].
    intros o. rewrite in_intervals_cons. simpl. tauto. }
  apply StronglySorted_inv in Hsort as [Hsort Hlt]. apply Forall_cons in Hok as [Hb Hok].
  unfold interval_ok in Hi, Hb. simpl in *. step_guard H. to_prop.
  destruct (s =? be) eqn:E; to_prop; injection H as <-.
  - split; [split; constructor; try done; unfold interval_ok; simpl; lia|]. split.
    + intros o. rewrite !in_intervals_cons. simpl. set (R := in_intervals rest o). clearbody R.
      assert (bs <= o < e <-> bs <= o < be \/ s <= o < e) by lia. tauto.
    + rewrite !total_length_cons. simpl. lia.
  - split; [|split].
    + split; [|repeat constructor; simpl; auto with lia]. repeat constructor; try done; simpl; [lia|].
      eapply Forall_impl; [exact Hlt|]. simpl. lia.
    + intros o. rewrite in_intervals_cons. simpl. tauto.
    + rewrite !total_length_cons. simpl. lia.
Qed.

Lemma coalesce_loop pool bound ivs m res :
  runs_inv bound m -> Forall (interval_ok bound) ivs -> for_each (coalesce pool) ivs m = Ok res ->
  runs_inv bound res /\ (forall o, in_intervals res o <-> in_intervals m o \/ in_intervals ivs o) /\
  total_length res = total_length m + total_length ivs.
Proof.
  intros Hm Hok. revert m Hm. induction Hok as [|i ivs Hi _ IH]; intros m Hm; simpl.
  { intros [= <-]. split; [done|]. split; [|unfold total_length; simpl; lia]. intros o.
    assert (~ in_intervals [] o) by (intros (? & ?%elem_of_nil & _); done). tauto. }
  destruct (coalesce pool m i) as [m'|] eqn:Hb; [|done].
  apply (coalesce_step pool bound) in Hb as (Hm' & Hsem & Htot); [|done..].
  intros (Hres & Hsem' & Htot')%IH; [|done]. split; [done|]. split.
  - intros o. rewrite Hsem', Hsem, (in_intervals_cons i). tauto.
  - rewrite Htot', Htot, total_length_cons. lia.
Qed.

(** ** Compact-live coordinates *)

(** The live bytes of a block in the order the segments number them: the byte with
    compact-live offset [l] is the [l]-th element. *)
Definition live_list (segments : list PoolLiveSegment) : list Z :=
  segments ≫= fun s => zrange (physical_offset s) (physical_offset s + size s).

(** Segments numbered from [k] without gaps in the logical coordinate. *)
Fixpoint segs_ok (k : Z) (segments : list PoolLiveSegment) : Prop :=
  match segments with
  | [] => k <= int64_max
  | s :: rest =>
      logical_offset s = k /\ 0 < size s /\ 0 <= physical_offset s /\
      physical_offset s + size s <= int64_max /\ segs_ok (k + size s) rest
  end.

Lemma number_segments_spec bound k ivs :
  StronglySorted (fun i j : Z * Z => i.2 < j.1) ivs -> Forall (interval_ok bound) ivs ->
  bound <= int64_max -> 0 <= k <= int64_max -> Forall (fun i => k <= i.1) ivs ->
  segs_ok k (number_segments k ivs) /\
  live_list (number_segments k ivs) = ivs ≫= fun i => zrange i.1 i.2.
Proof.
  intros Hsort Hok Hbound Hk Hlo. revert k Hk Hlo.
  induction Hsort as [|[s e] ivs Hsort IH Hlt]; intros k Hk Hlo; simpl; [split; [lia|done]|].
  apply Forall_cons in Hok as [[Hse Heb] Hok]. apply Forall_cons in Hlo as [Hks Hlo]. simpl in *.
  rewrite (wrap64_nonneg (e - s)), (wrap64_nonneg (k + _)) by lia.
  destruct (IH Hok (k + (e - s))) as [Hsegs Hlist]; [lia| |].
  { eapply Forall_impl; [exact Hlt|]. simpl. lia. }
  split; [split_and!; auto with lia|]. unfold live_list in *. simpl.
  replace (s + (e - s)) with e by lia. by rewrite Hlist.
Qed.

Lemma zrange_sorted lo hi : StronglySorted Z.lt (zrange lo hi).
Proof.
  unfold zrange. apply (StronglySorted_fmap _ lt); [lia|].
  generalize (Z.to_nat (hi - lo)). intros n. generalize 0%nat.
  induction n as [|n IH]; intros m; simpl; constructor; [apply IH|].
  apply Forall_forall. intros x Hx%elem_of_seq. lia.
Qed.

Lemma runs_live_list ivs :
  StronglySorted (fun i j : Z * Z => i.2 < j.1) ivs -> Forall (fun i => i.1 < i.2) ivs ->
  let l := ivs ≫= fun i => zrange i.1 i.2 in
  StronglySorted Z.lt l /\ (forall o, o ∈ l <-> in_intervals ivs o) /\ Z.of_nat (length l) = total_length ivs.
Proof.
  intros Hsort Hpos. cbv zeta. induction Hsort as [|[s e] ivs Hsort IH Hlt].
  { split; [constructor|]. split; [|done]. intros o. rewrite elem_of_nil. split; [done|].
    by intros (? & ?%elem_of_nil & _). }
  apply Forall_cons in Hpos as [Hse Hpos]. destruct (IH Hpos) as (Hs & Hin & Hlen).
  rewrite bind_cons. cbn [fst snd] in *. split; [|split].
  - apply StronglySorted_app_2; [|apply zrange_sorted|done].
    intros x y Hx%elem_of_zrange Hy. apply Hin in Hy as (j & Hj & Hjy).
    rewrite Forall_forall in Hlt. specialize (Hlt j Hj). simpl in Hlt. lia.
  - intros o. by rewrite elem_of_app, elem_of_zrange, Hin, in_intervals_cons.
  - rewrite length_app, length_zrange, Nat2Z.inj_add, Hlen, total_length_cons. cbn [fst snd]. lia.
Qed.
Lemma total_length_perm iv1 iv2 : iv1 ≡ₚ iv2 -> total_length iv1 = total_length iv2.
Proof.
  induction 1 as [|x l1 l2 _ IH|x y l|l1 l2 l3 _ IH1 _ IH2]; rewrite ?total_length_cons; lia.
Qed.

Lemma expand_loop pool rs ivs res :
  Forall (region_ok (block_stride_bytes pool)) rs -> block_stride_bytes pool <= int64_max ->
  Forall (interval_ok (block_stride_bytes pool)) ivs -> for_each (expand_region pool) rs ivs = Ok res ->
  Forall (interval_ok (block_stride_bytes pool)) res /\
  (forall o, in_intervals res o <-> in_intervals ivs o \/ live_in rs o) /\
  total_length res = total_length ivs + zsum (region_live <$> rs).
Proof.
  intros Hr Hbs. revert ivs. induction Hr as [|r rs Hr _ IH]; intros ivs Hivs; cbn [for_each].
  { intros [= <-]. split; [done|]. split; [|unfold zsum; simpl; lia]. intros o.
    assert (~ live_in [] o) by (intros (? & ?%elem_of_nil & _); done). tauto. }
  destruct (expand_region pool ivs r) as [ivs'|] eqn:Hb; [|done].
  apply expand_region_spec in Hb as (Hok & Hsem & Htot); [|done..].
  intros (Hok' & Hsem' & Htot')%IH; [|done]. split; [done|]. split.
  - intros o. rewrite Hsem', Hsem. unfold live_in. setoid_rewrite elem_of_cons. naive_solver.
  - rewrite Htot', Htot, fmap_cons, zsum_cons. lia.
Qed.

(** What the expansion of a validated pool denotes. *)
Lemma expand_segments_spec pool segs :
  pool_int64 pool -> ok (Validate pool (-1)) = true -> ExpandPoolLiveSegments pool = Ok segs ->
  segs_ok 0 segs /\ StronglySorted Z.lt (live_list segs) /\
  (forall o, o ∈ live_list segs <-> live_in (regions pool) o) /\
  (forall o, o ∈ live_list segs -> 0 <= o < block_stride_bytes pool) /\
  Z.of_nat (length (live_list segs)) = zsum (region_live <$> regions pool).
Proof.
  intros Hint [Hok _]%pool_validate_ok H; [|done|int64_unfold; lia]. destruct Hok.
  pose proof Hint as (_ & Hbs & _). destruct Hbs as [_ Hbs].
  unfold ExpandPoolLiveSegments in H. guards H. injection H as <-.
  apply expand_loop in Hcall as (Hivs & Hsem & Htot); [|done|done|constructor].
  apply (coalesce_loop pool (block_stride_bytes pool)) in Hcall0 as ([Hsort Hruns] & Hsem' & Htot');
    [|split; constructor|by rewrite sort_by_perm].
  apply StronglySorted_rev in Hsort. apply Forall_rev in Hruns.
  destruct (number_segments_spec (block_stride_bytes pool) 0 (rev a0)) as [Hsegs Hlist];
    [done|done|done|int64_unfold; lia|by eapply Forall_impl; [exact Hruns|intros ? []; lia]|].
  destruct (runs_live_list (rev a0)) as (Hs & Hin & Hlen);
    [done|by eapply Forall_impl; [exact Hruns|intros ? []; lia]|].
  rewrite Hlist. split; [done|]. split; [done|].
  assert (Hlive : forall o, o ∈ (rev a0 ≫= fun i => zrange i.1 i.2) <-> live_in (regions pool) o).
  { intros o. rewrite Hin. unfold in_intervals. setoid_rewrite elem_of_rev. fold (in_intervals a0 o).
    rewrite Hsem'. unfold in_intervals at 1 2. setoid_rewrite sort_by_perm. fold (in_intervals a o).
    rewrite Hsem. unfold in_intervals. setoid_rewrite elem_of_nil. naive_solver. }
  split; [done|]. split.
  - intros o (r & Hr & Ho)%Hlive. rewrite Forall_forall in po_each0. specialize (po_each0 r Hr).
    apply (live_byte_extent (block_stride_bytes pool)) in Ho; [|done].
    destruct (region_ok_extent _ _ po_each0 Hbs). destruct po_each0. lia.
  - rewrite Hlen, (total_length_perm (rev a0) a0) by (symmetry; apply Permutation_rev).
    rewrite Htot', (total_length_perm (sort_by pair_ltb a) a) by apply sort_by_perm. rewrite Htot. unfold total_length. simpl. lia.
Qed.

(** Live segments.  For a pool that validates, the segments ExpandPoolLiveSegments
    returns number the live bytes of a block in address order: the list of bytes they
    denote is strictly increasing, contains exactly the live bytes of the regions, each
    once (its length is the sum of the regions' sizes, so overlapping regions are
    refused), all inside the block stride; logical offsets are consecutive from zero. *)
Theorem pool_expand_segments_exact pool segs :
  pool_int64 pool -> ok (Validate pool (-1)) = true -> ExpandPoolLiveSegments pool = Ok segs ->
  segs_ok 0 segs /\ StronglySorted Z.lt (live_list segs) /\
  (forall o, o ∈ live_list segs <-> live_in (regions pool) o) /\
  (forall o, o ∈ live_list segs -> 0 <= o < block_stride_bytes pool) /\
  Z.of_nat (length (live_list segs)) = zsum (region_live <$> regions pool).
Proof. apply expand_segments_spec. Qed.

Lemma pool_expand_segments_exact_witness :
  exists segs, ExpandPoolLiveSegments example_pool = Ok segs /\
    segs = [mkSegment 0 0 16; mkSegment 16 20 16; mkSegment 32 50 40] /\
    Z.of_nat (length (live_list segs)) = 72.
Proof.
  eexists. split; [reflexivity|]. split; [reflexivity|].
  refine (proj2 (proj2 (proj2 (proj2 (pool_expand_segments_exact example_pool _ example_pool_int64
            eq_refl eq_refl))))).
Defined.

(** The block-stride check of ExpandPoolLiveSegments is not overflow safe: on a
    region that abuts INT64_MAX the unchecked sum wraps, the check passes, and a
    segment outside the block is returned for a pool that Validate refuses. *)
Theorem pool_expand_segments_overflow :
  let pool := mkPool "p" 0 0 100 1 [mkRegion "r" int64_max 1 1 1 1] "x" in
  pool_int64 pool /\ ok (Validate pool (-1)) = false /\
  ExpandPoolLiveSegments pool = Ok [mkSegment 0 int64_max 1].
Proof.
  split; [|split; reflexivity]. unfold pool_int64, region_int64, in_int64.
  simpl. repeat constructor; simpl; int64_unfold; lia.
Qed.

(** ** Coordinate translation *)

Lemma live_list_cons s segs :
  live_list (s :: segs) = zrange (physical_offset s) (physical_offset s + size s) ++ live_list segs.
Proof. done. Qed.

(** Logical offset [l] of a list numbered from [k]: in the first segment, or later. *)
Lemma live_list_lookup_here s segs i :
  0 <= i < size s -> live_list (s :: segs) !! Z.to_nat i = Some (physical_offset s + i).
Proof.
  intros Hi. rewrite live_list_cons, lookup_app_l by (rewrite length_zrange; lia).
  apply zrange_lookup. lia.
Qed.
Lemma live_list_lookup_later s segs i :
  0 <= size s <= i -> live_list (s :: segs) !! Z.to_nat i = live_list segs !! Z.to_nat (i - size s).
Proof.
  intros Hi. rewrite live_list_cons, lookup_app_r by (rewrite length_zrange; lia).
  rewrite length_zrange. f_equal. lia.
Qed.

Lemma segs_ok_length k segs : segs_ok k segs -> k + Z.of_nat (length (live_list segs)) <= int64_max.
Proof.
  revert k; induction segs as [|s segs IH]; intros k; [simpl; lia|]. cbn [segs_ok].
  intros (_ & Hs & _ & _ & Hrest%IH). rewrite live_list_cons, length_app, length_zrange. lia.
Qed.

(** [locate]: the physical byte of a logical offset and how many bytes follow it
    contiguously, or an error when the offset is not live. *)
Lemma locate_spec k segs l :
  segs_ok k segs -> 0 <= k <= l ->
  match locate segs l with
  | Ok (p, n) => 0 < n /\ forall i, 0 <= i < n -> live_list segs !! Z.to_nat (l - k + i) = Some (p + i)
  | Err code _ => code = kInvalidArgument /\ Z.of_nat (length (live_list segs)) <= l - k
  end.
Proof.
  revert k; induction segs as [|s segs IH]; intros k Hok Hl.
  { unfold locate. simpl. split; [done|lia]. }
  pose proof (segs_ok_length _ _ Hok) as Hlen. destruct Hok as (Hlog & Hs & Hp & Hpmax & Hrest).
  pose proof (segs_ok_length _ _ Hrest) as Hlen'.
  unfold locate. cbn [find]. rewrite Hlog, (wrap64_nonneg (k + _)) by lia.
  destruct (_ && _) eqn:E; to_prop.
  - rewrite Hlog, (wrap64_nonneg (k + _)), (wrap64_nonneg (k + _ - _)) by lia.
    split; [lia|]. intros i Hi. rewrite live_list_lookup_here by lia. f_equal.
    rewrite wrap64_sub_l, wrap64_nonneg by lia. lia.
  - assert (Hge : k + size s <= l) by lia. specialize (IH (k + size s) Hrest ltac:(lia)).
    unfold locate in IH. destruct (find _ segs) as [s'|].
    + destruct IH as [Hn Hi]. split; [done|]. intros i Hin. rewrite live_list_lookup_later by lia.
      rewrite <-(Hi i Hin). f_equal. lia.
    + split; [done|]. destruct IH as [_ Hlen'']. rewrite live_list_cons, length_app, length_zrange. lia.
Qed.

(** The number of segments that end after a logical offset. *)
Definition segs_after (segs : list PoolLiveSegment) (l : Z) : nat :=
  length (filter (fun s => l < logical_offset s + size s) segs).

Lemma segs_after_le segs l l' : l <= l' -> (segs_after segs l' <= segs_after segs l)%nat.
Proof.
  intros Hl. unfold segs_after. induction segs as [|s segs IH]; [done|].
  rewrite !filter_cons. repeat case_decide; simpl; lia.
Qed.

(** Moving past the available bytes leaves a segment behind. *)
Lemma segs_after_lt k segs l p n :
  segs_ok k segs -> 0 <= k <= l -> locate segs l = Ok (p, n) ->
  (segs_after segs (l + n) < segs_after segs l)%nat.
Proof.
  revert k; induction segs as [|s segs IH]; intros k Hok Hl; [done|].
  pose proof (segs_ok_length _ _ Hok) as Hlen. destruct Hok as (Hlog & Hs & _ & _ & Hrest).
  pose proof (segs_ok_length _ _ Hrest) as Hlen'.
  unfold locate. cbn [find]. rewrite Hlog, (wrap64_nonneg (k + _)) by lia.
  destruct (_ && _) eqn:E; to_prop.
  - rewrite Hlog, (wrap64_nonneg (k + _)), (wrap64_nonneg (k + _ - _)) by lia. intros [= _ <-].
    unfold segs_after. rewrite !filter_cons. rewrite decide_False, decide_True by lia.
    pose proof (segs_after_le segs l (l + (k + size s - l)) ltac:(lia)) as Hle. unfold segs_after in Hle.
    simpl. lia.
  - intros Hloc. assert (Hlt : (segs_after segs (l + n) < segs_after segs l)%nat)
      by (apply (IH (k + size s)); [done|lia|exact Hloc]).
    unfold segs_after in *. rewrite !filter_cons, !decide_False; [done| |]; [lia|].
    pose proof (locate_spec (k + size s) segs l Hrest ltac:(lia)) as Hsp.
    unfold locate in Hsp. rewrite Hloc in Hsp. lia.
Qed.

(** The byte pairs a list of chunks copies, in order. *)
Definition chunk_pairs (chunks : list LiveCopyChunk) : list (Z * Z) :=
  chunks ≫= fun c => (fun i => (src_physical c + i, dst_physical c + i)) <$> zrange 0 (chunk_size c).

(** The chunks copy the [n] live bytes from compact-live offset [so] of the source
    to the ones from [d] of the destination, one for one. *)
Definition copies (src dst : list PoolLiveSegment) (so d n : Z) (chunks : list LiveCopyChunk) : Prop :=
  Z.of_nat (length (chunk_pairs chunks)) = n /\
  forall i, 0 <= i < n -> exists p q,
    chunk_pairs chunks !! Z.to_nat i = Some (p, q) /\
    live_list src !! Z.to_nat (so + i) = Some p /\ live_list dst !! Z.to_nat (d + i) = Some q.

Lemma copies_snoc src dst so d m chunks p q c :
  copies src dst so d m chunks -> 0 <= so -> 0 <= d -> 0 < c ->
  (forall i, 0 <= i < c -> live_list src !! Z.to_nat (so + m + i) = Some (p + i)) ->
  (forall i, 0 <= i < c -> live_list dst !! Z.to_nat (d + m + i) = Some (q + i)) ->
  copies src dst so d (m + c) (chunks ++ [mkChunk p q c]).
Proof.
  intros [Hlen Hcopy] Hso Hd Hc Hs Ht. unfold copies, chunk_pairs in *. rewrite bind_app, length_app.
  set (old := chunks ≫= _) in *. rewrite bind_cons. simpl. rewrite app_nil_r, length_fmap, length_zrange.
  split; [lia|]. intros i Hi. destruct (decide (i < m)) as [Him|Him].
  - destruct (Hcopy i ltac:(lia)) as (p' & q' & H1 & H2 & H3). exists p', q'.
    rewrite lookup_app_l by (apply lookup_lt_Some in H1; done). done.
  - exists (p + (i - m)), (q + (i - m)). rewrite lookup_app_r by lia.
    replace (Z.to_nat i - length old)%nat with (Z.to_nat (i - m)) by lia.
    rewrite list_lookup_fmap, zrange_lookup by lia. simpl. split; [done|].
    rewrite <-(Hs (i - m)), <-(Ht (i - m)) by lia. split; f_equal; lia.
Qed.

Lemma translate_loop_spec src dst so d n fuel chunks m :
  segs_ok 0 src -> segs_ok 0 dst -> 0 <= so <= int64_max -> 0 <= d <= int64_max -> 0 <= m <= n ->
  n <= int64_max -> (Z.to_nat (n - m) <= fuel)%nat ->
  copies src dst so d m chunks -> Forall (fun c => 0 < chunk_size c) chunks ->
  (m < n -> (length chunks + segs_after src (so + m) + segs_after dst (d + m)
              <= length src + length dst)%nat) ->
  exists res, translate_loop fuel src dst chunks (n - m) (so + m) (d + m) = Some res /\
  match res with
  | Ok out => copies src dst so d n out /\ Forall (fun c => 0 < chunk_size c) out
  | Err code _ => code = kInvalidArgument /\
      (Z.of_nat (length (live_list src)) < so + n \/ Z.of_nat (length (live_list dst)) < d + n \/
       kMaxLiveSegments < Z.of_nat (length src + length dst))
  end.
Proof.
  intros Hsrc Hdst Hso Hd Hm Hn. revert chunks m Hm.
  induction fuel as [|fuel IH]; intros chunks m Hm Hf Hcopy Hpos Hcount; simpl;
    (destruct (0 <? n - m) eqn:E; to_prop;
      [|replace n with m by lia; eexists; split; [done|by split]]); [lia|].
  specialize (Hcount ltac:(lia)).
  pose proof (locate_spec 0 src (so + m) Hsrc ltac:(lia)) as Hls.
  destruct (locate src (so + m)) as [[p ns]|code msg] eqn:Els.
  2:{ eexists; split; [done|]. destruct Hls. split; [done|]. lia. }
  pose proof (locate_spec 0 dst (d + m) Hdst ltac:(lia)) as Hld.
  destruct (locate dst (d + m)) as [[q nd]|code msg] eqn:Eld.
  2:{ eexists; split; [done|]. destruct Hld. split; [done|]. lia. }
  destruct Hls as [Hns Hls], Hld as [Hnd Hld]. cbn [fst snd].
  pose proof (segs_after_lt 0 src (so + m) p ns Hsrc ltac:(lia) Els) as Hmus.
  pose proof (segs_after_lt 0 dst (d + m) q nd Hdst ltac:(lia) Eld) as Hmud.
  set (c := Z.min (n - m) (Z.min ns nd)). rewrite length_app. simpl.
  destruct (kMaxLiveSegments <? _) eqn:Ek; to_prop.
  { eexists; split; [done|]. split; [done|]. lia. }
  assert (Hend : so + m + c <= int64_max /\ d + m + c <= int64_max).
  { pose proof (segs_ok_length _ _ Hsrc). pose proof (segs_ok_length _ _ Hdst).
    pose proof (Hls (c - 1) ltac:(lia)) as H1. apply lookup_lt_Some in H1.
    pose proof (Hld (c - 1) ltac:(lia)) as H2. apply lookup_lt_Some in H2. lia. }
  rewrite !wrap64_nonneg by lia. replace (n - m - c) with (n - (m + c)) by lia.
  replace (so + m + c) with (so + (m + c)) by lia. replace (d + m + c) with (d + (m + c)) by lia.
  apply IH; [lia|lia| | |].
  - apply copies_snoc; [done|lia|lia|lia| |]; intros i Hi; [rewrite <-(Hls i)|rewrite <-(Hld i)]; try lia;
      f_equal; lia.
  - apply Forall_app. split; [done|]. repeat constructor. simpl. lia.
  - intros Hlt. rewrite length_app. simpl. assert (c = ns \/ c = nd) as [Hc|Hc] by lia.
    + pose proof (segs_after_le dst (d + m) (d + (m + c)) ltac:(lia)).
      replace (so + (m + c)) with (so + m + ns) by lia. lia.
    + pose proof (segs_after_le src (so + m) (so + (m + c)) ltac:(lia)).
      replace (d + (m + c)) with (d + m + nd) by lia. lia.
Qed.

(** The translation of a copy of a range of live bytes. *)
Lemma translate_live_copy_spec src dst so d n :
  segs_ok 0 src -> segs_ok 0 dst -> 0 <= so <= int64_max -> 0 <= d <= int64_max -> 0 < n <= int64_max ->
  exists res, TranslateLiveCopy src dst so d n = Some res /\
  match res with
  | Ok out => copies src dst so d n out /\ Forall (fun c => 0 < chunk_size c) out
  | Err code _ => code = kInvalidArgument /\
      (Z.of_nat (length (live_list src)) < so + n \/ Z.of_nat (length (live_list dst)) < d + n \/
       kMaxLiveSegments < Z.of_nat (length src + length dst))
  end.
Proof.
  intros Hsrc Hdst Hso Hd Hn. unfold TranslateLiveCopy.
  rewrite !(proj2 (Z.ltb_ge _ 0)), (proj2 (Z.leb_gt n 0)) by lia. cbn [orb].
  destruct (translate_loop_spec src dst so d n (Z.to_nat n) [] 0) as (res & Hres & Hspec);
    [done|done|lia|lia|lia|lia|lia| |constructor| |].
  - split; [done|]. intros i Hi. lia.
  - intros _. unfold segs_after. simpl.
    pose proof (length_filter (fun s => so + 0 < logical_offset s + size s) src).
    pose proof (length_filter (fun s => d + 0 < logical_offset s + size s) dst). lia.
  - exists res. rewrite Z.sub_0_r, !Z.add_0_r in Hres. done.
Qed.

(** C37: Live copy translation.  On numbered segments TranslateLiveCopy always
    terminates.  The chunks it returns are non-empty and copy, byte for byte and in
    order, the requested compact-live range of the source to the one of the
    destination; it fails (InvalidArgument) only when a range leaves the live bytes
    or when the two layouts have more than 2^20 segments together. *)
Theorem pool_translate_exact src dst so d n :
  segs_ok 0 src -> segs_ok 0 dst -> 0 <= so <= int64_max -> 0 <= d <= int64_max -> 0 < n <= int64_max ->
  exists res, TranslateLiveCopy src dst so d n = Some res /\
  match res with
  | Ok out => copies src dst so d n out /\ Forall (fun c => 0 < chunk_size c) out
  | Err code _ => code = kInvalidArgument /\
      (Z.of_nat (length (live_list src)) < so + n \/ Z.of_nat (length (live_list dst)) < d + n \/
       kMaxLiveSegments < Z.of_nat (length src + length dst))
  end.
Proof. apply translate_live_copy_spec. Qed.

Lemma pool_translate_exact_witness :
  let src := [mkSegment 0 0 16; mkSegment 16 20 16] in
  let dst := [mkSegment 0 8 10; mkSegment 10 40 30] in
  exists out, TranslateLiveCopy src dst 4 2 20 = Some (Ok out) /\
    out = [mkChunk 4 10 8; mkChunk 12 40 4; mkChunk 20 44 8] /\
    copies src dst 4 2 20 out.
Proof.
  intros src dst. eexists. split; [vm_compute; reflexivity|]. split; [reflexivity|].
  destruct (pool_translate_exact src dst 4 2 20) as (res & Hres & Hspec);
    [simpl; int64_unfold; lia..|].
  vm_compute in Hres. injection Hres as <-. apply Hspec.
Defined.

(** Physical to logical.  A range PhysicalLiveRangeToLogical accepts (with its end
    in int64 range) is mapped to a compact-live range of the same length, and each of
    its bytes is the live byte with the corresponding logical offset. *)
Theorem pool_physical_to_logical segs p n l e :
  segs_ok 0 segs -> 0 <= p -> p + n <= int64_max -> PhysicalLiveRangeToLogical segs p n = Ok (l, e) ->
  e = l + n /\ 0 <= l /\ forall i, 0 <= i < n -> live_list segs !! Z.to_nat (l + i) = Some (p + i).
Proof.
  intros Hok Hp Hend H. unfold PhysicalLiveRangeToLogical in H. step_guard H. to_prop.
  rewrite (wrap64_nonneg (p + n)) in H by lia.
  enough (Hgen : forall k, segs_ok k segs -> 0 <= k -> forall s,
    find (fun s => (physical_offset s <=? p) && (p + n <=? wrap64 (physical_offset s + size s))) segs = Some s ->
    let l' := logical_offset s + p - physical_offset s in
    k <= l' /\ l' + n <= k + Z.of_nat (length (live_list segs)) /\
    forall i, 0 <= i < n -> live_list segs !! Z.to_nat (l' - k + i) = Some (p + i)).
  { destruct (find _ segs) as [s|]; [|done]. destruct (Hgen 0 Hok ltac:(lia) s eq_refl) as (Hl & Hlen & Hi).
    pose proof (segs_ok_length _ _ Hok). rewrite wrap64_sub_l in H.
    rewrite !(wrap64_nonneg (logical_offset s + p - physical_offset s)), wrap64_nonneg in H by lia.
    injection H as <- <-. split; [lia|]. split; [lia|]. intros i Hin. rewrite <-(Hi i Hin). f_equal. lia. }
  clear H Hok. induction segs as [|s segs IH]; intros k Hok Hk s'; [done|].
  destruct Hok as (Hlog & Hs & Hps & Hpm & Hrest). cbn [find].
  rewrite (wrap64_nonneg (physical_offset s + _)) by lia.
  rewrite live_list_cons, length_app, length_zrange. destruct (_ && _) eqn:E; to_prop.
  - intros [= <-]. cbv zeta. split; [lia|]. split; [lia|]. intros i Hi.
    rewrite <-live_list_cons, live_list_lookup_here by lia. f_equal. lia.
  - intros Hfind. destruct (IH (k + size s) Hrest ltac:(lia) s' Hfind) as (Hl & Hlen & Hi).
    split; [lia|]. split; [lia|]. intros i Hin.
    rewrite <-live_list_cons, live_list_lookup_later by lia. rewrite <-(Hi i Hin). f_equal. lia.
Qed.

Lemma pool_physical_to_logical_witness :
  let segs := [mkSegment 0 0 16; mkSegment 16 20 16] in
  PhysicalLiveRangeToLogical segs 24 5 = Ok (20, 25) /\ live_list segs !! 22%nat = Some 26.
Proof.
  intros segs. assert (H : PhysicalLiveRangeToLogical segs 24 5 = Ok (20, 25)) by reflexivity.
  split; [exact H|].
  destruct (pool_physical_to_logical segs 24 5 20 25) as (_ & _ & Hi); [simpl; int64_unfold; lia..|exact H|].
  apply (Hi 2). lia.
Defined.

(** The unchecked end of the range wraps, and a range of INT64_MAX bytes is accepted. *)
Lemma physical_to_logical_overflow :
  PhysicalLiveRangeToLogical [mkSegment 0 0 16] 10 int64_max = Ok (10, wrap64 (10 + int64_max)) /\
  wrap64 (10 + int64_max) < 0.
Proof. split; vm_compute; reflexivity. Qed.

(** ** Messages *)

(** A pool survives the wire unless its storage index does not fit the int64 field. *)
Lemma pool_proto_roundtrip pool :
  0 <= storage_index pool < 2 ^ 64 ->
  PoolSpecFromProto (Pool_ToProto pool) =
    if storage_index pool <? 2 ^ 63 then Ok pool
    else Err kInvalidArgument StrCat["storage_index must be non-negative"].
Proof.
  intros Hst. unfold PoolSpecFromProto, Pool_ToProto. cbn [p_storage_index p_regions].
  assert (Hregs : forall rs acc, for_each (fun rs rp => let? spec := RegionSpecFromProto rp in Ok (rs ++ [spec]))
    (Region_ToProto <$> rs) acc = Ok (acc ++ rs)).
  { induction rs as [|r rs IH]; intros acc; [by rewrite app_nil_r|]. rewrite fmap_cons. cbn [for_each].
    unfold RegionSpecFromProto at 1. rewrite IH, <-app_assoc. by destruct r. }
  rewrite Hregs. destruct (storage_index pool <? 2 ^ 63) eqn:E; to_prop.
  - rewrite wrap64_nonneg by (int64_unfold; lia). rewrite (proj2 (Z.ltb_ge _ 0)), u64_id by lia. by destruct pool.
  - assert (Hneg : wrap64 (storage_index pool) < 0).
    { unfold wrap64. replace (storage_index pool + 2 ^ 63) with (storage_index pool - 2 ^ 63 + 1 * 2 ^ 64) by lia.
      rewrite Z.mod_add, Z.mod_small by lia. lia. }
    by rewrite (proj2 (Z.ltb_lt _ 0)).
Qed.

End Pool.
