(* ===== verification/ReshardTypes.v ===== *)
(** * Identities and declarations of the reshard control plane
    ([src/tpu_sync/kv_cache/raiden_id.h], [src/tpu_sync/kv_cache/reshard/declaration_types.cc])

    The value types the work-unit directory, the request-block registry, the planner
    and the coordinator exchange.  Text built by [PythonRepr] is kept as the list of
    the [StrCat] arguments, like every other message. *)

From S2P Require Import Prelude.

(** ** RaidenId *)

Record RaidenId : Type := mkRaidenId {
  job_name : string;
  job_replica_id : string;
  data_name : string;
  data_replica_idx : Z
}.

#[global] Instance RaidenId_eq_dec : EqDecision RaidenId.
Proof. solve_decision. Defined.
#[global] Program Instance RaidenId_countable : Countable RaidenId :=
  inj_countable' (fun u => (job_name u, job_replica_id u, data_name u, data_replica_idx u))
    (fun '(a, b, c, d) => mkRaidenId a b c d) _.
Next Obligation. by intros []. Qed.

Definition RaidenId_empty (id : RaidenId) : bool :=
  bool_decide (job_name id = EmptyString) && bool_decide (job_replica_id id = EmptyString) &&
  bool_decide (data_name id = EmptyString) && (data_replica_idx id =? 0).

(** [operator==], field by field. *)
Definition RaidenId_eqb (a b : RaidenId) : bool :=
  bool_decide (job_name a = job_name b) && bool_decide (job_replica_id a = job_replica_id b) &&
  bool_decide (data_name a = data_name b) && (data_replica_idx a =? data_replica_idx b).

Lemma RaidenId_eqb_eq a b : RaidenId_eqb a b = true <-> a = b.
Proof.
  unfold RaidenId_eqb. destruct a as [a1 a2 a3 a4], b as [b1 b2 b3 b4]. simpl. to_prop.
  split; [intros [[[-> ->] ->] ->]; done|]. intros [= -> -> -> ->]. done.
Qed.

(** ** Declarations *)

Record PoolByteSpan : Type := mkSpan {
  src_block_ordinal : Z;
  src_offset_bytes : Z;
  dst_block_index : Z;
  dst_offset_bytes : Z;
  span_size_bytes : Z;
  src_stride_bytes : Z;
  dst_stride_bytes : Z;
  count : Z
}.

Record PoolSpanRegistration : Type := mkSpanReg {
  reg_tag : string;
  reg_block_ids : list Z;
  spans : list PoolByteSpan;
  declared_bytes : Z;
  dst_space_version : Z
}.

(** [expires_at] is a time in seconds. *)
Record RequestBlockRegistration : Type := mkRequestReg {
  req_uuid : Z;
  req_block_ids : list Z;
  expires_at : Z;
  pool_spans : list PoolSpanRegistration
}.

#[global] Instance PoolByteSpan_eq_dec : EqDecision PoolByteSpan.
Proof. solve_decision. Defined.
#[global] Instance PoolSpanRegistration_eq_dec : EqDecision PoolSpanRegistration.
Proof. solve_decision. Defined.
#[global] Instance RequestBlockRegistration_eq_dec : EqDecision RequestBlockRegistration.
Proof. solve_decision. Defined.

(** ** Text *)

Definition PythonRepr (id : RaidenId) : list Frag :=
  StrCat["RaidenId(job_name='"; job_name id; "', job_replica_id='"; job_replica_id id;
         "', data_name='"; data_name id; "', data_replica_idx="; data_replica_idx id; ")"].

(** [absl::StrJoin(values, ", ")] of already rendered values. *)
Fixpoint StrJoin (values : list (list Frag)) : list Frag :=
  match values with
  | [] => []
  | [v] => v
  | v :: rest => v ++ StrCat[", "] ++ StrJoin rest
  end.

Definition PythonReprIntList (values : list Z) : list Frag :=
  StrCat["["] ++ StrJoin ((fun v : Z => StrCat[v]) <$> values) ++ StrCat["]"].

(** ** Messages *)

Record RaidenIdProto : Type := mkRaidenIdProto {
  p_job_name : string;
  p_job_replica_id : string;
  p_data_name : string;
  p_data_replica_idx : Z
}.

Definition RaidenIdFromProto (p : RaidenIdProto) : RaidenId :=
  mkRaidenId (p_job_name p) (p_job_replica_id p) (p_data_name p) (p_data_replica_idx p).
Definition RaidenIdToProto (id : RaidenId) : RaidenIdProto :=
  mkRaidenIdProto (job_name id) (job_replica_id id) (data_name id) (data_replica_idx id).

Lemma RaidenIdFromProto_ToProto id : RaidenIdFromProto (RaidenIdToProto id) = id.
Proof. by destruct id. Qed.
