(* ===== verification/WorkUnitDirectory.v ===== *)
(** * The work-unit directory ([src/tpu_sync/kv_cache/reshard/work_unit_directory.cc])

    An insertion-ordered registry of work units, kept as two parallel vectors.  All
    calls run under one controller mutex, so a call is one atomic step.  The model
    keeps the vectors; [directory_refines] relates them to an insertion-ordered
    dictionary whose [set] replaces in place. *)

From S2P Require Import Prelude PoolLayout ReshardTypes.

Module WUD.

(** ** Messages and arguments *)

Record VariableMetadataProto : Type := mkVariable {
  v_name : string;
  v_shape : list Z;
  v_mesh_shape : list Z;
  v_layout : list Z;
  v_item_size : Z;
  v_layer_idx : Z;
  v_sharding_spec : list string
}.

Record WorkUnitRegistration : Type := mkReg {
  unit_ : RaidenId;
  shards : list string;
  control_plane_rpc_address : option string;
  mesh_shape : option (list Z);
  layout : option (list Z);
  global_shape : option (list Z);
  itemsize : option Z;
  pool_manifest : option (list Pool.PoolSpecProto);
  layout_fingerprint : option string;
  page_tokens : option Z;
  transfer_parallelism : option Z;
  transfer_rank : option Z;
  variables : option (list VariableMetadataProto)
}.

Record RegisterWorkUnitRequest : Type := mkRequest {
  q_unit : RaidenIdProto;
  q_shards : list string;
  q_control_plane_rpc_address : string;
  q_itemsize : Z;
  q_layout_fingerprint : string;
  q_page_tokens : Z;
  q_transfer_parallelism : Z;
  q_transfer_rank : Z;
  q_mesh_shape : list Z;
  q_layout : list Z;
  q_global_shape : list Z;
  q_pools : list Pool.PoolSpecProto;
  q_variables : list VariableMetadataProto
}.

(** ** State *)

Record WorkUnit : Type := mkUnit {
  r_shards : list string;
  r_control_plane_rpc_address : string;
  r_mesh_shape : option (list Z);
  r_layout : option (list Z);
  r_global_shape : option (list Z);
  r_itemsize : option Z;
  r_pools : option (list Pool.PoolSpecProto);
  r_layout_fingerprint : option string;
  r_page_tokens : option Z;
  r_transfer_parallelism : option Z;
  r_transfer_rank : option Z;
  r_variables : option (list VariableMetadataProto)
}.

Record WorkUnitDirectory : Type := mkDir {
  order_ : list RaidenId;
  records_ : list WorkUnit
}.

Definition create : WorkUnitDirectory := mkDir [] [].

Implicit Types (reg : WorkUnitRegistration) (d : WorkUnitDirectory) (u : RaidenId).

Definition has_value {A} (o : option A) : bool := match o with Some _ => true | None => false end.

(** ** Validation *)

Definition check_metadata reg : Status :=
  if has_value (mesh_shape reg) || has_value (layout reg) || has_value (global_shape reg) then
    if negb (has_value (mesh_shape reg)) || negb (has_value (layout reg)) ||
       negb (has_value (global_shape reg)) then
      Err kInvalidArgument
        StrCat["If any of mesh_shape, layout, or global_shape is provided, all of them must be provided to enable centralized slice planning."]
    else if negb (has_value (itemsize reg)) || (default 0 (itemsize reg) <=? 0) then
      Err kInvalidArgument
        StrCat["itemsize must be provided and must be greater than 0 if resharding metadata is provided."]
    else OkStatus
  else OkStatus.

Definition check_reshard_metadata reg : Status :=
  if has_value (pool_manifest reg) || has_value (layout_fingerprint reg) || has_value (page_tokens reg) ||
     has_value (transfer_parallelism reg) || has_value (transfer_rank reg) then
    match pool_manifest reg, layout_fingerprint reg, page_tokens reg, transfer_parallelism reg,
          transfer_rank reg with
    | Some manifest, Some fingerprint, Some tokens, Some parallelism, Some rank =>
        if bool_decide (manifest = []) then
          Err kInvalidArgument StrCat["pool_manifest must not be empty"]
        else if bool_decide (fingerprint = EmptyString) then
          Err kInvalidArgument StrCat["layout_fingerprint must not be empty"]
        else if tokens <=? 0 then Err kInvalidArgument StrCat["page_tokens must be positive"]
        else if parallelism <=? 0 then
          Err kInvalidArgument StrCat["transfer_parallelism must be positive"]
        else if rank <? 0 then Err kInvalidArgument StrCat["transfer_rank must be non-negative"]
        else if parallelism <=? rank then
          Err kInvalidArgument StrCat["transfer_rank must be less than transfer_parallelism"]
        else OkStatus
    | _, _, _, _, _ =>
        Err kInvalidArgument
          StrCat["pool_manifest, layout_fingerprint, page_tokens, transfer_parallelism, and transfer_rank must be provided together for pool resharding"]
    end
  else OkStatus.

Definition Validate reg : Status :=
  let? _ := check_metadata reg in
  let? _ := check_reshard_metadata reg in
  if bool_decide (shards reg = []) || existsb (fun s => bool_decide (s = EmptyString)) (shards reg) then
    Err kInvalidArgument StrCat["shards must contain at least one non-empty endpoint"]
  else OkStatus.

(** ** Operations *)

Fixpoint find_from (i : Z) (order : list RaidenId) u : Z :=
  match order with
  | [] => -1
  | x :: rest => if RaidenId_eqb x u then i else find_from (i + 1) rest u
  end.
Definition FindLocked d u : Z := find_from 0 (order_ d) u.

Definition record_of reg : WorkUnit :=
  let has := has_value (pool_manifest reg) in
  mkUnit (shards reg) (default EmptyString (control_plane_rpc_address reg)) (mesh_shape reg)
    (layout reg) (global_shape reg) (itemsize reg)
    (if has then pool_manifest reg else None) (if has then layout_fingerprint reg else None)
    (if has then page_tokens reg else None) (if has then transfer_parallelism reg else None)
    (if has then transfer_rank reg else None) (variables reg).

Definition RegisterLocked d reg : WorkUnitDirectory :=
  let idx := FindLocked d (unit_ reg) in
  if idx <? 0 then mkDir (order_ d ++ [unit_ reg]) (records_ d ++ [record_of reg])
  else mkDir (order_ d) (<[Z.to_nat idx := record_of reg]> (records_ d)).

(** [records_[idx]] for an index [FindLocked] returned. *)
Definition record_at d (idx : Z) : option WorkUnit := records_ d !! Z.to_nat idx.

Definition metadata_proto u (record : WorkUnit) : RegisterWorkUnitRequest :=
  mkRequest (RaidenIdToProto u) (r_shards record) (r_control_plane_rpc_address record)
    (default 0 (r_itemsize record)) (default EmptyString (r_layout_fingerprint record))
    (default 0 (r_page_tokens record)) (default 0 (r_transfer_parallelism record))
    (default 0 (r_transfer_rank record)) (default [] (r_mesh_shape record))
    (default [] (r_layout record)) (default [] (r_global_shape record)) (default [] (r_pools record))
    (default [] (r_variables record)).

Definition MetadataProtoLocked d u : StatusOr RegisterWorkUnitRequest :=
  let idx := FindLocked d u in
  if idx <? 0 then
    Err kInvalidArgument (StrCat["Work unit is not registered: "] ++ PythonRepr u)
  else
    match record_at d idx with
    | Some record => Ok (metadata_proto u record)
    | None => Err kInternal StrCat["records_ index out of range"]
    end.

Definition AllMetadata d : list RegisterWorkUnitRequest :=
  omap (fun u => match MetadataProtoLocked d u with Ok p => Some p | Err _ _ => None end) (order_ d).

Definition LocalMetadata d (units : list RaidenId) : StatusOr (list RegisterWorkUnitRequest) :=
  let missing := filter (fun u => FindLocked d u < 0) units in
  if negb (bool_decide (missing = [])) then
    Err kInvalidArgument
      (StrCat["Work units are not registered: ["] ++ StrJoin (PythonRepr <$> missing) ++ StrCat["]"])
  else
    for_each (fun result u => let? proto := MetadataProtoLocked d u in Ok (result ++ [proto])) units [].

Definition IsRegisteredLocked d u : bool := 0 <=? FindLocked d u.

Definition PoolManifestLocked d u : list Pool.PoolSpecProto :=
  let idx := FindLocked d u in
  if idx <? 0 then []
  else match record_at d idx with
       | Some record => default [] (r_pools record)
       | None => []
       end.

(** ** The dictionary it implements *)

Abbreviation Dict := (list (RaidenId * WorkUnit)).

(** Python's [d[k] = v]: replace in place, or append. *)
Fixpoint dict_set u (w : WorkUnit) (dict : Dict) : Dict :=
  match dict with
  | [] => [(u, w)]
  | (u', w') :: rest => if decide (u' = u) then (u, w) :: rest else (u', w') :: dict_set u w rest
  end.
Fixpoint dict_get u (dict : Dict) : option WorkUnit :=
  match dict with
  | [] => None
  | (u', w') :: rest => if decide (u' = u) then Some w' else dict_get u rest
  end.

(** The dictionary after a sequence of registrations. *)
Definition dict_run (regs : list WorkUnitRegistration) : Dict :=
  foldl (fun dict reg => dict_set (unit_ reg) (record_of reg) dict) [] regs.
Definition run (regs : list WorkUnitRegistration) : WorkUnitDirectory := foldl RegisterLocked create regs.

(** The vectors are the keys and the values of the dictionary, with no key twice. *)
Definition represents d (dict : Dict) : Prop :=
  order_ d = dict.*1 /\ records_ d = dict.*2 /\ NoDup (dict.*1).

(** ** Lookups *)

Lemma find_from_spec i order u :
  0 <= i ->
  match list_find (fun x => x = u) order with
  | Some (j, _) => find_from i order u = i + Z.of_nat j
  | None => find_from i order u = -1
  end.
Proof.
  revert i; induction order as [|x order IH]; intros i Hi; simpl; [done|].
  destruct (RaidenId_eqb x u) eqn:E.
  - apply RaidenId_eqb_eq in E as ->. rewrite decide_True by done. lia.
  - rewrite decide_False by (rewrite <-RaidenId_eqb_eq; congruence).
    specialize (IH (i + 1) ltac:(lia)). destruct (list_find _ order) as [[j y]|]; simpl; [|done]. lia.
Qed.

Lemma find_locked_spec d dict u :
  represents d dict ->
  match dict_get u dict with
  | Some w => 0 <= FindLocked d u /\ record_at d (FindLocked d u) = Some w /\
              order_ d !! Z.to_nat (FindLocked d u) = Some u
  | None => FindLocked d u = -1 /\ (u ∉ order_ d)
  end.
Proof.
  intros (Ho & Hr & _). unfold FindLocked, record_at. rewrite Ho, Hr. clear.
  enough (H : forall i, 0 <= i -> match dict_get u dict with
    | Some w => i <= find_from i dict.*1 u /\ dict.*2 !! Z.to_nat (find_from i dict.*1 u - i) = Some w /\
                dict.*1 !! Z.to_nat (find_from i dict.*1 u - i) = Some u
    | None => find_from i dict.*1 u = -1 /\ (u ∉ dict.*1) end).
  { specialize (H 0 ltac:(lia)). by rewrite !Z.sub_0_r in H. }
  induction dict as [|[u' w'] dict IH]; intros i Hi; cbn [dict_get].
  { split; [done|]. apply not_elem_of_nil. }
  rewrite !fmap_cons. cbn [fst snd find_from]. destruct (RaidenId_eqb u' u) eqn:E.
  - apply RaidenId_eqb_eq in E as ->. rewrite decide_True, Z.sub_diag by done. split; [lia|done].
  - assert (Hne : u' ≠ u) by (rewrite <-RaidenId_eqb_eq; congruence).
    rewrite decide_False by done. specialize (IH (i + 1) ltac:(lia)).
    destruct (dict_get u dict) as [w|]; [|rewrite not_elem_of_cons; naive_solver].
    destruct IH as (Hge & H1 & H2). split; [lia|].
    replace (Z.to_nat (find_from (i + 1) dict.*1 u - i))
      with (S (Z.to_nat (find_from (i + 1) dict.*1 u - (i + 1)))) by lia. done.
Qed.

Lemma dict_set_get u w u' dict :
  dict_get u' (dict_set u w dict) = if decide (u' = u) then Some w else dict_get u' dict.
Proof.
  induction dict as [|[x y] dict IH]; simpl.
  - repeat case_decide; congruence.
  - destruct (decide (x = u)) as [->|Hx]; simpl.
    + repeat case_decide; congruence.
    + destruct (decide (x = u')); [|done]. rewrite decide_False by congruence. done.
Qed.

Lemma dict_set_absent u w dict : u ∉ dict.*1 -> dict_set u w dict = dict ++ [(u, w)].
Proof.
  induction dict as [|[x y] dict IH]; [done|]. rewrite fmap_cons, not_elem_of_cons. intros [Hx Hu]. simpl in *.
  rewrite decide_False by done. by rewrite IH.
Qed.

Lemma dict_set_present u w dict i :
  NoDup (dict.*1) -> dict.*1 !! i = Some u ->
  (dict_set u w dict).*1 = dict.*1 /\ (dict_set u w dict).*2 = <[i := w]> (dict.*2).
Proof.
  revert i. induction dict as [|[x y] dict IH]; intros i Hnd Hi; [done|].
  rewrite fmap_cons in *. apply NoDup_cons in Hnd as [Hx Hnd]. destruct i as [|i]; simpl in *.
  - injection Hi as ->. by rewrite decide_True.
  - rewrite decide_False.
    + destruct (IH i Hnd Hi) as [H1 H2]. rewrite !fmap_cons. simpl. by rewrite H1, H2.
    + intros ->. apply Hx. by eapply list_elem_of_lookup_2.
Qed.

Lemma register_represents d dict reg :
  represents d dict -> represents (RegisterLocked d reg) (dict_set (unit_ reg) (record_of reg) dict).
Proof.
  intros Hrep. pose proof (find_locked_spec d dict (unit_ reg) Hrep) as Hf. pose proof Hrep as (Ho & Hr & Hnd).
  unfold RegisterLocked. destruct (dict_get (unit_ reg) dict) as [w|].
  - destruct Hf as (Hge & _ & Hlk). rewrite (proj2 (Z.ltb_ge _ 0)) by done.
    rewrite Ho in Hlk. destruct (dict_set_present _ (record_of reg) dict _ Hnd Hlk) as [H1 H2].
    split_and!; simpl; rewrite ?H1, ?H2, ?Ho, ?Hr; done.
  - destruct Hf as [-> Hnin]. simpl. rewrite Ho in Hnin.
    rewrite dict_set_absent by done. split_and!; simpl; rewrite ?fmap_app, ?Ho, ?Hr; [done..|].
    apply NoDup_app. split_and!; [done| |apply NoDup_singleton].
    intros x Hx ->%list_elem_of_singleton. done.
Qed.

Lemma wud_run_represents regs : represents (run regs) (dict_run regs).
Proof.
  unfold run, dict_run. assert (H : represents create []) by (repeat split; constructor).
  revert H. generalize create ([] : Dict). induction regs as [|reg regs IH]; intros d dict H; simpl; [done|].
  by apply IH, register_represents.
Qed.

Lemma metadata_spec d dict u :
  represents d dict ->
  MetadataProtoLocked d u =
    match dict_get u dict with
    | Some w => Ok (metadata_proto u w)
    | None => Err kInvalidArgument (StrCat["Work unit is not registered: "] ++ PythonRepr u)
    end.
Proof.
  intros H%(find_locked_spec d dict u). unfold MetadataProtoLocked. destruct (dict_get u dict) as [w|].
  - destruct H as (Hge & -> & _). by rewrite (proj2 (Z.ltb_ge _ 0)).
  - by destruct H as [-> _].
Qed.

(** ** Properties *)

(** Replacement, not patch.  After any sequence of registrations, the metadata of
    a unit is rebuilt from its last registration alone: every optional field it left
    out is gone.  Units never registered are refused by name. *)
Theorem wud_last_registration_wins regs reg u :
  MetadataProtoLocked (run (regs ++ [reg])) u =
    if decide (u = unit_ reg) then Ok (metadata_proto u (record_of reg))
    else MetadataProtoLocked (run regs) u.
Proof.
  rewrite !(metadata_spec _ _ _ (wud_run_represents _)). unfold dict_run. rewrite foldl_app. simpl.
  rewrite dict_set_get. case_decide; [done|]. done.
Qed.

(** Reading the records of a dictionary key by key. *)
Lemma omap_dict_get (dict : Dict) :
  NoDup (dict.*1) ->
  omap (fun u => (fun w => metadata_proto u w) <$> dict_get u dict) (dict.*1) =
  (fun p : RaidenId * WorkUnit => metadata_proto p.1 p.2) <$> dict.
Proof.
  enough (H : forall pre, NoDup ((pre ++ dict).*1) ->
    omap (fun u => (fun w => metadata_proto u w) <$> dict_get u (pre ++ dict)) (dict.*1) =
    (fun p : RaidenId * WorkUnit => metadata_proto p.1 p.2) <$> dict) by (apply (H [])).
  induction dict as [|[u w] dict IH]; intros pre Hnd; [done|].
  assert (Hget : dict_get u (pre ++ (u, w) :: dict) = Some w).
  { clear IH. induction pre as [|[x y] pre IHp]; simpl; [by rewrite decide_True|].
    simpl in Hnd. apply NoDup_cons in Hnd as [Hx Hnd]. rewrite decide_False; [by apply IHp|].
    intros ->. apply Hx. rewrite fmap_app, fmap_cons, elem_of_app. right. left. }
  rewrite fmap_cons. cbn. rewrite Hget. cbn. f_equal.
  specialize (IH (pre ++ [(u, w)])). rewrite <-app_assoc in IH. by apply IH.
Qed.

Lemma dict_get_elem u dict : is_Some (dict_get u dict) <-> u ∈ dict.*1.
Proof.
  induction dict as [|[x y] dict IH]; cbn [dict_get].
  - rewrite fmap_nil, elem_of_nil. split; [by intros []|done].
  - rewrite fmap_cons, elem_of_cons, <-IH. cbn [fst]. case_decide; naive_solver.
Qed.

Lemma find_negative d dict u : represents d dict -> FindLocked d u < 0 <-> (u ∉ dict.*1).
Proof.
  intros H%(find_locked_spec d dict u). rewrite <-dict_get_elem. destruct (dict_get u dict).
  - split; [lia|]. intros []. eauto.
  - split; [intros _ []; done|lia].
Qed.

Lemma local_metadata_loop d dict units acc :
  represents d dict -> Forall (fun u => u ∈ dict.*1) units ->
  for_each (fun result u => let? proto := MetadataProtoLocked d u in Ok (result ++ [proto])) units acc =
  Ok (acc ++ omap (fun u => metadata_proto u <$> dict_get u dict) units).
Proof.
  intros Hrep Hall. revert acc. induction Hall as [|u units Hu _ IH]; intros acc; [by rewrite app_nil_r|].
  cbn [for_each]. rewrite (metadata_spec _ _ _ Hrep). apply dict_get_elem in Hu as [w Hw]. rewrite Hw, IH.
  cbn. rewrite Hw. cbn. by rewrite <-app_assoc.
Qed.

(** Refinement to an insertion-ordered dictionary.  The two vectors hold the keys
    and values of the dictionary the registrations build (position kept when a unit
    re-registers); AllMetadata lists all of it in that order; LocalMetadata answers
    for exactly the requested units, in request order, when all are registered and
    refuses otherwise; IsRegistered and PoolManifest read the same dictionary. *)
Theorem wud_refines_dict regs units :
  let d := run regs in
  let dict := dict_run regs in
  represents d dict /\
  AllMetadata d = (fun p : RaidenId * WorkUnit => metadata_proto p.1 p.2) <$> dict /\
  LocalMetadata d units =
    (if bool_decide (Forall (fun u => u ∈ dict.*1) units)
     then Ok (omap (fun u => metadata_proto u <$> dict_get u dict) units)
     else Err kInvalidArgument
       (StrCat["Work units are not registered: ["] ++
        StrJoin (PythonRepr <$> filter (fun u => u ∉ dict.*1) units) ++ StrCat["]"])) /\
  (forall u, IsRegisteredLocked d u = bool_decide (u ∈ dict.*1)) /\
  (forall u, PoolManifestLocked d u = default [] (dict_get u dict ≫= r_pools)).
Proof.
  cbv zeta. pose proof (wud_run_represents regs) as Hrep.
  generalize dependent (run regs). generalize (dict_run regs). intros dict d Hrep.
  pose proof Hrep as (Ho & _ & Hnd). split_and!.
  - done.
  - rewrite <-omap_dict_get by done. unfold AllMetadata. rewrite Ho.
    apply list_omap_ext, Forall_Forall2_diag, Forall_forall. intros u _.
    rewrite (metadata_spec _ _ _ Hrep). by destruct (dict_get u dict).
  - unfold LocalMetadata. rewrite (list_filter_iff _ (fun u => u ∉ dict.*1))
      by (intros u; by apply find_negative).
    case_bool_decide as Hmiss; cbn [negb]; case_bool_decide as Hall.
    + rewrite local_metadata_loop with (dict := dict) by done. done.
    + destruct Hall. apply Forall_forall. intros u Hu. destruct (decide (u ∈ dict.*1)); [done|].
      assert (Hin : u ∈ filter (fun u => u ∉ dict.*1) units) by (by apply list_elem_of_filter).
      rewrite Hmiss in Hin. by apply elem_of_nil in Hin.
    + destruct Hmiss. rewrite Forall_forall in Hall.
      destruct (filter _ units) as [|u us] eqn:E; [done|].
      assert (Hin : u ∈ filter (fun u => u ∉ dict.*1) units) by (rewrite E; left).
      apply list_elem_of_filter in Hin as [Hn Hu]. by destruct Hn; apply Hall.
    + done.
  - intros u. unfold IsRegisteredLocked. pose proof (find_negative d dict u Hrep).
    apply eq_true_iff_eq. rewrite Z.leb_le, bool_decide_eq_true.
    destruct (decide (u ∈ dict.*1)) as [Hin|Hin].
    + split; [done|]. intros _. destruct (decide (FindLocked d u < 0)) as [Hlt|]; [by apply H in Hlt|lia].
    + split; [|done]. intros Hge. apply H in Hin. lia.
  - intros u. unfold PoolManifestLocked. pose proof (find_locked_spec d dict u Hrep) as Hf.
    destruct (dict_get u dict) as [w|]; [|by destruct Hf as [-> _]].
    destruct Hf as (Hge & -> & _). by rewrite (proj2 (Z.ltb_ge _ 0)).
Qed.

(** The reshard metadata of a validated registration is all there or not at all. *)
Lemma validate_reshard_all_or_nothing reg :
  Validate reg = OkStatus ->
  shards reg ≠ [] /\
  match pool_manifest reg with
  | Some manifest => manifest ≠ [] /\ exists rank parallelism,
      transfer_rank reg = Some rank /\ transfer_parallelism reg = Some parallelism /\
      0 <= rank < parallelism /\ is_Some (layout_fingerprint reg) /\ is_Some (page_tokens reg)
  | None => transfer_rank reg = None /\ transfer_parallelism reg = None /\
      layout_fingerprint reg = None /\ page_tokens reg = None
  end.
Proof.
  unfold Validate. intros H. guards H. to_prop. split; [tauto|].
  unfold check_reshard_metadata in Hcall0.
  destruct (pool_manifest reg), (layout_fingerprint reg), (page_tokens reg), (transfer_parallelism reg),
    (transfer_rank reg); simpl in Hcall0; try discriminate; [|done].
  guards Hcall0. to_prop. split; [done|]. eexists _, _. split_and!; eauto with lia; lia.
Qed.

End WUD.
