(* ===== verification/RequestBlockRegistry.v ===== *)
(** * The request-block registry ([src/tpu_sync/kv_cache/reshard/request_block_registry.cc])

    Generations [(req_id, uuid)] of per-rank block registrations with their claim,
    completion and cancellation lifecycle.  Every public call runs under the shared
    controller mutex and is one atomic step that takes the clock reading [now];
    [Register] reads the pool manifest in an earlier critical section, so it takes the
    directory twice.  The ordered maps and sets are finite maps and sets (their order
    never reaches a result); times are integers, the rounding of doubles is not
    modelled; an owner pointer is its address, 0 for null. *)

From S2P Require Import Prelude PoolLayout ReshardTypes WorkUnitDirectory.

(** What the registry needs of the work-unit directory. *)
Class UnitDirectory (D : Type) := {
  is_registered : D -> RaidenId -> bool;
  pool_manifest_of : D -> RaidenId -> list Pool.PoolSpecProto;
  manifest_registered d u : pool_manifest_of d u ≠ [] -> is_registered d u = true
}.

#[global] Program Instance WUD_UnitDirectory : UnitDirectory WUD.WorkUnitDirectory := {|
  is_registered := WUD.IsRegisteredLocked;
  pool_manifest_of := WUD.PoolManifestLocked
|}.
Next Obligation.
  intros d u. unfold WUD.PoolManifestLocked, WUD.IsRegisteredLocked.
  destruct (WUD.FindLocked d u <? 0) eqn:E; to_prop; [done|]. intros _. to_prop. lia.
Qed.

Module Registry.

(** ** State *)

Abbreviation LifecycleKey := (string * Z)%type.
Abbreviation BlockKey := (string * RaidenId)%type.

Record Completions : Type := mkCompletions {
  votes : gset RaidenId;
  vote_expires_at : Z
}.

Record RequestBlockRegistry : Type := mkRegistry {
  ttl_s_ : Z;
  request_blocks_ : gmap BlockKey RequestBlockRegistration;
  claimed_ : gmap LifecycleKey Z;
  claimed_units_ : gmap LifecycleKey (gset RaidenId);
  claimed_owners_ : gmap LifecycleKey Z;
  completed_units_ : gmap LifecycleKey Completions;
  cancelled_ : gmap LifecycleKey Z
}.

Definition create (ttl_s : Z) : RequestBlockRegistry := mkRegistry ttl_s ∅ ∅ ∅ ∅ ∅ ∅.

Implicit Types (s : RequestBlockRegistry) (k key : LifecycleKey) (u unit : RaidenId) (now : Z).

(** ** Purging and retiring *)

Definition PurgeExpiredRequestBlocksLocked now s : RequestBlockRegistry :=
  mkRegistry (ttl_s_ s) (filter (fun kv => ~ expires_at kv.2 <= now) (request_blocks_ s))
    (claimed_ s) (claimed_units_ s) (claimed_owners_ s) (completed_units_ s) (cancelled_ s).

Definition PurgeExpiredLifecycleLocked now s : RequestBlockRegistry :=
  let claimed := filter (fun kv => ~ kv.2 <= now) (claimed_ s) in
  let cancelled := filter (fun kv => ~ kv.2 <= now) (cancelled_ s) in
  let completed := filter (fun kv => ~ vote_expires_at kv.2 <= now) (completed_units_ s) in
  let stale := filter (fun kv => claimed !! kv.1 = None) (claimed_units_ s) in
  mkRegistry (ttl_s_ s) (request_blocks_ s) claimed
    (filter (fun kv => stale !! kv.1 = None) (claimed_units_ s))
    (filter (fun kv => stale !! kv.1 = None) (claimed_owners_ s)) completed cancelled.

Definition Purge now s : RequestBlockRegistry :=
  PurgeExpiredLifecycleLocked now (PurgeExpiredRequestBlocksLocked now s).

(** The rows of a generation. *)
Definition generation_rows key (m : gmap BlockKey RequestBlockRegistration) :
    gmap BlockKey RequestBlockRegistration :=
  filter (fun kv => kv.1.1 = key.1 /\ req_uuid kv.2 = key.2) m.

Definition RetireLocked key s : Z * RequestBlockRegistry :=
  let rows := generation_rows key (request_blocks_ s) in
  (Z.of_nat (size rows),
   mkRegistry (ttl_s_ s) (request_blocks_ s ∖ rows) (delete key (claimed_ s))
     (delete key (claimed_units_ s)) (delete key (claimed_owners_ s))
     (delete key (completed_units_ s)) (delete key (cancelled_ s))).

(** ** Registration *)

Definition kMaxSpanCount : Z := 1048576.

Definition PoolLiveBytes (pool_proto : Pool.PoolSpecProto) : StatusOr Z :=
  let? pool := Pool.PoolSpecFromProto pool_proto in
  let? segments := Pool.ExpandPoolLiveSegments pool in
  Ok (foldl (fun total segment => wrap64 (total + Pool.size segment)) 0 segments).

Definition add_live_bytes unit (live_bytes_by_tag : gmap string Z) (pool : Pool.PoolSpecProto) :
    StatusOr (gmap string Z) :=
  let tag := Pool.p_tag pool in
  let? live := PoolLiveBytes pool in
  match live_bytes_by_tag !! tag with
  | None => Ok (<[tag := live]> live_bytes_by_tag)
  | Some known =>
      if negb (known =? live) then
        Err kInvalidArgument
          (StrCat["pools tagged "; tag; " disagree on live bytes for "] ++ PythonRepr unit ++
           StrCat["; byte-span registration requires one geometry per tag"])
      else Ok live_bytes_by_tag
  end.

(** One span of an entry; the state is the running [span_bytes]. *)
Definition check_span (tag : string) (num_ids live : Z) (span_bytes : Z) (span : PoolByteSpan) : StatusOr Z :=
  if span_size_bytes span <=? 0 then
    Err kInvalidArgument StrCat["byte span size_bytes must be positive ("; tag; ")"]
  else if count span <=? 0 then
    Err kInvalidArgument StrCat["byte span count must be positive ("; tag; ")"]
  else if kMaxSpanCount <? count span then
    Err kInvalidArgument
      StrCat["byte span count "; count span; " exceeds the expansion bound ("; tag; ")"]
  else if (src_offset_bytes span <? 0) || (dst_offset_bytes span <? 0) || (src_stride_bytes span <? 0) ||
          (dst_stride_bytes span <? 0) || (dst_block_index span <? 0) then
    Err kInvalidArgument StrCat["byte span fields must be non-negative ("; tag; ")"]
  else if (src_block_ordinal span <? 0) || (num_ids <=? src_block_ordinal span) then
    Err kInvalidArgument
      StrCat["byte span ordinal "; src_block_ordinal span; " is outside the registration's "; num_ids;
             " block ids ("; tag; ")"]
  else
    let src_end :=
      wrap64 (wrap64 (src_offset_bytes span + wrap64 ((count span - 1) * src_stride_bytes span))
              + span_size_bytes span) in
    if live <? src_end then
      Err kInvalidArgument
        StrCat["byte span exceeds its source block live bytes ("; tag; "): end="; src_end; ", live="; live]
    else Ok (wrap64 (span_bytes + wrap64 (span_size_bytes span * count span))).

(** One entry of [pool_spans]; the state is the tags seen and the normalized entries. *)
Definition check_entry unit (live_bytes_by_tag : gmap string Z)
    (st : gset string * list PoolSpanRegistration) (entry : PoolSpanRegistration) :
    StatusOr (gset string * list PoolSpanRegistration) :=
  let '(seen, normalized) := st in
  let tag := reg_tag entry in
  if bool_decide (tag = EmptyString) then
    Err kInvalidArgument StrCat["pool span registration tag must not be empty"]
  else if bool_decide (tag ∈ seen) then
    Err kInvalidArgument StrCat["duplicate pool span registration tag: "; tag]
  else
    match live_bytes_by_tag !! tag with
    | None =>
        Err kInvalidArgument
          (StrCat["pool span registration "; tag; " does not match any registered pool for "] ++
           PythonRepr unit)
    | Some live =>
        let entry_ids := reg_block_ids entry in
        if existsb (fun b => b <? 0) entry_ids then
          Err kInvalidArgument
            StrCat["pool span registration "; tag; " block_ids must be non-negative"]
        else if negb (bool_decide (NoDup entry_ids)) then
          Err kInvalidArgument
            StrCat["pool span registration "; tag; " block_ids must not contain duplicates"]
        else
          let? span_bytes := for_each (check_span tag (Z.of_nat (length entry_ids)) live) (spans entry) 0 in
          if negb (declared_bytes entry =? span_bytes) then
            Err kInvalidArgument
              StrCat["pool span registration "; tag; " declared_bytes "; declared_bytes entry;
                     " disagrees with the span sum "; span_bytes]
          else
            Ok ({[ tag ]} ∪ seen,
                normalized ++ [mkSpanReg tag entry_ids (spans entry) span_bytes (dst_space_version entry)])
    end.

(** The pre-lock half of [Register]: the normalized pool spans. *)
Definition normalize_spans (manifest : list Pool.PoolSpecProto) unit
    (pool_spans : list PoolSpanRegistration) : StatusOr (list PoolSpanRegistration) :=
  if bool_decide (pool_spans = []) then Ok []
  else
    let? live_bytes_by_tag := for_each (add_live_bytes unit) manifest ∅ in
    let? st := for_each (check_entry unit live_bytes_by_tag) pool_spans (∅, []) in
    Ok st.2.

Definition check_ids (req_id : string) (uuid : Z) : Status :=
  if bool_decide (req_id = EmptyString) then Err kInvalidArgument StrCat["req_id must not be empty"]
  else if uuid <=? 0 then Err kInvalidArgument StrCat["uuid must be positive"]
  else OkStatus.

Definition check_block_ids (block_ids : list Z) : Status :=
  if existsb (fun b => b <? 0) block_ids then
    Err kInvalidArgument StrCat["block_ids must be non-negative"]
  else if negb (bool_decide (NoDup block_ids)) then
    Err kInvalidArgument StrCat["block_ids must not contain duplicates"]
  else OkStatus.

(** The locked half of [Register], on the purged state. *)
Definition commit_registration (registered : bool) (req_id : string) (uuid : Z) unit
    (registration : RequestBlockRegistration) s : Status * RequestBlockRegistry :=
  let key := (req_id, uuid) in
  if negb registered then
    (Err kInvalidArgument (StrCat["Work unit is not registered: "] ++ PythonRepr unit), s)
  else if bool_decide (is_Some (cancelled_ s !! key)) then
    (Err kInvalidArgument
       StrCat["Request block registration was cancelled for req_id="; req_id; ", uuid="; uuid], s)
  else if bool_decide (is_Some (claimed_ s !! key)) then
    (Err kInvalidArgument
       StrCat["Request block registration is already claimed for req_id="; req_id; ", uuid="; uuid], s)
  else
    let conflict :=
      match request_blocks_ s !! (req_id, unit) with
      | Some current =>
          negb (req_uuid current =? uuid) ||
          negb (bool_decide (req_block_ids current = req_block_ids registration)) ||
          negb (bool_decide (pool_spans current = pool_spans registration))
      | None => false
      end in
    if conflict then
      (Err kInvalidArgument
         (StrCat["Conflicting request block registration for req_id="; req_id; ", unit="] ++
          PythonRepr unit), s)
    else
      (OkStatus,
       mkRegistry (ttl_s_ s) (<[(req_id, unit) := registration]> (request_blocks_ s)) (claimed_ s)
         (claimed_units_ s) (claimed_owners_ s) (completed_units_ s) (cancelled_ s)).

Section operations.
Context {D : Type} `{!UnitDirectory D}.

Definition Register (d_manifest d_commit : D) now s (req_id : string) (uuid : Z) unit
    (block_ids : list Z) (pool_spans : list PoolSpanRegistration) : Status * RequestBlockRegistry :=
  match (let? _ := check_ids req_id uuid in
         let? _ := check_block_ids block_ids in
         normalize_spans (pool_manifest_of d_manifest unit) unit pool_spans) with
  | Err code msg => (Err code msg, s)
  | Ok normalized =>
      commit_registration (is_registered d_commit unit) req_id uuid unit
        (mkRequestReg uuid block_ids (now + ttl_s_ s) normalized) (Purge now s)
  end.

(** ** Lifecycle *)

Definition Release now s (req_id : string) (uuid : Z) : StatusOr Z * RequestBlockRegistry :=
  match check_ids req_id uuid with
  | Err code msg => (Err code msg, s)
  | Ok _ => let '(n, s') := RetireLocked (req_id, uuid) (Purge now s) in (Ok n, s')
  end.

Definition set_completed key (c : Completions) s : RequestBlockRegistry :=
  mkRegistry (ttl_s_ s) (request_blocks_ s) (claimed_ s) (claimed_units_ s) (claimed_owners_ s)
    (<[key := c]> (completed_units_ s)) (cancelled_ s).

Definition Complete now s (req_id : string) (uuid : Z) unit : StatusOr Z * RequestBlockRegistry :=
  match check_ids req_id uuid with
  | Err code msg => (Err code msg, s)
  | Ok _ =>
      let s := Purge now s in
      let key := (req_id, uuid) in
      let expected := claimed_units_ s !! key in
      let registration := request_blocks_ s !! (req_id, unit) in
      let matches_ := match registration with Some reg => req_uuid reg =? uuid | None => false end in
      let nonempty := match registration with Some reg => negb (bool_decide (req_block_ids reg = [])) | None => false end in
      if bool_decide (expected = None) && matches_ && nonempty then
        (Err kInvalidArgument
           StrCat["Only an empty producer registration may complete before the request block snapshot is claimed"], s)
      else
        let unit_expected := match expected with Some us => bool_decide (unit ∈ us) | None => false end in
        if negb matches_ && negb unit_expected then (Ok 0, s)
        else
          let voted := match completed_units_ s !! key with Some c => votes c | None => ∅ end in
          let units := {[ unit ]} ∪ voted in
          let s' := set_completed key (mkCompletions units (now + ttl_s_ s)) s in
          match expected with
          | Some us =>
              if bool_decide (us ⊆ units) then
                let '(n, s'') := RetireLocked key s' in (Ok n, s'')
              else (Ok 0, s')
          | None => (Ok 0, s')
          end
  end.

Definition CancelIfUnclaimed now s (req_id : string) (uuid : Z) : StatusOr bool * RequestBlockRegistry :=
  match check_ids req_id uuid with
  | Err code msg => (Err code msg, s)
  | Ok _ =>
      let s := PurgeExpiredLifecycleLocked now s in
      let key := (req_id, uuid) in
      if bool_decide (is_Some (cancelled_ s !! key)) then (Ok true, s)
      else if bool_decide (is_Some (claimed_ s !! key)) then (Ok false, s)
      else
        (Ok true,
         mkRegistry (ttl_s_ s) (request_blocks_ s ∖ generation_rows key (request_blocks_ s)) (claimed_ s)
           (delete key (claimed_units_ s)) (delete key (claimed_owners_ s))
           (delete key (completed_units_ s)) (<[key := now + ttl_s_ s]> (cancelled_ s)))
  end.

(** The existing claim of a generation, checked against the caller. *)
Definition check_claim key (units : gset RaidenId) (claim_owner : Z) s : Status :=
  match claimed_units_ s !! key with
  | None => OkStatus
  | Some existing =>
      let existing_owner := default 0 (claimed_owners_ s !! key) in
      if negb (existing_owner =? claim_owner) then
        Err kInvalidArgument
          StrCat["Request block snapshot is already claimed by another planning attempt"]
      else if negb (bool_decide (existing = units)) then
        Err kInvalidArgument
          StrCat["Request block snapshot was already claimed for a different source unit set"]
      else OkStatus
  end.

Definition collect_registration s (req_id : string) (uuid : Z)
    (result : gmap RaidenId RequestBlockRegistration) unit :
    StatusOr (gmap RaidenId RequestBlockRegistration) :=
  let missing :=
    Err kInvalidArgument
      (StrCat["Missing producer block registration for req_id="; req_id; ", uuid="; uuid; ", unit="] ++
       PythonRepr unit) in
  match request_blocks_ s !! (req_id, unit) with
  | None => missing
  | Some reg =>
      if negb (req_uuid reg =? uuid) then missing
      else Ok (match result !! unit with Some _ => result | None => <[unit := reg]> result end)
  end.

Definition LookupAndClaim now s (req_id : string) (uuid : Z) (units : list RaidenId) (claim_owner : Z) :
    StatusOr (gmap RaidenId RequestBlockRegistration) * RequestBlockRegistry :=
  let s := Purge now s in
  let key := (req_id, uuid) in
  if bool_decide (is_Some (cancelled_ s !! key)) then
    (Err kInvalidArgument
       StrCat["Request block registration was cancelled for req_id="; req_id; ", uuid="; uuid], s)
  else
    let claimed_units : gset RaidenId := list_to_set units in
    match (let? _ := check_claim key claimed_units claim_owner s in
           for_each (collect_registration s req_id uuid) units ∅) with
    | Err code msg => (Err code msg, s)
    | Ok result =>
        let s' := mkRegistry (ttl_s_ s) (request_blocks_ s) (<[key := now + ttl_s_ s]> (claimed_ s))
                    (<[key := claimed_units]> (claimed_units_ s)) (<[key := claim_owner]> (claimed_owners_ s))
                    (completed_units_ s) (cancelled_ s) in
        match completed_units_ s' !! key with
        | None => (Ok result, s')
        | Some completion =>
            let s'' := set_completed key (mkCompletions (votes completion) (now + ttl_s_ s)) s' in
            if bool_decide (claimed_units ⊆ votes completion)
            then (Ok result, (RetireLocked key s'').2)
            else (Ok result, s'')
        end
    end.

Definition AbandonClaim s (req_id : string) (uuid : Z) (claim_owner : Z) : bool * RequestBlockRegistry :=
  let key := (req_id, uuid) in
  let existing_owner := default 0 (claimed_owners_ s !! key) in
  if bool_decide (claimed_ s !! key = None) || negb (existing_owner =? claim_owner) then (false, s)
  else
    (true, mkRegistry (ttl_s_ s) (request_blocks_ s) (delete key (claimed_ s))
             (delete key (claimed_units_ s)) (delete key (claimed_owners_ s)) (completed_units_ s)
             (cancelled_ s)).

Definition InvalidateUnitLocked s unit : RequestBlockRegistry :=
  mkRegistry (ttl_s_ s) (filter (fun kv => kv.1.2 ≠ unit) (request_blocks_ s)) (claimed_ s)
    (claimed_units_ s) (claimed_owners_ s) (completed_units_ s) (cancelled_ s).

(** ** Calls as steps *)

Inductive Op : Type :=
  | OpRegister (d_manifest d_commit : D) (req_id : string) (uuid : Z) (unit : RaidenId)
      (block_ids : list Z) (pool_spans : list PoolSpanRegistration)
  | OpRelease (req_id : string) (uuid : Z)
  | OpComplete (req_id : string) (uuid : Z) (unit : RaidenId)
  | OpCancel (req_id : string) (uuid : Z)
  | OpLookup (req_id : string) (uuid : Z) (units : list RaidenId) (owner : Z)
  | OpAbandon (req_id : string) (uuid : Z) (owner : Z)
  | OpInvalidate (unit : RaidenId).

Definition apply_op now (o : Op) s : RequestBlockRegistry :=
  match o with
  | OpRegister d1 d2 req uuid unit ids spans => (Register d1 d2 now s req uuid unit ids spans).2
  | OpRelease req uuid => (Release now s req uuid).2
  | OpComplete req uuid unit => (Complete now s req uuid unit).2
  | OpCancel req uuid => (CancelIfUnclaimed now s req uuid).2
  | OpLookup req uuid units owner => (LookupAndClaim now s req uuid units owner).2
  | OpAbandon req uuid owner => (AbandonClaim s req uuid owner).2
  | OpInvalidate unit => InvalidateUnitLocked s unit
  end.

(** Calls with the clock reading each of them makes. *)
Definition run (ops : list (Z * Op)) s : RequestBlockRegistry :=
  foldl (fun s o => apply_op o.1 o.2 s) s ops.

End operations.
Arguments Op D : clear implicits.

(** ** Invariant *)

(** A stored registration passed [Register]'s checks. *)
Definition row_ok (bk : BlockKey) (reg : RequestBlockRegistration) : Prop :=
  bk.1 ≠ EmptyString /\ 0 < req_uuid reg /\ Forall (fun b => 0 <= b) (req_block_ids reg) /\
  NoDup (req_block_ids reg).

(** The three claim maps have the same keys; a generation is never both claimed and
    cancelled, nor cancelled and voted on, and a cancelled one has no rows. *)
Record inv s : Prop := {
  inv_units k : is_Some (claimed_ s !! k) <-> is_Some (claimed_units_ s !! k);
  inv_owners k : is_Some (claimed_ s !! k) <-> is_Some (claimed_owners_ s !! k);
  inv_excl k : is_Some (claimed_ s !! k) -> cancelled_ s !! k = None;
  inv_votes k : is_Some (completed_units_ s !! k) -> cancelled_ s !! k = None;
  inv_rows bk reg : request_blocks_ s !! bk = Some reg ->
    cancelled_ s !! (bk.1, req_uuid reg) = None /\ row_ok bk reg
}.

(** *** What purging leaves *)

Lemma purge_lc_claimed now s k e :
  claimed_ (PurgeExpiredLifecycleLocked now s) !! k = Some e <-> claimed_ s !! k = Some e /\ now < e.
Proof. simpl. rewrite map_lookup_filter_Some. simpl. intuition lia. Qed.
Lemma purge_lc_cancelled now s k e :
  cancelled_ (PurgeExpiredLifecycleLocked now s) !! k = Some e <-> cancelled_ s !! k = Some e /\ now < e.
Proof. simpl. rewrite map_lookup_filter_Some. simpl. intuition lia. Qed.
Lemma purge_lc_completed now s k c :
  completed_units_ (PurgeExpiredLifecycleLocked now s) !! k = Some c <->
  completed_units_ s !! k = Some c /\ now < vote_expires_at c.
Proof. simpl. rewrite map_lookup_filter_Some. simpl. intuition lia. Qed.
Lemma purge_rb_rows now s bk reg :
  request_blocks_ (PurgeExpiredRequestBlocksLocked now s) !! bk = Some reg <->
  request_blocks_ s !! bk = Some reg /\ now < expires_at reg.
Proof. simpl. rewrite map_lookup_filter_Some. simpl. intuition lia. Qed.

(** The stale unit sets are those of unclaimed generations. *)
Lemma purge_lc_stale now s k (claimed := claimed_ (PurgeExpiredLifecycleLocked now s)) :
  filter (fun kv : LifecycleKey * gset RaidenId => claimed !! kv.1 = None) (claimed_units_ s) !! k = None <->
  (is_Some (claimed_units_ s !! k) -> is_Some (claimed !! k)).
Proof.
  rewrite map_lookup_filter_None. simpl. split.
  - intros [Hn|Hn] [us Hus]; [congruence|]. specialize (Hn us Hus). destruct (claimed !! k); [eauto|done].
  - intros H. destruct (claimed_units_ s !! k) as [us|] eqn:E; [|by left]. right. intros us' [= <-].
    destruct H as [e ->]; [eauto|done].
Qed.
Lemma purge_lc_units now s k us :
  claimed_units_ (PurgeExpiredLifecycleLocked now s) !! k = Some us <->
  claimed_units_ s !! k = Some us /\ is_Some (claimed_ (PurgeExpiredLifecycleLocked now s) !! k).
Proof.
  pose proof (purge_lc_stale now s k) as Hst. simpl in Hst |- *. rewrite map_lookup_filter_Some. simpl.
  rewrite Hst. naive_solver.
Qed.
Lemma purge_lc_owners now s k o :
  inv s ->
  claimed_owners_ (PurgeExpiredLifecycleLocked now s) !! k = Some o <->
  claimed_owners_ s !! k = Some o /\ is_Some (claimed_ (PurgeExpiredLifecycleLocked now s) !! k).
Proof.
  intros Hinv. pose proof (purge_lc_stale now s k) as Hst. simpl in Hst |- *.
  rewrite map_lookup_filter_Some. simpl. rewrite Hst. split; [|naive_solver].
  intros [Ho Hk]. split; [done|]. apply Hk, (inv_units s Hinv), (inv_owners s Hinv). eauto.
Qed.

Lemma none_of_incl {A} (o o' : option A) : (forall x, o = Some x -> o' = Some x) -> o' = None -> o = None.
Proof. intros H. destruct o as [x|]; [|done]. intros Hn. specialize (H x eq_refl). congruence. Qed.

Lemma purge_lc_inv now s : inv s -> inv (PurgeExpiredLifecycleLocked now s).
Proof.
  intros Hinv. set (s' := PurgeExpiredLifecycleLocked now s).
  assert (Hc : forall k, is_Some (claimed_ s' !! k) -> is_Some (claimed_ s !! k)).
  { intros k [e [He _]%purge_lc_claimed]. eauto. }
  assert (Hcan : forall k, cancelled_ s !! k = None -> cancelled_ s' !! k = None).
  { intros k. apply none_of_incl. by intros e [He _]%purge_lc_cancelled. }
  split.
  - intros k. split.
    + intros Hk. destruct (proj1 (inv_units s Hinv k) (Hc k Hk)) as [us Hus]. exists us.
      by apply purge_lc_units.
    + intros [us [_ Hk]%purge_lc_units]. done.
  - intros k. split.
    + intros Hk. destruct (proj1 (inv_owners s Hinv k) (Hc k Hk)) as [o Ho]. exists o.
      by apply purge_lc_owners.
    + intros [o [_ Hk]%purge_lc_owners]; done.
  - intros k Hk. by apply Hcan, (inv_excl s Hinv), Hc.
  - intros k [c [Hk _]%purge_lc_completed]. apply Hcan, (inv_votes s Hinv). eauto.
  - intros bk reg Hr. destruct (inv_rows s Hinv bk reg Hr) as [H1 H2]. split; [by apply Hcan|done].
Qed.

Lemma purge_rb_inv now s : inv s -> inv (PurgeExpiredRequestBlocksLocked now s).
Proof.
  intros [H1 H2 H3 H4 H5]. split; try done. intros bk reg [Hr _]%purge_rb_rows. by apply H5.
Qed.
Lemma purge_inv now s : inv s -> inv (Purge now s).
Proof. intros. by apply purge_lc_inv, purge_rb_inv. Qed.

(** *** Retiring *)

Lemma generation_rows_spec k m bk reg :
  (m ∖ generation_rows k m) !! bk = Some reg <->
  m !! bk = Some reg /\ ~ (bk.1 = k.1 /\ req_uuid reg = k.2).
Proof.
  rewrite lookup_difference_Some. unfold generation_rows. rewrite map_lookup_filter_None. simpl.
  split; [|naive_solver]. intros [Hm [Hn|Hn]]; [congruence|]. naive_solver.
Qed.

Lemma retire_inv k s : inv s -> inv (RetireLocked k s).2.
Proof.
  intros [H1 H2 H3 H4 H5]. split; simpl.
  - intros k'. destruct (decide (k' = k)) as [->|Hne];
      rewrite ?lookup_delete_eq, ?lookup_delete_ne by done; [|apply H1]. split; by intros [].
  - intros k'. destruct (decide (k' = k)) as [->|Hne];
      rewrite ?lookup_delete_eq, ?lookup_delete_ne by done; [|apply H2]. split; by intros [].
  - intros k'. destruct (decide (k' = k)) as [->|Hne];
      rewrite ?lookup_delete_eq, ?lookup_delete_ne by done; [done|apply H3].
  - intros k'. destruct (decide (k' = k)) as [->|Hne];
      rewrite ?lookup_delete_eq, ?lookup_delete_ne by done; [done|apply H4].
  - intros bk reg [Hr _]%generation_rows_spec. destruct (H5 bk reg Hr) as [Hc Hok]. split; [|done].
    destruct (decide ((bk.1, req_uuid reg) = k)) as [->|Hne]; [apply lookup_delete_eq|].
    by rewrite lookup_delete_ne.
Qed.

(** *** The calls *)

Lemma check_ids_ok req uuid : check_ids req uuid = OkStatus <-> req ≠ EmptyString /\ 0 < uuid.
Proof.
  unfold check_ids. case_bool_decide; [naive_solver|].
  destruct (uuid <=? 0) eqn:E; to_prop; split; intros; naive_solver lia.
Qed.
Lemma check_block_ids_ok ids :
  check_block_ids ids = OkStatus <-> Forall (fun b => 0 <= b) ids /\ NoDup ids.
Proof.
  unfold check_block_ids. assert (Hneg : existsb (fun b => b <? 0) ids = false <-> Forall (fun b => 0 <= b) ids).
  { induction ids as [|b ids IH]; simpl; [split; [constructor|done]|].
    rewrite orb_false_iff, IH, Forall_cons. to_prop. done. }
  destruct (existsb _ ids).
  - split; [done|]. intros [H _]. by apply Hneg in H.
  - case_bool_decide; simpl; naive_solver.
Qed.

Lemma commit_registration_inv registered req uuid unit reg s :
  inv s -> row_ok (req, unit) reg -> req_uuid reg = uuid ->
  inv (commit_registration registered req uuid unit reg s).2.
Proof.
  intros Hinv Hrow Huuid. unfold commit_registration. destruct (negb registered); [done|].
  case_bool_decide as Hcan; [done|]. case_bool_decide; [done|]. cbv zeta.
  destruct (match request_blocks_ s !! (req, unit) with Some _ => _ | None => _ end); [done|].
  destruct Hinv as [H1 H2 H3 H4 H5]. split; try done. simpl. intros bk reg'.
  destruct (decide (bk = (req, unit))) as [->|Hne].
  - rewrite lookup_insert_eq. intros [= <-]. split; [|done]. simpl. rewrite Huuid.
    by apply eq_None_not_Some.
  - rewrite lookup_insert_ne by done. apply H5.
Qed.

Lemma set_completed_inv k c s : inv s -> cancelled_ s !! k = None -> inv (set_completed k c s).
Proof.
  intros [H1 H2 H3 H4 H5] Hk. split; try done. intros k'. simpl.
  destruct (decide (k' = k)) as [->|Hne]; [done|]. rewrite lookup_insert_ne by done. apply H4.
Qed.

Lemma complete_inv now s req uuid unit : inv s -> inv (Complete now s req uuid unit).2.
Proof.
  intros Hinv. unfold Complete. destruct (check_ids req uuid); [|done]. cbv zeta.
  pose proof (purge_inv now s Hinv) as Hp. generalize dependent (Purge now s). clear Hinv. intros st Hinv.
  destruct (_ && _ && _); [done|].
  destruct (negb _ && negb _) eqn:E; [done|].
  assert (Hcan : cancelled_ st !! (req, uuid) = None).
  { apply andb_false_iff in E. rewrite !negb_false_iff in E. destruct E as [E|E].
    - destruct (request_blocks_ st !! (req, unit)) as [reg|] eqn:Hr; [|done]. to_prop. subst uuid.
      by apply (inv_rows st Hinv _ _) in Hr as [Hc _].
    - destruct (claimed_units_ st !! (req, uuid)) as [us|] eqn:Hu; [|done].
      apply (inv_excl st Hinv), (inv_units st Hinv). eauto. }
  clear E. destruct (claimed_units_ st !! (req, uuid)) as [us|]; [|by apply set_completed_inv].
  case_bool_decide; [|by apply set_completed_inv].
  exact (retire_inv (req, uuid) _ (set_completed_inv _ _ _ Hinv Hcan)).
Qed.

Lemma cancel_inv now s req uuid : inv s -> inv (CancelIfUnclaimed now s req uuid).2.
Proof.
  intros Hinv. unfold CancelIfUnclaimed. destruct (check_ids req uuid); [|done]. cbv zeta.
  pose proof (purge_lc_inv now s Hinv) as Hp. generalize dependent (PurgeExpiredLifecycleLocked now s).
  clear Hinv. intros st [H1 H2 H3 H4 H5]. case_bool_decide as Hcan; [done|]. case_bool_decide as Hcl; [done|].
  set (k := (req, uuid)) in *. split; simpl.
  - intros k'. destruct (decide (k' = k)) as [->|Hne]; [|by rewrite lookup_delete_ne].
    rewrite lookup_delete_eq. split; [done|by intros []].
  - intros k'. destruct (decide (k' = k)) as [->|Hne]; [|by rewrite lookup_delete_ne].
    rewrite lookup_delete_eq. split; [done|by intros []].
  - intros k' Hk'. rewrite lookup_insert_ne by congruence. by apply H3.
  - intros k'. destruct (decide (k' = k)) as [->|Hne]; [rewrite lookup_delete_eq; by intros []|].
    rewrite lookup_delete_ne, lookup_insert_ne by done. apply H4.
  - intros bk reg [Hr Hn]%generation_rows_spec. destruct (H5 bk reg Hr) as [Hc Hok]. split; [|done].
    rewrite lookup_insert_ne; [done|]. intros [= Hreq Huuid]. apply Hn. simpl. done.
Qed.

Lemma lookup_inv now s req uuid units owner : inv s -> inv (LookupAndClaim now s req uuid units owner).2.
Proof.
  intros Hinv. unfold LookupAndClaim. cbv zeta.
  pose proof (purge_inv now s Hinv) as Hp. generalize dependent (Purge now s). clear Hinv. intros st Hinv.
  case_bool_decide as Hcan; [done|]. apply eq_None_not_Some in Hcan.
  destruct (match check_claim _ _ _ _ with Ok _ => _ | Err _ _ => _ end); [|done].
  set (k := (req, uuid)) in *.
  set (s' := mkRegistry _ _ (<[k := _]> _) _ _ _ _).
  assert (Hs' : inv s').
  { destruct Hinv as [H1 H2 H3 H4 H5]. split; simpl; try done.
    - intros k'. destruct (decide (k' = k)) as [->|Hne]; [by rewrite !lookup_insert_eq|].
      by rewrite !lookup_insert_ne.
    - intros k'. destruct (decide (k' = k)) as [->|Hne]; [by rewrite !lookup_insert_eq|].
      by rewrite !lookup_insert_ne.
    - intros k'. destruct (decide (k' = k)) as [->|Hne]; [done|]. rewrite lookup_insert_ne by done. apply H3. }
  change (completed_units_ s') with (completed_units_ st). destruct (completed_units_ st !! k) as [c|]; [|done].
  pose proof (set_completed_inv k (mkCompletions (votes c) (now + ttl_s_ st)) s' Hs' Hcan) as Hs''.
  case_bool_decide; [|done]. by apply retire_inv.
Qed.

Lemma abandon_inv s req uuid owner : inv s -> inv (AbandonClaim s req uuid owner).2.
Proof.
  intros Hinv. unfold AbandonClaim. destruct (_ || _); [done|].
  destruct Hinv as [H1 H2 H3 H4 H5]. set (k := (req, uuid)). split; simpl; try done; intros k';
    (destruct (decide (k' = k)) as [->|Hne];
      [rewrite ?lookup_delete_eq|rewrite ?lookup_delete_ne by done; auto]).
  - split; by intros [].
  - split; by intros [].
  - by intros [].
Qed.

Section reachable.
Context {D : Type} `{!UnitDirectory D}.
Implicit Types (o : Op D).

Lemma registry_apply_op_inv now o s : inv s -> inv (apply_op now o s).
Proof.
  intros Hinv. destruct o; simpl.
  - unfold Register. destruct (check_ids req_id uuid) as [[]|] eqn:Hids; [|done].
    destruct (check_block_ids block_ids) as [[]|] eqn:Hb; [|done].
    destruct (normalize_spans _ _ _) as [norm|]; [|done].
    apply commit_registration_inv; [by apply purge_inv| |done].
    apply check_ids_ok in Hids as [? ?]. by apply check_block_ids_ok in Hb as [? ?].
  - unfold Release. destruct (check_ids _ _); [|done].
    exact (retire_inv (req_id, uuid) _ (purge_inv now s Hinv)).
  - by apply complete_inv.
  - by apply cancel_inv.
  - by apply lookup_inv.
  - by apply abandon_inv.
  - destruct Hinv as [H1 H2 H3 H4 H5]. split; try done. simpl. intros bk reg.
    rewrite map_lookup_filter_Some. intros [Hr _]. by apply H5.
Qed.

Lemma registry_run_inv (ops : list (Z * Op D)) s : inv s -> inv (run ops s).
Proof.
  revert s; induction ops as [|[now o] ops IH]; intros s Hinv; simpl; [done|].
  by apply IH, registry_apply_op_inv.
Qed.

Lemma registry_create_inv ttl : inv (create ttl).
Proof.
  split; simpl; intros *; rewrite ?lookup_empty; [split; by intros []..|by intros []|by intros []|done].
Qed.

(** Lifecycle invariant.  In every state reached from an empty registry by any
    calls at any clock readings: the claim, its unit set and its owner exist together;
    a generation is never both claimed and cancelled; a cancelled generation has
    neither votes nor rows; and every row has a non-empty request id, a positive uuid
    and distinct non-negative block ids. *)
Theorem registry_reachable_inv ttl (ops : list (Z * Op D)) : inv (run ops (create ttl)).
Proof. apply registry_run_inv, registry_create_inv. Qed.

(** ** Claims *)

(** [owner] holds the claim of generation [k] until [e]. *)
Definition holds s k (owner e : Z) : Prop :=
  claimed_ s !! k = Some e /\ claimed_owners_ s !! k = Some owner.

(** The calls that may end a claim: the release and the votes of its generation, and
    the calls of its owner. *)
Definition ends_claim k (owner : Z) o : Prop :=
  match o with
  | OpRelease req uuid => (req, uuid) = k
  | OpComplete req uuid _ => (req, uuid) = k
  | OpLookup req uuid _ w => (req, uuid) = k /\ w = owner
  | OpAbandon req uuid w => (req, uuid) = k /\ w = owner
  | _ => False
  end.

(** No row of generation [k] in [s'] that is not in [s]. *)
Definition rows_kept k s s' : Prop :=
  forall bk reg, request_blocks_ s' !! bk = Some reg -> (bk.1, req_uuid reg) = k ->
    request_blocks_ s !! bk = Some reg.

Lemma purge_lc_holds now s k owner e :
  inv s -> holds s k owner e -> now < e -> holds (PurgeExpiredLifecycleLocked now s) k owner e.
Proof.
  intros Hinv [Hc Ho] Hlt. assert (Hc' : claimed_ (PurgeExpiredLifecycleLocked now s) !! k = Some e)
    by (by apply purge_lc_claimed).
  split; [done|]. apply purge_lc_owners; [done|]. split; [done|]. eauto.
Qed.
Lemma purge_holds now s k owner e :
  inv s -> holds s k owner e -> now < e -> holds (Purge now s) k owner e.
Proof. intros. apply purge_lc_holds; [by apply purge_rb_inv|done|done]. Qed.
Lemma purge_rows now s k : rows_kept k s (Purge now s).
Proof. intros bk reg Hr _. by apply (purge_rb_rows now s) in Hr as [? _]. Qed.

(** The answers while a claim is held. *)
Lemma holds_claim_refused s k owner e w units :
  inv s -> holds s k owner e -> w ≠ owner -> exists msg, check_claim k units w s = Err kInvalidArgument msg.
Proof.
  intros Hinv [Hc Ho] Hw. unfold check_claim.
  destruct (proj1 (inv_units s Hinv k)) as [us ->]; [eauto|]. rewrite Ho. simpl.
  rewrite (proj2 (Z.eqb_neq owner w)) by done. simpl. eauto.
Qed.

Lemma holds_lookup_refused now s req uuid owner e w units :
  inv s -> holds s (req, uuid) owner e -> now < e -> w ≠ owner ->
  exists msg, LookupAndClaim now s req uuid units w = (Err kInvalidArgument msg, Purge now s).
Proof.
  intros Hinv Hh Hlt Hw. pose proof (purge_inv now s Hinv) as Hinv'.
  pose proof (purge_holds now s _ _ _ Hinv Hh Hlt) as Hh'. unfold LookupAndClaim. cbv zeta.
  case_bool_decide; [eauto|].
  destruct (holds_claim_refused _ _ _ _ w (list_to_set units) Hinv' Hh' Hw) as [msg ->]. eauto.
Qed.

Lemma holds_cancel_refused now s req uuid owner e :
  inv s -> holds s (req, uuid) owner e -> now < e ->
  (CancelIfUnclaimed now s req uuid).1 ≠ Ok true /\
  (ok (check_ids req uuid) = true ->
   CancelIfUnclaimed now s req uuid = (Ok false, PurgeExpiredLifecycleLocked now s)).
Proof.
  intros Hinv Hh Hlt. pose proof (purge_lc_holds now s _ _ _ Hinv Hh Hlt) as [Hc _].
  pose proof (inv_excl _ (purge_lc_inv now s Hinv) (req, uuid) (mk_is_Some _ _ Hc)) as Hn.
  unfold CancelIfUnclaimed. destruct (check_ids req uuid); [|done]. cbv zeta.
  rewrite (bool_decide_eq_false_2 (is_Some (cancelled_ _ !! _))) by (rewrite Hn; by intros []).
  rewrite bool_decide_eq_true_2 by eauto. done.
Qed.

Lemma holds_register_refused d1 d2 now s req uuid owner e unit ids ps :
  inv s -> holds s (req, uuid) owner e -> now < e ->
  ok (Register d1 d2 now s req uuid unit ids ps).1 = false /\
  ((Register d1 d2 now s req uuid unit ids ps).2 = s \/
   (Register d1 d2 now s req uuid unit ids ps).2 = Purge now s).
Proof.
  intros Hinv Hh Hlt. pose proof (purge_holds now s _ _ _ Hinv Hh Hlt) as [Hc _]. unfold Register.
  destruct (match check_ids req uuid with Ok _ => _ | Err _ _ => _ end); [|by auto].
  unfold commit_registration. destruct (negb _); [by auto|]. case_bool_decide; [by auto|].
  rewrite bool_decide_eq_true_2 by eauto. by auto.
Qed.

(** A claim and the rows of its generation survive a step. *)
Definition keeps k (owner e : Z) s s' : Prop := holds s' k owner e /\ rows_kept k s s'.

Lemma keeps_trans k owner e s1 s2 s3 : rows_kept k s1 s2 -> keeps k owner e s2 s3 -> keeps k owner e s1 s3.
Proof. intros H12 [Hh H23]. split; [done|]. intros bk reg Hr Hk. apply H12; [|done]. by apply H23. Qed.

Lemma retire_keeps k' k owner e s : k' ≠ k -> holds s k owner e -> keeps k owner e s (RetireLocked k' s).2.
Proof.
  intros Hne [Hc Ho]. split; [split; simpl; by rewrite lookup_delete_ne|].
  intros bk reg [Hr _]%generation_rows_spec _. done.
Qed.

Lemma set_completed_keeps k' c k owner e s : holds s k owner e -> keeps k owner e s (set_completed k' c s).
Proof. intros Hh. split; [done|]. by intros bk reg Hr _. Qed.

Lemma complete_keeps now s req uuid unit k owner e :
  (req, uuid) ≠ k -> inv s -> holds s k owner e -> now < e ->
  keeps k owner e s (Complete now s req uuid unit).2.
Proof.
  intros Hne Hinv Hh Hlt. unfold Complete.
  destruct (check_ids req uuid); [|split; [done|by intros ? ? ? _]]. cbv zeta.
  apply (keeps_trans k owner e s (Purge now s)); [apply purge_rows|].
  pose proof (purge_holds now s k owner e Hinv Hh Hlt) as Hp. generalize dependent (Purge now s). intros st Hst.
  assert (Hid : keeps k owner e st st) by (split; [done|by intros ? ? ? _]).
  destruct (_ && _ && _); [done|]. destruct (negb _ && negb _); [done|].
  set (c := mkCompletions _ _).
  pose proof (set_completed_keeps (req, uuid) c k owner e st Hst) as Hsc.
  destruct (claimed_units_ st !! (req, uuid)); [|done]. case_bool_decide; [|done].
  apply (keeps_trans k owner e st (set_completed (req, uuid) c st)); [apply Hsc|].
  exact (retire_keeps (req, uuid) k owner e _ Hne (proj1 Hsc)).
Qed.

Lemma lookup_keeps now s req uuid units w k owner e :
  (req, uuid) ≠ k -> inv s -> holds s k owner e -> now < e ->
  keeps k owner e s (LookupAndClaim now s req uuid units w).2.
Proof.
  intros Hne Hinv Hh Hlt. unfold LookupAndClaim. cbv zeta.
  apply (keeps_trans k owner e s (Purge now s)); [apply purge_rows|].
  pose proof (purge_holds now s k owner e Hinv Hh Hlt) as Hp. generalize dependent (Purge now s). intros st Hst.
  assert (Hid : keeps k owner e st st) by (split; [done|by intros ? ? ? _]).
  case_bool_decide; [done|]. destruct (match check_claim _ _ _ _ with Ok _ => _ | Err _ _ => _ end); [|done].
  set (s' := mkRegistry _ _ _ _ _ _ _).
  assert (Hs' : keeps k owner e st s').
  { split; [|by intros ? ? ? _]. destruct Hst. split; simpl; by rewrite lookup_insert_ne. }
  change (completed_units_ s') with (completed_units_ st). destruct (completed_units_ st !! _) as [c|]; [|done].
  pose proof (set_completed_keeps (req, uuid) (mkCompletions (votes c) (now + ttl_s_ st)) k owner e s' (proj1 Hs')) as Hsc.
  case_bool_decide; [|exact (keeps_trans _ _ _ _ _ _ (proj2 Hs') Hsc)].
  apply (keeps_trans _ _ _ _ _ _ (proj2 Hs')), (keeps_trans _ _ _ _ _ _ (proj2 Hsc)).
  by apply retire_keeps; [|apply Hsc].
Qed.

Lemma claim_step now o s k owner e :
  inv s -> holds s k owner e -> now < e -> ~ ends_claim k owner o -> keeps k owner e s (apply_op now o s).
Proof.
  intros Hinv Hh Hlt Hend. pose proof (purge_holds now s k owner e Hinv Hh Hlt) as Hp.
  assert (Hid : keeps k owner e s s) by (split; [done|by intros ? ? ? _]).
  assert (Hpk : keeps k owner e s (Purge now s)) by (split; [done|apply purge_rows]).
  destruct o as [d1 d2 req uuid unit ids ps|req uuid|req uuid unit|req uuid|req uuid units w|req uuid w|unit];
    simpl in *.
  - destruct (decide ((req, uuid) = k)) as [<-|Hne].
    { destruct (holds_register_refused d1 d2 now s req uuid owner e unit ids ps) as [_ [-> | ->]]; done. }
    unfold Register. destruct (match check_ids req uuid with Ok _ => _ | Err _ _ => _ end) as [norm|]; [|done].
    apply (keeps_trans k owner e s (Purge now s)); [apply Hpk|]. unfold commit_registration.
    assert (Hid' : keeps k owner e (Purge now s) (Purge now s)) by (split; [done|by intros ? ? ? _]).
    destruct (negb _); [done|]. case_bool_decide; [done|]. case_bool_decide; [done|]. cbv zeta.
    destruct (match request_blocks_ _ !! (req, unit) with Some _ => _ | None => _ end); [done|].
    split; [done|]. intros bk reg. simpl.
    destruct (decide (bk = (req, unit))) as [->|Hbk].
    + rewrite lookup_insert_eq. intros [= <-]. simpl. congruence.
    + by rewrite lookup_insert_ne.
  - unfold Release. destruct (check_ids req uuid); [|done].
    apply (keeps_trans k owner e s (Purge now s)); [apply Hpk|].
    exact (retire_keeps (req, uuid) k owner e _ Hend Hp).
  - by apply complete_keeps.
  - destruct (decide ((req, uuid) = k)) as [<-|Hne].
    + destruct (holds_cancel_refused now s req uuid owner e) as [_ Hc]; [done..|].
      unfold CancelIfUnclaimed in *. destruct (check_ids req uuid); [|done]. rewrite Hc by done. simpl.
      split; [by apply purge_lc_holds|by intros ? ? ? _].
    + unfold CancelIfUnclaimed. destruct (check_ids req uuid); [|done]. cbv zeta.
      destruct (purge_lc_holds now s k owner e) as [Hc Ho]; [done..|].
      assert (Hl : keeps k owner e s (PurgeExpiredLifecycleLocked now s)) by (split; [done|by intros ? ? ? _]).
      case_bool_decide; [done|]. case_bool_decide; [done|]. split.
      * split; simpl; [done|]. by rewrite lookup_delete_ne.
      * intros bk reg [Hr _]%generation_rows_spec _. done.
  - destruct (decide ((req, uuid) = k)) as [<-|Hne]; [|by apply lookup_keeps].
    destruct (holds_lookup_refused now s req uuid owner e w units) as [msg ->]; [done..| |done].
    intros ->. by apply Hend.
  - unfold AbandonClaim. destruct (_ || _) eqn:E; [done|]. to_prop. destruct E as [_ E].
    assert (Hne : (req, uuid) ≠ k).
    { intros <-. destruct Hh as [_ Ho]. rewrite Ho in E. simpl in E. by apply Hend. }
    destruct Hh. split; [split; simpl; by rewrite lookup_delete_ne|by intros ? ? ? _].
  - split; [done|]. intros bk reg. simpl. rewrite map_lookup_filter_Some. by intros [Hr _] _.
Qed.

Lemma claim_run (ops : list (Z * Op D)) s k owner e :
  inv s -> holds s k owner e -> Forall (fun p => p.1 < e /\ ~ ends_claim k owner p.2) ops ->
  keeps k owner e s (run ops s).
Proof.
  intros Hinv Hh Hops. revert s Hinv Hh. induction Hops as [|[now o] ops [Hlt Hend] _ IH]; intros s Hinv Hh.
  { split; [done|by intros ? ? ? _]. }
  simpl in *. pose proof (claim_step now o s k owner e Hinv Hh Hlt Hend) as Hk.
  apply (keeps_trans k owner e s (apply_op now o s)); [apply Hk|].
  apply IH; [by apply registry_apply_op_inv|apply Hk].
Qed.

(** A call leaves a row alone: it comes before the row expires and does not invalidate the
    unit that registered it. *)
Definition spares (bk : BlockKey) (reg : RequestBlockRegistration) now o : Prop :=
  now < expires_at reg /\ match o with OpInvalidate unit => unit ≠ bk.2 | _ => True end.
Definition has_row (bk : BlockKey) (reg : RequestBlockRegistration) s : Prop := request_blocks_ s !! bk = Some reg.

Lemma purge_row now s bk reg : has_row bk reg s -> now < expires_at reg -> has_row bk reg (Purge now s).
Proof. intros Hr Hlt. apply (purge_rb_rows now s). split; [done|lia]. Qed.
Lemma retire_row k' bk reg s : (bk.1, req_uuid reg) ≠ k' -> has_row bk reg s -> has_row bk reg (RetireLocked k' s).2.
Proof. intros Hne Hr. apply generation_rows_spec. split; [done|]. intros [H1 H2]. apply Hne. destruct k'. simpl in *. congruence. Qed.

Lemma row_step now o s k owner e bk reg :
  inv s -> holds s k owner e -> now < e -> ~ ends_claim k owner o -> (bk.1, req_uuid reg) = k ->
  has_row bk reg s -> spares bk reg now o -> has_row bk reg (apply_op now o s).
Proof.
  intros Hinv Hh Hlt Hend Hk Hr [Hnow Ho]. pose proof (purge_row now s bk reg Hr Hnow) as Hp.
  destruct o as [d1 d2 req uuid unit ids ps|req uuid|req uuid unit|req uuid|req uuid units w|req uuid w|unit]; simpl in *.
  - unfold Register. destruct (match check_ids req uuid with Ok _ => _ | Err _ _ => _ end) as [norm|]; [|done].
    destruct (decide ((req, uuid) = k)) as [<-|Hne].
    { destruct (purge_holds now s _ owner e Hinv Hh Hlt) as [Hc _]. unfold commit_registration. destruct (negb _); [done|].
      case_bool_decide; [done|]. by rewrite bool_decide_eq_true_2 by eauto. }
    unfold commit_registration. destruct (negb _); [done|]. case_bool_decide; [done|]. case_bool_decide; [done|]. cbv zeta.
    destruct (decide (bk = (req, unit))) as [->|Hbk].
    + unfold has_row in Hp. rewrite Hp. simpl in Hk. rewrite (proj2 (Z.eqb_neq _ uuid)) by congruence. done.
    + destruct (match request_blocks_ _ !! (req, unit) with Some _ => _ | None => _ end); [done|]. unfold has_row. simpl. by rewrite lookup_insert_ne.
  - unfold Release. destruct (check_ids req uuid); [|done]. apply (retire_row (req, uuid)); [congruence|done].
  - unfold Complete. destruct (check_ids req uuid); [|done]. cbv zeta. destruct (_ && _ && _); [done|]. destruct (negb _ && negb _); [done|].
    destruct (claimed_units_ _ !! (req, uuid)); [|done]. case_bool_decide; [|done]. apply (retire_row (req, uuid)); [congruence|done].
  - destruct (decide ((req, uuid) = k)) as [<-|Hne].
    + unfold CancelIfUnclaimed. destruct (check_ids req uuid) eqn:Ec; [|done]. destruct (holds_cancel_refused now s req uuid owner e Hinv Hh Hlt) as [_ Hc].
      unfold CancelIfUnclaimed in Hc. rewrite Ec in Hc. rewrite Hc by done. exact Hr.
    + unfold CancelIfUnclaimed. destruct (check_ids req uuid); [|done]. cbv zeta. case_bool_decide; [done|]. case_bool_decide; [done|].
      apply generation_rows_spec. split; [exact Hr|]. intros [H1 H2]. simpl in *. congruence.
  - destruct (decide ((req, uuid) = k)) as [<-|Hne].
    { destruct (holds_lookup_refused now s req uuid owner e w units) as [msg ->]; [done..| |done]. intros ->. by apply Hend. }
    unfold LookupAndClaim. cbv zeta. case_bool_decide; [done|]. destruct (match check_claim _ _ _ _ with Ok _ => _ | Err _ _ => _ end); [|done].
    cbn [completed_units_]. destruct (completed_units_ _ !! _); [|done]. case_bool_decide; [|done]. apply (retire_row (req, uuid)); [congruence|done].
  - unfold AbandonClaim. destruct (_ || _); done.
  - unfold has_row. simpl. rewrite map_lookup_filter_Some. done.
Qed.

Lemma row_run (ops : list (Z * Op D)) s k owner e bk reg :
  inv s -> holds s k owner e -> Forall (fun p => p.1 < e /\ ~ ends_claim k owner p.2) ops -> (bk.1, req_uuid reg) = k ->
  has_row bk reg s -> Forall (fun p => spares bk reg p.1 p.2) ops -> has_row bk reg (run ops s).
Proof.
  intros Hinv Hh Hops Hk. revert s Hinv Hh. induction Hops as [|[now o] ops [Hlt Hend] _ IH]; intros s Hinv Hh Hr Hs; [done|].
  apply Forall_cons in Hs as [Hs1 Hs2]. simpl in *. apply IH; [by apply registry_apply_op_inv| |by eapply row_step|done].
  by apply (claim_step now o s k owner e).
Qed.

(** C10: Claims are exclusive.  From the moment a planning attempt claims a generation
    (and its claim is not retired on the spot) until the claim's time to live runs
    out, whatever other calls run, in any order: the claim and its owner stay; no row
    of the generation is added or changed, and a row goes only by expiring itself or when
    the unit that registered it is invalidated; a cancellation is refused, another
    planning attempt is refused, and so is any further registration.  Excluded are the
    calls that may end a claim: those of its owner, the votes and the release of that
    generation. *)
Theorem registry_claim_exclusive ttl (ops1 ops2 : list (Z * Op D)) now req uuid units owner result s1 e :
  LookupAndClaim now (run ops1 (create ttl)) req uuid units owner = (Ok result, s1) ->
  holds s1 (req, uuid) owner e ->
  Forall (fun p => p.1 < e /\ ~ ends_claim (req, uuid) owner p.2) ops2 ->
  let s2 := run ops2 s1 in
  holds s2 (req, uuid) owner e /\ rows_kept (req, uuid) s1 s2 /\
  (forall bk reg, request_blocks_ s1 !! bk = Some reg -> (bk.1, req_uuid reg) = (req, uuid) ->
     Forall (fun p => spares bk reg p.1 p.2) ops2 -> request_blocks_ s2 !! bk = Some reg) /\
  forall t, t < e ->
    (CancelIfUnclaimed t s2 req uuid).1 ≠ Ok true /\
    (forall w us, w ≠ owner -> ok (LookupAndClaim t s2 req uuid us w).1 = false) /\
    (forall d1 d2 unit ids ps, ok (Register d1 d2 t s2 req uuid unit ids ps).1 = false).
Proof.
  intros Hl Hh Hops. cbv zeta.
  assert (Hinv : inv s1).
  { pose proof (lookup_inv now (run ops1 (create ttl)) req uuid units owner) as H. rewrite Hl in H.
    apply H, registry_run_inv, registry_create_inv. }
  destruct (claim_run ops2 s1 (req, uuid) owner e Hinv Hh Hops) as [Hh2 Hrows].
  pose proof (registry_run_inv ops2 s1 Hinv) as Hinv2.
  split; [done|]. split; [done|]. split; [intros bk reg Hr Hk Hs; by eapply row_run|]. intros t Ht. split_and!.
  - by eapply holds_cancel_refused.
  - intros w us Hw. by destruct (holds_lookup_refused t _ req uuid owner e w us Hinv2 Hh2 Ht Hw) as [msg ->].
  - intros d1 d2 unit ids ps. by eapply holds_register_refused.
Qed.

(** ** Cancellation *)

Lemma purge_lc_tomb now s k e :
  cancelled_ s !! k = Some e -> now < e -> cancelled_ (PurgeExpiredLifecycleLocked now s) !! k = Some e.
Proof. intros. by apply purge_lc_cancelled. Qed.

Lemma tombstone_step now o s k e :
  inv s -> cancelled_ s !! k = Some e -> now < e -> o ≠ OpRelease k.1 k.2 ->
  cancelled_ (apply_op now o s) !! k = Some e.
Proof.
  intros Hinv Hk Hlt Hrel. pose proof (purge_inv now s Hinv) as Hpi.
  assert (Hp : cancelled_ (Purge now s) !! k = Some e) by (by apply purge_lc_tomb).
  assert (Hunclaimed : claimed_units_ (Purge now s) !! k = None).
  { destruct (claimed_units_ (Purge now s) !! k) as [us|] eqn:E; [|done].
    rewrite (inv_excl _ Hpi k) in Hp; [done|]. apply (inv_units _ Hpi). eauto. }
  destruct o as [d1 d2 req uuid unit ids ps|req uuid|req uuid unit|req uuid|req uuid units w|req uuid w|unit];
    cbn [apply_op].
  - unfold Register. destruct (match check_ids req uuid with Ok _ => _ | Err _ _ => _ end); [|done].
    unfold commit_registration. repeat case_match; done.
  - unfold Release. destruct (check_ids req uuid); [|done]. simpl.
    rewrite lookup_delete_ne; [done|]. destruct k. simpl in Hrel. congruence.
  - unfold Complete. destruct (check_ids req uuid); [|done]. cbv zeta.
    destruct (_ && _ && _); [done|]. destruct (negb _ && negb _); [done|].
    destruct (claimed_units_ (Purge now s) !! (req, uuid)) as [us|] eqn:E; [|done].
    case_bool_decide; [|done]. cbn [snd RetireLocked cancelled_].
    rewrite lookup_delete_ne; [done|]. congruence.
  - unfold CancelIfUnclaimed. destruct (check_ids req uuid); [|done]. cbv zeta.
    pose proof (purge_lc_tomb now s k e Hk Hlt) as Hl.
    case_bool_decide as Hc; [done|]. case_bool_decide; [done|]. simpl.
    rewrite lookup_insert_ne; [done|]. intros <-. apply Hc. eauto.
  - unfold LookupAndClaim. cbv zeta. case_bool_decide as Hc; [done|].
    assert (Hne : (req, uuid) ≠ k) by (intros <-; apply Hc; eauto).
    destruct (match check_claim _ _ _ _ with Ok _ => _ | Err _ _ => _ end); [|done].
    cbn [completed_units_]. destruct (completed_units_ (Purge now s) !! (req, uuid)); [|done].
    case_bool_decide; [|done]. cbn [snd RetireLocked cancelled_ set_completed]. by rewrite lookup_delete_ne.
  - unfold AbandonClaim. by destruct (_ || _).
  - done.
Qed.

(** Cancellation is final.  Once CancelIfUnclaimed answered true, and until its
    tombstone expires or the generation is released, whatever other calls run: the
    generation has no rows, it cannot be registered again and it cannot be claimed. *)
Theorem registry_cancel_tombstone ttl (ops1 ops2 : list (Z * Op D)) now req uuid s1 e :
  CancelIfUnclaimed now (run ops1 (create ttl)) req uuid = (Ok true, s1) ->
  cancelled_ s1 !! (req, uuid) = Some e ->
  Forall (fun p => p.1 < e /\ p.2 ≠ OpRelease req uuid) ops2 ->
  let s2 := run ops2 s1 in
  cancelled_ s2 !! (req, uuid) = Some e /\
  (forall unit reg, request_blocks_ s2 !! (req, unit) = Some reg -> req_uuid reg ≠ uuid) /\
  forall t, t < e ->
    (forall d1 d2 unit ids ps, ok (Register d1 d2 t s2 req uuid unit ids ps).1 = false) /\
    (forall us w, ok (LookupAndClaim t s2 req uuid us w).1 = false).
Proof.
  intros Hc Hk Hops. cbv zeta.
  assert (Hinv : inv s1).
  { pose proof (cancel_inv now (run ops1 (create ttl)) req uuid) as H. rewrite Hc in H.
    apply H, registry_run_inv, registry_create_inv. }
  assert (H2 : inv (run ops2 s1) /\ cancelled_ (run ops2 s1) !! (req, uuid) = Some e).
  { clear Hc. revert s1 Hk Hinv. induction Hops as [|[t o] ops2 [Ht Ho] _ IH]; intros s1 Hk Hinv; [done|].
    simpl in *. apply IH; [by apply tombstone_step|by apply registry_apply_op_inv]. }
  destruct H2 as [Hinv2 Hk2]. split; [done|]. split.
  - intros unit reg Hr <-. apply (inv_rows _ Hinv2) in Hr as [Hn _]. simpl in Hn. congruence.
  - intros t Ht. assert (Hp : cancelled_ (Purge t (run ops2 s1)) !! (req, uuid) = Some e) by (by apply purge_lc_tomb).
    split.
    + intros d1 d2 unit ids ps. unfold Register.
      destruct (match check_ids req uuid with Ok _ => _ | Err _ _ => _ end); [|done].
      unfold commit_registration. destruct (negb _); [done|]. by rewrite bool_decide_eq_true_2 by eauto.
    + intros us w. unfold LookupAndClaim. cbv zeta. by rewrite bool_decide_eq_true_2 by eauto.
Qed.

(** ** Completion *)

(** Nothing of generation [k] is left. *)
Definition gone k s : Prop :=
  claimed_ s !! k = None /\ claimed_units_ s !! k = None /\ claimed_owners_ s !! k = None /\
  completed_units_ s !! k = None /\
  forall bk reg, request_blocks_ s !! bk = Some reg -> (bk.1, req_uuid reg) ≠ k.

Lemma retire_gone k s : gone k (RetireLocked k s).2.
Proof.
  unfold gone. simpl. rewrite !lookup_delete_eq. split_and!; try done.
  intros bk reg [_ Hn]%generation_rows_spec <-. apply Hn. done.
Qed.

(** [us] is claimed until [e] and exactly the units of [V] have voted. *)
Definition voting k (us V : gset RaidenId) (e until : Z) s : Prop :=
  claimed_ s !! k = Some e /\ claimed_units_ s !! k = Some us /\
  match completed_units_ s !! k with
  | None => V = ∅
  | Some c => votes c = V /\ until <= vote_expires_at c
  end.

Lemma purge_voting now s k us V e until :
  voting k us V e until s -> now < e -> now < until -> voting k us V e until (Purge now s).
Proof.
  intros (Hc & Hu & Hv) He Hun.
  assert (Hc' : claimed_ (Purge now s) !! k = Some e) by (by apply purge_lc_claimed).
  split; [done|]. split; [apply purge_lc_units; eauto|].
  destruct (completed_units_ s !! k) as [c|] eqn:E.
  - destruct Hv as [Hv Hx].
    assert (Hk : completed_units_ (Purge now s) !! k = Some c)
      by (apply purge_lc_completed; split; [done|lia]).
    by rewrite Hk.
  - destruct (completed_units_ (Purge now s) !! k) as [c|] eqn:E'; [|done].
    apply purge_lc_completed in E' as [E' _]. simpl in E'. congruence.
Qed.

(** One vote of an expected unit. *)
Lemma vote_step t s req uuid u us V e until ttl :
  ok (check_ids req uuid) = true -> u ∈ us -> ttl_s_ s = ttl -> t < e -> t < until -> until <= t + ttl ->
  voting (req, uuid) us V e until s ->
  if bool_decide (us ⊆ {[ u ]} ∪ V) then gone (req, uuid) (Complete t s req uuid u).2
  else voting (req, uuid) us ({[ u ]} ∪ V) e until (Complete t s req uuid u).2 /\
       (Complete t s req uuid u).1 = Ok 0.
Proof.
  intros Hids Hu Httl He Hun Hle Hv. apply (purge_voting t) in Hv as (Hc & Hus & Hv); [|done..].
  unfold Complete. destruct (check_ids req uuid); [|done]. cbv zeta. rewrite Hus.
  rewrite (bool_decide_eq_false_2 (Some us = None)) by done. cbn [andb]. rewrite (bool_decide_eq_true_2 (u ∈ us)) by done.
  rewrite andb_false_r.
  assert (Hvotes : match completed_units_ (Purge t s) !! (req, uuid) with Some c => votes c | None => ∅ end = V).
  { destruct (completed_units_ (Purge t s) !! (req, uuid)); naive_solver. }
  rewrite Hvotes. case_bool_decide.
  - exact (retire_gone (req, uuid) _).
  - split; [|done]. split; [done|]. split; [done|]. simpl. rewrite lookup_insert_eq. simpl. split; [done|]. lia.
Qed.

Lemma complete_ttl t s req uuid u : ttl_s_ (Complete t s req uuid u).2 = ttl_s_ s.
Proof.
  unfold Complete. destruct (check_ids req uuid); [|done]. cbv zeta.
  destruct (_ && _ && _); [done|]. destruct (negb _ && negb _); [done|].
  destruct (claimed_units_ _ !! _); [|done]. by case_bool_decide.
Qed.

Lemma purge_gone now k s : gone k s -> gone k (Purge now s).
Proof.
  intros (H1 & H2 & H3 & H4 & H5). split_and!; simpl; try (apply map_lookup_filter_None; by left).
  intros bk reg. rewrite map_lookup_filter_Some. intros [Hr _]. by apply H5.
Qed.

(** A late vote is answered 0 and changes nothing of the generation. *)
Lemma vote_gone t s req uuid u :
  ok (check_ids req uuid) = true -> gone (req, uuid) s ->
  Complete t s req uuid u = (Ok 0, Purge t s) /\ gone (req, uuid) (Purge t s).
Proof.
  intros Hids Hg. pose proof (purge_gone t _ _ Hg) as Hp. split; [|done].
  destruct Hp as (_ & Hu & _ & _ & Hrows). unfold Complete. destruct (check_ids req uuid); [|done]. cbv zeta.
  rewrite Hu. destruct (request_blocks_ (Purge t s) !! (req, u)) as [reg|] eqn:Hr.
  - specialize (Hrows _ _ Hr). simpl in Hrows. rewrite (proj2 (Z.eqb_neq (req_uuid reg) uuid)) by congruence.
    by rewrite andb_false_r.
  - by rewrite andb_false_r.
Qed.

(** Completion.  Once a generation is claimed for a set of units, and as long as
    neither the claim nor the votes expire, votes of claimed units retire it exactly
    when every claimed unit has voted, in any order and with any repetitions: until
    then the claim stays, afterwards no claim, vote or row of the generation is left
    and further votes are harmless. *)
Theorem registry_votes_retire ttl req uuid us e t0 (vs : list (Z * RaidenId)) s :
  ok (check_ids req uuid) = true -> ttl_s_ s = ttl -> us ≠ ∅ ->
  voting (req, uuid) us ∅ e (t0 + ttl) s ->
  Forall (fun v => t0 <= v.1 < Z.min e (t0 + ttl) /\ v.2 ∈ us) vs ->
  let s' := run ((fun v => (v.1, OpComplete req uuid v.2 : Op D)) <$> vs) s in
  if bool_decide (us ⊆ list_to_set vs.*2) then gone (req, uuid) s'
  else voting (req, uuid) us (list_to_set vs.*2) e (t0 + ttl) s'.
Proof.
  intros Hids Httl Hne Hv Hvs. cbv zeta.
  enough (H : forall V s, ttl_s_ s = ttl ->
    (if bool_decide (us ⊆ V) then gone (req, uuid) s else voting (req, uuid) us V e (t0 + ttl) s) ->
    let s' := run ((fun v => (v.1, OpComplete req uuid v.2 : Op D)) <$> vs) s in
    if bool_decide (us ⊆ list_to_set vs.*2 ∪ V) then gone (req, uuid) s'
    else voting (req, uuid) us (list_to_set vs.*2 ∪ V) e (t0 + ttl) s').
  { specialize (H ∅ s Httl). rewrite !(right_id_L ∅ (∪)) in H. apply H.
    rewrite bool_decide_eq_false_2; [done|]. set_solver. }
  clear s Httl Hv. induction Hvs as [|[t u] vs [Ht Hu] _ IH]; intros V s Httl Hst; cbv zeta.
  { rewrite fmap_nil. simpl. by rewrite (left_id_L ∅ (∪)). }
  rewrite !fmap_cons, list_to_set_cons. cbn [fst snd] in *.
  assert (Heq : {[ u ]} ∪ list_to_set vs.*2 ∪ V = list_to_set vs.*2 ∪ ({[ u ]} ∪ V)) by set_solver.
  rewrite Heq. apply (IH ({[ u ]} ∪ V) (Complete t s req uuid u).2); [by rewrite complete_ttl|]. case_bool_decide as HV.
  - rewrite bool_decide_eq_true_2 by set_solver.
    destruct (vote_gone t s req uuid u Hids Hst) as [-> Hg]. done.
  - pose proof (vote_step t s req uuid u us V e (t0 + ttl) ttl Hids Hu Httl ltac:(lia) ltac:(lia) ltac:(lia) Hst) as Hstep.
    case_bool_decide; [done|]. apply Hstep.
Qed.

End reachable.

(** ** Concrete runs *)

Definition unit0 : RaidenId := mkRaidenId EmptyString EmptyString EmptyString 0.
Definition unit1 : RaidenId := mkRaidenId EmptyString EmptyString EmptyString 1.
Definition reg_of (u : RaidenId) : WUD.WorkUnitRegistration :=
  WUD.mkReg u ["host:1"%string] None None None None None None None None None None None.
Definition dir0 : WUD.WorkUnitDirectory := WUD.run [reg_of unit0; reg_of unit1].
Definition setup : list (Z * Op WUD.WorkUnitDirectory) :=
  [(0, OpRegister dir0 dir0 "r" 7 unit0 [1; 2] []); (0, OpRegister dir0 dir0 "r" 7 unit1 [3] [])].
Definition claimed0 := LookupAndClaim 1 (run setup (create 100)) "r" 7 [unit0; unit1] 5.

Definition ok_value {A} (d : A) (x : StatusOr A) : A := match x with Ok a => a | Err _ _ => d end.
Lemma pair_ok_eq {A B} (d : A) (p : StatusOr A * B) : ok p.1 = true -> p = (Ok (ok_value d p.1), p.2).
Proof. by destruct p as [[]]. Qed.

Lemma registry_claim_exclusive_witness :
  let ops2 := [(2, OpCancel "r" 7); (3, OpLookup "r" 7 [unit0] 6); (4, OpInvalidate unit1)] in
  let s2 := run (D := WUD.WorkUnitDirectory) ops2 claimed0.2 in
  holds s2 ("r"%string, 7) 5 101 /\ (CancelIfUnclaimed 50 s2 "r" 7).1 ≠ Ok true.
Proof.
  intros ops2 s2. set (result := ok_value ∅ claimed0.1).
  assert (Hc : LookupAndClaim 1 (run setup (create 100)) "r" 7 [unit0; unit1] 5 = (Ok result, claimed0.2))
    by (apply pair_ok_eq; vm_compute; reflexivity).
  assert (Hh : holds claimed0.2 ("r"%string, 7) 5 101) by (split; vm_compute; reflexivity).
  assert (Hops : Forall (fun p => p.1 < 101 /\ ~ ends_claim (D := WUD.WorkUnitDirectory) ("r"%string, 7) 5 p.2) ops2).
  { repeat constructor; simpl; try lia; try tauto. }
  destruct (registry_claim_exclusive 100 setup ops2 1 "r"%string 7 [unit0; unit1] 5 result claimed0.2 101 Hc Hh Hops)
    as (Hh2 & _ & _ & Ht).
  split; [exact Hh2|]. exact (proj1 (Ht 50 ltac:(lia))).
Defined.

Lemma registry_cancel_tombstone_witness :
  let s1 := (CancelIfUnclaimed 1 (run setup (create 100)) "r" 7).2 in
  let s2 := run (D := WUD.WorkUnitDirectory) [(2, OpRegister dir0 dir0 "r" 7 unit0 [9] [])] s1 in
  cancelled_ s2 !! ("r"%string, 7) = Some 101 /\
  ok (LookupAndClaim 3 s2 "r" 7 [unit0] 5).1 = false.
Proof.
  intros s1 s2.
  assert (Hc : CancelIfUnclaimed 1 (run setup (create 100)) "r" 7 = (Ok true, s1))
    by (vm_compute; reflexivity).
  assert (Hk : cancelled_ s1 !! ("r"%string, 7) = Some 101) by (vm_compute; reflexivity).
  destruct (registry_cancel_tombstone 100 setup [(2, OpRegister dir0 dir0 "r" 7 unit0 [9] [])]
    1 "r"%string 7 s1 101 Hc Hk) as (H1 & _ & H2).
  { apply Forall_cons. split; [split; [simpl; lia|discriminate]|constructor]. }
  split; [exact H1|]. exact (proj2 (H2 3 ltac:(lia)) [unit0] 5).
Defined.

Lemma registry_votes_retire_witness :
  gone ("r"%string, 7)
    (run (D := WUD.WorkUnitDirectory) [(2, OpComplete "r" 7 unit1); (3, OpComplete "r" 7 unit1); (4, OpComplete "r" 7 unit0)]
       claimed0.2) /\
  claimed_ claimed0.2 !! ("r"%string, 7) = Some 101.
Proof.
  split; [|vm_compute; reflexivity].
  pose proof (registry_votes_retire (D := WUD.WorkUnitDirectory) 100 "r" 7 {[ unit0; unit1 ]} 101 1
    [(2, unit1); (3, unit1); (4, unit0)] claimed0.2 eq_refl eq_refl) as H. cbv zeta in H.
  rewrite bool_decide_eq_true_2 in H by set_solver. apply H.
  - apply (non_empty_inhabited_L unit0), elem_of_union_l, elem_of_singleton_2. reflexivity.
  - split; [vm_compute; reflexivity|]. split; [|vm_compute; reflexivity].
    apply (bool_decide_eq_true_1 _). vm_compute. reflexivity.
  - repeat constructor; simpl; lia || set_solver.
Defined.

(** [Register]'s source bound check is not overflow safe: the strided extent of this
    span wraps, so a span that ends far outside the 16 live bytes is accepted. *)
Lemma check_span_overflow :
  check_span "kv" 1 16 0 (mkSpan 0 0 0 0 8 (2 ^ 62) 0 3) = Ok 24 /\
  0 + (3 - 1) * 2 ^ 62 + 8 > 16.
Proof. split; vm_compute; reflexivity. Qed.

End Registry.
