(* ===== verification/PoolReshardPlanner.v ===== *)
(** * The pool reshard planner ([src/tpu_sync/kv_cache/reshard/pool_reshard_planner.cc])

    [BuildPoolReshardPlan] validates a transfer request against the metadata of the
    source and destination units, claims the registered byte-span declarations, checks
    that they cover every destination block exactly, and emits the physical copy
    schedule.  The function is modelled stage by stage: [prepare] is everything before
    the claim, [plan_tag] one iteration of the per-tag loop, [finish] the assembly of
    the plan.  Maps keyed by [RaidenId] are finite maps: only lookups and sums read
    them.  The caller ([ReshardCoordinator]) refuses an empty [src_units], on which
    the source would read [src_units[0]]. *)

From S2P Require Import Prelude PoolLayout ReshardTypes WorkUnitDirectory RequestBlockRegistry.

Module Planner.

Import Pool.
Abbreviation Metadata := WUD.RegisterWorkUnitRequest.

(** ** Data *)

Record ScheduleEntry : Type := mkEntry {
  dst_peer : string;
  dst_shard_idx : Z;
  e_dst_offset_bytes : Z;
  e_src_offset_bytes : Z;
  e_size_bytes : Z;
  src_block_id : Z;
  dst_block_id : Z;
  e_src_stride_bytes : Z;
  e_dst_stride_bytes : Z;
  e_count : Z;
  layer_idx : Z;
  pool_group : Z
}.

Record PlanPoolGroup : Type := mkGroup {
  pool_indices : list Z;
  g_dst_device_block_ids : list Z;
  expected_pushes : Z;
  g_dst_expected_extent_bytes : list Z;
  order_rank : Z
}.

Record PoolReshardPlan : Type := mkPlan {
  plan_src_units : list RaidenId;
  plan_dst_unit : RaidenId;
  schedules : gmap RaidenId (list ScheduleEntry);
  worker_rpc_addresses : gmap RaidenId string;
  plan_dst_peer : string;
  plan_uuid : Z;
  plan_req_id : string;
  expected_block_count : Z;
  expected_pushes_per_pool : Z;
  transfer_pool_indices : list Z;
  pool_dtype_tags : list string;
  plan_dst_device_block_ids : list Z;
  src_schedule_keys : gmap RaidenId Z;
  plan_parallelism : Z;
  plan_num_tokens : Z;
  skipped_pool_counts : gmap string Z;
  plan_dst_expected_extent_bytes : list Z;
  pool_groups : list PlanPoolGroup;
  skip_d2h : bool
}.

Record PlanRequest : Type := mkPlanRequest {
  src_units : list RaidenId;
  dst_units : list RaidenId;
  src_metadata : list Metadata;
  dst_metadata : list Metadata;
  req_id : string;
  uuid : Z;
  dst_device_block_ids : list Z;
  num_tokens : Z;
  transfer_pool_tags : list string;
  parallelism : option Z;
  dst_block_counts : list Z;
  dst_skip_bytes : list Z
}.

Record TagPrecheck : Type := mkPrecheck {
  selected : list Z;
  src_live : Z;
  dst_live : Z;
  src_segments : list PoolLiveSegment;
  dst_segments : list PoolLiveSegment
}.

Implicit Types (req : PlanRequest) (u unit : RaidenId) (meta : Metadata).

(** ** Text *)

Definition PyStrRepr (s : string) : list Frag := StrCat["'"; s; "'"].
Definition PyStrListRepr (values : list string) : list Frag :=
  StrCat["["] ++ StrJoin (PyStrRepr <$> values) ++ StrCat["]"].
(** A [std::set<int64_t>] iterates in increasing order. *)
Definition PySortedIntSetRepr (values : gset Z) : list Frag :=
  StrCat["["] ++ StrJoin ((fun v : Z => StrCat[v]) <$> sort_by Z.ltb (elements values)) ++ StrCat["]"].

Definition us : string := String (Ascii.ascii_of_nat 31) EmptyString.
Definition rs : string := String (Ascii.ascii_of_nat 30) EmptyString.

Definition GeometrySignature (pool : PoolSpecProto) : string :=
  render
    (StrCat[p_tag pool; us; p_storage_index pool; us; p_base_offset_bytes pool; us;
            p_block_stride_bytes pool; us; p_num_blocks pool; us; p_dtype_tag pool] ++
     (p_regions pool ≫= fun region =>
        StrCat[rs; p_name region; us; p_offset_bytes region; us; p_stride_bytes region; us;
               p_unit_bytes region; us; p_num_units region; us; p_units_per_stride region])).

Definition LiveSegments (pool_proto : PoolSpecProto) : StatusOr (list PoolLiveSegment) :=
  let? pool := PoolSpecFromProto pool_proto in
  ExpandPoolLiveSegments pool.

(** ** Metadata selection *)

Definition add_metadata (requested : gset RaidenId) (result : gmap RaidenId Metadata) (item : Metadata) :
    StatusOr (gmap RaidenId Metadata) :=
  let unit := RaidenIdFromProto (WUD.q_unit item) in
  if negb (bool_decide (unit ∈ requested)) then Ok result
  else if bool_decide (is_Some (result !! unit)) then
    Err kInvalidArgument (StrCat["Duplicate registration metadata for "] ++ PythonRepr unit)
  else Ok (<[unit := item]> result).

Definition MetadataByUnit (metadata : list Metadata) (units : list RaidenId) :
    StatusOr (gmap RaidenId Metadata) :=
  let? result := for_each (add_metadata (list_to_set units)) metadata ∅ in
  let missing := filter (fun u => result !! u = None) units in
  if negb (bool_decide (missing = [])) then
    Err kInvalidArgument
      (StrCat["Missing registration metadata for ["] ++ StrJoin (PythonRepr <$> missing) ++ StrCat["]"])
  else Ok result.

Definition no_metadata : Metadata :=
  WUD.mkRequest (mkRaidenIdProto EmptyString EmptyString EmptyString 0) [] EmptyString 0 EmptyString 0 0 0
    [] [] [] [] [].
(** [result.at(unit)], for a unit [MetadataByUnit] found. *)
Definition meta_at (m : gmap RaidenId Metadata) u : Metadata := default no_metadata (m !! u).

(** ** Validation before the claim *)

Definition check_request req : Status :=
  if bool_decide (req_id req = EmptyString) then
    Err kInvalidArgument StrCat["req_id must not be empty for pool resharding"]
  else if uuid req <=? 0 then Err kInvalidArgument StrCat["uuid must be positive for pool resharding"]
  else if negb (length (dst_units req) =? 1)%nat then
    Err kInvalidArgument StrCat["Pool resharding requires exactly one destination unit"]
  else if negb (bool_decide (NoDup (src_units req))) then
    Err kInvalidArgument StrCat["src_units must not contain duplicates"]
  else if negb (bool_decide (NoDup (dst_units req))) then
    Err kInvalidArgument StrCat["dst_units must not contain duplicates"]
  else if bool_decide (dst_device_block_ids req = []) then
    Err kInvalidArgument StrCat["dst_device_block_ids must not be empty"]
  else if existsb (fun b => b <? 0) (dst_device_block_ids req) then
    Err kInvalidArgument StrCat["dst_device_block_ids must be non-negative"]
  else OkStatus.

Definition check_meta meta : Status :=
  let unit := RaidenIdFromProto (WUD.q_unit meta) in
  let shards := Z.of_nat (length (WUD.q_shards meta)) in
  if bool_decide (WUD.q_layout_fingerprint meta = EmptyString) then
    Err kInvalidArgument (StrCat["Missing layout fingerprint for "] ++ PythonRepr unit)
  else if bool_decide (WUD.q_pools meta = []) then
    Err kInvalidArgument (StrCat["Missing explicit pool manifest for "] ++ PythonRepr unit)
  else if shards =? 0 then
    Err kInvalidArgument (StrCat["Missing data-plane endpoint for "] ++ PythonRepr unit)
  else if negb (shards =? 1) then
    Err kInvalidArgument
      (StrCat["Pool reshard planning requires one data-plane endpoint per work unit; "] ++
       PythonRepr unit ++ StrCat[" registered "; shards])
  else if bool_decide (WUD.q_control_plane_rpc_address meta = EmptyString) then
    Err kInvalidArgument (StrCat["Missing control-plane endpoint for "] ++ PythonRepr unit)
  else OkStatus.

Definition check_fingerprints (all_metadata : list Metadata) : Status :=
  let fingerprints : gset string := list_to_set (WUD.q_layout_fingerprint <$> all_metadata) in
  if negb (base.size fingerprints =? 1)%nat then
    Err kInvalidArgument StrCat["Layout fingerprint mismatch between source and destination"]
  else OkStatus.

Definition identity (pools : list PoolSpecProto) : list (string * string) :=
  (fun pool => (p_tag pool, p_dtype_tag pool)) <$> pools.

Definition check_identity (dst_meta : Metadata) (src_by_unit : gmap RaidenId Metadata)
    (src_units : list RaidenId) : Status :=
  let dst_identity := identity (WUD.q_pools dst_meta) in
  if bool_decide (dst_identity = []) then
    Err kInvalidArgument StrCat["Destination pool manifest must not be empty"]
  else
    for_each (fun _ src_unit =>
      if negb (bool_decide (identity (WUD.q_pools (meta_at src_by_unit src_unit)) = dst_identity)) then
        Err kInvalidArgument
          (StrCat["Canonical pool manifest mismatch between source and destination for "] ++
           PythonRepr src_unit)
      else OkStatus) src_units tt.

Definition check_geometry (reference_src : Metadata) (src_by_unit : gmap RaidenId Metadata)
    (src_units : list RaidenId) : Status :=
  let reference_geometry := GeometrySignature <$> WUD.q_pools reference_src in
  for_each (fun _ src_unit =>
    if negb (bool_decide ((GeometrySignature <$> WUD.q_pools (meta_at src_by_unit src_unit)) = reference_geometry)) then
      Err kInvalidArgument
        (StrCat["Source pool geometry differs across ranks at "] ++ PythonRepr src_unit)
    else OkStatus) (tail src_units) tt.

(** The number of destination blocks of each tag. *)
Definition split_counts req : StatusOr (list Z) :=
  let tags := transfer_pool_tags req in
  let counts := dst_block_counts req in
  let blocks := Z.of_nat (length (dst_device_block_ids req)) in
  if bool_decide (tags = []) then
    Err kInvalidArgument StrCat["transfer_pool_tags must name at least one pool tag"]
  else if negb (bool_decide (NoDup tags)) then
    Err kInvalidArgument (StrCat["transfer_pool_tags must not repeat tags; got "] ++ PyStrListRepr tags)
  else if negb (bool_decide (counts = [])) then
    if negb (length counts =? length tags)%nat then
      Err kInvalidArgument
        StrCat["dst_block_counts must align 1:1 with transfer_pool_tags: "; Z.of_nat (length counts);
               " counts for "; Z.of_nat (length tags); " tags"]
    else
      let sum := foldl (fun s c => wrap64 (s + c)) 0 counts in
      if existsb (fun c => c <=? 0) counts || negb (sum =? blocks) then
        Err kInvalidArgument
          (StrCat["dst_block_counts must be positive and sum to the destination block count: counts="] ++
           PythonReprIntList counts ++ StrCat[", blocks="; blocks])
      else Ok counts
  else if (length tags =? 1)%nat then Ok [blocks]
  else
    Err kInvalidArgument
      StrCat["Multi-tag transfers must split dst_device_block_ids with dst_block_counts"].

(** Cut [dst_ids] into runs of the given lengths (in range when the counts sum to the
    length). *)
Fixpoint split_ids (dst_ids : list Z) (counts : list Z) : list (list Z) :=
  match counts with
  | [] => []
  | c :: rest => take (Z.to_nat c) dst_ids :: split_ids (drop (Z.to_nat c) dst_ids) rest
  end.

Definition split_skips req : StatusOr (list Z) :=
  let tags := transfer_pool_tags req in
  let skips := dst_skip_bytes req in
  if bool_decide (skips = []) then Ok (replicate (length tags) 0)
  else if negb (length skips =? length tags)%nat then
    Err kInvalidArgument
      StrCat["dst_skip_bytes must align 1:1 with transfer_pool_tags: "; Z.of_nat (length skips);
             " skips for "; Z.of_nat (length tags); " tags"]
  else
    let? _ := for_each (fun _ (p : Z * string) =>
                if p.1 <? 0 then
                  Err kInvalidArgument
                    (StrCat["dst_skip_bytes must be non-negative; tag "] ++ PyStrRepr p.2 ++
                     StrCat[" requested "; p.1])
                else OkStatus) (zip skips tags) tt in
    Ok skips.

Definition check_tags (dst_meta : Metadata) (tags : list string) : Status :=
  let available_tags : gset string := list_to_set (p_tag <$> WUD.q_pools dst_meta) in
  for_each (fun _ plan_tag =>
    if negb (bool_decide (plan_tag ∈ available_tags)) then
      Err kInvalidArgument
        (StrCat["transfer_pool_tags do not match any registered pool: ["] ++ PyStrRepr plan_tag ++ StrCat["]"])
    else OkStatus) tags tt.

(** The ranks in increasing order, each with its unit, and the parallelism. *)
Definition rank_ltb (a b : Z * RaidenId) : bool := a.1 <? b.1.

Definition check_ranks req (src_by_unit : gmap RaidenId Metadata) : StatusOr (list (Z * RaidenId) * Z) :=
  let admitted : gset Z :=
    list_to_set ((fun u => WUD.q_transfer_parallelism (meta_at src_by_unit u)) <$> src_units req) in
  if negb (base.size admitted =? 1)%nat || bool_decide (0 ∈ admitted) then
    Err kInvalidArgument
      StrCat["All source ranks must declare one consistent positive transfer_parallelism"]
  else
    let topology_parallelism := default 0 (head (elements admitted)) in
    let ranks_map : gmap Z RaidenId :=
      foldl (fun m u => <[WUD.q_transfer_rank (meta_at src_by_unit u) := u]> m) ∅ (src_units req) in
    let ranks := sort_by rank_ltb (map_to_list ranks_map) in
    if negb (length ranks =? length (src_units req))%nat then
      Err kInvalidArgument StrCat["Source transfer_rank values must be unique"]
    else
      let? _ := for_each (fun expected_rank (p : Z * RaidenId) =>
                  if negb (p.1 =? expected_rank) then
                    Err kInvalidArgument
                      StrCat["Source transfer_rank values must be contiguous from zero"]
                  else Ok (expected_rank + 1)) ranks 0 in
      let requested_parallelism := default topology_parallelism (parallelism req) in
      if requested_parallelism <=? 0 then Err kInvalidArgument StrCat["parallelism must be positive"]
      else if topology_parallelism <? requested_parallelism then
        Err kInvalidArgument
          StrCat["parallelism exceeds source admission: requested="; requested_parallelism;
                 ", admitted="; topology_parallelism]
      else Ok (ranks, requested_parallelism).

(** ** Per-tag checks before the claim *)

Definition total_live (segments : list PoolLiveSegment) : Z :=
  foldl (fun total segment => wrap64 (total + size segment)) 0 segments.

(** The live byte counts and distinct segment maps seen so far, per side. *)
Record SideMaps : Type := mkSides {
  src_live_values : gset Z;
  dst_live_values : gset Z;
  src_segment_maps : list (list PoolLiveSegment);
  dst_segment_maps : list (list PoolLiveSegment)
}.

Definition add_map (maps : list (list PoolLiveSegment)) (segments : list PoolLiveSegment) :
    list (list PoolLiveSegment) :=
  if bool_decide (segments ∈ maps) then maps else maps ++ [segments].

Definition no_pool : PoolSpecProto := mkPoolProto EmptyString 0 0 0 0 [] EmptyString.
(** [meta.pools(i)] *)
Definition pool_at meta (i : Z) : PoolSpecProto := default no_pool (WUD.q_pools meta !! Z.to_nat i).

Definition precheck_pool (reference_src dst_meta : Metadata) (st : SideMaps) (pool_idx : Z) :
    StatusOr SideMaps :=
  let? src_segs := LiveSegments (pool_at reference_src pool_idx) in
  let? dst_segs := LiveSegments (pool_at dst_meta pool_idx) in
  let src := total_live src_segs in
  let dst := total_live dst_segs in
  if (src <=? 0) || (dst <=? 0) then
    Err kInvalidArgument StrCat["Pool "; pool_idx; " has no declared live bytes"]
  else
    Ok (mkSides ({[ src ]} ∪ src_live_values st) ({[ dst ]} ∪ dst_live_values st)
          (add_map (src_segment_maps st) src_segs) (add_map (dst_segment_maps st) dst_segs)).

Definition precheck_tag (reference_src dst_meta : Metadata) (acc : list TagPrecheck)
    (tag : string * (list Z * Z)) : StatusOr (list TagPrecheck) :=
  let '(plan_tag, (dst_ids_g, skip)) := tag in
  if negb (bool_decide (NoDup dst_ids_g)) then
    Err kInvalidArgument
      (StrCat["dst_device_block_ids for tag "] ++ PyStrRepr plan_tag ++ StrCat[" must not contain duplicates"])
  else
    let sel := filter (fun i => p_tag (pool_at dst_meta i) = plan_tag)
                 (zrange 0 (Z.of_nat (length (WUD.q_pools dst_meta)))) in
    let? st := for_each (precheck_pool reference_src dst_meta) sel (mkSides ∅ ∅ [] []) in
    if negb (base.size (src_live_values st) =? 1)%nat || negb (base.size (dst_live_values st) =? 1)%nat then
      Err kInvalidArgument
        (StrCat["Pools tagged "; plan_tag; " must share one geometry per side; src="] ++
         PySortedIntSetRepr (src_live_values st) ++ StrCat[" dst="] ++ PySortedIntSetRepr (dst_live_values st))
    else
      match src_segment_maps st, dst_segment_maps st with
      | [src_segs], [dst_segs] =>
          let src := default 0 (head (elements (src_live_values st))) in
          let dst := default 0 (head (elements (dst_live_values st))) in
          if negb (Z.rem skip dst =? 0) then
            Err kInvalidArgument
              (StrCat["dst_skip_bytes must be a whole multiple of the destination page live bytes for tag "] ++
               PyStrRepr plan_tag ++ StrCat[": skip="; skip; ", page_live_bytes="; dst])
          else Ok (acc ++ [mkPrecheck sel src dst src_segs dst_segs])
      | _, _ =>
          Err kInvalidArgument
            StrCat["Pools tagged "; plan_tag; " must share one live-region map per side"]
      end.

(** One requested tag with everything the planning loop reads for it. *)
Record TagPlan : Type := mkTagPlan {
  plan_tag : string;
  dst_ids_g : list Z;
  tag_skip : Z;
  precheck : TagPrecheck
}.

Definition tag_plan_of (it : string * (list Z * Z)) (pre : TagPrecheck) : TagPlan :=
  mkTagPlan it.1 it.2.1 it.2.2 pre.

Record Prepared : Type := mkPrepared {
  src_by_unit : gmap RaidenId Metadata;
  dst_meta : Metadata;
  pre_dst_unit : RaidenId;
  all_metadata : list Metadata;
  ranks : list (Z * RaidenId);
  requested_parallelism : Z;
  tag_plans : list TagPlan
}.

(** Everything before the claim. *)
Definition prepare req : StatusOr Prepared :=
  let? _ := check_request req in
  let? src := MetadataByUnit (src_metadata req) (src_units req) in
  let? dst := MetadataByUnit (dst_metadata req) (dst_units req) in
  match dst_units req, src_units req with
  | dst_unit :: _, first :: _ =>
      let dmeta := meta_at dst dst_unit in
      let all := (meta_at src <$> src_units req) ++ [dmeta] in
      let? _ := for_each (fun _ meta => check_meta meta) all tt in
      let? _ := check_fingerprints all in
      let? _ := check_identity dmeta src (src_units req) in
      let? _ := check_geometry (meta_at src first) src (src_units req) in
      let? counts := split_counts req in
      let tag_dst_ids := split_ids (dst_device_block_ids req) counts in
      let? skips := split_skips req in
      let? _ := check_tags dmeta (transfer_pool_tags req) in
      let? rp := check_ranks req src in
      let? pre := for_each (precheck_tag (meta_at src first) dmeta)
                    (zip (transfer_pool_tags req) (zip tag_dst_ids skips)) [] in
      Ok (mkPrepared src dmeta dst_unit all rp.1 rp.2
            (zip_with tag_plan_of (zip (transfer_pool_tags req) (zip tag_dst_ids skips)) pre))
  | _, _ => Err kInternal StrCat["src_units must not be empty"]
  end.

(** ** Declarations of a tag *)

Definition no_registration : RequestBlockRegistration := mkRequestReg 0 [] 0 [].

Definition declared_entries (registrations : gmap RaidenId RequestBlockRegistration)
    (src_units : list RaidenId) (tag : string) : list (RaidenId * PoolSpanRegistration) :=
  src_units ≫= fun unit =>
    pair unit <$> filter (fun entry => reg_tag entry = tag /\ spans entry ≠ [])
      (pool_spans (default no_registration (registrations !! unit))).

(** Splitting one range of the request-global destination space at page boundaries;
    [None] when the fuel runs out. *)
Fixpoint split_loop (fuel : nat) (live ordinal remaining global_offset src_offset : Z) :
    option (list PoolByteSpan) :=
  if 0 <? remaining then
    match fuel with
    | O => None
    | S fuel' =>
        let page_index := Z.quot global_offset live in
        let in_page := Z.rem global_offset live in
        let take := Z.min remaining (wrap64 (live - in_page)) in
        rest ← split_loop fuel' live ordinal (wrap64 (remaining - take)) (wrap64 (global_offset + take))
                 (wrap64 (src_offset + take));
        Some (mkSpan ordinal src_offset page_index in_page take 0 0 1 :: rest)
    end
  else Some [].

(** The running state of the conversion loop. *)
Record Converted : Type := mkConverted {
  conv_spans : list PoolByteSpan;
  tag_clipped_bytes : Z;
  tag_global_end : Z
}.

Definition convert_span unit (live skip : Z) (st : Converted) (span : PoolByteSpan) : StatusOr Converted :=
  if (1 <? count span) || negb (src_stride_bytes span =? 0) || negb (dst_stride_bytes span =? 0) then
    Err kInvalidArgument
      (StrCat["Global-space byte spans must be plain contiguous ranges (declared by "] ++ PythonRepr unit ++
       StrCat[")"])
  else if negb (dst_block_index span =? 0) then
    Err kInvalidArgument
      (StrCat["Global-space byte spans must leave dst_block_index zero (declared by "] ++ PythonRepr unit ++
       StrCat[")"])
  else
    let span_end := wrap64 (dst_offset_bytes span + span_size_bytes span) in
    let global_end := Z.max (tag_global_end st) span_end in
    if span_end <=? skip then
      Ok (mkConverted (conv_spans st) (wrap64 (tag_clipped_bytes st + span_size_bytes span)) global_end)
    else
      let clip_advance := if dst_offset_bytes span <? skip then wrap64 (skip - dst_offset_bytes span) else 0 in
      let clipped := wrap64 (tag_clipped_bytes st + clip_advance) in
      let remaining := wrap64 (span_size_bytes span - clip_advance) in
      let global_offset := wrap64 (wrap64 (dst_offset_bytes span + clip_advance) - skip) in
      let src_offset := wrap64 (src_offset_bytes span + clip_advance) in
      match split_loop (Z.to_nat remaining) live (src_block_ordinal span) remaining global_offset src_offset with
      | Some split => Ok (mkConverted (conv_spans st ++ split) clipped global_end)
      | None => Err kInternal StrCat["split loop does not terminate"]
      end.

(** One declared entry; the state is the converted entries and the two counters. *)
Definition convert_entry (tag : string) (live skip : Z)
    (st : list (RaidenId * PoolSpanRegistration) * (Z * Z)) (d : RaidenId * PoolSpanRegistration) :
    StatusOr (list (RaidenId * PoolSpanRegistration) * (Z * Z)) :=
  let '(converted, (clipped, global_end)) := st in
  let '(unit, entry) := d in
  if dst_space_version entry =? 0 then
    if 0 <? skip then
      Err kInvalidArgument
        (StrCat["dst_skip_bytes requires destination-page-agnostic (dst_space_version=1) declarations for tag "] ++
         PyStrRepr tag ++ StrCat[" (declared by "] ++ PythonRepr unit ++ StrCat[")"])
    else Ok (converted ++ [(unit, entry)], (clipped, global_end))
  else
    let? c := for_each (convert_span unit live skip) (spans entry) (mkConverted [] clipped global_end) in
    Ok (converted ++ [(unit, mkSpanReg (reg_tag entry) (reg_block_ids entry) (conv_spans c)
                               (declared_bytes entry) 0)],
        (tag_clipped_bytes c, tag_global_end c)).

(** ** Block ranges *)

Definition check_block_ranges (p : Prepared) (t : TagPlan) (declared : list (RaidenId * PoolSpanRegistration))
    (pool_idx : Z) : Status :=
  let? _ := for_each (fun _ (d : RaidenId * PoolSpanRegistration) =>
    let limit := p_num_blocks (pool_at (meta_at (src_by_unit p) d.1) pool_idx) in
    if existsb (fun b => limit <=? b) (reg_block_ids d.2) then
      Err kInvalidArgument
        (StrCat["Source block id is out of range for pool "; pool_idx; " at "] ++ PythonRepr d.1)
    else OkStatus) declared tt in
  if existsb (fun b => p_num_blocks (pool_at (dst_meta p) pool_idx) <=? b) (dst_ids_g t) then
    Err kInvalidArgument StrCat["Destination block id is out of range for pool "; pool_idx]
  else OkStatus.

(** ** Destination coverage *)

Record Coverage : Type := mkCoverage {
  coverage : list (list (Z * Z));
  expanded_repeats : Z;
  covered_total : Z
}.

(** The destination interval of one repeat of a span. *)
Definition repeat_start (span : PoolByteSpan) (repeat : Z) : Z :=
  wrap64 (dst_offset_bytes span + wrap64 (repeat * dst_stride_bytes span)).

Definition add_repeat (span : PoolByteSpan) (st : list (list (Z * Z)) * Z) (repeat : Z) :
    list (list (Z * Z)) * Z :=
  let start := repeat_start span repeat in
  (alter (fun l => l ++ [(start, wrap64 (start + span_size_bytes span))])
     (Z.to_nat (dst_block_index span)) st.1, wrap64 (st.2 + span_size_bytes span)).

Definition cover_span (t : TagPlan) unit (st : Coverage) (span : PoolByteSpan) : StatusOr Coverage :=
  let declared_by := StrCat[" (declared by "] ++ PythonRepr unit ++ StrCat[")"] in
  let blocks := Z.of_nat (length (dst_ids_g t)) in
  if blocks <=? dst_block_index span then
    Err kInvalidArgument
      (StrCat["Byte span destination index "; dst_block_index span; " exceeds the transfer's "; blocks;
              " destination blocks for tag "] ++ PyStrRepr (plan_tag t) ++ declared_by)
  else
    let src_end := wrap64 (wrap64 (src_offset_bytes span + wrap64 ((count span - 1) * src_stride_bytes span))
                           + span_size_bytes span) in
    if src_live (precheck t) <? src_end then
      Err kInvalidArgument
        (StrCat["Byte span exceeds its source block live bytes: end="; src_end; ", live=";
                src_live (precheck t)] ++ declared_by)
    else
      let dst_end := wrap64 (wrap64 (dst_offset_bytes span + wrap64 ((count span - 1) * dst_stride_bytes span))
                             + span_size_bytes span) in
      if dst_live (precheck t) <? dst_end then
        Err kInvalidArgument
          (StrCat["Byte span exceeds its destination block live bytes: end="; dst_end; ", live=";
                  dst_live (precheck t)] ++ declared_by)
      else
        let repeats := wrap64 (expanded_repeats st + count span) in
        if kMaxLiveSegments <? repeats then
          Err kInvalidArgument StrCat["Byte span plan exceeds the repeat expansion bound"]
        else
          let '(cov, covered) :=
            foldl (add_repeat span) (coverage st, covered_total st) (zrange 0 (count span)) in
          Ok (mkCoverage cov repeats covered).

Definition cover_entry (t : TagPlan) (st : Coverage) (d : RaidenId * PoolSpanRegistration) :
    StatusOr Coverage :=
  for_each (cover_span t d.1) (spans d.2) st.

(** Where the intervals of one block end: each must start where the previous ended. *)
Definition chain_interval (index : Z) (covered_until : Z) (interval : Z * Z) : StatusOr Z :=
  if negb (interval.1 =? covered_until) then
    Err kInvalidArgument
      StrCat["Declared byte spans have a destination coverage ";
             (if (interval.1 <? covered_until)%Z then "overlap"%string else "gap"%string); " at byte ";
             Z.min interval.1 covered_until; " of destination block index "; index]
  else Ok interval.2.

Definition block_extent (t : TagPlan) (extents : list Z) (block : Z * list (Z * Z)) : StatusOr (list Z) :=
  let '(index, unsorted) := block in
  let intervals := sort_by pair_ltb unsorted in
  if bool_decide (intervals = []) then
    Err kInvalidArgument
      (StrCat["Destination block index "; index; " has no declared coverage for tag "] ++ PyStrRepr (plan_tag t))
  else
    let? covered_until := for_each (chain_interval index) intervals 0 in
    if negb (index =? Z.of_nat (length (dst_ids_g t)) - 1) && negb (covered_until =? dst_live (precheck t)) then
      Err kInvalidArgument
        StrCat["Destination block index "; index; " is covered to "; covered_until; " of ";
               dst_live (precheck t); " live bytes; only the final block may be partial"]
    else Ok (extents ++ [covered_until]).

Definition wsum (l : list Z) : Z := foldl (fun s x => wrap64 (s + x)) 0 l.

Definition check_totals (declared_total covered clipped : Z) (extents : list Z) : Status :=
  if negb (declared_total =? wrap64 (covered + clipped)) then
    if clipped =? 0 then
      Err kInvalidArgument
        StrCat["Declared byte totals disagree with coverage: declared="; declared_total; ", covered="; covered]
    else
      Err kInvalidArgument
        StrCat["Declared byte totals disagree with coverage: declared="; declared_total; ", covered=";
               covered; ", clipped="; clipped]
  else if negb (covered =? wsum extents) then Err kInternal StrCat["byte coverage accounting failed"]
  else OkStatus.

(** The extents of the destination blocks of a tag. *)
Definition coverage_extents (t : TagPlan) (declared : list (RaidenId * PoolSpanRegistration)) (clipped : Z) :
    StatusOr (list Z) :=
  let? st := for_each (cover_entry t) declared
               (mkCoverage (replicate (length (dst_ids_g t)) []) 0 0) in
  let? extents := for_each (block_extent t)
                    (zip (zrange 0 (Z.of_nat (length (dst_ids_g t)))) (coverage st)) [] in
  let? _ := check_totals (wsum (declared_bytes ∘ snd <$> declared)) (covered_total st) clipped extents in
  Ok extents.
(** ** Emission *)

(** A declared span with its unit and entry. *)
Record OrderedSpan : Type := mkOrdered {
  o_span : PoolByteSpan;
  o_unit : RaidenId;
  o_entry : PoolSpanRegistration
}.

Definition ordered_ltb (a b : OrderedSpan) : bool :=
  pair_ltb (dst_block_index (o_span a), dst_offset_bytes (o_span a))
    (dst_block_index (o_span b), dst_offset_bytes (o_span b)).

Definition ordered_spans (declared : list (RaidenId * PoolSpanRegistration)) : list OrderedSpan :=
  sort_by ordered_ltb (declared ≫= fun d => (fun span => mkOrdered span d.1 d.2) <$> spans d.2).

(** The state the emission loops thread. *)
Record Emission : Type := mkEmission {
  emitted_chunks : Z;
  em_schedules : gmap RaidenId (list ScheduleEntry);
  transfer_pairs : gmap RaidenId (gset (string * Z * Z))
}.

Definition entry_of_chunk (peer : string) (src_block dst_block group_idx : Z) (chunk : LiveCopyChunk) :
    ScheduleEntry :=
  mkEntry peer 0 (dst_physical chunk) (src_physical chunk) (chunk_size chunk) src_block dst_block 0 0 1 0
    (wrap32 group_idx).

(** [schedules[unit].push_back] for each entry, in order. *)
Definition push_entries unit (entries : list ScheduleEntry) (m : gmap RaidenId (list ScheduleEntry)) :
    gmap RaidenId (list ScheduleEntry) :=
  if bool_decide (entries = []) then m else <[unit := default [] (m !! unit) ++ entries]> m.

Definition src_block_of (o : OrderedSpan) : Z :=
  default 0 (reg_block_ids (o_entry o) !! Z.to_nat (src_block_ordinal (o_span o))).
Definition dst_block_of (t : TagPlan) (span : PoolByteSpan) : Z :=
  default 0 (dst_ids_g t !! Z.to_nat (dst_block_index span)).

Definition translate (t : TagPlan) (span : PoolByteSpan) (repeat : Z) : StatusOr (list LiveCopyChunk) :=
  let src_offset := wrap64 (src_offset_bytes span + wrap64 (repeat * src_stride_bytes span)) in
  match TranslateLiveCopy (src_segments (precheck t)) (dst_segments (precheck t)) src_offset
          (repeat_start span repeat) (span_size_bytes span) with
  | Some r => r
  | None => Err kInternal StrCat["translation does not terminate"]
  end.

Definition emit_repeat (t : TagPlan) (peer : string) (group_idx : Z) (o : OrderedSpan) (st : Emission)
    (repeat : Z) : StatusOr Emission :=
  let? translated := translate t (o_span o) repeat in
  let emitted := wrap64 (emitted_chunks st + Z.of_nat (length translated)) in
  if kMaxLiveSegments <? emitted then
    Err kInvalidArgument StrCat["Byte-span plan exceeds the live-region expansion bound"]
  else
    Ok (mkEmission emitted
          (push_entries (o_unit o)
             (entry_of_chunk peer (src_block_of o) (dst_block_of t (o_span o)) group_idx <$> translated)
             (em_schedules st))
          (transfer_pairs st)).

Definition emit_span (t : TagPlan) (peer : string) (group_idx : Z) (st : Emission) (o : OrderedSpan) :
    StatusOr Emission :=
  let? st' := for_each (emit_repeat t peer group_idx o) (zrange 0 (count (o_span o))) st in
  Ok (mkEmission (emitted_chunks st') (em_schedules st')
        (<[o_unit o := {[ (peer, src_block_of o, dst_block_of t (o_span o)) ]}
                        ∪ default ∅ (transfer_pairs st' !! o_unit o)]> (transfer_pairs st'))).

Definition group_expected_pushes (requested_parallelism : Z)
    (pairs : gmap RaidenId (gset (string * Z * Z))) : Z :=
  wsum ((fun kv : RaidenId * gset (string * Z * Z) =>
           Z.min requested_parallelism (Z.of_nat (base.size kv.2))) <$> map_to_list pairs).

(** ** One tag *)

Record Planning : Type := mkPlanning {
  pl_emitted : Z;
  pl_schedules : gmap RaidenId (list ScheduleEntry);
  pl_groups : list PlanPoolGroup;
  union_selected : list Z;
  flat_extents : list Z
}.

(** The declarations of a tag in page-indexed form, and the clipped byte count. *)
Definition bind_declared req (registrations : gmap RaidenId RequestBlockRegistration) (t : TagPlan) :
    StatusOr (list (RaidenId * PoolSpanRegistration) * Z) :=
  let declared := declared_entries registrations (src_units req) (plan_tag t) in
  if bool_decide (declared = []) then
    Err kInvalidArgument
      StrCat["No byte-span declarations are registered for tag "; plan_tag t; ", req_id="; req_id req;
             ", uuid="; uuid req]
  else
    let? st := for_each (convert_entry (plan_tag t) (dst_live (precheck t)) (tag_skip t)) declared ([], (0, 0)) in
    let '(converted, (clipped, global_end)) := st in
    if (0 <? tag_skip t) && (global_end <=? tag_skip t) then
      Err kInvalidArgument
        (StrCat["dst_skip_bytes removes the entire tag "] ++ PyStrRepr (plan_tag t) ++
         StrCat[": skip="; tag_skip t; ", declared_extent="; global_end;
                "; a full local hit must not reach the planner"])
    else Ok (converted, clipped).

Definition peer_of (p : Prepared) : string := default EmptyString (WUD.q_shards (dst_meta p) !! 0%nat).

Definition plan_tag_group req (p : Prepared) (registrations : gmap RaidenId RequestBlockRegistration)
    (st : Planning) (it : Z * TagPlan) : StatusOr Planning :=
  let '(group_idx, t) := it in
  let? dc := bind_declared req registrations t in
  let '(declared, clipped) := dc in
  let? _ := for_each (fun _ => check_block_ranges p t declared) (selected (precheck t)) tt in
  let? extents := coverage_extents t declared clipped in
  let? em := for_each (emit_span t (peer_of p) group_idx) (ordered_spans declared)
               (mkEmission (pl_emitted st) (pl_schedules st) ∅) in
  let pushes := group_expected_pushes (requested_parallelism p) (transfer_pairs em) in
  if pushes <=? 0 then
    Err kInvalidArgument
      (StrCat["Pool reshard plan contains no source pushes for tag "] ++ PyStrRepr (plan_tag t))
  else
    let group := mkGroup (selected (precheck t)) (dst_ids_g t) (wrap32 pushes) extents
                   (if group_idx =? 0 then 0 else 1) in
    Ok (mkPlanning (emitted_chunks em) (em_schedules em) (pl_groups st ++ [group])
          (union_selected st ++ selected (precheck t)) (flat_extents st ++ extents)).

(** ** The plan *)

Definition count_skipped (p : Prepared) (chosen : list Z) : gmap string Z :=
  foldl (fun m i =>
           if bool_decide (i ∈ chosen) then m
           else let tag := p_tag (pool_at (dst_meta p) i) in <[tag := default 0 (m !! tag) + 1]> m)
    ∅ (zrange 0 (Z.of_nat (length (WUD.q_pools (dst_meta p))))).

Definition finish req (p : Prepared) (st : Planning) : StatusOr PoolReshardPlan :=
  if negb (bool_decide (NoDup (union_selected st))) then
    Err kInvalidArgument
      StrCat["Requested tags select overlapping pool indices; tags must partition their pools"]
  else
    let senders := filter (fun u => is_Some (pl_schedules st !! u)) ((ranks p).*2) in
    Ok (mkPlan senders (pre_dst_unit p) (pl_schedules st)
          (foldl (fun m meta => <[RaidenIdFromProto (WUD.q_unit meta) := WUD.q_control_plane_rpc_address meta]> m)
             ∅ (all_metadata p))
          (peer_of p) (uuid req) (req_id req)
          (Z.of_nat (length (dst_device_block_ids req)))
          (default 0 (expected_pushes <$> head (pl_groups st)))
          (union_selected st) (p_dtype_tag <$> WUD.q_pools (dst_meta p)) (dst_device_block_ids req)
          (foldl (fun m (iu : nat * RaidenId) => <[iu.2 := wrap32 (Z.of_nat iu.1)]> m) ∅
             (imap (fun i u => (i, u)) senders))
          (wrap32 (requested_parallelism p)) (Z.max (num_tokens req) 0)
          (count_skipped p (union_selected st)) (flat_extents st) (pl_groups st) false).

(** The plan from a prepared request and the claimed registrations. *)
Definition build req (p : Prepared) (registrations : gmap RaidenId RequestBlockRegistration) :
    StatusOr PoolReshardPlan :=
  let? st := for_each (plan_tag_group req p registrations)
               (zip (zrange 0 (Z.of_nat (length (tag_plans p)))) (tag_plans p))
               (mkPlanning 0 ∅ [] [] []) in
  finish req p st.

Definition BuildPoolReshardPlan (now : Z) req (registry : Registry.RequestBlockRegistry) (claim_owner : Z) :
    StatusOr PoolReshardPlan * Registry.RequestBlockRegistry :=
  match prepare req with
  | Err code msg => (Err code msg, registry)
  | Ok p =>
      match Registry.LookupAndClaim now registry (req_id req) (uuid req) (src_units req) claim_owner with
      | (Err code msg, registry') => (Err code msg, registry')
      | (Ok registrations, registry') => (build req p registrations, registry')
      end
  end.

(** ** Splitting at page boundaries *)

(** The (global destination byte, source byte) pairs a page-indexed span copies. *)
Definition span_pairs (live : Z) (s : PoolByteSpan) : list (Z * Z) :=
  (fun i => (dst_block_index s * live + dst_offset_bytes s + i, src_offset_bytes s + i))
    <$> zrange 0 (span_size_bytes s).

(** A plain span inside one destination page. *)
Definition in_page (live ordinal : Z) (s : PoolByteSpan) : Prop :=
  0 <= dst_offset_bytes s /\ 0 < span_size_bytes s /\ dst_offset_bytes s + span_size_bytes s <= live /\
  0 <= dst_block_index s /\ src_block_ordinal s = ordinal /\ count s = 1 /\
  src_stride_bytes s = 0 /\ dst_stride_bytes s = 0 /\ 0 <= src_offset_bytes s <= int64_max.

Lemma split_loop_spec fuel live ordinal r g src :
  0 < live <= int64_max -> 0 <= r -> 0 <= g -> 0 <= src -> g + r <= int64_max -> src + r <= int64_max ->
  (Z.to_nat r <= fuel)%nat ->
  exists l, split_loop fuel live ordinal r g src = Some l /\ Forall (in_page live ordinal) l /\
    (l ≫= span_pairs live) = (fun i => (g + i, src + i)) <$> zrange 0 r.
Proof.
  intros Hlive. revert r g src. induction fuel as [|fuel IH]; intros r g src Hr Hg Hsrc Hgr Hsr Hf;
    cbn [split_loop]; (destruct (0 <? r) eqn:E; to_prop;
      [|exists []; split; [done|]; split; [constructor|by rewrite zrange_empty by lia]]); [lia|].
  rewrite Z.quot_div_nonneg, Z.rem_mod_nonneg by lia.
  pose proof (Z.mod_pos_bound g live ltac:(lia)) as Hmod.
  pose proof (Z.div_mod g live ltac:(lia)) as Hdm.
  pose proof (Z.div_pos g live ltac:(lia) ltac:(lia)) as Hdiv.
  rewrite (wrap64_nonneg (live - _)) by lia. set (n := Z.min r (live - g mod live)).
  rewrite (wrap64_nonneg (r - n)), (wrap64_nonneg (g + n)), (wrap64_nonneg (src + n)) by lia.
  destruct (IH (r - n) (g + n) (src + n)) as (l & -> & Hall & Hpairs); [lia..|].
  eexists. split; [reflexivity|]. split.
  - constructor; [|done]. unfold in_page. simpl. lia.
  - rewrite bind_cons, Hpairs. unfold span_pairs at 1. cbn [dst_block_index dst_offset_bytes src_offset_bytes span_size_bytes].
    rewrite <-(zrange_app 0 n r), fmap_app by lia. f_equal.
    + apply list_fmap_ext. intros i x _. f_equal. lia.
    + replace (zrange n r) with (zrange (n + 0) (n + (r - n))) by (f_equal; lia).
      rewrite zrange_shift, <-list_fmap_compose. apply list_fmap_ext. intros i x _. simpl. f_equal; lia.
Qed.

(** The bytes of a span below the cut. *)
Definition clip_of (skip : Z) (span : PoolByteSpan) : Z :=
  Z.max 0 (Z.min (span_size_bytes span) (skip - dst_offset_bytes span)).

(** Page splitting.  A contiguous range of the request-global destination space is
    converted, for any page size and any cut, into page-indexed spans that each stay
    inside one page and together copy exactly the bytes above the cut, each once, in
    order, from the source bytes they were declared with; the loop terminates, and the
    bytes below the cut are accounted for as clipped. *)
Theorem planner_page_split unit live skip st span :
  0 < live <= int64_max -> 0 <= skip <= int64_max ->
  0 <= dst_offset_bytes span -> 0 <= src_offset_bytes span -> 0 < span_size_bytes span ->
  dst_offset_bytes span + span_size_bytes span <= int64_max ->
  src_offset_bytes span + span_size_bytes span <= int64_max ->
  0 <= tag_clipped_bytes st -> tag_clipped_bytes st + span_size_bytes span <= int64_max ->
  count span = 1 -> src_stride_bytes span = 0 -> dst_stride_bytes span = 0 -> dst_block_index span = 0 ->
  exists split,
    convert_span unit live skip st span =
      Ok (mkConverted (conv_spans st ++ split) (tag_clipped_bytes st + clip_of skip span)
            (Z.max (tag_global_end st) (dst_offset_bytes span + span_size_bytes span))) /\
    Forall (in_page live (src_block_ordinal span)) split /\
    (split ≫= span_pairs live) =
      (fun i => (dst_offset_bytes span + i - skip, src_offset_bytes span + i))
        <$> zrange (clip_of skip span) (span_size_bytes span).
Proof.
  intros Hlive Hskip Hd Hs Hn Hde Hse Hc Hce Hcount Hss Hds Hidx.
  unfold convert_span, clip_of. rewrite Hcount, Hss, Hds, Hidx. cbn [Z.ltb Z.eqb Z.compare negb orb].
  rewrite (wrap64_nonneg (_ + span_size_bytes span)) by lia. cbv zeta.
  destruct (_ <=? skip) eqn:E1; to_prop.
  { exists []. rewrite (wrap64_nonneg (_ + span_size_bytes span)), app_nil_r by lia.
    rewrite zrange_empty by lia. split; [|by split; [constructor|]]. f_equal. f_equal; lia. }
  set (clip := if dst_offset_bytes span <? skip then _ else 0).
  assert (Hclip : clip = Z.max 0 (Z.min (span_size_bytes span) (skip - dst_offset_bytes span))).
  { subst clip. destruct (_ <? skip) eqn:E2; to_prop; [rewrite wrap64_nonneg by lia|]; lia. }
  rewrite <-Hclip. clearbody clip.
  rewrite (wrap64_nonneg (_ - clip)), (wrap64_nonneg (dst_offset_bytes span + clip)),
    (wrap64_nonneg (_ + clip - skip)), (wrap64_nonneg (src_offset_bytes span + clip)),
    (wrap64_nonneg (_ + clip)) by lia.
  destruct (split_loop_spec (Z.to_nat (span_size_bytes span - clip)) live (src_block_ordinal span)
    (span_size_bytes span - clip) (dst_offset_bytes span + clip - skip) (src_offset_bytes span + clip))
    as (split & -> & Hall & Hpairs); [lia..|].
  exists split. split; [done|]. split; [done|]. rewrite Hpairs.
  replace (zrange clip _) with (zrange (clip + 0) (clip + (span_size_bytes span - clip))) by (f_equal; lia).
  rewrite zrange_shift, <-list_fmap_compose. apply list_fmap_ext. intros i x _. simpl. f_equal; lia.
Qed.

Lemma planner_page_split_witness :
  exists split,
    convert_span (mkRaidenId "p" "0" "kv" 0) 16 32 (mkConverted [] 0 0) (mkSpan 1 5 0 24 40 0 0 1) =
      Ok (mkConverted split 8 64) /\
    split = [mkSpan 1 13 0 0 16 0 0 1; mkSpan 1 29 1 0 16 0 0 1] /\
    (split ≫= span_pairs 16) = (fun i => (24 + i - 32, 5 + i)) <$> zrange 8 40.
Proof.
  destruct (planner_page_split (mkRaidenId "p" "0" "kv" 0) 16 32 (mkConverted [] 0 0)
    (mkSpan 1 5 0 24 40 0 0 1)) as (split & Hc & _ & Hp); [simpl; int64_unfold; lia..|reflexivity|reflexivity|reflexivity|reflexivity|].
  exists split. simpl app in Hc. split; [exact Hc|]. split; [|exact Hp].
  vm_compute in Hc. injection Hc as <-. reflexivity.
Defined.

(** ** Coverage *)

Definition interval_bytes (i : Z * Z) : list Z := zrange i.1 i.2.

(** A chain of non-empty intervals from [c] to [e] enumerates the bytes between them. *)
Lemma chain_bytes index ivs c e :
  for_each (chain_interval index) ivs c = Ok e -> Forall (fun i : Z * Z => i.1 < i.2) ivs ->
  c <= e /\ (ivs ≫= interval_bytes) = zrange c e.
Proof.
  intros H Hpos. revert c H. induction Hpos as [|[s t] ivs Hi _ IH]; intros c; cbn [for_each].
  { intros [= <-]. split; [lia|]. by rewrite zrange_empty. }
  unfold chain_interval at 1. cbn [fst snd] in *. destruct (s =? c) eqn:E; [|done]. cbn [negb]. to_prop. subst s.
  intros [Hle Hb]%IH. split; [lia|]. rewrite bind_cons, Hb. unfold interval_bytes. simpl.
  by rewrite zrange_app by lia.
Qed.

(** The destination intervals of the repeats of a span. *)
Definition span_intervals (span : PoolByteSpan) : list (Z * Z) :=
  (fun repeat => (repeat_start span repeat, wrap64 (repeat_start span repeat + span_size_bytes span)))
    <$> zrange 0 (count span).

(** The intervals of the spans of one destination block. *)
Definition block_intervals (all : list PoolByteSpan) (j : nat) : list (Z * Z) :=
  filter (fun s => Z.to_nat (dst_block_index s) = j) all ≫= span_intervals.

Lemma list_alter_alter {A} (f g : A -> A) (i : nat) (l : list A) : alter f i (alter g i l) = alter (f ∘ g) i l.
Proof. revert i. induction l as [|x l IH]; intros [|i]; simpl; [done..|]. f_equal. apply IH. Qed.

Lemma add_repeats span reps cov covered :
  (foldl (add_repeat span) (cov, covered) reps).1 =
  alter (fun l => l ++ ((fun repeat => (repeat_start span repeat, wrap64 (repeat_start span repeat + span_size_bytes span))) <$> reps))
    (Z.to_nat (dst_block_index span)) cov.
Proof.
  revert cov covered. induction reps as [|r reps IH]; intros cov covered; cbn [foldl].
  - symmetry. apply list_alter_id. intros. by rewrite app_nil_r.
  - rewrite (surjective_pairing (add_repeat span (cov, covered) r)), IH. cbn [add_repeat fst snd].
    rewrite list_alter_alter. apply list_alter_ext; [|done]. intros x _. simpl. by rewrite <-app_assoc.
Qed.

Lemma cover_span_spec t unit st span st' :
  cover_span t unit st span = Ok st' ->
  dst_block_index span < Z.of_nat (length (dst_ids_g t)) /\
  coverage st' = alter (fun l => l ++ span_intervals span) (Z.to_nat (dst_block_index span)) (coverage st).
Proof.
  intros H. unfold cover_span in H. guards H. to_prop. split; [done|].
  pose proof (add_repeats span (zrange 0 (count span)) (coverage st) (covered_total st)) as Hr.
  destruct (foldl (add_repeat span) _ _) as [cov covered]. injection H as <-. exact Hr.
Qed.

(** [alter] by appending, one span after the other, collects the intervals per block. *)
Lemma cover_spans_spec t unit sps st st' all :
  (forall j l, coverage st !! j = Some l -> l = block_intervals all j) ->
  for_each (cover_span t unit) sps st = Ok st' ->
  Forall (fun s => dst_block_index s < Z.of_nat (length (dst_ids_g t))) sps /\
  length (coverage st') = length (coverage st) /\
  forall j l, coverage st' !! j = Some l -> l = block_intervals (all ++ sps) j.
Proof.
  revert st all. induction sps as [|s sps IH]; intros st all Hall; cbn [for_each].
  { intros [= <-]. rewrite app_nil_r. done. }
  destruct (cover_span t unit st s) as [st1|] eqn:Hs; [|done].
  apply cover_span_spec in Hs as [Hidx Hcov]. intros H.
  apply (IH st1 (all ++ [s])) in H as (Hf & Hlen & Hl).
  - split; [by constructor|]. split; [by rewrite Hlen, Hcov, length_alter|].
    intros j l Hj. rewrite (Hl j l Hj). by rewrite <-app_assoc.
  - intros j l. rewrite Hcov. unfold block_intervals. rewrite filter_app, bind_app, filter_cons, filter_nil.
    destruct (decide (Z.to_nat (dst_block_index s) = j)) as [<-|Hne].
    + rewrite list_lookup_alter_eq. destruct (coverage st !! _) as [l'|] eqn:E; [|done]. intros [= <-].
      rewrite (Hall _ _ E). simpl. by rewrite app_nil_r.
    + rewrite list_lookup_alter_ne by done. intros Hj. rewrite (Hall _ _ Hj). simpl. by rewrite app_nil_r.
Qed.

Definition all_spans (declared : list (RaidenId * PoolSpanRegistration)) : list PoolByteSpan :=
  declared ≫= fun d => spans d.2.

Lemma cover_entries_spec t declared st st' all :
  (forall j l, coverage st !! j = Some l -> l = block_intervals all j) ->
  for_each (cover_entry t) declared st = Ok st' ->
  Forall (fun s => dst_block_index s < Z.of_nat (length (dst_ids_g t))) (all_spans declared) /\
  length (coverage st') = length (coverage st) /\
  forall j l, coverage st' !! j = Some l -> l = block_intervals (all ++ all_spans declared) j.
Proof.
  revert st all. induction declared as [|d declared IH]; intros st all Hall; cbn [for_each].
  { intros [= <-]. rewrite app_nil_r. done. }
  destruct (cover_entry t st d) as [st1|] eqn:Hs; [|done]. unfold cover_entry in Hs.
  apply (cover_spans_spec t d.1 _ _ _ all) in Hs as (Hf1 & Hlen1 & Hl1); [|done]. intros H.
  apply (IH st1 (all ++ spans d.2)) in H as (Hf & Hlen & Hl); [|done].
  unfold all_spans. rewrite bind_cons. split; [by apply Forall_app|].
  split; [congruence|]. intros j l Hj. rewrite (Hl j l Hj). by rewrite <-app_assoc.
Qed.

(** The blocks loop: one extent per block, the end of its chain. *)
Lemma block_extents_spec t blocks acc res :
  for_each (block_extent t) blocks acc = Ok res ->
  exists es, res = acc ++ es /\
    Forall2 (fun (b : Z * list (Z * Z)) e =>
      b.2 ≠ [] /\ for_each (chain_interval b.1) (sort_by pair_ltb b.2) 0 = Ok e /\
      (b.1 ≠ Z.of_nat (length (dst_ids_g t)) - 1 -> e = dst_live (precheck t))) blocks es.
Proof.
  revert acc. induction blocks as [|[j ivs] blocks IH]; intros acc; cbn [for_each].
  { intros [= <-]. exists []. by rewrite app_nil_r. }
  destruct (block_extent t acc (j, ivs)) as [acc'|] eqn:Hb; [|done]. unfold block_extent in Hb.
  step_guard Hb. step_guard Hb. destruct (_ && _) eqn:Hfin; [done|]. injection Hb as <-.
  intros (es & -> & Hes)%IH. exists (a :: es). split; [by rewrite <-app_assoc|]. constructor; [|done].
  simpl. to_prop. split; [|split; [done|naive_solver lia]].
  intros ->. by apply Hguard.
Qed.

(** ** Emission *)

(** The entries in the order they were pushed, each with the unit it was pushed for. *)
Abbreviation Trace := (list (RaidenId * ScheduleEntry)).

Definition traces_to (trace : Trace) (before after : gmap RaidenId (list ScheduleEntry)) : Prop :=
  forall u, default [] (after !! u) = default [] (before !! u) ++ (filter (fun x => x.1 = u) trace).*2.

Lemma traces_to_app tr1 tr2 m1 m2 m3 :
  traces_to tr1 m1 m2 -> traces_to tr2 m2 m3 -> traces_to (tr1 ++ tr2) m1 m3.
Proof. intros H1 H2 u. by rewrite H2, H1, filter_app, fmap_app, <-app_assoc. Qed.

Lemma push_entries_trace unit entries m : traces_to (pair unit <$> entries) m (push_entries unit entries m).
Proof.
  intros u. unfold push_entries. case_bool_decide as He; [by subst; rewrite app_nil_r|].
  destruct (decide (unit = u)) as [->|Hne].
  - rewrite lookup_insert_eq. simpl. f_equal. clear He.
    induction entries as [|e l IH]; [done|]. rewrite fmap_cons, filter_cons_True by done. simpl. by f_equal.
  - rewrite lookup_insert_ne by done. clear He.
    induction entries as [|e l IH]; [by rewrite app_nil_r|]. rewrite fmap_cons, filter_cons_False by done. done.
Qed.

(** One byte copy: the unit that sends it, the source block and byte, the destination
    block and byte. *)
Abbreviation ByteCopy := (RaidenId * (Z * Z) * (Z * Z))%type.

(** The copies an entry asks its unit for. *)
Definition entry_copies (x : RaidenId * ScheduleEntry) : list ByteCopy :=
  let e := x.2 in
  zrange 0 (e_count e) ≫= fun r =>
    (fun i => (x.1, (src_block_id e, e_src_offset_bytes e + r * e_src_stride_bytes e + i),
               (dst_block_id e, e_dst_offset_bytes e + r * e_dst_stride_bytes e + i)))
      <$> zrange 0 (e_size_bytes e).

(** The physical offset of live byte [l] of a block. *)
Definition byte_at (segments : list PoolLiveSegment) (l : Z) : Z :=
  default 0 (live_list segments !! Z.to_nat l).

Definition repeat_src (span : PoolByteSpan) (repeat : Z) : Z :=
  wrap64 (src_offset_bytes span + wrap64 (repeat * src_stride_bytes span)).

(** The copies one repeat of a declared span asks for. *)
Definition repeat_copies (t : TagPlan) (o : OrderedSpan) (repeat : Z) : list ByteCopy :=
  (fun i => (o_unit o,
             (src_block_of o, byte_at (src_segments (precheck t)) (repeat_src (o_span o) repeat + i)),
             (dst_block_of t (o_span o), byte_at (dst_segments (precheck t)) (repeat_start (o_span o) repeat + i))))
    <$> zrange 0 (span_size_bytes (o_span o)).
Definition span_copies (t : TagPlan) (o : OrderedSpan) : list ByteCopy :=
  zrange 0 (count (o_span o)) ≫= repeat_copies t o.

(** A repeat stays inside the live bytes of both blocks. *)
Definition live_size (segments : list PoolLiveSegment) : Z := Z.of_nat (length (live_list segments)).
Definition repeat_in_live (t : TagPlan) (span : PoolByteSpan) (repeat : Z) : Prop :=
  0 < span_size_bytes span /\
  0 <= repeat_src span repeat /\ repeat_src span repeat + span_size_bytes span <= live_size (src_segments (precheck t)) /\
  0 <= repeat_start span repeat /\
  repeat_start span repeat + span_size_bytes span <= live_size (dst_segments (precheck t)).

Definition tag_segs_ok (t : TagPlan) : Prop :=
  segs_ok 0 (src_segments (precheck t)) /\ segs_ok 0 (dst_segments (precheck t)).

(** A translation that succeeds copies the live bytes of the repeat. *)
Lemma copies_pairs src dst so d n chunks :
  copies src dst so d n chunks -> 0 <= so -> 0 <= d -> 0 < n ->
  chunk_pairs chunks = (fun i => (byte_at src (so + i), byte_at dst (d + i))) <$> zrange 0 n /\
  so + n <= live_size src /\ d + n <= live_size dst.
Proof.
  intros [Hlen Hc] Hso Hd Hn. split.
  - apply list_eq. intros k. rewrite list_lookup_fmap. destruct (decide (Z.of_nat k < n)) as [Hk|Hk].
    + destruct (Hc (Z.of_nat k)) as (p & q & Hpq & Hp & Hq); [lia|].
      rewrite <-(Nat2Z.id k) at 2. rewrite zrange_lookup, Z.add_0_l by lia. rewrite Nat2Z.id in Hpq.
      rewrite Hpq. simpl. unfold byte_at. by rewrite Hp, Hq.
    + rewrite !lookup_ge_None_2; [done|rewrite length_zrange; lia|lia].
  - destruct (Hc (n - 1)) as (p & q & _ & Hp%lookup_lt_Some & Hq%lookup_lt_Some); [lia|].
    unfold live_size. lia.
Qed.

Lemma translate_spec t span repeat chunks :
  tag_segs_ok t -> span_size_bytes span <= int64_max -> translate t span repeat = Ok chunks ->
  repeat_in_live t span repeat /\
  chunk_pairs chunks =
    (fun i => (byte_at (src_segments (precheck t)) (repeat_src span repeat + i),
               byte_at (dst_segments (precheck t)) (repeat_start span repeat + i)))
      <$> zrange 0 (span_size_bytes span).
Proof.
  intros [Hs Hd] Hn H. unfold translate in H. fold (repeat_src span repeat) in H.
  assert (0 <= repeat_src span repeat /\ 0 <= repeat_start span repeat /\ 0 < span_size_bytes span) as (H1 & H2 & H3).
  { unfold TranslateLiveCopy in H. destruct (_ || _ || _) eqn:E in H; [done|]. to_prop. lia. }
  pose proof (wrap64_range (src_offset_bytes span + wrap64 (repeat * src_stride_bytes span))) as [_ R1].
  pose proof (wrap64_range (dst_offset_bytes span + wrap64 (repeat * dst_stride_bytes span))) as [_ R2].
  destruct (translate_live_copy_spec (src_segments (precheck t)) (dst_segments (precheck t))
    (repeat_src span repeat) (repeat_start span repeat) (span_size_bytes span)) as (res & Hres & Hspec); [done..|].
  rewrite Hres in H. subst res. destruct Hspec as [Hc _].
  apply copies_pairs in Hc as (Hp & ? & ?); [|done..]. done.
Qed.

Lemma entries_copies unit peer src_block dst_block g chunks :
  ((pair unit <$> (entry_of_chunk peer src_block dst_block g <$> chunks)) ≫= entry_copies) =
  (fun pq => (unit, (src_block, pq.1), (dst_block, pq.2))) <$> chunk_pairs chunks.
Proof.
  induction chunks as [|c chunks IH]; [done|]. rewrite !fmap_cons, bind_cons, IH.
  unfold chunk_pairs. rewrite bind_cons, fmap_app. f_equal.
  unfold entry_copies, entry_of_chunk. simpl. rewrite app_nil_r, <-list_fmap_compose.
  apply list_fmap_ext. intros i x _. simpl. do 3 f_equal; lia.
Qed.

(** What every entry of a group carries: it is pushed for a requested source unit. *)
Definition group_entry (units : list RaidenId) (peer : string) (g : Z) (x : RaidenId * ScheduleEntry) : Prop :=
  x.1 ∈ units /\ dst_peer x.2 = peer /\ pool_group x.2 = wrap32 g.

Lemma emit_repeat_spec units t peer g o st repeat st' :
  tag_segs_ok t -> o_unit o ∈ units -> span_size_bytes (o_span o) <= int64_max -> emit_repeat t peer g o st repeat = Ok st' ->
  exists tr, traces_to tr (em_schedules st) (em_schedules st') /\
    repeat_in_live t (o_span o) repeat /\ Forall (group_entry units peer g) tr /\
    (tr ≫= entry_copies) = repeat_copies t o repeat.
Proof.
  intros Ht Hu Hn H. unfold emit_repeat in H. guards H. injection H as <-. cbn [em_schedules].
  apply translate_spec in Hcall as [Hin Hpairs]; [|done..].
  eexists. split; [apply push_entries_trace|]. split; [done|]. split.
  - rewrite !Forall_fmap. apply Forall_forall. by repeat split.
  - rewrite entries_copies, Hpairs. unfold repeat_copies. by rewrite <-list_fmap_compose.
Qed.

(** A loop whose iterations push entries pushes the concatenation of what its elements
    ask for. *)
Lemma for_each_trace {A S} (body : S -> A -> StatusOr S) (M : S -> gmap RaidenId (list ScheduleEntry))
    (Q : A -> Prop) (P : RaidenId * ScheduleEntry -> Prop) (f : A -> list ByteCopy) l s r :
  (forall st x st', x ∈ l -> body st x = Ok st' ->
     exists tr, traces_to tr (M st) (M st') /\ Q x /\ Forall P tr /\ (tr ≫= entry_copies) = f x) ->
  for_each body l s = Ok r ->
  exists tr, traces_to tr (M s) (M r) /\ Forall Q l /\ Forall P tr /\ (tr ≫= entry_copies) = l ≫= f.
Proof.
  revert s. induction l as [|x l IH]; intros s Hbody; cbn [for_each].
  { intros [= <-]. exists []. split; [|done]. intros u. by rewrite app_nil_r. }
  destruct (body s x) as [s'|] eqn:Hb; [|done]. intros Hr.
  destruct (Hbody s x s') as (tr & Htr & HQ & HP & Hf); [by left|done|].
  destruct (IH s') as (trs & Htrs & HQs & HPs & Hfs); [|done|].
  { intros st y st' Hy. apply Hbody. by right. }
  exists (tr ++ trs). split; [by eapply traces_to_app|]. split; [by constructor|].
  split; [by apply Forall_app|]. by rewrite bind_app, bind_cons, Hf, Hfs.
Qed.

Lemma emit_span_spec units t peer g st o st' :
  tag_segs_ok t -> o_unit o ∈ units -> span_size_bytes (o_span o) <= int64_max -> emit_span t peer g st o = Ok st' ->
  exists tr, traces_to tr (em_schedules st) (em_schedules st') /\
    Forall (repeat_in_live t (o_span o)) (zrange 0 (count (o_span o))) /\ Forall (group_entry units peer g) tr /\
    (tr ≫= entry_copies) = span_copies t o.
Proof.
  intros Ht Hu Hn H. unfold emit_span in H. guards H. injection H as <-. cbn [em_schedules].
  eapply (for_each_trace _ em_schedules) in Hcall; [exact Hcall|].
  intros st1 x st2 _. by apply emit_repeat_spec.
Qed.

(** Every repeat of every span is inside the live bytes. *)
Definition span_in_live (t : TagPlan) (span : PoolByteSpan) : Prop :=
  Forall (repeat_in_live t span) (zrange 0 (count span)).

Lemma emit_spans_spec units t peer g os st st' :
  tag_segs_ok t -> Forall (fun o => o_unit o ∈ units) os ->
  Forall (fun o => span_size_bytes (o_span o) <= int64_max) os ->
  for_each (emit_span t peer g) os st = Ok st' ->
  exists tr, traces_to tr (em_schedules st) (em_schedules st') /\
    Forall (fun o => span_in_live t (o_span o)) os /\ Forall (group_entry units peer g) tr /\
    (tr ≫= entry_copies) = os ≫= span_copies t.
Proof.
  intros Ht Hu Hn. apply (for_each_trace _ em_schedules).
  intros st1 o st2 Ho. rewrite Forall_forall in Hu. rewrite Forall_forall in Hn. apply emit_span_spec; auto.
Qed.

(** ** Exactness of the destination *)


(** Grouping the elements of a list by a bounded key. *)
Lemma group_by_key {A B} (key : A -> nat) (f : A -> list B) n l :
  Forall (fun x => (key x < n)%nat) l ->
  (l ≫= f) ≡ₚ seq 0 n ≫= fun j => filter (fun x => key x = j) l ≫= f.
Proof.
  induction 1 as [|x l Hx _ IH].
  { induction (seq 0 n) as [|j js IHj]; [done|]. by rewrite bind_cons. }
  rewrite bind_cons, IH. pose proof (bind_unique (key x) (seq 0 n) (f x) (NoDup_seq _ _)) as Hu.
  rewrite decide_True in Hu by (apply elem_of_seq; lia). rewrite <-Hu at 1.
  rewrite <-bind_app_perm. apply eq_perm, bind_ext_Forall, Forall_forall. intros j _. rewrite filter_cons. by destruct (decide (key x = j)).
Qed.

Lemma bind_seq_perm {A B} (F : nat -> list B) (G : A -> list B) l n :
  length l = n -> (forall j x, l !! j = Some x -> F j ≡ₚ G x) -> (seq 0 n ≫= F) ≡ₚ l ≫= G.
Proof.
  intros <-. enough (Hgen : forall k, (forall j x, l !! j = Some x -> F (k + j)%nat ≡ₚ G x) ->
    (seq k (length l) ≫= F) ≡ₚ l ≫= G) by apply (Hgen 0%nat).
  induction l as [|x l IH]; intros k H; [done|]. cbn [length seq]. rewrite !bind_cons. f_equiv.
  - specialize (H 0%nat x eq_refl). by rewrite Nat.add_0_r in H.
  - apply IH. intros j y Hj. specialize (H (S j) y Hj). by rewrite Nat.add_succ_r in H.
Qed.


(** The destination bytes a span writes, interval by interval. *)
Definition interval_writes (L : list PoolLiveSegment) (id : Z) (i : Z * Z) : list (Z * Z) :=
  (fun l => (id, byte_at L l)) <$> interval_bytes i.

Lemma interval_writes_bind L id ivs :
  (ivs ≫= interval_writes L id) = (fun l => (id, byte_at L l)) <$> (ivs ≫= interval_bytes).
Proof. induction ivs as [|i ivs IH]; [done|]. by rewrite !bind_cons, fmap_app, IH. Qed.

Lemma byte_at_take L e :
  e <= live_size L -> byte_at L <$> zrange 0 e = take (Z.to_nat e) (live_list L).
Proof.
  intros He. apply list_eq. intros k. rewrite list_lookup_fmap. destruct (decide (Z.of_nat k < e)) as [Hk|Hk].
  - rewrite <-(Nat2Z.id k) at 1. rewrite zrange_lookup by lia. rewrite lookup_take_lt by lia. simpl.
    unfold byte_at, live_size in *. rewrite Z.add_0_l, Nat2Z.id.
    destruct (lookup_lt_is_Some_2 (live_list L) k ltac:(lia)) as [x ->]. done.
  - rewrite !lookup_ge_None_2; [done|rewrite length_take; lia|rewrite length_zrange; lia].
Qed.

Lemma repeat_end t span r :
  tag_segs_ok t -> repeat_in_live t span r ->
  wrap64 (repeat_start span r + span_size_bytes span) = repeat_start span r + span_size_bytes span.
Proof.
  intros [_ Hd%segs_ok_length] (H1 & _ & _ & H2 & H3). unfold live_size in H3. apply wrap64_nonneg. lia.
Qed.

Lemma span_intervals_in_live t span :
  tag_segs_ok t -> span_in_live t span ->
  Forall (fun i : Z * Z => i.1 < i.2 <= live_size (dst_segments (precheck t))) (span_intervals span).
Proof.
  intros Ht Hs. unfold span_intervals. rewrite Forall_fmap. eapply Forall_impl; [exact Hs|].
  intros r Hr. simpl. rewrite (repeat_end t) by done. destruct Hr. lia.
Qed.


Lemma span_copies_dst t o :
  tag_segs_ok t -> span_in_live t (o_span o) ->
  (span_copies t o).*2 =
  span_intervals (o_span o) ≫= interval_writes (dst_segments (precheck t)) (dst_block_of t (o_span o)).
Proof.
  intros Ht Hs. unfold span_copies, span_intervals. rewrite fmap_bind_list, bind_fmap_list.
  apply bind_ext_Forall. eapply Forall_impl; [exact Hs|]. intros r Hr.
  unfold interval_writes, interval_bytes. simpl. rewrite (repeat_end t) by done.
  set (a := repeat_start _ _). set (n := span_size_bytes _).
  replace (zrange a (a + n)) with (zrange (a + 0) (a + n)) by (f_equal; lia).
  rewrite zrange_shift. unfold repeat_copies. rewrite <-!list_fmap_compose. done.
Qed.

(** The order of emission does not matter for what is written. *)
Lemma ordered_spans_perm declared :
  o_span <$> ordered_spans declared ≡ₚ all_spans declared.
Proof.
  unfold ordered_spans, all_spans. rewrite sort_by_perm, fmap_bind_list.
  apply eq_perm, bind_ext_Forall, Forall_forall. intros d _.
  rewrite <-list_fmap_compose. apply list_fmap_id.
Qed.

(** The intervals of one block, when its chain is complete, write the first [e] live
    bytes of the block. *)
Lemma block_writes t ivs index e id (L := dst_segments (precheck t)) :
  Forall (fun i : Z * Z => i.1 < i.2 <= live_size L) ivs -> ivs ≠ [] ->
  for_each (chain_interval index) (sort_by pair_ltb ivs) 0 = Ok e ->
  0 < e <= live_size L /\ (ivs ≫= interval_writes L id) ≡ₚ pair id <$> take (Z.to_nat e) (live_list L).
Proof.
  intros Hivs Hne Hchain.
  apply chain_bytes in Hchain as [H0 Hbytes].
  2:{ rewrite sort_by_perm. eapply Forall_impl; [exact Hivs|]. simpl. lia. }
  assert (Hp : (ivs ≫= interval_bytes) ≡ₚ zrange 0 e) by (rewrite <-Hbytes; by rewrite sort_by_perm).
  assert (He : 0 < e <= live_size L).
  { destruct ivs as [|[a b] ivs]; [done|]. apply Forall_cons in Hivs as [Hab Hrest]. simpl in Hab.
    assert (Hin : forall x, x ∈ zrange 0 e <-> x ∈ (((a, b) :: ivs) ≫= interval_bytes)) by (intros x; by rewrite Hp).
    assert (a ∈ zrange 0 e) as Ha.
    { apply Hin. rewrite bind_cons. apply elem_of_app. left. apply elem_of_zrange. simpl. lia. }
    apply elem_of_zrange in Ha. split; [lia|].
    assert (e - 1 ∈ (((a, b) :: ivs) ≫= interval_bytes)) as He by (apply Hin, elem_of_zrange; lia).
    apply list_elem_of_bind in He as ([c d] & Hcd & Hi). apply elem_of_zrange in Hcd. simpl in Hcd.
    apply elem_of_cons in Hi as [[= -> ->]|Hi]; [lia|].
    rewrite Forall_forall in Hrest. specialize (Hrest _ Hi). simpl in Hrest. lia. }
  split; [done|]. rewrite interval_writes_bind, Hp, <-byte_at_take by lia.
  by rewrite <-list_fmap_compose.
Qed.

Definition extent_writes (L : list PoolLiveSegment) (x : Z * Z) : list (Z * Z) :=
  pair x.1 <$> take (Z.to_nat x.2) (live_list L).

(** The covered extents of a tag's destination blocks. *)
Record extents_ok (t : TagPlan) (extents : list Z) : Prop := {
  xo_length : length extents = length (dst_ids_g t);
  xo_range : Forall (fun e => 0 < e <= live_size (dst_segments (precheck t))) extents;
  xo_full j e : extents !! j = Some e -> (S j < length (dst_ids_g t))%nat -> e = dst_live (precheck t)
}.

Definition span_writes (t : TagPlan) (span : PoolByteSpan) : list (Z * Z) :=
  span_intervals span ≫= interval_writes (dst_segments (precheck t)) (dst_block_of t span).

(** The intervals the coverage pass collects and the extents it computes from them. *)
Lemma coverage_extents_blocks t declared clipped extents :
  coverage_extents t declared clipped = Ok extents ->
  Forall (fun s => dst_block_index s < Z.of_nat (length (dst_ids_g t))) (all_spans declared) /\
  length extents = length (dst_ids_g t) /\
  forall j e, extents !! j = Some e ->
    block_intervals (all_spans declared) j ≠ [] /\
    for_each (chain_interval (Z.of_nat j)) (sort_by pair_ltb (block_intervals (all_spans declared) j)) 0 = Ok e /\
    ((S j < length (dst_ids_g t))%nat -> e = dst_live (precheck t)).
Proof.
  intros H. unfold coverage_extents in H. guards H. injection H as <-.
  apply (cover_entries_spec t declared _ _ []) in Hcall as (Hidx & Hlen & Hcov).
  2:{ intros j l. simpl. intros [-> _]%lookup_replicate. done. }
  simpl in Hlen, Hcov. rewrite length_replicate in Hlen.
  apply block_extents_spec in Hcall0 as (es & -> & Hes). simpl. split; [done|].
  pose proof (Forall2_length _ _ _ Hes) as Hl. rewrite length_zip, length_zrange in Hl.
  split; [lia|]. intros j e Hj.
  destruct (Forall2_lookup_r _ _ _ _ _ Hes Hj) as ([i ivs] & Hz & Hne & Hchain & Hfull). simpl in *.
  apply lookup_zip_Some in Hz as [Hi Hivs]. rewrite <-(Nat2Z.id j) in Hi.
  rewrite zrange_lookup in Hi by (apply lookup_lt_Some in Hj; lia). injection Hi as <-.
  rewrite (Hcov _ _ Hivs) in Hne, Hchain. rewrite Z.add_0_l in Hchain. split; [done|]. split; [done|].
  intros. apply Hfull. lia.
Qed.

Lemma coverage_exact t declared clipped extents :
  tag_segs_ok t -> Forall (fun s => 0 <= dst_block_index s) (all_spans declared) ->
  Forall (span_in_live t) (all_spans declared) ->
  coverage_extents t declared clipped = Ok extents ->
  extents_ok t extents /\
  (all_spans declared ≫= span_writes t) ≡ₚ
    zip (dst_ids_g t) extents ≫= extent_writes (dst_segments (precheck t)).
Proof.
  intros Ht Hpos Hlive (Hidx & Hlen & Hblocks)%coverage_extents_blocks. set (L := dst_segments (precheck t)).
  assert (Hw : forall j e id, extents !! j = Some e -> 0 < e <= live_size L /\
    (block_intervals (all_spans declared) j ≫= interval_writes L id) ≡ₚ extent_writes L (id, e)).
  { intros j e id Hj. destruct (Hblocks j e Hj) as (Hne & Hchain & _).
    apply (block_writes t _ _ _ id) in Hchain; [exact Hchain| |done].
    unfold block_intervals. apply Forall_bind, Forall_forall. intros s [_ Hs]%list_elem_of_filter.
    rewrite Forall_forall in Hlive. apply span_intervals_in_live; auto. }
  split; [split; [done| |]|].
  - apply Forall_lookup. intros j e Hj. by destruct (Hw j e 0 Hj).
  - intros j e Hj. by destruct (Hblocks j e Hj) as (_ & _ & ?).
  - rewrite (group_by_key (fun s => Z.to_nat (dst_block_index s)) _ (length (dst_ids_g t))).
    2:{ eapply Forall_impl; [apply Forall_and; split; [exact Hpos|exact Hidx]|]. simpl. intros s [? ?]. lia. }
    apply bind_seq_perm; [rewrite length_zip; lia|]. intros j [id e] [Hid He]%lookup_zip_Some. simpl in Hid, He.
    destruct (Hw j e id He) as [_ Hperm]. etransitivity; [|exact Hperm]. apply eq_perm.
    unfold block_intervals. rewrite bind_bind_list. apply bind_ext_Forall, Forall_forall. intros s [Hs _]%list_elem_of_filter.
    unfold span_writes, dst_block_of. by rewrite Hs, Hid.
Qed.

(** ** One tag *)

(** A declaration whose contiguous range stays in 64 bits. *)
Definition declared_ok (s : PoolByteSpan) : Prop :=
  0 <= dst_block_index s /\ 0 <= dst_offset_bytes s /\ 0 <= src_offset_bytes s /\ 0 < span_size_bytes s /\
  dst_offset_bytes s + span_size_bytes s <= int64_max /\ src_offset_bytes s + span_size_bytes s <= int64_max.
Definition registrations_ok (registrations : gmap RaidenId RequestBlockRegistration) : Prop :=
  forall u reg entry, registrations !! u = Some reg -> entry ∈ pool_spans reg -> Forall declared_ok (spans entry).

(** What the planning loop relies on in a declared span. *)
Definition span_wf (s : PoolByteSpan) : Prop := 0 <= dst_block_index s /\ span_size_bytes s <= int64_max.

(** What the checks before the claim establish of a tag. *)
Record tag_ok (t : TagPlan) : Prop := {
  to_segs : tag_segs_ok t;
  to_unique : NoDup (live_list (dst_segments (precheck t)));
  to_ids : NoDup (dst_ids_g t);
  to_src_live : src_live (precheck t) = live_size (src_segments (precheck t));
  to_dst_live : dst_live (precheck t) = live_size (dst_segments (precheck t));
  to_live_pos : 0 < dst_live (precheck t);
  to_skip : 0 <= tag_skip t <= int64_max
}.

Lemma tag_ok_live t : tag_ok t -> 0 < dst_live (precheck t) <= int64_max.
Proof.
  intros [[_ Hd%segs_ok_length] _ _ _ Hl Hp _]. split; [done|]. rewrite Hl. unfold live_size. lia.
Qed.

(** A span that is converted is a plain range, and the page-indexed spans it becomes copy
    its bytes from the cut on. *)
Lemma convert_span_pairs unit live skip st span st' :
  0 < live <= int64_max -> 0 <= skip <= int64_max -> declared_ok span ->
  convert_span unit live skip st span = Ok st' ->
  exists split, conv_spans st' = conv_spans st ++ split /\ Forall (in_page live (src_block_ordinal span)) split /\
    (split ≫= span_pairs live) = (fun i => (dst_offset_bytes span + i - skip, src_offset_bytes span + i))
        <$> zrange (clip_of skip span) (span_size_bytes span).
Proof.
  intros Hlive Hskip (Hi & Hd & Hs & Hn & Hde & Hse) H. unfold convert_span in H.
  step_guard H. step_guard H. cbv zeta in H. rewrite (wrap64_nonneg (_ + span_size_bytes span)) in H by lia.
  destruct (_ <=? skip) eqn:E1 in H; to_prop.
  { injection H as <-. exists []. rewrite app_nil_r. split; [done|]. split; [constructor|]. unfold clip_of. by rewrite zrange_empty by lia. }
  set (clip := if dst_offset_bytes span <? skip then _ else 0) in H.
  assert (Hclip : clip = clip_of skip span).
  { unfold clip, clip_of. destruct (_ <? skip) eqn:E2; to_prop; [rewrite wrap64_nonneg by lia|]; lia. }
  assert (Hrange : 0 <= clip < span_size_bytes span /\ skip <= dst_offset_bytes span + clip) by (rewrite Hclip; unfold clip_of; lia).
  rewrite <-Hclip. clearbody clip. destruct Hrange as [Hrange Hge].
  rewrite (wrap64_nonneg (span_size_bytes span - clip)), (wrap64_nonneg (dst_offset_bytes span + clip)),
    (wrap64_nonneg (_ + clip - skip)), (wrap64_nonneg (src_offset_bytes span + clip)) in H by lia.
  destruct (split_loop_spec (Z.to_nat (span_size_bytes span - clip)) live (src_block_ordinal span)
    (span_size_bytes span - clip) (dst_offset_bytes span + clip - skip) (src_offset_bytes span + clip))
    as (split & Hsplit & Hall & Hpairs); [lia..|].
  rewrite Hsplit in H. injection H as <-. exists split. split; [done|]. split; [done|]. rewrite Hpairs.
  replace (zrange clip _) with (zrange (clip + 0) (clip + (span_size_bytes span - clip))) by (f_equal; lia).
  rewrite zrange_shift, <-list_fmap_compose. apply list_fmap_ext. intros i x _. simpl. f_equal; lia.
Qed.

Lemma convert_span_wf unit live skip st span st' :
  0 < live <= int64_max -> 0 <= skip <= int64_max -> declared_ok span -> Forall span_wf (conv_spans st) ->
  convert_span unit live skip st span = Ok st' -> Forall span_wf (conv_spans st').
Proof.
  intros Hlive Hskip Hd Hst H. destruct (convert_span_pairs _ _ _ _ _ _ Hlive Hskip Hd H) as (split & -> & Hall & _).
  apply Forall_app. split; [done|]. eapply Forall_impl; [exact Hall|]. intros s (? & ? & ? & ? & _). split; lia.
Qed.

Lemma convert_entry_wf tag live skip st d st' :
  0 < live <= int64_max -> 0 <= skip <= int64_max -> Forall declared_ok (spans d.2) ->
  Forall span_wf (all_spans st.1) -> convert_entry tag live skip st d = Ok st' -> Forall span_wf (all_spans st'.1).
Proof.
  intros Hlive Hskip Hd Hst H. destruct st as [converted [clipped global_end]], d as [unit entry].
  unfold convert_entry in H. simpl in Hd, Hst.
  destruct (_ =? 0).
  - step_guard H. injection H as <-. unfold all_spans. simpl. rewrite bind_app. apply Forall_app. split; [done|].
    simpl. rewrite app_nil_r. eapply Forall_impl; [exact Hd|]. intros s (? & ? & ? & ? & ? & ?). split; lia.
  - step_guard H. injection H as <-. unfold all_spans. simpl. rewrite bind_app. apply Forall_app. split; [done|].
    simpl. rewrite app_nil_r.
    eapply (for_each_ind _ (fun _ c => Forall span_wf (conv_spans c))) in Hcall; [exact Hcall|constructor|].
    intros done_ s rest c c' Hl Hc. rewrite Hl in Hd. apply Forall_app in Hd as [_ [Hs _]%Forall_cons].
    by apply convert_span_wf.
Qed.

Lemma declared_entries_ok registrations units tag d :
  registrations_ok registrations -> d ∈ declared_entries registrations units tag -> Forall declared_ok (spans d.2).
Proof.
  intros Hregs Hin. unfold declared_entries in Hin. apply list_elem_of_bind in Hin as (u & Hin & _).
  apply list_elem_of_fmap in Hin as (entry & -> & [_ Hin]%list_elem_of_filter). simpl.
  destruct (registrations !! u) as [reg|] eqn:Hu; simpl in Hin; [by eapply Hregs|by apply elem_of_nil in Hin].
Qed.

Lemma bind_declared_wf req registrations t declared clipped :
  tag_ok t -> registrations_ok registrations -> bind_declared req registrations t = Ok (declared, clipped) ->
  Forall span_wf (all_spans declared).
Proof.
  intros Ht Hregs H. unfold bind_declared in H. step_guard H. step_guard H. destruct a as [conv [clip ge]].
  step_guard H. injection H as <- <-.
  change conv with (conv, (clip, ge)).1.
  eapply (for_each_ind _ (fun _ st => Forall span_wf (all_spans st.1))) in Hcall; [exact Hcall|constructor|].
  intros done_ d rest st st' Hl Hst.
  apply convert_entry_wf; [by apply tag_ok_live|by apply to_skip| |done].
  eapply declared_entries_ok; [exact Hregs|]. rewrite Hl. apply elem_of_app. right. by left.
Qed.

(** The conversion keeps the units. *)
Lemma bind_declared_units req registrations t declared clipped :
  bind_declared req registrations t = Ok (declared, clipped) -> Forall (fun d => d.1 ∈ src_units req) declared.
Proof.
  intros H. unfold bind_declared in H. step_guard H. step_guard H. destruct a as [conv [clip ge]].
  step_guard H. injection H as <- <-. change conv with (conv, (clip, ge)).1.
  eapply (for_each_ind _ (fun _ st => Forall (fun d => d.1 ∈ src_units req) st.1)) in Hcall;
    [exact Hcall|constructor|].
  intros done_ [u entry] rest [c [x y]] st' Hl Hst Hb.
  assert (Hu : u ∈ src_units req).
  { assert (Hin : (u, entry) ∈ declared_entries registrations (src_units req) (plan_tag t)).
    { rewrite Hl. apply elem_of_app. right. by left. }
    unfold declared_entries in Hin. apply list_elem_of_bind in Hin as (v & Hin & Hv).
    by apply list_elem_of_fmap in Hin as (entry' & [= -> ->] & _). }
  unfold convert_entry in Hb. destruct (_ =? 0) in Hb; step_guard Hb; injection Hb as <-; simpl;
    (apply Forall_app; split; [done|by repeat constructor]).
Qed.

(** ** What the declarations ask for *)

(** A byte copy before it is placed in memory: the unit, the source block and its live
    byte, the destination block and its live byte. *)
Definition placed (t : TagPlan) (c : ByteCopy) : ByteCopy :=
  let '(unit, (src_block, l), (dst_block, l')) := c in
  (unit, (src_block, byte_at (src_segments (precheck t)) l), (dst_block, byte_at (dst_segments (precheck t)) l')).
Definition live_copy (t : TagPlan) unit (entry : PoolSpanRegistration) (ordinal src page dst : Z) : ByteCopy :=
  (unit, (default 0 (reg_block_ids entry !! Z.to_nat ordinal), src), (default 0 (dst_ids_g t !! Z.to_nat page), dst)).

(** A span of version 0 names a destination page and repeats; its bytes are [count] rows
    of [size] bytes.  A span of any other version is a range of the concatenated pages:
    what lies below the skip of the tag is dropped and the rest, shifted down by the skip,
    falls byte by byte into the page and the offset its position divides into. *)
Definition asked_span (t : TagPlan) unit (entry : PoolSpanRegistration) (s : PoolByteSpan) : list ByteCopy :=
  if dst_space_version entry =? 0 then
    zrange 0 (count s) ≫= fun r =>
      (fun i => live_copy t unit entry (src_block_ordinal s)
                  (wrap64 (src_offset_bytes s + wrap64 (r * src_stride_bytes s)) + i) (dst_block_index s)
                  (wrap64 (dst_offset_bytes s + wrap64 (r * dst_stride_bytes s)) + i)) <$> zrange 0 (span_size_bytes s)
  else
    let page := live_size (dst_segments (precheck t)) in
    (fun i => live_copy t unit entry (src_block_ordinal s) (src_offset_bytes s + i)
                ((dst_offset_bytes s + i - tag_skip t) / page) ((dst_offset_bytes s + i - tag_skip t) mod page))
      <$> filter (fun i => tag_skip t <= dst_offset_bytes s + i) (zrange 0 (span_size_bytes s)).
Definition asked (units : list RaidenId) (registrations : gmap RaidenId RequestBlockRegistration) (t : TagPlan) : list ByteCopy :=
  units ≫= fun unit =>
    filter (fun entry => reg_tag entry = plan_tag t) (pool_spans (default no_registration (registrations !! unit))) ≫= fun entry =>
      spans entry ≫= asked_span t unit entry.
Definition in_live (t : TagPlan) (c : ByteCopy) : Prop :=
  0 <= c.1.2.2 < live_size (src_segments (precheck t)) /\ 0 <= c.2.2 < live_size (dst_segments (precheck t)).

(** The same for a span the planner emits. *)
Definition emitted_span (t : TagPlan) unit (entry : PoolSpanRegistration) (s : PoolByteSpan) : list ByteCopy :=
  zrange 0 (count s) ≫= fun r =>
    (fun i => live_copy t unit entry (src_block_ordinal s) (repeat_src s r + i) (dst_block_index s) (repeat_start s r + i))
      <$> zrange 0 (span_size_bytes s).

Lemma span_copies_placed t unit entry s : span_copies t (mkOrdered s unit entry) = placed t <$> emitted_span t unit entry s.
Proof.
  unfold span_copies, emitted_span. rewrite fmap_bind_list. apply bind_ext_Forall, Forall_forall. intros r _.
  unfold repeat_copies. by rewrite <-list_fmap_compose.
Qed.
Lemma emitted_in_live t unit entry s : span_in_live t s -> Forall (in_live t) (emitted_span t unit entry s).
Proof.
  intros Hs. unfold emitted_span. apply Forall_bind. eapply Forall_impl; [exact Hs|]. intros r (_ & ? & ? & ? & ?).
  apply Forall_fmap, Forall_forall. intros i Hi%elem_of_zrange. unfold in_live. simpl. lia.
Qed.

Lemma filter_zrange_from a n : filter (fun i => a <= i) (zrange 0 n) = zrange (Z.max 0 (Z.min n a)) n.
Proof.
  destruct (decide (0 <= n)) as [Hn|Hn]; [|by rewrite !zrange_empty by lia].
  set (c := Z.max 0 (Z.min n a)). rewrite <-(zrange_app 0 c n), filter_app by lia.
  rewrite (filter_none (fun i => a <= i) (zrange 0 c)).
  - rewrite app_nil_l. apply filter_all, Forall_forall. intros i Hi%elem_of_zrange. lia.
  - apply Forall_forall. intros i Hi%elem_of_zrange. lia.
Qed.

(** A span inside one page emits the pairs it stands for. *)
Lemma in_page_emitted t unit entry entry' ordinal s (live := live_size (dst_segments (precheck t))) :
  live <= int64_max -> reg_block_ids entry' = reg_block_ids entry -> in_page live ordinal s ->
  emitted_span t unit entry' s =
  (fun p : Z * Z => live_copy t unit entry ordinal p.2 (p.1 / live) (p.1 mod live)) <$> span_pairs live s.
Proof.
  intros Hl Hids (H1 & H2 & H3 & H4 & H5 & H6 & H7 & H8 & H9). unfold emitted_span, span_pairs.
  rewrite H6. change (zrange 0 1) with [0]. cbn [mbind list_bind]. rewrite app_nil_r, <-list_fmap_compose.
  apply list_fmap_ext. intros k i Hi%list_elem_of_lookup_2%elem_of_zrange. unfold repeat_src, repeat_start, live_copy. simpl.
  rewrite H7, H8, Hids, H5, Z.mul_0_r. rewrite (wrap64_nonneg 0) by (int64_unfold; lia). rewrite !Z.add_0_r, !wrap64_nonneg by lia.
  rewrite <-(Z.div_unique (dst_block_index s * live + dst_offset_bytes s + i) live (dst_block_index s) (dst_offset_bytes s + i)) by lia.
  by rewrite <-(Z.mod_unique (dst_block_index s * live + dst_offset_bytes s + i) live (dst_block_index s) (dst_offset_bytes s + i)) by lia.
Qed.

Lemma convert_span_asked t unit entry entry' st s st' :
  tag_ok t -> declared_ok s -> dst_space_version entry =? 0 = false -> reg_block_ids entry' = reg_block_ids entry ->
  convert_span unit (dst_live (precheck t)) (tag_skip t) st s = Ok st' ->
  exists split, conv_spans st' = conv_spans st ++ split /\ (split ≫= emitted_span t unit entry') = asked_span t unit entry s.
Proof.
  intros Ht Hs Hv Hids H. pose proof (tag_ok_live _ Ht) as Hlive.
  destruct (convert_span_pairs _ _ _ _ _ _ Hlive (to_skip _ Ht) Hs H) as (split & E & Hall & Hpairs).
  rewrite (to_dst_live _ Ht) in *. exists split. split; [done|]. unfold asked_span. rewrite Hv. cbv zeta.
  set (live := live_size (dst_segments (precheck t))) in *.
  transitivity ((fun p : Z * Z => live_copy t unit entry (src_block_ordinal s) p.2 (p.1 / live) (p.1 mod live)) <$> (split ≫= span_pairs live)).
  { rewrite fmap_bind_list. apply bind_ext_Forall. eapply Forall_impl; [exact Hall|]. intros x Hx. apply in_page_emitted; [apply Hlive|exact Hids|exact Hx]. }
  rewrite Hpairs, <-list_fmap_compose. unfold clip_of.
  rewrite (list_filter_iff (fun i => tag_skip t <= dst_offset_bytes s + i) (fun i => tag_skip t - dst_offset_bytes s <= i)) by lia.
  by rewrite filter_zrange_from.
Qed.

(** What the spans of converted entries emit. *)
Definition emitted_of (t : TagPlan) (d : RaidenId * PoolSpanRegistration) : list ByteCopy := spans d.2 ≫= emitted_span t d.1 d.2.
Definition asked_of (t : TagPlan) (d : RaidenId * PoolSpanRegistration) : list ByteCopy := spans d.2 ≫= asked_span t d.1 d.2.

Lemma emitted_entry t unit entry entry' l :
  reg_block_ids entry' = reg_block_ids entry -> (l ≫= emitted_span t unit entry') = l ≫= emitted_span t unit entry.
Proof. intros E. apply bind_ext_Forall, Forall_forall. intros s _. unfold emitted_span, live_copy. by rewrite E. Qed.

Lemma convert_entry_asked t st d st' :
  tag_ok t -> Forall declared_ok (spans d.2) ->
  convert_entry (plan_tag t) (dst_live (precheck t)) (tag_skip t) st d = Ok st' ->
  (st'.1 ≫= emitted_of t) = (st.1 ≫= emitted_of t) ++ asked_of t d.
Proof.
  intros Ht Hd H. destruct st as [converted [clipped global_end]], d as [unit entry]. unfold convert_entry in H. simpl in Hd.
  destruct (dst_space_version entry =? 0) eqn:Ev.
  - step_guard H. injection H as <-. cbn [fst]. rewrite bind_app. f_equal. cbn [mbind list_bind]. rewrite app_nil_r.
    unfold emitted_of, asked_of. cbn [fst snd]. apply bind_ext_Forall, Forall_forall. intros s _. unfold asked_span. rewrite Ev. done.
  - step_guard H. injection H as <-. cbn [fst]. rewrite bind_app. f_equal. cbn [mbind list_bind]. rewrite app_nil_r.
    unfold emitted_of, asked_of. cbn [fst snd spans]. rewrite (emitted_entry t unit entry) by done.
    eapply (for_each_ind _ (fun done_ c => (conv_spans c ≫= emitted_span t unit entry) = done_ ≫= asked_span t unit entry)) in Hcall; [exact Hcall|done|].
    intros done_ s rest c c' Hl Hc Hb. rewrite Hl in Hd. apply Forall_app in Hd as [_ [Hs _]%Forall_cons].
    destruct (convert_span_asked t unit entry entry c s c' Ht Hs Ev eq_refl Hb) as (split & -> & E).
    rewrite !bind_app, Hc, E. cbn [mbind list_bind]. by rewrite app_nil_r.
Qed.

Lemma declared_asked units registrations t :
  (declared_entries registrations units (plan_tag t) ≫= asked_of t) = asked units registrations t.
Proof.
  unfold declared_entries, asked. rewrite bind_bind_list. apply bind_ext_Forall, Forall_forall. intros unit _.
  rewrite bind_fmap_list. induction (pool_spans _) as [|e l IH]; [done|]. rewrite !filter_cons.
  destruct (decide (reg_tag e = plan_tag t)) as [Et|Et].
  - rewrite bind_cons, <-IH. destruct (spans e) as [|s ss] eqn:Es.
    + rewrite decide_False by naive_solver. done.
    + rewrite decide_True by done. rewrite bind_cons. unfold asked_of at 1. cbn [fst snd]. by rewrite Es.
  - rewrite decide_False by naive_solver. done.
Qed.

(** The conversion of a tag's declarations emits what they ask for. *)
Lemma bind_declared_asked req registrations t declared clipped :
  tag_ok t -> registrations_ok registrations -> bind_declared req registrations t = Ok (declared, clipped) ->
  (declared ≫= emitted_of t) = asked (src_units req) registrations t.
Proof.
  intros Ht Hregs H. unfold bind_declared in H. step_guard H. step_guard H. destruct a as [conv [clip ge]].
  step_guard H. injection H as <- <-. rewrite <-declared_asked. change conv with (conv, (clip, ge)).1.
  eapply (for_each_ind _ (fun done_ st => (st.1 ≫= emitted_of t) = done_ ≫= asked_of t)) in Hcall; [exact Hcall|done|].
  intros done_ d rest st st' Hl Hst Hb. rewrite bind_app. cbn [mbind list_bind]. rewrite app_nil_r, <-Hst.
  apply convert_entry_asked; [done| |done]. by eapply declared_entries_ok; [exact Hregs|rewrite Hl; apply elem_of_app; right; by left].
Qed.

Lemma ordered_spans_units (P : RaidenId -> Prop) declared :
  Forall (fun d => P d.1) declared -> Forall (fun o => P (o_unit o)) (ordered_spans declared).
Proof.
  intros H. unfold ordered_spans. rewrite sort_by_perm. apply Forall_bind. eapply Forall_impl; [exact H|].
  intros d Hd. apply Forall_fmap, Forall_forall. done.
Qed.

(** What the plan promises of the group of a tag and of the entries pushed for it: they
    are the copies the declarations ask for, inside the live bytes, and they write the first bytes of each of
    the tag's destination blocks, up to its extent, each exactly once. *)
Record group_exact (req : PlanRequest) (peer : string) (registrations : gmap RaidenId RequestBlockRegistration)
    (g : Z) (t : TagPlan) (group : PlanPoolGroup) (trace : Trace) : Prop := {
  ge_pools : pool_indices group = selected (precheck t);
  ge_ids : g_dst_device_block_ids group = dst_ids_g t;
  ge_extents : extents_ok t (g_dst_expected_extent_bytes group);
  ge_entries : Forall (group_entry (src_units req) peer g) trace;
  ge_copies : (trace ≫= entry_copies) ≡ₚ placed t <$> asked (src_units req) registrations t;
  ge_live : Forall (in_live t) (asked (src_units req) registrations t);
  ge_writes : (trace ≫= entry_copies).*2 ≡ₚ
    zip (dst_ids_g t) (g_dst_expected_extent_bytes group) ≫= extent_writes (dst_segments (precheck t));
  ge_once : NoDup (trace ≫= entry_copies).*2
}.

Lemma extent_writes_NoDup L ids es :
  NoDup ids -> NoDup (live_list L) -> NoDup (zip ids es ≫= extent_writes L).
Proof.
  intros Hids HL. revert es. induction Hids as [|id ids Hid _ IH]; intros [|e es]; simpl; try constructor.
  apply NoDup_app. split; [|split; [|apply IH]].
  - unfold extent_writes. apply NoDup_fmap_2; [intros x y [= ]; done|]. by apply NoDup_take.
  - intros [a b] Hin Hin'. unfold extent_writes in Hin. apply list_elem_of_fmap in Hin as (x & [= -> ->] & _).
    apply list_elem_of_bind in Hin' as ([id' e'] & Hin' & Hz%elem_of_zip_l).
    apply list_elem_of_fmap in Hin' as (y & [= -> ->] & _). done.
Qed.

Lemma plan_tag_group_spec req p registrations st g t st' :
  tag_ok t -> registrations_ok registrations ->
  plan_tag_group req p registrations st (g, t) = Ok st' ->
  exists group trace, pl_groups st' = pl_groups st ++ [group] /\
    union_selected st' = union_selected st ++ pool_indices group /\
    traces_to trace (pl_schedules st) (pl_schedules st') /\
    group_exact req (peer_of p) registrations g t group trace.
Proof.
  intros Ht Hregs H. unfold plan_tag_group in H. step_guard H. destruct a as [declared clipped].
  step_guard H. step_guard H. step_guard H. cbv zeta in H. step_guard H. injection H as <-. cbn.
  pose proof (bind_declared_wf _ _ _ _ _ Ht Hregs Hcall) as Hwf. pose proof (to_segs _ Ht) as Hsegs.
  assert (Ho : forall (P : PoolByteSpan -> Prop),
    Forall (fun o => P (o_span o)) (ordered_spans declared) <-> Forall P (all_spans declared)).
  { intros P. by rewrite <-ordered_spans_perm, Forall_fmap. }
  apply (emit_spans_spec (src_units req)) in Hcall2 as (trace & Htr & Hlive & Hent & Hcopies); [|done| |].
  2:{ apply (ordered_spans_units (fun u => u ∈ src_units req)). by eapply bind_declared_units. }
  2:{ apply (Ho (fun s => span_size_bytes s <= int64_max)). eapply Forall_impl; [exact Hwf|]. by intros s []. }
  cbn in Htr. apply (Ho (span_in_live t)) in Hlive.
  apply coverage_exact in Hcall1 as [Hext Hw]; [|done| |done].
  2:{ eapply Forall_impl; [exact Hwf|]. by intros s []. }
  assert (Hwrites : (trace ≫= entry_copies).*2 ≡ₚ zip (dst_ids_g t) a0 ≫= extent_writes (dst_segments (precheck t))).
  { rewrite <-Hw, Hcopies, fmap_bind_list, <-ordered_spans_perm, bind_fmap_list. apply eq_perm.
    apply bind_ext_Forall. apply (Ho (span_in_live t)) in Hlive. eapply Forall_impl; [exact Hlive|].
    intros o. by apply span_copies_dst. }
  eexists _, trace. split; [done|]. split; [done|]. split; [done|]. split; [done..| | |done|].
  - rewrite Hcopies, <-(bind_declared_asked _ _ _ _ _ Ht Hregs Hcall). unfold ordered_spans, emitted_of.
    rewrite sort_by_perm, bind_bind_list, fmap_bind_list. apply eq_perm, bind_ext_Forall, Forall_forall. intros d _.
    rewrite bind_fmap_list, fmap_bind_list. apply bind_ext_Forall, Forall_forall. intros s _. apply span_copies_placed.
  - rewrite <-(bind_declared_asked _ _ _ _ _ Ht Hregs Hcall). apply Forall_bind, Forall_forall. intros d Hd. unfold emitted_of.
    apply Forall_bind, Forall_forall. intros s Hs. apply emitted_in_live. rewrite Forall_forall in Hlive. apply Hlive.
    apply list_elem_of_bind. by exists d.
  - rewrite Hwrites. by apply extent_writes_NoDup; [apply to_ids|apply to_unique].
Qed.

Lemma plan_groups_spec req p registrations its st st' :
  Forall (fun it => tag_ok it.2) its -> registrations_ok registrations ->
  for_each (plan_tag_group req p registrations) its st = Ok st' ->
  exists steps : list (PlanPoolGroup * Trace), pl_groups st' = pl_groups st ++ steps.*1 /\
    union_selected st' = union_selected st ++ (steps.*1 ≫= pool_indices) /\
    traces_to (concat steps.*2) (pl_schedules st) (pl_schedules st') /\
    Forall2 (fun it x => group_exact req (peer_of p) registrations it.1 it.2 x.1 x.2) its steps.
Proof.
  intros Hok Hregs. revert st. induction Hok as [|[g t] its Ht _ IH]; intros st; cbn [for_each].
  { intros [= <-]. exists []. rewrite !app_nil_r. repeat split; [|constructor]. intros u. by rewrite app_nil_r. }
  destruct (plan_tag_group req p registrations st (g, t)) as [st1|] eqn:H1; [|done].
  apply plan_tag_group_spec in H1 as (group & trace & Hg & Hu & Htr & Hex); [|done..].
  intros (steps & Hgs & Hus & Htrs & Hall)%IH. exists ((group, trace) :: steps).
  rewrite Hgs, Hus, Hg, Hu, <-!app_assoc. split; [done|]. split; [done|].
  split; [by eapply traces_to_app|by constructor].
Qed.

(** ** What the checks before the claim establish *)

(** A pool of a registered unit: the directory admits only manifests that convert and
    validate. *)
Definition pool_proto_ok (pp : PoolSpecProto) : Prop :=
  forall pool, PoolSpecFromProto pp = Ok pool -> pool_int64 pool /\ ok (Validate pool (-1)) = true.
Definition metadata_ok (metadata : list Metadata) : Prop :=
  Forall (fun m => Forall pool_proto_ok (WUD.q_pools m)) metadata.

Definition unit_of (m : Metadata) : RaidenId := RaidenIdFromProto (WUD.q_unit m).

Lemma MetadataByUnit_elem metadata units m u x :
  MetadataByUnit metadata units = Ok m -> m !! u = Some x -> x ∈ metadata /\ unit_of x = u.
Proof.
  intros H Hu. unfold MetadataByUnit in H. step_guard H. step_guard H. injection H as <-. clear Hguard.
  refine (for_each_ind _ (fun done_ m => forall u x, m !! u = Some x -> x ∈ done_ /\ unit_of x = u) _ _ _ _ _ Hcall _ _ Hu); [done|].
  intros done_ item rest st st' _ IH Hb v y Hv. unfold add_metadata in Hb. cbv zeta in Hb.
  rewrite elem_of_app, list_elem_of_singleton.
  destruct (negb _); [injection Hb as <-; naive_solver|].
  destruct (bool_decide _); [done|]. injection Hb as <-.
  apply lookup_insert_Some in Hv as [[<- <-]|[_ Hv]]; naive_solver.
Qed.

Lemma MetadataByUnit_all metadata units m u :
  MetadataByUnit metadata units = Ok m -> u ∈ units -> meta_at m u ∈ metadata /\ unit_of (meta_at m u) = u.
Proof.
  intros H Hu. pose proof (MetadataByUnit_elem metadata units m u) as Helem.
  unfold meta_at. destruct (m !! u) as [x|] eqn:E; [by apply Helem|].
  unfold MetadataByUnit in H. step_guard H. step_guard H. injection H as <-. to_prop.
  assert (u ∈ filter (fun u => a !! u = None) units) as Hm by by apply list_elem_of_filter.
  rewrite Hguard in Hm. by apply elem_of_nil in Hm.
Qed.

(** Segments numbered without gaps whose bytes are distinct. *)
Definition segs_good (segs : list PoolLiveSegment) : Prop := segs_ok 0 segs /\ NoDup (live_list segs).
Definition live_segs_ok (pp : PoolSpecProto) : Prop := forall segs, LiveSegments pp = Ok segs -> segs_good segs.

Lemma sorted_lt_NoDup l : StronglySorted Z.lt l -> NoDup l.
Proof.
  induction 1 as [|x l _ IH Hx]; constructor; [|done]. intros Hin. rewrite Forall_forall in Hx.
  specialize (Hx x Hin). lia.
Qed.

Lemma no_pool_segs : live_segs_ok no_pool.
Proof. intros segs H. vm_compute in H. discriminate. Qed.

Lemma pool_at_ok metadata units m u i :
  metadata_ok metadata -> MetadataByUnit metadata units = Ok m -> live_segs_ok (pool_at (meta_at m u) i).
Proof.
  intros Hok Hm segs H. unfold pool_at, meta_at in H.
  destruct (m !! u) as [x|] eqn:Hu; [|exact (no_pool_segs _ H)]. unfold default, id in H.
  destruct (WUD.q_pools x !! Z.to_nat i) as [pp|] eqn:Hi; [|exact (no_pool_segs _ H)]. unfold default, id in H.
  unfold LiveSegments in H. step_guard H.
  apply (MetadataByUnit_elem _ _ _ _ _ Hm) in Hu as [Hu _]. unfold metadata_ok in Hok. rewrite Forall_forall in Hok.
  specialize (Hok x Hu). rewrite Forall_lookup in Hok. destruct (Hok _ _ Hi _ Hcall).
  apply expand_segments_spec in H as (? & ?%sorted_lt_NoDup & _); [by split|done..].
Qed.

Lemma total_live_from k segs :
  segs_ok k segs -> 0 <= k -> foldl (fun total segment => wrap64 (total + size segment)) k segs = k + live_size segs.
Proof.
  unfold live_size. revert k. induction segs as [|s segs IH]; intros k Hok Hk; cbn [foldl]; [simpl; lia|].
  pose proof (segs_ok_length _ _ Hok) as Hlen. destruct Hok as (_ & Hs & _ & _ & Hrest).
  rewrite live_list_cons, length_app, length_zrange in *.
  rewrite wrap64_nonneg, IH by (done || lia). lia.
Qed.
Lemma total_live_eq segs : segs_ok 0 segs -> total_live segs = live_size segs.
Proof. intros. by apply (total_live_from 0). Qed.

(** The invariant of the loop over the selected pools: the maps seen are well numbered
    and the live byte counts are theirs. *)
Record sides_ok (st : SideMaps) : Prop := {
  so_src : Forall segs_good (src_segment_maps st);
  so_dst : Forall segs_good (dst_segment_maps st);
  so_src_live v : v ∈ src_live_values st <-> exists m, m ∈ src_segment_maps st /\ v = live_size m;
  so_dst_live v : v ∈ dst_live_values st <-> exists m, m ∈ dst_segment_maps st /\ v = live_size m;
  so_pos v : v ∈ dst_live_values st -> 0 < v
}.

Lemma elem_of_add_map maps segs m : m ∈ add_map maps segs <-> m = segs \/ m ∈ maps.
Proof.
  unfold add_map. case_bool_decide; [|rewrite elem_of_app, list_elem_of_singleton]; naive_solver.
Qed.

Lemma precheck_pool_ok reference_src dmeta st i st' :
  live_segs_ok (pool_at reference_src i) -> live_segs_ok (pool_at dmeta i) -> sides_ok st ->
  precheck_pool reference_src dmeta st i = Ok st' -> sides_ok st'.
Proof.
  intros Hsrc Hdst [Hs Hd Hsl Hdl Hp] H. unfold precheck_pool in H. guards H. injection H as <-. to_prop.
  apply Hsrc in Hcall. apply Hdst in Hcall0. rewrite !total_live_eq in * by (apply Hcall || apply Hcall0).
  split; simpl.
  - apply Forall_forall. intros m [->|Hm]%elem_of_add_map; [done|]. rewrite Forall_forall in Hs. auto.
  - apply Forall_forall. intros m [->|Hm]%elem_of_add_map; [done|]. rewrite Forall_forall in Hd. auto.
  - intros v. setoid_rewrite elem_of_add_map. rewrite elem_of_union, elem_of_singleton, Hsl. naive_solver.
  - intros v. setoid_rewrite elem_of_add_map. rewrite elem_of_union, elem_of_singleton, Hdl. naive_solver.
  - intros v. rewrite elem_of_union, elem_of_singleton. intros [->|?]; [lia|auto].
Qed.

(** The single element of a set of size one. *)
Lemma singleton_head (X : gset Z) (P : Z -> Prop) :
  base.size X = 1%nat -> (forall v, v ∈ X -> P v) -> P (default 0 (head (elements X))).
Proof.
  intros Hsize HP. apply size_1_elem_of in Hsize as [v Hv].
  assert (X = {[ v ]}) as -> by set_solver. rewrite elements_singleton. apply HP. set_solver.
Qed.

Lemma precheck_tag_ok reference_src dmeta acc name ids skip acc' :
  (forall i, live_segs_ok (pool_at reference_src i)) -> (forall i, live_segs_ok (pool_at dmeta i)) ->
  0 <= skip <= int64_max ->
  precheck_tag reference_src dmeta acc (name, (ids, skip)) = Ok acc' ->
  exists pre, acc' = acc ++ [pre] /\ tag_ok (mkTagPlan name ids skip pre).
Proof.
  intros Hsrc Hdst Hskip H. unfold precheck_tag in H. step_guard H. cbv zeta in H. step_guard H. step_guard H.
  assert (Hok : sides_ok a).
  { refine (for_each_ind _ (fun _ => sides_ok) _ _ _ _ _ Hcall); last first.
    { intros done_ i rest st st' _ Hst. by apply precheck_pool_ok. }
    split; simpl; [constructor|constructor|set_solver|set_solver|set_solver]. }
  destruct (src_segment_maps a) as [|src [|? ?]] eqn:Es; [done| |done].
  destruct (dst_segment_maps a) as [|dst [|? ?]] eqn:Ed; [done| |done].
  step_guard H. injection H as <-. destruct Hok as [Hs Hd Hsl Hdl Hp]. rewrite Es, Ed in *. clear Hguard1.
  to_prop. destruct Hguard0 as [Hz1 Hz2].
  eexists. split; [reflexivity|]. split; simpl;
    [split; [apply (Forall_inv Hs)|apply (Forall_inv Hd)]|apply (Forall_inv Hd)|done| | | |done].
  - apply (singleton_head _ (fun v => v = live_size src)); [done|]. intros v (m & Hm%list_elem_of_singleton & ->)%Hsl. by subst.
  - apply (singleton_head _ (fun v => v = live_size dst)); [done|]. intros v (m & Hm%list_elem_of_singleton & ->)%Hdl. by subst.
  - by apply (singleton_head _ (fun v => 0 < v)).
Qed.

Lemma precheck_tags_ok reference_src dmeta its acc acc' :
  (forall i, live_segs_ok (pool_at reference_src i)) -> (forall i, live_segs_ok (pool_at dmeta i)) ->
  Forall (fun it : string * (list Z * Z) => 0 <= it.2.2 <= int64_max) its ->
  for_each (precheck_tag reference_src dmeta) its acc = Ok acc' ->
  exists pres, acc' = acc ++ pres /\ length pres = length its /\ Forall tag_ok (zip_with tag_plan_of its pres).
Proof.
  intros Hsrc Hdst Hits. revert acc. induction Hits as [|[name [ids skip]] its Hit _ IH]; intros acc; cbn [for_each].
  { intros [= <-]. exists []. by rewrite app_nil_r. }
  destruct (precheck_tag _ _ _ _) as [acc1|] eqn:H1; [|done].
  apply precheck_tag_ok in H1 as (pre & -> & Hpre); [|done..].
  intros (pres & -> & Hlen & Hall)%IH. exists (pre :: pres). rewrite <-app_assoc. split; [done|].
  split; [simpl; lia|]. by constructor.
Qed.

(** What a tag reads from the manifests: its pools are those the destination tagged with it,
    and its segments are the live segments of every one of them, on the source [smeta] and on
    the destination [dmeta]. *)
Record tag_reads (smeta dmeta : Metadata) (t : TagPlan) : Prop := {
  tr_selected i : i ∈ selected (precheck t) <->
    0 <= i < Z.of_nat (length (WUD.q_pools dmeta)) /\ p_tag (pool_at dmeta i) = plan_tag t;
  tr_src i : i ∈ selected (precheck t) -> LiveSegments (pool_at smeta i) = Ok (src_segments (precheck t));
  tr_dst i : i ∈ selected (precheck t) -> LiveSegments (pool_at dmeta i) = Ok (dst_segments (precheck t))
}.

Lemma precheck_tag_reads smeta dmeta acc name ids skip acc' :
  precheck_tag smeta dmeta acc (name, (ids, skip)) = Ok acc' ->
  exists pre, acc' = acc ++ [pre] /\ tag_reads smeta dmeta (mkTagPlan name ids skip pre).
Proof.
  intros H. unfold precheck_tag in H. step_guard H. cbv zeta in H. step_guard H. step_guard H.
  match type of Hcall with for_each _ ?l _ = _ => set (sel := l) in * end.
  assert (Hin : forall i, i ∈ sel -> (exists m, m ∈ src_segment_maps a /\ LiveSegments (pool_at smeta i) = Ok m) /\
                                     (exists m, m ∈ dst_segment_maps a /\ LiveSegments (pool_at dmeta i) = Ok m)).
  { refine (for_each_ind _ (fun done_ st => forall i, i ∈ done_ -> (exists m, m ∈ src_segment_maps st /\ LiveSegments (pool_at smeta i) = Ok m) /\
      (exists m, m ∈ dst_segment_maps st /\ LiveSegments (pool_at dmeta i) = Ok m)) _ _ _ _ _ Hcall); [by intros i ?%elem_of_nil|].
    intros done_ k rest st st' _ IH Hb i. unfold precheck_pool in Hb. guards Hb. injection Hb as <-. cbn [src_segment_maps dst_segment_maps].
    setoid_rewrite elem_of_add_map. rewrite elem_of_app, list_elem_of_singleton. intros [Hi| ->]; [|by split; eauto].
    destruct (IH i Hi) as [(m & ? & ?) (m' & ? & ?)]. by split; eauto. }
  destruct (src_segment_maps a) as [|src [|? ?]] eqn:Es; [done| |done].
  destruct (dst_segment_maps a) as [|dst [|? ?]] eqn:Ed; [done| |done].
  step_guard H. injection H as <-. eexists. split; [reflexivity|]. split; cbn [selected precheck plan_tag src_segments dst_segments].
  - intros i. unfold sel. rewrite list_elem_of_filter, elem_of_zrange. tauto.
  - intros i Hi. destruct (Hin i Hi) as [(m & Hm%list_elem_of_singleton & ->) _]. by subst.
  - intros i Hi. destruct (Hin i Hi) as [_ (m & Hm%list_elem_of_singleton & ->)]. by subst.
Qed.
Lemma precheck_tags_read smeta dmeta its acc acc' :
  for_each (precheck_tag smeta dmeta) its acc = Ok acc' ->
  exists pres, acc' = acc ++ pres /\ length pres = length its /\ Forall (tag_reads smeta dmeta) (zip_with tag_plan_of its pres).
Proof.
  revert acc. induction its as [|[name [ids skip]] its IH]; intros acc; cbn [for_each].
  { intros [= <-]. exists []. by rewrite app_nil_r. }
  destruct (precheck_tag _ _ _ _) as [acc1|] eqn:H1; [|done].
  apply precheck_tag_reads in H1 as (pre & -> & Hpre).
  intros (pres & -> & Hlen & Hall)%IH. exists (pre :: pres). rewrite <-app_assoc. split; [done|].
  split; [simpl; lia|]. by constructor.
Qed.

Lemma foldl_wrap_sum acc l :
  0 <= acc -> Forall (fun c => 0 < c) l -> acc + zsum l <= int64_max ->
  foldl (fun s c => wrap64 (s + c)) acc l = acc + zsum l.
Proof.
  intros Hacc Hl. revert acc Hacc. induction Hl as [|c l Hc Hl IH]; intros acc Hacc Hsum; cbn [foldl];
    [unfold zsum; simpl; lia|]. rewrite zsum_cons in *.
  assert (0 <= zsum l) by (apply zsum_nonneg; eapply Forall_impl; [exact Hl|simpl; lia]).
  rewrite wrap64_nonneg, IH by lia. lia.
Qed.

Lemma split_counts_ok req counts :
  zsum (dst_block_counts req) <= int64_max -> split_counts req = Ok counts ->
  length counts = length (transfer_pool_tags req) /\ Forall (fun c => 0 <= c) counts /\
  zsum counts = Z.of_nat (length (dst_device_block_ids req)).
Proof.
  intros Hmax H. unfold split_counts in H. step_guard H. step_guard H.
  destruct (negb (bool_decide (dst_block_counts req = []))).
  - step_guard H. cbv zeta in H. step_guard H. injection H as <-. to_prop. destruct Hguard2 as [Hpos Hsum].
    assert (Hall : Forall (fun c => 0 < c) (dst_block_counts req)).
    { apply Forall_forall. intros c Hc. apply list_elem_of_In in Hc.
      destruct (c <=? 0) eqn:E; [|to_prop; lia].
      assert (existsb (fun c => c <=? 0) (dst_block_counts req) = true) by (apply existsb_exists; eauto). congruence. }
    rewrite foldl_wrap_sum in Hsum by (done || lia).
    split; [done|]. split; [|done]. eapply Forall_impl; [exact Hall|simpl; lia].
  - destruct (_ =? 1)%nat eqn:E in H; [|done]. injection H as <-. to_prop. rewrite E.
    split; [done|]. split; [repeat constructor; lia|unfold zsum; simpl; lia].
Qed.

Lemma split_ids_ok ids counts :
  Forall (fun c => 0 <= c) counts -> zsum counts = Z.of_nat (length ids) ->
  length (split_ids ids counts) = length counts /\ concat (split_ids ids counts) = ids.
Proof.
  intros Hc. revert ids. induction Hc as [|c counts Hc Hcs IH]; intros ids Hsum; simpl.
  { destruct ids; [done|]. unfold zsum in Hsum. simpl in Hsum. lia. }
  rewrite zsum_cons in Hsum. pose proof (zsum_nonneg _ Hcs).
  destruct (IH (drop (Z.to_nat c) ids)) as [Hlen Hcat]; [rewrite length_drop; lia|].
  split; [lia|]. by rewrite Hcat, take_drop.
Qed.

Lemma split_skips_ok req skips :
  Forall (fun x => x <= int64_max) (dst_skip_bytes req) -> split_skips req = Ok skips ->
  length skips = length (transfer_pool_tags req) /\ Forall (fun x => 0 <= x <= int64_max) skips.
Proof.
  intros Hmax H. unfold split_skips in H. cbv zeta in H. destruct (bool_decide _).
  { injection H as <-. rewrite length_replicate. split; [done|]. apply Forall_replicate. int64_unfold. lia. }
  step_guard H. step_guard H. injection H as <-. to_prop. split; [done|]. destruct a.
  assert (Hok : ok (for_each (fun _ (p : Z * string) => if p.1 <? 0 then
     Err kInvalidArgument
       (StrCat["dst_skip_bytes must be non-negative; tag "] ++ PyStrRepr p.2 ++ StrCat[" requested "; p.1])
     else OkStatus) (zip (dst_skip_bytes req) (transfer_pool_tags req)) tt) = true) by by rewrite Hcall.
  rewrite (for_each_check (fun p : Z * string => _)) in Hok.
  apply Forall_lookup. intros i x Hi. rewrite Forall_lookup in Hmax. specialize (Hmax i x Hi).
  destruct (lookup_lt_is_Some_2 (transfer_pool_tags req) i) as [tag Htag].
  { rewrite <-Hguard. by eapply lookup_lt_Some. }
  rewrite Forall_lookup in Hok. specialize (Hok i (x, tag)). rewrite lookup_zip_Some in Hok.
  specialize (Hok (conj Hi Htag)). cbn [fst snd] in Hok. destruct (x <? 0) eqn:E; [done|]. to_prop. lia.
Qed.

(** A request whose metadata came from the directory and whose integers stay in range. *)
Record request_ok (req : PlanRequest) : Prop := {
  ro_src : metadata_ok (src_metadata req);
  ro_dst : metadata_ok (dst_metadata req);
  ro_counts : zsum (dst_block_counts req) <= int64_max;
  ro_skips : Forall (fun x => x <= int64_max) (dst_skip_bytes req)
}.


Lemma prepare_spec req p :
  request_ok req -> prepare req = Ok p ->
  Forall tag_ok (tag_plans p) /\ plan_tag <$> tag_plans p = transfer_pool_tags req /\
  concat (dst_ids_g <$> tag_plans p) = dst_device_block_ids req.
Proof.
  intros [Hsrc Hdst Hcounts Hskips] H. unfold prepare in H. step_guard H. step_guard H. step_guard H.
  destruct (dst_units req) as [|dst_unit ?] eqn:Hdu; [done|]. destruct (src_units req) as [|first ?] eqn:Hsu; [done|].
  guards H. injection H as <-. cbn [tag_plans].
  apply split_counts_ok in Hcall6 as (Hclen & Hcpos & Hcsum); [|done].
  apply split_ids_ok in Hcsum as [Hilen Hicat]; [|done].
  apply split_skips_ok in Hcall7 as [Hslen Hspos]; [|done].
  apply precheck_tags_ok in Hcall10 as (pres & -> & Hlen & Hall);
    [|intros i; exact (pool_at_ok _ _ _ _ i Hsrc Hcall0)|intros i; exact (pool_at_ok _ _ _ _ i Hdst Hcall1)|].
  2:{ apply Forall_forall. intros [tag [ids skip]] Hin. apply elem_of_zip_r, elem_of_zip_r in Hin.
      rewrite Forall_forall in Hspos. by apply Hspos. }
  simpl. split; [done|]. split.
  - rewrite (fmap_zip_with_l _ _ fst) by done. apply fst_zip. rewrite length_zip. lia.
  - rewrite (fmap_zip_with_l _ _ (fst ∘ snd)) by done. rewrite <-Hicat at 2. f_equal.
    rewrite (list_fmap_compose snd fst), snd_zip, fst_zip by (rewrite ?length_zip; lia). done.
Qed.

(** The blocks and the skip of each tag, as the request states them. *)
Definition counts_of req : list Z :=
  match dst_block_counts req with [] => [Z.of_nat (length (dst_device_block_ids req))] | counts => counts end.
Definition skips_of req : list Z :=
  match dst_skip_bytes req with [] => replicate (length (transfer_pool_tags req)) 0 | skips => skips end.

Lemma split_ids_lengths ids counts :
  Forall (fun c => 0 <= c) counts -> zsum counts = Z.of_nat (length ids) ->
  (fun l : list Z => Z.of_nat (length l)) <$> split_ids ids counts = counts.
Proof.
  intros Hc. revert ids. induction Hc as [|c counts Hc Hcs IH]; intros ids Hsum; [done|].
  rewrite zsum_cons in Hsum. pose proof (zsum_nonneg _ Hcs). cbn [split_ids]. rewrite fmap_cons.
  assert (Hl : Z.of_nat (length (take (Z.to_nat c) ids)) = c) by (rewrite length_take; lia). rewrite Hl.
  f_equal. apply IH. rewrite length_drop. lia.
Qed.
Lemma split_counts_eq req counts : split_counts req = Ok counts -> counts = counts_of req.
Proof.
  intros H. unfold split_counts in H. unfold counts_of. step_guard H. step_guard H. case_bool_decide as Hc; cbn [negb] in H.
  - rewrite Hc. destruct (_ =? 1)%nat in H; [by injection H|done].
  - step_guard H. cbv zeta in H. step_guard H. injection H as <-. by destruct (dst_block_counts req).
Qed.
Lemma split_skips_eq req skips : split_skips req = Ok skips -> skips = skips_of req.
Proof.
  intros H. unfold split_skips in H. unfold skips_of. cbv zeta in H. case_bool_decide as Hc; [rewrite Hc; by injection H|].
  step_guard H. step_guard H. injection H as <-. by destruct (dst_skip_bytes req).
Qed.

(** The manifests a plan is made from: one registration of the first source unit and one of
    the destination; the other sources print the same geometry. *)
Record manifests req (smeta dmeta : Metadata) : Prop := {
  mf_src : smeta ∈ src_metadata req /\ head (src_units req) = Some (unit_of smeta);
  mf_dst : dmeta ∈ dst_metadata req /\ dst_units req = [unit_of dmeta];
  mf_geometry u : u ∈ src_units req -> exists m, m ∈ src_metadata req /\ unit_of m = u /\
    GeometrySignature <$> WUD.q_pools m = GeometrySignature <$> WUD.q_pools smeta
}.

Lemma check_geometry_eq smeta src units u :
  check_geometry smeta src units = OkStatus -> u ∈ tail units ->
  GeometrySignature <$> WUD.q_pools (meta_at src u) = GeometrySignature <$> WUD.q_pools smeta.
Proof.
  intros H Hu. assert (Hok : ok (check_geometry smeta src units) = true) by (by rewrite H). unfold check_geometry in Hok.
  rewrite (for_each_check (fun u => _)) in Hok. rewrite Forall_forall in Hok. specialize (Hok u Hu). by case_bool_decide.
Qed.

Lemma prepare_reads req p :
  request_ok req -> prepare req = Ok p ->
  exists smeta, manifests req smeta (dst_meta p) /\ Forall (tag_reads smeta (dst_meta p)) (tag_plans p) /\
    tag_skip <$> tag_plans p = skips_of req /\ (fun t => Z.of_nat (length (dst_ids_g t))) <$> tag_plans p = counts_of req.
Proof.
  intros [Hsrc Hdst Hcounts Hskips] H. unfold prepare in H. step_guard H. step_guard H. step_guard H.
  destruct (dst_units req) as [|dst_unit dus] eqn:Hdu; [done|]. destruct (src_units req) as [|first sus] eqn:Hsu; [done|].
  rewrite <-Hdu in Hcall1. rewrite <-Hsu in *. guards H. injection H as <-. cbn [tag_plans dst_meta].
  pose proof (split_counts_eq _ _ Hcall6) as Ec. pose proof (split_skips_eq _ _ Hcall7) as Es.
  apply split_counts_ok in Hcall6 as (Hclen & Hcpos & Hcsum); [|done].
  pose proof (split_ids_lengths _ _ Hcpos Hcsum) as Hlens. apply split_ids_ok in Hcsum as [Hilen Hicat]; [|done].
  apply split_skips_ok in Hcall7 as [Hslen Hspos]; [|done]. apply precheck_tags_read in Hcall10 as (pres & -> & Hlen & Hall).
  exists (meta_at a0 first). split; [|split; [exact Hall|]].
  - assert (Hd1 : dus = []).
    { unfold check_request in Hcall. guards Hcall. to_prop. rewrite Hdu in *. by destruct dus. }
    assert (Hu : forall u, u ∈ src_units req -> meta_at a0 u ∈ src_metadata req /\ unit_of (meta_at a0 u) = u) by (intros u; by apply MetadataByUnit_all).
    destruct (MetadataByUnit_all _ _ _ dst_unit Hcall1 ltac:(rewrite Hdu; by left)) as [Hd2 Hd3].
    split; [|by rewrite Hdu, Hd1, Hd3|].
    + destruct (Hu first) as [? ->]; [rewrite Hsu; by left|]. by rewrite Hsu.
    + intros u Hin. exists (meta_at a0 u). destruct (Hu u Hin). do 2 (split; [done|]). rewrite Hsu in Hin.
      apply elem_of_cons in Hin as [->|Hin]; [done|]. eapply check_geometry_eq; [destruct a5; exact Hcall5|]. by rewrite Hsu.
  - simpl. split.
    + rewrite (fmap_zip_with_l _ _ (snd ∘ snd)) by done. rewrite <-Es.
      rewrite (list_fmap_compose snd snd), snd_zip, snd_zip by (rewrite ?length_zip; lia). done.
    + rewrite (fmap_zip_with_l _ _ ((fun l : list Z => Z.of_nat (length l)) ∘ (fst ∘ snd))) by done. rewrite <-Ec. etransitivity; [|exact Hlens].
      rewrite (list_fmap_compose (fst ∘ snd)), (list_fmap_compose snd fst), snd_zip, fst_zip by (rewrite ?length_zip; lia). done.
Qed.

(** ** The registrations of a claim *)

Lemma claim_rows now s req_id uuid units owner result s' u reg :
  Registry.LookupAndClaim now s req_id uuid units owner = (Ok result, s') -> result !! u = Some reg ->
  Registry.request_blocks_ s !! (req_id, u) = Some reg /\ req_uuid reg = uuid.
Proof.
  intros H Hu. unfold Registry.LookupAndClaim in H. cbv zeta in H. destruct (bool_decide _); [done|].
  destruct (let? _ := _ in _) as [result'|] eqn:Hcoll in H; [|done].
  assert (result' = result) as ->.
  { destruct (_ !! _) in H; [destruct (bool_decide _) in H|]; by injection H. }
  clear H. step_guard Hcoll.
  refine (for_each_ind _ (fun _ m => forall u reg, m !! u = Some reg ->
    Registry.request_blocks_ s !! (req_id, u) = Some reg /\ req_uuid reg = uuid) _ _ _ _ _ Hcoll _ _ Hu); [done|].
  intros done_ v rest m m' _ IH Hb w reg' Hw. unfold Registry.collect_registration in Hb.
  destruct (Registry.request_blocks_ (Registry.Purge now s) !! (req_id, v)) as [row|] eqn:Hrow; [|done].
  step_guard Hb. injection Hb as <-. to_prop.
  assert (Hs : Registry.request_blocks_ s !! (req_id, v) = Some row).
  { by apply (Registry.purge_rb_rows now s (req_id, v) row). }
  destruct (m !! v); [by apply IH|].
  apply lookup_insert_Some in Hw as [[<- <-]|[_ Hw]]; [done|by apply IH].
Qed.

(** Every unit that was asked for is in the answer. *)
Lemma claim_all now s req_id uuid units owner result s' u :
  Registry.LookupAndClaim now s req_id uuid units owner = (Ok result, s') -> u ∈ units -> is_Some (result !! u).
Proof.
  intros H Hu. unfold Registry.LookupAndClaim in H. cbv zeta in H. destruct (bool_decide _); [done|].
  destruct (let? _ := _ in _) as [result'|] eqn:Hcoll in H; [|done].
  assert (result' = result) as ->.
  { destruct (_ !! _) in H; [destruct (bool_decide _) in H|]; by injection H. }
  clear H. step_guard Hcoll.
  refine (for_each_ind _ (fun done_ m => forall u, u ∈ done_ -> is_Some (m !! u)) _ _ _ _ _ Hcoll _ Hu); [by intros v ?%elem_of_nil|].
  intros done_ v rest m m' _ IH Hb w. unfold Registry.collect_registration in Hb.
  destruct (Registry.request_blocks_ _ !! _) as [row|]; [|done]. step_guard Hb. injection Hb as <-.
  rewrite elem_of_app, list_elem_of_singleton. destruct (m !! v) as [x|] eqn:E; intros [Hw| ->]; [by apply IH|by rewrite E| |rewrite lookup_insert_eq; eauto].
  destruct (decide (v = w)) as [->|Hne]; [rewrite lookup_insert_eq; eauto|rewrite lookup_insert_ne by done; by apply IH].
Qed.

(** ** The plan *)

(** Only non-empty lists of entries are pushed. *)
Definition no_empty (m : gmap RaidenId (list ScheduleEntry)) : Prop := forall u, m !! u ≠ Some [].

Lemma push_entries_no_empty unit entries m : no_empty m -> no_empty (push_entries unit entries m).
Proof.
  intros Hm u. unfold push_entries. case_bool_decide as He; [apply Hm|].
  destruct (decide (unit = u)) as [->|Hne]; [|rewrite lookup_insert_ne by done; apply Hm].
  rewrite lookup_insert_eq. intros [= H]. by apply app_eq_nil in H as [_ ?].
Qed.

Lemma plan_tag_group_no_empty req p registrations st it st' :
  no_empty (pl_schedules st) -> plan_tag_group req p registrations st it = Ok st' -> no_empty (pl_schedules st').
Proof.
  intros Hst H. destruct it as [g t]. unfold plan_tag_group in H. step_guard H. destruct a as [declared clipped].
  step_guard H. step_guard H. step_guard H. cbv zeta in H. step_guard H. injection H as <-. cbn [pl_schedules].
  refine (for_each_ind _ (fun _ em => no_empty (em_schedules em)) _ _ _ _ _ Hcall2); [exact Hst|].
  intros done_ o rest em em' _ Hem Hs. unfold emit_span in Hs. step_guard Hs. injection Hs as <-. cbn [em_schedules].
  refine (for_each_ind _ (fun _ em => no_empty (em_schedules em)) _ _ _ _ _ Hcall3); [exact Hem|].
  intros done1 r rest1 em1 em2 _ Hem1 Hr. unfold emit_repeat in Hr. step_guard Hr. cbv zeta in Hr. step_guard Hr.
  injection Hr as <-. cbn [em_schedules]. by apply push_entries_no_empty.
Qed.

(** A plan as its steps: the group and the entries pushed for each tag. *)
Record built (req : PlanRequest) (p : Prepared) (registrations : gmap RaidenId RequestBlockRegistration)
    (plan : PoolReshardPlan) (steps : list (PlanPoolGroup * Trace)) : Prop := {
  bu_groups : pool_groups plan = steps.*1;
  bu_pools : transfer_pool_indices plan = steps.*1 ≫= pool_indices;
  bu_disjoint : NoDup (transfer_pool_indices plan);
  bu_trace : traces_to (concat steps.*2) ∅ (schedules plan);
  bu_no_empty : no_empty (schedules plan);
  bu_peer : plan_dst_peer plan = peer_of p;
  bu_senders : plan_src_units plan = filter (fun u => is_Some (schedules plan !! u)) (ranks p).*2;
  bu_keys : src_schedule_keys plan = foldl (fun m (iu : nat * RaidenId) => <[iu.2 := wrap32 (Z.of_nat iu.1)]> m) ∅
    (imap (fun i u => (i, u)) (plan_src_units plan));
  bu_addresses : worker_rpc_addresses plan =
    foldl (fun m meta => <[RaidenIdFromProto (WUD.q_unit meta) := WUD.q_control_plane_rpc_address meta]> m) ∅
      (all_metadata p);
  bu_dst : plan_dst_unit plan = pre_dst_unit p;
  bu_uuid : plan_uuid plan = uuid req;
  bu_req : plan_req_id plan = req_id req;
  bu_steps : Forall2 (fun gt x => group_exact req (peer_of p) registrations gt.1 gt.2 x.1 x.2)
    (zip (zrange 0 (Z.of_nat (length (tag_plans p)))) (tag_plans p)) steps
}.

Lemma build_steps req p registrations plan :
  Forall tag_ok (tag_plans p) -> registrations_ok registrations -> build req p registrations = Ok plan ->
  exists steps, built req p registrations plan steps.
Proof.
  intros Htags Hregs H. unfold build in H. step_guard H. rename a into st, Hcall into Hloop.
  assert (Hne : no_empty (pl_schedules st)).
  { refine (for_each_ind _ (fun _ st => no_empty (pl_schedules st)) _ _ _ _ _ Hloop); [done|].
    intros done_ it rest st1 st2 _. apply plan_tag_group_no_empty. }
  apply plan_groups_spec in Hloop as (steps & Hgroups & Hunion & Htr & Hall); [|clear H|done].
  2:{ apply Forall_forall. intros [g t] Hin%elem_of_zip_r. rewrite Forall_forall in Htags. by apply Htags. }
  unfold finish in H. step_guard H. injection H as <-. to_prop. by exists steps.
Qed.

(** The declarations of the stored rows stay in 64 bits. *)
Definition registry_ok (s : Registry.RequestBlockRegistry) : Prop :=
  forall bk reg entry, Registry.request_blocks_ s !! bk = Some reg -> entry ∈ pool_spans reg ->
    Forall declared_ok (spans entry).

Definition example_src_pool : PoolSpecProto :=
  mkPoolProto "kv" 0 16 100 3 [mkRegionProto "k" 0 20 8 2 2; mkRegionProto "v" 50 40 10 1 4] "x".
Definition example_dst_pool : PoolSpecProto :=
  mkPoolProto "kv" 0 0 64 10 [mkRegionProto "k" 4 12 10 4 1] "x".
Definition example_unit (k : Z) : RaidenIdProto := mkRaidenIdProto EmptyString EmptyString EmptyString k.
Definition example_meta (k rank : Z) (pool : PoolSpecProto) : Metadata :=
  WUD.mkRequest (example_unit k) ["h:1"%string] "c" 0 "f" 0 4 rank [] [] [] [pool] [].
Definition example_request : PlanRequest :=
  mkPlanRequest [Registry.unit1; Registry.unit0] [mkRaidenId EmptyString EmptyString EmptyString 2]
    [example_meta 0 0 example_src_pool; example_meta 1 1 example_src_pool] [example_meta 2 0 example_dst_pool]
    "r" 7 [5; 3; 9] 10 ["kv"%string] None [] [].
Definition example_row (block off d n : Z) : RequestBlockRegistration :=
  mkRequestReg 7 [block] 100 [mkSpanReg "kv" [block] [mkSpan 0 off 0 d n 0 0 1] n 1].
Definition example_registry : Registry.RequestBlockRegistry :=
  Registry.mkRegistry 60
    (<[("r"%string, Registry.unit0) := example_row 1 0 0 72]>
       (<[("r"%string, Registry.unit1) := example_row 2 4 72 28]> ∅)) ∅ ∅ ∅ ∅ ∅.
Definition example_build := BuildPoolReshardPlan 1 example_request example_registry 5.

Definition no_plan : PoolReshardPlan :=
  mkPlan [] Registry.unit0 ∅ ∅ EmptyString 0 EmptyString 0 0 [] [] [] ∅ 0 0 ∅ [] [] false.

Lemma example_pools_ok : pool_proto_ok example_src_pool /\ pool_proto_ok example_dst_pool.
Proof.
  split; intros pool H; vm_compute in H; injection H as <-; (split; [|reflexivity]);
    unfold pool_int64, region_int64, in_int64; simpl; repeat constructor; simpl; int64_unfold; lia.
Qed.

Lemma example_request_ok : request_ok example_request.
Proof.
  destruct example_pools_ok as [Hsrc Hdst].
  assert (Hm : forall k rank pool, pool_proto_ok pool -> Forall pool_proto_ok (WUD.q_pools (example_meta k rank pool))).
  { intros k rank pool Hp. apply Forall_singleton. exact Hp. }
  split; [| |vm_compute; discriminate|constructor].
  - apply Forall_cons; split; [by apply Hm|]. apply Forall_singleton. by apply Hm.
  - apply Forall_singleton. by apply Hm.
Qed.

Lemma example_registry_ok : registry_ok example_registry.
Proof.
  intros bk reg entry H Hin. cbn [Registry.request_blocks_ example_registry] in H.
  apply lookup_insert_Some in H as [[_ <-]|[_ H]]; [|apply lookup_insert_Some in H as [[_ <-]|[_ H]]; [|done]];
    apply list_elem_of_singleton in Hin as ->; repeat constructor; simpl; int64_unfold; lia.
Qed.

(** C1: Exactness of the plan.  When BuildPoolReshardPlan succeeds, the plan has one pool
    group per requested tag: the pools the destination's manifest tags with it, and the
    share of the destination blocks the request gives it.  Each unit's schedule is the
    sequence of entries pushed for it.  The entries of a group ask for exactly the byte
    copies that the rows registered for this request declare for the tag ([asked], stated on
    the declarations byte by byte: a byte of a version-0 span goes to the page and offset
    the span names; the byte of any other span goes to the page and offset its position in
    the concatenated pages divides into, after the bytes below the tag's skip are dropped),
    in some order, from and to the physical bytes that the live segments of the tag's pools
    give, every one inside the live bytes of both blocks.  Together they write every live
    byte of every destination block (of the final one: of its covered prefix) exactly
    once, and nothing else.  The groups partition the selected pools.  The manifests are
    those the directory admitted and the registered ranges stay in 64 bits. *)
Theorem planner_plan_exact now req registry owner plan registry' :
  request_ok req -> registry_ok registry ->
  BuildPoolReshardPlan now req registry owner = (Ok plan, registry') ->
  exists smeta dmeta (tags : list TagPlan) registrations (steps : list (PlanPoolGroup * Trace)),
    manifests req smeta dmeta /\
    plan_tag <$> tags = transfer_pool_tags req /\
    concat (dst_ids_g <$> tags) = dst_device_block_ids req /\
    (fun t => Z.of_nat (length (dst_ids_g t))) <$> tags = counts_of req /\
    tag_skip <$> tags = skips_of req /\
    Forall tag_ok tags /\ Forall (tag_reads smeta dmeta) tags /\
    (forall u, u ∈ src_units req -> exists reg, registrations !! u = Some reg /\
       Registry.request_blocks_ registry !! (req_id req, u) = Some reg /\ req_uuid reg = uuid req) /\
    pool_groups plan = steps.*1 /\
    transfer_pool_indices plan = steps.*1 ≫= pool_indices /\ NoDup (transfer_pool_indices plan) /\
    (forall u, default [] (schedules plan !! u) = (filter (fun x => x.1 = u) (concat steps.*2)).*2) /\
    Forall2 (fun gt x => group_exact req (plan_dst_peer plan) registrations gt.1 gt.2 x.1 x.2)
      (zip (zrange 0 (Z.of_nat (length tags))) tags) steps.
Proof.
  intros Hreq Hreg H. unfold BuildPoolReshardPlan in H.
  destruct (prepare req) as [p|] eqn:Hp; [|done].
  destruct (Registry.LookupAndClaim _ _ _ _ _ _) as [[registrations|] s'] eqn:Hl; [|done].
  injection H as H _. destruct (prepare_reads _ _ Hreq Hp) as (smeta & Hmf & Hreads & Hskip & Hcount).
  apply prepare_spec in Hp as (Htags & Hnames & Hids); [|done].
  assert (Hregs : registrations_ok registrations).
  { intros u reg entry Hu. destruct (claim_rows _ _ _ _ _ _ _ _ _ _ Hl Hu) as [Hrow _]. by eapply Hreg. }
  destruct (build_steps _ _ _ _ Htags Hregs H) as (steps & [Hg Hu Hd Htr _ Hpeer _ _ _ _ _ _ Hall]).
  exists smeta, (dst_meta p), (tag_plans p), registrations, steps. rewrite Hpeer.
  split_and!; try done. intros u Hin. destruct (claim_all _ _ _ _ _ _ _ _ _ Hl Hin) as [reg Hu'].
  exists reg. split; [done|]. exact (claim_rows _ _ _ _ _ _ _ _ _ _ Hl Hu').
Qed.

Lemma planner_plan_exact_witness :
  exists plan registry', example_build = (Ok plan, registry') /\
    (g_dst_expected_extent_bytes <$> pool_groups plan) = [[40; 40; 20]] /\
    exists steps : list (PlanPoolGroup * Trace), pool_groups plan = steps.*1 /\
      Forall (fun x : PlanPoolGroup * Trace => NoDup (x.2 ≫= entry_copies).*2) steps.
Proof.
  pose proof (Registry.pair_ok_eq no_plan example_build ltac:(vm_compute; reflexivity)) as H.
  exists (Registry.ok_value no_plan example_build.1), example_build.2. split; [exact H|].
  split; [vm_compute; reflexivity|].
  destruct (planner_plan_exact 1 example_request example_registry 5 _ _ example_request_ok example_registry_ok H)
    as (smeta & dmeta & tags & regs & steps & _ & _ & _ & _ & _ & _ & _ & _ & Hg & _ & _ & _ & Hall).
  exists steps. split; [exact Hg|]. apply Forall_lookup. intros i x Hi.
  destruct (Forall2_lookup_r _ _ _ _ _ Hall Hi) as (it & _ & Hge). exact (ge_once _ _ _ _ _ _ _ Hge).
Defined.

(** ** The senders *)

(** Inserting [n] keys adds at most [n] entries; when it adds [n], the keys were new. *)
Lemma insert_all_perm {A} (f : A -> Z) (l : list A) (m : gmap Z A) :
  let r := foldl (fun m x => <[f x := x]> m) m l in
  (base.size r <= base.size m + length l)%nat /\
  (base.size r = (base.size m + length l)%nat -> map_to_list r ≡ₚ map_to_list m ++ ((fun x => (f x, x)) <$> l)).
Proof.
  revert m. induction l as [|x l IH]; intros m; simpl; [rewrite app_nil_r; split; [lia|done]|].
  destruct (IH (<[f x := x]> m)) as [Hle Hperm]. destruct (m !! f x) as [y|] eqn:E.
  - rewrite map_size_insert_Some in Hle by eauto. split; [lia|]. intros. lia.
  - rewrite map_size_insert_None in * by done. split; [lia|]. intros Heq.
    rewrite Hperm, map_to_list_insert by (done || lia). simpl. apply Permutation_middle.
Qed.

Lemma ranks_contiguous (l : list (Z * RaidenId)) k e :
  for_each (fun expected_rank (p : Z * RaidenId) =>
    if negb (p.1 =? expected_rank) then
      Err kInvalidArgument StrCat["Source transfer_rank values must be contiguous from zero"]
    else Ok (expected_rank + 1)) l k = Ok e ->
  forall i p, l !! i = Some p -> p.1 = k + Z.of_nat i.
Proof.
  revert k. induction l as [|p l IH]; intros k; cbn [for_each]; [done|].
  destruct (p.1 =? k) eqn:E; [|done]. cbn [negb]. to_prop. intros H [|i] q Hq.
  - injection Hq as <-. lia.
  - rewrite (IH _ H i q Hq). lia.
Qed.

Lemma check_ranks_spec req src rs par :
  check_ranks req src = Ok (rs, par) ->
  rs.*2 ≡ₚ src_units req /\
  (forall i u, rs.*2 !! i = Some u -> WUD.q_transfer_rank (meta_at src u) = Z.of_nat i).
Proof.
  intros H. unfold check_ranks in H. step_guard H. cbv zeta in H. step_guard H. step_guard H. step_guard H.
  step_guard H. injection H as <- _. to_prop.
  match type of Hcall with for_each _ (sort_by _ (map_to_list ?m)) _ = _ => set (mp := m) in * end.
  destruct (insert_all_perm (fun u => WUD.q_transfer_rank (meta_at src u)) (src_units req) ∅) as [_ Hperm].
  rewrite map_size_empty, map_to_list_empty in Hperm. simpl in Hperm. fold mp in Hperm.
  assert (Hs : sort_by rank_ltb (map_to_list mp) ≡ₚ (fun u => (WUD.q_transfer_rank (meta_at src u), u)) <$> src_units req).
  { rewrite sort_by_perm. apply Hperm. rewrite sort_by_perm, length_map_to_list in Hguard0. done. }
  split.
  - rewrite Hs, <-list_fmap_compose. by rewrite list_fmap_id.
  - intros i u Hi. apply list_lookup_fmap_Some in Hi as ([r v] & -> & Hr). simpl.
    pose proof (ranks_contiguous _ _ _ Hcall _ _ Hr) as Hk. simpl in Hk.
    apply list_elem_of_lookup_2 in Hr. rewrite Hs in Hr. apply list_elem_of_fmap in Hr as (w & [= -> ->] & _). lia.
Qed.

(** The key of a sender is its position. *)
Lemma schedule_keys_spec (l : list RaidenId) (i : nat) u :
  NoDup l -> l !! i = Some u ->
  foldl (fun (m : gmap RaidenId Z) (iu : nat * RaidenId) => <[iu.2 := wrap32 (Z.of_nat iu.1)]> m) ∅
    (imap (fun i u => (i, u)) l) !! u = Some (wrap32 (Z.of_nat i)).
Proof.
  revert i u. induction l as [|v l IH] using rev_ind; intros i u Hnd Hi; [done|].
  apply NoDup_app in Hnd as (Hnd & Hv & _).
  rewrite imap_app, foldl_app. simpl. rewrite Nat.add_0_r. apply lookup_app_Some in Hi as [Hi|[Hle Hi]].
  - rewrite lookup_insert_ne; [by apply IH|]. intros ->. apply list_elem_of_lookup_2, Hv in Hi. apply Hi. by left.
  - apply list_lookup_singleton_Some in Hi as [Hi ->]. rewrite lookup_insert_eq. do 3 f_equal. lia.
Qed.

Lemma prepare_ranks req p :
  prepare req = Ok p ->
  (ranks p).*2 ≡ₚ src_units req /\ NoDup (src_units req) /\
  (forall i u, (ranks p).*2 !! i = Some u -> exists m, m ∈ src_metadata req /\ unit_of m = u /\
     WUD.q_transfer_rank m = Z.of_nat i).
Proof.
  intros H. unfold prepare in H. step_guard H. step_guard H. step_guard H.
  destruct (dst_units req) as [|dst_unit ?] eqn:Hdu; [done|]. destruct (src_units req) as [|first ?] eqn:Hsu; [done|].
  rewrite <-Hsu in *. guards H. destruct a9 as [rs par]. injection H as <-. cbn [ranks fst snd].
  apply check_ranks_spec in Hcall9 as [Hperm Hrank]. split; [done|]. split.
  - unfold check_request in Hcall. guards Hcall. to_prop. done.
  - intros i u Hi. exists (meta_at a0 u). specialize (Hrank i u Hi).
    apply list_elem_of_lookup_2 in Hi. rewrite Hperm in Hi.
    destruct (MetadataByUnit_all _ _ _ u Hcall0 Hi). done.
Qed.

(** The entries of a plan are the entries of its steps. *)
Lemma trace_entry (schedules : gmap RaidenId (list ScheduleEntry)) (trace : Trace) u e :
  traces_to trace ∅ schedules -> (u, e) ∈ trace <-> e ∈ default [] (schedules !! u).
Proof.
  intros Htr. rewrite (Htr u), lookup_empty. cbn [default]. rewrite app_nil_l, list_elem_of_fmap. split.
  - intros Hin. exists (u, e). split; [done|]. by apply list_elem_of_filter.
  - intros ([v f] & -> & [Hv Hin]%list_elem_of_filter). simpl in *. by subst.
Qed.

Lemma elem_of_concat {A} (x : A) ls : x ∈ concat ls <-> exists l, x ∈ l /\ l ∈ ls.
Proof. rewrite list_elem_of_In, in_concat. setoid_rewrite list_elem_of_In. naive_solver. Qed.

(** Only requested units get a schedule. *)
Lemma built_units req p registrations plan steps u :
  built req p registrations plan steps -> default [] (schedules plan !! u) ≠ [] -> u ∈ src_units req.
Proof.
  intros Hb Hu. destruct (default [] (schedules plan !! u)) as [|e es] eqn:E; [done|].
  assert (Hin : (u, e) ∈ concat steps.*2) by (apply (trace_entry _ _ _ _ (bu_trace _ _ _ _ _ Hb)); rewrite E; by left).
  apply elem_of_concat in Hin as (tr & Hin & ([group tr'] & -> & Hstep)%list_elem_of_fmap). simpl in Hin.
  apply list_elem_of_lookup_1 in Hstep as [k Hk].
  destruct (Forall2_lookup_r _ _ _ _ _ (bu_steps _ _ _ _ _ Hb) Hk) as (it & _ & Hge). apply ge_entries in Hge.
  rewrite Forall_forall in Hge. by destruct (Hge _ Hin).
Qed.

(** What the users of a plan rely on. *)
Record plan_wf (plan : PoolReshardPlan) : Prop := {
  pw_senders : NoDup (plan_src_units plan);
  pw_nonempty : plan_src_units plan ≠ [];
  pw_keys u k : src_schedule_keys plan !! u = Some k <->
    exists i, plan_src_units plan !! i = Some u /\ k = wrap32 (Z.of_nat i);
  pw_scheduled u : u ∈ plan_src_units plan -> exists es, schedules plan !! u = Some es /\ es ≠ [];
  pw_only u es : schedules plan !! u = Some es -> u ∈ plan_src_units plan;
  pw_entries u es e : schedules plan !! u = Some es -> e ∈ es ->
    dst_peer e = plan_dst_peer plan /\ exists g, (g < length (pool_groups plan))%nat /\ pool_group e = wrap32 (Z.of_nat g);
  pw_pools : transfer_pool_indices plan ≠ [];
  pw_address u : u ∈ plan_dst_unit plan :: plan_src_units plan -> is_Some (worker_rpc_addresses plan !! u)
}.

Lemma schedule_keys_dom (l : list RaidenId) u k :
  NoDup l ->
  foldl (fun (m : gmap RaidenId Z) (iu : nat * RaidenId) => <[iu.2 := wrap32 (Z.of_nat iu.1)]> m) ∅
    (imap (fun i u => (i, u)) l) !! u = Some k <->
  exists i, l !! i = Some u /\ k = wrap32 (Z.of_nat i).
Proof.
  intros Hnd. split; [|intros (i & Hi & ->); by apply schedule_keys_spec].
  intros Hk. destruct (decide (u ∈ l)) as [[i Hi]%list_elem_of_lookup_1|Hn].
  - exists i. split; [done|]. pose proof (schedule_keys_spec l i u Hnd Hi) as Hs. congruence.
  - exfalso. revert Hk Hn. clear Hnd. induction l as [|v l IH] using rev_ind; [done|].
    rewrite imap_app, foldl_app. simpl. intros [[<- _]|[_ Hk]]%lookup_insert_Some Hn.
    + apply Hn. apply elem_of_app. right. by left.
    + apply IH; [exact Hk|]. intros Hu. apply Hn, elem_of_app. by left.
Qed.

Lemma precheck_selected reference_src dmeta its acc acc' :
  for_each (precheck_tag reference_src dmeta) its acc = Ok acc' ->
  Forall (fun pre => selected pre ≠ []) acc -> Forall (fun pre => selected pre ≠ []) acc'.
Proof.
  intros H Hacc. refine (for_each_ind _ (fun _ a => Forall (fun pre => selected pre ≠ []) a) _ _ _ _ _ H); [exact Hacc|].
  intros done_ [name [ids skip]] rest st st' _ Hst Hb. unfold precheck_tag in Hb.
  step_guard Hb. cbv zeta in Hb. step_guard Hb. step_guard Hb.
  destruct (src_segment_maps a) as [|src [|? ?]] eqn:Es; [done| |done].
  destruct (dst_segment_maps a) as [|dst [|? ?]] eqn:Ed; [done| |done].
  step_guard Hb. injection Hb as <-. apply Forall_app. split; [done|]. constructor; [|done]. cbn [selected].
  intros Hsel. rewrite Hsel in Hcall. injection Hcall as <-. done.
Qed.

(** Every planned unit has registration metadata, with its control endpoint. *)
Lemma prepare_units req p u :
  prepare req = Ok p -> u ∈ pre_dst_unit p :: src_units req -> exists m, m ∈ all_metadata p /\ unit_of m = u.
Proof.
  intros H Hu. unfold prepare in H. step_guard H. step_guard H. step_guard H.
  destruct (dst_units req) as [|dst_unit dus] eqn:Hdu; [done|]. destruct (src_units req) as [|first sus] eqn:Hsu; [done|].
  rewrite <-Hdu in Hcall1. rewrite <-Hsu in *. guards H. injection H as <-. cbn [pre_dst_unit all_metadata] in *.
  apply elem_of_cons in Hu as [->|Hu].
  - exists (meta_at a1 dst_unit). split; [apply elem_of_app; right; by left|].
    apply (MetadataByUnit_all _ _ _ _ Hcall1). rewrite Hdu. by left.
  - exists (meta_at a0 u). split; [|by apply (MetadataByUnit_all _ _ _ _ Hcall0)].
    apply elem_of_app. left. apply list_elem_of_fmap. by exists u.
Qed.

Lemma addresses_of (l : list Metadata) (m : gmap RaidenId string) x :
  x ∈ l ->
  is_Some (foldl (fun m meta => <[RaidenIdFromProto (WUD.q_unit meta) := WUD.q_control_plane_rpc_address meta]> m) m l
           !! unit_of x).
Proof.
  revert m. induction l as [|y l IH] using rev_ind; intros m; [by intros ?%elem_of_nil|].
  rewrite elem_of_app, list_elem_of_singleton, foldl_snoc. intros Hx.
  destruct (decide (unit_of y = unit_of x)) as [<-|Hne]; [rewrite lookup_insert_eq; by eexists|].
  rewrite lookup_insert_ne by done. apply IH. destruct Hx as [Hx| ->]; done.
Qed.

Lemma prepare_selected req p :
  prepare req = Ok p -> Forall (fun t => selected (precheck t) ≠ []) (tag_plans p) /\
  transfer_pool_tags req ≠ [] /\ dst_device_block_ids req ≠ [].
Proof.
  intros H. unfold prepare in H. step_guard H. step_guard H. step_guard H.
  destruct (dst_units req) as [|dst_unit dus] eqn:Hdu; [done|]. destruct (src_units req) as [|first sus] eqn:Hsu; [done|].
  guards H. injection H as <-. cbn [tag_plans]. split.
  - pose proof (precheck_selected _ _ _ _ _ Hcall10 (Forall_nil_2 _)) as Hsel.
    apply Forall_forall. intros t (i & it & pre & -> & _ & Hin%list_elem_of_lookup_2)%elem_of_lookup_zip_with_1. rewrite Forall_forall in Hsel.
    by apply Hsel.
  - unfold split_counts in Hcall6. step_guard Hcall6. unfold check_request in Hcall. guards Hcall. to_prop. done.
Qed.


(** A group with a destination block pushes something. *)
Lemma group_exact_nonempty req peer registrations g t group trace :
  group_exact req peer registrations g t group trace -> dst_ids_g t ≠ [] -> trace ≠ [].
Proof.
  intros [_ _ [Hlen Hrange _] _ _ _ Hw _] Hids ->. cbn in Hw.
  destruct (dst_ids_g t) as [|id ids]; [done|]. destruct (g_dst_expected_extent_bytes group) as [|e es]; [done|].
  apply Forall_cons in Hrange as [He _]. apply Permutation_nil_l in Hw. symmetry in Hw. cbn in Hw.
  apply app_eq_nil in Hw as [Hw _]. unfold extent_writes in Hw. apply fmap_nil_inv in Hw. cbn in Hw.
  apply (f_equal length) in Hw. rewrite length_take in Hw. unfold live_size in He. simpl in Hw. lia.
Qed.

(** Each step with the tag it belongs to. *)
Lemma built_step req p registrations plan steps k x :
  built req p registrations plan steps -> steps !! k = Some x ->
  exists t, tag_plans p !! k = Some t /\ group_exact req (peer_of p) registrations (Z.of_nat k) t x.1 x.2.
Proof.
  intros Hb Hk. destruct (Forall2_lookup_r _ _ _ _ _ (bu_steps _ _ _ _ _ Hb) Hk) as ([g t] & Hz & Hge).
  apply lookup_zip_Some in Hz as [Hg Ht]. simpl in Hg, Ht, Hge. rewrite <-(Nat2Z.id k) in Hg.
  rewrite zrange_lookup in Hg by (apply lookup_lt_Some in Ht; lia). injection Hg as <-. by exists t.
Qed.
Lemma built_length req p registrations plan steps :
  built req p registrations plan steps -> length steps = length (tag_plans p).
Proof.
  intros Hb. pose proof (Forall2_length _ _ _ (bu_steps _ _ _ _ _ Hb)) as Hl.
  rewrite length_zip, length_zrange in Hl. lia.
Qed.

Lemma built_sender req p registrations plan steps u :
  built req p registrations plan steps -> (ranks p).*2 ≡ₚ src_units req ->
  u ∈ plan_src_units plan <-> exists es, schedules plan !! u = Some es.
Proof.
  intros Hb Hperm. rewrite (bu_senders _ _ _ _ _ Hb), list_elem_of_filter, Hperm. split; [by intros [[es Hes] _]; exists es|].
  intros [es Hes]. split; [by exists es|]. eapply built_units; [done|]. rewrite Hes. simpl. intros ->.
  by eapply (bu_no_empty _ _ _ _ _ Hb).
Qed.

(** The plan sends something. *)
Lemma built_nonempty req p registrations plan steps :
  built req p registrations plan steps -> (ranks p).*2 ≡ₚ src_units req ->
  concat (dst_ids_g <$> tag_plans p) ≠ [] -> plan_src_units plan ≠ [].
Proof.
  intros Hb Hperm Hids. destruct (concat _) as [|id rest] eqn:E; [done|].
  assert (Hin : id ∈ concat (dst_ids_g <$> tag_plans p)) by (rewrite E; by left).
  apply elem_of_concat in Hin as (ids & Hid & (t & -> & Ht)%list_elem_of_fmap).
  apply list_elem_of_lookup_1 in Ht as [k Hk]. pose proof (built_length _ _ _ _ _ Hb) as Hlen.
  destruct (lookup_lt_is_Some_2 steps k) as [x Hx]; [apply lookup_lt_Some in Hk; lia|].
  destruct (built_step _ _ _ _ _ _ _ Hb Hx) as (t' & Ht' & Hge). replace t' with t in Hge by congruence.
  apply group_exact_nonempty in Hge; [|by intros Hnil; rewrite Hnil in Hid; apply elem_of_nil in Hid].
  destruct x as [group [|[u e] tr]]; [done|]. simpl in *.
  assert (He : e ∈ default [] (schedules plan !! u)).
  { apply (trace_entry _ _ _ _ (bu_trace _ _ _ _ _ Hb)), elem_of_concat. exists ((u, e) :: tr). split; [by left|].
    apply list_elem_of_fmap. exists (group, (u, e) :: tr). split; [done|]. by eapply list_elem_of_lookup_2. }
  destruct (schedules plan !! u) as [es|] eqn:Hes; [|by apply elem_of_nil in He].
  assert (Hu : u ∈ plan_src_units plan) by (apply (built_sender _ _ _ _ _ _ Hb Hperm); by exists es).
  intros Hnil. rewrite Hnil in Hu. by apply elem_of_nil in Hu.
Qed.

Lemma build_wf req p registrations plan :
  request_ok req -> prepare req = Ok p -> registrations_ok registrations -> build req p registrations = Ok plan ->
  plan_wf plan.
Proof.
  intros Hreq Hp Hregs H. destruct (prepare_spec _ _ Hreq Hp) as (Htags & Hnames & Hids).
  destruct (prepare_ranks _ _ Hp) as (Hperm & Hnd & _). destruct (prepare_selected _ _ Hp) as (Hsel & Htne & Hdne).
  destruct (build_steps _ _ _ _ Htags Hregs H) as (steps & Hb). pose proof (fun u => built_sender _ _ _ _ _ u Hb Hperm) as Hs.
  assert (Hnds : NoDup (plan_src_units plan)).
  { rewrite (bu_senders _ _ _ _ _ Hb). apply NoDup_filter. by rewrite Hperm. }
  split.
  - done.
  - eapply built_nonempty; [done|done|]. by rewrite Hids.
  - intros u k. rewrite (bu_keys _ _ _ _ _ Hb). by apply schedule_keys_dom.
  - intros u [es Hes]%Hs. exists es. split; [done|]. intros ->. by eapply (bu_no_empty _ _ _ _ _ Hb).
  - intros u es Hes. apply Hs. by exists es.
  - intros u es e Hes He. assert (Hin : (u, e) ∈ concat steps.*2).
    { apply (trace_entry _ _ _ _ (bu_trace _ _ _ _ _ Hb)). by rewrite Hes. }
    apply elem_of_concat in Hin as (tr & Hin & (x & -> & [k Hk]%list_elem_of_lookup_1)%list_elem_of_fmap).
    destruct (built_step _ _ _ _ _ _ _ Hb Hk) as (t & _ & Hge%ge_entries).
    rewrite Forall_forall in Hge. destruct (Hge _ Hin) as (_ & Hpeer & Hg). rewrite (bu_peer _ _ _ _ _ Hb).
    split; [done|]. exists k. split; [|done]. rewrite (bu_groups _ _ _ _ _ Hb), length_fmap. by eapply lookup_lt_Some.
  - rewrite (bu_pools _ _ _ _ _ Hb). pose proof (built_length _ _ _ _ _ Hb) as Hlen.
    destruct steps as [|x steps]; [destruct (tag_plans p); simpl in *; congruence|].
    destruct (built_step _ _ _ _ _ 0 x Hb eq_refl) as (t & Ht & Hge%ge_pools). simpl. rewrite Hge.
    rewrite Forall_lookup in Hsel. specialize (Hsel _ _ Ht). by destruct (selected (precheck t)).
  - intros u Hu. rewrite (bu_dst _ _ _ _ _ Hb) in Hu. rewrite (bu_addresses _ _ _ _ _ Hb).
    destruct (prepare_units req p u Hp) as (m & Hm & <-); [|by apply addresses_of].
    apply elem_of_cons in Hu as [->|Hu]; [by left|]. right. rewrite (bu_senders _ _ _ _ _ Hb) in Hu.
    apply list_elem_of_filter in Hu as [_ Hu]. by rewrite Hperm in Hu.
Qed.


(** Every plan BuildPoolReshardPlan returns is well formed. *)
Lemma plan_built_wf now req registry owner plan registry' :
  request_ok req -> registry_ok registry ->
  BuildPoolReshardPlan now req registry owner = (Ok plan, registry') ->
  plan_wf plan /\ (length (plan_src_units plan) <= length (src_units req))%nat /\
  length (pool_groups plan) = length (transfer_pool_tags req) /\ plan_uuid plan = uuid req.
Proof.
  intros Hreq Hreg H. unfold BuildPoolReshardPlan in H.
  destruct (prepare req) as [p|] eqn:Hp; [|done].
  destruct (Registry.LookupAndClaim _ _ _ _ _ _) as [[registrations|] s'] eqn:Hl; [|done]. injection H as H _.
  assert (Hregs : registrations_ok registrations).
  { intros u reg entry Hu. destruct (claim_rows _ _ _ _ _ _ _ _ _ _ Hl Hu) as [Hrow _]. by eapply Hreg. }
  destruct (prepare_spec _ _ Hreq Hp) as (Htags & Hnames & _). destruct (prepare_ranks _ _ Hp) as (Hperm & _ & _).
  destruct (build_steps _ _ _ _ Htags Hregs H) as (steps & Hb).
  split; [by eapply build_wf|]. split; [|split].
  - rewrite (bu_senders _ _ _ _ _ Hb), <-Hperm. apply length_filter.
  - rewrite (bu_groups _ _ _ _ _ Hb), length_fmap, (built_length _ _ _ _ _ Hb), <-Hnames. by rewrite length_fmap.
  - apply (bu_uuid _ _ _ _ _ Hb).
Qed.

(** The senders of the plan.  The source units, ordered by the transfer rank they
    registered, have ranks 0, 1, 2, ...; the plan's senders are exactly those with a
    schedule, in rank order and each once; the key of a sender is its position among
    them; and no unit outside the request has a schedule. *)
Theorem planner_senders_by_rank now req registry owner plan registry' :
  request_ok req -> registry_ok registry ->
  BuildPoolReshardPlan now req registry owner = (Ok plan, registry') ->
  exists by_rank, by_rank ≡ₚ src_units req /\ NoDup by_rank /\
    (forall i u, by_rank !! i = Some u -> exists m, m ∈ src_metadata req /\ unit_of m = u /\
       WUD.q_transfer_rank m = Z.of_nat i) /\
    plan_src_units plan = filter (fun u => is_Some (schedules plan !! u)) by_rank /\
    (forall i u, plan_src_units plan !! i = Some u -> src_schedule_keys plan !! u = Some (wrap32 (Z.of_nat i))) /\
    (forall u, default [] (schedules plan !! u) ≠ [] -> u ∈ plan_src_units plan).
Proof.
  intros Hreq Hreg H. unfold BuildPoolReshardPlan in H.
  destruct (prepare req) as [p|] eqn:Hp; [|done].
  destruct (Registry.LookupAndClaim _ _ _ _ _ _) as [[registrations|] s'] eqn:Hl; [|done]. injection H as H _.
  assert (Hregs : registrations_ok registrations).
  { intros u reg entry Hu. destruct (claim_rows _ _ _ _ _ _ _ _ _ _ Hl Hu) as [Hrow _]. by eapply Hreg. }
  destruct (prepare_ranks _ _ Hp) as (Hperm & Hnd & Hrank).
  destruct (prepare_spec _ _ Hreq Hp) as (Htags & _ & _).
  destruct (build_steps _ _ _ _ Htags Hregs H) as (steps & Hb). pose proof (bu_senders _ _ _ _ _ Hb) as Hsend.
  exists ((ranks p).*2). split; [done|]. split; [by rewrite Hperm|]. split; [done|]. split; [done|].
  rewrite (bu_keys _ _ _ _ _ Hb). split.
  - intros i u. apply schedule_keys_spec. rewrite Hsend. apply NoDup_filter. by rewrite Hperm.
  - intros u Hu. apply (built_sender _ _ _ _ _ _ Hb Hperm). destruct (schedules plan !! u); [by eexists|done].
Qed.

Lemma planner_senders_by_rank_witness :
  exists plan registry', example_build = (Ok plan, registry') /\
    plan_src_units plan = [Registry.unit0; Registry.unit1] /\
    exists by_rank, by_rank ≡ₚ src_units example_request /\
      plan_src_units plan = filter (fun u => is_Some (schedules plan !! u)) by_rank.
Proof.
  pose proof (Registry.pair_ok_eq no_plan example_build ltac:(vm_compute; reflexivity)) as H.
  exists (Registry.ok_value no_plan example_build.1), example_build.2. split; [exact H|].
  split; [vm_compute; reflexivity|].
  destruct (planner_senders_by_rank 1 example_request example_registry 5 _ _ example_request_ok example_registry_ok H)
    as (by_rank & Hp & _ & _ & Hs & _). exists by_rank. split; [exact Hp|exact Hs].
Defined.

End Planner.
