(* ===== verification/TransferProgram.v ===== *)
(** * Transfer programs ([src/tpu_sync/core/transfer_program_reshard.cc])

    The two entries of a worker carry the same plan in two forms: the framed listener a
    [StartTransferRequest], the transfer-program service a [TransferProgramRequest].
    [CompileStartTransfer] and [LowerToStartTransfer] convert between them and
    [NormalizeReshardProgram] admits programs.  Messages are records of their fields: a
    repeated field is a list, a map field a finite map, an [optional] field an option, a
    oneof an option of its case; an unset submessage is its default instance, as its
    getters return it. *)

From S2P Require Import Prelude ReshardTypes.

Module Program.

(** ** Messages of [rpc/raiden_service.proto] *)

Record ShardPushEntryProto : Type := mkEntry {
  e_dst_peer : string;
  e_dst_shard_idx : Z;
  e_dst_offset_bytes : Z;
  e_src_offset_bytes : Z;
  e_size_bytes : Z;
  e_src_block_id : Z;
  e_dst_block_id : Z;
  e_src_stride_bytes : Z;
  e_dst_stride_bytes : Z;
  e_count : Z;
  e_layer_idx : option Z;
  e_pool_group : option Z
}.

Record PoolGroupProto : Type := mkGroup {
  g_pool_indices : list Z;
  g_dst_device_block_ids : list Z;
  g_expected_pushes : Z;
  g_dst_expected_extent_bytes : list Z;
  g_order_rank : Z
}.

(** A [ShardPushScheduleProto] is its list of entries. *)
Record StartTransferRequest : Type := mkStart {
  src_units : list RaidenIdProto;
  dst_units : list RaidenIdProto;
  shard_push_schedules : gmap Z (list ShardPushEntryProto);
  uuid : Z;
  is_sender : bool;
  dst_mem_type : Z;
  use_block_chunks : bool;
  expected_block_count : Z;
  req_id : string;
  pool_dtype_tags : list string;
  transfer_pool_indices : list Z;
  parallelism : Z;
  skip_d2h : option bool;
  pool_groups : list PoolGroupProto;
  skip_tiling : gmap Z bool;
  expected_layer_chunk_counts : gmap Z Z
}.

(** ** Messages of [proto/transfer_program.proto] *)

(** Enums are open: a value outside the declared ones is kept. *)
Inductive TransferKind : Type :=
  | TRANSFER_KIND_UNSPECIFIED
  | TRANSFER_KIND_PREFIX_BLOCKS
  | TRANSFER_KIND_POOL_RESHARD
  | TRANSFER_KIND_WEIGHT_SYNC
  | TRANSFER_KIND_other (n : Z).

Inductive TransferRole : Type :=
  | TRANSFER_ROLE_UNSPECIFIED
  | TRANSFER_ROLE_SENDER
  | TRANSFER_ROLE_RECEIVER_ARM
  | TRANSFER_ROLE_LOCAL_COPY
  | TRANSFER_ROLE_other (n : Z).

Record TransferEnvelope : Type := mkEnvelope {
  v_uuid : Z;
  v_req_id : string;
  v_kind : TransferKind;
  v_role : TransferRole;
  v_layout_fingerprint : string;
  v_deadline_ms : Z
}.

Inductive Space : Type :=
  | pool_index (i : Z)
  | buffer_handle (h : Z)
  | variable_index (i : Z).

Record MemoryRef : Type := mkRef {
  space : option Space;
  mem_type : Z;
  block_id : Z
}.

Record Extent : Type := mkExtent {
  x_src_offset_bytes : Z;
  x_dst_offset_bytes : Z;
  x_size_bytes : Z;
  x_src_stride_bytes : Z;
  x_dst_stride_bytes : Z;
  x_count : Z
}.

Record TransferStep : Type := mkStep {
  st_src : MemoryRef;
  st_dst : MemoryRef;
  st_extents : list Extent;
  st_dst_peer : string;
  st_dst_shard_idx : Z;
  st_group : option Z;
  st_source_rank : Z;
  st_layer_idx : option Z
}.

Record FanInGroup : Type := mkFanInGroup {
  f_pool_indices : list Z;
  f_dst_device_block_ids : list Z;
  f_expected_pushes : Z;
  f_dst_expected_extent_bytes : list Z;
  f_order_rank : Z
}.

Record FanIn : Type := mkFanIn {
  groups : list FanInGroup;
  f_expected_block_count : Z
}.

Inductive CompletionMode : Type :=
  | kAwaitInline
  | kFanIn (f : FanIn)
  | kBarrier (round_id expected_census : Z).

Record ExecutionPolicy : Type := mkPolicy {
  p_parallelism : Z;
  p_skip_d2h : option bool;
  p_skip_tiling : gmap Z bool;
  p_dst_mem_type : Z;
  p_use_block_chunks : bool
}.

Record ReshardBinding : Type := mkBinding {
  b_src_units : list RaidenIdProto;
  b_dst_units : list RaidenIdProto;
  b_transfer_pool_indices : list Z;
  b_pool_dtype_tags : list string
}.

(** [completion] is [None] when the oneof is not set. *)
Record TransferProgram : Type := mkProgram {
  steps : list TransferStep;
  completion : option CompletionMode;
  policy : ExecutionPolicy;
  reshard : ReshardBinding
}.

Record TransferProgramRequest : Type := mkRequest {
  envelope : TransferEnvelope;
  program : TransferProgram
}.

#[global] Instance ShardPushEntryProto_eq_dec : EqDecision ShardPushEntryProto.
Proof. solve_decision. Defined.
#[global] Instance TransferKind_eq_dec : EqDecision TransferKind.
Proof. solve_decision. Defined.
#[global] Instance TransferRole_eq_dec : EqDecision TransferRole.
Proof. solve_decision. Defined.

(** ** Normalization *)

Inductive ReshardLoweringClass : Type :=
  | kPoolReshardSender
  | kPoolReshardArm.

Definition HasPoolReshardFields (request : StartTransferRequest) : bool :=
  negb (bool_decide (transfer_pool_indices request = [])) ||
  negb (match pool_groups request with [] => true | _ => false end).

Definition CheckInt32 (value : Z) (what : string) : Status :=
  if (value <? int32_min) || (int32_max <? value) then
    Err kInvalidArgument StrCat[what; " "; value; " overflows int32"]
  else OkStatus.

(** The generated name function: empty for a value outside the declared ones. *)
Definition TransferKind_Name (k : TransferKind) : string :=
  match k with
  | TRANSFER_KIND_UNSPECIFIED => "TRANSFER_KIND_UNSPECIFIED"
  | TRANSFER_KIND_PREFIX_BLOCKS => "TRANSFER_KIND_PREFIX_BLOCKS"
  | TRANSFER_KIND_POOL_RESHARD => "TRANSFER_KIND_POOL_RESHARD"
  | TRANSFER_KIND_WEIGHT_SYNC => "TRANSFER_KIND_WEIGHT_SYNC"
  | TRANSFER_KIND_other _ => EmptyString
  end.

Definition check_step (num_groups : Z) (step : TransferStep) : Status :=
  if negb (length (st_extents step) =? 1)%nat then
    Err kInvalidArgument
      StrCat["pool-reshard steps carry exactly one extent, got "; Z.of_nat (length (st_extents step))]
  else if bool_decide (is_Some (space (st_src step))) || bool_decide (is_Some (space (st_dst step))) then
    Err kInvalidArgument
      StrCat["pool-reshard steps address blocks through their fan-in group scope; MemoryRef.space must be unset"]
  else
    match st_group step with
    | Some group =>
        if (group <? 0) || (num_groups <=? group) then
          Err kInvalidArgument
            StrCat["step group "; group; " out of range [0, "; num_groups; ")"]
        else OkStatus
    | None => OkStatus
    end.

Definition NormalizeReshardProgram (request : TransferProgramRequest) : StatusOr ReshardLoweringClass :=
  let prog := program request in
  let env := envelope request in
  match completion prog with
  | Some kAwaitInline =>
      Err kUnimplemented
        StrCat["AwaitInline transfer programs are not supported by the pool-reshard worker entry"]
  | Some (kBarrier _ _) =>
      Err kUnimplemented
        StrCat["Barrier transfer programs are not supported by the pool-reshard worker entry"]
  | None => Err kInvalidArgument StrCat["transfer program carries no completion contract"]
  | Some (kFanIn fan_in) =>
      if negb (bool_decide (v_kind env = TRANSFER_KIND_POOL_RESHARD)) &&
         negb (bool_decide (v_kind env = TRANSFER_KIND_UNSPECIFIED)) then
        Err kInvalidArgument
          StrCat["fan-in transfer program carries inconsistent kind "; TransferKind_Name (v_kind env)]
      else if (length (groups fan_in) =? 0)%nat then
        Err kInvalidArgument StrCat["pool-reshard program declares no fan-in groups"]
      else if (length (b_transfer_pool_indices (reshard prog)) =? 0)%nat then
        Err kInvalidArgument StrCat["pool-reshard program names no transfer pool indices"]
      else if (length (steps prog) =? 0)%nat then
        Err kInvalidArgument StrCat["pool-reshard program has no steps"]
      else
        let? _ := for_each (fun _ step => check_step (Z.of_nat (length (groups fan_in))) step) (steps prog) tt in
        match v_role env with
        | TRANSFER_ROLE_SENDER => Ok kPoolReshardSender
        | TRANSFER_ROLE_RECEIVER_ARM => Ok kPoolReshardArm
        | TRANSFER_ROLE_LOCAL_COPY =>
            Err kUnimplemented
              StrCat["LOCAL_COPY transfer programs are not supported by the pool-reshard worker entry"]
        | _ => Err kInvalidArgument StrCat["pool-reshard program carries no role"]
        end
  end.

(** ** Compilation *)

Definition group_out (g : PoolGroupProto) : FanInGroup :=
  mkFanInGroup (g_pool_indices g) (g_dst_device_block_ids g) (g_expected_pushes g)
    (g_dst_expected_extent_bytes g) (g_order_rank g).

Definition step_of (rank : Z) (e : ShardPushEntryProto) : TransferStep :=
  mkStep (mkRef None 0 (e_src_block_id e)) (mkRef None 0 (e_dst_block_id e))
    [mkExtent (e_src_offset_bytes e) (e_dst_offset_bytes e) (e_size_bytes e) (e_src_stride_bytes e)
       (e_dst_stride_bytes e) (e_count e)]
    (e_dst_peer e) (e_dst_shard_idx e) (e_pool_group e) rank (e_layer_idx e).

(** The ranks of the schedules in increasing order. *)
Definition sorted_ranks (m : gmap Z (list ShardPushEntryProto)) : list Z :=
  sort_by Z.ltb ((map_to_list m).*1).

Definition compile_steps (m : gmap Z (list ShardPushEntryProto)) : list TransferStep :=
  sorted_ranks m ≫= fun rank => step_of rank <$> default [] (m !! rank).

Definition CompileStartTransfer (request : StartTransferRequest) : StatusOr TransferProgramRequest :=
  if negb (HasPoolReshardFields request) then
    Err kInvalidArgument
      StrCat["only pool-reshard StartTransferRequests compile to transfer programs (legacy dense plans stay on the framed door)"]
  else
    Ok (mkRequest
          (mkEnvelope (u64 (uuid request)) (req_id request) TRANSFER_KIND_POOL_RESHARD
             (if is_sender request then TRANSFER_ROLE_SENDER else TRANSFER_ROLE_RECEIVER_ARM) EmptyString 0)
          (mkProgram (compile_steps (shard_push_schedules request))
             (Some (kFanIn (mkFanIn (group_out <$> pool_groups request) (expected_block_count request))))
             (mkPolicy (parallelism request) (skip_d2h request) (skip_tiling request) (dst_mem_type request)
                (use_block_chunks request))
             (mkBinding (src_units request) (dst_units request) (transfer_pool_indices request)
                (pool_dtype_tags request)))).

(** ** Lowering *)

Definition group_in (g : FanInGroup) : PoolGroupProto :=
  mkGroup (f_pool_indices g) (f_dst_device_block_ids g) (f_expected_pushes g)
    (f_dst_expected_extent_bytes g) (f_order_rank g).

Definition entry_of (step : TransferStep) (extent : Extent) : ShardPushEntryProto :=
  mkEntry (st_dst_peer step) (st_dst_shard_idx step) (x_dst_offset_bytes extent) (x_src_offset_bytes extent)
    (x_size_bytes extent) (wrap32 (block_id (st_src step))) (wrap32 (block_id (st_dst step)))
    (x_src_stride_bytes extent) (x_dst_stride_bytes extent) (x_count extent) (st_layer_idx step) (st_group step).

(** [schedules[rank].add_entries()] *)
Definition add_entry (m : gmap Z (list ShardPushEntryProto)) (rank : Z) (e : ShardPushEntryProto) :
    gmap Z (list ShardPushEntryProto) :=
  <[rank := default [] (m !! rank) ++ [e]]> m.

Definition lower_step (m : gmap Z (list ShardPushEntryProto)) (step : TransferStep) :
    StatusOr (gmap Z (list ShardPushEntryProto)) :=
  match st_extents step with
  | [extent] =>
      let? _ := CheckInt32 (block_id (st_src step)) "src block id" in
      let? _ := CheckInt32 (block_id (st_dst step)) "dst block id" in
      Ok (add_entry m (st_source_rank step) (entry_of step extent))
  | _ => Err kInvalidArgument StrCat["pool-reshard steps carry exactly one extent"]
  end.

Definition LowerToStartTransfer (request : TransferProgramRequest) : StatusOr StartTransferRequest :=
  let prog := program request in
  match completion prog with
  | Some (kFanIn fan_in) =>
      let? schedules := for_each lower_step (steps prog) ∅ in
      Ok (mkStart (b_src_units (reshard prog)) (b_dst_units (reshard prog)) schedules
            (wrap64 (v_uuid (envelope request)))
            (bool_decide (v_role (envelope request) = TRANSFER_ROLE_SENDER))
            (p_dst_mem_type (policy prog)) (p_use_block_chunks (policy prog)) (f_expected_block_count fan_in)
            (v_req_id (envelope request)) (b_pool_dtype_tags (reshard prog))
            (b_transfer_pool_indices (reshard prog)) (p_parallelism (policy prog)) (p_skip_d2h (policy prog))
            (group_in <$> groups fan_in) (p_skip_tiling (policy prog)) ∅)
  | _ => Err kInvalidArgument StrCat["only fan-in programs lower to StartTransferRequest"]
  end.

(** ** Derived block lists *)

(** A [std::set<int64_t>] read back in order. *)
Definition DeriveSenderSourceBlockIds (request : StartTransferRequest) : list Z :=
  let src_id_set : gset Z :=
    list_to_set ((map_to_list (shard_push_schedules request)).*2 ≫= fun entries => e_src_block_id <$> entries) in
  sort_by Z.ltb (elements src_id_set).

Definition DeriveArmChipBlockIds (request : StartTransferRequest) : list Z :=
  pool_groups request ≫= g_dst_device_block_ids.

(** ** Lowering a list of steps *)

Definition step_ok (step : TransferStep) : Prop :=
  (exists x, st_extents step = [x]) /\ in_int32 (block_id (st_src step)) /\ in_int32 (block_id (st_dst step)).

Definition no_extent : Extent := mkExtent 0 0 0 0 0 0.
Definition lowered (step : TransferStep) : ShardPushEntryProto := entry_of step (default no_extent (head (st_extents step))).

Lemma CheckInt32_ok v what : CheckInt32 v what = OkStatus <-> in_int32 v.
Proof.
  unfold CheckInt32, in_int32. destruct (_ || _) eqn:E; to_prop; split; try done; try lia.
Qed.

Lemma lower_step_ok m step m' :
  lower_step m step = Ok m' <-> step_ok step /\ m' = add_entry m (st_source_rank step) (lowered step).
Proof.
  unfold lower_step, step_ok, lowered. destruct (st_extents step) as [|x [|y l]] eqn:E.
  - split; [done|]. by intros [[(? & ?) _] _].
  - pose proof (CheckInt32_ok (block_id (st_src step)) "src block id") as H1.
    pose proof (CheckInt32_ok (block_id (st_dst step)) "dst block id") as H2.
    destruct (CheckInt32 _ "src block id") as [[]|]; [|naive_solver].
    destruct (CheckInt32 _ "dst block id") as [[]|]; naive_solver.
  - split; [done|]. by intros [[(? & ?) _] _].
Qed.

(** The schedules after a list of steps: each rank gets the entries of its steps, in
    their order. *)
Definition scheduled (m : gmap Z (list ShardPushEntryProto)) (l : list TransferStep) (rank : Z) :
    option (list ShardPushEntryProto) :=
  match filter (fun s => st_source_rank s = rank) l with
  | [] => m !! rank
  | own => Some (default [] (m !! rank) ++ (lowered <$> own))
  end.

Lemma lower_steps_ok l m m' :
  for_each lower_step l m = Ok m' <-> Forall step_ok l /\ forall rank, m' !! rank = scheduled m l rank.
Proof.
  revert m. induction l as [|step l IH]; intros m; cbn [for_each].
  { unfold scheduled. simpl. split.
    - intros [= ->]. done.
    - intros [_ H]. f_equal. apply map_eq. intros rank. by rewrite H. }
  rewrite Forall_cons. destruct (lower_step m step) as [m1|] eqn:Hs.
  - apply lower_step_ok in Hs as [Hok ->]. rewrite IH. unfold scheduled, add_entry.
    setoid_rewrite filter_cons.
    assert (Hr : forall rank, match filter (fun s => st_source_rank s = rank) l with
        | [] => <[st_source_rank step := default [] (m !! st_source_rank step) ++ [lowered step]]> m !! rank
        | own => Some (default [] (<[st_source_rank step := default [] (m !! st_source_rank step) ++ [lowered step]]> m !! rank)
                       ++ (lowered <$> own)) end =
      match (if decide (st_source_rank step = rank) then step :: filter (fun s => st_source_rank s = rank) l
             else filter (fun s => st_source_rank s = rank) l) with
        | [] => m !! rank
        | own => Some (default [] (m !! rank) ++ (lowered <$> own)) end).
    { intros rank. destruct (decide (st_source_rank step = rank)) as [->|Hne].
      - rewrite lookup_insert_eq. destruct (filter _ l); simpl; [done|]. by rewrite <-app_assoc.
      - by rewrite lookup_insert_ne. }
    setoid_rewrite Hr. tauto.
  - split; [done|]. intros [[Hok _] _].
    assert (lower_step m step = Ok (add_entry m (st_source_rank step) (lowered step))) by by apply lower_step_ok.
    congruence.
Qed.

(** ** Compiled steps *)

Lemma sorted_ranks_spec m : NoDup (sorted_ranks m) /\ forall rank, rank ∈ sorted_ranks m <-> is_Some (m !! rank).
Proof.
  unfold sorted_ranks. rewrite sort_by_perm. split; [apply NoDup_fst_map_to_list|].
  intros rank. rewrite sort_by_perm, list_elem_of_fmap. split.
  - intros ([k es] & -> & H%elem_of_map_to_list). by eexists.
  - intros [es H]. exists (rank, es). split; [done|]. by apply elem_of_map_to_list.
Qed.

Lemma filter_compile_steps m rank :
  filter (fun s => st_source_rank s = rank) (compile_steps m) = step_of rank <$> default [] (m !! rank).
Proof.
  unfold compile_steps. rewrite filter_bind_list.
  destruct (sorted_ranks_spec m) as [Hnd Hin].
  transitivity (sorted_ranks m ≫= fun k => if decide (rank = k) then step_of rank <$> default [] (m !! rank) else []).
  - apply bind_ext_Forall, Forall_forall. intros k _. destruct (decide (rank = k)) as [->|Hne].
    + apply filter_all. apply Forall_fmap, Forall_forall. done.
    + apply filter_none. apply Forall_fmap, Forall_forall. intros e _ He. by apply Hne.
  - rewrite bind_unique by done. destruct (decide (rank ∈ sorted_ranks m)) as [|Hn]; [done|].
    rewrite Hin, <-eq_None_not_Some in Hn. by rewrite Hn.
Qed.

(** The declared widths of the integer fields of the messages. *)
Definition entry_typed (e : ShardPushEntryProto) : Prop := in_int32 (e_src_block_id e) /\ in_int32 (e_dst_block_id e).
Definition request_typed (r : StartTransferRequest) : Prop :=
  in_int64 (uuid r) /\ forall rank es, shard_push_schedules r !! rank = Some es -> Forall entry_typed es.

Lemma lowered_step_of rank e : entry_typed e -> lowered (step_of rank e) = e.
Proof.
  intros [H1 H2]. unfold lowered, entry_of, step_of. simpl. rewrite !wrap32_id by done. by destruct e.
Qed.

Lemma lowered_steps_of rank es : Forall entry_typed es -> lowered <$> (step_of rank <$> es) = es.
Proof. induction 1 as [|e es He _ IH]; [done|]. by rewrite !fmap_cons, lowered_step_of, IH. Qed.

Lemma compile_steps_ok m :
  (forall rank es, m !! rank = Some es -> Forall entry_typed es) -> Forall step_ok (compile_steps m).
Proof.
  intros Hm. unfold compile_steps. apply Forall_bind, Forall_forall. intros rank _.
  apply Forall_fmap. destruct (m !! rank) as [es|] eqn:E; [|constructor].
  simpl. eapply Forall_impl; [by eapply Hm|]. intros e [H1 H2]. split; [by eexists|done].
Qed.

(** What a transfer program carries of a request: everything but the expected layer
    chunk counts and the ranks whose schedule is empty. *)
Definition carried (r : StartTransferRequest) : StartTransferRequest :=
  mkStart (src_units r) (dst_units r) (filter (fun kv => kv.2 ≠ []) (shard_push_schedules r)) (uuid r)
    (is_sender r) (dst_mem_type r) (use_block_chunks r) (expected_block_count r) (req_id r)
    (pool_dtype_tags r) (transfer_pool_indices r) (parallelism r) (skip_d2h r) (pool_groups r)
    (skip_tiling r) ∅.

(** The round trip of a request. *)
Lemma compile_lower_spec r :
  request_typed r -> HasPoolReshardFields r = true ->
  exists p, CompileStartTransfer r = Ok p /\ LowerToStartTransfer p = Ok (carried r) /\
    (carried r = r <->
     (forall rank, shard_push_schedules r !! rank ≠ Some []) /\ expected_layer_chunk_counts r = ∅).
Proof.
  intros [Huuid Htyped] Hpool. unfold CompileStartTransfer. rewrite Hpool. cbn [negb]. eexists. split; [reflexivity|].
  split.
  - unfold LowerToStartTransfer. cbn [program completion steps reshard policy envelope].
    assert (for_each lower_step (compile_steps (shard_push_schedules r)) ∅ =
      Ok (filter (fun kv => kv.2 ≠ []) (shard_push_schedules r))) as ->.
    { apply lower_steps_ok. split; [by apply compile_steps_ok|]. intros rank. unfold scheduled.
      rewrite filter_compile_steps, lookup_empty. apply option_eq. intros es. rewrite map_lookup_filter_Some. simpl.
      destruct (shard_push_schedules r !! rank) as [es'|] eqn:E; simpl; [|naive_solver].
      specialize (Htyped _ _ E). pose proof (lowered_steps_of rank es' Htyped) as Hl.
      destruct (step_of rank <$> es') as [|x l] eqn:Hes.
      - apply fmap_nil_inv in Hes. naive_solver.
      - simpl in Hl |- *. rewrite Hl. destruct es'; naive_solver. }
    unfold carried. cbn. rewrite u64_of_wrap64 by done. do 2 f_equal.
    + by destruct (is_sender r).
    + rewrite <-list_fmap_compose. rewrite <-(list_fmap_id (pool_groups r)) at 2.
      apply list_fmap_ext. intros i g _. by destruct g.
  - destruct r as [? ? sched ? ? ? ? ? ? ? ? ? ? ? ? chunks]. unfold carried. cbn. split.
    + intros [= Hs Hc]. split; [|done]. intros rank Hr. rewrite <-Hs, map_lookup_filter_Some in Hr. naive_solver.
    + intros [Hs ->]. f_equal. apply map_filter_id. intros rank es Hr. simpl. intros ->. by eapply Hs.
Qed.

(** Compile, then lower.  A pool-reshard request always compiles, the program always
    lowers, and the result is the request without its expected_layer_chunk_counts and
    without the ranks that have no entries; it is the request itself exactly when there
    are none of these. *)
Theorem program_compile_lower r :
  request_typed r -> HasPoolReshardFields r = true ->
  exists p, CompileStartTransfer r = Ok p /\ LowerToStartTransfer p = Ok (carried r) /\
    (carried r = r <->
     (forall rank, shard_push_schedules r !! rank ≠ Some []) /\ expected_layer_chunk_counts r = ∅).
Proof. apply compile_lower_spec. Qed.

Definition example_entry (src dst : Z) (group : option Z) : ShardPushEntryProto :=
  mkEntry "h:1" 0 0 0 16 src dst 0 0 1 (Some 0) group.
Definition example_start : StartTransferRequest :=
  mkStart [] [] (<[1 := [example_entry 3 7 None]]> (<[0 := [example_entry 2 5 (Some 0); example_entry 4 6 (Some 0)]]> ∅))
    (-1) true 0 false 3 "r" [] [0] 2 (Some false) [mkGroup [0] [5; 6; 7] 2 [16; 16; 16] 0] ∅ ∅.

Lemma example_start_typed : request_typed example_start.
Proof.
  split; [vm_compute; split; discriminate|]. intros rank es H. cbn [shard_push_schedules example_start] in H.
  apply lookup_insert_Some in H as [[_ <-]|[_ H]]; [|apply lookup_insert_Some in H as [[_ <-]|[_ H]]; [|done]];
    repeat constructor; vm_compute; discriminate.
Qed.

Lemma program_compile_lower_witness :
  exists p, CompileStartTransfer example_start = Ok p /\ v_uuid (envelope p) = 18446744073709551615 /\
    (st_source_rank <$> steps (program p)) = [0; 0; 1] /\ LowerToStartTransfer p = Ok example_start.
Proof.
  destruct (program_compile_lower example_start example_start_typed eq_refl) as (p & Hc & Hl & Hiff).
  exists p. split; [exact Hc|]. split; [|split]; [vm_compute in Hc; injection Hc as <-; reflexivity..|].
  rewrite Hl. vm_compute. reflexivity.
Defined.

(** ** From a program to a request and back *)

(** Grouping a list sorted by key, the groups in the order of the keys, is the list. *)
Lemma sorted_groups {A} (key : A -> Z) ks l :
  StronglySorted (fun x y => key x <= key y) l -> StronglySorted Z.lt ks ->
  (forall x, x ∈ l -> key x ∈ ks) -> (ks ≫= fun k => filter (fun x => key x = k) l) = l.
Proof.
  intros Hl Hks. revert l Hl. induction Hks as [|k ks Hks IH Hk]; intros l Hl Hin.
  { destruct l as [|x l]; [done|]. exfalso. apply (not_elem_of_nil (key x)), Hin. by left. }
  rewrite bind_cons. rewrite Forall_forall in Hk. induction Hl as [|x l Hl IHl Hx].
  { apply (IH []); [constructor|]. intros x Hx%elem_of_nil. done. }
  rewrite Forall_forall in Hx. destruct (decide (key x = k)) as [<-|Hne].
  - rewrite filter_cons_True by done. simpl. f_equal.
    assert (Hext : (ks ≫= fun k0 => filter (fun y => key y = k0) (x :: l)) = ks ≫= fun k0 => filter (fun y => key y = k0) l).
    { apply bind_ext_Forall, Forall_forall. intros k0 Hk0%Hk. apply filter_cons_False. lia. }
    rewrite Hext. apply IHl. intros y Hy. apply Hin. by right.
  - assert (Hnone : filter (fun y => key y = k) (x :: l) = []).
    { apply filter_none, Forall_forall. intros y Hy Hyk.
      assert (Hxk : key x ∈ ks) by (specialize (Hin x ltac:(by left)); set_solver). apply Hk in Hxk.
      apply elem_of_cons in Hy as [->|Hy]; [done|]. specialize (Hx y Hy). lia. }
    rewrite Hnone. apply (IH (x :: l)); [constructor; [done|by apply Forall_forall]|].
    intros y Hy. specialize (Hin y Hy). apply elem_of_cons in Hin as [Hyk|]; [|done].
    assert (Hy' : y ∈ filter (fun y => key y = k) (x :: l)) by by apply list_elem_of_filter.
    rewrite Hnone in Hy'. by apply elem_of_nil in Hy'.
Qed.

Lemma sorted_strict (l : list Z) : NoDup l -> StronglySorted Z.lt (sort_by Z.ltb l).
Proof.
  intros Hnd. assert (Hs : StronglySorted (not_after Z.ltb) (sort_by Z.ltb l)) by apply sort_by_sorted, _.
  rewrite <-(sort_by_perm Z.ltb l) in Hnd. revert Hnd. induction Hs as [|x k _ IH Hx]; [constructor|].
  intros [Hxk Hnd]%NoDup_cons. constructor; [by apply IH|]. rewrite Forall_forall in *. intros y Hy.
  specialize (Hx y Hy). unfold not_after in Hx. to_prop. assert (x ≠ y) by congruence. lia.
Qed.

(** ** Admission *)

Definition step_admitted (num_groups : Z) (step : TransferStep) : Prop :=
  (exists x, st_extents step = [x]) /\ space (st_src step) = None /\ space (st_dst step) = None /\
  (forall g, st_group step = Some g -> 0 <= g < num_groups).

Lemma check_step_ok n step : ok (check_step n step) = true <-> step_admitted n step.
Proof.
  unfold check_step, step_admitted. destruct (st_extents step) as [|x [|y l]]; simpl.
  1,3: split; [done|by intros [[? ?] _]].
  destruct (space (st_src step)); [split; [done|naive_solver]|].
  destruct (space (st_dst step)); [split; [done|naive_solver]|]. rewrite !bool_decide_eq_false_2 by (by intros []).
  cbn [orb]. destruct (st_group step) as [g|]; [|naive_solver].
  destruct (_ || _) eqn:E; to_prop; simpl; split; try done; [intros (_ & _ & _ & H); specialize (H g eq_refl); lia|].
  intros _. split; [by eexists|]. split; [done|]. split; [done|]. intros g' [= <-]. lia.
Qed.

Definition role_class (role : TransferRole) : option ReshardLoweringClass :=
  match role with
  | TRANSFER_ROLE_SENDER => Some kPoolReshardSender
  | TRANSFER_ROLE_RECEIVER_ARM => Some kPoolReshardArm
  | _ => None
  end.

(** What the validator is meant to admit. *)
Record admitted (p : TransferProgramRequest) (f : FanIn) (c : ReshardLoweringClass) : Prop := {
  ad_completion : completion (program p) = Some (kFanIn f);
  ad_kind : v_kind (envelope p) = TRANSFER_KIND_POOL_RESHARD \/ v_kind (envelope p) = TRANSFER_KIND_UNSPECIFIED;
  ad_groups : groups f ≠ [];
  ad_pools : b_transfer_pool_indices (reshard (program p)) ≠ [];
  ad_steps : steps (program p) ≠ [];
  ad_each : Forall (step_admitted (Z.of_nat (length (groups f)))) (steps (program p));
  ad_role : role_class (v_role (envelope p)) = Some c
}.

Lemma length_nonzero {A} (l : list A) : l ≠ [] -> (length l =? 0)%nat = false.
Proof. by destruct l. Qed.

Lemma normalize_ok p c : NormalizeReshardProgram p = Ok c <-> exists f, admitted p f c.
Proof.
  unfold NormalizeReshardProgram. destruct (completion (program p)) as [[|f|]|] eqn:Hc;
    try (split; [done|intros (f' & [Hf _ _ _ _ _ _]); congruence]).
  split.
  - intros H. guards H. destruct a. exists f. to_prop.
      assert (Hall : Forall (step_admitted (Z.of_nat (length (groups f)))) (steps (program p))).
      { eapply Forall_impl; [apply for_each_check; by rewrite Hcall|]. intros step. apply check_step_ok. }
      split; try done; try (intros E; rewrite E in *; simpl in *; congruence).
      destruct (v_role (envelope p)); simpl in *; congruence.
  - intros (f' & [Hf Hk Hg Hp Hs Hall Hr]). rewrite Hc in Hf. injection Hf as <-.
      assert (negb (bool_decide (v_kind (envelope p) = TRANSFER_KIND_POOL_RESHARD)) &&
              negb (bool_decide (v_kind (envelope p) = TRANSFER_KIND_UNSPECIFIED)) = false) as ->
        by (destruct Hk as [-> | ->]; done).
      rewrite !length_nonzero by done.
      assert (ok (for_each (fun _ step => check_step (Z.of_nat (length (groups f))) step) (steps (program p)) tt) = true) as Hok.
      { apply for_each_check. eapply Forall_impl; [exact Hall|]. intros x. apply check_step_ok. }
      destruct (for_each _ _ _); [|done]. destruct (v_role (envelope p)); simpl in *; congruence.
Qed.

(** Admission.  NormalizeReshardProgram admits exactly the fan-in programs with a
    consistent kind, at least one group, pool index and step, whose steps each carry one
    extent, leave the address space unset and name an existing group, under the class of
    their role; and an admitted program lowers exactly when the block ids of its steps fit
    32 bits (a block id that does not is refused, never truncated). *)
Theorem program_admission p c :
  (NormalizeReshardProgram p = Ok c <-> exists f, admitted p f c) /\
  (NormalizeReshardProgram p = Ok c ->
   ok (LowerToStartTransfer p) = true <->
   Forall (fun s => in_int32 (block_id (st_src s)) /\ in_int32 (block_id (st_dst s))) (steps (program p))).
Proof.
  split; [apply normalize_ok|]. intros (f & [Hf _ _ _ _ Hall _])%normalize_ok.
  unfold LowerToStartTransfer. rewrite Hf.
  assert (Hiff : Forall step_ok (steps (program p)) <->
    Forall (fun s => in_int32 (block_id (st_src s)) /\ in_int32 (block_id (st_dst s))) (steps (program p))).
  { rewrite !Forall_forall. rewrite Forall_forall in Hall. unfold step_ok.
    split; intros H x Hx; specialize (H x Hx); destruct (Hall x Hx); naive_solver. }
  rewrite <-Hiff. destruct (for_each lower_step (steps (program p)) ∅) as [m|] eqn:E; simpl.
  - split; [|done]. intros _. by apply lower_steps_ok in E as [? _].
  - split; [done|]. intros Hok. destruct (for_each_succeeds lower_step (fun _ => True) (steps (program p)) ∅)
      as (m & Hm & _); [|done|congruence].
    intros st x Hx _. rewrite Forall_forall in Hok. eexists. split; [|done]. apply lower_step_ok. split; [by apply Hok|done].
Qed.

(** The form of the programs CompileStartTransfer emits. *)
Record canonical (p : TransferProgramRequest) : Prop := {
  ca_uuid : 0 <= v_uuid (envelope p) < 2 ^ 64;
  ca_kind : v_kind (envelope p) = TRANSFER_KIND_POOL_RESHARD;
  ca_fingerprint : v_layout_fingerprint (envelope p) = EmptyString;
  ca_deadline : v_deadline_ms (envelope p) = 0;
  ca_mem : Forall (fun s => mem_type (st_src s) = 0 /\ mem_type (st_dst s) = 0) (steps (program p));
  ca_sorted : StronglySorted (fun s s' => st_source_rank s <= st_source_rank s') (steps (program p))
}.

Lemma step_of_lowered n step :
  step_admitted n step -> step_ok step -> mem_type (st_src step) = 0 -> mem_type (st_dst step) = 0 ->
  step_of (st_source_rank step) (lowered step) = step.
Proof.
  intros ((x & Hx) & Hs & Hd & _) (_ & H1 & H2) Hm1 Hm2. unfold lowered, step_of, entry_of. rewrite Hx. simpl.
  rewrite !wrap32_id by done. destruct step as [[sp m b] [sp' m' b'] ex dp ds g rk li], x. simpl in *. by subst.
Qed.

Lemma recompile_steps n l m :
  for_each lower_step l ∅ = Ok m -> Forall (step_admitted n) l ->
  Forall (fun s => mem_type (st_src s) = 0 /\ mem_type (st_dst s) = 0) l ->
  StronglySorted (fun s s' => st_source_rank s <= st_source_rank s') l -> compile_steps m = l.
Proof.
  intros [Hok Hm]%lower_steps_ok Hadm Hmem Hsort. unfold compile_steps.
  rewrite <-(sorted_groups st_source_rank (sorted_ranks m) l) at 1; [|done| |].
  - apply bind_ext_Forall, Forall_forall. intros k _. rewrite Hm. unfold scheduled. rewrite lookup_empty.
    assert (Hall : Forall (fun s => step_of k (lowered s) = s) (filter (fun s => st_source_rank s = k) l)).
    { apply Forall_forall. intros s [<- Hs]%list_elem_of_filter. rewrite Forall_forall in Hok, Hadm, Hmem.
      destruct (Hmem s Hs). by eapply step_of_lowered; auto. }
    destruct (filter _ l) as [|s ss]; [done|].
    transitivity (step_of k <$> (lowered <$> (s :: ss))); [done|].
    induction Hall as [|x xs Hx _ IH]; [done|]. by rewrite !fmap_cons, Hx, IH.
  - apply sorted_strict, NoDup_fst_map_to_list.
  - intros s Hs. apply sorted_ranks_spec. rewrite Hm. unfold scheduled.
    assert (s ∈ filter (fun x => st_source_rank x = st_source_rank s) l) as Hf by by apply list_elem_of_filter.
    destruct (filter _ l); [by apply elem_of_nil in Hf|]. by eexists.
Qed.

(** Lower, then compile.  An admitted program in the compiled form (steps by
    increasing rank, no fingerprint or deadline) that lowers compiles back to itself:
    with program_compile_lower, the two conversions are inverse on the requests that have
    no empty schedule and no layer chunk counts and on these programs. *)
Theorem program_lower_compile p c r :
  NormalizeReshardProgram p = Ok c -> canonical p -> LowerToStartTransfer p = Ok r ->
  CompileStartTransfer r = Ok p.
Proof.
  intros (f & [Hf Hk Hg Hp Hs Hall Hr])%normalize_ok [Hu Hkind Hfp Hdl Hmem Hsort] H.
  unfold LowerToStartTransfer in H. rewrite Hf in H. step_guard H. injection H as <-.
  apply (recompile_steps _ _ _ Hcall Hall Hmem) in Hsort.
  unfold CompileStartTransfer, HasPoolReshardFields. cbn.
  rewrite bool_decide_eq_false_2 by done. cbn. rewrite Hsort. f_equal.
  destruct p as [[uu rq kd role fp dl] [sts comp pol [su du tp dt]]], pol, f as [gs n]. simpl in *. subst.
  assert (Hg' : group_out <$> (group_in <$> gs) = gs).
  { rewrite <-list_fmap_compose. rewrite <-(list_fmap_id gs) at 2. apply list_fmap_ext. intros i g _. by destruct g. }
  rewrite Hg'. do 2 f_equal.
  - unfold u64, wrap64. destruct (decide (uu < 2 ^ 63)).
    + rewrite (Z.mod_small (uu + _)), Z.mod_small by lia. lia.
    + replace (uu + 2 ^ 63) with (uu - 2 ^ 63 + 1 * 2 ^ 64) by lia. rewrite Z.mod_add, (Z.mod_small (uu - _)) by lia.
      replace (uu - 2 ^ 63 - 2 ^ 63) with (uu + (-1) * 2 ^ 64) by lia. rewrite Z.mod_add, Z.mod_small by lia. lia.
  - by destruct role; simpl in *; try congruence.
Qed.

Definition example_program : TransferProgramRequest :=
  mkRequest (mkEnvelope 9 "r" TRANSFER_KIND_POOL_RESHARD TRANSFER_ROLE_RECEIVER_ARM EmptyString 0)
    (mkProgram [step_of 0 (example_entry 2 5 (Some 0)); step_of 4 (example_entry 3 6 None)]
       (Some (kFanIn (mkFanIn [mkFanInGroup [1] [5; 6] 1 [16; 16] 0] 2)))
       (mkPolicy 1 None ∅ 0 true) (mkBinding [] [] [1] [])).

Lemma program_lower_compile_witness :
  exists r, LowerToStartTransfer example_program = Ok r /\ DeriveArmChipBlockIds r = [5; 6] /\
    CompileStartTransfer r = Ok example_program.
Proof.
  eexists. split; [reflexivity|]. split; [reflexivity|].
  apply (program_lower_compile _ kPoolReshardArm); [reflexivity| |reflexivity].
  split; simpl; [lia|reflexivity|reflexivity|reflexivity|repeat constructor|repeat constructor; simpl; lia].
Defined.

End Program.
