(* ===== verification/ReshardCoordinator.v ===== *)
(** * The reshard coordinator ([src/tpu_sync/kv_cache/reshard/reshard_coordinator.cc])

    The coordinator reads the metadata of the two sides, builds the plan under a fresh
    claim, arms the receiver and only then dispatches the senders.  The transport and the
    controller are not part of this code: they are functions of what is sent, and the
    model records every message in the order it is issued ([Event]).  A payload is the
    message it serializes.  The senders run in parallel threads in the source; they touch
    nothing but their own result, so the model issues them in order.  The calls of other
    threads on the registry between planning and the end of the transfer are a list of
    operations, [during].  The milestone line printed to stderr is not modelled. *)

From S2P Require Import Prelude PoolLayout ReshardTypes WorkUnitDirectory RequestBlockRegistry PoolReshardPlanner TransferProgram.

Module Coordinator.

Import Planner.

(** ** Data *)

Inductive Mode : Type := kFramed | kController.

Record PoolReshardArgs : Type := mkArgs {
  a_src_units : list RaidenId;
  a_dst_units : list RaidenId;
  a_req_id : string;
  a_dst_device_block_ids : list Z;
  has_dst_device_block_ids : bool;
  a_use_block_chunks : bool;
  a_dst_mem_type : Z;
  dst_controller_address : string;
  a_uuid : Z;
  a_is_sender : bool;
  a_num_tokens : option Z;
  a_transfer_pool_tags : list string;
  has_transfer_pool_tags : bool;
  a_parallelism : option Z;
  a_skip_d2h : bool;
  a_dst_block_counts : list Z;
  a_dst_skip_bytes : list Z
}.

Inductive TransferStatus : Type := kNotStarted | kInProgress | kCompleted | kFailed.

Definition MEMORY_TYPE_HBM : Z := 2.

Inductive Command : Type := COMMAND_START_TRANSFER | COMMAND_GET_METADATA.

(** The fields of a [ControlRequest] and a [ControlResponse] this code uses. *)
Record ControlRequest : Type := mkControl {
  command : Command;
  peers : list string;
  start_transfer_request : option Program.StartTransferRequest
}.
Record ControlResponse : Type := mkResponse {
  success : bool;
  message : string;
  metadata : list Metadata
}.
Record TransferProgramResponse : Type := mkProgramResponse {
  p_success : bool;
  p_message : string
}.

(** ** Encoding *)

(** [std::map] order of unit keys: the fields in order. *)
Definition RaidenIdLess (a b : RaidenId) : bool :=
  match String.compare (job_name a) (job_name b) with
  | Lt => true | Gt => false
  | Eq =>
    match String.compare (job_replica_id a) (job_replica_id b) with
    | Lt => true | Gt => false
    | Eq =>
      match String.compare (data_name a) (data_name b) with
      | Lt => true | Gt => false
      | Eq => data_replica_idx a <? data_replica_idx b
      end
    end
  end.

Definition entry_to_proto (entry : ScheduleEntry) : Program.ShardPushEntryProto :=
  Program.mkEntry (dst_peer entry) (dst_shard_idx entry) (e_dst_offset_bytes entry) (e_src_offset_bytes entry)
    (e_size_bytes entry) (wrap32 (src_block_id entry)) (wrap32 (dst_block_id entry))
    (e_src_stride_bytes entry) (e_dst_stride_bytes entry) (e_count entry) (Some (layer_idx entry))
    (Some (pool_group entry)).

Definition group_to_proto (group : PlanPoolGroup) : Program.PoolGroupProto :=
  Program.mkGroup (pool_indices group) (g_dst_device_block_ids group) (expected_pushes group)
    (g_dst_expected_extent_bytes group) (order_rank group).

(** One iteration of the receiver loop. *)
Definition receiver_schedule (plan : PoolReshardPlan) (m : gmap Z (list Program.ShardPushEntryProto))
    (it : RaidenId * list ScheduleEntry) : gmap Z (list Program.ShardPushEntryProto) :=
  match src_schedule_keys plan !! it.1 with
  | None => m
  | Some key =>
      match filter (fun entry => dst_peer entry = plan_dst_peer plan) it.2 with
      | [] => m
      | filtered => <[key := entry_to_proto <$> filtered]> m
      end
  end.

Definition target_schedules (plan : PoolReshardPlan) (target : RaidenId) :
    gmap Z (list Program.ShardPushEntryProto) :=
  if bool_decide (target = plan_dst_unit plan) then
    foldl (receiver_schedule plan) ∅
      (sort_by (fun a b => RaidenIdLess a.1 b.1) (map_to_list (schedules plan)))
  else
    match schedules plan !! target with
    | Some (entry :: entries) => <[0 := entry_to_proto <$> (entry :: entries)]> ∅
    | _ => ∅
    end.

Definition BuildStartTransferForTarget (plan : PoolReshardPlan) (target : RaidenId) :
    Program.StartTransferRequest :=
  Program.mkStart (RaidenIdToProto <$> plan_src_units plan) [RaidenIdToProto (plan_dst_unit plan)]
    (target_schedules plan target) (plan_uuid plan) (bool_decide (target ∈ plan_src_units plan))
    MEMORY_TYPE_HBM true (expected_block_count plan) (plan_req_id plan) (pool_dtype_tags plan)
    (transfer_pool_indices plan) (plan_parallelism plan) (Some (skip_d2h plan))
    (group_to_proto <$> pool_groups plan) ∅ ∅.

Definition EncodeStartTransfer (plan : PoolReshardPlan) (target : RaidenId) : ControlRequest :=
  mkControl COMMAND_START_TRANSFER [plan_dst_peer plan] (Some (BuildStartTransferForTarget plan target)).

(** ** Transport and controller *)

Section execution.

(** [transport_->Call]: the parsed response, [None] when it does not parse. *)
Variable call : string -> ControlRequest -> StatusOr (option ControlResponse).
(** [controller->SubmitTransferProgram] and the await of its future. *)
Variable submit : string -> Program.TransferProgramRequest -> StatusOr TransferProgramResponse.
(** [absl::Uniform], for a request without a uuid. *)
Variable random_uuid : Z.

Inductive Event : Type :=
  | Query (address : string)
  | Arm (address : string) (payload : ControlRequest)
  | SendFramed (unit : RaidenId) (address : string) (payload : ControlRequest)
  | SendProgram (worker_id : list Frag) (program : Program.TransferProgramRequest).

Definition SendWorkerRpc (address : string) (payload : ControlRequest) : Status :=
  let? response := call address payload in
  match response with
  | None => Err kInternal StrCat["Failed to parse worker ControlResponse payload"]
  | Some resp =>
      if negb (success resp) then
        Err kInternal StrCat["Raiden remote native execution failed: "; message resp]
      else OkStatus
  end.

Definition QueryRemoteMetadata (address : string) : StatusOr (list Metadata) :=
  let? response := call address (mkControl COMMAND_GET_METADATA [] None) in
  match response with
  | None => Err kInternal StrCat["Failed to parse remote metadata ControlResponse"]
  | Some resp =>
      if negb (success resp) then
        Err kInternal StrCat["Failed to query remote metadata: "; message resp]
      else Ok (metadata resp)
  end.

Definition send_framed (plan : PoolReshardPlan) (unit : RaidenId) : list Event * Status :=
  match worker_rpc_addresses plan !! unit with
  | None => ([], Err kInternal (StrCat["No control endpoint recorded for "] ++ PythonRepr unit))
  | Some address =>
      ([SendFramed unit address (EncodeStartTransfer plan unit)],
       SendWorkerRpc address (EncodeStartTransfer plan unit))
  end.

(** The submission of one sender: its own status when it fails before a future exists,
    or what it submits. *)
Definition submission (plan : PoolReshardPlan) (unit : RaidenId) :
    StatusOr (list Frag * Program.TransferProgramRequest) :=
  match (src_schedule_keys plan !! unit : option Z) with
  | None => Err kInternal (StrCat["No schedule key assigned for "] ++ PythonRepr unit)
  | Some key =>
      let? compiled := Program.CompileStartTransfer (BuildStartTransferForTarget plan unit) in
      Ok (StrCat["worker_"; key], compiled)
  end.

Definition await_status (resp : StatusOr TransferProgramResponse) : Status :=
  match resp with
  | Err code msg => Err code msg
  | Ok r =>
      if negb (p_success r) then
        Err kInternal StrCat["Raiden remote native execution failed: "; p_message r]
      else OkStatus
  end.

Definition submitted (subs : list (StatusOr (list Frag * Program.TransferProgramRequest))) :
    list (list Frag * Program.TransferProgramRequest) :=
  omap (fun s => match s with Ok x => Some x | Err _ _ => None end) subs.

(** Each failed response is stored at the index of its future. *)
Definition store_status (st : list Status) (ir : nat * Status) : list Status :=
  if ok ir.2 then st else <[ir.1 := ir.2]> st.

Definition send_controller (plan : PoolReshardPlan) : list Event * list Status :=
  let subs := submission plan <$> plan_src_units plan in
  let futures := submitted subs in
  let initial : list Status := (fun s => match s with Ok _ => OkStatus | Err code msg => Err code msg end) <$> subs in
  let responses := (fun f => await_status (submit (render f.1) f.2)) <$> futures in
  ((fun f => SendProgram f.1 f.2) <$> futures,
   foldl store_status initial (imap (fun i r => (i, r)) responses)).

(** The first status that is not ok. *)
Definition first_error (l : list Status) : Status :=
  default OkStatus (head (filter (fun s => ok s = false) l)).

(** ** The transfer *)

Variable D : Type.
Context `{UnitDirectory D}.

Definition plan_request (args : PoolReshardArgs) (uuid : Z) (src dst : list Metadata) : PlanRequest :=
  mkPlanRequest (a_src_units args) (a_dst_units args) src dst (a_req_id args) uuid
    (a_dst_device_block_ids args) (default 0 (a_num_tokens args)) (a_transfer_pool_tags args)
    (a_parallelism args) (a_dst_block_counts args) (a_dst_skip_bytes args).

Definition with_skip_d2h (plan : PoolReshardPlan) (skip : bool) : PoolReshardPlan :=
  mkPlan (plan_src_units plan) (plan_dst_unit plan) (schedules plan) (worker_rpc_addresses plan)
    (plan_dst_peer plan) (plan_uuid plan) (plan_req_id plan) (expected_block_count plan)
    (expected_pushes_per_pool plan) (transfer_pool_indices plan) (pool_dtype_tags plan)
    (plan_dst_device_block_ids plan) (src_schedule_keys plan) (plan_parallelism plan) (plan_num_tokens plan)
    (skipped_pool_counts plan) (plan_dst_expected_extent_bytes plan) (pool_groups plan) skip.

(** Arming the receiver: the messages, the outcome. *)
Definition arm (plan : PoolReshardPlan) : list Event * Status :=
  match worker_rpc_addresses plan !! plan_dst_unit plan with
  | None => ([], Err kInternal (StrCat["No control endpoint recorded for "] ++ PythonRepr (plan_dst_unit plan)))
  | Some address =>
      let payload := EncodeStartTransfer plan (plan_dst_unit plan) in
      ([Arm address payload], SendWorkerRpc address payload)
  end.

Definition dispatch (mode : Mode) (plan : PoolReshardPlan) : list Event * list Status :=
  match mode with
  | kController => send_controller plan
  | kFramed =>
      let rs := send_framed plan <$> plan_src_units plan in
      (rs ≫= fst, rs.*2)
  end.

(** The result of a transfer: its status, the registry, the claim counter, the messages
    in order. *)
Record Outcome : Type := mkOutcome {
  o_status : Status;
  o_registry : Registry.RequestBlockRegistry;
  o_counter : Z;
  o_events : list Event
}.

(** From the plan on; [abandon] is [AbandonClaim] on the registry as other threads left
    it. *)
Definition deliver (mode : Mode) (controller : bool) (plan : PoolReshardPlan)
    (kept abandoned : Registry.RequestBlockRegistry) (counter : Z) (events : list Event) : Outcome :=
  match arm plan with
  | (arm_events, Err code msg) => mkOutcome (Err code msg) abandoned counter (events ++ arm_events)
  | (arm_events, Ok _) =>
      match mode with
      | kController =>
          if negb controller then
            mkOutcome
              (Err kInternal StrCat["WorkerDelivery::Mode::kController requires a non-null controller"])
              abandoned counter (events ++ arm_events)
          else
            let '(sent, statuses) := dispatch mode plan in
            mkOutcome (first_error statuses) kept counter (events ++ arm_events ++ sent)
      | kFramed =>
          let '(sent, statuses) := dispatch mode plan in
          mkOutcome (first_error statuses) kept counter (events ++ arm_events ++ sent)
      end
  end.

Definition fetch_dst (d : WUD.WorkUnitDirectory) (args : PoolReshardArgs) :
    list Event * StatusOr (list Metadata) :=
  if bool_decide (dst_controller_address args = EmptyString) then
    ([], WUD.LocalMetadata d (a_dst_units args))
  else ([Query (dst_controller_address args)], QueryRemoteMetadata (dst_controller_address args)).

Definition transfer_uuid (args : PoolReshardArgs) : Z :=
  if a_uuid args <=? 0 then random_uuid else a_uuid args.

(** A fresh owner comes from the process-wide claim counter. [now] is the clock when
    planning claims, [during] what other threads do to the
    registry until the claim is abandoned or the call returns. *)
Definition ExecutePoolReshard (mode : Mode) (controller : bool) (d : WUD.WorkUnitDirectory) (now : Z)
    (during : list (Z * Registry.Op D)) (claim_counter : Z) (args : PoolReshardArgs)
    (registry : Registry.RequestBlockRegistry) : Outcome :=
  if negb (a_is_sender args) then
    mkOutcome
      (Err kInvalidArgument
         StrCat["Pool reshard coordination must target the source controller: the consumer coordinates with src_controller_address directly (the destination-side relay is retired)"])
      registry claim_counter []
  else
    match WUD.LocalMetadata d (a_src_units args) with
    | Err code msg => mkOutcome (Err code msg) registry claim_counter []
    | Ok src =>
        match fetch_dst d args with
        | (events, Err code msg) => mkOutcome (Err code msg) registry claim_counter events
        | (events, Ok dst) =>
            let uuid := transfer_uuid args in
            let claim_owner := claim_counter in
            let '(plan_or, claimed) := BuildPoolReshardPlan now (plan_request args uuid src dst) registry claim_owner in
            let kept := Registry.run during claimed in
            let abandoned := (Registry.AbandonClaim kept (a_req_id args) uuid claim_owner).2 in
            match plan_or with
            | Err code msg => mkOutcome (Err code msg) abandoned (claim_counter + 1) events
            | Ok plan => deliver mode controller (with_skip_d2h plan (a_skip_d2h args)) kept abandoned (claim_counter + 1) events
            end
        end
    end.

Definition check_args (args : PoolReshardArgs) : Status :=
  if bool_decide (a_src_units args = []) then Err kInvalidArgument StrCat["src_units must not be empty"]
  else if bool_decide (a_dst_units args = []) then Err kInvalidArgument StrCat["dst_units must not be empty"]
  else if bool_decide (a_req_id args = EmptyString) then
    Err kInvalidArgument StrCat["req_id must not be empty for pool resharding"]
  else if negb (has_dst_device_block_ids args) then
    Err kInvalidArgument StrCat["dst_device_block_ids are required for pool resharding"]
  else if default 0 (a_num_tokens args) <? 0 then
    Err kInvalidArgument StrCat["num_tokens must be non-negative for pool resharding"]
  else if bool_decide (a_transfer_pool_tags args = []) then
    Err kInvalidArgument StrCat["transfer_pool_tags must name the pools to move for pool resharding"]
  else if negb (a_use_block_chunks args) then
    Err kInvalidArgument StrCat["Pool resharding requires use_block_chunks=true"]
  else if negb (a_dst_mem_type args =? MEMORY_TYPE_HBM) then
    Err kInvalidArgument StrCat["Pool resharding requires dst_mem_type=HBM"]
  else if match a_parallelism args with Some p => p <=? 0 | None => false end then
    Err kInvalidArgument StrCat["parallelism must be positive"]
  else OkStatus.

(** The coordinator's own state: the status of each request and the claim counter. *)
Record ReshardCoordinator : Type := mkCoordinator {
  transfer_status_ : gmap string TransferStatus;
  c_claim_counter : Z
}.

Definition StartPoolReshard (mode : Mode) (controller : bool) (d : WUD.WorkUnitDirectory) (now : Z)
    (during : list (Z * Registry.Op D)) (c : ReshardCoordinator) (args : PoolReshardArgs)
    (registry : Registry.RequestBlockRegistry) : Outcome * ReshardCoordinator :=
  match check_args args with
  | Err code msg => (mkOutcome (Err code msg) registry (c_claim_counter c) [], c)
  | Ok _ =>
      let out := ExecutePoolReshard mode controller d now during (c_claim_counter c) args registry in
      (out, mkCoordinator
              (<[a_req_id args := if ok (o_status out) then kCompleted else kFailed]>
                 (<[a_req_id args := kInProgress]> (transfer_status_ c)))
              (o_counter out))
  end.

Definition GetTransferStatus (c : ReshardCoordinator) (req_id : string) : TransferStatus :=
  default kNotStarted (transfer_status_ c !! req_id).

End execution.

(** ** The messages of a plan *)

(** The block ids of the schedules fit the message fields. *)
Definition ids_int32 (plan : PoolReshardPlan) : Prop :=
  forall u es e, schedules plan !! u = Some es -> e ∈ es -> in_int32 (src_block_id e) /\ in_int32 (dst_block_id e).

(** What an iteration of the receiver loop stores. *)
Definition contributes (plan : PoolReshardPlan) (l : list (RaidenId * list ScheduleEntry)) (k : Z)
    (es' : list Program.ShardPushEntryProto) : Prop :=
  exists u es, (u, es) ∈ l /\ src_schedule_keys plan !! u = Some k /\
    filter (fun e => dst_peer e = plan_dst_peer plan) es ≠ [] /\
    es' = entry_to_proto <$> filter (fun e => dst_peer e = plan_dst_peer plan) es.

Lemma receiver_fold plan l k es' :
  (forall u v k, src_schedule_keys plan !! u = Some k -> src_schedule_keys plan !! v = Some k -> u = v) ->
  NoDup l.*1 -> foldl (receiver_schedule plan) ∅ l !! k = Some es' <-> contributes plan l k es'.
Proof.
  intros Hinj. revert k es'. induction l as [|[u es] l IH] using rev_ind; intros k es'.
  { intros _. cbn. rewrite lookup_empty. split; [done|]. by intros (? & ? & ?%elem_of_nil & _). }
  rewrite fmap_app, NoDup_app. intros (Hnd & Hdisj & _). rewrite foldl_snoc. unfold receiver_schedule at 1. cbn [fst snd].
  specialize (IH k es' Hnd).
  assert (Hsplit : contributes plan (l ++ [(u, es)]) k es' <-> contributes plan l k es' \/ contributes plan [(u, es)] k es').
  { unfold contributes. setoid_rewrite elem_of_app. naive_solver. }
  rewrite Hsplit. destruct (src_schedule_keys plan !! u) as [key|] eqn:Hkey.
  2:{ rewrite IH. split; [by left|]. intros [?|(v & fs & [= -> ->]%list_elem_of_singleton & Hv & _)]; [done|congruence]. }
  destruct (filter (fun e => dst_peer e = plan_dst_peer plan) es) as [|f fs] eqn:Hf.
  { rewrite IH. split; [by left|]. intros [?|(v & gs & [= -> ->]%list_elem_of_singleton & _ & Hne & _)]; [done|].
    by rewrite Hf in Hne. }
  destruct (decide (key = k)) as [->|Hne].
  - rewrite lookup_insert_eq. split.
    + intros [= <-]. right. exists u, es. rewrite Hf. split; [by left|]. done.
    + intros [(v & gs & Hin & Hv & _)|(v & gs & [= -> ->]%list_elem_of_singleton & _ & _ & ->)]; [|by rewrite Hf].
      rewrite (Hinj v u k Hv Hkey) in Hin. exfalso. apply (Hdisj u); [|by left].
      apply list_elem_of_fmap. by exists (u, gs).
  - rewrite lookup_insert_ne by done. rewrite IH. split; [by left|].
    intros [?|(v & gs & [= -> ->]%list_elem_of_singleton & Hv & _)]; [done|congruence].
Qed.

(** The receiver's schedules: the entries of each sender, keyed by its position. *)
Lemma receiver_schedules plan k es' :
  plan_wf plan -> Z.of_nat (length (plan_src_units plan)) <= int32_max ->
  target_schedules plan (plan_dst_unit plan) !! k = Some es' <->
  exists i u es, plan_src_units plan !! i = Some u /\ k = Z.of_nat i /\ schedules plan !! u = Some es /\
    es' = entry_to_proto <$> es.
Proof.
  intros Hwf Hlen. unfold target_schedules. rewrite bool_decide_eq_true_2 by done.
  assert (Hpos : forall i u, plan_src_units plan !! i = Some u -> wrap32 (Z.of_nat i) = Z.of_nat i).
  { intros i u Hi%lookup_lt_Some. apply wrap32_id. unfold in_int32, int32_min. lia. }
  assert (Hall : forall u es, schedules plan !! u = Some es -> filter (fun e => dst_peer e = plan_dst_peer plan) es = es).
  { intros u es Hes. apply filter_all, Forall_forall. intros e He. by destruct (pw_entries _ Hwf _ _ _ Hes He). }
  rewrite receiver_fold.
  - unfold contributes. setoid_rewrite sort_by_perm. setoid_rewrite elem_of_map_to_list. split.
    + intros (u & es & Hes & (i & Hi & ->)%(pw_keys _ Hwf) & _ & ->). exists i, u, es.
      rewrite (Hall u es Hes), (Hpos i u Hi). done.
    + intros (i & u & es & Hi & -> & Hes & ->). exists u, es. rewrite (Hall u es Hes). split; [done|].
      split; [|split; [|done]].
      * apply (pw_keys _ Hwf). exists i. split; [done|]. by rewrite (Hpos i u Hi).
      * destruct (pw_scheduled _ Hwf u) as (es1 & Hes1 & Hne); [by eapply list_elem_of_lookup_2|]. congruence.
  - intros u v k' (i & Hi & Hk)%(pw_keys _ Hwf) (j & Hj & Hk')%(pw_keys _ Hwf).
    rewrite (Hpos i u Hi) in Hk. rewrite (Hpos j v Hj) in Hk'. replace j with i in Hj by lia. congruence.
  - rewrite sort_by_perm. apply NoDup_fst_map_to_list.
Qed.

(** A sender's schedules: its own entries under key 0. *)
Lemma sender_schedules plan u es :
  plan_wf plan -> u ≠ plan_dst_unit plan -> schedules plan !! u = Some es ->
  target_schedules plan u = {[ 0 := entry_to_proto <$> es ]}.
Proof.
  intros Hwf Hu Hes. unfold target_schedules. rewrite bool_decide_eq_false_2, Hes by done.
  destruct (pw_scheduled _ Hwf u) as (es1 & Hes1 & Hne); [by eapply pw_only|].
  replace es1 with es in Hne by congruence. by destruct es.
Qed.

Lemma with_skip_d2h_wf plan skip : plan_wf plan -> plan_wf (with_skip_d2h plan skip).
Proof. intros [? ? ? ? ? ? ? ?]. by split. Qed.

Lemma entry_to_proto_typed plan u es :
  ids_int32 plan -> schedules plan !! u = Some es -> Forall Program.entry_typed (entry_to_proto <$> es).
Proof.
  intros Hids Hes. apply Forall_fmap, Forall_forall. intros e He. destruct (Hids _ _ _ Hes He).
  split; cbn; rewrite wrap32_id by done; done.
Qed.

(** The program of a sender: it is admitted as a sender program and lowers to the
    request the framed message carries. *)
Lemma sender_program plan u es :
  plan_wf plan -> ids_int32 plan -> in_int64 (plan_uuid plan) ->
  Z.of_nat (length (pool_groups plan)) <= int32_max ->
  u ∈ plan_src_units plan -> u ≠ plan_dst_unit plan -> schedules plan !! u = Some es ->
  exists p, Program.CompileStartTransfer (BuildStartTransferForTarget plan u) = Ok p /\
    Program.NormalizeReshardProgram p = Ok Program.kPoolReshardSender /\
    Program.LowerToStartTransfer p = Ok (BuildStartTransferForTarget plan u).
Proof.
  intros Hwf Hids Huuid Hgroups Hu Hdst Hes. set (r := BuildStartTransferForTarget plan u).
  pose proof (sender_schedules plan u es Hwf Hdst Hes) as Hs.
  destruct (pw_scheduled _ Hwf u Hu) as (es1 & Hes1 & Hne). replace es1 with es in Hne by congruence. clear es1 Hes1.
  assert (Htyped : Program.request_typed r).
  { split; [done|]. intros rank es'. cbn. rewrite Hs. intros [_ <-]%lookup_singleton_Some. by eapply entry_to_proto_typed. }
  assert (Hpool : Program.HasPoolReshardFields r = true).
  { unfold Program.HasPoolReshardFields. cbn. by rewrite bool_decide_eq_false_2 by apply (pw_pools _ Hwf). }
  destruct (Program.compile_lower_spec r Htyped Hpool) as (p & Hc & Hl & Hsame).
  exists p. split; [done|].
  assert (Hcarried : Program.carried r = r).
  { apply Hsame. split; [|done]. intros rank. cbn. rewrite Hs. intros [_ Hnil]%lookup_singleton_Some.
    by apply fmap_nil_inv in Hnil. }
  rewrite Hcarried in Hl. split; [|done].
  apply Program.normalize_ok. unfold Program.CompileStartTransfer in Hc. rewrite Hpool in Hc. injection Hc as <-.
  eexists. split; cbn [Program.completion Program.program Program.envelope Program.v_kind Program.v_role Program.reshard
    Program.b_transfer_pool_indices Program.steps Program.groups]; [reflexivity|by left| |apply (pw_pools _ Hwf)| | |cbn; by rewrite bool_decide_eq_true_2].
  - destruct es as [|e es]; [done|]. destruct (pw_entries _ Hwf u (e :: es) e Hes) as (_ & g & Hg & _); [by left|].
    by destruct (pool_groups plan); [simpl in Hg; lia|].
  - intros Hnil. pose proof (Program.filter_compile_steps (target_schedules plan u) 0) as Hf.
    rewrite Hnil, Hs, lookup_singleton_eq in Hf. symmetry in Hf. cbn in Hf. by apply fmap_nil_inv, fmap_nil_inv in Hf.
  - unfold Program.compile_steps. apply Forall_bind, Forall_forall. intros rank _. apply Forall_fmap.
    change (Program.shard_push_schedules r) with (target_schedules plan u). rewrite Hs.
    destruct (decide (rank = 0)) as [->|Hr]; [|rewrite lookup_singleton_ne by done; constructor].
    rewrite lookup_singleton_eq. cbn [default]. apply Forall_fmap, Forall_forall. intros e He.
    destruct (pw_entries _ Hwf u es e Hes He) as (_ & g & Hg & Hpg).
    split; [by eexists|]. split; [done|]. split; [done|]. intros g' [= <-]. cbn [Program.groups].
    rewrite Hpg, !length_fmap, wrap32_id; [lia|]. unfold in_int32, int32_min. lia.
Qed.

(** C2: The messages of a plan agree.  For a plan BuildPoolReshardPlan returned (with block
    ids, ranks and tags in 32 bits): the receiver is told to expect, under the position of
    each sender, exactly the entries of that sender and nothing else; each sender is told
    to send those same entries under key 0; no block id is changed by the conversion; and
    the program the controller delivery submits for a sender is admitted as a sender
    program and lowers to the very request the framed delivery sends. *)
Theorem coordinator_messages_exact now req registry owner built registry' skip :
  request_ok req -> registry_ok registry ->
  BuildPoolReshardPlan now req registry owner = (Ok built, registry') ->
  Z.of_nat (length (src_units req)) <= int32_max -> Z.of_nat (length (transfer_pool_tags req)) <= int32_max ->
  in_int64 (uuid req) -> ids_int32 built ->
  let plan := with_skip_d2h built skip in
  let receiver := Program.shard_push_schedules (BuildStartTransferForTarget plan (plan_dst_unit plan)) in
  (forall k es', receiver !! k = Some es' <->
     exists i u es, plan_src_units plan !! i = Some u /\ k = Z.of_nat i /\ schedules plan !! u = Some es /\
       es' = entry_to_proto <$> es) /\
  (forall i u, plan_src_units plan !! i = Some u -> u ≠ plan_dst_unit plan ->
     exists es' p, receiver !! Z.of_nat i = Some es' /\ es' ≠ [] /\
       Program.shard_push_schedules (BuildStartTransferForTarget plan u) = {[ 0 := es' ]} /\
       Program.CompileStartTransfer (BuildStartTransferForTarget plan u) = Ok p /\
       Program.NormalizeReshardProgram p = Ok Program.kPoolReshardSender /\
       Program.LowerToStartTransfer p = Ok (BuildStartTransferForTarget plan u)) /\
  (forall u es e, schedules plan !! u = Some es -> e ∈ es ->
     Program.e_src_block_id (entry_to_proto e) = src_block_id e /\
     Program.e_dst_block_id (entry_to_proto e) = dst_block_id e).
Proof.
  intros Hreq Hreg Hb Hsrc Htags Huuid Hids plan receiver.
  destruct (plan_built_wf _ _ _ _ _ _ Hreq Hreg Hb) as (Hwf0 & Hlen & Hgroups & Hu).
  pose proof (with_skip_d2h_wf built skip Hwf0) as Hwf. fold plan in Hwf.
  assert (Hlen' : Z.of_nat (length (plan_src_units plan)) <= int32_max) by (cbn; lia).
  pose proof (fun k es' => receiver_schedules plan k es' Hwf Hlen') as Hrecv. split; [exact Hrecv|]. split.
  - intros i u Hi Hne. pose proof (list_elem_of_lookup_2 _ _ _ Hi) as Hin.
    destruct (pw_scheduled _ Hwf u Hin) as (es & Hes & Hnil).
    destruct (sender_program plan u es Hwf) as (p & Hp); [done|cbn; congruence|cbn; lia|done..|].
    exists (entry_to_proto <$> es), p. split; [apply Hrecv; by exists i, u, es|].
    split; [by intros ?%fmap_nil_inv|]. split; [by apply sender_schedules|done].
  - intros u es e Hes He. destruct (Hids u es e Hes He). cbn. by rewrite !wrap32_id.
Qed.

(** The boolean form, for concrete plans. *)
Definition ids_int32b (plan : PoolReshardPlan) : bool :=
  forallb (fun kv : RaidenId * list ScheduleEntry =>
    forallb (fun e => (int32_min <=? src_block_id e) && (src_block_id e <=? int32_max) &&
                      (int32_min <=? dst_block_id e) && (dst_block_id e <=? int32_max)) kv.2)
    (map_to_list (schedules plan)).

Lemma ids_int32b_ok plan : ids_int32b plan = true -> ids_int32 plan.
Proof.
  intros H u es e Hes He. unfold ids_int32b in H. rewrite forallb_forall in H.
  specialize (H (u, es)). rewrite <-list_elem_of_In, elem_of_map_to_list in H. specialize (H Hes). cbn in H.
  rewrite forallb_forall in H. specialize (H e). rewrite <-list_elem_of_In in H. specialize (H He). to_prop.
  unfold in_int32. lia.
Qed.

Lemma coordinator_messages_exact_witness :
  let plan := with_skip_d2h (Registry.ok_value no_plan example_build.1) true in
  let receiver := Program.shard_push_schedules (BuildStartTransferForTarget plan (plan_dst_unit plan)) in
  ok example_build.1 = true /\ (length <$> receiver !! 0) = Some 10%nat /\ (length <$> receiver !! 1) = Some 4%nat /\
  exists es', receiver !! 1 = Some es' /\
    Program.shard_push_schedules (BuildStartTransferForTarget plan Registry.unit1) = {[ 0 := es' ]}.
Proof.
  intros plan receiver. split; [vm_compute; reflexivity|]. split; [vm_compute; reflexivity|].
  split; [vm_compute; reflexivity|].
  pose proof (Registry.pair_ok_eq no_plan example_build ltac:(vm_compute; reflexivity)) as H.
  destruct (coordinator_messages_exact 1 example_request example_registry 5 _ _ true example_request_ok
    example_registry_ok H) as (_ & Hs & _).
  - vm_compute. discriminate.
  - vm_compute. discriminate.
  - vm_compute. split; discriminate.
  - apply ids_int32b_ok. vm_compute. reflexivity.
  - destruct (Hs 1%nat Registry.unit1) as (es' & p & Hr & _ & Hsch & _); [vm_compute; reflexivity|vm_compute; discriminate|].
    exists es'. split; [exact Hr|exact Hsch].
Defined.

(** ** The order of the messages and the claim *)

Section protocol.
Variable call : string -> ControlRequest -> StatusOr (option ControlResponse).
Variable submit : string -> Program.TransferProgramRequest -> StatusOr TransferProgramResponse.
Variable random_uuid : Z.
Variable D : Type.
Context `{UnitDirectory D}.

Definition is_send (e : Event) : bool :=
  match e with SendFramed _ _ _ | SendProgram _ _ => true | _ => false end.

(** A message to a sender of the plan. *)
Definition sender_event (plan : PoolReshardPlan) (e : Event) : Prop :=
  match e with
  | SendFramed u address payload =>
      u ∈ plan_src_units plan /\ worker_rpc_addresses plan !! u = Some address /\
      payload = EncodeStartTransfer plan u
  | SendProgram worker p =>
      exists u (key : Z), u ∈ plan_src_units plan /\ src_schedule_keys plan !! u = Some key /\
        worker = StrCat["worker_"; key] /\
        Program.CompileStartTransfer (BuildStartTransferForTarget plan u) = Ok p
  | _ => False
  end.

Lemma dispatch_events mode plan : Forall (sender_event plan) (dispatch call submit mode plan).1.
Proof.
  destruct mode; cbn.
  - apply Forall_bind, Forall_fmap, Forall_forall. intros u Hu. cbn. unfold send_framed.
    destruct (worker_rpc_addresses plan !! u) as [a|] eqn:E; [|constructor]. by repeat constructor.
  - apply Forall_fmap, Forall_forall. intros [w p] Hin. unfold submitted in Hin.
    apply list_elem_of_omap in Hin as (sub & Hsub & Hx). apply list_elem_of_fmap in Hsub as (u & -> & Hu).
    unfold submission in Hx. destruct (src_schedule_keys plan !! u : option Z) as [key|] eqn:E; [|done].
    destruct (Program.CompileStartTransfer _) as [c|] eqn:Hc; [|done]. injection Hx as <- <-. cbn. by exists u, key.
Qed.

Lemma dispatch_sends mode plan :
  plan_wf plan -> existsb is_send (dispatch call submit mode plan).1 = true.
Proof.
  intros Hwf. assert (Hne : exists e, e ∈ (dispatch call submit mode plan).1 /\ is_send e = true).
  { destruct (plan_src_units plan) as [|u us] eqn:Hu; [by destruct (pw_nonempty _ Hwf)|].
    assert (Hin : u ∈ plan_src_units plan) by (rewrite Hu; by left). destruct mode; cbn.
    - destruct (pw_address _ Hwf u) as [a Ha]; [by right|].
      exists (SendFramed u a (EncodeStartTransfer plan u)). split; [|done].
      apply list_elem_of_bind. exists (send_framed call plan u). split; [|by apply list_elem_of_fmap; exists u].
      unfold send_framed. rewrite Ha. by left.
    - apply list_elem_of_lookup_1 in Hin as [i Hi]. pose proof (list_elem_of_lookup_2 _ _ _ Hi) as Hin.
      assert (Hkey : src_schedule_keys plan !! u = Some (wrap32 (Z.of_nat i))) by (apply (pw_keys _ Hwf); by exists i).
      destruct (submission plan u) as [[w p]|] eqn:Hsub.
      + exists (SendProgram w p). split; [|done]. apply list_elem_of_fmap. exists (w, p). split; [done|].
        unfold submitted. apply list_elem_of_omap. exists (submission plan u). rewrite Hsub.
        split; [|done]. apply list_elem_of_fmap. by exists u.
      + unfold submission in Hsub. rewrite Hkey in Hsub.
        unfold Program.CompileStartTransfer, Program.HasPoolReshardFields in Hsub. cbn in Hsub.
        by rewrite bool_decide_eq_false_2 in Hsub by apply (pw_pools _ Hwf). }
  destruct Hne as (e & Hin & He). apply existsb_exists. exists e. split; [by apply list_elem_of_In|done].
Qed.

(** The messages of an execution: queries, then the arming of the receiver, then, only
    when it was acknowledged, the messages to the senders of the same plan. *)
Definition ordered_events (events : list Event) : Prop :=
  exists pre rest, events = pre ++ rest /\ Forall (fun e => exists address, e = Query address) pre /\
    (rest = [] \/ exists plan address sent,
       rest = Arm address (EncodeStartTransfer plan (plan_dst_unit plan)) :: sent /\
       worker_rpc_addresses plan !! plan_dst_unit plan = Some address /\
       Forall (sender_event plan) sent /\
       (sent ≠ [] -> SendWorkerRpc call address (EncodeStartTransfer plan (plan_dst_unit plan)) = OkStatus)).

Lemma deliver_ordered mode controller plan kept abandoned counter pre :
  Forall (fun e => exists address, e = Query address) pre ->
  ordered_events (o_events (deliver call submit mode controller plan kept abandoned counter pre)).
Proof.
  intros Hpre. unfold deliver, arm.
  destruct (worker_rpc_addresses plan !! plan_dst_unit plan) as [address|] eqn:Ha.
  2:{ exists pre, []. split; [done|]. split; [done|]. by left. }
  destruct (SendWorkerRpc call address _) as [[]|] eqn:Hs.
  2:{ eexists pre, _. split; [reflexivity|]. split; [done|]. right. eexists plan, address, []. by repeat split. }
  pose proof (dispatch_events mode plan) as Hd.
  assert (Hfull : forall sent, Forall (sender_event plan) sent ->
    ordered_events (pre ++ [Arm address (EncodeStartTransfer plan (plan_dst_unit plan))] ++ sent)).
  { intros sent Hsent. eexists pre, _. split; [reflexivity|]. split; [done|]. right. by eexists plan, address, sent. }
  destruct mode; [|destruct controller; [|by apply (Hfull [])]];
    destruct (dispatch call submit _ plan) as [sent statuses]; by apply Hfull.
Qed.

Lemma fetch_dst_events d args : Forall (fun e => exists address, e = Query address) (fetch_dst call d args).1.
Proof. unfold fetch_dst. case_bool_decide; cbn; repeat constructor. by eexists. Qed.

(** Receiver first.  In every execution, with any transport and controller behaviour,
    no message reaches a sender before the receiver of the same plan was armed and
    acknowledged it; the receiver is armed at most once; each message carries the request
    built for its target. *)
Theorem coordinator_arms_first mode controller d now (during : list (Z * Registry.Op D)) c args registry :
  ordered_events
    (o_events (StartPoolReshard call submit random_uuid D mode controller d now during c args registry).1).
Proof.
  assert (Hq : forall pre, Forall (fun e => exists address, e = Query address) pre -> ordered_events pre).
  { intros pre Hpre. exists pre, []. rewrite app_nil_r. split; [done|]. split; [done|]. by left. }
  unfold StartPoolReshard. destruct (check_args args); [|apply Hq; constructor]. cbn [fst].
  unfold ExecutePoolReshard. destruct (negb _); [apply Hq; constructor|].
  destruct (WUD.LocalMetadata d (a_src_units args)) as [src|]; [|apply Hq; constructor].
  pose proof (fetch_dst_events d args) as Hf. destruct (fetch_dst call d args) as [pre [dst|]]; [|by apply Hq].
  destruct (BuildPoolReshardPlan _ _ _ _) as [[plan|] claimed]; [|by apply Hq]. by apply deliver_ordered.
Qed.

(** ** The claim *)

Lemma abandon_not_held s req_id uuid owner e :
  ~ Registry.holds (Registry.AbandonClaim s req_id uuid owner).2 (req_id, uuid) owner e.
Proof.
  unfold Registry.AbandonClaim, Registry.holds. destruct (_ || _) eqn:E; cbn.
  - intros [Hc Ho]. rewrite Hc, Ho in E. cbn in E. rewrite Z.eqb_refl in E. done.
  - rewrite lookup_delete_eq. by intros [? _].
Qed.

Lemma build_registry now req registry owner result registry' :
  BuildPoolReshardPlan now req registry owner = (Ok result, registry') ->
  exists rows, Registry.LookupAndClaim now registry (req_id req) (uuid req) (src_units req) owner = (Ok rows, registry').
Proof.
  unfold BuildPoolReshardPlan. destruct (prepare req) as [p|]; [|done].
  destruct (Registry.LookupAndClaim _ _ _ _ _ _) as [[rows|] s'] eqn:Hl; [|done]. intros [= _ <-]. by exists rows.
Qed.

Lemma queries_no_send pre : Forall (fun e => exists address, e = Query address) pre -> existsb is_send pre = false.
Proof. induction 1 as [|e pre (a & ->) _ IH]; [done|]. exact IH. Qed.

(** What an execution leaves of its claim. *)
Definition claim_settled (owner : Z) (key : string * Z) (kept : Registry.RequestBlockRegistry -> Prop)
    (out : Outcome) : Prop :=
  (existsb is_send (o_events out) = false ->
     ok (o_status out) = false /\ forall e, ~ Registry.holds (o_registry out) key owner e) /\
  (existsb is_send (o_events out) = true -> kept (o_registry out)).

Lemma deliver_settled mode controller plan kept_registry counter pre owner req_id uuid (kept : Registry.RequestBlockRegistry -> Prop) :
  plan_wf plan -> Forall (fun e => exists address, e = Query address) pre -> kept kept_registry ->
  claim_settled owner (req_id, uuid) kept
    (deliver call submit mode controller plan kept_registry
       (Registry.AbandonClaim kept_registry req_id uuid owner).2 counter pre).
Proof.
  intros Hwf Hpre%queries_no_send Hkept. unfold deliver, arm.
  destruct (pw_address _ Hwf (plan_dst_unit plan)) as [address Ha]; [by left|]. rewrite Ha.
  destruct (SendWorkerRpc call address _) as [[]|] eqn:Hs.
  2:{ split; cbn; rewrite existsb_app, Hpre; cbn; [|done]. intros _. split; [done|]. apply abandon_not_held. }
  assert (Hsent : forall m sent statuses, dispatch call submit m plan = (sent, statuses) -> existsb is_send sent = true).
  { intros m sent statuses Hd. pose proof (dispatch_sends m plan Hwf) as Hsend. by rewrite Hd in Hsend. }
  destruct mode; [|destruct controller]; cbn [negb].
  - destruct (dispatch call submit kFramed plan) as [sent statuses] eqn:Hd.
    split; cbn; rewrite existsb_app, Hpre; cbn; rewrite (Hsent _ _ _ Hd); done.
  - destruct (dispatch call submit kController plan) as [sent statuses] eqn:Hd.
    split; cbn; rewrite existsb_app, Hpre; cbn; rewrite (Hsent _ _ _ Hd); done.
  - split; cbn; rewrite existsb_app, Hpre; cbn; [|done]. intros _. split; [done|]. apply abandon_not_held.
Qed.

(** C21: The claim of a transfer.  With a fresh owner, whatever other threads do to the
    registry meanwhile: a transfer that messaged no sender has failed and does not hold
    its claim any more, so the request can be planned again; once a sender was messaged
    the claim was taken and is never rolled back by the coordinator. *)
Theorem coordinator_claim_discipline mode controller d now (during : list (Z * Registry.Op D)) c args registry :
  (forall k, Registry.claimed_owners_ registry !! k ≠ Some (c_claim_counter c)) -> registry_ok registry ->
  (forall src dst, WUD.LocalMetadata d (a_src_units args) = Ok src -> (fetch_dst call d args).2 = Ok dst ->
     request_ok (plan_request args (transfer_uuid random_uuid args) src dst)) ->
  claim_settled (c_claim_counter c) (a_req_id args, transfer_uuid random_uuid args)
    (fun final => exists rows claimed,
       Registry.LookupAndClaim now registry (a_req_id args) (transfer_uuid random_uuid args) (a_src_units args)
         (c_claim_counter c) = (Ok rows, claimed) /\ final = Registry.run during claimed)
    (StartPoolReshard call submit random_uuid D mode controller d now during c args registry).1.
Proof.
  intros Hfresh Hreg Hreq.
  assert (Hpre : forall code msg pre counter kept, Forall (fun e => exists address, e = Query address) pre ->
    claim_settled (c_claim_counter c) (a_req_id args, transfer_uuid random_uuid args) kept
      (mkOutcome (Err code msg) registry counter pre)).
  { intros code msg pre counter kept Hq%queries_no_send. split; cbn; rewrite Hq; [|done]. intros _. split; [done|].
    intros e [_ Ho]. by apply (Hfresh _ Ho). }
  unfold StartPoolReshard. destruct (check_args args); [|apply Hpre; constructor]. cbn [fst].
  unfold ExecutePoolReshard. destruct (negb _); [apply Hpre; constructor|].
  destruct (WUD.LocalMetadata d (a_src_units args)) as [src|] eqn:Hsrc; [|apply Hpre; constructor].
  pose proof (fetch_dst_events d args) as Hf. destruct (fetch_dst call d args) as [pre [dst|]] eqn:Hdst; [|by apply Hpre].
  specialize (Hreq src dst eq_refl eq_refl). cbn [fst] in Hf.
  destruct (BuildPoolReshardPlan _ _ _ _) as [[plan|] claimed] eqn:Hb.
  - destruct (plan_built_wf _ _ _ _ _ _ Hreq Hreg Hb) as (Hwf & _).
    apply deliver_settled; [by apply with_skip_d2h_wf|done|].
    destruct (build_registry _ _ _ _ _ _ Hb) as (rows & Hl). by exists rows, claimed.
  - apply queries_no_send in Hf. split; cbn; rewrite Hf; [|done]. intros _. split; [done|]. apply abandon_not_held.
Qed.

End protocol.

(** ** A concrete transfer *)

Definition example_unit2 : RaidenId := mkRaidenId EmptyString EmptyString EmptyString 2.
Definition example_registration (u : RaidenId) (rank : Z) (pool : Pool.PoolSpecProto) : WUD.WorkUnitRegistration :=
  WUD.mkReg u ["h:1"%string] (Some "c"%string) None None None None (Some [pool]) (Some "f"%string) None (Some 4)
    (Some rank) None.
Definition example_directory : WUD.WorkUnitDirectory :=
  WUD.run [example_registration Registry.unit0 0 example_src_pool; example_registration Registry.unit1 1 example_src_pool;
           example_registration example_unit2 0 example_dst_pool].
Definition example_args : PoolReshardArgs :=
  mkArgs [Registry.unit1; Registry.unit0] [example_unit2] "r" [5; 3; 9] true true MEMORY_TYPE_HBM EmptyString 7 true
    (Some 10) ["kv"%string] true None false [] [].
Definition acknowledge (address : string) (payload : ControlRequest) : StatusOr (option ControlResponse) :=
  Ok (Some (mkResponse true EmptyString [])).
Definition refuse (address : string) (payload : ControlRequest) : StatusOr (option ControlResponse) :=
  Ok (Some (mkResponse false "busy" [])).
Definition accept (worker : string) (p : Program.TransferProgramRequest) : StatusOr TransferProgramResponse :=
  Ok (mkProgramResponse true EmptyString).

Definition example_run (call : string -> ControlRequest -> StatusOr (option ControlResponse)) : Outcome :=
  (StartPoolReshard call accept 1 WUD.WorkUnitDirectory kFramed false example_directory 1 []
     (mkCoordinator ∅ 5) example_args example_registry).1.

Lemma example_metadata_ok src dst :
  WUD.LocalMetadata example_directory [Registry.unit1; Registry.unit0] = Ok src ->
  WUD.LocalMetadata example_directory [example_unit2] = Ok dst ->
  request_ok (plan_request example_args 7 src dst).
Proof.
  intros Hs Hd. vm_compute in Hs, Hd. injection Hs as <-. injection Hd as <-.
  destruct example_pools_ok as [Hsrc Hdst]. split; [| |vm_compute; discriminate|constructor].
  - apply Forall_cons. split; [apply Forall_singleton; exact Hsrc|].
    apply Forall_singleton, Forall_singleton. exact Hsrc.
  - apply Forall_singleton, Forall_singleton. exact Hdst.
Qed.

Lemma coordinator_claim_discipline_witness :
  (length (o_events (example_run acknowledge)) = 3%nat /\ ok (o_status (example_run acknowledge)) = true) /\
  (exists rows claimed, Registry.LookupAndClaim 1 example_registry "r" 7 [Registry.unit1; Registry.unit0] 5 = (Ok rows, claimed) /\
     o_registry (example_run acknowledge) = claimed) /\
  (length (o_events (example_run refuse)) = 1%nat /\ ok (o_status (example_run refuse)) = false) /\
  forall e, ~ Registry.holds (o_registry (example_run refuse)) ("r"%string, 7) 5 e.
Proof.
  assert (Hfresh : forall k, Registry.claimed_owners_ example_registry !! k ≠ Some 5) by (intros k; discriminate).
  split; [split; vm_compute; reflexivity|]. split; [|split; [split; vm_compute; reflexivity|]].
  - destruct (coordinator_claim_discipline acknowledge accept 1 WUD.WorkUnitDirectory kFramed false example_directory 1 []
      (mkCoordinator ∅ 5) example_args example_registry Hfresh example_registry_ok) as [_ H].
    { intros src dst Hs Hd. exact (example_metadata_ok src dst Hs Hd). }
    destruct H as (rows & claimed & Hl & Hfinal); [vm_compute; reflexivity|].
    exists rows, claimed. split; [exact Hl|exact Hfinal].
  - destruct (coordinator_claim_discipline refuse accept 1 WUD.WorkUnitDirectory kFramed false example_directory 1 []
      (mkCoordinator ∅ 5) example_args example_registry Hfresh example_registry_ok) as [H _].
    { intros src dst Hs Hd. exact (example_metadata_ok src dst Hs Hd). }
    apply H. vm_compute. reflexivity.
Defined.

End Coordinator.
