(* ===== verification/ChunkSerializer.v ===== *)
(** * Chunk headers on the wire ([src/tpu_sync/transport/lib/chunk_serializer.cc])

    The header and the metadata of a chunk are FlatBuffers structs copied byte for byte:
    fixed layouts of little-endian scalars at naturally aligned offsets ([chunk.fbs]; the
    sizes 64 and 24 leave no gap between the fields).  A scalar is kept at its width; a
    byte is an integer from 0 to 255.  [DCHECK]s are not compiled into release builds and
    are not modelled. *)

From S2P Require Import Prelude Bytes.

Module Chunk.

(** ** Data ([chunk.h]) *)

Record ChunkHeader : Type := mkHeader {
  version : Z;
  op : Z;
  flags : Z;
  buffer_id : Z;
  reserved : Z;
  metadata_size : Z;
  padding : Z;
  remote_id : Z;
  local_id : Z;
  count_or_size : Z;
  uuid : Z
}.

Record ChunkMetadata : Type := mkMetadata {
  layer_idx : Z;
  dst_shard_idx : Z;
  dst_offset_bytes : Z;
  size_bytes : Z
}.

#[global] Instance ChunkHeader_eq_dec : EqDecision ChunkHeader.
Proof. solve_decision. Defined.
#[global] Instance ChunkMetadata_eq_dec : EqDecision ChunkMetadata.
Proof. solve_decision. Defined.

Definition kChunkHeaderSize : nat := 64.
Definition kMaxMetadataSize : nat := 24.
Definition kChunkSizeFieldSize : nat := 4.
(** 'RD' in little endian. *)
Definition kRaidenMagic : Z := 17490.

Definition GetChunkMetadataSize (ver : Z) : nat := if ver =? 1 then 24%nat else 0%nat.

(** The scalar of [n] bytes at an offset. *)
Definition field (bytes : list Z) (off n : nat) : Z := of_le (load bytes off n).

(** ** The header *)

(** The object copied to the wire: magic, version, the fields, four padding words. *)
Definition SerializeHeaderV1 (header : ChunkHeader) : list Z :=
  le_bytes 2 kRaidenMagic ++ le_bytes 2 1 ++ le_bytes 1 (op header) ++ le_bytes 1 (flags header) ++
  le_bytes 2 (buffer_id header) ++ le_bytes 2 (reserved header) ++ le_bytes 2 (metadata_size header) ++
  le_bytes 4 (remote_id header) ++ le_bytes 4 (local_id header) ++ le_bytes 4 (count_or_size header) ++
  le_bytes 8 (uuid header) ++ le_bytes 8 0 ++ le_bytes 8 0 ++ le_bytes 8 0 ++ le_bytes 8 0.

Definition DeserializeHeaderV1 (h : list Z) : ChunkHeader :=
  mkHeader (field h 2 2) (field h 4 1) (field h 5 1) (field h 6 2) (field h 8 2) (field h 10 2) 0
    (field h 12 4) (field h 16 4) (field h 20 4) (field h 24 8).

Definition SerializeChunkHeader (header : ChunkHeader) : list Z := SerializeHeaderV1 header.

Definition DeserializeChunkHeader (s : list Z) : StatusOr ChunkHeader :=
  if negb (length s =? kChunkHeaderSize)%nat then
    Err kInvalidArgument StrCat["Invalid chunk header size"]
  else
    let magic := field s 0 2 in
    if negb (magic =? kRaidenMagic) then
      Err kInvalidArgument
        StrCat["Chunk header magic mismatch: expected "; kRaidenMagic; ", got "; magic]
    else
      let ver := field s 2 2 in
      if ver =? 1 then Ok (DeserializeHeaderV1 s)
      else Err kFailedPrecondition StrCat["Unsupported chunk header flatbuf version: "; ver].

(** ** The metadata *)

Definition SerializeMetadataV1 (meta : ChunkMetadata) : list Z :=
  le_bytes 4 (layer_idx meta) ++ le_bytes 4 (dst_shard_idx meta) ++ le_bytes 8 (dst_offset_bytes meta) ++
  le_bytes 8 (size_bytes meta).

Definition DeserializeMetadataV1 (m : list Z) : ChunkMetadata :=
  mkMetadata (field m 0 4) (field m 4 4) (field m 8 8) (field m 16 8).

Definition SerializeChunkMetadata (meta : ChunkMetadata) : list Z := SerializeMetadataV1 meta.

Definition DeserializeChunkMetadata (s : list Z) (ver : Z) : StatusOr ChunkMetadata :=
  let meta_size := GetChunkMetadataSize ver in
  if negb (length s =? meta_size)%nat then
    Err kInvalidArgument StrCat["Invalid chunk metadata size"]
  else if ver =? 1 then Ok (DeserializeMetadataV1 s)
  else Err kFailedPrecondition StrCat["Unsupported chunk metadata flatbuf version: "; ver].

(** ** Block ids and sizes *)

Definition SerializeBlockIds (ids : list Z) : list Z := ids ≫= fun id => le_bytes 4 (u32 id).

(** The loop reads [bytes.size() / 4] words; a shorter rest is ignored. *)
Definition DeserializeBlockIds (bytes : list Z) : list Z :=
  (fun i : nat => wrap32 (field bytes (i * 4) 4)) <$> seq 0 (length bytes / 4).

Definition SerializeChunkSize (size : Z) : list Z := le_bytes 4 size.
Definition DeserializeChunkSize (bytes : list Z) : Z := field bytes 0 4.

(** ** Widths *)

Definition in_u (n : nat) (x : Z) : Prop := 0 <= x < 256 ^ Z.of_nat n.

Definition header_typed (h : ChunkHeader) : Prop :=
  in_u 2 (version h) /\ in_u 1 (op h) /\ in_u 1 (flags h) /\ in_u 2 (buffer_id h) /\ in_u 2 (reserved h) /\
  in_u 2 (metadata_size h) /\ in_u 2 (padding h) /\ in_u 4 (remote_id h) /\ in_u 4 (local_id h) /\
  in_u 4 (count_or_size h) /\ in_u 8 (uuid h).
Definition metadata_typed (m : ChunkMetadata) : Prop :=
  in_u 4 (layer_idx m) /\ in_u 4 (dst_shard_idx m) /\ in_u 8 (dst_offset_bytes m) /\ in_u 8 (size_bytes m).

(** What the wire carries of a header: its version is always 1 and its own padding is not
    sent. *)
Definition on_wire (h : ChunkHeader) : ChunkHeader :=
  mkHeader 1 (op h) (flags h) (buffer_id h) (reserved h) (metadata_size h) 0 (remote_id h) (local_id h)
    (count_or_size h) (uuid h).

(** ** Reading back fields *)

(** A field of a concatenation, past the bytes before it. *)
Lemma field_skip pre rest off n : (length pre <= off)%nat -> field (pre ++ rest) off n = field rest (off - length pre) n.
Proof.
  intros H. unfold field, load. rewrite drop_app_ge by done. done.
Qed.
Lemma field_here n z rest : in_u n z -> field (le_bytes n z ++ rest) 0 n = z.
Proof.
  intros H. unfold field, load. rewrite drop_0, take_app_length' by (by rewrite length_le_bytes). by apply of_le_le_bytes.
Qed.
Lemma field_only n z : in_u n z -> field (le_bytes n z) 0 n = z.
Proof. intros H. rewrite <-(app_nil_r (le_bytes n z)). by apply field_here. Qed.

(** Walk over the serialized fields up to the one that is read. *)
Ltac read_field :=
  rewrite ?field_skip by (rewrite ?length_le_bytes; lia); rewrite ?length_le_bytes; simpl Nat.sub;
  first [apply field_here | apply field_only]; first [done | by vm_compute].

(** Consecutive fields cover the bytes. *)
Lemma load_app bytes off n m : load bytes off n ++ load bytes (off + n) m = load bytes off (n + m).
Proof.
  unfold load. rewrite <-(take_drop n (take (n + m) (drop off bytes))).
  rewrite take_take, Nat.min_l by lia. f_equal. rewrite skipn_firstn_comm, drop_drop.
  f_equal. lia.
Qed.

Lemma field_bytes bytes off n :
  Forall is_byte bytes -> (off + n <= length bytes)%nat -> le_bytes n (field bytes off n) = load bytes off n.
Proof.
  intros Hb Hn. unfold field. pose proof (length_load bytes off n Hn) as Hl.
  rewrite <-Hl at 1. apply le_bytes_of_le. unfold load. by apply Forall_take, Forall_drop.
Qed.

Lemma length_header h : length (SerializeChunkHeader h) = kChunkHeaderSize.
Proof. unfold SerializeChunkHeader, SerializeHeaderV1. rewrite !length_app, !length_le_bytes. reflexivity. Qed.

(** Header round trip.  A header is serialized to 64 bytes that parse back to it, with
    version 1 and zero padding whatever the caller had put there. *)
Theorem chunk_header_roundtrip h :
  header_typed h ->
  length (SerializeChunkHeader h) = kChunkHeaderSize /\
  DeserializeChunkHeader (SerializeChunkHeader h) = Ok (on_wire h).
Proof.
  intros (_ & Ho & Hf & Hb & Hr & Hm & _ & H1 & H2 & H3 & Hu). split; [apply length_header|].
  unfold DeserializeChunkHeader. rewrite length_header. cbn [negb Nat.eqb kChunkHeaderSize].
  assert (field (SerializeChunkHeader h) 0 2 = kRaidenMagic) as ->
    by (unfold SerializeChunkHeader, SerializeHeaderV1; read_field).
  assert (Hver : field (SerializeChunkHeader h) 2 2 = 1)
    by (unfold SerializeChunkHeader, SerializeHeaderV1; read_field).
  rewrite Hver, Z.eqb_refl. cbn [negb Z.eqb Pos.eqb]. unfold DeserializeHeaderV1, on_wire. rewrite Hver.
  unfold SerializeChunkHeader, SerializeHeaderV1. repeat f_equal; read_field.
Qed.

Lemma chunk_header_roundtrip_witness :
  let h := mkHeader 9 5 1 300 2 24 7 70000 3 4294967295 18446744073709551615 in
  header_typed h /\ DeserializeChunkHeader (SerializeChunkHeader h) = Ok (on_wire h) /\
  take 4 (SerializeChunkHeader h) = [82; 68; 1; 0].
Proof.
  intros h. assert (Ht : header_typed h) by (unfold header_typed, in_u; simpl; lia).
  split; [exact Ht|]. split; [apply (chunk_header_roundtrip h Ht)|reflexivity].
Defined.

(** The first 32 bytes are the fields. *)
Lemma header_bytes bs :
  Forall is_byte bs -> length bs = kChunkHeaderSize -> field bs 0 2 = kRaidenMagic -> field bs 2 2 = 1 ->
  take 32 (SerializeChunkHeader (DeserializeHeaderV1 bs)) = take 32 bs.
Proof.
  intros Hb Hl Hm Hv. unfold kChunkHeaderSize in Hl.
  unfold SerializeChunkHeader, SerializeHeaderV1, DeserializeHeaderV1. cbn [op flags buffer_id reserved
    metadata_size remote_id local_id count_or_size uuid].
  rewrite <-Hm, <-Hv, !field_bytes by (done || lia).
  rewrite !app_assoc, !load_app. cbn [Nat.add]. rewrite <-!app_assoc, take_app_length' by (by rewrite length_load by lia).
  reflexivity.
Qed.

(** Header parsing.  A byte string is accepted exactly when it has 64 bytes, the magic
    and version 1; what is returned fits the declared widths and serializes back to the
    same 32 bytes of fields (only the reserved padding words are dropped).  A wrong size
    or magic is InvalidArgument, another version FailedPrecondition. *)
Theorem chunk_header_decode_exact bs :
  Forall is_byte bs ->
  match DeserializeChunkHeader bs with
  | Ok h =>
      length bs = kChunkHeaderSize /\ field bs 0 2 = kRaidenMagic /\ field bs 2 2 = 1 /\
      header_typed h /\ on_wire h = h /\ take 32 (SerializeChunkHeader h) = take 32 bs
  | Err code _ =>
      code = kInvalidArgument /\ (length bs ≠ kChunkHeaderSize \/ field bs 0 2 ≠ kRaidenMagic) \/
      code = kFailedPrecondition /\ length bs = kChunkHeaderSize /\ field bs 0 2 = kRaidenMagic /\ field bs 2 2 ≠ 1
  end.
Proof.
  intros Hb. unfold DeserializeChunkHeader.
  destruct (length bs =? kChunkHeaderSize)%nat eqn:Hl; to_prop; cbn [negb]; [|by left; split; [|left]].
  destruct (field bs 0 2 =? kRaidenMagic) eqn:Hm; to_prop; cbn [negb]; [|by left; split; [|right]].
  destruct (field bs 2 2 =? 1) eqn:Hv; to_prop; [|by right].
  split; [done|]. split; [done|]. split; [done|].
  assert (Hf : forall off n, (off + n <= 64)%nat -> in_u n (field bs off n)).
  { intros off n Hn. unfold in_u, field. pose proof (length_load bs off n) as Hlen.
    rewrite Hl in Hlen. specialize (Hlen Hn). pose proof (of_le_range (load bs off n)) as Hr. rewrite Hlen in Hr.
    apply Hr. unfold load. by apply Forall_take, Forall_drop. }
  split; [|split; [|by apply header_bytes]].
  - unfold header_typed, DeserializeHeaderV1. cbn [version op flags buffer_id reserved metadata_size padding
      remote_id local_id count_or_size uuid].
    repeat match goal with |- _ /\ _ => split end; try (apply Hf; lia). unfold in_u. simpl. lia.
  - unfold on_wire, DeserializeHeaderV1. cbn. by rewrite Hv.
Qed.

Lemma chunk_header_decode_exact_witness :
  exists bs h, Forall is_byte bs /\ DeserializeChunkHeader bs = Ok h /\
    take 32 (SerializeChunkHeader h) = take 32 bs /\ SerializeChunkHeader h ≠ bs.
Proof.
  set (bs := [82; 68; 1; 0; 5; 1; 44; 1; 2; 0; 24; 0; 1; 2; 3; 4; 5; 6; 7; 8; 9; 10; 11; 12; 1; 1; 1; 1; 1; 1; 1; 255]
             ++ replicate 32 7).
  assert (Hb : Forall is_byte bs) by (apply (bool_decide_unpack (Forall is_byte bs)); vm_compute; exact I).
  eexists bs, _. split; [exact Hb|]. split; [reflexivity|]. pose proof (chunk_header_decode_exact bs Hb) as H.
  split; [apply H|]. vm_compute. discriminate.
Defined.

(** ** Metadata, block ids and sizes *)

Lemma length_blocks ids : length (SerializeBlockIds ids) = (4 * length ids)%nat.
Proof.
  unfold SerializeBlockIds. induction ids as [|x ids IH]; [done|]. rewrite bind_cons, length_app, IH, length_le_bytes.
  simpl. lia.
Qed.

Lemma u32_in_u x : in_u 4 (u32 x).
Proof. unfold in_u, u32. apply (Z.mod_pos_bound x (2 ^ 32)). lia. Qed.
Lemma wrap32_u32 x : in_int32 x -> wrap32 (u32 x) = x.
Proof.
  unfold in_int32, int32_min, int32_max, wrap32, u32. intros Hx.
  rewrite Zplus_mod_idemp_l, Z.mod_small by lia. lia.
Qed.

Lemma block_ids_roundtrip ids : Forall in_int32 ids -> DeserializeBlockIds (SerializeBlockIds ids) = ids.
Proof.
  intros Hids. unfold DeserializeBlockIds. rewrite length_blocks.
  replace (4 * length ids / 4)%nat with (length ids) by (rewrite Nat.mul_comm, Nat.div_mul; lia).
  induction Hids as [|x ids Hx _ IH]; [done|]. cbn [length seq]. rewrite fmap_cons. f_equal.
  - unfold SerializeBlockIds. rewrite bind_cons. simpl Nat.mul. rewrite field_here by apply u32_in_u.
    by apply wrap32_u32.
  - etransitivity; [|exact IH]. rewrite <-fmap_S_seq, <-list_fmap_compose. apply list_fmap_ext. intros i k _. unfold compose.
    change (SerializeBlockIds (x :: ids)) with (le_bytes 4 (u32 x) ++ SerializeBlockIds ids).
    rewrite field_skip by (rewrite length_le_bytes; lia). rewrite length_le_bytes. do 2 f_equal. lia.
Qed.

(** Payload round trips.  The metadata of a batched push parses back from its 24 bytes,
    under version 1 only, and every 24 bytes are the image of what they parse to; block
    ids (negative ones included) and chunk sizes parse back, and block ids take four bytes
    each. *)
Theorem chunk_payload_roundtrip m ids size bs :
  metadata_typed m -> Forall in_int32 ids -> in_u 4 size -> Forall is_byte bs -> length bs = kMaxMetadataSize ->
  DeserializeChunkMetadata (SerializeChunkMetadata m) 1 = Ok m /\
  (exists m', DeserializeChunkMetadata bs 1 = Ok m' /\ SerializeChunkMetadata m' = bs) /\
  (forall ver, ver ≠ 1 -> ok (DeserializeChunkMetadata bs ver) = false) /\
  length (SerializeBlockIds ids) = (4 * length ids)%nat /\
  DeserializeBlockIds (SerializeBlockIds ids) = ids /\
  length (SerializeChunkSize size) = kChunkSizeFieldSize /\
  DeserializeChunkSize (SerializeChunkSize size) = size.
Proof.
  intros (H1 & H2 & H3 & H4) Hids Hs Hb Hl. split_and!.
  - assert (Hlen : length (SerializeChunkMetadata m) = 24%nat)
      by (unfold SerializeChunkMetadata, SerializeMetadataV1; by rewrite !length_app, !length_le_bytes).
    unfold DeserializeChunkMetadata. rewrite Hlen. cbn [GetChunkMetadataSize negb Nat.eqb Z.eqb Pos.eqb].
    transitivity (Ok (mkMetadata (layer_idx m) (dst_shard_idx m) (dst_offset_bytes m) (size_bytes m)));
      [|by destruct m].
    unfold DeserializeMetadataV1, SerializeChunkMetadata, SerializeMetadataV1. f_equal. f_equal; read_field.
  - eexists. unfold DeserializeChunkMetadata. rewrite Hl. split; [reflexivity|].
    unfold kMaxMetadataSize in Hl. unfold SerializeChunkMetadata, SerializeMetadataV1, DeserializeMetadataV1.
    cbn [layer_idx dst_shard_idx dst_offset_bytes size_bytes]. rewrite !field_bytes by (done || lia).
    rewrite !app_assoc, !load_app. unfold load. rewrite drop_0. apply take_ge. lia.
  - intros ver Hver. unfold DeserializeChunkMetadata, GetChunkMetadataSize. rewrite Hl.
    rewrite (proj2 (Z.eqb_neq ver 1)) by done. reflexivity.
  - apply length_blocks.
  - by apply block_ids_roundtrip.
  - apply length_le_bytes.
  - by apply field_only.
Qed.


End Chunk.
