(* ===== verification/LruCache.v ===== *)
(** * The LRU cache ([src/tpu_sync/kv_cache/lru_cache.h])

    [LRUCache<Key, Value>] keeps every node in one of three [std::list]s (the
    active list, the pinned list, the eviction candidates) and a hash map from
    keys to list iterators.  An iterator is modelled by the key of its node: the
    lists are lists of keys and [map_] gives the node an iterator denotes.
    [splice] removes the node from its source list and links it into the
    destination.  [pin_count] is an unbounded integer. *)

From S2P Require Import Prelude.

Module LRU.

Inductive NodeLocation : Type := kLru | kPinned | kCandidate.

#[global] Instance NodeLocation_eq_dec : EqDecision NodeLocation.
Proof. solve_decision. Defined.

Record CacheNode (Value : Type) := mkNode {
  value : Value;
  (** An [int] in the code: at most 2^31 - 1 pins of one entry are assumed at a time. *)
  pin_count : Z;
  location : NodeLocation
}.
Arguments mkNode {Value} _ _ _.
Arguments value {Value} _.
Arguments pin_count {Value} _.
Arguments location {Value} _.

Record LRUCache (Key Value : Type) `{Countable Key} := mkCache {
  capacity_ : nat;
  lru_list_ : list Key;
  pinned_list_ : list Key;
  evict_candidate_list_ : list Key;
  map_ : gmap Key (CacheNode Value)
}.
Arguments mkCache {Key Value _ _} _ _ _ _ _.
Arguments capacity_ {Key Value _ _} _.
Arguments lru_list_ {Key Value _ _} _.
Arguments pinned_list_ {Key Value _ _} _.
Arguments evict_candidate_list_ {Key Value _ _} _.
Arguments map_ {Key Value _ _} _.

Section operations.
Context {Key Value : Type} `{Countable Key}.
Implicit Types (c : LRUCache Key Value) (n : CacheNode Value) (k key : Key) (v : Value).

Definition create (capacity : nat) : LRUCache Key Value := mkCache capacity [] [] [] ∅.

Definition capacity c : nat := capacity_ c.
Definition size c : nat := base.size (map_ c).
Definition available_space c : nat :=
  if (length (pinned_list_ c) <? capacity_ c)%nat
  then (capacity_ c - length (pinned_list_ c))%nat else 0%nat.
Definition active_size c : nat := (length (lru_list_ c) + length (pinned_list_ c))%nat.
Definition empty c : bool := (base.size (map_ c) =? 0)%nat.

Definition Contains c key : bool :=
  match map_ c !! key with
  | Some n => negb (bool_decide (location n = kCandidate))
  | None => false
  end.

Definition Clear c : LRUCache Key Value := mkCache (capacity_ c) [] [] [] ∅.

(** Writes to the node behind an iterator. *)
Definition set_value (k : Key) (v : Value) c : LRUCache Key Value :=
  mkCache (capacity_ c) (lru_list_ c) (pinned_list_ c) (evict_candidate_list_ c)
    (alter (fun n => mkNode v (pin_count n) (location n)) k (map_ c)).
Definition set_location (k : Key) (loc : NodeLocation) c : LRUCache Key Value :=
  mkCache (capacity_ c) (lru_list_ c) (pinned_list_ c) (evict_candidate_list_ c)
    (alter (fun n => mkNode (value n) (pin_count n) loc) k (map_ c)).
Definition set_pin_count (k : Key) (p : Z) c : LRUCache Key Value :=
  mkCache (capacity_ c) (lru_list_ c) (pinned_list_ c) (evict_candidate_list_ c)
    (alter (fun n => mkNode (value n) p (location n)) k (map_ c)).

(** Moves to the front of the active and pinned lists. *)
Definition with_lists c (lru pinned cand : list Key) : LRUCache Key Value :=
  mkCache (capacity_ c) lru pinned cand (map_ c).

Definition Promote (k : Key) (n : CacheNode Value) c : LRUCache Key Value :=
  if 0 <? pin_count n then
    set_location k kPinned
      (with_lists c (lru_list_ c) (k :: remove_elem k (pinned_list_ c)) (evict_candidate_list_ c))
  else match location n with
  | kLru =>
      with_lists c (k :: remove_elem k (lru_list_ c)) (pinned_list_ c) (evict_candidate_list_ c)
  | kCandidate =>
      set_location k kLru
        (with_lists c (k :: lru_list_ c) (pinned_list_ c)
           (remove_elem k (evict_candidate_list_ c)))
  | kPinned => c
  end.

Definition PromoteBack (k : Key) (n : CacheNode Value) c : LRUCache Key Value :=
  if 0 <? pin_count n then
    set_location k kPinned
      (with_lists c (lru_list_ c) (remove_elem k (pinned_list_ c) ++ [k]) (evict_candidate_list_ c))
  else match location n with
  | kLru =>
      with_lists c (remove_elem k (lru_list_ c) ++ [k]) (pinned_list_ c) (evict_candidate_list_ c)
  | kCandidate =>
      set_location k kLru
        (with_lists c (lru_list_ c ++ [k]) (pinned_list_ c)
           (remove_elem k (evict_candidate_list_ c)))
  | kPinned => c
  end.

Definition Evict c : option (Key * Value) * LRUCache Key Value :=
  match last (lru_list_ c) with
  | None => (None, c)
  | Some k =>
      let c' := set_location k kCandidate
        (with_lists c (remove_elem k (lru_list_ c)) (pinned_list_ c)
           (evict_candidate_list_ c ++ [k])) in
      ((fun n => (k, value n)) <$> map_ c' !! k, c')
  end.

(** Insertion of a new node at the front or the back of the active list. *)
Definition emplace_front (key : Key) (v : Value) c : LRUCache Key Value :=
  mkCache (capacity_ c) (key :: lru_list_ c) (pinned_list_ c) (evict_candidate_list_ c)
    (<[key := mkNode v 0 kLru]> (map_ c)).
Definition emplace_back (key : Key) (v : Value) c : LRUCache Key Value :=
  mkCache (capacity_ c) (lru_list_ c ++ [key]) (pinned_list_ c) (evict_candidate_list_ c)
    (<[key := mkNode v 0 kLru]> (map_ c)).

Definition Put (key : Key) (v : Value) c : option (Key * Value) * LRUCache Key Value :=
  match map_ c !! key with
  | Some n => (None, Promote key n (set_value key v c))
  | None =>
      if (capacity_ c <=? active_size c)%nat then
        match Evict c with
        | (None, c') => (None, c')
        | (Some e, c') => (Some e, emplace_front key v c')
        end
      else (None, emplace_front key v c)
  end.

Definition PutBack (key : Key) (v : Value) c : LRUCache Key Value :=
  match map_ c !! key with
  | Some n => PromoteBack key n (set_value key v c)
  | None =>
      let c' := if (capacity_ c <=? active_size c)%nat then (Evict c).2 else c in
      emplace_back key v c'
  end.

Definition Get (key : Key) c : option Value * LRUCache Key Value :=
  match map_ c !! key with
  | None => (None, c)
  | Some n => (Some (value n), Promote key n c)
  end.

Definition Peek (key : Key) c : option Value :=
  match map_ c !! key with
  | None => None
  | Some n => if bool_decide (location n = kCandidate) then None else Some (value n)
  end.

Definition PeekIncludingCandidates (key : Key) c : option Value := value <$> map_ c !! key.

(** [PeekMutable] finds what [Peek] finds; a caller assigns through the pointer,
    [if (Value* p = PeekMutable(key)) *p = v]. *)
Definition PeekMutable (key : Key) c : option Value :=
  match map_ c !! key with
  | None => None
  | Some n => if bool_decide (location n = kCandidate) then None else Some (value n)
  end.
Definition assign (key : Key) (v : Value) c : LRUCache Key Value :=
  match PeekMutable key c with Some _ => set_value key v c | None => c end.

Definition GetAndPin (key : Key) c : option Value * LRUCache Key Value :=
  match map_ c !! key with
  | None => (None, c)
  | Some n =>
      let c' :=
        if pin_count n =? 0 then
          set_location key kPinned
            (match location n with
             | kLru => with_lists c (remove_elem key (lru_list_ c))
                         (key :: pinned_list_ c) (evict_candidate_list_ c)
             | kCandidate => with_lists c (lru_list_ c) (key :: pinned_list_ c)
                               (remove_elem key (evict_candidate_list_ c))
             | kPinned => c
             end)
        else c in
      (Some (value n), set_pin_count key (pin_count n + 1) c')
  end.

Definition Pin (key : Key) c : bool * LRUCache Key Value :=
  let r := GetAndPin key c in (bool_decide (is_Some r.1), r.2).

Definition Unpin (key : Key) c : bool * LRUCache Key Value :=
  match map_ c !! key with
  | None => (false, c)
  | Some n =>
      (true,
       if 0 <? pin_count n then
         let c1 := set_pin_count key (pin_count n - 1) c in
         if pin_count n - 1 =? 0 then
           set_location key kLru
             (with_lists c1 (key :: lru_list_ c1) (remove_elem key (pinned_list_ c1))
                (evict_candidate_list_ c1))
         else c1
       else c)
  end.

Definition GetPinCount (key : Key) c : Z :=
  match map_ c !! key with None => 0 | Some n => pin_count n end.

Definition GetEvictableKeys (count : nat) c : list Key :=
  let keys := take count (evict_candidate_list_ c) in
  if (length keys <? count)%nat
  then keys ++ take (count - length keys) (reverse (lru_list_ c))
  else keys.

Definition Erase (key : Key) c : bool * LRUCache Key Value :=
  match map_ c !! key with
  | None => (false, c)
  | Some n =>
      if 0 <? pin_count n then (false, c)
      else
        let c' := match location n with
          | kLru => with_lists c (remove_elem key (lru_list_ c)) (pinned_list_ c)
                      (evict_candidate_list_ c)
          | kCandidate => with_lists c (lru_list_ c) (pinned_list_ c)
                            (remove_elem key (evict_candidate_list_ c))
          | kPinned => c
          end in
        (true, mkCache (capacity_ c') (lru_list_ c') (pinned_list_ c')
                 (evict_candidate_list_ c') (delete key (map_ c')))
  end.

Definition GetEvictCandidateKeys c : list Key := evict_candidate_list_ c.

(** ** The calls a client makes, as steps *)

Inductive Op : Type :=
  | OpPut (key : Key) (v : Value)
  | OpPutBack (key : Key) (v : Value)
  | OpGet (key : Key)
  | OpPin (key : Key)
  | OpUnpin (key : Key)
  | OpErase (key : Key)
  | OpEvict
  | OpClear
  | OpAssign (key : Key) (v : Value).

Definition apply_op (o : Op) c : LRUCache Key Value :=
  match o with
  | OpPut k v => (Put k v c).2
  | OpPutBack k v => PutBack k v c
  | OpGet k => (Get k c).2
  | OpPin k => (Pin k c).2
  | OpUnpin k => (Unpin k c).2
  | OpErase k => (Erase k c).2
  | OpEvict => (Evict c).2
  | OpClear => Clear c
  | OpAssign k v => assign k v c
  end.
Definition run (ops : list Op) c : LRUCache Key Value := foldl (fun c o => apply_op o c) c ops.

End operations.
(** ** The representation invariant *)

Section invariant.
Context {Key Value : Type} `{Countable Key}.
Implicit Types (c : LRUCache Key Value) (n : CacheNode Value) (k key : Key) (v : Value).

(** What [map_] and the three lists say about one key agrees. *)
Definition key_ok c k : Prop :=
  match map_ c !! k with
  | None => k ∉ lru_list_ c ∧ k ∉ pinned_list_ c ∧ k ∉ evict_candidate_list_ c
  | Some n =>
      match location n with
      | kLru => pin_count n = 0 ∧
          k ∈ lru_list_ c ∧ k ∉ pinned_list_ c ∧ k ∉ evict_candidate_list_ c
      | kPinned => 0 < pin_count n ∧
          k ∉ lru_list_ c ∧ k ∈ pinned_list_ c ∧ k ∉ evict_candidate_list_ c
      | kCandidate => pin_count n = 0 ∧
          k ∉ lru_list_ c ∧ k ∉ pinned_list_ c ∧ k ∈ evict_candidate_list_ c
      end
  end.

Record wf c : Prop := {
  wf_lru : NoDup (lru_list_ c);
  wf_pinned : NoDup (pinned_list_ c);
  wf_cand : NoDup (evict_candidate_list_ c);
  wf_key k : key_ok c k
}.

Lemma create_wf cap : wf (create cap : LRUCache Key Value).
Proof.
  split; simpl; [constructor..|]. intros k. unfold key_ok; simpl. rewrite lookup_empty.
  repeat split; apply not_elem_of_nil.
Qed.

Lemma last_elem k (l : list Key) : last l = Some k -> k ∈ l.
Proof. intros (l' & ->)%last_Some. apply elem_of_app. right. by left. Qed.

Ltac lists :=
  repeat (first [ rewrite elem_of_remove_elem in * | rewrite elem_of_cons in *
                | rewrite elem_of_app in * | rewrite list_elem_of_singleton in *
                | rewrite elem_of_nil in * ]).

(** Both sides of a key: the one operated on, and any other. *)
Ltac other_keys Hwf k :=
  let k' := fresh "k'" in
  intros k'; pose proof (wf_key _ Hwf k') as Hk'; unfold key_ok in *; simpl in *;
  destruct (decide (k' = k)) as [->|Hne];
  repeat (first [ rewrite lookup_alter_eq in * | rewrite lookup_alter_ne in * by done
                | rewrite lookup_insert_eq in * | rewrite lookup_insert_ne in * by done
                | rewrite lookup_delete_eq in * | rewrite lookup_delete_ne in * by done ]).

Ltac finish :=
  simpl in *; repeat case_match; simplify_eq; simpl in *; lists;
  naive_solver (congruence || lia).

Ltac nodups Hwf :=
  simpl; first
    [ exact (wf_lru _ Hwf) | exact (wf_pinned _ Hwf) | exact (wf_cand _ Hwf)
    | apply NoDup_remove_elem; first [ apply (wf_lru _ Hwf) | apply (wf_pinned _ Hwf) | apply (wf_cand _ Hwf) ]
    | apply NoDup_cons; split; [lists; naive_solver|]; nodups Hwf
    | apply NoDup_app; split_and!; [nodups Hwf|intros ? ?; lists; naive_solver|apply NoDup_singleton] ].

Lemma set_value_wf k v c : wf c -> wf (set_value k v c).
Proof.
  intros Hwf. split; [nodups Hwf..|]. other_keys Hwf k; [|finish].
  destruct (map_ c !! k) eqn:E; simpl; finish.
Qed.

Lemma Promote_wf k n c : wf c -> map_ c !! k = Some n -> wf (Promote k n c).
Proof.
  intros Hwf Hn. pose proof (wf_key _ Hwf k) as Hk. unfold key_ok in Hk. rewrite Hn in Hk.
  unfold Promote. destruct (location n) eqn:El, (0 <? pin_count n) eqn:Ep; to_prop; try lia.
  all: try exact Hwf.
  all: split; [nodups Hwf..|]; other_keys Hwf k; rewrite ?Hn in *; finish.
Qed.

Lemma PromoteBack_wf k n c : wf c -> map_ c !! k = Some n -> wf (PromoteBack k n c).
Proof.
  intros Hwf Hn. pose proof (wf_key _ Hwf k) as Hk. unfold key_ok in Hk. rewrite Hn in Hk.
  unfold PromoteBack. destruct (location n) eqn:El, (0 <? pin_count n) eqn:Ep; to_prop; try lia.
  all: try exact Hwf.
  all: split; [nodups Hwf..|]; other_keys Hwf k; rewrite ?Hn in *; finish.
Qed.

Lemma Evict_wf c : wf c -> wf (Evict c).2.
Proof.
  intros Hwf. unfold Evict. destruct (last (lru_list_ c)) as [k|] eqn:El; [|done].
  apply last_elem in El. pose proof (wf_key _ Hwf k) as Hk. unfold key_ok in Hk.
  destruct (map_ c !! k) as [n|] eqn:Hn; [|naive_solver].
  destruct (location n) eqn:Eloc; try naive_solver.
  split; [nodups Hwf..|]. other_keys Hwf k; rewrite ?Hn in *; finish.
Qed.

Lemma Evict_lookup_None c k : map_ c !! k = None -> map_ (Evict c).2 !! k = None.
Proof.
  intros Hk. unfold Evict. destruct (last (lru_list_ c)) as [k'|]; simpl; [|done].
  rewrite lookup_alter. case_decide; simplify_eq; [|done]. by rewrite Hk.
Qed.

Lemma emplace_front_wf k v c : wf c -> map_ c !! k = None -> wf (emplace_front k v c).
Proof.
  intros Hwf Hn. pose proof (wf_key _ Hwf k) as Hk. unfold key_ok in Hk. rewrite Hn in Hk.
  split; [nodups Hwf..|]. other_keys Hwf k; finish.
Qed.
Lemma emplace_back_wf k v c : wf c -> map_ c !! k = None -> wf (emplace_back k v c).
Proof.
  intros Hwf Hn. pose proof (wf_key _ Hwf k) as Hk. unfold key_ok in Hk. rewrite Hn in Hk.
  split; [nodups Hwf..|]. other_keys Hwf k; finish.
Qed.

Lemma set_value_lookup k v c n :
  map_ c !! k = Some n -> map_ (set_value k v c) !! k = Some (mkNode v (pin_count n) (location n)).
Proof. intros Hn. simpl. by rewrite lookup_alter_eq, Hn. Qed.

(** [Promote] only looks at the pin count and the location of its node. *)
Lemma Promote_node k n n' c :
  pin_count n = pin_count n' -> location n = location n' -> Promote k n c = Promote k n' c.
Proof. unfold Promote. by intros -> ->. Qed.
Lemma PromoteBack_node k n n' c :
  pin_count n = pin_count n' -> location n = location n' -> PromoteBack k n c = PromoteBack k n' c.
Proof. unfold PromoteBack. by intros -> ->. Qed.

Lemma Put_wf k v c : wf c -> wf (Put k v c).2.
Proof.
  intros Hwf. unfold Put. destruct (map_ c !! k) as [n|] eqn:Hn; simpl.
  - rewrite (Promote_node k n (mkNode v (pin_count n) (location n))) by done.
    apply Promote_wf; [by apply set_value_wf|by apply set_value_lookup].
  - destruct (_ <=? _)%nat; simpl; [|by apply emplace_front_wf].
    destruct (Evict c) as [[e|] c'] eqn:Ev; simpl;
      replace c' with (Evict c).2 by (by rewrite Ev); [|by apply Evict_wf].
    apply emplace_front_wf; [by apply Evict_wf|by apply Evict_lookup_None].
Qed.

Lemma PutBack_wf k v c : wf c -> wf (PutBack k v c).
Proof.
  intros Hwf. unfold PutBack. destruct (map_ c !! k) as [n|] eqn:Hn; simpl.
  - rewrite (PromoteBack_node k n (mkNode v (pin_count n) (location n))) by done.
    apply PromoteBack_wf; [by apply set_value_wf|by apply set_value_lookup].
  - destruct (_ <=? _)%nat; apply emplace_back_wf; auto using Evict_wf, Evict_lookup_None.
Qed.

Lemma Get_wf k c : wf c -> wf (Get k c).2.
Proof. intros Hwf. unfold Get. destruct (map_ c !! k) eqn:Hn; [by apply Promote_wf|done]. Qed.

Lemma GetAndPin_wf k c : wf c -> wf (GetAndPin k c).2.
Proof.
  intros Hwf. unfold GetAndPin. destruct (map_ c !! k) as [n|] eqn:Hn; [|done]. simpl.
  pose proof (wf_key _ Hwf k) as Hk. unfold key_ok in Hk. rewrite Hn in Hk.
  destruct (location n) eqn:El, (pin_count n =? 0) eqn:Ep; to_prop; try lia.
  all: split; [nodups Hwf..|]; other_keys Hwf k; rewrite ?Hn in *; finish.
Qed.

Lemma Unpin_wf k c : wf c -> wf (Unpin k c).2.
Proof.
  intros Hwf. unfold Unpin. destruct (map_ c !! k) as [n|] eqn:Hn; [|done]. simpl.
  pose proof (wf_key _ Hwf k) as Hk. unfold key_ok in Hk. rewrite Hn in Hk.
  destruct (0 <? pin_count n) eqn:Ep; [|done].
  destruct (location n) eqn:El, (pin_count n - 1 =? 0) eqn:Ep1; to_prop; try lia.
  all: split; [nodups Hwf..|]; other_keys Hwf k; rewrite ?Hn in *; finish.
Qed.

Lemma Erase_wf k c : wf c -> wf (Erase k c).2.
Proof.
  intros Hwf. unfold Erase. destruct (map_ c !! k) as [n|] eqn:Hn; [|done].
  destruct (0 <? pin_count n) eqn:Ep; [done|]. simpl.
  pose proof (wf_key _ Hwf k) as Hk. unfold key_ok in Hk. rewrite Hn in Hk.
  destruct (location n) eqn:El; to_prop; try lia.
  all: split; [nodups Hwf..|]; other_keys Hwf k; rewrite ?Hn in *; finish.
Qed.

Lemma assign_wf k v c : wf c -> wf (assign k v c).
Proof. unfold assign. case_match; [apply set_value_wf|done]. Qed.

Lemma apply_op_wf o c : wf c -> wf (apply_op o c).
Proof.
  destruct o; simpl; auto using Put_wf, PutBack_wf, Get_wf, GetAndPin_wf, Unpin_wf, Erase_wf, Evict_wf,
    assign_wf.
  intros _. apply (create_wf (capacity_ c)).
Qed.

Lemma run_wf ops c : wf c -> wf (run ops c).
Proof. revert c; induction ops as [|o ops IH]; intros c Hwf; simpl; auto using apply_op_wf. Qed.

End invariant.
(** ** Properties *)

Section properties.
Context {Key Value : Type} `{Countable Key}.
Implicit Types (c : LRUCache Key Value) (n : CacheNode Value) (k key : Key) (v : Value).

Lemma wf_location c k n (loc : NodeLocation) :
  wf c -> map_ c !! k = Some n -> location n = loc ->
  k ∈ (match loc with kLru => lru_list_ c | kPinned => pinned_list_ c
       | kCandidate => evict_candidate_list_ c end).
Proof.
  intros Hwf Hn <-. pose proof (wf_key _ Hwf k) as Hk. unfold key_ok in Hk. rewrite Hn in Hk.
  destruct (location n); naive_solver.
Qed.

Lemma wf_lru_node c k : wf c -> k ∈ lru_list_ c ->
  exists n, map_ c !! k = Some n ∧ location n = kLru ∧ pin_count n = 0.
Proof.
  intros Hwf Hin. pose proof (wf_key _ Hwf k) as Hk. unfold key_ok in Hk.
  repeat case_match; naive_solver.
Qed.

Lemma wf_pinned_node c k n :
  wf c -> map_ c !! k = Some n -> 0 < pin_count n -> location n = kPinned.
Proof.
  intros Hwf Hn Hp. pose proof (wf_key _ Hwf k) as Hk. unfold key_ok in Hk. rewrite Hn in Hk.
  destruct (location n); [lia|done|lia].
Qed.

(** The lists partition the domain of the map. *)
Lemma wf_dom c : wf c ->
  dom (map_ c) = list_to_set (lru_list_ c ++ pinned_list_ c ++ evict_candidate_list_ c).
Proof.
  intros Hwf. apply set_eq. intros k. rewrite elem_of_dom, elem_of_list_to_set, !elem_of_app.
  pose proof (wf_key _ Hwf k) as Hk. unfold key_ok in Hk.
  destruct (map_ c !! k) as [n|]; [destruct (location n)|]; split; intros; naive_solver.
Qed.

Lemma wf_size c : wf c ->
  size c = (active_size c + length (evict_candidate_list_ c))%nat.
Proof.
  intros Hwf. unfold size, active_size. rewrite <-size_dom, (wf_dom _ Hwf).
  rewrite size_list_to_set, !length_app; [lia|].
  rewrite !NoDup_app. destruct Hwf as [? ? ? Hk].
  split_and!; try done; intros k Hin; specialize (Hk k); unfold key_ok in Hk;
    rewrite ?elem_of_app; repeat case_match; naive_solver.
Qed.

(** *** Pins *)

Definition pins_of (k : Key) (o : @Op Key Value) : Z :=
  match o with OpPin k' => if decide (k' = k) then 1 else 0 | _ => 0 end.
Definition unpins_of (k : Key) (o : @Op Key Value) : Z :=
  match o with OpUnpin k' => if decide (k' = k) then 1 else 0 | _ => 0 end.
Definition is_clear (o : @Op Key Value) : bool := match o with OpClear => true | _ => false end.

Lemma Promote_pin k n c k' m : map_ c !! k' = Some m ->
  exists m', map_ (Promote k n c) !! k' = Some m' ∧ pin_count m' = pin_count m.
Proof.
  intros Hm. unfold Promote.
  repeat case_match; simpl; rewrite ?lookup_alter, ?Hm; repeat case_decide; subst; rewrite ?Hm; simpl; eauto.
Qed.
Lemma PromoteBack_pin k n c k' m : map_ c !! k' = Some m ->
  exists m', map_ (PromoteBack k n c) !! k' = Some m' ∧ pin_count m' = pin_count m.
Proof.
  intros Hm. unfold PromoteBack.
  repeat case_match; simpl; rewrite ?lookup_alter, ?Hm; repeat case_decide; subst; rewrite ?Hm; simpl; eauto.
Qed.
Lemma Evict_pin c k m : map_ c !! k = Some m ->
  exists m', map_ (Evict c).2 !! k = Some m' ∧ pin_count m' = pin_count m.
Proof.
  intros Hm. unfold Evict. destruct (last (lru_list_ c)) as [k'|]; simpl; [|eauto].
  rewrite lookup_alter. case_decide; subst; rewrite Hm; simpl; eauto.
Qed.
Lemma set_value_pin c k v k' m : map_ c !! k' = Some m ->
  exists m', map_ (set_value k v c) !! k' = Some m' ∧ pin_count m' = pin_count m.
Proof. intros Hm. simpl. rewrite lookup_alter. case_decide; subst; rewrite Hm; simpl; eauto. Qed.

(** How one call moves the pin count of a pinned key. *)
Lemma apply_op_pin o c k n :
  wf c -> is_clear o = false -> map_ c !! k = Some n -> 0 < pin_count n ->
  exists n', map_ (apply_op o c) !! k = Some n' ∧
    pin_count n' = pin_count n + pins_of k o - unpins_of k o.
Proof.
  intros Hwf Hc Hn Hp. destruct o as [k' v|k' v|k'|k'|k'|k'| | |k' v]; simpl in *; try done;
    rewrite ?Z.add_0_r, ?Z.sub_0_r.
  - unfold Put. destruct (map_ c !! k') as [m|] eqn:Hm; simpl.
    + destruct (set_value_pin c k' v k n Hn) as (m1 & Hm1 & <-). by apply Promote_pin.
    + assert (k' ≠ k) by congruence. destruct (_ <=? _)%nat; simpl.
      * destruct (Evict c) as [[e|] c'] eqn:Ev; simpl; rewrite ?lookup_insert_ne by done;
          replace c' with (Evict c).2 by (by rewrite Ev); by apply Evict_pin.
      * rewrite lookup_insert_ne by done. eauto.
  - unfold PutBack. destruct (map_ c !! k') as [m|] eqn:Hm; simpl.
    + destruct (set_value_pin c k' v k n Hn) as (m1 & Hm1 & <-). by apply PromoteBack_pin.
    + assert (k' ≠ k) by congruence. rewrite lookup_insert_ne by done.
      destruct (_ <=? _)%nat; [by apply Evict_pin|eauto].
  - unfold Get. destruct (map_ c !! k'); [by apply Promote_pin|simpl; eauto].
  - unfold GetAndPin. destruct (map_ c !! k') as [m|] eqn:Hm; simpl.
    + destruct (decide (k' = k)) as [->|Hne].
      * rewrite Hn in Hm. simplify_eq. rewrite lookup_alter_eq.
        rewrite (proj2 (Z.eqb_neq (pin_count m) 0)) by lia. rewrite Hn.
        eexists. split; [done|simpl; lia].
      * rewrite lookup_alter_ne by done. exists n. split; [|lia].
        destruct (pin_count m =? 0); simpl; [|done].
        rewrite lookup_alter_ne by done. by destruct (location m).
    + case_decide; subst; [congruence|]. exists n; split; [done|lia].
  - unfold Unpin. destruct (map_ c !! k') as [m|] eqn:Hm; simpl.
    + destruct (0 <? pin_count m) eqn:E.
      * destruct (decide (k' = k)) as [->|Hne].
        -- rewrite Hn in Hm. simplify_eq.
           destruct (pin_count m - 1 =? 0) eqn:E1; simpl; rewrite !lookup_alter_eq, Hn; simpl;
             eexists; (split; [done|simpl; lia]).
        -- exists n. split; [|lia]. destruct (pin_count m - 1 =? 0); simpl;
             rewrite ?lookup_alter_ne by done; done.
      * exists n. split; [done|]. case_decide; subst; [|lia].
        rewrite Hn in Hm. simplify_eq. to_prop. lia.
    + case_decide; subst; [congruence|]. exists n; split; [done|lia].
  - unfold Erase. destruct (map_ c !! k') as [m|] eqn:Hm; [|eauto].
    destruct (0 <? pin_count m) eqn:E; [eauto|]. simpl. to_prop.
    rewrite lookup_delete_ne by (intros ->; rewrite Hn in Hm; simplify_eq; lia).
    destruct (location m); simpl; eauto.
  - by apply Evict_pin.
  - unfold assign. case_match; [by apply set_value_pin|eauto].
Qed.

(** The pins a sequence of calls adds to a key. *)
Definition net_pins (k : Key) (ops : list (@Op Key Value)) : Z :=
  zsum ((fun o => pins_of k o - unpins_of k o) <$> ops).

Lemma net_pins_cons k o ops :
  net_pins k (o :: ops) = pins_of k o - unpins_of k o + net_pins k ops.
Proof. done. Qed.

Lemma run_pin ops c k n :
  wf c -> Forall (fun o => is_clear o = false) ops -> map_ c !! k = Some n ->
  (forall i, 0 < pin_count n + net_pins k (take i ops)) ->
  exists n', map_ (run ops c) !! k = Some n' ∧ pin_count n' = pin_count n + net_pins k ops.
Proof.
  intros Hwf Hops. revert c n Hwf. induction Hops as [|o ops Ho Hops IH]; intros c n Hwf Hn Hpos.
  - exists n. split; [done|]. unfold net_pins; simpl. lia.
  - change (run (o :: ops) c) with (run ops (apply_op o c)).
    pose proof (Hpos 0%nat) as H0. unfold net_pins in H0; simpl in H0.
    destruct (apply_op_pin o c k n Hwf Ho Hn) as (n' & Hn' & Hpc); [lia|].
    destruct (IH (apply_op o c) n') as (n'' & Hn'' & Hpc''); [by apply apply_op_wf|done| |].
    + intros i. specialize (Hpos (S i)). simpl in Hpos. rewrite net_pins_cons in Hpos. lia.
    + exists n''. split; [done|]. rewrite net_pins_cons. lia.
Qed.

(** *** Eviction order *)

Lemma GetEvictableKeys_alt count c :
  GetEvictableKeys count c = take count (evict_candidate_list_ c ++ reverse (lru_list_ c)).
Proof.
  unfold GetEvictableKeys. rewrite take_app, length_take.
  destruct (_ <? _)%nat eqn:E; to_prop.
  - by rewrite Nat.min_r by lia.
  - replace (count - length (evict_candidate_list_ c))%nat with 0%nat by lia.
    by rewrite take_0, app_nil_r.
Qed.

Lemma remove_last k (l : list Key) : NoDup l -> last l = Some k -> l = remove_elem k l ++ [k].
Proof.
  intros Hnd (l' & ->)%last_Some. apply NoDup_app in Hnd as (_ & Hdis & _).
  assert (k ∉ l') by (intros Hk; apply (Hdis k Hk); by left).
  rewrite remove_elem_app, remove_elem_cons_eq, (remove_elem_notin k l') by done.
  by rewrite app_nil_r.
Qed.

Lemma Evict_evictable_list c : wf c ->
  evict_candidate_list_ (Evict c).2 ++ reverse (lru_list_ (Evict c).2) =
  evict_candidate_list_ c ++ reverse (lru_list_ c).
Proof.
  intros Hwf. unfold Evict. destruct (last (lru_list_ c)) as [k|] eqn:El; [|done]. simpl.
  rewrite (remove_last k (lru_list_ c) (wf_lru _ Hwf) El) at 2.
  by rewrite reverse_app, reverse_singleton, <-app_assoc.
Qed.

Lemma Evict_Some c k : wf c -> last (lru_list_ c) = Some k ->
  exists n, map_ c !! k = Some n ∧ (Evict c).1 = Some (k, value n).
Proof.
  intros Hwf El. destruct (wf_lru_node c k Hwf (last_elem _ _ El)) as (n & Hn & _).
  exists n. split; [done|]. unfold Evict. rewrite El. simpl. by rewrite lookup_alter_eq, Hn.
Qed.

Lemma Evict_lookup_ne c k k' : last (lru_list_ c) = Some k -> k' ≠ k ->
  map_ (Evict c).2 !! k' = map_ c !! k'.
Proof. intros El Hne. unfold Evict. rewrite El. simpl. by rewrite lookup_alter_ne. Qed.

(** *** Active size *)

Lemma length_remove_lt c k (l : list Key) :
  NoDup l -> k ∈ l -> (length (k :: remove_elem k l) = length l)%nat.
Proof. intros Hnd Hin. simpl. by rewrite (length_remove_elem k l). Qed.

(** A call that brings an eviction candidate back into the active lists, or
    forces a new entry into a full cache. *)
Definition resurrects (o : @Op Key Value) c : bool :=
  let candidate k := match map_ c !! k with
                     | Some n => bool_decide (location n = kCandidate) | None => false end in
  match o with
  | OpPut k _ | OpGet k | OpPin k => candidate k
  | OpPutBack k _ =>
      candidate k ||
      (bool_decide (map_ c !! k = None) && bool_decide (lru_list_ c = [])
       && (capacity_ c <=? active_size c)%nat)
  | _ => false
  end.

Lemma Evict_active c : wf c -> lru_list_ c ≠ [] -> active_size c = S (active_size (Evict c).2).
Proof.
  intros Hwf Hne. unfold Evict, active_size. destruct (last (lru_list_ c)) as [k|] eqn:El.
  - simpl. rewrite (length_remove_elem k (lru_list_ c)); [lia|apply Hwf|by apply last_elem].
  - by apply last_None in El.
Qed.
Lemma Evict_empty c : lru_list_ c = [] -> (Evict c).2 = c.
Proof. unfold Evict. by intros ->. Qed.
Lemma Evict_active_le c : (active_size (Evict c).2 <= active_size c)%nat.
Proof.
  unfold Evict, active_size. destruct (last (lru_list_ c)) as [k|]; simpl; [|lia].
  pose proof (length_remove_elem_le k (lru_list_ c)). lia.
Qed.

Lemma Promote_active k n c : wf c -> map_ c !! k = Some n -> location n ≠ kCandidate ->
  active_size (Promote k n c) = active_size c.
Proof.
  intros Hwf Hn Hloc. pose proof (wf_key _ Hwf k) as Hk. unfold key_ok in Hk. rewrite Hn in Hk.
  unfold Promote, active_size. destruct (0 <? pin_count n) eqn:Ep, (location n) eqn:El; to_prop;
    try lia; try done; simpl.
  - rewrite (length_remove_elem k (pinned_list_ c)); [lia|apply Hwf|naive_solver].
  - rewrite (length_remove_elem k (lru_list_ c)); [lia|apply Hwf|naive_solver].
Qed.
Lemma PromoteBack_active k n c : wf c -> map_ c !! k = Some n -> location n ≠ kCandidate ->
  active_size (PromoteBack k n c) = active_size c.
Proof.
  intros Hwf Hn Hloc. pose proof (wf_key _ Hwf k) as Hk. unfold key_ok in Hk. rewrite Hn in Hk.
  unfold PromoteBack, active_size. destruct (0 <? pin_count n) eqn:Ep, (location n) eqn:El; to_prop;
    try lia; try done; simpl; rewrite length_app; simpl.
  - rewrite (length_remove_elem k (pinned_list_ c)); [lia|apply Hwf|naive_solver].
  - rewrite (length_remove_elem k (lru_list_ c)); [lia|apply Hwf|naive_solver].
Qed.

Lemma set_value_active k v c : active_size (set_value k v c) = active_size c.
Proof. done. Qed.
Lemma apply_op_capacity o c : capacity_ (apply_op o c) = capacity_ c.
Proof.
  destruct o; simpl; unfold Put, PutBack, Get, GetAndPin, Unpin, Erase, Evict, Promote, PromoteBack,
    assign; repeat case_match; simplify_eq; done.
Qed.

Lemma Put_active k v c : wf c -> (active_size c <= capacity_ c)%nat ->
  resurrects (OpPut k v) c = false -> (active_size (Put k v c).2 <= capacity_ c)%nat.
Proof.
  intros Hwf Hle Hr. unfold Put. simpl in Hr. destruct (map_ c !! k) as [n|] eqn:Hn; simpl.
  - to_prop. rewrite (Promote_node k n (mkNode v (pin_count n) (location n))) by done.
    rewrite Promote_active; [done|by apply set_value_wf|by apply set_value_lookup|done].
  - destruct (Nat.leb_spec (capacity_ c) (active_size c)); [|unfold active_size in *; simpl; lia].
    destruct (lru_list_ c) eqn:El.
    + pose proof (Evict_empty c El) as He. unfold Evict in *. rewrite El in *. simpl. lia.
    + pose proof (Evict_active c Hwf) as Ha. rewrite El in Ha.
      specialize (Ha ltac:(done)). destruct (Evict c) as [[e|] c']; unfold active_size in *; simpl in *; lia.
Qed.

Lemma PutBack_active k v c : wf c -> (active_size c <= capacity_ c)%nat ->
  resurrects (OpPutBack k v) c = false -> (active_size (PutBack k v c) <= capacity_ c)%nat.
Proof.
  intros Hwf Hle Hr. unfold PutBack. simpl in Hr. destruct (map_ c !! k) as [n|] eqn:Hn; simpl.
  - apply orb_false_iff in Hr as [Hr _]. to_prop.
    rewrite (PromoteBack_node k n (mkNode v (pin_count n) (location n))) by done.
    rewrite PromoteBack_active; [done|by apply set_value_wf|by apply set_value_lookup|done].
  - destruct (Nat.leb_spec (capacity_ c) (active_size c)); unfold active_size in *; simpl in *;
      rewrite length_app; simpl; [|lia].
    pose proof (Evict_active c Hwf) as Ha. unfold active_size in Ha. to_prop.
    specialize (Ha ltac:(naive_solver lia)). lia.
Qed.

Lemma GetAndPin_active k c : wf c -> (active_size c <= capacity_ c)%nat ->
  resurrects (OpPin k) c = false -> (active_size (GetAndPin k c).2 <= capacity_ c)%nat.
Proof.
  intros Hwf Hle Hr. unfold GetAndPin. simpl in Hr.
  destruct (map_ c !! k) as [n|] eqn:Hn; [|done]. simpl. to_prop.
  pose proof (wf_key _ Hwf k) as Hk. unfold key_ok in Hk. rewrite Hn in Hk.
  unfold active_size in *. destruct (pin_count n =? 0); [|done].
  destruct (location n) eqn:El; simpl; try done.
  rewrite (length_remove_elem k (lru_list_ c)) in Hle; [lia|apply Hwf|naive_solver].
Qed.

Lemma Unpin_active k c : wf c -> active_size (Unpin k c).2 = active_size c.
Proof.
  intros Hwf. unfold Unpin. destruct (map_ c !! k) as [n|] eqn:Hn; [|done]. simpl.
  pose proof (wf_key _ Hwf k) as Hk. unfold key_ok in Hk. rewrite Hn in Hk.
  destruct (0 <? pin_count n) eqn:Ep; [|done]. to_prop.
  destruct (pin_count n - 1 =? 0); [|done]. unfold active_size; simpl.
  rewrite (length_remove_elem k (pinned_list_ c)); [lia|apply Hwf|].
  destruct (location n); [lia|naive_solver|lia].
Qed.

Lemma Erase_active k c : (active_size (Erase k c).2 <= active_size c)%nat.
Proof.
  unfold Erase, active_size. repeat case_match; simpl; try lia.
  pose proof (length_remove_elem_le k (lru_list_ c)). lia.
Qed.

(** Every state a client can reach from an empty cache, by any sequence of
    calls, is well formed: each key of the map is in exactly one of the three
    lists, the one its node's location names; a node is in the pinned list exactly
    when its pin count is positive; no list has duplicates; and [size()] counts the
    active entries and the eviction candidates. *)
Theorem lru_reachable_wf (cap : nat) (ops : list (@Op Key Value)) :
  wf (run ops (create cap)) ∧
  size (run ops (create cap)) =
    (active_size (run ops (create cap)) + length (evict_candidate_list_ (run ops (create cap))))%nat.
Proof.
  assert (wf (run ops (create cap))) by apply run_wf, create_wf.
  split; [done|by apply wf_size].
Qed.

(** C35: A pinned block cannot be evicted.  Whatever calls other than [Clear] are
    made, as long as the [Unpin]s of the key never catch up with its pins, the key
    stays in the cache, in the pinned list, with exactly the count that the pins and
    unpins give it; [Erase] refuses it and no eviction scan offers it. *)
Theorem lru_pinned_survives (ops : list (@Op Key Value)) c k n :
  wf c -> Forall (fun o => is_clear o = false) ops -> map_ c !! k = Some n ->
  (forall i, 0 < pin_count n + net_pins k (take i ops)) ->
  exists n', map_ (run ops c) !! k = Some n' ∧ location n' = kPinned ∧
    pin_count n' = pin_count n + net_pins k ops ∧
    Erase k (run ops c) = (false, run ops c) ∧
    forall count, k ∉ GetEvictableKeys count (run ops c).
Proof.
  intros Hwf Hops Hn Hlt. destruct (run_pin ops c k n Hwf Hops Hn Hlt) as (n' & Hn' & Hpc).
  assert (Hwf' : wf (run ops c)) by (by apply run_wf).
  assert (Hp : 0 < pin_count n').
  { specialize (Hlt (length ops)). rewrite take_ge in Hlt by done. lia. }
  pose proof (wf_pinned_node _ _ _ Hwf' Hn' Hp) as Hloc.
  exists n'. split_and!; [done|done|done| |].
  - unfold Erase. rewrite Hn'. by rewrite (proj2 (Z.ltb_lt 0 (pin_count n'))).
  - intros count. rewrite GetEvictableKeys_alt. intros Hin.
    assert (Hin' : k ∈ evict_candidate_list_ (run ops c) ++ reverse (lru_list_ (run ops c))).
    { apply list_elem_of_lookup in Hin as (i & Hi). apply lookup_take_Some in Hi as [Hi _].
      by eapply list_elem_of_lookup_2. }
    rewrite elem_of_app, elem_of_reverse in Hin'.
    pose proof (wf_key _ Hwf' k) as Hk. unfold key_ok in Hk. rewrite Hn', Hloc in Hk. naive_solver.
Qed.

(** Eviction order.  [GetEvictableKeys(n)] is the first [n] keys of one fixed
    queue, the candidates (oldest first) and then the active list from its least
    recently used end; [Evict] moves entries along that queue without reordering
    it, so the keys a scan offers do not depend on how far demotion has gone; and
    [Evict] demotes the least recently used active entry and returns it. *)
Theorem lru_eviction_order c count : wf c ->
  GetEvictableKeys count c = take count (evict_candidate_list_ c ++ reverse (lru_list_ c)) ∧
  GetEvictableKeys count (Evict c).2 = GetEvictableKeys count c ∧
  forall k, last (lru_list_ c) = Some k ->
    (exists n, map_ c !! k = Some n ∧ (Evict c).1 = Some (k, value n)) ∧
    lru_list_ (Evict c).2 ++ [k] = lru_list_ c ∧
    evict_candidate_list_ (Evict c).2 = evict_candidate_list_ c ++ [k] ∧
    Peek k (Evict c).2 = None.
Proof.
  intros Hwf. split_and!; [apply GetEvictableKeys_alt| |].
  - by rewrite !GetEvictableKeys_alt, Evict_evictable_list.
  - intros k El. destruct (Evict_Some c k Hwf El) as (n & Hn & He).
    split; [by eauto|]. unfold Peek, Evict. rewrite El. simpl.
    rewrite <-(remove_last k _ (wf_lru _ Hwf) El), lookup_alter_eq, Hn. done.
Qed.

Lemma Put_spec c k v : wf c ->
  (map_ c !! k = None -> (capacity_ c <= active_size c)%nat -> lru_list_ c = [] ->
   Put k v c = (None, c)) ∧
  (is_Some (map_ c !! k) ∨ (active_size c < capacity_ c)%nat ∨ lru_list_ c ≠ [] ->
   Peek k (Put k v c).2 = Some v) ∧
  (forall k0 v0, (Put k v c).1 = Some (k0, v0) ->
     k0 ≠ k ∧ last (lru_list_ c) = Some k0 ∧ Peek k0 c = Some v0 ∧ Peek k0 (Put k v c).2 = None) ∧
  (forall k1, k1 ≠ k -> (forall v1, (Put k v c).1 ≠ Some (k1, v1)) ->
     map_ (Put k v c).2 !! k1 = map_ c !! k1).
Proof.
  intros Hwf. unfold Put. destruct (map_ c !! k) as [n|] eqn:Hn; simpl.
  - pose proof (wf_key _ Hwf k) as Hk. unfold key_ok in Hk. rewrite Hn in Hk.
    split_and!; [done| |done|].
    + intros _. unfold Peek, Promote.
      destruct (0 <? pin_count n) eqn:Ep, (location n) eqn:El; to_prop; try lia; simpl;
        rewrite ?lookup_alter_eq, ?Hn; simpl; rewrite ?El; done.
    + intros k1 Hne _. unfold Promote.
      destruct (0 <? pin_count n), (location n); simpl; rewrite ?lookup_alter_ne by done; done.
  - destruct (Nat.leb_spec (capacity_ c) (active_size c)); simpl.
    + destruct (last (lru_list_ c)) as [k0|] eqn:El.
      * destruct (Evict_Some c k0 Hwf El) as (n0 & Hn0 & He).
        destruct (wf_lru_node c k0 Hwf (last_elem _ _ El)) as (n0' & Hn0' & Hloc & _).
        assert (k0 ≠ k) by congruence.
        pose proof (fun k' => Evict_lookup_ne c k0 k' El) as Hev.
        assert (He2 : map_ (Evict c).2 !! k0 = Some (mkNode (value n0) (pin_count n0) kCandidate)).
        { unfold Evict. rewrite El. simpl. by rewrite lookup_alter_eq, Hn0. }
        destruct (Evict c) as [e c'] eqn:Ev. simpl in *. subst e. simpl. split_and!.
        -- intros _ _ E. by rewrite E in El.
        -- intros _. unfold Peek. simpl. by rewrite lookup_insert_eq.
        -- intros k1 v1 [= <- <-]. split_and!; [done|done| |].
           ++ unfold Peek. rewrite Hn0. rewrite Hn0 in Hn0'. simplify_eq. by rewrite Hloc.
           ++ unfold Peek. simpl. rewrite lookup_insert_ne by done. by rewrite He2.
        -- intros k1 Hne Hk1. simpl. rewrite lookup_insert_ne by done. apply Hev.
           intros ->. by apply (Hk1 (value n0)).
      * apply last_None in El as El'. unfold Evict. rewrite El. simpl. split_and!; [done| |done|done].
        intros [[? ?]|[?|?]]; [done|lia|done].
    + split_and!; [lia| |done|].
      * intros _. unfold Peek. simpl. by rewrite lookup_insert_eq.
      * intros k1 Hne _. by rewrite lookup_insert_ne.
Qed.

(** [Put] on every branch: it is refused, without any effect, exactly when the
    key is new and the cache is full of pinned entries; otherwise the key can be
    read back with the new value.  The pair it returns, if any, is the least
    recently used active entry, which readers no longer see; no other key changes. *)
Theorem lru_put_spec c k v : wf c ->
  (map_ c !! k = None -> (capacity_ c <= active_size c)%nat -> lru_list_ c = [] ->
   Put k v c = (None, c)) ∧
  (is_Some (map_ c !! k) ∨ (active_size c < capacity_ c)%nat ∨ lru_list_ c ≠ [] ->
   Peek k (Put k v c).2 = Some v) ∧
  (forall k0 v0, (Put k v c).1 = Some (k0, v0) ->
     k0 ≠ k ∧ last (lru_list_ c) = Some k0 ∧ Peek k0 c = Some v0 ∧ Peek k0 (Put k v c).2 = None) ∧
  (forall k1, k1 ≠ k -> (forall v1, (Put k v c).1 ≠ Some (k1, v1)) ->
     map_ (Put k v c).2 !! k1 = map_ c !! k1).
Proof. apply Put_spec. Qed.

(** Capacity.  A call that does not bring back an eviction candidate (and, for
    [PutBack], does not force an entry into a cache full of pins) keeps the number
    of active entries within the capacity. *)
Theorem lru_capacity_bound o c :
  wf c -> (active_size c <= capacity_ c)%nat -> resurrects o c = false ->
  (active_size (apply_op o c) <= capacity_ (apply_op o c))%nat.
Proof.
  intros Hwf Hle Hr. rewrite apply_op_capacity. destruct o as [k v|k v|k|k|k|k| | |k v]; simpl.
  - by apply Put_active.
  - by apply PutBack_active.
  - unfold Get. simpl in Hr. destruct (map_ c !! k) as [n|] eqn:Hn; [|done]. simpl. to_prop.
    by rewrite Promote_active.
  - by apply GetAndPin_active.
  - by rewrite Unpin_active.
  - pose proof (Erase_active k c). lia.
  - pose proof (Evict_active_le c). lia.
  - unfold active_size; simpl; lia.
  - unfold assign. by case_match.
Qed.

(** A pin followed by its unpin leaves every node as it was but reorders the
    active list: the key ends at the most recently used position, also when it was
    an eviction candidate, which the round trip brings back. *)
Theorem lru_pin_unpin_roundtrip c k n :
  wf c -> map_ c !! k = Some n -> pin_count n = 0 ->
  let c' := (Unpin k (Pin k c).2).2 in
  (Pin k c).1 = true ∧
  lru_list_ c' = k :: remove_elem k (lru_list_ c) ∧
  pinned_list_ c' = pinned_list_ c ∧
  evict_candidate_list_ c' = remove_elem k (evict_candidate_list_ c) ∧
  map_ c' = <[k := mkNode (value n) 0 kLru]> (map_ c).
Proof.
  intros Hwf Hn Hp. pose proof (wf_key _ Hwf k) as Hk. unfold key_ok in Hk. rewrite Hn in Hk.
  assert (location n ≠ kPinned) by (intros Hl; rewrite Hl in Hk; lia).
  unfold Unpin, Pin, GetAndPin. rewrite Hn, Hp. simpl.
  rewrite lookup_alter_eq. destruct (location n) eqn:El; [|done|]; simpl;
    rewrite lookup_alter_eq, Hn; simpl; rewrite ?remove_elem_cons_eq.
  all: rewrite (remove_elem_notin k (pinned_list_ c)) by naive_solver.
  1: rewrite (remove_elem_notin k (evict_candidate_list_ c)) by naive_solver.
  2: rewrite (remove_elem_notin k (lru_list_ c)) by naive_solver.
  all: split_and!; try done.
  all: apply map_eq; intros k'; destruct (decide (k' = k)) as [->|];
    rewrite ?lookup_alter_eq, ?lookup_insert_eq, ?lookup_alter_ne, ?lookup_insert_ne, ?Hn by done; done.
Qed.

End properties.

(** ** What the calls promise a client *)

Section clients.
Context {Key Value : Type} `{Countable Key}.
Implicit Types (c : LRUCache Key Value) (n : CacheNode Value) (k key : Key) (v : Value).

Lemma wf_pin_nonneg c k : wf c -> 0 <= GetPinCount k c.
Proof.
  intros Hwf. pose proof (wf_key _ Hwf k) as Hk. unfold key_ok, GetPinCount in *.
  destruct (map_ c !! k) as [n|]; [|done]. destruct (location n); lia.
Qed.

(** A node with pins is found by every read. *)
Lemma pinned_Peek c k : wf c -> 0 < GetPinCount k c -> is_Some (Peek k c).
Proof.
  intros Hwf. pose proof (wf_key _ Hwf k) as Hk. unfold key_ok, GetPinCount, Peek in *.
  destruct (map_ c !! k) as [n|]; [|lia]. destruct (location n); [eauto|eauto|lia].
Qed.

Lemma Contains_Peek c k : Contains c k = bool_decide (is_Some (Peek k c)).
Proof.
  unfold Contains, Peek. destruct (map_ c !! k) as [n|]; [|done].
  by case_bool_decide.
Qed.

Lemma Pin_present c k : (Pin k c).1 = bool_decide (is_Some (map_ c !! k)).
Proof.
  unfold Pin, GetAndPin. by destruct (map_ c !! k).
Qed.

(** The pin counts after one call: only [Pin] and [Unpin] move them. *)
Definition pins_after (o : @Op Key Value) (k : Key) c : Z :=
  match o with
  | OpPin k' => GetPinCount k c + (if bool_decide (k' = k ∧ is_Some (map_ c !! k)) then 1 else 0)
  | OpUnpin k' => if bool_decide (k' = k) then Z.max 0 (GetPinCount k c - 1) else GetPinCount k c
  | OpClear => 0
  | _ => GetPinCount k c
  end.

Lemma pins_alter (f : CacheNode Value -> CacheNode Value) (m : gmap Key (CacheNode Value)) k k' :
  (forall n, pin_count (f n) = pin_count n) ->
  (match alter f k m !! k' with None => 0 | Some n => pin_count n end) =
  match m !! k' with None => 0 | Some n => pin_count n end.
Proof.
  intros Hf. rewrite lookup_alter. case_decide; subst; [|done]. destruct (m !! k'); [apply Hf|done].
Qed.

Lemma Promote_pins k n c k' : GetPinCount k' (Promote k n c) = GetPinCount k' c.
Proof.
  unfold Promote, GetPinCount. destruct (0 <? pin_count n); [|destruct (location n)]; simpl;
    rewrite ?pins_alter; done.
Qed.
Lemma PromoteBack_pins k n c k' : GetPinCount k' (PromoteBack k n c) = GetPinCount k' c.
Proof.
  unfold PromoteBack, GetPinCount. destruct (0 <? pin_count n); [|destruct (location n)]; simpl;
    rewrite ?pins_alter; done.
Qed.
Lemma set_value_pins k v c k' : GetPinCount k' (set_value k v c) = GetPinCount k' c.
Proof. unfold GetPinCount. simpl. by rewrite pins_alter. Qed.
Lemma Evict_pins c k : GetPinCount k (Evict c).2 = GetPinCount k c.
Proof.
  unfold Evict, GetPinCount. destruct (last (lru_list_ c)) as [k'|]; [|done]. simpl. by rewrite pins_alter.
Qed.
Lemma emplace_pins k v c k' : map_ c !! k = None ->
  GetPinCount k' (emplace_front k v c) = GetPinCount k' c ∧
  GetPinCount k' (emplace_back k v c) = GetPinCount k' c.
Proof.
  intros Hk. unfold GetPinCount. simpl. rewrite lookup_insert. case_decide; subst; [|done].
  by rewrite Hk.
Qed.

Lemma Put_pins k v c k' : GetPinCount k' (Put k v c).2 = GetPinCount k' c.
Proof.
  unfold Put. destruct (map_ c !! k) as [n|] eqn:Hn; simpl; [by rewrite Promote_pins, set_value_pins|].
  destruct (_ <=? _)%nat; simpl; [|by apply emplace_pins].
  pose proof (Evict_pins c k') as He. pose proof (Evict_lookup_None c k Hn) as Hk.
  destruct (Evict c) as [[e|] c']; simpl in *; [|done].
  rewrite <-He. by apply emplace_pins.
Qed.

Lemma Erase_pins k c k' : wf c -> GetPinCount k' (Erase k c).2 = GetPinCount k' c.
Proof.
  intros Hwf. pose proof (wf_pin_nonneg c k Hwf) as Hp. unfold Erase, GetPinCount in *.
  destruct (map_ c !! k) as [n|] eqn:Hn; [|done]. destruct (0 <? pin_count n) eqn:E; [done|].
  simpl. rewrite lookup_delete. case_decide; subst.
  - rewrite Hn. to_prop. lia.
  - by destruct (location n).
Qed.

Lemma Pin_pins k c k' : GetPinCount k' (Pin k c).2 = pins_after (OpPin k) k' c.
Proof.
  unfold Pin, GetAndPin, GetPinCount, pins_after. destruct (map_ c !! k) as [n|] eqn:Hn; simpl.
  - rewrite lookup_alter. case_decide; subst.
    + rewrite Hn, bool_decide_eq_true_2 by eauto.
      assert (Hm : exists m, map_ (if pin_count n =? 0
        then set_location k' kPinned match location n with
          | kLru => with_lists c (remove_elem k' (lru_list_ c)) (k' :: pinned_list_ c) (evict_candidate_list_ c)
          | kPinned => c
          | kCandidate => with_lists c (lru_list_ c) (k' :: pinned_list_ c)
                            (remove_elem k' (evict_candidate_list_ c)) end
        else c) !! k' = Some m).
      { destruct (_ =? _); simpl; [|eauto]. rewrite lookup_alter_eq. destruct (location n); simpl;
          rewrite Hn; simpl; eauto. }
      destruct Hm as [m Hm]. rewrite Hm. simpl. unfold GetPinCount. by rewrite Hn.
    + rewrite bool_decide_eq_false_2 by naive_solver. rewrite Z.add_0_r. unfold GetPinCount.
      destruct (_ =? _); simpl; [|done]. rewrite lookup_alter_ne by done. by destruct (location n).
  - unfold GetPinCount. case_bool_decide as E; [|lia]. destruct E as [-> [? ?]]. congruence.
Qed.

Lemma Unpin_pins k c k' : wf c -> GetPinCount k' (Unpin k c).2 = pins_after (OpUnpin k) k' c.
Proof.
  intros Hwf. pose proof (wf_pin_nonneg c k Hwf) as Hp. unfold Unpin, GetPinCount, pins_after in *.
  destruct (map_ c !! k) as [n|] eqn:Hn; simpl.
  - destruct (0 <? pin_count n) eqn:E; to_prop.
    + case_bool_decide; subst.
      * destruct (_ =? 0); simpl; rewrite ?lookup_alter_eq, Hn; simpl; unfold GetPinCount; rewrite Hn; lia.
      * destruct (_ =? 0); simpl; rewrite ?lookup_alter_ne by done; done.
    + case_bool_decide; subst; [|done]. rewrite Hn. unfold GetPinCount. rewrite Hn. lia.
  - case_bool_decide; subst; [|done]. unfold GetPinCount. rewrite Hn. lia.
Qed.

Lemma apply_op_pins o c k : wf c -> GetPinCount k (apply_op o c) = pins_after o k c.
Proof.
  intros Hwf. destruct o as [k' v|k' v|k'|k'|k'|k'| | |k' v]; cbn [apply_op].
  - apply Put_pins.
  - unfold PutBack. destruct (map_ c !! k') as [n|] eqn:Hn; simpl; [by rewrite PromoteBack_pins, set_value_pins|].
    destruct (_ <=? _)%nat; [|by apply emplace_pins].
    rewrite <-(Evict_pins c k). apply emplace_pins, Evict_lookup_None, Hn.
  - unfold Get. destruct (map_ c !! k'); [apply Promote_pins|done].
  - apply Pin_pins.
  - by apply Unpin_pins.
  - by apply Erase_pins.
  - apply Evict_pins.
  - unfold GetPinCount; simpl. by rewrite lookup_empty.
  - unfold assign. case_match; [apply set_value_pins|done].
Qed.

(** Pinning what [Peek] finds, and unpinning, are invisible to [Peek]. *)
Lemma Pin_Peek k c k' : is_Some (Peek k c) -> Peek k' (Pin k c).2 = Peek k' c.
Proof.
  intros [v Hv]. unfold Peek, Pin, GetAndPin in *. destruct (map_ c !! k) as [n|] eqn:Hn; [|done].
  destruct (location n) eqn:El; simplify_eq/=; rewrite lookup_alter; case_decide; subst;
    destruct (_ =? _); simpl; rewrite ?lookup_alter_eq, ?lookup_alter_ne by done; rewrite ?Hn; simpl;
    rewrite ?El; done.
Qed.
Lemma Unpin_Peek k c k' : wf c -> Peek k' (Unpin k c).2 = Peek k' c.
Proof.
  intros Hwf. pose proof (wf_key _ Hwf k) as Hk. unfold Peek, Unpin, key_ok in *.
  destruct (map_ c !! k) as [n|] eqn:Hn; [|done]. simpl. destruct (0 <? pin_count n) eqn:E; [|done].
  to_prop. destruct (location n) eqn:El; [lia| |lia].
  destruct (_ =? 0); simpl; destruct (decide (k' = k)) as [->|];
    rewrite ?lookup_alter_eq, ?lookup_alter_ne by done; rewrite ?Hn; simpl; rewrite ?El; done.
Qed.

(** *** Room for a batch *)

Lemma Put_lru k v c : map_ c !! k = None -> (capacity_ c <= active_size c)%nat -> lru_list_ c ≠ [] ->
  wf c -> (Put k v c).2 = emplace_front k v (Evict c).2.
Proof.
  intros Hn Hfull Hne Hwf. unfold Put. rewrite Hn, (proj2 (Nat.leb_le _ _)) by done.
  destruct (last (lru_list_ c)) as [k0|] eqn:El; [|by apply last_None in El].
  destruct (Evict_Some c k0 Hwf El) as (n & _ & He). destruct (Evict c) as [e c']; simpl in *. by subst e.
Qed.

(** While pins and the entries put so far leave room, a [Put] of an unpinned key
    succeeds, leads the active list and displaces nothing that was put before. *)
Lemma Put_room k v c (ds rest : list Key) :
  wf c -> lru_list_ c = ds ++ rest -> GetPinCount k c = 0 ->
  (length (pinned_list_ c) + length ds < capacity_ c)%nat ->
  (exists rest', lru_list_ (Put k v c).2 = (k :: remove_elem k ds) ++ rest') ∧
  pinned_list_ (Put k v c).2 = pinned_list_ c ∧ capacity_ (Put k v c).2 = capacity_ c ∧
  map_ (Put k v c).2 !! k = Some (mkNode v 0 kLru) ∧
  forall k', k' ∈ ds -> k' ≠ k -> map_ (Put k v c).2 !! k' = map_ c !! k'.
Proof.
  intros Hwf Hl Hp Hroom. pose proof (wf_key _ Hwf k) as Hk. unfold key_ok, GetPinCount in *.
  destruct (map_ c !! k) as [n|] eqn:Hn.
  - unfold Put, Promote. rewrite Hn, Hp. simpl.
    destruct (location n) eqn:El; [|lia|]; simpl; rewrite Hl, ?remove_elem_app.
    + split_and!; [by exists (remove_elem k rest)|done|done| |].
      * rewrite lookup_alter_eq, Hn. simpl. by rewrite ?Hp, ?El.
      * intros k' _ Hne. by rewrite lookup_alter_ne.
    + destruct Hk as (_ & Hnl & _). rewrite Hl, elem_of_app in Hnl.
      rewrite (remove_elem_notin k ds) by naive_solver.
      split_and!; [by exists rest|done|done| |].
      * rewrite !lookup_alter_eq, Hn. simpl. by rewrite Hp.
      * intros k' _ Hne. by rewrite !lookup_alter_ne.
  - destruct Hk as (Hnl & _). rewrite Hl, elem_of_app in Hnl.
    rewrite (remove_elem_notin k ds) by naive_solver.
    destruct (Nat.leb_spec (capacity_ c) (active_size c)) as [Hfull|Hfree].
    + assert (rest ≠ []).
      { intros ->. unfold active_size in Hfull. rewrite Hl, app_nil_r in Hfull. lia. }
      rewrite Put_lru by (done || (rewrite Hl; by destruct ds)).
      assert (El : last (lru_list_ c) = last rest).
      { rewrite Hl, last_app. destruct (last rest) eqn:E; [done|by apply last_None in E]. }
      destruct (last rest) as [k0|] eqn:Er; [|by apply last_None in Er].
      pose proof (wf_lru _ Hwf) as Hnd. rewrite Hl in Hnd. apply NoDup_app in Hnd as (_ & Hdis & _).
      assert (Hk0 : k0 ∉ ds) by (intros Hin; by apply (Hdis k0 Hin), last_elem).
      unfold Evict. rewrite El. simpl. rewrite Hl, remove_elem_app, (remove_elem_notin k0 ds) by done.
      split_and!; [by exists (remove_elem k0 rest)|done|done|by rewrite lookup_insert_eq|].
      intros k' Hin Hne. rewrite lookup_insert_ne by done. apply lookup_alter_ne. by intros ->.
    + unfold Put. rewrite Hn, (proj2 (Nat.leb_gt _ _)) by done. simpl. rewrite Hl.
      split_and!; [by exists rest|done|done|by rewrite lookup_insert_eq|].
      intros k' _ Hne. by rewrite lookup_insert_ne.
Qed.

(** Demotion keeps the values; a [Put] with room for it changes one value only. *)
Lemma value_alter (f : CacheNode Value -> CacheNode Value) (m : gmap Key (CacheNode Value)) k k' :
  (forall n, value (f n) = value n) -> value <$> alter f k m !! k' = value <$> m !! k'.
Proof.
  intros Hf. rewrite lookup_alter. case_decide; subst; [|done]. destruct (m !! k'); simpl; [by rewrite Hf|done].
Qed.
Lemma Evict_value c k : PeekIncludingCandidates k (Evict c).2 = PeekIncludingCandidates k c.
Proof.
  unfold Evict, PeekIncludingCandidates. destruct (last (lru_list_ c)); [|done]. simpl. by apply value_alter.
Qed.
Lemma Promote_value k n c k' : PeekIncludingCandidates k' (Promote k n c) = PeekIncludingCandidates k' c.
Proof.
  unfold Promote, PeekIncludingCandidates.
  destruct (0 <? pin_count n); [|destruct (location n)]; simpl; rewrite ?value_alter; done.
Qed.
Lemma Put_value k v c k' : wf c -> (length (pinned_list_ c) < capacity_ c)%nat ->
  PeekIncludingCandidates k' (Put k v c).2 =
  if decide (k' = k) then Some v else PeekIncludingCandidates k' c.
Proof.
  intros Hwf Hroom. destruct (map_ c !! k) as [n|] eqn:Hn.
  - unfold Put. rewrite Hn. cbn [snd]. rewrite Promote_value. unfold PeekIncludingCandidates. simpl.
    rewrite lookup_alter. repeat case_decide; subst; try done. by rewrite Hn.
  - destruct (Nat.leb_spec (capacity_ c) (active_size c)) as [Hfull|Hfree].
    + rewrite Put_lru; [|done|done| |done].
      * unfold PeekIncludingCandidates. simpl. rewrite lookup_insert.
        repeat case_decide; subst; try done. apply (Evict_value c).
      * intros E. unfold active_size in Hfull. rewrite E in Hfull. simpl in Hfull. lia.
    + unfold Put. rewrite Hn, (proj2 (Nat.leb_gt _ _)) by done. unfold PeekIncludingCandidates. simpl.
      rewrite lookup_insert. repeat case_decide; subst; done.
Qed.

End clients.

(** ** Evaluations *)

Definition full_of_pins : LRUCache string Z :=
  run [OpPut "a"%string 1; OpPin "a"%string] (create 1).
Definition with_candidate : LRUCache string Z :=
  run [OpPut "a"%string 1; OpPut "b"%string 2] (create 1).

(** Bringing back a candidate makes the cache exceed its capacity, and later
    insertions keep the excess: only one entry is demoted per insertion. *)
Lemma lru_capacity_exceeded :
  capacity with_candidate = 1%nat ∧
  active_size (Get "a"%string with_candidate).2 = 2%nat ∧
  active_size (Put "c"%string 3 (Get "a"%string with_candidate).2).2 = 2%nat ∧
  active_size (PutBack "b"%string 2 full_of_pins) = 2%nat.
Proof. vm_compute. done. Qed.

Lemma with_candidate_wf : wf with_candidate.
Proof. apply run_wf, create_wf. Qed.
Lemma full_of_pins_wf : wf full_of_pins.
Proof. apply run_wf, create_wf. Qed.

Lemma lru_pinned_survives_witness :
  exists n', map_ (run [OpPin "a"%string; OpUnpin "a"%string; OpErase "a"%string; OpPut "b"%string 5]
                     full_of_pins) !! "a"%string = Some n' ∧ pin_count n' = 1.
Proof.
  destruct (lru_pinned_survives
    [OpPin "a"%string; OpUnpin "a"%string; OpErase "a"%string; OpPut "b"%string 5]
    full_of_pins "a"%string (mkNode 1 1 kPinned)) as (n' & Hn & _ & Hp & _).
  - apply full_of_pins_wf.
  - repeat constructor.
  - vm_compute. reflexivity.
  - intros i. do 5 (destruct i as [|i]; [vm_compute; reflexivity|]). vm_compute. reflexivity.
  - exists n'. split; [exact Hn|]. rewrite Hp. vm_compute. reflexivity.
Defined.

Lemma lru_eviction_order_witness :
  GetEvictableKeys 2 (Evict with_candidate).2 = ["a"%string; "b"%string].
Proof.
  destruct (lru_eviction_order with_candidate 2 with_candidate_wf) as (_ & -> & _).
  vm_compute. reflexivity.
Defined.




End LRU.
