(* ===== verification/LogicalBlockManager.v ===== *)
(** * The host block allocator ([src/tpu_sync/kv_cache/logical_block_manager.cc])

    [LogicalBlockManager] tracks which of a fixed number of host blocks are
    allocated and which of those are locked, and reuses unlocked blocks in least
    recently used order when the free ones run out.  Block ids are C++ [int]s,
    modelled as integers; the access counter is a [uint64_t] and wraps. *)

From S2P Require Import Prelude.

Module LBM.

Record BlockState : Type := mkBlock {
  is_allocated : bool;
  is_locked : bool;
  last_access_counter : Z
}.

Record LogicalBlockManager : Type := mkLBM {
  total_blocks_ : Z;
  access_counter_ : Z;
  blocks_ : list BlockState
}.

Implicit Types (m : LogicalBlockManager) (id : Z) (ids : list Z).

Definition empty_block : BlockState := mkBlock false false 0.

Definition create (num_blocks : Z) : LogicalBlockManager :=
  mkLBM num_blocks 0 (replicate (Z.to_nat num_blocks) empty_block).

(** [blocks_[i]], for an index the callers have checked. *)
Definition block (bs : list BlockState) (i : Z) : BlockState :=
  default empty_block (bs !! Z.to_nat i).

(** The order LRU eviction sorts by: the access counter, then the block id. *)
Definition lru_less (bs : list BlockState) (a b : Z) : bool :=
  if last_access_counter (block bs a) =? last_access_counter (block bs b) then a <? b
  else last_access_counter (block bs a) <? last_access_counter (block bs b).

Definition free_block_ids m : list Z :=
  filter (fun i => is_allocated (block (blocks_ m) i) = false) (zrange 0 (total_blocks_ m)).
Definition evictable_block_ids m : list Z :=
  filter (fun i => is_allocated (block (blocks_ m) i) = true /\ is_locked (block (blocks_ m) i) = false)
    (zrange 0 (total_blocks_ m)).

Definition clear_allocated (bs : list BlockState) (i : Z) : list BlockState :=
  <[Z.to_nat i := mkBlock false (is_locked (block bs i)) (last_access_counter (block bs i))]> bs.
Definition assign (lock : bool) (counter : Z) (bs : list BlockState) (i : Z) : list BlockState :=
  <[Z.to_nat i := mkBlock true lock counter]> bs.

Definition Allocate m (num_blocks_to_allocate : Z) (lock : bool) :
    StatusOr (list Z) * LogicalBlockManager :=
  let n := num_blocks_to_allocate in
  if n <=? 0 then
    (Err kInvalidArgument StrCat["Requested blocks must be > 0, got "; n], m)
  else if total_blocks_ m <? n then
    (Err kInvalidArgument
       StrCat["Requested blocks ("; n; ") exceed total blocks ("; total_blocks_ m; ")"], m)
  else
    let free := free_block_ids m in
    let evictable := evictable_block_ids m in
    if Z.of_nat (length free + length evictable) <? n then
      (Err kResourceExhausted
         StrCat["Insufficient available blocks. Requested: "; n; ", Free: "; Z.of_nat (length free);
                ", Evictable: "; Z.of_nat (length evictable)], m)
    else
      let free_to_use := Z.min (Z.of_nat (length free)) n in
      let from_free := take (Z.to_nat free_to_use) free in
      let needed_blocks := n - free_to_use in
      let evicted :=
        if 0 <? needed_blocks
        then take (Z.to_nat needed_blocks) (sort_by (lru_less (blocks_ m)) evictable)
        else [] in
      let blocks1 := foldl clear_allocated (blocks_ m) evicted in
      let allocated := from_free ++ evicted in
      let counter := u64 (access_counter_ m + 1) in
      let blocks2 := foldl (assign lock counter) blocks1 allocated in
      (Ok allocated, mkLBM (total_blocks_ m) counter blocks2).

(** One round of [AllocateTarget]'s validation loop. *)
Definition check_target m (seen : list bool) (block_id : Z) : StatusOr (list bool) :=
  if (block_id <? 0) || (total_blocks_ m <=? block_id) then
    Err kInvalidArgument StrCat["Invalid block ID: "; block_id]
  else if is_allocated (block (blocks_ m) block_id) then
    Err kFailedPrecondition StrCat["Already allocated block ID: "; block_id]
  else if default false (seen !! Z.to_nat block_id) then
    Err kInvalidArgument StrCat["Duplicate block ID: "; block_id]
  else Ok (<[Z.to_nat block_id := true]> seen).

Definition AllocateTarget m ids : Status * LogicalBlockManager :=
  match for_each (check_target m) ids (replicate (Z.to_nat (total_blocks_ m)) false) with
  | Err code msg => (Err code msg, m)
  | Ok _ =>
      let counter := u64 (access_counter_ m + 1) in
      (OkStatus, mkLBM (total_blocks_ m) counter (foldl (assign true counter) (blocks_ m) ids))
  end.

(** The validation [Unlock] and [Deallocate] share: every id in range and allocated. *)
Definition check_allocated m (verb : string) (block_id : Z) : Status :=
  if (block_id <? 0) || (total_blocks_ m <=? block_id) then
    Err kInvalidArgument StrCat["Invalid block ID: "; block_id]
  else if negb (is_allocated (block (blocks_ m) block_id)) then
    Err kInvalidArgument StrCat["Cannot "; verb; " unallocated block ID: "; block_id]
  else OkStatus.

Definition unlock_block (bs : list BlockState) (i : Z) : list BlockState :=
  <[Z.to_nat i := mkBlock (is_allocated (block bs i)) false (last_access_counter (block bs i))]> bs.
Definition free_block (bs : list BlockState) (i : Z) : list BlockState :=
  <[Z.to_nat i := mkBlock false false (last_access_counter (block bs i))]> bs.

Definition Unlock m ids : Status * LogicalBlockManager :=
  match for_each (fun _ => check_allocated m "unlock") ids tt with
  | Err code msg => (Err code msg, m)
  | Ok _ => (OkStatus, mkLBM (total_blocks_ m) (access_counter_ m) (foldl unlock_block (blocks_ m) ids))
  end.

Definition Deallocate m ids : Status * LogicalBlockManager :=
  match for_each (fun _ => check_allocated m "deallocate") ids tt with
  | Err code msg => (Err code msg, m)
  | Ok _ => (OkStatus, mkLBM (total_blocks_ m) (access_counter_ m) (foldl free_block (blocks_ m) ids))
  end.

Definition AccessBlock m (block_id : Z) : Status * LogicalBlockManager :=
  match check_allocated m "access" block_id with
  | Err code msg => (Err code msg, m)
  | Ok _ =>
      let counter := u64 (access_counter_ m + 1) in
      let b := block (blocks_ m) block_id in
      (OkStatus, mkLBM (total_blocks_ m) counter
         (<[Z.to_nat block_id := mkBlock (is_allocated b) (is_locked b) counter]> (blocks_ m)))
  end.

Definition IsAllocated m (block_id : Z) : bool :=
  if (block_id <? 0) || (total_blocks_ m <=? block_id) then false
  else is_allocated (block (blocks_ m) block_id).
Definition IsLocked m (block_id : Z) : bool :=
  if (block_id <? 0) || (total_blocks_ m <=? block_id) then false
  else is_locked (block (blocks_ m) block_id).

Definition num_free_blocks m : Z :=
  Z.of_nat (length (filter (fun b => is_allocated b = false) (blocks_ m))).
Definition num_allocated_blocks m : Z :=
  Z.of_nat (length (filter (fun b => is_allocated b = true) (blocks_ m))).
Definition num_locked_blocks m : Z :=
  Z.of_nat (length (filter (fun b => is_locked b = true) (blocks_ m))).

(** ** Calls as steps *)

Inductive Op : Type :=
  | OpAllocate (n : Z) (lock : bool)
  | OpAllocateTarget (ids : list Z)
  | OpUnlock (ids : list Z)
  | OpDeallocate (ids : list Z)
  | OpAccess (id : Z).

Definition apply_op (o : Op) m : LogicalBlockManager :=
  match o with
  | OpAllocate n lock => (Allocate m n lock).2
  | OpAllocateTarget ids => (AllocateTarget m ids).2
  | OpUnlock ids => (Unlock m ids).2
  | OpDeallocate ids => (Deallocate m ids).2
  | OpAccess i => (AccessBlock m i).2
  end.

(** ** Well-formedness *)

Definition block_ok (counter : Z) (b : BlockState) : Prop :=
  (is_locked b = true -> is_allocated b = true) /\ 0 <= last_access_counter b <= counter.

Record wf m : Prop := {
  wf_total : 0 <= total_blocks_ m;
  wf_length : length (blocks_ m) = Z.to_nat (total_blocks_ m);
  wf_counter : 0 <= access_counter_ m < 2 ^ 64;
  wf_blocks : Forall (block_ok (access_counter_ m)) (blocks_ m)
}.

(** Every id of a list is a block of the manager. *)
Definition in_range m id : Prop := 0 <= id < total_blocks_ m.

(** A block an allocation may hand out: free, or allocated and not locked. *)
Definition available m id : Prop :=
  in_range m id /\ (is_allocated (block (blocks_ m) id) = false \/ is_locked (block (blocks_ m) id) = false).

#[global] Instance available_dec m id : Decision (available m id).
Proof. unfold available, in_range. apply _. Defined.

(** *** Updates of one block *)

Lemma block_insert (bs : list BlockState) i j b : 0 <= i -> 0 <= j -> (Z.to_nat i < length bs)%nat ->
  block (<[Z.to_nat i := b]> bs) j = if decide (i = j) then b else block bs j.
Proof.
  intros Hi Hj Hlt. unfold block. case_decide as E.
  - subst. by rewrite list_lookup_insert_eq.
  - rewrite list_lookup_insert_ne by lia. done.
Qed.

(** A fold of one-block updates only changes the listed blocks. *)
Lemma foldl_update_length (f : list BlockState -> Z -> BlockState) ids bs :
  length (foldl (fun bs i => <[Z.to_nat i := f bs i]> bs) bs ids) = length bs.
Proof. revert bs; induction ids as [|i ids IH]; intros bs; simpl; [done|]. by rewrite IH, length_insert. Qed.

Lemma foldl_update_ne (f : list BlockState -> Z -> BlockState) ids bs j :
  Forall (fun i => 0 <= i < Z.of_nat (length bs)) ids -> 0 <= j -> j ∉ ids ->
  block (foldl (fun bs i => <[Z.to_nat i := f bs i]> bs) bs ids) j = block bs j.
Proof.
  revert bs; induction ids as [|i ids IH]; intros bs Hall Hj Hnin; simpl; [done|].
  apply Forall_cons in Hall as [Hi Hall]. apply not_elem_of_cons in Hnin as [Hne Hnin].
  rewrite IH; [|by rewrite length_insert|done|done].
  rewrite block_insert by lia. by case_decide.
Qed.

(** ... and sets them to their new value, when that value only depends on the block. *)
Lemma foldl_update_eq (g : BlockState -> BlockState) ids bs j :
  (forall b, g (g b) = g b) ->
  Forall (fun i => 0 <= i < Z.of_nat (length bs)) ids -> j ∈ ids ->
  block (foldl (fun bs i => <[Z.to_nat i := g (block bs i)]> bs) bs ids) j = g (block bs j).
Proof.
  intros Hg. revert bs; induction ids as [|i ids IH]; intros bs Hall Hin; [by apply elem_of_nil in Hin|].
  apply Forall_cons in Hall as [Hi Hall]. simpl.
  destruct (decide (j ∈ ids)) as [Hj|Hj].
  - rewrite IH; [|by rewrite length_insert|done].
    assert (0 <= j) by (eapply Forall_forall in Hall; [|exact Hj]; lia).
    rewrite block_insert by lia. case_decide; subst; [apply Hg|done].
  - apply elem_of_cons in Hin as [->|]; [|done].
    rewrite (foldl_update_ne (fun bs i => g (block bs i))); [|by rewrite length_insert|lia|done].
    rewrite block_insert by lia. by case_decide.
Qed.

(** All the batch updates have this shape. *)
Definition upd (g : BlockState -> BlockState) ids (bs : list BlockState) : list BlockState :=
  foldl (fun bs i => <[Z.to_nat i := g (block bs i)]> bs) bs ids.

Lemma upd_length g ids bs : length (upd g ids bs) = length bs.
Proof. apply (foldl_update_length (fun bs i => g (block bs i))). Qed.

Lemma upd_block g ids bs j :
  (forall b, g (g b) = g b) -> Forall (fun i => 0 <= i < Z.of_nat (length bs)) ids -> 0 <= j ->
  block (upd g ids bs) j = if decide (j ∈ ids) then g (block bs j) else block bs j.
Proof.
  intros Hg Hall Hj. unfold upd. case_decide as E.
  - by apply foldl_update_eq.
  - by apply (foldl_update_ne (fun bs i => g (block bs i))).
Qed.

Lemma Forall_block (P : BlockState -> Prop) bs :
  Forall P bs <-> forall i, 0 <= i < Z.of_nat (length bs) -> P (block bs i).
Proof.
  rewrite Forall_lookup. unfold block. split.
  - intros Hall i Hi. destruct (lookup_lt_is_Some_2 bs (Z.to_nat i)) as [b Hb]; [lia|].
    rewrite Hb. by eapply Hall.
  - intros Hall i b Hb. specialize (Hall (Z.of_nat i)). rewrite Nat2Z.id, Hb in Hall.
    apply Hall. apply lookup_lt_Some in Hb. lia.
Qed.

Lemma wf_length_Z m : wf m -> Z.of_nat (length (blocks_ m)) = total_blocks_ m.
Proof. intros [? -> _ _]. lia. Qed.

(** Updating a set of blocks in a way that keeps each block well formed. *)
Lemma upd_wf m g ids counter :
  wf m -> (forall b, g (g b) = g b) -> Forall (in_range m) ids ->
  access_counter_ m <= counter < 2 ^ 64 ->
  (forall b, block_ok (access_counter_ m) b -> block_ok counter (g b)) ->
  wf (mkLBM (total_blocks_ m) counter (upd g ids (blocks_ m))).
Proof.
  intros Hwf Hg Hids Hc Hok. pose proof (wf_length_Z m Hwf) as Hlen.
  destruct Hwf as [Ht Hl Hcm Hb]. rewrite Forall_block in Hb.
  split; simpl; [done|by rewrite upd_length|lia|].
  apply Forall_block. rewrite upd_length. intros i Hi.
  rewrite upd_block; [|done|by rewrite Hlen|lia]. specialize (Hb i Hi).
  case_decide; [by apply Hok|]. destruct Hb. split; [done|lia].
Qed.

Lemma lbm_create_wf n : 0 <= n -> wf (create n).
Proof.
  intros Hn. split; simpl; [done|by rewrite length_replicate|lia|].
  apply Forall_replicate. split; [done|]. simpl. lia.
Qed.

(** *** Validation loops *)

Lemma check_allocated_ok m verb id :
  check_allocated m verb id = OkStatus <-> in_range m id /\ is_allocated (block (blocks_ m) id) = true.
Proof.
  unfold check_allocated, in_range.
  destruct ((id <? 0) || (total_blocks_ m <=? id)) eqn:E; to_prop; [split; [done|lia]|].
  destruct (is_allocated _) eqn:Ea; simpl; (split; [intros H; first [discriminate H|split; [lia|done]]|by intros [_ ?]]).
Qed.

Lemma check_allocated_loop m verb ids :
  for_each (fun _ => check_allocated m verb) ids tt = Ok tt <->
  Forall (fun id => in_range m id /\ is_allocated (block (blocks_ m) id) = true) ids.
Proof.
  induction ids as [|id ids IH]; simpl; [split; done|].
  rewrite Forall_cons, <-(check_allocated_ok m verb), <-IH.
  destruct (check_allocated m verb id) as [[]|]; (split; [intros H; try discriminate H; by split|intros [H1 H2]; first [discriminate H1|done]]).
Qed.

Definition seen_set (seen : list bool) (done_ : list Z) : Prop :=
  forall i, 0 <= i < Z.of_nat (length seen) -> default false (seen !! Z.to_nat i) = bool_decide (i ∈ done_).

Lemma seen_set_cons seen done_ id :
  seen_set seen done_ -> 0 <= id < Z.of_nat (length seen) ->
  seen_set (<[Z.to_nat id := true]> seen) (id :: done_).
Proof.
  intros Hs Hid i Hi. rewrite length_insert in Hi. destruct (decide (i = id)) as [->|Hne].
  - rewrite list_lookup_insert_eq by lia. simpl. symmetry. apply bool_decide_eq_true. by left.
  - rewrite list_lookup_insert_ne by lia. rewrite Hs by done. apply bool_decide_ext. set_solver.
Qed.

(** *** Selection of the blocks to allocate *)

#[global] Instance lru_less_swo bs : StrictWeakOrder (lru_less bs).
Proof.
  split; unfold lru_less; intros; repeat case_match; to_prop; simplify_eq; try done; lia.
Qed.

Lemma lru_less_total bs a b : a ≠ b -> lru_less bs b a = false -> lru_less bs a b = true.
Proof. unfold lru_less. intros. repeat case_match; to_prop; lia. Qed.

Lemma elem_of_free m id :
  id ∈ free_block_ids m <-> in_range m id /\ is_allocated (block (blocks_ m) id) = false.
Proof. unfold free_block_ids, in_range. rewrite list_elem_of_filter, elem_of_zrange. naive_solver. Qed.
Lemma elem_of_evictable m id :
  id ∈ evictable_block_ids m <->
  in_range m id /\ is_allocated (block (blocks_ m) id) = true /\ is_locked (block (blocks_ m) id) = false.
Proof. unfold evictable_block_ids, in_range. rewrite list_elem_of_filter, elem_of_zrange. naive_solver. Qed.

Lemma NoDup_free m : NoDup (free_block_ids m).
Proof. apply NoDup_filter, NoDup_zrange. Qed.
Lemma NoDup_evictable m : NoDup (evictable_block_ids m).
Proof. apply NoDup_filter, NoDup_zrange. Qed.

Definition num_available m : Z := Z.of_nat (length (filter (available m) (zrange 0 (total_blocks_ m)))).

Lemma num_available_split m :
  num_available m = Z.of_nat (length (free_block_ids m) + length (evictable_block_ids m)).
Proof.
  unfold num_available. f_equal. rewrite <-length_app. apply Permutation_length, NoDup_Permutation.
  - apply NoDup_filter, NoDup_zrange.
  - apply NoDup_app. split_and!; [apply NoDup_free| |apply NoDup_evictable].
    intros id. rewrite elem_of_free, elem_of_evictable. intuition congruence.
  - intros id. rewrite list_elem_of_filter, elem_of_app, elem_of_zrange, elem_of_free, elem_of_evictable.
    unfold available, in_range. destruct (is_allocated _), (is_locked _); intuition congruence.
Qed.

(** The ids [Allocate] picks. *)
Definition select_free m (n : Z) : list Z :=
  take (Z.to_nat (Z.min (Z.of_nat (length (free_block_ids m))) n)) (free_block_ids m).
Definition select_evicted m (n : Z) : list Z :=
  let needed := n - Z.min (Z.of_nat (length (free_block_ids m))) n in
  if 0 <? needed
  then take (Z.to_nat needed) (sort_by (lru_less (blocks_ m)) (evictable_block_ids m))
  else [].
Definition select m (n : Z) : list Z := select_free m n ++ select_evicted m n.

Lemma select_spec m n : 0 < n <= num_available m ->
  Z.of_nat (length (select m n)) = n /\ NoDup (select m n) /\ Forall (available m) (select m n).
Proof.
  rewrite num_available_split. intros Hn. unfold select, select_free, select_evicted.
  set (sorted := sort_by _ _). assert (Hp : sorted ≡ₚ evictable_block_ids m) by apply sort_by_perm.
  assert (Hl : length sorted = length (evictable_block_ids m)) by (by rewrite Hp).
  split_and!.
  - rewrite length_app, length_take. destruct (0 <? _) eqn:E; to_prop; rewrite ?length_take; simpl; lia.
  - apply NoDup_app. split_and!.
    + apply NoDup_take, NoDup_free.
    + intros id Hid%elem_of_take_weaken. destruct (0 <? _); [|apply not_elem_of_nil].
      intros Hid2%elem_of_take_weaken. rewrite Hp, elem_of_evictable in Hid2.
      rewrite elem_of_free in Hid. intuition congruence.
    + destruct (0 <? _); [|constructor]. apply NoDup_take. rewrite Hp. apply NoDup_evictable.
  - apply Forall_forall. intros id [Hid|Hid]%elem_of_app.
    + apply elem_of_take_weaken, elem_of_free in Hid. unfold available. naive_solver.
    + destruct (0 <? _); [|by apply elem_of_nil in Hid].
      apply elem_of_take_weaken in Hid. rewrite Hp, elem_of_evictable in Hid. unfold available. naive_solver.
Qed.

(** Free blocks go first, and the evicted blocks are the least recently used ones. *)
Lemma select_policy m n id : id ∈ select m n -> is_allocated (block (blocks_ m) id) = true ->
  (forall f, f ∈ free_block_ids m -> f ∈ select m n) /\
  (forall e, e ∈ evictable_block_ids m -> e ∉ select m n -> lru_less (blocks_ m) id e = true).
Proof.
  unfold select, select_free, select_evicted. set (sorted := sort_by _ _).
  assert (Hp : sorted ≡ₚ evictable_block_ids m) by apply sort_by_perm.
  assert (Hs : StronglySorted (not_after (lru_less (blocks_ m))) sorted) by apply sort_by_sorted, _.
  intros [Hid|Hid]%elem_of_app Ha.
  { apply elem_of_take_weaken, elem_of_free in Hid. intuition congruence. }
  destruct (0 <? _) eqn:E; [|by apply elem_of_nil in Hid]. to_prop.
  split.
  - intros f Hf. apply elem_of_app. left. by rewrite take_ge by lia.
  - intros e He Hne. rewrite not_elem_of_app in Hne. destruct Hne as [_ Hne].
    set (k := Z.to_nat (n - _)) in *. apply lru_less_total; [naive_solver|].
    assert (e ∈ drop k sorted).
    { assert (He' : e ∈ sorted) by (by rewrite Hp). rewrite <-(take_drop k sorted) in He'.
      apply elem_of_app in He' as [?|?]; done. }
    rewrite <-(take_drop k sorted) in Hs. by eapply StronglySorted_app_1_elem_of in Hs.
Qed.

Lemma Allocate_Ok m n lock : wf m -> 0 < n <= total_blocks_ m -> n <= num_available m ->
  exists bs, length bs = length (blocks_ m) /\
  Allocate m n lock =
    (Ok (select m n), mkLBM (total_blocks_ m) (u64 (access_counter_ m + 1)) bs) /\
  forall j, in_range m j -> block bs j =
    if decide (j ∈ select m n) then mkBlock true lock (u64 (access_counter_ m + 1))
    else block (blocks_ m) j.
Proof.
  intros Hwf Hn Hav. pose proof (wf_length_Z m Hwf) as Hlen.
  destruct (select_spec m n) as (Hsl & Hsn & Hsa); [lia|].
  unfold Allocate. rewrite (proj2 (Z.leb_gt n 0)), (proj2 (Z.ltb_ge _ _)) by lia.
  rewrite num_available_split in Hav. rewrite (proj2 (Z.ltb_ge _ _)) by lia. cbv zeta. unfold select in Hsa |- *.
  fold (select_free m n). fold (select_evicted m n).
  set (fr := select_free m n) in *. set (ev := select_evicted m n) in *.
  set (counter := u64 _).
  set (bs1 := foldl clear_allocated (blocks_ m) ev).
  assert (Hbs1 : bs1 = upd (fun b => mkBlock false (is_locked b) (last_access_counter b)) ev (blocks_ m)) by done.
  eexists. split; [|split; [reflexivity|]].
  - change (length (upd (fun _ => mkBlock true lock counter) (fr ++ ev) bs1) = length (blocks_ m)).
    by rewrite upd_length, Hbs1, upd_length.
  - intros j Hj. change (foldl (assign lock counter) bs1 (fr ++ ev))
      with (upd (fun _ => mkBlock true lock counter) (fr ++ ev) bs1).
    assert (Hrange : Forall (fun i => 0 <= i < Z.of_nat (length (blocks_ m))) (fr ++ ev)).
    { eapply Forall_impl; [exact Hsa|]. rewrite Hlen. by intros ? [? _]. }
    rewrite upd_block; [|done|by rewrite Hbs1, upd_length|unfold in_range in Hj; lia].
    case_decide as Ej; [done|]. rewrite Hbs1, upd_block; [|done| |unfold in_range in Hj; lia].
    + case_decide as Ej'; [|done]. exfalso. apply Ej, elem_of_app. by right.
    + by apply Forall_app in Hrange as [_ ?].
Qed.

(** *** Counting *)

Lemma block_zrange bs : block bs <$> zrange 0 (Z.of_nat (length bs)) = bs.
Proof.
  apply list_eq. intros i. rewrite list_lookup_fmap. unfold zrange.
  rewrite Z.sub_0_r, Nat2Z.id, list_lookup_fmap.
  destruct (decide (i < length bs)%nat) as [Hi|Hi].
  - rewrite lookup_seq_lt by done. cbn [fmap option_fmap option_map]. unfold block.
    replace (Z.to_nat _) with i by lia.
    destruct (lookup_lt_is_Some_2 bs i Hi) as [b Hb]. by rewrite Hb.
  - rewrite lookup_seq_ge by lia. simpl. symmetry. apply lookup_ge_None. lia.
Qed.

Lemma count_split {A} (P Q : A -> Prop) `{!forall x, Decision (P x), !forall x, Decision (Q x)} l :
  (forall x, x ∈ l -> Q x <-> ~ P x) ->
  (length (filter P l) + length (filter Q l) = length l)%nat.
Proof.
  induction l as [|x l IH]; intros HPQ; [done|].
  rewrite !filter_cons. specialize (IH ltac:(intros; apply HPQ; by right)).
  pose proof (HPQ x ltac:(by left)). repeat case_decide; simpl; tauto || lia.
Qed.

Lemma num_free_allocated m : wf m -> num_free_blocks m + num_allocated_blocks m = total_blocks_ m.
Proof.
  intros Hwf. rewrite <-(wf_length_Z m Hwf). unfold num_free_blocks, num_allocated_blocks.
  rewrite <-Nat2Z.inj_add, count_split; [done|]. intros b _. destruct (is_allocated b); naive_solver.
Qed.

Lemma num_available_locked m : wf m -> num_available m = total_blocks_ m - num_locked_blocks m.
Proof.
  intros Hwf. pose proof (wf_length_Z m Hwf) as Hlen. destruct Hwf as [_ _ _ Hb].
  assert (Hsum : num_available m + num_locked_blocks m = total_blocks_ m); [|lia].
  rewrite <-Hlen. unfold num_available, num_locked_blocks. rewrite <-Hlen.
  rewrite <-(block_zrange (blocks_ m)) at 2. rewrite length_filter_fmap.
  rewrite <-Nat2Z.inj_add, count_split; [by rewrite length_zrange, Z.sub_0_r, Nat2Z.id|].
  intros i Hi%elem_of_zrange. rewrite Forall_block in Hb. destruct (Hb i Hi) as [Hl _]. simpl.
  unfold available, in_range. rewrite <-Hlen.
  destruct (is_locked _), (is_allocated _); intuition congruence.
Qed.

(** *** Properties *)

(** Ids an [AllocateTarget] takes: distinct, in range, unallocated. *)
Definition target_ok m ids : Prop :=
  NoDup ids /\ Forall (fun id => in_range m id /\ is_allocated (block (blocks_ m) id) = false) ids.

#[global] Instance target_ok_dec m ids : Decision (target_ok m ids).
Proof. unfold target_ok, in_range. apply _. Defined.

Lemma check_target_loop m rest done_ seen :
  length seen = Z.to_nat (total_blocks_ m) -> seen_set seen done_ ->
  (exists r, for_each (check_target m) rest seen = Ok r) <->
  target_ok m rest /\ Forall (fun id => id ∉ done_) rest.
Proof.
  revert done_ seen. induction rest as [|id rest IH]; intros done_ seen Hl Hs; simpl.
  { split; [intros _; repeat constructor|eauto]. }
  unfold check_target at 1, target_ok. rewrite NoDup_cons, !Forall_cons. unfold in_range.
  destruct ((id <? 0) || (total_blocks_ m <=? id)) eqn:E1; to_prop.
  { split; [by intros [? ?]|lia]. }
  destruct (is_allocated _) eqn:E2; [split; [by intros [? ?]|intuition congruence]|].
  rewrite Hs by lia. destruct (bool_decide (id ∈ done_)) eqn:E3; to_prop.
  { split; [by intros [? ?]|tauto]. }
  rewrite (IH (id :: done_)); [|by rewrite length_insert|apply seen_set_cons; [done|lia]].
  unfold target_ok, in_range. rewrite !Forall_forall. setoid_rewrite not_elem_of_cons.
  split; intros H; decompose [and] H; split_and!; try done; try lia; try set_solver; naive_solver.
Qed.

Lemma AllocateTarget_checks m ids :
  (exists seen, for_each (check_target m) ids (replicate (Z.to_nat (total_blocks_ m)) false) = Ok seen) <->
  target_ok m ids.
Proof.
  rewrite (check_target_loop m ids []).
  - split; [tauto|]. intros ?. split; [done|]. apply Forall_true. set_solver.
  - apply length_replicate.
  - intros i Hi. rewrite length_replicate in Hi. by rewrite lookup_replicate_2 by lia.
Qed.

Lemma AllocateTarget_branches m ids :
  (target_ok m ids -> AllocateTarget m ids =
     (OkStatus, mkLBM (total_blocks_ m) (u64 (access_counter_ m + 1))
        (upd (fun _ => mkBlock true true (u64 (access_counter_ m + 1))) ids (blocks_ m)))) /\
  (~ target_ok m ids -> ok (AllocateTarget m ids).1 = false /\ (AllocateTarget m ids).2 = m).
Proof.
  pose proof (AllocateTarget_checks m ids) as Hc. unfold AllocateTarget.
  destruct (for_each _ ids _) as [seen|] eqn:E.
  - split; [done|]. intros Hn. exfalso. apply Hn, Hc. eauto.
  - split; [|done]. intros [? ?]%Hc. done.
Qed.

(** The states a sequence of calls goes through; each call consumes at most one
    tick of the access counter. *)
Definition run (ops : list Op) m : LogicalBlockManager := foldl (fun m o => apply_op o m) m ops.

Lemma u64_succ m : wf m -> access_counter_ m + 1 < 2 ^ 64 -> u64 (access_counter_ m + 1) = access_counter_ m + 1.
Proof. intros [_ _ ? _] ?. apply u64_id. lia. Qed.

Lemma lbm_apply_op_wf o m : wf m -> access_counter_ m + 1 < 2 ^ 64 ->
  wf (apply_op o m) /\ access_counter_ (apply_op o m) <= access_counter_ m + 1 /\
  total_blocks_ (apply_op o m) = total_blocks_ m.
Proof.
  intros Hwf Hc. pose proof (u64_succ m Hwf Hc) as Hu. pose proof (wf_counter m Hwf).
  assert (Hassign : forall lock ids, Forall (in_range m) ids ->
    wf (mkLBM (total_blocks_ m) (access_counter_ m + 1)
          (upd (fun _ => mkBlock true lock (access_counter_ m + 1)) ids (blocks_ m)))).
  { intros lock ids Hids. apply upd_wf; try done; [lia|]. intros b _. split; [done|simpl; lia]. }
  destruct o as [n lock|ids|ids|ids|id]; simpl.
  - destruct (decide (0 < n <= total_blocks_ m /\ n <= num_available m)) as [[Hn Hav]|Hn].
    + destruct (Allocate_Ok m n lock Hwf Hn Hav) as (bs & Hl & -> & Hb). simpl.
      destruct (select_spec m n) as (_ & _ & Hs); [lia|]. rewrite Hu in *. split_and!; [|lia|done].
      pose proof (wf_length_Z m Hwf) as Hlen. destruct Hwf as [Ht Hlen' _ Hbk].
      split; simpl; [done|by rewrite Hl|lia|]. apply Forall_block. rewrite Hl, Hlen. intros i Hi.
      rewrite Hb by done. case_decide; [split; [done|simpl; lia]|].
      rewrite Forall_block in Hbk. destruct (Hbk i); [lia|]. split; [done|lia].
    + unfold Allocate. destruct (n <=? 0) eqn:E1; [split_and!; [done|simpl; lia|done]|].
      destruct (total_blocks_ m <? n) eqn:E2; [split_and!; [done|simpl; lia|done]|].
      cbv zeta. destruct (Z.of_nat (length (free_block_ids m) + length (evictable_block_ids m)) <? n) eqn:E3; [split_and!; [done|simpl; lia|done]|]. rewrite <-num_available_split in E3. to_prop. lia.
  - destruct (AllocateTarget_branches m ids) as [Hok Hne].
    destruct (decide (target_ok m ids)) as [H'|H'].
    + rewrite (Hok H'). simpl. rewrite Hu. split_and!; [|lia|done]. apply Hassign.
      destruct H' as [_ H']. eapply Forall_impl; [exact H'|]. by intros ? [? _].
    + destruct (Hne H') as [_ ->]. split_and!; [done|lia|done].
  - unfold Unlock. destruct (for_each _ ids tt) as [[]|] eqn:E; simpl; [|split_and!; [done|lia|done]].
    apply check_allocated_loop in E. split_and!; [|lia|done].
    apply (upd_wf m (fun b => mkBlock (is_allocated b) false (last_access_counter b))); try done; try lia.
    + eapply Forall_impl; [exact E|]. by intros ? [? _].
    + intros b [? ?]. by split.
  - unfold Deallocate. destruct (for_each _ ids tt) as [[]|] eqn:E; simpl; [|split_and!; [done|lia|done]].
    apply check_allocated_loop in E. split_and!; [|lia|done].
    apply (upd_wf m (fun b => mkBlock false false (last_access_counter b))); try done; try lia.
    + eapply Forall_impl; [exact E|]. by intros ? [? _].
    + intros b [? ?]. by split.
  - unfold AccessBlock. destruct (check_allocated m "access" id) as [[]|] eqn:E; simpl; [|split_and!; [done|lia|done]].
    apply check_allocated_ok in E as [Hr Ha]. rewrite Hu. split_and!; [|lia|done].
    apply (upd_wf m (fun b => mkBlock (is_allocated b) (is_locked b) (access_counter_ m + 1)) [id]); try done; try lia.
    + by constructor.
    + intros b [? ?]. split; [done|simpl; lia].
Qed.

Lemma lbm_run_wf ops m : wf m -> access_counter_ m + Z.of_nat (length ops) < 2 ^ 64 -> wf (run ops m).
Proof.
  revert m. induction ops as [|o ops IH]; intros m Hwf Hlt; [done|]. simpl in *.
  destruct (lbm_apply_op_wf o m Hwf) as (Hwf' & Hc & _); [lia|]. apply IH; [done|lia].
Qed.

Lemma IsAllocated_in_range m j : in_range m j -> IsAllocated m j = is_allocated (block (blocks_ m) j).
Proof.
  unfold IsAllocated, in_range. intros. rewrite (proj2 (Z.ltb_ge j 0)), (proj2 (Z.leb_gt _ _)) by lia. done.
Qed.
Lemma IsLocked_in_range m j : in_range m j -> IsLocked m j = is_locked (block (blocks_ m) j).
Proof.
  unfold IsLocked, in_range. intros. rewrite (proj2 (Z.ltb_ge j 0)), (proj2 (Z.leb_gt _ _)) by lia. done.
Qed.
Lemma IsAllocated_true m j : IsAllocated m j = true -> in_range m j.
Proof.
  unfold IsAllocated, in_range. destruct (j <? 0) eqn:E; [done|].
  destruct (_ <=? j) eqn:E'; [done|]. to_prop. lia.
Qed.

Lemma Allocate_not_ok m n lock : wf m -> ~ 0 < n <= num_available m ->
  ok (Allocate m n lock).1 = false /\ (Allocate m n lock).2 = m.
Proof.
  intros Hwf Hn. unfold Allocate. destruct (n <=? 0) eqn:E1; [done|].
  destruct (total_blocks_ m <? n) eqn:E2; [done|]. cbv zeta.
  destruct (Z.of_nat (length (free_block_ids m) + length (evictable_block_ids m)) <? n) eqn:E3; [done|].
  rewrite <-num_available_split in E3. to_prop. lia.
Qed.

Lemma num_available_le m : wf m -> num_available m <= total_blocks_ m.
Proof. intros Hwf. rewrite num_available_locked by done. unfold num_locked_blocks. lia. Qed.

Lemma Allocate_Ok_select m n lock ids : wf m -> (Allocate m n lock).1 = Ok ids -> ids = select m n.
Proof.
  intros Hwf Hok. pose proof (num_available_le m Hwf).
  destruct (decide (0 < n <= num_available m)) as [Hn|Hn].
  - destruct (Allocate_Ok m n lock Hwf) as (bs & _ & E & _); [lia|lia|]. rewrite E in Hok. by simplify_eq/=.
  - destruct (Allocate_not_ok m n lock Hwf Hn) as [E _]. by rewrite Hok in E.
Qed.

(** In every state reached from a fresh manager by fewer than 2^64 calls, the
    block table has exactly [total_blocks] entries, a locked block is allocated, no
    access stamp is ahead of the counter, and the counts the inspection methods
    return add up: free and allocated blocks partition the table, and what an
    allocation can draw on is everything that is not locked. *)
Theorem lbm_reachable_wf (n : Z) (ops : list Op) :
  0 <= n -> Z.of_nat (length ops) < 2 ^ 64 ->
  wf (run ops (create n)) /\
  num_free_blocks (run ops (create n)) + num_allocated_blocks (run ops (create n)) =
    total_blocks_ (run ops (create n)) /\
  num_available (run ops (create n)) =
    total_blocks_ (run ops (create n)) - num_locked_blocks (run ops (create n)).
Proof.
  intros Hn Hlen. assert (wf (run ops (create n))) as Hwf.
  { apply lbm_run_wf; [by apply lbm_create_wf|simpl; lia]. }
  split_and!; [done|by apply num_free_allocated|by apply num_available_locked].
Qed.

(** C36: [Allocate] succeeds exactly when the request is positive and not larger than
    the number of blocks that are not locked; a refused call changes nothing.  On
    success it returns exactly that many distinct blocks, none of which was locked,
    marks each of them allocated with the requested lock and the new stamp, and
    leaves every other block as it was. *)
Theorem lbm_allocate_spec m n lock : wf m ->
  (ok (Allocate m n lock).1 = true <-> 0 < n <= total_blocks_ m - num_locked_blocks m) /\
  (ok (Allocate m n lock).1 = false -> (Allocate m n lock).2 = m) /\
  forall ids, (Allocate m n lock).1 = Ok ids ->
    Z.of_nat (length ids) = n /\ NoDup ids /\
    Forall (fun id => in_range m id /\ IsLocked m id = false) ids /\
    forall j, in_range m j ->
      block (blocks_ (Allocate m n lock).2) j =
        if decide (j ∈ ids) then mkBlock true lock (u64 (access_counter_ m + 1))
        else block (blocks_ m) j.
Proof.
  intros Hwf. pose proof (num_available_locked m Hwf) as Hav.
  assert (0 <= num_locked_blocks m) by (unfold num_locked_blocks; lia).
  destruct (decide (0 < n <= num_available m)) as [Hn|Hn].
  - destruct (Allocate_Ok m n lock Hwf) as (bs & Hl & E & Hb); [lia|lia|]. rewrite E. clear E.
    destruct (select_spec m n Hn) as (Hs1 & Hs2 & Hs3). simpl. split_and!; [lia|done|].
    intros ids [= <-]. split_and!; [done|done| |done].
    eapply Forall_impl; [exact Hs3|]. intros id [Hr Hf]. split; [done|].
    rewrite IsLocked_in_range by done. destruct Hf as [Hf|Hf]; [|done].
    pose proof (wf_blocks _ Hwf) as Hbk. rewrite Forall_block in Hbk.
    destruct (Hbk id) as [Hlk _]; [rewrite (wf_length_Z m Hwf); apply Hr|].
    destruct (is_locked _); [|done]. rewrite Hlk in Hf; done.
  - destruct (Allocate_not_ok m n lock Hwf Hn) as [E ->].
    rewrite E. split_and!; [split; [done|lia]|done|]. intros ids Hids. by rewrite Hids in E.
Qed.

(** The eviction policy.  If an allocation takes a block that was in use, it has
    taken every free block first, and every unlocked block it leaves in use was
    accessed later (ties broken by id): the blocks it reuses are the least recently
    accessed ones. *)
Theorem lbm_allocate_lru m n lock ids id :
  wf m -> (Allocate m n lock).1 = Ok ids -> id ∈ ids -> IsAllocated m id = true ->
  (forall f, in_range m f -> IsAllocated m f = false -> f ∈ ids) /\
  (forall e, IsAllocated m e = true -> IsLocked m e = false -> e ∉ ids ->
     last_access_counter (block (blocks_ m) id) < last_access_counter (block (blocks_ m) e) \/
     (last_access_counter (block (blocks_ m) id) = last_access_counter (block (blocks_ m) e) /\ id < e)).
Proof.
  intros Hwf Hok Hid Ha. rewrite (Allocate_Ok_select m n lock ids Hwf Hok) in *. clear ids Hok.
  pose proof (IsAllocated_true m id Ha) as Hr. rewrite IsAllocated_in_range in Ha by done.
  destruct (select_policy m n id Hid Ha) as [Hf He]. split.
  - intros f Hfr Hfree. rewrite IsAllocated_in_range in Hfree by done. by apply Hf, elem_of_free.
  - intros e Hea Hel Hne. pose proof (IsAllocated_true m e Hea) as Her.
    rewrite IsAllocated_in_range in Hea by done. rewrite IsLocked_in_range in Hel by done.
    assert (lru_less (blocks_ m) id e = true) as Hless by (by apply He; [apply elem_of_evictable|]).
    unfold lru_less in Hless. destruct (_ =? _) eqn:E; to_prop; lia.
Qed.

(** The batch calls are all or nothing.  [AllocateTarget], [Unlock] and
    [Deallocate] either find a bad id and leave the manager untouched, or apply to
    every listed block and to no other: a target batch must be distinct, in range and
    unallocated and ends allocated, locked and freshly stamped; an unlocked block
    stays allocated with its stamp; a deallocated block is free and unlocked. *)
Theorem lbm_batch_atomic m ids : wf m ->
  let allocated := Forall (fun id => IsAllocated m id = true) ids in
  let fresh := NoDup ids /\ Forall (fun id => in_range m id /\ IsAllocated m id = false) ids in
  let changes (r : Status * LogicalBlockManager) (g : BlockState -> BlockState) :=
    r.1 = OkStatus /\ total_blocks_ r.2 = total_blocks_ m /\
    forall j, in_range m j -> block (blocks_ r.2) j =
      if decide (j ∈ ids) then g (block (blocks_ m) j) else block (blocks_ m) j in
  let refuses (r : Status * LogicalBlockManager) := ok r.1 = false /\ r.2 = m in
  (fresh -> changes (AllocateTarget m ids) (fun _ => mkBlock true true (u64 (access_counter_ m + 1)))) /\
  (~ fresh -> refuses (AllocateTarget m ids)) /\
  (allocated -> changes (Unlock m ids) (fun b => mkBlock true false (last_access_counter b)) /\
                changes (Deallocate m ids) (fun b => mkBlock false false (last_access_counter b))) /\
  (~ allocated -> refuses (Unlock m ids) /\ refuses (Deallocate m ids)).
Proof.
  intros Hwf allocated fresh changes refuses.
  pose proof (wf_length_Z m Hwf) as Hlen.
  assert (Hfresh : fresh <-> target_ok m ids).
  { unfold fresh, target_ok. rewrite !Forall_forall.
    split; intros [? H]; (split; [done|]); intros x Hx; destruct (H x Hx) as [Hr ?];
      (split; [done|]); [rewrite <-IsAllocated_in_range by done|rewrite IsAllocated_in_range by done]; done. }
  assert (Halloc : allocated <->
    Forall (fun id => in_range m id /\ is_allocated (block (blocks_ m) id) = true) ids).
  { unfold allocated. rewrite !Forall_forall. split; intros H x Hx.
    - pose proof (IsAllocated_true m x (H x Hx)). split; [done|]. rewrite <-IsAllocated_in_range by done. auto.
    - destruct (H x Hx). by rewrite IsAllocated_in_range. }
  assert (Hupd : forall g g' j, in_range m j -> Forall (in_range m) ids -> (forall b, g (g b) = g b) ->
    (j ∈ ids -> g (block (blocks_ m) j) = g' (block (blocks_ m) j)) ->
    block (upd g ids (blocks_ m)) j =
      if decide (j ∈ ids) then g' (block (blocks_ m) j) else block (blocks_ m) j).
  { intros g g' j [? ?] Hids Hg Hgg. rewrite upd_block; [|done|by rewrite Hlen|done].
    case_decide; auto. }
  split_and!.
  - intros Hf%Hfresh. destruct (AllocateTarget_branches m ids) as [Hok _]. rewrite (Hok Hf).
    unfold changes. split_and!; [done|done|]. intros j Hj.
    apply (Hupd _ (fun _ => mkBlock true true (u64 (access_counter_ m + 1)))); [done| |done|done].
    destruct Hf as [_ Hf]. eapply Forall_impl; [exact Hf|]. by intros ? [? _].
  - intros Hf. destruct (AllocateTarget_branches m ids) as [_ Hne]. apply Hne. by rewrite <-Hfresh.
  - intros Ha%Halloc. assert (Forall (in_range m) ids) by (eapply Forall_impl; [exact Ha|]; by intros ? [? _]).
    unfold Unlock, Deallocate. rewrite !(proj2 (check_allocated_loop m _ ids)) by done.
    unfold changes. split; split_and!; try done; intros j Hj.
    + apply (Hupd (fun b => mkBlock (is_allocated b) false (last_access_counter b))
               (fun b => mkBlock true false (last_access_counter b))); try done.
      intros Hin. rewrite Forall_forall in Ha. by destruct (Ha j Hin) as [_ ->].
    + by apply (Hupd (fun b => mkBlock false false (last_access_counter b))
                  (fun b => mkBlock false false (last_access_counter b))).
  - intros Ha. unfold Unlock, Deallocate, refuses.
    assert (Hne : forall verb, for_each (fun _ => check_allocated m verb) ids tt ≠ Ok tt).
    { intros verb. by rewrite check_allocated_loop, <-Halloc. }
    pose proof (Hne "unlock"%string). pose proof (Hne "deallocate"%string).
    destruct (for_each (fun _ => check_allocated m "unlock") ids tt) as [[]|]; [done|].
    destruct (for_each (fun _ => check_allocated m "deallocate") ids tt) as [[]|]; done.
Qed.

(** ** Evaluations *)

(** Three blocks: 0 locked, 1 and 2 unlocked, 1 accessed last. *)
Definition demo : LogicalBlockManager :=
  run [OpAllocate 3 true; OpUnlock [1; 2]; OpAccess 1] (create 3).

Lemma demo_wf : wf demo.
Proof. apply lbm_run_wf; [apply lbm_create_wf; lia|vm_compute; reflexivity]. Qed.

Lemma lbm_reachable_wf_witness :
  num_available (run [OpAllocate 3 true; OpUnlock [1; 2]; OpAccess 1] (create 3)) = 2.
Proof.
  destruct (lbm_reachable_wf 3 [OpAllocate 3 true; OpUnlock [1; 2]; OpAccess 1]) as (_ & _ & ->);
    vm_compute; congruence.
Defined.

Lemma lbm_allocate_spec_witness :
  ok (Allocate demo 2 false).1 = true /\ (Allocate demo 3 false).2 = demo.
Proof.
  split.
  - apply (lbm_allocate_spec demo 2 false demo_wf). vm_compute. split; congruence.
  - apply (lbm_allocate_spec demo 3 false demo_wf). vm_compute. reflexivity.
Defined.

Lemma lbm_allocate_lru_witness :
  (Allocate demo 1 false).1 = Ok [2] /\
  last_access_counter (block (blocks_ demo) 2) < last_access_counter (block (blocks_ demo) 1).
Proof.
  split; [vm_compute; reflexivity|].
  destruct (lbm_allocate_lru demo 1 false [2] 2 demo_wf) as [_ He].
  - vm_compute. reflexivity.
  - by left.
  - vm_compute. reflexivity.
  - destruct (He 1) as [|[? ?]]; [vm_compute; reflexivity|vm_compute; reflexivity|set_solver|done|lia].
Defined.

Lemma lbm_batch_atomic_witness :
  (AllocateTarget demo [0]).2 = demo /\ (Unlock demo [0]).1 = OkStatus /\ (Unlock demo [0; 7]).2 = demo.
Proof.
  split_and!.
  - apply (lbm_batch_atomic demo [0] demo_wf). vm_compute. intros [_ H].
    apply Forall_cons in H as [[_ H] _]. discriminate H.
  - apply (lbm_batch_atomic demo [0] demo_wf). constructor; [vm_compute; reflexivity|constructor].
  - apply (lbm_batch_atomic demo [0; 7] demo_wf). intros H. apply Forall_cons in H as [_ H].
    apply Forall_cons in H as [H _]. vm_compute in H. discriminate H.
Defined.

End LBM.
