(* ===== verification/StoreBackend.v ===== *)
(** * Blocks as the store's backends see them ([src/tpu_sync/kv_cache/kv_cache_store_backend.h])

    The status of a cached block, the block identifier an index entry holds, and the
    options of a lookup.  A block hash is a [std::string] of raw bytes. *)

From S2P Require Import Prelude ReshardTypes.

Abbreviation Hash := (list Z).

Inductive BlockStatus : Type := INIT | REMOTE | HBM | HOST | HOST_AND_HBM.

#[global] Instance BlockStatus_eq_dec : EqDecision BlockStatus.
Proof. solve_decision. Defined.

Record RaidenBlockId : Type := mkBlockId {
  raiden_id : RaidenId;
  host_block_id : Z;
  device_block_id : Z;
  status : BlockStatus
}.

#[global] Instance RaidenBlockId_eq_dec : EqDecision RaidenBlockId.
Proof. solve_decision. Defined.

Definition empty_id : RaidenId := mkRaidenId EmptyString EmptyString EmptyString 0.

(** The default member initializers. *)
Definition default_block : RaidenBlockId := mkBlockId empty_id (-1) (-1) INIT.

(** [RaidenBlockId(RaidenId id, int host_id, BlockStatus stat)]. *)
Definition host_block (id : RaidenId) (host_id : Z) (stat : BlockStatus) : RaidenBlockId :=
  mkBlockId id host_id (-1) stat.

(** [status == HOST || status == HOST_AND_HBM]. *)
Definition on_host (b : RaidenBlockId) : bool :=
  bool_decide (status b = HOST) || bool_decide (status b = HOST_AND_HBM).

Abbreviation BlockSliceList := (list (Hash * RaidenBlockId)).

Record LookupOptions : Type := mkOptions {
  enable_global : bool;
  enable_interleaved_lookup : bool;
  pin_found : bool
}.

(** The default member initializers. *)
Definition default_options : LookupOptions := mkOptions true true false.

(** [absl::BytesToHexString]. *)
Definition hex_digit (n : Z) : Ascii.ascii :=
  default (Ascii.ascii_of_nat 48) (String.get (Z.to_nat n) "0123456789abcdef"%string).
Fixpoint BytesToHexString (h : list Z) : string :=
  match h with
  | [] => EmptyString
  | b :: h' => String.String (hex_digit (b / 16)) (String.String (hex_digit (b mod 16)) (BytesToHexString h'))
  end.
