(* ===== verification/WorkerRegistry.v ===== *)
(** * The worker registry of a controller ([src/tpu_sync/core/controller/worker_registry.cc])

    The map from worker ids to registrations.  A registration's
    [worker_service_client] is the address it dials, if it has one; the callback
    that runs before a worker is stored is a parameter.  Iteration over the hash map
    is in the order of [map_to_list], which no result depends on up to
    permutation. *)

From S2P Require Import Prelude.

Module Workers.

Record RaidenTransferEndpoint : Type := mkEndpoint { endpoint : string; shards : list Z }.

Record WorkerRegistration : Type := mkWorker {
  worker_id : string;
  raiden_worker_endpoint : string;
  raiden_transfer_endpoints : list RaidenTransferEndpoint;
  worker_service_client : option string;
  node_id : Z;
  block_array_bytes : list Z;
  num_kv_shards : Z
}.

Abbreviation WorkerRegistry := (gmap string WorkerRegistration).

Definition is_empty (s : string) : bool := bool_decide (s = EmptyString).

Section register.
(** [on_register_cb_], if set: it may fail or change the entry. *)
Variable on_register_cb_ : option (WorkerRegistration -> StatusOr WorkerRegistration).

Definition dial (reg : WorkerRegistration) : WorkerRegistration :=
  if bool_decide (worker_service_client reg = None) && negb (is_empty (raiden_worker_endpoint reg))
  then mkWorker (worker_id reg) (raiden_worker_endpoint reg) (raiden_transfer_endpoints reg)
         (Some (raiden_worker_endpoint reg)) (node_id reg) (block_array_bytes reg) (num_kv_shards reg)
  else reg.

(** The scan for another worker with the same node id. *)
Definition check_node_id (entry : WorkerRegistration) (w : string * WorkerRegistration) : Status :=
  if negb (bool_decide (w.1 = worker_id entry)) && (node_id w.2 =? node_id entry) then
    Err kFailedPrecondition
      StrCat["node_id "; node_id entry; " is already registered by worker '"; w.1;
             "'; node_id must be unique per controller (rejecting '"; worker_id entry; "')"]
  else OkStatus.

Definition RegisterWorker (reg : WorkerRegistration) (workers_ : WorkerRegistry) :
    Status * WorkerRegistry :=
  if is_empty (worker_id reg) then
    (Err kInvalidArgument StrCat["worker_id cannot be empty"], workers_)
  else if bool_decide (worker_service_client reg = None) && is_empty (raiden_worker_endpoint reg) &&
          (length (raiden_transfer_endpoints reg) =? 0)%nat then
    (Err kInvalidArgument
       StrCat["at least one of raiden_worker_endpoint or raiden_transfer_endpoints must be provided, or worker_service_client must be non-null"],
     workers_)
  else
    let entry := dial reg in
    let unique := if node_id entry =? 0 then OkStatus
                  else for_each (fun _ => check_node_id entry) (map_to_list workers_) tt in
    match unique with
    | Err code msg => (Err code msg, workers_)
    | Ok _ =>
        match (match on_register_cb_ with None => Ok entry | Some cb => cb entry end) with
        | Err code msg => (Err code msg, workers_)
        | Ok entry => (OkStatus, <[worker_id entry := entry]> workers_)
        end
    end.
End register.

Definition GetRegisteredWorkers (workers_ : WorkerRegistry) : list WorkerRegistration :=
  (map_to_list workers_).*2.

Definition GetWorker (id : string) (workers_ : WorkerRegistry) : StatusOr WorkerRegistration :=
  match workers_ !! id with
  | None => Err kNotFound StrCat["Worker not found: "; id]
  | Some reg => Ok reg
  end.

(** Non-zero node ids belong to one worker each, and every worker is under its id. *)
Definition nodes_unique (workers_ : WorkerRegistry) : Prop :=
  map_Forall (fun k w => worker_id w = k) workers_ ∧
  forall i j w w', workers_ !! i = Some w -> workers_ !! j = Some w' ->
    node_id w = node_id w' -> node_id w ≠ 0 -> i = j.

(** A callback that leaves the ids of the entry alone. *)
Definition keeps_ids (cb : option (WorkerRegistration -> StatusOr WorkerRegistration)) : Prop :=
  forall f e e', cb = Some f -> f e = Ok e' -> worker_id e' = worker_id e ∧ node_id e' = node_id e.

Lemma dial_ids reg : worker_id (dial reg) = worker_id reg ∧ node_id (dial reg) = node_id reg.
Proof. unfold dial. by case_match. Qed.

Lemma check_node_ids_ok entry workers_ :
  for_each (fun _ => check_node_id entry) (map_to_list workers_) tt = Ok tt ->
  forall j w, workers_ !! j = Some w -> node_id w = node_id entry -> j = worker_id entry.
Proof.
  intros Hc j w Hj Hn. assert (Hok : ok (for_each (fun _ => check_node_id entry) (map_to_list workers_) tt) = true).
  { by rewrite Hc. }
  apply for_each_check in Hok. rewrite Forall_forall in Hok.
  specialize (Hok (j, w) (proj2 (elem_of_map_to_list _ _ _) Hj)). unfold check_node_id in Hok. simpl in Hok.
  rewrite Hn, Z.eqb_refl, andb_true_r in Hok. by case_bool_decide.
Qed.

(** Registration keeps the non-zero node ids unique. *)
Lemma RegisterWorker_unique cb reg workers_ :
  keeps_ids cb -> nodes_unique workers_ -> nodes_unique (RegisterWorker cb reg workers_).2.
Proof.
  intros Hcb [Hk Hu]. unfold RegisterWorker. destruct (is_empty _); [done|]. destruct (_ && _); [done|].
  destruct (dial_ids reg) as [Hid Hnode]. set (entry := dial reg) in *.
  destruct (if node_id entry =? 0 then _ else _) as [[]|] eqn:Echk; [|done].
  assert (Hother : node_id entry ≠ 0 -> forall j w, workers_ !! j = Some w -> node_id w = node_id entry -> j = worker_id entry).
  { intros Hne. rewrite (proj2 (Z.eqb_neq _ _) Hne) in Echk. by apply check_node_ids_ok. }
  destruct (match cb with None => _ | Some _ => _ end) as [e|] eqn:Ecb; [|done]. cbn [snd].
  assert (He : worker_id e = worker_id entry ∧ node_id e = node_id entry).
  { destruct cb as [f|]; [by apply (Hcb f)|by injection Ecb as <-]. }
  destruct He as [He1 He2]. split.
  - by apply map_Forall_insert_2.
  - intros i j w w'. rewrite !lookup_insert_Some, He1. rewrite <-He2 in Hother.
    intros [[<- <-]|[Hi Hw]] [[<- <-]|[Hj Hw']] Heq Hz; [done| | |by eapply Hu].
    + symmetry. by apply (Hother Hz j w').
    + apply (Hother ltac:(congruence) i w Hw Heq).
Qed.

End Workers.
