(* ===== verification/HostOffloadBackend.v ===== *)
(** * The host offload backend ([src/tpu_sync/kv_cache/host_offload_backend.cc])

    The index of the blocks a node caches: an LRU cache from hashes to block
    identifiers ([LruCache.v]), an optional crash-surviving table
    ([KVCacheMetadata.v]) and the clients of the global registry and of peers.  Every
    public method is one or two critical sections of [mutex_]; a section is a
    function on the backend's state.  Calls to the global registry and to peers are
    made with the mutex released: their answers are arguments, the messages are
    results.  [registry_client_] is whether a client is set; a store client is the
    address it dials.  Block allocation goes to the controller's
    [LogicalBlockManager]. *)

From S2P Require Import Prelude Bytes ReshardTypes StoreBackend KVCacheMetadata LruCache LogicalBlockManager WorkerRegistry.

Module HostOffload.

Abbreviation Cache := (LRU.LRUCache Hash RaidenBlockId).

(** ** Messages of the global registry *)

Record KVBlockMetadata : Type := mkKVBlock {
  kvb_raiden_id : RaidenIdProto;
  kvb_block_id : Z
}.

Record Registration : Type := mkRegistration {
  prefix_hash : Hash;
  reg_raiden_id : RaidenId;
  reg_block_id : Z
}.

Inductive RegistryCall : Type :=
  | Register (registrations : list Registration)
  | Unregister (prefix_hashes : list Hash) (id : RaidenId).

(** ** State *)

Record HostOffloadBackend : Type := mkBackend {
  lru_cache_ : Cache;
  metadata_ : option (KVMeta.KVCacheMetadata * list Z);
  next_metadata_seq_ : Z;
  raiden_id_ : RaidenId;
  kv_pool_group_ : string;
  registry_client_ : bool;
  store_clients_ : gmap RaidenId string
}.

Implicit Types (b : HostOffloadBackend) (c : Cache) (hash h : Hash) (blk : RaidenBlockId).

Definition with_lru c b : HostOffloadBackend :=
  mkBackend c (metadata_ b) (next_metadata_seq_ b) (raiden_id_ b) (kv_pool_group_ b)
    (registry_client_ b) (store_clients_ b).
Definition with_metadata (m : option (KVMeta.KVCacheMetadata * list Z)) (seq : Z) b : HostOffloadBackend :=
  mkBackend (lru_cache_ b) m seq (raiden_id_ b) (kv_pool_group_ b) (registry_client_ b) (store_clients_ b).
Definition with_clients (clients : gmap RaidenId string) b : HostOffloadBackend :=
  mkBackend (lru_cache_ b) (metadata_ b) (next_metadata_seq_ b) (raiden_id_ b) (kv_pool_group_ b)
    (registry_client_ b) clients.

(** The constructor. *)
Definition create (capacity : nat) (metadata : option (KVMeta.KVCacheMetadata * list Z)) (id : RaidenId)
    (registry : bool) (group : string) : HostOffloadBackend :=
  mkBackend (LRU.create capacity) metadata 0 id group registry ∅.

(** ** The metadata table *)

(** The status of the table's call is only logged. *)
Definition SetMetadataEntry hash blk b : HostOffloadBackend :=
  match metadata_ b with
  | None => b
  | Some (v, mem) =>
      if negb (on_host blk) then b
      else with_metadata
             (Some (v, (KVMeta.Set_ v mem (host_block_id blk) hash (next_metadata_seq_ b)).2))
             (u64 (next_metadata_seq_ b + 1)) b
  end.

Definition ClearMetadataEntry blk b : HostOffloadBackend :=
  match metadata_ b with
  | None => b
  | Some (v, mem) =>
      if negb (on_host blk) then b
      else with_metadata (Some (v, (KVMeta.Clear v mem (host_block_id blk)).2)) (next_metadata_seq_ b) b
  end.

(** [if (const RaidenBlockId* e = PeekIncludingCandidates(hash)) ClearMetadataEntry( *e)]. *)
Definition ClearStale hash b : HostOffloadBackend :=
  match LRU.PeekIncludingCandidates hash (lru_cache_ b) with
  | Some blk => ClearMetadataEntry blk b
  | None => b
  end.

Definition put hash blk b : option (Hash * RaidenBlockId) * HostOffloadBackend :=
  let r := LRU.Put hash blk (lru_cache_ b) in (r.1, with_lru r.2 b).
Definition unpin hash b : HostOffloadBackend := with_lru (LRU.Unpin hash (lru_cache_ b)).2 b.
Definition erase hash b : HostOffloadBackend := with_lru (LRU.Erase hash (lru_cache_ b)).2 b.
Definition assign hash blk b : HostOffloadBackend := with_lru (LRU.assign hash blk (lru_cache_ b)) b.

(** ** Lookup *)

(** Phase 1, under the lock: the local hits, pinned on request, and the hashes to
    ask the registry about. *)
Fixpoint sweep (opts : LookupOptions) (hashes : list Hash) c : list bool * list Hash * Cache :=
  match hashes with
  | [] => ([], [], c)
  | hash :: rest =>
      match LRU.Peek hash c with
      | Some _ =>
          let c := if pin_found opts then (LRU.Pin hash c).2 else c in
          let '(local_hit, missing, c) := sweep opts rest c in
          (true :: local_hit, missing, c)
      | None =>
          if negb (enable_interleaved_lookup opts)
          then (replicate (length hashes) false, hashes, c)
          else
            let '(local_hit, missing, c) := sweep opts rest c in
            (false :: local_hit, hash :: missing, c)
      end
  end.

(** Phase 2, without the lock: [client->Lookup]. *)
Definition query (registry : list Hash -> StatusOr (list KVBlockMetadata)) (client : bool)
    (opts : LookupOptions) (missing : list Hash) : list KVBlockMetadata :=
  if negb (length missing =? 0)%nat && enable_global opts && client then
    match registry missing with Ok hits => hits | Err _ _ => [] end
  else [].

(** Phase 3, under the lock: walk the request, each hash from whichever source has it. *)
Fixpoint assemble (local_id : RaidenId) (hashes : list Hash) (local_hit : list bool)
    (remote_hits : list KVBlockMetadata) c : BlockSliceList :=
  match hashes, local_hit with
  | hash :: hashes', hit :: local_hit' =>
      if hit : bool then
        match LRU.Peek hash c with
        | None => []
        | Some existing => (hash, existing) :: assemble local_id hashes' local_hit' remote_hits c
        end
      else
        match remote_hits with
        | [] => []
        | metadata :: remote_hits' =>
            let remote_id := RaidenIdFromProto (kvb_raiden_id metadata) in
            if RaidenId_eqb remote_id local_id then []
            else (hash, host_block remote_id (kvb_block_id metadata) REMOTE) ::
                   assemble local_id hashes' local_hit' remote_hits' c
        end
  | _, _ => []
  end.

(** Phase 4: the local hits past the end of the answer. *)
Definition hits_of (hashes : list Hash) (local_hit : list bool) : list Hash :=
  omap (fun p : Hash * bool => if p.2 then Some p.1 else None) (zip hashes local_hit).
Definition unpin_all (hashes : list Hash) c : Cache := foldl (fun c h => (LRU.Unpin h c).2) c hashes.

(** What a lookup keeps across the registry call. *)
Record PendingLookup : Type := mkPending {
  p_hashes : list Hash;
  p_options : LookupOptions;
  p_local_hit : list bool;
  p_missing : list Hash;
  p_client : bool;
  p_local_id : RaidenId
}.

Definition LookupSweep (hashes : list Hash) (opts : LookupOptions) b : PendingLookup * HostOffloadBackend :=
  let '(local_hit, missing, c) := sweep opts hashes (lru_cache_ b) in
  (mkPending hashes opts local_hit missing (registry_client_ b) (raiden_id_ b), with_lru c b).

Definition LookupAssemble (p : PendingLookup) (remote_hits : list KVBlockMetadata) b :
    BlockSliceList * HostOffloadBackend :=
  let results := assemble (p_local_id p) (p_hashes p) (p_local_hit p) remote_hits (lru_cache_ b) in
  let n := length results in
  (results,
   if pin_found (p_options p)
   then with_lru (unpin_all (hits_of (drop n (p_hashes p)) (drop n (p_local_hit p))) (lru_cache_ b)) b
   else b).

(** ** Insert *)

Record InsertState : Type := mkInsert {
  ins_backend : HostOffloadBackend;
  ins_all : bool;
  ins_evicted : BlockSliceList;
  ins_registrations : list Registration
}.

Definition registration hash blk b : Registration :=
  mkRegistration hash (raiden_id_ b) (host_block_id blk).

(** One iteration; [slice] is [slices[i]] when [i < slices.size()]. *)
Definition insert_one (s : InsertState) (hash : Hash) (slice : option RaidenBlockId) : InsertState :=
  let b := ins_backend s in
  if LRU.Contains (lru_cache_ b) hash then
    match slice with
    | None => mkInsert b false (ins_evicted s) (ins_registrations s)
    | Some blk =>
        let b' := match LRU.PeekMutable hash (lru_cache_ b) with
                  | Some _ => SetMetadataEntry hash blk (assign hash blk b)
                  | None => b end in
        mkInsert b' false (ins_evicted s) (ins_registrations s ++ [registration hash blk b])
    end
  else
    let b1 := match metadata_ b with Some _ => ClearStale hash b | None => b end in
    let '(evicted, b2) := put hash (default default_block slice) b1 in
    let b3 := match slice with Some blk => SetMetadataEntry hash blk b2 | None => b2 end in
    mkInsert b3 (ins_all s) (ins_evicted s ++ option_list evicted)
      (ins_registrations s ++
         match slice with Some blk => [registration hash blk b] | None => [] end).

Fixpoint insert_all (s : InsertState) (hashes : list Hash) (slices : list RaidenBlockId) : InsertState :=
  match hashes with
  | [] => s
  | hash :: hashes' => insert_all (insert_one s hash (head slices)) hashes' (tail slices)
  end.

(** The calls to the registry; their status is only logged. *)
Definition Insert (hashes : list Hash) (slices : list RaidenBlockId) b :
    bool * BlockSliceList * list RegistryCall * HostOffloadBackend :=
  let s := insert_all (mkInsert b true [] []) hashes slices in
  let calls :=
    if registry_client_ b then
      (match ins_registrations s with [] => [] | rs => [Register rs] end) ++
      (match ins_evicted s with [] => [] | es => [Unregister es.*1 (raiden_id_ b)] end)
    else [] in
  (ins_all s, ins_evicted s, calls, ins_backend s).

(** ** InsertAndLock *)

(** The hashes with [slices[i]], where [i < slices.size()]. *)
Fixpoint with_slices (hashes : list Hash) (slices : list RaidenBlockId) : list (Hash * option RaidenBlockId) :=
  match hashes with
  | [] => []
  | hash :: hashes' => (hash, head slices) :: with_slices hashes' (tail slices)
  end.
Abbreviation Item := (Hash * option RaidenBlockId)%type.

(** An entry that is only in HBM takes the caller's binding. *)
Definition rebind (hash : Hash) (slice : option RaidenBlockId) b : HostOffloadBackend :=
  match slice with
  | None => b
  | Some blk =>
      match LRU.PeekMutable hash (lru_cache_ b) with
      | Some existing =>
          if bool_decide (status existing = HBM)
          then SetMetadataEntry hash blk (assign hash blk (ClearMetadataEntry existing b))
          else b
      | None => b
      end
  end.

Fixpoint pin_existing (pinned : list Hash) (items : list Item) b : bool * HostOffloadBackend :=
  match items with
  | [] => (true, b)
  | (hash, slice) :: rest =>
      let r := LRU.Pin hash (lru_cache_ b) in
      if negb r.1 then (false, foldl (flip unpin) (with_lru r.2 b) pinned)
      else pin_existing (pinned ++ [hash]) rest (rebind hash slice (with_lru r.2 b))
  end.

Definition put_new b (item : Item) : HostOffloadBackend :=
  let '(hash, slice) := item in
  let b1 := match metadata_ b with Some _ => ClearStale hash b | None => b end in
  match slice with
  | Some blk => SetMetadataEntry hash blk (put hash blk b1).2
  | None => (put hash default_block b1).2
  end.

Fixpoint pin_new (existing new pinned : list Hash) (items : list Item) b : bool * HostOffloadBackend :=
  match items with
  | [] => (true, b)
  | (hash, _) :: rest =>
      let r := LRU.Pin hash (lru_cache_ b) in
      if negb r.1 then
        let b := foldl (flip unpin) (with_lru r.2 b) pinned in
        let b := foldl (flip unpin) b existing in
        (false, foldl (fun b h => erase h (ClearStale h b)) b new)
      else pin_new existing new (pinned ++ [hash]) rest (with_lru r.2 b)
  end.

Definition InsertAndLock (hashes : list Hash) (slices : list RaidenBlockId) b : bool * HostOffloadBackend :=
  let items := with_slices hashes slices in
  let existing := filter (fun i : Item => LRU.Contains (lru_cache_ b) i.1 = true) items in
  let new := filter (fun i : Item => LRU.Contains (lru_cache_ b) i.1 = false) items in
  match pin_existing [] existing b with
  | (false, b) => (false, b)
  | (true, b) =>
      if (LRU.available_space (lru_cache_ b) <? length new)%nat
      then (false, foldl (flip unpin) b existing.*1)
      else pin_new existing.*1 new.*1 [] new (foldl put_new b (reverse new))
  end.

(** ** Release and deletion *)

Definition Release (hashes : list Hash) b : HostOffloadBackend := foldl (flip unpin) b (reverse hashes).

Definition release_delete (s : Z * HostOffloadBackend) (hash : Hash) : Z * HostOffloadBackend :=
  let '(deleted_blocks, b) := s in
  match LRU.Peek hash (lru_cache_ b) with
  | Some val =>
      if (LRU.GetPinCount hash (lru_cache_ b) =? 0) && negb (on_host val)
      then (deleted_blocks + 1, erase hash b) else s
  | None => s
  end.

Definition ReleaseAndDelete (hashes : list Hash) b : Z * HostOffloadBackend :=
  foldl release_delete (0, foldl (flip unpin) b (reverse hashes)) hashes.

Definition unregister (hashes : list Hash) b : list RegistryCall :=
  if registry_client_ b then match hashes with [] => [] | _ => [Unregister hashes (raiden_id_ b)] end
  else [].

Definition delete_one (s : list Hash * HostOffloadBackend) (hash : Hash) : list Hash * HostOffloadBackend :=
  let '(deleted_hashes, b) := s in
  if 0 <? LRU.GetPinCount hash (lru_cache_ b) then (deleted_hashes, b)
  else (deleted_hashes ++ [hash], erase hash (ClearStale hash b)).

Definition Delete (hashes : list Hash) b : list RegistryCall * HostOffloadBackend :=
  let '(deleted_hashes, b) := foldl delete_one ([], b) hashes in
  (unregister deleted_hashes b, b).

Record EvictState : Type := mkEvict {
  ev_ids : list Z;
  ev_hashes : list Hash;
  ev_backend : HostOffloadBackend
}.

Definition evict_one (s : EvictState) (hash : Hash) : EvictState :=
  let b := ev_backend s in
  match LRU.PeekIncludingCandidates hash (lru_cache_ b) with
  | Some blk =>
      if (LRU.GetPinCount hash (lru_cache_ b) =? 0) && on_host blk
      then mkEvict (ev_ids s ++ [host_block_id blk]) (ev_hashes s ++ [hash])
             (erase hash (ClearMetadataEntry blk b))
      else s
  | None => s
  end.

Definition Evict (hashes : list Hash) b : list Z * list RegistryCall * HostOffloadBackend :=
  let s := foldl evict_one (mkEvict [] [] b) hashes in
  (ev_ids s, unregister (ev_hashes s) (ev_backend s), ev_backend s).

(** ** Pins *)

Fixpoint pin_all (pinned : list Hash) (hashes : list Hash) b : bool * HostOffloadBackend :=
  match hashes with
  | [] => (true, b)
  | hash :: rest =>
      let r := LRU.Pin hash (lru_cache_ b) in
      if negb r.1 then (false, foldl (flip unpin) (with_lru r.2 b) pinned)
      else pin_all (pinned ++ [hash]) rest (with_lru r.2 b)
  end.

Definition Pin (hashes : list Hash) b : bool * HostOffloadBackend := pin_all [] hashes b.

Definition GetPinCount (hash : Hash) b : Z := LRU.GetPinCount hash (lru_cache_ b).
Definition GetCapacity b : nat := LRU.capacity (lru_cache_ b).
Definition GetSize b : nat := LRU.size (lru_cache_ b).
Definition GetAvailableSpace b : nat := LRU.available_space (lru_cache_ b).
Definition GetEvictableKeys (count : nat) b : list Hash := LRU.GetEvictableKeys count (lru_cache_ b).
Definition GetEvictCandidateKeys b : list Hash := LRU.GetEvictCandidateKeys (lru_cache_ b).

(** The first node, in the iteration order [order] of the hash map, that holds the
    host block. *)
Definition find_host_block (order : list (Hash * LRU.CacheNode RaidenBlockId)) (host_id : Z) : option Hash :=
  list_find (fun p => host_block_id (LRU.value p.2) = host_id ∧ on_host (LRU.value p.2) = true) order
    ≫= fun r => Some r.2.1.

Definition ValidateAndPinHostBlocks (order : list (Hash * LRU.CacheNode RaidenBlockId))
    (host_block_ids : list Z) b : bool * HostOffloadBackend :=
  match mapM (find_host_block order) host_block_ids with
  | None => (false, b)
  | Some keys_to_pin => pin_all [] keys_to_pin b
  end.

(** ** Recovery *)

(** [newest]: the entry with the largest sequence number of each hash, the first
    listed among equals. *)
Definition keep_newest (newest : gmap Hash KVMeta.Entry) (entry : KVMeta.Entry) : gmap Hash KVMeta.Entry :=
  match newest !! KVMeta.entry_hash entry with
  | None => <[KVMeta.entry_hash entry := entry]> newest
  | Some held =>
      if KVMeta.entry_seq held <? KVMeta.entry_seq entry
      then <[KVMeta.entry_hash entry := entry]> newest else newest
  end.

Definition seq_less (x y : KVMeta.Entry) : bool := KVMeta.entry_seq x <? KVMeta.entry_seq y.

Definition recovered_block b (entry : KVMeta.Entry) : RaidenBlockId :=
  host_block (raiden_id_ b) (KVMeta.entry_block_id entry) HOST.

Definition clear_stale_entry (newest : gmap Hash KVMeta.Entry) (v : KVMeta.KVCacheMetadata)
    (mem : list Z) (entry : KVMeta.Entry) : list Z :=
  match newest !! KVMeta.entry_hash entry with
  | Some kept =>
      if negb (KVMeta.entry_block_id kept =? KVMeta.entry_block_id entry)
      then (KVMeta.Clear v mem (KVMeta.entry_block_id entry)).2 else mem
  | None => mem
  end.

Definition RecoverFromLocalManifest b (manager : LBM.LogicalBlockManager) :
    StatusOr Z * HostOffloadBackend * LBM.LogicalBlockManager :=
  match metadata_ b with
  | None =>
      (Err kFailedPrecondition StrCat["KVCacheMetadata is required for crash recovery"], b, manager)
  | Some (v, mem) =>
      let entries := KVMeta.ValidEntries v mem in
      match entries with
      | [] => (Ok 0, b, manager)
      | _ =>
          let newest := foldl keep_newest ∅ entries in
          let recoverable := sort_by seq_less (map_to_list newest).*2 in
          match LBM.AllocateTarget manager (KVMeta.entry_block_id <$> recoverable) with
          | (Err code msg, manager) => (Err code msg, b, manager)
          | (Ok _, manager) =>
              let c := foldl (fun c entry => (LRU.Put (KVMeta.entry_hash entry) (recovered_block b entry) c).2)
                         (lru_cache_ b) recoverable in
              let max_seq := foldl Z.max 0 (KVMeta.entry_seq <$> recoverable) in
              let mem := foldl (clear_stale_entry newest v) mem entries in
              (Ok (Z.of_nat (length recoverable)),
               with_lru c (with_metadata (Some (v, mem)) (u64 (max_seq + 1)) b), manager)
          end
      end
  end.

(** ** Remote writes, the destination's side *)

Definition AlreadyPresentHostResident (hashes : list Hash) b : list Hash :=
  filter (fun h => from_option on_host false (LRU.PeekIncludingCandidates h (lru_cache_ b)) = true) hashes.

(** Phase 2; on a [Put] that inserted nothing the batch so far is erased. *)
Fixpoint insert_batch (inserted : list Hash) (items : list (Hash * RaidenBlockId)) b :
    bool * HostOffloadBackend :=
  match items with
  | [] => (true, b)
  | (hash, slice) :: rest =>
      let b := (put hash slice b).2 in
      match LRU.Peek hash (lru_cache_ b) with
      | None => (false, foldl (flip erase) b inserted)
      | Some _ => insert_batch (inserted ++ [hash]) rest (SetMetadataEntry hash slice b)
      end
  end.

Definition InsertAllOrNothing (hashes : list Hash) (slices : list RaidenBlockId) b :
    bool * HostOffloadBackend :=
  if (length hashes =? 0)%nat || negb (length hashes =? length slices)%nat then (false, b)
  else if bool_decide (Exists (fun h => is_Some (LRU.PeekIncludingCandidates h (lru_cache_ b))) hashes)
  then (false, b)
  else if (LRU.available_space (lru_cache_ b) <? length hashes)%nat then (false, b)
  else insert_batch [] (zip hashes slices) b.

(** The status of [DeallocateBlockIds] is dropped. *)
Definition RollbackInsert (hashes : list Hash) (host_block_ids : list Z) b
    (manager : LBM.LogicalBlockManager) : HostOffloadBackend * LBM.LogicalBlockManager :=
  (foldl (fun b h => erase h (ClearStale h b)) b hashes,
   match host_block_ids with [] => manager | _ => (LBM.Deallocate manager host_block_ids).2 end).

(** The result is an error, or the call whose status is returned ([None] without a
    registry, which is success). *)
Definition RegisterBlocksSync (hashes : list Hash) (host_block_ids : list Z) b :
    StatusOr (option RegistryCall) :=
  if negb (length hashes =? length host_block_ids)%nat then
    Err kInvalidArgument
      StrCat["Mismatched block_hashes count ("; Z.of_nat (length hashes);
             ") vs host_block_ids count ("; Z.of_nat (length host_block_ids); ")."]
  else if negb (registry_client_ b) then Ok None
  else Ok (Some (Register (zip_with (fun h id => mkRegistration h (raiden_id_ b) id) hashes host_block_ids))).

(** ** Clients of peers *)

Definition IsTransportError (code : StatusCode) : bool :=
  bool_decide (code = kUnavailable) || bool_decide (code = kDeadlineExceeded).

(** [resolve] is [registry->ResolveStore], answering the published address. *)
Definition GetKVCacheStoreClient (resolve : RaidenId -> StatusOr string) (remote_id : RaidenId) b :
    StatusOr string * HostOffloadBackend :=
  match (store_clients_ b !! remote_id : option string) with
  | Some client => (Ok client, b)
  | None =>
      if negb (registry_client_ b) then
        (Err kFailedPrecondition StrCat["No global registry client; cannot resolve peer store address"], b)
      else
        match resolve remote_id with
        | Err code msg => (Err code msg, b)
        | Ok address =>
            if bool_decide (address = EmptyString) then
              (Err kNotFound StrCat["Peer is registered but published an empty store server address"], b)
            else (Ok address, with_clients (<[remote_id := address]> (store_clients_ b)) b)
        end
  end.

Definition InvalidateStoreClient (remote_id : RaidenId) b : HostOffloadBackend :=
  with_clients (delete remote_id (store_clients_ b)) b.

(** ** Remote writes, the source's side *)

Inductive WriteExistState : Type := WRITE_EXIST_STATE_UNSPECIFIED | WRITE_ALL_EXIST | WRITE_PARTIAL_EXIST.

Record WriteRemoteResponse : Type := mkWriteResponse {
  wr_operation_id : Z;
  wr_exist_state : WriteExistState;
  wr_existing_hashes : list Hash;
  wr_granted_deadline_ms : Z
}.

Record RemoteWriteAck : Type := mkAck {
  operation_id : Z;
  all_exist : bool;
  existing_hashes : list Hash;
  granted_deadline : Z
}.

Record WriteRemoteRequest : Type := mkWriteRequest {
  wq_client : string;
  wq_block_hashes : list Hash;
  wq_src_host_block_ids : list Z;
  wq_deadline_ms : Z
}.

Section remote_write.
Variable resolve : RaidenId -> StatusOr string.
(** [client->WriteRemote(...).Await()] and [client->PollWriteRemote(...).Await()]. *)
Variable write_remote : WriteRemoteRequest -> StatusOr WriteRemoteResponse.

Definition BeginWriteRemote (dst : RaidenId) (hashes : list Hash) (src_host_block_ids : list Z)
    (requested_deadline_ms : Z) b : StatusOr RemoteWriteAck * HostOffloadBackend :=
  if (length hashes =? 0)%nat then
    (Err kInvalidArgument StrCat["WriteRemote requires at least one hash"], b)
  else if negb (length hashes =? length src_host_block_ids)%nat then
    (Err kInvalidArgument StrCat["src_host_block_ids must have one entry per block hash"], b)
  else
    match GetKVCacheStoreClient resolve dst b with
    | (Err code msg, b) => (Err code msg, b)
    | (Ok client, b) =>
        match write_remote (mkWriteRequest client hashes src_host_block_ids requested_deadline_ms) with
        | Err code msg =>
            (Err code msg, if IsTransportError code then InvalidateStoreClient dst b else b)
        | Ok response =>
            let ack existing all :=
              mkAck (wr_operation_id response) all existing (wr_granted_deadline_ms response) in
            match wr_exist_state response with
            | WRITE_ALL_EXIST => (Ok (ack [] true), b)
            | WRITE_PARTIAL_EXIST => (Ok (ack (wr_existing_hashes response) false), b)
            | WRITE_EXIST_STATE_UNSPECIFIED =>
                if wr_operation_id response =? 0 then
                  (Err kInternal StrCat["Destination accepted the offer but returned no operation id."], b)
                else (Ok (ack [] false), b)
            end
        end
    end.

(** The wire states; [STATE_UNKNOWN] stands for [STATE_UNSPECIFIED] and any other value. *)
Inductive PollState : Type :=
  | PENDING | COMMITTED | ALL_EXIST | PARTIAL_EXIST | FAILED | STORED_UNREGISTERED | STATE_UNKNOWN.
Inductive RemoteWriteState : Type :=
  | kPending | kCommitted | kAllExist | kPartialExist | kFailed | kUnknown | kStoredUnregistered.

Record PollWriteRemoteResponse : Type := mkPollResponse {
  po_state : PollState;
  po_existing_hashes : list Hash;
  po_unregistered_hashes : list Hash
}.
Record RemoteWriteStatus : Type := mkWriteStatus {
  state : RemoteWriteState;
  st_existing_hashes : list Hash;
  st_unregistered_hashes : list Hash
}.

Definition remote_write_state (s : PollState) : RemoteWriteState :=
  match s with
  | PENDING => kPending
  | COMMITTED => kCommitted
  | ALL_EXIST => kAllExist
  | PARTIAL_EXIST => kPartialExist
  | FAILED => kFailed
  | STORED_UNREGISTERED => kStoredUnregistered
  | STATE_UNKNOWN => kUnknown
  end.

Variable poll_write_remote : string -> Z -> StatusOr PollWriteRemoteResponse.

Definition PollWriteRemote (dst : RaidenId) (op_id : Z) b : StatusOr RemoteWriteStatus * HostOffloadBackend :=
  match GetKVCacheStoreClient resolve dst b with
  | (Err code msg, b) => (Err code msg, b)
  | (Ok client, b) =>
      match poll_write_remote client op_id with
      | Err code msg =>
          (Err code msg, if IsTransportError code then InvalidateStoreClient dst b else b)
      | Ok response =>
          (Ok (mkWriteStatus (remote_write_state (po_state response)) (po_existing_hashes response)
                 (po_unregistered_hashes response)), b)
      end
  end.
End remote_write.

(** ** Loading blocks onto the device *)

Inductive MemoryType : Type := MEMORY_TYPE_DRAM | MEMORY_TYPE_HBM.
Record Buffer : Type := mkBuffer { buf_id : Z; memory_type : MemoryType }.

(** What a load's caller waits for: a status that is already set, a transfer of the
    controller, or a fetch whose answer goes to [on_fetch]. *)
Record FetchRequest : Type := mkFetch {
  fq_client : string;
  fq_block_hashes : list Hash;
  fq_device_block_ids : list Z;
  fq_host_block_ids : list Z
}.
Inductive Future : Type :=
  | Ready (s : Status)
  | TransferBuffers (src dst : list Buffer)
  | Fetch (req : FetchRequest).

Definition dram_buffers (ids : list Z) : list Buffer := (fun id => mkBuffer id MEMORY_TYPE_DRAM) <$> ids.
Definition hbm_buffers (ids : list Z) : list Buffer := (fun id => mkBuffer id MEMORY_TYPE_HBM) <$> ids.

Definition slice_id (s : list Z) (p : RaidenBlockId * Hash) : StatusOr (list Z) :=
  if host_block_id p.1 =? -1 then
    Err kFailedPrecondition StrCat["Block host_block_id is -1: "; KVMeta.string_of_bytes p.2]
  else Ok (s ++ [host_block_id p.1]).

Definition resident_id c (s : list Z) (hash : Hash) : StatusOr (list Z) :=
  match LRU.Peek hash c with
  | None => Err kNotFound StrCat["Block hash not found in host backend: "; KVMeta.string_of_bytes hash]
  | Some entry =>
      if negb (on_host entry) then
        Err kFailedPrecondition StrCat["Block is not on host: "; KVMeta.string_of_bytes hash]
      else if host_block_id entry =? -1 then
        Err kFailedPrecondition StrCat["Block host_block_id is -1: "; KVMeta.string_of_bytes hash]
      else Ok (s ++ [host_block_id entry])
  end.

Definition LoadLocalHostBlocks (hashes : list Hash) (device_block_ids : list Z)
    (slices : list RaidenBlockId) b : Future :=
  let src_host_block_ids :=
    match slices with
    | [] => for_each (resident_id (lru_cache_ b)) hashes []
    | _ =>
        if negb (length slices =? length hashes)%nat then
          Err kInvalidArgument StrCat["Mismatched slices count vs block_hashes count."]
        else for_each slice_id (zip slices hashes) []
    end in
  match src_host_block_ids with
  | Err code msg => Ready (Err code msg)
  | Ok ids => TransferBuffers (dram_buffers ids) (hbm_buffers device_block_ids)
  end.

(** [AllocateBlockIds] and [DeallocateBlockIds] of the controller. *)
Definition AllocateBlockIds (manager : LBM.LogicalBlockManager) (n : Z) :
    StatusOr (list Z) * LBM.LogicalBlockManager := LBM.Allocate manager n true.
Definition DeallocateBlockIds (manager : LBM.LogicalBlockManager) (ids : list Z) :
    LBM.LogicalBlockManager := (LBM.Deallocate manager ids).2.

Definition LoadRemoteBlocks (resolve : RaidenId -> StatusOr string) (remote_id : RaidenId)
    (hashes : list Hash) (device_block_ids : list Z) b (manager : LBM.LogicalBlockManager) :
    Future * HostOffloadBackend * LBM.LogicalBlockManager :=
  match GetKVCacheStoreClient resolve remote_id b with
  | (Err code msg, b) => (Ready (Err code msg), b, manager)
  | (Ok client, b) =>
      match AllocateBlockIds manager (Z.of_nat (length hashes)) with
      | (Err code msg, manager) => (Ready (Err code msg), b, manager)
      | (Ok dst_host_block_ids, manager) =>
          (Fetch (mkFetch client hashes device_block_ids dst_host_block_ids), b, manager)
      end
  end.

Record FetchResponse : Type := mkFetchResponse {
  failed_block_hashes : list Hash;
  error_message : string
}.

(** The callback of the fetch, with the peer and the request it captured. *)
Definition on_fetch (remote_id : RaidenId) (req : FetchRequest) (response_or : StatusOr FetchResponse) b
    (manager : LBM.LogicalBlockManager) : Future * HostOffloadBackend * LBM.LogicalBlockManager :=
  match response_or with
  | Err code msg =>
      (Ready (Err code msg), InvalidateStoreClient remote_id b,
       DeallocateBlockIds manager (fq_host_block_ids req))
  | Ok response =>
      match failed_block_hashes response with
      | _ :: _ =>
          (Ready (Err kInternal
             (if bool_decide (error_message response = EmptyString)
              then StrCat["Fetch RPC returned failed blocks"] else StrCat[error_message response])),
           b, DeallocateBlockIds manager (fq_host_block_ids req))
      | [] =>
          (TransferBuffers (dram_buffers (fq_host_block_ids req)) (hbm_buffers (fq_device_block_ids req)),
           b, manager)
      end
  end.

(** The callback of the copy to the device. *)
Definition on_h2d (req : FetchRequest) (status : Status) (manager : LBM.LogicalBlockManager) :
    Status * LBM.LogicalBlockManager :=
  (status, DeallocateBlockIds manager (fq_host_block_ids req)).

Definition Load (resolve : RaidenId -> StatusOr string) (remote_id : RaidenId) (hashes : list Hash)
    (device_block_ids : list Z) (slices : list RaidenBlockId) b (manager : LBM.LogicalBlockManager) :
    Future * HostOffloadBackend * LBM.LogicalBlockManager :=
  if (length hashes =? 0)%nat then (Ready OkStatus, b, manager)
  else if negb (length device_block_ids =? length hashes)%nat then
    (Ready (Err kInvalidArgument
       StrCat["Mismatched device_block_ids count ("; Z.of_nat (length device_block_ids);
              ") vs block_hashes count ("; Z.of_nat (length hashes); ")."]), b, manager)
  else if negb (RaidenId_empty remote_id) && negb (RaidenId_eqb remote_id (raiden_id_ b)) then
    LoadRemoteBlocks resolve remote_id hashes device_block_ids b manager
  else (LoadLocalHostBlocks hashes device_block_ids slices b, b, manager).

(** ** The transfer specification *)

Record KVTransferSpecConfig : Type := mkSpec {
  spec_block_array_bytes : list Z;
  spec_num_kv_shards : Z;
  spec_num_workers : Z
}.

Definition check_worker (reference : Workers.WorkerRegistration) (node_ids : list Z)
    (worker : Workers.WorkerRegistration) : StatusOr (list Z) :=
  if bool_decide (Workers.block_array_bytes worker = []) || (Workers.num_kv_shards worker <=? 0) then
    Err kFailedPrecondition
      StrCat["worker "; Workers.worker_id worker;
             " registered without its KV block geometry (block_array_bytes, num_kv_shards); every worker must report it for the deployment's KVTransferSpec"]
  else if negb (bool_decide (Workers.block_array_bytes worker = Workers.block_array_bytes reference)) ||
          negb (Workers.num_kv_shards worker =? Workers.num_kv_shards reference) then
    Err kInvalidArgument
      StrCat["workers "; Workers.worker_id reference; " and "; Workers.worker_id worker;
             " registered different KV block geometry; one KVTransferSpec must describe every worker of the deployment"]
  else Ok (node_ids ++ [Workers.node_id worker]).

Definition ComposeKVTransferSpec (workers : list Workers.WorkerRegistration) : StatusOr KVTransferSpecConfig :=
  match workers with
  | [] => Err kFailedPrecondition StrCat["no registered workers to derive a KVTransferSpec from"]
  | reference :: _ =>
      let? unsorted := for_each (check_worker reference) workers [] in
      let node_ids := sort_by Z.ltb unsorted in
      if negb (bool_decide (node_ids = zrange 0 (Z.of_nat (length node_ids)))) then
        Err kInvalidArgument
          (StrCat["worker node ids must form the dense range [0, "; Z.of_nat (length workers); "); got ["]
             ++ StrJoin ((fun id : Z => StrCat[id]) <$> node_ids) ++ StrCat["]"])
      else
        Ok (mkSpec (Workers.block_array_bytes reference) (Workers.num_kv_shards reference)
              (wrap32 (Z.of_nat (length workers))))
  end.

(** The call to the registry: the specification and the group it is registered under. *)
Definition RegisterKVTransferSpec (spec : KVTransferSpecConfig) b :
    StatusOr (KVTransferSpecConfig * string) :=
  let group := if bool_decide (kv_pool_group_ b = EmptyString) then job_name (raiden_id_ b)
               else kv_pool_group_ b in
  if negb (registry_client_ b) then
    Err kFailedPrecondition
      StrCat["HostOffloadBackend has no global registry configured; cannot register a KVTransferSpec."]
  else if bool_decide (group = EmptyString) then
    Err kFailedPrecondition
      StrCat["no KV pool group to register the KVTransferSpec under: set BackendConfig.kv_pool_group or a raiden_id with a job_name."]
  else
    Ok (mkSpec (wrap64 <$> spec_block_array_bytes spec) (wrap32 (spec_num_kv_shards spec))
          (wrap32 (spec_num_workers spec)), group).

Definition RegisterKVTransferSpecFromWorkers (workers : option Workers.WorkerRegistry) b :
    StatusOr (KVTransferSpecConfig * string) :=
  match workers with
  | None =>
      Err kFailedPrecondition
        StrCat["HostOffloadBackend has no RaidenController; there are no worker registrations to derive a KVTransferSpec from."]
  | Some ws =>
      let? spec := ComposeKVTransferSpec (Workers.GetRegisteredWorkers ws) in
      RegisterKVTransferSpec spec b
  end.

(** [RegisterKVTransferSpec] ends in the registry's answer to the call. *)
Definition finish_register (rpc : KVTransferSpecConfig * string -> Status)
    (call : StatusOr (KVTransferSpecConfig * string)) : Status :=
  let? request := call in rpc request.

Record BackendConfig : Type := mkConfig {
  cfg_capacity : nat;
  cfg_global_registry_address : string;
  cfg_raiden_id : RaidenId;
  cfg_metadata : option (KVMeta.KVCacheMetadata * list Z);
  cfg_kv_transfer_spec : option KVTransferSpecConfig;
  cfg_kv_pool_group : string
}.

Definition Create (rpc : KVTransferSpecConfig * string -> Status) (config : BackendConfig) :
    StatusOr HostOffloadBackend :=
  if (cfg_capacity config =? 0)%nat then
    Err kInvalidArgument StrCat["HostOffloadBackend requires capacity > 0"]
  else
    let backend := create (cfg_capacity config) (cfg_metadata config) (cfg_raiden_id config)
      (negb (bool_decide (cfg_global_registry_address config = EmptyString))) (cfg_kv_pool_group config) in
    match cfg_kv_transfer_spec config with
    | None => Ok backend
    | Some spec => let? _ := finish_register rpc (RegisterKVTransferSpec spec backend) in Ok backend
    end.

Definition check_server_address (address : string) : Status :=
  if bool_decide (address = EmptyString) || bool_decide (address = "[::]"%string) ||
     bool_decide (address = "::"%string) || bool_decide (address = "0.0.0.0"%string) ||
     bool_decide (address = "0:0:0:0:0:0:0:0"%string) then
    Err kInvalidArgument
      StrCat["server_address must be a non-empty, non-wildcard host; it is not derived from the controller address."]
  else OkStatus.

(** The endpoints a node tells its peers: per worker, its node id, its id and its
    transfer endpoints. *)
Definition BuildLocalWorkerEndpoints (workers : option Workers.WorkerRegistry) :
    list (Z * string * list Workers.RaidenTransferEndpoint) :=
  match workers with
  | None => []
  | Some ws =>
      (fun reg => (Workers.node_id reg, Workers.worker_id reg, Workers.raiden_transfer_endpoints reg))
        <$> Workers.GetRegisteredWorkers ws
  end.

(** ** Interleavings *)

(** The critical sections other threads can run between the two of a lookup. *)
Inductive Op : Type :=
  | OpSweep (hashes : list Hash) (opts : LookupOptions)
  | OpAssemble (p : PendingLookup) (remote_hits : list KVBlockMetadata)
  | OpInsert (hashes : list Hash) (slices : list RaidenBlockId)
  | OpInsertAndLock (hashes : list Hash) (slices : list RaidenBlockId)
  | OpReleaseAndDelete (hashes : list Hash)
  | OpDelete (hashes : list Hash)
  | OpPin (hashes : list Hash)
  | OpRelease (hashes : list Hash)
  | OpValidateAndPin (order : list (Hash * LRU.CacheNode RaidenBlockId)) (host_block_ids : list Z)
  | OpEvict (hashes : list Hash)
  | OpInsertAllOrNothing (hashes : list Hash) (slices : list RaidenBlockId)
  | OpRollbackInsert (hashes : list Hash)
  | OpRecover (manager : LBM.LogicalBlockManager).

Definition apply_op (o : Op) b : HostOffloadBackend :=
  match o with
  | OpSweep hashes opts => (LookupSweep hashes opts b).2
  | OpAssemble p remote_hits => (LookupAssemble p remote_hits b).2
  | OpInsert hashes slices => (Insert hashes slices b).2
  | OpInsertAndLock hashes slices => (InsertAndLock hashes slices b).2
  | OpReleaseAndDelete hashes => (ReleaseAndDelete hashes b).2
  | OpDelete hashes => (Delete hashes b).2
  | OpPin hashes => (Pin hashes b).2
  | OpRelease hashes => Release hashes b
  | OpValidateAndPin order ids => (ValidateAndPinHostBlocks order ids b).2
  | OpEvict hashes => (Evict hashes b).2
  | OpInsertAllOrNothing hashes slices => (InsertAllOrNothing hashes slices b).2
  | OpRollbackInsert hashes => foldl (fun b h => erase h (ClearStale h b)) b hashes
  | OpRecover manager => (RecoverFromLocalManifest b manager).1.2
  end.
Definition run (ops : list Op) b : HostOffloadBackend := foldl (fun b o => apply_op o b) b ops.

(** A whole lookup: [during] is what the other threads do during the registry call. *)
Definition Lookup (registry : list Hash -> StatusOr (list KVBlockMetadata)) (during : list Op)
    (hashes : list Hash) (opts : LookupOptions) b : BlockSliceList * HostOffloadBackend :=
  match hashes with
  | [] => ([], b)
  | _ =>
      let '(p, b1) := LookupSweep hashes opts b in
      LookupAssemble p (query registry (p_client p) opts (p_missing p)) (run during b1)
  end.

(** ** Reachable caches *)

(** One cache follows from another by calls that do not clear it. *)
Definition steps c c' : Prop :=
  exists ops, Forall (fun o => LRU.is_clear o = false) ops ∧ c' = LRU.run ops c.

#[global] Instance steps_preorder : PreOrder steps.
Proof.
  split.
  - intros c. exists []. by split.
  - intros c1 c2 c3 (ops1 & H1 & ->) (ops2 & H2 & ->). exists (ops1 ++ ops2).
    split; [by apply Forall_app|]. unfold LRU.run. by rewrite foldl_app.
Qed.

Lemma steps_op (o : LRU.Op) c : LRU.is_clear o = false -> steps c (LRU.apply_op o c).
Proof. intros Ho. exists [o]. by split; [constructor|]. Qed.
Lemma steps_Put h blk c : steps c (LRU.Put h blk c).2.
Proof. by apply (steps_op (LRU.OpPut h blk)). Qed.
Lemma steps_Pin h c : steps c (LRU.Pin h c).2.
Proof. by apply (steps_op (LRU.OpPin h)). Qed.
Lemma steps_Unpin h c : steps c (LRU.Unpin h c).2.
Proof. by apply (steps_op (LRU.OpUnpin h)). Qed.
Lemma steps_Erase h c : steps c (LRU.Erase h c).2.
Proof. by apply (steps_op (LRU.OpErase h)). Qed.
Lemma steps_assign h blk c : steps c (LRU.assign h blk c).
Proof. by apply (steps_op (LRU.OpAssign h blk)). Qed.

Lemma steps_wf c c' : steps c c' -> LRU.wf c -> LRU.wf c'.
Proof. intros (ops & _ & ->). apply LRU.run_wf. Qed.

Lemma SetMetadataEntry_lru h blk b : lru_cache_ (SetMetadataEntry h blk b) = lru_cache_ b.
Proof. unfold SetMetadataEntry. repeat case_match; done. Qed.
Lemma ClearMetadataEntry_lru blk b : lru_cache_ (ClearMetadataEntry blk b) = lru_cache_ b.
Proof. unfold ClearMetadataEntry. repeat case_match; done. Qed.
Lemma ClearStale_lru h b : lru_cache_ (ClearStale h b) = lru_cache_ b.
Proof. unfold ClearStale. case_match; [apply ClearMetadataEntry_lru|done]. Qed.

Create Rewrite HintDb offload.
#[export] Hint Rewrite SetMetadataEntry_lru ClearMetadataEntry_lru ClearStale_lru : offload.

(** A loop whose body only makes cache calls. *)
Lemma steps_foldl {A} (f : HostOffloadBackend -> A -> HostOffloadBackend) l b :
  (forall b x, steps (lru_cache_ b) (lru_cache_ (f b x))) -> steps (lru_cache_ b) (lru_cache_ (foldl f b l)).
Proof.
  intros Hf. revert b. induction l as [|x l IH]; intros b; simpl; [reflexivity|].
  etransitivity; [apply Hf|apply IH].
Qed.
Lemma steps_unpin_loop hs b : steps (lru_cache_ b) (lru_cache_ (foldl (flip unpin) b hs)).
Proof. apply steps_foldl. intros b' h. apply steps_Unpin. Qed.
Lemma steps_erase_loop hs b :
  steps (lru_cache_ b) (lru_cache_ (foldl (fun b h => erase h (ClearStale h b)) b hs)).
Proof. apply steps_foldl. intros b' h. simpl. autorewrite with offload. apply steps_Erase. Qed.

Lemma steps_sweep opts hs c : steps c (sweep opts hs c).2.
Proof.
  revert c. induction hs as [|h hs IH]; intros c; simpl; [reflexivity|].
  destruct (LRU.Peek h c).
  - specialize (IH (if pin_found opts then (LRU.Pin h c).2 else c)).
    destruct (sweep opts hs _) as [[? ?] c']. simpl in *.
    etransitivity; [|exact IH]. destruct (pin_found opts); [apply steps_Pin|reflexivity].
  - destruct (negb _); [reflexivity|]. specialize (IH c). by destruct (sweep opts hs c) as [[? ?] c'].
Qed.

Lemma steps_unpin_all hs c : steps c (unpin_all hs c).
Proof.
  revert c. induction hs as [|h hs IH]; intros c; simpl; [reflexivity|].
  etransitivity; [apply steps_Unpin|apply IH].
Qed.

Lemma steps_insert_one s h slice :
  steps (lru_cache_ (ins_backend s)) (lru_cache_ (ins_backend (insert_one s h slice))).
Proof.
  unfold insert_one. destruct (LRU.Contains _ _).
  - destruct slice as [blk|]; [|reflexivity]. simpl. case_match; autorewrite with offload; [|reflexivity].
    apply steps_assign.
  - destruct (metadata_ (ins_backend s)), slice; simpl; autorewrite with offload; apply steps_Put.
Qed.

Lemma steps_insert_all s hs slices :
  steps (lru_cache_ (ins_backend s)) (lru_cache_ (ins_backend (insert_all s hs slices))).
Proof.
  revert s slices. induction hs as [|h hs IH]; intros s slices; simpl; [reflexivity|].
  etransitivity; [apply steps_insert_one|apply IH].
Qed.

Lemma rebind_lru h slice b : steps (lru_cache_ b) (lru_cache_ (rebind h slice b)).
Proof.
  unfold rebind. destruct slice; [|reflexivity]. case_match; [|reflexivity].
  case_bool_decide; [|reflexivity]. autorewrite with offload. simpl. autorewrite with offload.
  apply steps_assign.
Qed.

Lemma steps_pin_existing pinned items b : steps (lru_cache_ b) (lru_cache_ (pin_existing pinned items b).2).
Proof.
  revert pinned b. induction items as [|[h slice] items IH]; intros pinned b; simpl; [reflexivity|].
  destruct (negb _).
  - simpl. etransitivity; [apply steps_Pin|]. apply (steps_unpin_loop _ (with_lru _ b)).
  - etransitivity; [apply steps_Pin|]. etransitivity; [apply (rebind_lru h slice (with_lru _ b))|apply IH].
Qed.

Lemma steps_put_new b item : steps (lru_cache_ b) (lru_cache_ (put_new b item)).
Proof.
  destruct item as [h slice]. unfold put_new. destruct (metadata_ b), slice; simpl;
    autorewrite with offload; simpl; autorewrite with offload; apply steps_Put.
Qed.

Lemma steps_pin_new existing new pinned items b :
  steps (lru_cache_ b) (lru_cache_ (pin_new existing new pinned items b).2).
Proof.
  revert pinned b. induction items as [|[h slice] items IH]; intros pinned b; simpl; [reflexivity|].
  destruct (negb _); simpl.
  - etransitivity; [apply steps_Pin|]. etransitivity; [apply (steps_unpin_loop pinned (with_lru _ b))|].
    etransitivity; [apply steps_unpin_loop|apply steps_erase_loop].
  - etransitivity; [apply steps_Pin|]. apply (IH _ (with_lru _ b)).
Qed.

Lemma steps_InsertAndLock hs slices b : steps (lru_cache_ b) (lru_cache_ (InsertAndLock hs slices b).2).
Proof.
  unfold InsertAndLock. set (ex := filter _ _). set (nw := filter _ _).
  pose proof (steps_pin_existing [] ex b) as He. destruct (pin_existing [] ex b) as [[|] b']; simpl in *; [|done].
  destruct (_ <? _)%nat; simpl.
  - etransitivity; [exact He|apply steps_unpin_loop].
  - etransitivity; [exact He|]. etransitivity; [apply (steps_foldl put_new), steps_put_new|apply steps_pin_new].
Qed.

Lemma steps_pin_all pinned hs b : steps (lru_cache_ b) (lru_cache_ (pin_all pinned hs b).2).
Proof.
  revert pinned b. induction hs as [|h hs IH]; intros pinned b; simpl; [reflexivity|].
  destruct (negb _); simpl.
  - etransitivity; [apply steps_Pin|]. apply (steps_unpin_loop pinned (with_lru _ b)).
  - etransitivity; [apply steps_Pin|]. apply (IH _ (with_lru _ b)).
Qed.

Lemma steps_insert_batch inserted items b :
  steps (lru_cache_ b) (lru_cache_ (insert_batch inserted items b).2).
Proof.
  revert inserted b. induction items as [|[h blk] items IH]; intros inserted b; simpl; [reflexivity|].
  etransitivity; [apply (steps_Put h blk)|]. case_match.
  - etransitivity; [|apply IH]. autorewrite with offload. reflexivity.
  - apply (steps_foldl (flip erase) _ (with_lru _ b)). intros b' k. apply steps_Erase.
Qed.

Lemma steps_delete_loop hs s :
  steps (lru_cache_ s.2) (lru_cache_ (foldl delete_one s hs).2).
Proof.
  revert s. induction hs as [|h hs IH]; intros [ds b]; simpl; [reflexivity|].
  etransitivity; [|apply IH]. destruct (0 <? _); simpl; [reflexivity|].
  autorewrite with offload. apply steps_Erase.
Qed.

Lemma steps_evict_loop hs s :
  steps (lru_cache_ (ev_backend s)) (lru_cache_ (ev_backend (foldl evict_one s hs))).
Proof.
  revert s. induction hs as [|h hs IH]; intros s; simpl; [reflexivity|].
  etransitivity; [|apply IH]. unfold evict_one. case_match; [|reflexivity].
  case_match; [|reflexivity]. simpl. autorewrite with offload. apply steps_Erase.
Qed.

Lemma steps_release_delete hs s :
  steps (lru_cache_ s.2) (lru_cache_ (foldl release_delete s hs).2).
Proof.
  revert s. induction hs as [|h hs IH]; intros [d b]; simpl; [reflexivity|].
  etransitivity; [|apply IH]. unfold release_delete. repeat case_match; simpl; try reflexivity.
  apply steps_Erase.
Qed.

Lemma steps_recover b (entries : list KVMeta.Entry) c :
  steps c (foldl (fun c entry => (LRU.Put (KVMeta.entry_hash entry) (recovered_block b entry) c).2) c entries).
Proof.
  revert c. induction entries as [|e es IH]; intros c; simpl; [reflexivity|].
  etransitivity; [apply steps_Put|apply IH].
Qed.

(** Every critical section acts on the cache through its calls. *)
Lemma apply_op_steps o b : steps (lru_cache_ b) (lru_cache_ (apply_op o b)).
Proof.
  destruct o as [hs opts|p r|hs sl|hs sl|hs|hs|hs|hs|order ids|hs|hs sl|hs|m]; cbn [apply_op].
  - unfold LookupSweep. pose proof (steps_sweep opts hs (lru_cache_ b)) as Hs.
    by destruct (sweep opts hs _) as [[? ?] c'].
  - unfold LookupAssemble. simpl. destruct (pin_found _); [apply steps_unpin_all|reflexivity].
  - apply (steps_insert_all (mkInsert b true [] [])).
  - apply steps_InsertAndLock.
  - unfold ReleaseAndDelete. etransitivity; [|apply steps_release_delete]. apply steps_unpin_loop.
  - unfold Delete. pose proof (steps_delete_loop hs ([], b)) as Hs.
    by destruct (foldl delete_one ([], b) hs).
  - apply steps_pin_all.
  - apply steps_unpin_loop.
  - unfold ValidateAndPinHostBlocks. case_match; [apply steps_pin_all|reflexivity].
  - apply (steps_evict_loop hs (mkEvict [] [] b)).
  - unfold InsertAllOrNothing. repeat case_match; try reflexivity. apply steps_insert_batch.
  - apply steps_erase_loop.
  - unfold RecoverFromLocalManifest. repeat case_match; try reflexivity. apply steps_recover.
Qed.

Lemma run_steps ops b : steps (lru_cache_ b) (lru_cache_ (run ops b)).
Proof. apply (steps_foldl (fun b o => apply_op o b)). intros b' o. apply apply_op_steps. Qed.

Lemma backend_run_wf ops b : LRU.wf (lru_cache_ b) -> LRU.wf (lru_cache_ (run ops b)).
Proof. apply steps_wf, run_steps. Qed.

End HostOffload.
