(* ===== verification/HostOffloadLookup.v ===== *)
(** * Lookups of the host offload backend

    The pins a lookup takes and gives back, whatever other threads do during the
    registry call, and the answer as a prefix function of the two indexes. *)

From S2P Require Import Prelude ReshardTypes StoreBackend LruCache HostOffloadBackend.
Import HostOffload.

Module OffloadLookup.

Implicit Types (b : HostOffloadBackend) (c : Cache) (hash h : Hash) (blk : RaidenBlockId).

(** ** Occurrences *)

(** How often a hash occurs: the pins a batch takes on it. *)
Definition occ (h : Hash) (l : list Hash) : Z := Z.of_nat (length (filter (.= h) l)).

Lemma occ_nil h : occ h [] = 0.
Proof. done. Qed.
Lemma occ_cons h x l : occ h (x :: l) = (if bool_decide (x = h) then 1 else 0) + occ h l.
Proof. unfold occ. rewrite filter_cons. case_decide; case_bool_decide; simpl; naive_solver lia. Qed.
Lemma occ_app h l1 l2 : occ h (l1 ++ l2) = occ h l1 + occ h l2.
Proof. unfold occ. rewrite filter_app, length_app. lia. Qed.
Lemma occ_nonneg h l : 0 <= occ h l.
Proof. unfold occ. lia. Qed.
Lemma occ_pos h l : h ∈ l -> 0 < occ h l.
Proof.
  induction l as [|x l IH]; [by intros ?%elem_of_nil|]. rewrite elem_of_cons, occ_cons.
  pose proof (occ_nonneg h l). intros [->|Hin]; [rewrite bool_decide_eq_true_2 by done; lia|].
  specialize (IH Hin). case_bool_decide; lia.
Qed.
Lemma occ_zero h l : h ∉ l -> occ h l = 0.
Proof.
  induction l as [|x l IH]; [done|]. rewrite not_elem_of_cons, occ_cons. intros [Hne Hin].
  rewrite bool_decide_eq_false_2 by congruence. by rewrite IH.
Qed.
Lemma occ_perm h l1 l2 : l1 ≡ₚ l2 -> occ h l1 = occ h l2.
Proof. unfold occ. intros Hp. by rewrite Hp. Qed.

(** ** Unpinning a list *)

Lemma unpin_all_Peek hs c k : LRU.wf c -> LRU.Peek k (unpin_all hs c) = LRU.Peek k c.
Proof.
  revert c. induction hs as [|h hs IH]; intros c Hwf; simpl; [done|].
  unfold unpin_all in *. rewrite IH by (by apply LRU.Unpin_wf). by apply LRU.Unpin_Peek.
Qed.

Lemma unpin_all_pins hs c k :
  LRU.wf c -> (forall h, occ h hs <= LRU.GetPinCount h c) ->
  LRU.GetPinCount k (unpin_all hs c) = LRU.GetPinCount k c - occ k hs.
Proof.
  revert c. induction hs as [|h hs IH]; intros c Hwf Hle; simpl; [rewrite occ_nil; lia|].
  assert (Hstep : forall x, LRU.GetPinCount x (LRU.Unpin h c).2 =
            LRU.GetPinCount x c - (if bool_decide (h = x) then 1 else 0)).
  { intros x. rewrite LRU.Unpin_pins by done. specialize (Hle x). rewrite occ_cons in Hle.
    pose proof (occ_nonneg x hs). unfold LRU.pins_after. case_bool_decide; lia. }
  unfold unpin_all in *. rewrite IH.
  - rewrite Hstep, occ_cons. lia.
  - by apply LRU.Unpin_wf.
  - intros x. specialize (Hle x). rewrite occ_cons in Hle. rewrite Hstep. lia.
Qed.

(** ** The sweep *)

Lemma hits_of_cons h hit hs hits :
  hits_of (h :: hs) (hit :: hits) = (if hit : bool then [h] else []) ++ hits_of hs hits.
Proof. by destruct hit. Qed.
Lemma hits_of_false hs n : hits_of hs (replicate n false) = [].
Proof. revert n. induction hs as [|h hs IH]; intros [|n]; [done..|]. apply IH. Qed.

(** The hits of a sweep, as a function of what is cached. *)
Fixpoint sweep_hits (interleaved : bool) (local : Hash -> bool) (hashes : list Hash) : list bool :=
  match hashes with
  | [] => []
  | h :: rest =>
      if local h then true :: sweep_hits interleaved local rest
      else if interleaved then false :: sweep_hits interleaved local rest
      else replicate (length hashes) false
  end.
Definition misses (hashes : list Hash) (hits : list bool) : list Hash :=
  omap (fun p : Hash * bool => if p.2 then None else Some p.1) (zip hashes hits).

Lemma length_sweep_hits i f hs : length (sweep_hits i f hs) = length hs.
Proof.
  induction hs as [|h hs IH]; [done|]. simpl.
  repeat case_match; simpl; rewrite ?length_replicate; lia.
Qed.
Lemma misses_sublist hs hits : misses hs hits `sublist_of` hs.
Proof.
  unfold misses. revert hits. induction hs as [|h hs IH]; intros [|[] hits]; cbn; try apply sublist_nil_l; by constructor; apply IH.
Qed.
Lemma misses_false hs : misses hs (replicate (length hs) false) = hs.
Proof. unfold misses. induction hs as [|h hs IH]; [done|]. simpl. f_equal. exact IH. Qed.

Definition cached c h : bool := bool_decide (is_Some (LRU.Peek h c)).

Lemma sweep_hits_ext i f g hs : (forall h, f h = g h) -> sweep_hits i f hs = sweep_hits i g hs.
Proof. intros Hfg. induction hs as [|h hs IH]; [done|]. simpl. by rewrite Hfg, IH. Qed.

Lemma sweep_spec opts hs c : LRU.wf c ->
  let hits := sweep_hits (enable_interleaved_lookup opts) (cached c) hs in
  let c' := (sweep opts hs c).2 in
  (sweep opts hs c).1 = (hits, misses hs hits) ∧ LRU.wf c' ∧
  (forall k, LRU.Peek k c' = LRU.Peek k c) ∧
  (forall k, LRU.GetPinCount k c' = LRU.GetPinCount k c + (if pin_found opts then occ k (hits_of hs hits) else 0)).
Proof.
  revert c. induction hs as [|h hs IH]; intros c Hwf; cbn [sweep sweep_hits].
  { split_and!; [done..|]. intros k. unfold hits_of; simpl. rewrite occ_nil. destruct (pin_found opts); lia. }
  destruct (LRU.Peek h c) as [blk|] eqn:Hp.
  - assert (Hloc : cached c h = true) by (unfold cached; rewrite Hp; by apply bool_decide_eq_true_2).
    rewrite Hloc. set (c1 := if pin_found opts then (LRU.Pin h c).2 else c).
    assert (Hpk : forall k, LRU.Peek k c1 = LRU.Peek k c).
    { intros k. unfold c1. destruct (pin_found opts); [|done]. apply LRU.Pin_Peek. eauto. }
    assert (Hwf1 : LRU.wf c1) by (unfold c1; destruct (pin_found opts); [by apply LRU.GetAndPin_wf|done]).
    destruct (IH c1 Hwf1) as (He & Hwf' & Hpk' & Hpc).
    rewrite (sweep_hits_ext _ (cached c1) (cached c)) in He, Hpc by (intros k; unfold cached; by rewrite Hpk).
    destruct (sweep opts hs c1) as [[hits missing] c'] eqn:Es. cbn [fst snd] in *. injection He as -> ->.
    split_and!; [done|done|intros k; by rewrite Hpk'|].
    intros k. rewrite Hpc, hits_of_cons, occ_app, occ_cons, occ_nil.
    unfold c1. destruct (pin_found opts); [|lia]. rewrite LRU.Pin_pins. unfold LRU.pins_after.
    assert (is_Some (LRU.map_ c !! h)).
    { unfold LRU.Peek in Hp. destruct (LRU.map_ c !! h); [eauto|done]. }
    repeat case_bool_decide; naive_solver lia.
  - assert (Hloc : cached c h = false) by (unfold cached; rewrite Hp; by apply bool_decide_eq_false_2; intros []).
    rewrite Hloc. destruct (enable_interleaved_lookup opts) eqn:Ei; simpl.
    + destruct (IH c Hwf) as (He & Hwf' & Hpk' & Hpc).
      destruct (sweep opts hs c) as [[hits missing] c'] eqn:Es. cbn [fst snd] in *. injection He as -> ->.
      split_and!; [done|done|done|]. intros k. by rewrite Hpc, hits_of_cons.
    + split_and!; [|done|done|].
      * f_equal. unfold misses. simpl. f_equal. symmetry. apply misses_false.
      * intros k. change (false :: replicate (length hs) false) with (replicate (length (h :: hs)) false).
        rewrite hits_of_false, occ_nil. destruct (pin_found opts); lia.
Qed.

(** ** The assembly *)

Lemma assemble_spec local_id hs hits remote c : length hits = length hs ->
  let r := assemble local_id hs hits remote c in
  (length r <= length hs)%nat ∧ r.*1 = take (length r) hs ∧
  (forall i h blk, r !! i = Some (h, blk) ->
     hs !! i = Some h ∧
     (hits !! i = Some true ∧ LRU.Peek h c = Some blk ∨
      hits !! i = Some false ∧ status blk = REMOTE ∧ raiden_id blk ≠ local_id)) ∧
  ((length r < length hs)%nat ->
     hits !! length r = Some false ∨
     exists h, hs !! length r = Some h ∧ hits !! length r = Some true ∧ LRU.Peek h c = None).
Proof.
  revert hits remote. induction hs as [|h hs IH]; intros hits remote Hlen.
  { destruct hits; [|done]. split_and!; simpl; [lia|done|done|lia]. }
  destruct hits as [|hit hits]; [done|]. injection Hlen as Hlen. cbn [assemble].
  destruct hit.
  - destruct (LRU.Peek h c) as [blk|] eqn:Hp.
    + destruct (IH hits remote Hlen) as (Hle & Hpre & Hin & Hend). cbn [length fmap list_fmap fst take].
      split_and!; [simpl; lia|by f_equal| |].
      * intros [|i] h' blk'; simpl; [intros [= <- <-]; eauto|]. apply Hin.
      * simpl. intros Hlt. apply Hend. lia.
    + split_and!; simpl; [lia|done|done|]. intros _. right. eauto.
  - destruct remote as [|m remote]; [split_and!; simpl; [lia|done|done|by left]|].
    destruct (RaidenId_eqb _ _) eqn:Eid; [split_and!; simpl; [lia|done|done|by left]|].
    destruct (IH hits remote Hlen) as (Hle & Hpre & Hin & Hend). cbn [length fmap list_fmap fst take].
    split_and!; [simpl; lia|by f_equal| |].
    + intros [|i] h' blk'; simpl; [|apply Hin]. intros [= <- <-]. split; [done|]. right.
      split_and!; [done|done|]. simpl. intros Heq. apply RaidenId_eqb_eq in Heq. congruence.
    + simpl. intros Hlt. apply Hend. lia.
Qed.

Lemma hits_of_split n hs hits :
  hits_of hs hits = hits_of (take n hs) (take n hits) ++ hits_of (drop n hs) (drop n hits).
Proof.
  revert hs hits. induction n as [|n IH]; intros hs hits; [done|].
  destruct hs as [|h hs], hits as [|hit hits]; simpl; [done|done|by destruct (drop n hs)|].
  rewrite !hits_of_cons, (IH hs hits). by rewrite app_assoc.
Qed.

Lemma elem_of_hits_of h hs hits i :
  hs !! i = Some h -> hits !! i = Some true -> h ∈ hits_of hs hits.
Proof.
  intros Hh Hi. unfold hits_of. apply list_elem_of_omap. exists (h, true). split; [|done].
  apply list_elem_of_lookup. exists i. apply lookup_zip_Some. done.
Qed.

Lemma Lookup_pins_spec b hashes opts (during : list Op) remote :
  LRU.wf (lru_cache_ b) -> pin_found opts = true ->
  let p := (LookupSweep hashes opts b).1 in
  let b2 := run during (LookupSweep hashes opts b).2 in
  let results := (LookupAssemble p remote b2).1 in
  let b3 := (LookupAssemble p remote b2).2 in
  let n := length results in
  let taken := hits_of hashes (p_local_hit p) in
  let kept := hits_of (take n hashes) (take n (p_local_hit p)) in
  (forall h, GetPinCount h (LookupSweep hashes opts b).2 = GetPinCount h b + occ h taken) ∧
  ((forall h, occ h taken <= GetPinCount h b2) ->
   (forall h, GetPinCount h b3 = GetPinCount h b2 - occ h taken + occ h kept) ∧
   results.*1 = take n hashes ∧
   (forall i h blk, results !! i = Some (h, blk) ->
      (p_local_hit p !! i = Some true ∧ LRU.Peek h (lru_cache_ b3) = Some blk ∧ 0 < GetPinCount h b3) ∨
      (p_local_hit p !! i = Some false ∧ status blk = REMOTE ∧ raiden_id blk ≠ raiden_id_ b)) ∧
   ((n < length hashes)%nat -> p_local_hit p !! n = Some false)).
Proof.
  intros Hwf Hpin. unfold LookupSweep. destruct (sweep_spec opts hashes (lru_cache_ b) Hwf) as (He & Hwf1 & Hpk & Hpc).
  pose proof (length_sweep_hits (enable_interleaved_lookup opts) (cached (lru_cache_ b)) hashes) as Hlen.
  destruct (sweep opts hashes (lru_cache_ b)) as [[hits missing] c1]. cbn [fst snd p_local_hit] in *.
  injection He as -> ->. set (hits := sweep_hits _ _ _) in *. rewrite Hpin in Hpc.
  split; [exact Hpc|]. unfold LookupAssemble. cbn [p_hashes p_options p_local_id p_local_hit fst snd].
  rewrite Hpin. set (b2 := run during _). intros Hle.
  assert (Hwf2 : LRU.wf (lru_cache_ b2)) by (by apply backend_run_wf).
  destruct (assemble_spec (raiden_id_ b) hashes hits remote (lru_cache_ b2) Hlen) as (Hn & Hpre & Hin & Hend).
  set (r := assemble _ _ _ _ _) in *. pose proof (hits_of_split (length r) hashes hits) as Hsplit.
  set (tail_ := hits_of (drop (length r) hashes) (drop (length r) hits)) in *.
  set (kept := hits_of (take (length r) hashes) (take (length r) hits)) in *.
  assert (Hocc : forall h, occ h (hits_of hashes hits) = occ h kept + occ h tail_).
  { intros h. by rewrite Hsplit, occ_app. }
  assert (Hpins : forall h, GetPinCount h (with_lru (unpin_all tail_ (lru_cache_ b2)) b2) =
            GetPinCount h b2 - occ h tail_).
  { intros h. apply unpin_all_pins; [done|]. intros h'. specialize (Hle h'). rewrite Hocc in Hle.
    pose proof (occ_nonneg h' kept). unfold GetPinCount in Hle. lia. }
  split_and!.
  - intros h. rewrite Hpins, Hocc. lia.
  - exact Hpre.
  - intros i h blk Hi. destruct (Hin i h blk Hi) as (Hh & [(Hit & Hv)|Hr]); [left|by right].
    split_and!; [done|by rewrite <-Hv; apply unpin_all_Peek|].
    rewrite Hpins. specialize (Hle h). rewrite Hocc in Hle.
    assert (0 < occ h kept); [|lia]. apply occ_pos, (elem_of_hits_of h _ _ i);
      rewrite lookup_take_lt by (by eapply lookup_lt_Some); done.
  - intros Hlt. destruct (Hend Hlt) as [|(h & Hh & Hit & Hno)]; [done|]. exfalso.
    pose proof (occ_pos _ _ (elem_of_hits_of _ _ _ _ Hh Hit)) as Hpos. specialize (Hle h).
    destruct (LRU.pinned_Peek (lru_cache_ b2) h Hwf2) as [v Hv]; [unfold GetPinCount in Hle; lia|]. congruence.
Qed.

(** C18: A lookup with [pin_found] balances its pins.  The sweep pins each local hit
    once.  Whatever critical sections other threads run during the registry call, if they
    leave at least the pins this lookup took (a hypothesis: a caller that releases more
    than it pinned can take them, [balanced_release_drops_other_pin]), the lookup ends
    holding exactly one pin per local hit of its answer and has given back the others.
    The answer is a prefix of the request; each of its entries is a local block that is
    still indexed and pinned, or a block of another node; and it ends only where the
    sweep had a local miss, never because a pinned block went away. *)
Theorem backend_lookup_pins b hashes opts (during : list Op) remote :
  LRU.wf (lru_cache_ b) -> pin_found opts = true ->
  let p := (LookupSweep hashes opts b).1 in
  let b2 := run during (LookupSweep hashes opts b).2 in
  let results := (LookupAssemble p remote b2).1 in
  let b3 := (LookupAssemble p remote b2).2 in
  let n := length results in
  let taken := hits_of hashes (p_local_hit p) in
  let kept := hits_of (take n hashes) (take n (p_local_hit p)) in
  (forall h, GetPinCount h (LookupSweep hashes opts b).2 = GetPinCount h b + occ h taken) ∧
  ((forall h, occ h taken <= GetPinCount h b2) ->
   (forall h, GetPinCount h b3 = GetPinCount h b2 - occ h taken + occ h kept) ∧
   results.*1 = take n hashes ∧
   (forall i h blk, results !! i = Some (h, blk) ->
      (p_local_hit p !! i = Some true ∧ LRU.Peek h (lru_cache_ b3) = Some blk ∧ 0 < GetPinCount h b3) ∨
      (p_local_hit p !! i = Some false ∧ status blk = REMOTE ∧ raiden_id blk ≠ raiden_id_ b)) ∧
   ((n < length hashes)%nat -> p_local_hit p !! n = Some false)).
Proof. apply Lookup_pins_spec. Qed.

(** ** The reference answer *)

(** What the registry holds for a hash: the documented answer of [Lookup] is aligned
    with the request and stops at the first hash that is not registered.  (A request that
    names a hash twice may get two owners of it, so the contract is about requests that do
    not; [RegistryServer.Lookup] discharges it.) *)
Fixpoint registered_prefix (entry : Hash -> option KVBlockMetadata) (hashes : list Hash) :
    list KVBlockMetadata :=
  match hashes with
  | [] => []
  | h :: rest => match entry h with Some m => m :: registered_prefix entry rest | None => [] end
  end.
Definition registry_contract (registry : list Hash -> StatusOr (list KVBlockMetadata))
    (entry : Hash -> option KVBlockMetadata) : Prop :=
  forall hashes, NoDup hashes -> registry hashes = Ok (registered_prefix entry hashes).

(** A registered block of another node. *)
Definition remote_block (local_id : RaidenId) (entry : Hash -> option KVBlockMetadata) h : option RaidenBlockId :=
  m ← entry h;
  let id := RaidenIdFromProto (kvb_raiden_id m) in
  if decide (id = local_id) then None else Some (host_block id (kvb_block_id m) REMOTE).

(** The longest prefix of the request that the two indexes resolve; without
    interleaving the local index is not consulted after its first miss. *)
Fixpoint resolved_prefix (interleaved : bool) (local remote : Hash -> option RaidenBlockId)
    (hashes : list Hash) : BlockSliceList :=
  match hashes with
  | [] => []
  | h :: rest =>
      match local h with
      | Some blk => (h, blk) :: resolved_prefix interleaved local remote rest
      | None =>
          match remote h with
          | Some blk =>
              (h, blk) :: resolved_prefix interleaved
                            (if interleaved then local else fun _ => None) remote rest
          | None => []
          end
      end
  end.

Lemma remote_step local_id entry h m :
  entry h = Some m ->
  remote_block local_id entry h =
    if RaidenId_eqb (RaidenIdFromProto (kvb_raiden_id m)) local_id then None
    else Some (host_block (RaidenIdFromProto (kvb_raiden_id m)) (kvb_block_id m) REMOTE).
Proof.
  intros Hm. unfold remote_block. rewrite Hm. simpl.
  destruct (RaidenId_eqb _ _) eqn:E.
  - apply RaidenId_eqb_eq in E. by rewrite decide_True.
  - rewrite decide_False; [done|]. intros Heq. apply RaidenId_eqb_eq in Heq. congruence.
Qed.

(** Past the first miss of a lookup without interleaving, all is remote. *)
Lemma assemble_remote local_id entry hs c i :
  assemble local_id hs (replicate (length hs) false) (registered_prefix entry hs) c =
  resolved_prefix i (fun _ => None) (remote_block local_id entry) hs.
Proof.
  induction hs as [|h hs IH]; [done|]. cbn [assemble replicate length registered_prefix resolved_prefix].
  destruct (entry h) as [m|] eqn:Em.
  - rewrite (remote_step local_id entry h m Em). destruct (RaidenId_eqb _ _); [done|].
    f_equal. by destruct i.
  - unfold remote_block. by rewrite Em.
Qed.

Lemma assemble_reference local_id entry hs c i :
  assemble local_id hs (sweep_hits i (cached c) hs)
    (registered_prefix entry (misses hs (sweep_hits i (cached c) hs))) c =
  resolved_prefix i (fun h => LRU.Peek h c) (remote_block local_id entry) hs.
Proof.
  induction hs as [|h hs IH]; [done|]. cbn [sweep_hits resolved_prefix]. pose proof (eq_refl : cached c h = bool_decide (is_Some (LRU.Peek h c))) as Hc.
  destruct (LRU.Peek h c) as [blk|] eqn:Hp.
  - rewrite bool_decide_eq_true_2 in Hc by eauto. rewrite !Hc. cbn [assemble]. rewrite Hp. f_equal. exact IH.
  - rewrite bool_decide_eq_false_2 in Hc by (by intros []). rewrite !Hc. destruct i.
    + change (misses (h :: hs) (false :: sweep_hits true (cached c) hs))
        with (h :: misses hs (sweep_hits true (cached c) hs)).
      cbn [assemble registered_prefix]. destruct (entry h) as [m|] eqn:Em.
      * rewrite (remote_step local_id entry h m Em). destruct (RaidenId_eqb _ _); [done|]. f_equal. exact IH.
      * unfold remote_block. by rewrite Em.
    + rewrite misses_false, assemble_remote with (i := false). cbn [resolved_prefix].
      by destruct (remote_block local_id entry h).
Qed.

Lemma assemble_nothing local_id hs c i :
  assemble local_id hs (sweep_hits i (cached c) hs) [] c =
  resolved_prefix i (fun h => LRU.Peek h c) (fun _ => None) hs.
Proof.
  induction hs as [|h hs IH]; [done|]. cbn [sweep_hits resolved_prefix]. pose proof (eq_refl : cached c h = bool_decide (is_Some (LRU.Peek h c))) as Hc.
  destruct (LRU.Peek h c) as [blk|] eqn:Hp.
  - rewrite bool_decide_eq_true_2 in Hc by eauto. rewrite !Hc. cbn [assemble]. rewrite Hp. f_equal. exact IH.
  - rewrite bool_decide_eq_false_2 in Hc by (by intros []). rewrite !Hc. by destruct i.
Qed.

Lemma assemble_Peek local_id hs hits remote c c' :
  (forall k, LRU.Peek k c' = LRU.Peek k c) ->
  assemble local_id hs hits remote c' = assemble local_id hs hits remote c.
Proof.
  intros Hpk. revert hits remote. induction hs as [|h hs IH]; intros [|hit hits] remote; [done..|].
  cbn [assemble]. rewrite Hpk. destruct hit; repeat case_match; rewrite ?IH; done.
Qed.

Lemma resolved_nothing i local hs :
  resolved_prefix i local (fun _ => None) hs = resolved_prefix true local (fun _ => None) hs.
Proof. induction hs as [|h hs IH]; [done|]. simpl. destruct (local h); [by rewrite IH|done]. Qed.

Lemma Lookup_reference_spec registry entry hashes opts b :
  LRU.wf (lru_cache_ b) -> NoDup hashes -> registry_contract registry entry ->
  let '(results, b') := Lookup registry [] hashes opts b in
  results = resolved_prefix (enable_interleaved_lookup opts) (fun h => LRU.Peek h (lru_cache_ b))
    (if enable_global opts && registry_client_ b then remote_block (raiden_id_ b) entry else fun _ => None)
    hashes ∧
  forall k, LRU.Peek k (lru_cache_ b') = LRU.Peek k (lru_cache_ b).
Proof.
  intros Hwf Hnd Hreg. unfold Lookup. destruct hashes as [|h0 hs0]; [done|].
  revert Hnd. generalize (h0 :: hs0). clear h0 hs0. intros hashes Hnd. unfold LookupSweep.
  destruct (sweep_spec opts hashes (lru_cache_ b) Hwf) as (He & Hwf1 & Hpk & _).
  destruct (sweep opts hashes (lru_cache_ b)) as [[hits missing] c1]. cbn [fst snd] in *.
  injection He as -> ->. unfold LookupAssemble. cbn [p_hashes p_options p_local_id p_local_hit p_client p_missing].
  cbn [run foldl lru_cache_ with_lru]. split.
  - rewrite (assemble_Peek _ _ _ _ _ _ Hpk). unfold query. rewrite Hreg by (eapply sublist_NoDup; [exact Hnd|apply misses_sublist]).
    set (hits := sweep_hits _ _ _). destruct (enable_global opts && registry_client_ b) eqn:Eg.
    + rewrite <-andb_assoc, Eg, andb_true_r, <-assemble_reference. fold hits.
      by destruct (misses hashes hits).
    + rewrite <-andb_assoc, Eg, andb_false_r. apply assemble_nothing.
  - intros k. destruct (pin_found opts); cbn [lru_cache_ with_lru]; [|done].
    rewrite unpin_all_Peek; [done|exact Hwf1].
Qed.

(** the four phases of [Lookup] compute the reference answer.  For a request
    without repetitions, against a registry that answers as documented, and with no interference during its call, the result
    is the longest prefix of the request that the local index and the registered
    blocks of other nodes resolve (the local index alone when the registry may not be
    asked), and without interleaving a local block never follows a remote one; the
    index is left with the same entries visible. *)
Theorem backend_lookup_reference registry entry hashes opts b :
  LRU.wf (lru_cache_ b) -> NoDup hashes -> registry_contract registry entry ->
  let '(results, b') := Lookup registry [] hashes opts b in
  results = resolved_prefix (enable_interleaved_lookup opts) (fun h => LRU.Peek h (lru_cache_ b))
    (if enable_global opts && registry_client_ b then remote_block (raiden_id_ b) entry else fun _ => None)
    hashes ∧
  forall k, LRU.Peek k (lru_cache_ b') = LRU.Peek k (lru_cache_ b).
Proof. apply Lookup_reference_spec. Qed.

Lemma LookupSweep_wf hashes opts b :
  LRU.wf (lru_cache_ b) -> LRU.wf (lru_cache_ (LookupSweep hashes opts b).2).
Proof. apply (backend_run_wf [OpSweep hashes opts]). Qed.

(** ** Evaluations *)

Lemma occ_le_pins (l : list Hash) c :
  LRU.wf c -> Forall (fun h => occ h l <= LRU.GetPinCount h c) l ->
  forall h, occ h l <= LRU.GetPinCount h c.
Proof.
  intros Hwf Hall h. destruct (decide (h ∈ l)) as [Hin|Hout].
  - by apply (proj1 (Forall_forall _ _) Hall).
  - rewrite occ_zero by done. by apply LRU.wf_pin_nonneg.
Qed.

Definition node (i : Z) : RaidenId := mkRaidenId EmptyString EmptyString EmptyString i.
Definition demo : HostOffloadBackend :=
  run [OpInsert [[1]; [2]; [3]] (map (fun i => host_block (node 1) i HOST) [10; 11; 12])]
    (create 4 None (node 1) true EmptyString).
Definition demo_entry h : option KVBlockMetadata :=
  if bool_decide (h = [5]) then Some (mkKVBlock (RaidenIdToProto (node 2)) 7) else None.

Lemma offload_demo_wf : LRU.wf (lru_cache_ demo).
Proof. apply backend_run_wf, LRU.create_wf. Qed.

(** The hole at [[5]] is filled by the registry, the one at [[6]] ends the answer, and
    the pin of [[3]] behind it is returned; the eviction attempted meanwhile skips
    the pinned blocks. *)
Lemma backend_lookup_pins_witness :
  let opts := mkOptions true true true in
  let hashes := [[1]; [5]; [2]; [6]; [3]] in
  let s := LookupSweep hashes opts demo in
  let b2 := run [OpEvict [[1]; [3]]; OpInsert [[4]] []] s.2 in
  let r := LookupAssemble s.1 [mkKVBlock (RaidenIdToProto (node 2)) 7] b2 in
  (r.1).*1 = [[1]; [5]; [2]] ∧ GetPinCount [1] r.2 = 1 ∧ GetPinCount [3] r.2 = 0.
Proof.
  intros opts hashes s b2 r.
  destruct (backend_lookup_pins demo hashes opts [OpEvict [[1]; [3]]; OpInsert [[4]] []]
              [mkKVBlock (RaidenIdToProto (node 2)) 7] offload_demo_wf eq_refl) as (_ & Hpins).
  destruct Hpins as (Hcount & Hpre & _).
  - apply occ_le_pins; [apply backend_run_wf|apply (bool_decide_unpack _); vm_compute; exact I].
    apply LookupSweep_wf, offload_demo_wf.
  - split; [etransitivity; [exact Hpre|vm_compute; reflexivity]|].
    split; (etransitivity; [apply Hcount|vm_compute; reflexivity]).
Defined.

Lemma backend_lookup_reference_witness :
  (Lookup (fun hs => Ok (registered_prefix demo_entry hs)) [] [[1]; [5]; [2]; [6]; [3]] default_options demo).1
  = [([1], host_block (node 1) 10 HOST); ([5], host_block (node 2) 7 REMOTE); ([2], host_block (node 1) 11 HOST)].
Proof.
  assert (Hnd : NoDup ([[1]; [5]; [2]; [6]; [3]] : list Hash)) by (apply (bool_decide_unpack _); vm_compute; exact I).
  pose proof (backend_lookup_reference (fun hs => Ok (registered_prefix demo_entry hs)) demo_entry
    [[1]; [5]; [2]; [6]; [3]] default_options demo offload_demo_wf Hnd (fun _ _ => eq_refl)) as H.
  destruct (Lookup _ [] _ default_options demo) as [results b']. destruct H as [-> _].
  vm_compute. reflexivity.
Defined.

End OffloadLookup.
