(* ===== verification/HostOffloadInsert.v ===== *)
(** * Insertions and deletions of the host offload backend

    What [InsertAndLock], [InsertAllOrNothing], [Insert], [Evict] and [Delete] do to
    the index, its pins and the registry. *)

From S2P Require Import Prelude ReshardTypes StoreBackend KVCacheMetadata LruCache HostOffloadBackend HostOffloadLookup.
Import HostOffload OffloadLookup.

Module OffloadInsert.

Implicit Types (b : HostOffloadBackend) (c : Cache) (hash h k : Hash) (blk : RaidenBlockId).

(** ** Effects on the cache *)

Lemma put_new_lru b h slice :
  lru_cache_ (put_new b (h, slice)) = (LRU.Put h (default default_block slice) (lru_cache_ b)).2.
Proof. unfold put_new. destruct (metadata_ b), slice; simpl; autorewrite with offload; done. Qed.

Lemma unpin_loop_lru hs b : lru_cache_ (foldl (flip unpin) b hs) = unpin_all hs (lru_cache_ b).
Proof. revert b. induction hs as [|h hs IH]; intros b; simpl; [done|]. by rewrite IH. Qed.

Lemma rebind_cache h slice b :
  lru_cache_ (rebind h slice b) = lru_cache_ b ∨
  exists old blk, LRU.Peek h (lru_cache_ b) = Some old ∧ status old = HBM ∧
    lru_cache_ (rebind h slice b) = LRU.set_value h blk (lru_cache_ b).
Proof.
  unfold rebind. destruct slice as [blk|]; [|by left].
  destruct (LRU.PeekMutable h (lru_cache_ b)) as [old|] eqn:Hp; [|by left].
  case_bool_decide; [|by left]. right. exists old, blk. split_and!; [exact Hp|done|].
  autorewrite with offload. unfold assign. simpl. autorewrite with offload. unfold LRU.assign. by rewrite Hp.
Qed.

Lemma set_value_Peek h blk c k :
  LRU.Peek k (LRU.set_value h blk c) =
  if decide (k = h) then (fun _ => blk) <$> LRU.Peek k c else LRU.Peek k c.
Proof.
  unfold LRU.Peek. simpl. rewrite lookup_alter. repeat case_decide; subst; try done.
  destruct (LRU.map_ c !! _) as [n|]; simpl; [by case_bool_decide|done].
Qed.

Lemma elem_of_pinned c k : LRU.wf c -> k ∈ LRU.pinned_list_ c <-> 0 < LRU.GetPinCount k c.
Proof.
  intros Hwf. pose proof (LRU.wf_key _ Hwf k) as Hk. unfold LRU.key_ok, LRU.GetPinCount in *.
  destruct (LRU.map_ c !! k) as [n|]; [destruct (LRU.location n)|]; naive_solver lia.
Qed.

(** The pinned list is determined by the pin counts. *)
Lemma length_pinned c (l : list Hash) : LRU.wf c -> (forall k, k ∈ l <-> 0 < LRU.GetPinCount k c) ->
  length (LRU.pinned_list_ c) = length (remove_dups l).
Proof.
  intros Hwf Hl. apply Permutation_length, NoDup_Permutation.
  - apply Hwf.
  - apply NoDup_remove_dups.
  - intros k. by rewrite elem_of_remove_dups, elem_of_pinned, Hl.
Qed.

Lemma Pin_capacity h c : LRU.capacity_ (LRU.Pin h c).2 = LRU.capacity_ c.
Proof. apply (LRU.apply_op_capacity (LRU.OpPin h)). Qed.

Lemma Peek_map k c : is_Some (LRU.Peek k c) -> is_Some (LRU.map_ c !! k).
Proof. unfold LRU.Peek. destruct (LRU.map_ c !! k); [eauto|by intros []]. Qed.

Lemma not_cached_unpinned k c : LRU.wf c -> LRU.Peek k c = None -> LRU.GetPinCount k c = 0.
Proof.
  intros Hwf Hp. pose proof (LRU.wf_pin_nonneg c k Hwf). destruct (decide (0 < LRU.GetPinCount k c)); [|lia].
  destruct (LRU.pinned_Peek c k Hwf) as [v Hv]; [done|congruence].
Qed.

(** ** Pinning the entries that are there *)

(** What the pin loop leaves: every pin taken, the same keys visible, and only
    entries that were in HBM rebound. *)
Record pinned_by (hs : list Hash) c c' : Prop := {
  pb_wf : LRU.wf c';
  pb_cap : LRU.capacity_ c' = LRU.capacity_ c;
  pb_pins k : LRU.GetPinCount k c' = LRU.GetPinCount k c + occ k hs;
  pb_same k : k ∉ hs -> LRU.Peek k c' = LRU.Peek k c;
  pb_some k : is_Some (LRU.Peek k c') <-> is_Some (LRU.Peek k c);
  pb_kept k blk : LRU.Peek k c = Some blk -> status blk ≠ HBM -> LRU.Peek k c' = Some blk
}.

Lemma pinned_by_refl c : LRU.wf c -> pinned_by [] c c.
Proof. intros Hwf. split; try done. intros k. rewrite occ_nil. lia. Qed.

Lemma pinned_by_step h slice hs b c :
  pinned_by hs c (lru_cache_ b) -> is_Some (LRU.Peek h c) ->
  (LRU.Pin h (lru_cache_ b)).1 = true ∧
  pinned_by (hs ++ [h]) c (lru_cache_ (rebind h slice (with_lru (LRU.Pin h (lru_cache_ b)).2 b))).
Proof.
  intros [Hwf Hcap Hpins Hsame Hsome Hkept] Hh. apply Hsome in Hh.
  split; [rewrite LRU.Pin_present; by apply bool_decide_eq_true_2, Peek_map|].
  set (b1 := with_lru (LRU.Pin h (lru_cache_ b)).2 b).
  assert (Hb1 : pinned_by (hs ++ [h]) c (lru_cache_ b1)).
  { assert (Hpk : forall k, LRU.Peek k (lru_cache_ b1) = LRU.Peek k (lru_cache_ b)) by (intros; by apply LRU.Pin_Peek).
    split.
    - by apply LRU.GetAndPin_wf.
    - etransitivity; [apply Pin_capacity|done].
    - intros k. rewrite occ_app, occ_cons, occ_nil. unfold b1. cbn [lru_cache_ with_lru].
      rewrite LRU.Pin_pins. cbn [LRU.pins_after]. rewrite Hpins. pose proof (Peek_map _ _ Hh). repeat case_bool_decide; naive_solver lia.
    - intros k [Hk _]%not_elem_of_app. rewrite Hpk. auto.
    - intros k. by rewrite Hpk.
    - intros k blk. rewrite Hpk. auto. }
  destruct (rebind_cache h slice b1) as [->|(old & blk & Hold & Hhbm & ->)]; [done|].
  destruct Hb1 as [Hwf' Hcap' Hpins' Hsame' Hsome' Hkept']. split.
  - by apply LRU.set_value_wf.
  - done.
  - intros k. by rewrite LRU.set_value_pins.
  - intros k Hk. rewrite set_value_Peek, decide_False; [auto|]. intros ->. apply Hk, elem_of_app. right. by left.
  - intros k. rewrite set_value_Peek, <-Hsome'. case_decide; [|done]. by rewrite fmap_is_Some.
  - intros k blk' Hk Hne. rewrite set_value_Peek. case_decide; [|auto]. subst.
    rewrite (Hkept' _ _ Hk Hne) in Hold. congruence.
Qed.

Lemma pin_existing_spec items pinned b c :
  pinned_by pinned c (lru_cache_ b) -> Forall (fun i : Item => is_Some (LRU.Peek i.1 c)) items ->
  (pin_existing pinned items b).1 = true ∧
  pinned_by (pinned ++ items.*1) c (lru_cache_ (pin_existing pinned items b).2).
Proof.
  revert pinned b. induction items as [|[h slice] items IH]; intros pinned b Hpb Hall.
  - simpl. by rewrite app_nil_r.
  - apply Forall_cons in Hall as [Hh Hall].
    destruct (pinned_by_step h slice pinned b c Hpb Hh) as [Hok Hpb']. cbn [pin_existing].
    rewrite Hok. cbn [negb]. destruct (IH _ _ Hpb' Hall) as [Hr Hpb'']. split; [done|].
    change ((h, slice) :: items).*1 with (h :: items.*1).
    by rewrite cons_middle, app_assoc.
Qed.

(** ** Putting a batch that fits *)

Definition put_all (items : BlockSliceList) c : Cache :=
  foldl (fun c (i : Hash * RaidenBlockId) => (LRU.Put i.1 i.2 c).2) c items.

Lemma put_all_snoc items h blk c :
  put_all (items ++ [(h, blk)]) c = (LRU.Put h blk (put_all items c)).2.
Proof. unfold put_all. by rewrite foldl_app. Qed.

Lemma put_new_loop items b :
  lru_cache_ (foldl put_new b items) =
  put_all ((fun i : Item => (i.1, default default_block i.2)) <$> items) (lru_cache_ b).
Proof.
  revert b. induction items as [|[h slice] items IH]; intros b; [done|]. cbn [foldl fmap list_fmap].
  rewrite IH, put_new_lru. done.
Qed.

(** The batch leads the active list; the pins and the pinned list are untouched. *)
Record put_by (hs : list Hash) c c' : Prop := {
  pu_wf : LRU.wf c';
  pu_cap : LRU.capacity_ c' = LRU.capacity_ c;
  pu_pinned : LRU.pinned_list_ c' = LRU.pinned_list_ c;
  pu_pins k : LRU.GetPinCount k c' = LRU.GetPinCount k c;
  pu_front : exists ds rest, LRU.lru_list_ c' = ds ++ rest ∧ (length ds <= length hs)%nat ∧
    forall k, k ∈ hs -> k ∈ ds;
  pu_node k : k ∈ hs -> exists v, LRU.map_ c' !! k = Some (LRU.mkNode v 0 LRU.kLru)
}.

Lemma put_all_spec items c :
  LRU.wf c -> Forall (fun i : Hash * RaidenBlockId => LRU.GetPinCount i.1 c = 0) items ->
  (items ≠ [] -> (length (LRU.pinned_list_ c) + length items <= LRU.capacity_ c)%nat) ->
  put_by items.*1 c (put_all items c) ∧
  (NoDup items.*1 -> forall h blk, (h, blk) ∈ items ->
     LRU.map_ (put_all items c) !! h = Some (LRU.mkNode blk 0 LRU.kLru)).
Proof.
  intros Hwf. induction items as [|[h blk] items IH] using rev_ind; intros Hzero Hroom.
  { split; [|by intros _ h blk ?%elem_of_nil]. split; try done; [|by intros k ?%elem_of_nil].
    exists [], (LRU.lru_list_ c). split_and!; [done|simpl; lia|by intros k ?%elem_of_nil]. }
  apply Forall_app in Hzero as [Hzero [Hh _]%Forall_cons]. rewrite length_app in Hroom. simpl in *.
  specialize (Hroom ltac:(by destruct items)).
  destruct IH as [[Hwf' Hcap Hpin Hpins (ds & rest & Hl & Hlen & Hds) Hnode] Hval]; [done|lia|].
  rewrite put_all_snoc, fmap_app. rewrite length_fmap in Hlen.
  destruct (LRU.Put_room h blk (put_all items c) ds rest Hwf' Hl) as ((rest' & Hl') & Hpin' & Hcap' & Hk & Hothers).
  { by rewrite Hpins. }
  { rewrite Hpin, Hcap. lia. }
  split; [split|].
  - by apply LRU.Put_wf.
  - congruence.
  - congruence.
  - intros k. by rewrite LRU.Put_pins.
  - exists (h :: remove_elem h ds), rest'. split_and!; [done| |].
    + rewrite length_app. simpl. rewrite length_fmap. pose proof (length_remove_elem_le h ds). lia.
    + intros k. rewrite elem_of_app, elem_of_cons, elem_of_remove_elem. simpl. rewrite list_elem_of_singleton.
      destruct (decide (k = h)); naive_solver.
  - intros k. rewrite elem_of_app. simpl. rewrite list_elem_of_singleton.
    destruct (decide (k = h)) as [->|]; [eauto|]. intros [Hin|]; [|done]. rewrite Hothers by auto. auto.
  - intros Hnd k v. apply NoDup_app in Hnd as (Hnd & Hdis & _).
    rewrite elem_of_app, list_elem_of_singleton. intros [Hin|[= -> ->]]; [|done].
    assert (Hk' : k ∈ items.*1) by (apply list_elem_of_fmap; by exists (k, v)).
    rewrite Hothers; [by apply Hval|auto|]. intros ->. apply (Hdis _ Hk'). by left.
Qed.

(** ** Pinning entries that are there *)

Definition pin_seq (hs : list Hash) c : Cache := foldl (fun c h => (LRU.Pin h c).2) c hs.

Lemma pin_seq_spec hs c : LRU.wf c -> Forall (fun h => is_Some (LRU.Peek h c)) hs ->
  LRU.wf (pin_seq hs c) ∧
  (forall k, LRU.GetPinCount k (pin_seq hs c) = LRU.GetPinCount k c + occ k hs) ∧
  (forall k, LRU.Peek k (pin_seq hs c) = LRU.Peek k c).
Proof.
  revert c. induction hs as [|h hs IH]; intros c Hwf Hall; simpl.
  { split_and!; [done| |done]. intros k. rewrite occ_nil. lia. }
  apply Forall_cons in Hall as [Hh Hall].
  destruct (IH (LRU.Pin h c).2) as (Hwf' & Hpins & Hpk).
  { by apply LRU.GetAndPin_wf. }
  { eapply Forall_impl; [exact Hall|]. intros k Hk. by rewrite LRU.Pin_Peek. }
  split_and!; [done| |].
  - intros k. change (pin_seq _ _) with (pin_seq hs (LRU.Pin h c).2). rewrite Hpins, LRU.Pin_pins, occ_cons.
    cbn [LRU.pins_after]. pose proof (Peek_map _ _ Hh). repeat case_bool_decide; naive_solver lia.
  - intros k. change (pin_seq _ _) with (pin_seq hs (LRU.Pin h c).2). by rewrite Hpk, LRU.Pin_Peek.
Qed.

Lemma pin_new_spec existing new pinned items b :
  Forall (fun i : Item => is_Some (LRU.Peek i.1 (lru_cache_ b))) items ->
  (pin_new existing new pinned items b).1 = true ∧
  lru_cache_ (pin_new existing new pinned items b).2 = pin_seq items.*1 (lru_cache_ b).
Proof.
  revert pinned b. induction items as [|[h slice] items IH]; intros pinned b Hall; [done|].
  apply Forall_cons in Hall as [Hh Hall]. cbn [pin_new].
  rewrite LRU.Pin_present, bool_decide_eq_true_2 by (by apply Peek_map). cbn [negb].
  apply (IH _ (with_lru _ b)). eapply Forall_impl; [exact Hall|]. intros i Hi.
  cbn [lru_cache_ with_lru]. by rewrite LRU.Pin_Peek.
Qed.

(** ** InsertAndLock *)

Lemma with_slices_hashes hs slices : (with_slices hs slices).*1 = hs.
Proof. revert slices. induction hs as [|h hs IH]; intros slices; simpl; [done|]. by rewrite IH. Qed.
Lemma with_slices_lookup hs slices i h :
  hs !! i = Some h -> with_slices hs slices !! i = Some (h, slices !! i).
Proof.
  revert slices i. induction hs as [|h' hs IH]; intros slices i; [done|].
  destruct i as [|i]; simpl; [intros [= ->]; by destruct slices|]. intros Hi. rewrite (IH _ _ Hi).
  by destruct slices; [destruct i|].
Qed.

Lemma filter_items (f : Hash -> bool) (x : bool) (items : list Item) :
  (filter (fun i : Item => f i.1 = x) items).*1 = filter (fun h => f h = x) items.*1.
Proof.
  induction items as [|[h s] items IH]; [done|]. cbn [fmap list_fmap fst]. rewrite !filter_cons. simpl.
  case_decide; [|done]. cbn [fmap list_fmap fst]. by f_equal.
Qed.
Lemma occ_filter (f : Hash -> bool) k hs :
  occ k (filter (fun h => f h = true) hs) + occ k (filter (fun h => f h = false) hs) = occ k hs.
Proof.
  induction hs as [|h hs IH]; [done|]. rewrite !filter_cons, occ_cons.
  destruct (f h) eqn:E; simpl; rewrite occ_cons; lia.
Qed.

Lemma put_all_pinned items c k :
  LRU.wf c -> 0 < LRU.GetPinCount k c -> k ∉ items.*1 -> LRU.map_ (put_all items c) !! k = LRU.map_ c !! k.
Proof.
  revert c. induction items as [|[h blk] items IH]; intros c Hwf Hp Hk; [done|].
  cbn [fmap list_fmap fst] in Hk. apply not_elem_of_cons in Hk as [Hne Hk].
  change (put_all ((h, blk) :: items) c) with (put_all items (LRU.Put h blk c).2).
  rewrite IH; [|by apply LRU.Put_wf|by rewrite LRU.Put_pins|done].
  destruct (LRU.Put_spec c h blk Hwf) as (_ & _ & Hev & Hoth). apply Hoth; [done|].
  intros v Hv. destruct (Hev _ _ Hv) as (_ & Hlast & _). apply LRU.last_elem in Hlast.
  destruct (LRU.wf_lru_node c k Hwf Hlast) as (n & Hn & _ & Hz). unfold LRU.GetPinCount in Hp.
  rewrite Hn in Hp. lia.
Qed.

(** The room left once the existing hashes of a batch are pinned. *)
Definition room_after (existing : list Hash) c : nat :=
  (LRU.capacity_ c - length (remove_dups (LRU.pinned_list_ c ++ existing)))%nat.

Lemma available_after hs c c' : LRU.wf c -> pinned_by hs c c' ->
  LRU.available_space c' = room_after hs c ∧
  (LRU.capacity_ c - length (LRU.pinned_list_ c'))%nat = room_after hs c.
Proof.
  intros Hwf [Hwf' Hcap Hpins _ _ _]. unfold LRU.available_space, room_after. rewrite Hcap.
  rewrite (length_pinned c' (LRU.pinned_list_ c ++ hs)); [|done|].
  - split; [|done]. destruct (_ <? _)%nat eqn:E; to_prop; lia.
  - intros k. rewrite elem_of_app, elem_of_pinned, Hpins by done.
    pose proof (LRU.wf_pin_nonneg c k Hwf). pose proof (occ_nonneg k hs).
    split; [intros [?|?%occ_pos]; lia|]. intros Hpos. destruct (decide (k ∈ hs)) as [|Hn]; [by right|].
    rewrite (occ_zero _ _ Hn) in Hpos. left. lia.
Qed.

(** The insertion half, once the existing hashes are pinned and the batch fits. *)
Lemma lock_new existing (new : list Item) b :
  LRU.wf (lru_cache_ b) -> Forall (fun i : Item => LRU.GetPinCount i.1 (lru_cache_ b) = 0) new ->
  (new ≠ [] -> (length (LRU.pinned_list_ (lru_cache_ b)) + length new <= LRU.capacity_ (lru_cache_ b))%nat) ->
  let r := pin_new existing new.*1 [] new (foldl put_new b (reverse new)) in
  r.1 = true ∧
  (forall k, LRU.GetPinCount k (lru_cache_ r.2) = LRU.GetPinCount k (lru_cache_ b) + occ k new.*1) ∧
  (forall k, 0 < LRU.GetPinCount k (lru_cache_ b) ->
     LRU.Peek k (lru_cache_ r.2) = LRU.Peek k (lru_cache_ b)) ∧
  (NoDup new.*1 -> forall h slice, (h, slice) ∈ new ->
     LRU.Peek h (lru_cache_ r.2) = Some (default default_block slice)).
Proof.
  intros Hwf Hzero Hroom. set (full := fun i : Item => (i.1, default default_block i.2)).
  pose proof (put_new_loop (reverse new) b) as Hput. fold full in Hput.
  set (b1 := foldl put_new b (reverse new)) in *.
  assert (Hfst : (full <$> reverse new).*1 = reverse new.*1).
  { rewrite <-fmap_reverse, <-list_fmap_compose. done. }
  destruct (put_all_spec (full <$> reverse new) (lru_cache_ b) Hwf) as [Hpu Hval].
  { apply Forall_fmap, Forall_reverse. exact Hzero. }
  { rewrite length_fmap, length_reverse. intros Hne. apply Hroom. by intros ->. }
  rewrite Hfst, <-Hput in Hpu, Hval. destruct Hpu as [Hwf1 _ _ Hpins _ Hnode].
  assert (Hin : Forall (fun i : Item => is_Some (LRU.Peek i.1 (lru_cache_ b1))) new).
  { apply Forall_forall. intros i Hi. destruct (Hnode i.1) as (v & Hv).
    - apply elem_of_reverse, list_elem_of_fmap. eauto.
    - unfold LRU.Peek. rewrite Hv. simpl. eauto. }
  destruct (pin_new_spec existing new.*1 [] new b1 Hin) as [Hr Hc]. simpl. rewrite Hc.
  destruct (pin_seq_spec new.*1 (lru_cache_ b1) Hwf1) as (_ & Hpins' & Hpk); [by apply Forall_fmap|].
  split_and!; [done| | |].
  - intros k. by rewrite Hpins', Hpins.
  - intros k Hk. rewrite Hpk. unfold LRU.Peek. rewrite Hput, put_all_pinned; [done|done|done|].
    rewrite Hfst, elem_of_reverse, list_elem_of_fmap. intros (i & -> & Hi).
    rewrite Forall_forall in Hzero. rewrite (Hzero i Hi) in Hk. lia.
  - intros Hnd h slice Hi. rewrite Hpk. unfold LRU.Peek.
    rewrite (Hval (proj2 (NoDup_Permutation_proper _ _ (reverse_Permutation _)) Hnd) h (default default_block slice)); [done|].
    apply list_elem_of_fmap. exists (h, slice). split; [done|]. by apply elem_of_reverse.
Qed.

Lemma filter_Forall (f : Hash -> bool) (x : bool) (items : list Item) :
  Forall (fun i : Item => f i.1 = x) (filter (fun i : Item => f i.1 = x) items).
Proof. apply Forall_forall. intros i Hi. by apply list_elem_of_filter in Hi as [? _]. Qed.

Lemma Contains_true c h : LRU.Contains c h = true <-> is_Some (LRU.Peek h c).
Proof. rewrite LRU.Contains_Peek. apply bool_decide_eq_true. Qed.
Lemma Contains_false c h : LRU.Contains c h = false <-> LRU.Peek h c = None.
Proof. rewrite LRU.Contains_Peek, bool_decide_eq_false. destruct (LRU.Peek h c); naive_solver. Qed.

Lemma InsertAndLock_spec hashes slices b :
  LRU.wf (lru_cache_ b) ->
  let c := lru_cache_ b in
  let existing := filter (fun h => LRU.Contains c h = true) hashes in
  let new := filter (fun h => LRU.Contains c h = false) hashes in
  let r := InsertAndLock hashes slices b in
  let c' := lru_cache_ r.2 in
  (r.1 = true <-> (length new <= room_after existing c)%nat) ∧
  (forall h, GetPinCount h r.2 = GetPinCount h b + (if r.1 then occ h hashes else 0)) ∧
  (forall h blk, LRU.Peek h c = Some blk -> status blk ≠ HBM -> (r.1 = true -> h ∈ hashes) ->
     LRU.Peek h c' = Some blk) ∧
  (r.1 = true -> NoDup hashes -> forall i h, hashes !! i = Some h -> LRU.Contains c h = false ->
     LRU.Peek h c' = Some (default default_block (slices !! i))).
Proof.
  intros Hwf c existing new. unfold InsertAndLock. fold c.
  set (items := with_slices hashes slices).
  set (ex := filter (fun i : Item => LRU.Contains c i.1 = true) items).
  set (nw := filter (fun i : Item => LRU.Contains c i.1 = false) items).
  assert (Hex : ex.*1 = existing) by (unfold ex, items; by rewrite filter_items, with_slices_hashes).
  assert (Hnw : nw.*1 = new) by (unfold nw, items; by rewrite filter_items, with_slices_hashes).
  destruct (pin_existing_spec ex [] b c) as [Hok Hpb].
  { by apply pinned_by_refl. }
  { eapply Forall_impl; [apply (filter_Forall (LRU.Contains c) true)|]. intros i Hi. by apply Contains_true. }
  destruct (pin_existing [] ex b) as [ok1 b1]. cbn [fst snd] in Hok, Hpb. subst ok1. simpl in Hpb.
  rewrite Hex in *. destruct (available_after existing c _ Hwf Hpb) as [Hav Hroom].
  rewrite Hav. assert (Hlen : length nw = length new) by (by rewrite <-Hnw, length_fmap). rewrite Hlen.
  pose proof Hpb as [Hwf1 Hcap1 Hpins1 Hsame1 Hsome1 Hkept1].
  destruct (Nat.ltb_spec (room_after existing c) (length new)) as [Hlt|Hfit]; cbn [fst snd].
  - assert (Hle : forall h, occ h existing <= LRU.GetPinCount h (lru_cache_ b1)).
    { intros h. rewrite Hpins1. pose proof (LRU.wf_pin_nonneg c h Hwf). lia. }
    split_and!; [split; [done|lia]| | |done].
    + intros h. unfold GetPinCount. rewrite unpin_loop_lru, unpin_all_pins by done.
      rewrite Hpins1. fold c. lia.
    + intros h blk Hh Hne _. rewrite unpin_loop_lru, unpin_all_Peek by done. by apply Hkept1.
  - destruct (lock_new existing nw b1 Hwf1) as (Hr & Hpins & Hpk & Hval).
    { eapply Forall_impl; [apply (filter_Forall (LRU.Contains c) false)|]. intros i Hi.
      apply not_cached_unpinned; [done|]. apply Contains_false in Hi. rewrite Hsame1; [done|].
      unfold existing. rewrite list_elem_of_filter, Contains_true, Hi. by intros [[] _]. }
    { rewrite Hlen, Hcap1. intros Hne. assert (length nw ≠ 0)%nat by (by destruct nw). lia. }
    rewrite Hnw in *. cbn [fst snd] in *. rewrite Hr.
    split_and!; [done| | |].
    + intros h. unfold GetPinCount. rewrite Hpins, Hpins1, <-(occ_filter (LRU.Contains c) h hashes). fold existing new c. lia.
    + intros h blk Hh Hne Hin. rewrite Hpk; [by apply Hkept1|]. rewrite Hpins1.
      pose proof (LRU.wf_pin_nonneg c h Hwf). assert (Hin2 : h ∈ existing); [|apply occ_pos in Hin2; lia].
      apply list_elem_of_filter. split; [apply Contains_true; eauto|auto].
    + intros _ Hnd i h Hi Hc. apply Hval; [by apply NoDup_filter|].
      apply list_elem_of_filter. split; [done|]. by apply list_elem_of_lookup_2 with i, with_slices_lookup.
Qed.

(** C34: [InsertAndLock] succeeds exactly when the hashes that are not cached fit in the
    capacity left beside the pinned entries and the cached hashes of the batch.  It
    then pins every hash once per occurrence, keeps the entries that hold host bytes
    and gives each new hash its slice; when it fails every pin count is as before and
    no entry with host bytes has changed.  Its internal rollback of half-pinned
    insertions is never reached. *)
Theorem backend_insert_and_lock hashes slices b :
  LRU.wf (lru_cache_ b) ->
  let c := lru_cache_ b in
  let existing := filter (fun h => LRU.Contains c h = true) hashes in
  let new := filter (fun h => LRU.Contains c h = false) hashes in
  let r := InsertAndLock hashes slices b in
  let c' := lru_cache_ r.2 in
  (r.1 = true <-> (length new <= room_after existing c)%nat) ∧
  (forall h, GetPinCount h r.2 = GetPinCount h b + (if r.1 then occ h hashes else 0)) ∧
  (forall h blk, LRU.Peek h c = Some blk -> status blk ≠ HBM -> (r.1 = true -> h ∈ hashes) ->
     LRU.Peek h c' = Some blk) ∧
  (r.1 = true -> NoDup hashes -> forall i h, hashes !! i = Some h -> LRU.Contains c h = false ->
     LRU.Peek h c' = Some (default default_block (slices !! i))).
Proof. apply InsertAndLock_spec. Qed.

(** ** InsertAllOrNothing *)

Lemma insert_batch_spec items done_ inserted b c :
  LRU.wf c -> lru_cache_ b = put_all done_ c ->
  Forall (fun i : Hash * RaidenBlockId => LRU.GetPinCount i.1 c = 0) (done_ ++ items) ->
  (length (LRU.pinned_list_ c) + length (done_ ++ items) <= LRU.capacity_ c)%nat ->
  (insert_batch inserted items b).1 = true ∧
  lru_cache_ (insert_batch inserted items b).2 = put_all (done_ ++ items) c.
Proof.
  revert done_ inserted b. induction items as [|[h blk] items IH]; intros done_ inserted b Hwf Hb Hz Hroom.
  { simpl. by rewrite app_nil_r. }
  rewrite cons_middle, app_assoc in Hz, Hroom |- *. cbn [insert_batch].
  set (b1 := (put h blk b).2).
  assert (Hb1 : lru_cache_ b1 = put_all (done_ ++ [(h, blk)]) c) by (by rewrite put_all_snoc, <-Hb).
  apply Forall_app in Hz as Hz'. destruct Hz' as [Hz1 _].
  destruct (put_all_spec (done_ ++ [(h, blk)]) c Hwf Hz1) as [[_ _ _ _ _ Hnode] _].
  { intros _. rewrite length_app in Hroom. lia. }
  destruct (Hnode h) as (v & Hv); [rewrite fmap_app; apply elem_of_app; right; by left|].
  assert (Hp : LRU.Peek h (lru_cache_ b1) = Some v) by (unfold LRU.Peek; rewrite Hb1, Hv; done).
  rewrite Hp. apply IH; [done|by rewrite SetMetadataEntry_lru|done|done].
Qed.

Lemma absent_unpinned c h : LRU.map_ c !! h = None -> LRU.GetPinCount h c = 0.
Proof. unfold LRU.GetPinCount. by intros ->. Qed.

Lemma InsertAllOrNothing_spec hashes slices b :
  LRU.wf (lru_cache_ b) ->
  let c := lru_cache_ b in
  let r := InsertAllOrNothing hashes slices b in
  let c' := lru_cache_ r.2 in
  (r.1 = true <-> hashes ≠ [] ∧ length hashes = length slices ∧
     Forall (fun h => LRU.map_ c !! h = None) hashes ∧ (length hashes <= LRU.available_space c)%nat) ∧
  (r.1 = false -> r.2 = b) ∧
  (r.1 = true ->
     (forall h, GetPinCount h r.2 = GetPinCount h b) ∧
     (forall h, h ∈ hashes -> is_Some (LRU.Peek h c')) ∧
     (NoDup hashes -> forall i h blk, hashes !! i = Some h -> slices !! i = Some blk ->
        LRU.Peek h c' = Some blk) ∧
     (forall h, 0 < GetPinCount h b -> LRU.Peek h c' = LRU.Peek h c)).
Proof.
  intros Hwf c r c'. unfold c', r, InsertAllOrNothing. fold c. clear r c'.
  destruct (Nat.eqb_spec (length hashes) 0) as [Hz|Hnz]; cbn [orb].
  { apply nil_length_inv in Hz. split_and!; [split; [done|naive_solver]|done|done]. }
  destruct (Nat.eqb_spec (length hashes) (length slices)) as [Hlen|Hlen]; cbn [negb].
  2: { split_and!; [split; [done|naive_solver]|done|done]. }
  case_bool_decide as Hdup.
  { split_and!; [split; [done|]|done|done]. intros (_ & _ & Hall & _). apply Exists_exists in Hdup as (h & Hin & Hh).
    rewrite Forall_forall in Hall. unfold LRU.PeekIncludingCandidates in Hh. rewrite (Hall h Hin) in Hh.
    by destruct Hh. }
  assert (Hnone : Forall (fun h => LRU.map_ c !! h = None) hashes).
  { apply Forall_forall. intros h Hin. destruct (LRU.map_ c !! h) as [n|] eqn:Hn; [|done]. exfalso.
    apply Hdup, Exists_exists. exists h. split; [done|]. unfold LRU.PeekIncludingCandidates. rewrite Hn. eauto. }
  destruct (Nat.ltb_spec (LRU.available_space c) (length hashes)) as [Hlt|Hfit].
  { split_and!; [split; [done|naive_solver lia]|done|done]. }
  assert (Hfst : (zip hashes slices).*1 = hashes) by (apply fst_zip; lia).
  assert (Hz : Forall (fun i : Hash * RaidenBlockId => LRU.GetPinCount i.1 c = 0) (zip hashes slices)).
  { apply Forall_forall. intros [h blk] Hi%elem_of_zip_l.
    by apply absent_unpinned, (proj1 (Forall_forall _ _) Hnone). }
  assert (Hroom : (length (LRU.pinned_list_ c) + length (zip hashes slices) <= LRU.capacity_ c)%nat).
  { rewrite length_zip. unfold LRU.available_space in Hfit. destruct (_ <? _)%nat eqn:E; to_prop; lia. }
  destruct (insert_batch_spec (zip hashes slices) [] [] b c Hwf eq_refl Hz Hroom) as [Hr Hc].
  destruct (put_all_spec (zip hashes slices) c Hwf Hz ltac:(done)) as [[_ _ _ Hpins _ Hnode] Hval].
  rewrite Hfst in Hnode, Hval. simpl in Hc. rewrite Hr, Hc.
  split_and!; [|done|intros _; split_and!].
  - split; [|done]. intros _. split_and!; [|done|done|done]. intros ->. done.
  - intros h. unfold GetPinCount. by rewrite Hc, Hpins.
  - intros h Hin. destruct (Hnode h Hin) as (v & Hv). unfold LRU.Peek. rewrite Hv. simpl. eauto.
  - intros Hnd i h blk Hh Hblk. unfold LRU.Peek. rewrite (Hval Hnd h blk); [done|].
    apply list_elem_of_lookup_2 with i. by apply lookup_zip_Some.
  - intros h Hp. unfold LRU.Peek. rewrite put_all_pinned; [done|done|done|]. rewrite Hfst.
    intros Hin. rewrite Forall_forall in Hnone. pose proof (absent_unpinned c h (Hnone h Hin)).
    unfold GetPinCount in Hp. fold c in Hp. lia.
Qed.

(** [InsertAllOrNothing] accepts a batch exactly when it is not empty, has one slice
    per hash, none of its hashes is indexed (eviction candidates included) and it fits
    beside the pinned entries.  A refused batch changes nothing at all; an accepted one
    makes every hash visible with its slice, moves no pin and displaces no pinned
    entry.  The rollback of a [Put] that inserted nothing is never reached. *)
Theorem backend_insert_all_or_nothing hashes slices b :
  LRU.wf (lru_cache_ b) ->
  let c := lru_cache_ b in
  let r := InsertAllOrNothing hashes slices b in
  let c' := lru_cache_ r.2 in
  (r.1 = true <-> hashes ≠ [] ∧ length hashes = length slices ∧
     Forall (fun h => LRU.map_ c !! h = None) hashes ∧ (length hashes <= LRU.available_space c)%nat) ∧
  (r.1 = false -> r.2 = b) ∧
  (r.1 = true ->
     (forall h, GetPinCount h r.2 = GetPinCount h b) ∧
     (forall h, h ∈ hashes -> is_Some (LRU.Peek h c')) ∧
     (NoDup hashes -> forall i h blk, hashes !! i = Some h -> slices !! i = Some blk ->
        LRU.Peek h c' = Some blk) ∧
     (forall h, 0 < GetPinCount h b -> LRU.Peek h c' = LRU.Peek h c)).
Proof. apply InsertAllOrNothing_spec. Qed.

(** ** Insert into a cache full of pins *)

(** [Put] inserts nothing, but [Insert] reports that every hash was newly inserted and
    advertises the block. *)
Lemma insert_full_of_pins h blk b :
  LRU.map_ (lru_cache_ b) !! h = None -> LRU.lru_list_ (lru_cache_ b) = [] ->
  (LRU.capacity_ (lru_cache_ b) <= LRU.active_size (lru_cache_ b))%nat ->
  let '(all_inserted, evicted, calls, b') := Insert [h] [blk] b in
  all_inserted = true ∧ evicted = [] ∧ lru_cache_ b' = lru_cache_ b ∧ LRU.Peek h (lru_cache_ b') = None ∧
  calls = if registry_client_ b then [Register [registration h blk b]] else [].
Proof.
  intros Hn Hl Hfull.
  assert (Hput : LRU.Put h blk (lru_cache_ b) = (None, lru_cache_ b)).
  { unfold LRU.Put, LRU.Evict. by rewrite Hn, (proj2 (Nat.leb_le _ _) Hfull), Hl. }
  assert (Hc : LRU.Contains (lru_cache_ b) h = false) by (unfold LRU.Contains; by rewrite Hn).
  assert (Hs : ClearStale h b = b).
  { unfold ClearStale, LRU.PeekIncludingCandidates. by rewrite Hn. }
  unfold Insert. cbn [insert_all head tail]. unfold insert_one. cbn [ins_backend]. rewrite Hc.
  replace (match metadata_ b with Some _ => ClearStale h b | None => b end) with b
    by (destruct (metadata_ b); done).
  change (default default_block (Some blk)) with blk. unfold put.
  cbn [ins_all ins_evicted ins_registrations ins_backend]. rewrite Hput. cbn [fst snd option_list].
  split_and!; [done|done|by rewrite SetMetadataEntry_lru| |by destruct (registry_client_ b)].
  rewrite SetMetadataEntry_lru. unfold LRU.Peek. cbn [lru_cache_ with_lru]. by rewrite Hn.
Qed.

(** A hash that occurs twice in an accepted batch keeps its second slice only: the
    first host block is indexed nowhere. *)
Lemma insert_batch_duplicate :
  let blk i := host_block (node 1) i HOST in
  let r := InsertAllOrNothing [[7]; [7]] [blk 20; blk 21] (create 4 None (node 1) true EmptyString) in
  r.1 = true ∧ (LRU.value <$> LRU.map_ (lru_cache_ r.2)) = {[ [7] := blk 21 ]}.
Proof. vm_compute. done. Qed.

(** A refused [InsertAndLock] has already rebound the entries that were in HBM. *)
Lemma insert_and_lock_rebinds :
  let hbm i := mkBlockId (node 1) (-1) i HBM in
  let b := run [OpInsert [[1]] [hbm 5]] (create 1 None (node 1) true EmptyString) in
  let r := InsertAndLock [[1]; [2]] [hbm 6; hbm 7] b in
  r.1 = false ∧ LRU.Peek [1] (lru_cache_ b) = Some (hbm 5) ∧ LRU.Peek [1] (lru_cache_ r.2) = Some (hbm 6).
Proof. vm_compute. done. Qed.

(** ** Evaluations *)

Lemma backend_insert_and_lock_witness :
  let blk i := host_block (node 1) i HOST in
  let r := InsertAndLock [[1]; [4]] [blk 30; blk 31] demo in
  r.1 = true ∧ GetPinCount [1] r.2 = 1 ∧ LRU.Peek [1] (lru_cache_ r.2) = Some (blk 10) ∧
  LRU.Peek [4] (lru_cache_ r.2) = Some (blk 31) ∧
  (InsertAndLock [[4]; [5]; [6]; [7]; [8]] [] demo).1 = false.
Proof.
  intros blk r.
  destruct (backend_insert_and_lock [[1]; [4]] [blk 30; blk 31] demo offload_demo_wf) as (Hok & Hpins & Hkept & Hnew).
  assert (Hr : r.1 = true) by (apply Hok; vm_compute; lia).
  split; [exact Hr|]. split; [etransitivity; [apply Hpins|fold r; rewrite Hr; vm_compute; reflexivity]|].
  split; [apply Hkept; [vm_compute; reflexivity|discriminate|intros _; left]|].
  split; [apply (Hnew Hr) with (i := 1%nat); [apply (bool_decide_unpack _); vm_compute; exact I|reflexivity|vm_compute; reflexivity]|].
  apply not_true_is_false. intros Hno.
  apply (backend_insert_and_lock [[4]; [5]; [6]; [7]; [8]] [] demo offload_demo_wf) in Hno. vm_compute in Hno. lia.
Defined.

Lemma backend_insert_all_or_nothing_witness :
  let blk i := host_block (node 1) i HOST in
  let r := InsertAllOrNothing [[4]; [5]] [blk 30; blk 31] demo in
  r.1 = true ∧ LRU.Peek [5] (lru_cache_ r.2) = Some (blk 31) ∧
  (InsertAllOrNothing [[4]; [3]] [blk 30; blk 31] demo).2 = demo.
Proof.
  intros blk r.
  destruct (backend_insert_all_or_nothing [[4]; [5]] [blk 30; blk 31] demo offload_demo_wf) as (Hok & _ & Hin).
  assert (Hr : r.1 = true).
  { apply Hok. split_and!; [discriminate|reflexivity|apply (bool_decide_unpack _); vm_compute; exact I|vm_compute; lia]. }
  split; [exact Hr|]. split.
  - apply (proj1 (proj2 (proj2 (Hin Hr)))) with (i := 1%nat);
      [apply (bool_decide_unpack _); vm_compute; exact I|reflexivity|reflexivity].
  - apply (backend_insert_all_or_nothing [[4]; [3]] [blk 30; blk 31] demo offload_demo_wf). vm_compute. reflexivity.
Defined.

End OffloadInsert.
