(* ===== verification/HostOffloadRecovery.v ===== *)
(** * The metadata of the host offload backend

    The invariant of the crash-surviving table (sequence numbers are distinct and
    below the counter), its preservation by every operation, and what a restarted
    backend recovers from the table. *)

From S2P Require Import Prelude Bytes ReshardTypes StoreBackend KVCacheMetadata LruCache LogicalBlockManager HostOffloadBackend HostOffloadLookup HostOffloadInsert.
Import HostOffload OffloadLookup OffloadInsert.

Module OffloadRecovery.

Implicit Types (b : HostOffloadBackend) (c : Cache) (hash h k : Hash) (blk : RaidenBlockId)
  (v : KVMeta.KVCacheMetadata) (mem : list Z) (t : KVMeta.Table).

(** ** The invariant *)

(** The bindings of the table were written with distinct sequence numbers below [n]. *)
Record table_ok (n : Z) v t : Prop := {
  tok_range i h s : t !! i = Some (h, s) -> 0 <= i < KVMeta.num_blocks_ v;
  tok_seq i h s : t !! i = Some (h, s) -> 0 <= s < n;
  tok_inj i j h h' s : t !! i = Some (h, s) -> t !! j = Some (h', s) -> i = j
}.

Record meta_inv b : Prop := {
  mi_seq : 0 <= next_metadata_seq_ b < 2 ^ 64;
  mi_table v mem : metadata_ b = Some (v, mem) ->
    exists t, KVMeta.represents v mem t ∧ table_ok (next_metadata_seq_ b) v t
}.

(** [b'] follows from [b] with at most [n] entries written. *)
Definition bounded (n : nat) b b' : Prop :=
  meta_inv b -> next_metadata_seq_ b + Z.of_nat n < 2 ^ 64 ->
  meta_inv b' ∧ next_metadata_seq_ b' <= next_metadata_seq_ b + Z.of_nat n ∧
  fst <$> metadata_ b' = fst <$> metadata_ b.

Lemma bounded_same b b' :
  metadata_ b' = metadata_ b -> next_metadata_seq_ b' = next_metadata_seq_ b -> bounded 0 b b'.
Proof.
  intros Hm Hs [Hr Ht] _. split; [|rewrite Hm; split; [lia|done]]. split; [by rewrite Hs|].
  rewrite Hm, Hs. exact Ht.
Qed.
Lemma bounded_trans n1 n2 b1 b2 b3 : bounded n1 b1 b2 -> bounded n2 b2 b3 -> bounded (n1 + n2) b1 b3.
Proof.
  intros H12 H23 Hi Hlt. destruct H12 as (H2 & ? & ?); [done|lia|]. destruct H23 as (H3 & ? & ?); [done|lia|].
  split_and!; [done|lia|congruence].
Qed.
Lemma bounded_le n1 n2 b b' : (n1 <= n2)%nat -> bounded n1 b b' -> bounded n2 b b'.
Proof. intros Hle H Hi Hlt. destruct H as (? & ? & ?); [done|lia|]. split_and!; [done|lia|done]. Qed.
Lemma bounded_refl n b : bounded n b b.
Proof. apply (bounded_le 0); [lia|by apply bounded_same]. Qed.

Lemma bounded_lru c b : bounded 0 b (with_lru c b).
Proof. by apply bounded_same. Qed.

Lemma table_ok_insert n v t i h :
  table_ok n v t -> 0 <= i < KVMeta.num_blocks_ v -> 0 <= n -> table_ok (n + 1) v (<[i := (h, n)]> t).
Proof.
  intros [Hr Hs Hinj] Hi Hn. split.
  - intros j h' s. rewrite lookup_insert_Some. intros [[<- _]|[_ Hj]]; [done|eauto].
  - intros j h' s. rewrite lookup_insert_Some. intros [[<- [= _ <-]]|[_ Hj]]; [lia|].
    apply Hs in Hj. lia.
  - intros j1 j2 h1 h2 s. rewrite !lookup_insert_Some.
    intros [[<- [= _ <-]]|[_ H1]] [[<- E]|[_ H2]]; simplify_eq; eauto.
    + apply Hs in H2. lia.
    + apply Hs in H1. lia.
Qed.
Lemma table_ok_delete n v t i : table_ok n v t -> table_ok n v (delete i t).
Proof.
  intros [Hr Hs Hinj]. split; intros *; rewrite ?lookup_delete_Some; naive_solver.
Qed.
Lemma table_ok_le n n' v t : n <= n' -> table_ok n v t -> table_ok n' v t.
Proof. intros Hle [Hr Hs Hinj]. split; eauto. intros i h s Hi. apply Hs in Hi. lia. Qed.

Lemma bounded_Set h blk b : Forall is_byte h -> bounded 1 b (SetMetadataEntry h blk b).
Proof.
  intros Hh. unfold SetMetadataEntry. destruct (metadata_ b) as [[v mem]|] eqn:Em; [|apply bounded_refl].
  destruct (negb (on_host blk)); [apply bounded_refl|]. intros [Hr Ht] Hlt.
  assert (Hu : u64 (next_metadata_seq_ b + 1) = next_metadata_seq_ b + 1) by (apply Z.mod_small; lia).
  split; [|cbn [next_metadata_seq_ with_metadata metadata_]; rewrite Em; split; [lia|done]].
  split; cbn [next_metadata_seq_ with_metadata metadata_]; [lia|].
  intros v' mem' [= <- <-]. destruct (Ht v mem Em) as (t & Hrep & Htok).
  exists (KVMeta.spec_op v (KVMeta.OpSet (host_block_id blk) h (next_metadata_seq_ b)) t). split.
  - apply (KVMeta.apply_op_represents v (KVMeta.OpSet (host_block_id blk) h (next_metadata_seq_ b))); done.
  - rewrite Hu. unfold KVMeta.spec_op. destruct (ok _) eqn:Eok; [|by apply (table_ok_le (next_metadata_seq_ b)); [lia|]].
    apply table_ok_insert; [done| |lia]. by apply KVMeta.check_set_ok in Eok as [? _].
Qed.

Lemma bounded_Clear blk b : bounded 0 b (ClearMetadataEntry blk b).
Proof.
  unfold ClearMetadataEntry. destruct (metadata_ b) as [[v mem]|] eqn:Em; [|apply bounded_refl].
  destruct (negb (on_host blk)); [apply bounded_refl|]. intros [Hr Ht] Hlt.
  split; [|cbn [next_metadata_seq_ with_metadata metadata_]; rewrite Em; split; [lia|done]].
  split; cbn [next_metadata_seq_ with_metadata metadata_]; [lia|].
  intros v' mem' [= <- <-]. destruct (Ht v mem Em) as (t & Hrep & Htok).
  exists (KVMeta.spec_op v (KVMeta.OpClear (host_block_id blk)) t). split.
  - by apply (KVMeta.apply_op_represents v (KVMeta.OpClear (host_block_id blk))).
  - unfold KVMeta.spec_op. destruct (ok _); [by apply table_ok_delete|done].
Qed.

Lemma bounded_ClearStale h b : bounded 0 b (ClearStale h b).
Proof. unfold ClearStale. case_match; [apply bounded_Clear|apply bounded_refl]. Qed.

(** Loops. *)
Lemma bounded_foldl {A} (f : HostOffloadBackend -> A -> HostOffloadBackend) (n : nat) l b :
  (forall b x, x ∈ l -> bounded n b (f b x)) -> bounded (n * length l) b (foldl f b l).
Proof.
  revert b. induction l as [|x l IH]; intros b Hf; simpl; [apply bounded_refl|].
  apply (bounded_le (n + n * length l)); [lia|].
  apply (bounded_trans _ _ _ (f b x)); [apply Hf; by left|]. apply IH. intros b' y Hy. apply Hf. by right.
Qed.
Lemma bounded_unpin_loop hs b : bounded 0 b (foldl (flip unpin) b hs).
Proof. apply (bounded_foldl (flip unpin) 0). intros. apply bounded_lru. Qed.
Lemma bounded_erase_loop hs b : bounded 0 b (foldl (fun b h => erase h (ClearStale h b)) b hs).
Proof.
  apply (bounded_foldl (fun b h => erase h (ClearStale h b)) 0). intros b' h _.
  apply (bounded_trans 0 0 _ (ClearStale h b')); [apply bounded_ClearStale|apply bounded_lru].
Qed.

(** ** The newest binding of each hash *)

Implicit Types (e : KVMeta.Entry) (es : list KVMeta.Entry).

Lemma newest_spec es :
  let newest := foldl keep_newest ∅ es in
  (forall h e, newest !! h = Some e -> e ∈ es ∧ KVMeta.entry_hash e = h ∧
     forall e', e' ∈ es -> KVMeta.entry_hash e' = h -> KVMeta.entry_seq e' <= KVMeta.entry_seq e) ∧
  (forall e, e ∈ es -> is_Some (newest !! KVMeta.entry_hash e)).
Proof.
  induction es as [|e es IH] using rev_ind.
  { split; [by intros h e|by intros e ?%elem_of_nil]. }
  cbv zeta. rewrite foldl_app. cbn [foldl]. destruct IH as [Hin Hsome].
  set (nw := foldl keep_newest ∅ es) in *. unfold keep_newest.
  assert (Hstep : (nw !! KVMeta.entry_hash e = None ∨
            exists e0, nw !! KVMeta.entry_hash e = Some e0 ∧ KVMeta.entry_seq e0 < KVMeta.entry_seq e) ->
          (forall h e1, <[KVMeta.entry_hash e := e]> nw !! h = Some e1 -> e1 ∈ es ++ [e] ∧
             KVMeta.entry_hash e1 = h ∧ forall e', e' ∈ es ++ [e] -> KVMeta.entry_hash e' = h ->
               KVMeta.entry_seq e' <= KVMeta.entry_seq e1) ∧
          (forall e1, e1 ∈ es ++ [e] -> is_Some (<[KVMeta.entry_hash e := e]> nw !! KVMeta.entry_hash e1))).
  { intros Hlt. setoid_rewrite elem_of_app. setoid_rewrite list_elem_of_singleton. split.
    - intros h e1. rewrite lookup_insert_Some. intros [[<- <-]|[Hne H1]].
      + split_and!; [by right|done|]. intros e' [He'| ->] Hh; [|lia].
        destruct (Hsome e' He') as [e2 He2]. rewrite Hh in He2. destruct Hlt as [Hnone|(e0 & He0 & Hlt)]; [congruence|].
        rewrite He0 in He2. simplify_eq. destruct (Hin _ _ He0) as (_ & _ & Hmax). specialize (Hmax e' He' Hh). lia.
      + destruct (Hin _ _ H1) as (Hi & Hh & Hmax). split_and!; [by left|done|].
        intros e' [He'| ->] Hh'; [by apply Hmax|congruence].
    - intros e1 He1. rewrite lookup_insert. case_decide; [eauto|]. destruct He1 as [He1| ->]; [auto|done]. }
  destruct (nw !! KVMeta.entry_hash e) as [e0|] eqn:Ee; [|by apply Hstep; left].
  destruct (KVMeta.entry_seq e0 <? KVMeta.entry_seq e) eqn:El; to_prop; [apply Hstep; right; eauto|].
  clear Hstep. setoid_rewrite elem_of_app. setoid_rewrite list_elem_of_singleton. split.
  - intros h e1 H1. destruct (Hin _ _ H1) as (Hi & Hh & Hmax). split_and!; [by left|done|].
    intros e' [He'| ->] Hh'; [by apply Hmax|]. subst h. rewrite Hh', H1 in Ee. by simplify_eq.
  - intros e1 [He1| ->]; [auto|]. rewrite Ee. eauto.
Qed.

(** The newest binding of a hash in a table. *)
Definition newest_binding t h (i s : Z) : Prop :=
  t !! i = Some (h, s) ∧ forall j s', t !! j = Some (h, s') -> s' <= s.

Lemma elem_of_spec_entries v t e :
  (forall i h s, t !! i = Some (h, s) -> 0 <= i < KVMeta.num_blocks_ v) ->
  e ∈ KVMeta.spec_entries v t <-> t !! KVMeta.entry_block_id e = Some (KVMeta.entry_hash e, KVMeta.entry_seq e).
Proof.
  intros Hr. unfold KVMeta.spec_entries. rewrite list_elem_of_omap. setoid_rewrite elem_of_zrange.
  unfold KVMeta.binding. split.
  - intros (i & Hi & He). destruct (t !! i) as [[h s]|] eqn:Ei; simplify_eq/=. done.
  - intros He. exists (KVMeta.entry_block_id e). split; [apply Hr in He; lia|]. rewrite He. by destruct e.
Qed.

Lemma newest_table n v t h e : table_ok n v t ->
  foldl keep_newest ∅ (KVMeta.spec_entries v t) !! h = Some e <->
  KVMeta.entry_hash e = h ∧ newest_binding t h (KVMeta.entry_block_id e) (KVMeta.entry_seq e).
Proof.
  intros Htok. pose proof (tok_range _ _ _ Htok) as Hr. pose proof (newest_spec (KVMeta.spec_entries v t)) as [Hin Hsome].
  split.
  - intros He. destruct (Hin _ _ He) as (Hi & Hh & Hmax). apply elem_of_spec_entries in Hi; [|done].
    split; [done|]. split; [by rewrite <-Hh|]. intros j s' Hj.
    apply (Hmax (KVMeta.mkEntry j h s')); [|done]. by apply elem_of_spec_entries.
  - intros (Hh & Ht & Hmax).
    assert (Hi : e ∈ KVMeta.spec_entries v t) by (apply elem_of_spec_entries; [done|by rewrite Hh]).
    destruct (Hsome e Hi) as [e' He']. rewrite Hh in He'. rewrite He'. f_equal.
    destruct (Hin _ _ He') as (Hi' & Hh' & Hmax'). apply elem_of_spec_entries in Hi'; [|done]. rewrite Hh' in Hi'.
    specialize (Hmax _ _ Hi'). specialize (Hmax' e Hi Hh).
    assert (Hs : KVMeta.entry_seq e' = KVMeta.entry_seq e) by lia. rewrite Hs in Hi'.
    pose proof (tok_inj _ _ _ Htok _ _ _ _ _ Hi' Ht). destruct e, e'; simpl in *. congruence.
Qed.

(** ** Clearing the stale entries *)

Lemma represents_clear v mem t i :
  KVMeta.represents v mem t -> 0 <= i < KVMeta.num_blocks_ v ->
  KVMeta.represents v (KVMeta.Clear v mem i).2 (delete i t).
Proof.
  intros Hrep Hi. pose proof (KVMeta.apply_op_represents v (KVMeta.OpClear i) mem t Hrep I) as H.
  unfold KVMeta.spec_op in H. simpl in H. rewrite (proj2 (KVMeta.check_block_ok v i) Hi) in H. exact H.
Qed.

Definition stale (newest : gmap Hash KVMeta.Entry) e : Prop :=
  exists kept, newest !! KVMeta.entry_hash e = Some kept ∧ KVMeta.entry_block_id kept ≠ KVMeta.entry_block_id e.

Lemma clear_loop newest v es mem t :
  KVMeta.represents v mem t -> Forall (fun e => 0 <= KVMeta.entry_block_id e < KVMeta.num_blocks_ v) es ->
  exists t', KVMeta.represents v (foldl (clear_stale_entry newest v) mem es) t' ∧
    forall i x, t' !! i = Some x <->
      t !! i = Some x ∧ forall e, e ∈ es -> KVMeta.entry_block_id e = i -> ¬ stale newest e.
Proof.
  intros Hrep Hall. revert mem t Hrep. induction Hall as [|e es He _ IH]; intros mem t Hrep.
  { exists t. split; [done|]. intros i x. split; [intros ?; split; [done|by intros ? ?%elem_of_nil]|by intros [? _]]. }
  cbn [foldl]. setoid_rewrite elem_of_cons. unfold clear_stale_entry at 2.
  assert (Hno : ¬ stale newest e -> exists t', KVMeta.represents v (foldl (clear_stale_entry newest v) mem es) t' ∧
    forall i x, t' !! i = Some x <->
      t !! i = Some x ∧ forall e0, e0 = e ∨ e0 ∈ es -> KVMeta.entry_block_id e0 = i -> ¬ stale newest e0).
  { intros Hn. destruct (IH mem t Hrep) as (t' & Hr' & Ht'). exists t'. split; [done|]. intros i x. rewrite Ht'. naive_solver. }
  destruct (newest !! KVMeta.entry_hash e) as [kept|] eqn:Ek; [|apply Hno; intros (? & ? & _); congruence].
  destruct (negb _) eqn:Eb; to_prop; [|apply Hno; intros (? & ? & Hne); simplify_eq; done].
  destruct (IH _ _ (represents_clear v mem t _ Hrep He)) as (t' & Hr' & Ht'). exists t'. split; [done|].
  intros i x. rewrite Ht', lookup_delete_Some. split.
  - intros [[Hne Hi] Hall']. split; [done|]. intros e0 [-> |H0]; [done|by apply Hall'].
  - intros [Hi Hall']. split; [split; [|done]|naive_solver]. intros <-. apply (Hall' e); [by left|done|]. by exists kept.
Qed.

(** ** Recovery *)

Lemma put_all_values items c k :
  LRU.wf c -> (forall x, LRU.GetPinCount x c = 0) -> (0 < LRU.capacity_ c)%nat -> NoDup items.*1 ->
  LRU.PeekIncludingCandidates k (put_all items c) =
  match (list_to_map items : gmap Hash RaidenBlockId) !! k with
  | Some blk => Some blk | None => LRU.PeekIncludingCandidates k c end.
Proof.
  revert c. induction items as [|[h blk] items IH]; intros c Hwf Hz Hcap Hnd; [done|].
  apply NoDup_cons in Hnd as [Hni Hnd].
  change (put_all ((h, blk) :: items) c) with (put_all items (LRU.Put h blk c).2).
  assert (Hp : LRU.pinned_list_ c = []).
  { destruct (LRU.pinned_list_ c) as [|x l] eqn:E; [done|]. specialize (Hz x).
    assert (0 < LRU.GetPinCount x c) by (apply elem_of_pinned; [done|]; rewrite E; by left). lia. }
  rewrite IH; [|by apply LRU.Put_wf|intros x; by rewrite LRU.Put_pins| |done].
  - rewrite LRU.Put_value by (done || (rewrite Hp; done)). simpl. rewrite lookup_insert.
    destruct (decide (k = h)) as [->|].
    + rewrite decide_True by done.
      assert ((list_to_map items : gmap Hash RaidenBlockId) !! h = None) as -> by (by apply not_elem_of_list_to_map_1).
      done.
    + by rewrite decide_False by congruence.
  - pose proof (LRU.apply_op_capacity (LRU.OpPut h blk) c) as E. cbn [LRU.apply_op] in E. by rewrite E.
Qed.

Lemma recoverable_nodup (newest : gmap Hash KVMeta.Entry) es :
  (forall h e, newest !! h = Some e -> KVMeta.entry_hash e = h) -> es ≡ₚ (map_to_list newest).*2 ->
  NoDup (KVMeta.entry_hash <$> es) ∧ (forall e, e ∈ es <-> newest !! KVMeta.entry_hash e = Some e).
Proof.
  intros Hh Hp.
  assert (Hfst : KVMeta.entry_hash <$> (map_to_list newest).*2 = (map_to_list newest).*1).
  { rewrite <-list_fmap_compose. apply list_fmap_ext. intros i [h e] Hi. simpl.
    apply Hh, elem_of_map_to_list. by eapply list_elem_of_lookup_2. }
  split.
  - rewrite Hp, Hfst. apply NoDup_fst_map_to_list.
  - intros e. rewrite Hp, list_elem_of_fmap. split.
    + intros ([h e'] & -> & Hi%elem_of_map_to_list). simpl. by rewrite (Hh _ _ Hi).
    + intros He. exists (KVMeta.entry_hash e, e). split; [done|]. by apply elem_of_map_to_list.
Qed.

Lemma AllocateTarget_allocated m ids j : LBM.wf m -> LBM.target_ok m ids ->
  LBM.IsAllocated (LBM.AllocateTarget m ids).2 j = LBM.IsAllocated m j || bool_decide (j ∈ ids).
Proof.
  intros Hwf Hok. destruct (LBM.AllocateTarget_branches m ids) as [H _]. rewrite (H Hok). cbn [snd].
  unfold LBM.IsAllocated. cbn [LBM.total_blocks_ LBM.blocks_]. destruct Hok as [_ Hok].
  assert (Hin : j ∈ ids -> LBM.in_range m j).
  { intros Hj. rewrite Forall_forall in Hok. by apply Hok. }
  destruct ((j <? 0) || (LBM.total_blocks_ m <=? j)) eqn:E; to_prop.
  - rewrite bool_decide_eq_false_2; [done|]. intros Hj%Hin. unfold LBM.in_range in Hj. lia.
  - rewrite LBM.upd_block; [|done| |lia].
    + case_decide; [rewrite bool_decide_eq_true_2 by done; by rewrite orb_true_r|].
      by rewrite bool_decide_eq_false_2, orb_false_r.
    + eapply Forall_impl; [exact Hok|]. intros i [Hi _]. unfold LBM.in_range in Hi. rewrite LBM.wf_length_Z by done. lia.
Qed.

Definition recoverable v t : list KVMeta.Entry :=
  sort_by seq_less (map_to_list (foldl keep_newest ∅ (KVMeta.spec_entries v t))).*2.

Lemma elem_of_recoverable n v t e : table_ok n v t ->
  e ∈ recoverable v t <->
  newest_binding t (KVMeta.entry_hash e) (KVMeta.entry_block_id e) (KVMeta.entry_seq e).
Proof.
  intros Htok. unfold recoverable.
  destruct (recoverable_nodup (foldl keep_newest ∅ (KVMeta.spec_entries v t))
    (sort_by seq_less (map_to_list (foldl keep_newest ∅ (KVMeta.spec_entries v t))).*2)) as [_ ->].
  - intros h e' He'. by apply (newest_table n) in He' as [? _].
  - apply sort_by_perm.
  - rewrite (newest_table n) by done. naive_solver.
Qed.
Lemma NoDup_recoverable n v t : table_ok n v t -> NoDup (KVMeta.entry_hash <$> recoverable v t).
Proof.
  intros Htok. apply (recoverable_nodup (foldl keep_newest ∅ (KVMeta.spec_entries v t))).
  - intros h e' He'. by apply (newest_table n) in He' as [? _].
  - apply sort_by_perm.
Qed.

(** What the stale-entry loop keeps. *)
Lemma recover_table n v mem t :
  KVMeta.represents v mem t -> table_ok n v t ->
  let newest := foldl keep_newest ∅ (KVMeta.spec_entries v t) in
  exists t', KVMeta.represents v (foldl (clear_stale_entry newest v) mem (KVMeta.spec_entries v t)) t' ∧
    forall i h s, t' !! i = Some (h, s) <-> newest_binding t h i s.
Proof.
  intros Hrep Htok newest. pose proof (tok_range _ _ _ Htok) as Hr.
  destruct (clear_loop newest v (KVMeta.spec_entries v t) mem t Hrep) as (t' & Hr' & Ht').
  { apply Forall_forall. intros e He%elem_of_spec_entries; eauto. }
  exists t'. split; [done|]. intros i h s. rewrite Ht'. split.
  - intros [Hi Hn]. assert (He : KVMeta.mkEntry i h s ∈ KVMeta.spec_entries v t) by (by apply elem_of_spec_entries).
    destruct (proj2 (newest_spec (KVMeta.spec_entries v t)) _ He) as [kept Hk]. simpl in Hk.
    assert (Hb : KVMeta.entry_block_id kept = i).
    { destruct (decide (KVMeta.entry_block_id kept = i)) as [|Hne]; [done|]. exfalso.
      apply (Hn _ He eq_refl). by exists kept. }
    apply (newest_table n) in Hk as (_ & Hk); [|done]. rewrite Hb in Hk.
    replace s with (KVMeta.entry_seq kept); [done|]. destruct Hk as [Hk _]. congruence.
  - intros Hnb. split; [by destruct Hnb|]. intros e He Hb (kept & Hk & Hne).
    apply elem_of_spec_entries in He; [|done]. rewrite Hb in He.
    assert (Hk' : newest !! h = Some (KVMeta.mkEntry i h s)) by (by apply (newest_table n)).
    destruct Hnb as [Hnb _]. rewrite Hnb in He. injection He as Hh Hs. rewrite <-Hh, Hk' in Hk. by simplify_eq/=.
Qed.

Definition max_seq es : Z := foldl Z.max 0 (KVMeta.entry_seq <$> es).
Lemma foldl_max l a : a <= foldl Z.max a l ∧ (forall x, x ∈ l -> x <= foldl Z.max a l) ∧
  (foldl Z.max a l = a ∨ foldl Z.max a l ∈ l).
Proof.
  revert a. induction l as [|y l IH]; intros a; simpl; [split_and!; [lia|by intros x ?%elem_of_nil|by left]|].
  destruct (IH (Z.max a y)) as (H1 & H2 & H3). split_and!; [lia| |].
  - intros x [->|Hx]%elem_of_cons; [lia|auto].
  - rewrite elem_of_cons. destruct H3 as [H3|H3]; [|auto]. lia.
Qed.
Lemma max_seq_range n v t : table_ok n v t -> t ≠ ∅ ->
  max_seq (recoverable v t) < n ∧ forall i h s, newest_binding t h i s -> s <= max_seq (recoverable v t).
Proof.
  intros Htok Hne. unfold max_seq. destruct (foldl_max (KVMeta.entry_seq <$> recoverable v t) 0) as (H0 & Hall & Hin).
  split.
  - destruct Hin as [E|Hin].
    + rewrite E. apply map_choose in Hne as (i & [h s] & Hi). apply (tok_seq _ _ _ Htok) in Hi. lia.
    + apply list_elem_of_fmap in Hin as (e & -> & [He _]%(elem_of_recoverable n)); [|done].
      apply (tok_seq _ _ _ Htok) in He. lia.
  - intros i h s Hnb. apply Hall, list_elem_of_fmap. exists (KVMeta.mkEntry i h s). split; [done|].
    by apply (elem_of_recoverable n).
Qed.

Lemma recover_cases n b m v mem t :
  metadata_ b = Some (v, mem) -> KVMeta.represents v mem t -> table_ok n v t ->
  let es := recoverable v t in
  let r := RecoverFromLocalManifest b m in
  (t = ∅ ∧ r = (Ok 0, b, m)) ∨
  (t ≠ ∅ ∧ ¬ LBM.target_ok m (KVMeta.entry_block_id <$> es) ∧ ok r.1.1 = false ∧ r.1.2 = b ∧ r.2 = m) ∨
  (t ≠ ∅ ∧ LBM.target_ok m (KVMeta.entry_block_id <$> es) ∧ exists mem' t',
     r = (Ok (Z.of_nat (length es)),
          with_lru (put_all ((fun e => (KVMeta.entry_hash e, recovered_block b e)) <$> es) (lru_cache_ b))
            (with_metadata (Some (v, mem')) (u64 (max_seq es + 1)) b),
          (LBM.AllocateTarget m (KVMeta.entry_block_id <$> es)).2) ∧
     KVMeta.represents v mem' t' ∧ forall i h s, t' !! i = Some (h, s) <-> newest_binding t h i s).
Proof.
  intros Hm Hrep Htok es r. unfold r, RecoverFromLocalManifest. rewrite Hm, (KVMeta.represents_entries v mem t Hrep).
  destruct (decide (t = ∅)) as [->|Hne].
  - left. split; [done|]. destruct (KVMeta.spec_entries v ∅) as [|e l] eqn:E; [done|].
    assert (He : e ∈ KVMeta.spec_entries v ∅) by (rewrite E; by left).
    apply elem_of_spec_entries in He; [done|done].
  - right. destruct (recover_table n v mem t Hrep Htok) as (t' & Hr' & Ht').
    destruct (KVMeta.spec_entries v t) as [|e0 l] eqn:E.
    { exfalso. apply map_choose in Hne as (i & [h s] & Hi).
      assert (He : KVMeta.mkEntry i h s ∈ KVMeta.spec_entries v t).
      { apply elem_of_spec_entries; [apply (tok_range _ _ _ Htok)|done]. }
      rewrite E in He. by apply elem_of_nil in He. }
    cbv iota. rewrite <-E in *. fold (recoverable v t). fold es.
    destruct (LBM.AllocateTarget_branches m (KVMeta.entry_block_id <$> es)) as [Hok Hbad].
    destruct (decide (LBM.target_ok m (KVMeta.entry_block_id <$> es))) as [Ht|Ht].
    + right. split_and!; [done|done|]. eexists _, t'. rewrite (Hok Ht). split_and!; [|exact Hr'|exact Ht'].
      unfold put_all, max_seq. by rewrite !foldl_fmap.
    + left. specialize (Hbad Ht) as [Hb1 Hb2]. split_and!; [done|done|..];
        destruct (LBM.AllocateTarget m _) as [[] m']; simpl in *; congruence.
Qed.

Lemma recover_targets n v t m : table_ok n v t ->
  (forall i h s, newest_binding t h i s -> LBM.in_range m i ∧ LBM.IsAllocated m i = false) ->
  LBM.target_ok m (KVMeta.entry_block_id <$> recoverable v t).
Proof.
  intros Htok Hfree. split.
  - apply NoDup_fmap_2_strong.
    + intros e e' He%(elem_of_recoverable n) He'%(elem_of_recoverable n) Heq; [|done..].
      destruct He as [He _], He' as [He' _]. destruct e, e'; simpl in *. subst. congruence.
    + eapply (NoDup_fmap_1 KVMeta.entry_hash), NoDup_recoverable, Htok.
  - apply Forall_fmap, Forall_forall. intros e He%(elem_of_recoverable n); [|done]. simpl.
    destruct (Hfree _ _ _ He) as [Hr Ha]. split; [done|]. by rewrite <-LBM.IsAllocated_in_range.
Qed.

Lemma recovered_index n v t b cap h blk : table_ok n v t -> (0 < cap)%nat ->
  LRU.PeekIncludingCandidates h
    (put_all ((fun e => (KVMeta.entry_hash e, recovered_block b e)) <$> recoverable v t) (LRU.create cap))
  = Some blk <->
  exists i s, newest_binding t h i s ∧ blk = host_block (raiden_id_ b) i HOST.
Proof.
  intros Htok Hcap. set (items := _ <$> recoverable v t).
  assert (Hnd : NoDup items.*1).
  { unfold items. rewrite <-list_fmap_compose. by apply (NoDup_recoverable n). }
  rewrite put_all_values; [|apply LRU.create_wf|done|done|done].
  assert (Hin : (list_to_map items : gmap Hash RaidenBlockId) !! h = Some blk <->
            exists i s, newest_binding t h i s ∧ blk = host_block (raiden_id_ b) i HOST).
  { rewrite <-elem_of_list_to_map by done. unfold items. rewrite list_elem_of_fmap. split.
    - intros (e & [= -> ->] & He%(elem_of_recoverable n)); eauto.
    - intros (i & s & Hnb & ->). exists (KVMeta.mkEntry i h s). split; [done|]. by apply (elem_of_recoverable n). }
  rewrite <-Hin. by destruct (_ !! h).
Qed.

Lemma recovered_size n v t b cap : table_ok n v t -> (0 < cap)%nat ->
  LRU.size (put_all ((fun e => (KVMeta.entry_hash e, recovered_block b e)) <$> recoverable v t) (LRU.create cap))
  = length (recoverable v t).
Proof.
  intros Htok Hcap. unfold LRU.size. rewrite <-(length_fmap KVMeta.entry_hash), <-size_dom.
  rewrite <-(size_list_to_set (C := gset Hash)) by (by apply (NoDup_recoverable n)). f_equal.
  apply set_eq. intros h. rewrite elem_of_dom, elem_of_list_to_set, list_elem_of_fmap. split.
  - intros Hs%(fmap_is_Some LRU.value). destruct Hs as [blk (i & s & Hnb & _)%(recovered_index n)]; [|done..].
    exists (KVMeta.mkEntry i h s). split; [done|]. by apply (elem_of_recoverable n).
  - intros (e & -> & He%(elem_of_recoverable n)); [|done]. apply (fmap_is_Some LRU.value).
    exists (host_block (raiden_id_ b) (KVMeta.entry_block_id e) HOST). apply (recovered_index n); eauto.
Qed.

(** C26: Recovery restores the newest bindings.  A restarted backend over a table whose
    bindings have distinct sequence numbers, with the listed blocks free, indexes
    exactly the hashes of the table, each at the host block of its newest binding;
    it returns how many those are, takes exactly their blocks from the controller,
    clears every older binding of the same hash from the table, and resumes the
    sequence above every binding that is left. *)
Theorem backend_recovery n cap b m v mem t :
  lru_cache_ b = LRU.create cap -> (0 < cap)%nat -> metadata_ b = Some (v, mem) ->
  KVMeta.represents v mem t -> table_ok n v t -> n < 2 ^ 64 -> LBM.wf m ->
  (forall i h s, newest_binding t h i s -> LBM.in_range m i ∧ LBM.IsAllocated m i = false) ->
  let '(r, b', m') := RecoverFromLocalManifest b m in
  r = Ok (Z.of_nat (LRU.size (lru_cache_ b'))) ∧
  (forall h blk, LRU.PeekIncludingCandidates h (lru_cache_ b') = Some blk <->
     exists i s, newest_binding t h i s ∧ blk = host_block (raiden_id_ b) i HOST) ∧
  (exists mem' t', metadata_ b' = Some (v, mem') ∧ KVMeta.represents v mem' t' ∧
     table_ok (next_metadata_seq_ b') v t' ∧ forall i h s, t' !! i = Some (h, s) <-> newest_binding t h i s) ∧
  (forall j, LBM.IsAllocated m' j = true <-> LBM.IsAllocated m j = true ∨ exists h s, newest_binding t h j s).
Proof.
  intros Hlru Hcap Hm Hrep Htok Hn Hwf Hfree.
  destruct (recover_cases n b m v mem t Hm Hrep Htok) as [(-> & ->)|[(_ & Hbad & _)|(Hne & Htgt & mem' & t' & -> & Hr' & Ht')]].
  - rewrite Hlru. unfold newest_binding. split_and!; [done| | |].
    + intros h blk. unfold LRU.PeekIncludingCandidates. simpl. rewrite lookup_empty. split; [done|].
      intros (i & s & [Hi _] & _). done.
    + exists mem, ∅. split_and!; [done|done|by split|]. intros i h s. split; [done|]. by intros [? _].
    + intros j. split; [by left|]. intros [?|(h & s & [? _])]; done.
  - by destruct Hbad; apply (recover_targets n).
  - pose proof (max_seq_range n v t Htok Hne) as [Hmax Hle].
    assert (H0 : 0 <= max_seq (recoverable v t)) by (apply (proj1 (foldl_max _ 0))).
    rewrite Hlru. cbn [lru_cache_ with_lru metadata_ with_metadata next_metadata_seq_].
    pose proof (recovered_index n v t b cap) as Hidx. split_and!.
    + by rewrite (recovered_size n).
    + intros h blk. by apply Hidx.
    + exists mem', t'. split_and!; [done|done| |done]. unfold u64. rewrite Z.mod_small by lia. split.
      * intros i h s [Hi _]%Ht'. by apply (tok_range _ _ _ Htok) in Hi.
      * intros i h s Hi%Ht'. pose proof (Hle _ _ _ Hi). destruct Hi as [Hi%(tok_seq _ _ _ Htok) _]. lia.
      * intros i j h h' s [Hi _]%Ht' [Hj _]%Ht'. by eapply (tok_inj _ _ _ Htok).
    + intros j. rewrite AllocateTarget_allocated by done. rewrite orb_true_iff, bool_decide_eq_true.
      rewrite list_elem_of_fmap. split; (intros [?|Hj]; [by left|right]).
      * destruct Hj as (e & -> & He%(elem_of_recoverable n)); eauto.
      * destruct Hj as (h & s & Hnb). exists (KVMeta.mkEntry j h s). split; [done|]. by apply (elem_of_recoverable n).
Qed.

(** ** Every operation keeps the invariant *)

(** The entries an operation may write. *)
Definition op_writes (o : Op) : nat :=
  match o with
  | OpInsert hashes _ | OpInsertAndLock hashes _ | OpInsertAllOrNothing hashes _ => length hashes
  | _ => 0
  end.
(** Hashes are strings of bytes. *)
Definition op_typed (o : Op) : Prop :=
  match o with
  | OpInsert hashes _ | OpInsertAndLock hashes _ | OpInsertAllOrNothing hashes _ =>
      Forall (Forall is_byte) hashes
  | _ => True
  end.

Lemma bounded_insert_all s hs slices : Forall (Forall is_byte) hs ->
  bounded (length hs) (ins_backend s) (ins_backend (insert_all s hs slices)).
Proof.
  intros Hall. revert s slices. induction Hall as [|h hs Hh _ IH]; intros s slices; [apply bounded_refl|].
  cbn [insert_all length]. apply (bounded_trans 1 (length hs) _ (ins_backend (insert_one s h (head slices)))); [|apply IH].
  unfold insert_one. destruct (LRU.Contains _ _).
  - destruct (head slices) as [blk|]; [|apply bounded_refl]. cbn [ins_backend].
    destruct (LRU.PeekMutable _ _); [|apply bounded_refl].
    apply (bounded_trans 0 1 _ (assign h blk (ins_backend s))); [apply bounded_lru|by apply bounded_Set].
  - cbn [ins_backend]. set (b1 := match metadata_ _ with Some _ => _ | None => _ end).
    assert (H1 : bounded 0 (ins_backend s) b1) by (unfold b1; case_match; [apply bounded_ClearStale|apply bounded_refl]).
    apply (bounded_trans 0 1 _ b1); [exact H1|]. unfold put. cbn [fst snd].
    apply (bounded_trans 0 1 _ (with_lru (LRU.Put h (default default_block (head slices)) (lru_cache_ b1)).2 b1));
      [apply bounded_lru|]. destruct (head slices); [by apply bounded_Set|apply bounded_refl].
Qed.

Lemma bounded_rebind h slice b : Forall is_byte h -> bounded 1 b (rebind h slice b).
Proof.
  intros Hh. unfold rebind. destruct slice as [blk|]; [|apply bounded_refl].
  destruct (LRU.PeekMutable _ _) as [old|]; [|apply bounded_refl]. case_bool_decide; [|apply bounded_refl].
  apply (bounded_trans 0 1 _ (ClearMetadataEntry old b)); [apply bounded_Clear|].
  apply (bounded_trans 0 1 _ (assign h blk (ClearMetadataEntry old b))); [apply bounded_lru|by apply bounded_Set].
Qed.

Lemma bounded_pin_existing pinned (items : list Item) b : Forall (Forall is_byte) items.*1 ->
  bounded (length items) b (pin_existing pinned items b).2.
Proof.
  revert pinned b. induction items as [|[h slice] items IH]; intros pinned b Hall; [apply bounded_refl|].
  cbn [fmap list_fmap fst] in Hall. apply Forall_cons in Hall as [Hh Hall]. cbn [pin_existing].
  destruct (negb _).
  - apply (bounded_le 0); [lia|]. cbn [snd].
    apply (bounded_trans 0 0 _ (with_lru (LRU.Pin h (lru_cache_ b)).2 b)); [apply bounded_lru|apply bounded_unpin_loop].
  - apply (bounded_trans 0 (S (length items)) _ (with_lru (LRU.Pin h (lru_cache_ b)).2 b)); [apply bounded_lru|].
    apply (bounded_trans 1 (length items) _ (rebind h slice (with_lru (LRU.Pin h (lru_cache_ b)).2 b)));
      [by apply bounded_rebind|by apply IH].
Qed.

Lemma bounded_put_new (item : Item) b : Forall is_byte item.1 -> bounded 1 b (put_new b item).
Proof.
  destruct item as [h slice]. intros Hh. unfold put_new.
  set (b1 := match metadata_ _ with Some _ => _ | None => _ end).
  assert (H1 : bounded 0 b b1) by (unfold b1; case_match; [apply bounded_ClearStale|apply bounded_refl]).
  apply (bounded_trans 0 1 _ b1); [exact H1|]. destruct slice as [blk|].
  - apply (bounded_trans 0 1 _ (put h blk b1).2); [apply bounded_lru|by apply bounded_Set].
  - apply (bounded_le 0); [lia|apply bounded_lru].
Qed.

Lemma bounded_pin_new existing new pinned (items : list Item) b :
  bounded 0 b (pin_new existing new pinned items b).2.
Proof.
  revert pinned b. induction items as [|[h slice] items IH]; intros pinned b; [apply bounded_refl|].
  cbn [pin_new]. apply (bounded_trans 0 0 _ (with_lru (LRU.Pin h (lru_cache_ b)).2 b)); [apply bounded_lru|].
  destruct (negb _); [|apply IH]. cbn [snd].
  eapply (bounded_trans 0 0); [apply bounded_unpin_loop|].
  eapply (bounded_trans 0 0); [apply bounded_unpin_loop|apply bounded_erase_loop].
Qed.

Lemma bounded_InsertAndLock hs slices b : Forall (Forall is_byte) hs ->
  bounded (length hs) b (InsertAndLock hs slices b).2.
Proof.
  intros Hall. unfold InsertAndLock. set (items := with_slices hs slices).
  set (ex := filter (fun i : Item => LRU.Contains (lru_cache_ b) i.1 = true) items).
  set (nw := filter (fun i : Item => LRU.Contains (lru_cache_ b) i.1 = false) items).
  assert (Hty : Forall (fun i : Item => Forall is_byte i.1) items).
  { rewrite <-(with_slices_hashes hs slices) in Hall. apply Forall_forall. intros i Hi.
    apply (proj1 (Forall_forall _ _) Hall), list_elem_of_fmap. eauto. }
  assert (Hlen : (length ex + length nw <= length hs)%nat).
  { rewrite <-(with_slices_hashes hs slices) at 1. rewrite length_fmap. fold items. unfold ex, nw.
    clear. induction items as [|i l IH]; [done|]. rewrite !filter_cons.
    destruct (LRU.Contains (lru_cache_ b) i.1); simpl; lia. }
  assert (Hex : Forall (Forall is_byte) ex.*1).
  { apply Forall_fmap, Forall_forall. intros i [_ Hi]%list_elem_of_filter. by apply (proj1 (Forall_forall _ _) Hty). }
  apply (bounded_le (length ex + length nw)); [done|].
  pose proof (bounded_pin_existing [] ex b) as Hpe. destruct (pin_existing [] ex b) as [[|] b1]; cbn [snd] in *.
  2: { apply (bounded_le (length ex)); [lia|]. by apply Hpe. }
  apply (bounded_trans _ _ _ b1); [by apply Hpe|].
  destruct (_ <? _)%nat; [apply (bounded_le 0); [lia|apply bounded_unpin_loop]|].
  apply (bounded_le (length nw + 0)); [lia|].
  apply (bounded_trans _ _ _ (foldl put_new b1 (reverse nw))); [|apply bounded_pin_new].
  apply (bounded_le (1 * length (reverse nw))); [rewrite length_reverse; lia|]. apply bounded_foldl.
  intros b' i Hi. apply bounded_put_new. rewrite elem_of_reverse in Hi. apply list_elem_of_filter in Hi as [_ Hi].
  by apply (proj1 (Forall_forall _ _) Hty).
Qed.

Lemma bounded_pin_all pinned hs b : bounded 0 b (pin_all pinned hs b).2.
Proof.
  revert pinned b. induction hs as [|h hs IH]; intros pinned b; [apply bounded_refl|]. cbn [pin_all].
  apply (bounded_trans 0 0 _ (with_lru (LRU.Pin h (lru_cache_ b)).2 b)); [apply bounded_lru|].
  destruct (negb _); [apply bounded_unpin_loop|apply IH].
Qed.

Lemma bounded_insert_batch inserted items b : Forall (fun i : Hash * RaidenBlockId => Forall is_byte i.1) items ->
  bounded (length items) b (insert_batch inserted items b).2.
Proof.
  revert inserted b. induction items as [|[h blk] items IH]; intros inserted b Hall; [apply bounded_refl|].
  apply Forall_cons in Hall as [Hh Hall]. cbn [insert_batch].
  apply (bounded_trans 0 (S (length items)) _ (put h blk b).2); [apply bounded_lru|]. case_match.
  - apply (bounded_trans 1 (length items) _ (SetMetadataEntry h blk (put h blk b).2)); [by apply bounded_Set|by apply IH].
  - apply (bounded_le (0 * length inserted)); [lia|]. apply (bounded_foldl (flip erase)). intros. apply bounded_lru.
Qed.

Lemma bounded_recover b m : bounded 0 b (RecoverFromLocalManifest b m).1.2.
Proof.
  destruct (metadata_ b) as [[v mem]|] eqn:Em.
  2: { unfold RecoverFromLocalManifest. rewrite Em. apply bounded_refl. }
  intros Hinv _.
  destruct (mi_table _ Hinv v mem Em) as (t & Hrep & Htok).
  destruct (recover_cases _ b m v mem t Em Hrep Htok)
    as [(_ & ->)|[(_ & _ & _ & -> & _)|(Hne & _ & mem' & t' & -> & Hr' & Ht')]];
    [by split_and!; [|simpl; lia|]..|].
  pose proof (max_seq_range _ v t Htok Hne) as [Hmax Hle]. pose proof (mi_seq _ Hinv) as Hseq.
  assert (H0 : 0 <= max_seq (recoverable v t)) by (apply (proj1 (foldl_max _ 0))).
  cbn [fst snd]. unfold u64. rewrite Z.mod_small by lia.
  split_and!; [|simpl; lia|simpl; by rewrite Em]. split; [simpl; lia|].
  intros v' mem2 [= <- <-]. exists t'. split; [done|]. cbn [next_metadata_seq_ with_lru with_metadata]. split.
  - intros i h s [Hi _]%Ht'. by apply (tok_range _ _ _ Htok) in Hi.
  - intros i h s Hi%Ht'. pose proof (Hle _ _ _ Hi). destruct Hi as [Hi%(tok_seq _ _ _ Htok) _]. lia.
  - intros i j h h' s [Hi _]%Ht' [Hj _]%Ht'. by eapply (tok_inj _ _ _ Htok).
Qed.

Lemma bounded_release_delete hs z b : bounded 0 b (foldl release_delete (z, b) hs).2.
Proof.
  revert z b. induction hs as [|h hs IH]; intros z b; [apply bounded_refl|]. cbn [foldl].
  assert (Hs : exists z' b', release_delete (z, b) h = (z', b') ∧ bounded 0 b b').
  { unfold release_delete. repeat case_match; eexists _, _; (split; [done|]);
      first [apply bounded_refl|apply bounded_lru]. }
  destruct Hs as (z' & b' & -> & Hb). by apply (bounded_trans 0 0 _ b').
Qed.

Lemma bounded_delete hs ds b : bounded 0 b (foldl delete_one (ds, b) hs).2.
Proof.
  revert ds b. induction hs as [|h hs IH]; intros ds b; [apply bounded_refl|]. cbn [foldl].
  unfold delete_one at 2. destruct (0 <? _); [apply IH|].
  eapply (bounded_trans 0 0); [apply (bounded_erase_loop [h])|apply IH].
Qed.

Lemma bounded_evict hs s : bounded 0 (ev_backend s) (ev_backend (foldl evict_one s hs)).
Proof.
  revert s. induction hs as [|h hs IH]; intros s; [apply bounded_refl|]. cbn [foldl].
  eapply (bounded_trans 0 0); [|apply IH]. unfold evict_one. repeat case_match; try apply bounded_refl.
  cbn [ev_backend]. eapply (bounded_trans 0 0); [apply bounded_Clear|apply bounded_lru].
Qed.

Lemma apply_op_bounded o b : op_typed o -> bounded (op_writes o) b (apply_op o b).
Proof.
  intros Hty. destruct o as [hs opts|p r|hs sl|hs sl|hs|hs|hs|hs|order ids|hs|hs sl|hs|m]; cbn [apply_op op_writes].
  - unfold LookupSweep. destruct (sweep opts hs _) as [[? ?] c']. apply bounded_lru.
  - unfold LookupAssemble. cbn [snd]. destruct (pin_found _); [apply bounded_lru|apply bounded_refl].
  - by apply (bounded_insert_all (mkInsert b true [] [])).
  - by apply bounded_InsertAndLock.
  - unfold ReleaseAndDelete. apply (bounded_trans 0 0 _ (foldl (flip unpin) b (reverse hs))); [apply bounded_unpin_loop|].
    apply bounded_release_delete.
  - unfold Delete. pose proof (bounded_delete hs [] b) as H. by destruct (foldl delete_one ([], b) hs).
  - apply bounded_pin_all.
  - apply bounded_unpin_loop.
  - unfold ValidateAndPinHostBlocks. case_match; [apply bounded_pin_all|apply bounded_refl].
  - apply (bounded_evict hs (mkEvict [] [] b)).
  - unfold InsertAllOrNothing. repeat case_match; try apply bounded_refl.
    apply (bounded_le (length (zip hs sl))); [rewrite length_zip; lia|]. apply bounded_insert_batch.
    apply Forall_forall. intros [h blk] Hi%elem_of_zip_l. by apply (proj1 (Forall_forall _ _) Hty).
  - apply bounded_erase_loop.
  - apply bounded_recover.
Qed.

Definition writes (ops : list Op) : nat := sum_list (op_writes <$> ops).

Lemma run_bounded ops b : Forall op_typed ops -> bounded (writes ops) b (run ops b).
Proof.
  intros Hall. revert b. induction Hall as [|o ops Ho _ IH]; intros b; [apply bounded_refl|].
  unfold writes. cbn [fmap list_fmap sum_list run foldl].
  apply (bounded_trans _ _ _ (apply_op o b)); [by apply apply_op_bounded|apply IH].
Qed.

(** Every reachable state of a backend over a freshly formatted table is well
    formed, whatever sequence of critical sections ran (fewer than 2^64 entries
    written): the cache satisfies its invariant, and the bytes of the table are the
    image of a map whose bindings are in range and carry distinct sequence numbers
    below the counter, so that the newest binding of a hash is unique. *)
Theorem backend_reachable_inv cap region nb uid pad v mem id registry group ops :
  KVMeta.Format region nb uid pad = (Ok v, mem) -> in_int32 nb ->
  Forall op_typed ops -> Z.of_nat (writes ops) < 2 ^ 64 ->
  let b := run ops (create cap (Some (v, mem)) id registry group) in
  LRU.wf (lru_cache_ b) ∧
  exists mem' t, metadata_ b = Some (v, mem') ∧ KVMeta.represents v mem' t ∧ table_ok (next_metadata_seq_ b) v t.
Proof.
  intros Hf Hn Hty Hlt b. split; [apply backend_run_wf, LRU.create_wf|].
  apply KVMeta.format_region in Hf as (-> & _ & _ & _ & Hrep); [|done].
  destruct (run_bounded ops (create cap (Some (KVMeta.view nb, mem)) id registry group) Hty) as (Hinv & _ & Hfst).
  - split; [simpl; lia|]. intros v' mem' [= <- <-]. exists ∅. split; [done|]. by split.
  - simpl. lia.
  - fold b in Hinv, Hfst. destruct (metadata_ b) as [[v' mem']|] eqn:Em; [|done]. injection Hfst as ->.
    destruct (mi_table _ Hinv _ _ Em) as (t & Hr & Ht). eauto.
Qed.

(** ** Eviction *)

(** An entry [Evict] may take: unpinned and resident in host memory. *)
Definition evictable c h : bool :=
  match LRU.map_ c !! h with
  | Some n => (LRU.pin_count n =? 0) && on_host (LRU.value n)
  | None => false
  end.
Definition host_id_of c h : Z :=
  match LRU.map_ c !! h with Some n => host_block_id (LRU.value n) | None => -1 end.

Lemma Erase_map c h k : LRU.GetPinCount h c = 0 -> is_Some (LRU.map_ c !! h) ->
  LRU.map_ (LRU.Erase h c).2 !! k = if decide (k = h) then None else LRU.map_ c !! k.
Proof.
  unfold LRU.GetPinCount, LRU.Erase. intros Hp [n Hn]. rewrite Hn in *. rewrite Hp. simpl.
  rewrite lookup_delete. case_decide; subst; case_decide; try done. by destruct (LRU.location n).
Qed.

(** The table of a backend, with bindings of its blocks only. *)
Definition has_table b v t : Prop :=
  exists mem, metadata_ b = Some (v, mem) ∧ KVMeta.represents v mem t ∧
    forall i x, t !! i = Some x -> 0 <= i < KVMeta.num_blocks_ v.

Lemma ClearMetadataEntry_table blk b v t : on_host blk = true -> has_table b v t ->
  exists t', has_table (ClearMetadataEntry blk b) v t' ∧
    forall i x, t' !! i = Some x <-> t !! i = Some x ∧ i ≠ host_block_id blk.
Proof.
  intros Hon (mem & Hm & Hrep & Hr). unfold ClearMetadataEntry. rewrite Hm, Hon. cbn [negb].
  set (id := host_block_id blk).
  exists (KVMeta.spec_op v (KVMeta.OpClear id) t).
  assert (Hiff : forall i x, KVMeta.spec_op v (KVMeta.OpClear id) t !! i = Some x <-> t !! i = Some x ∧ i ≠ id).
  { intros i x. unfold KVMeta.spec_op. cbn [KVMeta.op_status]. destruct (ok (KVMeta.check_block v id)) eqn:E.
    - rewrite lookup_delete_Some. naive_solver.
    - split; [|by intros [? _]]. intros Hi. split; [done|]. intros ->. apply Hr in Hi.
      apply KVMeta.check_block_ok in Hi. congruence. }
  split; [|exact Hiff]. exists (KVMeta.Clear v mem id).2. split_and!; [done| |].
  - by apply (KVMeta.apply_op_represents v (KVMeta.OpClear id)).
  - intros i x [Hi _]%Hiff. eauto.
Qed.

(** The state after evicting along a list of hashes. *)
Record evicted_to b (hashes : list Hash) (s : EvictState) : Prop := {
  et_wf : LRU.wf (lru_cache_ (ev_backend s));
  et_nodup : NoDup (ev_hashes s);
  et_elem h : h ∈ ev_hashes s <-> h ∈ hashes ∧ evictable (lru_cache_ b) h = true;
  et_ids : ev_ids s = host_id_of (lru_cache_ b) <$> ev_hashes s;
  et_map k : LRU.map_ (lru_cache_ (ev_backend s)) !! k =
    if decide (k ∈ ev_hashes s) then None else LRU.map_ (lru_cache_ b) !! k;
  et_id : raiden_id_ (ev_backend s) = raiden_id_ b ∧ registry_client_ (ev_backend s) = registry_client_ b;
  et_table v t : has_table b v t -> exists t', has_table (ev_backend s) v t' ∧
    forall i x, t' !! i = Some x <-> t !! i = Some x ∧ i ∉ ev_ids s
}.

Lemma ClearMetadataEntry_frame blk b :
  raiden_id_ (ClearMetadataEntry blk b) = raiden_id_ b ∧ registry_client_ (ClearMetadataEntry blk b) = registry_client_ b.
Proof. unfold ClearMetadataEntry. repeat case_match; done. Qed.

Lemma evict_one_step b hs s h : evicted_to b hs s -> evicted_to b (hs ++ [h]) (evict_one s h).
Proof.
  intros [Hwf Hnd Helem Hids Hmap Hid Htab]. unfold evict_one, LRU.PeekIncludingCandidates, LRU.GetPinCount.
  assert (Hskip : h ∈ ev_hashes s ∨ evictable (lru_cache_ b) h = false -> evicted_to b (hs ++ [h]) s).
  { intros Hs. split; try done. intros k. rewrite Helem, elem_of_app, list_elem_of_singleton.
    split; [naive_solver|]. intros [[?| ->] He]; [done|]. destruct Hs as [Hs%Helem|Hs]; [done|congruence]. }
  rewrite Hmap. destruct (decide (h ∈ ev_hashes s)) as [Hin|Hni]; [by apply Hskip; left|].
  unfold evictable in Hskip. destruct (LRU.map_ (lru_cache_ b) !! h) as [n|] eqn:Hn; [|by apply Hskip; right].
  cbn [fmap option_fmap option_map]. destruct ((LRU.pin_count n =? 0) && on_host (LRU.value n)) eqn:He; [|by apply Hskip; right].
  clear Hskip. assert (Hev : evictable (lru_cache_ b) h = true) by (unfold evictable; by rewrite Hn).
  apply andb_true_iff in He as [Hp Hon]. to_prop.
  assert (Hn' : LRU.map_ (lru_cache_ (ev_backend s)) !! h = Some n) by (by rewrite Hmap, decide_False).
  split; cbn [ev_backend ev_hashes ev_ids erase lru_cache_ with_lru raiden_id_ registry_client_];
    rewrite ?ClearMetadataEntry_lru.
  - by apply LRU.Erase_wf.
  - apply NoDup_app. split_and!; [done| |apply NoDup_singleton]. intros x Hx ->%list_elem_of_singleton. done.
  - intros k. rewrite !elem_of_app, !list_elem_of_singleton, Helem. naive_solver.
  - rewrite fmap_app, Hids. cbn [fmap list_fmap]. unfold host_id_of at 3. by rewrite Hn.
  - intros k. rewrite Erase_map; [|unfold LRU.GetPinCount; by rewrite Hn'|eauto]. rewrite Hmap.
    destruct (decide (k = h)) as [->|Hne].
    + rewrite decide_True; [done|]. apply elem_of_app. right. by left.
    + destruct (decide (k ∈ ev_hashes s)) as [Hk|Hk]; [rewrite decide_True by (apply elem_of_app; by left)|
        rewrite decide_False by (rewrite elem_of_app, list_elem_of_singleton; naive_solver)]; done.
  - destruct (ClearMetadataEntry_frame (LRU.value n) (ev_backend s)) as [-> ->]. done.
  - intros v t Ht. destruct (Htab v t Ht) as (t1 & Ht1 & Hiff1).
    destruct (ClearMetadataEntry_table (LRU.value n) _ v t1 Hon Ht1) as (t2 & Ht2 & Hiff2).
    exists t2. split; [exact Ht2|]. intros i x. rewrite Hiff2, Hiff1, elem_of_app, list_elem_of_singleton. naive_solver.
Qed.

(** [Evict] frees exactly what it may.  Among the listed hashes it takes those whose
    entries are unpinned and hold host bytes (eviction candidates included), each
    once: their entries leave the index and no other entry changes, the returned ids
    are their host blocks, those blocks have lost their table bindings (so a crash
    cannot resurrect a block that was handed back) while all other bindings stay, and
    exactly these hashes are unregistered. *)
Theorem backend_evict_exact hashes b :
  LRU.wf (lru_cache_ b) ->
  let '(ids, calls, b') := Evict hashes b in
  exists evicted, NoDup evicted ∧
    (forall h, h ∈ evicted <-> h ∈ hashes ∧ evictable (lru_cache_ b) h = true) ∧
    ids = host_id_of (lru_cache_ b) <$> evicted ∧ calls = unregister evicted b ∧
    (forall k, LRU.map_ (lru_cache_ b') !! k = if decide (k ∈ evicted) then None else LRU.map_ (lru_cache_ b) !! k) ∧
    (forall v t, has_table b v t -> exists t', has_table b' v t' ∧
       forall i x, t' !! i = Some x <-> t !! i = Some x ∧ i ∉ ids).
Proof.
  intros Hwf. unfold Evict.
  assert (H : evicted_to b hashes (foldl evict_one (mkEvict [] [] b) hashes)).
  { induction hashes as [|h hs IH] using rev_ind.
    - split; try done.
      + constructor.
      + intros h. split; [by intros ?%elem_of_nil|by intros [?%elem_of_nil _]].
      + intros v t Ht. exists t. split; [done|]. intros i x. split; [|by intros [? _]].
        intros Hi. split; [done|]. apply not_elem_of_nil.
    - rewrite foldl_app. by apply evict_one_step. }
  destruct H as [_ Hnd Helem Hids Hmap [Hid Hreg] Htab]. eexists. split_and!; [exact Hnd|exact Helem|exact Hids| |exact Hmap|exact Htab].
  unfold unregister. by rewrite Hid, Hreg.
Qed.

(** ** Evaluations *)

Definition region : KVMeta.Span := KVMeta.mkSpan (Some 64) (replicate 640 7).
Definition formatted : list Z := (KVMeta.Format region 4 [97] (fun _ => 0)).2.
(** Hash [[1]] was bound to block 0 and later to block 3; the old binding was not cleared. *)
Definition table_ops : list KVMeta.Op :=
  [KVMeta.OpSet 0 [1] 1; KVMeta.OpSet 1 [2] 2; KVMeta.OpSet 3 [1] 5].
Definition demo_table : KVMeta.Table := <[3 := ([1], 5)]> (<[1 := ([2], 2)]> (<[0 := ([1], 1)]> ∅)).
Definition crashed : list Z := KVMeta.run (KVMeta.view 4) table_ops formatted.
Definition restarted : HostOffloadBackend :=
  create 8 (Some (KVMeta.view 4, crashed)) (node 1) true EmptyString.

Lemma formatted_format : KVMeta.Format region 4 [97] (fun _ => 0) = (Ok (KVMeta.view 4), formatted).
Proof. vm_compute. reflexivity. Qed.

Lemma crashed_represents : KVMeta.represents (KVMeta.view 4) crashed demo_table.
Proof.
  destruct (KVMeta.format_region region 4 [97] (fun _ => 0) (KVMeta.view 4) formatted)
    as (_ & _ & _ & _ & Hrep); [by vm_compute|exact formatted_format|].
  exact (KVMeta.meta_run_represents (KVMeta.view 4) table_ops formatted ∅ Hrep
           ltac:(repeat constructor; vm_compute; congruence)).
Qed.

Lemma demo_table_ok : table_ok 6 (KVMeta.view 4) demo_table.
Proof.
  unfold demo_table. split; intros *; rewrite ?lookup_insert_Some, ?lookup_empty; simpl; try naive_solver lia.
Qed.

Lemma demo_table_free i h s : newest_binding demo_table h i s ->
  LBM.in_range (LBM.create 4) i ∧ LBM.IsAllocated (LBM.create 4) i = false.
Proof.
  intros [Hi _]. unfold demo_table in Hi. rewrite !lookup_insert_Some, lookup_empty in Hi.
  assert (i = 3 ∨ i = 1 ∨ i = 0) as [-> |[-> | ->]] by naive_solver; (split; [unfold LBM.in_range; simpl; lia|done]).
Qed.

Lemma demo_newest : newest_binding demo_table [1] 3 5.
Proof.
  split; [reflexivity|]. intros j s' Hj. unfold demo_table in Hj.
  repeat (apply lookup_insert_Some in Hj as [[_ Hj]|[_ Hj]]; [by simplify_eq|]). done.
Qed.

Lemma backend_recovery_witness :
  let r := RecoverFromLocalManifest restarted (LBM.create 4) in
  r.1.1 = Ok 2 ∧
  LRU.PeekIncludingCandidates [1] (lru_cache_ r.1.2) = Some (host_block (node 1) 3 HOST) ∧
  LBM.IsAllocated r.2 3 = true.
Proof.
  pose proof (backend_recovery 6 8 restarted (LBM.create 4) (KVMeta.view 4) crashed demo_table
    eq_refl (Nat.lt_0_succ _) eq_refl crashed_represents demo_table_ok eq_refl (LBM.lbm_create_wf 4 ltac:(lia))
    demo_table_free) as H.
  destruct (RecoverFromLocalManifest restarted (LBM.create 4)) as [[r b'] m'] eqn:E.
  destruct H as (_ & Hidx & _ & Halloc). split_and!.
  - transitivity ((RecoverFromLocalManifest restarted (LBM.create 4)).1.1); [by rewrite E|vm_compute; reflexivity].
  - apply Hidx. exists 3, 5. split; [exact demo_newest|reflexivity].
  - apply Halloc. right. exists [1], 5. exact demo_newest.
Defined.

Lemma backend_reachable_inv_witness :
  let b := run [OpInsert [[1]; [2]] [host_block (node 1) 0 HOST; host_block (node 1) 1 HOST];
                OpInsertAndLock [[3]; [1]] [host_block (node 1) 2 HOST]; OpEvict [[1]; [2]]]
             (create 2 (Some (KVMeta.view 4, formatted)) (node 1) true EmptyString) in
  LRU.wf (lru_cache_ b) ∧ next_metadata_seq_ b = 3.
Proof.
  split.
  - refine (proj1 (backend_reachable_inv 2 region 4 [97] (fun _ => 0) (KVMeta.view 4) formatted (node 1) true
      EmptyString _ formatted_format _ _ _)); [by vm_compute| |by vm_compute].
    repeat constructor; vm_compute; congruence.
  - vm_compute. reflexivity.
Defined.

Lemma backend_evict_exact_witness :
  let b := run [OpPin [[2]]] demo in
  (Evict [[1]; [2]; [1]; [9]] b).1.1 = [10] ∧
  LRU.map_ (lru_cache_ (Evict [[1]; [2]; [1]; [9]] b).2) !! [1] = None.
Proof.
  intros b. assert (Hwf : LRU.wf (lru_cache_ b)) by (apply backend_run_wf, offload_demo_wf).
  pose proof (backend_evict_exact [[1]; [2]; [1]; [9]] b Hwf) as H.
  destruct (Evict [[1]; [2]; [1]; [9]] b) as [[ids calls] b'] eqn:E.
  destruct H as (evicted & _ & Helem & _ & _ & Hmap & _). split.
  - transitivity ((Evict [[1]; [2]; [1]; [9]] b).1.1); [by rewrite E|vm_compute; reflexivity].
  - transitivity (if decide ([1] ∈ evicted) then None else LRU.map_ (lru_cache_ b) !! [1]); [apply Hmap|].
    rewrite decide_True; [reflexivity|]. apply Helem. split; [by left|vm_compute; reflexivity].
Defined.

End OffloadRecovery.
