(* ===== verification/HostOffloadTransfer.v ===== *)
(** * Loads, remote writes and the transfer specification of the host offload backend *)

From S2P Require Import Prelude ReshardTypes StoreBackend LruCache LogicalBlockManager WorkerRegistry HostOffloadBackend HostOffloadLookup.
Import HostOffload OffloadLookup.

Module OffloadTransfer.

Implicit Types (b : HostOffloadBackend) (m : LBM.LogicalBlockManager).

(** ** The transfer specification *)

(** A worker that reported the geometry of the first one. *)
Definition same_geometry (reference worker : Workers.WorkerRegistration) : Prop :=
  Workers.block_array_bytes worker ≠ [] ∧ 0 < Workers.num_kv_shards worker ∧
  Workers.block_array_bytes worker = Workers.block_array_bytes reference ∧
  Workers.num_kv_shards worker = Workers.num_kv_shards reference.

Lemma check_worker_ok reference ids w r :
  check_worker reference ids w = Ok r <-> same_geometry reference w ∧ r = ids ++ [Workers.node_id w].
Proof.
  unfold check_worker, same_geometry.
  destruct (bool_decide _ || _) eqn:E1; [apply orb_true_iff in E1; to_prop; split; [done|naive_solver lia]|].
  apply orb_false_iff in E1 as [E1 E1'].
  destruct (negb _ || negb _) eqn:E2; [apply orb_true_iff in E2; to_prop; split; [done|naive_solver lia]|].
  apply orb_false_iff in E2 as [E2 E2']. to_prop.
  split; [intros [= <-]; naive_solver lia|by intros [_ ->]].
Qed.

Lemma check_workers_ok reference ws ids r :
  for_each (check_worker reference) ws ids = Ok r <->
  Forall (same_geometry reference) ws ∧ r = ids ++ (Workers.node_id <$> ws).
Proof.
  revert ids. induction ws as [|w ws IH]; intros ids; cbn [for_each].
  { rewrite app_nil_r. split; [intros [= <-]; by split|by intros [_ ->]]. }
  rewrite Forall_cons. destruct (check_worker reference ids w) as [ids'|] eqn:E.
  - apply check_worker_ok in E as [Hg ->]. rewrite IH, <-app_assoc. cbn [fmap list_fmap app]. naive_solver.
  - split; [done|]. intros [[Hg _] _].
    pose proof (proj2 (check_worker_ok reference ids w _) (conj Hg eq_refl)). congruence.
Qed.

Lemma sorted_dense (ids : list Z) (n : Z) :
  sort_by Z.ltb ids = zrange 0 n <-> ids ≡ₚ zrange 0 n.
Proof.
  split; [intros <-; symmetry; apply sort_by_perm|]. intros Hp.
  apply (StronglySorted_unique Z.le).
  - generalize (sort_by_sorted Z.ltb ids). generalize (sort_by Z.ltb ids).
    induction 1 as [|x l _ IH Hx]; constructor; [done|]. eapply Forall_impl; [exact Hx|].
    intros y Hy. unfold not_after in Hy. to_prop. lia.
  - unfold zrange. generalize 0%nat. induction (Z.to_nat (n - 0)) as [|k IH]; intros j; [constructor|].
    cbn [seq fmap list_fmap]. constructor; [apply IH|]. apply Forall_fmap, Forall_forall.
    intros x Hx%elem_of_seq. simpl. lia.
  - by rewrite sort_by_perm.
Qed.

(** [ComposeKVTransferSpec] accepts a set of workers exactly when there is one, every
    worker reported the same non-empty geometry, and the node ids are the dense range
    [0, n) in some order; the specification is then that geometry with the worker
    count. *)
Theorem backend_transfer_spec_exact workers spec :
  Z.of_nat (length workers) < 2 ^ 31 ->
  ComposeKVTransferSpec workers = Ok spec <->
  exists reference rest, workers = reference :: rest ∧
    Forall (same_geometry reference) workers ∧
    Workers.node_id <$> workers ≡ₚ zrange 0 (Z.of_nat (length workers)) ∧
    spec = mkSpec (Workers.block_array_bytes reference) (Workers.num_kv_shards reference)
             (Z.of_nat (length workers)).
Proof.
  intros Hlen. unfold ComposeKVTransferSpec. destruct workers as [|reference rest].
  { split; [done|]. by intros (? & ? & ? & _). }
  set (ws := reference :: rest) in *.
  assert (Hw : wrap32 (Z.of_nat (length ws)) = Z.of_nat (length ws)) 
    by (apply wrap32_id; unfold in_int32, int32_min, int32_max; lia).
  pose proof (check_workers_ok reference ws []) as Hc.
  destruct (for_each (check_worker reference) ws []) as [ids|] eqn:E.
  - destruct (proj1 (Hc ids) eq_refl) as [Hg ->]. cbn [app]. rewrite (Permutation_length (sort_by_perm _ _)), length_fmap.
    case_bool_decide as Hd; cbn [negb].
    + apply sorted_dense in Hd. rewrite Hw. split.
      * intros [= <-]. exists reference, rest. done.
      * intros (r & rs & [= <- <-] & _ & _ & ->). done.
    + split; [done|]. intros (r & rs & _ & _ & Hp & _). by apply sorted_dense in Hp.
  - split; [done|]. intros (r & rs & [= <- <-] & Hg & _).
    specialize (Hc (Workers.node_id <$> ws)). discriminate (proj2 Hc (conj Hg eq_refl)).
Qed.

(** ** Landing blocks *)

(** The blocks of a fetch are still the load's own: allocated, in range, distinct. *)
Definition owns m (ids : list Z) : Prop :=
  NoDup ids ∧ Forall (fun id => LBM.in_range m id ∧ LBM.IsAllocated m id = true ∧ LBM.IsLocked m id = true) ids.

(** What deallocating the landing blocks does. *)
Definition frees m m' (ids : list Z) : Prop :=
  forall j, LBM.IsAllocated m' j = LBM.IsAllocated m j && negb (bool_decide (j ∈ ids)).

Lemma deallocate_frees m ids : LBM.wf m -> owns m ids -> frees m (DeallocateBlockIds m ids) ids.
Proof.
  intros Hwf [_ Hown] j. unfold DeallocateBlockIds, LBM.Deallocate.
  assert (Hall : Forall (fun id => LBM.in_range m id ∧ LBM.is_allocated (LBM.block (LBM.blocks_ m) id) = true) ids).
  { eapply Forall_impl; [exact Hown|]. intros id (Hr & Ha & _). by rewrite <-LBM.IsAllocated_in_range. }
  rewrite (proj2 (LBM.check_allocated_loop m _ ids) Hall). cbn [snd].
  unfold LBM.IsAllocated. cbn [LBM.total_blocks_ LBM.blocks_].
  destruct ((j <? 0) || (LBM.total_blocks_ m <=? j)) eqn:E; [done|]. to_prop.
  change (foldl LBM.free_block (LBM.blocks_ m) ids)
    with (LBM.upd (fun s => LBM.mkBlock false false (LBM.last_access_counter s)) ids (LBM.blocks_ m)).
  rewrite LBM.upd_block; [|done| |lia].
  - case_decide; [by rewrite bool_decide_eq_true_2, andb_false_r|].
    by rewrite bool_decide_eq_false_2, andb_true_r.
  - eapply Forall_impl; [exact Hall|]. intros id [Hr _]. unfold LBM.in_range in Hr. rewrite LBM.wf_length_Z by done. lia.
Qed.

Lemma allocate_owns m n ids m' : LBM.wf m -> AllocateBlockIds m n = (Ok ids, m') ->
  Z.of_nat (length ids) = n ∧ owns m' ids ∧ Forall (fun id => LBM.IsLocked m id = false) ids.
Proof.
  intros Hwf Ha. unfold AllocateBlockIds in Ha. pose proof (LBM.num_available_le m Hwf) as Hle.
  destruct (decide (0 < n <= LBM.num_available m)) as [Hn|Hn].
  2: { destruct (LBM.Allocate_not_ok m n true Hwf Hn) as [Hno _]. by rewrite Ha in Hno. }
  destruct (LBM.Allocate_Ok m n true Hwf) as (bs & Hl & E & Hbs); [lia|lia|]. rewrite E in Ha. injection Ha as <- <-.
  destruct (LBM.select_spec m n) as (Hsl & Hsn & Hsa); [lia|]. split_and!; [lia| |].
  - split; [done|]. apply Forall_forall. intros id Hid.
    assert (Hr : LBM.in_range m id) by (by apply (proj1 (Forall_forall _ _) Hsa) in Hid as [? _]).
    set (m' := LBM.mkLBM _ _ _). assert (Hr' : LBM.in_range m' id) by exact Hr.
    rewrite (LBM.IsAllocated_in_range m'), (LBM.IsLocked_in_range m') by done. cbn [LBM.blocks_ m'].
    by rewrite Hbs, decide_True.
  - eapply Forall_impl; [exact Hsa|]. intros id [Hr Hl']. rewrite LBM.IsLocked_in_range by done.
    destruct (proj1 (LBM.Forall_block _ _) (LBM.wf_blocks m Hwf) id) as [Hlk _].
    { rewrite LBM.wf_length_Z by done. exact Hr. }
    destruct (LBM.is_locked _); [|done]. destruct Hl' as [Hl'|Hl']; [|done]. rewrite Hlk in Hl' by done. done.
Qed.

(** Allocation and deallocation leave the blocks that others own alone. *)
Lemma allocate_respects m n ids m' others : LBM.wf m -> AllocateBlockIds m n = (Ok ids, m') ->
  owns m others -> owns m' (ids ++ others).
Proof.
  intros Hwf Ha [Hnd Hown]. destruct (allocate_owns m n ids m' Hwf Ha) as (_ & [Hnd' Hown'] & Hunl).
  assert (Hdisj : forall id, id ∈ ids -> id ∈ others -> False).
  { intros id Hid Ho. rewrite Forall_forall in Hunl, Hown. destruct (Hown id Ho) as (_ & _ & Hl).
    by rewrite Hunl in Hl. }
  split; [by apply NoDup_app; split_and!; [|intros id ? ?; eapply Hdisj|]|]. apply Forall_app. split; [done|].
  unfold AllocateBlockIds in Ha. pose proof (LBM.num_available_le m Hwf) as Hle.
  destruct (decide (0 < n <= LBM.num_available m)) as [Hn|Hn].
  2: { destruct (LBM.Allocate_not_ok m n true Hwf Hn) as [Hno _]. by rewrite Ha in Hno. }
  destruct (LBM.Allocate_Ok m n true Hwf) as (bs & Hl & E & Hbs); [lia|lia|]. rewrite E in Ha. injection Ha as <- <-.
  rewrite Forall_forall in Hown |- *. intros id Hid. destruct (Hown id Hid) as (Hr & Hal & Hlo).
  set (m' := LBM.mkLBM _ _ _). assert (Hr' : LBM.in_range m' id) by exact Hr.
  rewrite (LBM.IsAllocated_in_range m'), (LBM.IsLocked_in_range m') by done. cbn [LBM.blocks_ m'].
  rewrite Hbs, decide_False by (try done; intros Hs; by eapply Hdisj).
  by rewrite <-LBM.IsAllocated_in_range, <-LBM.IsLocked_in_range.
Qed.

Lemma deallocate_respects m ids others : LBM.wf m -> owns m (ids ++ others) ->
  LBM.wf (DeallocateBlockIds m ids) ∧ owns (DeallocateBlockIds m ids) others.
Proof.
  intros Hwf [Hnd Hown]. apply NoDup_app in Hnd as (Hnd & Hdisj & Hnd'). apply Forall_app in Hown as [Hi Ho].
  assert (Hall : Forall (fun id => LBM.in_range m id ∧ LBM.is_allocated (LBM.block (LBM.blocks_ m) id) = true) ids).
  { eapply Forall_impl; [exact Hi|]. intros id (Hr & Ha & _). by rewrite <-LBM.IsAllocated_in_range. }
  unfold DeallocateBlockIds, LBM.Deallocate.
  rewrite (proj2 (LBM.check_allocated_loop m _ ids) Hall). cbn [snd].
  change (foldl LBM.free_block (LBM.blocks_ m) ids)
    with (LBM.upd (fun s => LBM.mkBlock false false (LBM.last_access_counter s)) ids (LBM.blocks_ m)).
  set (m' := LBM.mkLBM _ _ _). split.
  - pose proof (LBM.wf_counter m Hwf). apply LBM.upd_wf; [done|done|by eapply Forall_impl; [exact Hi|]; intros ? []|lia|].
    by intros blk [_ Hs].
  - split; [done|]. rewrite Forall_forall in Ho |- *. intros id Hid. destruct (Ho id Hid) as (Hr & Hal & Hlo).
    assert (Hr' : LBM.in_range m' id) by exact Hr.
    rewrite (LBM.IsAllocated_in_range m'), (LBM.IsLocked_in_range m') by done. cbn [LBM.blocks_ m'].
    rewrite LBM.upd_block, decide_False; [|by intros ?; eapply Hdisj|done| |].
    + by rewrite <-LBM.IsAllocated_in_range, <-LBM.IsLocked_in_range.
    + rewrite LBM.wf_length_Z by done. eapply Forall_impl; [exact Hi|]. by intros ? [].
    + apply Hr.
Qed.

(** A remote load never leaks its landing blocks.  When it starts a fetch it owns one
    freshly locked host block per hash, none of which was locked before; when it fails
    before the fetch the controller is untouched.  Whatever the peer answers, and
    whatever happened in between, the fetch callback either fails the load and frees
    exactly those blocks, or starts the copy from them to the caller's device blocks
    and keeps them until the copy ends, whose callback frees exactly them and reports
    its status.  A failed RPC also drops the cached client of the peer. *)
Theorem backend_remote_load_blocks resolve remote_id hashes devices b m :
  LBM.wf m ->
  let '(f, b1, m1) := LoadRemoteBlocks resolve remote_id hashes devices b m in
  match f with
  | Ready s => ok s = false ∧ m1 = m
  | TransferBuffers _ _ => False
  | Fetch req =>
      let ids := fq_host_block_ids req in
      length ids = length hashes ∧ owns m1 ids ∧ Forall (fun id => LBM.IsLocked m id = false) ids ∧
      forall response b2 m2, LBM.wf m2 -> owns m2 ids ->
        let '(f', b3, m3) := on_fetch remote_id req response b2 m2 in
        match f' with
        | Ready s => ok s = false ∧ frees m2 m3 ids ∧
            (ok response = false -> (store_clients_ b3 !! remote_id : option string) = None)
        | TransferBuffers src dst =>
            m3 = m2 ∧ src = dram_buffers ids ∧ dst = hbm_buffers devices ∧
            forall s m4, LBM.wf m4 -> owns m4 ids -> (on_h2d req s m4).1 = s ∧ frees m4 (on_h2d req s m4).2 ids
        | Fetch _ => False
        end
  end.
Proof.
  intros Hwf. unfold LoadRemoteBlocks.
  destruct (GetKVCacheStoreClient resolve remote_id b) as [[client|code msg] b1]; [|done].
  destruct (AllocateBlockIds m (Z.of_nat (length hashes))) as [[ids|code msg] m1] eqn:Ea.
  - destruct (allocate_owns m _ ids m1 Hwf Ea) as (Hlen & Hown & Hlk). cbn [fq_host_block_ids].
    split_and!; [lia|done|done|]. intros response b2 m2 Hwf2 Hown2. unfold on_fetch. cbn [fq_host_block_ids fq_device_block_ids].
    destruct response as [response|code msg].
    + destruct (failed_block_hashes response).
      * split_and!; [done|done|done|]. intros s m4 Hwf4 Hown4. split; [done|]. by apply deallocate_frees.
      * split_and!; [done|by apply deallocate_frees|done].
    + split_and!; [done|by apply deallocate_frees|]. intros _. simpl. apply lookup_delete_eq.
  - split; [done|]. unfold AllocateBlockIds, LBM.Allocate in Ea. repeat case_match; by simplify_eq.
Qed.

(** ** Clients of peers *)

(** The cache of store clients.  A write offer that the peer answers, with success or
    with a refusal of its own, keeps the peer's client; a transport error drops it, so
    that the next attempt resolves the peer again; polling behaves the same.  An
    accepted offer carries an operation id or an existence answer, and a reply with
    neither is an error. *)
Theorem backend_remote_write_clients resolve write poll dst hashes ids deadline op_id b b1 client :
  GetKVCacheStoreClient resolve dst b = (Ok client, b1) -> hashes ≠ [] -> length hashes = length ids ->
  let response := write (mkWriteRequest client hashes ids deadline) in
  let '(r, b2) := BeginWriteRemote resolve write dst hashes ids deadline b in
  let '(s, b3) := PollWriteRemote resolve poll dst op_id b in
  (store_clients_ b2 !! dst : option string) =
    (match response with Err code _ => if IsTransportError code then None else Some client | Ok _ => Some client end) ∧
  (store_clients_ b3 !! dst : option string) =
    (match poll client op_id with Err code _ => if IsTransportError code then None else Some client | Ok _ => Some client end) ∧
  match r with
  | Ok ack => exists reply, response = Ok reply ∧
      (operation_id ack ≠ 0 ∨ wr_exist_state reply ≠ WRITE_EXIST_STATE_UNSPECIFIED) ∧
      (all_exist ack = true <-> wr_exist_state reply = WRITE_ALL_EXIST) ∧
      existing_hashes ack = (match wr_exist_state reply with WRITE_PARTIAL_EXIST => wr_existing_hashes reply | _ => [] end)
  | Err code _ => ok response = false ∨ code = kInternal
  end.
Proof.
  intros Hc Hne Hlen response. unfold BeginWriteRemote, PollWriteRemote.
  rewrite (proj2 (Nat.eqb_neq _ _)) by (by destruct hashes). rewrite (proj2 (Nat.eqb_eq _ _) Hlen), Hc. cbn [negb].
  assert (Hb1 : (store_clients_ b1 !! dst : option string) = Some client).
  { unfold GetKVCacheStoreClient in Hc. destruct (store_clients_ b !! dst) as [cl|] eqn:E; [by simplify_eq|].
    repeat case_match; simplify_eq. simpl. apply lookup_insert_eq. }
  fold response. destruct (poll client op_id) as [pr|pcode pmsg]; [|destruct (IsTransportError pcode)];
    (destruct response as [reply|code msg];
      [destruct (wr_exist_state reply) eqn:Es; [destruct (wr_operation_id reply =? 0) eqn:Eo|..]
      |destruct (IsTransportError code)]);
    simpl; rewrite ?lookup_delete_eq; split_and!; try done; try (by right); try (by left);
    exists reply; rewrite Es; split_and!; try done; to_prop; naive_solver.
Qed.

(** ** Evaluations *)

Definition worker (id : string) (n : Z) : Workers.WorkerRegistration :=
  Workers.mkWorker id "host:1" [] None n [64; 32] 2.

Lemma backend_transfer_spec_exact_witness :
  ComposeKVTransferSpec [worker "b" 1; worker "a" 0] = Ok (mkSpec [64; 32] 2 2) ∧
  ¬ exists spec, ComposeKVTransferSpec [worker "b" 1; worker "a" 2] = Ok spec.
Proof.
  split.
  - apply (backend_transfer_spec_exact [worker "b" 1; worker "a" 0] (mkSpec [64; 32] 2 2)); [vm_compute; reflexivity|].
    exists (worker "b" 1), [worker "a" 0]. split_and!; [reflexivity| |apply (Permutation_swap 0 1 [])|reflexivity].
    repeat constructor; try discriminate; reflexivity.
  - intros [spec Hs]. apply backend_transfer_spec_exact in Hs; [|vm_compute; reflexivity].
    destruct Hs as (r & rs & _ & _ & Hp & _).
    assert (Hin : 0 ∈ Workers.node_id <$> [worker "b" 1; worker "a" 2]) by (rewrite Hp; by left).
    repeat (apply elem_of_cons in Hin as [?|Hin]; [done|]). by apply elem_of_nil in Hin.
Defined.

Lemma backend_remote_load_blocks_witness :
  exists req b1 m1,
    LoadRemoteBlocks (fun _ => Ok "peer:1"%string) (node 2) [[5]; [6]] [7; 8] demo (LBM.create 4)
      = (Fetch req, b1, m1) ∧
    fq_host_block_ids req = [0; 1] ∧ LBM.IsAllocated m1 1 = true ∧
    forall b2, LBM.IsAllocated (on_fetch (node 2) req (Err kUnavailable []) b2 m1).2 1 = false.
Proof.
  pose proof (backend_remote_load_blocks (fun _ => Ok "peer:1"%string) (node 2) [[5]; [6]] [7; 8] demo
    (LBM.create 4) (LBM.lbm_create_wf 4 ltac:(lia))) as H.
  set (r := LoadRemoteBlocks _ _ _ _ _ _) in *.
  assert (Hr : r = (r.1.1, r.1.2, r.2)) by (by destruct r as [[? ?] ?]).
  rewrite Hr in H. assert (Hf : r.1.1 = Fetch (mkFetch "peer:1" [[5]; [6]] [7; 8] [0; 1])) by (vm_compute; reflexivity).
  rewrite Hf in Hr, H. destruct H as (_ & Hown & _ & Hcb). cbn [fq_host_block_ids] in *.
  exists (mkFetch "peer:1" [[5]; [6]] [7; 8] [0; 1]), r.1.2, r.2.
  assert (Halloc : LBM.IsAllocated r.2 1 = true) by (vm_compute; reflexivity).
  split_and!; [exact Hr|reflexivity|exact Halloc|]. intros b2.
  assert (Hwf : LBM.wf r.2).
  { exact (proj1 (LBM.lbm_apply_op_wf (LBM.OpAllocate 2 true) (LBM.create 4) (LBM.lbm_create_wf 4 ltac:(lia)) ltac:(vm_compute; reflexivity))). }
  destruct (Hcb (Err kUnavailable []) b2 r.2 Hwf Hown) as (_ & Hfree & _).
  etransitivity; [apply Hfree|]. rewrite Halloc, bool_decide_eq_true_2; [reflexivity|]. right. left.
Defined.


End OffloadTransfer.
