(* ===== verification/HostOffloadPins.v ===== *)
(** * Pins of the host offload backend, as its clients see them

    [Module OffloadPins]: what [Pin], [Release] and a [Lookup] that does not pin do to the
    pin counts and to the index.  The store and the store service use these contracts. *)

From S2P Require Import Prelude ReshardTypes StoreBackend LruCache HostOffloadBackend HostOffloadLookup HostOffloadInsert.
Import HostOffload OffloadLookup OffloadInsert.

Module OffloadPins.

Implicit Types (b : HostOffloadBackend) (c : Cache) (h k : Hash) (hs : list Hash).

(** ** Releasing *)

Lemma unpin_all_exact hs c k : LRU.wf c ->
  LRU.GetPinCount k (unpin_all hs c) = Z.max 0 (LRU.GetPinCount k c - occ k hs).
Proof.
  revert c. induction hs as [|h hs IH]; intros c Hwf; cbn [unpin_all foldl].
  { rewrite occ_nil. pose proof (LRU.wf_pin_nonneg c k Hwf). unfold unpin_all. simpl. lia. }
  change (foldl _ (LRU.Unpin h c).2 hs) with (unpin_all hs (LRU.Unpin h c).2).
  rewrite IH by (by apply LRU.Unpin_wf). rewrite LRU.Unpin_pins, occ_cons by done. unfold LRU.pins_after.
  pose proof (occ_nonneg k hs). repeat case_bool_decide; simplify_eq; try lia; naive_solver lia.
Qed.

Lemma with_lru_eta b : with_lru (lru_cache_ b) b = b.
Proof. by destruct b. Qed.

Lemma unpin_loop_eq hs b : foldl (flip unpin) b hs = with_lru (unpin_all hs (lru_cache_ b)) b.
Proof.
  revert b. induction hs as [|h hs IH]; intros b; cbn [foldl unpin_all]; [by rewrite with_lru_eta|].
  rewrite IH. by destruct b.
Qed.

Lemma occ_reverse k hs : occ k (reverse hs) = occ k hs.
Proof. apply occ_perm. apply reverse_Permutation. Qed.

Lemma Release_eq hs b : Release hs b = with_lru (unpin_all (reverse hs) (lru_cache_ b)) b.
Proof. unfold Release. apply unpin_loop_eq. Qed.

Lemma Release_pins hs b k : LRU.wf (lru_cache_ b) ->
  GetPinCount k (Release hs b) = Z.max 0 (GetPinCount k b - occ k hs).
Proof.
  intros Hwf. rewrite Release_eq. unfold GetPinCount. cbn [lru_cache_ with_lru].
  by rewrite unpin_all_exact, occ_reverse.
Qed.

Lemma Release_wf hs b : LRU.wf (lru_cache_ b) -> LRU.wf (lru_cache_ (Release hs b)).
Proof. apply (backend_run_wf [OpRelease hs]). Qed.

Lemma Release_Peek hs b k : LRU.wf (lru_cache_ b) ->
  LRU.Peek k (lru_cache_ (Release hs b)) = LRU.Peek k (lru_cache_ b).
Proof. intros Hwf. rewrite Release_eq. cbn. by apply unpin_all_Peek. Qed.

(** ** Pinning *)

Lemma pin_seq_snoc hs h c : pin_seq (hs ++ [h]) c = (LRU.Pin h (pin_seq hs c)).2.
Proof. unfold pin_seq. by rewrite foldl_app. Qed.

Lemma Pin_index h c k : is_Some (LRU.map_ (LRU.Pin h c).2 !! k) <-> is_Some (LRU.map_ c !! k).
Proof.
  unfold LRU.Pin, LRU.GetAndPin. destruct (LRU.map_ c !! h) as [n|] eqn:Hn; [|done]. cbn.
  rewrite lookup_alter. case_decide as Hd; [subst; destruct (LRU.pin_count n =? 0); cbn;
    [destruct (LRU.location n); cbn; rewrite ?lookup_alter_eq; rewrite ?Hn|rewrite Hn]; naive_solver|].
  destruct (LRU.pin_count n =? 0); cbn; [|done]. destruct (LRU.location n); cbn; rewrite ?lookup_alter_ne; done.
Qed.

(** A hash is indexed, as a visible entry or as an eviction candidate. *)
Definition indexed c h : Prop := is_Some (LRU.map_ c !! h).

Lemma pin_seq_pins hs c k : LRU.wf c -> Forall (indexed c) hs ->
  LRU.wf (pin_seq hs c) ∧ LRU.GetPinCount k (pin_seq hs c) = LRU.GetPinCount k c + occ k hs ∧
  (forall h, indexed (pin_seq hs c) h <-> indexed c h).
Proof.
  revert c. induction hs as [|h hs IH]; intros c Hwf Hall.
  { rewrite occ_nil. unfold pin_seq. simpl. split_and!; [done|lia|done]. }
  apply Forall_cons in Hall as [Hh Hall]. change (pin_seq (h :: hs) c) with (pin_seq hs (LRU.Pin h c).2).
  destruct (IH (LRU.Pin h c).2) as (Hwf' & Hp & Hi).
  - by apply LRU.GetAndPin_wf.
  - eapply Forall_impl; [exact Hall|]. intros x. apply Pin_index.
  - split_and!; [done| |intros x; rewrite Hi; apply Pin_index]. rewrite Hp, LRU.Pin_pins, occ_cons. unfold LRU.pins_after.
    unfold indexed in Hh. repeat case_bool_decide; simplify_eq; naive_solver lia.
Qed.

Lemma pin_all_spec pinned hs b : LRU.wf (lru_cache_ b) ->
  (Forall (indexed (lru_cache_ b)) hs -> pin_all pinned hs b = (true, with_lru (pin_seq hs (lru_cache_ b)) b)) ∧
  (¬ Forall (indexed (lru_cache_ b)) hs -> exists pre, Forall (indexed (lru_cache_ b)) pre ∧
     pin_all pinned hs b = (false, with_lru (unpin_all (pinned ++ pre) (pin_seq pre (lru_cache_ b))) b)).
Proof.
  revert pinned b. induction hs as [|h hs IH]; intros pinned b Hwf.
  { split; [intros _; cbn; by rewrite with_lru_eta|intros H; by destruct H]. }
  cbn [pin_all]. rewrite LRU.Pin_present. case_bool_decide as Hh; cbn [negb].
  - destruct (IH (pinned ++ [h]) (with_lru (LRU.Pin h (lru_cache_ b)).2 b)) as [Hy Hn]; [by apply LRU.GetAndPin_wf|].
    cbn [lru_cache_ with_lru] in Hy, Hn.
    assert (Hiff : forall l, Forall (indexed (LRU.Pin h (lru_cache_ b)).2) l <-> Forall (indexed (lru_cache_ b)) l).
    { intros l. split; intros H; (eapply Forall_impl; [exact H|]); intros x; apply Pin_index. }
    split.
    + intros [_ Hall]%Forall_cons. rewrite Hy by (by apply Hiff). done.
    + intros Hno. destruct Hn as (pre & Hpre & E).
      { intros Hall. apply Hno. constructor; [done|]. by apply Hiff. }
      exists (h :: pre). split; [constructor; [done|by apply Hiff]|]. rewrite E, <-app_assoc. done.
  - split; [by intros [? _]%Forall_cons|]. intros _. exists []. split; [constructor|].
    rewrite unpin_loop_eq, app_nil_r. unfold pin_seq. cbn [foldl lru_cache_ with_lru].
    replace (LRU.Pin h (lru_cache_ b)).2 with (lru_cache_ b); [done|].
    unfold LRU.Pin, LRU.GetAndPin. destruct (LRU.map_ (lru_cache_ b) !! h) eqn:E; [|done]. exfalso. apply Hh. unfold indexed. eauto.
Qed.

(** [Pin] takes one pin per occurrence of every hash when all are indexed, and none at all
    otherwise. *)
Lemma Pin_spec hs b : LRU.wf (lru_cache_ b) ->
  let r := Pin hs b in
  r.2 = with_lru (lru_cache_ r.2) b ∧ LRU.wf (lru_cache_ r.2) ∧
  (r.1 = true <-> Forall (indexed (lru_cache_ b)) hs) ∧
  (forall k, GetPinCount k r.2 = GetPinCount k b + if r.1 then occ k hs else 0).
Proof.
  intros Hwf r. unfold r, Pin. destruct (pin_all_spec [] hs b Hwf) as [Hy Hn].
  destruct (decide (Forall (indexed (lru_cache_ b)) hs)) as [Hall|Hall].
  - rewrite (Hy Hall). cbn [fst snd app lru_cache_ with_lru]. destruct (pin_seq_pins hs (lru_cache_ b) [] Hwf Hall) as (Hwf' & _).
    split_and!; [done|done|done|]. intros k. unfold GetPinCount. cbn [fst snd app lru_cache_ with_lru]. by apply pin_seq_pins.
  - destruct (Hn Hall) as (pre & Hpre & ->). cbn [fst snd app lru_cache_ with_lru]. destruct (pin_seq_pins pre (lru_cache_ b) [] Hwf Hpre) as (Hwf' & _).
    split_and!; [done|by eapply steps_wf; [apply steps_unpin_all|]|done|]. intros k. unfold GetPinCount. cbn [fst snd app lru_cache_ with_lru].
    destruct (pin_seq_pins pre (lru_cache_ b) k Hwf Hpre) as (_ & Hp & _).
    rewrite unpin_all_exact, Hp by done. pose proof (LRU.wf_pin_nonneg _ k Hwf). lia.
Qed.

Lemma Pin_Peeks hs b : LRU.wf (lru_cache_ b) -> Forall (fun h => is_Some (LRU.Peek h (lru_cache_ b))) hs ->
  (Pin hs b).1 = true ∧ forall k, LRU.Peek k (lru_cache_ (Pin hs b).2) = LRU.Peek k (lru_cache_ b).
Proof.
  intros Hwf Hall. unfold Pin. destruct (pin_all_spec [] hs b Hwf) as [Hy _]. rewrite Hy.
  - split; [done|]. intros k. cbn. by apply pin_seq_spec.
  - eapply Forall_impl; [exact Hall|]. intros h [v Hv]. unfold LRU.Peek, indexed in *.
    destruct (LRU.map_ (lru_cache_ b) !! h); [eauto|done].
Qed.

(** ** Lookups that do not pin *)

Lemma sweep_nopin opts hs c : pin_found opts = false -> (sweep opts hs c).2 = c.
Proof.
  intros Hp. induction hs as [|h hs IH]; [done|]. cbn [sweep]. rewrite Hp. destruct (LRU.Peek h c).
  - by destruct (sweep opts hs c) as [[? ?] ?].
  - destruct (negb _); [done|]. by destruct (sweep opts hs c) as [[? ?] ?].
Qed.

(** Without interference such a lookup changes nothing, and what it returns for the
    hashes it resolves is the visible entry or a remote block. *)
Lemma Lookup_nopin registry hs opts b : LRU.wf (lru_cache_ b) -> pin_found opts = false ->
  let r := Lookup registry [] hs opts b in
  r.2 = b ∧ (length r.1 <= length hs)%nat ∧ r.1.*1 = take (length r.1) hs ∧
  forall i h blk, r.1 !! i = Some (h, blk) ->
    hs !! i = Some h ∧ (LRU.Peek h (lru_cache_ b) = Some blk ∨ status blk = REMOTE).
Proof.
  intros Hwf Hp. destruct hs as [|h0 hs0]; [split_and!; done|]. unfold Lookup, LookupSweep.
  set (hs := h0 :: hs0). destruct (sweep_spec opts hs (lru_cache_ b) Hwf) as (Hr & _).
  pose proof (sweep_nopin opts hs (lru_cache_ b) Hp) as Hc.
  destruct (sweep opts hs (lru_cache_ b)) as [[hits missing] c]. cbn [fst snd] in *. subst c. injection Hr as -> ->.
  cbn [run foldl]. rewrite with_lru_eta. unfold LookupAssemble. cbn [p_options p_hashes p_local_hit p_local_id]. rewrite Hp.
  destruct (assemble_spec (raiden_id_ b) hs (sweep_hits (enable_interleaved_lookup opts) (cached (lru_cache_ b)) hs)
    (query registry (registry_client_ b) opts (misses hs (sweep_hits (enable_interleaved_lookup opts) (cached (lru_cache_ b)) hs)))
    (lru_cache_ b)) as (Hle & Hpre & Hin & _); [apply length_sweep_hits|]. cbn [p_client p_missing fst snd].
  split_and!; [done|done|done|]. intros i h blk Hi. destruct (Hin i h blk Hi) as [? [(_ & ?)|(_ & ? & _)]]; auto.
Qed.

End OffloadPins.
