(* ===== verification/KVCacheStoreService.v ===== *)
(** * The store service: the side of a remote fetch and of a remote write that serves a peer
    ([src/tpu_sync/kv_cache/kv_cache_store_service.cc])

    [Module Service] has the handlers of the gRPC service.  [Fetch] is one function.  A
    remote write outlives its call: [WriteRemote] records an operation and starts a
    transfer, [CompleteWriteRemote] runs when the transfer resolves, the deadline thread
    fails what is too late and [PollWriteRemote] reports.  The operations are objects that
    the table, the completion and the deadline thread share, so they live in a heap and the
    table holds their addresses.  [CompleteWriteRemote] is a sequence of critical sections
    ([Completion]), which the step relation of KVCacheStoreServiceSteps.v interleaves with
    everything else.

    Times are nanoseconds; [absl::InfiniteFuture()] is [None].  The backend is
    [HostOffload.HostOffloadBackend] and the block pool of the controller is
    [LBM.LogicalBlockManager]. *)

From S2P Require Import Prelude ReshardTypes StoreBackend KVCacheMetadata LruCache LogicalBlockManager WorkerRegistry HostOffloadBackend.

Module Service.

Abbreviation Backend := HostOffload.HostOffloadBackend.
Abbreviation Manager := LBM.LogicalBlockManager.

Definition Milliseconds (n : Z) : Z := n * 1000000.
Definition Seconds (n : Z) : Z := n * 1000000000.
Definition ToInt64Milliseconds (d : Z) : Z := d ÷ 1000000.

Definition kDefaultDeadlineCap : Z := Seconds 25.
Definition kRecordMargin : Z := Seconds 5.
Definition kLeakWarningDeadlineMultiple : Z := 3.
Definition kLeakWarningInterval : Z := Seconds 60.

(** [env] is the environment variable, [atoi] is [absl::SimpleAtoi] into an [int]. *)
Definition DeadlineCap (atoi : string -> option Z) (env : option string) : Z :=
  match env with
  | None => kDefaultDeadlineCap
  | Some text =>
      match atoi text with
      | Some seconds => if seconds <=? 0 then kDefaultDeadlineCap else Seconds seconds
      | None => kDefaultDeadlineCap
      end
  end.

(** ** Operations *)

Inductive OpState : Type :=
  | kPending | kCompleting | kCommitted | kAllExist | kPartialExist | kFailed | kStoredUnregistered.

#[global] Instance OpState_eq_dec : EqDecision OpState.
Proof. solve_decision. Defined.

Record WriteOp : Type := mkOp {
  id : Z;
  state : OpState;
  block_hashes : list Hash;
  landing_block_ids : list Z;
  existing_hashes : list Hash;
  unregistered_hashes : list Hash;
  accepted_at : Z;
  deadline : Z;
  expires_at : Z;
  granted_deadline : Z;
  blocks_released : bool;
  next_leak_warning : option Z;
  settle_done : bool
}.

Record KVCacheStoreServiceImpl : Type := mkService {
  connected : bool;
  backend_ : Backend;
  manager : Manager;
  unit_ : RaidenId;
  heap : list WriteOp;
  write_ops_ : gmap Z nat
}.

Implicit Types (s : KVCacheStoreServiceImpl) (op : WriteOp) (p : nat).

Definition with_backend (b : Backend) s : KVCacheStoreServiceImpl :=
  mkService (connected s) b (manager s) (unit_ s) (heap s) (write_ops_ s).
Definition with_manager (m : Manager) s : KVCacheStoreServiceImpl :=
  mkService (connected s) (backend_ s) m (unit_ s) (heap s) (write_ops_ s).
Definition with_heap (h : list WriteOp) s : KVCacheStoreServiceImpl :=
  mkService (connected s) (backend_ s) (manager s) (unit_ s) h (write_ops_ s).
Definition with_ops (ops : gmap Z nat) s : KVCacheStoreServiceImpl :=
  mkService (connected s) (backend_ s) (manager s) (unit_ s) (heap s) ops.

(** A write through the shared pointer. *)
Definition update p (f : WriteOp -> WriteOp) s : KVCacheStoreServiceImpl :=
  with_heap (alter f p (heap s)) s.

Definition with_state (st : OpState) op : WriteOp :=
  mkOp (id op) st (block_hashes op) (landing_block_ids op) (existing_hashes op) (unregistered_hashes op)
    (accepted_at op) (deadline op) (expires_at op) (granted_deadline op) (blocks_released op)
    (next_leak_warning op) (settle_done op).
Definition with_verdict (existing unregistered : list Hash) op : WriteOp :=
  mkOp (id op) (state op) (block_hashes op) (landing_block_ids op) existing unregistered
    (accepted_at op) (deadline op) (expires_at op) (granted_deadline op) (blocks_released op)
    (next_leak_warning op) (settle_done op).
Definition mark_released op : WriteOp :=
  mkOp (id op) (state op) (block_hashes op) (landing_block_ids op) (existing_hashes op) (unregistered_hashes op)
    (accepted_at op) (deadline op) (expires_at op) (granted_deadline op) true None (settle_done op).
Definition with_leak_warning (t : option Z) op : WriteOp :=
  mkOp (id op) (state op) (block_hashes op) (landing_block_ids op) (existing_hashes op) (unregistered_hashes op)
    (accepted_at op) (deadline op) (expires_at op) (granted_deadline op) (blocks_released op) t (settle_done op).
Definition mark_settled op : WriteOp :=
  mkOp (id op) (state op) (block_hashes op) (landing_block_ids op) (existing_hashes op) (unregistered_hashes op)
    (accepted_at op) (deadline op) (expires_at op) (granted_deadline op) (blocks_released op)
    (next_leak_warning op) true.

Definition ToWireState (st : OpState) : HostOffload.PollState :=
  match st with
  | kPending | kCompleting => HostOffload.PENDING
  | kCommitted => HostOffload.COMMITTED
  | kAllExist => HostOffload.ALL_EXIST
  | kPartialExist => HostOffload.PARTIAL_EXIST
  | kFailed => HostOffload.FAILED
  | kStoredUnregistered => HostOffload.STORED_UNREGISTERED
  end.

Definition FindOp s (op_id : Z) : option nat := write_ops_ s !! op_id.

(** ** Requests *)

Record RaidenWorkerEndpoints : Type := mkGroup {
  node_id : Z;
  worker_id : string;
  endpoints : list Workers.RaidenTransferEndpoint
}.

Record Buffer : Type := mkBuffer {
  buf_id : Z;
  memory_type : HostOffload.MemoryType;
  remote_worker_endpoints : list RaidenWorkerEndpoints
}.

(** The buffers of a call, with the peer's endpoints on the remote side. *)
Definition buffers (groups : list RaidenWorkerEndpoints) (ids : list Z) : list Buffer :=
  (fun i => mkBuffer i HostOffload.MEMORY_TYPE_DRAM groups) <$> ids.

Record WriteRequest : Type := mkWriteRequest {
  wr_block_hashes : list Hash;
  wr_src_host_block_ids : list Z;
  wr_deadline_ms : Z;
  wr_src_raiden_id : RaidenId;
  wr_src_worker_endpoints : list RaidenWorkerEndpoints
}.

(** ** WriteRemote *)

(** The checks and the answers that need no transfer. *)
Definition CheckOffer (req : WriteRequest) s : StatusOr (option HostOffload.WriteRemoteResponse) :=
  if negb (connected s) then Err kFailedPrecondition StrCat["Backend or RaidenController non-initialized"]
  else if (length (wr_block_hashes req) =? 0)%nat then
    Err kInvalidArgument StrCat["WriteRemoteRequest requires non-empty block_hashes."]
  else if negb (length (wr_src_host_block_ids req) =? length (wr_block_hashes req))%nat then
    Err kInvalidArgument StrCat["Mismatched src_host_block_ids count vs block_hashes count."]
  else if wr_deadline_ms req <=? 0 then
    Err kInvalidArgument
      StrCat["WriteRemote requires a positive deadline_ms; got "; wr_deadline_ms req;
             " (an unset field is indistinguishable from 0)."]
  else if negb (RaidenId_empty (wr_src_raiden_id req)) && RaidenId_eqb (wr_src_raiden_id req) (unit_ s) then
    Err kInvalidArgument StrCat["WriteRemote destination is this store; there is nothing to transfer."]
  else
    let present := HostOffload.AlreadyPresentHostResident (wr_block_hashes req) (backend_ s) in
    if (length present =? length (wr_block_hashes req))%nat then
      Ok (Some (HostOffload.mkWriteResponse 0 HostOffload.WRITE_ALL_EXIST present 0))
    else if negb (length present =? 0)%nat then
      Ok (Some (HostOffload.mkWriteResponse 0 HostOffload.WRITE_PARTIAL_EXIST present 0))
    else if (length (wr_src_worker_endpoints req) =? 0)%nat then
      Err kInvalidArgument
        StrCat["WriteRemote requires the source's worker endpoints: the destination pulls, so it needs somewhere to pull from."]
    else Ok None.

Definition AllocateLanding (req : WriteRequest) s : StatusOr (list Z) * KVCacheStoreServiceImpl :=
  match HostOffload.AllocateBlockIds (manager s) (Z.of_nat (length (wr_block_hashes req))) with
  | (Err _ msg, m) =>
      (Err kResourceExhausted (StrCat["Failed to allocate destination landing blocks: "] ++ msg), with_manager m s)
  | (Ok ids, m) => (Ok ids, with_manager m s)
  end.

(** The operation id: the first draw that is neither 0 nor taken. *)
Definition next_op_id (draws : list Z) s : option Z :=
  snd <$> list_find (fun d => d ≠ 0 ∧ write_ops_ s !! d = None) draws.

(** [std::min(absl::Milliseconds(request->deadline_ms()), DeadlineCap())]. *)
Definition grant (cap : Z) (req : WriteRequest) : Z := Z.min (Milliseconds (wr_deadline_ms req)) cap.

Definition new_op (cap now op_id : Z) (req : WriteRequest) (ids : list Z) : WriteOp :=
  mkOp op_id kPending (wr_block_hashes req) ids [] [] now (now + grant cap req)
    (now + grant cap req + kRecordMargin) (grant cap req) false
    (Some (now + grant cap req * kLeakWarningDeadlineMultiple)) false.

(** Recording the operation and issuing the pull into the landing blocks. *)
Definition Accept (cap now op_id : Z) (req : WriteRequest) (ids : list Z) s :
    HostOffload.WriteRemoteResponse * (list Buffer * list Buffer) * KVCacheStoreServiceImpl :=
  (HostOffload.mkWriteResponse op_id HostOffload.WRITE_EXIST_STATE_UNSPECIFIED []
     (ToInt64Milliseconds (grant cap req)),
   (buffers (wr_src_worker_endpoints req) (wr_src_host_block_ids req), buffers [] ids),
   with_ops (<[op_id := length (heap s)]> (write_ops_ s))
     (with_heap (heap s ++ [new_op cap now op_id req ids]) s)).

(** The whole handler, when nothing else runs; the transfer it starts is the second
    component.  [None] when the draws run out. *)
Definition WriteRemote (cap now : Z) (draws : list Z) (req : WriteRequest) s :
    option (StatusOr HostOffload.WriteRemoteResponse * option (list Buffer * list Buffer) *
            KVCacheStoreServiceImpl) :=
  match CheckOffer req s with
  | Err code msg => Some (Err code msg, None, s)
  | Ok (Some response) => Some (Ok response, None, s)
  | Ok None =>
      match AllocateLanding req s with
      | (Err code msg, s) => Some (Err code msg, None, s)
      | (Ok ids, s) =>
          match next_op_id draws s with
          | None => None
          | Some op_id =>
              let '(response, transfer, s) := Accept cap now op_id req ids s in
              Some (Ok response, Some transfer, s)
          end
      end
  end.

(** ** Completion *)

(** Where a completion is, between two of its critical sections. *)
Inductive Completion : Type :=
  | CRecheck (p : nat)
  | CInsert (p : nat)
  | CRegister (p : nat)
  | CFinish (p : nat) (st : OpState) (existing : list Hash)
  | CRelease (p : nat)
  | CDeallocate (p : nat) (ids : list Z)
  | CSettle (p : nat).

(** The claim, under the lock. *)
Definition Claim (now op_id : Z) (transfer_status : Status) s : option Completion * KVCacheStoreServiceImpl :=
  match FindOp s op_id with
  | None => (None, s)
  | Some p =>
      match heap s !! p with
      | None => (None, s)
      | Some op =>
          if ok transfer_status && bool_decide (state op = kPending) && (now <? deadline op) then
            (Some (CRecheck p), update p (with_state kCompleting) s)
          else if bool_decide (state op = kPending) then
            (Some (CRelease p), update p (with_state kFailed) s)
          else (Some (CRelease p), s)
      end
  end.

Definition kept_by_cache (st : OpState) : bool :=
  bool_decide (st = kCommitted) || bool_decide (st = kStoredUnregistered).

(** The first part of [finish], under the lock. *)
Definition finish_op (st : OpState) (existing : list Hash) op : WriteOp :=
  let op := with_verdict existing
              (if bool_decide (st = kStoredUnregistered) then block_hashes op else unregistered_hashes op)
              (with_state st op) in
  if kept_by_cache st then mark_released op else op.

(** The first part of [ReleaseLandingBlocks], under the lock. *)
Definition StartRelease p s : option (list Z) * KVCacheStoreServiceImpl :=
  match heap s !! p with
  | None => (None, s)
  | Some op =>
      if blocks_released op || (length (landing_block_ids op) =? 0)%nat then (None, s)
      else (Some (landing_block_ids op), update p mark_released s)
  end.

Definition slices_of (local_id : RaidenId) (ids : list Z) : list RaidenBlockId :=
  (fun i => host_block local_id i HOST) <$> ids.

(** One critical section of a claimed or refused completion; [registered] is the status of
    [RegisterBlocksSync]. *)
Definition complete_step (registered : Status) (c : Completion) s :
    option Completion * KVCacheStoreServiceImpl :=
  match c with
  | CRecheck p =>
      match heap s !! p with
      | None => (None, s)
      | Some op =>
          let present := HostOffload.AlreadyPresentHostResident (block_hashes op) (backend_ s) in
          if (length present =? length (block_hashes op))%nat then (Some (CFinish p kAllExist []), s)
          else if negb (length present =? 0)%nat then (Some (CFinish p kPartialExist present), s)
          else (Some (CInsert p), s)
      end
  | CInsert p =>
      match heap s !! p with
      | None => (None, s)
      | Some op =>
          let '(inserted, b) :=
            HostOffload.InsertAllOrNothing (block_hashes op)
              (slices_of (unit_ s) (landing_block_ids op)) (backend_ s) in
          (Some (if inserted then CRegister p else CFinish p kFailed []), with_backend b s)
      end
  | CRegister p =>
      (Some (CFinish p (if ok registered then kCommitted else kStoredUnregistered) []), s)
  | CFinish p st existing =>
      (Some (if kept_by_cache st then CSettle p else CRelease p), update p (finish_op st existing) s)
  | CRelease p =>
      match StartRelease p s with
      | (None, s) => (Some (CSettle p), s)
      | (Some ids, s) => (Some (CDeallocate p ids), s)
      end
  | CDeallocate p ids =>
      (Some (CSettle p), with_manager (HostOffload.DeallocateBlockIds (manager s) ids) s)
  | CSettle p => (None, update p mark_settled s)
  end.

(** The status the registration of an operation ends with; [rpc] is the registry. *)
Definition registered_status (rpc : HostOffload.RegistryCall -> Status) p s : Status :=
  match heap s !! p with
  | None => OkStatus
  | Some op =>
      match HostOffload.RegisterBlocksSync (block_hashes op) (landing_block_ids op) (backend_ s) with
      | Err code msg => Err code msg
      | Ok None => OkStatus
      | Ok (Some call) => rpc call
      end
  end.

(** The whole completion, when nothing else runs. *)
Fixpoint complete_run (fuel : nat) (rpc : HostOffload.RegistryCall -> Status) (c : Completion) s :
    option Completion * KVCacheStoreServiceImpl :=
  match fuel with
  | O => (Some c, s)
  | S fuel =>
      let registered := match c with CRegister p => registered_status rpc p s | _ => OkStatus end in
      match complete_step registered c s with
      | (None, s) => (None, s)
      | (Some c, s) => complete_run fuel rpc c s
      end
  end.

Definition CompleteWriteRemote (rpc : HostOffload.RegistryCall -> Status) (now op_id : Z)
    (transfer_status : Status) s : option Completion * KVCacheStoreServiceImpl :=
  match Claim now op_id transfer_status s with
  | (None, s) => (None, s)
  | (Some c, s) => complete_run 8 rpc c s
  end.

(** ** PollWriteRemote *)

Record PollReply : Type := mkReply {
  reply : HostOffload.PollWriteRemoteResponse;
  committed_hashes : list Hash;
  failed_hashes : list Hash
}.

(** A record that may be dropped. *)
Definition expired (now : Z) op : bool :=
  negb (bool_decide (state op = kCompleting)) && negb (bool_decide (state op = kPending)) &&
  blocks_released op && (expires_at op <=? now).

Definition purge (now : Z) s : KVCacheStoreServiceImpl :=
  with_ops (filter (fun e : Z * nat => from_option (expired now) false (heap s !! e.2) = false) (write_ops_ s)) s.

Definition PollWriteRemote (now op_id : Z) s : StatusOr PollReply * KVCacheStoreServiceImpl :=
  if op_id =? 0 then
    (Err kInvalidArgument StrCat["operation_id 0 is reserved and never identifies an operation."], s)
  else
    let s := purge now s in
    match FindOp s op_id ≫= fun p => heap s !! p with
    | None => (Ok (mkReply (HostOffload.mkPollResponse HostOffload.STATE_UNKNOWN [] []) [] []), s)
    | Some op =>
        (Ok (mkReply
               (HostOffload.mkPollResponse (ToWireState (state op)) (existing_hashes op) (unregistered_hashes op))
               (if bool_decide (state op = kCommitted) then block_hashes op else [])
               (if bool_decide (state op = kFailed) then block_hashes op else [])), s)
    end.

(** ** DeadlineLoop *)

Definition min_time (a b : option Z) : option Z :=
  match a, b with Some x, Some y => Some (Z.min x y) | None, t | t, None => t end.

(** One operation's turn: the operation afterwards and the times it asks to be woken at. *)
Definition deadline_op (paused : bool) (now : Z) op : WriteOp * option Z :=
  let armed := bool_decide (state op = kPending) && negb paused in
  let op1 := if armed && (deadline op <=? now) then with_state kFailed op else op in
  let wake1 := if armed && negb (deadline op <=? now) then Some (deadline op) else None in
  if negb (blocks_released op1) && negb (length (landing_block_ids op1) =? 0)%nat then
    let due := match next_leak_warning op1 with Some t => t <=? now | None => false end in
    let op2 := if due then with_leak_warning (Some (now + kLeakWarningInterval)) op1 else op1 in
    (op2, min_time wake1 (next_leak_warning op2))
  else (op1, wake1).

(** One round over the table, in its iteration order, up to the wait. *)
Definition deadline_visit (paused : bool) (now : Z) (acc : option Z * KVCacheStoreServiceImpl) p :
    option Z * KVCacheStoreServiceImpl :=
  match heap acc.2 !! p with
  | None => acc
  | Some op =>
      let '(op', wake) := deadline_op paused now op in
      (min_time acc.1 wake, update p (fun _ => op') acc.2)
  end.

Definition DeadlineLoop (paused : bool) (now : Z) s : option Z * KVCacheStoreServiceImpl :=
  foldl (deadline_visit paused now) (None, s) (map_to_list (write_ops_ s)).*2.

(** ** Fetch *)

Record FetchRequest : Type := mkFetchRequest {
  fr_block_hashes : list Hash;
  fr_host_block_ids : list Z;
  fr_client_raiden_id : RaidenId;
  fr_client_worker_endpoints : list RaidenWorkerEndpoints
}.

(** The source blocks, when every one is resident in host memory. *)
Definition source_block (acc : list Z) (slice : Hash * RaidenBlockId) : StatusOr (list Z) :=
  if on_host slice.2 then Ok (acc ++ [host_block_id slice.2])
  else Err kFailedPrecondition StrCat["Block hash '"; KVMeta.string_of_bytes slice.1; "' is not resident in host DRAM"].

(** [registry] and [during] are those of the lookup, which returns no error status; [transfer] is the transfer of the
    controller and [meanwhile] what other threads do to the backend until it resolves. *)
Definition Fetch (registry : list Hash -> StatusOr (list HostOffload.KVBlockMetadata))
    (during between meanwhile : list HostOffload.Op)
    (transfer : list Buffer -> list Buffer -> Status) (req : FetchRequest) s :
    StatusOr (list Hash) * KVCacheStoreServiceImpl :=
  let hashes := fr_block_hashes req in
  if negb (connected s) then (Err kFailedPrecondition StrCat["Backend or RaidenController non-initialized"], s)
  else if (length hashes =? 0)%nat then (Ok [], s)
  else if negb (length (fr_host_block_ids req) =? length hashes)%nat then
    (Err kInvalidArgument StrCat["Mismatched host_block_ids count vs block_hashes count."], s)
  else
    let '(slices, b) := HostOffload.Lookup registry during hashes default_options (backend_ s) in
    let s := with_backend b s in
    if (length slices <? length hashes)%nat then
      (Err kNotFound StrCat["Partial block match: found "; Z.of_nat (length slices); " out of ";
                            Z.of_nat (length hashes)], s)
    else
      match for_each source_block slices [] with
      | Err code msg => (Err code msg, s)
      | Ok src_host_block_ids =>
          let cross_node := negb (RaidenId_empty (fr_client_raiden_id req)) &&
                            negb (RaidenId_eqb (fr_client_raiden_id req) (unit_ s)) in
          if cross_node && (length (fr_client_worker_endpoints req) =? 0)%nat then
            (Err kInvalidArgument
               StrCat["Cross-node FetchRequest requires non-empty client_worker_endpoints."], s)
          else
            let '(pinned, b) := HostOffload.Pin hashes (HostOffload.run between (backend_ s)) in
            if negb pinned then
              (Err kResourceExhausted
                 StrCat["Failed to pin host blocks; blocks may be locked or undergoing eviction."],
               with_backend b s)
            else
              let status := transfer (buffers [] src_host_block_ids)
                              (buffers (fr_client_worker_endpoints req) (fr_host_block_ids req)) in
              let s := with_backend (HostOffload.Release hashes (HostOffload.run meanwhile b)) s in
              match status with
              | Err _ msg => (Err kInternal (StrCat["Fetch TransferBuffers failed: "] ++ msg), s)
              | Ok _ => (Ok hashes, s)
              end
      end.
End Service.
