(* ===== verification/KVCacheStoreServiceSteps.v ===== *)
(** * Remote writes at the destination, under every interleaving

    [Module ServiceSteps] interleaves the critical sections of KVCacheStoreService.v: calls
    of [WriteRemote] and [PollWriteRemote], resolving transfers and the completions they run
    (one at a time: a completion holds the service's lifetime lock), rounds of the deadline
    thread, the clock, and any step of the rest of the node on the backend and on the block
    pool that leaves the landing blocks the service holds alone. *)

From S2P Require Import Prelude ReshardTypes StoreBackend LruCache LogicalBlockManager HostOffloadBackend HostOffloadLookup HostOffloadInsert HostOffloadTransfer KVCacheStoreService.
Import Service.

Module ServiceSteps.

(** ** The system *)

(** [handlers] are the calls of [WriteRemote] that own landing blocks and have not recorded
    their operation, [transfers] the operations whose transfer has not resolved; [freed]
    logs the operation of every deallocation and [claims] the time of every claim. *)
Record World : Type := mkWorld {
  svc : KVCacheStoreServiceImpl;
  now : Z;
  handlers : list (WriteRequest * list Z);
  transfers : list Z;
  completing : option Completion;
  freed : list nat;
  claims : gmap nat Z
}.

Implicit Types (w : World) (op : WriteOp) (p q : nat) (c : Completion).

Definition pc c : nat :=
  match c with
  | CRecheck p | CInsert p | CRegister p | CFinish p _ _ | CRelease p | CDeallocate p _ | CSettle p => p
  end.

(** The landing blocks of the operations that have not released them. *)
Definition unreleased (h : list WriteOp) : list Z :=
  h ≫= fun op => if blocks_released op then [] else landing_block_ids op.

(** The blocks a completion is about to return. *)
Definition returning (next : option Completion) : list Z :=
  match next with Some (CDeallocate _ ids) => ids | _ => [] end.

(** The landing blocks in the service's hands. *)
Definition held w : list Z :=
  (handlers w ≫= snd) ++ unreleased (heap (svc w)) ++ returning (completing w).

Definition log_free (c : Completion) (fr : list nat) : list nat :=
  match c with CDeallocate p _ => p :: fr | _ => fr end.
Definition log_claim (next : option Completion) (t : Z) (cl : gmap nat Z) : gmap nat Z :=
  match next with Some (CRecheck p) => <[p := t]> cl | _ => cl end.

(** What the rest of the node leaves alone. *)
Definition respects (ids : list Z) (m m' : Manager) : Prop :=
  LBM.wf m' ∧ (OffloadTransfer.owns m ids -> OffloadTransfer.owns m' ids).

(** A call of [WriteRemote] reads the clock before it takes the lock: [t] of [StepAccept]. *)
Inductive step : World -> World -> Prop :=
  | StepTime w t : now w <= t ->
      step w (mkWorld (svc w) t (handlers w) (transfers w) (completing w) (freed w) (claims w))
  | StepAllocate w req s0 ids s' :
      CheckOffer req s0 = Ok None ->
      LBM.access_counter_ (manager (svc w)) + 1 < 2 ^ 64 ->
      AllocateLanding req (svc w) = (Ok ids, s') ->
      step w (mkWorld s' (now w) (handlers w ++ [(req, ids)]) (transfers w) (completing w) (freed w) (claims w))
  | StepAccept w i req ids cap op_id t :
      handlers w !! i = Some (req, ids) -> 0 < cap -> t <= now w ->
      op_id ≠ 0 -> write_ops_ (svc w) !! op_id = None ->
      step w (mkWorld (Accept cap t op_id req ids (svc w)).2 (now w) (delete i (handlers w))
                (op_id :: transfers w) (completing w) (freed w) (claims w))
  | StepResolve w i op_id status next s' :
      transfers w !! i = Some op_id -> completing w = None ->
      Claim (now w) op_id status (svc w) = (next, s') ->
      step w (mkWorld s' (now w) (handlers w) (delete i (transfers w)) next (freed w)
                (log_claim next (now w) (claims w)))
  | StepComplete w c registered next s' :
      completing w = Some c -> complete_step registered c (svc w) = (next, s') ->
      step w (mkWorld s' (now w) (handlers w) (transfers w) next (log_free c (freed w)) (claims w))
  | StepDeadline w paused :
      step w (mkWorld (DeadlineLoop paused (now w) (svc w)).2 (now w) (handlers w) (transfers w)
                (completing w) (freed w) (claims w))
  | StepPoll w op_id :
      step w (mkWorld (PollWriteRemote (now w) op_id (svc w)).2 (now w) (handlers w) (transfers w)
                (completing w) (freed w) (claims w))
  | StepNode w b m : respects (held w) (manager (svc w)) m ->
      step w (mkWorld (with_manager m (with_backend b (svc w))) (now w) (handlers w) (transfers w)
                (completing w) (freed w) (claims w)).

(** A service that has not accepted anything yet. *)
Definition initial w : Prop :=
  heap (svc w) = [] ∧ write_ops_ (svc w) = ∅ ∧ handlers w = [] ∧ transfers w = [] ∧
  completing w = None ∧ freed w = [] ∧ claims w = ∅ ∧ LBM.wf (manager (svc w)).

Definition reachable w : Prop := exists w0, initial w0 ∧ rtc step w0 w.

(** ** The invariant *)

Definition times p (fr : list nat) : nat := length (filter (eq p) fr).

Definition terminal (st : OpState) : Prop := st ≠ kPending ∧ st ≠ kCompleting.

(** How a settled operation ended: its blocks belong to the cache, or went back once. *)
Definition outcome (fr : list nat) p op : Prop :=
  terminal (state op) ∧ blocks_released op = true ∧ times p fr = if kept_by_cache (state op) then 0%nat else 1%nat.

Definition pc_ok (fr : list nat) c p op : Prop :=
  match c with
  | CRecheck _ | CInsert _ | CRegister _ =>
      state op = kCompleting ∧ blocks_released op = false ∧ times p fr = 0%nat
  | CFinish _ st _ =>
      state op = kCompleting ∧ blocks_released op = false ∧ times p fr = 0%nat ∧ terminal st
  | CRelease _ =>
      terminal (state op) ∧ kept_by_cache (state op) = false ∧ blocks_released op = false ∧ times p fr = 0%nat
  | CDeallocate _ ids =>
      terminal (state op) ∧ kept_by_cache (state op) = false ∧ blocks_released op = true ∧
      times p fr = 0%nat ∧ ids = landing_block_ids op
  | CSettle _ => outcome fr p op
  end.

Definition at_pc w p : option Completion :=
  completing w ≫= fun c => if decide (pc c = p) then Some c else None.

(** An operation waits for its transfer, is being completed, or has settled. *)
Definition stage w p op : Prop :=
  match at_pc w p with
  | Some c => settle_done op = false ∧ pc_ok (freed w) c p op
  | None =>
      if settle_done op then outcome (freed w) p op
      else id op ∈ transfers w ∧ (state op = kPending ∨ state op = kFailed) ∧ blocks_released op = false ∧
           times p (freed w) = 0%nat
  end.

(** A claim precedes the deadline. *)
Definition claim_ok w p op : Prop :=
  forall t, claims w !! p = Some t -> accepted_at op <= t < deadline op ∧ t <= now w.

Record op_ok w p op : Prop := {
  ok_stage : stage w p op;
  ok_live : blocks_released op = false -> write_ops_ (svc w) !! id op = Some p;
  ok_landing : landing_block_ids op ≠ [];
  ok_times : accepted_at op <= now w ∧ deadline op = accepted_at op + granted_deadline op ∧
             expires_at op = deadline op + kRecordMargin ∧ 0 < granted_deadline op;
  ok_claims : claim_ok w p op;
  ok_claimed : state op ≠ kPending -> state op ≠ kFailed -> is_Some (claims w !! p);
  ok_leak : blocks_released op = false -> is_Some (next_leak_warning op)
}.

Record inv w : Prop := {
  inv_table : forall i p, write_ops_ (svc w) !! i = Some p -> exists op, heap (svc w) !! p = Some op ∧ id op = i;
  inv_ops : forall p op, heap (svc w) !! p = Some op -> op_ok w p op;
  inv_pc : forall c, completing w = Some c -> is_Some (heap (svc w) !! pc c);
  inv_flight : NoDup (transfers w) ∧
    forall i, i ∈ transfers w -> exists p op, write_ops_ (svc w) !! i = Some p ∧ heap (svc w) !! p = Some op ∧
      at_pc w p = None ∧ settle_done op = false;
  inv_handlers : Forall (fun h => h.2 ≠ [] ∧ 0 < wr_deadline_ms h.1) (handlers w);
  inv_claims : forall p t, claims w !! p = Some t -> is_Some (heap (svc w) !! p);
  inv_freed : Forall (fun p => is_Some (heap (svc w) !! p)) (freed w);
  inv_held : LBM.wf (manager (svc w)) ∧ OffloadTransfer.owns (manager (svc w)) (held w)
}.

(** ** Preservation *)

Lemma at_pc_eq w c : completing w = Some c -> at_pc w (pc c) = Some c.
Proof. intros H. unfold at_pc. rewrite H. simpl. by rewrite decide_True. Qed.
Lemma at_pc_ne w c p : completing w = Some c -> pc c ≠ p -> at_pc w p = None.
Proof. intros H Hp. unfold at_pc. rewrite H. simpl. by rewrite decide_False. Qed.
Lemma at_pc_none w p : completing w = None -> at_pc w p = None.
Proof. intros H. unfold at_pc. by rewrite H. Qed.

(** The contribution of one operation to the unreleased blocks. *)
Definition contribution op : list Z := if blocks_released op then [] else landing_block_ids op.

Lemma unreleased_alter h p op : h !! p = Some op ->
  exists rest, unreleased h ≡ₚ contribution op ++ rest ∧
    forall f, unreleased (alter f p h) ≡ₚ contribution (f op) ++ rest.
Proof.
  intros Hp. exists (unreleased (take p h ++ drop (S p) h)).
  assert (Hsplit : forall x, unreleased (take p h ++ x :: drop (S p) h) ≡ₚ
                             contribution x ++ unreleased (take p h ++ drop (S p) h)).
  { intros x. unfold unreleased. rewrite !bind_app, bind_cons. fold (contribution x).
    rewrite Permutation_app_swap_app. done. }
  split.
  - rewrite <-(take_drop_middle h p op Hp) at 1. apply Hsplit.
  - intros f. rewrite <-(take_drop_middle (alter f p h) p (f op)).
    + rewrite take_alter, drop_alter, !decide_False by lia. apply Hsplit.
    + by rewrite list_lookup_alter_eq, Hp.
Qed.

Lemma owns_perm m ids ids' : ids ≡ₚ ids' -> OffloadTransfer.owns m ids -> OffloadTransfer.owns m ids'.
Proof. intros Hp [Hn Hf]. split; [by rewrite <-Hp|by rewrite <-Hp]. Qed.
Lemma owns_app_r m ids ids' : OffloadTransfer.owns m (ids ++ ids') -> OffloadTransfer.owns m ids'.
Proof. intros [Hn Hf]. apply NoDup_app in Hn as (_ & _ & Hn). by apply Forall_app in Hf as [_ Hf]. Qed.

Lemma pc_ok_times fr fr' c p op : times p fr' = times p fr -> pc_ok fr c p op -> pc_ok fr' c p op.
Proof. intros E. destruct c; unfold pc_ok, outcome; by rewrite E. Qed.

(** An operation that a step does not touch. *)
Lemma op_ok_frame w w' p op :
  op_ok w p op -> at_pc w' p = at_pc w p ->
  (at_pc w p = None -> id op ∈ transfers w -> settle_done op = false -> id op ∈ transfers w') ->
  times p (freed w') = times p (freed w) ->
  (write_ops_ (svc w) !! id op = Some p -> blocks_released op = false -> write_ops_ (svc w') !! id op = Some p) ->
  now w <= now w' -> claims w' !! p = claims w !! p -> op_ok w' p op.
Proof.
  intros [Hst Hlive Hland Htm Hcl Hcd Hlk] Hpc Htr Hfr Htab Hnow Hc. split; [|naive_solver|done|intuition lia| |by rewrite Hc|done].
  - unfold stage in *. rewrite Hpc. destruct (at_pc w p) as [c|] eqn:E.
    + destruct Hst. split; [done|]. by eapply pc_ok_times.
    + destruct (settle_done op); [unfold outcome in *; by rewrite Hfr|].
      rewrite Hfr. naive_solver.
  - intros t Ht. rewrite Hc in Ht. specialize (Hcl t Ht). lia.
Qed.

Lemma initial_inv w : initial w -> inv w.
Proof.
  intros (Hh & Hw & Hha & Ht & Hc & Hf & Hcl & Hm). split; rewrite ?Hh, ?Hw, ?Hha, ?Ht, ?Hc, ?Hf, ?Hcl.
  - intros i p. by rewrite lookup_empty.
  - done.
  - done.
  - split; [constructor|]. by intros i Hi%elem_of_nil.
  - constructor.
  - intros p t. by rewrite lookup_empty.
  - constructor.
  - split; [done|]. unfold held. rewrite Hha, Hh, Hc. split; constructor.
Qed.

Lemma inv_time w t : inv w -> now w <= t ->
  inv (mkWorld (svc w) t (handlers w) (transfers w) (completing w) (freed w) (claims w)).
Proof.
  intros [Ht Ho Hp Hf Hh Hc Hfr Hhe] Hle. split; try done. intros p op Hop. apply (op_ok_frame w); auto.
Qed.

Lemma inv_node w b m : inv w -> respects (held w) (manager (svc w)) m ->
  inv (mkWorld (with_manager m (with_backend b (svc w))) (now w) (handlers w) (transfers w) (completing w)
         (freed w) (claims w)).
Proof.
  intros [Ht Ho Hp Hf Hh Hc Hfr [Hwf Hown]] [Hwf' Hres]. split; try done.
  - intros p op Hop. apply (op_ok_frame w); auto. apply Z.le_refl.
  - split; [done|]. by apply Hres.
Qed.

Lemma CheckOffer_none req s : CheckOffer req s = Ok None -> wr_block_hashes req ≠ [] ∧ 0 < wr_deadline_ms req.
Proof.
  unfold CheckOffer. intros H. guards H; try discriminate. split; [|lia]. by destruct (wr_block_hashes req).
Qed.

Lemma inv_allocate w req s0 ids s' : inv w -> CheckOffer req s0 = Ok None ->
  LBM.access_counter_ (manager (svc w)) + 1 < 2 ^ 64 -> AllocateLanding req (svc w) = (Ok ids, s') ->
  inv (mkWorld s' (now w) (handlers w ++ [(req, ids)]) (transfers w) (completing w) (freed w) (claims w)).
Proof.
  intros [Ht Ho Hp Hf Hh Hc Hfr [Hwf Hown]] Hreq%CheckOffer_none Hctr Ha. unfold AllocateLanding in Ha.
  destruct (HostOffload.AllocateBlockIds _ _) as [[ids'|] m] eqn:Em; [|done]. injection Ha as -> <-.
  destruct (OffloadTransfer.allocate_owns _ _ _ _ Hwf Em) as (Hlen & _).
  assert (Hm : m = LBM.apply_op (LBM.OpAllocate (Z.of_nat (length (wr_block_hashes req))) true) (manager (svc w))).
  { cbn. unfold HostOffload.AllocateBlockIds in Em. by rewrite Em. }
  split; try done.
  - intros p op Hop. apply (op_ok_frame w); auto. apply Z.le_refl.
  - apply Forall_app. split; [done|]. constructor; [|constructor]. cbn. split; [|apply Hreq].
    intros ->. destruct Hreq as [Hne _]. destruct (wr_block_hashes req); done.
  - cbn. split; [rewrite Hm; by apply LBM.lbm_apply_op_wf|].
    apply (owns_perm _ (ids ++ held w)).
    { unfold held. cbn. rewrite bind_app. cbn. rewrite app_nil_r. solve_Permutation. }
    by eapply OffloadTransfer.allocate_respects.
Qed.

Lemma grant_pos cap req : 0 < cap -> 0 < wr_deadline_ms req -> 0 < grant cap req.
Proof. unfold grant, Milliseconds. lia. Qed.

Lemma inv_accept w i req ids cap op_id t0 : inv w -> handlers w !! i = Some (req, ids) -> 0 < cap -> t0 <= now w ->
  write_ops_ (svc w) !! op_id = None ->
  inv (mkWorld (Accept cap t0 op_id req ids (svc w)).2 (now w) (delete i (handlers w))
         (op_id :: transfers w) (completing w) (freed w) (claims w)).
Proof.
  intros [Ht Ho Hp Hf Hh Hc Hfr [Hwf Hown]] Hi Hcap Ht0 Hid.
  set (op' := new_op cap t0 op_id req ids). set (n := length (heap (svc w))).
  assert (Hn : heap (svc w) !! n = None) by (by apply lookup_ge_None).
  assert (Hold : forall p op, heap (svc w) !! p = Some op -> (heap (svc w) ++ [op']) !! p = Some op).
  { intros p op. apply lookup_app_l_Some. }
  assert (Hpcn : at_pc w n = None).
  { destruct (completing w) as [c|] eqn:E; [|by apply at_pc_none]. apply (at_pc_ne w c); [done|]. intros <-.
    destruct (Hp c eq_refl) as [op Hop]. by rewrite Hn in Hop. }
  pose proof (proj1 (Forall_forall _ _) Hh _ (list_elem_of_lookup_2 _ _ _ Hi)) as [Hne Hdl]. cbn in Hne, Hdl.
  pose proof (grant_pos cap req Hcap Hdl) as Hg.
  split; cbn.
  - intros j p. destruct (decide (j = op_id)) as [->|Hj].
    + rewrite lookup_insert_eq. intros [= <-]. exists op'. by rewrite list_lookup_middle.
    + rewrite lookup_insert_ne by done. intros Hw. destruct (Ht j p Hw) as (op & Hop & Hj'). eauto.
  - intros p op [Hop|[Hge Hop]]%lookup_app_Some.
    + apply (op_ok_frame w); auto; cbn; try lia.
      { intros. by apply list_elem_of_further. }
      intros Hin _. rewrite lookup_insert_ne; [done|]. intros ->. by rewrite Hid in Hin.
    + apply list_lookup_singleton_Some in Hop as [Hz <-]. assert (p = n) as -> by (unfold n; lia).
      split; cbn; try done.
      * unfold stage, at_pc. cbn. fold (at_pc w n). rewrite Hpcn. split_and!; [apply list_elem_of_here|by left|done|].
        unfold times. rewrite filter_none; [done|]. apply Forall_forall. intros q Hq <-.
        rewrite Forall_forall in Hfr. destruct (Hfr n Hq) as [op Hop]. by rewrite Hn in Hop.
      * intros _. by rewrite lookup_insert_eq.
      * intros t Htm. cbn in Htm. destruct (Hc n t Htm) as [op Hop]. by rewrite Hn in Hop.
  - intros c Hcm. destruct (Hp c Hcm) as [op Hop]. exists op. auto.
  - destruct Hf as [Hnd Hfl]. split.
    + constructor; [|done]. intros Hin. destruct (Hfl op_id Hin) as (p & op & Hw & _). by rewrite Hid in Hw.
    + intros j [->|Hj]%elem_of_cons.
      * exists n, op'. unfold at_pc; cbn; fold (at_pc w n). rewrite lookup_insert_eq, list_lookup_middle by done. done.
      * destruct (Hfl j Hj) as (p & op & Hw & Hop & Hpc & Hs). exists p, op. split_and!; auto.
        rewrite lookup_insert_ne; [done|]. intros ->. by rewrite Hid in Hw.
  - by apply Forall_delete.
  - intros p t Htm. destruct (Hc p t Htm) as [op Hop]. exists op. auto.
  - eapply Forall_impl; [exact Hfr|]. intros p [op Hop]. exists op. auto.
  - split; [done|]. eapply owns_perm; [|exact Hown]. unfold held, unreleased. cbn.
    rewrite bind_app. cbn. rewrite app_nil_r. rewrite (delete_Permutation (handlers w) i (req, ids) Hi) at 1.
    cbn. solve_Permutation.
Qed.

(** A step of the completion of operation [p]: it changes that operation only. *)
Lemma inv_update w p op f next b m tr fr cl :
  inv w -> heap (svc w) !! p = Some op ->
  let w' := mkWorld (with_manager m (with_backend b (update p f (svc w)))) (now w) (handlers w) tr next fr cl in
  (forall q, q ≠ p -> at_pc w q = None) -> (forall c, next = Some c -> pc c = p) -> id (f op) = id op ->
  NoDup tr -> (forall j, j ∈ tr -> j ∈ transfers w ∧ write_ops_ (svc w) !! j ≠ Some p) ->
  (forall j q, q ≠ p -> j ∈ transfers w -> write_ops_ (svc w) !! j = Some q -> j ∈ tr) ->
  (forall q, q ≠ p -> times q fr = times q (freed w) ∧ cl !! q = claims w !! q) ->
  (forall q, q ∈ fr -> q ∈ p :: freed w) ->
  LBM.wf m -> OffloadTransfer.owns m (held w') -> op_ok w' p (f op) -> inv w'.
Proof.
  intros [Ht Ho Hp [Hnd Hfl] Hh Hc Hfr Hhe] Hop w' Hq Hnext Hid Hnd' Htr Htr' Hlog Hfr' Hwf Hown Hok.
  assert (Hheap : forall q oq, q ≠ p -> alter f p (heap (svc w)) !! q = Some oq <-> heap (svc w) !! q = Some oq).
  { intros q oq Hne. by rewrite list_lookup_alter_ne. }
  assert (Hsome : forall q, is_Some (heap (svc w) !! q) -> is_Some (alter f p (heap (svc w)) !! q)).
  { intros q [oq Hoq]. rewrite list_lookup_alter. case_decide; [subst; by rewrite Hop|]. by rewrite Hoq. }
  assert (Hpc : forall q, q ≠ p -> at_pc w' q = None).
  { intros q Hne. destruct next as [c|] eqn:En; [|by apply at_pc_none].
    apply (at_pc_ne w' c); [done|]. by rewrite (Hnext c). }
  split; cbn.
  - intros j q Hj. destruct (Ht j q Hj) as (oq & Hoq & Hjd). rewrite list_lookup_alter. case_decide as Hd; [|eauto].
    subst q. rewrite Hop. exists (f op). split; [done|]. rewrite Hid. by simplify_eq.
  - intros q oq. rewrite list_lookup_alter. case_decide as Hd.
    + subst q. rewrite Hop. intros [= <-]. done.
    + intros Hoq. destruct (Hlog q ltac:(done)) as [Hlt Hlc].
      apply (op_ok_frame w); auto; [by rewrite Hpc, Hq| |apply Z.le_refl].
      intros Hpcq Hin Hs. apply (Htr' _ q); [done|done|].
      pose proof (ok_stage _ _ _ (Ho q oq Hoq)) as Hst. unfold stage in Hst. rewrite Hpcq, Hs in Hst.
      apply (ok_live _ _ _ (Ho q oq Hoq)). apply Hst.
  - intros c Hcn. rewrite (Hnext c Hcn). apply Hsome. eauto.
  - split; [done|]. intros j Hj. destruct (Htr j Hj) as [Hin Hne]. destruct (Hfl j Hin) as (q & oq & Hw & Hoq & Hpq & Hs).
    assert (q ≠ p) by (intros ->; done). exists q, oq. split_and!; [done|by apply Hheap|by apply Hpc|done].
  - done.
  - intros q t. destruct (decide (q = p)) as [->|Hne]; [intros _; apply Hsome; eauto|].
    destruct (Hlog q Hne) as [_ ->]. intros Hqt. by eapply Hsome, Hc.
  - apply Forall_forall. intros q Hqf%Hfr'. rewrite Forall_forall in Hfr.
    apply elem_of_cons in Hqf as [->|Hqf]; apply Hsome; eauto.
  - done.
Qed.

Lemma update_id p s : update p (fun op => op) s = s.
Proof. unfold update. rewrite list_alter_id by done. by destruct s. Qed.
Lemma update_fix p op f s : heap s !! p = Some op -> f op = op -> update p f s = s.
Proof.
  intros Hop Hf. unfold update. replace (alter f p (heap s)) with (heap s); [by destruct s|].
  apply list_eq. intros q. rewrite list_lookup_alter. case_decide; [subst|done]. rewrite Hop. simpl. by rewrite Hf.
Qed.
Lemma with_same s : with_manager (manager s) (with_backend (backend_ s) s) = s.
Proof. by destruct s. Qed.
Lemma update_same p f s : with_manager (manager s) (with_backend (backend_ s) (update p f s)) = update p f s.
Proof. by destruct s. Qed.

Lemma unreleased_update w p op f : heap (svc w) !! p = Some op ->
  contribution (f op) = contribution op ->
  unreleased (heap (update p f (svc w))) ≡ₚ unreleased (heap (svc w)).
Proof.
  intros Hop Hc. destruct (unreleased_alter _ _ _ Hop) as (rest & Hr & Hf). cbn. by rewrite Hf, Hr, Hc.
Qed.

Lemma inv_resolve w i op_id status next s' : inv w -> transfers w !! i = Some op_id -> completing w = None ->
  Claim (now w) op_id status (svc w) = (next, s') ->
  inv (mkWorld s' (now w) (handlers w) (delete i (transfers w)) next (freed w) (log_claim next (now w) (claims w))).
Proof.
  intros Hinv Hi Hnone Hcl. pose proof Hinv as [Ht Ho Hp [Hnd Hfl] Hh Hc Hfr [Hwf Hown]].
  destruct (Hfl op_id (list_elem_of_lookup_2 _ _ _ Hi)) as (p & op & Hw & Hop & Hpc & Hs).
  assert (Hid : id op = op_id) by (destruct (Ht _ _ Hw) as (? & ? & <-); by simplify_eq).
  pose proof (Ho p op Hop) as Hok. destruct Hok as [Hst Hlive Hland Htm Hclm Hcd Hlk].
  unfold stage in Hst. rewrite Hpc, Hs in Hst. destruct Hst as (_ & Hps & Hrel & Hz).
  unfold Claim, FindOp in Hcl. rewrite Hw, Hop in Hcl.
  pose proof Hnd as Hnd2. rewrite (delete_Permutation _ _ _ Hi) in Hnd2. apply NoDup_cons in Hnd2 as [Hni Hnd2].
  assert (Hmain : exists c' st, next = Some c' ∧ s' = update p (with_state st) (svc w) ∧
    (st = kCompleting ∧ c' = CRecheck p ∧ now w < deadline op ∨ st = kFailed ∧ c' = CRelease p)).
  { destruct (ok status && bool_decide (state op = kPending) && (now w <? deadline op)) eqn:E1.
    { injection Hcl as <- <-. to_prop. exists (CRecheck p), kCompleting. split_and!; [done..|left; split_and!; [done..|lia]]. }
    case_bool_decide as E2; injection Hcl as <- <-; exists (CRelease p), kFailed; split_and!; try done; try (by right).
    symmetry. apply (update_fix p op); [done|]. destruct Hps as [?|Hps]; [done|]. unfold with_state. rewrite <-Hps. by destruct op. }
  destruct Hmain as (c' & st & -> & -> & Hst). rewrite <-(update_same p). apply (inv_update w p op); try done.
  - intros q _. by apply at_pc_none.
  - intros c [= <-]. by destruct Hst as [(_ & -> & _)|[_ ->]].
  - intros j Hj. split; [rewrite (delete_Permutation _ _ _ Hi); by right|].
    intros Hj'. destruct (Ht _ _ Hj') as (oq & Hoq & Hjd). simplify_eq.
  - intros j q Hne Hj Hwj. rewrite (delete_Permutation _ _ _ Hi) in Hj. apply elem_of_cons in Hj as [->|Hj]; [|done]. simplify_eq.
  - intros q Hne. split; [done|]. destruct Hst as [(_ & -> & _)|[_ ->]]; [|done]. cbn [log_claim]. by rewrite lookup_insert_ne.
  - intros q Hq. by right.
  - eapply owns_perm; [|exact Hown]. unfold held. cbn [handlers svc completing]. f_equiv. f_equiv; [|by destruct Hst as [(_ & -> & _)|[_ ->]]; rewrite Hnone].
    symmetry. by apply (unreleased_update w p op).
  - split; try done.
    + unfold stage, at_pc. destruct Hst as [(-> & -> & _)|[-> ->]]; cbn; by rewrite decide_True.
    + intros t. cbn. destruct Hst as [(-> & -> & Hlt)|[-> ->]]; cbn; [|apply Hclm].
      rewrite lookup_insert_eq. intros [= <-]. lia.
    + cbn. destruct Hst as [(-> & -> & Hlt)|[-> ->]]; cbn; [|done]. intros _ _. rewrite lookup_insert_eq. eauto.
Qed.

Lemma finish_kept st existing op : kept_by_cache st = true -> blocks_released (finish_op st existing op) = true.
Proof. intros H. unfold finish_op. by rewrite H. Qed.
Lemma finish_fields st existing op :
  let op' := finish_op st existing op in
  id op' = id op ∧ landing_block_ids op' = landing_block_ids op ∧ accepted_at op' = accepted_at op ∧
  deadline op' = deadline op ∧ expires_at op' = expires_at op ∧ granted_deadline op' = granted_deadline op ∧
  settle_done op' = settle_done op ∧ state op' = st ∧
  blocks_released op' = blocks_released op || kept_by_cache st ∧
  (kept_by_cache st = false -> next_leak_warning op' = next_leak_warning op).
Proof. unfold finish_op. destruct (kept_by_cache st); cbn; rewrite ?orb_true_r, ?orb_false_r; done. Qed.

Lemma times_cons_eq p fr : times p (p :: fr) = S (times p fr).
Proof. unfold times. by rewrite filter_cons_True. Qed.
Lemma times_cons_ne p q fr : p ≠ q -> times p (q :: fr) = times p fr.
Proof. intros H. unfold times. by rewrite filter_cons_False. Qed.

(** What one critical section of a completion does to its operation, to the pool and to
    the log, and where the completion is afterwards. *)
Lemma complete_step_spec registered c s next s' p op : heap s !! p = Some op -> pc c = p ->
  complete_step registered c s = (next, s') ->
  exists f b m, s' = with_manager m (with_backend b (update p f s)) ∧
  (forall c', next = Some c' -> pc c' = p) ∧
  match c with
  | CRecheck _ => f = (fun o => o) ∧ m = manager s ∧
      (next = Some (CInsert p) ∨ exists st ex, next = Some (CFinish p st ex) ∧ terminal st)
  | CInsert _ => f = (fun o => o) ∧ m = manager s ∧
      (next = Some (CRegister p) ∨ next = Some (CFinish p kFailed []))
  | CRegister _ => f = (fun o => o) ∧ m = manager s ∧ exists st, next = Some (CFinish p st []) ∧ terminal st
  | CFinish _ st ex => f = finish_op st ex ∧ m = manager s ∧
      next = Some (if kept_by_cache st then CSettle p else CRelease p)
  | CRelease _ =>
      blocks_released op = false -> landing_block_ids op ≠ [] ->
      f = mark_released ∧ m = manager s ∧ next = Some (CDeallocate p (landing_block_ids op))
  | CDeallocate _ ids => f = (fun o => o) ∧ m = HostOffload.DeallocateBlockIds (manager s) ids ∧ next = Some (CSettle p)
  | CSettle _ => f = mark_settled ∧ m = manager s ∧ next = None
  end.
Proof.
  intros Hop Hpc Hs. destruct c as [q|q|q|q st ex|q|q ids|q]; cbn [pc] in Hpc; subst q; cbn [complete_step] in Hs.
  - rewrite Hop in Hs.
    exists (fun o => o), (backend_ s), (manager s). rewrite update_id, with_same.
    destruct (_ =? _)%nat; [|destruct (negb _)]; injection Hs as <- <-;
      (split_and!; [done|by intros ? [= <-]|done|done|]); [right; eexists _, _|right; eexists _, _|by left]; by split.
  - rewrite Hop in Hs. destruct (HostOffload.InsertAllOrNothing _ _ _) as [ins b] eqn:E. injection Hs as <- <-.
    exists (fun o => o), b, (manager s). rewrite update_id. split_and!; [by destruct s|by destruct ins; intros ? [= <-]|done|done|].
    destruct ins; auto.
  - injection Hs as <- <-. exists (fun o => o), (backend_ s), (manager s). rewrite update_id, with_same.
    split_and!; [done|by intros ? [= <-]|done|done|]. eexists. split; [done|]. by destruct (ok registered).
  - injection Hs as <- <-. exists (finish_op st ex), (backend_ s), (manager s). rewrite update_same.
    split_and!; [done|by intros ? [= <-]; destruct (kept_by_cache st)|done|done|done].
  - unfold StartRelease in Hs. rewrite Hop in Hs. destruct (blocks_released op || _) eqn:E.
    + injection Hs as <- <-. exists (fun o => o), (backend_ s), (manager s). rewrite update_id, with_same.
      split_and!; [done|by intros ? [= <-]|]. intros Hr Hl. rewrite Hr in E. cbn in E. to_prop.
      by apply nil_length_inv in E.
    + injection Hs as <- <-. exists mark_released, (backend_ s), (manager s). rewrite update_same.
      split_and!; [done|by intros ? [= <-]|done].
  - injection Hs as <- <-. exists (fun o => o), (backend_ s), (HostOffload.DeallocateBlockIds (manager s) ids).
    rewrite update_id. split_and!; [by destruct s|by intros ? [= <-]|done|done|done].
  - injection Hs as <- <-. exists mark_settled, (backend_ s), (manager s). rewrite update_same.
    split_and!; [done|done|done|done|done].
Qed.

(** The blocks in the service's hands across one section of a completion. *)
Lemma held_complete w c registered next s' op : inv w -> completing w = Some c -> heap (svc w) !! pc c = Some op ->
  complete_step registered c (svc w) = (next, s') ->
  LBM.wf (manager s') ∧
  OffloadTransfer.owns (manager s')
    (held (mkWorld s' (now w) (handlers w) (transfers w) next (log_free c (freed w)) (claims w))).
Proof.
  intros Hinv Hc Hop Hs. pose proof (inv_held w Hinv) as [Hwf Hown].
  destruct (inv_ops w Hinv _ _ Hop) as [Hst _ Hland _ _ _ _].
  unfold stage in Hst. rewrite (at_pc_eq w c Hc) in Hst. destruct Hst as [_ Hok].
  destruct (complete_step_spec registered c (svc w) next s' (pc c) op Hop eq_refl Hs) as (f & b & m & -> & _ & Hspec).
  destruct (unreleased_alter _ _ _ Hop) as (rest & Hun & Hun'). cbn [manager with_manager].
  assert (Hheld : held w ≡ₚ contribution op ++ returning (Some c) ++ (handlers w ≫= snd) ++ rest).
  { unfold held. rewrite Hun, Hc. solve_Permutation. }
  assert (Hheld' : forall fr, held (mkWorld (with_manager m (with_backend b (update (pc c) f (svc w)))) (now w)
     (handlers w) (transfers w) next fr (claims w)) ≡ₚ contribution (f op) ++ returning next ++ (handlers w ≫= snd) ++ rest).
  { intros fr. unfold held. cbn [svc heap with_manager with_backend update with_heap handlers completing].
    rewrite Hun'. solve_Permutation. }
  apply (owns_perm _ _ _ Hheld) in Hown.
  assert (Hgoal : LBM.wf m ∧ OffloadTransfer.owns m (contribution (f op) ++ returning next ++ (handlers w ≫= snd) ++ rest)).
  2: { destruct Hgoal as [? Hg]. split; [done|]. by eapply owns_perm; [symmetry; apply Hheld'|]. }
  clear Hheld Hheld' Hun Hun' Hs. unfold contribution in *.
  destruct c as [q|q|q|q st ex|q|q ids|q]; cbn [pc pc_ok returning app] in *.
  - destruct Hspec as (-> & -> & [->|(st & ex & -> & _)]); by split.
  - destruct Hspec as (-> & -> & [->| ->]); by split.
  - destruct Hspec as (-> & -> & st & -> & _); by split.
  - destruct Hspec as (-> & -> & ->). split; [done|]. destruct (finish_fields st ex op) as (_ & Hl & _ & _ & _ & _ & _ & _ & Hr & _).
    rewrite Hr, Hl. destruct (kept_by_cache st); cbn [returning app]; [rewrite orb_true_r|rewrite orb_false_r; done].
    by eapply owns_app_r.
  - destruct Hok as (_ & _ & Hr & _). destruct (Hspec Hr Hland) as (-> & -> & ->). split; [done|].
    cbn [blocks_released mark_released returning app]. by rewrite Hr in Hown.
  - destruct Hspec as (-> & -> & ->). destruct Hok as (_ & _ & Hr & _ & ->). rewrite Hr in Hown |- *. cbn [returning app] in *.
    by apply OffloadTransfer.deallocate_respects.
  - destruct Hspec as (-> & -> & ->). by split.
Qed.

(** The operation a completion works on. *)
Lemma op_ok_complete w c next op f b m : op_ok w (pc c) op -> completing w = Some c ->
  (forall c', next = Some c' -> pc c' = pc c) ->
  match c with
  | CRecheck p => f = (fun o => o) ∧
      (next = Some (CInsert p) ∨ exists st ex, next = Some (CFinish p st ex) ∧ terminal st)
  | CInsert p => f = (fun o => o) ∧ (next = Some (CRegister p) ∨ next = Some (CFinish p kFailed []))
  | CRegister p => f = (fun o => o) ∧ exists st, next = Some (CFinish p st []) ∧ terminal st
  | CFinish p st ex => f = finish_op st ex ∧ next = Some (if kept_by_cache st then CSettle p else CRelease p)
  | CRelease p => blocks_released op = false -> landing_block_ids op ≠ [] ->
      f = mark_released ∧ next = Some (CDeallocate p (landing_block_ids op))
  | CDeallocate p ids => f = (fun o => o) ∧ next = Some (CSettle p)
  | CSettle _ => f = mark_settled ∧ next = None
  end ->
  op_ok (mkWorld (with_manager m (with_backend b (update (pc c) f (svc w)))) (now w) (handlers w) (transfers w) next
           (log_free c (freed w)) (claims w)) (pc c) (f op).
Proof.
  intros [Hst Hlive Hland Htm Hclm Hcd Hlk] Hc Hnext Hspec.
  unfold stage in Hst. rewrite (at_pc_eq w c Hc) in Hst. destruct Hst as [Hset Hok].
  set (w' := mkWorld _ _ _ _ _ _ _).
  assert (Hat : at_pc w' (pc c) = next).
  { unfold at_pc, w'. cbn. destruct next as [c'|]; [|done]. cbn. by rewrite decide_True by auto. }
  destruct c as [q|q|q|q st ex|q|q ids|q]; cbn [pc pc_ok] in *.
  - destruct Hspec as (-> & [Hn|(st & ex & Hn & Htt)]); split; try done; unfold stage; rewrite Hat, Hn; cbn; destruct Hok as (? & ? & ?); by split_and!.
  - destruct Hspec as (-> & [Hn|Hn]); split; try done; unfold stage; rewrite Hat, Hn; cbn; destruct Hok as (? & ? & ?); by split_and!.
  - destruct Hspec as (-> & st & Hn & Htt); split; try done; unfold stage; rewrite Hat, Hn; cbn; destruct Hok as (? & ? & ?); by split_and!.
  - destruct Hspec as (-> & Hn). destruct Hok as (Hs & Hr & Hz & Htt).
    destruct (finish_fields st ex op) as (Ei & El & Ea & Ed & Ee & Eg & Es & Est & Er & Ek). cbn zeta in *.
    rewrite Hr in Er. split.
    + unfold stage. rewrite Hat, Hn, Es. split; [done|].
      destruct (kept_by_cache st) eqn:Ek'; cbn; unfold outcome; rewrite ?Est, ?Er, ?Ek'; done.
    + rewrite Er, Ei. auto.
    + by rewrite El.
    + by rewrite Ea, Ed, Ee, Eg.
    + intros t Ht. rewrite Ea, Ed. by apply Hclm.
    + intros _ _. cbn. apply Hcd; rewrite Hs; done.
    + rewrite Er. intros Hk. cbn in Hk. rewrite Ek by done. auto.
  - destruct Hok as (Htt & Hk & Hr & Hz). destruct (Hspec Hr Hland) as (-> & Hn). split; try done.
    unfold stage. rewrite Hat, Hn. done.
  - destruct Hspec as (-> & Hn). destruct Hok as (Htt & Hk & Hr & Hz & ->). split; try done.
    unfold stage. rewrite Hat, Hn. split; [done|]. cbn. unfold outcome. rewrite times_cons_eq, Hz, Hk. done.
  - destruct Hspec as (-> & Hn). split; try done. unfold stage. rewrite Hat, Hn. done.
Qed.

Lemma inv_complete w c registered next s' : inv w -> completing w = Some c ->
  complete_step registered c (svc w) = (next, s') ->
  inv (mkWorld s' (now w) (handlers w) (transfers w) next (log_free c (freed w)) (claims w)).
Proof.
  intros Hinv Hc Hs. destruct (inv_pc w Hinv c Hc) as [op Hop].
  pose proof (held_complete w c registered next s' op Hinv Hc Hop Hs) as [Hwf' Hown'].
  destruct (complete_step_spec registered c (svc w) next s' (pc c) op Hop eq_refl Hs) as (f & b & m & -> & Hnext & Hspec).
  pose proof (inv_ops w Hinv _ _ Hop) as Hok.
  destruct (inv_flight w Hinv) as [Hnd Hfl].
  assert (Hid : id (f op) = id op).
  { pose proof (ok_stage _ _ _ Hok) as Hst. unfold stage in Hst. rewrite (at_pc_eq w c Hc) in Hst.
    pose proof (ok_landing _ _ _ Hok). destruct c; cbn in Hst; naive_solver (try apply finish_fields). }
  apply (inv_update w (pc c) op); try done.
  - intros q Hq. by apply (at_pc_ne w c).
  - intros j Hj. split; [done|]. intros Hj'. destruct (Hfl j Hj) as (q & oq & Hw & _ & Hpq & _).
    rewrite Hw in Hj'. injection Hj' as ->. by rewrite (at_pc_eq w c Hc) in Hpq.
  - intros q Hq. split; [|done]. destruct c; try done. cbn. by apply times_cons_ne.
  - intros q Hq. destruct c; cbn in *; auto using list_elem_of_further.
  - apply op_ok_complete; try done. destruct c; naive_solver.
Qed.

(** *** The deadline thread *)

(** The operation after its turn in the deadline loop. *)
Definition fired (paused : bool) (t : Z) op : WriteOp := (deadline_op paused t op).1.

Lemma fired_fields paused t op :
  let op' := fired paused t op in
  id op' = id op ∧ landing_block_ids op' = landing_block_ids op ∧ accepted_at op' = accepted_at op ∧
  deadline op' = deadline op ∧ expires_at op' = expires_at op ∧ granted_deadline op' = granted_deadline op ∧
  settle_done op' = settle_done op ∧ blocks_released op' = blocks_released op ∧
  state op' = (if bool_decide (state op = kPending) && negb paused && (deadline op <=? t) then kFailed else state op) ∧
  (is_Some (next_leak_warning op) -> is_Some (next_leak_warning op')).
Proof.
  unfold fired, deadline_op. destruct (bool_decide _ && negb paused); cbn [andb];
    destruct (deadline op <=? t); cbn; destruct (negb _ && negb _); cbn;
    try (destruct (match next_leak_warning op with Some _ => _ | None => _ end); cbn); split_and!; auto.
Qed.

Lemma fired_idem paused t op : fired paused t (fired paused t op) = fired paused t op.
Proof.
  destruct op as [i st hs ids ex un a d e g r l sd].
  assert (Hl : (t + kLeakWarningInterval <=? t) = false) by (apply Z.leb_gt; unfold kLeakWarningInterval, Seconds; lia).
  assert (Hgen : forall st', (bool_decide (st' = kPending) && negb paused && (d <=? t) = false) ->
    fired paused t (fired paused t (mkOp i st' hs ids ex un a d e g r l sd)) =
    fired paused t (mkOp i st' hs ids ex un a d e g r l sd)).
  { intros st' Hst. unfold fired, deadline_op. cbn. rewrite Hst. cbn.
    destruct (negb r && negb (length ids =? 0)%nat) eqn:Er; cbn; [|by rewrite ?Hst; cbn; rewrite ?Er].
    destruct l as [u|]; cbn; [destruct (u <=? t) eqn:Eu|]; cbn; rewrite ?Hst; cbn; rewrite ?Er; cbn; by rewrite ?Hl, ?Eu. }
  destruct (bool_decide (st = kPending) && negb paused && (d <=? t)) eqn:E; [|by apply Hgen].
  assert (Hsame : fired paused t (mkOp i st hs ids ex un a d e g r l sd) =
                  fired paused t (mkOp i kFailed hs ids ex un a d e g r l sd)).
  { unfold fired, deadline_op. cbn [state deadline]. rewrite E, (bool_decide_eq_false_2 (kFailed = kPending)) by done.
    cbn. by destruct (negb r && negb (length ids =? 0)%nat). }
  rewrite Hsame. by apply Hgen.
Qed.

Lemma deadline_wake_later paused t op t' : (deadline_op paused t op).2 = Some t' -> t < t'.
Proof.
  unfold deadline_op. set (armed := bool_decide _ && negb paused). intros H.
  set (wake := if armed && negb (deadline op <=? t) then Some (deadline op) else None) in H.
  assert (Hw : forall x, wake = Some x -> t < x).
  { intros x. unfold wake. destruct (armed && negb (deadline op <=? t)) eqn:E; [|done]. intros [= <-]. to_prop. lia. }
  clearbody wake. destruct (negb _ && negb _); [|by apply Hw].
  set (op1 := if armed && (deadline op <=? t) then with_state kFailed op else op) in H. clearbody op1. cbn [snd] in H.
  assert (Hl : forall x, next_leak_warning
     (if match next_leak_warning op1 with Some u => u <=? t | None => false end
      then with_leak_warning (Some (t + kLeakWarningInterval)) op1 else op1) = Some x -> t < x).
  { intros x. destruct (next_leak_warning op1) as [u|] eqn:El; [|by rewrite El].
    destruct (u <=? t) eqn:Eu; cbn; [|rewrite El]; intros [= <-]; to_prop; unfold kLeakWarningInterval, Seconds; lia. }
  destruct wake as [x|], (next_leak_warning _) as [y|] eqn:Ey; cbn in H; simplify_eq; auto.
  specialize (Hw x eq_refl). specialize (Hl y eq_refl). lia.
Qed.

(** The bound [wake] respects a time some operation asked for. *)
Definition wakes_by (wake asked : option Z) : Prop :=
  forall t, asked = Some t -> exists t', wake = Some t' ∧ t' <= t.

Lemma wakes_by_min_l a b x : wakes_by a x -> wakes_by (min_time a b) x.
Proof. intros H t Ht. destruct (H t Ht) as (t' & -> & Hle). destruct b; cbn; eexists; split; [done|lia|done|lia]. Qed.
Lemma wakes_by_min_r a b : wakes_by (min_time a b) b.
Proof. intros t ->. destruct a; cbn; eexists; split; [done|lia|done|lia]. Qed.

(** One round visits every operation of the table. *)
Lemma deadline_visit_spec paused t acc s p :
  let r := deadline_visit paused t (acc, s) p in
  r.2 = update p (fired paused t) s ∧
  (forall x, wakes_by acc x -> wakes_by r.1 x) ∧
  (forall op, heap s !! p = Some op -> wakes_by r.1 (deadline_op paused t op).2) ∧
  ((forall x, acc = Some x -> t < x) -> forall x, r.1 = Some x -> t < x).
Proof.
  unfold deadline_visit. cbn [fst snd]. destruct (heap s !! p) as [op|] eqn:Hop.
  - pose proof (deadline_wake_later paused t op) as Hl. unfold update, fired.
    destruct (deadline_op paused t op) as [op' wake] eqn:Ed. cbn [fst snd] in *. split_and!.
    + f_equal. apply list_alter_ext; [|done]. intros x Hx. rewrite Hop in Hx. injection Hx as <-. by rewrite Ed.
    + intros x. apply wakes_by_min_l.
    + intros op0 [= <-]. rewrite Ed. apply wakes_by_min_r.
    + intros Ha x. destruct acc as [y|], wake as [z|]; cbn; intros [= <-]; auto.
      specialize (Ha y eq_refl). specialize (Hl z eq_refl). lia.
  - split_and!; [|done|done|done]. unfold update. replace (alter _ p (heap s)) with (heap s); [by destruct s|].
    apply list_eq. intros q. rewrite list_lookup_alter. case_decide; [subst; by rewrite Hop|done].
Qed.

Lemma deadline_loop_spec paused t ps s acc :
  let r := foldl (deadline_visit paused t) (acc, s) ps in
  r.2 = with_heap (heap r.2) s ∧
  (forall q, heap r.2 !! q = (if bool_decide (q ∈ ps) then fired paused t else (fun o => o)) <$> heap s !! q) ∧
  (forall x, wakes_by acc x -> wakes_by r.1 x) ∧
  (forall q op, q ∈ ps -> heap s !! q = Some op ->
     exists op0, wakes_by r.1 (deadline_op paused t op0).2 ∧ (op0 = op ∨ op0 = fired paused t op)) ∧
  ((forall x, acc = Some x -> t < x) -> forall x, r.1 = Some x -> t < x).
Proof.
  revert acc s. induction ps as [|p ps IH]; intros acc s; cbn [foldl fst snd].
  { split_and!; [by destruct s| |done| |done].
    - intros q. rewrite bool_decide_eq_false_2 by apply not_elem_of_nil. by destruct (heap s !! q).
    - by intros q op Hq%elem_of_nil. }
  destruct (deadline_visit_spec paused t acc s p) as (Hs & Hk & Hw & Hlt).
  destruct (deadline_visit paused t (acc, s) p) as [acc1 s1]. cbn [fst snd] in *. subst s1.
  destruct (IH acc1 (update p (fired paused t) s)) as (H1 & H2 & H3 & H4 & H5). clear IH.
  cbn [heap update with_heap] in H2, H4. split_and!.
  - rewrite H1. by destruct s.
  - intros q. rewrite H2, list_lookup_alter. case_decide as Hd.
    + subst q. rewrite (bool_decide_eq_true_2 (p ∈ p :: ps)) by apply list_elem_of_here.
      destruct (heap s !! p) as [op|]; [|done]. cbn. case_bool_decide; cbn; [by rewrite fired_idem|done].
    + rewrite (bool_decide_ext (q ∈ p :: ps) (q ∈ ps)); [done|]. rewrite elem_of_cons. naive_solver.
  - auto.
  - intros q op Hq Hop. apply elem_of_cons in Hq as [->|Hq]; [exists op; auto|].
    destruct (decide (p = q)) as [->|Hne]; [exists op; auto|].
    apply (H4 q op Hq). by rewrite list_lookup_alter_ne.
  - auto.
Qed.

Lemma unreleased_concat h : unreleased h = concat (contribution <$> h).
Proof. induction h as [|op h IH]; [done|]. unfold unreleased in *. cbn. by rewrite IH. Qed.

Lemma pc_ok_not_pending fr c p op : pc_ok fr c p op -> state op ≠ kPending.
Proof.
  intros Hok Hp. destruct c; cbn in Hok; unfold outcome, terminal in Hok; rewrite Hp in Hok; destruct Hok as [Hst _];
    first [discriminate Hst|by destruct Hst].
Qed.

Lemma op_ok_fired w paused q op : op_ok w q op -> op_ok w q (fired paused (now w) op).
Proof.
  intros [Hst Hlive Hland Htm Hcl Hcd Hlk].
  destruct (fired_fields paused (now w) op) as (Ei & El & Ea & Ed & Ee & Eg & Es & Er & Est & Ek). cbn zeta in *.
  split; rewrite ?Ei, ?El, ?Ea, ?Ed, ?Ee, ?Eg, ?Er; try done.
  - unfold stage in *. rewrite Es. destruct (bool_decide (state op = kPending) && _ && _) eqn:E.
    + to_prop. destruct (at_pc w q) as [c|].
      * destruct Hst as [_ Hok]. apply pc_ok_not_pending in Hok. tauto.
      * destruct (settle_done op); [destruct Hst as ((Hst & _) & _); tauto|]. rewrite Ei, Est, Er.
        destruct Hst as (? & _ & ? & ?). split_and!; auto.
    + destruct (at_pc w q) as [c|].
      * destruct c; unfold pc_ok, outcome in *; rewrite ?Est, ?Er, ?El; done.
      * destruct (settle_done op); unfold outcome in *; rewrite ?Est, ?Er, ?Ei; done.
  - intros t Ht. rewrite Ea, Ed. by apply Hcl.
  - rewrite Est. destruct (_ && _); [done|]. done.
  - auto.
Qed.

Lemma inv_deadline w paused : inv w ->
  inv (mkWorld (DeadlineLoop paused (now w) (svc w)).2 (now w) (handlers w) (transfers w) (completing w)
         (freed w) (claims w)).
Proof.
  intros Hinv. unfold DeadlineLoop. set (ps := (map_to_list _).*2).
  destruct (deadline_loop_spec paused (now w) ps (svc w) None) as (Hs & Hq & _).
  destruct (foldl _ _ ps) as [acc s'] eqn:E. cbn [snd] in *. clear E.
  destruct Hinv as [Ht Ho Hp Hf Hh Hc Hfr Hhe].
  assert (Hfields : manager s' = manager (svc w) ∧ write_ops_ s' = write_ops_ (svc w)) by (by rewrite Hs).
  destruct Hfields as [Hm Hops]. clear Hs.
  assert (Hin : forall q op, heap (svc w) !! q = Some op -> exists op', heap s' !! q = Some op' ∧ id op' = id op ∧
     settle_done op' = settle_done op).
  { intros q op Hop. rewrite Hq, Hop. eexists. split; [done|].
    destruct (fired_fields paused (now w) op) as (Ei & _ & _ & _ & _ & _ & Es & _). by case_bool_decide. }
  assert (Hsome : forall q, is_Some (heap (svc w) !! q) -> is_Some (heap s' !! q)).
  { intros q Hsm. rewrite Hq. by apply fmap_is_Some. }
  split; cbn [svc now handlers transfers completing freed claims]; rewrite ?Hops, ?Hm.
  - intros i p Hw. destruct (Ht i p Hw) as (op & Hop & Hid). destruct (Hin p op Hop) as (op' & Hop' & Hid' & _).
    exists op'. split; [done|]. by rewrite Hid'.
  - intros q op' Hop'. rewrite Hq in Hop'. apply fmap_Some in Hop' as (op & Hop & ->).
    apply (op_ok_frame w); auto using Z.le_refl; cbn [svc]; rewrite ?Hops; [|done].
    case_bool_decide; [by apply op_ok_fired, Ho|by apply Ho].
  - intros c Hcm. apply Hsome. auto.
  - destruct Hf as [Hnd Hfl]. split; [done|]. intros i Hi. destruct (Hfl i Hi) as (p & op & Hw & Hop & Hpc & Hs).
    destruct (Hin p op Hop) as (op' & Hop' & _ & Hs'). exists p, op'. rewrite Hs'. done.
  - done.
  - intros p t Hpt. apply Hsome. eauto.
  - eapply Forall_impl; [exact Hfr|]. intros p. apply Hsome.
  - destruct Hhe as [Hwf Hown]. split; [done|]. eapply owns_perm; [|exact Hown]. unfold held.
    cbn [svc now handlers transfers completing freed claims]. rewrite !unreleased_concat.
    replace (contribution <$> heap s') with (contribution <$> heap (svc w)); [done|].
    apply list_eq. intros q. rewrite !list_lookup_fmap, Hq. destruct (heap (svc w) !! q) as [op|]; [|done]. cbn. f_equal.
    destruct (fired_fields paused (now w) op) as (_ & El & _ & _ & _ & _ & _ & Er & _).
    case_bool_decide; [|done]. unfold contribution. by rewrite El, Er.
Qed.

Lemma inv_poll w op_id : inv w ->
  inv (mkWorld (PollWriteRemote (now w) op_id (svc w)).2 (now w) (handlers w) (transfers w) (completing w)
         (freed w) (claims w)).
Proof.
  intros Hinv. assert (Hcase : (PollWriteRemote (now w) op_id (svc w)).2 = svc w ∨
                               (PollWriteRemote (now w) op_id (svc w)).2 = purge (now w) (svc w)).
  { unfold PollWriteRemote. destruct (op_id =? 0); [by left|]. right. cbv zeta. by destruct (FindOp _ _ ≫= _). }
  destruct Hcase as [-> | ->]; [by destruct w|]. destruct Hinv as [Ht Ho Hp Hf Hh Hc Hfr Hhe].
  assert (Hkeep : forall i p op, write_ops_ (svc w) !! i = Some p -> heap (svc w) !! p = Some op ->
     blocks_released op = false -> write_ops_ (purge (now w) (svc w)) !! i = Some p).
  { intros i p op Hw Hop Hr. cbn. apply map_lookup_filter_Some. split; [done|]. cbn. rewrite Hop. cbn.
    unfold expired. rewrite Hr. by rewrite !andb_false_r. }
  split; cbn [svc now handlers transfers completing freed claims]; try done.
  - intros i p Hw. cbn in Hw. apply map_lookup_filter_Some in Hw as [Hw _]. by apply Ht.
  - intros q op Hop. apply (op_ok_frame w); auto using Z.le_refl. intros Hw Hr. by eapply Hkeep.
  - destruct Hf as [Hnd Hfl]. split; [done|]. intros i Hi. destruct (Hfl i Hi) as (p & op & Hw & Hop & Hpc & Hs).
    exists p, op. split_and!; try done. eapply Hkeep; [done|done|].
    pose proof (ok_stage _ _ _ (Ho p op Hop)) as Hst. unfold stage in Hst. rewrite Hpc, Hs in Hst. apply Hst.
Qed.

Lemma step_inv w w' : step w w' -> inv w -> inv w'.
Proof.
  intros [] Hinv.
  - by apply inv_time.
  - by eapply inv_allocate.
  - by apply inv_accept.
  - by eapply inv_resolve.
  - by eapply inv_complete.
  - by apply inv_deadline.
  - by apply inv_poll.
  - by apply inv_node.
Qed.

Lemma reachable_inv w : reachable w -> inv w.
Proof.
  intros (w0 & H0%initial_inv & Hr). induction Hr as [|w w1 w2 Hs _ IH]; [done|]. by eapply IH, step_inv.
Qed.
End ServiceSteps.
