(* ===== verification/KVCacheStoreServiceSafety.v ===== *)
(** * What the destination of a remote write guarantees

    [Module ServiceSafety] proves, of every interleaving of KVCacheStoreServiceSteps.v, that
    an operation only moves along its state machine, that nothing unclaimed at its deadline
    is ever committed, and that landing blocks are exclusive and go back exactly once or
    stay with the cache; of the deadline thread that it does not oversleep; and of whole
    calls of the handlers what they answer. *)

From S2P Require Import Prelude ReshardTypes StoreBackend KVCacheMetadata LruCache LogicalBlockManager HostOffloadBackend HostOffloadLookup HostOffloadInsert HostOffloadTransfer HostOffloadPins KVCacheStoreService KVCacheStoreServiceSteps.
Import Service ServiceSteps.

Module ServiceSafety.

Implicit Types (w : World) (op : WriteOp) (p q : nat) (c : Completion).

(** ** The state machine of an operation *)

(** The moves of an operation with deadline [d] at time [t]. *)
Inductive moves (t d : Z) : OpState -> OpState -> Prop :=
  | MStay st : moves t d st st
  | MExpire : moves t d kPending kFailed
  | MClaim : t < d -> moves t d kPending kCompleting
  | MFinish st : terminal st -> moves t d kCompleting st.

Lemma update_lookup p f s q op : heap s !! q = Some op ->
  heap (update p f s) !! q = Some (if decide (p = q) then f op else op).
Proof. intros H. cbn. rewrite list_lookup_alter. case_decide; [subst; by rewrite H|done]. Qed.

Lemma complete_step_moves w registered c next s' p op : inv w -> completing w = Some c ->
  complete_step registered c (svc w) = (next, s') -> heap (svc w) !! p = Some op ->
  exists op', heap s' !! p = Some op' ∧ deadline op' = deadline op ∧ moves (now w) (deadline op) (state op) (state op').
Proof.
  intros Hinv Hc Hs Hop. destruct (inv_pc w Hinv c Hc) as [oc Hoc].
  destruct (complete_step_spec registered c (svc w) next s' (pc c) oc Hoc eq_refl Hs) as (f & b & m & -> & _ & Hspec).
  cbn [heap with_manager with_backend]. rewrite (update_lookup _ _ _ _ op) by done. eexists. split; [done|].
  case_decide as Hp; [|split; [done|constructor]]. subst p. rewrite Hoc in Hop. injection Hop as ->.
  pose proof (ok_landing _ _ _ (inv_ops w Hinv _ _ Hoc)) as Hl.
  pose proof (ok_stage _ _ _ (inv_ops w Hinv _ _ Hoc)) as Hst. unfold stage in Hst.
  rewrite (at_pc_eq w c Hc) in Hst. destruct Hst as [_ Hok].
  destruct c as [q|q|q|q st ex|q|q ids|q]; cbn [pc_ok] in Hok.
  - destruct Hspec as (-> & _). split; [done|constructor].
  - destruct Hspec as (-> & _). split; [done|constructor].
  - destruct Hspec as (-> & _). split; [done|constructor].
  - destruct Hspec as (-> & _). destruct Hok as (Hs' & _ & _ & Ht).
    destruct (finish_fields st ex op) as (_ & _ & _ & Ed & _ & _ & _ & Est & _). cbn zeta in *.
    split; [done|]. rewrite Est, Hs'. by constructor.
  - destruct Hok as (_ & _ & Hr & _). destruct (Hspec Hr Hl) as (-> & _). split; [done|constructor].
  - destruct Hspec as (-> & _). split; [done|constructor].
  - destruct Hspec as (-> & _). split; [done|constructor].
Qed.

Lemma step_moves w w' p op : inv w -> step w w' -> heap (svc w) !! p = Some op ->
  now w <= now w' ∧
  exists op', heap (svc w') !! p = Some op' ∧ deadline op' = deadline op ∧
    moves (now w) (deadline op) (state op) (state op').
Proof.
  intros Hinv Hs. destruct Hs as [w t Ht|w req s0 ids s' _ _ Ha|w i req ids cap op_id t0 _ _ _ _ _|w i op_id status next s' _ _ Hc
    |w c registered next s' Hc Hs|w paused|w op_id|w b m _]; intros Hop; cbn [svc now];
    (split; [first [done|apply Z.le_refl]|]).
  - eexists. split_and!; [done|done|constructor].
  - unfold AllocateLanding in Ha. destruct (HostOffload.AllocateBlockIds _ _) as [[] m]; [|done]. injection Ha as <- <-.
    eexists. split_and!; [done|done|constructor].
  - exists op. split_and!; [by apply lookup_app_l_Some|done|constructor].
  - unfold Claim in Hc. destruct (FindOp (svc w) op_id) as [q|]; [|injection Hc as <- <-; exists op; split_and!; [done|done|constructor]].
    destruct (heap (svc w) !! q) as [oq|] eqn:Hq; [|injection Hc as <- <-; exists op; split_and!; [done|done|constructor]].
    destruct (_ && _ && _) eqn:E1; [|case_bool_decide as E2]; injection Hc as <- <-.
    + rewrite (update_lookup _ _ _ _ op) by done. eexists. split; [done|]. destruct (decide (q = p)); [|split; [done|constructor]].
      subst q. simplify_eq. to_prop. split; [done|]. cbn. destruct E1 as [[_ ->] ?]. by constructor.
    + rewrite (update_lookup _ _ _ _ op) by done. eexists. split; [done|]. destruct (decide (q = p)); [|split; [done|constructor]].
      subst q. simplify_eq. split; [done|]. cbn. rewrite E2. constructor.
    + exists op. split_and!; [done|done|constructor].
  - by eapply complete_step_moves.
  - unfold DeadlineLoop. set (ps := (map_to_list _).*2).
    destruct (deadline_loop_spec paused (now w) ps (svc w) None) as (_ & Hq & _). rewrite Hq, Hop. eexists.
    split; [done|]. case_bool_decide; [|split; [done|constructor]].
    destruct (fired_fields paused (now w) op) as (_ & _ & _ & Ed & _ & _ & _ & _ & Est & _). cbn zeta in *.
    split; [done|]. rewrite Est. destruct (_ && _ && _) eqn:E; [|constructor]. to_prop. destruct E as [[-> _] _]. constructor.
  - exists op. split_and!; [|done|constructor]. unfold PollWriteRemote. destruct (op_id =? 0); [done|]. cbv zeta.
    by destruct (FindOp _ _ ≫= _).
  - eexists. split_and!; [done|done|constructor].
Qed.

Definition refused (st : OpState) : Prop := st = kPending ∨ st = kFailed.

Lemma moves_refused t d st st' : moves t d st st' -> d <= t -> refused st -> refused st'.
Proof. intros [] Hd Hr; [done|by right|lia|destruct Hr; discriminate]. Qed.
Lemma moves_terminal t d st st' : moves t d st st' -> terminal st -> st' = st.
Proof. by intros [] [? ?]. Qed.

(** A property of an operation that every step keeps is kept by every run. *)
Lemma run_op w w' p (I : World -> WriteOp -> Prop) op :
  (forall w1 w2 op1, inv w1 -> step w1 w2 -> heap (svc w1) !! p = Some op1 -> I w1 op1 ->
     exists op2, heap (svc w2) !! p = Some op2 ∧ I w2 op2) ->
  inv w -> rtc step w w' -> heap (svc w) !! p = Some op -> I w op ->
  exists op', heap (svc w') !! p = Some op' ∧ I w' op'.
Proof.
  intros Hstep Hinv Hr. revert op. induction Hr as [w|w w1 w2 Hs _ IH]; intros op Hop HI; [eauto|].
  destruct (Hstep w w1 op Hinv Hs Hop HI) as (op1 & Hop1 & HI1).
  eapply IH; [by eapply step_inv|done|done].
Qed.

(** An operation that nobody claimed before its deadline is never committed. *)
Lemma refused_stays w w' p op : inv w -> rtc step w w' -> heap (svc w) !! p = Some op ->
  refused (state op) -> deadline op <= now w ->
  exists op', heap (svc w') !! p = Some op' ∧ refused (state op').
Proof.
  intros Hinv Hr Hop Hrf Hd.
  destruct (run_op w w' p (fun w1 op1 => refused (state op1) ∧ deadline op1 <= now w1) op) as (op' & ? & ? & _); eauto.
  intros w1 w2 op1 Hi Hs Hop1 [Hst Hd1]. destruct (step_moves w1 w2 p op1 Hi Hs Hop1) as (Hn & op2 & Hop2 & Ed & Hm).
  exists op2. split_and!; [done|by eapply moves_refused|rewrite Ed; lia].
Qed.

(** The deadline of an operation never changes. *)
Lemma run_deadline w w' p op : inv w -> rtc step w w' -> heap (svc w) !! p = Some op ->
  exists op', heap (svc w') !! p = Some op' ∧ deadline op' = deadline op.
Proof.
  intros Hinv Hr Hop. apply (run_op w w' p (fun _ op1 => deadline op1 = deadline op) op); try done.
  intros w1 w2 op1 Hi Hs Hop1 Hd. destruct (step_moves w1 w2 p op1 Hi Hs Hop1) as (_ & op2 & Hop2 & Ed & _).
  exists op2. split; [done|congruence].
Qed.

(** C12: Under every interleaving, the verdict of a remote write is final, and an operation
    that was not claimed before its deadline is never committed: whatever resolves, polls or
    runs later, it stays pending or failed.  The source may therefore release its blocks
    once the deadline has passed. *)
Theorem service_verdicts w w' p op : reachable w -> rtc step w w' -> heap (svc w) !! p = Some op ->
  (terminal (state op) -> exists op', heap (svc w') !! p = Some op' ∧ state op' = state op) ∧
  (refused (state op) -> deadline op <= now w ->
     exists op', heap (svc w') !! p = Some op' ∧ refused (state op')).
Proof.
  intros Hinv%reachable_inv Hr Hop. split.
  - intros Ht. apply (run_op w w' p (fun _ op1 => state op1 = state op) op); try done.
    intros w1 w2 op1 Hi Hs Hop1 Hst. destruct (step_moves w1 w2 p op1 Hi Hs Hop1) as (_ & op2 & Hop2 & _ & Hm).
    exists op2. split; [done|]. rewrite <-Hst. eapply moves_terminal; [done|]. by rewrite Hst.
  - intros. by eapply refused_stays.
Qed.

(** *** Blocks that enter and leave the service's hands *)

Lemma unreleased_same f p h : (forall op, contribution (f op) = contribution op) -> unreleased (alter f p h) = unreleased h.
Proof.
  intros Hf. rewrite !unreleased_concat. f_equal. apply list_eq. intros q. rewrite !list_lookup_fmap, list_lookup_alter.
  case_decide; [subst|done]. destruct (h !! q) as [op|]; [|done]. cbn. by rewrite Hf.
Qed.

Lemma claim_held t op_id status s next s' : Claim t op_id status s = (next, s') ->
  unreleased (heap s') = unreleased (heap s) ∧ returning next = [].
Proof.
  unfold Claim. destruct (FindOp s op_id) as [p|]; [|by intros [= <- <-]]. destruct (heap s !! p); [|by intros [= <- <-]].
  destruct (_ && _ && _); [|case_bool_decide]; intros [= <- <-]; (split; [|done]); cbn; try done; by apply unreleased_same.
Qed.

Lemma deadline_held paused t s : unreleased (heap (DeadlineLoop paused t s).2) = unreleased (heap s).
Proof.
  unfold DeadlineLoop. set (ps := (map_to_list _).*2). destruct (deadline_loop_spec paused t ps s None) as (_ & Hq & _).
  rewrite !unreleased_concat. f_equal. apply list_eq. intros q. rewrite !list_lookup_fmap, Hq. destruct (heap s !! q) as [op|]; [|done]. cbn. f_equal.
  destruct (fired_fields paused t op) as (_ & El & _ & _ & _ & _ & _ & Er & _). case_bool_decide; [|done]. unfold contribution. by rewrite El, Er.
Qed.

Lemma poll_heap t op_id s : heap (PollWriteRemote t op_id s).2 = heap s.
Proof. unfold PollWriteRemote. destruct (op_id =? 0); [done|]. cbv zeta. by destruct (FindOp _ _ ≫= _). Qed.

(** Where the blocks of a completion's operation are. *)
Lemma completing_held w c op : inv w -> completing w = Some c -> heap (svc w) !! pc c = Some op ->
  exists rest, held w ≡ₚ contribution op ++ returning (Some c) ++ rest ∧
  forall f b m next fr, held (mkWorld (with_manager m (with_backend b (update (pc c) f (svc w)))) (now w) (handlers w) (transfers w) next fr (claims w)) ≡ₚ
    contribution (f op) ++ returning next ++ rest.
Proof.
  intros Hinv Hc Hop. destruct (unreleased_alter _ _ _ Hop) as (rest & Hun & Hun'). exists ((handlers w ≫= snd) ++ rest). split.
  - unfold held. rewrite Hun, Hc. solve_Permutation.
  - intros f b m next fr. unfold held. cbn [svc heap with_manager with_backend update with_heap handlers completing]. rewrite Hun'. solve_Permutation.
Qed.

(** What one section of a completion does with the blocks. *)
Definition given_up w w' i : Prop :=
  exists p op, heap (svc w) !! p = Some op ∧ i ∈ landing_block_ids op ∧
    (terminal (state op) ∧ kept_by_cache (state op) = false ∧ LBM.IsAllocated (manager (svc w')) i = false ∨
     (exists op', heap (svc w') !! p = Some op' ∧ kept_by_cache (state op') = true) ∧ LBM.IsLocked (manager (svc w')) i = true).

Lemma complete_leaves w c registered next s' i : inv w -> completing w = Some c -> complete_step registered c (svc w) = (next, s') ->
  let w' := mkWorld s' (now w) (handlers w) (transfers w) next (log_free c (freed w)) (claims w) in
  (i ∈ held w' -> i ∈ held w) ∧ (i ∈ held w -> i ∉ held w' -> given_up w w' i).
Proof.
  intros Hinv Hc Hs. destruct (inv_pc w Hinv c Hc) as [op Hop]. destruct (completing_held w c op Hinv Hc Hop) as (rest & Hh & Hh').
  destruct (complete_step_spec registered c (svc w) next s' (pc c) op Hop eq_refl Hs) as (f & b & m & -> & _ & Hspec). cbv zeta.
  destruct (inv_held w Hinv) as [Hwf Hown]. pose proof (owns_perm _ _ _ Hh Hown) as Hown'.
  destruct (inv_ops w Hinv _ _ Hop) as [Hst _ Hland _ _ _ _]. unfold stage in Hst. rewrite (at_pc_eq w c Hc) in Hst. destruct Hst as [_ Hok].
  rewrite Hh, (Hh' f b m next). unfold given_up. cbn [svc heap manager with_manager with_backend update with_heap].
  assert (Hsame : contribution (f op) = contribution op -> returning next = returning (Some c) -> forall P : Prop,
    (i ∈ contribution (f op) ++ returning next ++ rest -> i ∈ contribution op ++ returning (Some c) ++ rest) ∧
    (i ∈ contribution op ++ returning (Some c) ++ rest -> i ∉ contribution (f op) ++ returning next ++ rest -> P)).
  { intros -> ->. done. }
  unfold contribution in *. destruct c as [q|q|q|q st ex|q|q ids|q]; cbn [pc pc_ok] in *.
  - destruct Hspec as (-> & _ & [->|(? & ? & -> & _)]); by apply Hsame.
  - destruct Hspec as (-> & _ & [->| ->]); by apply Hsame.
  - destruct Hspec as (-> & _ & ? & -> & _); by apply Hsame.
  - destruct Hspec as (-> & -> & ->). destruct Hok as (_ & Hr & _). destruct (finish_fields st ex op) as (_ & El & _ & _ & _ & _ & _ & Est & Er & _).
    cbv zeta in *. rewrite Er, El, Hr. destruct (kept_by_cache st) eqn:Ek; cbn [orb returning app]; [|done]. split; [set_solver|].
    intros Hin Hno. exists q, op. rewrite Hr in Hown'. cbn [returning app] in Hown'. destruct Hown' as [_ Hall].
    split; [done|]. split; [set_solver|]. right. split.
    + exists (finish_op st ex op). rewrite list_lookup_alter_eq, Hop. split; [done|]. by rewrite Est.
    + by apply (proj1 (Forall_forall _ _) Hall) in Hin as (_ & _ & ?).
  - destruct Hok as (_ & _ & Hr & _). destruct (Hspec Hr Hland) as (-> & _ & ->). rewrite Hr. done.
  - destruct Hspec as (-> & -> & ->). destruct Hok as (Ht & Hk & Hr & _ & ->). rewrite Hr in Hown' |- *. cbn [returning app] in *.
    split; [set_solver|]. intros Hin Hno. exists q, op. split; [done|]. split; [set_solver|]. left. split_and!; [done|done|].
    destruct Hown' as [Hnd Hall]. apply NoDup_app in Hnd as (Hnd & _ & _). apply Forall_app in Hall as [Hall _].
    rewrite (OffloadTransfer.deallocate_frees (manager (svc w)) (landing_block_ids op) Hwf (conj Hnd Hall) i).
    rewrite bool_decide_eq_true_2 by set_solver. apply andb_false_r.
  - destruct Hspec as (-> & _ & ->). by apply Hsame.
Qed.

Lemma step_held w w' i : inv w -> step w w' ->
  (i ∈ held w' -> i ∉ held w -> LBM.IsLocked (manager (svc w)) i = false) ∧ (i ∈ held w -> i ∉ held w' -> given_up w w' i).
Proof.
  intros Hinv Hs. assert (Hsame : forall w2, held w2 ≡ₚ held w -> forall P Q : Prop, (i ∈ held w2 -> i ∉ held w -> P) ∧ (i ∈ held w -> i ∉ held w2 -> Q)).
  { intros w2 E P Q. by rewrite E. }
  destruct Hs as [w t Ht|w req s0 ids s' _ _ Ha|w j req ids cap op_id t0 Hj _ _ _ _|w j op_id status next s' Ht Hn Hc
    |w c registered next s' Hc Hs|w paused|w op_id|w b m _].
  - by apply Hsame.
  - unfold AllocateLanding in Ha. destruct (HostOffload.AllocateBlockIds _ _) as [[ids'|] m] eqn:Em; [|done]. injection Ha as -> <-.
    destruct (OffloadTransfer.allocate_owns _ _ _ _ (proj1 (inv_held w Hinv)) Em) as (_ & _ & Hu).
    assert (Hh : held (mkWorld (with_manager m (svc w)) (now w) (handlers w ++ [(req, ids)]) (transfers w) (completing w) (freed w) (claims w)) ≡ₚ ids ++ held w).
    { unfold held. cbn. rewrite bind_app. cbn. rewrite app_nil_r. solve_Permutation. }
    rewrite Hh, !elem_of_app. split; [|tauto]. intros [Hi|?]; [|done]. intros _. by apply (proj1 (Forall_forall _ _) Hu).
  - apply Hsame. unfold held, unreleased. cbn. rewrite bind_app. cbn. rewrite app_nil_r. rewrite (delete_Permutation (handlers w) j (req, ids) Hj) at 2.
    cbn. solve_Permutation.
  - apply Hsame. destruct (claim_held _ _ _ _ _ _ Hc) as [E1 E2]. unfold held. cbn [svc handlers completing]. by rewrite E1, E2, Hn.
  - destruct (complete_leaves w c registered next s' i Hinv Hc Hs) as [H1 H2]. split; [|exact H2]. intros Hin Hno. by destruct Hno; apply H1.
  - apply Hsame. unfold held. cbn [svc handlers completing]. by rewrite deadline_held.
  - apply Hsame. unfold held. cbn [svc handlers completing]. by rewrite poll_heap.
  - by apply Hsame.
Qed.

(** The cache binds every hash of an operation to its landing block. *)
Definition bound_at s op : Prop :=
  forall i h id, block_hashes op !! i = Some h -> landing_block_ids op !! i = Some id ->
    LRU.Peek h (HostOffload.lru_cache_ (backend_ s)) = Some (host_block (unit_ s) id HOST).

(** A section of a completion returns to the pool only the blocks it names, goes on to
    register only what the cache has taken, and ends well only after that. *)
Definition section_ok w c next s' : Prop :=
  (forall i, LBM.IsAllocated (manager (svc w)) i = true -> LBM.IsAllocated (manager s') i = false -> i ∈ returning (Some c)) ∧
  (forall p, next = Some (CRegister p) -> exists op, heap (svc w) !! p = Some op ∧
     (LRU.wf (HostOffload.lru_cache_ (backend_ (svc w))) -> NoDup (block_hashes op) -> bound_at s' op)) ∧
  (forall p st ex, next = Some (CFinish p st ex) -> kept_by_cache st = true -> c = CRegister p).

Lemma complete_section w c registered next s' : inv w -> completing w = Some c -> complete_step registered c (svc w) = (next, s') -> section_ok w c next s'.
Proof.
  intros Hinv Hc Hs. destruct (inv_held w Hinv) as [Hwf [Hnd Hown]]. unfold section_ok, held in *. rewrite Hc in *.
  destruct c as [q|q|q|q st ex|q|q ids|q]; cbn [complete_step returning] in *.
  - destruct (heap (svc w) !! q); [|injection Hs as <- <-; split_and!; congruence]. destruct (_ =? _)%nat; [|destruct (negb _)]; injection Hs as <- <-; split_and!; try congruence.
    all: by intros ? ? ? [= <- <- <-].
  - destruct (heap (svc w) !! q) as [op|] eqn:Hop; [|injection Hs as <- <-; split_and!; congruence].
    pose proof (OffloadInsert.InsertAllOrNothing_spec (block_hashes op) (slices_of (unit_ (svc w)) (landing_block_ids op)) (backend_ (svc w))) as Hins.
    destruct (HostOffload.InsertAllOrNothing _ _ _) as [ins b]. injection Hs as <- <-. cbn [fst snd] in Hins. split_and!; [cbn; congruence| |by destruct ins; intros ? ? ? [= <- <- <-]].
    intros p Hp. destruct ins; [|done]. injection Hp as <-. exists op. split; [done|]. intros Hl Hn i h bid Hh Hb. destruct (Hins Hl) as (_ & _ & Hyes).
    destruct (Hyes eq_refl) as (_ & _ & Hpk & _). apply (Hpk Hn i); [done|]. unfold slices_of. by rewrite list_lookup_fmap, Hb.
  - injection Hs as <- <-. split_and!; [congruence|done|]. by intros ? ? ? [= <- _ _].
  - injection Hs as <- <-. split_and!; [cbn; congruence|by destruct (kept_by_cache st)|by destruct (kept_by_cache st)].
  - unfold StartRelease in Hs. destruct (heap (svc w) !! q) as [op|]; [destruct (_ || _)|]; injection Hs as <- <-; split_and!; cbn; congruence.
  - injection Hs as <- <-. split_and!; [|done|done]. cbn [manager with_manager]. intros i Hi.
    apply NoDup_app in Hnd as (_ & _ & Hnd). apply NoDup_app in Hnd as (_ & _ & Hnd). apply Forall_app in Hown as [_ Hown]. apply Forall_app in Hown as [_ Hown].
    rewrite (OffloadTransfer.deallocate_frees (manager (svc w)) ids Hwf (conj Hnd Hown) i), Hi. case_bool_decide; [done|done].
  - injection Hs as <- <-. split_and!; cbn; congruence.
Qed.

(** C19: The landing blocks the service holds (for calls that have not recorded their
    operation, for operations that have not released them, and for a deallocation about to
    happen) are distinct, allocated and locked in the pool, so no two operations ever share
    one; a record stays in the table as long as it holds blocks, and a settled operation holds
    none.  A step of the system takes only blocks that were not locked.  A block that leaves
    the service's hands in a step is free in the pool after it, and belonged to an operation
    that ended without success, or stays locked for an operation that ended well.  A section
    of a completion frees no block but those its operation is returning; it ends well only
    after the section in which the cache took the whole batch, each hash bound to its landing
    block (for distinct hashes). *)
Theorem service_landing_blocks w : reachable w ->
  NoDup (held w) ∧
  (forall i, i ∈ held w -> LBM.IsAllocated (manager (svc w)) i = true ∧ LBM.IsLocked (manager (svc w)) i = true) ∧
  (forall p op, heap (svc w) !! p = Some op ->
    (blocks_released op = false -> write_ops_ (svc w) !! id op = Some p) ∧
    (settle_done op = true -> terminal (state op) ∧ blocks_released op = true)) ∧
  (forall w' i, step w w' ->
    (i ∈ held w' -> i ∉ held w -> LBM.IsLocked (manager (svc w)) i = false) ∧ (i ∈ held w -> i ∉ held w' -> given_up w w' i)) ∧
  (forall c registered next s', completing w = Some c -> complete_step registered c (svc w) = (next, s') -> section_ok w c next s').
Proof.
  intros Hinv%reachable_inv. destruct (inv_held w Hinv) as [_ [Hnd Hown]]. split_and!; [done| | | |].
  - intros i Hi. by apply (proj1 (Forall_forall _ _) Hown) in Hi as (_ & ? & ?).
  - intros p op Hop. destruct (inv_ops w Hinv p op Hop) as [Hst Hlive _ _ _ _ _]. split; [done|]. intros Hset. unfold stage in Hst.
    destruct (at_pc w p) as [c|]; [destruct Hst as [Hs _]; congruence|]. rewrite Hset in Hst. by destruct Hst as (? & ? & _).
  - intros w' i Hs. by apply step_held.
  - intros c registered next s' Hc Hs. by eapply complete_section.
Qed.

(** An operation that was claimed (it is completing, committed, stored or refused because
    its blocks already exist) was claimed between its acceptance and its deadline: no
    commit, and no registration, happens for a transfer that resolved too late. *)
Theorem service_claims w p op : reachable w -> heap (svc w) !! p = Some op ->
  deadline op = accepted_at op + granted_deadline op ∧ 0 < granted_deadline op ∧
  (¬ refused (state op) -> exists t, claims w !! p = Some t ∧ accepted_at op <= t < deadline op ∧ t <= now w).
Proof.
  intros Hinv%reachable_inv Hop. destruct (inv_ops w Hinv p op Hop) as [_ _ _ (_ & Hd & _ & Hg) Hcl Hcd _].
  split_and!; [done|done|]. intros Hn. destruct Hcd as [t Ht]; [intros ?; apply Hn; by left|intros ?; apply Hn; by right|].
  exists t. split; [done|]. by apply Hcl.
Qed.

(** ** The deadline thread and polls *)

(** A round of the deadline thread fails every recorded operation whose deadline has
    passed and no other, and the time it then sleeps until is in the future and not past
    the deadline of any operation that is still pending: as long as one is pending the
    thread does not sleep indefinitely, and it never oversleeps a deadline. *)
Theorem service_deadline_round t s i p op :
  write_ops_ s !! i = Some p -> heap s !! p = Some op ->
  let r := DeadlineLoop false t s in
  (forall x, r.1 = Some x -> t < x) ∧
  exists op', heap r.2 !! p = Some op' ∧
    (state op' = kFailed <-> state op = kFailed ∨ state op = kPending ∧ deadline op <= t) ∧
    (state op' = kPending -> exists x, r.1 = Some x ∧ x <= deadline op') ∧
    (state op ≠ kPending -> state op' = state op).
Proof.
  intros Hw Hop. unfold DeadlineLoop. set (ps := (map_to_list _).*2).
  assert (Hp : p ∈ ps).
  { apply list_elem_of_fmap. exists (i, p). split; [done|]. by apply elem_of_map_to_list. }
  destruct (deadline_loop_spec false t ps s None) as (_ & Hq & _ & Hw4 & Hw5). split; [by apply Hw5|].
  exists (fired false t op). rewrite Hq, Hop, bool_decide_eq_true_2 by done. split; [done|].
  destruct (fired_fields false t op) as (_ & _ & _ & Ed & _ & _ & _ & _ & Est & _). cbn zeta in *.
  cbn [negb] in Est. rewrite andb_true_r in Est. split_and!.
  - rewrite Est. case_bool_decide as Hb; cbn [andb]; [|naive_solver]. destruct (deadline op <=? t) eqn:E; to_prop; [naive_solver|].
    rewrite Hb. split; [done|]. intros [?|[_ ?]]; [done|lia].
  - rewrite Est, Ed. case_bool_decide as Hb; cbn [andb]; [|done].
    destruct (deadline op <=? t) eqn:E; [done|]. intros _.
    destruct (Hw4 p op Hp Hop) as (op0 & Hwk & Hop0).
    assert (H0 : state op0 = kPending ∧ deadline op0 = deadline op).
    { destruct Hop0 as [->| ->]; [done|]. by rewrite Est, Ed. }
    destruct H0 as [Hs0 Hd0]. unfold deadline_op in Hwk. rewrite (bool_decide_eq_true_2 _ Hs0), Hd0, E in Hwk. cbn [andb negb] in Hwk.
    destruct (negb _ && _); cbn [snd] in Hwk; [|exact (Hwk _ eq_refl)].
    destruct (next_leak_warning _) as [u|]; cbn [min_time] in Hwk; [|exact (Hwk _ eq_refl)].
    destruct (Hwk _ eq_refl) as (x & Hx & Hle). exists x. split; [done|]. lia.
  - intros Hn. rewrite Est. by rewrite bool_decide_eq_false_2.
Qed.

(** A poll answers the recorded state of an operation that is unsettled or whose record
    has not expired, with the hashes the state calls for, and keeps the record; it answers
    [UNKNOWN] when there is none.  Polling drops only records that are terminal, have given
    up their blocks and are past their expiry, and changes no operation. *)
Theorem service_poll t op_id s : op_id ≠ 0 ->
  let r := PollWriteRemote t op_id s in
  heap r.2 = heap s ∧
  (forall i p op, write_ops_ s !! i = Some p -> heap s !! p = Some op ->
     write_ops_ r.2 !! i = if expired t op then None else Some p) ∧
  (FindOp s op_id = None -> exists rep, r.1 = Ok rep ∧ HostOffload.po_state (reply rep) = HostOffload.STATE_UNKNOWN) ∧
  (forall p op, FindOp s op_id = Some p -> heap s !! p = Some op -> expired t op = false ->
     exists rep, r.1 = Ok rep ∧ HostOffload.po_state (reply rep) = ToWireState (state op) ∧
       HostOffload.po_existing_hashes (reply rep) = existing_hashes op ∧
       HostOffload.po_unregistered_hashes (reply rep) = unregistered_hashes op ∧
       committed_hashes rep = (if bool_decide (state op = kCommitted) then block_hashes op else []) ∧
       failed_hashes rep = (if bool_decide (state op = kFailed) then block_hashes op else [])).
Proof.
  intros Hne r. unfold r, PollWriteRemote. rewrite (proj2 (Z.eqb_neq _ _) Hne). cbv zeta.
  assert (H2 : forall x, (match FindOp (purge t s) op_id ≫= fun p => heap (purge t s) !! p with
     | None => (Ok (mkReply (HostOffload.mkPollResponse HostOffload.STATE_UNKNOWN [] []) [] []), purge t s)
     | Some op => (x op, purge t s) end).2 = purge t s).
  { intros x. by destruct (_ ≫= _). }
  rewrite H2. clear H2. split; [done|]. split_and!.
  - intros i p op Hw Hop. cbn. destruct (expired t op) eqn:E.
    + apply map_lookup_filter_None. right. intros q Hq. rewrite Hw in Hq. injection Hq as <-. cbn. rewrite Hop. cbn. by rewrite E.
    + apply map_lookup_filter_Some. split; [done|]. cbn. by rewrite Hop.
  - intros Hf. assert (Hf' : FindOp (purge t s) op_id = None) by (apply map_lookup_filter_None; by left).
    rewrite Hf'. cbn. eauto.
  - intros p op Hf Hop He. assert (Hf' : FindOp (purge t s) op_id = Some p).
    { apply map_lookup_filter_Some. split; [done|]. cbn. by rewrite Hop. }
    rewrite Hf'. cbn. rewrite Hop. cbn. eexists. split; [done|]. done.
Qed.

(** ** Whole calls *)

Lemma update_update p f g s : update p f (update p g s) = update p (f ∘ g) s.
Proof. unfold update. cbn. by rewrite list_alter_alter_eq. Qed.

(** The end of a completion that returns its blocks. *)
Lemma complete_release rpc n p op s : heap s !! p = Some op -> blocks_released op = false -> landing_block_ids op ≠ [] ->
  complete_run (3 + n) rpc (CRelease p) s =
    (None, with_manager (HostOffload.DeallocateBlockIds (manager s) (landing_block_ids op))
             (update p (mark_settled ∘ mark_released) s)).
Proof.
  intros Hop Hr Hl. cbn [complete_run Nat.add complete_step]. unfold StartRelease. rewrite Hop, Hr.
  destruct (landing_block_ids op) as [|i ids] eqn:El; [done|]. cbn [length Nat.eqb orb complete_run complete_step].
  f_equal. change (manager (update p mark_released s)) with (manager s).
  change (update p mark_settled (with_manager ?m ?x)) with (with_manager m (update p mark_settled x)).
  by rewrite update_update.
Qed.

(** The end of a completion whose blocks the cache keeps. *)
Lemma complete_keep rpc n p st s : kept_by_cache st = true ->
  complete_run (2 + n) rpc (CFinish p st []) s = (None, update p (mark_settled ∘ finish_op st []) s).
Proof. intros Hk. cbn [complete_run Nat.add complete_step]. rewrite Hk. cbn [complete_run complete_step]. by rewrite update_update. Qed.

Lemma complete_refuse rpc n p st existing op s : kept_by_cache st = false ->
  heap s !! p = Some op -> blocks_released op = false -> landing_block_ids op ≠ [] ->
  complete_run (4 + n) rpc (CFinish p st existing) s =
    (None, with_manager (HostOffload.DeallocateBlockIds (manager s) (landing_block_ids op))
             (update p (mark_settled ∘ mark_released ∘ finish_op st existing) s)).
Proof.
  intros Hk Hop Hr Hl. destruct (finish_fields st existing op) as (_ & El & _ & _ & _ & _ & _ & _ & Er & _). cbn zeta in *.
  change (4 + n)%nat with (S (3 + n)). cbn [complete_run complete_step]. rewrite Hk. cbv beta iota zeta.
  rewrite (complete_release rpc n p (finish_op st existing op)).
  - rewrite update_update, El. done.
  - rewrite (update_lookup _ _ _ _ op) by done. by rewrite decide_True.
  - by rewrite Er, Hr, Hk.
  - by rewrite El.
Qed.

Lemma complete_run_S n rpc c s : complete_run (S n) rpc c s =
  match complete_step (match c with CRegister p => registered_status rpc p s | _ => OkStatus end) c s with
  | (None, s) => (None, s)
  | (Some c, s) => complete_run n rpc c s
  end.
Proof. done. Qed.

(** What a completed write leaves behind when it refuses to store the blocks. *)
Definition gave_back (st : OpState) (existing : list Hash) p op s (r : option Completion * KVCacheStoreServiceImpl) : Prop :=
  backend_ r.2 = backend_ s ∧ manager r.2 = HostOffload.DeallocateBlockIds (manager s) (landing_block_ids op) ∧
  exists op', heap r.2 !! p = Some op' ∧ state op' = st ∧ existing_hashes op' = existing ∧
    blocks_released op' = true ∧ settle_done op' = true.

Lemma complete_gives_back rpc n p st existing op s : kept_by_cache st = false ->
  heap s !! p = Some op -> blocks_released op = false -> landing_block_ids op ≠ [] ->
  (complete_run (4 + n) rpc (CFinish p st existing) s).1 = None ∧
  gave_back st existing p op s (complete_run (4 + n) rpc (CFinish p st existing) s).
Proof.
  intros Hk Hop Hr Hl. rewrite (complete_refuse rpc n p st existing op s) by done. split; [done|].
  split_and!; [done|done|]. eexists. split.
  - cbn [snd heap with_manager]. by rewrite (update_lookup _ _ _ _ op), decide_True.
  - cbn [compose]. unfold finish_op. rewrite Hk. by split_and!.
Qed.

(** A transfer that resolves in time completes in at most nine sections.  If every
    block is already resident the operation ends [ALL_EXIST], if some are [PARTIAL_EXIST]
    with exactly those, and if the cache cannot take the batch [FAILED]; in all three cases
    the backend is untouched and the landing blocks return to the pool.  Otherwise every
    hash becomes visible as resident in its own landing block, the pool keeps the blocks
    allocated, and the operation ends [COMMITTED], or [STORED_UNREGISTERED] with all its
    hashes when the registry refused. *)
Theorem service_complete rpc t p op s :
  FindOp s (id op) = Some p -> heap s !! p = Some op -> state op = kPending -> blocks_released op = false ->
  landing_block_ids op ≠ [] -> length (block_hashes op) = length (landing_block_ids op) ->
  NoDup (block_hashes op) -> LRU.wf (HostOffload.lru_cache_ (backend_ s)) -> t < deadline op ->
  let c := HostOffload.lru_cache_ (backend_ s) in
  let present := HostOffload.AlreadyPresentHostResident (block_hashes op) (backend_ s) in
  let fits := Forall (fun h => LRU.map_ c !! h = None) (block_hashes op) ∧
              (length (block_hashes op) <= LRU.available_space c)%nat in
  let r := CompleteWriteRemote rpc t (id op) OkStatus s in
  r.1 = None ∧
  (length present = length (block_hashes op) -> gave_back kAllExist [] p op s r) ∧
  ((0 < length present < length (block_hashes op))%nat -> gave_back kPartialExist present p op s r) ∧
  (present = [] -> ¬ fits -> gave_back kFailed [] p op s r) ∧
  (present = [] -> fits ->
     manager r.2 = manager s ∧
     (forall i h id, block_hashes op !! i = Some h -> landing_block_ids op !! i = Some id ->
        LRU.Peek h (HostOffload.lru_cache_ (backend_ r.2)) = Some (host_block (unit_ s) id HOST)) ∧
     exists op', heap r.2 !! p = Some op' ∧ settle_done op' = true ∧ blocks_released op' = true ∧
       if ok (registered_status rpc p r.2) then state op' = kCommitted
       else state op' = kStoredUnregistered ∧ unregistered_hashes op' = block_hashes op).
Proof.
  intros Hf Hop Hst Hr Hl Hlen Hnd Hwf Ht c present fits r.
  set (s1 := update p (with_state kCompleting) s).
  assert (Hop1 : heap s1 !! p = Some (with_state kCompleting op)) by (unfold s1; by rewrite (update_lookup _ _ _ _ op), decide_True).
  assert (Hr1 : r = complete_run 8 rpc (CRecheck p) s1).
  { unfold r, CompleteWriteRemote, Claim. rewrite Hf, Hop, (bool_decide_eq_true_2 _ Hst). cbn [ok andb].
    by rewrite (proj2 (Z.ltb_lt _ _) Ht). }
  clearbody r. subst r. change 8%nat with (S (4 + 3)). rewrite complete_run_S. cbn [complete_step]. rewrite Hop1.
  change (backend_ s1) with (backend_ s). cbn [block_hashes with_state]. fold present.
  assert (Hback : forall st existing (n : nat), kept_by_cache st = false ->
     (complete_run (4 + n) rpc (CFinish p st existing) s1).1 = None ∧
     gave_back st existing p op s (complete_run (4 + n) rpc (CFinish p st existing) s1)).
  { intros st existing n Hk. exact (complete_gives_back rpc n p st existing _ s1 Hk Hop1 Hr Hl). }
  assert (Hpos : (0 < length (block_hashes op))%nat) by (rewrite Hlen; destruct (landing_block_ids op); [done|simpl; lia]).
  destruct (Nat.eqb_spec (length present) (length (block_hashes op))) as [Heq|Hneq].
  { destruct (Hback kAllExist [] 3%nat eq_refl) as [H1 H2]. split_and!; [done|done|lia| |];
      intros ->; simpl in Heq; lia. }
  destruct (Nat.eqb_spec (length present) 0) as [Hz|Hz]; cbn [negb].
  2: { destruct (Hback kPartialExist present 3%nat eq_refl) as [H1 H2]. split_and!; [done|lia|done| |];
      intros ->; simpl in Hz; lia. }
  apply nil_length_inv in Hz. change (4 + 3)%nat with (S (4 + 2)). rewrite complete_run_S. cbn [complete_step]. rewrite Hop1.
  cbn [block_hashes landing_block_ids with_state]. change (unit_ s1) with (unit_ s). change (backend_ s1) with (backend_ s).
  set (slices := slices_of (unit_ s) (landing_block_ids op)).
  assert (Hsl : length (block_hashes op) = length slices) by (unfold slices, slices_of; by rewrite length_fmap).
  destruct (OffloadInsert.InsertAllOrNothing_spec (block_hashes op) slices (backend_ s) Hwf) as (Hok & Hno & Hyes).
  destruct (HostOffload.InsertAllOrNothing (block_hashes op) slices (backend_ s)) as [inserted b] eqn:Eins.
  cbn [fst snd] in *. destruct inserted.
  - destruct (proj1 Hok eq_refl) as (_ & _ & Hnone & Hroom). destruct (Hyes eq_refl) as (_ & _ & Hpk & _).
    change (4 + 2)%nat with (S (2 + 3)). rewrite complete_run_S. cbn [complete_step]. set (s2 := with_backend b s1).
    set (st := if ok (registered_status rpc p s2) then kCommitted else kStoredUnregistered).
    assert (Hk : kept_by_cache st = true) by (unfold st; by destruct (ok _)).
    rewrite (complete_keep rpc 3 p st s2 Hk). cbn [fst snd].
    split_and!; [done|lia|rewrite Hz; simpl; lia|intros _ Hnf; by destruct Hnf|].
    intros _ _. split_and!; [done| |].
    + intros i h bid Hh Hb. apply (Hpk Hnd i); [done|]. unfold slices, slices_of. by rewrite list_lookup_fmap, Hb.
    + eexists. split; [by rewrite (update_lookup _ _ _ _ (with_state kCompleting op)), decide_True|].
      assert (Hreg : registered_status rpc p (update p (mark_settled ∘ finish_op st []) s2) = registered_status rpc p s2).
      { unfold registered_status. rewrite (update_lookup _ _ _ _ (with_state kCompleting op)), decide_True by done.
        change (heap s2 !! p) with (heap s1 !! p). rewrite Hop1.
        unfold finish_op. rewrite Hk. done. }
      rewrite Hreg. unfold compose, finish_op. rewrite Hk. cbn. split_and!; [done..|].
      unfold st. by destruct (ok _).
  - rewrite (Hno eq_refl). change (with_backend (backend_ s) s1) with s1.
    destruct (Hback kFailed [] 2%nat eq_refl) as [H1 H2]. split_and!; [done|lia|rewrite Hz; simpl; lia|done|].
    intros _ [Hnone Hroom]. assert (false = true); [apply Hok|done].
    split_and!; [intros E; rewrite E in Hpos; simpl in Hpos; lia|done|done|done].
Qed.

(** ** Fetch *)

Lemma source_blocks slices ids : for_each source_block slices [] = Ok ids ->
  ids = host_block_id <$> slices.*2 ∧ Forall (fun s => on_host s.2 = true) slices.
Proof.
  apply (for_each_ind source_block
    (fun done_ st => st = host_block_id <$> done_.*2 ∧ Forall (fun s : Hash * RaidenBlockId => on_host s.2 = true) done_)).
  - by split; [|constructor].
  - intros done_ x rest st st' _ [-> Hf] Hb. unfold source_block in Hb. destruct (on_host x.2) eqn:E; [|done].
    injection Hb as <-. split; [by rewrite !fmap_app|]. apply Forall_app. by split; [|constructor].
Qed.

(** A fetch reads, for every requested hash, the host block the index binds it to, and
    whatever happens (a failed check, a refused pin, a failed transfer or success) the pins
    of every entry are afterwards what they were before the call, and so is every visible
    entry. *)
Theorem service_fetch registry transfer req s : LRU.wf (HostOffload.lru_cache_ (backend_ s)) ->
  let r := Fetch registry [] [] [] transfer req s in
  (forall k, HostOffload.GetPinCount k (backend_ r.2) = HostOffload.GetPinCount k (backend_ s)) ∧
  (forall hashes, r.1 = Ok hashes -> hashes = fr_block_hashes req ∧
     (hashes ≠ [] -> exists slices,
        length slices = length hashes ∧
        Forall2 (fun h blk => LRU.Peek h (HostOffload.lru_cache_ (backend_ s)) = Some blk ∧ on_host blk = true) hashes slices ∧
        transfer (buffers [] (host_block_id <$> slices))
                 (buffers (fr_client_worker_endpoints req) (fr_host_block_ids req)) = OkStatus ∧
        forall h, h ∈ hashes -> LRU.Peek h (HostOffload.lru_cache_ (backend_ r.2)) = LRU.Peek h (HostOffload.lru_cache_ (backend_ s)))).
Proof.
  intros Hwf. unfold Fetch. destruct (negb (connected s)); [done|].
  destruct (Nat.eqb_spec (length (fr_block_hashes req)) 0) as [Hz|Hz].
  { apply nil_length_inv in Hz. rewrite Hz. split; [done|]. by intros hashes [= <-]. }
  destruct (negb _); [done|].
  destruct (OffloadPins.Lookup_nopin registry (fr_block_hashes req) default_options (backend_ s) Hwf eq_refl) as (Hb & Hle & Hpre & Hin).
  destruct (HostOffload.Lookup _ _ _ _ _) as [slices b]. cbn [fst snd] in *. subst b.
  destruct (Nat.ltb_spec (length slices) (length (fr_block_hashes req))) as [Hlt|Hge]; [done|].
  assert (Hlen : length slices = length (fr_block_hashes req)) by lia.
  rewrite Hlen, take_ge in Hpre by lia.
  destruct (for_each source_block slices []) as [ids|] eqn:Es; [|done]. apply source_blocks in Es as [-> Hhost].
  destruct (_ && _); [done|]. cbn [HostOffload.run foldl backend_ with_backend].
  assert (Hpeek : Forall2 (fun h blk => LRU.Peek h (HostOffload.lru_cache_ (backend_ s)) = Some blk ∧ on_host blk = true)
                    (fr_block_hashes req) slices.*2).
  { rewrite <-Hpre. apply Forall2_fmap, Forall_Forall2_diag, Forall_forall. intros [h blk] Hel.
    rewrite Forall_forall in Hhost. pose proof (Hhost _ Hel) as Ho. cbn in Ho.
    apply list_elem_of_lookup_1 in Hel as [i Hi]. destruct (Hin i h blk Hi) as [_ [Hp|Hr]]; [done|].
    unfold on_host in Ho. rewrite Hr in Ho. done. }
  assert (Hall : Forall (fun h => is_Some (LRU.Peek h (HostOffload.lru_cache_ (backend_ s)))) (fr_block_hashes req)).
  { apply Forall2_Forall_l with (P := fun h blk => LRU.Peek h (HostOffload.lru_cache_ (backend_ s)) = Some blk ∧ on_host blk = true)
      (k := slices.*2); [done|]. apply Forall_forall. intros blk _ h [-> _]. eauto. }
  pose proof (OffloadPins.Pin_spec (fr_block_hashes req) (backend_ s) Hwf) as (_ & Hwf' & _ & Hpins).
  pose proof (OffloadPins.Pin_Peeks (fr_block_hashes req) (backend_ s) Hwf Hall) as [Hpin Hpk].
  destruct (HostOffload.Pin (fr_block_hashes req) (backend_ s)) as [pinned b]. cbn [fst snd] in *. subst pinned. cbn [negb].
  set (status := transfer _ _). destruct status as [u|code msg] eqn:Est; cbn [fst snd backend_ with_backend].
  - split.
    + intros k. rewrite OffloadPins.Release_pins, Hpins by done.
      pose proof (LRU.wf_pin_nonneg _ k Hwf). unfold HostOffload.GetPinCount in *. lia.
    + intros hashes [= <-]. split; [done|]. intros _. exists slices.*2. destruct u.
      split_and!; [by rewrite length_fmap|done|exact Est|].
      intros h _. by rewrite OffloadPins.Release_Peek, Hpk.
  - split; [|done]. intros k. rewrite OffloadPins.Release_pins, Hpins by done.
    pose proof (LRU.wf_pin_nonneg _ k Hwf). unfold HostOffload.GetPinCount in *. lia.
Qed.

(** ** Runs *)

(** The steps, as functions; [None] when a step is not enabled. *)
Inductive Event : Type :=
  | ETime (t : Z)
  | EAllocate (req : WriteRequest)
  | EAccept (i : nat) (cap op_id : Z)
  | EResolve (i : nat) (status : Status)
  | EComplete (registered : Status)
  | EDeadline (paused : bool)
  | EPoll (op_id : Z).

Definition exec_event w (e : Event) : option World :=
  match e with
  | ETime t =>
      if now w <=? t
      then Some (mkWorld (svc w) t (handlers w) (transfers w) (completing w) (freed w) (claims w)) else None
  | EAllocate req =>
      match CheckOffer req (svc w), AllocateLanding req (svc w) with
      | Ok None, (Ok ids, s') =>
          if LBM.access_counter_ (manager (svc w)) + 1 <? 2 ^ 64
          then Some (mkWorld s' (now w) (handlers w ++ [(req, ids)]) (transfers w) (completing w) (freed w) (claims w))
          else None
      | _, _ => None
      end
  | EAccept i cap op_id =>
      match handlers w !! i with
      | Some (req, ids) =>
          if bool_decide (0 < cap ∧ op_id ≠ 0 ∧ write_ops_ (svc w) !! op_id = None)
          then Some (mkWorld (Accept cap (now w) op_id req ids (svc w)).2 (now w) (delete i (handlers w))
                       (op_id :: transfers w) (completing w) (freed w) (claims w))
          else None
      | None => None
      end
  | EResolve i status =>
      match transfers w !! i, completing w with
      | Some op_id, None =>
          let '(next, s') := Claim (now w) op_id status (svc w) in
          Some (mkWorld s' (now w) (handlers w) (delete i (transfers w)) next (freed w)
                  (log_claim next (now w) (claims w)))
      | _, _ => None
      end
  | EComplete registered =>
      match completing w with
      | Some c =>
          let '(next, s') := complete_step registered c (svc w) in
          Some (mkWorld s' (now w) (handlers w) (transfers w) next (log_free c (freed w)) (claims w))
      | None => None
      end
  | EDeadline paused =>
      Some (mkWorld (DeadlineLoop paused (now w) (svc w)).2 (now w) (handlers w) (transfers w) (completing w)
              (freed w) (claims w))
  | EPoll op_id =>
      Some (mkWorld (PollWriteRemote (now w) op_id (svc w)).2 (now w) (handlers w) (transfers w) (completing w)
              (freed w) (claims w))
  end.

Definition exec (es : list Event) w : option World :=
  foldl (fun acc e => acc ≫= fun w => exec_event w e) (Some w) es.

Lemma exec_event_step w e w' : exec_event w e = Some w' -> step w w'.
Proof.
  destruct e as [t|req|i cap op_id|i st|registered|paused|op_id]; cbn [exec_event].
  - destruct (now w <=? t) eqn:E; [|done]. intros [= <-]. apply StepTime. to_prop. lia.
  - destruct (CheckOffer req (svc w)) as [[?|]|] eqn:Ec; [done| |done].
    destruct (AllocateLanding req (svc w)) as [[ids|] s'] eqn:Ea; [|done].
    destruct (_ <? _) eqn:E; [|done]. intros [= <-]. eapply StepAllocate; [exact Ec|to_prop; lia|done].
  - destruct (handlers w !! i) as [[req ids]|] eqn:Eh; [|done]. case_bool_decide as Hb; [|done].
    intros [= <-]. destruct Hb as (? & ? & ?). apply StepAccept; [done|done|lia|done|done].
  - destruct (transfers w !! i) as [op_id|] eqn:Et; [|done]. destruct (completing w) eqn:Ec; [done|].
    destruct (Claim _ _ _ _) as [next s'] eqn:E. intros [= <-]. by eapply StepResolve.
  - destruct (completing w) as [c|] eqn:Ec; [|done]. destruct (complete_step _ _ _) as [next s'] eqn:E.
    intros [= <-]. by eapply StepComplete.
  - intros [= <-]. apply StepDeadline.
  - intros [= <-]. apply StepPoll.
Qed.

Lemma exec_rtc es w w' : exec es w = Some w' -> rtc step w w'.
Proof.
  unfold exec. revert w. induction es as [|e es IH]; intros w; cbn [foldl]; [by intros [= <-]|].
  cbn [mbind option_bind]. destruct (exec_event w e) as [w1|] eqn:E.
  - intros H. eapply rtc_l; [by eapply exec_event_step|]. by apply IH.
  - intros H. assert (Hn : forall l, foldl (fun acc e => acc ≫= fun w => exec_event w e) None l = None).
    { induction l; [done|]. done. }
    by rewrite Hn in H.
Qed.

(** ** Witnesses *)

Definition demo_request (hashes : list Hash) : WriteRequest :=
  mkWriteRequest hashes [7; 8] 1000 (OffloadLookup.node 2) [mkGroup 0 EmptyString []].
Definition demo_world : World :=
  mkWorld (mkService true (HostOffload.create 4 None (OffloadLookup.node 1) true EmptyString) (LBM.create 4)
             (OffloadLookup.node 1) [] ∅) 0 [] [] None [] ∅.

(** One write that commits, then one that is accepted and passes its deadline. *)
Definition demo_first : list Event :=
  [EAllocate (demo_request [[1]; [2]]); EAccept 0 (Seconds 25) 77; EResolve 0 OkStatus] ++
  replicate 5 (EComplete OkStatus).
Definition demo_second : list Event :=
  [EAllocate (demo_request [[3]; [4]]); EAccept 0 (Seconds 25) 78; ETime (Seconds 2)].
Definition demo_late : list Event :=
  [EResolve 0 OkStatus; EComplete OkStatus; EComplete OkStatus; EComplete OkStatus; EPoll 78].

Definition after (es : list Event) : World := default demo_world (exec es demo_world).

Lemma demo_initial : initial demo_world.
Proof. split_and!; try done. by apply LBM.lbm_create_wf. Qed.

Lemma after_reachable es : is_Some (exec es demo_world) -> reachable (after es).
Proof.
  intros [w Hw]. exists demo_world. split; [apply demo_initial|]. unfold after. rewrite Hw. by apply exec_rtc in Hw.
Qed.

Lemma after_run es es' : is_Some (exec (es ++ es') demo_world) -> rtc step (after es) (after (es ++ es')).
Proof.
  intros [w Hw]. unfold after. rewrite Hw. unfold exec in *. rewrite foldl_app in Hw.
  destruct (foldl _ (Some demo_world) es) as [w1|] eqn:E; [by apply exec_rtc in Hw|].
  assert (Hn : forall l, foldl (fun acc e => acc ≫= fun w => exec_event w e) None l = None) by (by induction l).
  by rewrite Hn in Hw.
Qed.

Definition op_at p w : option WriteOp := heap (svc w) !! p.
Definition op_or p w : WriteOp :=
  default (mkOp 0 kPending [] [] [] [] 0 0 0 0 false None false) (op_at p w).

Lemma op_at_some p w : is_Some (op_at p w) -> heap (svc w) !! p = Some (op_or p w).
Proof. unfold op_or, op_at. intros [op ->]. done. Qed.

Lemma service_verdicts_witness :
  let w := after (demo_first ++ demo_second) in
  let w' := after ((demo_first ++ demo_second) ++ demo_late) in
  deadline (op_or 1 w) <= now w ∧
  (exists op', heap (svc w') !! 0%nat = Some op' ∧ state op' = kCommitted) ∧
  (exists op', heap (svc w') !! 1%nat = Some op' ∧ refused (state op')).
Proof.
  intros w w'. assert (Hw : reachable w) by (apply after_reachable; vm_compute; eauto).
  assert (Hr : rtc step w w') by (apply after_run; vm_compute; eauto).
  assert (H0 : heap (svc w) !! 0%nat = Some (op_or 0 w)) by (apply op_at_some; vm_compute; eauto).
  assert (H1 : heap (svc w) !! 1%nat = Some (op_or 1 w)) by (apply op_at_some; vm_compute; eauto).
  assert (Hd : deadline (op_or 1 w) <= now w) by (vm_compute; discriminate).
  assert (Hs : state (op_or 0 w) = kCommitted) by (vm_compute; reflexivity).
  assert (Hp : state (op_or 1 w) = kPending) by (vm_compute; reflexivity).
  clearbody w w'. split_and!; [done| |].
  - destruct (proj1 (service_verdicts w w' 0 _ Hw Hr H0)) as (op' & Hop & Hst); [by rewrite Hs|].
    exists op'. by rewrite <-Hs.
  - apply (proj2 (service_verdicts w w' 1 _ Hw Hr H1)); [by left|done].
Defined.

(** The second write is refused, and its blocks are free again. *)
Definition demo_before : list Event := demo_first ++ demo_second ++ take 2 demo_late.
Lemma service_landing_blocks_witness :
  let w := after demo_before in let w' := after (demo_before ++ [EComplete OkStatus]) in
  held w = [2; 3] ∧ held w' = [] ∧ NoDup (held w) ∧ given_up w w' 2.
Proof.
  intros w w'. assert (Hw : reachable w) by (apply after_reachable; vm_compute; eauto).
  assert (Hs : exec_event w (EComplete OkStatus) = Some w') by (vm_compute; reflexivity).
  assert (Hh : held w = [2; 3]) by (vm_compute; reflexivity). assert (Hh' : held w' = []) by (vm_compute; reflexivity). clearbody w w'.
  destruct (service_landing_blocks w Hw) as (Hnd & _ & _ & Hstep & _). split_and!; [exact Hh|exact Hh'|exact Hnd|].
  apply (Hstep w' 2 (exec_event_step _ _ _ Hs)); [rewrite Hh; apply list_elem_of_here|rewrite Hh'; apply not_elem_of_nil].
Defined.

Lemma service_claims_witness :
  let w := after demo_first in
  exists t, claims w !! 0%nat = Some t ∧ t < deadline (op_or 0 w).
Proof.
  intros w. assert (Hw : reachable w) by (apply after_reachable; vm_compute; eauto).
  assert (H0 : heap (svc w) !! 0%nat = Some (op_or 0 w)) by (apply op_at_some; vm_compute; eauto).
  assert (Hs : state (op_or 0 w) = kCommitted) by (vm_compute; reflexivity).
  clearbody w. destruct (service_claims w 0 _ Hw H0) as (_ & _ & Hc). destruct Hc as (t & Ht & Hlt & _).
  - rewrite Hs. by intros [?|?].
  - exists t. split; [done|]. lia.
Defined.

Lemma service_deadline_round_witness :
  let w := after (demo_first ++ demo_second) in
  exists op', heap (DeadlineLoop false (now w) (svc w)).2 !! 1%nat = Some op' ∧ state op' = kFailed.
Proof.
  intros w.
  assert (Hw : write_ops_ (svc w) !! 78 = Some 1%nat) by (vm_compute; reflexivity).
  assert (H1 : heap (svc w) !! 1%nat = Some (op_or 1 w)) by (apply op_at_some; vm_compute; eauto).
  assert (Hs : state (op_or 1 w) = kPending) by (vm_compute; reflexivity).
  assert (Hd : deadline (op_or 1 w) <= now w) by (vm_compute; discriminate). clearbody w.
  destruct (service_deadline_round (now w) (svc w) 78 1 _ Hw H1) as (_ & op' & Hop & Hf & _).
  exists op'. split; [done|]. apply Hf. by right.
Defined.

Lemma service_poll_witness :
  let w := after demo_first in
  exists rep, (PollWriteRemote (now w) 77 (svc w)).1 = Ok rep ∧
    HostOffload.po_state (reply rep) = HostOffload.COMMITTED.
Proof.
  intros w.
  assert (H0 : heap (svc w) !! 0%nat = Some (op_or 0 w)) by (apply op_at_some; vm_compute; eauto).
  assert (Hf : FindOp (svc w) 77 = Some 0%nat) by (vm_compute; reflexivity).
  assert (He : expired (now w) (op_or 0 w) = false) by (vm_compute; reflexivity).
  assert (Hs : state (op_or 0 w) = kCommitted) by (vm_compute; reflexivity). clearbody w.
  destruct (service_poll (now w) 77 (svc w)) as (_ & _ & _ & Hp); [lia|].
  destruct (Hp 0%nat _ Hf H0 He) as (rep & Hr & Hst & _). exists rep. split; [done|]. by rewrite Hst, Hs.
Defined.

Lemma service_complete_witness :
  let w := after (take 2 demo_first) in
  let r := CompleteWriteRemote (fun _ => OkStatus) (now w) 77 OkStatus (svc w) in
  r.1 = None ∧ LRU.Peek [2] (HostOffload.lru_cache_ (backend_ r.2)) = Some (host_block (OffloadLookup.node 1) 1 HOST).
Proof.
  intros w r.
  assert (H0 : heap (svc w) !! 0%nat = Some (op_or 0 w)) by (apply op_at_some; vm_compute; eauto).
  assert (Hh : block_hashes (op_or 0 w) = [[1]; [2]]) by (vm_compute; reflexivity).
  assert (Hl : landing_block_ids (op_or 0 w) = [0; 1]) by (vm_compute; reflexivity).
  assert (Hu : unit_ (svc w) = OffloadLookup.node 1) by (vm_compute; reflexivity).
  assert (Hi : id (op_or 0 w) = 77) by (vm_compute; reflexivity).
  assert (Hf : FindOp (svc w) 77 = Some 0%nat) by (vm_compute; reflexivity).
  assert (Hs : state (op_or 0 w) = kPending) by (vm_compute; reflexivity).
  assert (Hr : blocks_released (op_or 0 w) = false) by (vm_compute; reflexivity).
  assert (Hd : now w < deadline (op_or 0 w)) by (vm_compute; reflexivity).
  assert (Hc : HostOffload.lru_cache_ (backend_ (svc w)) = LRU.create 4) by (vm_compute; reflexivity).
  assert (Hpr : HostOffload.AlreadyPresentHostResident [[1]; [2]] (backend_ (svc w)) = []) by (vm_compute; reflexivity).
  clearbody w. unfold r. rewrite <-Hi in Hf |- *.
  destruct (service_complete (fun _ => OkStatus) (now w) 0 (op_or 0 w) (svc w)) as (H1 & _ & _ & _ & H2);
    try done; rewrite ?Hh, ?Hl, ?Hc, ?Hu, ?Hpr in *; try done.
  - apply (bool_decide_unpack _). vm_compute. exact I.
  - apply LRU.create_wf.
  - destruct H2 as (_ & Hp & _); [done|split; [repeat constructor|vm_compute; lia]|].
    split; [exact H1|]. by apply (Hp 1%nat).
Defined.

(** Node 1 serves its block [1] to node 2. *)
Definition demo_fetch : FetchRequest :=
  mkFetchRequest [[1]] [20] (OffloadLookup.node 2) [mkGroup 0 EmptyString []].
Definition demo_server : KVCacheStoreServiceImpl :=
  mkService true OffloadLookup.demo (LBM.create 4) (OffloadLookup.node 1) [] ∅.

Lemma service_fetch_witness :
  let r := Fetch (fun _ => Ok []) [] [] [] (fun _ _ => OkStatus) demo_fetch demo_server in
  r.1 = Ok [[1]] ∧ HostOffload.GetPinCount [1] (backend_ r.2) = HostOffload.GetPinCount [1] (backend_ demo_server).
Proof.
  split; [vm_compute; reflexivity|].
  apply (service_fetch (fun _ => Ok []) (fun _ _ => OkStatus) demo_fetch demo_server OffloadLookup.offload_demo_wf).
Defined.

(** The lookup and the pin of a fetch are two critical sections.  If another thread evicts
    the block and binds its hash to another one in between, the pin succeeds, the transfer
    reads the old host block and the fetch reports success. *)
Lemma fetch_stale_source :
  let between := [HostOffload.OpEvict [[1]];
                  HostOffload.OpInsert [[1]] [host_block (OffloadLookup.node 1) 30 HOST]] in
  let transfer (src dst : list Buffer) : Status :=
    match src with [b] => if buf_id b =? 10 then OkStatus else Err kInternal [] | _ => Err kInternal [] end in
  let r := Fetch (fun _ => Ok []) [] between [] transfer demo_fetch demo_server in
  r.1 = Ok [[1]] ∧
  host_block_id <$> LRU.Peek [1] (HostOffload.lru_cache_ (backend_ r.2)) = Some 30.
Proof. vm_compute. split; reflexivity. Qed.

End ServiceSafety.
