(* ===== verification/KVCacheStoreTiers.v ===== *)
(** * The store as a stack of backends ([Lookup], [Insert], [Release], [GetPinCount] of
    [src/tpu_sync/kv_cache/kv_cache_store.cc])

    The backends of a store implement one interface ([kv_cache_store_backend.h]).  [Class
    KVCacheStoreBackend] has the operations the store calls on all its tiers and [Class
    BackendLaws] what it relies on; [Module Tiers] models the store's methods over any such
    backend and proves them against the laws, and the host offload backend is an instance. *)

From S2P Require Import Prelude ReshardTypes StoreBackend LruCache HostOffloadBackend HostOffloadLookup HostOffloadInsert HostOffloadPins.

(** ** The interface *)

Class KVCacheStoreBackend (B : Type) : Type := {
  Lookup : list Hash -> LookupOptions -> B -> StatusOr BlockSliceList * B;
  InsertAndLock : list Hash -> list RaidenBlockId -> B -> bool * B;
  Release : list Hash -> B -> B;
  ReleaseAndDelete : list Hash -> B -> Z * B;
  GetPinCount : Hash -> B -> Z;
  GetCapacity : B -> nat
}.

Class BackendLaws (B : Type) `{KVCacheStoreBackend B} : Type := {
  valid : B -> Prop;
  (** The hash is resident: a lookup pins it. *)
  resident : B -> Hash -> bool;
  not_resident b h : valid b -> resident b h = false -> GetPinCount h b = 0;
  pins_nonneg b h : valid b -> 0 <= GetPinCount h b;
  lookup_valid hs o b : valid b -> valid (Lookup hs o b).2;
  lookup_prefix hs o b slices : valid b -> (Lookup hs o b).1 = Ok slices -> slices.*1 = take (length slices) hs;
  lookup_pins hs o b h : valid b -> enable_interleaved_lookup o = true ->
    GetPinCount h (Lookup hs o b).2 =
      GetPinCount h b +
      match (Lookup hs o b).1 with
      | Ok slices => if pin_found o then OffloadLookup.occ h (filter (fun k => resident b k = true) slices.*1) else 0
      | Err _ _ => 0
      end;
  lookup_capacity hs o b : GetCapacity (Lookup hs o b).2 = GetCapacity b;
  release_valid hs b : valid b -> valid (Release hs b);
  release_pins hs b h : valid b -> GetPinCount h (Release hs b) = Z.max 0 (GetPinCount h b - OffloadLookup.occ h hs);
  lock_valid hs slices b : valid b -> valid (InsertAndLock hs slices b).2;
  lock_pins hs slices b h : valid b ->
    GetPinCount h (InsertAndLock hs slices b).2 =
      GetPinCount h b + if (InsertAndLock hs slices b).1 then OffloadLookup.occ h hs else 0;
  delete_valid hs b : valid b -> valid (ReleaseAndDelete hs b).2;
  delete_pins hs b h : valid b ->
    GetPinCount h (ReleaseAndDelete hs b).2 = Z.max 0 (GetPinCount h b - OffloadLookup.occ h hs)
}.

Module Tiers.

Section tiers.
Context {B : Type} {HB : KVCacheStoreBackend B}.

(** [backends_], with its null entries. *)
Abbreviation Backends := (list (option B)).
Implicit Types (bs : Backends).

(** ** The methods *)

Definition Release bs (hashes : list Hash) : Backends := (option_map (KVCacheStoreTiers.Release hashes) : option B -> option B) <$> bs.

Definition capacity bs : nat := match bs with Some b :: _ => GetCapacity b | _ => 0%nat end.

Fixpoint GetPinCount bs (hash : Hash) : Z :=
  match bs with
  | [] => 0
  | None :: rest => GetPinCount rest hash
  | Some b :: rest =>
      let count := KVCacheStoreTiers.GetPinCount hash b in
      if 0 <? count then count else GetPinCount rest hash
  end.

(** The loop over the tiers: how it ends, the answer so far and the tiers.  [hashes] are those
    from [start_idx] on. *)
Fixpoint lookup_tiers (options : LookupOptions) (hashes : list Hash) (acc : BlockSliceList) bs :
    Status * BlockSliceList * Backends :=
  match bs with
  | [] => (OkStatus, acc, [])
  | tier :: rest =>
      match hashes, tier with
      | [], _ => (OkStatus, acc, bs)
      | _, None => let '(r, acc, rest) := lookup_tiers options hashes acc rest in (r, acc, None :: rest)
      | _, Some b =>
          match Lookup hashes options b with
          | (Err code msg, b) =>
              (if negb (length acc =? 0)%nat && bool_decide (code = kNotFound) then OkStatus else Err code msg,
               acc, Some b :: rest)
          | (Ok res, b) =>
              let '(r, acc, rest) := lookup_tiers options (drop (length res) hashes) (acc ++ res) rest in
              (r, acc, Some b :: rest)
          end
      end
  end.

Definition Lookup (options : LookupOptions) (hashes : list Hash) bs : StatusOr BlockSliceList * Backends :=
  match lookup_tiers options hashes [] bs with
  | (Err code msg, matched, bs) =>
      (Err code msg,
       if pin_found options && negb (length matched =? 0)%nat then Release bs matched.*1 else bs)
  | (Ok _, results, bs) =>
      let cap := capacity bs in
      if (0 <? cap)%nat && (cap <? length results)%nat then
        (Ok (take cap results), if pin_found options then Release bs (drop cap results).*1 else bs)
      else (Ok results, bs)
  end.

(** One tier of [Insert]: [locked] are the tiers already done. *)
Fixpoint insert_tiers (hashes : list Hash) (slices : list RaidenBlockId) (locked bs : Backends) : Status * Backends :=
  match bs with
  | [] => (OkStatus, locked)
  | None :: rest => insert_tiers hashes slices (locked ++ [None]) rest
  | Some b :: rest =>
      match InsertAndLock hashes slices b with
      | (true, b) => insert_tiers hashes slices (locked ++ [Some b]) rest
      | (false, b) =>
          (Err kResourceExhausted
             StrCat["Insert refused: not enough unpinned space, or a hash could not be pinned"],
           ((option_map (fun b => (ReleaseAndDelete hashes b).2) : option B -> option B) <$> locked) ++ Some b :: rest)
      end
  end.

Definition check_local (hashes : list Hash) (i : nat * RaidenBlockId) : Status :=
  if bool_decide (status i.2 = REMOTE) then
    Err kInvalidArgument
      StrCat["Insert only takes LOCAL entries; slice "; Z.of_nat i.1; " (hash ";
             match hashes !! i.1 with Some h => BytesToHexString h | None => "<none>"%string end;
             ") has status REMOTE"]
  else OkStatus.

Definition Insert (hashes : list Hash) (slices : list RaidenBlockId) bs : Status * Backends :=
  match bs with
  | [] => (Err kFailedPrecondition StrCat["KVCacheStore has no backend"], bs)
  | _ =>
      match for_each (fun _ => check_local hashes) (imap pair slices) tt with
      | Err code msg => (Err code msg, bs)
      | Ok _ => insert_tiers hashes slices [] bs
      end
  end.

(** ** Pins *)

Context {HL : BackendLaws B}.

Import OffloadLookup.

Lemma occ_filter_resident b h l :
  occ h (filter (fun k => resident b k = true) l) = if resident b h then occ h l else 0.
Proof.
  induction l as [|k l IH]; [rewrite occ_nil; by destruct (resident b h)|]. rewrite filter_cons. case_decide as Hk.
  - rewrite !occ_cons, IH. case_bool_decide as E; [subst; by rewrite Hk|]. destruct (resident b h); lia.
  - rewrite IH, occ_cons. case_bool_decide as E; [subst; by destruct (resident b h)|]. destruct (resident b h); lia.
Qed.

Definition tier_pins (h : Hash) (t : option B) : Z :=
  match t with Some b => KVCacheStoreTiers.GetPinCount h b | None => 0 end.
Definition tier_valid (t : option B) : Prop := match t with Some b => valid b | None => True end.

(** With one tier, a pinning lookup that may interleave local and remote blocks ends with exactly one pin per resident hash of the
    answer it returns: the pins of the part beyond the capacity are given back, remote
    answers carry none, and a failed lookup leaves every pin as it was.  Without
    [pin_found] no pin moves. *)
Theorem store_lookup_pins options hashes b h : valid b -> enable_interleaved_lookup options = true ->
  let r := Lookup options hashes [Some b] in
  exists b', r.2 = [Some b'] ∧ valid b' ∧
  KVCacheStoreTiers.GetPinCount h b' = KVCacheStoreTiers.GetPinCount h b +
    match r.1 with
    | Ok results => if pin_found options then occ h (filter (fun k => resident b k = true) results.*1) else 0
    | Err _ _ => 0
    end.
Proof.
  intros Hv Hil. unfold Lookup. cbn [lookup_tiers]. destruct hashes as [|h0 hs0].
  { exists b. cbn. rewrite andb_false_r. cbn. rewrite occ_nil. split_and!; [done|done|]. destruct (pin_found options); lia. }
  set (hs := h0 :: hs0).
  pose proof (lookup_valid hs options b Hv) as Hv'. pose proof (lookup_pins hs options b h Hv Hil) as Hp.
  destruct (KVCacheStoreTiers.Lookup hs options b) as [[res|code msg] b'] eqn:E; cbn [fst snd] in *.
  2: { cbn. rewrite andb_false_r. cbn. eauto. }
  cbn [lookup_tiers app]. cbn [capacity]. destruct (_ && _) eqn:Ecap; [|eauto].
  cbn [fst snd]. destruct (pin_found options) eqn:Epf; [|eauto].
  eexists. split; [done|]. split; [by apply release_valid|].
  rewrite release_pins by done. rewrite Hp, !occ_filter_resident, fmap_take, fmap_drop.
  set (cap := GetCapacity b'). rewrite <-(take_drop cap res.*1) at 1. rewrite occ_app.
  pose proof (pins_nonneg b h Hv). pose proof (occ_nonneg h (take cap res.*1)).
  pose proof (occ_nonneg h (drop cap res.*1)). destruct (resident b h) eqn:Er; [lia|].
  rewrite (not_resident b h Hv Er). lia.
Qed.

(** A tier before and after, when the pins of every hash moved by [d]. *)
Definition moved (d : Hash -> Z) (t t' : option B) : Prop :=
  match t, t' with
  | Some b, Some b' => valid b' ∧ forall h, KVCacheStoreTiers.GetPinCount h b' = KVCacheStoreTiers.GetPinCount h b + d h
  | None, None => True
  | _, _ => False
  end.

Lemma moved_zero bs : Forall tier_valid bs -> Forall2 (moved (fun _ => 0)) bs bs.
Proof.
  intros Hall. apply Forall_Forall2_diag. eapply Forall_impl; [exact Hall|]. intros [b|] Hv; [|done].
  split; [done|]. intros h. lia.
Qed.

(** The rollback of one locked tier. *)
Lemma moved_rollback hashes t t' : tier_valid t -> moved (fun h => occ h hashes) t t' ->
  moved (fun _ => 0) t (option_map (fun b => (ReleaseAndDelete hashes b).2) t').
Proof.
  intros Hv Hm. destruct t as [b|], t' as [b'|]; try done. destruct Hm as [Hv' Hp]. split; [by apply delete_valid|].
  intros h. rewrite delete_pins, Hp by done. pose proof (pins_nonneg b h Hv). lia.
Qed.

Lemma insert_tiers_spec hashes slices orig locked bs :
  Forall tier_valid orig -> Forall tier_valid bs -> Forall2 (moved (fun h => occ h hashes)) orig locked ->
  let r := insert_tiers hashes slices locked bs in
  Forall2 (moved (fun h => if ok r.1 then occ h hashes else 0)) (orig ++ bs) r.2.
Proof.
  revert orig locked. induction bs as [|[b|] bs IH]; intros orig locked Ho Hb Hm; cbn [insert_tiers].
  - by rewrite app_nil_r.
  - apply Forall_cons in Hb as [Hv Hb]. pose proof (lock_valid hashes slices b Hv) as Hv'.
    pose proof (fun h => lock_pins hashes slices b h Hv) as Hp.
    destruct (InsertAndLock hashes slices b) as [[] b'] eqn:E; cbn [fst snd] in *.
    + replace (orig ++ Some b :: bs) with ((orig ++ [Some b]) ++ bs) by (by rewrite <-app_assoc). apply IH; [|done|].
      * apply Forall_app. by split; [|constructor].
      * apply Forall2_app; [done|]. by constructor.
    + cbn [ok]. apply Forall2_app.
      * apply Forall2_fmap_r. rewrite Forall2_lookup in Hm |- *. intros i. specialize (Hm i).
        destruct (orig !! i) as [t|] eqn:Et, (locked !! i) as [t'|] eqn:Et'; inversion Hm; subst; constructor.
        apply moved_rollback; [|done]. by eapply Forall_lookup_1 in Ho.
      * constructor; [split; [done|]|by apply moved_zero]. intros h. rewrite Hp. lia.
  - apply Forall_cons in Hb as [_ Hb].
    replace (orig ++ None :: bs) with ((orig ++ [None]) ++ bs) by (by rewrite <-app_assoc). apply IH; [|done|].
    + apply Forall_app. split; [done|]. by constructor.
    + apply Forall2_app; [done|]. by constructor.
Qed.

(** [Insert] is all or nothing across the tiers: when it succeeds every backend has pinned
    every hash once per occurrence, and when it is refused, by a remote slice, by a lack of
    backends or by any tier, every pin count of every tier is what it was, whichever tiers
    had been locked before. *)
Theorem store_insert_tiers hashes slices bs : Forall tier_valid bs ->
  let r := Insert hashes slices bs in
  Forall2 (moved (fun h => if ok r.1 then occ h hashes else 0)) bs r.2.
Proof.
  intros Hv. unfold Insert. destruct bs as [|t bs]; [constructor|].
  destruct (for_each _ _ _) as [u|code msg]; [|by apply moved_zero].
  by apply (insert_tiers_spec hashes slices [] [] (t :: bs)).
Qed.

Lemma lookup_tiers_prefix options hs acc bs : Forall tier_valid bs ->
  let r := lookup_tiers options hs acc bs in
  exists more, r.1.2 = acc ++ more ∧ more.*1 = take (length more) hs ∧ Forall tier_valid r.2 ∧ capacity r.2 = capacity bs.
Proof.
  revert hs acc. induction bs as [|t bs IH]; intros hs acc Hv; cbn [lookup_tiers].
  { exists []. by rewrite app_nil_r. }
  destruct hs as [|h hs']; [exists []; by rewrite app_nil_r|]. set (hs := h :: hs').
  apply Forall_cons in Hv as [Ht Hv]. destruct t as [b|].
  - pose proof (lookup_valid hs options b Ht) as Hv'. pose proof (lookup_prefix hs options b) as Hpre.
    pose proof (lookup_capacity hs options b) as Hcap.
    destruct (KVCacheStoreTiers.Lookup hs options b) as [[res|code msg] b'] eqn:E; cbn [fst snd] in *.
    + destruct (IH (drop (length res) hs) (acc ++ res) Hv) as (more & Hr & Hm & Hvr & _).
      destruct (lookup_tiers _ _ _ bs) as [[r acc'] rest]. cbn [fst snd] in *.
      exists (res ++ more). rewrite Hr, <-app_assoc. split_and!; [done| |by constructor|done].
      rewrite fmap_app, length_app, (Hpre res Ht eq_refl), Hm. by rewrite take_take_drop.
    + exists []. rewrite app_nil_r. split_and!; [done|done|by constructor|done].
  - destruct (IH hs acc Hv) as (more & Hr & Hm & Hvr & _).
    destruct (lookup_tiers _ _ _ bs) as [[r acc'] rest]. cbn [fst snd] in *.
    exists more. split_and!; [done|done|by constructor|done].
Qed.

(** Whatever the tiers answer, a successful lookup returns slices for a prefix of the
    requested hashes, in their order, and never more of them than the tier-0 capacity. *)
Theorem store_lookup_prefix options hashes bs results : Forall tier_valid bs ->
  (Lookup options hashes bs).1 = Ok results ->
  results.*1 = take (length results) hashes ∧
  ((0 < capacity bs)%nat -> (length results <= capacity bs)%nat).
Proof.
  intros Hv. unfold Lookup. destruct (lookup_tiers_prefix options hashes [] bs Hv) as (more & Hr & Hm & _ & Hc).
  destruct (lookup_tiers options hashes [] bs) as [[[u|code msg] acc] bs']; cbn [fst snd] in *; [|done]. subst acc.
  rewrite Hc. cbn [app]. destruct (Nat.ltb_spec 0 (capacity bs)) as [H0|H0]; cbn [andb].
  - destruct (Nat.ltb_spec (capacity bs) (length more)) as [Hlt|Hge]; intros [= <-].
    + rewrite length_take, fmap_take, Hm, take_take. split; [f_equal; lia|lia].
    + split; [done|lia].
  - intros [= <-]. split; [done|lia].
Qed.
End tiers.
End Tiers.

(** ** The host offload backend as a tier *)

Module HostTier.
Import OffloadLookup OffloadInsert OffloadPins.

(** With the answers of the global registry fixed. *)
#[export] Instance host_ops (registry : list Hash -> StatusOr (list HostOffload.KVBlockMetadata)) :
  KVCacheStoreBackend HostOffload.HostOffloadBackend := {
  Lookup hs o b := let '(slices, b') := HostOffload.Lookup registry [] hs o b in (Ok slices, b');
  InsertAndLock := HostOffload.InsertAndLock;
  Release := HostOffload.Release;
  ReleaseAndDelete := HostOffload.ReleaseAndDelete;
  GetPinCount := HostOffload.GetPinCount;
  GetCapacity := HostOffload.GetCapacity
}.

Implicit Types (b : HostOffload.HostOffloadBackend) (h k : Hash) (hs : list Hash) (c : HostOffload.Cache).

Lemma not_visible_unpinned b h : LRU.wf (HostOffload.lru_cache_ b) ->
  cached (HostOffload.lru_cache_ b) h = false -> HostOffload.GetPinCount h b = 0.
Proof.
  intros Hwf Hc. unfold HostOffload.GetPinCount. pose proof (LRU.wf_pin_nonneg _ h Hwf) as Hnn.
  destruct (decide (0 < LRU.GetPinCount h (HostOffload.lru_cache_ b))) as [Hp|Hp]; [|lia]. exfalso.
  destruct (LRU.pinned_Peek _ h Hwf Hp) as [v Hv]. unfold cached in Hc. rewrite Hv in Hc.
  by rewrite bool_decide_eq_true_2 in Hc.
Qed.

Lemma sweep_hits_all local hs : sweep_hits true local hs = local <$> hs.
Proof. induction hs as [|h hs IH]; [done|]. cbn. rewrite IH. by destruct (local h). Qed.

Lemma hits_of_filter local hs : HostOffload.hits_of hs (local <$> hs) = filter (fun k => local k = true) hs.
Proof.
  induction hs as [|h hs IH]; [done|]. cbn [fmap list_fmap]. rewrite hits_of_cons, filter_cons, IH.
  destruct (local h) eqn:E; [by rewrite decide_True|by rewrite decide_False by congruence].
Qed.

Lemma host_lookup_pins registry hs o b h : LRU.wf (HostOffload.lru_cache_ b) -> enable_interleaved_lookup o = true ->
  let r := HostOffload.Lookup registry [] hs o b in
  LRU.wf (HostOffload.lru_cache_ r.2) ∧ r.1.*1 = take (length r.1) hs ∧
  HostOffload.GetPinCount h r.2 = HostOffload.GetPinCount h b +
    if pin_found o then occ h (filter (fun k => cached (HostOffload.lru_cache_ b) k = true) r.1.*1) else 0.
Proof.
  intros Hwf Hi r. unfold r. destruct (pin_found o) eqn:Hp.
  2: { destruct (Lookup_nopin registry hs o b Hwf Hp) as (Hb & _ & Hpre & _). rewrite Hb. split_and!; [done|done|lia]. }
  destruct hs as [|h0 hs0].
  { cbn. rewrite occ_nil. split_and!; [done|done|lia]. }
  unfold HostOffload.Lookup. set (hs := h0 :: hs0) in *.
  destruct (sweep_spec o hs (HostOffload.lru_cache_ b) Hwf) as (Hsw & _).
  destruct (HostOffload.LookupSweep hs o b) as [p b1] eqn:E.
  set (remote := HostOffload.query registry (HostOffload.p_client p) o (HostOffload.p_missing p)).
  destruct (Lookup_pins_spec b hs o [] remote Hwf Hp) as [Ht Hk]. rewrite E in Ht, Hk. cbn [fst snd HostOffload.run foldl] in Ht, Hk.
  destruct Hk as (Hpins & Hpre & _).
  { intros k. rewrite Ht. pose proof (LRU.wf_pin_nonneg _ k Hwf). unfold HostOffload.GetPinCount. lia. }
  assert (Hhits : HostOffload.p_local_hit p = cached (HostOffload.lru_cache_ b) <$> hs).
  { unfold HostOffload.LookupSweep in E. rewrite (surjective_pairing (HostOffload.sweep _ _ _)), Hsw in E.
    rewrite <-sweep_hits_all, <-Hi. by injection E as <- <-. }
  cbn [HostOffload.run foldl]. split_and!.
  - assert (Hwf1 : LRU.wf (HostOffload.lru_cache_ b1)) by (change b1 with (p, b1).2; rewrite <-E; by apply LookupSweep_wf).
    exact (HostOffload.backend_run_wf [HostOffload.OpAssemble p remote] b1 Hwf1).
  - done.
  - rewrite Hpins, Ht, Hpre, Hhits, <-fmap_take, !hits_of_filter. lia.
Qed.

Lemma host_delete_pins hs b h : LRU.wf (HostOffload.lru_cache_ b) ->
  HostOffload.GetPinCount h (HostOffload.ReleaseAndDelete hs b).2 = Z.max 0 (HostOffload.GetPinCount h b - occ h hs).
Proof.
  intros Hwf. unfold HostOffload.ReleaseAndDelete. change (foldl (flip HostOffload.unpin) b (reverse hs)) with (HostOffload.Release hs b).
  rewrite <-(Release_pins hs b h Hwf). pose proof (Release_wf hs b Hwf) as Hwf'. revert Hwf'. generalize (HostOffload.Release hs b) 0.
  induction hs as [|k hs IH]; intros b' n Hwf'; [done|]. cbn [foldl].
  assert (Hk : LRU.wf (HostOffload.lru_cache_ (HostOffload.release_delete (n, b') k).2) ∧
     HostOffload.GetPinCount h (HostOffload.release_delete (n, b') k).2 = HostOffload.GetPinCount h b').
  { unfold HostOffload.release_delete. destruct (LRU.Peek k _); [|done]. destruct (_ && _); [|done]. cbn [snd].
    unfold HostOffload.GetPinCount, HostOffload.erase. cbn. split; [by apply LRU.Erase_wf|by apply LRU.Erase_pins]. }
  destruct (HostOffload.release_delete (n, b') k) as [n1 b1]. destruct Hk as [Hw1 Hp1]. cbn [snd] in *.
  rewrite <-Hp1. by apply IH.
Qed.

(** What holds of every lookup, interleaved or not. *)
Lemma host_lookup_valid registry hs o b : LRU.wf (HostOffload.lru_cache_ b) ->
  let r := HostOffload.Lookup registry [] hs o b in
  LRU.wf (HostOffload.lru_cache_ r.2) ∧ r.1.*1 = take (length r.1) hs.
Proof.
  intros Hwf r. unfold r. destruct (pin_found o) eqn:Hp.
  2: { destruct (Lookup_nopin registry hs o b Hwf Hp) as (Hb & _ & Hpre & _). by rewrite Hb. }
  destruct hs as [|h0 hs0]; [done|]. unfold HostOffload.Lookup. set (hs := h0 :: hs0) in *.
  destruct (HostOffload.LookupSweep hs o b) as [p b1] eqn:E.
  set (remote := HostOffload.query registry (HostOffload.p_client p) o (HostOffload.p_missing p)).
  destruct (Lookup_pins_spec b hs o [] remote Hwf Hp) as [Ht Hk]. rewrite E in Ht, Hk. cbn [fst snd HostOffload.run foldl] in Ht, Hk.
  destruct Hk as (_ & Hpre & _).
  { intros k. rewrite Ht. pose proof (LRU.wf_pin_nonneg _ k Hwf). unfold HostOffload.GetPinCount. lia. }
  split; [|exact Hpre].
  assert (Hwf1 : LRU.wf (HostOffload.lru_cache_ b1)) by (change b1 with (p, b1).2; rewrite <-E; by apply LookupSweep_wf).
  exact (HostOffload.backend_run_wf [HostOffload.OpAssemble p remote] b1 Hwf1).
Qed.

Lemma Unpin_capacity h c : LRU.capacity_ (LRU.Unpin h c).2 = LRU.capacity_ c.
Proof. unfold LRU.Unpin. repeat case_match; done. Qed.

Lemma unpin_all_capacity hs c : LRU.capacity_ (HostOffload.unpin_all hs c) = LRU.capacity_ c.
Proof. revert c. induction hs as [|h hs IH]; intros c; [done|]. unfold HostOffload.unpin_all in *. cbn [foldl]. rewrite IH. apply Unpin_capacity. Qed.

Lemma sweep_capacity o hs c : LRU.capacity_ (HostOffload.sweep o hs c).2 = LRU.capacity_ c.
Proof.
  revert c. induction hs as [|h hs IH]; intros c; [done|]. cbn [HostOffload.sweep]. destruct (LRU.Peek h c).
  - set (c1 := if pin_found o then _ else _). specialize (IH c1).
    destruct (HostOffload.sweep o hs c1) as [[? ?] ?]. cbn in *. rewrite IH. unfold c1.
    destruct (pin_found o); [apply Pin_capacity|done].
  - destruct (negb _); [done|]. specialize (IH c). by destruct (HostOffload.sweep o hs c) as [[? ?] ?].
Qed.

Lemma host_lookup_capacity registry hs o b :
  HostOffload.GetCapacity (HostOffload.Lookup registry [] hs o b).2 = HostOffload.GetCapacity b.
Proof.
  destruct hs as [|h0 hs0]; [done|]. unfold HostOffload.Lookup, HostOffload.LookupSweep.
  pose proof (sweep_capacity o (h0 :: hs0) (HostOffload.lru_cache_ b)) as Hc.
  destruct (HostOffload.sweep o (h0 :: hs0) _) as [[hits missing] c]. cbn [HostOffload.run foldl].
  unfold HostOffload.LookupAssemble, HostOffload.GetCapacity, LRU.capacity.
  cbn [HostOffload.p_options snd]. destruct (pin_found o); cbn [HostOffload.with_lru HostOffload.lru_cache_]; [|done].
  by rewrite unpin_all_capacity.
Qed.

#[export] Instance host_laws registry : @BackendLaws _ (host_ops registry).
Proof.
  refine (@Build_BackendLaws _ (host_ops registry) (fun b => LRU.wf (HostOffload.lru_cache_ b))
            (fun b h => cached (HostOffload.lru_cache_ b) h) _ _ _ _ _ _ _ _ _ _ _ _);
    cbn [Lookup InsertAndLock Release ReleaseAndDelete GetPinCount GetCapacity host_ops].
  - apply not_visible_unpinned.
  - intros b h. apply LRU.wf_pin_nonneg.
  - intros hs o b Hwf. destruct (host_lookup_valid registry hs o b Hwf) as [Hv _].
    by destruct (HostOffload.Lookup registry [] hs o b).
  - intros hs o b slices Hwf. destruct (host_lookup_valid registry hs o b Hwf) as [_ Hp].
    destruct (HostOffload.Lookup registry [] hs o b). by intros [= <-].
  - intros hs o b h Hwf Hi. destruct (host_lookup_pins registry hs o b h Hwf Hi) as (_ & _ & Hp).
    by destruct (HostOffload.Lookup registry [] hs o b).
  - intros hs o b. pose proof (host_lookup_capacity registry hs o b) as Hc.
    by destruct (HostOffload.Lookup registry [] hs o b).
  - apply Release_wf.
  - apply Release_pins.
  - intros hs slices b. apply HostOffload.steps_wf, HostOffload.steps_InsertAndLock.
  - intros hs slices b h Hwf. by destruct (InsertAndLock_spec hs slices b Hwf) as (_ & Hp & _).
  - intros hs b. exact (HostOffload.backend_run_wf [HostOffload.OpReleaseAndDelete hs] b).
  - intros hs b h. apply host_delete_pins.
Defined.

(** ** Evaluations *)

Definition no_registry : list Hash -> StatusOr (list HostOffload.KVBlockMetadata) := fun _ => Ok [].
#[local] Instance demo_ops : KVCacheStoreBackend HostOffload.HostOffloadBackend := host_ops no_registry.
#[local] Instance demo_laws : @BackendLaws _ demo_ops := host_laws no_registry.

Definition pinned_pair : HostOffload.HostOffloadBackend :=
  HostOffload.run [HostOffload.OpInsertAndLock [[8]; [9]] (map (fun i => host_block (node 1) i HOST) [0; 1])]
    (HostOffload.create 2 None (node 1) true EmptyString).

Lemma pinned_pair_wf : LRU.wf (HostOffload.lru_cache_ pinned_pair).
Proof. apply HostOffload.backend_run_wf, LRU.create_wf. Qed.

(** The second pin of the block is taken by the lookup, which finds two of three hashes. *)
Lemma store_lookup_pins_witness :
  let r := Tiers.Lookup (mkOptions true true true) [[8]; [9]; [7]] [Some pinned_pair] in
  exists b', r.2 = [Some b'] ∧ HostOffload.GetPinCount [8] b' = 2.
Proof.
  intros r. destruct (Tiers.store_lookup_pins (HL := demo_laws) (mkOptions true true true) [[8]; [9]; [7]] pinned_pair [8] pinned_pair_wf eq_refl)
    as (b' & Hr & _ & Hp).
  exists b'. split; [exact Hr|]. etransitivity; [exact Hp|]. vm_compute. reflexivity.
Defined.

(** The second tier is full of pinned blocks and refuses: the pins the first tier had taken
    are gone again. *)
Lemma store_insert_tiers_witness :
  let r := Tiers.Insert [[1]; [4]] (map (fun i => host_block (node 1) i HOST) [10; 13]) [Some demo; None; Some pinned_pair] in
  ok r.1 = false ∧ exists b1 b2, r.2 = [Some b1; None; Some b2] ∧
    HostOffload.GetPinCount [1] b1 = 0 ∧ HostOffload.GetPinCount [8] b2 = 1.
Proof.
  intros r. assert (Hv : Forall (Tiers.tier_valid (HL := demo_laws)) [Some demo; None; Some pinned_pair])
    by (apply Forall_cons_2; [exact offload_demo_wf|]; apply Forall_cons_2; [exact I|]; apply Forall_cons_2; [exact pinned_pair_wf|apply Forall_nil_2]).
  pose proof (Tiers.store_insert_tiers (HL := demo_laws) [[1]; [4]] (map (fun i => host_block (node 1) i HOST) [10; 13]) _ Hv) as H.
  cbv zeta in H. fold r in H. assert (Hok : ok r.1 = false) by (vm_compute; reflexivity). rewrite Hok in H.
  split; [exact Hok|]. clearbody r. destruct r as [st bs]. cbn [fst snd] in *.
  inversion H as [|? t1 ? ? H1 Ha]; subst. inversion Ha as [|? t2 ? ? H2 Hb]; subst.
  inversion Hb as [|? t3 ? ? H3 Hc]; subst. inversion Hc; subst.
  destruct t1 as [b1|]; [|done]. destruct t2 as [|]; [done|]. destruct t3 as [b2|]; [|done]. exists b1, b2.
  destruct H1 as [_ H1], H3 as [_ H3]. split_and!; [done| |].
  - etransitivity; [apply H1|vm_compute; reflexivity].
  - etransitivity; [apply H3|vm_compute; reflexivity].
Defined.

(** Two tiers could answer in turn; the answer is cut at the capacity of tier 0. *)
Lemma store_lookup_prefix_witness : exists results,
  (Tiers.Lookup (mkOptions true true false) [[8]; [9]; [1]; [2]] [Some pinned_pair; Some demo]).1 = Ok results ∧
  results.*1 = [[8]; [9]].
Proof.
  assert (Hv : Forall (Tiers.tier_valid (HL := demo_laws)) [Some pinned_pair; Some demo])
    by (apply Forall_cons_2; [exact pinned_pair_wf|]; apply Forall_cons_2; [exact offload_demo_wf|apply Forall_nil_2]).
  pose (results := [([8], host_block (node 1) 0 HOST); ([9], host_block (node 1) 1 HOST)] : BlockSliceList).
  assert (Hr : (Tiers.Lookup (mkOptions true true false) [[8]; [9]; [1]; [2]] [Some pinned_pair; Some demo]).1 = Ok results)
    by (vm_compute; reflexivity).
  exists results. split; [exact Hr|].
  exact (proj1 (Tiers.store_lookup_prefix (HL := demo_laws) (mkOptions true true false) [[8]; [9]; [1]; [2]] _ results Hv Hr)).
Defined.

(** With two tiers a lookup pins the block in the tier that answered while [Release] unpins it
    in every tier: the pin another holder took with [Insert] in the second tier is gone
    after this caller's balanced pair of calls. *)
Lemma balanced_release_drops_other_pin :
  let tier := HostOffload.create 2 None (node 1) true EmptyString in
  let bs := (Tiers.Insert [[1]] [host_block (node 1) 5 HOST] [Some tier; Some tier]).2 in
  let bs' := Tiers.Release (Tiers.Lookup (mkOptions true true true) [[1]] bs).2 [[1]] in
  Tiers.tier_pins [1] <$> bs = [1; 1] ∧ Tiers.tier_pins [1] <$> bs' = [1; 0].
Proof. split; vm_compute; reflexivity. Qed.

End HostTier.
