(* ===== verification/KVCacheStore.v ===== *)
(** * The KV cache store: saves, loads, remote reads and remote writes
    ([src/tpu_sync/kv_cache/kv_cache_store.cc], [kv_cache_store.h])

    [Module Store] has the state of a [KVCacheStore] (its backends, the block pool of its
    controller, the operations in flight, the mailboxes of finished ones) and one function
    per critical section of its methods, composed into the whole methods as the code does.
    The RPCs and the registry are arguments.  A future is its index in [issued], the list of
    what was started; whether it is ready and with which status is an argument of the
    pollers.  Times and durations are nanoseconds. *)

From S2P Require Import Prelude ReshardTypes StoreBackend KVCacheMetadata LruCache LogicalBlockManager HostOffloadBackend KVCacheStoreService.

Module Store.

Abbreviation Backend := HostOffload.HostOffloadBackend.
Abbreviation Manager := LBM.LogicalBlockManager.

(** ** Operations in flight *)

Record SaveState : Type := mkSave {
  sv_future : nat;
  sv_block_hashes : list Hash;
  sv_host_block_ids : list Z
}.

Record LoadState : Type := mkLoad {
  ld_future : nat;
  ld_block_hashes : list Hash;
  ld_device_block_ids : list Z;
  ld_from_remote : bool
}.

Record RemoteReadState : Type := mkRead {
  rr_block_hashes : list Hash;
  rr_src_raiden_ids : list RaidenId;
  rr_host_block_ids : list Z
}.

Inductive SaveOwner : Type := kApplication | kSweep.

#[global] Instance SaveOwner_eq_dec : EqDecision SaveOwner.
Proof. solve_decision. Defined.

Record RemoteWriteState : Type := mkWrite {
  rw_dst_raiden_id : RaidenId;
  rw_operation_id : Z;
  rw_block_hashes : list Hash;
  rw_hold_expiry : Z;
  rw_owner : SaveOwner
}.

Record RemoteWriteVerdicts : Type := mkVerdicts {
  vd_done : list Hash;
  vd_failed : list Hash;
  vd_existing : list Hash;
  vd_unregistered : list Hash
}.

Definition no_verdicts : RemoteWriteVerdicts := mkVerdicts [] [] [] [].

(** The per-peer part of a remote read. *)
Record RemoteReadGroup : Type := mkGroup {
  src_raiden_id : RaidenId;
  src_controller_address : string;
  src_host_block_ids : list Z;
  dst_host_block_ids : list Z;
  gr_block_hashes : list Hash;
  gr_device_block_ids : list Z
}.

(** What the controller or the backend was asked to do. *)
Inductive Issued : Type :=
  | IssuedTransfer (f : HostOffload.Future)
  | IssuedRead (groups : list RemoteReadGroup).

(** ** State *)

Record Inflight : Type := mkInflight {
  active_saves_ : list SaveState;
  active_loads_ : list LoadState;
  active_remote_reads_ : list (nat * RemoteReadState);
  active_remote_writes_ : list RemoteWriteState;
  polling_remote_writes_ : gset Z;
  saving_hashes_ : gset Hash;
  loading_hashes_ : gset Hash;
  reading_hashes_ : gset Hash
}.

Record Results : Type := mkResults {
  done_saves_ : list Hash;
  failed_saves_ : list Hash;
  done_loads_ : list Hash;
  failed_loads_ : list Hash;
  done_remote_reads_ : list Hash;
  failed_remote_reads_ : list Hash;
  application_remote_writes_ : RemoteWriteVerdicts;
  sweep_remote_writes_ : RemoteWriteVerdicts
}.

(** [backends_] is [Some tier0 :: tiers]: a store is not built without a tier-0 backend, nor
    without a controller.  [write_through] are the registrations queued on the thread pool,
    with the hashes whose pin the task drops. *)
Record KVCacheStore : Type := mkStore {
  tier0 : Backend;
  tiers : list (option Backend);
  manager : Manager;
  registry_client_ : bool;
  raiden_id_ : RaidenId;
  inflight : Inflight;
  results : Results;
  resolved_peer_controllers_ : gmap RaidenId string;
  write_through : list (list HostOffload.Registration * list Hash);
  issued : list Issued;
  sweep_active_ : bool;
  placement_targets_ : list RaidenId
}.

Implicit Types (s : KVCacheStore) (a : Inflight) (r : Results).

Definition set_active_saves x a : Inflight :=
  mkInflight x (active_loads_ a) (active_remote_reads_ a) (active_remote_writes_ a) (polling_remote_writes_ a)
    (saving_hashes_ a) (loading_hashes_ a) (reading_hashes_ a).
Definition set_active_loads x a : Inflight :=
  mkInflight (active_saves_ a) x (active_remote_reads_ a) (active_remote_writes_ a) (polling_remote_writes_ a)
    (saving_hashes_ a) (loading_hashes_ a) (reading_hashes_ a).
Definition set_active_remote_reads x a : Inflight :=
  mkInflight (active_saves_ a) (active_loads_ a) x (active_remote_writes_ a) (polling_remote_writes_ a)
    (saving_hashes_ a) (loading_hashes_ a) (reading_hashes_ a).
Definition set_active_remote_writes x a : Inflight :=
  mkInflight (active_saves_ a) (active_loads_ a) (active_remote_reads_ a) x (polling_remote_writes_ a)
    (saving_hashes_ a) (loading_hashes_ a) (reading_hashes_ a).
Definition set_polling_remote_writes x a : Inflight :=
  mkInflight (active_saves_ a) (active_loads_ a) (active_remote_reads_ a) (active_remote_writes_ a) x
    (saving_hashes_ a) (loading_hashes_ a) (reading_hashes_ a).
Definition set_saving_hashes x a : Inflight :=
  mkInflight (active_saves_ a) (active_loads_ a) (active_remote_reads_ a) (active_remote_writes_ a)
    (polling_remote_writes_ a) x (loading_hashes_ a) (reading_hashes_ a).
Definition set_loading_hashes x a : Inflight :=
  mkInflight (active_saves_ a) (active_loads_ a) (active_remote_reads_ a) (active_remote_writes_ a)
    (polling_remote_writes_ a) (saving_hashes_ a) x (reading_hashes_ a).
Definition set_reading_hashes x a : Inflight :=
  mkInflight (active_saves_ a) (active_loads_ a) (active_remote_reads_ a) (active_remote_writes_ a)
    (polling_remote_writes_ a) (saving_hashes_ a) (loading_hashes_ a) x.
Definition set_done_saves x r : Results :=
  mkResults x (failed_saves_ r) (done_loads_ r) (failed_loads_ r) (done_remote_reads_ r) (failed_remote_reads_
    r) (application_remote_writes_ r) (sweep_remote_writes_ r).
Definition set_failed_saves x r : Results :=
  mkResults (done_saves_ r) x (done_loads_ r) (failed_loads_ r) (done_remote_reads_ r) (failed_remote_reads_ r)
    (application_remote_writes_ r) (sweep_remote_writes_ r).
Definition set_done_loads x r : Results :=
  mkResults (done_saves_ r) (failed_saves_ r) x (failed_loads_ r) (done_remote_reads_ r) (failed_remote_reads_
    r) (application_remote_writes_ r) (sweep_remote_writes_ r).
Definition set_failed_loads x r : Results :=
  mkResults (done_saves_ r) (failed_saves_ r) (done_loads_ r) x (done_remote_reads_ r) (failed_remote_reads_ r)
    (application_remote_writes_ r) (sweep_remote_writes_ r).
Definition set_done_remote_reads x r : Results :=
  mkResults (done_saves_ r) (failed_saves_ r) (done_loads_ r) (failed_loads_ r) x (failed_remote_reads_ r)
    (application_remote_writes_ r) (sweep_remote_writes_ r).
Definition set_failed_remote_reads x r : Results :=
  mkResults (done_saves_ r) (failed_saves_ r) (done_loads_ r) (failed_loads_ r) (done_remote_reads_ r) x
    (application_remote_writes_ r) (sweep_remote_writes_ r).
Definition set_application_remote_writes x r : Results :=
  mkResults (done_saves_ r) (failed_saves_ r) (done_loads_ r) (failed_loads_ r) (done_remote_reads_ r)
    (failed_remote_reads_ r) x (sweep_remote_writes_ r).
Definition set_sweep_remote_writes x r : Results :=
  mkResults (done_saves_ r) (failed_saves_ r) (done_loads_ r) (failed_loads_ r) (done_remote_reads_ r)
    (failed_remote_reads_ r) (application_remote_writes_ r) x.
Definition set_tier0 x s : KVCacheStore :=
  mkStore x (tiers s) (manager s) (registry_client_ s) (raiden_id_ s) (inflight s) (results s)
    (resolved_peer_controllers_ s) (write_through s) (issued s) (sweep_active_ s) (placement_targets_ s).
Definition set_tiers x s : KVCacheStore :=
  mkStore (tier0 s) x (manager s) (registry_client_ s) (raiden_id_ s) (inflight s) (results s)
    (resolved_peer_controllers_ s) (write_through s) (issued s) (sweep_active_ s) (placement_targets_ s).
Definition set_manager x s : KVCacheStore :=
  mkStore (tier0 s) (tiers s) x (registry_client_ s) (raiden_id_ s) (inflight s) (results s)
    (resolved_peer_controllers_ s) (write_through s) (issued s) (sweep_active_ s) (placement_targets_ s).
Definition set_registry_client x s : KVCacheStore :=
  mkStore (tier0 s) (tiers s) (manager s) x (raiden_id_ s) (inflight s) (results s) (resolved_peer_controllers_
    s) (write_through s) (issued s) (sweep_active_ s) (placement_targets_ s).
Definition set_raiden_id x s : KVCacheStore :=
  mkStore (tier0 s) (tiers s) (manager s) (registry_client_ s) x (inflight s) (results s)
    (resolved_peer_controllers_ s) (write_through s) (issued s) (sweep_active_ s) (placement_targets_ s).
Definition set_inflight x s : KVCacheStore :=
  mkStore (tier0 s) (tiers s) (manager s) (registry_client_ s) (raiden_id_ s) x (results s)
    (resolved_peer_controllers_ s) (write_through s) (issued s) (sweep_active_ s) (placement_targets_ s).
Definition set_results x s : KVCacheStore :=
  mkStore (tier0 s) (tiers s) (manager s) (registry_client_ s) (raiden_id_ s) (inflight s) x
    (resolved_peer_controllers_ s) (write_through s) (issued s) (sweep_active_ s) (placement_targets_ s).
Definition set_resolved_peer_controllers x s : KVCacheStore :=
  mkStore (tier0 s) (tiers s) (manager s) (registry_client_ s) (raiden_id_ s) (inflight s) (results s) x
    (write_through s) (issued s) (sweep_active_ s) (placement_targets_ s).
Definition set_write_through x s : KVCacheStore :=
  mkStore (tier0 s) (tiers s) (manager s) (registry_client_ s) (raiden_id_ s) (inflight s) (results s)
    (resolved_peer_controllers_ s) x (issued s) (sweep_active_ s) (placement_targets_ s).
Definition set_issued x s : KVCacheStore :=
  mkStore (tier0 s) (tiers s) (manager s) (registry_client_ s) (raiden_id_ s) (inflight s) (results s)
    (resolved_peer_controllers_ s) (write_through s) x (sweep_active_ s) (placement_targets_ s).
Definition set_sweep_active x s : KVCacheStore :=
  mkStore (tier0 s) (tiers s) (manager s) (registry_client_ s) (raiden_id_ s) (inflight s) (results s)
    (resolved_peer_controllers_ s) (write_through s) (issued s) x (placement_targets_ s).
Definition set_placement_targets x s : KVCacheStore :=
  mkStore (tier0 s) (tiers s) (manager s) (registry_client_ s) (raiden_id_ s) (inflight s) (results s)
    (resolved_peer_controllers_ s) (write_through s) (issued s) (sweep_active_ s) x.

Definition on_inflight (f : Inflight -> Inflight) s : KVCacheStore := set_inflight (f (inflight s)) s.
Definition on_results (f : Results -> Results) s : KVCacheStore := set_results (f (results s)) s.

Definition mark_saving (hashes : list Hash) s : KVCacheStore :=
  on_inflight (fun a => set_saving_hashes (list_to_set hashes ∪ saving_hashes_ a) a) s.
Definition clear_saving (hashes : list Hash) s : KVCacheStore :=
  on_inflight (fun a => set_saving_hashes (saving_hashes_ a ∖ list_to_set hashes) a) s.
Definition mark_loading (hashes : list Hash) s : KVCacheStore :=
  on_inflight (fun a => set_loading_hashes (list_to_set hashes ∪ loading_hashes_ a) a) s.
Definition clear_loading (hashes : list Hash) s : KVCacheStore :=
  on_inflight (fun a => set_loading_hashes (loading_hashes_ a ∖ list_to_set hashes) a) s.
Definition mark_reading (hashes : list Hash) s : KVCacheStore :=
  on_inflight (fun a => set_reading_hashes (list_to_set hashes ∪ reading_hashes_ a) a) s.
Definition clear_reading (hashes : list Hash) s : KVCacheStore :=
  on_inflight (fun a => set_reading_hashes (reading_hashes_ a ∖ list_to_set hashes) a) s.

(** ** Host blocks *)

Definition DeallocateBlockIds (ids : list Z) s : KVCacheStore :=
  set_manager (HostOffload.DeallocateBlockIds (manager s) ids) s.

Definition Evict (hashes : list Hash) s : nat * KVCacheStore :=
  match hashes with
  | [] => (0%nat, s)
  | _ =>
      let '(ids, _, b) := HostOffload.Evict hashes (tier0 s) in
      match ids with
      | [] => (0%nat, set_tier0 b s)
      | _ => (length ids, DeallocateBlockIds ids (set_tier0 b s))
      end
  end.

(** The first section of [AllocateBlockIds]: what has to be evicted. *)
Definition plan_eviction (needed : Z) s : StatusOr (list Hash) :=
  let free_count := LBM.num_free_blocks (manager s) in
  let to_free := needed - free_count in
  if 0 <? to_free then
    let keys := HostOffload.GetEvictableKeys (Z.to_nat to_free) (tier0 s) in
    if Z.of_nat (length keys) <? to_free then
      Err kResourceExhausted
        StrCat["Insufficient free blocks and not enough evictable blocks. Needed: "; needed; ", Free: ";
               free_count; ", Evictable: "; Z.of_nat (length keys)]
    else Ok keys
  else Ok [].

Definition AllocateBlockIds (needed : Z) s : StatusOr (list Z) * KVCacheStore :=
  match plan_eviction needed s with
  | Err code msg => (Err code msg, s)
  | Ok keys =>
      let s := (Evict keys s).2 in
      let '(ids_or, m) := HostOffload.AllocateBlockIds (manager s) needed in
      (ids_or, set_manager m s)
  end.

(** Starting an asynchronous operation. *)
Definition issue (i : Issued) s : nat * KVCacheStore := (length (issued s), set_issued (issued s ++ [i]) s).

Definition hash_text (h : Hash) : string := KVMeta.string_of_bytes h.

Section store.
(** [client->Lookup] of the global registry. *)
Variable registry : list Hash -> StatusOr (list HostOffload.KVBlockMetadata).
(** [ResolveStore]: the address of a peer's store server and of its controller. *)
Variable resolve : RaidenId -> StatusOr string.
Variable resolve_controller : RaidenId -> StatusOr string.

(** [backend()->Lookup(block_hashes)]; the tier-0 lookup returns no error status. *)
Definition lookup0 (opts : LookupOptions) (hashes : list Hash) s : BlockSliceList :=
  (HostOffload.Lookup registry [] hashes opts (tier0 s)).1.

Definition not_found (hashes : list Hash) (n : nat) : list Frag :=
  StrCat["Block hash not found: "; hash_text (nth n hashes [])].

(** ** Local saves *)

Definition check_save s (acc : list Z) (e : Hash * RaidenBlockId) : StatusOr (list Z) :=
  let '(hash, existing) := e in
  if negb (bool_decide (status existing = HBM)) then
    Err kFailedPrecondition StrCat["Block is not in HBM status: "; hash_text hash]
  else if device_block_id existing =? -1 then
    Err kFailedPrecondition StrCat["Block device_block_id is -1: "; hash_text hash]
  else if HostOffload.GetPinCount hash (tier0 s) <=? 0 then
    Err kFailedPrecondition StrCat["Block is not pinned: "; hash_text hash]
  else if bool_decide (hash ∈ saving_hashes_ (inflight s)) then
    Err kFailedPrecondition StrCat["Block is already saving: "; hash_text hash]
  else Ok (acc ++ [device_block_id existing]).

(** The first section: the checks, and the marks on success. *)
Definition save_begin (hashes : list Hash) s : StatusOr (list Z) * KVCacheStore :=
  let slices := lookup0 default_options hashes s in
  if (length slices <? length hashes)%nat then (Err kNotFound (not_found hashes (length slices)), s)
  else
    match for_each (check_save s) (zip hashes slices.*2) [] with
    | Err code msg => (Err code msg, s)
    | Ok src_device_block_ids => (Ok src_device_block_ids, mark_saving hashes s)
    end.

(** The transfer and the last section. *)
Definition save_issue (hashes : list Hash) (src_device_block_ids host_block_ids : list Z) s : KVCacheStore :=
  let '(future, s) :=
    issue (IssuedTransfer (HostOffload.TransferBuffers (HostOffload.hbm_buffers src_device_block_ids)
                             (HostOffload.dram_buffers host_block_ids))) s in
  on_inflight (fun a => set_active_saves (active_saves_ a ++ [mkSave future hashes host_block_ids]) a) s.

Definition SaveLocal (hashes : list Hash) s : Status * KVCacheStore :=
  match save_begin hashes s with
  | (Err code msg, s) => (Err code msg, s)
  | (Ok src_device_block_ids, s) =>
      match AllocateBlockIds (Z.of_nat (length hashes)) s with
      | (Err code msg, s) => (Err code msg, clear_saving hashes s)
      | (Ok host_block_ids, s) => (OkStatus, save_issue hashes src_device_block_ids host_block_ids s)
      end
  end.

(** ** Loads *)

Definition check_load s (acc : unit) (e : Hash * RaidenBlockId) : StatusOr unit :=
  let '(hash, existing) := e in
  if bool_decide (status existing = REMOTE) then
    Err kInvalidArgument
      StrCat["Load without slices is local-only, but block is REMOTE: "; hash_text hash;
             ". Use Load(block_hashes, slices, device_block_ids) to load from a peer."]
  else if HostOffload.GetPinCount hash (tier0 s) <=? 0 then
    Err kFailedPrecondition StrCat["Block is not pinned: "; hash_text hash]
  else if bool_decide (hash ∈ loading_hashes_ (inflight s)) then
    Err kFailedPrecondition StrCat["Block is already loading: "; hash_text hash]
  else if negb (on_host existing) then
    Err kFailedPrecondition StrCat["Block is not on host: "; hash_text hash]
  else if host_block_id existing =? -1 then
    Err kFailedPrecondition StrCat["Block host_block_id is -1: "; hash_text hash]
  else Ok tt.

Definition check_load_slice s (remote : option RaidenId) (acc : unit) (e : Hash * RaidenBlockId) : StatusOr unit :=
  let '(hash, existing) := e in
  if bool_decide (hash ∈ loading_hashes_ (inflight s)) then
    Err kFailedPrecondition StrCat["Block is already loading: "; hash_text hash]
  else
    match remote with
    | Some remote_id =>
        if negb (bool_decide (status existing = REMOTE)) then
          Err kInvalidArgument StrCat["Mixed block statuses in a single Load call"]
        else if negb (RaidenId_eqb (raiden_id existing) remote_id) then
          Err kInvalidArgument StrCat["Mixed remote node IDs in a single Load call"]
        else Ok tt
    | None =>
        if HostOffload.GetPinCount hash (tier0 s) <=? 0 then
          Err kFailedPrecondition StrCat["Block is not pinned: "; hash_text hash]
        else if negb (on_host existing) then
          Err kFailedPrecondition StrCat["Block is not on host: "; hash_text hash]
        else if host_block_id existing =? -1 then
          Err kFailedPrecondition StrCat["Block host_block_id is -1: "; hash_text hash]
        else Ok tt
    end.

(** [backend()->Load] and the last section. *)
Definition load_issue (remote_id : RaidenId) (hashes : list Hash) (device_block_ids : list Z)
    (slices : list RaidenBlockId) (from_remote : bool) s : KVCacheStore :=
  let '(f, b, m) := HostOffload.Load resolve remote_id hashes device_block_ids slices (tier0 s) (manager s) in
  let '(future, s) := issue (IssuedTransfer f) (set_manager m (set_tier0 b s)) in
  on_inflight (fun a => set_active_loads
    (active_loads_ a ++ [mkLoad future hashes device_block_ids from_remote]) a) s.

Definition load_begin (hashes : list Hash) s : StatusOr unit :=
  let slices := lookup0 default_options hashes s in
  if (length slices <? length hashes)%nat then Err kNotFound (not_found hashes (length slices))
  else for_each (check_load s) (zip hashes slices.*2) tt.

Definition Load (hashes : list Hash) (device_block_ids : list Z) s : Status * KVCacheStore :=
  if negb (length hashes =? length device_block_ids)%nat then
    (Err kInvalidArgument StrCat["block_hashes and device_block_ids size mismatch"], s)
  else if (length hashes =? 0)%nat then (OkStatus, s)
  else
    match load_begin hashes s with
    | Err code msg => (Err code msg, s)
    | Ok _ => (OkStatus, load_issue empty_id hashes device_block_ids [] false (mark_loading hashes s))
    end.

Definition remote_source (slices : list RaidenBlockId) : option RaidenId :=
  match slices with
  | first :: _ => if bool_decide (status first = REMOTE) then Some (raiden_id first) else None
  | [] => None
  end.

Definition LoadSlices (hashes : list Hash) (slices : list RaidenBlockId) (device_block_ids : list Z) s :
    Status * KVCacheStore :=
  if negb (length hashes =? length slices)%nat || negb (length slices =? length device_block_ids)%nat then
    (Err kInvalidArgument StrCat["block_hashes, slices, and device_block_ids size mismatch"], s)
  else if (length hashes =? 0)%nat then (OkStatus, s)
  else
    let remote := remote_source slices in
    match for_each (check_load_slice s remote) (zip hashes slices) tt with
    | Err code msg => (Err code msg, s)
    | Ok _ =>
        (OkStatus, load_issue (default empty_id remote) hashes device_block_ids slices
                     (bool_decide (is_Some remote)) (mark_loading hashes s))
    end.

(** ** Hooks of a peer's read lease *)

Definition status_value (st : BlockStatus) : Z :=
  match st with INIT => 0 | REMOTE => 1 | HBM => 2 | HOST => 3 | HOST_AND_HBM => 4 end.

Definition check_host (acc : list Z) (e : Hash * RaidenBlockId) : StatusOr (list Z) :=
  if on_host e.2 then Ok (acc ++ [host_block_id e.2])
  else Err kFailedPrecondition
         StrCat["Block not resident in host DRAM (status="; status_value (status e.2); "): "; hash_text e.1].

Definition ValidateAndPinHostBlocks (hashes : list Hash) s : StatusOr (list Z) * KVCacheStore :=
  let slices := lookup0 default_options hashes s in
  if (length slices <? length hashes)%nat then
    (Err kNotFound StrCat["BLOCK_HASH_NOT_FOUND: "; hash_text (nth (length slices) hashes [])], s)
  else
    match for_each check_host (zip hashes slices.*2) [] with
    | Err code msg => (Err code msg, s)
    | Ok src_host_block_ids =>
        let '(pinned, b) := HostOffload.Pin hashes (tier0 s) in
        (if pinned then Ok src_host_block_ids else Err kInternal StrCat["Failed to pin host blocks"],
         set_tier0 b s)
    end.

Definition UnpinHostBlocks (hashes : list Hash) s : KVCacheStore :=
  set_tier0 (HostOffload.Release hashes (tier0 s)) s.
End store.

(** ** Remote reads *)

(** One iteration of the grouping loop: the mark, and the block's entry in the group of its
    owner. *)
Definition add_to_group (hash : Hash) (slice : RaidenBlockId) (dst_id device_id : Z)
    (groups : list RemoteReadGroup) : list RemoteReadGroup :=
  let extend g :=
    mkGroup (src_raiden_id g) (src_controller_address g) (src_host_block_ids g ++ [host_block_id slice])
      (dst_host_block_ids g ++ [dst_id]) (gr_block_hashes g ++ [hash]) (gr_device_block_ids g ++ [device_id]) in
  match list_find (fun g => RaidenId_eqb (src_raiden_id g) (raiden_id slice) = true) groups with
  | Some (j, _) => alter extend j groups
  | None => groups ++ [extend (mkGroup (raiden_id slice) EmptyString [] [] [] [])]
  end.

(** The marking section; the marks set so far are returned with an error. *)
Fixpoint mark_and_group (marked : list Hash) (groups : list RemoteReadGroup)
    (items : list (Hash * RaidenBlockId * Z * Z)) s :
    StatusOr (list RemoteReadGroup) * list Hash * KVCacheStore :=
  match items with
  | [] => (Ok groups, marked, s)
  | (hash, slice, dst_id, device_id) :: rest =>
      if bool_decide (hash ∈ reading_hashes_ (inflight s)) then
        (Err kFailedPrecondition StrCat["Block is already reading remote: "; hash_text hash], marked, s)
      else
        mark_and_group (marked ++ [hash])
          (add_to_group hash slice dst_id device_id groups) rest (mark_reading [hash] s)
  end.

Definition with_address (addr : string) (g : RemoteReadGroup) : RemoteReadGroup :=
  mkGroup (src_raiden_id g) addr (src_host_block_ids g) (dst_host_block_ids g) (gr_block_hashes g)
    (gr_device_block_ids g).

(** Resolving one peer, through the cache of addresses. *)
Definition resolve_group (resolve_controller : RaidenId -> StatusOr string) (g : RemoteReadGroup) s :
    StatusOr RemoteReadGroup * KVCacheStore :=
  let cached := default EmptyString (resolved_peer_controllers_ s !! src_raiden_id g) in
  if negb (bool_decide (cached = EmptyString)) then (Ok (with_address cached g), s)
  else
    match resolve_controller (src_raiden_id g) with
    | Err code msg => (Err code msg, s)
    | Ok addr =>
        if bool_decide (addr = EmptyString) then
          (Err kFailedPrecondition
             StrCat["Peer is registered but published no controller address, so it cannot serve a remote read."], s)
        else (Ok (with_address addr g),
              set_resolved_peer_controllers (<[src_raiden_id g := addr]> (resolved_peer_controllers_ s)) s)
    end.

Fixpoint resolve_groups (resolve_controller : RaidenId -> StatusOr string)
    (done_ groups : list RemoteReadGroup) s : StatusOr (list RemoteReadGroup) * KVCacheStore :=
  match groups with
  | [] => (Ok done_, s)
  | g :: rest =>
      match resolve_group resolve_controller g s with
      | (Err code msg, s) => (Err code msg, s)
      | (Ok g, s) => resolve_groups resolve_controller (done_ ++ [g]) rest s
      end
  end.

(** The cleanup: the landing blocks, then the marks. *)
Definition read_cleanup (marked : list Hash) (host_block_ids : list Z) s : KVCacheStore :=
  clear_reading marked (DeallocateBlockIds host_block_ids s).

(** [raiden_controller_] says whether the store has a controller. *)
Definition ReadRemote (raiden_controller_ : bool) (resolve_controller : RaidenId -> StatusOr string) (hashes : list Hash)
    (slices : list RaidenBlockId) (device_block_ids : list Z) s : Status * KVCacheStore :=
  if (length hashes =? 0)%nat then (OkStatus, s)
  else if negb (length slices =? length hashes)%nat then
    (Err kInvalidArgument StrCat["slices size "; Z.of_nat (length slices); " must match block_hashes size ";
                                 Z.of_nat (length hashes)], s)
  else if negb (length device_block_ids =? length hashes)%nat then
    (Err kInvalidArgument StrCat["device_block_ids size "; Z.of_nat (length device_block_ids);
       " must match block_hashes size "; Z.of_nat (length hashes); ": read_remote always reads into local HBM"], s)
  else
    match AllocateBlockIds (Z.of_nat (length hashes)) s with
    | (Err code msg, s) => (Err code msg, s)
    | (Ok ids, s) =>
        match mark_and_group [] [] (zip (zip (zip hashes slices) ids) device_block_ids) s with
        | (Err code msg, marked, s) => (Err code msg, read_cleanup marked ids s)
        | (Ok groups, marked, s) =>
            if negb raiden_controller_ then
              (Err kFailedPrecondition StrCat["RaidenController is not initialized for ReadRemote"], read_cleanup marked ids s)
            else if negb (registry_client_ s) then
              (Err kFailedPrecondition StrCat["ReadRemote needs a global registry"], read_cleanup marked ids s)
            else
              match resolve_groups resolve_controller [] groups s with
              | (Err code msg, s) => (Err code msg, read_cleanup marked ids s)
              | (Ok groups, s) =>
                  let '(future, s) := issue (IssuedRead groups) s in
                  (OkStatus,
                   on_inflight (fun a => set_active_remote_reads
                     (active_remote_reads_ a ++ [(future, mkRead hashes (src_raiden_id <$> groups) ids)]) a) s)
              end
        end
    end.

(** ** Remote writes, the source's side *)

Definition kDefaultRemoteWriteHold : Z := Service.Seconds 30.
Definition kRemoteWriteMargin : Z := Service.Seconds 5.

(** [env] is the environment variable, [atoi] is [absl::SimpleAtoi] into an [int]. *)
Definition RemoteWriteHold (atoi : string -> option Z) (env : option string) : Z :=
  match env with
  | None => kDefaultRemoteWriteHold
  | Some text =>
      match atoi text with
      | Some seconds => if seconds <=? 0 then kDefaultRemoteWriteHold else Service.Seconds seconds
      | None => kDefaultRemoteWriteHold
      end
  end.

Definition add_verdicts (succeeded : bool) (hashes existing unregistered : list Hash) (v : RemoteWriteVerdicts) :
    RemoteWriteVerdicts :=
  mkVerdicts (vd_done v ++ if succeeded then hashes else []) (vd_failed v ++ if succeeded then [] else hashes)
    (vd_existing v ++ existing) (vd_unregistered v ++ unregistered).

(** The last section of [FinishRemoteWrite]. *)
Definition settle_write (st : RemoteWriteState) (succeeded : bool) (existing unregistered : list Hash) s :
    KVCacheStore :=
  let s := on_inflight (fun a => set_active_remote_writes
             (filter (fun w => rw_operation_id w ≠ rw_operation_id st) (active_remote_writes_ a)) a) s in
  let deliver := add_verdicts succeeded (rw_block_hashes st) existing unregistered in
  clear_saving (rw_block_hashes st)
    (on_results (fun r =>
       match rw_owner st with
       | kSweep => set_sweep_remote_writes (deliver (sweep_remote_writes_ r)) r
       | kApplication => set_application_remote_writes (deliver (application_remote_writes_ r)) r
       end) s).

Definition FinishRemoteWrite (st : RemoteWriteState) (succeeded : bool) (existing unregistered : list Hash) s :
    KVCacheStore :=
  let b := HostOffload.Release (rw_block_hashes st) (tier0 s) in
  let b := if succeeded then HostOffload.Release (rw_block_hashes st) b else b in
  settle_write st succeeded existing unregistered (set_tier0 b s).

(** The checks and the marks, in one section; the marks set so far come back with an error. *)
Fixpoint offer_blocks (marked : list Hash) (ids : list Z) (slices : BlockSliceList) s :
    StatusOr (list Z) * list Hash * KVCacheStore :=
  match slices with
  | [] => (Ok ids, marked, s)
  | (hash, slice) :: rest =>
      if negb (on_host slice) then
        (Err kFailedPrecondition
           StrCat["Block is not resident in host DRAM, so there is nothing to offer: "; BytesToHexString hash], marked, s)
      else if HostOffload.GetPinCount hash (tier0 s) <=? 0 then
        (Err kFailedPrecondition StrCat["Block is not pinned: "; BytesToHexString hash], marked, s)
      else if bool_decide (hash ∈ saving_hashes_ (inflight s)) then
        (Err kFailedPrecondition StrCat["Block is already saving: "; BytesToHexString hash], marked, s)
      else offer_blocks (marked ++ [hash]) (ids ++ [host_block_id slice]) rest (mark_saving [hash] s)
  end.

(** The rollback: the internal pins, then the marks. *)
Definition offer_rollback (pinned marked : list Hash) s : KVCacheStore :=
  clear_saving marked
    (match pinned with [] => s | _ => set_tier0 (HostOffload.Release pinned (tier0 s)) s end).

(** [pin_time] is when the hold is armed, [ack_time] when the answer is recorded. *)
Definition SaveRemote (registry : list Hash -> StatusOr (list HostOffload.KVBlockMetadata))
    (resolve : RaidenId -> StatusOr string)
    (write_remote : HostOffload.WriteRemoteRequest -> StatusOr HostOffload.WriteRemoteResponse)
    (hold pin_time ack_time : Z) (hashes : list Hash) (dst : RaidenId) (owner : SaveOwner) s :
    Status * KVCacheStore :=
  if (length hashes =? 0)%nat then (OkStatus, s)
  else if RaidenId_empty dst then
    (Err kInvalidArgument StrCat["A remote save requires a destination id"], s)
  else if RaidenId_eqb dst (raiden_id_ s) then
    (Err kInvalidArgument StrCat["The save destination is this store; there is nothing to transfer"], s)
  else
    let slices := lookup0 registry default_options hashes s in
    if (length slices <? length hashes)%nat then (Err kNotFound (not_found hashes (length slices)), s)
    else
      match offer_blocks [] [] slices s with
      | (Err code msg, marked, s) => (Err code msg, offer_rollback [] marked s)
      | (Ok ids, marked, s) =>
          let '(pinned, b) := HostOffload.Pin hashes (tier0 s) in
          let s := set_tier0 b s in
          if negb pinned then
            (Err kResourceExhausted StrCat["Failed to pin host blocks for a remote write"], offer_rollback [] marked s)
          else if hold <=? kRemoteWriteMargin then
            (Err kFailedPrecondition StrCat["RAIDEN_REMOTE_WRITE_HOLD_S must exceed the margin"],
             offer_rollback hashes marked s)
          else
            let hold_expiry := pin_time + hold in
            let '(ack_or, b) :=
              HostOffload.BeginWriteRemote resolve write_remote dst hashes ids
                (Service.ToInt64Milliseconds (hold - kRemoteWriteMargin)) (tier0 s) in
            let s := set_tier0 b s in
            match ack_or with
            | Err code msg => (Err code msg, offer_rollback hashes marked s)
            | Ok ack =>
                if HostOffload.all_exist ack then
                  (OkStatus, FinishRemoteWrite (mkWrite dst 0 hashes hold_expiry owner) true [] [] s)
                else if negb (length (HostOffload.existing_hashes ack) =? 0)%nat then
                  (OkStatus, FinishRemoteWrite (mkWrite dst 0 hashes hold_expiry owner) false
                               (HostOffload.existing_hashes ack) [] s)
                else
                  (OkStatus,
                   on_inflight (fun a => set_active_remote_writes
                     (active_remote_writes_ a ++
                        [mkWrite dst (HostOffload.operation_id ack) hashes
                           (Z.max hold_expiry
                              (ack_time + Service.Milliseconds (HostOffload.granted_deadline ack))) owner]) a) s)
            end
      end.

Definition Save (registry : list Hash -> StatusOr (list HostOffload.KVBlockMetadata))
    (resolve : RaidenId -> StatusOr string)
    (write_remote : HostOffload.WriteRemoteRequest -> StatusOr HostOffload.WriteRemoteResponse)
    (hold pin_time ack_time : Z) (hashes : list Hash) (dst : option RaidenId) s : Status * KVCacheStore :=
  match dst with
  | Some dst => SaveRemote registry resolve write_remote hold pin_time ack_time hashes dst kApplication s
  | None => SaveLocal registry hashes s
  end.

(** ** Pollers *)

(** The update of the index when a save landed: [i < slices.size()]. *)
Definition saved_entry (e : Hash * RaidenBlockId * Z) : Hash * RaidenBlockId :=
  let '(hash, block, host_id) := e in
  (hash, mkBlockId (raiden_id block) host_id (device_block_id block) HOST_AND_HBM).

Definition registrations (id : RaidenId) (entries : BlockSliceList) : list HostOffload.Registration :=
  (fun e : Hash * RaidenBlockId => HostOffload.mkRegistration e.1 id (host_block_id e.2)) <$> entries.

Definition local_options : LookupOptions := mkOptions false true false.

Section pollers.
Variable registry : list Hash -> StatusOr (list HostOffload.KVBlockMetadata).

(** One ready save, in one section.  The pins of the updated entries are dropped here, or by
    the write-through task when there is a registry. *)
Definition poll_save (st : SaveState) (status : Status) s : KVCacheStore :=
  clear_saving (sv_block_hashes st)
    (match status with
     | Ok _ =>
         let slices := lookup0 registry local_options (sv_block_hashes st) s in
         let entries := saved_entry <$> zip (zip (sv_block_hashes st) slices.*2) (sv_host_block_ids st) in
         let s := on_results (fun r => set_done_saves (done_saves_ r ++ sv_block_hashes st) r) s in
         match entries with
         | [] => s
         | _ =>
             let s := set_tier0 (HostOffload.Insert entries.*1 entries.*2 (tier0 s)).2 s in
             if registry_client_ s
             then set_write_through (write_through s ++ [(registrations (raiden_id_ s) entries, entries.*1)]) s
             else set_tier0 (HostOffload.Release entries.*1 (tier0 s)) s
         end
     | Err _ _ =>
         on_results (fun r => set_failed_saves (failed_saves_ r ++ sv_block_hashes st) r)
           (DeallocateBlockIds (sv_host_block_ids st) s)
     end).

(** The task on the write-through pool, after [Register] returned. *)
Definition run_write_through s : KVCacheStore :=
  match write_through s with
  | [] => s
  | (_, saved) :: rest => set_tier0 (HostOffload.Release saved (tier0 s)) (set_write_through rest s)
  end.

Definition loaded_entry (e : Hash * RaidenBlockId * Z) : Hash * RaidenBlockId :=
  let '(hash, block, device_id) := e in
  (hash, mkBlockId (raiden_id block) (host_block_id block) device_id HOST_AND_HBM).

Definition poll_load (st : LoadState) (status : Status) s : KVCacheStore :=
  clear_loading (ld_block_hashes st)
    (match status with
     | Ok _ =>
         let s' := on_results (fun r => set_done_loads (done_loads_ r ++ ld_block_hashes st) r) s in
         if ld_from_remote st then s'
         else
           let slices := lookup0 registry local_options (ld_block_hashes st) s in
           let entries := loaded_entry <$> zip (zip (ld_block_hashes st) slices.*2) (ld_device_block_ids st) in
           match entries with
           | [] => s'
           | _ =>
               set_tier0 (HostOffload.Release entries.*1
                            (HostOffload.Insert entries.*1 entries.*2 (tier0 s)).2) s'
           end
     | Err _ _ => on_results (fun r => set_failed_loads (failed_loads_ r ++ ld_block_hashes st) r) s
     end).

Definition poll_read (st : RemoteReadState) (status : Status) s : KVCacheStore :=
  clear_reading (rr_block_hashes st)
    (DeallocateBlockIds (rr_host_block_ids st)
       (match status with
        | Ok _ => on_results (fun r => set_done_remote_reads (done_remote_reads_ r ++ rr_block_hashes st) r) s
        | Err _ _ =>
            on_results (fun r => set_failed_remote_reads (failed_remote_reads_ r ++ rr_block_hashes st) r)
              (set_resolved_peer_controllers
                 (foldl (fun m id => delete id m) (resolved_peer_controllers_ s) (rr_src_raiden_ids st)) s)
        end)).
End pollers.

(** [FinishRemoteWrite] as the answer of the destination calls for, or nothing. *)
Definition settle_polled (now : Z) (st : RemoteWriteState) (status_or : StatusOr HostOffload.RemoteWriteStatus) s :
    KVCacheStore :=
  match status_or with
  | Err _ _ => FinishRemoteWrite st false [] [] s
  | Ok status =>
      match HostOffload.state status with
      | HostOffload.kPending => if rw_hold_expiry st <=? now then FinishRemoteWrite st false [] [] s else s
      | HostOffload.kCommitted | HostOffload.kAllExist => FinishRemoteWrite st true [] [] s
      | HostOffload.kPartialExist => FinishRemoteWrite st false (HostOffload.st_existing_hashes status) [] s
      | HostOffload.kStoredUnregistered =>
          FinishRemoteWrite st false [] (HostOffload.st_unregistered_hashes status) s
      | HostOffload.kFailed | HostOffload.kUnknown => FinishRemoteWrite st false [] [] s
      end
  end.

(** The claims, in one section. *)
Definition claim_writes s : list RemoteWriteState * KVCacheStore :=
  foldl (fun acc w =>
    let '(to_poll, s) := acc in
    if bool_decide (rw_operation_id w ∈ polling_remote_writes_ (inflight s)) then acc
    else (to_poll ++ [w],
          on_inflight (fun a => set_polling_remote_writes ({[rw_operation_id w]} ∪ polling_remote_writes_ a) a) s))
    ([], s) (active_remote_writes_ (inflight s)).

Definition release_claims (to_poll : list RemoteWriteState) s : KVCacheStore :=
  on_inflight (fun a => set_polling_remote_writes
    (polling_remote_writes_ a ∖ list_to_set (rw_operation_id <$> to_poll)) a) s.

(** Asking one destination and settling the write. *)
Definition poll_write (resolve : RaidenId -> StatusOr string)
    (poll_rpc : string -> Z -> StatusOr HostOffload.PollWriteRemoteResponse) (now : Z) s (st : RemoteWriteState) :
    KVCacheStore :=
  let '(status_or, b) :=
    HostOffload.PollWriteRemote resolve poll_rpc (rw_dst_raiden_id st) (rw_operation_id st) (tier0 s) in
  settle_polled now st status_or (set_tier0 b s).

Definition PollRemoteWritesInternal (resolve : RaidenId -> StatusOr string)
    (poll_rpc : string -> Z -> StatusOr HostOffload.PollWriteRemoteResponse) (now : Z) s : KVCacheStore :=
  let '(to_poll, s) := claim_writes s in
  match to_poll with
  | [] => s
  | _ => release_claims to_poll (foldl (poll_write resolve poll_rpc now) s to_poll)
  end.

(** What the environment answers during one round of polling. *)
Record Round : Type := mkRound {
  ready : nat -> option Status;
  peer_address : RaidenId -> StatusOr string;
  poll_rpc : string -> Z -> StatusOr HostOffload.PollWriteRemoteResponse;
  clock : Z
}.

Section rounds.
Variable registry : list Hash -> StatusOr (list HostOffload.KVBlockMetadata).

Definition is_ready (rd : Round) (future : nat) : Prop := is_Some (ready rd future).
Definition await (rd : Round) (future : nat) : Status := default OkStatus (ready rd future).

Definition PollFuturesInternal (rd : Round) s : KVCacheStore :=
  let a := inflight s in
  let ready_saves := filter (fun st => is_ready rd (sv_future st)) (active_saves_ a) in
  let ready_loads := filter (fun st => is_ready rd (ld_future st)) (active_loads_ a) in
  let ready_reads := filter (fun e => is_ready rd e.1) (active_remote_reads_ a) in
  let s := on_inflight (fun a =>
    set_active_saves (filter (fun st => ¬ is_ready rd (sv_future st)) (active_saves_ a))
      (set_active_loads (filter (fun st => ¬ is_ready rd (ld_future st)) (active_loads_ a))
         (set_active_remote_reads (filter (fun e => ¬ is_ready rd e.1) (active_remote_reads_ a)) a))) s in
  let s := foldl (fun s st => poll_save registry st (await rd (sv_future st)) s) s ready_saves in
  let s := foldl (fun s st => poll_load registry st (await rd (ld_future st)) s) s ready_loads in
  let s := foldl (fun s e => poll_read e.2 (await rd e.1) s) s ready_reads in
  PollRemoteWritesInternal (peer_address rd) (poll_rpc rd) (clock rd) s.

Record PollSaveStatusResult : Type := mkSaveStatus {
  ss_done : list Hash;
  ss_failed : list Hash;
  ss_pending : list Hash;
  ss_existing : list Hash;
  ss_unregistered : list Hash
}.

Definition PollSaveStatus (rd : Round) s : PollSaveStatusResult * KVCacheStore :=
  let s := PollFuturesInternal rd s in
  let a := inflight s in
  let r := results s in
  let pending :=
    (active_saves_ a ≫= sv_block_hashes) ++
    (filter (fun w => rw_owner w = kApplication) (active_remote_writes_ a) ≫= rw_block_hashes) in
  let remote := application_remote_writes_ r in
  (mkSaveStatus (done_saves_ r ++ vd_done remote) (failed_saves_ r ++ vd_failed remote) pending
     (vd_existing remote) (vd_unregistered remote),
   on_results (fun r => set_application_remote_writes no_verdicts (set_done_saves [] (set_failed_saves [] r))) s).

Definition PollLoadStatus (rd : Round) s : list Hash * list Hash * list Hash * KVCacheStore :=
  let s := PollFuturesInternal rd s in
  (done_loads_ (results s), failed_loads_ (results s), active_loads_ (inflight s) ≫= ld_block_hashes,
   on_results (fun r => set_done_loads [] (set_failed_loads [] r)) s).

Definition PollRemoteReadStatus (rd : Round) s : list Hash * list Hash * list Hash * KVCacheStore :=
  let s := PollFuturesInternal rd s in
  (done_remote_reads_ (results s), failed_remote_reads_ (results s),
   (active_remote_reads_ (inflight s)).*2 ≫= rr_block_hashes,
   on_results (fun r => set_done_remote_reads [] (set_failed_remote_reads [] r)) s).

Definition DrainSweepVerdicts (rd : Round) s : RemoteWriteVerdicts * KVCacheStore :=
  let s := PollFuturesInternal rd s in
  (sweep_remote_writes_ (results s), on_results (set_sweep_remote_writes no_verdicts) s).

(** ** The evict sweep *)

Record BatchWriteResult : Type := mkBatch {
  freeable : list Hash;
  still_pinned : list Hash;
  transfer_failed : bool
}.

(** One round of [WaitForBatchWriteResult]: what it adds to the result and the hashes that are
    still pending. *)
Definition take_verdicts (v : RemoteWriteVerdicts) (pending : gset Hash) (b : BatchWriteResult) :
    gset Hash * BatchWriteResult :=
  (pending ∖ list_to_set (vd_done v ++ vd_failed v),
   mkBatch (freeable b ++ vd_done v ++ vd_existing v) (still_pinned b ++ vd_failed v)
     (transfer_failed b || (length (vd_existing v) <? length (vd_failed v))%nat)).

(** [None] when the rounds end before every hash has a verdict. *)
Fixpoint wait_batch (rounds : list Round) (pending : gset Hash) (b : BatchWriteResult) s :
    option (BatchWriteResult * KVCacheStore) :=
  if bool_decide (pending = ∅) then Some (b, s)
  else
    match rounds with
    | [] => None
    | rd :: rest =>
        let '(v, s) := DrainSweepVerdicts rd s in
        let '(pending, b) := take_verdicts v pending b in
        wait_batch rest pending b s
    end.

Definition WaitForBatchWriteResult (rounds : list Round) (batch : list Hash) s :
    option (BatchWriteResult * KVCacheStore) :=
  wait_batch rounds (list_to_set batch) (mkBatch [] [] false) s.
End rounds.

(** A watermark as a ratio; the rounding of the source's [double]s is not modelled. *)
Record Ratio : Type := mkRatio { numerator : Z; denominator : Z }.
(** [free >= r * total]. *)
Definition at_least (free total : Z) (q : Ratio) : bool := numerator q * total <=? free * denominator q.
(** [ceil(r * total)]. *)
Definition ceil_of (q : Ratio) (total : Z) : Z := - ((- (numerator q * total)) / denominator q).

(** Whether an allocation also wakes the sweep ([RequestSweep]); [sweeping] is
    [enable_evict_sweep] with a monitor. *)
Definition requests_sweep (sweeping : bool) (low : Ratio) (needed : Z) s : bool :=
  let total := LBM.total_blocks_ (manager s) in
  sweeping && (0 <? total) && negb (at_least (LBM.num_free_blocks (manager s) - needed) total low).

Definition kMaxEvictBatchBlocks : Z := 128.
Definition kMaxPlacementTargets : Z := 4.

(** What the environment answers during one sweep step. *)
Record SweepEnv : Type := mkSweepEnv {
  placement : StatusOr (list RaidenId);
  offer_rpc : RaidenId -> HostOffload.WriteRemoteRequest -> StatusOr HostOffload.WriteRemoteResponse;
  store_address : RaidenId -> StatusOr string;
  sweep_hold : Z;
  sweep_time : Z;
  rounds_of : RaidenId -> list Round
}.

Definition end_episode s : bool * KVCacheStore := (false, set_sweep_active false (set_placement_targets [] s)).

Definition drop_target s : KVCacheStore := set_placement_targets (tail (placement_targets_ s)) s.

Section sweep.
Variable registry : list Hash -> StatusOr (list HostOffload.KVBlockMetadata).

(** What follows an accepted offer. *)
Definition sweep_settle (result : BatchWriteResult) s : bool * KVCacheStore :=
  let s := match still_pinned result with
           | [] => s
           | _ => set_tier0 (HostOffload.Release (still_pinned result) (tier0 s)) s
           end in
  let '(evicted, s) := Evict (freeable result) s in
  if transfer_failed result then (true, drop_target s)
  else if (evicted =? 0)%nat then end_episode s
  else (true, s).

(** The loop over the episode's targets; [targets] is [placement_targets_]. *)
Fixpoint sweep_targets (env : SweepEnv) (batch : list Hash) (targets : list RaidenId) s :
    option (bool * KVCacheStore) :=
  match targets with
  | [] =>
      let '(evicted, s) := Evict batch s in
      Some (if (evicted =? 0)%nat then end_episode s else (true, s))
  | dst :: rest =>
      let '(pinned, b) := HostOffload.Pin batch (tier0 s) in
      let s := set_tier0 b s in
      if negb pinned then Some (end_episode s)
      else
        match SaveRemote registry (store_address env) (offer_rpc env dst) (sweep_hold env) (sweep_time env)
                (sweep_time env) batch dst kSweep s with
        | (Err _ _, s) =>
            sweep_targets env batch rest (drop_target (set_tier0 (HostOffload.Release batch (tier0 s)) s))
        | (Ok _, s) =>
            match WaitForBatchWriteResult registry (rounds_of env dst) batch s with
            | None => None
            | Some (result, s) => Some (sweep_settle result s)
            end
        end
  end.

Definition SweepOnce (low high : Ratio) (env : SweepEnv) s : option (bool * KVCacheStore) :=
  let free := LBM.num_free_blocks (manager s) in
  let total := LBM.total_blocks_ (manager s) in
  if total <=? 0 then Some (false, s)
  else
    let demote s :=
      let deficit := ceil_of high total - free in
      let batch := HostOffload.GetEvictableKeys (Z.to_nat (Z.min deficit kMaxEvictBatchBlocks)) (tier0 s) in
      match batch with
      | [] => Some (end_episode s)
      | _ => sweep_targets env batch (placement_targets_ s) s
      end in
    if negb (sweep_active_ s) then
      if at_least free total low then Some (false, s)
      else
        demote (set_placement_targets (match placement env with Ok ids => ids | Err _ _ => [] end)
                  (set_sweep_active true s))
    else if at_least free total high then Some (end_episode s)
    else demote s.
End sweep.

(** ** Recovery *)

Definition RecoverFromLocalManifest s : StatusOr Z * KVCacheStore :=
  if (0 <? HostOffload.GetSize (tier0 s))%nat then
    (Err kFailedPrecondition StrCat["RecoverFromLocalManifest can only be called on an empty cache store"], s)
  else
    let '(n, b, m) := HostOffload.RecoverFromLocalManifest (tier0 s) (manager s) in
    (n, set_manager m (set_tier0 b s)).

(** ** Destruction *)

(** The remote writes that are outstanding when the store goes away are abandoned. *)
Definition abandon_writes s : KVCacheStore :=
  let abandoned := active_remote_writes_ (inflight s) in
  foldl (fun s st => FinishRemoteWrite st false [] [] s)
    (on_inflight (fun a => set_active_remote_writes [] (set_polling_remote_writes ∅ a)) s) abandoned.

End Store.
