(* ===== verification/KVCacheStoreWrites.v ===== *)
(** * Remote writes of the store: the ledger

    [Module StoreWrites]: the abstract view of the store's remote writes is a [Ledger] (the
    visible index, the pins, the hashes being saved, the offers outstanding and the two
    mailboxes), with three operations: [reserve] (the marks and the internal pins of an
    offer), [record] (an accepted offer) and [settle] (a verdict).  [SaveRemote],
    [FinishRemoteWrite] and the poller refine them. *)

From S2P Require Import Prelude ReshardTypes StoreBackend LruCache LogicalBlockManager HostOffloadBackend HostOffloadLookup HostOffloadInsert HostOffloadPins KVCacheStoreService KVCacheStore.
Import OffloadLookup OffloadInsert OffloadPins.

Module StoreWrites.
Import Store.

Implicit Types (s : KVCacheStore) (b : Backend) (h k : Hash) (hs : list Hash) (w : RemoteWriteState).

(** ** The ledger *)

Record Ledger : Type := mkLedger {
  index : Hash -> option RaidenBlockId;
  pins : Hash -> Z;
  saving : gset Hash;
  outstanding : list RemoteWriteState;
  mail : SaveOwner -> RemoteWriteVerdicts
}.
Implicit Types (L : Ledger).

#[global] Instance ledger_equiv : Equiv Ledger := fun L1 L2 =>
  (forall h, index L1 h = index L2 h) ∧ (forall h, pins L1 h = pins L2 h) ∧ saving L1 = saving L2 ∧
  outstanding L1 = outstanding L2 ∧ forall o, mail L1 o = mail L2 o.

#[global] Instance ledger_equivalence : Equivalence (≡@{Ledger}).
Proof.
  split.
  - intros L. by split_and!.
  - intros L1 L2 (H1 & H2 & H3 & H4 & H5). split_and!; congruence.
  - intros L1 L2 L3 (H1 & H2 & H3 & H4 & H5) (G1 & G2 & G3 & G4 & G5). split_and!; congruence.
Qed.

Definition mailbox (r : Results) (o : SaveOwner) : RemoteWriteVerdicts :=
  match o with kApplication => application_remote_writes_ r | kSweep => sweep_remote_writes_ r end.

Definition ledger s : Ledger :=
  mkLedger (fun h => LRU.Peek h (HostOffload.lru_cache_ (tier0 s))) (fun h => HostOffload.GetPinCount h (tier0 s))
    (saving_hashes_ (inflight s)) (active_remote_writes_ (inflight s)) (mailbox (results s)).

(** Marks and internal pins. *)
Definition reserve hs L : Ledger :=
  mkLedger (index L) (fun h => pins L h + occ h hs) (list_to_set hs ∪ saving L) (outstanding L) (mail L).

Definition record w L : Ledger :=
  mkLedger (index L) (pins L) (saving L) (outstanding L ++ [w]) (mail L).

(** A verdict: the internal pin and, on success, the caller's are dropped, the marks are
    cleared, the offer is no longer outstanding and its owner has mail. *)
Definition settle w (succeeded : bool) (existing unregistered : list Hash) L : Ledger :=
  mkLedger (index L)
    (fun h => Z.max 0 (pins L h - (if succeeded then 2 else 1) * occ h (rw_block_hashes w)))
    (saving L ∖ list_to_set (rw_block_hashes w))
    (filter (fun w' => rw_operation_id w' ≠ rw_operation_id w) (outstanding L))
    (fun o => if bool_decide (o = rw_owner w)
              then add_verdicts succeeded (rw_block_hashes w) existing unregistered (mail L o) else mail L o).

#[global] Instance reserve_proper hs : Proper ((≡) ==> (≡)) (reserve hs).
Proof. intros L1 L2 (H1 & H2 & H3 & H4 & H5). split_and!; cbn; try done; [intros h; by rewrite H2|by rewrite H3]. Qed.
#[global] Instance record_proper w : Proper ((≡) ==> (≡)) (record w).
Proof. intros L1 L2 (H1 & H2 & H3 & H4 & H5). split_and!; cbn; try done. by rewrite H4. Qed.
#[global] Instance settle_proper w ok ex un : Proper ((≡) ==> (≡)) (settle w ok ex un).
Proof.
  intros L1 L2 (H1 & H2 & H3 & H4 & H5).
  split_and!; cbn; [done|intros h; by rewrite H2|by rewrite H3|by rewrite H4|intros o; by rewrite H5].
Qed.

(** The store whose tier-0 backend is well formed. *)
Definition good s : Prop := LRU.wf (HostOffload.lru_cache_ (tier0 s)).

(** ** The marks *)

Lemma set_inflight_eta s : set_inflight (inflight s) s = s.
Proof. by destruct s. Qed.

Lemma mark_saving_nil s : mark_saving [] s = s.
Proof.
  unfold mark_saving, on_inflight. destruct s as [? ? ? ? ? [] ? ? ? ? ? ?]. cbn.
  unfold set_saving_hashes, set_inflight. cbn. by rewrite (left_id_L ∅ (∪)).
Qed.

Lemma mark_saving_snoc hs h s : mark_saving [h] (mark_saving hs s) = mark_saving (hs ++ [h]) s.
Proof.
  unfold mark_saving, on_inflight, set_inflight, set_saving_hashes. destruct s as [? ? ? ? ? [] ? ? ? ? ? ?]. cbn.
  do 2 f_equal. rewrite list_to_set_app_L. set_solver.
Qed.

Lemma clear_mark_saving hs s : (forall h, h ∈ hs -> h ∉ saving_hashes_ (inflight s)) ->
  clear_saving hs (mark_saving hs s) = s.
Proof.
  unfold clear_saving, mark_saving, on_inflight, set_inflight, set_saving_hashes.
  destruct s as [? ? ? ? ? [] ? ? ? ? ? ?]. cbn. intros H. do 2 f_equal. apply set_eq. intros h.
  rewrite elem_of_difference, elem_of_union, elem_of_list_to_set. specialize (H h). tauto.
Qed.

(** What the checks and marks of an offer leave behind. *)
Lemma offer_blocks_spec marked0 ids0 slices s0 :
  let s := mark_saving marked0 s0 in
  let r := offer_blocks marked0 ids0 slices s in
  NoDup marked0 -> (forall h, h ∈ marked0 -> h ∉ saving_hashes_ (inflight s0) ∧ 0 < HostOffload.GetPinCount h (tier0 s0)) ->
  let marked := r.1.2 in
  r.2 = mark_saving marked s0 ∧ NoDup marked ∧
  (forall h, h ∈ marked -> h ∉ saving_hashes_ (inflight s0) ∧ 0 < HostOffload.GetPinCount h (tier0 s0)) ∧
  (forall ids, r.1.1 = Ok ids -> marked = marked0 ++ slices.*1 ∧ ids = ids0 ++ (host_block_id <$> slices.*2) ∧
     Forall (fun e => on_host e.2 = true) slices).
Proof.
  revert marked0 ids0. induction slices as [|[h blk] slices IH]; intros marked0 ids0; cbn [offer_blocks].
  { cbn. rewrite !app_nil_r. intros Hnd Hm. split_and!; try done. intros ids [= <-]. done. }
  intros Hnd Hm. destruct (on_host blk) eqn:Eh; cbn [negb]; [|split_and!; done].
  destruct (_ <=? _) eqn:Ep; [split_and!; done|]. apply Z.leb_gt in Ep.
  destruct (bool_decide _) eqn:Es; [split_and!; done|]. apply bool_decide_eq_false in Es.
  rewrite mark_saving_snoc. cbn in Es. rewrite elem_of_union, elem_of_list_to_set in Es.
  destruct (IH (marked0 ++ [h]) (ids0 ++ [host_block_id blk])) as (H1 & H2 & H3 & H4).
  - apply NoDup_app. split_and!; [done| |apply NoDup_singleton]. intros k Hk Hkh%list_elem_of_singleton. subst k. tauto.
  - intros k [Hk|Hk%list_elem_of_singleton]%elem_of_app; [by apply Hm|]. subst k. split; [tauto|done].
  - split_and!; [done|done|done|]. intros ids Hids. destruct (H4 ids Hids) as (-> & -> & Hf).
    rewrite <-!app_assoc. split_and!; [done|done|by constructor].
Qed.

(** ** Backend calls *)

Lemma GetKVCacheStoreClient_lru resolve id b :
  HostOffload.lru_cache_ (HostOffload.GetKVCacheStoreClient resolve id b).2 = HostOffload.lru_cache_ b.
Proof. unfold HostOffload.GetKVCacheStoreClient. by repeat case_match. Qed.

Lemma BeginWriteRemote_lru resolve rpc dst hs ids ms b :
  HostOffload.lru_cache_ (HostOffload.BeginWriteRemote resolve rpc dst hs ids ms b).2 = HostOffload.lru_cache_ b.
Proof.
  unfold HostOffload.BeginWriteRemote. destruct (_ =? 0)%nat; [done|]. destruct (negb _); [done|].
  pose proof (GetKVCacheStoreClient_lru resolve dst b) as H.
  destruct (HostOffload.GetKVCacheStoreClient resolve dst b) as [[client|] b']; [|done]. cbn in H. by repeat case_match.
Qed.

Lemma PollWriteRemote_lru resolve rpc dst id b :
  HostOffload.lru_cache_ (HostOffload.PollWriteRemote resolve rpc dst id b).2 = HostOffload.lru_cache_ b.
Proof.
  unfold HostOffload.PollWriteRemote. pose proof (GetKVCacheStoreClient_lru resolve dst b) as H.
  destruct (HostOffload.GetKVCacheStoreClient resolve dst b) as [[client|] b']; [|done]. cbn in H. by repeat case_match.
Qed.

(** The ledger sees the tier-0 backend through its cache only. *)
Lemma ledger_same_cache b s : HostOffload.lru_cache_ b = HostOffload.lru_cache_ (tier0 s) ->
  ledger (set_tier0 b s) ≡ ledger s.
Proof. intros E. unfold ledger, HostOffload.GetPinCount. cbn [tier0 set_tier0 inflight results]. by rewrite E. Qed.

Lemma good_same_cache b s : HostOffload.lru_cache_ b = HostOffload.lru_cache_ (tier0 s) -> good s -> good (set_tier0 b s).
Proof. intros E. unfold good. cbn. by rewrite E. Qed.

Lemma ledger_release hs s : good s ->
  ledger (set_tier0 (HostOffload.Release hs (tier0 s)) s) ≡
  mkLedger (index (ledger s)) (fun h => Z.max 0 (pins (ledger s) h - occ h hs)) (saving (ledger s))
    (outstanding (ledger s)) (mail (ledger s)).
Proof.
  intros Hg. unfold ledger. cbn [tier0 set_tier0 inflight results]. split_and!; cbn [index pins]; try done.
  - intros h. by apply Release_Peek.
  - intros h. by apply Release_pins.
Qed.

Lemma good_release hs s : good s -> good (set_tier0 (HostOffload.Release hs (tier0 s)) s).
Proof. apply Release_wf. Qed.

(** ** [FinishRemoteWrite] is [settle] *)

Lemma ledger_settle_write w succeeded existing unregistered s :
  ledger (settle_write w succeeded existing unregistered s) ≡
  mkLedger (index (ledger s)) (pins (ledger s)) (saving (ledger s) ∖ list_to_set (rw_block_hashes w))
    (filter (fun w' => rw_operation_id w' ≠ rw_operation_id w) (outstanding (ledger s)))
    (fun o => if bool_decide (o = rw_owner w)
              then add_verdicts succeeded (rw_block_hashes w) existing unregistered (mail (ledger s) o) else mail (ledger s) o).
Proof. split_and!; try done. intros o. by destruct (rw_owner w) eqn:E, o; cbn; rewrite E. Qed.

Lemma FinishRemoteWrite_ledger w succeeded existing unregistered s : good s ->
  ledger (FinishRemoteWrite w succeeded existing unregistered s) ≡ settle w succeeded existing unregistered (ledger s) ∧
  good (FinishRemoteWrite w succeeded existing unregistered s).
Proof.
  intros Hg. unfold FinishRemoteWrite. set (hs := rw_block_hashes w). cbv zeta.
  set (s1 := set_tier0 (HostOffload.Release hs (tier0 s)) s).
  assert (Hg1 : good s1) by (by apply good_release). pose proof (ledger_release hs s Hg) as H1. fold s1 in H1.
  destruct succeeded.
  - set (s2 := set_tier0 (HostOffload.Release hs (HostOffload.Release hs (tier0 s))) s).
    assert (Hg2 : good s2) by (exact (good_release hs s1 Hg1)). pose proof (ledger_release hs s1 Hg1) as H2.
    change (set_tier0 _ s1) with s2 in H2. split; [|done]. rewrite ledger_settle_write.
    destruct H1 as (A1 & A2 & A3 & A4 & A5), H2 as (B1 & B2 & B3 & B4 & B5).
    split_and!; cbn [index pins saving outstanding mail settle] in *; [intros h; etransitivity; [apply B1|apply A1]| |done|done|done].
    intros h. etransitivity; [apply B2|]. rewrite A2. pose proof (occ_nonneg h hs). fold hs. lia.
  - split; [|done]. rewrite ledger_settle_write. destruct H1 as (A1 & A2 & A3 & A4 & A5).
    split_and!; cbn [index pins saving outstanding mail settle] in *; [exact A1| |done|done|done].
    intros h. etransitivity; [apply A2|]. fold hs. lia.
Qed.

(** ** The rollback of an offer *)

Lemma offer_rollback_pins hs s s0 : good s0 -> (forall h, h ∈ hs -> h ∉ saving (ledger s0)) ->
  good s -> ledger s ≡ reserve hs (ledger s0) -> ledger (offer_rollback hs hs s) ≡ ledger s0 ∧ good (offer_rollback hs hs s).
Proof.
  intros Hg0 Hdis Hg H. unfold offer_rollback.
  assert (E : exists s1, s1 = (match hs with [] => s | _ => set_tier0 (HostOffload.Release hs (tier0 s)) s end) ∧
            ledger s1 ≡ mkLedger (index (ledger s0)) (pins (ledger s0)) (list_to_set hs ∪ saving (ledger s0))
                          (outstanding (ledger s0)) (mail (ledger s0)) ∧ good s1).
  { eexists. split; [done|]. destruct H as (A1 & A2 & A3 & A4 & A5). destruct hs as [|h0 hs0].
    - split; [|done]. split_and!; try done. intros h. rewrite A2. cbn [reserve pins]. rewrite occ_nil. cbn [pins]. lia.
    - set (hs := h0 :: hs0) in *. split; [|by apply good_release]. rewrite ledger_release by done.
      split_and!; cbn [index pins saving outstanding mail] in *; try done.
      intros h. rewrite A2. cbn [reserve pins]. pose proof (LRU.wf_pin_nonneg _ h Hg0) as Hn.
      change (0 <= pins (ledger s0) h) in Hn. lia. }
  destruct E as (s1 & <- & (A1 & A2 & A3 & A4 & A5) & Hg1). split; [|done].
  split_and!; try done. cbn [ledger saving clear_saving on_inflight inflight set_inflight saving_hashes_ set_saving_hashes].
  cbn [ledger saving] in A3. rewrite A3. apply set_eq. intros h. cbn [ledger saving] in *.
  rewrite elem_of_difference, elem_of_union, elem_of_list_to_set. specialize (Hdis h). tauto.
Qed.

(** ** [SaveRemote] *)

Lemma occ_NoDup h hs : NoDup hs -> h ∈ hs -> occ h hs = 1.
Proof.
  induction 1 as [|k hs Hk Hnd IH]; [by intros ?%elem_of_nil|]. rewrite occ_cons. intros [->|Hin]%elem_of_cons.
  - rewrite bool_decide_eq_true_2, occ_zero by done. lia.
  - rewrite bool_decide_eq_false_2, IH by (done || congruence). lia.
Qed.

(** Everything but the backend and the offers in flight. *)
Definition same_rest s s' : Prop :=
  tiers s' = tiers s ∧ manager s' = manager s ∧ issued s' = issued s ∧ write_through s' = write_through s ∧
  sweep_active_ s' = sweep_active_ s ∧ placement_targets_ s' = placement_targets_ s ∧
  active_saves_ (inflight s') = active_saves_ (inflight s) ∧ active_loads_ (inflight s') = active_loads_ (inflight s) ∧
  active_remote_reads_ (inflight s') = active_remote_reads_ (inflight s) ∧ polling_remote_writes_ (inflight s') = polling_remote_writes_ (inflight s).

#[global] Instance same_rest_preorder : PreOrder same_rest.
Proof.
  split; [by repeat split|]. intros s1 s2 s3 H1 H2. unfold same_rest in *. destruct_and? H1. destruct_and? H2.
  split_and!; congruence.
Qed.

Lemma same_rest_tier0 b s : same_rest s (set_tier0 b s).
Proof. by repeat split. Qed.
Lemma same_rest_mark hs s : same_rest s (mark_saving hs s).
Proof. by repeat split. Qed.
Lemma same_rest_clear hs s : same_rest s (clear_saving hs s).
Proof. by repeat split. Qed.
Lemma same_rest_rollback hs ms s : same_rest s (offer_rollback hs ms s).
Proof. unfold offer_rollback. etransitivity; [|apply same_rest_clear]. destruct hs; [done|apply same_rest_tier0]. Qed.
Lemma same_rest_finish w succeeded ex un s : same_rest s (FinishRemoteWrite w succeeded ex un s).
Proof. by repeat split. Qed.

(** What the destination was asked and what it answered. *)
Definition answered resolve write_remote (hold : Z) hs (dst : RaidenId) (ids : list Z) (ack : HostOffload.RemoteWriteAck) : Prop :=
  exists b, (HostOffload.BeginWriteRemote resolve write_remote dst hs ids
               (Service.ToInt64Milliseconds (hold - kRemoteWriteMargin)) b).1 = Ok ack.

(** The host blocks an index binds the hashes to. *)
Definition offered_blocks L hs (ids : list Z) : Prop :=
  Forall2 (fun h i => exists blk, index L h = Some blk ∧ on_host blk = true ∧ host_block_id blk = i) hs ids.

(** The ledger after an accepted call. *)
Definition accepted (hold pin_time ack_time : Z) hs dst owner (ack : HostOffload.RemoteWriteAck) L : Ledger :=
  if HostOffload.all_exist ack then settle (mkWrite dst 0 hs (pin_time + hold) owner) true [] [] (reserve hs L)
  else if negb (length (HostOffload.existing_hashes ack) =? 0)%nat then
    settle (mkWrite dst 0 hs (pin_time + hold) owner) false (HostOffload.existing_hashes ack) [] (reserve hs L)
  else record (mkWrite dst (HostOffload.operation_id ack) hs
                 (Z.max (pin_time + hold) (ack_time + Service.Milliseconds (HostOffload.granted_deadline ack))) owner)
         (reserve hs L).

Lemma default_lookup registry hs s : good s ->
  let slices := lookup0 registry default_options hs s in
  (length slices <? length hs)%nat = false ->
  slices.*1 = hs ∧ Forall (fun e => on_host e.2 = true -> index (ledger s) e.1 = Some e.2) slices.
Proof.
  intros Hg slices Hl. apply Nat.ltb_ge in Hl.
  destruct (Lookup_nopin registry hs default_options (tier0 s) Hg eq_refl) as (_ & Hle & Hpre & Hin).
  fold (lookup0 registry default_options hs s) in Hle, Hpre, Hin. fold slices in Hle, Hpre, Hin. split.
  - rewrite Hpre. apply take_ge. lia.
  - apply Forall_lookup. intros i [h blk] Hi Hh. cbn in *. destruct (Hin i h blk Hi) as [_ [?|Hr]]; [done|].
    unfold on_host in Hh. by rewrite Hr in Hh.
Qed.

Lemma ledger_mark hs s : ledger (mark_saving hs s) ≡
  mkLedger (index (ledger s)) (pins (ledger s)) (list_to_set hs ∪ saving (ledger s)) (outstanding (ledger s)) (mail (ledger s)).
Proof. by split_and!. Qed.

(** The internal pins cannot be refused to a caller that holds its own. *)
Lemma pin_offered hs s : good s -> (forall h, h ∈ hs -> 0 < pins (ledger s) h) ->
  let r := HostOffload.Pin hs (tier0 s) in
  r.1 = true ∧ good (set_tier0 r.2 s) ∧
  ledger (set_tier0 r.2 s) ≡ mkLedger (index (ledger s)) (fun h => pins (ledger s) h + occ h hs) (saving (ledger s))
                               (outstanding (ledger s)) (mail (ledger s)).
Proof.
  intros Hg Hp r. destruct (Pin_Peeks hs (tier0 s) Hg) as [Ht Hpk].
  { apply Forall_forall. intros h Hh. by apply LRU.pinned_Peek; [|apply Hp]. }
  destruct (Pin_spec hs (tier0 s) Hg) as (_ & Hwf & _ & Hpin). fold r in Ht, Hpk, Hwf, Hpin. rewrite Ht in Hpin.
  split_and!; done.
Qed.

(** The reservation: checks, marks and pins. *)
Lemma offer_reserve hs slices ids s : good s -> slices.*1 = hs ->
  Forall (fun e => on_host e.2 = true -> index (ledger s) e.1 = Some e.2) slices ->
  (offer_blocks [] [] slices s).1.1 = Ok ids ->
  let s1 := (offer_blocks [] [] slices s).2 in
  let r := HostOffload.Pin hs (tier0 s1) in
  (offer_blocks [] [] slices s).1.2 = hs ∧ r.1 = true ∧ good (set_tier0 r.2 s1) ∧
  ledger (set_tier0 r.2 s1) ≡ reserve hs (ledger s) ∧ same_rest s (set_tier0 r.2 s1) ∧
  NoDup hs ∧ (forall h, h ∈ hs -> 0 < pins (ledger s) h ∧ h ∉ saving (ledger s)) ∧ offered_blocks (ledger s) hs ids.
Proof.
  intros Hg Hhs Hidx Hok s1 r. pose proof (offer_blocks_spec [] [] slices s) as H. rewrite mark_saving_nil in H.
  destruct H as (Hs1 & Hnd & Hm & Hi); [apply NoDup_nil_2|by intros h ?%elem_of_nil|].
  destruct (Hi ids Hok) as (Hmk & Hids & Hon). cbn [app] in *. fold s1 in Hs1. rewrite Hmk, Hhs in *.
  assert (Hpin : forall h, h ∈ hs -> 0 < pins (ledger s1) h) by (intros h Hh; rewrite Hs1; by apply Hm).
  assert (Hg1 : good s1) by (by rewrite Hs1). destruct (pin_offered hs s1 Hg1 Hpin) as (Ht & Hg2 & HL).
  fold r in Ht, Hg2, HL. split_and!; [done|done|done| | |done| |].
  - rewrite HL. rewrite Hs1. by split_and!.
  - etransitivity; [|apply same_rest_tier0]. rewrite Hs1. apply same_rest_mark.
  - intros h Hh. by destruct (Hm h Hh).
  - unfold offered_blocks. rewrite <-Hhs, Hids. apply Forall2_fmap_l, Forall2_fmap_r, Forall2_fmap_r, Forall_Forall2_diag.
    apply Forall_forall. intros e He. rewrite Forall_forall in Hon, Hidx. exists e.2.
    split_and!; [by apply Hidx; [|apply Hon]|by apply Hon|done].
Qed.

Lemma SaveRemote_spec registry resolve write_remote hold pin_time ack_time hs dst owner s : good s ->
  let r := SaveRemote registry resolve write_remote hold pin_time ack_time hs dst owner s in
  good r.2 ∧ same_rest s r.2 ∧
  match r.1 with
  | Err _ _ => ledger r.2 ≡ ledger s
  | Ok _ =>
      hs = [] ∧ r.2 = s ∨
      NoDup hs ∧ (forall h, h ∈ hs -> 0 < pins (ledger s) h ∧ h ∉ saving (ledger s)) ∧ kRemoteWriteMargin < hold ∧
      exists ids ack, offered_blocks (ledger s) hs ids ∧ answered resolve write_remote hold hs dst ids ack ∧
        ledger r.2 ≡ accepted hold pin_time ack_time hs dst owner ack (ledger s)
  end.
Proof.
  intros Hg r. unfold r, SaveRemote. destruct (_ =? 0)%nat eqn:E0.
  { split_and!; [done|done|]. left. split; [|done]. apply Nat.eqb_eq in E0. by destruct hs. }
  destruct (RaidenId_empty dst); [by split_and!|]. destruct (RaidenId_eqb dst _); [by split_and!|].
  destruct (_ <? _)%nat eqn:El; [by split_and!|]. set (slices := lookup0 _ _ _ _) in *.
  destruct (default_lookup registry hs s Hg El) as [Hhs Hidx]. fold slices in Hhs, Hidx.
  pose proof (offer_reserve hs slices) as Hres. pose proof (offer_blocks_spec [] [] slices s) as Hob.
  rewrite mark_saving_nil in Hob. destruct Hob as (Hs1 & _ & Hm & _); [apply NoDup_nil_2|by intros h ?%elem_of_nil|].
  specialize (fun ids => Hres ids s Hg Hhs Hidx).
  destruct (offer_blocks [] [] slices s) as [[[ids|code msg] marked] s1] eqn:Eo; cbn [fst snd] in *.
  2: { unfold offer_rollback. rewrite Hs1, clear_mark_saving by (intros h Hh; by apply Hm). by split_and!. }
  destruct (Hres ids eq_refl) as (-> & Ht & Hg2 & HL & Hrest & Hnd & Hp & Hbl). clear Hres Hm Eo Hs1.
  destruct (HostOffload.Pin hs (tier0 s1)) as [pinned b]. cbn [fst snd] in *. subst pinned. cbn [negb].
  set (s2 := set_tier0 b s1) in *. clearbody s2.
  assert (Hroll : forall s3, good s3 -> ledger s3 ≡ ledger s2 -> same_rest s s3 ->
    good (offer_rollback hs hs s3) ∧ same_rest s (offer_rollback hs hs s3) ∧ ledger (offer_rollback hs hs s3) ≡ ledger s).
  { intros s3 Hg3 HL3 Hr3. rewrite HL in HL3. destruct (offer_rollback_pins hs s3 s Hg) as [? ?]; [naive_solver|done|done|].
    split_and!; [done| |done]. etransitivity; [exact Hr3|apply same_rest_rollback]. }
  destruct (_ <=? _) eqn:Eh; [by apply Hroll|]. apply Z.leb_gt in Eh.
  set (ms := Service.ToInt64Milliseconds _).
  pose proof (BeginWriteRemote_lru resolve write_remote dst hs ids ms (tier0 s2)) as Hlru.
  destruct (HostOffload.BeginWriteRemote _ _ _ _ _ _ _) as [ack_or b3] eqn:Eb. cbn [snd] in Hlru.
  assert (Hg3 : good (set_tier0 b3 s2)) by (by apply good_same_cache).
  assert (HL3 : ledger (set_tier0 b3 s2) ≡ ledger s2) by (by apply ledger_same_cache).
  assert (Hr3 : same_rest s (set_tier0 b3 s2)) by (etransitivity; [exact Hrest|apply same_rest_tier0]).
  destruct ack_or as [ack|code msg]; [|by apply Hroll].
  assert (Hans : answered resolve write_remote hold hs dst ids ack) by (exists (tier0 s2); fold ms; by rewrite Eb).
  rewrite HL in HL3. set (s3 := set_tier0 b3 s2) in *. clearbody s3. unfold accepted.
  destruct (HostOffload.all_exist ack) eqn:Ea; [|destruct (negb _) eqn:Ex]; cbn [fst snd].
  - destruct (FinishRemoteWrite_ledger (mkWrite dst 0 hs (pin_time + hold) owner) true [] [] s3 Hg3) as [HF HgF].
    split_and!; [done|etransitivity; [exact Hr3|apply same_rest_finish]|]. right. split_and!; [done|done|done|].
    exists ids, ack. split_and!; [done|done|]. rewrite Ea, HF. by f_equiv.
  - destruct (FinishRemoteWrite_ledger (mkWrite dst 0 hs (pin_time + hold) owner) false
      (HostOffload.existing_hashes ack) [] s3 Hg3) as [HF HgF].
    split_and!; [done|etransitivity; [exact Hr3|apply same_rest_finish]|]. right. split_and!; [done|done|done|].
    exists ids, ack. split_and!; [done|done|]. rewrite Ea, Ex, HF. by f_equiv.
  - split_and!; [done|etransitivity; [exact Hr3|by repeat split]|]. right. split_and!; [done|done|done|].
    exists ids, ack. split_and!; [done|done|]. rewrite Ea, Ex, <-HL3. by split_and!.
Qed.

(** C20: The contract of a remote save.  A refused call (no destination, an unknown or unpinned
    block, a block already being saved, a failed RPC) leaves the index, every pin count, the
    saving marks, the outstanding offers and the mailboxes as they were.  An accepted call
    has offered the host block the index binds each hash to, without duplicates; it ends in
    the ledger the answer calls for, and the pins it then holds are one more per block while
    the offer is outstanding, as many as before when the peer had only some of the blocks,
    and one less, the caller's, when the peer already had all of them. *)
Theorem store_save_remote registry resolve write_remote hold pin_time ack_time hs dst owner s : good s ->
  let r := SaveRemote registry resolve write_remote hold pin_time ack_time hs dst owner s in
  good r.2 ∧ same_rest s r.2 ∧
  match r.1 with
  | Err _ _ => ledger r.2 ≡ ledger s
  | Ok _ =>
      hs = [] ∧ r.2 = s ∨
      NoDup hs ∧ (forall h, h ∈ hs -> 0 < pins (ledger s) h ∧ h ∉ saving (ledger s)) ∧ kRemoteWriteMargin < hold ∧
      exists ids ack, offered_blocks (ledger s) hs ids ∧ answered resolve write_remote hold hs dst ids ack ∧
        ledger r.2 ≡ accepted hold pin_time ack_time hs dst owner ack (ledger s) ∧
        forall h, pins (ledger r.2) h = pins (ledger s) h +
          if bool_decide (h ∈ hs) then
            if HostOffload.all_exist ack then -1 else if (length (HostOffload.existing_hashes ack) =? 0)%nat then 1 else 0
          else 0
  end.
Proof.
  intros Hg r. destruct (SaveRemote_spec registry resolve write_remote hold pin_time ack_time hs dst owner s Hg) as (Hg' & Hr & Hm).
  fold r in Hg', Hr, Hm. split_and!; [done|done|]. destruct (r.1) as [u|]; [|done].
  destruct Hm as [?|(Hnd & Hp & Hh & ids & ack & Hb & Ha & HL)]; [by left|right]. split_and!; [done|done|done|].
  exists ids, ack. split_and!; [done|done|done|]. intros h. destruct HL as (_ & -> & _).
  assert (Hocc : occ h hs = if bool_decide (h ∈ hs) then 1 else 0).
  { case_bool_decide as Hin; [by apply occ_NoDup|by apply occ_zero]. }
  pose proof (LRU.wf_pin_nonneg _ h Hg) as Hn. change (0 <= pins (ledger s) h) in Hn.
  specialize (fun Hin => proj1 (Hp h Hin)). unfold accepted.
  destruct (HostOffload.all_exist ack); [|destruct (_ =? 0)%nat]; cbn [negb settle reserve record pins rw_block_hashes];
    rewrite !Hocc; case_bool_decide; naive_solver lia.
Qed.

(** ** The pollers *)

Definition ids_of (ws : list RemoteWriteState) : list Z := rw_operation_id <$> ws.

Definition with_polling (x : gset Z) s : KVCacheStore := on_inflight (set_polling_remote_writes x) s.

Lemma with_polling_add i X s :
  on_inflight (fun a => set_polling_remote_writes ({[i]} ∪ polling_remote_writes_ a) a) (with_polling X s) =
  with_polling ({[i]} ∪ X) s.
Proof. done. Qed.

(** A poller claims, each once, the offers that no other poller has claimed. *)
Lemma claim_loop s ws to_poll P :
  let r := foldl (fun acc w =>
    let '(to_poll, s) := acc in
    if bool_decide (rw_operation_id w ∈ polling_remote_writes_ (inflight s)) then acc
    else (to_poll ++ [w],
          on_inflight (fun a => set_polling_remote_writes ({[rw_operation_id w]} ∪ polling_remote_writes_ a) a) s))
    (to_poll, with_polling (list_to_set (ids_of to_poll) ∪ P) s) ws in
  NoDup (ids_of to_poll) -> (forall w, w ∈ to_poll -> rw_operation_id w ∉ P) ->
  r.2 = with_polling (list_to_set (ids_of r.1) ∪ P) s ∧ NoDup (ids_of r.1) ∧
  (forall w, w ∈ r.1 -> (w ∈ to_poll ∨ w ∈ ws) ∧ rw_operation_id w ∉ P) ∧
  (forall w, w ∈ ws -> rw_operation_id w ∈ P ∨ rw_operation_id w ∈ ids_of r.1) ∧
  (forall w, w ∈ to_poll -> w ∈ r.1).
Proof.
  revert to_poll. induction ws as [|w ws IH]; intros to_poll; cbn [foldl].
  { intros Hnd HP. cbn [fst snd]. split_and!; try done; [auto|by intros w ?%elem_of_nil]. }
  intros Hnd HP. destruct (bool_decide _) eqn:Ew.
  - apply bool_decide_eq_true in Ew. cbn in Ew. rewrite elem_of_union, elem_of_list_to_set in Ew.
    destruct (IH to_poll Hnd HP) as (H1 & H2 & H3 & H4 & H5). split_and!; [done|done| | |done].
    + intros w' Hw'. destruct (H3 w' Hw') as [[?|?] ?]; rewrite elem_of_cons; auto.
    + intros w' [->|Hw']%elem_of_cons; [|by apply H4]. destruct Ew as [Ew|Ew]; [right|by left].
      apply list_elem_of_fmap in Ew as (w2 & E2 & Hw2). apply list_elem_of_fmap. eauto.
  - apply bool_decide_eq_false in Ew. cbn in Ew. rewrite elem_of_union, elem_of_list_to_set in Ew.
    specialize (IH (to_poll ++ [w])). rewrite with_polling_add.
    replace ({[rw_operation_id w]} ∪ (list_to_set (ids_of to_poll) ∪ P)) with (list_to_set (ids_of (to_poll ++ [w])) ∪ P : gset Z)
      by (unfold ids_of; rewrite fmap_app, list_to_set_app_L; set_solver).
    destruct IH as (H1 & H2 & H3 & H4 & H5).
    + unfold ids_of. rewrite fmap_app. apply NoDup_app. split_and!; [done| |apply NoDup_singleton].
      intros i Hi Hiw%list_elem_of_singleton. subst i. tauto.
    + intros w' [Hw'|Hw'%list_elem_of_singleton]%elem_of_app; [auto|]. subst w'. tauto.
    + split_and!; [done|done| | |].
      * intros w' Hw'. destruct (H3 w' Hw') as [[[?|Hs%list_elem_of_singleton]%elem_of_app|?] ?]; rewrite elem_of_cons; auto.
      * intros w' [->|Hw']%elem_of_cons; [|by apply H4]. right. apply list_elem_of_fmap. exists w. split; [done|]. apply H5. set_solver.
      * intros w' Hw'. apply H5. set_solver.
Qed.

Lemma with_polling_eta s : with_polling (polling_remote_writes_ (inflight s)) s = s.
Proof. by destruct s as [? ? ? ? ? [] ? ? ? ? ? ?]. Qed.

Lemma claim_writes_spec s :
  let P := polling_remote_writes_ (inflight s) in
  let r := claim_writes s in
  r.2 = with_polling (list_to_set (ids_of r.1) ∪ P) s ∧ NoDup (ids_of r.1) ∧
  (forall w, w ∈ r.1 -> w ∈ active_remote_writes_ (inflight s) ∧ rw_operation_id w ∉ P) ∧
  (forall w, w ∈ active_remote_writes_ (inflight s) -> rw_operation_id w ∈ P ∨ rw_operation_id w ∈ ids_of r.1).
Proof.
  intros P r. pose proof (claim_loop s (active_remote_writes_ (inflight s)) [] P) as H. cbv zeta in H.
  cbn [ids_of fmap list_fmap list_to_set] in H. rewrite (left_id_L ∅ (∪)) in H. rewrite (with_polling_eta s : with_polling P s = s) in H.
  fold (claim_writes s) in H. fold r in H.
  destruct H as (H1 & H2 & H3 & H4 & _); [apply NoDup_nil_2|by intros w ?%elem_of_nil|].
  split_and!; [done|done| |done]. intros w Hw. destruct (H3 w Hw) as [[?%elem_of_nil|?] ?]; done.
Qed.

(** ** Evaluations *)

Definition empty_store b (m : Manager) : KVCacheStore :=
  mkStore b [] m false (node 1) (mkInflight [] [] [] [] ∅ ∅ ∅ ∅)
    (mkResults [] [] [] [] [] [] no_verdicts no_verdicts) ∅ [] [] false [].

Definition two_blocks : Backend :=
  HostOffload.run [HostOffload.OpInsertAndLock [[8]; [9]] (map (fun i => host_block (node 1) i HOST) [0; 1])]
    (HostOffload.create 2 None (node 1) true EmptyString).

Lemma two_blocks_wf : LRU.wf (HostOffload.lru_cache_ two_blocks).
Proof. apply HostOffload.backend_run_wf, LRU.create_wf. Qed.

(** A peer at which some blocks exist, and one that accepts. *)
Definition some_exist (q : HostOffload.WriteRemoteRequest) : StatusOr HostOffload.WriteRemoteResponse :=
  Ok (HostOffload.mkWriteResponse 0 HostOffload.WRITE_PARTIAL_EXIST [[9]] 0).
Definition accepts (q : HostOffload.WriteRemoteRequest) : StatusOr HostOffload.WriteRemoteResponse :=
  Ok (HostOffload.mkWriteResponse 77 HostOffload.WRITE_EXIST_STATE_UNSPECIFIED [] 20000).
Definition peer (id : RaidenId) : StatusOr string := Ok "peer"%string.

Lemma store_save_remote_witness :
  let save rpc := SaveRemote (fun _ => Ok []) peer rpc (Service.Seconds 30) 0 0 [[8]; [9]] (node 2) kApplication
                    (empty_store two_blocks (LBM.create 4)) in
  pins (ledger (save accepts).2) [8] = 2 ∧ pins (ledger (save some_exist).2) [8] = 1.
Proof.
  intros save. assert (Hok : (save accepts).1 = OkStatus ∧ (save some_exist).1 = OkStatus) by (split; vm_compute; reflexivity).
  destruct Hok as [Ha Hs].
  assert (Hpa : pins (ledger (empty_store two_blocks (LBM.create 4))) [8] = 1) by (vm_compute; reflexivity).
  destruct (store_save_remote (fun _ => Ok []) peer accepts (Service.Seconds 30) 0 0 [[8]; [9]] (node 2) kApplication
    (empty_store two_blocks (LBM.create 4)) two_blocks_wf) as (_ & _ & H1).
  destruct (store_save_remote (fun _ => Ok []) peer some_exist (Service.Seconds 30) 0 0 [[8]; [9]] (node 2) kApplication
    (empty_store two_blocks (LBM.create 4)) two_blocks_wf) as (_ & _ & H2).
  fold (save accepts) in H1. fold (save some_exist) in H2. rewrite Ha in H1. rewrite Hs in H2.
  destruct H1 as [[? _]|(_ & _ & _ & ids1 & ack1 & _ & [b1 Hb1] & _ & Hp1)]; [done|].
  destruct H2 as [[? _]|(_ & _ & _ & ids2 & ack2 & _ & [b2 Hb2] & _ & Hp2)]; [done|].
  rewrite Hp1, Hp2, Hpa. unfold HostOffload.BeginWriteRemote in Hb1, Hb2.
  destruct (_ =? 0)%nat in Hb1; [done|]. destruct (negb _) in Hb1; [done|]. destruct (_ =? 0)%nat in Hb2; [done|]. destruct (negb _) in Hb2; [done|].
  destruct (HostOffload.GetKVCacheStoreClient peer (node 2) b1) as [[?|] ?]; [|done].
  destruct (HostOffload.GetKVCacheStoreClient peer (node 2) b2) as [[?|] ?]; [|done].
  cbn in Hb1, Hb2. injection Hb1 as <-. injection Hb2 as <-. split; vm_compute; reflexivity.
Defined.

End StoreWrites.
