(* ===== verification/KVCacheStoreWriteSteps.v ===== *)
(** * Remote writes under every interleaving

    [Module WriteSteps]: the threads that offer, poll and settle remote writes, one step per
    critical section of [SaveRemote], [FinishRemoteWrite] and [PollRemoteWritesInternal],
    interleaved with each other, with drains of the mailboxes and with whatever else happens
    to the store.  The invariant says who holds which mark and which pin. *)

From S2P Require Import Prelude ReshardTypes StoreBackend LruCache LogicalBlockManager HostOffloadBackend HostOffloadLookup HostOffloadInsert HostOffloadPins KVCacheStoreService KVCacheStore KVCacheStoreWrites.
Import OffloadLookup OffloadInsert OffloadPins.

Module WriteSteps.
Import Store StoreWrites.

(** ** Threads *)

Inductive Thread : Type :=
  (** [SaveRemote] after its marks, with its internal pins or without *)
  | Offering (hs : list Hash) (dst : RaidenId) (owner : SaveOwner) (pinned : bool)
  (** [FinishRemoteWrite] with [n] calls of [Release] to go, inside a poller that has claimed
      [claimed] and has [todo] left (both empty inside [SaveRemote]) *)
  | Finishing (w : RemoteWriteState) (succeeded : bool) (existing unregistered : list Hash) (n : nat)
      (claimed todo : list RemoteWriteState)
  (** [PollRemoteWritesInternal] *)
  | Polling (claimed todo : list RemoteWriteState).

Record World : Type := mkWorld {
  store : KVCacheStore;
  threads : list Thread;
  (** the hashes accepted for, and read from the mailbox of, each owner *)
  submitted : SaveOwner -> list Hash;
  delivered : SaveOwner -> list Hash;
  (** of the delivered ones, those whose write succeeded *)
  saved : SaveOwner -> list Hash;
  (** the pins that everybody else has taken and not released, the callers of the writes
      included *)
  others : Hash -> Z
}.

Implicit Types (W : World) (t : Thread) (ts : list Thread) (s : KVCacheStore) (w : RemoteWriteState)
  (ws : list RemoteWriteState) (h : Hash) (hs : list Hash) (o : SaveOwner).

Definition releases (succeeded : bool) : nat := if succeeded then 2 else 1.

Definition recorded w : bool := negb (rw_operation_id w =? 0).

(** The hashes a thread has marked and no outstanding offer accounts for. *)
Definition thread_marks t : list Hash :=
  match t with
  | Offering hs _ _ _ => hs
  | Finishing w _ _ _ _ _ _ => if recorded w then [] else rw_block_hashes w
  | Polling _ _ => []
  end.

(** The pins (the caller's and the internal one) that a thread still relies on; what it has
    already released of an outstanding offer is taken off. *)
Definition thread_pins h t : Z :=
  match t with
  | Offering hs _ _ pinned => (if pinned then 2 else 1) * occ h hs
  | Finishing w succeeded _ _ n _ _ =>
      ((if succeeded then 0 else 1) + Z.of_nat n - if recorded w then 2 else 0) * occ h (rw_block_hashes w)
  | Polling _ _ => 0
  end.

Definition thread_claims t : list RemoteWriteState :=
  match t with Offering _ _ _ _ => [] | Finishing _ _ _ _ _ claimed _ => claimed | Polling claimed _ => claimed end.

(** The claimed offers a thread has yet to settle. *)
Definition thread_work t : list RemoteWriteState :=
  match t with
  | Offering _ _ _ _ => []
  | Finishing w _ _ _ _ _ todo => (if recorded w then [w] else []) ++ todo
  | Polling _ todo => todo
  end.

(** The hashes of accepted offers that were settled at once. *)
Definition thread_pending o t : list Hash :=
  match t with
  | Finishing w _ _ _ _ _ _ => if negb (recorded w) && bool_decide (rw_owner w = o) then rw_block_hashes w else []
  | _ => []
  end.

Definition wsum {A} (f : A -> Z) (l : list A) : Z := foldr (fun x n => f x + n) 0 l.

Definition active W : list RemoteWriteState := outstanding (ledger (store W)).
Definition owned W : list Hash := (active W ≫= rw_block_hashes) ++ (threads W ≫= thread_marks).
Definition held W h : Z := 
  wsum (fun w => 2 * occ h (rw_block_hashes w)) (active W) + wsum (thread_pins h) (threads W).
Definition pending W o : list Hash := filter (fun w => rw_owner w = o) (active W) ≫= rw_block_hashes.
Definition reported (v : RemoteWriteVerdicts) : list Hash := vd_done v ++ vd_failed v.

(** ** Steps *)

Definition with_store s W : World := mkWorld s (threads W) (submitted W) (delivered W) (saved W) (others W).
Definition with_threads ts W : World := mkWorld (store W) ts (submitted W) (delivered W) (saved W) (others W).
Definition submit o hs W : World :=
  mkWorld (store W) (threads W) (fun o' => if bool_decide (o' = o) then submitted W o' ++ hs else submitted W o') (delivered W) (saved W) (others W).
(** Somebody else moves: what that does to the pins is on their account. *)
Definition elsewhere s W : World :=
  mkWorld s (threads W) (submitted W) (delivered W) (saved W)
    (fun h => others W h + (pins (ledger s) h - pins (ledger (store W)) h)).

(** What the rest of the store and of the program may do: it releases no pin the writes rely
    on, and touches neither their marks nor their tables. *)
Definition rely W s' : Prop :=
  good s' ∧ (forall h, held W h <= pins (ledger s') h) ∧ list_to_set (owned W) ⊆ saving (ledger s') ∧
  outstanding (ledger s') = active W ∧ (forall o, mail (ledger s') o = mail (ledger (store W)) o) ∧
  polling_remote_writes_ (inflight s') = polling_remote_writes_ (inflight (store W)).

Definition drained o s : KVCacheStore :=
  on_results (match o with kApplication => set_application_remote_writes no_verdicts
                         | kSweep => set_sweep_remote_writes no_verdicts end) s.

Inductive step : World -> World -> Prop :=
  | step_rely W s' : rely W s' -> step W (elsewhere s' W)
  (** the marking section, complete or not; the caller holds a pin of its own on each block *)
  | step_mark W slices dst owner :
      let r := offer_blocks [] [] slices (store W) in
      (forall h, h ∈ r.1.2 -> held W h + 1 <= pins (ledger (store W)) h) ->
      step W (with_store r.2 (with_threads (threads W ++ [Offering r.1.2 dst owner false]) W))
  | step_pin W l1 l2 hs dst owner b :
      threads W = l1 ++ Offering hs dst owner false :: l2 -> HostOffload.Pin hs (tier0 (store W)) = (true, b) ->
      step W (with_store (set_tier0 b (store W)) (with_threads (l1 ++ Offering hs dst owner true :: l2) W))
  (** the two halves of the rollback *)
  | step_unpin W l1 l2 hs dst owner :
      threads W = l1 ++ Offering hs dst owner true :: l2 ->
      step W (with_store (set_tier0 (HostOffload.Release hs (tier0 (store W))) (store W))
                (with_threads (l1 ++ Offering hs dst owner false :: l2) W))
  | step_unmark W l1 l2 hs dst owner :
      threads W = l1 ++ Offering hs dst owner false :: l2 ->
      step W (with_store (clear_saving hs (store W)) (with_threads (l1 ++ l2) W))
  (** the peer has all or some of the blocks *)
  | step_exist W l1 l2 hs dst owner expiry succeeded existing :
      threads W = l1 ++ Offering hs dst owner true :: l2 ->
      step W (submit owner hs
        (with_threads (l1 ++ Finishing (mkWrite dst 0 hs expiry owner) succeeded existing [] (releases succeeded) [] [] :: l2) W))
  (** the peer accepted, under an operation id of its own *)
  | step_record W l1 l2 hs dst owner expiry id :
      threads W = l1 ++ Offering hs dst owner true :: l2 -> id ≠ 0 -> id ∉ ids_of (active W) ->
      step W (submit owner hs
        (with_store (on_inflight (fun a => set_active_remote_writes (active_remote_writes_ a ++ [mkWrite dst id hs expiry owner]) a) (store W))
           (with_threads (l1 ++ l2) W)))
  | step_claim W :
      let r := claim_writes (store W) in
      step W (with_store r.2 (with_threads (threads W ++ [Polling r.1 r.1]) W))
  (** the answer to a poll: none yet, or a verdict *)
  | step_wait W l1 l2 claimed w todo :
      threads W = l1 ++ Polling claimed (w :: todo) :: l2 ->
      step W (with_threads (l1 ++ Polling claimed todo :: l2) W)
  | step_verdict W l1 l2 claimed w todo succeeded existing unregistered :
      threads W = l1 ++ Polling claimed (w :: todo) :: l2 ->
      step W (with_threads (l1 ++ Finishing w succeeded existing unregistered (releases succeeded) claimed todo :: l2) W)
  | step_release W l1 l2 w succeeded existing unregistered n claimed todo :
      threads W = l1 ++ Finishing w succeeded existing unregistered (S n) claimed todo :: l2 ->
      step W (with_store (set_tier0 (HostOffload.Release (rw_block_hashes w) (tier0 (store W))) (store W))
                (with_threads (l1 ++ Finishing w succeeded existing unregistered n claimed todo :: l2) W))
  | step_settle W l1 l2 w succeeded existing unregistered claimed todo :
      threads W = l1 ++ Finishing w succeeded existing unregistered 0 claimed todo :: l2 ->
      step W (with_store (settle_write w succeeded existing unregistered (store W))
                (with_threads (l1 ++ Polling claimed todo :: l2) W))
  | step_done W l1 l2 claimed :
      threads W = l1 ++ Polling claimed [] :: l2 ->
      step W (with_store (release_claims claimed (store W)) (with_threads (l1 ++ l2) W))
  (** an owner reads its mailbox *)
  | step_drain W o :
      step W (mkWorld (drained o (store W)) (threads W) (submitted W)
        (fun o' => if bool_decide (o' = o) then delivered W o' ++ reported (mail (ledger (store W)) o') else delivered W o')
        (fun o' => if bool_decide (o' = o) then saved W o' ++ vd_done (mail (ledger (store W)) o') else saved W o') (others W)).

(** ** The invariant *)

Record inv W : Prop := {
  inv_good : good (store W);
  inv_pins h : held W h <= pins (ledger (store W)) h;
  inv_owned : NoDup (owned W);
  inv_marks h : h ∈ owned W -> h ∈ saving (ledger (store W));
  inv_ids : NoDup (ids_of (active W));
  inv_nonzero w : w ∈ active W -> rw_operation_id w ≠ 0;
  inv_claims : NoDup (ids_of (threads W ≫= thread_claims));
  inv_claimed i : i ∈ ids_of (threads W ≫= thread_claims) -> i ∈ polling_remote_writes_ (inflight (store W));
  inv_work_claimed t : t ∈ threads W -> ids_of (thread_work t) ⊆ ids_of (thread_claims t);
  inv_work : NoDup (ids_of (threads W ≫= thread_work));
  inv_work_active w : w ∈ (threads W ≫= thread_work) -> w ∈ active W;
  inv_account o h : occ h (submitted W o) =
    occ h (pending W o) + occ h (threads W ≫= thread_pending o) + occ h (reported (mail (ledger (store W)) o)) + occ h (delivered W o)
}.

(** ** Lists of threads *)

Lemma wsum_app {A} (f : A -> Z) l1 l2 : wsum f (l1 ++ l2) = wsum f l1 + wsum f l2.
Proof. unfold wsum. induction l1 as [|x l1 IH]; cbn; [done|]. rewrite IH. lia. Qed.
Lemma wsum_cons {A} (f : A -> Z) x l : wsum f (x :: l) = f x + wsum f l.
Proof. done. Qed.
Lemma wsum_nil {A} (f : A -> Z) : wsum f [] = 0.
Proof. done. Qed.

Lemma bind_mid {A B} (f : A -> list B) l1 x l2 : (l1 ++ x :: l2) ≫= f = (l1 ≫= f) ++ f x ++ (l2 ≫= f).
Proof. by rewrite bind_app. Qed.
Lemma ids_app ws1 ws2 : ids_of (ws1 ++ ws2) = ids_of ws1 ++ ids_of ws2.
Proof. apply fmap_app. Qed.

(** Removing the offer with a given id from a list without duplicate ids. *)
Lemma filter_one (ws : list RemoteWriteState) w : NoDup (ids_of ws) -> w ∈ ws ->
  exists l1 l2, ws = l1 ++ w :: l2 ∧ filter (fun w' => rw_operation_id w' ≠ rw_operation_id w) ws = l1 ++ l2.
Proof.
  intros Hnd [l1 [l2 ->]]%list_elem_of_split. exists l1, l2. split; [done|]. rewrite ids_app in Hnd.
  cbn in Hnd. apply NoDup_app in Hnd as (_ & Hd & [Hn _]%NoDup_cons).
  assert (Hk : forall l : list RemoteWriteState, (forall x, x ∈ l -> rw_operation_id x ≠ rw_operation_id w) ->
            filter (fun w' => rw_operation_id w' ≠ rw_operation_id w) l = l).
  { induction l as [|x l IH]; [done|]. intros Hx. rewrite filter_cons, decide_True by (apply Hx; set_solver).
    f_equal. apply IH. set_solver. }
  rewrite filter_app, filter_cons, decide_False by tauto. f_equal; apply Hk; intros x Hx E.
  - apply (Hd (rw_operation_id x)); [by apply list_elem_of_fmap_2|]. rewrite E. set_solver.
  - apply Hn. rewrite <-E. by apply list_elem_of_fmap_2.
Qed.

Lemma drop_absent (ws : list RemoteWriteState) i : i ∉ ids_of ws ->
  filter (fun w' => rw_operation_id w' ≠ i) ws = ws.
Proof.
  induction ws as [|x ws IH]; [done|]. unfold ids_of. rewrite fmap_cons. fold (ids_of ws). intros Hi. rewrite filter_cons, decide_True by set_solver.
  f_equal. apply IH. set_solver.
Qed.

Lemma recorded_true w : recorded w = true <-> rw_operation_id w ≠ 0.
Proof. unfold recorded. rewrite negb_true_iff, Z.eqb_neq. done. Qed.

(** ** Marks, claims and accounts *)

(** A mark outside the marked hashes survives. *)
Lemma saving_clear hs s h : h ∈ saving (ledger s) -> h ∉ hs -> h ∈ saving (ledger (clear_saving hs s)).
Proof.
  intros Hs Hn. cbn [ledger saving clear_saving on_inflight inflight set_inflight saving_hashes_ set_saving_hashes] in *.
  by rewrite elem_of_difference, elem_of_list_to_set.
Qed.

Lemma occ_mail_settle w succeeded existing unregistered s o h :
  occ h (reported (mail (ledger (settle_write w succeeded existing unregistered s)) o)) =
  occ h (reported (mail (ledger s) o)) + if bool_decide (o = rw_owner w) then occ h (rw_block_hashes w) else 0.
Proof.
  destruct (ledger_settle_write w succeeded existing unregistered s) as (_ & _ & _ & _ & Hm). rewrite Hm. cbn [mail].
  unfold reported. case_bool_decide; [|lia]. unfold add_verdicts. cbn [vd_done vd_failed].
  destruct succeeded; rewrite ?app_nil_r, !occ_app; lia.
Qed.

Lemma pending_app ws1 ws2 o h :
  occ h (filter (fun w => rw_owner w = o) (ws1 ++ ws2) ≫= rw_block_hashes) =
  occ h (filter (fun w => rw_owner w = o) ws1 ≫= rw_block_hashes) + occ h (filter (fun w => rw_owner w = o) ws2 ≫= rw_block_hashes).
Proof. by rewrite filter_app, bind_app, occ_app. Qed.

Lemma pending_one w ws o h :
  occ h (filter (fun w => rw_owner w = o) (w :: ws) ≫= rw_block_hashes) =
  (if bool_decide (o = rw_owner w) then occ h (rw_block_hashes w) else 0) + occ h (filter (fun w => rw_owner w = o) ws ≫= rw_block_hashes).
Proof.
  rewrite filter_cons. destruct (decide (rw_owner w = o)) as [E|E].
  - rewrite bool_decide_eq_true_2 by done. by rewrite bind_cons, occ_app.
  - rewrite bool_decide_eq_false_2 by congruence. lia.
Qed.

(** ** Steps that keep the tables *)

Definition same_tables s s' : Prop :=
  saving (ledger s') = saving (ledger s) ∧ outstanding (ledger s') = outstanding (ledger s) ∧
  (forall o, mail (ledger s') o = mail (ledger s) o) ∧
  polling_remote_writes_ (inflight s') = polling_remote_writes_ (inflight s).

Lemma same_tables_tier0 b s : same_tables s (set_tier0 b s).
Proof. by repeat split. Qed.

(** One thread moves on: its marks and claims stay, it may have less work, the pins follow. *)
Lemma inv_swap W l1 t l2 t' x s' sub' : inv W -> threads W = l1 ++ t :: l2 ->
  good s' -> same_tables (store W) s' ->
  thread_marks t' = thread_marks t -> thread_claims t' = thread_claims t -> thread_work t = x ++ thread_work t' ->
  (forall h, pins (ledger (store W)) h - thread_pins h t <= pins (ledger s') h - thread_pins h t') ->
  (forall o h, occ h (sub' o) = occ h (submitted W o) + occ h (thread_pending o t') - occ h (thread_pending o t)) ->
  inv (mkWorld s' (l1 ++ t' :: l2) sub' (delivered W) (saved W) (others W)).
Proof.
  intros [Hg Hpin Hown Hmark Hids Hnz Hcl Hcd Hwc Hwk Hwa Hacc] Ht Hg' (E1 & E2 & E3 & E4) Em Ec Ew Hp Hsub.
  unfold owned, held, pending, active in *. rewrite Ht in *. rewrite !bind_mid in *. rewrite Ew in Hwk, Hwa.
  split; unfold owned, held, pending, active; cbn [store threads submitted delivered]; rewrite ?E1, ?E2, ?E4, ?bind_mid, ?Em, ?Ec; try done.
  - intros h. specialize (Hpin h). specialize (Hp h). rewrite !wsum_app, !wsum_cons in *. lia.
  - intros t0 Ht0. assert (t0 ∈ l1 ++ t :: l2 ∨ t0 = t') as [H|H] by set_solver; [by apply Hwc|]. subst t0. rewrite Ec.
    specialize (Hwc t ltac:(set_solver)). rewrite Ew, ids_app in Hwc. set_solver.
  - rewrite !ids_app in *. apply NoDup_app in Hwk as (? & Hd & H2). apply NoDup_app in H2 as (H2 & Hd2 & ?).
    apply NoDup_app in H2 as (? & ? & ?). apply NoDup_app. split_and!; [done|set_solver|].
    apply NoDup_app. split_and!; [done|set_solver|done].
  - intros w Hw. apply Hwa. set_solver.
  - intros o h. rewrite Hsub, Hacc, !bind_mid, !occ_app, E3. lia.
Qed.

Lemma inv_pin W l1 l2 hs dst owner b : inv W -> threads W = l1 ++ Offering hs dst owner false :: l2 ->
  HostOffload.Pin hs (tier0 (store W)) = (true, b) ->
  inv (with_store (set_tier0 b (store W)) (with_threads (l1 ++ Offering hs dst owner true :: l2) W)).
Proof.
  intros Hinv Ht Hp. destruct (Pin_spec hs (tier0 (store W)) (inv_good W Hinv)) as (_ & Hwf & _ & Hpins). rewrite Hp in Hwf, Hpins.
  eapply (inv_swap W _ _ _ _ []); try done.
  - intros h. specialize (Hpins h). cbn [ledger pins tier0 set_tier0 thread_pins fst snd] in *. rewrite Hpins. lia.
  - intros o h. cbn. rewrite occ_nil. lia.
Qed.

Lemma release_pins_bound hs s h : good s ->
  pins (ledger s) h - occ h hs <= pins (ledger (set_tier0 (HostOffload.Release hs (tier0 s)) s)) h.
Proof. intros Hg. destruct (ledger_release hs s Hg) as (_ & -> & _). cbn [pins]. lia. Qed.

Lemma inv_unpin W l1 l2 hs dst owner : inv W -> threads W = l1 ++ Offering hs dst owner true :: l2 ->
  inv (with_store (set_tier0 (HostOffload.Release hs (tier0 (store W))) (store W))
         (with_threads (l1 ++ Offering hs dst owner false :: l2) W)).
Proof.
  intros Hinv Ht. pose proof (inv_good W Hinv) as Hg.
  eapply (inv_swap W _ _ _ _ []); try done; [by apply good_release| |].
  - intros h. pose proof (release_pins_bound hs (store W) h Hg). cbn [thread_pins]. lia.
  - intros o h. cbn. rewrite occ_nil. lia.
Qed.

Lemma inv_release W l1 l2 w succeeded ex un n claimed todo : inv W ->
  threads W = l1 ++ Finishing w succeeded ex un (S n) claimed todo :: l2 ->
  inv (with_store (set_tier0 (HostOffload.Release (rw_block_hashes w) (tier0 (store W))) (store W))
         (with_threads (l1 ++ Finishing w succeeded ex un n claimed todo :: l2) W)).
Proof.
  intros Hinv Ht. pose proof (inv_good W Hinv) as Hg.
  eapply (inv_swap W _ _ _ _ []); try done; [by apply good_release| |].
  - intros h. pose proof (release_pins_bound (rw_block_hashes w) (store W) h Hg). cbn [thread_pins]. lia.
  - intros o h. cbn [thread_pending submitted with_store with_threads]. lia.
Qed.

Lemma inv_exist W l1 l2 hs dst owner expiry succeeded ex : inv W ->
  threads W = l1 ++ Offering hs dst owner true :: l2 ->
  inv (submit owner hs
    (with_threads (l1 ++ Finishing (mkWrite dst 0 hs expiry owner) succeeded ex [] (releases succeeded) [] [] :: l2) W)).
Proof.
  intros Hinv Ht. eapply (inv_swap W _ _ _ _ []); try done; [apply Hinv| |].
  - intros h. cbn [thread_pins recorded rw_operation_id negb Z.eqb rw_block_hashes]. destruct succeeded; cbn [releases store with_threads with_store]; lia.
  - intros o h. cbn [thread_pending recorded rw_operation_id negb Z.eqb rw_block_hashes rw_owner andb submit submitted with_threads].
    rewrite occ_nil. destruct (decide (o = owner)) as [->|Hne].
    + rewrite !bool_decide_eq_true_2 by done. rewrite occ_app. lia.
    + rewrite !bool_decide_eq_false_2 by congruence. rewrite occ_nil. lia.
Qed.

Lemma inv_wait W l1 l2 claimed w todo : inv W -> threads W = l1 ++ Polling claimed (w :: todo) :: l2 ->
  inv (with_threads (l1 ++ Polling claimed todo :: l2) W).
Proof.
  intros Hinv Ht. eapply (inv_swap W _ _ _ _ [w]); try done; [apply Hinv|]. intros o h. cbn. rewrite occ_nil. lia.
Qed.

Lemma inv_verdict W l1 l2 claimed w todo succeeded ex un : inv W ->
  threads W = l1 ++ Polling claimed (w :: todo) :: l2 ->
  inv (with_threads (l1 ++ Finishing w succeeded ex un (releases succeeded) claimed todo :: l2) W).
Proof.
  intros Hinv Ht. assert (Hr : recorded w = true).
  { apply recorded_true, (inv_nonzero W Hinv), (inv_work_active W Hinv). rewrite Ht, bind_mid. cbn. set_solver. }
  eapply (inv_swap W _ _ _ _ []); try done; cbn [thread_marks thread_work]; try (by rewrite Hr); [apply Hinv| |].
  - intros h. cbn [thread_pins]. rewrite Hr. destruct succeeded; cbn [releases]; lia.
  - intros o h. cbn [thread_pending]. rewrite Hr. cbn. rewrite occ_nil. lia.
Qed.

(** ** Steps on the tables *)

Lemma inv_rely W s' : inv W -> rely W s' -> inv (elsewhere s' W).
Proof.
  intros [Hg Hpin Hown Hmark Hids Hnz Hcl Hcd Hwc Hwk Hwa Hacc] (Hg' & Hp & Hs & Ho & Hm & HP).
  unfold owned, held, pending, active in *.
  split; unfold owned, held, pending, active; cbn [store threads submitted delivered elsewhere]; rewrite ?Ho, ?HP; try done.
  - set_solver.
  - intros o h. by rewrite Hm, Hacc.
Qed.

Lemma inv_mark W slices dst owner : inv W ->
  let r := offer_blocks [] [] slices (store W) in
  (forall h, h ∈ r.1.2 -> held W h + 1 <= pins (ledger (store W)) h) ->
  inv (with_store r.2 (with_threads (threads W ++ [Offering r.1.2 dst owner false]) W)).
Proof.
  intros [Hg Hpin Hown Hmark Hids Hnz Hcl Hcd Hwc Hwk Hwa Hacc] r Hcall.
  pose proof (offer_blocks_spec [] [] slices (store W)) as H. rewrite mark_saving_nil in H.
  destruct H as (Hs & Hnd & Hfresh & _); [apply NoDup_nil_2|by intros h ?%elem_of_nil|].
  fold r in Hs, Hnd, Hfresh. rewrite Hs. clear Hs. generalize dependent (r.1.2). clear r. intros marked Hcall Hnd Hfresh.
  unfold owned, held, pending, active in *.
  split; unfold owned, held, pending, active; cbn [store threads submitted delivered with_store with_threads];
    rewrite ?bind_app; cbn [mbind list_bind thread_marks thread_claims thread_work thread_pending]; rewrite ?app_nil_r; try done.
  - intros h. cbn [ledger outstanding pins tier0 inflight mark_saving on_inflight set_inflight active_remote_writes_ set_saving_hashes] in *.
    rewrite wsum_app, wsum_cons, wsum_nil. cbn [thread_pins]. specialize (Hpin h). specialize (Hcall h).
    destruct (decide (h ∈ marked)) as [Hin|Hin]; [rewrite occ_NoDup by done; specialize (Hcall Hin); lia|rewrite occ_zero by done; lia].
  - rewrite (assoc_L (++)). apply NoDup_app. split_and!; [done| |done]. intros h Hh Hm. by apply (Hfresh h Hm), Hmark.
  - intros h Hh. cbn [ledger saving inflight mark_saving on_inflight set_inflight saving_hashes_ set_saving_hashes] in *.
    rewrite elem_of_union, elem_of_list_to_set. rewrite (assoc_L (++)) in Hh. apply elem_of_app in Hh as [Hh|Hh]; [right; by apply Hmark|by left].
  - intros t [Ht|Ht%list_elem_of_singleton]%elem_of_app; [by apply Hwc|]. by subst t.
  - intros o h. rewrite bind_app. cbn [mbind list_bind thread_pending app]. rewrite app_nil_r. apply Hacc.
Qed.

Lemma inv_unmark W l1 l2 hs dst owner : inv W -> threads W = l1 ++ Offering hs dst owner false :: l2 ->
  inv (with_store (clear_saving hs (store W)) (with_threads (l1 ++ l2) W)).
Proof.
  intros [Hg Hpin Hown Hmark Hids Hnz Hcl Hcd Hwc Hwk Hwa Hacc] Ht.
  unfold owned, held, pending, active in *. rewrite Ht in *. rewrite !bind_mid in *. cbn [thread_marks thread_claims thread_work app] in *.
  assert (Hown' : NoDup ((outstanding (ledger (store W)) ≫= rw_block_hashes) ++ (l1 ≫= thread_marks) ++ (l2 ≫= thread_marks)) ∧
    forall h, h ∈ (outstanding (ledger (store W)) ≫= rw_block_hashes) ++ (l1 ≫= thread_marks) ++ (l2 ≫= thread_marks) -> h ∉ hs).
  { assert (Hperm : (outstanding (ledger (store W)) ≫= rw_block_hashes) ++ (l1 ≫= thread_marks) ++ hs ++ (l2 ≫= thread_marks) ≡ₚ
      hs ++ (outstanding (ledger (store W)) ≫= rw_block_hashes) ++ (l1 ≫= thread_marks) ++ (l2 ≫= thread_marks)) by solve_Permutation.
    rewrite Hperm in Hown. apply NoDup_app in Hown as (_ & Hd & ?). split; [done|]. intros h Hh Hin. by apply (Hd h). }
  destruct Hown' as [Hown' Hout].
  split; unfold owned, held, pending, active; cbn [store threads submitted delivered with_store with_threads]; rewrite ?bind_app; try done.
  - intros h. specialize (Hpin h). rewrite !wsum_app, wsum_cons in *. cbn [thread_pins] in Hpin.
    pose proof (occ_nonneg h hs). change (pins (ledger (clear_saving hs (store W))) h) with (pins (ledger (store W)) h).
    change (outstanding (ledger (clear_saving hs (store W)))) with (outstanding (ledger (store W))). lia.
  - intros h Hh. apply saving_clear; [apply Hmark; set_solver|by apply Hout].
  - intros t H. apply Hwc. set_solver.
  - intros o h. rewrite Hacc, bind_mid, bind_app, !occ_app. cbn [thread_pending]. rewrite occ_nil.
    change (outstanding (ledger (clear_saving hs (store W)))) with (outstanding (ledger (store W))).
    change (mail (ledger (clear_saving hs (store W)))) with (mail (ledger (store W))). lia.
Qed.

Lemma inv_record W l1 l2 hs dst owner expiry id : inv W -> threads W = l1 ++ Offering hs dst owner true :: l2 ->
  id ≠ 0 -> id ∉ ids_of (active W) ->
  inv (submit owner hs
    (with_store (on_inflight (fun a => set_active_remote_writes (active_remote_writes_ a ++ [mkWrite dst id hs expiry owner]) a) (store W))
       (with_threads (l1 ++ l2) W))).
Proof.
  intros [Hg Hpin Hown Hmark Hids Hnz Hcl Hcd Hwc Hwk Hwa Hacc] Ht Hid Hnew. set (w := mkWrite dst id hs expiry owner).
  set (s' := on_inflight _ _). assert (HO : outstanding (ledger s') = outstanding (ledger (store W)) ++ [w]) by done.
  unfold owned, held, pending, active in *. rewrite Ht in *. rewrite !bind_mid in *. cbn [thread_marks thread_claims thread_work app] in *.
  assert (Hperm : ((outstanding (ledger (store W)) ++ [w]) ≫= rw_block_hashes) ++ (l1 ≫= thread_marks) ++ (l2 ≫= thread_marks) ≡ₚ
    (outstanding (ledger (store W)) ≫= rw_block_hashes) ++ (l1 ≫= thread_marks) ++ hs ++ (l2 ≫= thread_marks)).
  { rewrite bind_app. cbn. rewrite app_nil_r. solve_Permutation. }
  split; unfold owned, held, pending, active; cbn [store threads submitted delivered with_store with_threads submit]; rewrite ?bind_app, ?HO; try done.
  - intros h. specialize (Hpin h). rewrite !wsum_app, !wsum_cons, wsum_nil in *. cbn [thread_pins rw_block_hashes w] in *.
    change (pins (ledger s') h) with (pins (ledger (store W)) h). lia.
  - by rewrite Hperm.
  - intros h Hh. apply Hmark. by rewrite <-Hperm.
  - rewrite ids_app. apply NoDup_app. split_and!; [done| |apply NoDup_singleton].
    intros i Hi ->%list_elem_of_singleton. done.
  - intros w0 [Hw0|Hw0%list_elem_of_singleton]%elem_of_app; [by apply Hnz|]. by subst w0.
  - intros t H. apply Hwc. set_solver.
  - intros w0 Hw0. apply elem_of_app. left. by apply Hwa.
  - intros o h. rewrite pending_app, pending_one, filter_nil. cbn [rw_owner rw_block_hashes w mbind list_bind]. rewrite occ_nil.
    specialize (Hacc o h). rewrite bind_mid in Hacc. cbn [thread_pending app] in Hacc. rewrite bind_app. rewrite !occ_app in *.
    change (mail (ledger s')) with (mail (ledger (store W))).
    destruct (bool_decide (o = owner)); rewrite ?occ_app; lia.
Qed.

Lemma inv_claim W : inv W ->
  let r := claim_writes (store W) in
  inv (with_store r.2 (with_threads (threads W ++ [Polling r.1 r.1]) W)).
Proof.
  intros [Hg Hpin Hown Hmark Hids Hnz Hcl Hcd Hwc Hwk Hwa Hacc] r.
  destruct (claim_writes_spec (store W)) as (Hs & Hnd & Hin & _). fold r in Hs, Hnd, Hin. rewrite Hs.
  clear Hs. generalize dependent (r.1). clear r. intros tp Hnd Hin. unfold owned, held, pending, active in *.
  assert (Hfresh : forall i, i ∈ ids_of tp -> i ∉ polling_remote_writes_ (inflight (store W))).
  { intros i (w & -> & Hw)%list_elem_of_fmap. by apply Hin. }
  assert (Hsub : ids_of (threads W ≫= thread_work) ⊆ ids_of (threads W ≫= thread_claims)).
  { intros i (w & -> & (t & Hw & Ht)%list_elem_of_bind)%list_elem_of_fmap.
    pose proof (Hwc t Ht (rw_operation_id w) ltac:(by apply list_elem_of_fmap_2)) as (w' & E & Hw')%list_elem_of_fmap.
    rewrite E. apply list_elem_of_fmap_2, list_elem_of_bind. eauto. }
  split; unfold owned, held, pending, active; cbn [store threads submitted delivered with_store with_threads];
    rewrite ?bind_app; cbn [mbind list_bind thread_marks thread_claims thread_work thread_pending]; rewrite ?app_nil_r; try done.
  - intros h. specialize (Hpin h). rewrite wsum_app, wsum_cons, wsum_nil. cbn [thread_pins].
    change (pins (ledger (with_polling ?x ?s)) h) with (pins (ledger s) h).
    change (outstanding (ledger (with_polling ?x ?s))) with (outstanding (ledger s)). lia.
  - rewrite ids_app. apply NoDup_app. split_and!; [done| |done]. intros i Hi Hi'. by apply (Hfresh i Hi'), Hcd.
  - intros i Hi. cbn [inflight with_polling on_inflight set_inflight polling_remote_writes_ set_polling_remote_writes].
    rewrite ids_app in Hi. rewrite elem_of_union, elem_of_list_to_set. apply elem_of_app in Hi as [Hi|Hi]; [right; by apply Hcd|by left].
  - intros t [Ht|Ht%list_elem_of_singleton]%elem_of_app; [by apply Hwc|]. by subst t.
  - rewrite ids_app. apply NoDup_app. split_and!; [done| |done]. intros i Hi Hi'. by apply (Hfresh i Hi'), Hcd, Hsub.
  - intros w [Hw|Hw]%elem_of_app; [by apply Hwa|by apply Hin].
  - intros o h. rewrite bind_app. cbn [mbind list_bind thread_pending app]. rewrite app_nil_r. apply Hacc.
Qed.

(** Taking a settled offer off the table. *)
Lemma settle_active ws w : NoDup (ids_of ws) -> (forall x, x ∈ ws -> rw_operation_id x ≠ 0) -> (recorded w = true -> w ∈ ws) ->
  let ws' := filter (fun w' => rw_operation_id w' ≠ rw_operation_id w) ws in
  let out := if recorded w then [w] else [] in
  ws ≡ₚ out ++ ws' ∧ (forall x, x ∈ ws' <-> x ∈ ws ∧ rw_operation_id x ≠ rw_operation_id w).
Proof.
  intros Hnd Hnz Hin ws' out. split.
  - unfold out. destruct (recorded w) eqn:Er.
    + destruct (filter_one ws w Hnd (Hin eq_refl)) as (l1 & l2 & -> & E). unfold ws'. rewrite E. solve_Permutation.
    + unfold ws'. rewrite drop_absent; [done|]. intros (x & Ex & Hx)%list_elem_of_fmap. apply (Hnz x Hx).
      rewrite <-Ex. unfold recorded in Er. apply negb_false_iff, Z.eqb_eq in Er. done.
  - intros x. unfold ws'. rewrite list_elem_of_filter. tauto.
Qed.

Lemma wsum_perm {A} (f : A -> Z) l1 l2 : l1 ≡ₚ l2 -> wsum f l1 = wsum f l2.
Proof. unfold wsum. induction 1; cbn in *; lia. Qed.

Lemma pending_perm ws1 ws2 o h : ws1 ≡ₚ ws2 ->
  occ h (filter (fun w => rw_owner w = o) ws1 ≫= rw_block_hashes) = occ h (filter (fun w => rw_owner w = o) ws2 ≫= rw_block_hashes).
Proof. intros E. apply occ_perm. by rewrite E. Qed.

Lemma inv_settle W l1 l2 w succeeded ex un claimed todo : inv W ->
  threads W = l1 ++ Finishing w succeeded ex un 0 claimed todo :: l2 ->
  inv (with_store (settle_write w succeeded ex un (store W)) (with_threads (l1 ++ Polling claimed todo :: l2) W)).
Proof.
  intros [Hg Hpin Hown Hmark Hids Hnz Hcl Hcd Hwc Hwk Hwa Hacc] Ht. set (s' := settle_write _ _ _ _ _).
  unfold owned, held, pending, active in *. rewrite Ht in *. rewrite !bind_mid in *. cbn [thread_claims thread_work thread_marks] in *.
  assert (Hin : recorded w = true -> w ∈ outstanding (ledger (store W))).
  { intros Hr. apply Hwa. rewrite Hr. set_solver. }
  destruct (settle_active _ w Hids Hnz Hin) as [Hperm Hmem]. set (ws := outstanding (ledger (store W))) in *.
  set (ws' := filter _ ws) in *. set (out := if recorded w then [w] else []) in *.
  assert (HO : outstanding (ledger s') = ws') by done. clearbody ws'.
  assert (Hhs : (ws ≫= rw_block_hashes) ++ (l1 ≫= thread_marks) ++ (if recorded w then [] else rw_block_hashes w) ++ (l2 ≫= thread_marks)
    ≡ₚ rw_block_hashes w ++ (ws' ≫= rw_block_hashes) ++ (l1 ≫= thread_marks) ++ (l2 ≫= thread_marks)).
  { rewrite Hperm. unfold out. destruct (recorded w); rewrite bind_app; cbn; rewrite ?app_nil_r; solve_Permutation. }
  rewrite Hhs in Hown. apply NoDup_app in Hown as (_ & Hdis & Hown).
  split; unfold owned, held, pending, active; cbn [store threads submitted delivered with_store with_threads];
    rewrite ?HO, ?bind_mid; cbn [thread_marks thread_claims thread_work app]; try done.
  - intros h. specialize (Hpin h). change (pins (ledger s') h) with (pins (ledger (store W)) h).
    rewrite (wsum_perm _ _ _ Hperm) in Hpin. rewrite !wsum_app, !wsum_cons in *. cbn [thread_pins] in *.
    pose proof (occ_nonneg h (rw_block_hashes w)). unfold out in Hpin.
    destruct (recorded w), succeeded; rewrite ?wsum_cons, ?wsum_nil in Hpin; lia.
  - intros h Hh. apply saving_clear; [apply Hmark; rewrite Hhs; set_solver|]. intros Hx. by apply (Hdis h).
  - assert (Hp : ids_of ws ≡ₚ ids_of (out ++ ws')) by (unfold ids_of; by rewrite Hperm).
    rewrite Hp, ids_app in Hids. by apply NoDup_app in Hids as (_ & _ & ?).
  - intros x Hx. apply Hnz. rewrite Hperm. set_solver.
  - intros t [Hx|[->|Hx]%elem_of_cons]%elem_of_app; [apply Hwc; set_solver| |apply Hwc; set_solver].
    specialize (Hwc (Finishing w succeeded ex un 0 claimed todo) ltac:(set_solver)). cbn [thread_work thread_claims] in *.
    rewrite ids_app in Hwc. set_solver.
  - rewrite !ids_app in *. apply NoDup_app in Hwk as (? & Hd & H2). apply NoDup_app in H2 as (H2 & Hd2 & ?).
    apply NoDup_app in H2 as (? & ? & ?). apply NoDup_app. split_and!; [done|set_solver|].
    apply NoDup_app. split_and!; [done|set_solver|done].
  - intros x Hx. apply Hmem. split; [apply Hwa; set_solver|]. intros E. destruct (recorded w) eqn:Er.
    + rewrite !ids_app in Hwk. cbn [ids_of fmap list_fmap app] in Hwk.
      assert (Hk : ids_of (l1 ≫= thread_work) ++ (rw_operation_id w :: ids_of todo) ++ ids_of (l2 ≫= thread_work) ≡ₚ
        rw_operation_id w :: ids_of ((l1 ≫= thread_work) ++ todo ++ (l2 ≫= thread_work))) by (rewrite !ids_app; solve_Permutation).
      unfold out in Hwk. cbn [fmap list_fmap] in Hwk. rewrite Hk in Hwk. apply NoDup_cons in Hwk as [Hn _].
      apply Hn. rewrite <-E. by apply list_elem_of_fmap_2.
    + unfold recorded in Er. apply negb_false_iff, Z.eqb_eq in Er. apply (Hnz x); [apply Hwa; set_solver|congruence].
  - intros o h. specialize (Hacc o h). rewrite bind_mid in *. rewrite (pending_perm _ _ o h Hperm), pending_app in Hacc.
    rewrite !occ_app in *. unfold s'. rewrite occ_mail_settle. cbn [thread_pending] in *. rewrite occ_nil.
    unfold out in Hacc. destruct (recorded w); cbn [negb andb] in Hacc.
    + rewrite pending_one, filter_nil in Hacc. cbn [mbind list_bind] in Hacc. rewrite !occ_nil in Hacc. lia.
    + rewrite filter_nil in Hacc. cbn [mbind list_bind] in Hacc. rewrite occ_nil in Hacc.
      destruct (decide (o = rw_owner w)) as [->|Hne].
      * rewrite !bool_decide_eq_true_2 in * by done. lia.
      * rewrite !bool_decide_eq_false_2 in * by congruence. rewrite occ_nil in Hacc. lia.
Qed.

Lemma inv_done W l1 l2 claimed : inv W -> threads W = l1 ++ Polling claimed [] :: l2 ->
  inv (with_store (release_claims claimed (store W)) (with_threads (l1 ++ l2) W)).
Proof.
  intros [Hg Hpin Hown Hmark Hids Hnz Hcl Hcd Hwc Hwk Hwa Hacc] Ht.
  unfold owned, held, pending, active in *. rewrite Ht in *. rewrite !bind_mid in *.
  cbn [thread_claims thread_work thread_marks app] in *.
  assert (Hperm : ids_of ((l1 ≫= thread_claims) ++ claimed ++ (l2 ≫= thread_claims)) ≡ₚ
                  ids_of claimed ++ ids_of ((l1 ≫= thread_claims) ++ (l2 ≫= thread_claims)))
    by (rewrite !ids_app; solve_Permutation).
  rewrite Hperm in Hcl. apply NoDup_app in Hcl as (_ & Hdis & Hcl).
  split; unfold owned, held, pending, active; cbn [store threads submitted delivered with_store with_threads]; rewrite ?bind_app; try done.
  - intros h. specialize (Hpin h). rewrite !wsum_app, wsum_cons in *. cbn [thread_pins] in Hpin.
    change (ledger (release_claims claimed (store W))) with (ledger (store W)). lia.
  - intros i Hi. cbn [inflight release_claims on_inflight set_inflight polling_remote_writes_ set_polling_remote_writes].
    rewrite elem_of_difference, elem_of_list_to_set. split; [apply Hcd; rewrite Hperm; set_solver|]. intros Hc. by apply (Hdis i).
  - intros t H. apply Hwc. set_solver.
  - intros o h. rewrite Hacc, bind_mid, bind_app, !occ_app. cbn [thread_pending]. rewrite occ_nil.
    change (ledger (release_claims claimed (store W))) with (ledger (store W)). lia.
Qed.

Lemma inv_drain W o : inv W ->
  inv (mkWorld (drained o (store W)) (threads W) (submitted W)
    (fun o' => if bool_decide (o' = o) then delivered W o' ++ reported (mail (ledger (store W)) o') else delivered W o')
    (fun o' => if bool_decide (o' = o) then saved W o' ++ vd_done (mail (ledger (store W)) o') else saved W o') (others W)).
Proof.
  intros [Hg Hpin Hown Hmark Hids Hnz Hcl Hcd Hwc Hwk Hwa Hacc].
  assert (HL : outstanding (ledger (drained o (store W))) = outstanding (ledger (store W)) ∧
    saving (ledger (drained o (store W))) = saving (ledger (store W))) by (by destruct o). destruct HL as [HO HS].
  unfold owned, held, pending, active in *.
  split; unfold owned, held, pending, active; cbn [store threads submitted delivered]; rewrite ?HO, ?HS; try done.
  intros o' h. rewrite Hacc. case_bool_decide as E.
  - subst o'. rewrite occ_app. replace (reported (mail (ledger (drained o (store W))) o)) with (@nil Hash) by (by destruct o).
    rewrite occ_nil. lia.
  - replace (mail (ledger (drained o (store W))) o') with (mail (ledger (store W)) o') by (by destruct o, o'). lia.
Qed.

(** ** Reachable worlds *)

Definition initial s : Prop :=
  good s ∧ outstanding (ledger s) = [] ∧ (forall o, mail (ledger s) o = no_verdicts) ∧
  polling_remote_writes_ (inflight s) = ∅.

Definition start s : World := mkWorld s [] (fun _ => []) (fun _ => []) (fun _ => []) (pins (ledger s)).

Inductive reachable : World -> Prop :=
  | reachable_start s : initial s -> reachable (start s)
  | reachable_step W W' : reachable W -> step W W' -> reachable W'.

Lemma inv_start s : initial s -> inv (start s).
Proof.
  intros (Hg & HO & Hm & HP).
  split; unfold owned, held, pending, active; cbn [store threads submitted delivered start]; rewrite ?HO; try done; cbn; try set_solver.
  - intros h. unfold wsum. cbn. by apply LRU.wf_pin_nonneg.
  - apply NoDup_nil_2.
  - apply NoDup_nil_2.
  - apply NoDup_nil_2.
  - apply NoDup_nil_2.
  - intros o h. change (mailbox (results s) o) with (mail (ledger s) o). rewrite Hm. done.
Qed.

Lemma write_step_inv W W' : inv W -> step W W' -> inv W'.
Proof.
  intros Hinv Hs. destruct Hs; [by apply inv_rely|by apply inv_mark|by eapply inv_pin|by eapply inv_unpin|by eapply inv_unmark
    |by eapply inv_exist|by eapply inv_record|by apply inv_claim|by eapply inv_wait|by eapply inv_verdict
    |by eapply inv_release|by eapply inv_settle|by eapply inv_done|by apply inv_drain].
Qed.

Lemma reachable_writes_inv W : reachable W -> inv W.
Proof. induction 1; [by apply inv_start|by eapply write_step_inv]. Qed.

(** ** What holds under every interleaving *)

Lemma wsum_nonneg {A} (f : A -> Z) l : (forall x, x ∈ l -> 0 <= f x) -> 0 <= wsum f l.
Proof.
  induction l as [|x l IH]; [done|]. intros Hf. rewrite wsum_cons.
  pose proof (Hf x ltac:(set_solver)). pose proof (IH ltac:(set_solver)). lia.
Qed.

Lemma NoDup_bind_shared {A B} (f : A -> list B) l x y b : NoDup (l ≫= f) -> x ∈ l -> y ∈ l -> b ∈ f x -> b ∈ f y -> x ≠ y -> False.
Proof.
  intros Hnd [l1 [l2 ->]]%list_elem_of_split Hy Hbx Hby Hne. rewrite bind_mid in Hnd.
  assert (Hp : (l1 ≫= f) ++ f x ++ (l2 ≫= f) ≡ₚ f x ++ ((l1 ++ l2) ≫= f)) by (rewrite bind_app; solve_Permutation).
  rewrite Hp in Hnd. apply NoDup_app in Hnd as (_ & Hd & _). apply (Hd b Hbx). apply list_elem_of_bind. exists y.
  split; [done|]. set_solver.
Qed.

Definition settling t : option Z := match t with Finishing w _ _ _ _ _ _ => Some (rw_operation_id w) | _ => None end.

Lemma outstanding_pins W w h : inv W -> w ∈ active W -> h ∈ rw_block_hashes w ->
  (forall t, t ∈ threads W -> settling t ≠ Some (rw_operation_id w)) -> 2 <= pins (ledger (store W)) h.
Proof.
  intros Hinv Hw Hh Hns. pose proof (inv_pins W Hinv h) as Hp. unfold held in Hp.
  pose proof (inv_owned W Hinv) as Hown. unfold owned in Hown. apply NoDup_app in Hown as (Hown & _ & _).
  assert (0 <= wsum (thread_pins h) (threads W)).
  { apply wsum_nonneg. intros t Ht. specialize (Hns t Ht). destruct t as [hs dst o p|w' ok ex un n c todo|c todo]; cbn [thread_pins]; [| |done].
    - pose proof (occ_nonneg h hs). destruct p; lia.
    - destruct (recorded w') eqn:Er; [|pose proof (occ_nonneg h (rw_block_hashes w')); destruct ok; lia].
      rewrite occ_zero; [lia|]. intros Hh'. apply (NoDup_bind_shared _ _ w w' h Hown); [done| |done|done|].
      + apply (inv_work_active W Hinv), list_elem_of_bind. eexists. split; [|exact Ht]. cbn [thread_work]. rewrite Er. set_solver.
      + intros ->. by apply Hns. }
  apply list_elem_of_split in Hw as (l1 & l2 & E). rewrite E in Hp. rewrite wsum_app, wsum_cons in Hp.
  pose proof (occ_pos h (rw_block_hashes w) Hh).
  assert (forall l : list RemoteWriteState, 0 <= wsum (fun w => 2 * occ h (rw_block_hashes w)) l) as Hnn.
  { intros l. apply wsum_nonneg. intros x _. pose proof (occ_nonneg h (rw_block_hashes x)). lia. }
  pose proof (Hnn l1). pose proof (Hnn l2). lia.
Qed.

(** ** Every pin *)

(** The internal pins a thread holds; those an outstanding offer has are taken off as
    [FinishRemoteWrite] releases them, and so is the caller's pin, which it releases when
    the write succeeded. *)
Definition thread_internal h t : Z :=
  match t with
  | Offering hs _ _ pinned => if pinned then occ h hs else 0
  | Finishing w succeeded _ _ n _ _ =>
      ((if recorded w then 0 else 1) + Z.of_nat n - Z.of_nat (releases succeeded)) * occ h (rw_block_hashes w)
  | Polling _ _ => 0
  end.
Definition internal W h : Z := wsum (fun w => occ h (rw_block_hashes w)) (active W) + wsum (thread_internal h) (threads W).
(** Every write that succeeded has cost its caller a pin. *)
Definition spent W h : Z :=
  occ h (vd_done (mail (ledger (store W)) kApplication)) + occ h (saved W kApplication) +
  (occ h (vd_done (mail (ledger (store W)) kSweep)) + occ h (saved W kSweep)).

Definition balanced W : Prop := forall h, pins (ledger (store W)) h = others W h + internal W h - spent W h.

Definition thread_hashes t : list Hash :=
  match t with Offering hs _ _ _ => hs | Finishing w _ _ _ _ _ _ => rw_block_hashes w | Polling _ _ => [] end.

(** A thread at work on a block is the only one. *)
Lemma others_nonneg W l1 t l2 h : inv W -> threads W = l1 ++ t :: l2 -> h ∈ thread_hashes t -> forall t', t' ∈ l1 ++ l2 -> 0 <= thread_pins h t'.
Proof.
  intros Hinv Ht Hh t' Ht'. destruct t' as [hs dst o p|w' ok ex un n c todo|c todo]; cbn [thread_pins]; [pose proof (occ_nonneg h hs); destruct p; lia| |done].
  destruct (recorded w') eqn:Er; [|pose proof (occ_nonneg h (rw_block_hashes w')); destruct ok; lia].
  rewrite occ_zero; [lia|]. intros Hh'.
  assert (Hw' : w' ∈ thread_work (Finishing w' ok ex un n c todo)) by (cbn; rewrite Er; set_solver).
  assert (Ha' : w' ∈ active W) by (apply (inv_work_active W Hinv), list_elem_of_bind; eexists; split; [exact Hw'|rewrite Ht; set_solver]).
  assert (Hh2 : h ∈ active W ≫= rw_block_hashes) by (apply list_elem_of_bind; by exists w').
  pose proof (inv_owned W Hinv) as Hown. unfold owned in Hown. apply NoDup_app in Hown as (Hown & Hd & _).
  assert (Hnm : h ∉ thread_marks t) by (intros Hm; apply (Hd h Hh2), list_elem_of_bind; exists t; split; [done|rewrite Ht; set_solver]).
  destruct t as [hs dst o p|w ok2 ex2 un2 n2 c2 todo2|c2 todo2]; cbn [thread_hashes thread_marks] in *; [done| |by apply elem_of_nil in Hh].
  destruct (recorded w) eqn:Erw; [|done].
  assert (Ha : w ∈ active W) by (apply (inv_work_active W Hinv), list_elem_of_bind; eexists; split; [|rewrite Ht; apply elem_of_app; right; left]; cbn; rewrite Erw; set_solver).
  destruct (decide (rw_operation_id w = rw_operation_id w')) as [E|E]; [|apply (NoDup_bind_shared _ _ w w' h Hown); try done; congruence].
  pose proof (inv_work W Hinv) as Hwk. rewrite Ht, bind_mid in Hwk. cbn [thread_work] in Hwk. rewrite Erw in Hwk.
  assert (Hp : ids_of ((l1 ≫= thread_work) ++ ([w] ++ todo2) ++ (l2 ≫= thread_work)) ≡ₚ rw_operation_id w :: ids_of (todo2 ++ ((l1 ++ l2) ≫= thread_work))).
  { unfold ids_of. rewrite bind_app, !fmap_app. cbn. solve_Permutation. }
  rewrite Hp in Hwk. apply NoDup_cons in Hwk as [Hn _]. apply Hn. rewrite E. apply list_elem_of_fmap_2, elem_of_app. right.
  apply list_elem_of_bind. eexists. split; [exact Hw'|exact Ht'].
Qed.

(** So what it releases is there to be released. *)
Lemma release_enough W l1 t l2 h : inv W -> threads W = l1 ++ t :: l2 ->
  match t with Offering _ _ _ pinned => pinned = true | Finishing _ _ _ _ n _ _ => n <> 0%nat | Polling _ _ => True end ->
  occ h (thread_hashes t) <= pins (ledger (store W)) h.
Proof.
  intros Hinv Ht Hn. destruct (decide (h ∈ thread_hashes t)) as [Hh|Hh]; [|rewrite occ_zero by done; by apply LRU.wf_pin_nonneg, Hinv].
  pose proof (inv_pins W Hinv h) as Hp. unfold held in Hp. rewrite Ht, wsum_app, wsum_cons in Hp.
  pose proof (others_nonneg W l1 t l2 h Hinv Ht Hh) as Hr.
  assert (0 <= wsum (thread_pins h) l1) by (apply wsum_nonneg; intros t' ?; apply Hr; set_solver).
  assert (0 <= wsum (thread_pins h) l2) by (apply wsum_nonneg; intros t' ?; apply Hr; set_solver).
  assert (Hnn : forall l : list RemoteWriteState, 0 <= wsum (fun w => 2 * occ h (rw_block_hashes w)) l).
  { intros l. apply wsum_nonneg. intros x _. pose proof (occ_nonneg h (rw_block_hashes x)). lia. }
  pose proof (Hnn (active W)). destruct t as [hs dst o p|w ok ex un n c todo|c todo]; cbn [thread_hashes thread_pins] in *; [| |by apply elem_of_nil in Hh].
  - subst p. pose proof (occ_nonneg h hs). lia.
  - pose proof (occ_nonneg h (rw_block_hashes w)). destruct (recorded w) eqn:Er; [|destruct ok; nia].
    assert (Ha : w ∈ active W) by (apply (inv_work_active W Hinv), list_elem_of_bind; eexists; split; [|rewrite Ht; apply elem_of_app; right; left]; cbn; rewrite Er; set_solver).
    apply list_elem_of_split in Ha as (k1 & k2 & E). rewrite E, wsum_app, wsum_cons in Hp. pose proof (Hnn k1). pose proof (Hnn k2). destruct ok; nia.
Qed.

Lemma balanced_swap W l1 t l2 t' s' sub' : balanced W -> threads W = l1 ++ t :: l2 -> same_tables (store W) s' ->
  (forall h, pins (ledger s') h - thread_internal h t' = pins (ledger (store W)) h - thread_internal h t) ->
  balanced (mkWorld s' (l1 ++ t' :: l2) sub' (delivered W) (saved W) (others W)).
Proof.
  intros Hb Ht (_ & E2 & E3 & _) Hp h. specialize (Hb h). specialize (Hp h). unfold internal, spent, active in *. cbn [store threads saved others].
  rewrite E2, Ht in *. rewrite !wsum_app, !wsum_cons in *. rewrite !E3. lia.
Qed.

Lemma pins_released hs s h : good s -> occ h hs <= pins (ledger s) h ->
  pins (ledger (set_tier0 (HostOffload.Release hs (tier0 s)) s)) h = pins (ledger s) h - occ h hs.
Proof. intros Hg Hle. destruct (ledger_release hs s Hg) as (_ & -> & _). cbn [pins]. lia. Qed.

(** Which owner is which. *)
Ltac owners := repeat match goal with |- context [bool_decide (?a = ?b :> SaveOwner)] =>
  let v := eval vm_compute in (bool_decide (a = b)) in change (bool_decide (a = b)) with v end.

Lemma done_settle w succeeded ex un s o h :
  occ h (vd_done (mail (ledger (settle_write w succeeded ex un s)) o)) =
  occ h (vd_done (mail (ledger s) o)) + if bool_decide (o = rw_owner w) && succeeded then occ h (rw_block_hashes w) else 0.
Proof.
  destruct (ledger_settle_write w succeeded ex un s) as (_ & _ & _ & _ & Hm). rewrite Hm. cbn [mail].
  case_bool_decide; cbn [andb]; [|lia]. unfold add_verdicts. cbn [vd_done]. destruct succeeded; rewrite ?app_nil_r, ?occ_app; lia.
Qed.

Lemma balanced_settle W l1 l2 w succeeded ex un claimed todo : inv W -> balanced W ->
  threads W = l1 ++ Finishing w succeeded ex un 0 claimed todo :: l2 ->
  balanced (with_store (settle_write w succeeded ex un (store W)) (with_threads (l1 ++ Polling claimed todo :: l2) W)).
Proof.
  intros Hinv Hb Ht h. specialize (Hb h). set (s' := settle_write _ _ _ _ _).
  assert (Hin : recorded w = true -> w ∈ outstanding (ledger (store W))).
  { intros Hr. apply (inv_work_active W Hinv). rewrite Ht, bind_mid. cbn. rewrite Hr. set_solver. }
  destruct (settle_active _ w (inv_ids W Hinv) (inv_nonzero W Hinv) Hin) as [Hperm _]. unfold internal, spent, active in *.
  cbn [store threads saved others with_store with_threads].
  match type of Hperm with _ ≡ₚ _ ++ ?ws => change (outstanding (ledger s')) with ws; set (ws' := ws) in * end. clearbody ws'.
  rewrite (wsum_perm _ _ _ Hperm), Ht in Hb. rewrite !wsum_app, !wsum_cons in Hb |- *. cbn [thread_internal] in *.
  change (pins (ledger s') h) with (pins (ledger (store W)) h). unfold s'. rewrite !done_settle.
  destruct (recorded w), succeeded, (rw_owner w); cbn [releases] in *; rewrite ?wsum_app, ?wsum_cons, ?wsum_nil in Hb;
    owners; cbn [andb]; lia.
Qed.

Lemma balanced_step W W' : inv W -> balanced W -> step W W' -> balanced W'.
Proof.
  intros Hinv Hb Hs. pose proof (inv_good W Hinv) as Hg. destruct Hs as [W s' Hr|W slices dst owner r Hc|W l1 l2 hs dst owner b Ht Hp|W l1 l2 hs dst owner Ht
    |W l1 l2 hs dst owner Ht|W l1 l2 hs dst owner expiry ok ex Ht|W l1 l2 hs dst owner expiry id Ht Hid Hnew|W r|W l1 l2 claimed w todo Ht
    |W l1 l2 claimed w todo ok ex un Ht|W l1 l2 w ok ex un n claimed todo Ht|W l1 l2 w ok ex un claimed todo Ht|W l1 l2 claimed Ht|W o].
  - destruct Hr as (_ & _ & _ & HO & Hm & _). intros h. specialize (Hb h). unfold internal, spent, active in *. cbn [store threads saved others elsewhere].
    rewrite HO, !Hm. lia.
  - pose proof (offer_blocks_spec [] [] slices (store W)) as H. rewrite mark_saving_nil in H.
    destruct H as (Hs & _ & _ & _); [apply NoDup_nil_2|by intros h ?%elem_of_nil|]. fold r in Hs. rewrite Hs. intros h. specialize (Hb h).
    unfold internal, spent, active in *. cbn [store threads saved others with_store with_threads]. rewrite wsum_app, wsum_cons, wsum_nil. cbn [thread_internal].
    change (ledger (mark_saving ?x ?s)) with (mkLedger (index (ledger s)) (pins (ledger s)) (list_to_set x ∪ saving (ledger s)) (outstanding (ledger s)) (mail (ledger s))).
    cbn [pins outstanding mail]. lia.
  - destruct (Pin_spec hs (tier0 (store W)) Hg) as (_ & _ & _ & Hpins). rewrite Hp in Hpins.
    apply (balanced_swap W _ _ _ _ _ _ Hb Ht); [done|]. intros h. specialize (Hpins h). cbn [ledger pins tier0 set_tier0 thread_internal fst snd] in *. lia.
  - apply (balanced_swap W _ _ _ _ _ _ Hb Ht); [done|]. intros h. cbn [thread_internal].
    rewrite pins_released by (done || by apply (release_enough W _ _ _ h Hinv Ht)). lia.
  - intros h. specialize (Hb h). unfold internal, spent, active in *. cbn [store threads saved others with_store with_threads]. rewrite Ht in Hb.
    rewrite !wsum_app, wsum_cons in *. cbn [thread_internal] in Hb.
    change (ledger (clear_saving hs (store W))) with (mkLedger (index (ledger (store W))) (pins (ledger (store W))) (saving (ledger (store W)) ∖ list_to_set hs) (outstanding (ledger (store W))) (mail (ledger (store W)))).
    cbn [pins outstanding mail]. lia.
  - apply (balanced_swap W _ _ _ _ _ _ Hb Ht); [done|]. intros h. cbn [thread_internal recorded rw_operation_id negb Z.eqb rw_block_hashes store with_threads]. lia.
  - intros h. specialize (Hb h). unfold internal, spent, active in *. cbn [store threads saved others with_store with_threads submit]. rewrite Ht in Hb.
    set (s' := on_inflight _ _). assert (HO : outstanding (ledger s') = outstanding (ledger (store W)) ++ [mkWrite dst id hs expiry owner]) by done.
    rewrite HO, !wsum_app, !wsum_cons in *. cbn [thread_internal rw_block_hashes] in *. rewrite wsum_nil.
    change (pins (ledger s')) with (pins (ledger (store W))). change (mail (ledger s')) with (mail (ledger (store W))). lia.
  - destruct (claim_writes_spec (store W)) as (Hs & _). fold r in Hs. rewrite Hs. intros h. specialize (Hb h).
    unfold internal, spent, active in *. cbn [store threads saved others with_store with_threads]. rewrite wsum_app, wsum_cons, wsum_nil. cbn [thread_internal].
    change (ledger (with_polling ?x ?s)) with (ledger s). lia.
  - apply (balanced_swap W _ _ _ _ _ _ Hb Ht); [done|]. done.
  - assert (Hr : recorded w = true) by (apply recorded_true, (inv_nonzero W Hinv), (inv_work_active W Hinv); rewrite Ht, bind_mid; cbn; set_solver).
    apply (balanced_swap W _ _ _ _ _ _ Hb Ht); [done|]. intros h. cbn [thread_internal store with_threads]. rewrite Hr. lia.
  - apply (balanced_swap W _ _ _ _ _ _ Hb Ht); [done|]. intros h. cbn [thread_internal].
    rewrite pins_released by (done || by apply (release_enough W _ _ _ h Hinv Ht)). lia.
  - by apply balanced_settle.
  - intros h. specialize (Hb h). unfold internal, spent, active in *. cbn [store threads saved others with_store with_threads]. rewrite Ht in Hb.
    rewrite !wsum_app, wsum_cons in *. cbn [thread_internal] in Hb. change (ledger (release_claims claimed (store W))) with (ledger (store W)). lia.
  - intros h. specialize (Hb h). unfold internal, spent, active in *. cbn [store threads saved others].
    destruct o; cbv beta; owners; cbv iota; rewrite occ_app;
      cbn [drained ledger pins outstanding mail mailbox results on_results set_results set_application_remote_writes set_sweep_remote_writes
        application_remote_writes_ sweep_remote_writes_ no_verdicts vd_done tier0 inflight] in *; rewrite occ_nil; lia.
Qed.

Lemma reachable_balanced W : reachable W -> balanced W.
Proof.
  induction 1 as [s (_ & HO & Hm & _)|W W' Hr IH Hs]; [|by eapply balanced_step; [by apply reachable_writes_inv|..]].
  intros h. unfold internal, spent, active. cbn [store threads saved others start]. rewrite HO, !Hm. unfold wsum. cbn [foldr no_verdicts vd_done]. rewrite occ_nil. lia.
Qed.

(** C6: However the threads that offer, poll and settle remote writes interleave, with each
    other and with the rest of the store, which is assumed to release none of the pins the
    writes rely on: the pins of a block are those that others hold, plus one for every
    outstanding offer or thread that has an internal pin on it, less one for every write of
    it that succeeded (the caller's, which the store releases); so nothing is left behind when
    no offer is outstanding and no thread at work.  The blocks of an outstanding offer that
    nobody is settling carry both the caller's pin and the internal one; no block is part of
    two offers, and every block of an offer is marked as being saved; at most one thread works
    on an offer, so no offer is settled twice; and every accepted hash is either still
    pending or has exactly one verdict, in its owner's mailbox or already delivered. *)
Theorem store_writes_interleaved W : reachable W ->
  (forall h, pins (ledger (store W)) h = others W h + internal W h - spent W h) ∧
  (active W = [] -> threads W = [] -> forall h, pins (ledger (store W)) h = others W h - spent W h) ∧
  (forall w h, w ∈ active W -> h ∈ rw_block_hashes w ->
     (forall t, t ∈ threads W -> settling t ≠ Some (rw_operation_id w)) -> 2 <= pins (ledger (store W)) h) ∧
  NoDup (owned W) ∧ (forall h, h ∈ owned W -> h ∈ saving (ledger (store W))) ∧
  NoDup (ids_of (threads W ≫= thread_work)) ∧ (forall w, w ∈ (threads W ≫= thread_work) -> w ∈ active W) ∧
  (forall o h, occ h (submitted W o) =
     occ h (pending W o) + occ h (threads W ≫= thread_pending o) + occ h (reported (mail (ledger (store W)) o)) + occ h (delivered W o)).
Proof.
  intros Hr. pose proof (reachable_balanced W Hr) as Hb. apply reachable_writes_inv in Hr as Hinv.
  split_and!; [exact Hb| |intros w h ???; by eapply outstanding_pins|apply Hinv|apply Hinv|apply Hinv|apply Hinv|apply Hinv].
  intros Ha Ht h. rewrite (Hb h). unfold internal. rewrite Ha, Ht. unfold wsum. cbn. lia.
Qed.

(** ** Evaluations *)

(** A store with two pinned host blocks offers one of them, the peer accepts, and two pollers
    start. *)
Definition run_start : World := start (empty_store two_blocks (LBM.create 4)).
Definition run_slices : BlockSliceList := [([8], host_block (node 1) 0 HOST)].
Definition run_marked : World :=
  let r := offer_blocks [] [] run_slices (store run_start) in
  with_store r.2 (with_threads (threads run_start ++ [Offering r.1.2 (node 2) kSweep false]) run_start).
Definition run_pinned : World :=
  with_store (set_tier0 (HostOffload.Pin [[8]] (tier0 (store run_marked))).2 (store run_marked))
    (with_threads ([] ++ Offering [[8]] (node 2) kSweep true :: []) run_marked).
Definition run_recorded : World :=
  submit kSweep [[8]]
    (with_store (on_inflight (fun a => set_active_remote_writes (active_remote_writes_ a ++ [mkWrite (node 2) 77 [[8]] 30 kSweep]) a) (store run_pinned))
       (with_threads ([] ++ []) run_pinned)).
Definition claimed W : World :=
  let r := claim_writes (store W) in with_store r.2 (with_threads (threads W ++ [Polling r.1 r.1]) W).

Lemma run_reachable : reachable (claimed (claimed run_recorded)).
Proof.
  assert (R0 : reachable run_start).
  { apply reachable_start. split_and!; [exact two_blocks_wf|done|by intros []|done]. }
  assert (R1 : reachable run_marked).
  { eapply reachable_step; [exact R0|]. apply (step_mark run_start run_slices (node 2) kSweep). intros h Hh.
    assert (E : (offer_blocks [] [] run_slices (store run_start)).1.2 = [[8]]) by (vm_compute; reflexivity).
    rewrite E in Hh. apply list_elem_of_singleton in Hh as ->. apply (bool_decide_unpack _). vm_compute. exact I. }
  assert (R2 : reachable run_pinned).
  { assert (E : (HostOffload.Pin [[8]] (tier0 (store run_marked))).1 = true) by (vm_compute; reflexivity).
    assert (Ht : threads run_marked = [Offering [[8]] (node 2) kSweep false]) by (vm_compute; reflexivity).
    eapply reachable_step; [exact R1|].
    apply (step_pin run_marked [] [] [[8]] (node 2) kSweep (HostOffload.Pin [[8]] (tier0 (store run_marked))).2 Ht).
    rewrite (surjective_pairing (HostOffload.Pin _ _)) at 1. by rewrite E. }
  assert (R3 : reachable run_recorded).
  { eapply reachable_step; [exact R2|].
    apply (step_record run_pinned [] [] [[8]] (node 2) kSweep 30 77); [reflexivity|discriminate|apply (bool_decide_unpack _); vm_compute; exact I]. }
  exact (reachable_step _ _ (reachable_step _ _ R3 (step_claim run_recorded)) (step_claim (claimed run_recorded))).
Qed.

(** The second poller finds nothing left to claim, and the block keeps both pins. *)
Lemma store_writes_interleaved_witness :
  let W := claimed (claimed run_recorded) in
  length (active W) = 1%nat ∧ thread_work <$> threads W = [active W; []] ∧ 2 <= pins (ledger (store W)) [8].
Proof.
  pose proof (store_writes_interleaved _ run_reachable) as (_ & _ & Hp & _).
  assert (Ha : active (claimed (claimed run_recorded)) = [mkWrite (node 2) 77 [[8]] 30 kSweep]) by (vm_compute; reflexivity).
  assert (Ht : threads (claimed (claimed run_recorded)) =
    [Polling [mkWrite (node 2) 77 [[8]] 30 kSweep] [mkWrite (node 2) 77 [[8]] 30 kSweep]; Polling [] []]) by (vm_compute; reflexivity).
  revert Hp Ha Ht. generalize (claimed (claimed run_recorded)). intros W Hp Ha Ht. cbv zeta. rewrite Ha, Ht in *.
  split_and!; [reflexivity|reflexivity|]. apply (Hp (mkWrite (node 2) 77 [[8]] 30 kSweep) [8]).
  - apply list_elem_of_here.
  - apply list_elem_of_here.
  - intros t [->|[->|?%elem_of_nil]%elem_of_cons]%elem_of_cons; done.
Defined.

End WriteSteps.
