(* ===== verification/KVCacheStoreHandover.v ===== *)
(** * The two ends of a remote write

    [Module StoreClient] is the client of the store service ([kv_cache_store_client.cc]): what
    it refuses and the requests it sends.  [Module Handover] puts the source of a remote
    write (KVCacheStore.v) and its destination (KVCacheStoreService.v) on one clock: the
    hold the source records outlasts the deadline of the destination. *)

From S2P Require Import Prelude ReshardTypes StoreBackend LruCache LogicalBlockManager HostOffloadBackend HostOffloadLookup HostOffloadInsert HostOffloadPins KVCacheStoreService KVCacheStoreServiceSteps KVCacheStoreServiceSafety KVCacheStore KVCacheStoreWrites KVCacheStoreWriteSteps.

Module StoreClient.
Import Service.

(** The request of [Fetch] on the wire. *)
Record WireFetchRequest : Type := mkWireFetch {
  wf_block_hashes : list Hash;
  wf_device_block_ids : list Z;
  wf_host_block_ids : list Z;
  wf_client_raiden_id : RaidenId;
  wf_client_worker_endpoints : list RaidenWorkerEndpoints
}.

(** An RPC that failed is reported under the name of the call. *)
Definition rpc_result {A} (name : string) (answer : StatusOr A) : StatusOr A :=
  match answer with
  | Ok x => Ok x
  | Err code msg => Err code (StrCat[name; " RPC failed: "] ++ msg)
  end.

Section client.
(** The stub. *)
Variable stub_fetch : WireFetchRequest -> StatusOr (list Hash).
Variable stub_write : WriteRequest -> StatusOr HostOffload.WriteRemoteResponse.
Variable stub_poll : Z -> StatusOr HostOffload.PollWriteRemoteResponse.

Definition Fetch (block_hashes : list Hash) (device_block_ids host_block_ids : list Z) (client_raiden_id : RaidenId)
    (client_worker_endpoints : list RaidenWorkerEndpoints) : StatusOr (list Hash) :=
  let n := length block_hashes in
  if (n =? 0)%nat then Ok []
  else if negb (length device_block_ids =? 0)%nat && negb (length device_block_ids =? n)%nat then
    Err kInvalidArgument
      StrCat["Mismatched device_block_ids count ("; Z.of_nat (length device_block_ids); ") vs block_hashes count (";
             Z.of_nat n; ")."]
  else if negb (length host_block_ids =? 0)%nat && negb (length host_block_ids =? n)%nat then
    Err kInvalidArgument
      StrCat["Mismatched host_block_ids count ("; Z.of_nat (length host_block_ids); ") vs block_hashes count (";
             Z.of_nat n; ")."]
  else rpc_result "Fetch" (stub_fetch (mkWireFetch block_hashes device_block_ids host_block_ids client_raiden_id
                                         client_worker_endpoints)).

Definition WriteRemote (src_raiden_id : RaidenId) (block_hashes : list Hash) (src_host_block_ids : list Z)
    (src_worker_endpoints : list RaidenWorkerEndpoints) (deadline_ms : Z) : StatusOr HostOffload.WriteRemoteResponse :=
  if (length block_hashes =? 0)%nat then Err kInvalidArgument StrCat["WriteRemote requires at least one hash."]
  else if negb (length src_host_block_ids =? length block_hashes)%nat then
    Err kInvalidArgument
      StrCat["Mismatched src_host_block_ids count ("; Z.of_nat (length src_host_block_ids);
             ") vs block_hashes count ("; Z.of_nat (length block_hashes); ")."]
  else if deadline_ms <=? 0 then
    Err kInvalidArgument StrCat["WriteRemote requires a positive deadline_ms, got "; deadline_ms; "."]
  else rpc_result "WriteRemote" (stub_write (mkWriteRequest block_hashes src_host_block_ids deadline_ms src_raiden_id
                                               src_worker_endpoints)).

Definition PollWriteRemote (operation_id : Z) : StatusOr HostOffload.PollWriteRemoteResponse :=
  if operation_id =? 0 then
    Err kInvalidArgument StrCat["operation_id 0 is reserved and never identifies an operation."]
  else rpc_result "PollWriteRemote" (stub_poll operation_id).
End client.

End StoreClient.

Module Handover.
Import Service ServiceSteps ServiceSafety.

(** The call of the destination's handler by the client of the source [src]. *)
Definition offer_rpc (src : RaidenId) (endpoints : list RaidenWorkerEndpoints)
    (handler : WriteRequest -> StatusOr HostOffload.WriteRemoteResponse)
    (q : HostOffload.WriteRemoteRequest) : StatusOr HostOffload.WriteRemoteResponse :=
  StoreClient.WriteRemote handler src (HostOffload.wq_block_hashes q) (HostOffload.wq_src_host_block_ids q) endpoints
    (HostOffload.wq_deadline_ms q).

(** The destination accepts the offer it received as [req] into the landing blocks [ids]. *)
Definition accept_world (cap op_id : Z) (i : nat) (req : WriteRequest) (ids : list Z) (wd : World) : World :=
  mkWorld (Accept cap (now wd) op_id req ids (svc wd)).2 (now wd) (delete i (handlers wd)) (op_id :: transfers wd)
    (completing wd) (freed wd) (claims wd).

Definition accept_response (cap op_id : Z) (req : WriteRequest) (ids : list Z) (wd : World) : HostOffload.WriteRemoteResponse :=
  (Accept cap (now wd) op_id req ids (svc wd)).1.1.

(** The wire carries the granted deadline in milliseconds, and the cap is in seconds. *)
Lemma granted_exact n req : Milliseconds (ToInt64Milliseconds (grant (Seconds n) req)) = grant (Seconds n) req.
Proof.
  assert (H : exists k, grant (Seconds n) req = k * 1000000).
  { unfold grant. destruct (Z.min_spec (Milliseconds (wr_deadline_ms req)) (Seconds n)) as [[_ ->]|[_ ->]].
    - by exists (wr_deadline_ms req).
    - exists (n * 1000). unfold Seconds. lia. }
  destruct H as [k ->]. unfold Milliseconds, ToInt64Milliseconds. by rewrite Z.quot_mul.
Qed.

(** The acknowledgement the source makes of such an answer. *)
Lemma accepted_ack resolve src eps handler n op_id req ids wd hold hs dst blocks ack :
  op_id ≠ 0 -> (forall q resp, handler q = Ok resp -> resp = accept_response (Seconds n) op_id req ids wd) ->
  StoreWrites.answered resolve (offer_rpc src eps handler) hold hs dst blocks ack ->
  ack = HostOffload.mkAck op_id false [] (ToInt64Milliseconds (grant (Seconds n) req)).
Proof.
  intros Hid Hh [b Hb]. unfold HostOffload.BeginWriteRemote in Hb. destruct (_ =? 0)%nat; [done|]. destruct (negb _); [done|].
  destruct (HostOffload.GetKVCacheStoreClient resolve dst b) as [[client|] b']; [|done].
  unfold offer_rpc, StoreClient.WriteRemote in Hb. destruct (_ =? 0)%nat; [done|]. destruct (negb _); [done|]. destruct (_ <=? 0); [done|].
  destruct (handler _) as [resp|code msg] eqn:E; cbn [StoreClient.rpc_result] in Hb; [|done].
  apply Hh in E. subst resp. cbn in Hb. destruct (Z.eqb_spec op_id 0); [done|]. cbn in Hb. congruence.
Qed.

(** C8: The two ends of a remote write agree on the operation and on its deadline.  When the
    destination accepts an offer and the source's call returns after that, the source has
    recorded the offer under the destination's operation id with one pin more on every block
    than before.  A poll that is answered with PENDING settles nothing, and so gives no pin
    back, before the recorded hold has passed, and gives the offer up from then on.  And the
    recorded hold is long enough: at any moment of the destination's life from its end on, an
    operation that is pending or failed is never committed afterwards.  (The pins can go
    earlier than the hold: a poll that fails altogether, for instance because the peer was
    unreachable for a moment, gives the offer up at once: [failed_poll_releases_early].) *)
Theorem handover_safe registry resolve src eps handler n op_id i req ids wd hold pin_time ack_time hs dst owner s :
  StoreWrites.good s -> reachable wd -> handlers wd !! i = Some (req, ids) -> 0 < n -> op_id ≠ 0 ->
  write_ops_ (svc wd) !! op_id = None -> now wd <= ack_time -> hs ≠ [] ->
  (forall q resp, handler q = Ok resp -> resp = accept_response (Seconds n) op_id req ids wd) ->
  let r := Store.SaveRemote registry resolve (offer_rpc src eps handler) hold pin_time ack_time hs dst owner s in
  r.1 = OkStatus ->
  exists w, StoreWrites.outstanding (StoreWrites.ledger r.2) = StoreWrites.outstanding (StoreWrites.ledger s) ++ [w] ∧
    Store.rw_operation_id w = op_id ∧ Store.rw_block_hashes w = hs ∧
    (forall h, h ∈ hs -> StoreWrites.pins (StoreWrites.ledger r.2) h = StoreWrites.pins (StoreWrites.ledger s) h + 1) ∧
    (forall t st s2, HostOffload.state st = HostOffload.kPending ->
       Store.settle_polled t w (Ok st) s2 = if Store.rw_hold_expiry w <=? t then Store.FinishRemoteWrite w false [] [] s2 else s2) ∧
    forall w2 w3 op, rtc step (accept_world (Seconds n) op_id i req ids wd) w2 -> rtc step w2 w3 ->
      heap (svc w2) !! length (heap (svc wd)) = Some op -> refused (state op) -> Store.rw_hold_expiry w <= now w2 ->
      exists op', heap (svc w3) !! length (heap (svc wd)) = Some op' ∧ refused (state op').
Proof.
  intros Hg Hreach Hi Hn Hid Hfree Hack Hne Hh r Hr.
  destruct (StoreWrites.SaveRemote_spec registry resolve (offer_rpc src eps handler) hold pin_time ack_time hs dst owner s Hg) as (_ & _ & Hm).
  fold r in Hm. rewrite Hr in Hm. destruct Hm as [[? _]|(Hnd & _ & _ & blocks & ack & _ & Hans & HL)]; [done|].
  pose proof (accepted_ack _ _ _ _ _ _ _ _ _ _ _ _ _ _ Hid Hh Hans) as ->. unfold StoreWrites.accepted in HL. cbn [HostOffload.all_exist HostOffload.existing_hashes length Nat.eqb negb] in HL.
  destruct HL as (_ & Hpins & _ & Hout & _). eexists. split; [exact Hout|]. split_and!; [done|done| | |].
  { intros h Hin. rewrite Hpins. cbn [StoreWrites.pins StoreWrites.record StoreWrites.reserve]. by rewrite StoreWrites.occ_NoDup. }
  { intros t st s2 Hst. unfold Store.settle_polled. by rewrite Hst. }
  cbn [Store.rw_hold_expiry HostOffload.granted_deadline]. rewrite granted_exact.
  intros w2 w3 op Hr2 Hr3 Hop Href Hexp. set (w1 := accept_world _ _ _ _ _ _) in *.
  assert (Hstep : step wd w1) by (apply StepAccept; [done|unfold Seconds; lia|lia|done|done]).
  assert (Hinv1 : inv w1) by (eapply step_inv; [exact Hstep|by apply reachable_inv]).
  assert (Hinv2 : inv w2).
  { clear -Hinv1 Hr2. induction Hr2 as [|x y z Hs _ IH]; [done|]. apply IH. by eapply step_inv. }
  assert (Hop1 : heap (svc w1) !! length (heap (svc wd)) = Some (new_op (Seconds n) (now wd) op_id req ids)).
  { cbn. by rewrite lookup_app_r, Nat.sub_diag by lia. }
  destruct (run_deadline w1 w2 _ _ Hinv1 Hr2 Hop1) as (op2 & Hop2 & Hd). rewrite Hop in Hop2. injection Hop2 as <-.
  eapply refused_stays; [exact Hinv2|exact Hr3|exact Hop|done|]. rewrite Hd. cbn. lia.
Qed.

(** ** Evaluations *)

Definition one_request : WriteRequest :=
  mkWriteRequest [[8]] [0] 25000 (OffloadLookup.node 2) [mkGroup 0 EmptyString []].
Definition destination : World := after [EAllocate one_request].
Definition landing : list Z := default [] (snd <$> handlers destination !! 0%nat).
Definition source : Store.KVCacheStore :=
  Store.set_raiden_id (OffloadLookup.node 2) (StoreWrites.empty_store StoreWrites.two_blocks (LBM.create 4)).
Definition answer (q : WriteRequest) : StatusOr HostOffload.WriteRemoteResponse :=
  Ok (accept_response (Seconds 25) 77 one_request landing destination).
Definition offered : Status * Store.KVCacheStore :=
  Store.SaveRemote (fun _ => Ok []) (fun _ => Ok "peer"%string)
    (offer_rpc (OffloadLookup.node 2) [mkGroup 0 EmptyString []] answer) (Seconds 30) 0 0 [[8]] (OffloadLookup.node 1)
    Store.kApplication source.

Definition continue (es : list Event) (w : World) : World := default w (exec es w).
Lemma continue_run es w : is_Some (exec es w) -> rtc step w (continue es w).
Proof. unfold continue. intros [w' Hw]. rewrite Hw. by apply exec_rtc in Hw. Qed.

(** The transfer resolves a second after the source's hold has passed: the destination
    refuses it. *)
Lemma handover_safe_witness :
  let w1 := accept_world (Seconds 25) 77 0 one_request landing destination in
  let w2 := continue [ETime (Seconds 31)] w1 in
  let w3 := continue [EResolve 0 OkStatus; EComplete OkStatus] w2 in
  offered.1 = OkStatus ∧ exists op', heap (svc w3) !! 0%nat = Some op' ∧ refused (state op').
Proof.
  intros w1 w2 w3. assert (Hok : offered.1 = OkStatus) by (vm_compute; reflexivity). split; [exact Hok|].
  assert (Hwd : reachable destination) by (apply after_reachable; vm_compute; eauto).
  assert (Hi : handlers destination !! 0%nat = Some (one_request, landing)) by (vm_compute; reflexivity).
  assert (Hf : write_ops_ (svc destination) !! 77 = None) by (vm_compute; reflexivity).
  assert (Hn : now destination <= 0) by (vm_compute; discriminate).
  assert (Hl : length (heap (svc destination)) = 0%nat) by (vm_compute; reflexivity).
  assert (H12 : rtc step w1 w2) by (apply continue_run; vm_compute; eauto).
  assert (H23 : rtc step w2 w3) by (apply continue_run; vm_compute; eauto).
  assert (Hop : heap (svc w2) !! 0%nat = Some (op_or 0 w2)) by (apply op_at_some; vm_compute; eauto).
  assert (Hp : state (op_or 0 w2) = kPending) by (vm_compute; reflexivity).
  assert (Ht : now w2 = Seconds 31) by (vm_compute; reflexivity).
  assert (He : Forall (fun w => Store.rw_hold_expiry w <= Seconds 31) (StoreWrites.outstanding (StoreWrites.ledger offered.2)))
    by (apply (bool_decide_unpack _); vm_compute; exact I).
  destruct (handover_safe (fun _ => Ok []) (fun _ => Ok "peer"%string) (OffloadLookup.node 2) [mkGroup 0 EmptyString []] answer
    25 77 0 one_request landing destination (Seconds 30) 0 0 [[8]] (OffloadLookup.node 1) Store.kApplication source
    StoreWrites.two_blocks_wf Hwd Hi eq_refl ltac:(discriminate) Hf Hn ltac:(discriminate)
    ltac:(intros q resp [= <-]; reflexivity) Hok) as (w & Hout & _ & _ & _ & _ & Hsafe).
  rewrite Hl in Hsafe. eapply Hsafe; [exact H12|exact H23|exact Hop|by left; exact Hp|].
  rewrite Ht. eapply (proj1 (Forall_forall _ _) He). fold offered in Hout. rewrite Hout. apply elem_of_app. right. apply list_elem_of_here.
Defined.

(** A poll that fails (the peer was unreachable for a moment) settles the offer at once: half a
    second after the offer the source has dropped its pin while the destination, with more
    than twenty seconds to its deadline, still claims the operation and goes on to commit
    what it reads from a block the source no longer protects. *)
Lemma failed_poll_releases_early :
  let s := Store.PollRemoteWritesInternal (fun _ => Ok "peer"%string) (fun _ _ => Err kUnavailable StrCat["connection reset"])
             (Milliseconds 500) offered.2 in
  let w1 := accept_world (Seconds 25) 77 0 one_request landing destination in
  let w2 := continue ([ETime (Seconds 1); EResolve 0 OkStatus] ++ replicate 5 (EComplete OkStatus)) w1 in
  HostOffload.GetPinCount [8] (Store.tier0 offered.2) = 2 ∧ HostOffload.GetPinCount [8] (Store.tier0 s) = 1 ∧
  Store.vd_failed (Store.application_remote_writes_ (Store.results s)) = [[8]] ∧
  state (op_or 0 w2) = kCommitted ∧ deadline (op_or 0 w2) = Seconds 25.
Proof. cbv zeta. split_and!; vm_compute; reflexivity. Qed.

End Handover.
