(* ===== verification/KVCacheStoreSweep.v ===== *)
(** * Polling remote writes and the evict sweep

    [Module StoreSweep]: what a round of polling does to the ledger of KVCacheStoreWrites.v;
    that waiting for a batch ends once a round comes after the hold of every offer; and that
    a step of the evict sweep, whatever its peers answer, keeps no pin. *)

From S2P Require Import Prelude ReshardTypes StoreBackend LruCache LogicalBlockManager HostOffloadBackend HostOffloadLookup HostOffloadInsert HostOffloadPins KVCacheStoreService KVCacheStore KVCacheStoreWrites KVCacheStoreWriteSteps.
Import OffloadLookup OffloadInsert OffloadPins.

Module StoreSweep.
Import Store StoreWrites.

Implicit Types (s : KVCacheStore) (b : Backend) (h : Hash) (hs : list Hash) (w : RemoteWriteState)
  (ws : list RemoteWriteState) (L : Ledger) (pending : gset Hash).

(** ** What the index stores *)

(** The entry of a hash, whether it is active, pinned or a candidate for eviction. *)
Definition entry s h : option RaidenBlockId := LRU.PeekIncludingCandidates h (HostOffload.lru_cache_ (tier0 s)).
Definition keeps s s' : Prop := (forall h, entry s' h = entry s h) ∧ raiden_id_ s' = raiden_id_ s.
#[global] Instance keeps_preorder : PreOrder keeps.
Proof. split; [by intros s|]. intros s1 s2 s3 [H1 E1] [H2 E2]. split; [intros h; by rewrite H2|congruence]. Qed.

Lemma pin_value (k : Hash) (c : HostOffload.Cache) h : LRU.PeekIncludingCandidates h (LRU.Pin k c).2 = LRU.PeekIncludingCandidates h c.
Proof.
  unfold LRU.Pin, LRU.GetAndPin, LRU.PeekIncludingCandidates. destruct (LRU.map_ c !! k) as [n|]; [|done]. cbn [snd].
  destruct (_ =? 0); [destruct (LRU.location n)|]; cbn; by rewrite ?LRU.value_alter.
Qed.
Lemma unpin_value (k : Hash) (c : HostOffload.Cache) h : LRU.PeekIncludingCandidates h (LRU.Unpin k c).2 = LRU.PeekIncludingCandidates h c.
Proof.
  unfold LRU.Unpin, LRU.PeekIncludingCandidates. destruct (LRU.map_ c !! k) as [n|]; [|done]. cbn [snd].
  destruct (0 <? _); [destruct (_ =? 0)|]; cbn; by rewrite ?LRU.value_alter.
Qed.
Lemma unpins_value l b h :
  LRU.PeekIncludingCandidates h (HostOffload.lru_cache_ (foldl (flip HostOffload.unpin) b l)) = LRU.PeekIncludingCandidates h (HostOffload.lru_cache_ b).
Proof. revert b. induction l as [|k l IH]; intros b; [done|]. cbn [foldl]. rewrite IH. apply unpin_value. Qed.
Lemma pin_all_value pinned l b h :
  LRU.PeekIncludingCandidates h (HostOffload.lru_cache_ (HostOffload.pin_all pinned l b).2) = LRU.PeekIncludingCandidates h (HostOffload.lru_cache_ b).
Proof.
  revert pinned b. induction l as [|k l IH]; intros pinned b; [done|]. cbn [HostOffload.pin_all]. destruct (negb _).
  - cbn [snd]. rewrite unpins_value. apply pin_value.
  - rewrite IH. apply pin_value.
Qed.

Lemma keeps_release l s : keeps s (set_tier0 (HostOffload.Release l (tier0 s)) s).
Proof. split; [|done]. intros h. apply unpins_value. Qed.
Lemma keeps_pin l s : keeps s (set_tier0 (HostOffload.Pin l (tier0 s)).2 s).
Proof. split; [|done]. intros h. apply pin_all_value. Qed.
Lemma keeps_lru b s : HostOffload.lru_cache_ b = HostOffload.lru_cache_ (tier0 s) -> keeps s (set_tier0 b s).
Proof. intros E. split; [|done]. intros h. unfold entry. cbn. by rewrite E. Qed.
Lemma keeps_finish w ok ex un s : keeps s (FinishRemoteWrite w ok ex un s).
Proof.
  split; [|unfold FinishRemoteWrite, settle_write; by destruct (rw_owner w)]. intros h. unfold FinishRemoteWrite, entry. cbv zeta.
  assert (E : forall s0, tier0 (settle_write w ok ex un s0) = tier0 s0) by (intros s0; unfold settle_write; by destruct (rw_owner w)).
  rewrite E. cbn [tier0 set_tier0]. destruct ok; unfold HostOffload.Release; by rewrite !unpins_value.
Qed.
Lemma keeps_offer marked ids slices s : keeps s (offer_blocks marked ids slices s).2.
Proof.
  revert marked ids s. induction slices as [|[h blk] slices IH]; intros marked ids s; [done|]. cbn [offer_blocks].
  destruct (negb _); [done|]. destruct (_ <=? _); [done|]. destruct (bool_decide _); [done|]. etransitivity; [|apply IH]. done.
Qed.
Lemma keeps_rollback pinned marked s : keeps s (offer_rollback pinned marked s).
Proof. unfold offer_rollback. destruct pinned as [|k l]; [done|]. apply (keeps_release (k :: l)). Qed.
Lemma keeps_begin resolve rpc dst hs ids ms s : keeps s (set_tier0 (HostOffload.BeginWriteRemote resolve rpc dst hs ids ms (tier0 s)).2 s).
Proof. apply keeps_lru, BeginWriteRemote_lru. Qed.
Lemma keeps_save registry resolve rpc hold t1 t2 hs dst owner s : keeps s (SaveRemote registry resolve rpc hold t1 t2 hs dst owner s).2.
Proof.
  unfold SaveRemote. destruct (_ =? 0)%nat; [done|]. destruct (RaidenId_empty dst); [done|]. destruct (RaidenId_eqb _ _); [done|].
  destruct (_ <? _)%nat; [done|]. pose proof (keeps_offer [] [] (lookup0 registry default_options hs s) s) as H1.
  destruct (offer_blocks _ _ _ s) as [[[ids|] marked] s1]; cbn [snd] in *; [|by etransitivity; [|apply keeps_rollback]].
  pose proof (keeps_pin hs s1) as H2. destruct (HostOffload.Pin hs (tier0 s1)) as [pinned b]. cbn [snd] in H2. set (s2 := set_tier0 b s1) in *.
  destruct (negb pinned); [by etransitivity; [|etransitivity; [|apply keeps_rollback]]|].
  destruct (_ <=? _); [by etransitivity; [|etransitivity; [|apply keeps_rollback]]|].
  pose proof (keeps_begin resolve rpc dst hs ids (Service.ToInt64Milliseconds (hold - kRemoteWriteMargin)) s2) as H3.
  destruct (HostOffload.BeginWriteRemote _ _ _ _ _ _ _) as [ack b3]. cbn [snd] in H3. set (s3 := set_tier0 b3 s2) in *.
  assert (H : keeps s s3) by (by do 2 (etransitivity; [eassumption|])). clear H1 H2 H3.
  destruct ack as [ack|]; [|by etransitivity; [|apply keeps_rollback]].
  destruct (HostOffload.all_exist ack); [by etransitivity; [|apply keeps_finish]|]. destruct (negb _); [by etransitivity; [|apply keeps_finish]|]. exact H.
Qed.

(** ** One answer *)

(** The peer has the blocks. *)
Definition holds_it (st : HostOffload.PollState) : Prop := st = HostOffload.COMMITTED ∨ st = HostOffload.ALL_EXIST.
(** A verdict, and the hashes it says the peer has, come from answers to polls. *)
Definition borne_out (answers : HostOffload.PollWriteRemoteResponse -> Prop) (ok : bool) (existing : list Hash) : Prop :=
  (ok = true -> exists r, answers r ∧ holds_it (HostOffload.po_state r)) ∧
  (forall h, h ∈ existing -> exists r, answers r ∧ HostOffload.po_state r = HostOffload.PARTIAL_EXIST ∧ h ∈ HostOffload.po_existing_hashes r).
Lemma borne_out_mono (A A' : HostOffload.PollWriteRemoteResponse -> Prop) ok ex : (forall r, A r -> A' r) -> borne_out A ok ex -> borne_out A' ok ex.
Proof. unfold borne_out. intros HA [H1 H2]. split; [intros Hok; destruct (H1 Hok) as (r & ? & ?); eauto|intros h Hh; destruct (H2 h Hh) as (r & ? & ?); eauto]. Qed.

(** The verdict an answer calls for at time [now], if any. *)
Definition verdict (now : Z) w (answer : StatusOr HostOffload.RemoteWriteStatus) : option (bool * list Hash * list Hash) :=
  match answer with
  | Err _ _ => Some (false, [], [])
  | Ok st =>
      match HostOffload.state st with
      | HostOffload.kPending => if rw_hold_expiry w <=? now then Some (false, [], []) else None
      | HostOffload.kCommitted | HostOffload.kAllExist => Some (true, [], [])
      | HostOffload.kPartialExist => Some (false, HostOffload.st_existing_hashes st, [])
      | HostOffload.kStoredUnregistered => Some (false, [], HostOffload.st_unregistered_hashes st)
      | HostOffload.kFailed | HostOffload.kUnknown => Some (false, [], [])
      end
  end.

Definition apply_verdict w (v : option (bool * list Hash * list Hash)) L : Ledger :=
  match v with None => L | Some (succeeded, existing, unregistered) => settle w succeeded existing unregistered L end.

#[global] Instance apply_verdict_proper w v : Proper ((≡) ==> (≡)) (apply_verdict w v).
Proof. destruct v as [[[succeeded ex] un]|]; cbn; [apply _|by intros ???]. Qed.

Lemma settle_polled_verdict now w answer s :
  settle_polled now w answer s =
  match verdict now w answer with None => s | Some (succeeded, ex, un) => FinishRemoteWrite w succeeded ex un s end.
Proof. unfold settle_polled, verdict. by repeat case_match; simplify_eq. Qed.

(** The tables the pollers of remote writes share with nothing else. *)
Definition polling s : gset Z := polling_remote_writes_ (inflight s).

Lemma poll_write_spec resolve rpc now s w : good s ->
  exists v, ledger (poll_write resolve rpc now s w) ≡ apply_verdict w v (ledger s) ∧ good (poll_write resolve rpc now s w) ∧
    polling (poll_write resolve rpc now s w) = polling s ∧ same_rest s (poll_write resolve rpc now s w) ∧
    (v = None -> now < rw_hold_expiry w) ∧ keeps s (poll_write resolve rpc now s w) ∧
    (forall ok ex un, v = Some (ok, ex, un) -> borne_out (fun r => exists client, rpc client (rw_operation_id w) = Ok r) ok ex).
Proof.
  intros Hg. unfold poll_write.
  pose proof (PollWriteRemote_lru resolve rpc (rw_dst_raiden_id w) (rw_operation_id w) (tier0 s)) as Hlru.
  assert (Hans : forall ok ex un, verdict now w (HostOffload.PollWriteRemote resolve rpc (rw_dst_raiden_id w) (rw_operation_id w) (tier0 s)).1 = Some (ok, ex, un) ->
    borne_out (fun r => exists client, rpc client (rw_operation_id w) = Ok r) ok ex).
  { assert (Hno : borne_out (fun r => exists client, rpc client (rw_operation_id w) = Ok r) false []) by (split; [done|by intros h ?%elem_of_nil]).
    unfold HostOffload.PollWriteRemote. destruct (HostOffload.GetKVCacheStoreClient _ _ _) as [[client|] b]; [|intros ok ex un [= <- <- <-]; exact Hno].
    destruct (rpc client (rw_operation_id w)) as [resp|] eqn:E; [|intros ok ex un [= <- <- <-]; exact Hno]. cbn [fst verdict HostOffload.state HostOffload.st_existing_hashes HostOffload.st_unregistered_hashes].
    intros ok ex un Hv. unfold borne_out, holds_it. destruct (HostOffload.po_state resp) eqn:Est; cbn [HostOffload.remote_write_state] in Hv; [destruct (_ <=? _); [|done]|..]; injection Hv as <- <- <-.
    all: (split; [try done; intros _; exists resp; rewrite Est; eauto|intros h Hh; try (by apply elem_of_nil in Hh); exists resp; rewrite Est; eauto]). }
  destruct (HostOffload.PollWriteRemote _ _ _ _ _) as [answer b]. cbn [fst snd] in Hlru, Hans. rewrite settle_polled_verdict.
  exists (verdict now w answer). pose proof (ledger_same_cache b s Hlru) as HL. pose proof (good_same_cache b s Hlru Hg) as Hg1.
  destruct (verdict now w answer) as [[[succeeded ex] un]|] eqn:Ev; cbn [apply_verdict].
  - destruct (FinishRemoteWrite_ledger w succeeded ex un _ Hg1) as [HF HgF].
    split_and!; [by rewrite HF, HL|done|done|etransitivity; [apply same_rest_tier0|apply same_rest_finish]|done| |exact Hans].
    etransitivity; [by apply keeps_lru|apply keeps_finish].
  - split_and!; [done|done|done|apply same_rest_tier0| |by apply keeps_lru|done]. intros _. unfold verdict in Ev.
    destruct answer as [st|]; [|done]. destruct (HostOffload.state st); try done.
    destruct (_ <=? _) eqn:E; [done|]. apply Z.leb_gt in E. done.
Qed.

(** ** What a round keeps *)

(** The hashes waited for belong to an outstanding offer of the sweep or are in its mailbox. *)
Definition covered L h : Prop :=
  (exists w, w ∈ outstanding L ∧ rw_owner w = kSweep ∧ h ∈ rw_block_hashes w) ∨ h ∈ WriteSteps.reported (mail L kSweep).

Definition awaited L pending : Prop := NoDup (ids_of (outstanding L)) ∧ forall h, h ∈ pending -> covered L h.

Lemma awaited_equiv L1 L2 pending : L1 ≡ L2 -> awaited L1 pending -> awaited L2 pending.
Proof. intros (_ & _ & _ & HO & HM) [Hnd Hc]. unfold awaited, covered in *. rewrite <-HO. split; [done|]. intros h Hh. rewrite <-HM. by apply Hc. Qed.

Lemma settle_outstanding w w' ok ex un L : w' ∈ outstanding (settle w ok ex un L) <->
  w' ∈ outstanding L ∧ rw_operation_id w' ≠ rw_operation_id w.
Proof. cbn. rewrite list_elem_of_filter. tauto. Qed.

Lemma NoDup_ids_inj ws w w' : NoDup (ids_of ws) -> w ∈ ws -> w' ∈ ws -> rw_operation_id w = rw_operation_id w' -> w = w'.
Proof.
  intros Hnd [i Hi]%list_elem_of_lookup [j Hj]%list_elem_of_lookup E.
  assert (i = j) as ->; [|congruence]. eapply NoDup_lookup; [exact Hnd| |].
  - unfold ids_of. rewrite list_lookup_fmap, Hi. done.
  - unfold ids_of. rewrite list_lookup_fmap, Hj. cbn. by rewrite E.
Qed.

Lemma NoDup_ids_filter (P : RemoteWriteState -> Prop) `{forall x, Decision (P x)} ws : NoDup (ids_of ws) -> NoDup (ids_of (filter P ws)).
Proof.
  induction ws as [|w ws IH]; [done|]. unfold ids_of. rewrite fmap_cons, filter_cons. intros [Hn Hnd]%NoDup_cons.
  destruct (decide (P w)); [|by apply IH]. rewrite fmap_cons. constructor; [|by apply IH].
  intros (x & Ex & Hx%list_elem_of_filter)%list_elem_of_fmap. apply Hn. rewrite Ex. apply list_elem_of_fmap_2, Hx.
Qed.

Lemma settle_awaited w ok ex un L pending : w ∈ outstanding L -> awaited L pending -> awaited (settle w ok ex un L) pending.
Proof.
  intros Hw [Hnd Hc]. split; [by apply NoDup_ids_filter|]. intros h Hh.
  destruct (Hc h Hh) as [(w' & Hw' & Ho & Hin)|Hin].
  - destruct (decide (rw_operation_id w' = rw_operation_id w)) as [E|E].
    + right. assert (w' = w) as -> by (by eapply NoDup_ids_inj). cbn. rewrite bool_decide_eq_true_2 by done.
      unfold WriteSteps.reported. cbn. destruct ok; set_solver.
    + left. exists w'. split_and!; [by apply settle_outstanding|done|done].
  - right. cbn. case_bool_decide; [|done]. unfold WriteSteps.reported in *. cbn. set_solver.
Qed.

(** Polling the offers [ws]: an offer stays only if its hold has not passed. *)
Lemma poll_loop resolve rpc now ws s pending : good s -> awaited (ledger s) pending -> NoDup (ids_of ws) ->
  (forall w, w ∈ ws -> w ∈ outstanding (ledger s)) ->
  let s' := foldl (poll_write resolve rpc now) s ws in
  good s' ∧ awaited (ledger s') pending ∧ polling s' = polling s ∧ same_rest s s' ∧
  (forall w, w ∈ outstanding (ledger s') -> w ∈ outstanding (ledger s) ∧ (w ∈ ws -> now < rw_hold_expiry w)).
Proof.
  revert s. induction ws as [|w ws IH]; intros s Hg Ha Hnd Hin; cbn [foldl].
  { split_and!; try done. intros w Hw. split; [done|]. by intros ?%elem_of_nil. }
  unfold ids_of in Hnd. rewrite fmap_cons in Hnd. apply NoDup_cons in Hnd as [Hn Hnd].
  destruct (poll_write_spec resolve rpc now s w Hg) as (v & HL & Hg1 & HP1 & Hr1 & Hv & _).
  set (s1 := poll_write resolve rpc now s w) in *. pose proof (Hin w ltac:(set_solver)) as Hw.
  assert (Ha1 : awaited (ledger s1) pending).
  { eapply awaited_equiv; [symmetry; exact HL|]. destruct v as [[[ok ex] un]|]; cbn [apply_verdict]; [by apply settle_awaited|done]. }
  assert (HO : forall x, x ∈ outstanding (ledger s1) <-> x ∈ outstanding (ledger s) ∧ (v ≠ None -> rw_operation_id x ≠ rw_operation_id w)).
  { intros x. destruct HL as (_ & _ & _ & -> & _). destruct v as [[[ok ex] un]|]; cbn [apply_verdict]; [rewrite settle_outstanding|]; naive_solver. }
  destruct (IH s1 Hg1 Ha1 Hnd) as (Hg2 & Ha2 & HP2 & Hr2 & Hk).
  { intros x Hx. apply HO. split; [apply Hin; set_solver|]. intros _ E. apply Hn. rewrite <-E. by apply list_elem_of_fmap_2. }
  split_and!; [done|done|congruence|by etransitivity|]. intros x Hx. destruct (Hk x Hx) as [Hx1 Hx2].
  apply HO in Hx1 as [Hx0 Hv']. split; [done|]. intros [->|Hx3]%elem_of_cons; [|by apply Hx2].
  apply Hv. destruct v; [|done]. by destruct (Hv' ltac:(done)).
Qed.

Lemma poll_writes_round resolve rpc now s pending : good s -> polling s = ∅ -> awaited (ledger s) pending ->
  let s' := PollRemoteWritesInternal resolve rpc now s in
  good s' ∧ polling s' = ∅ ∧ awaited (ledger s') pending ∧
  (forall w, w ∈ outstanding (ledger s') -> w ∈ outstanding (ledger s) ∧ now < rw_hold_expiry w).
Proof.
  intros Hg HP Ha s'. unfold s', PollRemoteWritesInternal.
  destruct (claim_writes_spec s) as (Hs & Hnd & Hin & Hall). destruct (claim_writes s) as [to_poll s1]. cbn [fst snd] in *.
  fold (polling s) in Hs, Hin, Hall. rewrite HP in *. rewrite (right_id_L ∅ (∪)) in Hs.
  assert (Hcov : forall w, w ∈ outstanding (ledger s) -> w ∈ to_poll).
  { intros w Hw. destruct (Hall w Hw) as [?%elem_of_empty|(w' & E & Hw')%list_elem_of_fmap]; [done|].
    rewrite (NoDup_ids_inj _ w w' (proj1 Ha)); [done|done|by apply Hin|done]. }
  destruct to_poll as [|w0 tp]; [|set (to_poll := w0 :: tp) in *].
  { assert (s1 = s) as ->. { rewrite Hs. cbn. unfold polling in HP. rewrite <-HP. apply with_polling_eta. }
    split_and!; [done|done|done|]. intros w Hw. by apply Hcov, elem_of_nil in Hw. }
  assert (HL1 : ledger s1 = ledger s) by (by rewrite Hs). assert (Hg1 : good s1) by (by rewrite Hs).
  rewrite <-HL1 in Ha.
  destruct (poll_loop resolve rpc now to_poll s1 pending Hg1 Ha Hnd) as (Hg2 & Ha2 & HP2 & _ & Hk).
  { intros w Hw. rewrite HL1. by apply Hin. }
  split_and!; [done| |done|].
  - change (polling (foldl (poll_write resolve rpc now) s1 to_poll) ∖ list_to_set (rw_operation_id <$> to_poll) = ∅).
    rewrite HP2, Hs. cbn. fold (ids_of to_poll). change (ids_of to_poll) with (rw_operation_id <$> to_poll). set_solver.
  - intros w Hw. destruct (Hk w Hw) as [Hw1 Hw2]. rewrite HL1 in Hw1. split; [done|]. by apply Hw2, Hcov.
Qed.

(** ** The other pollers *)

(** They leave the remote writes alone. *)
Definition framed s s' : Prop :=
  outstanding (ledger s') = outstanding (ledger s) ∧ mail (ledger s') = mail (ledger s) ∧ polling s' = polling s ∧ (good s -> good s').

#[global] Instance framed_preorder : PreOrder framed.
Proof.
  split; [intros s; unfold framed; by split_and!|]. intros s1 s2 s3 (H1 & H2 & H3 & H4) (G1 & G2 & G3 & G4). unfold framed. split_and!; [congruence|congruence|congruence|auto].
Qed.

Lemma framed_foldl {A} (f : KVCacheStore -> A -> KVCacheStore) l s : (forall s x, framed s (f s x)) -> framed s (foldl f s l).
Proof. intros Hf. revert s. induction l as [|x l IH]; intros s; cbn; [done|]. etransitivity; [apply Hf|apply IH]. Qed.

Lemma framed_backend b s : (good s -> LRU.wf (HostOffload.lru_cache_ b)) -> framed s (set_tier0 b s).
Proof. intros H. unfold framed. by split_and!. Qed.

Ltac same_frame := unfold framed; by split_and!.

Lemma framed_save registry st status s : framed s (poll_save registry st status s).
Proof.
  unfold poll_save. destruct status as [u|]; [|same_frame]. cbv zeta.
  set (s1 := on_results _ s). assert (H1 : framed s s1) by same_frame.
  destruct (_ <$> _) as [|e entries]; [exact H1|]. set (es := e :: entries).
  set (s2 := set_tier0 _ s1). assert (H2 : framed s1 s2).
  { apply framed_backend. intros Hg. exact (HostOffload.backend_run_wf [HostOffload.OpInsert es.*1 es.*2] (tier0 s1) Hg). }
  assert (H3 : framed s2 (set_tier0 (HostOffload.Release es.*1 (tier0 s2)) s2)) by (apply framed_backend, Release_wf).
  transitivity s1; [exact H1|]. transitivity s2; [exact H2|]. destruct (registry_client_ s2); [same_frame|exact H3].
Qed.

Lemma framed_load registry st status s : framed s (poll_load registry st status s).
Proof.
  unfold poll_load. destruct status as [u|]; [|same_frame]. cbv zeta. destruct (ld_from_remote st); [same_frame|].
  destruct (_ <$> _) as [|e entries]; [same_frame|]. set (es := e :: entries). unfold framed.
  split_and!; [done|done|done|]. intros Hg.
  exact (HostOffload.backend_run_wf [HostOffload.OpInsert es.*1 es.*2; HostOffload.OpRelease es.*1] (tier0 s) Hg).
Qed.

Lemma framed_read st status s : framed s (poll_read st status s).
Proof. unfold poll_read. destruct status; same_frame. Qed.

Lemma poll_round registry rd s pending : good s -> polling s = ∅ -> awaited (ledger s) pending ->
  let s' := PollFuturesInternal registry rd s in
  good s' ∧ polling s' = ∅ ∧ awaited (ledger s') pending ∧
  (forall w, w ∈ outstanding (ledger s') -> w ∈ outstanding (ledger s) ∧ clock rd < rw_hold_expiry w).
Proof.
  intros Hg HP Ha. unfold PollFuturesInternal. cbv zeta.
  set (s1 := on_inflight _ s). set (s2 := foldl _ s1 _). set (s3 := foldl _ s2 _). set (s4 := foldl _ s3 _).
  assert (Hf : framed s s4).
  { transitivity s1; [same_frame|]. transitivity s2; [apply framed_foldl; intros; apply framed_save|].
    transitivity s3; [apply framed_foldl; intros; apply framed_load|]. apply framed_foldl. intros. apply framed_read. }
  clearbody s4. destruct Hf as (HO & HM & HP' & Hg'). rewrite <-HO.
  apply poll_writes_round; [by apply Hg'|congruence|]. unfold awaited, covered in *. by rewrite HO, HM.
Qed.

(** ** Waiting for a batch *)

Lemma wait_batch_returns registry rounds pending result s : good s -> polling s = ∅ -> awaited (ledger s) pending ->
  (exists rd, rd ∈ rounds ∧ forall w, w ∈ outstanding (ledger s) -> rw_hold_expiry w <= clock rd) ->
  exists r, wait_batch registry rounds pending result s = Some r ∧
    (forall h, h ∈ pending ∨ h ∈ freeable result ++ still_pinned result -> h ∈ freeable r.1 ++ still_pinned r.1).
Proof.
  revert pending result s. induction rounds as [|rd rounds IH]; intros pending result s Hg HP Ha (rd0 & Hin & Hlate);
    [by apply elem_of_nil in Hin|].
  cbn [wait_batch]. case_bool_decide as Hp.
  { exists (result, s). split; [done|]. subst pending. intros h [?%elem_of_empty|?]; done. }
  unfold DrainSweepVerdicts. destruct (poll_round registry rd s pending Hg HP Ha) as (Hg1 & HP1 & [Hnd1 Hc1] & Hk).
  set (s1 := PollFuturesInternal registry rd s) in *. set (s2 := on_results _ s1). cbn [take_verdicts].
  set (v := sweep_remote_writes_ (results s1)). set (pending' := pending ∖ _). set (result' := mkBatch _ _ _).
  assert (Hmore : forall h, h ∈ pending ∨ h ∈ freeable result ++ still_pinned result ->
                    h ∈ pending' ∨ h ∈ freeable result' ++ still_pinned result').
  { intros h. unfold pending', result'. cbn [freeable still_pinned]. rewrite elem_of_difference, elem_of_list_to_set, !elem_of_app.
    destruct (decide (h ∈ vd_done v)), (decide (h ∈ vd_failed v)); tauto. }
  assert (Ha2 : awaited (ledger s2) pending').
  { split; [exact Hnd1|]. intros h. unfold pending'. rewrite elem_of_difference, elem_of_list_to_set. intros [Hh Hn].
    destruct (Hc1 h Hh) as [?|Hm]; [by left|done]. }
  destruct (decide (pending' = ∅)) as [He|He].
  { exists (result', s2). split; [destruct rounds; cbn [wait_batch]; by rewrite bool_decide_eq_true_2|].
    intros h Hh. destruct (Hmore h Hh) as [Hx|Hx]; [rewrite He in Hx; by apply elem_of_empty in Hx|done]. }
  destruct (IH pending' result' s2 Hg1 HP1 Ha2) as (r & Hr & Hcov).
  - assert (HO : forall w, w ∈ outstanding (ledger s2) -> w ∈ outstanding (ledger s) ∧ clock rd < rw_hold_expiry w) by exact Hk.
    apply elem_of_cons in Hin as [->|Hin]; [|exists rd0; split; [done|]; intros w Hw; by apply Hlate, HO].
    exfalso. apply He. apply set_eq. intros h. split; [|by intros ?%elem_of_empty]. intros Hh.
    destruct (proj2 Ha2 h Hh) as [(w & Hw & _)|Hm]; [|by apply elem_of_nil in Hm].
    destruct (HO w Hw) as [Hw1 Hw2]. specialize (Hlate w Hw1). lia.
  - exists r. split; [exact Hr|]. intros h Hh. by apply Hcov, Hmore.
Qed.

(** Waiting for the verdicts of a batch ends.  If every hash of the batch is in an
    outstanding offer of the sweep or already in its mailbox, and one of the rounds of
    polling comes at a time when the hold of every outstanding offer has passed, the wait
    returns, whatever the peers answer in any round and whatever else the rounds settle,
    and every hash of the batch is reported as freeable or as still pinned. *)
Theorem store_wait_returns registry rounds batch s : good s -> polling s = ∅ -> awaited (ledger s) (list_to_set batch) ->
  (exists rd, rd ∈ rounds ∧ forall w, w ∈ outstanding (ledger s) -> rw_hold_expiry w <= clock rd) ->
  exists result s', WaitForBatchWriteResult registry rounds batch s = Some (result, s') ∧
    forall h, h ∈ batch -> h ∈ freeable result ++ still_pinned result.
Proof.
  intros Hg HP Ha Hlate. destruct (wait_batch_returns registry rounds _ (mkBatch [] [] false) s Hg HP Ha Hlate) as ([result s'] & Hr & Hc).
  exists result, s'. split; [exact Hr|]. intros h Hh. apply Hc. left. by apply elem_of_list_to_set.
Qed.

(** ** A store where only the sweep is at work *)

Definition idle s : Prop :=
  active_saves_ (inflight s) = [] ∧ active_loads_ (inflight s) = [] ∧ active_remote_reads_ (inflight s) = [].

(** Nothing is outstanding, claimed or waiting in the sweep's mailbox. *)
Definition quiet s : Prop :=
  good s ∧ idle s ∧ polling s = ∅ ∧ outstanding (ledger s) = [] ∧ mail (ledger s) kSweep = no_verdicts.

Definition same_pins s s' : Prop := forall h, pins (ledger s') h = pins (ledger s) h.

Lemma idle_poll registry rd s : idle s -> PollFuturesInternal registry rd s = PollRemoteWritesInternal (peer_address rd) (poll_rpc rd) (clock rd) s.
Proof.
  intros (H1 & H2 & H3). unfold PollFuturesInternal. cbv zeta. rewrite H1, H2, H3. cbn [filter list_filter foldl].
  f_equal. unfold on_inflight, set_inflight. rewrite H1, H2, H3. destruct s as [? ? ? ? ? [] ? ? ? ? ? ?]. cbn in *. by subst.
Qed.

Lemma idle_rest s s' : same_rest s s' -> idle s -> idle s'.
Proof. intros (_ & _ & _ & _ & _ & _ & H1 & H2 & H3 & _) (A & B & C). unfold idle. split_and!; congruence. Qed.

(** One round when a single offer is outstanding. *)
Lemma poll_one resolve rpc now w s : good s -> polling s = ∅ -> outstanding (ledger s) = [w] ->
  let s' := PollRemoteWritesInternal resolve rpc now s in
  exists v, ledger s' ≡ apply_verdict w v (ledger s) ∧ good s' ∧ polling s' = ∅ ∧ (idle s -> idle s') ∧ (v = None -> now < rw_hold_expiry w) ∧ keeps s s' ∧
    (forall ok ex un, v = Some (ok, ex, un) -> borne_out (fun r => exists client, rpc client (rw_operation_id w) = Ok r) ok ex).
Proof.
  intros Hg HP HO s'. unfold s', PollRemoteWritesInternal, claim_writes. change (active_remote_writes_ (inflight s)) with (outstanding (ledger s)).
  rewrite HO. cbn [foldl]. fold (polling s). rewrite HP, bool_decide_eq_false_2 by set_solver. cbn [app foldl].
  set (s1 := on_inflight _ s). assert (Hg1 : good s1) by done.
  destruct (poll_write_spec resolve rpc now s1 w Hg1) as (v & HL & Hg2 & HP2 & Hr & Hv & Hk & Ht). exists v.
  set (s2 := poll_write resolve rpc now s1 w) in *. split_and!; [exact HL|exact Hg2| | |exact Hv|exact Hk|exact Ht].
  - change (polling s2 ∖ list_to_set (rw_operation_id <$> [w]) = ∅). rewrite HP2.
    change (({[rw_operation_id w]} ∪ polling s) ∖ list_to_set [rw_operation_id w] = ∅). rewrite HP. set_solver.
  - intros Hi. change (idle s2). by eapply idle_rest; [exact Hr|].
Qed.

Lemma poll_none resolve rpc now s : outstanding (ledger s) = [] -> PollRemoteWritesInternal resolve rpc now s = s.
Proof.
  intros HO. unfold PollRemoteWritesInternal, claim_writes. change (active_remote_writes_ (inflight s)) with (outstanding (ledger s)).
  by rewrite HO.
Qed.

(** What the wait of the sweep ends with: the batch succeeded or failed as a whole. *)
Definition batch_done (batch : list Hash) (ok : bool) (existing : list Hash) (result : BatchWriteResult) : Prop :=
  still_pinned result = (if ok then [] else batch) ∧ freeable result = (if ok then batch else []) ++ existing.

Lemma list_to_set_nonempty hs : hs ≠ [] -> (list_to_set hs : gset Hash) ≠ ∅.
Proof. destruct hs as [|h hs]; [done|]. intros _ E. assert (h ∈ (∅ : gset Hash)) as []%elem_of_empty. rewrite <-E. set_solver. Qed.

Lemma wait_verdict batch v : vd_done v ++ vd_failed v = batch -> (list_to_set batch ∖ list_to_set (vd_done v ++ vd_failed v) : gset Hash) = ∅.
Proof. intros ->. set_solver. Qed.

(** The verdict is already in the mailbox. *)
Lemma wait_settled registry rounds (batch existing : list Hash) (ok : bool) s : rounds ≠ [] -> batch ≠ [] -> good s -> idle s -> polling s = ∅ ->
  outstanding (ledger s) = [] -> vd_done (mail (ledger s) kSweep) = (if ok then batch else []) ->
  vd_failed (mail (ledger s) kSweep) = (if ok then [] else batch) -> vd_existing (mail (ledger s) kSweep) = existing ->
  exists result s', wait_batch registry rounds (list_to_set batch) (mkBatch [] [] false) s = Some (result, s') ∧
    batch_done batch ok existing result ∧ quiet s' ∧ same_pins s s' ∧ keeps s s'.
Proof.
  intros Hr Hb Hg Hi HP HO Hd Hf He. destruct rounds as [|rd rounds]; [done|]. cbn [wait_batch].
  rewrite bool_decide_eq_false_2 by (by apply list_to_set_nonempty). unfold DrainSweepVerdicts.
  rewrite idle_poll, poll_none by done. cbn [take_verdicts]. change (sweep_remote_writes_ (results s)) with (mail (ledger s) kSweep).
  rewrite wait_verdict by (rewrite Hd, Hf; destruct ok; [apply app_nil_r|done]).
  eexists _, _. split; [destruct rounds; cbn [wait_batch]; by rewrite bool_decide_eq_true_2|].
  split; [split; [exact Hf|by rewrite <-Hd, <-He]|]. split; [split_and!; done|]. split; [by intros h|done].
Qed.

(** The offer is outstanding. *)
Lemma wait_outstanding registry rounds (batch : list Hash) w s : batch ≠ [] -> good s -> idle s -> polling s = ∅ ->
  outstanding (ledger s) = [w] -> rw_block_hashes w = batch -> rw_owner w = kSweep -> mail (ledger s) kSweep = no_verdicts ->
  (exists rd, rd ∈ rounds ∧ rw_hold_expiry w <= clock rd) ->
  exists (ok : bool) existing result s', wait_batch registry rounds (list_to_set batch) (mkBatch [] [] false) s = Some (result, s') ∧
    batch_done batch ok existing result ∧ quiet s' ∧
    (forall h, pins (ledger s') h = Z.max 0 (pins (ledger s) h - (if ok then 2 else 1) * occ h batch)) ∧ keeps s s' ∧
    borne_out (fun r => exists rd client, rd ∈ rounds ∧ poll_rpc rd client (rw_operation_id w) = Ok r) ok existing.
Proof.
  revert s. induction rounds as [|rd rounds IH]; intros s Hb Hg Hi HP HO Hw Ho Hm (rd0 & Hin & Hlate); [by apply elem_of_nil in Hin|].
  cbn [wait_batch]. rewrite bool_decide_eq_false_2 by (by apply list_to_set_nonempty). unfold DrainSweepVerdicts.
  rewrite idle_poll by done. destruct (poll_one (peer_address rd) (poll_rpc rd) (clock rd) w s Hg HP HO) as (v & HL & Hg1 & HP1 & Hi1 & Hv & Hk & Htake).
  set (s1 := PollRemoteWritesInternal _ _ _ s) in *. specialize (Hi1 Hi). cbn [take_verdicts].
  change (sweep_remote_writes_ (results s1)) with (mail (ledger s1) kSweep). destruct HL as (_ & HLp & _ & HLo & HLm).
  destruct v as [[[ok ex] un]|]; cbn [apply_verdict] in HLp, HLo, HLm.
  - exists ok, ex. specialize (HLm kSweep). cbn [mail settle] in HLm. rewrite Ho, bool_decide_eq_true_2, Hm, Hw in HLm by done. rewrite HLm.
    rewrite wait_verdict by (cbn; destruct ok; [apply app_nil_r|done]).
    eexists _, _. split; [destruct rounds; cbn [wait_batch]; by rewrite bool_decide_eq_true_2|].
    split; [by destruct ok|]. split; [split_and!; [done|done|done| |done]|]. 2: split.
    + change (outstanding (ledger s1) = []). rewrite HLo. cbn [outstanding settle]. rewrite HO, filter_cons, decide_False by tauto. done.
    + intros h. change (pins (ledger s1) h = Z.max 0 (pins (ledger s) h - (if ok then 2 else 1) * occ h batch)). by rewrite HLp, <-Hw.
    + split; [exact Hk|]. eapply borne_out_mono; [|by eapply Htake]. intros r (client & Hrpc). exists rd, client. split; [apply list_elem_of_here|done].
  - rewrite HLm, Hm. cbn [no_verdicts vd_done vd_failed vd_existing vd_unregistered app length freeable still_pinned transfer_failed orb Nat.ltb Nat.leb list_to_set].
    rewrite difference_empty_L. set (s2 := on_results _ s1).
    destruct (IH s2 Hb Hg1 Hi1 HP1) as (ok & ex & result & s' & Hr & Hd & Hq & Hp & Hk2 & Ht2); [by rewrite <-HO, <-HLo|done|done|done| |].
    + apply elem_of_cons in Hin as [->|Hin]; [|eauto]. specialize (Hv eq_refl). lia.
    + exists ok, ex, result, s'. split; [exact Hr|]. split; [exact Hd|]. split; [exact Hq|]. split; [|split].
      2: { transitivity s1; [exact Hk|exact Hk2]. }
      2: { eapply borne_out_mono; [|exact Ht2]. intros r (rd1 & client & Hin1 & ?). exists rd1, client. split; [by apply list_elem_of_further|done]. } intros h. rewrite Hp. change (pins (ledger s2) h) with (pins (ledger s1) h). by rewrite HLp.
Qed.

(** ** The sweep *)

Lemma evict_loop_pins hs st h : LRU.wf (HostOffload.lru_cache_ (HostOffload.ev_backend st)) ->
  let b := HostOffload.ev_backend (foldl HostOffload.evict_one st hs) in
  LRU.wf (HostOffload.lru_cache_ b) ∧ HostOffload.GetPinCount h b = HostOffload.GetPinCount h (HostOffload.ev_backend st).
Proof.
  revert st. induction hs as [|k hs IH]; intros st Hwf; cbn [foldl]; [done|].
  assert (Hk : LRU.wf (HostOffload.lru_cache_ (HostOffload.ev_backend (HostOffload.evict_one st k))) ∧
     HostOffload.GetPinCount h (HostOffload.ev_backend (HostOffload.evict_one st k)) = HostOffload.GetPinCount h (HostOffload.ev_backend st)).
  { unfold HostOffload.evict_one. cbv zeta. destruct (LRU.PeekIncludingCandidates _ _) as [blk|]; [|done]. destruct (_ && _); [|done].
    cbn [HostOffload.ev_backend]. unfold HostOffload.GetPinCount, HostOffload.erase. cbn [HostOffload.lru_cache_ HostOffload.with_lru].
    rewrite HostOffload.ClearMetadataEntry_lru. split; [by apply LRU.Erase_wf|by apply LRU.Erase_pins]. }
  destruct Hk as [Hw1 Hp1]. destruct (IH _ Hw1) as [? Hp2]. split; [done|]. by rewrite Hp2.
Qed.

(** Eviction changes no pin and none of the tables. *)
Lemma Evict_quiet hs s : quiet s -> quiet (Evict hs s).2 ∧ same_pins s (Evict hs s).2.
Proof.
  intros (Hg & Hi & HP & HO & Hm). unfold Evict. destruct hs as [|h0 hs0]; [by split|]. set (hs := h0 :: hs0). unfold HostOffload.Evict. cbv zeta.
  pose proof (fun h => evict_loop_pins hs (HostOffload.mkEvict [] [] (tier0 s)) h Hg) as Hev.
  set (st := foldl _ _ hs) in *. destruct (Hev []) as [Hwf _].
  destruct (HostOffload.ev_ids st); cbn [snd]; (split; [by split_and!|]); intros h; apply Hev.
Qed.

(** It removes only entries it was asked to. *)
Lemma evict_loop_entries hs st h :
  let e b := LRU.PeekIncludingCandidates h (HostOffload.lru_cache_ b) in
  let b' := HostOffload.ev_backend (foldl HostOffload.evict_one st hs) in e b' = e (HostOffload.ev_backend st) ∨ e b' = None ∧ h ∈ hs.
Proof.
  revert st. induction hs as [|k hs IH]; intros st; cbn [foldl]; [by left|]. cbv zeta in *.
  assert (Hk : LRU.PeekIncludingCandidates h (HostOffload.lru_cache_ (HostOffload.ev_backend (HostOffload.evict_one st k))) =
      LRU.PeekIncludingCandidates h (HostOffload.lru_cache_ (HostOffload.ev_backend st)) ∨
    LRU.PeekIncludingCandidates h (HostOffload.lru_cache_ (HostOffload.ev_backend (HostOffload.evict_one st k))) = None ∧ h = k).
  { unfold HostOffload.evict_one. cbv zeta. destruct (LRU.PeekIncludingCandidates k _) as [blk|]; [|by left]. destruct (_ && _); [|by left].
    cbn [HostOffload.ev_backend]. unfold HostOffload.erase, LRU.Erase, LRU.PeekIncludingCandidates. cbn [HostOffload.lru_cache_ HostOffload.with_lru].
    rewrite HostOffload.ClearMetadataEntry_lru. destruct (LRU.map_ _ !! k) as [n|] eqn:E; [|by left]. destruct (0 <? _); [by left|].
    assert (Hd : forall c : HostOffload.Cache, LRU.map_ c = LRU.map_ (HostOffload.lru_cache_ (HostOffload.ev_backend st)) ->
      LRU.value <$> delete k (LRU.map_ c) !! h = LRU.value <$> LRU.map_ (HostOffload.lru_cache_ (HostOffload.ev_backend st)) !! h ∨
      LRU.value <$> delete k (LRU.map_ c) !! h = None ∧ h = k).
    { intros c ->. destruct (decide (h = k)) as [->|Hne]; [right; by rewrite lookup_delete_eq|left; by rewrite lookup_delete_ne]. }
    destruct (LRU.location n); exact (Hd (HostOffload.lru_cache_ (HostOffload.ev_backend st)) eq_refl). }
  destruct (IH (HostOffload.evict_one st k)) as [->|[-> Hin]]; [|right; split; [done|by right]].
  destruct Hk as [->|[-> ->]]; [by left|right; split; [done|by left]].
Qed.
Lemma Evict_entries hs s h : entry (Evict hs s).2 h = entry s h ∨ entry (Evict hs s).2 h = None ∧ h ∈ hs.
Proof.
  unfold Evict. destruct hs as [|h0 hs0]; [by left|]. set (hs := h0 :: hs0). unfold HostOffload.Evict. cbv zeta.
  pose proof (evict_loop_entries hs (HostOffload.mkEvict [] [] (tier0 s)) h) as He. cbv zeta in He. cbn [HostOffload.ev_backend] in He.
  set (st := foldl _ _ hs) in *. by destruct (HostOffload.ev_ids st).
Qed.

Lemma quiet_release hs s : quiet s -> quiet (set_tier0 (HostOffload.Release hs (tier0 s)) s).
Proof. intros (Hg & Hi & HP & HO & Hm). split_and!; try done. by apply good_release. Qed.

Lemma release_pins_exact hs s h : good s -> pins (ledger (set_tier0 (HostOffload.Release hs (tier0 s)) s)) h = Z.max 0 (pins (ledger s) h - occ h hs).
Proof. intros Hg. by destruct (ledger_release hs s Hg) as (_ & -> & _). Qed.

Lemma quiet_episode s : quiet s -> quiet (end_episode s).2.
Proof. intros H. exact H. Qed.
Lemma quiet_drop s : quiet s -> quiet (drop_target s).
Proof. intros H. exact H. Qed.

(** After the wait: what is still pinned is released, what the peer holds is evicted. *)
Lemma sweep_settle_spec result s : quiet s ->
  let r := sweep_settle result s in
  quiet r.2 ∧ (forall h, pins (ledger r.2) h = Z.max 0 (pins (ledger s) h - occ h (still_pinned result))) ∧
  forall h, entry r.2 h = entry s h ∨ entry r.2 h = None ∧ h ∈ freeable result.
Proof.
  intros Hq. unfold sweep_settle. set (s1 := match still_pinned result with [] => s | _ => _ end).
  assert (H1 : quiet s1 ∧ forall h, pins (ledger s1) h = Z.max 0 (pins (ledger s) h - occ h (still_pinned result))).
  { unfold s1. destruct (still_pinned result) as [|h0 hs0] eqn:E.
    - split; [done|]. intros h. rewrite occ_nil. pose proof (LRU.wf_pin_nonneg _ h (proj1 Hq)) as Hn. change (0 <= pins (ledger s) h) in Hn. lia.
    - split; [by apply quiet_release|]. intros h. apply release_pins_exact, Hq. }
  assert (Hk1 : keeps s s1) by (unfold s1; destruct (still_pinned result) as [|k l]; [done|apply (keeps_release (k :: l))]).
  clearbody s1. destruct H1 as [Hq1 Hp1]. pose proof (Evict_entries (freeable result) s1) as He. destruct (Evict_quiet (freeable result) s1 Hq1) as [Hq2 Hp2].
  destruct (Evict (freeable result) s1) as [evicted s2]. cbn [snd] in *. cbv zeta.
  assert (Hp : forall h, pins (ledger s2) h = Z.max 0 (pins (ledger s) h - occ h (still_pinned result))) by (intros h; by rewrite Hp2).
  assert (He2 : forall h, entry s2 h = entry s h ∨ entry s2 h = None ∧ h ∈ freeable result) by (intros h; rewrite <-(proj1 Hk1 h); apply He).
  destruct (transfer_failed result); [by split_and!|]. destruct (evicted =? 0)%nat; by split_and!.
Qed.

(** The granted deadline of an acknowledgement is the one of a response. *)
Lemma answered_response resolve rpc hold hs dst ids ack : answered resolve rpc hold hs dst ids ack ->
  exists q resp, rpc q = Ok resp ∧ HostOffload.granted_deadline ack = HostOffload.wr_granted_deadline_ms resp ∧
    HostOffload.wq_block_hashes q = hs ∧ HostOffload.operation_id ack = HostOffload.wr_operation_id resp ∧
    (HostOffload.all_exist ack = true -> HostOffload.wr_exist_state resp = HostOffload.WRITE_ALL_EXIST) ∧
    (forall h, h ∈ HostOffload.existing_hashes ack -> HostOffload.wr_exist_state resp = HostOffload.WRITE_PARTIAL_EXIST ∧ h ∈ HostOffload.wr_existing_hashes resp).
Proof.
  intros [b Hb]. unfold HostOffload.BeginWriteRemote in Hb. destruct (_ =? 0)%nat; [done|]. destruct (negb _); [done|].
  destruct (HostOffload.GetKVCacheStoreClient resolve dst b) as [[client|] b']; [|done].
  destruct (rpc _) as [resp|] eqn:E; [|done]. eexists _, resp. split; [exact E|].
  destruct (HostOffload.wr_exist_state resp); [destruct (_ =? 0); [done|]| |]; cbn in Hb; injection Hb as <-; (split_and!; try done); by intros h ?%elem_of_nil.
Qed.

(** The rounds of each wait go on past the hold. *)
Definition patient (env : SweepEnv) : Prop :=
  forall dst q resp, offer_rpc env dst q = Ok resp ->
  exists rd, rd ∈ rounds_of env dst ∧ sweep_time env + sweep_hold env <= clock rd ∧
    sweep_time env + Service.Milliseconds (HostOffload.wr_granted_deadline_ms resp) <= clock rd.

(** From an accepted offer of the sweep to the verdict on it. *)
Lemma sweep_wait registry rounds hold time batch dst ack s s2 : batch ≠ [] -> quiet s -> (forall h, occ h batch <= pins (ledger s) h) ->
  good s2 -> same_rest s s2 -> ledger s2 ≡ accepted hold time time batch dst kSweep ack (ledger s) ->
  (exists rd, rd ∈ rounds ∧ time + hold <= clock rd ∧ time + Service.Milliseconds (HostOffload.granted_deadline ack) <= clock rd) ->
  exists (ok : bool) existing result s', WaitForBatchWriteResult registry rounds batch s2 = Some (result, s') ∧
    batch_done batch ok existing result ∧ quiet s' ∧ (forall h, pins (ledger s') h = pins (ledger s) h - if ok then occ h batch else 0) ∧ keeps s2 s' ∧
    ((ok = true -> HostOffload.all_exist ack = true) ∧ (forall h, h ∈ existing -> h ∈ HostOffload.existing_hashes ack) ∨
     borne_out (fun r => exists rd client, rd ∈ rounds ∧ poll_rpc rd client (HostOffload.operation_id ack) = Ok r) ok existing).
Proof.
  intros Hb (Hg & Hi & HP & HO & Hm) Hnn Hg2 Hrest (_ & Hpins & _ & Hout & Hmail) (rd & Hin & Hl1 & Hl2). unfold WaitForBatchWriteResult.
  assert (Hi2 : idle s2) by (by eapply idle_rest). assert (HP2 : polling s2 = ∅).
  { destruct Hrest as (_ & _ & _ & _ & _ & _ & _ & _ & _ & H). unfold polling in *. congruence. }
  assert (Hne : rounds ≠ []) by (intros ->; by apply elem_of_nil in Hin).
  specialize (Hmail kSweep). unfold accepted in *. destruct (HostOffload.all_exist ack) eqn:Eall; [|destruct (negb _)];
    cbn [settle reserve record pins outstanding mail rw_owner rw_block_hashes rw_operation_id] in Hpins, Hout, Hmail; rewrite ?HO, ?Hm in *.
  - rewrite bool_decide_eq_true_2 in Hmail by done.
    destruct (wait_settled registry rounds batch [] true s2) as (result & s' & Hr & Hd & Hq & Hsp & Hk); try done; try (by rewrite Hmail).
    exists true, [], result, s'. do 3 (split; [done|]). split; [|split; [done|left; split; [done|by intros h ?%elem_of_nil]]]. intros h. rewrite Hsp, Hpins. specialize (Hnn h). lia.
  - rewrite bool_decide_eq_true_2 in Hmail by done.
    destruct (wait_settled registry rounds batch (HostOffload.existing_hashes ack) false s2) as (result & s' & Hr & Hd & Hq & Hsp & Hk); try done; try (by rewrite Hmail).
    exists false, (HostOffload.existing_hashes ack), result, s'. do 3 (split; [done|]). split; [|split; [done|by left]]. intros h. rewrite Hsp, Hpins. specialize (Hnn h). pose proof (occ_nonneg h batch). lia.
  - cbn [app] in Hout.
    destruct (wait_outstanding registry rounds batch _ s2 Hb Hg2 Hi2 HP2 Hout) as (ok & ex & result & s' & Hr & Hd & Hq & Hp & Hk & Ht); try done.
    { exists rd. split; [done|]. cbn [rw_hold_expiry]. lia. }
    exists ok, ex, result, s'. do 3 (split; [done|]). split; [|split; [done|by right]]. intros h. rewrite Hp, Hpins. specialize (Hnn h). pose proof (occ_nonneg h batch).
    destruct ok; lia.
Qed.

Lemma quiet_pin hs s : quiet s ->
  let r := HostOffload.Pin hs (tier0 s) in
  quiet (set_tier0 r.2 s) ∧ forall h, pins (ledger (set_tier0 r.2 s)) h = pins (ledger s) h + if r.1 then occ h hs else 0.
Proof.
  intros (Hg & Hi & HP & HO & Hm) r. destruct (Pin_spec hs (tier0 s) Hg) as (_ & Hwf & _ & Hp). fold r in Hwf, Hp. by split; [split_and!|].
Qed.

(** An offer that was refused leaves a quiet store quiet. *)
Lemma quiet_refused s s' : quiet s -> good s' -> same_rest s s' -> ledger s' ≡ ledger s -> quiet s'.
Proof.
  intros (Hg & Hi & HP & HO & Hm) Hg' Hr (_ & _ & _ & EO & EM). split_and!; [done|by eapply idle_rest| |congruence|by rewrite EM].
  destruct Hr as (_ & _ & _ & _ & _ & _ & _ & _ & _ & H). unfold polling in *. congruence.
Qed.

(** A peer has the block [h] of a batch it was offered: it has the whole batch, or named [h]
    among those it has, in its answer to the offer or to a poll of the operation it opened. *)
Definition takes (env : SweepEnv) (batch : list Hash) (dst : RaidenId) h : Prop :=
  exists q resp, HostOffload.wq_block_hashes q = batch ∧ offer_rpc env dst q = Ok resp ∧
    let polled r := exists rd client, rd ∈ rounds_of env dst ∧ poll_rpc rd client (HostOffload.wr_operation_id resp) = Ok r in
    (h ∈ batch ∧ (HostOffload.wr_exist_state resp = HostOffload.WRITE_ALL_EXIST ∨ exists r, polled r ∧ holds_it (HostOffload.po_state r)) ∨
     HostOffload.wr_exist_state resp = HostOffload.WRITE_PARTIAL_EXIST ∧ h ∈ HostOffload.wr_existing_hashes resp ∨
     exists r, polled r ∧ HostOffload.po_state r = HostOffload.PARTIAL_EXIST ∧ h ∈ HostOffload.po_existing_hashes r).
(** The offer of a batch to a peer fails in the store [s], with the batch pinned. *)
Definition refuses registry (env : SweepEnv) (batch : list Hash) s (dst : RaidenId) : Prop :=
  exists s1 code msg, quiet s1 ∧ keeps s s1 ∧ (forall h, pins (ledger s1) h = pins (ledger s) h + occ h batch) ∧
    (SaveRemote registry (store_address env) (offer_rpc env dst) (sweep_hold env) (sweep_time env) (sweep_time env) batch dst kSweep s1).1 = Err code msg.
Lemma refuses_keeps registry env batch s s' dst : keeps s s' -> same_pins s s' -> refuses registry env batch s' dst -> refuses registry env batch s dst.
Proof.
  intros Hk Hp (s1 & code & msg & H1 & H2 & H3 & H4). exists s1, code, msg. split; [exact H1|]. split; [by etransitivity|]. split; [|done].
  - intros h. by rewrite H3, Hp.
Qed.
(** What became of the entries. *)
Definition demotes registry env batch targets s s' : Prop :=
  forall h, entry s' h = entry s h ∨ entry s' h = None ∧
    ((exists dst, dst ∈ targets ∧ takes env batch dst h) ∨ h ∈ batch ∧ Forall (refuses registry env batch s) targets).

Lemma sweep_targets_spec registry env batch targets s : patient env -> batch ≠ [] -> quiet s ->
  exists again s', sweep_targets registry env batch targets s = Some (again, s') ∧ quiet s' ∧ same_pins s s' ∧ demotes registry env batch targets s s'.
Proof.
  intros Hpat Hb. revert s. induction targets as [|dst targets IH]; intros s Hq; cbn [sweep_targets].
  { destruct (Evict_quiet batch s Hq) as [Hq1 Hp1]. pose proof (Evict_entries batch s) as He. destruct (Evict batch s) as [evicted s1]. cbn [snd] in *.
    assert (Hd : demotes registry env batch [] s s1) by (intros h; destruct (He h) as [?|[? ?]]; [by left|right; split; [done|by right]]).
    destruct (evicted =? 0)%nat; eexists _, _; (split; [done|by split_and!]). }
  destruct (quiet_pin batch s Hq) as [Hq1 Hp1]. pose proof (keeps_pin batch s) as Hk1. destruct (HostOffload.Pin batch (tier0 s)) as [pinned b]. cbn [fst snd] in *.
  set (s1 := set_tier0 b s) in *. destruct pinned; cbn [negb].
  2: { eexists _, _. split; [done|]. split; [by apply quiet_episode|]. split; [|intros h; left; apply Hk1]. intros h. change (pins (ledger s1) h = pins (ledger s) h). rewrite Hp1. lia. }
  assert (Hnn : forall h, 0 <= pins (ledger s) h) by (intros h; apply LRU.wf_pin_nonneg, Hq).
  destruct (SaveRemote_spec registry (store_address env) (offer_rpc env dst) (sweep_hold env) (sweep_time env) (sweep_time env) batch dst kSweep s1
    (proj1 Hq1)) as (Hg2 & Hr2 & Hm2).
  pose proof (keeps_save registry (store_address env) (offer_rpc env dst) (sweep_hold env) (sweep_time env) (sweep_time env) batch dst kSweep s1) as Hk2.
  destruct (SaveRemote _ _ _ _ _ _ _ _ _ s1) as [[u|code msg] s2] eqn:Esave; cbn [fst snd] in *.
  - destruct Hm2 as [[? _]|(_ & _ & _ & ids & ack & _ & Hans & HL)]; [done|].
    destruct (answered_response _ _ _ _ _ _ _ Hans) as (q & resp & Hrpc & Hgr & Hqb & Hop & Hall & Hpart). destruct (Hpat dst q resp Hrpc) as (rd & Hin & Hl1 & Hl2).
    destruct (sweep_wait registry (rounds_of env dst) (sweep_hold env) (sweep_time env) batch dst ack s1 s2) as (ok & ex & result & s3 & Hw & [Hd Hfr] & Hq3 & Hp3 & Hk3 & Htk); try done.
    { intros h. rewrite Hp1. specialize (Hnn h). lia. }
    { exists rd. by rewrite Hgr. }
    rewrite Hw. destruct (sweep_settle_spec result s3 Hq3) as (Hq4 & Hp4 & He4). destruct (sweep_settle result s3) as [again s4]. cbn [snd] in *.
    assert (Hk : keeps s s3) by (by do 2 (etransitivity; [eassumption|])).
    exists again, s4. split; [done|]. split; [done|]. split.
    2: { intros h. destruct (He4 h) as [->|[-> Hx]]; [left; apply Hk|right]. rewrite Hfr in Hx.
         split; [done|]. left. exists dst. split; [apply list_elem_of_here|]. exists q, resp. do 2 (split; [done|]). rewrite <-Hop.
         apply elem_of_app in Hx as [Hx|Hx].
         - destruct ok; [|by apply elem_of_nil in Hx]. left. split; [done|]. destruct Htk as [[Ha _]|[Ha _]]; [left; by apply Hall, Ha|right; by apply Ha].
         - right. destruct Htk as [[_ He]|[_ He]]; [left; by apply Hpart, He|right; by apply He]. }
    intros h. rewrite Hp4, Hp3, Hp1, Hd. specialize (Hnn h). pose proof (occ_nonneg h batch).
    destruct ok; rewrite ?occ_nil; lia.
  - pose proof (quiet_refused s1 s2 Hq1 Hg2 Hr2 Hm2) as Hq2. destruct Hm2 as (_ & Hp2 & _).
    destruct (IH (drop_target (set_tier0 (HostOffload.Release batch (tier0 s2)) s2))) as (again & s' & Hr & Hq' & Hp' & Hd').
    { by apply quiet_drop, quiet_release. }
    set (s3 := drop_target _) in *. assert (Hk : keeps s s3) by (do 2 (etransitivity; [eassumption|]); apply (keeps_release batch s2)).
    assert (Hp3 : same_pins s s3).
    { intros h. change (pins (ledger (set_tier0 (HostOffload.Release batch (tier0 s2)) s2)) h = pins (ledger s) h).
      rewrite release_pins_exact, Hp2, Hp1 by apply Hq2. specialize (Hnn h). lia. }
    exists again, s'. split; [done|]. split; [done|]. split; [intros h; by rewrite Hp', Hp3|].
    intros h. destruct (Hd' h) as [->|(-> & Hwhy)]; [left; apply Hk|right]. split; [done|].
    destruct Hwhy as [(d & Hd & Ht)|[Hin Hall]]; [left; exists d; split; [by apply list_elem_of_further|done]|right]. split; [done|]. constructor.
    + exists s1, code, msg. split; [exact Hq1|]. split; [exact Hk1|]. split; [exact Hp1|by rewrite Esave].
    + eapply Forall_impl; [exact Hall|]. intros d. by apply refuses_keeps.
Qed.

(** The targets of a step: those of its episode, or of the one it starts. *)
Definition targets_of (env : SweepEnv) s : list RaidenId :=
  if sweep_active_ s then placement_targets_ s else match placement env with Ok ids => ids | Err _ _ => [] end.

(** C31: A step of the evict sweep returns and keeps no pin.  In a store where nothing else is in
    flight, if the rounds of every wait go on past the hold, the step ends whatever the
    registry, the peers and the pollers answer: its pins of the batch, the internal pins of
    its offers and the pins of failed batches are all given back, every pin count is what
    it was, and no offer, claim or verdict is left behind for the next step.  Of the index the
    step removes only entries that a target has after it was offered the batch (it has the
    whole batch, or named the block among those it has, in its answer to the offer or to a
    poll of the operation it opened), or entries of the batch (evictable hashes of the step) when the
    offer failed at every target there is. *)
Theorem store_sweep_returns registry low high env s : patient env -> quiet s ->
  exists again s', SweepOnce registry low high env s = Some (again, s') ∧ quiet s' ∧ same_pins s s' ∧
    exists n, demotes registry env (HostOffload.GetEvictableKeys n (tier0 s)) (targets_of env s) s s'.
Proof.
  intros Hpat Hq. unfold SweepOnce. cbv zeta. assert (Hid : exists n, demotes registry env (HostOffload.GetEvictableKeys n (tier0 s)) (targets_of env s) s s) by (exists 0%nat; by left).
  destruct (_ <=? 0); [by eexists _, _|].
  assert (Hdem : forall n s1, quiet s1 -> tier0 s1 = tier0 s -> raiden_id_ s1 = raiden_id_ s -> placement_targets_ s1 = targets_of env s ->
    exists again s', (match HostOffload.GetEvictableKeys n (tier0 s1) with
                      | [] => Some (end_episode s1)
                      | _ => sweep_targets registry env (HostOffload.GetEvictableKeys n (tier0 s1)) (placement_targets_ s1) s1
                      end) = Some (again, s') ∧ quiet s' ∧ same_pins s s' ∧ exists n, demotes registry env (HostOffload.GetEvictableKeys n (tier0 s)) (targets_of env s) s s').
  { intros n s1 Hq1 Etier Eid Et. assert (Hp1 : same_pins s s1) by (intros h; unfold ledger; cbn; by rewrite Etier).
    assert (He1 : forall h, entry s1 h = entry s h) by (intros h; unfold entry; by rewrite Etier).
    destruct (HostOffload.GetEvictableKeys n (tier0 s1)) as [|k ks] eqn:E.
    { eexists _, _. split; [done|]. split; [done|]. split; [done|]. exists n. intros h. left. apply He1. }
    destruct (sweep_targets_spec registry env (k :: ks) (placement_targets_ s1) s1 Hpat ltac:(done) Hq1) as (again & s' & Hr & Hq' & Hp' & Hd').
    exists again, s'. split; [done|]. split; [done|]. split; [intros h; by rewrite Hp'|]. exists n. rewrite <-Et, <-Etier, E.
    intros h. destruct (Hd' h) as [->|(-> & Hwhy)]; [left; apply He1|right]. split; [done|].
    destruct Hwhy as [?|[Hin Hall]]; [by left|right]. split; [done|]. eapply Forall_impl; [exact Hall|]. intros d. apply refuses_keeps; [|done].
    by split. }
  unfold targets_of in *. destruct (sweep_active_ s); cbn [negb].
  - destruct (at_least _ _ _); [by eexists _, _|]. by apply Hdem.
  - destruct (at_least _ _ _); [by eexists _, _|]. by apply Hdem.
Qed.

(** ** Evaluations *)

(** A peer that has not decided yet, and one that has committed. *)
Definition pending_round (t : Z) : Round :=
  mkRound (fun _ => None) peer (fun _ _ => Ok (HostOffload.mkPollResponse HostOffload.PENDING [] [])) t.
Definition committed_round (t : Z) : Round :=
  mkRound (fun _ => None) peer (fun _ _ => Ok (HostOffload.mkPollResponse HostOffload.COMMITTED [] [])) t.

Definition offered_store : KVCacheStore :=
  (SaveRemote (fun _ => Ok []) peer accepts (Service.Seconds 30) 0 0 [[8]; [9]] (node 2) kSweep (empty_store two_blocks (LBM.create 4))).2.

(** The peer never answers: the hold ends the wait. *)
Lemma store_wait_returns_witness : exists result s',
  WaitForBatchWriteResult (fun _ => Ok []) [pending_round 0; pending_round (Service.Seconds 31)] [[8]; [9]] offered_store = Some (result, s') ∧
  [8] ∈ freeable result ++ still_pinned result.
Proof.
  assert (Hout : outstanding (ledger offered_store) = [mkWrite (node 2) 77 [[8]; [9]] (Service.Seconds 30) kSweep]) by (vm_compute; reflexivity).
  assert (HP : polling offered_store = ∅) by (vm_compute; reflexivity).
  assert (Hg : good offered_store).
  { apply (SaveRemote_spec (fun _ => Ok []) peer accepts (Service.Seconds 30) 0 0 [[8]; [9]] (node 2) kSweep
      (empty_store two_blocks (LBM.create 4)) two_blocks_wf). }
  destruct (store_wait_returns (fun _ => Ok []) [pending_round 0; pending_round (Service.Seconds 31)] [[8]; [9]] offered_store Hg HP) as (result & s' & Hr & Hc).
  - split; [rewrite Hout; apply NoDup_singleton|]. intros h Hh. left. rewrite Hout. eexists. split; [apply list_elem_of_here|].
    split; [reflexivity|]. apply elem_of_list_to_set in Hh. exact Hh.
  - exists (pending_round (Service.Seconds 31)). split; [apply list_elem_of_further, list_elem_of_here|].
    rewrite Hout. intros w Hw. apply list_elem_of_singleton in Hw as ->. cbn. discriminate.
  - exists result, s'. split; [exact Hr|]. apply Hc, list_elem_of_here.
Defined.

(** A full pool with two unpinned host blocks: they are offered to a peer, which commits. *)
Definition full_store : KVCacheStore :=
  empty_store
    (HostOffload.run [HostOffload.OpInsert [[8]; [9]] (map (fun i => host_block (node 1) i HOST) [0; 1])]
       (HostOffload.create 4 None (node 1) true EmptyString))
    (HostOffload.AllocateBlockIds (LBM.create 2) 2).2.
Definition sweep_env : SweepEnv :=
  mkSweepEnv (Ok [node 2]) (fun _ => accepts) peer (Service.Seconds 30) 0
    (fun _ => [pending_round 0; committed_round (Service.Seconds 1); pending_round (Service.Seconds 31)]).

Lemma full_store_quiet : quiet full_store.
Proof. split_and!; [apply HostOffload.backend_run_wf, LRU.create_wf|done|done|done|done]. Qed.

Lemma store_sweep_returns_witness : exists s',
  SweepOnce (fun _ => Ok []) (mkRatio 3 100) (mkRatio 5 100) sweep_env full_store = Some (true, s') ∧
  pins (ledger s') [8] = 0 ∧ LBM.num_free_blocks (manager s') = 1.
Proof.
  destruct (store_sweep_returns (fun _ => Ok []) (mkRatio 3 100) (mkRatio 5 100) sweep_env full_store) as (again & s' & Hr & _ & Hp & _).
  - intros dst q resp [= <-]. exists (pending_round (Service.Seconds 31)). split; [|split; cbn; discriminate].
    apply list_elem_of_further, list_elem_of_further, list_elem_of_here.
  - exact full_store_quiet.
  - assert (Hc : (fun r : bool * KVCacheStore => (r.1, LBM.num_free_blocks (manager r.2))) <$>
              SweepOnce (fun _ => Ok []) (mkRatio 3 100) (mkRatio 5 100) sweep_env full_store = Some (true, 1)) by (vm_compute; reflexivity).
    rewrite Hr in Hc. injection Hc as -> Hfree. exists s'. split_and!; [exact Hr| |exact Hfree].
    etransitivity; [apply Hp|]. vm_compute. reflexivity.
Defined.

End StoreSweep.
