(* ===== verification/KVCacheStoreBlocks.v ===== *)
(** * Host blocks of the store's saves and reads

    [Module StoreBlocks]: [AllocateBlockIds], [SaveLocal] and [ReadRemote] on every path.  A
    call that fails leaves no mark, no operation and no newly allocated host block behind;
    one that succeeds owns its host blocks, and a remote read groups its blocks by the peer
    that has them. *)

From S2P Require Import Prelude ReshardTypes StoreBackend LruCache LogicalBlockManager HostOffloadBackend HostOffloadLookup HostOffloadInsert HostOffloadTransfer HostOffloadPins KVCacheStoreService KVCacheStore KVCacheStoreWrites.
Import OffloadLookup OffloadInsert OffloadTransfer OffloadPins.

Module StoreBlocks.
Import Store StoreWrites.

Implicit Types (s : KVCacheStore) (m : Manager) (h : Hash) (hs : list Hash) (ids : list Z) (j : Z).

(** ** The pool *)

(** A pool that can serve another allocation without its access counter wrapping around. *)
Definition sound m : Prop := LBM.wf m ∧ LBM.access_counter_ m + 1 < 2 ^ 64.

(** Beyond [ids], nothing is allocated that was not before. *)
Definition grows ids m m' : Prop :=
  forall j, LBM.IsAllocated m' j = true -> LBM.IsAllocated m j = true ∨ j ∈ ids.

Lemma grows_trans ids ids' m1 m2 m3 : grows ids m1 m2 -> grows ids' m2 m3 -> grows (ids ++ ids') m1 m3.
Proof. intros H1 H2 j Hj. rewrite elem_of_app. destruct (H2 j Hj) as [H|H]; [destruct (H1 j H)|]; auto. Qed.

Lemma deallocate_shrinks m ids : LBM.wf m ->
  LBM.wf (HostOffload.DeallocateBlockIds m ids) ∧
  LBM.access_counter_ (HostOffload.DeallocateBlockIds m ids) = LBM.access_counter_ m ∧ grows [] m (HostOffload.DeallocateBlockIds m ids).
Proof.
  intros Hwf. unfold HostOffload.DeallocateBlockIds, LBM.Deallocate.
  destruct (for_each _ _ _) as [u|] eqn:E; cbn [snd]; [|split_and!; [done|done|by left]]. destruct u.
  apply LBM.check_allocated_loop in E.
  change (foldl LBM.free_block (LBM.blocks_ m) ids)
    with (LBM.upd (fun blk => LBM.mkBlock false false (LBM.last_access_counter blk)) ids (LBM.blocks_ m)).
  assert (Hr : Forall (LBM.in_range m) ids) by (eapply Forall_impl; [exact E|]; by intros ? [? _]).
  split_and!; [|done|].
  - pose proof (LBM.wf_counter m Hwf). apply LBM.upd_wf; [done|done|exact Hr|lia|]. by intros blk [_ Hs].
  - intros j Hj. left. set (m' := LBM.mkLBM _ _ _) in Hj. pose proof (LBM.IsAllocated_true m' j Hj) as Hr'.
    rewrite (LBM.IsAllocated_in_range m') in Hj by done. cbn [LBM.blocks_ m'] in Hj. rewrite LBM.upd_block in Hj; [|done| |apply Hr'].
    + rewrite LBM.IsAllocated_in_range by exact Hr'. by destruct (decide (j ∈ ids)).
    + rewrite LBM.wf_length_Z by done. exact Hr.
Qed.

Lemma allocate_grows m n ids m' : sound m -> HostOffload.AllocateBlockIds m n = (Ok ids, m') ->
  LBM.wf m' ∧ grows ids m m'.
Proof.
  intros [Hwf Hc] Ha. pose proof (LBM.num_available_le m Hwf) as Hle. split.
  - destruct (LBM.lbm_apply_op_wf (LBM.OpAllocate n true) m Hwf Hc) as [Hw _]. unfold HostOffload.AllocateBlockIds in Ha.
    cbn [LBM.apply_op] in Hw. by rewrite Ha in Hw.
  - intros j Hj. unfold HostOffload.AllocateBlockIds in Ha. destruct (decide (0 < n <= LBM.num_available m)) as [Hn|Hn].
    2: { destruct (LBM.Allocate_not_ok m n true Hwf Hn) as [Hno _]. by rewrite Ha in Hno. }
    destruct (LBM.Allocate_Ok m n true Hwf) as (bs & Hl & E & Hbs); [lia|lia|]. rewrite E in Ha. injection Ha as <- <-.
    set (m' := LBM.mkLBM _ _ _) in Hj. pose proof (LBM.IsAllocated_true m' j Hj) as Hr.
    rewrite (LBM.IsAllocated_in_range m') in Hj by done. cbn [LBM.blocks_ m'] in Hj. rewrite Hbs in Hj by exact Hr.
    destruct (decide (j ∈ LBM.select m n)) as [?|?]; [by right|left]. by rewrite LBM.IsAllocated_in_range.
Qed.

Lemma allocate_fails m n code msg m' : LBM.wf m -> HostOffload.AllocateBlockIds m n = (Err code msg, m') -> m' = m.
Proof.
  intros Hwf Ha. pose proof (LBM.num_available_le m Hwf) as Hle. unfold HostOffload.AllocateBlockIds in Ha.
  destruct (decide (0 < n <= LBM.num_available m)) as [Hn|Hn].
  - destruct (LBM.Allocate_Ok m n true Hwf) as (bs & Hl & E & Hbs); [lia|lia|]. by rewrite E in Ha.
  - destruct (LBM.Allocate_not_ok m n true Hwf Hn) as [_ Hm]. by rewrite Ha in Hm.
Qed.

(** ** Eviction *)

(** The block [id] was the host block of an entry nobody had pinned, which is gone. *)
Definition evicted_from (b b' : Backend) (id : Z) : Prop :=
  exists h blk, LRU.PeekIncludingCandidates h (HostOffload.lru_cache_ b) = Some blk ∧ HostOffload.GetPinCount h b = 0 ∧ host_block_id blk = id ∧
    LRU.PeekIncludingCandidates h (HostOffload.lru_cache_ b') = None.

Abbreviation entry h b := (LRU.map_ (HostOffload.lru_cache_ b) !! h).
Lemma erase_entry h b : HostOffload.GetPinCount h b = 0 ->
  LRU.map_ (HostOffload.lru_cache_ (HostOffload.erase h b)) = delete h (LRU.map_ (HostOffload.lru_cache_ b)).
Proof.
  unfold HostOffload.GetPinCount, LRU.GetPinCount, HostOffload.erase, LRU.Erase. cbn. destruct (entry h b) as [n|] eqn:E; [|by rewrite delete_id].
  intros ->. by destruct (LRU.location n).
Qed.
Lemma clear_metadata_lru blk b : HostOffload.lru_cache_ (HostOffload.ClearMetadataEntry blk b) = HostOffload.lru_cache_ b.
Proof. unfold HostOffload.ClearMetadataEntry. by repeat case_match. Qed.

Lemma evict_loop_ids hs st b : (forall h n, entry h (HostOffload.ev_backend st) = Some n -> entry h b = Some n) ->
  Forall (evicted_from b (HostOffload.ev_backend st)) (HostOffload.ev_ids st) ->
  let st' := foldl HostOffload.evict_one st hs in
  Forall (evicted_from b (HostOffload.ev_backend st')) (HostOffload.ev_ids st').
Proof.
  revert st. induction hs as [|h hs IH]; intros st Hsub Hids; [done|]. cbn [foldl]. apply IH; clear IH; unfold HostOffload.evict_one.
  - destruct (LRU.PeekIncludingCandidates _ _) as [blk|]; [|done]. destruct (_ && _) eqn:E; [|done]. apply andb_true_iff in E as [E _]. to_prop.
    intros k n. cbn [HostOffload.ev_backend]. rewrite erase_entry by (unfold HostOffload.GetPinCount; by rewrite clear_metadata_lru).
    rewrite clear_metadata_lru, lookup_delete_Some. intros [_ Hk]. by apply Hsub.
  - destruct (LRU.PeekIncludingCandidates _ _) as [blk|] eqn:Ep; [|done]. destruct (_ && _) eqn:E; [|done]. apply andb_true_iff in E as [E _]. to_prop.
    cbn [HostOffload.ev_backend HostOffload.ev_ids].
    assert (Em : LRU.map_ (HostOffload.lru_cache_ (HostOffload.erase h (HostOffload.ClearMetadataEntry blk (HostOffload.ev_backend st)))) =
      delete h (LRU.map_ (HostOffload.lru_cache_ (HostOffload.ev_backend st)))).
    { rewrite erase_entry by (unfold HostOffload.GetPinCount; by rewrite clear_metadata_lru). by rewrite clear_metadata_lru. }
    apply Forall_app. split.
    + eapply Forall_impl; [exact Hids|]. intros id (k & blk' & H1 & H2 & H3 & H4). exists k, blk'. split_and!; [done..|].
      unfold LRU.PeekIncludingCandidates in *. rewrite Em. destruct (decide (k = h)) as [->|Hne]; [by rewrite lookup_delete_eq|by rewrite lookup_delete_ne].
    + constructor; [|done]. exists h, blk. unfold HostOffload.GetPinCount, LRU.PeekIncludingCandidates, LRU.GetPinCount in *. rewrite Em, lookup_delete_eq.
      destruct (entry h (HostOffload.ev_backend st)) as [n|] eqn:En; [|done]. rewrite (Hsub _ _ En). by split_and!.
Qed.

Lemma deallocate_locked m ids j : LBM.wf m -> LBM.IsLocked (HostOffload.DeallocateBlockIds m ids) j = false -> LBM.IsLocked m j = false ∨ j ∈ ids.
Proof.
  intros Hwf. unfold HostOffload.DeallocateBlockIds, LBM.Deallocate. destruct (for_each _ _ _) as [u|] eqn:E; cbn [snd]; [|by left]. destruct u.
  apply LBM.check_allocated_loop in E. destruct (decide (j ∈ ids)) as [?|Hn]; [by right|left]. revert H. unfold LBM.IsLocked. cbn [LBM.total_blocks_ LBM.blocks_].
  destruct ((j <? 0) || (LBM.total_blocks_ m <=? j)) eqn:Er; [done|]. to_prop.
  change (foldl LBM.free_block (LBM.blocks_ m) ids)
    with (LBM.upd (fun blk => LBM.mkBlock false false (LBM.last_access_counter blk)) ids (LBM.blocks_ m)).
  rewrite LBM.upd_block; [by rewrite decide_False|done| |lia].
  eapply Forall_impl; [exact E|]. intros id [Hr _]. unfold LBM.in_range in Hr. rewrite LBM.wf_length_Z by done. lia.
Qed.

(** A block nobody had locked, or one whose entry the call evicted. *)
Definition fresh_block s s' id : Prop := LBM.IsLocked (manager s) id = false ∨ evicted_from (tier0 s) (tier0 s') id.

Lemma Evict_fresh hs s id : LBM.wf (manager s) -> LBM.IsLocked (manager (Evict hs s).2) id = false -> fresh_block s (Evict hs s).2 id.
Proof.
  intros Hwf. unfold Evict, fresh_block. destruct hs as [|h0 hs0]; [by left|]. cbv beta iota zeta delta [HostOffload.Evict].
  pose proof (evict_loop_ids (h0 :: hs0) (HostOffload.mkEvict [] [] (tier0 s)) (tier0 s) (fun _ _ H => H) (Forall_nil_2 _)) as Hev. cbv zeta in Hev.
  set (st := foldl _ _ _) in *. destruct (HostOffload.ev_ids st) as [|i ids]; [by left|]. cbn [snd]. intros Hl.
  destruct (deallocate_locked (manager s) (i :: ids) id Hwf Hl) as [?|Hin]; [by left|right]. by apply (proj1 (Forall_forall _ _) Hev).
Qed.

(** ** [AllocateBlockIds] *)

(** Everything but the backend and the pool. *)
Definition same_control s s' : Prop :=
  inflight s' = inflight s ∧ results s' = results s ∧ issued s' = issued s ∧ tiers s' = tiers s ∧
  registry_client_ s' = registry_client_ s ∧ write_through s' = write_through s.

Lemma Evict_blocks hs s : sound (manager s) -> sound (manager (Evict hs s).2) ∧ grows [] (manager s) (manager (Evict hs s).2) ∧ same_control s (Evict hs s).2.
Proof.
  intros Hs. assert (Hid : sound (manager s) ∧ grows [] (manager s) (manager s)) by (split; [done|by left]). unfold Evict.
  destruct hs as [|h0 hs0]; [by repeat split; try apply Hid|]. destruct (HostOffload.Evict _ _) as [[ids calls] b].
  destruct ids as [|i ids]; [by repeat split; try apply Hid|]. set (l := i :: ids). destruct Hs as [Hwf Hc].
  destruct (deallocate_shrinks (manager s) l Hwf) as (Hw & Hcc & Hg). cbn [snd]. split_and!; [|exact Hg|by repeat split].
  split; [exact Hw|]. change (LBM.access_counter_ (HostOffload.DeallocateBlockIds (manager s) l) + 1 < 2 ^ 64). lia.
Qed.

Lemma AllocateBlockIds_spec n s : sound (manager s) ->
  let r := AllocateBlockIds n s in
  LBM.wf (manager r.2) ∧ same_control s r.2 ∧
  match r.1 with
  | Ok ids => Z.of_nat (length ids) = n ∧ owns (manager r.2) ids ∧ Forall (fresh_block s r.2) ids ∧ grows ids (manager s) (manager r.2)
  | Err _ _ => grows [] (manager s) (manager r.2)
  end.
Proof.
  intros Hs. unfold AllocateBlockIds. destruct (plan_eviction n s) as [keys|code msg].
  2: { split_and!; [apply Hs|by repeat split|by left]. }
  destruct (Evict_blocks keys s Hs) as ([Hwf Hc] & Hg & Hsame). set (s1 := (Evict keys s).2) in *.
  destruct (HostOffload.AllocateBlockIds (manager s1) n) as [[ids|code msg] m'] eqn:Ea; cbn [fst snd manager set_manager].
  - destruct (allocate_grows _ _ _ _ (conj Hwf Hc) Ea) as [Hw' Hg']. destruct (allocate_owns _ _ _ _ Hwf Ea) as (Hl & Ho & Hu).
    split_and!; [done|by destruct Hsame as (?&?&?&?&?&?)|done|done| |].
    { eapply Forall_impl; [exact Hu|]. intros id Hid. exact (Evict_fresh keys s id (proj1 Hs) Hid). } exact (grows_trans [] ids _ _ _ Hg Hg').
  - rewrite (allocate_fails _ _ _ _ _ Hwf Ea). split_and!; [done|by destruct Hsame as (?&?&?&?&?&?)|exact Hg].
Qed.

(** ** [SaveLocal] *)

(** A block that may be saved: on the device, pinned, not being saved. *)
Definition savable s (e : Hash * RaidenBlockId) : Prop :=
  status e.2 = HBM ∧ device_block_id e.2 ≠ -1 ∧ 0 < pins (ledger s) e.1 ∧ e.1 ∉ saving (ledger s).

Lemma check_save_ok s items ids : for_each (check_save s) items [] = Ok ids ->
  ids = device_block_id <$> items.*2 ∧ Forall (savable s) items.
Proof.
  apply (for_each_ind (check_save s) (fun l r => r = device_block_id <$> l.*2 ∧ Forall (savable s) l)); [done|].
  intros done_ [h blk] rest st st' _ [-> Hall] Hb. unfold check_save in Hb.
  destruct (negb _) eqn:E1 in Hb; [done|]. destruct (_ =? -1) eqn:E2 in Hb; [done|]. destruct (_ <=? 0) eqn:E3 in Hb; [done|].
  destruct (bool_decide (h ∈ _)) eqn:E4 in Hb; [done|]. injection Hb as <-. to_prop.
  split; [by rewrite !fmap_app|]. apply Forall_app. split; [done|]. constructor; [|done]. split_and!; cbn; try done.
Qed.

(** Marks and clears do not reach the pool. *)
Lemma clear_mark_control hs s s' : (forall h, h ∈ hs -> h ∉ saving_hashes_ (inflight s)) ->
  inflight s' = inflight (mark_saving hs s) -> inflight (clear_saving hs s') = inflight s.
Proof.
  intros Hn E. pose proof (clear_mark_saving hs s Hn) as Hc. unfold clear_saving, on_inflight in *. cbn [inflight set_inflight].
  rewrite E. by rewrite <-Hc at 3.
Qed.

(** A local save.  A call that is refused, because a block is unknown, not on the device, not
    pinned or already being saved, or because no host blocks can be found for it, leaves
    the operations in flight and the marks exactly as they were, issues no transfer and
    leaves no host block newly allocated.  A call that is accepted has checked every block,
    owns one locked host block per hash, has issued the transfer from the device blocks the
    index names to those host blocks, and has recorded the save and marked its hashes. *)
Theorem store_save_local registry hs s : good s -> sound (manager s) ->
  let r := SaveLocal registry hs s in
  LBM.wf (manager r.2) ∧
  match r.1 with
  | Err _ _ => inflight r.2 = inflight s ∧ issued r.2 = issued s ∧ results r.2 = results s ∧ grows [] (manager s) (manager r.2)
  | Ok _ => exists ids slices, slices.*1 = hs ∧ Forall (savable s) slices ∧
      Forall (fun e => index (ledger s) e.1 = Some e.2) slices ∧
      length ids = length hs ∧ owns (manager r.2) ids ∧ grows ids (manager s) (manager r.2) ∧
      issued r.2 = issued s ++ [IssuedTransfer (HostOffload.TransferBuffers
        (HostOffload.hbm_buffers (device_block_id <$> slices.*2)) (HostOffload.dram_buffers ids))] ∧
      active_saves_ (inflight r.2) = active_saves_ (inflight s) ++ [mkSave (length (issued s)) hs ids] ∧
      saving (ledger r.2) = list_to_set hs ∪ saving (ledger s)
  end.
Proof.
  intros Hg Hs. unfold SaveLocal, save_begin.
  destruct (Lookup_nopin registry hs default_options (tier0 s) Hg eq_refl) as (_ & Hle & Hpre & Hin).
  fold (lookup0 registry default_options hs s) in Hle, Hpre, Hin. set (slices := lookup0 registry default_options hs s) in *.
  destruct (_ <? _)%nat eqn:El.
  { cbn [fst snd]. split_and!; [apply Hs|done|done|done|by left]. }
  apply Nat.ltb_ge in El. rewrite take_ge in Hpre by lia.
  assert (Hz : zip hs slices.*2 = slices) by (rewrite <-Hpre; apply zip_fst_snd). rewrite Hz.
  destruct (for_each _ _ _) as [src|code msg] eqn:Ec.
  2: { cbn [fst snd]. split_and!; [apply Hs|done|done|done|by left]. }
  apply check_save_ok in Ec as [-> Hall].
  assert (Hfresh : forall h, h ∈ hs -> h ∉ saving_hashes_ (inflight s)).
  { intros h Hh. rewrite <-Hpre in Hh. apply list_elem_of_fmap in Hh as (e & -> & He). by apply (proj1 (Forall_forall _ _) Hall e He). }
  pose proof (AllocateBlockIds_spec (Z.of_nat (length hs)) (mark_saving hs s) Hs) as (Hw & (Hinf & Hres & Hiss & _) & Hal).
  destruct (AllocateBlockIds _ (mark_saving hs s)) as [[ids|code msg] s2]; cbn [fst snd] in *.
  - destruct Hal as (Hl & Ho & _ & Hgr). split; [exact Hw|]. exists ids, slices.
    split_and!; [done|done| |lia|done|done| | |].
    + apply Forall_lookup. intros i [h blk] Hi. destruct (Hin i h blk Hi) as [_ [?|Hr]]; [done|].
      pose proof (Forall_lookup_1 _ _ _ _ Hall Hi) as (Hst & _). cbn in *. congruence.
    + cbn. by rewrite Hiss.
    + cbn. by rewrite Hinf, Hiss.
    + cbn. by rewrite Hinf.
  - split_and!; [exact Hw|by apply clear_mark_control|exact Hiss|exact Hres|exact Hal].
Qed.

(** ** Grouping a remote read by peer *)

Abbreviation Item := (Hash * RaidenBlockId * Z * Z)%type.
Implicit Types (it : Item) (items : list Item) (id : RaidenId).

Definition source_of it : RaidenId := raiden_id it.1.1.2.

(** The peers, in the order in which they first occur. *)
Definition sources items : list RaidenId :=
  foldl (fun acc it => if bool_decide (source_of it ∈ acc) then acc else acc ++ [source_of it]) [] items.

(** The part of a read that one peer serves. *)
Definition group_of items id : RemoteReadGroup :=
  let mine := filter (fun it => source_of it = id) items in
  mkGroup id EmptyString ((fun it => host_block_id it.1.1.2) <$> mine) ((fun it => it.1.2) <$> mine)
    ((fun it => it.1.1.1) <$> mine) (snd <$> mine).

Definition group_loop (groups : list RemoteReadGroup) items : list RemoteReadGroup :=
  foldl (fun gs it => add_to_group it.1.1.1 it.1.1.2 it.1.2 it.2 gs) groups items.

Lemma sources_snoc items it : sources (items ++ [it]) =
  if bool_decide (source_of it ∈ sources items) then sources items else sources items ++ [source_of it].
Proof. unfold sources. by rewrite foldl_app. Qed.

Lemma sources_spec items : NoDup (sources items) ∧ forall id, id ∈ sources items <-> exists it, it ∈ items ∧ source_of it = id.
Proof.
  induction items as [|it items [Hnd IH]] using rev_ind.
  { split; [apply NoDup_nil_2|]. intros id. split; [by intros ?%elem_of_nil|]. by intros (it & ?%elem_of_nil & _). }
  rewrite sources_snoc. case_bool_decide as E.
  - split; [done|]. intros id. rewrite IH. apply IH in E as (it0 & H0 & E0). split.
    + intros (it' & ? & ?). exists it'. split; [set_solver|done].
    + intros (it' & [Hi|Hi%list_elem_of_singleton]%elem_of_app & Ei); [by exists it'|]. subst it'. exists it0. split; [done|congruence].
  - split; [apply NoDup_app; split_and!; [done| |apply NoDup_singleton]; intros x Hx Hs%list_elem_of_singleton; by subst|].
    intros id. rewrite elem_of_app, IH, list_elem_of_singleton. split.
    + intros [(it' & ? & ?)| ->]; [exists it'|exists it]; split; try done; set_solver.
    + intros (it' & [Hi|Hi%list_elem_of_singleton]%elem_of_app & Ei); [left; by exists it'|]. subst it'. by right.
Qed.

Lemma group_of_other items it id : source_of it ≠ id -> group_of (items ++ [it]) id = group_of items id.
Proof. intros Hne. unfold group_of. rewrite filter_app, filter_cons, decide_False, filter_nil, app_nil_r by done. done. Qed.

Definition extend_with it (g : RemoteReadGroup) : RemoteReadGroup :=
  mkGroup (src_raiden_id g) (src_controller_address g) (src_host_block_ids g ++ [host_block_id it.1.1.2])
    (dst_host_block_ids g ++ [it.1.2]) (gr_block_hashes g ++ [it.1.1.1]) (gr_device_block_ids g ++ [it.2]).

Lemma group_of_own items it : group_of (items ++ [it]) (source_of it) = extend_with it (group_of items (source_of it)).
Proof. unfold group_of, extend_with. rewrite filter_app, filter_cons, decide_True, filter_nil by done. cbn. by rewrite !fmap_app. Qed.

Lemma group_of_new items it : source_of it ∉ sources items ->
  group_of (items ++ [it]) (source_of it) = extend_with it (mkGroup (source_of it) EmptyString [] [] [] []).
Proof.
  intros Hn. rewrite group_of_own. unfold group_of. f_equal.
  assert (E : filter (fun it' => source_of it' = source_of it) items = []).
  { destruct (filter _ items) as [|x l] eqn:E; [done|]. exfalso.
    assert (Hx : x ∈ filter (fun it' => source_of it' = source_of it) items) by (rewrite E; apply list_elem_of_here).
    apply list_elem_of_filter in Hx as [Ex Hx]. apply Hn, sources_spec. by exists x. }
  cbv zeta. by rewrite E.
Qed.

(** The loop's table is, peer by peer, the reference grouping. *)
Lemma group_loop_reference items : group_loop [] items = group_of items <$> sources items.
Proof.
  induction items as [|it items IH] using rev_ind; [done|]. unfold group_loop in *. rewrite foldl_app, IH. cbn [foldl].
  unfold add_to_group. fold (source_of it). fold (extend_with it). rewrite sources_snoc. destruct (sources_spec items) as [Hnd _].
  destruct (list_find _ _) as [[j g]|] eqn:Ef.
  - apply list_find_Some in Ef as (Hj & Hg%RaidenId_eqb_eq & _). rewrite list_lookup_fmap in Hj.
    destruct (sources items !! j) as [id|] eqn:Hid; [|done]. cbn in Hj. injection Hj as <-. cbn in Hg. subst id.
    rewrite bool_decide_eq_true_2 by (by eapply list_elem_of_lookup_2). apply list_eq. intros k.
    rewrite list_lookup_alter, !list_lookup_fmap. destruct (decide (j = k)) as [<-|Hne].
    + rewrite Hid. cbn. by rewrite group_of_own.
    + destruct (sources items !! k) as [id|] eqn:Hk; [|done]. cbn. rewrite group_of_other; [done|]. intros E. subst id.
      apply Hne. by eapply NoDup_lookup.
  - apply list_find_None in Ef. assert (Hn : source_of it ∉ sources items).
    { intros Hin. rewrite Forall_fmap, Forall_forall in Ef. apply (Ef _ Hin). cbn. by apply RaidenId_eqb_eq. }
    rewrite bool_decide_eq_false_2 by done. rewrite fmap_app. cbn [fmap list_fmap]. rewrite group_of_new by done. f_equal.
    apply list_fmap_ext. intros i id Hid. rewrite group_of_other; [done|]. intros <-. apply Hn. by eapply list_elem_of_lookup_2.
Qed.

(** ** [ReadRemote] *)

Lemma mark_reading_nil s : mark_reading [] s = s.
Proof.
  unfold mark_reading, on_inflight. destruct s as [? ? ? ? ? [] ? ? ? ? ? ?]. cbn.
  unfold set_reading_hashes, set_inflight. cbn. by rewrite (left_id_L ∅ (∪)).
Qed.

Lemma mark_reading_snoc hs h s : mark_reading [h] (mark_reading hs s) = mark_reading (hs ++ [h]) s.
Proof.
  unfold mark_reading, on_inflight, set_inflight, set_reading_hashes. destruct s as [? ? ? ? ? [] ? ? ? ? ? ?]. cbn.
  do 2 f_equal. rewrite list_to_set_app_L. set_solver.
Qed.

Lemma clear_mark_reading hs s s' : (forall h, h ∈ hs -> h ∉ reading_hashes_ (inflight s)) ->
  inflight s' = inflight (mark_reading hs s) -> inflight (clear_reading hs s') = inflight s.
Proof.
  intros Hn E. unfold clear_reading, on_inflight. cbn [inflight set_inflight]. rewrite E.
  unfold mark_reading, on_inflight, set_reading_hashes. destruct s as [? ? ? ? ? [] ? ? ? ? ? ?]. cbn in *. f_equal.
  apply set_eq. intros h. rewrite elem_of_difference, elem_of_union, elem_of_list_to_set. specialize (Hn h). tauto.
Qed.

Definition fresh_reads s hs : Prop := NoDup hs ∧ forall h, h ∈ hs -> h ∉ reading_hashes_ (inflight s).

Lemma mark_and_group_spec marked0 groups0 items s0 : fresh_reads s0 marked0 ->
  let r := mark_and_group marked0 groups0 items (mark_reading marked0 s0) in
  r.2 = mark_reading r.1.2 s0 ∧ fresh_reads s0 r.1.2 ∧
  forall groups, r.1.1 = Ok groups -> r.1.2 = marked0 ++ items.*1.*1.*1 ∧ groups = group_loop groups0 items.
Proof.
  revert marked0 groups0. induction items as [|[[[h blk] dst] dev] items IH]; intros marked0 groups0 [Hnd Hf]; cbn [mark_and_group].
  { split_and!; [done|done|]. intros groups [= <-]. by rewrite app_nil_r. }
  destruct (bool_decide _) eqn:E; [by split_and!|]. apply bool_decide_eq_false in E. cbn in E.
  rewrite elem_of_union, elem_of_list_to_set in E. rewrite mark_reading_snoc.
  destruct (IH (marked0 ++ [h]) (add_to_group h blk dst dev groups0)) as (H1 & H2 & H3).
  - split; [apply NoDup_app; split_and!; [done| |apply NoDup_singleton]; intros k Hk Hs%list_elem_of_singleton; subst; tauto|].
    intros k [Hk|Hk%list_elem_of_singleton]%elem_of_app; [by apply Hf|]. subst k. tauto.
  - split_and!; [done|done|]. intros groups Hg. destruct (H3 groups Hg) as [-> ->]. by rewrite <-app_assoc.
Qed.

(** Resolving addresses reaches only the cache of addresses. *)
Lemma resolve_groups_spec rc done_ groups s :
  let r := resolve_groups rc done_ groups s in
  same_control s r.2 ∧ manager r.2 = manager s ∧
  forall gs, r.1 = Ok gs -> exists more, gs = done_ ++ more ∧
    Forall2 (fun g g' => exists addr, addr ≠ EmptyString ∧ g' = with_address addr g) groups more.
Proof.
  revert done_ s. induction groups as [|g groups IH]; intros done_ s; cbn [resolve_groups].
  { split_and!; [by repeat split|done|]. intros gs [= <-]. exists []. by rewrite app_nil_r. }
  assert (Hg : same_control s (resolve_group rc g s).2 ∧ manager (resolve_group rc g s).2 = manager s ∧
    forall g', (resolve_group rc g s).1 = Ok g' -> exists addr, addr ≠ EmptyString ∧ g' = with_address addr g).
  { unfold resolve_group. cbv zeta. case_bool_decide as E; cbn [negb].
    - destruct (rc _) as [addr|]; [|by repeat split]. case_bool_decide as E2; [by repeat split|].
      split_and!; [by repeat split|done|]. intros g' [= <-]. by exists addr.
    - split_and!; [by repeat split|done|]. intros g' [= <-]. by eexists. }
  destruct (resolve_group rc g s) as [[g'|code msg] s1]; cbn [fst snd] in Hg; destruct Hg as (Hc & Hm & Ha); [|by split_and!].
  destruct (IH (done_ ++ [g']) s1) as (Hc' & Hm' & Hgs). split_and!; [|congruence|].
  - destruct Hc as (?&?&?&?&?&?), Hc' as (?&?&?&?&?&?). repeat split; congruence.
  - intros gs Hr. destruct (Hgs gs Hr) as (more & -> & Hf). exists (g' :: more). rewrite <-app_assoc. split; [done|].
    constructor; [by apply Ha|done].
Qed.

Lemma resolve_groups_tier0 rc done_ groups s : tier0 (resolve_groups rc done_ groups s).2 = tier0 s.
Proof.
  revert done_ s. induction groups as [|g groups IH]; intros done_ s; cbn [resolve_groups]; [done|].
  assert (Hg : tier0 (resolve_group rc g s).2 = tier0 s) by (unfold resolve_group; by repeat case_match).
  destruct (resolve_group rc g s) as [[g'|code msg] s1]; cbn [snd] in *; [by rewrite IH|done].
Qed.

(** The cleanup gives back what the call allocated and marked. *)
Lemma read_cleanup_spec marked ids s s' : fresh_reads s marked -> inflight s' = inflight (mark_reading marked s) ->
  LBM.wf (manager s') -> owns (manager s') ids -> grows ids (manager s) (manager s') ->
  let r := read_cleanup marked ids s' in
  inflight r = inflight s ∧ LBM.wf (manager r) ∧ grows [] (manager s) (manager r).
Proof.
  intros [_ Hf] Hi Hw Ho Hg. split_and!; [by apply clear_mark_reading|by apply deallocate_shrinks|].
  intros j Hj. change (manager (read_cleanup marked ids s')) with (HostOffload.DeallocateBlockIds (manager s') ids) in Hj.
  rewrite (deallocate_frees _ _ Hw Ho j) in Hj. apply andb_true_iff in Hj as [Hj Hn]. apply negb_true_iff, bool_decide_eq_false in Hn.
  destruct (Hg j Hj); [by left|done].
Qed.

(** What an accepted read leaves behind. *)
Definition reads s hs slices device_block_ids s' : Prop :=
  fresh_reads s hs ∧ length slices = length hs ∧ length device_block_ids = length hs ∧
  exists ids groups, let items := zip (zip (zip hs slices) ids) device_block_ids in
    length ids = length hs ∧ owns (manager s') ids ∧ Forall (fresh_block s s') ids ∧ grows ids (manager s) (manager s') ∧
    Forall2 (fun id g => exists addr, addr ≠ EmptyString ∧ g = with_address addr (group_of items id)) (sources items) groups ∧
    issued s' = issued s ++ [IssuedRead groups] ∧
    active_remote_reads_ (inflight s') = active_remote_reads_ (inflight s) ++ [(length (issued s), mkRead hs (sources items) ids)] ∧
    reading_hashes_ (inflight s') = list_to_set hs ∪ reading_hashes_ (inflight s).

(** C39: A remote read.  A call that fails at any stage (a size mismatch, no landing blocks, a
    block already being read, no controller, no registry, a peer that cannot be resolved)
    leaves no mark, no operation, no transfer and no newly allocated host block.  An accepted
    call on some hashes owns one locked landing block per hash, all distinct, each of which
    nobody had locked before or was the host block of a cache entry without pins that the
    call evicted; so no landing block of another read in flight is among them.  It asks every
    peer that has some of the blocks, once and at a non-empty address, for exactly its blocks
    in the order of the call, and has recorded the read and marked its hashes.  The pool's
    access counter is assumed not to be about to wrap around. *)
Theorem store_read_remote has_controller rc hs slices device_block_ids s : sound (manager s) ->
  let r := ReadRemote has_controller rc hs slices device_block_ids s in
  LBM.wf (manager r.2) ∧
  match r.1 with
  | Err _ _ => inflight r.2 = inflight s ∧ issued r.2 = issued s ∧ results r.2 = results s ∧ grows [] (manager s) (manager r.2)
  | Ok _ => hs = [] ∧ r.2 = s ∨ reads s hs slices device_block_ids r.2
  end.
Proof.
  intros Hs. unfold ReadRemote. destruct (_ =? 0)%nat eqn:E0.
  { apply Nat.eqb_eq in E0. destruct hs; [|done]. split; [apply Hs|by left]. }
  destruct (negb _) eqn:E1; [cbn [fst snd]; split_and!; [apply Hs|done|done|done|by left]|].
  destruct (negb _) eqn:E2 in |- *; [cbn [fst snd]; split_and!; [apply Hs|done|done|done|by left]|].
  apply negb_false_iff, Nat.eqb_eq in E1, E2.
  pose proof (AllocateBlockIds_spec (Z.of_nat (length hs)) s Hs) as (Hw & (Hinf & Hres & Hiss & _ & Hreg & _) & Hal).
  destruct (AllocateBlockIds _ s) as [[ids|code msg] s1]; cbn [fst snd] in *; [|by split_and!].
  destruct Hal as (Hl & Ho & Hfresh & Hg). set (items := zip (zip (zip hs slices) ids) device_block_ids).
  pose proof (mark_and_group_spec [] [] items s1) as Hm. rewrite mark_reading_nil in Hm.
  destruct Hm as (Hs2 & Hfr & Hgr); [split; [apply NoDup_nil_2|by intros h ?%elem_of_nil]|].
  destruct (mark_and_group [] [] items s1) as [[groups_or marked] s2]; cbn [fst snd] in *.
  assert (Hfr0 : fresh_reads s marked) by (unfold fresh_reads in *; by rewrite <-Hinf).
  assert (Hclean : forall s3, inflight s3 = inflight s2 -> manager s3 = manager s1 -> issued s3 = issued s1 -> results s3 = results s1 ->
    LBM.wf (manager (read_cleanup marked ids s3)) ∧ inflight (read_cleanup marked ids s3) = inflight s ∧
    issued (read_cleanup marked ids s3) = issued s ∧ results (read_cleanup marked ids s3) = results s ∧
    grows [] (manager s) (manager (read_cleanup marked ids s3))).
  { intros s3 H1 H2 H3 H4. destruct (read_cleanup_spec marked ids s s3 Hfr0) as (R1 & R2 & R3); try (by rewrite H2).
    - rewrite H1, Hs2. unfold mark_reading, on_inflight. cbn [inflight set_inflight]. by rewrite Hinf.
    - split_and!; [done|done|by rewrite <-Hiss, <-H3|by rewrite <-Hres, <-H4|done]. }
  destruct groups_or as [groups|code msg]; [|apply Hclean; by rewrite ?Hs2].
  destruct (Hgr groups eq_refl) as [Hmk ->]. rewrite group_loop_reference.
  destruct has_controller; cbn [negb]; [|apply Hclean; by rewrite ?Hs2].
  destruct (registry_client_ s2); cbn [negb]; [|apply Hclean; by rewrite ?Hs2].
  pose proof (resolve_groups_spec rc [] (group_of items <$> sources items) s2) as (Hc3 & Hm3 & Hgs).
  pose proof (resolve_groups_tier0 rc [] (group_of items <$> sources items) s2) as Ht3.
  destruct (resolve_groups _ _ _ s2) as [[groups|code msg] s3]; cbn [fst snd] in *; destruct Hc3 as (C1 & C2 & C3 & _).
  2: { apply Hclean; [done|by rewrite Hm3, Hs2|by rewrite C3, Hs2|by rewrite C2, Hs2]. }
  destruct (Hgs groups eq_refl) as (more & -> & Hf). cbn [app] in *. rewrite Forall2_fmap_l in Hf.
  assert (Hhs : marked = hs).
  { rewrite Hmk. unfold items. cbn [app]. rewrite !fst_zip; [done| | |]; rewrite ?length_zip; lia. }
  clear Hmk. subst marked. split; [cbn; by rewrite Hm3, Hs2|]. right. split; [exact Hfr0|]. do 2 (split; [done|]).
  exists ids, more. fold items. cbn [fst snd issue]. set (s4 := on_inflight _ _).
  assert (Hm4 : manager s4 = manager s1) by (cbn; by rewrite Hm3, Hs2). cbv zeta. rewrite Hm4.
  assert (Ht4 : tier0 s4 = tier0 s1) by (cbn; by rewrite Ht3, Hs2).
  split_and!; [lia|done|unfold fresh_block; rewrite Ht4; exact Hfresh|done|exact Hf| | |].
  - cbn. by rewrite C3, Hs2, <-Hiss.
  - cbn. rewrite C1, C3, Hs2. cbn. rewrite Hinf, Hiss. do 4 f_equal.
    clear -Hf. induction Hf as [|id g l k (addr & _ & ->) _ IH]; [done|]. cbn. by rewrite IH.
  - cbn. by rewrite C1, Hs2, <-Hinf.
Qed.

(** ** Evaluations *)

(** Two device blocks, pinned. *)
Definition device_blocks : Backend :=
  HostOffload.run [HostOffload.OpInsertAndLock [[1]; [2]] [mkBlockId (node 1) (-1) 40 HBM; mkBlockId (node 1) (-1) 41 HBM]]
    (HostOffload.create 4 None (node 1) true EmptyString).
Definition device_store : KVCacheStore := set_registry_client true (empty_store device_blocks (LBM.create 4)).

Lemma device_store_good : good device_store.
Proof. apply HostOffload.backend_run_wf, LRU.create_wf. Qed.
Lemma device_store_sound : sound (manager device_store).
Proof. split; [by apply LBM.lbm_create_wf|]. vm_compute. reflexivity. Qed.

Lemma store_save_local_witness :
  let r := SaveLocal (fun _ => Ok []) [[1]; [2]] device_store in
  r.1 = OkStatus ∧ exists ids, length ids = 2%nat ∧ owns (manager r.2) ids ∧ length (issued r.2) = 1%nat.
Proof.
  intros r. assert (Hok : r.1 = OkStatus) by (vm_compute; reflexivity). split; [exact Hok|].
  destruct (store_save_local (fun _ => Ok []) [[1]; [2]] device_store device_store_good device_store_sound) as [_ H].
  fold r in H. rewrite Hok in H. destruct H as (ids & slices & _ & _ & _ & Hl & Ho & _ & Hi & _).
  exists ids. split_and!; [exact Hl|exact Ho|]. by rewrite Hi.
Defined.

(** Three blocks that two peers have. *)
Definition remote_slices : list RaidenBlockId := [host_block (node 2) 7 REMOTE; host_block (node 3) 8 REMOTE; host_block (node 2) 9 REMOTE].

Lemma store_read_remote_witness :
  let r := ReadRemote true peer [[5]; [6]; [7]] remote_slices [50; 51; 52] device_store in
  r.1 = OkStatus ∧ reads device_store [[5]; [6]; [7]] remote_slices [50; 51; 52] r.2.
Proof.
  intros r. assert (Hok : r.1 = OkStatus) by (vm_compute; reflexivity). split; [exact Hok|].
  destruct (store_read_remote true peer [[5]; [6]; [7]] remote_slices [50; 51; 52] device_store device_store_sound) as [_ H].
  fold r in H. rewrite Hok in H. destruct H as [[H _]|H]; [discriminate|exact H].
Defined.

Definition read_groups s : list (RaidenId * list Z) :=
  issued s ≫= fun i => match i with IssuedRead gs => (fun g => (src_raiden_id g, src_host_block_ids g)) <$> gs | _ => [] end.

Lemma read_groups_example :
  read_groups (ReadRemote true peer [[5]; [6]; [7]] remote_slices [50; 51; 52] device_store).2 = [(node 2, [7; 9]); (node 3, [8])].
Proof. vm_compute. reflexivity. Qed.

(** A save whose batch names a hash twice passes the checks, which only look at marks set
    before the call: two host blocks are allocated, the index keeps the second, and the
    first stays allocated when the entry is gone. *)
Lemma duplicate_save_leaks :
  let s1 := (SaveLocal (fun _ => Ok []) [[1]; [1]] (set_registry_client false device_store)).2 in
  let s2 := foldl (fun s st => poll_save (fun _ => Ok []) st OkStatus s) s1 (active_saves_ (inflight s1)) in
  let s3 := (Evict [[1]] (set_tier0 (HostOffload.Release [[1]] (tier0 s2)) s2)).2 in
  (host_block_id <$> LRU.Peek [1] (HostOffload.lru_cache_ (tier0 s2))) = Some 1 ∧
  LRU.Peek [1] (HostOffload.lru_cache_ (tier0 s3)) = None ∧
  LBM.IsAllocated (manager s3) 0 = true ∧ LBM.IsAllocated (manager s3) 1 = false.
Proof. cbv zeta. split_and!; vm_compute; reflexivity. Qed.

End StoreBlocks.
