(* ===== verification/GlobalRegistry.v ===== *)
(** * The global block registry ([src/tpu_sync/kv_cache/global_registry/])

    [Module RegistryServer] is the server ([global_registry_server.cc]): which node has which block
    and until when, where the stores are, and the transfer specification of every pool
    group; one function per handler, with the time at which it runs as an argument.
    [Module RegistryClient] is the client ([global_registry_client.cc]).  Times and durations
    are nanoseconds; [None] is [InfiniteFuture] and [InfiniteDuration].  A hash map's
    iteration order is an argument where an answer depends on it. *)

From S2P Require Import Prelude Bytes ReshardTypes StoreBackend HostOffloadBackend.

Module RegistryServer.

Abbreviation Time := (option Z).
Abbreviation Duration := (option Z).
Abbreviation KVBlockMetadata := HostOffload.KVBlockMetadata.
Abbreviation KVTransferSpec := HostOffload.KVTransferSpecConfig.

Definition Seconds (n : Z) : Z := n * 1000000000.
(** [now + d], which saturates. *)
Definition plus (now : Z) (d : Duration) : Time := (fun d => now + d) <$> d.
(** [expire_time > now]. *)
Definition live (now : Z) (expire_time : Time) : bool :=
  match expire_time with None => true | Some t => now <? t end.

(** ** State *)

Record RegistryEntry : Type := mkEntry {
  en_raiden_id : RaidenId;
  en_block_id : Z;
  en_expire_time : Time
}.

Record StoreRecord : Type := mkStoreRecord {
  store_server_address : string;
  controller_address : string;
  st_expire_time : Time;
  st_ttl : Duration;
  kv_pool_group : string;
  evict_tier : Z;
  free_blocks : Z
}.

Record GlobalRegistryServiceImpl : Type := mkRegistry {
  default_ttl_ : Duration;
  pull_owned_batch_size_ : nat;
  registry_ : gmap Hash (list RegistryEntry);
  round_robin_indices_ : gmap Hash nat;
  owner_index_ : gmap RaidenId (gset Hash);
  store_registry_ : gmap RaidenId StoreRecord;
  transfer_specs_ : gmap string KVTransferSpec
}.

Implicit Types (s : GlobalRegistryServiceImpl) (id : RaidenId) (h : Hash) (e : RegistryEntry) (now : Z).

Definition kDefaultPullOwnedBatchSize : nat := 4096.
Definition kDefaultMaxPlacementTargets : Z := 3.

Definition create (default_ttl : Duration) (pull_owned_batch_size : Z) : GlobalRegistryServiceImpl :=
  mkRegistry default_ttl (if 0 <? pull_owned_batch_size then Z.to_nat pull_owned_batch_size else kDefaultPullOwnedBatchSize)
    ∅ ∅ ∅ ∅ ∅.

Definition with_registry x s : GlobalRegistryServiceImpl :=
  mkRegistry (default_ttl_ s) (pull_owned_batch_size_ s) x (round_robin_indices_ s) (owner_index_ s) (store_registry_ s) (transfer_specs_ s).
Definition with_round_robin x s : GlobalRegistryServiceImpl :=
  mkRegistry (default_ttl_ s) (pull_owned_batch_size_ s) (registry_ s) x (owner_index_ s) (store_registry_ s) (transfer_specs_ s).
Definition with_owner_index x s : GlobalRegistryServiceImpl :=
  mkRegistry (default_ttl_ s) (pull_owned_batch_size_ s) (registry_ s) (round_robin_indices_ s) x (store_registry_ s) (transfer_specs_ s).
Definition with_stores x s : GlobalRegistryServiceImpl :=
  mkRegistry (default_ttl_ s) (pull_owned_batch_size_ s) (registry_ s) (round_robin_indices_ s) (owner_index_ s) x (transfer_specs_ s).
Definition with_specs x s : GlobalRegistryServiceImpl :=
  mkRegistry (default_ttl_ s) (pull_owned_batch_size_ s) (registry_ s) (round_robin_indices_ s) (owner_index_ s) (store_registry_ s) x.

(** A response that carries its own verdict. *)
Record Reply : Type := mkReply { success : bool; error_message : list Frag }.
Definition reply_ok : Reply := mkReply true [].
Definition reply_error (msg : list Frag) : Reply := mkReply false msg.

(** A [raiden_id] field that is unset or names no job. *)
Definition named (p : option RaidenIdProto) : option RaidenId :=
  match p with
  | Some p => let id := RaidenIdFromProto p in if bool_decide (job_name id = EmptyString) then None else Some id
  | None => None
  end.

(** ** Blocks *)

Record RegisterEntry : Type := mkRegisterEntry {
  re_prefix_hash : Hash;
  re_metadata : option (option RaidenIdProto * Z);
  re_ttl_seconds : Z
}.

Definition check_entry (x : RegisterEntry) : Status :=
  if (length (re_prefix_hash x) =? 0)%nat then Err kInvalidArgument StrCat["prefix_hash cannot be empty"]
  else
    match re_metadata x with
    | Some (p, _) =>
        match named p with
        | Some _ => OkStatus
        | None => Err kInvalidArgument StrCat["metadata.raiden_id.job_name cannot be empty"]
        end
    | None => Err kInvalidArgument StrCat["metadata.raiden_id.job_name cannot be empty"]
    end.

(** The entry of this owner is overwritten, or a new one is appended and indexed. *)
Definition put_entry (entry : RegistryEntry) (entries : list RegistryEntry) : bool * list RegistryEntry :=
  match list_find (fun e => RaidenId_eqb (en_raiden_id e) (en_raiden_id entry) = true) entries with
  | Some (j, _) => (true, <[j := entry]> entries)
  | None => (false, entries ++ [entry])
  end.

Definition register_one now s (x : RegisterEntry) : GlobalRegistryServiceImpl :=
  match re_metadata x with
  | Some (Some p, block_id) =>
      let id := RaidenIdFromProto p in
      let ttl := if 0 <? re_ttl_seconds x then Some (Seconds (re_ttl_seconds x)) else default_ttl_ s in
      let entries := default [] (registry_ s !! re_prefix_hash x) in
      let '(found, entries) := put_entry (mkEntry id block_id (plus now ttl)) entries in
      let s := with_registry (<[re_prefix_hash x := entries]> (registry_ s)) s in
      if found then s
      else with_owner_index (<[id := {[re_prefix_hash x]} ∪ default ∅ (owner_index_ s !! id)]> (owner_index_ s)) s
  | _ => s
  end.

Definition Register now (entries : list RegisterEntry) s : Reply * GlobalRegistryServiceImpl :=
  match for_each (fun _ => check_entry) entries tt with
  | Err _ msg => (reply_error msg, s)
  | Ok _ => (reply_ok, foldl (register_one now) s entries)
  end.

(** One hash: the next live entry in turn. *)
Definition pick now h s : option (KVBlockMetadata * GlobalRegistryServiceImpl) :=
  match registry_ s !! h with
  | None => None
  | Some entries =>
      let valid_entries := filter (fun e => live now (en_expire_time e) = true) entries in
      if (length valid_entries =? 0)%nat then None
      else
        let idx := (default 0 (round_robin_indices_ s !! h) mod length valid_entries)%nat in
        match valid_entries !! idx with
        | None => None
        | Some picked =>
            Some (HostOffload.mkKVBlock (RaidenIdToProto (en_raiden_id picked)) (en_block_id picked),
                  with_round_robin (<[h := S idx]> (round_robin_indices_ s)) s)
        end
  end.

Fixpoint Lookup now (prefix_hashes : list Hash) s : list KVBlockMetadata * GlobalRegistryServiceImpl :=
  match prefix_hashes with
  | [] => ([], s)
  | h :: rest =>
      match pick now h s with
      | None => ([], s)
      | Some (meta, s) => let '(results, s) := Lookup now rest s in (meta :: results, s)
      end
  end.

Definition EraseFromOwnerIndex id h (owners : gmap RaidenId (gset Hash)) : gmap RaidenId (gset Hash) :=
  match owners !! id with
  | None => owners
  | Some hashes =>
      let hashes := hashes ∖ {[h]} in
      if bool_decide (hashes = ∅) then delete id owners else <[id := hashes]> owners
  end.

Definition drop_if_empty h s : GlobalRegistryServiceImpl :=
  match registry_ s !! h with
  | Some [] => with_round_robin (delete h (round_robin_indices_ s)) (with_registry (delete h (registry_ s)) s)
  | _ => s
  end.

Definition unregister_one id (acc : list (list Frag) * GlobalRegistryServiceImpl) h :
    list (list Frag) * GlobalRegistryServiceImpl :=
  let '(errors, s) := acc in
  if (length h =? 0)%nat then acc
  else
    match registry_ s !! h with
    | None => acc
    | Some entries =>
        let rest := filter (fun e => RaidenId_eqb (en_raiden_id e) id = false) entries in
        let s' := with_registry (<[h := rest]> (registry_ s)) s in
        if (length rest =? length entries)%nat then
          (errors ++ [StrCat[BytesToHexString h; ": raiden_id mismatch or not found"]], drop_if_empty h s')
        else (errors, drop_if_empty h (with_owner_index (EraseFromOwnerIndex id h (owner_index_ s)) s'))
    end.

Fixpoint join_errors (errors : list (list Frag)) : list Frag :=
  match errors with
  | [] => []
  | [e] => e
  | e :: rest => e ++ StrCat["; "] ++ join_errors rest
  end.

Definition Unregister (prefix_hashes : list Hash) (raiden_id : option RaidenIdProto) s : Reply * GlobalRegistryServiceImpl :=
  match named raiden_id with
  | None => (reply_error StrCat["raiden_id cannot be empty"], s)
  | Some id =>
      let '(errors, s) := foldl (unregister_one id) ([], s) prefix_hashes in
      (mkReply (length errors =? 0)%nat (join_errors errors), s)
  end.

(** ** What a node owns *)

Record PullOwnedEntry : Type := mkPulled {
  pl_prefix_hash : Hash;
  pl_block_id : Z;
  remaining_ttl_seconds : Z
}.

Definition ceil_seconds (d : Z) : Z :=
  let seconds := d ÷ 1000000000 in
  if Seconds seconds <? d then seconds + 1 else seconds.

Definition remaining now (expire_time : Time) : Z :=
  match expire_time with None => 0 | Some t => Z.max (ceil_seconds (t - now)) 1 end.

(** The entry of this owner for one hash of a batch, if it is live. *)
Definition pulled now id s h : option PullOwnedEntry :=
  match registry_ s !! h with
  | None => None
  | Some entries =>
      match list_find (fun e => RaidenId_eqb (en_raiden_id e) id = true) entries with
      | Some (_, e) =>
          if live now (en_expire_time e) then Some (mkPulled h (en_block_id e) (remaining now (en_expire_time e))) else None
      | None => None
      end
  end.

(** The batches of the stream.  [view k] is the time and the state in which batch [k] is read,
    [write k] whether the client takes it; [fuel] bounds the number of batches. *)
Fixpoint pull_batches (fuel : nat) (size : nat) (view : nat -> Z * GlobalRegistryServiceImpl) (write : nat -> bool) id
    (k : nat) (hashes : list Hash) : StatusOr unit * list (list PullOwnedEntry) :=
  match fuel, hashes with
  | _, [] => (OkStatus, [])
  | O, _ => (OkStatus, [])
  | S fuel, _ =>
      let '(now, s) := view k in
      let response := omap (pulled now id s) (take size hashes) in
      if negb (length response =? 0)%nat && negb (write k) then
        (Err kCancelled StrCat["PullOwned stream closed by client"], [])
      else
        let '(st, rest) := pull_batches fuel size view write id (S k) (drop size hashes) in
        (st, if (length response =? 0)%nat then rest else response :: rest)
  end.

Definition PullOwned (view : nat -> Z * GlobalRegistryServiceImpl) (write : nat -> bool) (raiden_id : option RaidenIdProto) s :
    StatusOr unit * list (list PullOwnedEntry) :=
  match named raiden_id with
  | None => (Err kInvalidArgument StrCat["raiden_id cannot be empty"], [])
  | Some id =>
      match owner_index_ s !! id with
      | None => (OkStatus, [])
      | Some hashes =>
          pull_batches (length (elements hashes)) (pull_owned_batch_size_ s) view write id 0 (elements hashes)
      end
  end.

(** ** Stores *)

Record StoreInfo : Type := mkStoreInfo {
  si_raiden_id : option RaidenIdProto;
  si_store_server_address : string;
  si_controller_address : string;
  si_ttl_seconds : Z;
  si_kv_pool_group : string;
  si_evict_tier : Z
}.

(** [now + ttl] is exact here; absl saturates it at the infinite future, some 292 billion years
    away. *)
Definition RegisterStore now (store : option StoreInfo) s : Reply * GlobalRegistryServiceImpl :=
  let unnamed := (reply_error StrCat["store.raiden_id.job_name cannot be empty"], s) in
  match store with
  | None => unnamed
  | Some store =>
      match named (si_raiden_id store) with
      | None => unnamed
      | Some id =>
          if bool_decide (si_store_server_address store = EmptyString) then
            (reply_error StrCat["store.store_server_address cannot be empty"], s)
          else
            let ttl := if 0 <? si_ttl_seconds store then Some (Seconds (si_ttl_seconds store)) else None in
            (reply_ok,
             with_stores
               (<[id := mkStoreRecord (si_store_server_address store) (si_controller_address store) (plus now ttl) ttl
                          (si_kv_pool_group store) (si_evict_tier store) 0]> (store_registry_ s)) s)
      end
  end.

(** The record of a store that has not expired. *)
Definition live_store now id s : option StoreRecord :=
  match store_registry_ s !! id with
  | Some r => if live now (st_expire_time r) then Some r else None
  | None => None
  end.

Definition store_info (r : RaidenId * StoreRecord) : StoreInfo :=
  mkStoreInfo (Some (RaidenIdToProto r.1)) (store_server_address r.2) (controller_address r.2) 0 EmptyString 0.

(** [Ok None] is [found = false]. *)
Definition ResolveStore now (raiden_id : option RaidenIdProto) s : StatusOr (option StoreInfo) :=
  match named raiden_id with
  | None => Err kInvalidArgument StrCat["raiden_id cannot be empty"]
  | Some id => Ok ((fun r => store_info (id, r)) <$> live_store now id s)
  end.

Definition UnregisterStore (raiden_id : option RaidenIdProto) s : Reply * GlobalRegistryServiceImpl :=
  match named raiden_id with
  | None => (reply_error StrCat["raiden_id cannot be empty"], s)
  | Some id =>
      (match store_registry_ s !! id with
       | Some _ => reply_ok
       | None => reply_error StrCat["no store registered for that raiden_id"]
       end, with_stores (delete id (store_registry_ s)) s)
  end.

Definition refresh now (free : Z) (r : StoreRecord) : StoreRecord :=
  mkStoreRecord (store_server_address r) (controller_address r)
    (match st_ttl r with Some d => Some (now + d) | None => st_expire_time r end)
    (st_ttl r) (kv_pool_group r) (evict_tier r) free.

(** The answer is [registered].  The clock is read twice: [now] for the check, [later] for the
    new expiry. *)
Definition Heartbeat now (later : Z) (raiden_id : option RaidenIdProto) (free : Z) s : StatusOr bool * GlobalRegistryServiceImpl :=
  match named raiden_id with
  | None => (Err kInvalidArgument StrCat["raiden_id cannot be empty"], s)
  | Some id =>
      match live_store now id s with
      | None => (Ok false, s)
      | Some r => (Ok true, with_stores (<[id := refresh later free r]> (store_registry_ s)) s)
      end
  end.

(** [roster] is the order in which the table of stores is scanned. *)
Definition candidates now (group : string) (caller_tier : Z) (roster : list (RaidenId * StoreRecord)) :
    list (RaidenId * StoreRecord) :=
  filter (fun r => kv_pool_group r.2 = group ∧ caller_tier < evict_tier r.2 ∧ live now (st_expire_time r.2) = true) roster.

Definition kMaxInt32 : Z := 2 ^ 31 - 1.
Definition nearest_tier (cs : list (RaidenId * StoreRecord)) : Z :=
  foldl (fun t r => Z.min t (evict_tier r.2)) kMaxInt32 cs.

(** More reported free blocks first. *)
Definition more_free (a b : RaidenId * StoreRecord) : bool := free_blocks b.2 <? free_blocks a.2.

Definition GetPlacementTargets now (roster : list (RaidenId * StoreRecord)) (raiden_id : option RaidenIdProto)
    (max_targets : Z) s : StatusOr (list StoreInfo) :=
  match named raiden_id with
  | None => Err kInvalidArgument StrCat["raiden_id cannot be empty"]
  | Some id =>
      let max_targets := if 0 <? max_targets then max_targets else kDefaultMaxPlacementTargets in
      match live_store now id s with
      | None => Err kNotFound StrCat["no live store registration for the caller; RegisterStore again"]
      | Some caller =>
          if bool_decide (kv_pool_group caller = EmptyString) then
            Err kFailedPrecondition StrCat["caller registered without a kv_pool_group, so it has no peers to place onto"]
          else
            let cs := candidates now (kv_pool_group caller) (evict_tier caller) roster in
            let cs := filter (fun r => evict_tier r.2 = nearest_tier cs) cs in
            Ok (store_info <$> take (Z.to_nat max_targets) (sort_by more_free cs))
      end
  end.

(** ** Transfer specifications *)

(** The reason a specification is invalid; [None] for the empty string. *)
Definition SpecValidationError (spec : KVTransferSpec) : option (list Frag) :=
  if (length (HostOffload.spec_block_array_bytes spec) =? 0)%nat then Some StrCat["spec must declare at least one block array"]
  else
    match list_find (fun i : nat * Z => i.2 <= 0) (imap pair (HostOffload.spec_block_array_bytes spec)) with
    | Some (i, _) => Some StrCat["block_arrays["; Z.of_nat i; "].block_bytes must be positive"]
    | None =>
        if HostOffload.spec_num_kv_shards spec <=? 0 then Some StrCat["num_kv_shards must be positive"]
        else if HostOffload.spec_num_workers spec <=? 0 then Some StrCat["num_workers must be positive"]
        else None
    end.

(** The first index at which two lists of the same length differ. *)
Fixpoint first_difference (i : nat) (l k : list Z) : option (nat * Z * Z) :=
  match l, k with
  | x :: l, y :: k => if x =? y then first_difference (S i) l k else Some (i, x, y)
  | _, _ => None
  end.

Definition SpecDifference (registered incoming : KVTransferSpec) : option (list Frag) :=
  let a := HostOffload.spec_block_array_bytes incoming in
  let b := HostOffload.spec_block_array_bytes registered in
  if negb (length a =? length b)%nat then
    Some StrCat["block_arrays has "; Z.of_nat (length a); " entries, registered spec has "; Z.of_nat (length b)]
  else
    match first_difference 0 a b with
    | Some (i, x, y) => Some StrCat["block_arrays["; Z.of_nat i; "].block_bytes is "; x; ", registered spec has "; y]
    | None =>
        if negb (HostOffload.spec_num_kv_shards incoming =? HostOffload.spec_num_kv_shards registered) then
          Some StrCat["num_kv_shards is "; HostOffload.spec_num_kv_shards incoming; ", registered spec has ";
                      HostOffload.spec_num_kv_shards registered]
        else if negb (HostOffload.spec_num_workers incoming =? HostOffload.spec_num_workers registered) then
          Some StrCat["num_workers is "; HostOffload.spec_num_workers incoming; ", registered spec has ";
                      HostOffload.spec_num_workers registered]
        else None
    end.

(** The reply and, on a mismatch, the specification that is registered. *)
Definition RegisterKVTransferSpec (spec : option KVTransferSpec) (group : string) s :
    Reply * option KVTransferSpec * GlobalRegistryServiceImpl :=
  match spec with
  | None => (reply_error StrCat["spec cannot be empty"], None, s)
  | Some spec =>
      if bool_decide (group = EmptyString) then (reply_error StrCat["kv_pool_group cannot be empty"], None, s)
      else
        match SpecValidationError spec with
        | Some invalid => (reply_error invalid, None, s)
        | None =>
            match transfer_specs_ s !! group with
            | None => (reply_ok, None, with_specs (<[group := spec]> (transfer_specs_ s)) s)
            | Some registered =>
                match SpecDifference registered spec with
                | None => (reply_ok, None, s)
                | Some diff =>
                    (reply_error (StrCat["KVTransferSpec mismatch in kv_pool_group '"; group; "': "] ++ diff),
                     Some registered, s)
                end
            end
        end
  end.

Definition GetKVTransferSpec (group : string) s : StatusOr (option KVTransferSpec) :=
  if bool_decide (group = EmptyString) then Err kInvalidArgument StrCat["kv_pool_group cannot be empty"]
  else Ok (transfer_specs_ s !! group).

(** ** Expiry *)

(** The scan of one hash: its expired entries leave the index of their owners. *)
Definition expire_owners now (owners : gmap RaidenId (gset Hash)) (x : Hash * list RegistryEntry) : gmap RaidenId (gset Hash) :=
  foldl (fun owners e => if live now (en_expire_time e) then owners else EraseFromOwnerIndex (en_raiden_id e) x.1 owners)
    owners x.2.

Definition CleanupExpiredEntries now s : GlobalRegistryServiceImpl :=
  let owners := foldl (expire_owners now) (owner_index_ s) (map_to_list (registry_ s)) in
  let kept := filter (fun e => live now (en_expire_time e) = true) <$> registry_ s in
  let keys_to_remove := (filter (fun x : Hash * list RegistryEntry => x.2 = []) (map_to_list kept)).*1 in
  let remove {A} (m : gmap Hash A) := foldl (fun m h => delete h m) m keys_to_remove in
  mkRegistry (default_ttl_ s) (pull_owned_batch_size_ s) (remove kept) (remove (round_robin_indices_ s)) owners
    (filter (fun x : RaidenId * StoreRecord => live now (st_expire_time x.2) = true) (store_registry_ s)) (transfer_specs_ s).

End RegistryServer.

Module RegistryClient.
Import RegistryServer.

Abbreviation Registration := HostOffload.Registration.

(** [absl::ToInt64Seconds] truncates towards zero and saturates. *)
Definition ToInt64Seconds (d : Duration) : Z :=
  match d with None => int64_max | Some d => d ÷ 1000000000 end.
(** The [ttl_seconds] field: left at zero unless the duration is positive. *)
Definition ttl_field (ttl : Duration) : Z :=
  match ttl with
  | None => ToInt64Seconds ttl
  | Some d => if 0 <? d then ToInt64Seconds ttl else 0
  end.

(** An RPC that failed in transport is an internal error ... *)
Definition internal {A} (answer : StatusOr A) : StatusOr A :=
  match answer with Ok x => Ok x | Err _ msg => Err kInternal msg end.
(** ... and an answer that carries a verdict becomes a status. *)
Definition verdict (code : StatusCode) (r : Reply) : Status :=
  if success r then OkStatus else Err code (error_message r).

Section client.
(** The stub: one RPC per method.  A stream is its batches and its final status. *)
Variable stub_Register : list RegisterEntry -> StatusOr Reply.
Variable stub_Lookup : list Hash -> StatusOr (list KVBlockMetadata).
Variable stub_PullOwned : option RaidenIdProto -> StatusOr unit * list (list PullOwnedEntry).
Variable stub_Unregister : list Hash -> option RaidenIdProto -> StatusOr Reply.
Variable stub_RegisterStore : option StoreInfo -> StatusOr Reply.
Variable stub_ResolveStore : option RaidenIdProto -> StatusOr (option StoreInfo).
Variable stub_UnregisterStore : option RaidenIdProto -> StatusOr Reply.
Variable stub_Heartbeat : option RaidenIdProto -> Z -> StatusOr bool.
Variable stub_GetPlacementTargets : option RaidenIdProto -> Z -> StatusOr (list StoreInfo).
Variable stub_RegisterKVTransferSpec : option KVTransferSpec -> string -> StatusOr (Reply * option KVTransferSpec).
Variable stub_GetKVTransferSpec : string -> StatusOr (option KVTransferSpec).

(** A registration and its time to live. *)
Definition register_entry (x : Registration * Duration) : RegisterEntry :=
  mkRegisterEntry (HostOffload.prefix_hash x.1)
    (Some (Some (RaidenIdToProto (HostOffload.reg_raiden_id x.1)), HostOffload.reg_block_id x.1)) (ttl_field x.2).

Definition Register (registrations : list (Registration * Duration)) : Status :=
  let? r := internal (stub_Register (register_entry <$> registrations)) in verdict kFailedPrecondition r.

Definition Lookup (prefix_hashes : list Hash) : StatusOr (list KVBlockMetadata) :=
  internal (stub_Lookup prefix_hashes).

Definition PullOwned (raiden_id : RaidenId) : StatusOr (list PullOwnedEntry) :=
  let '(status, batches) := stub_PullOwned (Some (RaidenIdToProto raiden_id)) in
  let? _ := internal status in Ok (concat batches).

Definition Unregister (prefix_hashes : list Hash) (raiden_id : RaidenId) : Status :=
  let? r := internal (stub_Unregister prefix_hashes (Some (RaidenIdToProto raiden_id))) in verdict kFailedPrecondition r.

(** The request. *)
Definition store_request (raiden_id : RaidenId) (store_server_address controller_address : string) (ttl : Duration)
    (kv_pool_group : string) (evict_tier : Z) : StoreInfo :=
  mkStoreInfo (Some (RaidenIdToProto raiden_id)) store_server_address controller_address (ttl_field ttl) kv_pool_group evict_tier.
Definition RegisterStore (raiden_id : RaidenId) (store_server_address controller_address : string) (ttl : Duration)
    (kv_pool_group : string) (evict_tier : Z) : Status :=
  let? r := internal (stub_RegisterStore (Some (store_request raiden_id store_server_address controller_address ttl
                                                  kv_pool_group evict_tier))) in
  verdict kFailedPrecondition r.

Definition ResolveStore (raiden_id : RaidenId) : StatusOr StoreInfo :=
  let? r := internal (stub_ResolveStore (Some (RaidenIdToProto raiden_id))) in
  match r with
  | Some store => Ok store
  | None =>
      Err kNotFound StrCat["no store registered for raiden_id "; job_name raiden_id; "/"; job_replica_id raiden_id; "/";
                           data_name raiden_id; "/"; data_replica_idx raiden_id]
  end.

(** Nothing to unregister is not an error. *)
Definition UnregisterStore (raiden_id : RaidenId) : Status :=
  let? _ := internal (stub_UnregisterStore (Some (RaidenIdToProto raiden_id))) in OkStatus.

Definition Heartbeat (raiden_id : RaidenId) (free : Z) : Status :=
  let? registered := internal (stub_Heartbeat (Some (RaidenIdToProto raiden_id)) free) in
  if registered : bool then OkStatus
  else Err kNotFound StrCat["no live store registration to refresh; RegisterStore again"].

Definition GetPlacementTargets (raiden_id : RaidenId) (max_targets : Z) : StatusOr (list StoreInfo) :=
  stub_GetPlacementTargets (Some (RaidenIdToProto raiden_id)) max_targets.

Definition RegisterKVTransferSpec (spec : KVTransferSpec) (kv_pool_group : string) : Status :=
  let? r := stub_RegisterKVTransferSpec (Some spec) kv_pool_group in verdict kInvalidArgument r.1.

Definition GetKVTransferSpec (kv_pool_group : string) : StatusOr KVTransferSpec :=
  let? r := stub_GetKVTransferSpec kv_pool_group in
  match r with Some spec => Ok spec | None => Err kNotFound StrCat["no KVTransferSpec published yet"] end.
End client.

(** The hash of a block chains the hash of its parent; [sha256] is the digest of the bytes. *)
Definition CalculatePrefixHash (sha256 : list Z -> list Z) (tokens : list Z) (parent_hash : Hash) : string :=
  BytesToHexString (sha256 (parent_hash ++ concat ((fun t => le_bytes 8 (u64 t)) <$> tokens))).

End RegistryClient.
