(* ===== verification/GlobalRegistryProofs.v ===== *)
(** * What the global block registry guarantees

    [Module RegistryState]: the invariant of the server's maps and the refinement of an
    abstract directory, a finite map from (hash, owner) to the block and its expiry.
    [Module RegistryAnswers]: what the handlers answer, in terms of that directory. *)

From S2P Require Import Prelude ReshardTypes StoreBackend LruCache HostOffloadBackend HostOffloadLookup GlobalRegistry.

Module RegistryState.
Import RegistryServer.
Implicit Types (s : GlobalRegistryServiceImpl) (id : RaidenId) (h : Hash) (e : RegistryEntry) (es : list RegistryEntry) (now : Z).

(** ** One list of entries *)

(** The entry of an owner. *)
Definition entry_of es id : option RegistryEntry :=
  snd <$> list_find (fun e => RaidenId_eqb (en_raiden_id e) id = true) es.
Definition owners es : list RaidenId := en_raiden_id <$> es.

Lemma entry_of_nil id : entry_of [] id = None.
Proof. done. Qed.
Lemma entry_of_cons e es id : entry_of (e :: es) id = if decide (en_raiden_id e = id) then Some e else entry_of es id.
Proof.
  unfold entry_of. cbn. case_decide as H; case_decide as H'; try done.
  - by apply RaidenId_eqb_eq in H.
  - by apply RaidenId_eqb_eq in H'.
  - by destruct (list_find _ es) as [[]|].
Qed.
Lemma entry_of_app es es' id : entry_of (es ++ es') id = match entry_of es id with Some e => Some e | None => entry_of es' id end.
Proof. induction es as [|e es IH]; [done|]. cbn [app]. rewrite !entry_of_cons. by case_decide. Qed.
Lemma entry_of_owner es id e : entry_of es id = Some e -> e ∈ es ∧ en_raiden_id e = id.
Proof.
  induction es as [|x es IH]; [done|]. rewrite entry_of_cons. case_decide as H; [|naive_solver set_solver].
  intros [= ->]. split; [by left|done].
Qed.
Lemma entry_of_None es id : entry_of es id = None <-> id ∉ owners es.
Proof.
  induction es as [|x es IH]; [split; [intros _; apply not_elem_of_nil|done]|]. rewrite entry_of_cons. unfold owners in *. cbn [fmap list_fmap].
  rewrite not_elem_of_cons, <-IH. case_decide; naive_solver.
Qed.
Lemma entry_of_elem es e : NoDup (owners es) -> e ∈ es -> entry_of es (en_raiden_id e) = Some e.
Proof.
  induction es as [|x es IH]; [by intros _ ?%elem_of_nil|]. unfold owners. cbn [fmap list_fmap]. intros [Hx Hn]%NoDup_cons [->|Hin]%elem_of_cons; rewrite entry_of_cons.
  - by rewrite decide_True.
  - rewrite decide_False; [by apply IH|]. intros Heq. apply Hx. rewrite Heq. by apply list_elem_of_fmap_2.
Qed.
Lemma entry_of_filter (P : RegistryEntry -> Prop) `{forall e, Decision (P e)} es id :
  NoDup (owners es) ->
  entry_of (filter P es) id = e ← entry_of es id; if decide (P e) then Some e else None.
Proof.
  induction es as [|x es IH]; [done|]. unfold owners. cbn [fmap list_fmap]. intros [Hx Hn]%NoDup_cons. rewrite filter_cons, entry_of_cons. specialize (IH Hn).
  destruct (decide (en_raiden_id x = id)) as [Hid|Hid]; cbn [mbind option_bind].
  - destruct (decide (P x)); [by rewrite entry_of_cons, decide_True|]. rewrite IH.
    rewrite (proj2 (entry_of_None es id)); [done|by rewrite <-Hid].
  - destruct (decide (P x)); [by rewrite entry_of_cons, decide_False|done].
Qed.
Lemma owners_filter (P : RegistryEntry -> Prop) `{forall e, Decision (P e)} es : NoDup (owners es) -> NoDup (owners (filter P es)).
Proof. intros Hn. eapply sublist_NoDup; [exact Hn|]. apply fmap_sublist, sublist_filter. Qed.

(** Overwriting or appending is an update of the owner's entry. *)
Lemma put_entry_spec x es :
  let r := put_entry x es in
  (r.1 = true <-> is_Some (entry_of es (en_raiden_id x))) ∧ r.2 ≠ [] ∧ (NoDup (owners es) -> NoDup (owners r.2)) ∧
  forall id, entry_of r.2 id = if decide (en_raiden_id x = id) then Some x else entry_of es id.
Proof.
  unfold put_entry. assert (Hf := entry_of_None es (en_raiden_id x)). unfold entry_of in Hf at 1. unfold entry_of at 1.
  destruct (list_find _ es) as [[j y]|] eqn:E; cbn [fst snd fmap option_fmap option_map] in *.
  - apply list_find_Some in E as (Hj & Hy & Hbefore). apply RaidenId_eqb_eq in Hy.
    rewrite insert_take_drop by (by eapply lookup_lt_Some). pose proof (take_drop_middle es j y Hj) as Hes.
    split_and!; [naive_solver|by destruct (take j es)| |].
    + intros Hn. unfold owners in *. rewrite <-Hes in Hn. by rewrite fmap_app, fmap_cons, Hy in *.
    + intros id. assert (He : entry_of es id = entry_of (take j es ++ y :: drop (S j) es) id) by (by rewrite Hes). rewrite He. clear He.
      rewrite !entry_of_app, !entry_of_cons, Hy.
      destruct (entry_of (take j es) id) as [z|] eqn:Ez; [|by case_decide]. case_decide; [|done]. subst id.
      apply entry_of_owner in Ez as [Hz Ez]. apply list_elem_of_lookup in Hz as [i Hi]. apply lookup_take_Some in Hi as [Hi Hlt].
      exfalso. eapply (Hbefore i z); [done|done|]. by apply RaidenId_eqb_eq.
  - split_and!; [split; [done|by intros []]|by destruct es| |].
    + intros Hn. unfold owners. rewrite fmap_app. apply NoDup_app. split_and!; [done| |apply NoDup_singleton].
      intros z Hz ->%list_elem_of_singleton. by apply Hf.
    + intros id. rewrite entry_of_app, entry_of_cons. case_decide; [subst id|by destruct (entry_of es id)].
      by rewrite (proj2 (entry_of_None es _) (proj1 Hf eq_refl)).
Qed.

(** ** The maps *)

Definition entries s h : list RegistryEntry := default [] (registry_ s !! h).
(** The hashes an owner has, by the index. *)
Definition indexed (m : gmap RaidenId (gset Hash)) id : gset Hash := default ∅ (m !! id).

(** The blocks: every list has one entry per owner and none is empty; the index is exactly
    the owners' entries and holds no empty set; a turn counter belongs to a registered hash. *)
Record blocks_wf s : Prop := {
  wf_entries h es : registry_ s !! h = Some es -> h ≠ [] ∧ es ≠ [] ∧ NoDup (owners es);
  wf_index id h : h ∈ indexed (owner_index_ s) id <-> is_Some (entry_of (entries s h) id);
  wf_index_nonempty id : owner_index_ s !! id ≠ Some ∅;
  wf_turns h : is_Some (round_robin_indices_ s !! h) -> is_Some (registry_ s !! h)
}.
(** The stores: a record has an address, and it never expires exactly when its time to live
    is infinite.  The specifications are structurally valid. *)
Record stores_wf s : Prop := {
  wf_store id r : store_registry_ s !! id = Some r ->
    job_name id ≠ EmptyString ∧ store_server_address r ≠ EmptyString ∧ (st_ttl r = None <-> st_expire_time r = None);
  wf_spec group spec : transfer_specs_ s !! group = Some spec -> group ≠ EmptyString ∧ SpecValidationError spec = None
}.
Record wf s : Prop := { wf_blocks : blocks_wf s; wf_stores : stores_wf s }.

Abbreviation Directory := (gmap (Hash * RaidenId) (Z * Time)).
Definition value e : Z * Time := (en_block_id e, en_expire_time e).
Definition represents (D : Directory) s : Prop :=
  forall h id, D !! (h, id) = value <$> entry_of (entries s h) id.

Lemma entries_NoDup s h : blocks_wf s -> NoDup (owners (entries s h)).
Proof.
  intros Hwf. unfold entries. destruct (registry_ s !! h) as [es|] eqn:E; [|apply NoDup_nil_2]. by eapply wf_entries.
Qed.
Lemma indexed_insert m id hs id' : indexed (<[id := hs]> m) id' = if decide (id = id') then hs else indexed m id'.
Proof. unfold indexed. case_decide; [subst; by rewrite lookup_insert_eq|by rewrite lookup_insert_ne]. Qed.
Lemma indexed_erase m id h id' :
  indexed (EraseFromOwnerIndex id h m) id' = if decide (id = id') then indexed m id' ∖ {[h]} else indexed m id'.
Proof.
  unfold EraseFromOwnerIndex. destruct (m !! id) as [hs|] eqn:E.
  - case_bool_decide as Hz.
    + unfold indexed. case_decide; [subst; rewrite lookup_delete_eq, E; cbn [default]; set_solver|by rewrite lookup_delete_ne].
    + rewrite indexed_insert. case_decide; [subst; unfold indexed; by rewrite E|done].
  - case_decide; [subst|done]. unfold indexed. rewrite E. cbn [default]. set_solver.
Qed.
Lemma erase_nonempty m id h : (forall i, m !! i ≠ Some ∅) -> forall i, EraseFromOwnerIndex id h m !! i ≠ Some ∅.
Proof.
  intros Hm i. unfold EraseFromOwnerIndex. destruct (m !! id) as [hs|] eqn:E; [|done]. case_bool_decide as Hz.
  - rewrite lookup_delete_Some. naive_solver.
  - rewrite lookup_insert_Some. naive_solver.
Qed.

(** ** Register *)

Definition time_to_live (default_ttl : Duration) (x : RegisterEntry) : Duration :=
  if 0 <? re_ttl_seconds x then Some (Seconds (re_ttl_seconds x)) else default_ttl.
Definition spec_register (default_ttl : Duration) now (D : Directory) (x : RegisterEntry) : Directory :=
  match re_metadata x with
  | Some (Some p, block_id) =>
      <[(re_prefix_hash x, RaidenIdFromProto p) := (block_id, plus now (time_to_live default_ttl x))]> D
  | _ => D
  end.

Lemma check_entry_ok x :
  ok (check_entry x) = true ->
  re_prefix_hash x ≠ [] ∧ exists p b, re_metadata x = Some (Some p, b) ∧ job_name (RaidenIdFromProto p) ≠ EmptyString.
Proof.
  unfold check_entry, named. destruct (re_prefix_hash x) eqn:E; [done|]. cbn [length Nat.eqb].
  destruct (re_metadata x) as [[[p|] b]|]; try done. case_bool_decide; [done|]. intros _. split; [done|]. by exists p, b.
Qed.

(** The parts of the state a handler about blocks leaves alone. *)
Definition same_stores s s' : Prop :=
  default_ttl_ s' = default_ttl_ s ∧ pull_owned_batch_size_ s' = pull_owned_batch_size_ s ∧
  store_registry_ s' = store_registry_ s ∧ transfer_specs_ s' = transfer_specs_ s.
Lemma same_stores_wf s s' : same_stores s s' -> stores_wf s -> stores_wf s'.
Proof. intros (_ & _ & E1 & E2) [H1 H2]. split; [rewrite E1|rewrite E2]; done. Qed.

Lemma entries_insert s h es h' :
  default [] (<[h := es]> (registry_ s) !! h') = if decide (h = h') then es else entries s h'.
Proof. unfold entries. case_decide; [subst; by rewrite lookup_insert_eq|by rewrite lookup_insert_ne]. Qed.

Lemma register_one_spec now s x D :
  ok (check_entry x) = true -> blocks_wf s -> represents D s ->
  let s' := register_one now s x in
  blocks_wf s' ∧ represents (spec_register (default_ttl_ s) now D x) s' ∧ same_stores s s'.
Proof.
  intros (Hh & p & b & Em & _)%check_entry_ok Hwf HD s'. subst s'. unfold register_one, spec_register, time_to_live. rewrite Em.
  set (h := re_prefix_hash x) in *. set (ttl := if 0 <? re_ttl_seconds x then _ else _). set (id := RaidenIdFromProto p).
  clearbody h id ttl. fold (entries s h). pose proof (put_entry_spec (mkEntry id b (plus now ttl)) (entries s h)) as (Hf & Hne & Hnd & Hget).
  destruct (put_entry _ _) as [found es]. cbn [fst snd en_raiden_id] in *. specialize (Hnd (entries_NoDup s h Hwf)).
  set (s' := if found then _ else _).
  assert (Hs' : registry_ s' = <[h := es]> (registry_ s) ∧ round_robin_indices_ s' = round_robin_indices_ s ∧ same_stores s s' ∧
    owner_index_ s' = if found then owner_index_ s else <[id := {[h]} ∪ indexed (owner_index_ s) id]> (owner_index_ s))
    by (subst s'; destruct found; repeat split).
  destruct Hs' as (Er & Et & Hsame & Ei). clearbody s'. split_and!; [split| |done].
  - intros h' es'. rewrite Er, lookup_insert_Some. intros [[<- <-]|[_ He]]; [done|by eapply wf_entries].
  - intros id' h'. unfold entries. rewrite Er, entries_insert. pose proof (wf_index s Hwf id' h') as Hi. rewrite Ei. destruct found.
    + rewrite Hi. case_decide as Eh; [subst h'|done]. rewrite Hget. case_decide; [subst id'|done]. naive_solver.
    + rewrite indexed_insert. destruct (decide (h = h')) as [<-|Eh]; rewrite ?Hget; (case_decide; [subst id'|done]); [|set_solver].
      split; [eauto|set_solver].
  - intros i. rewrite Ei. destruct found; [by apply wf_index_nonempty|]. rewrite lookup_insert_Some.
    intros [[_ Hz]|[_ Hz]]; [set_solver|by eapply wf_index_nonempty].
  - intros h'. rewrite Et, Er. intros Hx%wf_turns; [|done]. by apply lookup_insert_is_Some'; right.
  - intros h' id'. unfold entries. rewrite Er, entries_insert. case_decide as Eh.
    + subst h'. rewrite Hget. case_decide; [subst id'; by rewrite lookup_insert_eq|rewrite lookup_insert_ne by congruence; apply HD].
    + rewrite lookup_insert_ne by congruence. apply HD.
Qed.

(** A request with an invalid entry changes nothing; otherwise every entry is put. *)
Definition acceptable (l : list RegisterEntry) : bool := forallb (fun x => ok (check_entry x)) l.

Lemma Register_spec now l s D :
  blocks_wf s -> represents D s ->
  let r := Register now l s in
  success r.1 = acceptable l ∧ blocks_wf r.2 ∧ same_stores s r.2 ∧
  represents (if acceptable l then foldl (spec_register (default_ttl_ s) now) D l else D) r.2.
Proof.
  intros Hwf HD r. subst r. unfold Register.
  assert (Hacc : acceptable l = ok (for_each (fun _ => check_entry) l tt)).
  { apply eq_iff_eq_true. unfold acceptable. rewrite forallb_forall, (for_each_check check_entry l), Forall_forall.
    setoid_rewrite list_elem_of_In. done. }
  rewrite Hacc. destruct (for_each _ l tt) as [u|code msg] eqn:E; cbn [ok fst snd success]; [|done].
  split; [done|]. assert (Hall : Forall (fun x => ok (check_entry x) = true) l).
  { apply for_each_check. change (for_each _ l tt) with (for_each (fun _ => check_entry) l tt). by rewrite E. }
  clear E Hacc. revert s D Hwf HD. induction Hall as [|x l Hx _ IH]; intros s D Hwf HD; [done|]. cbn [foldl].
  destruct (register_one_spec now s x D Hx Hwf HD) as (Hwf' & HD' & Hsame). destruct (IH _ _ Hwf' HD') as (H1 & H2 & H3).
  destruct Hsame as (Ed & ? & ? & ?). rewrite Ed in H3. split_and!; [done| |done].
  destruct H2 as (? & ? & ? & ?). unfold same_stores. split_and!; congruence.
Qed.

(** ** Unregister *)

Lemma filter_other es id id' :
  entry_of (filter (fun e => RaidenId_eqb (en_raiden_id e) id = false) es) id' = if decide (id = id') then None else entry_of es id'.
Proof.
  induction es as [|x es IH]; [by case_decide|]. rewrite filter_cons, entry_of_cons.
  destruct (RaidenId_eqb (en_raiden_id x) id) eqn:E.
  - apply RaidenId_eqb_eq in E. rewrite decide_False by done. rewrite IH. repeat case_decide; congruence.
  - rewrite decide_True, entry_of_cons, IH by done. assert (en_raiden_id x ≠ id) by (intros ?%RaidenId_eqb_eq; congruence).
    repeat case_decide; congruence.
Qed.
Lemma filter_other_length es id :
  length (filter (fun e => RaidenId_eqb (en_raiden_id e) id = false) es) = length es <-> entry_of es id = None.
Proof.
  induction es as [|x es IH]; [done|]. rewrite filter_cons, entry_of_cons. destruct (RaidenId_eqb (en_raiden_id x) id) eqn:E.
  - rewrite decide_False by done. apply RaidenId_eqb_eq in E. rewrite decide_True by done. split; [|done].
    pose proof (length_filter (fun e => RaidenId_eqb (en_raiden_id e) id = false) es). cbn [length]. lia.
  - rewrite decide_True by done. cbn [length]. rewrite Nat.succ_inj_wd, IH, decide_False; [done|].
    intros ?%RaidenId_eqb_eq. congruence.
Qed.

(** The reply names exactly the hashes that others have registered and this owner has not. *)
Definition mismatched (D : Directory) id h : Prop := D !! (h, id) = None ∧ exists id', is_Some (D !! (h, id')).

Lemma entry_registered s h id : is_Some (entry_of (entries s h) id) -> is_Some (registry_ s !! h).
Proof. unfold entries. destruct (registry_ s !! h); [eauto|]. by intros []. Qed.
Lemma registered_entry s h es : blocks_wf s -> registry_ s !! h = Some es -> exists id, is_Some (entry_of es id).
Proof.
  intros Hwf He. destruct (wf_entries s Hwf h es He) as (_ & Hne & _). destruct es as [|e es]; [done|].
  exists (en_raiden_id e). rewrite entry_of_cons, decide_True by done. eauto.
Qed.

Lemma drop_if_empty_fields h s :
  owner_index_ (drop_if_empty h s) = owner_index_ s ∧ same_stores s (drop_if_empty h s) ∧
  (forall h', registry_ (drop_if_empty h s) !! h' = if decide (h = h') then match registry_ s !! h with Some [] => None | x => x end else registry_ s !! h') ∧
  (forall h', round_robin_indices_ (drop_if_empty h s) !! h' =
     if decide (h = h') then match registry_ s !! h with Some [] => None | _ => round_robin_indices_ s !! h end else round_robin_indices_ s !! h').
Proof.
  unfold drop_if_empty. destruct (registry_ s !! h) as [[|e es]|] eqn:E; split_and!; try done; try (by repeat split);
    intros h'; cbn; case_decide; subst; rewrite ?lookup_delete_eq, ?lookup_delete_ne by done; congruence.
Qed.

(** The owner's entry leaves its list, and the list leaves the map when that was the last. *)
Lemma drop_owner_spec id h es s D owners' :
  blocks_wf s -> represents D s -> registry_ s !! h = Some es ->
  (forall id', indexed owners' id' = if decide (id = id') then indexed (owner_index_ s) id' ∖ {[h]} else indexed (owner_index_ s) id') ->
  (forall i, owners' !! i ≠ Some ∅) ->
  let rest := filter (fun e => RaidenId_eqb (en_raiden_id e) id = false) es in
  let s' := drop_if_empty h (with_owner_index owners' (with_registry (<[h := rest]> (registry_ s)) s)) in
  blocks_wf s' ∧ represents (delete (h, id) D) s' ∧ same_stores s s'.
Proof.
  intros Hwf HD Er Hi Hi0 rest. assert (Hes : entries s h = es) by (unfold entries; by rewrite Er). set (s1 := with_registry _ s).
  destruct (drop_if_empty_fields h (with_owner_index owners' s1)) as (Ei & Hsame & Hr & Ht).
  set (s' := drop_if_empty _ _) in *. clearbody s'. cbn [with_owner_index registry_ owner_index_ round_robin_indices_ s1 with_registry] in *.
  assert (Hent : forall h' id', entry_of (entries s' h') id' = if decide (h = h' ∧ id = id') then None else entry_of (entries s h') id').
  { intros h' id'. unfold entries at 1. rewrite Hr, lookup_insert_eq. destruct (decide (h = h')) as [<-|Hne].
    - replace (default [] _) with rest by (by destruct rest). unfold rest. rewrite filter_other, Hes. repeat case_decide; naive_solver.
    - rewrite lookup_insert_ne by done. case_decide; [naive_solver|done]. }
  split_and!; [split| |done].
  - intros h' es'. rewrite Hr, lookup_insert_eq. destruct (decide (h = h')) as [<-|Hne]; [|rewrite lookup_insert_ne by done; by apply wf_entries].
    destruct rest as [|x l] eqn:Erest; [done|]. intros [= <-]. destruct (wf_entries s Hwf h es Er) as (? & _ & Hnd).
    split_and!; [done|done|]. rewrite <-Erest. by apply owners_filter.
  - intros id' h'. rewrite Ei, Hi, Hent. pose proof (wf_index s Hwf id' h') as Hx. destruct (decide (id = id')) as [<-|Hid].
    + destruct (decide (h = h' ∧ id = id)) as [[<- _]|Hne]; [split; [set_solver|by intros []]|]. rewrite <-Hx. set_solver.
    + rewrite decide_False by naive_solver. done.
  - intros i. rewrite Ei. apply Hi0.
  - intros h'. rewrite Ht, Hr, !lookup_insert_eq. case_decide; [by destruct rest|]. rewrite lookup_insert_ne by done. by apply wf_turns.
  - intros h' id'. rewrite Hent. case_decide as Hc; [destruct Hc as [<- <-]; by rewrite lookup_delete_eq|].
    rewrite lookup_delete_ne by naive_solver. apply HD.
Qed.

Lemma unregister_one_spec id errors s h D :
  blocks_wf s -> represents D s ->
  let r := unregister_one id (errors, s) h in
  blocks_wf r.2 ∧ represents (delete (h, id) D) r.2 ∧ same_stores s r.2 ∧
  (mismatched D id h -> exists m, r.1 = errors ++ [m]) ∧ (~ mismatched D id h -> r.1 = errors).
Proof.
  intros Hwf HD r. subst r. unfold unregister_one.
  assert (Hnone : D !! (h, id) = None -> represents (delete (h, id) D) s) by (intros E; by rewrite delete_id).
  destruct (length h =? 0)%nat eqn:E0.
  { assert (Er : registry_ s !! h = None).
    { destruct (registry_ s !! h) eqn:E; [|done]. apply wf_entries in E as (? & _); [|done]. by destruct h. }
    assert (Hn : forall id', D !! (h, id') = None) by (intros id'; rewrite HD; unfold entries; by rewrite Er).
    cbn [fst snd]. split_and!; [done|by apply Hnone|by repeat split| |done]. intros (_ & id' & [x Hx]). congruence. }
  destruct (registry_ s !! h) as [es|] eqn:Er.
  2:{ assert (Hn : forall id', D !! (h, id') = None) by (intros id'; rewrite HD; unfold entries; by rewrite Er).
      cbn [fst snd]. split_and!; [done|by apply Hnone|by repeat split| |done]. intros (_ & id' & [x Hx]). congruence. }
  assert (Hes : entries s h = es) by (unfold entries; by rewrite Er).
  set (rest := filter _ es). set (s1 := with_registry _ s).
  assert (Hlen : (length rest =? length es)%nat = true <-> entry_of es id = None) by (rewrite Nat.eqb_eq; apply filter_other_length).
  assert (Hmm : mismatched D id h <-> entry_of es id = None).
  { unfold mismatched. rewrite HD, Hes, fmap_None. split; [by intros [? _]|]. intros E. split; [done|].
    destruct (registered_entry s h es Hwf Er) as [id' Hid']. exists id'. rewrite HD, Hes. by apply fmap_is_Some. }
  destruct (length rest =? length es)%nat eqn:El; cbn [fst snd].
  - assert (En : entry_of es id = None) by (by apply Hlen).
    destruct (drop_owner_spec id h es s D (owner_index_ s) Hwf HD Er) as (H1 & H2 & H3).
    { intros id'. case_decide; [subst id'|done]. assert (h ∉ indexed (owner_index_ s) id); [|set_solver].
      rewrite wf_index, Hes, En by done. by intros []. }
    { by apply wf_index_nonempty. }
    split_and!; [done..|by eexists|]. intros []. by apply Hmm.
  - destruct (drop_owner_spec id h es s D (EraseFromOwnerIndex id h (owner_index_ s)) Hwf HD Er) as (H1 & H2 & H3).
    { apply indexed_erase. }
    { by apply erase_nonempty, wf_index_nonempty. }
    split_and!; [done..| |done]. intros Hm%Hmm%Hlen. done.
Qed.

Lemma unregister_all_spec id hs errors s D :
  blocks_wf s -> represents D s ->
  let r := foldl (unregister_one id) (errors, s) hs in
  blocks_wf r.2 ∧ represents (foldl (fun D h => delete (h, id) D) D hs) r.2 ∧ same_stores s r.2 ∧
  (NoDup hs -> (r.1 = [] <-> errors = [] ∧ Forall (fun h => ~ mismatched D id h) hs)).
Proof.
  revert errors s D. induction hs as [|h hs IH]; intros errors s D Hwf HD.
  { cbn. split_and!; [done|done|by repeat split|]. intros _. rewrite Forall_nil. tauto. }
  cbn [foldl]. destruct (unregister_one_spec id errors s h D Hwf HD) as (Hwf' & HD' & Hsame & He1 & He2).
  destruct (unregister_one id (errors, s) h) as [errors' s']. cbn [fst snd] in *.
  destruct (IH errors' s' _ Hwf' HD') as (H1 & H2 & H3 & H4). split_and!; [done|done| |].
  { destruct Hsame as (? & ? & ? & ?), H3 as (? & ? & ? & ?). unfold same_stores. split_and!; congruence. }
  intros [Hh Hnd]%NoDup_cons. rewrite (H4 Hnd), Forall_cons.
  assert (Hrest : Forall (fun x => ~ mismatched (delete (h, id) D) id x) hs <-> Forall (fun x => ~ mismatched D id x) hs).
  { rewrite !Forall_forall. apply forall_proper. intros x.
    destruct (decide (x ∈ hs)) as [Hx|Hx]; [|split; by intros]. assert (h ≠ x) by (by intros ->).
    unfold mismatched. rewrite lookup_delete_ne by congruence. by setoid_rewrite lookup_delete_ne; [|congruence]. }
  rewrite Hrest. destruct (decide (D !! (h, id) = None ∧ is_Some (registry_ s !! h))) as [[Hn [es He]]|Hn].
  - assert (Hm : mismatched D id h).
    { split; [done|]. destruct (registered_entry s h es Hwf He) as [id' Hid']. exists id'. rewrite HD. unfold entries. rewrite He. by apply fmap_is_Some. }
    destruct (He1 Hm) as [m ->]. split; [intros [[_ ?]%app_eq_nil _]; done|intros (_ & Hx & _); done].
  - assert (Hm : ~ mismatched D id h).
    { intros (Hx & id' & Hid'). apply Hn. split; [done|]. rewrite HD in Hid'. apply fmap_is_Some in Hid'. by eapply entry_registered. }
    rewrite (He2 Hm). clear -Hm. tauto.
Qed.

Lemma Unregister_spec hs p s D :
  blocks_wf s -> represents D s ->
  let r := Unregister hs p s in
  blocks_wf r.2 ∧ same_stores s r.2 ∧
  match named p with
  | None => r.2 = s ∧ success r.1 = false
  | Some id =>
      represents (foldl (fun D h => delete (h, id) D) D hs) r.2 ∧
      (NoDup hs -> (success r.1 = true <-> Forall (fun h => ~ mismatched D id h) hs))
  end.
Proof.
  intros Hwf HD r. subst r. unfold Unregister. destruct (named p) as [id|]; [|split_and!; [done|by repeat split|done|done]].
  destruct (unregister_all_spec id hs [] s D Hwf HD) as (H1 & H2 & H3 & H4).
  destruct (foldl _ _ hs) as [errors s']. cbn [fst snd success] in *. split_and!; [done|done|done|].
  intros Hnd. rewrite Nat.eqb_eq, length_zero_iff_nil, (H4 Hnd). naive_solver.
Qed.

(** ** Lookup *)

Lemma pick_spec now h s meta s' :
  blocks_wf s -> pick now h s = Some (meta, s') ->
  blocks_wf s' ∧ registry_ s' = registry_ s ∧ same_stores s s' ∧
  forall h', h ≠ h' -> round_robin_indices_ s' !! h' = round_robin_indices_ s !! h'.
Proof.
  intros Hwf. unfold pick. destruct (registry_ s !! h) as [es|] eqn:Er; [|done]. destruct (_ =? 0)%nat; [done|].
  destruct (filter _ _ !! _) as [e|]; [|done]. intros [= _ <-]. split_and!; [|done|by repeat split|].
  - destruct Hwf as [H1 H2 H3 H4]. split; [done|done|done|]. cbn. intros h' [<-|[_ Hx]]%lookup_insert_is_Some; [eauto|by apply H4].
  - intros h' Hne. cbn. by rewrite lookup_insert_ne.
Qed.
Lemma Lookup_state now hs s :
  blocks_wf s -> let s' := (Lookup now hs s).2 in blocks_wf s' ∧ registry_ s' = registry_ s ∧ same_stores s s'.
Proof.
  revert s. induction hs as [|h hs IH]; intros s Hwf; cbn [Lookup]; [split_and!; [done|done|by repeat split]|].
  destruct (pick now h s) as [[meta s1]|] eqn:E; [|split_and!; [done|done|by repeat split]].
  destruct (pick_spec now h s meta s1 Hwf E) as (Hwf1 & Hr & Hs & _). specialize (IH s1 Hwf1).
  destruct (Lookup now hs s1) as [results s2]. cbn [snd] in *. destruct IH as (H1 & H2 & H3). split_and!; [done|congruence|].
  destruct Hs as (? & ? & ? & ?), H3 as (? & ? & ? & ?). unfold same_stores. split_and!; congruence.
Qed.

(** ** Expiry *)

Lemma erase_list_indexed now h es m id h' :
  let m' := expire_owners now m (h, es) in
  (h' ∈ indexed m' id <-> h' ∈ indexed m id ∧ ~ (h = h' ∧ exists e, e ∈ es ∧ en_raiden_id e = id ∧ live now (en_expire_time e) = false)) ∧
  ((forall i, m !! i ≠ Some ∅) -> forall i, m' !! i ≠ Some ∅).
Proof.
  unfold expire_owners. cbn [fst snd]. revert m. induction es as [|e es IH]; intros m; cbn [foldl].
  { split; [|done]. split; [|by intros []]. intros Hx. split; [done|]. intros (_ & e & ?%elem_of_nil & _). done. }
  setoid_rewrite elem_of_cons. destruct (live now (en_expire_time e)) eqn:El.
  - destruct (IH m) as [-> Hne]. split; [|done]. split; intros [H1 H2]; (split; [done|]); intros (Hh & x & Hx & Hy & Hz); apply H2; (split; [done|]).
    + destruct Hx as [->|Hx]; [congruence|]. by exists x.
    + exists x. split_and!; [by right|done|done].
  - destruct (IH (EraseFromOwnerIndex (en_raiden_id e) h m)) as [-> Hne]. split; [|intros Hm; by apply Hne, erase_nonempty].
    rewrite indexed_erase. case_decide as Hid.
    + rewrite elem_of_difference, elem_of_singleton. split.
      * intros [[H1 H2] H3]. split; [done|]. intros (Hh & x & [->|Hx] & H4 & H5); [congruence|]. apply H3. eauto.
      * intros [H1 H2]. split_and!; [done| |]; [intros ->|intros (Hh & x & Hx & Hy)]; apply H2; (split; [done|]).
        -- exists e. split_and!; [by left|done|done].
        -- exists x. split; [by right|done].
    + split; intros [H1 H2]; (split; [done|]); intros (Hh & x & Hx & Hy & Hz); apply H2; (split; [done|]).
      * destruct Hx as [->|Hx]; [congruence|]. by exists x.
      * exists x. split_and!; [by right|done|done].
Qed.

Lemma expire_indexed now L m id h :
  let m' := foldl (expire_owners now) m L in
  (h ∈ indexed m' id <-> h ∈ indexed m id ∧
     ~ exists es e, (h, es) ∈ L ∧ e ∈ es ∧ en_raiden_id e = id ∧ live now (en_expire_time e) = false) ∧
  ((forall i, m !! i ≠ Some ∅) -> forall i, m' !! i ≠ Some ∅).
Proof.
  revert m. induction L as [|[h0 es0] L IH]; intros m; cbn [foldl].
  { split; [|done]. split; [|by intros []]. intros Hx. split; [done|]. intros (es & e & ?%elem_of_nil & _). done. }
  destruct (IH (expire_owners now m (h0, es0))) as [-> Hne]. destruct (erase_list_indexed now h0 es0 m id h) as [-> Hne0].
  split; [|intros Hm; by apply Hne, Hne0]. split.
  - intros [[H1 H2] H3]. split; [done|]. intros (es & e & [[= -> ->]|Hin]%elem_of_cons & He); [by apply H2; eauto|]. apply H3. eauto.
  - intros [H1 H2]. split_and!; [done| |]; intros Hx; apply H2; [destruct Hx as (<- & e & He)|destruct Hx as (es & e & Hin & He)].
    + exists es0, e. split; [by left|done].
    + exists es, e. split; [by right|done].
Qed.

Lemma foldl_delete {A} (keys : list Hash) (m : gmap Hash A) h :
  foldl (fun m h => delete h m) m keys !! h = if decide (h ∈ keys) then None else m !! h.
Proof.
  revert m. induction keys as [|k keys IH]; intros m; cbn [foldl]; [by rewrite decide_False by apply not_elem_of_nil|].
  rewrite IH. destruct (decide (h ∈ keys)) as [Hin|Hout].
  - by rewrite decide_True by (by right).
  - destruct (decide (h = k)) as [->|Hne]; [rewrite decide_True by left; by rewrite lookup_delete_eq|].
    rewrite decide_False by (by rewrite not_elem_of_cons). by rewrite lookup_delete_ne.
Qed.

Definition spec_cleanup now (D : Directory) : Directory := filter (fun x => live now x.2.2 = true) D.

Definition kept now s : gmap Hash (list RegistryEntry) := filter (fun e => live now (en_expire_time e) = true) <$> registry_ s.
Lemma cleanup_registry now s h :
  registry_ (CleanupExpiredEntries now s) !! h = match kept now s !! h with Some [] => None | x => x end ∧
  round_robin_indices_ (CleanupExpiredEntries now s) !! h = match kept now s !! h with Some [] => None | _ => round_robin_indices_ s !! h end.
Proof.
  unfold CleanupExpiredEntries. cbn [registry_ round_robin_indices_]. fold (kept now s). rewrite !foldl_delete.
  assert (Hk : h ∈ (filter (fun x : Hash * list RegistryEntry => x.2 = []) (map_to_list (kept now s))).*1 <-> kept now s !! h = Some []).
  { rewrite list_elem_of_fmap. setoid_rewrite list_elem_of_filter. split.
    - intros ([h' es] & -> & Hes & Hin%elem_of_map_to_list). cbn in *. by subst es.
    - intros E. exists (h, []). split; [done|]. split; [done|by apply elem_of_map_to_list]. }
  case_decide as Hd; [apply Hk in Hd; by rewrite Hd|]. destruct (kept now s !! h) as [[|e es]|]; [|done..]. destruct Hd. by apply Hk.
Qed.

Lemma cleanup_entries now s h id :
  blocks_wf s ->
  entry_of (entries (CleanupExpiredEntries now s) h) id = e ← entry_of (entries s h) id; if live now (en_expire_time e) then Some e else None.
Proof.
  intros Hwf. destruct (cleanup_registry now s h) as [Er _].
  assert (He : entries (CleanupExpiredEntries now s) h = filter (fun e => live now (en_expire_time e) = true) (entries s h)).
  { unfold entries. rewrite Er. unfold kept. rewrite lookup_fmap. destruct (registry_ s !! h) as [es|]; [|done]. cbn [from_option fmap option_fmap option_map].
    change (Datatypes.id es) with es. by destruct (filter _ es). }
  rewrite He, entry_of_filter by (by apply entries_NoDup). destruct (entry_of (entries s h) id) as [e|]; [|done]. cbn.
  by destruct (live now (en_expire_time e)).
Qed.

Lemma Cleanup_spec now s D :
  wf s -> represents D s ->
  let s' := CleanupExpiredEntries now s in wf s' ∧ represents (spec_cleanup now D) s'.
Proof.
  intros [Hwf Hst] HD s'. assert (Hent := cleanup_entries now s). assert (Hreg := cleanup_registry now s). fold s' in Hent, Hreg. split; [split; split|].
  - intros h es. destruct (Hreg h) as [-> _]. unfold kept. rewrite lookup_fmap. destruct (registry_ s !! h) as [es0|] eqn:E; [|done]. cbn [fmap option_fmap option_map].
    destruct (wf_entries s Hwf h es0 E) as (Hh & _ & Hnd). destruct (filter _ es0) as [|x l] eqn:Ef; [done|]. intros [= <-]. split_and!; [done|done|].
    rewrite <-Ef. by apply owners_filter.
  - intros id h. rewrite Hent by done. destruct (expire_indexed now (map_to_list (registry_ s)) (owner_index_ s) id h) as [Hi _].
    change (h ∈ indexed (foldl (expire_owners now) (owner_index_ s) (map_to_list (registry_ s))) id <-> is_Some (e ← entry_of (entries s h) id; if live now (en_expire_time e) then Some e else None)).
    rewrite Hi, wf_index by done. clear Hi. split.
    + intros [[e He] Hn]. rewrite He. cbn. destruct (live now (en_expire_time e)) eqn:El; [eauto|]. destruct Hn.
      destruct (entry_of_owner _ _ _ He) as [Hin Hid]. unfold entries in Hin. destruct (registry_ s !! h) as [es|] eqn:E; [|by apply elem_of_nil in Hin].
      exists es, e. by rewrite elem_of_map_to_list.
    + destruct (entry_of (entries s h) id) as [e|] eqn:He; [|by intros []]. cbn. destruct (live now (en_expire_time e)) eqn:El; [|by intros []].
      intros _. split; [eauto|]. intros (es & x & Hin%elem_of_map_to_list & Hx & Hid & Hl). unfold entries in He. rewrite Hin in He. change (entry_of es id = Some e) in He.
      destruct (wf_entries s Hwf h es Hin) as (_ & _ & Hnd). pose proof (entry_of_elem es x Hnd Hx) as Hx'. rewrite Hid in Hx'. congruence.
  - apply (expire_indexed now (map_to_list (registry_ s)) (owner_index_ s) empty_id []). by apply wf_index_nonempty.
  - intros h. destruct (Hreg h) as [-> ->]. pose proof (wf_turns s Hwf h) as Ht. unfold kept. rewrite lookup_fmap.
    destruct (registry_ s !! h) as [es|]; cbn [fmap option_fmap option_map]; [by destruct (filter _ es)|done].
  - intros id r. cbn. rewrite map_lookup_filter_Some. intros [Hr _]. by eapply wf_store.
  - apply Hst.
  - intros h id. rewrite Hent by done. unfold spec_cleanup. specialize (HD h id). destruct (entry_of (entries s h) id) as [e|] eqn:He; cbn in HD |- *.
    + destruct (live now (en_expire_time e)) eqn:El.
      * apply map_lookup_filter_Some. done.
      * apply map_lookup_filter_None. right. intros x Hx. rewrite HD in Hx. injection Hx as <-. cbn. congruence.
    + apply map_lookup_filter_None. by left.
Qed.

(** ** Which entry a lookup picks *)

Definition live_entries now s h : list RegistryEntry := filter (fun e => live now (en_expire_time e) = true) (entries s h).
Definition metadata e : KVBlockMetadata := HostOffload.mkKVBlock (RaidenIdToProto (en_raiden_id e)) (en_block_id e).
(** The turn of a hash. *)
Definition turn s h : nat := default 0%nat (round_robin_indices_ s !! h).

Lemma pick_eq now h s :
  pick now h s =
  match live_entries now s h with
  | [] => None
  | l => let idx := (turn s h mod length l)%nat in
         (fun e => (metadata e, with_round_robin (<[h := S idx]> (round_robin_indices_ s)) s)) <$> l !! idx
  end.
Proof.
  unfold pick, live_entries, entries, turn. destruct (registry_ s !! h) as [es|]; [|done].
  change (default [] (Some es)) with es. destruct (filter _ es) as [|e l] eqn:E; [done|]. cbn [length Nat.eqb].
  set (idx := (_ mod _)%nat). by destruct ((e :: l) !! idx).
Qed.
Lemma pick_Some now h s meta s' :
  pick now h s = Some (meta, s') -> exists e, e ∈ live_entries now s h ∧ meta = metadata e.
Proof.
  rewrite pick_eq. destruct (live_entries now s h) as [|x l]; [done|]. cbv zeta. set (idx := (_ mod _)%nat).
  destruct ((x :: l) !! idx) as [e|] eqn:E; [|done]. intros [= <- _]. exists e. split; [by eapply list_elem_of_lookup_2|done].
Qed.
Lemma pick_None now h s : pick now h s = None <-> live_entries now s h = [].
Proof.
  rewrite pick_eq. destruct (live_entries now s h) as [|x l]; [done|]. cbv zeta. split; [|done].
  destruct (lookup_lt_is_Some_2 (x :: l) (turn s h mod length (x :: l))%nat) as [e ->]; [|done].
  apply Nat.mod_upper_bound. cbn. lia.
Qed.

Definition live_at (D : Directory) now h id (b : Z) : Prop := exists t, D !! (h, id) = Some (b, t) ∧ live now t = true.
Lemma live_entry_at D now s h e :
  blocks_wf s -> represents D s -> e ∈ live_entries now s h -> live_at D now h (en_raiden_id e) (en_block_id e).
Proof.
  intros Hwf HD [Hl He]%list_elem_of_filter. exists (en_expire_time e). split; [|done].
  rewrite HD, entry_of_elem; [done|by apply entries_NoDup|done].
Qed.
Lemma live_at_entry D now s h id b :
  blocks_wf s -> represents D s -> live_at D now h id b -> exists e, e ∈ live_entries now s h ∧ en_raiden_id e = id ∧ en_block_id e = b.
Proof.
  intros Hwf HD (t & Ht & Hl). rewrite HD in Ht. apply fmap_Some in Ht as (e & He & [= -> ->]). exists e.
  apply entry_of_owner in He as [Hin <-]. unfold live_entries. by rewrite list_elem_of_filter.
Qed.

(** An answer of the abstract directory: aligned with the request up to the first hash that
    nobody has a live registration of. *)
Fixpoint answered (D : Directory) now (hs : list Hash) (metas : list KVBlockMetadata) : Prop :=
  match hs, metas with
  | [], [] => True
  | h :: _, [] => forall id b, ~ live_at D now h id b
  | h :: hs, m :: metas =>
      live_at D now h (RaidenIdFromProto (HostOffload.kvb_raiden_id m)) (HostOffload.kvb_block_id m) ∧ answered D now hs metas
  | [], _ :: _ => False
  end.

Lemma Lookup_answered now hs s D : blocks_wf s -> represents D s -> answered D now hs (Lookup now hs s).1.
Proof.
  revert s. induction hs as [|h hs IH]; intros s Hwf HD; cbn [Lookup]; [done|]. destruct (pick now h s) as [[m s1]|] eqn:E.
  - destruct (pick_spec now h s m s1 Hwf E) as (Hwf1 & Hr & _). apply pick_Some in E as (e & He & ->).
    assert (HD1 : represents D s1) by (intros h' id'; unfold entries; rewrite Hr; apply HD).
    specialize (IH s1 Hwf1 HD1). destruct (Lookup now hs s1) as [metas s2]. cbn [fst answered] in *. split; [|done].
    cbn [metadata HostOffload.kvb_raiden_id HostOffload.kvb_block_id]. rewrite RaidenIdFromProto_ToProto. by apply (live_entry_at D now s).
  - cbn. intros id b Hl. apply pick_None in E. destruct (live_at_entry D now s h id b Hwf HD Hl) as (e & He & _). rewrite E in He. by apply elem_of_nil in He.
Qed.

(** ** The server as a whole *)

Inductive Op : Type :=
  | OpRegister (now : Z) (entries : list RegisterEntry)
  | OpLookup (now : Z) (prefix_hashes : list Hash)
  | OpUnregister (prefix_hashes : list Hash) (raiden_id : option RaidenIdProto)
  | OpCleanup (now : Z)
  | OpRegisterStore (now : Z) (store : option StoreInfo)
  | OpUnregisterStore (raiden_id : option RaidenIdProto)
  | OpHeartbeat (now later : Z) (raiden_id : option RaidenIdProto) (free : Z)
  | OpRegisterKVTransferSpec (spec : option KVTransferSpec) (group : string).

(** What the block handlers answer. *)
Inductive Answer : Type :=
  | AnsReply (success : bool)
  | AnsBlocks (results : list KVBlockMetadata)
  | AnsOther.

Definition exec (op : Op) s : Answer * GlobalRegistryServiceImpl :=
  match op with
  | OpRegister now l => let r := Register now l s in (AnsReply (success r.1), r.2)
  | OpLookup now hs => let r := Lookup now hs s in (AnsBlocks r.1, r.2)
  | OpUnregister hs p => let r := Unregister hs p s in (AnsReply (success r.1), r.2)
  | OpCleanup now => (AnsOther, CleanupExpiredEntries now s)
  | OpRegisterStore now store => (AnsOther, (RegisterStore now store s).2)
  | OpUnregisterStore p => (AnsOther, (UnregisterStore p s).2)
  | OpHeartbeat now later p free => (AnsOther, (Heartbeat now later p free s).2)
  | OpRegisterKVTransferSpec spec group => (AnsOther, (RegisterKVTransferSpec spec group s).2)
  end.

(** The directory's own steps. *)
Inductive dstep (default_ttl : Duration) : Directory -> Op -> Answer -> Directory -> Prop :=
  | DRegister now l D :
      dstep default_ttl D (OpRegister now l) (AnsReply (acceptable l))
        (if acceptable l then foldl (spec_register default_ttl now) D l else D)
  | DLookup now hs metas D : answered D now hs metas -> dstep default_ttl D (OpLookup now hs) (AnsBlocks metas) D
  | DUnregister hs p id verdict D :
      named p = Some id -> (NoDup hs -> (verdict = true <-> Forall (fun h => ~ mismatched D id h) hs)) ->
      dstep default_ttl D (OpUnregister hs p) (AnsReply verdict) (foldl (fun D h => delete (h, id) D) D hs)
  | DUnregisterUnnamed hs p D : named p = None -> dstep default_ttl D (OpUnregister hs p) (AnsReply false) D
  | DCleanup now D : dstep default_ttl D (OpCleanup now) AnsOther (spec_cleanup now D)
  | DOther op D :
      match op with OpRegister _ _ | OpLookup _ _ | OpUnregister _ _ | OpCleanup _ => False | _ => True end ->
      dstep default_ttl D op AnsOther D.

(** Handlers about stores and specifications. *)
Definition same_blocks s s' : Prop :=
  registry_ s' = registry_ s ∧ round_robin_indices_ s' = round_robin_indices_ s ∧ owner_index_ s' = owner_index_ s ∧
  default_ttl_ s' = default_ttl_ s.
Lemma same_blocks_wf s s' : same_blocks s s' -> blocks_wf s -> blocks_wf s'.
Proof.
  intros (E1 & E2 & E3 & _) [H1 H2 H3 H4]. split; unfold entries in *; rewrite ?E1, ?E2, ?E3; done.
Qed.
Lemma same_blocks_represents D s s' : same_blocks s s' -> represents D s -> represents D s'.
Proof. intros (E1 & _) HD h id. unfold entries. rewrite E1. apply HD. Qed.

Lemma named_name p id : named p = Some id -> job_name id ≠ EmptyString.
Proof. destruct p as [p|]; [|done]. unfold named. case_bool_decide; [done|]. by intros [= <-]. Qed.

Lemma with_stores_wf m s :
  stores_wf s ->
  (forall id r, m !! id = Some r -> store_registry_ s !! id = Some r ∨
     job_name id ≠ EmptyString ∧ store_server_address r ≠ EmptyString ∧ (st_ttl r = None <-> st_expire_time r = None)) ->
  stores_wf (with_stores m s).
Proof. intros [H1 H2] Hm. split; [|exact H2]. intros id r [Hr|Hr]%Hm; [by eapply H1|done]. Qed.

Lemma unchanged s : stores_wf s -> stores_wf s ∧ same_blocks s s.
Proof. intros H. split; [done|by repeat split]. Qed.

Lemma exec_stores op s :
  stores_wf s ->
  match op with OpRegister _ _ | OpLookup _ _ | OpUnregister _ _ | OpCleanup _ => True | _ => stores_wf (exec op s).2 ∧ same_blocks s (exec op s).2 end.
Proof.
  intros Hwf. destruct op as [| | | |now store|p|now later p free|spec group]; try done; cbn [exec snd].
  - unfold RegisterStore. destruct store as [store|]; [|by apply unchanged]. destruct (named _) as [id|] eqn:En; [|by apply unchanged].
    case_bool_decide; [by apply unchanged|]. split; [|by repeat split]. apply with_stores_wf; [done|].
    intros id' r [[<- <-]|[_ Hr]]%lookup_insert_Some; [right|by left]. split_and!; [by eapply named_name|done|]. by destruct (0 <? _).
  - unfold UnregisterStore. destruct (named p) as [id|]; [|by apply unchanged]. split; [|by repeat split]. apply with_stores_wf; [done|].
    intros id' r [_ Hr]%lookup_delete_Some. by left.
  - unfold Heartbeat. destruct (named p) as [id|]; [|by apply unchanged]. unfold live_store.
    destruct (store_registry_ s !! id) as [r|] eqn:Er; [|by apply unchanged]. destruct (live _ _); [|by apply unchanged].
    split; [|by repeat split]. apply with_stores_wf; [done|]. intros id' r' [[<- <-]|[_ Hr]]%lookup_insert_Some; [right|by left].
    destruct (wf_store s Hwf id r Er) as (? & ? & ?). cbn. split_and!; [done|done|]. by destruct (st_ttl r).
  - unfold RegisterKVTransferSpec. destruct spec as [spec|]; [|by apply unchanged]. case_bool_decide; [by apply unchanged|].
    destruct (SpecValidationError spec) eqn:Ev; [by apply unchanged|]. destruct (transfer_specs_ s !! group) eqn:Eg.
    + destruct (SpecDifference _ _); by apply unchanged.
    + split; [|by repeat split]. destruct Hwf as [H1 H2]. split; [exact H1|]. cbn [snd transfer_specs_ with_specs]. intros g sp [[<- <-]|[_ Hs]]%lookup_insert_Some; [done|by eapply H2].
Qed.

(** Every handler is a step of the directory. *)
Lemma exec_refines op s D :
  wf s -> represents D s -> exists D', dstep (default_ttl_ s) D op (exec op s).1 D' ∧ wf (exec op s).2 ∧ represents D' (exec op s).2 ∧
    default_ttl_ (exec op s).2 = default_ttl_ s.
Proof.
  intros [Hb Hst] HD. pose proof (exec_stores op s Hst) as Hother. destruct op as [now l|now hs|hs p|now| | | |]; cbn [exec fst snd] in *.
  5-8: destruct Hother as [Hst' Hsame]; exists D; split_and!; [by apply DOther|split; [by eapply same_blocks_wf|done]|by eapply same_blocks_represents|apply Hsame].
  - destruct (Register_spec now l s D Hb HD) as (Hr & Hb' & Hs & HD'). rewrite Hr. eexists. split_and!; [apply DRegister|split; [done|by eapply same_stores_wf]|done|apply Hs].
  - destruct (Lookup_state now hs s Hb) as (Hb' & Hr & Hs). exists D. split_and!; [by apply DLookup, Lookup_answered|split; [done|by eapply same_stores_wf]| |apply Hs].
    intros h id. unfold entries. rewrite Hr. apply HD.
  - destruct (Unregister_spec hs p s D Hb HD) as (Hb' & Hs & Hm). destruct (named p) as [id|] eqn:En.
    + destruct Hm as [HD' Hok]. eexists. split_and!; [by eapply DUnregister|split; [done|by eapply same_stores_wf]|done|apply Hs].
    + destruct Hm as [E Hf]. rewrite Hf, E. exists D. split_and!; [by apply DUnregisterUnnamed|done|done|done].
  - destruct (Cleanup_spec now s D (Build_wf s Hb Hst) HD) as [Hwf' HD']. eexists. split_and!; [apply DCleanup|done|done|done].
Qed.

Fixpoint run (ops : list Op) s : list Answer * GlobalRegistryServiceImpl :=
  match ops with
  | [] => ([], s)
  | op :: ops => let '(a, s) := exec op s in let '(answers, s) := run ops s in (a :: answers, s)
  end.
Inductive dtrace (default_ttl : Duration) : Directory -> list Op -> list Answer -> Directory -> Prop :=
  | DDone D : dtrace default_ttl D [] [] D
  | DThen D1 D2 D3 op ops a answers :
      dstep default_ttl D1 op a D2 -> dtrace default_ttl D2 ops answers D3 ->
      dtrace default_ttl D1 (op :: ops) (a :: answers) D3.

Lemma empty_wf default_ttl n : wf (create default_ttl n).
Proof.
  split; split; unfold create, entries, indexed; cbn.
  - done.
  - intros id h. rewrite !lookup_empty. cbn. split; [set_solver|by intros []].
  - done.
  - by intros h [].
  - done.
  - done.
Qed.
Lemma create_represents default_ttl n : represents ∅ (create default_ttl n).
Proof. intros h id. unfold create, entries. cbn. by rewrite !lookup_empty. Qed.

Lemma run_refines ops s D :
  wf s -> represents D s ->
  exists D', dtrace (default_ttl_ s) D ops (run ops s).1 D' ∧ wf (run ops s).2 ∧ represents D' (run ops s).2.
Proof.
  revert s D. induction ops as [|op ops IH]; intros s D Hwf HD; cbn [run]; [exists D; split_and!; [constructor|done|done]|].
  destruct (exec_refines op s D Hwf HD) as (D1 & Hstep & Hwf1 & HD1 & Ed). destruct (exec op s) as [a s1]. cbn [fst snd] in *.
  destruct (IH s1 D1 Hwf1 HD1) as (D2 & Htr & Hwf2 & HD2). rewrite Ed in Htr. destruct (run ops s1) as [answers s2]. cbn [fst snd] in *.
  exists D2. split_and!; [by eapply DThen|done|done].
Qed.
Definition reachable s : Prop := exists default_ttl n ops, s = (run ops (create default_ttl n)).2.
Lemma reachable_directory s : reachable s -> wf s ∧ exists D, represents D s.
Proof.
  intros (d & n & ops & ->). destruct (run_refines ops _ _ (empty_wf d n) (create_represents d n)) as (D & _ & Hwf & HD). eauto.
Qed.

Lemma run_app ops1 ops2 s : (run (ops1 ++ ops2) s).2 = (run ops2 (run ops1 s).2).2.
Proof.
  revert s. induction ops1 as [|op ops1 IH]; intros s; [done|]. cbn [run app]. destruct (exec op s) as [a s1]. specialize (IH s1).
  destruct (run ops1 s1) as [x s2], (run (ops1 ++ ops2) s1) as [y s3]. exact IH.
Qed.
Lemma reachable_run ops s : reachable s -> reachable (run ops s).2.
Proof. intros (d & n & l & ->). exists d, n, (l ++ ops). by rewrite run_app. Qed.

(** C25: Whatever handlers have run, the server's maps are well typed against each other: a
    registered hash is not empty and its list holds at least one entry and at most one per
    owner; the index of an owner is exactly the hashes it has an entry of, and is absent
    when it has none; only registered hashes have a turn counter; a store has a name and an
    address, and its expiry is infinite exactly when its time to live is; every published
    specification is structurally valid. *)
Theorem registry_state_wf ops default_ttl n : wf (run ops (create default_ttl n)).2.
Proof. destruct (run_refines ops _ _ (empty_wf default_ttl n) (create_represents default_ttl n)) as (D & _ & Hwf & _). done. Qed.

(** C11: The server refines a directory from (hash, owner) to a block and its expiry.  Every
    sequence of handler calls, with its answers, is a sequence of steps of the directory: a
    registration with an invalid entry changes nothing and is refused, otherwise every entry
    is put; unregistering deletes the owner's entries and is refused exactly when a hash is
    registered but not by this owner; a lookup answers with live entries, aligned with the
    request, up to the first hash that has none; cleanup drops what has expired; the other
    handlers do not touch it. *)
Theorem registry_refines_directory ops default_ttl n :
  let r := run ops (create default_ttl n) in exists D, dtrace default_ttl ∅ ops r.1 D ∧ represents D r.2.
Proof.
  destruct (run_refines ops _ _ (empty_wf default_ttl n) (create_represents default_ttl n)) as (D & Htr & _ & HD). by exists D.
Qed.

End RegistryState.
