(* ===== verification/GlobalRegistryAnswers.v ===== *)
(** * The answers of the global block registry

    [Module RegistryAnswers]: the turns of a lookup and its composition with the client and
    the host offload backend; the stream of what a node owns; the placement targets of a
    store; the transfer specification of a pool group. *)

From S2P Require Import Prelude ReshardTypes StoreBackend LruCache HostOffloadBackend HostOffloadLookup GlobalRegistry GlobalRegistryProofs.

Module RegistryAnswers.
Import RegistryServer RegistryState.
Implicit Types (s : GlobalRegistryServiceImpl) (id : RaidenId) (h : Hash) (e : RegistryEntry) (es : list RegistryEntry) (now : Z).

(** ** Turns *)

(** Lookups of one hash, one after the other. *)
Fixpoint lookups (nows : list Z) h s : list KVBlockMetadata * GlobalRegistryServiceImpl :=
  match nows with
  | [] => ([], s)
  | now :: nows => let '(a, s) := Lookup now [h] s in let '(rest, s) := lookups nows h s in (a ++ rest, s)
  end.

Lemma Lookup_one now h s l :
  l ≠ [] -> live_entries now s h = l ->
  exists e s', l !! (turn s h mod length l)%nat = Some e ∧ Lookup now [h] s = ([metadata e], s') ∧
    turn s' h = S (turn s h mod length l) ∧ forall now', live_entries now' s' h = live_entries now' s h.
Proof.
  intros Hne Hl. assert (Hlt : (turn s h mod length l < length l)%nat) by (apply Nat.mod_upper_bound; by destruct l).
  destruct (lookup_lt_is_Some_2 l _ Hlt) as [e He]. exists e. cbn [Lookup]. rewrite pick_eq, Hl. destruct l as [|x l]; [done|].
  cbv zeta. rewrite He. cbn [fmap option_fmap option_map]. eexists. split_and!; [done|done| |done].
  unfold turn at 1. cbn [with_round_robin round_robin_indices_]. by rewrite lookup_insert_eq.
Qed.

Lemma omap_seq_shift {B} (f g : nat -> option B) a b k :
  (forall i, f (a + i)%nat = g (b + i)%nat) -> omap f (seq a k) = omap g (seq b k).
Proof.
  revert a b. induction k as [|k IH]; intros a b Hfg; [done|]. cbn [seq omap list_omap]. pose proof (Hfg 0%nat) as H0.
  rewrite !Nat.add_0_r in H0. rewrite H0, (IH (S a) (S b)); [done|]. intros i. rewrite !Nat.add_succ_comm. apply Hfg.
Qed.

Lemma lookups_turns nows h s l :
  l ≠ [] -> Forall (fun now => live_entries now s h = l) nows ->
  (lookups nows h s).1 = omap (fun i => metadata <$> l !! ((turn s h + i) mod length l)%nat) (seq 0 (length nows)).
Proof.
  intros Hne. assert (Hlen : length l ≠ 0%nat) by (by destruct l). revert s. induction nows as [|now nows IH]; intros s Hall; [done|].
  apply Forall_cons in Hall as [Hnow Hall]. destruct (Lookup_one now h s l Hne Hnow) as (e & s' & He & HL & Ht & Hs). cbn [lookups]. rewrite HL.
  assert (Hall' : Forall (fun now => live_entries now s' h = l) nows) by (eapply Forall_impl; [exact Hall|intros ? <-; apply Hs]).
  specialize (IH s' Hall'). destruct (lookups nows h s') as [rest s2]. cbn [fst] in *. rewrite IH. cbn [length seq omap list_omap].
  rewrite Nat.add_0_r, He. cbn [app fmap option_fmap option_map]. f_equal.
  apply omap_seq_shift. intros i. rewrite Ht. f_equal. f_equal.
  rewrite <-Nat.add_1_l, (Nat.add_comm 1), <-Nat.add_assoc, Nat.Div0.add_mod_idemp_l. f_equal; lia.
Qed.

Lemma rotate_perm {A} n (l : list A) : rotate n l ≡ₚ l.
Proof. unfold rotate. rewrite Permutation_app_comm. by rewrite take_drop. Qed.
Lemma omap_rotate {A B} (f : A -> B) t (l : list A) :
  omap (fun i => f <$> l !! ((t + i) mod length l)%nat) (seq 0 (length l)) = f <$> rotate t l.
Proof.
  assert (H : forall k, (k <= length l)%nat -> omap (fun i => f <$> l !! ((t + i) mod length l)%nat) (seq 0 k) = f <$> take k (rotate t l)).
  { induction k as [|k IH]; intros Hk; [by rewrite take_0|]. rewrite seq_S, omap_app, IH by lia. cbn [omap list_omap Nat.add].
    destruct (lookup_lt_is_Some_2 (rotate t l) k) as [x Hx]; [rewrite length_rotate; lia|]. rewrite (take_S_r _ _ x Hx), fmap_app. f_equal.
    rewrite lookup_rotate_r in Hx by lia. unfold rotate_nat_add in Hx.
    replace ((t + k) mod length l)%nat with (Z.to_nat ((Z.of_nat t + Z.of_nat k) mod Z.of_nat (length l))) by (rewrite <-Nat2Z.inj_add, <-Nat2Z.inj_mod; lia).
    by rewrite Hx. }
  rewrite H by done. by rewrite take_ge by (by rewrite length_rotate).
Qed.

(** Lookups share a block's owners fairly.  As long as the live registrations of a hash
    are the same [n] entries, [n] consecutive lookups of it answer with each of its owners
    exactly once, in turn from the owner the counter points at. *)
Theorem registry_lookup_fair nows h s :
  reachable s -> nows ≠ [] -> Forall (fun now => live_entries now s h = live_entries (default 0 (head nows)) s h) nows ->
  let l := live_entries (default 0 (head nows)) s h in length nows = length l ->
  (lookups nows h s).1 = metadata <$> rotate (turn s h) l ∧
  (lookups nows h s).1 ≡ₚ metadata <$> l ∧ NoDup (owners l).
Proof.
  intros Hr Hne Hall l Hlen. assert (Hl : l ≠ []) by (intros E; rewrite E in Hlen; by destruct nows).
  rewrite (lookups_turns nows h s l Hl Hall), Hlen, omap_rotate. split_and!; [done|by rewrite rotate_perm|].
  apply owners_filter, entries_NoDup. by destruct (reachable_directory s Hr) as [[] _].
Qed.

(** ** The registry behind a backend's lookup *)

(** The entry whose turn it is. *)
Definition serving now s h : option KVBlockMetadata := fst <$> pick now h s.

(** Picking for one hash does not change what is served for another. *)
Lemma serving_other now h h' s meta s' : h ≠ h' -> pick now h s = Some (meta, s') -> serving now s' h' = serving now s h'.
Proof.
  intros Hne. unfold serving. rewrite !pick_eq. destruct (live_entries now s h) as [|x l]; [done|]. cbv zeta.
  destruct (_ !! (_ mod _)%nat) as [e|]; [|done]. intros [= _ <-]. change (live_entries now (with_round_robin ?r s) h') with (live_entries now s h').
  unfold turn. cbn [with_round_robin round_robin_indices_]. rewrite lookup_insert_ne by done.
  destruct (live_entries now s h') as [|y k]; [done|]. by destruct (_ !! (_ mod length (y :: k))%nat).
Qed.
Lemma registered_prefix_ext (f g : Hash -> option KVBlockMetadata) hs :
  (forall h, h ∈ hs -> f h = g h) -> OffloadLookup.registered_prefix f hs = OffloadLookup.registered_prefix g hs.
Proof.
  induction hs as [|h hs IH]; intros Hfg; [done|]. cbn. rewrite (Hfg h) by left. destruct (g h); [|done]. f_equal. apply IH. intros x Hx. apply Hfg. by right.
Qed.
Lemma Lookup_prefix now hs s : NoDup hs -> (Lookup now hs s).1 = OffloadLookup.registered_prefix (serving now s) hs.
Proof.
  revert s. induction hs as [|h hs IH]; intros s; [done|]. intros [Hh Hnd]%NoDup_cons. cbn [Lookup OffloadLookup.registered_prefix].
  unfold serving at 1. destruct (pick now h s) as [[m s']|] eqn:E; [|done]. cbn [fmap option_fmap option_map fst].
  specialize (IH s' Hnd). destruct (Lookup now hs s') as [results s2]. cbn [fst] in *. rewrite IH. f_equal. apply registered_prefix_ext.
  intros x Hx. eapply serving_other; [|exact E]. by intros ->.
Qed.

(** The client's call to this server. *)
Definition over_registry now s : list Hash -> StatusOr (list KVBlockMetadata) :=
  RegistryClient.Lookup (fun hs => Ok (Lookup now hs s).1).
Lemma over_registry_contract now s : OffloadLookup.registry_contract (over_registry now s) (serving now s).
Proof. intros hs Hnd. unfold over_registry, RegistryClient.Lookup. cbn. by rewrite Lookup_prefix. Qed.

(** Where the blocks of an answer come from. *)
Lemma resolved_prefix_sound i local remote hs :
  let r := OffloadLookup.resolved_prefix i local remote hs in
  r.*1 `prefix_of` hs ∧ forall h blk, (h, blk) ∈ r -> local h = Some blk ∨ remote h = Some blk.
Proof.
  revert local. induction hs as [|h hs IH]; intros local; cbn [OffloadLookup.resolved_prefix]; [split; [done|by intros ?? ?%elem_of_nil]|].
  destruct (local h) as [blk|] eqn:El; [|destruct (remote h) as [blk|] eqn:Er].
  - destruct (IH local) as [Hp Hs]. split; [by apply prefix_cons|]. intros h' blk' [[= -> ->]|Hin]%elem_of_cons; [by left|by apply Hs].
  - destruct (IH (if i then local else fun _ => None)) as [Hp Hs]. split; [by apply prefix_cons|].
    intros h' blk' [[= -> ->]|Hin]%elem_of_cons; [by right|]. destruct (Hs h' blk' Hin) as [Hl|Hr]; [|by right]. destruct i; [by left|done].
  - split; [apply prefix_nil|by intros ?? ?%elem_of_nil].
Qed.

(** C30: A backend's lookup over this registry.  For a request without repetitions and a
    registry in any reachable state, the hashes answered are a prefix of the request, and
    each block is the one the backend itself has cached or a remote block that another node
    has a live registration of, with the block id of that registration; without a registry
    client or with the global lookup disabled only cached blocks are answered. *)
Theorem lookup_over_registry now s hashes opts b :
  reachable s -> LRU.wf (HostOffload.lru_cache_ b) -> NoDup hashes ->
  exists D, represents D s ∧
  let results := (HostOffload.Lookup (over_registry now s) [] hashes opts b).1 in
  results.*1 `prefix_of` hashes ∧
  forall h blk, (h, blk) ∈ results ->
    LRU.Peek h (HostOffload.lru_cache_ b) = Some blk ∨
    enable_global opts = true ∧ HostOffload.registry_client_ b = true ∧
    exists id block, blk = host_block id block REMOTE ∧ id ≠ HostOffload.raiden_id_ b ∧ live_at D now h id block.
Proof.
  intros Hr Hc Hnd. destruct (reachable_directory s Hr) as [[Hwf _] [D HD]]. exists D. split; [done|].
  pose proof (OffloadLookup.Lookup_reference_spec (over_registry now s) (serving now s) hashes opts b Hc Hnd (over_registry_contract now s)) as HL.
  destruct (HostOffload.Lookup _ [] hashes opts b) as [results b']. destruct HL as [-> _]. cbn [fst].
  set (remote := if enable_global opts && HostOffload.registry_client_ b then _ else _).
  destruct (resolved_prefix_sound (enable_interleaved_lookup opts) (fun h => LRU.Peek h (HostOffload.lru_cache_ b)) remote hashes) as [Hp Hs].
  split; [exact Hp|]. intros h blk Hin. destruct (Hs h blk Hin) as [Hl|Hm]; [by left|right]. unfold remote in Hm.
  destruct (enable_global opts && HostOffload.registry_client_ b) eqn:Eg; [|done]. apply andb_true_iff in Eg as [-> ->]. split_and!; [done|done|].
  unfold OffloadLookup.remote_block, serving in Hm. destruct (pick now h s) as [[m s']|] eqn:Ep; [|done]. cbn in Hm.
  destruct (decide _) as [|Hid] in Hm; [done|]. injection Hm as <-. apply pick_Some in Ep as (e & He & ->). cbn [metadata HostOffload.kvb_raiden_id HostOffload.kvb_block_id] in *.
  rewrite RaidenIdFromProto_ToProto in *. exists (en_raiden_id e), (en_block_id e). split_and!; [done|done|]. by apply (live_entry_at D now s).
Qed.

(** ** What a node owns *)

(** Whole seconds, rounded up; never zero for a registration that expires. *)
Definition reported_ttl now (expire_time : Time) (seconds : Z) : Prop :=
  match expire_time with
  | None => seconds = 0
  | Some t => 0 < seconds ∧ Seconds (seconds - 1) < t - now <= Seconds seconds
  end.
Lemma remaining_reported now t : live now t = true -> reported_ttl now t (remaining now t).
Proof.
  destruct t as [t|]; [|done]. cbn. rewrite Z.ltb_lt. intros Hlt. unfold remaining, ceil_seconds, Seconds.
  rewrite Z.quot_div_nonneg by lia. pose proof (Z.div_mod (t - now) 1000000000) as Hd. pose proof (Z.mod_pos_bound (t - now) 1000000000) as Hm.
  destruct (_ <? t - now) eqn:E; to_prop; lia.
Qed.

Lemma pulled_eq now id s h :
  pulled now id s h = e ← entry_of (entries s h) id;
    if live now (en_expire_time e) then Some (mkPulled h (en_block_id e) (remaining now (en_expire_time e))) else None.
Proof.
  unfold pulled, entries, entry_of. destruct (registry_ s !! h) as [es|]; [|done]. change (default [] (Some es)) with es.
  by destruct (list_find _ es) as [[j e]|].
Qed.
Lemma pulled_hash now id s h x : pulled now id s h = Some x -> pl_prefix_hash x = h.
Proof. rewrite pulled_eq. destruct (entry_of _ _) as [e|]; [|done]. cbn. destruct (live _ _); [|done]. by intros [= <-]. Qed.
Lemma omap_pulled_sublist now id s hs : (pl_prefix_hash <$> omap (pulled now id s) hs) `sublist_of` hs.
Proof.
  induction hs as [|h hs IH]; [done|]. cbn. destruct (pulled now id s h) as [x|] eqn:E; [|by constructor].
  cbn. rewrite (pulled_hash now id s h x E). by constructor.
Qed.

Lemma pull_batches_spec fuel size view write id k hs :
  (forall k, write k = true) -> (0 < size)%nat -> (length hs <= fuel)%nat ->
  let r := pull_batches fuel size view write id k hs in
  r.1 = OkStatus ∧ (pl_prefix_hash <$> concat r.2) `sublist_of` hs ∧
  Forall (fun l => 1 <= length l <= size)%nat r.2 ∧ (length r.2 <= length hs)%nat ∧
  (forall x, x ∈ concat r.2 -> exists k, pulled (view k).1 id (view k).2 (pl_prefix_hash x) = Some x) ∧
  forall h, h ∈ hs -> (forall k, is_Some (pulled (view k).1 id (view k).2 h)) -> h ∈ pl_prefix_hash <$> concat r.2.
Proof.
  intros Hw Hsize. revert k hs. induction fuel as [|fuel IH]; intros k hs Hlen.
  { destruct hs; [|cbn in Hlen; lia]. cbn. split_and!; [done|done|constructor|done|by intros ? ?%elem_of_nil|by intros ? ?%elem_of_nil]. }
  destruct hs as [|h0 hs0]; [cbn; split_and!; [done|done|constructor|done|by intros ? ?%elem_of_nil|by intros ? ?%elem_of_nil]|].
  assert (Hlen' : (S (length (drop size (h0 :: hs0))) <= length (h0 :: hs0))%nat) by (rewrite length_drop; cbn; lia).
  cbn [pull_batches]. revert Hlen Hlen'. generalize (h0 :: hs0). clear h0 hs0. intros hs Hlen Hlen'.
  destruct (view k) as [now sv] eqn:Ev. rewrite Hw, andb_false_r.
  specialize (IH (S k) (drop size hs) ltac:(lia)). destruct (pull_batches fuel size view write id (S k) (drop size hs)) as [st rest].
  cbn [fst snd] in IH |- *. destruct IH as (-> & Hsub & Hall & Hn & Hsound & Hcomplete). set (resp := omap (pulled now id sv) (take size hs)).
  set (r := if (_ : bool) then rest else resp :: rest).
  assert (Hr : concat r = resp ++ concat rest) by (unfold r; destruct resp; done). rewrite Hr. split_and!; [done| | | | |].
  - rewrite fmap_app, <-(take_drop size hs). apply sublist_app; [apply omap_pulled_sublist|exact Hsub].
  - unfold r. destruct resp as [|x l] eqn:Eresp; [done|]. constructor; [|done]. split; [cbn; lia|]. rewrite <-Eresp. unfold resp.
    etransitivity; [|apply firstn_le_length with (l := hs)]. rewrite <-(length_fmap pl_prefix_hash). by apply sublist_length, omap_pulled_sublist.
  - unfold r. destruct resp; cbn [length Nat.eqb]; lia.
  - intros x [Hx|Hx]%elem_of_app; [|by apply Hsound]. exists k. rewrite Ev. apply list_elem_of_omap in Hx as (h & _ & Hp). cbn. by rewrite (pulled_hash _ _ _ _ _ Hp).
  - intros h Hin Hlive. rewrite fmap_app, elem_of_app. rewrite <-(take_drop size hs) in Hin. apply elem_of_app in Hin as [Hin|Hin]; [left|right; by apply Hcomplete].
    destruct (Hlive k) as [x Hx]. rewrite Ev in Hx. cbn in Hx. apply list_elem_of_fmap. exists x. split; [symmetry; by eapply pulled_hash|].
    apply list_elem_of_omap. eauto.
Qed.

Lemma batch_size_pos s : reachable s -> (0 < pull_owned_batch_size_ s)%nat.
Proof.
  intros (d & n & ops & ->). assert (Hc : (0 < pull_owned_batch_size_ (create d n))%nat).
  { unfold create. cbn [pull_owned_batch_size_]. destruct (Z.ltb_spec 0 n); [lia|]. unfold kDefaultPullOwnedBatchSize. lia. }
  assert (Hwf := empty_wf d n). assert (HD := create_represents d n). revert Hc Hwf HD. generalize (create d n), (∅ : gmap (Hash * RaidenId) (Z * Time)).
  induction ops as [|op ops IH]; intros s D Hc Hwf HD; [done|]. cbn [run]. pose proof (exec_refines op s D Hwf HD) as (D' & _ & Hwf' & HD' & _).
  assert (Hb : pull_owned_batch_size_ (exec op s).2 = pull_owned_batch_size_ s).
  { destruct Hwf as [Hb _]. destruct op as [now l|now hs|hs p| | | | |]; cbn [exec snd].
    - by destruct (Register_spec now l s D Hb HD) as (_ & _ & (_ & ? & _) & _).
    - by destruct (Lookup_state now hs s Hb) as (_ & _ & (_ & ? & _)).
    - by destruct (Unregister_spec hs p s D Hb HD) as (_ & (_ & ? & _) & _).
    - done.
    - unfold RegisterStore. repeat case_match; done.
    - unfold UnregisterStore. repeat case_match; done.
    - unfold Heartbeat. repeat case_match; done.
    - unfold RegisterKVTransferSpec. repeat case_match; done. }
  destruct (exec op s) as [a s1]. cbn [snd] in *. rewrite <-Hb in Hc. specialize (IH s1 D' Hc Hwf' HD'). by destruct (run ops s1).
Qed.

(** The stream of what a node owns, while other handlers change the registry between its
    batches.  When the client takes every batch, the call ends with success and the client
    has every hash at most once; each entry is a registration of that node that was live
    when its batch was read, with its block id and its remaining time to live in whole
    seconds rounded up (zero when it never expires); a hash the node owned at the start and
    that stayed registered and live is not missed; no batch is empty or over the limit. *)
Theorem registry_pull_owned view write id s :
  reachable s -> (forall k, write k = true) -> job_name id ≠ EmptyString ->
  exists pulled_entries batches,
    PullOwned view write (Some (RaidenIdToProto id)) s = (OkStatus, batches) ∧
    RegistryClient.PullOwned (fun p => PullOwned view write p s) id = Ok pulled_entries ∧ pulled_entries = concat batches ∧
    Forall (fun l => 1 <= length l <= pull_owned_batch_size_ s)%nat batches ∧
    NoDup (pl_prefix_hash <$> pulled_entries) ∧
    (forall x, x ∈ pulled_entries -> exists k e,
       entry_of (entries (view k).2 (pl_prefix_hash x)) id = Some e ∧ live (view k).1 (en_expire_time e) = true ∧
       pl_block_id x = en_block_id e ∧ reported_ttl (view k).1 (en_expire_time e) (remaining_ttl_seconds x)) ∧
    (forall h, is_Some (entry_of (entries s h) id) ->
       (forall k, exists e, entry_of (entries (view k).2 h) id = Some e ∧ live (view k).1 (en_expire_time e) = true) ->
       h ∈ pl_prefix_hash <$> pulled_entries).
Proof.
  intros Hr Hw Hname. destruct (reachable_directory s Hr) as [[Hwf _] _]. pose proof (batch_size_pos s Hr) as Hsize.
  assert (Hn : named (Some (RaidenIdToProto id)) = Some id) by (unfold named; rewrite RaidenIdFromProto_ToProto; by case_bool_decide).
  assert (Hr' : exists hs, NoDup hs ∧ (forall h, h ∈ hs <-> is_Some (entry_of (entries s h) id)) ∧
    PullOwned view write (Some (RaidenIdToProto id)) s = pull_batches (length hs) (pull_owned_batch_size_ s) view write id 0 hs).
  { unfold PullOwned. rewrite Hn. destruct (owner_index_ s !! id) as [hs|] eqn:Eo.
    - exists (elements hs). split_and!; [apply NoDup_elements| |done]. intros h. rewrite elem_of_elements, <-(wf_index s Hwf id h). unfold indexed. by rewrite Eo.
    - exists []. split_and!; [constructor| |done]. intros h. rewrite <-(wf_index s Hwf id h). unfold indexed. rewrite Eo. cbn. set_solver. }
  destruct Hr' as (hs & Hnd & Hin & HP). pose proof (pull_batches_spec (length hs) _ view write id 0 hs Hw Hsize ltac:(done)) as Hspec.
  unfold RegistryClient.PullOwned. rewrite HP. destruct (pull_batches _ _ _ _ _ _ _) as [st batches]. cbn [fst snd] in Hspec.
  destruct Hspec as (-> & Hsub & Hall & _ & Hsound & Hcomplete). exists (concat batches), batches. cbn [RegistryClient.internal]. split_and!; [done|done|done|done|by eapply sublist_NoDup| |].
  - intros x Hx. destruct (Hsound x Hx) as [k Hk]. rewrite pulled_eq in Hk. destruct (entry_of _ _) as [e|] eqn:Ee; [|done]. cbn in Hk.
    destruct (live _ _) eqn:El; [|done]. exists k, e. injection Hk as Hx'. rewrite <-Hx'. cbn. split_and!; [by rewrite <-Hx' in Ee|done|done|by apply remaining_reported].
  - intros h Ho Hlive. apply Hcomplete; [by apply Hin|]. intros k. destruct (Hlive k) as (e & He & Hl). rewrite pulled_eq, He. cbn. rewrite Hl. eauto.
Qed.

(** ** Placement *)

Lemma nearest_tier_spec cs t0 :
  let t := foldl (fun t r => Z.min t (evict_tier r.2)) t0 cs in
  t <= t0 ∧ (forall x, x ∈ cs -> t <= evict_tier x.2) ∧ (t = t0 ∨ exists x : RaidenId * StoreRecord, x ∈ cs ∧ evict_tier x.2 = t).
Proof.
  revert t0. induction cs as [|y cs IH]; intros t0; cbn [foldl]; [split_and!; [lia|by intros ? ?%elem_of_nil|by left]|].
  destruct (IH (Z.min t0 (evict_tier y.2))) as (H1 & H2 & H3). split_and!; [lia| |].
  - intros x [->|Hx]%elem_of_cons; [lia|by apply H2].
  - destruct H3 as [H3|(x & Hx & Ht)]; [|right; exists x; split; [by right|done]].
    destruct (Z.min_spec t0 (evict_tier y.2)) as [[_ Hm]|[_ Hm]]; [left; congruence|right; exists y; split; [by left|congruence]].
Qed.

#[export] Instance more_free_swo : StrictWeakOrder more_free.
Proof. split; unfold more_free; intros; to_prop; lia. Qed.

(** A live store of the caller's group on a greater tier ... *)
Definition downstream now (caller : StoreRecord) s (x : RaidenId * StoreRecord) : Prop :=
  store_registry_ s !! x.1 = Some x.2 ∧ kv_pool_group x.2 = kv_pool_group caller ∧ evict_tier caller < evict_tier x.2 ∧
  live now (st_expire_time x.2) = true.
(** ... on the nearest such tier. *)
Definition eligible now (caller : StoreRecord) s (x : RaidenId * StoreRecord) : Prop :=
  downstream now caller s x ∧ forall y, downstream now caller s y -> evict_tier x.2 <= evict_tier y.2.

Lemma eligible_filter now caller roster s :
  roster ≡ₚ map_to_list (store_registry_ s) -> (forall id r, store_registry_ s !! id = Some r -> in_int32 (evict_tier r)) ->
  let cs := candidates now (kv_pool_group caller) (evict_tier caller) roster in
  let nearest := filter (fun r : RaidenId * StoreRecord => evict_tier r.2 = nearest_tier cs) cs in
  NoDup nearest ∧ forall x, x ∈ nearest <-> eligible now caller s x.
Proof.
  intros Hp Hw cs nearest.
  assert (Hcs : forall x, x ∈ cs <-> downstream now caller s x).
  { intros [i r]. unfold cs, candidates, downstream. cbn. rewrite list_elem_of_filter, Hp, elem_of_map_to_list. cbn. tauto. }
  destruct (nearest_tier_spec cs kMaxInt32) as (_ & Hle & Hat). fold (nearest_tier cs) in Hle, Hat. split.
  - apply NoDup_filter, NoDup_filter. rewrite Hp. apply NoDup_map_to_list.
  - intros x. unfold nearest, eligible. rewrite list_elem_of_filter, Hcs. split.
    + intros [Ht Hx]. split; [done|]. intros y Hy%Hcs. rewrite Ht. by apply Hle.
    + intros [Hx Hmin]. split; [|done]. destruct Hat as [Hat|(y & Hy%Hcs & Ht)].
      * assert (Hi : in_int32 (evict_tier x.2)) by (apply (Hw x.1), Hx). unfold in_int32, int32_max in Hi. apply Hcs, Hle in Hx. unfold kMaxInt32 in Hat. lia.
      * pose proof (Hmin y Hy). apply Hcs, Hle in Hx. lia.
Qed.

(** The placement targets of a store.  A caller without a live registration is told to
    register again, and one without a pool group has no peers; otherwise the answer lists
    the live stores of the caller's group on the nearest tier greater than its own, every
    such store once and no other (so never the caller), in the order of decreasing reported
    free blocks, cut at the requested number or the default. *)
Theorem registry_placement_targets now roster id max_targets s :
  roster ≡ₚ map_to_list (store_registry_ s) -> (forall i r, store_registry_ s !! i = Some r -> in_int32 (evict_tier r)) ->
  job_name id ≠ EmptyString ->
  let answer := RegistryClient.GetPlacementTargets (fun p k => GetPlacementTargets now roster p k s) id max_targets in
  match live_store now id s with
  | None => exists msg, answer = Err kNotFound msg
  | Some caller =>
      if decide (kv_pool_group caller = EmptyString) then exists msg, answer = Err kFailedPrecondition msg
      else exists targets, NoDup targets ∧ (forall x, x ∈ targets <-> eligible now caller s x) ∧
        StronglySorted (fun x y => free_blocks y.2 <= free_blocks x.2) targets ∧ id ∉ targets.*1 ∧
        answer = Ok (store_info <$> take (Z.to_nat (if 0 <? max_targets then max_targets else kDefaultMaxPlacementTargets)) targets)
  end.
Proof.
  intros Hp Hw Hname answer. subst answer. unfold RegistryClient.GetPlacementTargets, GetPlacementTargets, named.
  rewrite RaidenIdFromProto_ToProto, bool_decide_eq_false_2 by done. destruct (live_store now id s) as [caller|] eqn:El; [|eauto].
  case_decide as Eg; [rewrite bool_decide_eq_true_2 by done; eauto|]. rewrite bool_decide_eq_false_2 by done.
  destruct (eligible_filter now caller roster s Hp Hw) as [Hnd Hel]. set (nearest := filter _ _) in *. exists (sort_by more_free nearest). split_and!.
  - by rewrite sort_by_perm.
  - intros x. by rewrite sort_by_perm.
  - pose proof (sort_by_sorted more_free nearest) as Hs. clear -Hs. revert Hs. generalize (sort_by more_free nearest). induction 1 as [|x l Hl IH Hx]; constructor; [done|].
    eapply Forall_impl; [exact Hx|]. intros y Hy. unfold not_after, more_free in Hy. to_prop. lia.
  - intros ([i r] & Hi & Hx)%list_elem_of_fmap. cbn in Hi. subst i. rewrite sort_by_perm in Hx. apply Hel in Hx as [(Hr & _ & Ht & _) _].
    cbn in *. unfold live_store in El. rewrite Hr in El. destruct (live now _); [|done]. injection El as ->. lia.
  - done.
Qed.

(** ** Transfer specifications *)

Lemma first_difference_None i l k : length l = length k -> first_difference i l k = None <-> l = k.
Proof.
  revert i k. induction l as [|x l IH]; intros i [|y k] Hlen; try done. cbn. destruct (Z.eqb_spec x y) as [->|Hne].
  - injection Hlen as Hlen. rewrite (IH (S i) k Hlen). naive_solver.
  - naive_solver.
Qed.
Lemma SpecDifference_None registered incoming : SpecDifference registered incoming = None <-> incoming = registered.
Proof.
  unfold SpecDifference. destruct registered as [b s w], incoming as [b' s' w']. cbn. destruct (length b' =? length b)%nat eqn:El; cbn [negb].
  - apply Nat.eqb_eq in El. destruct (first_difference 0 b' b) as [[[i x] y]|] eqn:Ef.
    + split; [done|]. intros [= -> -> ->]. by rewrite (proj2 (first_difference_None 0 b b El)) in Ef.
    + apply first_difference_None in Ef; [|done]. subst b'. destruct (Z.eqb_spec s' s), (Z.eqb_spec w' w); cbn [negb]; naive_solver.
  - apply Nat.eqb_neq in El. naive_solver.
Qed.

Lemma publish_success spec group s :
  let r := RegisterKVTransferSpec (Some spec) group s in
  (success r.1.1 = true <-> group ≠ EmptyString ∧ SpecValidationError spec = None ∧
     (transfer_specs_ s !! group = None ∨ transfer_specs_ s !! group = Some spec)) ∧
  (success r.1.1 = true -> transfer_specs_ r.2 !! group = Some spec).
Proof.
  unfold RegisterKVTransferSpec. case_bool_decide as Eg; [split; [naive_solver|done]|]. destruct (SpecValidationError spec); [split; [naive_solver|done]|].
  destruct (transfer_specs_ s !! group) as [sp|] eqn:E.
  - destruct (SpecDifference sp spec) eqn:Ed; cbn [fst snd success reply_ok reply_error].
    + split; [|done]. split; [done|]. intros (_ & _ & [?|[= ->]]); [done|]. by rewrite (proj2 (SpecDifference_None spec spec)) in Ed.
    + apply SpecDifference_None in Ed as ->. naive_solver.
  - cbn. rewrite lookup_insert_eq. naive_solver.
Qed.
Lemma exec_specs op s D group spec :
  wf s -> represents D s -> transfer_specs_ s !! group = Some spec -> transfer_specs_ (exec op s).2 !! group = Some spec.
Proof.
  intros [Hb _] HD Hs. destruct op as [now l|now hs|hs p| | | | |sp g]; cbn [exec snd].
  - by destruct (Register_spec now l s D Hb HD) as (_ & _ & (_ & _ & _ & ->) & _).
  - by destruct (Lookup_state now hs s Hb) as (_ & _ & (_ & _ & _ & ->)).
  - by destruct (Unregister_spec hs p s D Hb HD) as (_ & (_ & _ & _ & ->) & _).
  - done.
  - unfold RegisterStore. repeat case_match; done.
  - unfold UnregisterStore. repeat case_match; done.
  - unfold Heartbeat. repeat case_match; done.
  - unfold RegisterKVTransferSpec. repeat case_match; try done. cbn. apply lookup_insert_Some. right. split; [congruence|done].
Qed.
Lemma run_specs ops s group spec :
  reachable s -> transfer_specs_ s !! group = Some spec -> transfer_specs_ (run ops s).2 !! group = Some spec.
Proof.
  intros Hr Hs. destruct (reachable_directory s Hr) as (Hwf & D & HD). clear Hr. revert s D Hwf HD Hs.
  induction ops as [|op ops IH]; intros s D Hwf HD Hs; [done|]. cbn [run]. pose proof (exec_specs op s D group spec Hwf HD Hs) as Hs'.
  destruct (exec_refines op s D Hwf HD) as (D' & _ & Hwf' & HD' & _). destruct (exec op s) as [a s1]. cbn [snd] in *.
  specialize (IH s1 D' Hwf' HD' Hs'). by destruct (run ops s1).
Qed.

(** The nodes of a pool group agree on one transfer specification.  Once one has been
    published, then whatever handlers run, another node that publishes for the same group
    succeeds exactly when its specification is the same, and everyone reads the first one. *)
Theorem registry_spec_agreement a b group ops s :
  reachable s ->
  let first := RegisterKVTransferSpec (Some a) group s in success first.1.1 = true ->
  let s' := (run ops first.2).2 in
  RegistryClient.GetKVTransferSpec (fun g => GetKVTransferSpec g s') group = Ok a ∧
  let second := RegisterKVTransferSpec (Some b) group s' in
  (RegistryClient.RegisterKVTransferSpec (fun _ _ => Ok second.1) b group = OkStatus <-> b = a) ∧ transfer_specs_ second.2 !! group = Some a.
Proof.
  intros Hr first Hok s'. pose proof (publish_success a group s) as [Hiff Hset]. fold first in Hiff, Hset. apply Hiff in Hok as Hok'. destruct Hok' as (Hg & Hv & _).
  assert (Hr1 : reachable first.2) by (apply (reachable_run [OpRegisterKVTransferSpec (Some a) group] s Hr)).
  assert (Hs : transfer_specs_ s' !! group = Some a) by (apply run_specs; [done|by apply Hset]). split; [|split].
  - unfold RegistryClient.GetKVTransferSpec, GetKVTransferSpec. rewrite bool_decide_eq_false_2 by done. by rewrite Hs.
  - pose proof (publish_success b group s') as [Hiff2 _]. rewrite Hs in Hiff2. unfold RegistryClient.RegisterKVTransferSpec, RegistryClient.verdict. cbv beta iota zeta.
    destruct (success (RegisterKVTransferSpec (Some b) group s').1.1).
    + split; [|done]. intros _. destruct (proj1 Hiff2 eq_refl) as (_ & _ & [?|[= ->]]); done.
    + split; [done|]. intros ->. by discriminate (proj2 Hiff2 (conj Hg (conj Hv (or_intror eq_refl)))).
  - by apply (run_specs [OpRegisterKVTransferSpec (Some b) group] s' group a (reachable_run ops _ Hr1)).
Qed.

(** ** Evaluations *)

Definition peer (i : Z) : RaidenId := mkRaidenId "job" EmptyString EmptyString i.
Definition offer (h : Hash) (i block ttl : Z) : RegisterEntry := mkRegisterEntry h (Some (Some (RaidenIdToProto (peer i)), block)) ttl.
Definition pool_store (i tier : Z) : StoreInfo := mkStoreInfo (Some (RaidenIdToProto (peer i))) "addr" "ctl" 30 "pool" tier.
(** Two owners of one block, one of another whose registration runs out after five seconds;
    stores on three tiers, of which the two on the middle one report free blocks. *)
Definition demo_ops : list Op :=
  [OpRegister 0 [offer [1] 1 10 0; offer [1] 2 20 0; offer [2] 2 21 5];
   OpRegisterStore 0 (Some (pool_store 1 0)); OpRegisterStore 0 (Some (pool_store 2 1));
   OpRegisterStore 0 (Some (pool_store 3 1)); OpRegisterStore 0 (Some (pool_store 4 2));
   OpHeartbeat 1 1 (Some (RaidenIdToProto (peer 3))) 7; OpHeartbeat 1 1 (Some (RaidenIdToProto (peer 2))) 3].
Definition demo_registry : GlobalRegistryServiceImpl := (run demo_ops (create (Some (Seconds 3600)) 1)).2.
Lemma demo_registry_reachable : reachable demo_registry.
Proof. by exists (Some (Seconds 3600)), 1, demo_ops. Qed.

Lemma registry_lookup_fair_witness : (lookups [1; 2] [1] demo_registry).1 = [HostOffload.mkKVBlock (RaidenIdToProto (peer 1)) 10; HostOffload.mkKVBlock (RaidenIdToProto (peer 2)) 20].
Proof.
  assert (Hall : Forall (fun now => live_entries now demo_registry [1] = live_entries 1 demo_registry [1]) [1; 2]) by (repeat constructor).
  assert (Hlen : length [1; 2] = length (live_entries 1 demo_registry [1])) by (vm_compute; reflexivity).
  destruct (registry_lookup_fair [1; 2] [1] demo_registry demo_registry_reachable ltac:(done) Hall Hlen) as [H _].
  etransitivity; [exact H|]. vm_compute. reflexivity.
Defined.

(** Node 1 has the second block registered by node 2 only. *)
Lemma lookup_over_registry_witness :
  let b := HostOffload.create 4 None (peer 1) true EmptyString in
  let results := (HostOffload.Lookup (over_registry 1 demo_registry) [] [[2]; [3]] default_options b).1 in
  results = [([2], host_block (peer 2) 21 REMOTE)] ∧ exists D, represents D demo_registry ∧ live_at D 1 [2] (peer 2) 21.
Proof.
  intros b results. assert (Hr : results = [([2], host_block (peer 2) 21 REMOTE)]) by (vm_compute; reflexivity). split; [exact Hr|].
  assert (Hnd : NoDup ([[2]; [3]] : list Hash)) by (apply (bool_decide_unpack _); vm_compute; exact I).
  destruct (lookup_over_registry 1 demo_registry [[2]; [3]] default_options b demo_registry_reachable (LRU.create_wf 4) Hnd) as (D & HD & _ & Hin).
  exists D. split; [exact HD|]. fold results in Hin. clearbody results. subst results.
  destruct (Hin [2] (host_block (peer 2) 21 REMOTE) (list_elem_of_here _ _)) as [Hp|(_ & _ & id & block & [= <- <-] & _ & Hl)]; [|exact Hl].
  by vm_compute in Hp.
Defined.

(** Both blocks of the second node, a batch each. *)
Lemma registry_pull_owned_witness :
  exists entries, RegistryClient.PullOwned (fun p => PullOwned (fun _ => (1, demo_registry)) (fun _ => true) p demo_registry) (peer 2) = Ok entries ∧
  NoDup (pl_prefix_hash <$> entries) ∧ [2] ∈ pl_prefix_hash <$> entries.
Proof.
  destruct (registry_pull_owned (fun _ => (1, demo_registry)) (fun _ => true) (peer 2) demo_registry demo_registry_reachable ltac:(done) ltac:(done))
    as (entries & batches & _ & H1 & _ & _ & H2 & _ & H3).
  exists entries. split; [exact H1|]. split; [exact H2|]. apply H3; [vm_compute; eauto|]. intros _. eexists. split; vm_compute; reflexivity.
Defined.

Lemma registry_placement_targets_witness :
  exists targets, RegistryClient.GetPlacementTargets (fun p k => GetPlacementTargets 1 (map_to_list (store_registry_ demo_registry)) p k demo_registry) (peer 1) 1
    = Ok (store_info <$> take 1 targets) ∧ peer 1 ∉ targets.*1.
Proof.
  assert (Hw : forall i r, store_registry_ demo_registry !! i = Some r -> in_int32 (evict_tier r)).
  { assert (Hall : map_Forall (fun _ r => in_int32 (evict_tier r)) (store_registry_ demo_registry)); [|exact Hall].
    unfold in_int32. apply (bool_decide_unpack _). vm_compute. exact I. }
  pose proof (registry_placement_targets 1 (map_to_list (store_registry_ demo_registry)) (peer 1) 1 demo_registry (reflexivity _) Hw ltac:(done)) as H.
  set (answer := RegistryClient.GetPlacementTargets _ _ _) in *.
  assert (Hl : exists caller, live_store 1 (peer 1) demo_registry = Some caller ∧ kv_pool_group caller = "pool"%string)
    by (eexists; split; vm_compute; reflexivity).
  destruct Hl as (caller & Hc & Hg). clearbody answer. cbv zeta in H. rewrite Hc in H. rewrite decide_False in H by (by rewrite Hg).
  destruct H as (targets & _ & _ & _ & Hn & Ha). exists targets. split; [exact Ha|exact Hn].
Defined.

Lemma registry_spec_agreement_witness :
  let spec := HostOffload.mkSpec [4096; 8192] 2 1 in let other := HostOffload.mkSpec [4096; 4096] 2 1 in
  let s1 := (RegisterKVTransferSpec (Some spec) "pool" demo_registry).2 in
  let s2 := (run [OpCleanup 9; OpRegisterStore 9 (Some (pool_store 5 1))] s1).2 in
  RegistryClient.GetKVTransferSpec (fun g => GetKVTransferSpec g s2) "pool" = Ok spec ∧
  transfer_specs_ (RegisterKVTransferSpec (Some other) "pool" s2).2 !! "pool"%string = Some spec.
Proof.
  intros spec other s1 s2.
  assert (Hok : success (RegisterKVTransferSpec (Some spec) "pool" demo_registry).1.1 = true) by (vm_compute; reflexivity).
  destruct (registry_spec_agreement spec other "pool" [OpCleanup 9; OpRegisterStore 9 (Some (pool_store 5 1))] demo_registry
              demo_registry_reachable Hok) as [H1 [_ H2]].
  split; [exact H1|exact H2].
Defined.

(** A time to live below one second is sent as zero, which means never for a store and the
    default for a block. *)
Lemma subsecond_ttl_never_expires d addr group tier now s :
  0 < d < 1000000000 -> addr ≠ EmptyString ->
  let r := RegistryServer.RegisterStore now
    (Some (RegistryClient.store_request (peer 1) addr EmptyString (Some d) group tier)) s in
  success r.1 = true ∧ exists rec, store_registry_ r.2 !! peer 1 = Some rec ∧ st_expire_time rec = None.
Proof.
  intros Hd Ha. assert (Ht : RegistryClient.ttl_field (Some d) = 0).
  { unfold RegistryClient.ttl_field, RegistryClient.ToInt64Seconds. destruct (Z.ltb_spec 0 d); [|lia]. apply Z.quot_small. lia. }
  assert (Hn : named (Some (RaidenIdToProto (peer 1))) = Some (peer 1)) by done.
  unfold RegistryClient.store_request. rewrite Ht. unfold RegisterStore. cbn [si_raiden_id si_store_server_address si_ttl_seconds]. rewrite Hn, bool_decide_eq_false_2 by done.
  split; [done|]. cbn [snd with_stores store_registry_]. rewrite lookup_insert_eq. eexists. split; reflexivity.
Qed.

End RegistryAnswers.
