(* ===== verification/StoreMonitor.v ===== *)
(** * The store monitor ([src/tpu_sync/kv_cache/store_monitor.cc])

    The thread that refreshes a store's registration at the global registry and schedules
    its evict sweep.  One iteration of [Loop] is a function of what the thread observes in
    it, a [Tick]: the flags other threads have set, its readings of the clock, and what
    reaches the registry.  [tk_others] are the calls of other clients that the registry
    serves since the last iteration. *)

From S2P Require Import Prelude ReshardTypes StoreBackend HostOffloadBackend GlobalRegistry GlobalRegistryProofs.

Module Monitor.
Import RegistryServer.

Definition kRegistrationTtlInHeartbeats : Z := 3.

Record Options : Type := mkOptions {
  heartbeat_period : Z;
  sweep_period : Z
}.
Definition kDefaultHeartbeatPeriod : Z := Seconds 300.
Definition kDefaultSweepPeriod : Z := Seconds 30.

(** What a store publishes about itself. *)
Record Coordinates : Type := mkCoordinates {
  co_raiden_id : RaidenId;
  co_store_server_address : string;
  co_controller_address : string;
  co_kv_pool_group : string;
  co_evict_tier : Z
}.

(** The locals of [Loop]. *)
Record State : Type := mkState {
  next_heartbeat : Z;
  next_sweep : Z;
  sweep_now : bool
}.

Record Tick : Type := mkTick {
  tk_others : list RegistryState.Op;
  tk_stop : bool;
  tk_request : bool;
  tk_wake : Z;
  tk_beat : Z;
  tk_reach : bool;
  tk_server : Z;
  tk_later : Z;
  tk_reregister_reach : bool;
  tk_reregister : Z;
  tk_free_blocks : Z;
  tk_beat_done : Z;
  tk_sweep : Z;
  tk_more : bool;
  tk_sweep_done : Z
}.

Implicit Types (o : Options) (c : Coordinates) (m : State) (k : Tick) (s : GlobalRegistryServiceImpl).

(** The registration and its time to live, three heartbeats. *)
Definition registration_ttl o : Duration := Some (kRegistrationTtlInHeartbeats * heartbeat_period o).
Definition publish o c : StoreInfo :=
  RegistryClient.store_request (co_raiden_id c) (co_store_server_address c) (co_controller_address c) (registration_ttl o)
    (co_kv_pool_group c) (co_evict_tier c).
Definition reregister (now : Z) (reach : bool) o c s : Status * GlobalRegistryServiceImpl :=
  if reach then
    let '(r, s) := RegisterStore now (Some (publish o c)) s in
    (RegistryClient.RegisterStore (fun _ => Ok r) (co_raiden_id c) (co_store_server_address c) (co_controller_address c)
       (registration_ttl o) (co_kv_pool_group c) (co_evict_tier c), s)
  else (Err kInternal [], s).

(** A call that does not reach the registry fails in transport. *)
Definition HeartbeatOnce o c k s : GlobalRegistryServiceImpl :=
  let '(answer, s) :=
    if tk_reach k then Heartbeat (tk_server k) (tk_later k) (Some (RaidenIdToProto (co_raiden_id c))) (tk_free_blocks k) s
    else (Err kUnavailable [], s) in
  match RegistryClient.Heartbeat (fun _ _ => answer) (co_raiden_id c) (tk_free_blocks k) with
  | Ok _ => s
  | Err kNotFound _ => (reregister (tk_reregister k) (tk_reregister_reach k) o c s).2
  | Err _ _ => s
  end.

(** The time to wake up at. *)
Definition wake (sweeping : bool) m : Z := if sweeping then Z.min (next_heartbeat m) (next_sweep m) else next_heartbeat m.
(** The condition on which the wait goes on. *)
Definition waits (sweeping : bool) k m : bool :=
  negb (tk_stop k) && negb (tk_request k) && negb (sweep_now m) && (tk_wake k <? wake sweeping m).

Definition start o (now : Z) : State := mkState (now + heartbeat_period o) (now + sweep_period o) false.

(** One iteration; [None] is the return on [Stop]. *)
Definition iteration o c (sweeping : bool) k (w : State * GlobalRegistryServiceImpl) : option (State * GlobalRegistryServiceImpl) :=
  let '(m, s) := w in
  let s := (RegistryState.run (tk_others k) s).2 in
  if tk_stop k then None
  else
    let m := mkState (next_heartbeat m) (next_sweep m) (sweep_now m || tk_request k) in
    let '(m, s) :=
      if next_heartbeat m <=? tk_beat k then
        (mkState (tk_beat_done k + heartbeat_period o) (next_sweep m) (sweep_now m), HeartbeatOnce o c k s)
      else (m, s) in
    if sweeping && (sweep_now m || (next_sweep m <=? tk_sweep k)) then
      Some (mkState (next_heartbeat m) (tk_sweep_done k + sweep_period o) (tk_more k), s)
    else Some (m, s).

Fixpoint loop o c (sweeping : bool) (ticks : list Tick) (w : State * GlobalRegistryServiceImpl) :
    option (State * GlobalRegistryServiceImpl) :=
  match ticks with
  | [] => Some w
  | k :: ticks => match iteration o c sweeping k w with None => None | Some w => loop o c sweeping ticks w end
  end.

(** ** Timing *)

(** The readings of an iteration that starts at time [since]: the clock does not go back, the
    wait ended for one of its reasons, and sweeps are requested only where there is one. *)
Definition legal (sweeping : bool) (since : Z) m k : Prop :=
  since <= tk_wake k ∧ tk_wake k <= tk_beat k ∧ tk_beat k <= tk_server k ∧ tk_server k <= tk_later k ∧ tk_later k <= tk_reregister k ∧
  tk_reregister k <= tk_beat_done k ∧ tk_beat_done k <= tk_sweep k ∧ tk_sweep k <= tk_sweep_done k ∧
  waits sweeping k m = false ∧ (tk_request k = true -> sweeping = true).
(** The thread reacts within [latency], and an iteration, with its calls and its sweep step,
    takes at most [work]. *)
Definition timely (sweeping : bool) (latency work since : Z) m k : Prop :=
  tk_beat k <= Z.max since (wake sweeping m) + latency ∧ tk_sweep_done k <= tk_beat k + work.

(** A call of another client: not about this store, and no cleanup from the future. *)
Definition foreign (id : RaidenId) (until : Z) (op : RegistryState.Op) : Prop :=
  match op with
  | RegistryState.OpRegisterStore _ (Some store) => named (si_raiden_id store) ≠ Some id
  | RegistryState.OpUnregisterStore p | RegistryState.OpHeartbeat _ _ p _ => named p ≠ Some id
  | RegistryState.OpCleanup now => now <= until
  | _ => True
  end.

Fixpoint paced o c (sweeping : bool) (latency work since : Z) (ticks : list Tick) (w : State * GlobalRegistryServiceImpl) : Prop :=
  match ticks with
  | [] => True
  | k :: ticks =>
      legal sweeping since w.1 k ∧ timely sweeping latency work since w.1 k ∧
      Forall (foreign (co_raiden_id c) (tk_server k)) (tk_others k) ∧
      match iteration o c sweeping k w with
      | Some w => paced o c sweeping latency work (tk_sweep_done k) ticks w
      | None => True
      end
  end.
Definition finish (since : Z) (ticks : list Tick) : Z := foldl (fun _ k => tk_sweep_done k) since ticks.

Lemma live_le now now' t : now <= now' -> live now' t = true -> live now t = true.
Proof. destruct t as [t|]; [|done]. cbn. to_prop. lia. Qed.

(** Calls of other clients leave a live record of this store alone. *)
Lemma foreign_exec id until op s r :
  RegistryState.reachable s -> foreign id until op -> store_registry_ s !! id = Some r -> live until (st_expire_time r) = true ->
  store_registry_ (RegistryState.exec op s).2 !! id = Some r.
Proof.
  intros Hr Hf Hs Hl. destruct (RegistryState.reachable_directory s Hr) as ([Hb _] & D & HD).
  destruct op as [now l|now hs|hs p|now|now store|p|now later p free|sp g]; cbn [RegistryState.exec snd].
  - by destruct (RegistryState.Register_spec now l s D Hb HD) as (_ & _ & (_ & _ & -> & _) & _).
  - by destruct (RegistryState.Lookup_state now hs s Hb) as (_ & _ & (_ & _ & -> & _)).
  - by destruct (RegistryState.Unregister_spec hs p s D Hb HD) as (_ & (_ & _ & -> & _) & _).
  - cbn. apply map_lookup_filter_Some. split; [done|]. by apply (live_le now until).
  - unfold RegisterStore. destruct store as [store|]; [|done]. cbn [foreign] in Hf. destruct (named (si_raiden_id store)) as [id'|] eqn:En; [|done].
    case_bool_decide; [done|]. cbn. rewrite lookup_insert_ne; [done|congruence].
  - unfold UnregisterStore. cbn [foreign] in Hf. destruct (named p) as [id'|]; [|done]. cbn. rewrite lookup_delete_ne; [done|congruence].
  - unfold Heartbeat. cbn [foreign] in Hf. destruct (named p) as [id'|]; [|done]. destruct (live_store now id' s); [|done]. cbn. rewrite lookup_insert_ne; [done|congruence].
  - unfold RegisterKVTransferSpec. repeat case_match; done.
Qed.
Lemma run_cons op ops s : (RegistryState.run (op :: ops) s).2 = (RegistryState.run ops (RegistryState.exec op s).2).2.
Proof. cbn [RegistryState.run]. destruct (RegistryState.exec op s) as [a s1]. cbn [snd]. by destruct (RegistryState.run ops s1). Qed.
Lemma foreign_run id until ops s r :
  RegistryState.reachable s -> Forall (foreign id until) ops -> store_registry_ s !! id = Some r -> live until (st_expire_time r) = true ->
  store_registry_ (RegistryState.run ops s).2 !! id = Some r.
Proof.
  intros Hr Hall. revert s Hr. induction Hall as [|op ops Hop _ IH]; intros s Hr Hs Hl; [done|]. rewrite run_cons.
  apply IH; [|by eapply foreign_exec|done]. pose proof (RegistryState.reachable_run [op] s Hr) as H. by rewrite run_cons in H.
Qed.

(** ** A heartbeat *)

Definition named_coordinates c : Prop := job_name (co_raiden_id c) ≠ EmptyString ∧ co_store_server_address c ≠ EmptyString.
Lemma named_proto c : named_coordinates c -> named (Some (RaidenIdToProto (co_raiden_id c))) = Some (co_raiden_id c).
Proof. intros [Hn _]. unfold named. rewrite RaidenIdFromProto_ToProto. by case_bool_decide. Qed.

(** The record published at [now]: its time to live is three periods in whole seconds. *)
Definition whole_ttl o : Z := Seconds (kRegistrationTtlInHeartbeats * heartbeat_period o ÷ 1000000000).
Definition published o c (now : Z) (free : Z) : StoreRecord :=
  mkStoreRecord (co_store_server_address c) (co_controller_address c) (Some (now + whole_ttl o)) (Some (whole_ttl o))
    (co_kv_pool_group c) (co_evict_tier c) free.

Lemma publish_spec o c now s :
  named_coordinates c -> 0 < whole_ttl o ->
  RegisterStore now (Some (publish o c)) s = (reply_ok, with_stores (<[co_raiden_id c := published o c now 0]> (store_registry_ s)) s).
Proof.
  intros Hn Ht. unfold RegisterStore, publish, RegistryClient.store_request. cbn [si_raiden_id si_store_server_address si_ttl_seconds].
  rewrite (named_proto c Hn), bool_decide_eq_false_2 by apply Hn.
  assert (Hp : RegistryClient.ttl_field (registration_ttl o) = kRegistrationTtlInHeartbeats * heartbeat_period o ÷ 1000000000).
  { unfold RegistryClient.ttl_field, registration_ttl, RegistryClient.ToInt64Seconds. destruct (Z.ltb_spec 0 (kRegistrationTtlInHeartbeats * heartbeat_period o)) as [|Hle]; [done|].
    unfold whole_ttl, Seconds in Ht. exfalso. pose proof (Z.quot_opp_l (kRegistrationTtlInHeartbeats * heartbeat_period o) 1000000000 ltac:(lia)) as Ho.
    pose proof (Z.quot_pos (- (kRegistrationTtlInHeartbeats * heartbeat_period o)) 1000000000 ltac:(lia) ltac:(lia)). lia. }
  rewrite Hp. unfold whole_ttl in *. destruct (Z.ltb_spec 0 (kRegistrationTtlInHeartbeats * heartbeat_period o ÷ 1000000000)) as [|Hle]; [done|].
  unfold Seconds in Ht. lia.
Qed.

(** A heartbeat that finds the record live refreshes it; one that does not re-registers. *)
Lemma heartbeat_live o c k s free t :
  named_coordinates c -> tk_reach k = true -> store_registry_ s !! co_raiden_id c = Some (published o c t free) -> tk_server k < t + whole_ttl o ->
  HeartbeatOnce o c k s = with_stores (<[co_raiden_id c := published o c (tk_later k) (tk_free_blocks k)]> (store_registry_ s)) s.
Proof.
  intros Hn Hreach Hs Hlt. unfold HeartbeatOnce, Heartbeat, live_store. rewrite Hreach, (named_proto c Hn), Hs. cbn [published st_expire_time live].
  destruct (Z.ltb_spec (tk_server k) (t + whole_ttl o)); [|lia]. done.
Qed.
Lemma heartbeat_lapsed o c k s :
  named_coordinates c -> tk_reach k = true -> tk_reregister_reach k = true -> 0 < whole_ttl o -> live_store (tk_server k) (co_raiden_id c) s = None ->
  HeartbeatOnce o c k s = with_stores (<[co_raiden_id c := published o c (tk_reregister k) 0]> (store_registry_ s)) s.
Proof.
  intros Hn Hreach Hre Ht Hs. unfold HeartbeatOnce, Heartbeat. rewrite Hreach, (named_proto c Hn), Hs. cbn.
  unfold reregister. rewrite Hre, (publish_spec o c _ _ Hn Ht). done.
Qed.
Lemma heartbeat_ops o c k s : exists ops, HeartbeatOnce o c k s = (RegistryState.run ops s).2.
Proof.
  unfold HeartbeatOnce, reregister. destruct (tk_reach k); [|by exists []].
  set (beat := RegistryState.OpHeartbeat (tk_server k) (tk_later k) (Some (RaidenIdToProto (co_raiden_id c))) (tk_free_blocks k)).
  destruct (Heartbeat _ _ _ _ s) as [answer s1] eqn:E. assert (Hs : (RegistryState.run [beat] s).2 = s1) by (cbn; by rewrite E).
  destruct (RegistryClient.Heartbeat _ _ _) as [|[] ?]; try (by exists [beat]).
  destruct (tk_reregister_reach k); [|by exists [beat]]. exists ([beat] ++ [RegistryState.OpRegisterStore (tk_reregister k) (Some (publish o c))]).
  rewrite RegistryState.run_app, Hs. cbn [RegistryState.run RegistryState.exec]. by destruct (RegisterStore (tk_reregister k) (Some (publish o c)) s1).
Qed.

(** ** What the monitor guarantees *)

(** Between iterations: the record outlives the next heartbeat. *)
Definition kept_alive o c (latency work since : Z) (w : State * GlobalRegistryServiceImpl) : Prop :=
  RegistryState.reachable w.2 ∧ since <= next_heartbeat w.1 + work ∧
  exists t free, store_registry_ w.2 !! co_raiden_id c = Some (published o c t free) ∧ next_heartbeat w.1 + 2 * work + latency < t + whole_ttl o.

Lemma iteration_kept_alive o c sweeping latency work since k m s w' :
  named_coordinates c -> 0 <= latency -> 0 <= work -> 0 <= heartbeat_period o -> heartbeat_period o + 3 * work + latency < whole_ttl o ->
  legal sweeping since m k -> timely sweeping latency work since m k -> Forall (foreign (co_raiden_id c) (tk_server k)) (tk_others k) -> tk_reach k = true ->
  kept_alive o c latency work since (m, s) -> iteration o c sweeping k (m, s) = Some w' -> kept_alive o c latency work (tk_sweep_done k) w'.
Proof.
  intros Hn Hl Hw Hp Httl (H1 & H2 & H3 & H4 & H5 & H6 & H7 & H8 & _) [Hbeat Hdone] Hothers Hreach (Hr & Hsince & t & free & Hs & Hx).
  cbn [fst snd] in *. assert (Hwake : wake sweeping m <= next_heartbeat m) by (unfold wake; destruct sweeping; lia).
  assert (Hs1 : store_registry_ (RegistryState.run (tk_others k) s).2 !! co_raiden_id c = Some (published o c t free)).
  { eapply foreign_run; [done|exact Hothers|done|]. cbn. to_prop. lia. }
  pose proof (RegistryState.reachable_run (tk_others k) s Hr) as Hr1. unfold iteration. set (s1 := (RegistryState.run _ s).2) in *. clearbody s1.
  destruct (tk_stop k); [done|]. cbn [next_heartbeat next_sweep sweep_now].
  set (body := if next_heartbeat m <=? tk_beat k then _ else _).
  assert (Hbody : kept_alive o c latency work (tk_sweep_done k) body).
  { subst body. destruct (Z.leb_spec (next_heartbeat m) (tk_beat k)) as [Hdue|Hnot].
    - destruct (heartbeat_ops o c k s1) as [ops Hops]. split; [cbn; rewrite Hops; by apply RegistryState.reachable_run|]. cbn [fst snd next_heartbeat].
      split; [lia|]. exists (tk_later k), (tk_free_blocks k). rewrite (heartbeat_live o c k s1 free t) by (done || lia). cbn [with_stores store_registry_].
      rewrite lookup_insert_eq. split; [done|lia].
    - split; [done|]. cbn [fst snd next_heartbeat]. split; [lia|]. by exists t, free. }
  clearbody body. destruct body as [m1 s2]. destruct (sweeping && _); intros [= <-]; exact Hbody.
Qed.

(** C33: A monitored store stays registered.  Its registration is published with a time to
    live of three heartbeat periods, in whole seconds.  If the loop reacts within [latency]
    and no iteration (its calls to the registry and one sweep step) takes more than [work],
    with one period, three times [work] and [latency] together below that time to live, if
    every heartbeat reaches the registry (two in a row that do not let it lapse:
    [two_misses_lapse]), and if no other client registers, unregisters or beats under this
    store's id and no cleanup is dated after the beat ([foreign]), then whatever sweeps are
    requested and whatever else other clients and the cleanup do in between, the registry has
    the store's record at the end of every iteration, and it is live until the next one has
    ended. *)
Theorem monitor_keeps_registration o c sweeping latency work registered_at since ticks s m' s' :
  named_coordinates c -> 0 <= latency -> 0 <= work -> 0 <= heartbeat_period o -> heartbeat_period o + 3 * work + latency < whole_ttl o ->
  RegistryState.reachable s -> registered_at <= since <= registered_at + work ->
  let s0 := (RegisterStore registered_at (Some (publish o c)) s).2 in
  paced o c sweeping latency work since ticks (start o since, s0) -> Forall (fun k => tk_reach k = true) ticks ->
  loop o c sweeping ticks (start o since, s0) = Some (m', s') ->
  exists r, store_registry_ s' !! co_raiden_id c = Some r ∧ store_server_address r = co_store_server_address c ∧
    forall now, now <= finish since ticks + work + latency -> live_store now (co_raiden_id c) s' = Some r.
Proof.
  intros Hn Hl Hw Hp Httl Hr Hreg s0 Hpaced Hreach Hloop.
  assert (H0 : kept_alive o c latency work since (start o since, s0)).
  { split_and!; [|cbn; lia|].
    - pose proof (RegistryState.reachable_run [RegistryState.OpRegisterStore registered_at (Some (publish o c))] s Hr) as H. rewrite run_cons in H. exact H.
    - exists registered_at, 0. unfold s0. rewrite publish_spec by (done || lia). cbn. rewrite lookup_insert_eq. split; [done|lia]. }
  clearbody s0. revert H0 Hpaced Hloop. generalize (start o since). clear Hreg. intros m. revert since m s0.
  induction Hreach as [|k ticks Hk _ IH]; intros since m s0 H0 Hpaced Hloop.
  - cbn in *. injection Hloop as -> ->. destruct H0 as (_ & Hsince & t & free & Hs & Hx). cbn [fst snd] in *.
    exists (published o c t free). split_and!; [done|done|]. intros now Hnow. unfold live_store. rewrite Hs. cbn.
    destruct (Z.ltb_spec now (t + whole_ttl o)); [done|lia].
  - cbn [loop paced finish foldl] in *. destruct Hpaced as (Hlegal & Htimely & Hothers & Hrest).
    destruct (iteration o c sweeping k (m, s0)) as [[m1 s1]|] eqn:E; [|done].
    eapply (IH (tk_sweep_done k) m1 s1); [|done|done]. by eapply iteration_kept_alive.
Qed.

(** A lapsed registration heals.  Whether the registry holds nothing for the store when a
    heartbeat is due (it restarted, or the record was cleaned up) or the record the store
    published, expired or not, an iteration whose calls reach it leaves the store registered under its own address with a whole time
    to live from the moment the registry served the call. *)
Theorem monitor_heals o c sweeping k m s t free :
  named_coordinates c -> 0 < whole_ttl o -> tk_stop k = false -> next_heartbeat m <= tk_beat k -> tk_others k = [] ->
  tk_reach k = true -> tk_reregister_reach k = true -> tk_server k <= tk_later k -> tk_later k <= tk_reregister k ->
  store_registry_ s !! co_raiden_id c = None ∨ store_registry_ s !! co_raiden_id c = Some (published o c t free) ->
  exists m' s' served r, iteration o c sweeping k (m, s) = Some (m', s') ∧ tk_server k <= served <= tk_reregister k ∧
    store_registry_ s' !! co_raiden_id c = Some r ∧ store_server_address r = co_store_server_address c ∧
    st_expire_time r = Some (served + whole_ttl o) ∧ next_heartbeat m' = tk_beat_done k + heartbeat_period o.
Proof.
  intros Hn Ht Hstop Hdue Hothers Hreach Hre H1 H2 Hs. unfold iteration. rewrite Hothers, Hstop. cbn [RegistryState.run snd next_heartbeat next_sweep sweep_now].
  destruct (Z.leb_spec (next_heartbeat m) (tk_beat k)); [|lia].
  assert (Hbeat : exists served fr, tk_server k <= served <= tk_reregister k ∧
    store_registry_ (HeartbeatOnce o c k s) !! co_raiden_id c = Some (published o c served fr)).
  { destruct (live_store (tk_server k) (co_raiden_id c) s) as [r|] eqn:El.
    - exists (tk_later k), (tk_free_blocks k). split; [lia|]. unfold live_store in El. destruct Hs as [Hs|Hs]; rewrite Hs in El; [done|].
      destruct (live _ _) eqn:Ex in El; [|done]. cbn in Ex. to_prop. rewrite (heartbeat_live o c k s free t) by done. cbn. by rewrite lookup_insert_eq.
    - exists (tk_reregister k), 0. split; [lia|]. rewrite heartbeat_lapsed by done. cbn. by rewrite lookup_insert_eq. }
  destruct Hbeat as (served & fr & Hserved & Hget). set (s1 := HeartbeatOnce o c k s) in *. clearbody s1.
  destruct (sweeping && _); do 2 eexists; exists served, (published o c served fr); (split_and!; [reflexivity|lia|lia|exact Hget|done|done|done]).
Qed.

(** Two heartbeats in a row that do not reach the registry: the third is never in time, since
    the time to live is at most three periods and each heartbeat comes a whole period after
    the end of the one before. *)
Lemma two_misses_lapse o c k1 k2 k3 m1 m2 m3 t free s :
  store_registry_ s !! co_raiden_id c = Some (published o c t free) -> 0 <= heartbeat_period o ->
  t <= next_heartbeat m1 - heartbeat_period o ->
  next_heartbeat m1 <= tk_beat k1 <= tk_beat_done k1 -> next_heartbeat m2 = tk_beat_done k1 + heartbeat_period o ->
  next_heartbeat m2 <= tk_beat k2 <= tk_beat_done k2 -> next_heartbeat m3 = tk_beat_done k2 + heartbeat_period o ->
  next_heartbeat m3 <= tk_beat k3 <= tk_server k3 ->
  live_store (tk_server k3) (co_raiden_id c) s = None.
Proof.
  intros Hs Hp Ht H1 E2 H2 E3 H3. unfold live_store. rewrite Hs. cbn.
  assert (Hw : whole_ttl o <= 3 * heartbeat_period o).
  { unfold whole_ttl, Seconds, kRegistrationTtlInHeartbeats. rewrite Z.quot_div_nonneg by lia.
    pose proof (Z.mul_div_le (3 * heartbeat_period o) 1000000000). lia. }
  destruct (Z.ltb_spec (tk_server k3) (t + whole_ttl o)); [lia|done].
Qed.

(** ** Evaluations *)

Definition demo_options : Options := mkOptions (Seconds 10) (Seconds 30).
Definition demo_store : Coordinates := mkCoordinates (mkRaidenId "job" EmptyString EmptyString 1) "addr" "ctl" "pool" 0.
Definition other_store : StoreInfo :=
  mkStoreInfo (Some (RaidenIdToProto (mkRaidenId "job" EmptyString EmptyString 2))) "addr2" "ctl2" 1 "pool" 1.
(** A sweep is requested after three seconds; the heartbeat fires after ten, while the
    registry serves another store and cleans up. *)
Definition demo_ticks : list Tick :=
  [mkTick [] false true (Seconds 3) (Seconds 3) true (Seconds 3) (Seconds 3) true (Seconds 3) 5 (Seconds 3) (Seconds 3) false (Seconds 4);
   mkTick [RegistryState.OpRegisterStore (Seconds 5) (Some other_store); RegistryState.OpCleanup (Seconds 9)] false false
     (Seconds 10) (Seconds 10) true (Seconds 11) (Seconds 11) true (Seconds 11) 4 (Seconds 11) (Seconds 11) false (Seconds 11)].
Definition empty_registry : GlobalRegistryServiceImpl := create None 0.
Lemma empty_registry_reachable : RegistryState.reachable empty_registry.
Proof. by exists None, 0, []. Qed.

Lemma monitor_keeps_registration_witness :
  exists m s r, loop demo_options demo_store true demo_ticks
      (start demo_options 0, (RegisterStore 0 (Some (publish demo_options demo_store)) empty_registry).2) = Some (m, s) ∧
    live_store (Seconds 14) (co_raiden_id demo_store) s = Some r ∧ store_server_address r = "addr"%string.
Proof.
  set (w := loop _ _ _ _ _). assert (Hw : exists m s, w = Some (m, s)) by (vm_compute; eauto). destruct Hw as (m & s & Hw).
  assert (Hp : paced demo_options demo_store true (Seconds 1) (Seconds 2) 0 demo_ticks
                 (start demo_options 0, (RegisterStore 0 (Some (publish demo_options demo_store)) empty_registry).2)).
  { set (s0 := (RegisterStore _ _ _).2). cbn [paced demo_ticks tk_others tk_server].
    assert (Hi : exists s1, iteration demo_options demo_store true (nth 0 demo_ticks (mkTick [] true true 0 0 true 0 0 true 0 0 0 0 true 0)) (start demo_options 0, s0)
                   = Some (mkState (Seconds 10) (Seconds 34) false, s1)) by (eexists; vm_compute; reflexivity).
    destruct Hi as [s1 Hi]. cbn [nth demo_ticks] in Hi. rewrite Hi. clearbody s0. clear.
    split; [split_and!; easy|]. split; [split; easy|]. split; [constructor|]. split; [split_and!; easy|]. split; [split; easy|].
    split; [by repeat constructor|]. by destruct (iteration _ _ _ _ _). }
  assert (Hn : named_coordinates demo_store) by (split; discriminate).
  assert (Ht : heartbeat_period demo_options + 3 * Seconds 2 + Seconds 1 < whole_ttl demo_options) by (vm_compute; reflexivity).
  assert (H1 : 0 <= Seconds 1) by (unfold Seconds; lia). assert (H2 : 0 <= Seconds 2) by (unfold Seconds; lia).
  assert (H3 : 0 <= heartbeat_period demo_options) by (cbn; unfold Seconds; lia).
  assert (Hr : Forall (fun k => tk_reach k = true) demo_ticks) by (repeat constructor).
  destruct (monitor_keeps_registration demo_options demo_store true (Seconds 1) (Seconds 2) 0 0 demo_ticks empty_registry m s
              Hn H1 H2 H3 Ht empty_registry_reachable (conj (Z.le_refl 0) H2) Hp Hr Hw)
    as (r & _ & Ha & Hl).
  exists m, s, r. split; [exact Hw|]. split; [|exact Ha]. apply Hl. vm_compute. discriminate.
Defined.

Lemma monitor_heals_witness :
  exists s, is_Some (iteration demo_options demo_store false
    (mkTick [] false false (Seconds 10) (Seconds 10) true (Seconds 11) (Seconds 11) true (Seconds 12) 4 (Seconds 12) (Seconds 12) false (Seconds 12))
    (start demo_options 0, empty_registry)) ∧
  live_store (Seconds 40) (co_raiden_id demo_store) s ≠ None.
Proof.
  destruct (monitor_heals demo_options demo_store false
    (mkTick [] false false (Seconds 10) (Seconds 10) true (Seconds 11) (Seconds 11) true (Seconds 12) 4 (Seconds 12) (Seconds 12) false (Seconds 12))
    (start demo_options 0) empty_registry 0 0) as (m & s & served & r & Hi & Hserved & Hr & _ & Hx & _); [done..|by left|].
  exists s. split; [rewrite Hi; eauto|]. unfold live_store. rewrite Hr, Hx. cbn -[whole_ttl Seconds].
  destruct (Z.ltb_spec (Seconds 40) (served + whole_ttl demo_options)) as [|Hge]; [done|].
  cbn [tk_server tk_reregister] in Hserved. change (whole_ttl demo_options) with (Seconds 30) in Hge. unfold Seconds in *. lia.
Defined.

End Monitor.
