(* ===== verification/Tiling.v ===== *)
(** * Tiled buffers of the weight synchronizer ([src/tpu_sync/weight_sync/tiling_utils.cc])

    A buffer is a function from byte offsets to bytes, a pointer is an offset into its
    buffer, and a routine is the list of byte stores it makes, each with a byte it read from
    the source.  The vector routines take the number of lanes of a vector as an argument, so
    that stores past the end of a row are visible.  What the source takes from XLA (the index
    of an element in a linear and in a nested tiled layout, the enumeration of the indices of
    a shape) is a parameter.  Sizes are unbounded: they are sizes of buffers in memory. *)

From S2P Require Import Prelude.

Module Tiling.

Abbreviation Buffer := (Z -> Z).
Abbreviation Stores := (list (Z * Z)).

Definition put (m : Buffer) (w : Z * Z) : Buffer := fun o => if o =? w.1 then w.2 else m o.
Definition run (ws : Stores) (m : Buffer) : Buffer := foldl put m ws.

Definition memcpy (src : Buffer) (d s n : Z) : Stores := (fun i => (d + i, src (s + i))) <$> zrange 0 n.
Definition memset (d n : Z) : Stores := (fun i => (d + i, 0)) <$> zrange 0 n.

(** [for (; offset + N <= limit; offset += N)]: the stores and the final offset. *)
Fixpoint vector_loop (fuel : nat) (N limit : Z) (body : Z -> Stores) (offset : Z) : Stores * Z :=
  match fuel with
  | O => ([], offset)
  | S fuel =>
      if offset + N <=? limit then
        let '(ws, final) := vector_loop fuel N limit body (offset + N) in (body offset ++ ws, final)
      else ([], offset)
  end.
Definition vectors (N limit : Z) (body : Z -> Stores) (offset : Z) : Stores * Z :=
  vector_loop (Z.to_nat limit) N limit body offset.

(** ** Rows *)

Section lanes.
(** The lanes of a vector of bytes and of a vector of 16-bit integers. *)
Variables N8 N16 : Z.

Definition CopyRowWithPaddingHighway (src : Buffer) (s d valid_bytes total_row_bytes : Z) : Stores :=
  let '(w1, offset) := vectors N8 valid_bytes (fun o => memcpy src (d + o) (s + o) N8) 0 in
  let '(w2, offset) :=
    if offset <? valid_bytes then
      ((fun i => (d + offset + i, if i <? valid_bytes - offset then src (s + offset + i) else 0)) <$> zrange 0 N8,
       offset + N8)
    else ([], offset) in
  let '(w3, offset) := vectors N8 total_row_bytes (fun o => memset (d + o) N8) offset in
  let w4 := if offset <? total_row_bytes then memset (d + offset) (total_row_bytes - offset) else [] in
  w1 ++ w2 ++ w3 ++ w4.

Definition DetileRowWithPaddingHighway (src : Buffer) (s d valid_bytes : Z) : Stores :=
  let '(w1, offset) := vectors N8 valid_bytes (fun o => memcpy src (d + o) (s + o) N8) 0 in
  let w2 := if offset <? valid_bytes then memcpy src (d + offset) (s + offset) (valid_bytes - offset) else [] in
  w1 ++ w2.

Definition ZeroRowHighway (d total_row_bytes : Z) : Stores :=
  let '(w1, offset) := vectors N8 total_row_bytes (fun o => memset (d + o) N8) 0 in
  w1 ++ if offset <? total_row_bytes then memset (d + offset) (total_row_bytes - offset) else [].

(** ** Tiles *)

(** [for (i = lo; i < hi; ++i) body], as stores. *)
Definition loop (lo hi : Z) (body : Z -> Stores) : Stores := zrange lo hi ≫= body.

(** Element [i] of a row of elements of [size] bytes. *)
Definition elem (size row i : Z) : Z := row + i * size.
(** [dst_group[P * c + p] = src_p[c]] for every [p]; a null source row is [None] and reads zero. *)
Definition interleave (src : Buffer) (P size : Z) (row : Z -> option Z) (dst_group c : Z) : Stores :=
  loop 0 P (fun p =>
    match row p with
    | Some r => memcpy src (elem size dst_group (P * c + p)) (elem size r c) size
    | None => memset (elem size dst_group (P * c + p)) size
    end).
(** [dst_p[c] = src_group[P * c + p]] for every [p]; a null destination row is skipped. *)
Definition deinterleave (src : Buffer) (P size : Z) (row : Z -> option Z) (src_group c : Z) : Stores :=
  loop 0 P (fun p =>
    match row p with
    | Some r => memcpy src (elem size r c) (elem size src_group (P * c + p)) size
    | None => []
    end).
(** A vector loop over the columns, then one column at a time; a vector handles [N] columns. *)
Definition columns (N tile_W : Z) (body : Z -> Stores) : Stores :=
  let '(ws, c) := vectors N tile_W (fun c => loop c (c + N) body) 0 in ws ++ loop c tile_W body.

(** The geometry of one matrix of tiles. *)
Record Geometry : Type := mkGeometry {
  batch_size : Z;
  H : Z;
  W : Z;
  itemsize : Z;
  tile_H : Z;
  tile_W : Z;
  packing_factor : Z
}.
Implicit Types g : Geometry.

Definition CeilOfRatio (a b : Z) : Z := (a + b - 1) / b.
Definition num_tiles_0 g : Z := CeilOfRatio (H g) (tile_H g).
Definition num_tiles_1 g : Z := CeilOfRatio (W g) (tile_W g).
Definition tile_size_bytes g : Z := tile_H g * tile_W g * itemsize g.
Definition matrix_size_bytes g : Z := H g * W g * itemsize g.
Definition tiled_matrix_size_bytes g : Z := num_tiles_0 g * num_tiles_1 g * tile_size_bytes g.
Definition has_padding g : bool := negb (H g mod tile_H g =? 0) || negb (W g mod tile_W g =? 0).

(** The element size the packed branches assume: 16-bit for two rows, 8-bit for four. *)
Definition packed_size (P : Z) : Z := if P =? 2 then 2 else 1.
Definition packed_lanes (P : Z) : Z := if P =? 2 then N16 else N8.
(** The start of a row of the matrix at [batch], at the first column of the tile. *)
Definition row_at g (size batch row col : Z) : Z := batch + (row * W g + col) * size.

Definition CopyTilePackedNoPadding g (P kRowBytes : Z) (src : Buffer) (src_batch dst_tile tile_row tile_col : Z) : Stores :=
  let col := tile_col * tile_W g in
  if P =? 1 then
    let row_stride := if 0 <? kRowBytes then kRowBytes else tile_W g * itemsize g in
    loop 0 (tile_H g) (fun r =>
      memcpy src (dst_tile + r * row_stride) (row_at g (itemsize g) src_batch (tile_row * tile_H g + r) col) row_stride)
  else
    let size := packed_size P in
    loop 0 (tile_H g / P) (fun grp =>
      let r0 := tile_row * tile_H g + grp * P in
      columns (packed_lanes P) (tile_W g)
        (interleave src P size (fun p => Some (row_at g size src_batch (r0 + p) col)) (dst_tile + grp * (tile_W g * P * size)))).

Definition CopyTilePackedWithPadding g (P : Z) (src : Buffer) (src_batch dst_tile tile_row tile_col : Z) : Stores :=
  let col := tile_col * tile_W g in
  let valid_elements := Z.min (tile_W g) (W g - col) in
  if valid_elements <=? 0 then ZeroRowHighway dst_tile (tile_size_bytes g)
  else if P =? 1 then
    let total_row_bytes := tile_W g * itemsize g in
    loop 0 (tile_H g) (fun r =>
      let logical_row := tile_row * tile_H g + r in
      if H g <=? logical_row then ZeroRowHighway (dst_tile + r * total_row_bytes) total_row_bytes
      else CopyRowWithPaddingHighway src (row_at g (itemsize g) src_batch logical_row col) (dst_tile + r * total_row_bytes)
             (valid_elements * itemsize g) total_row_bytes)
  else
    let size := packed_size P in
    loop 0 (tile_H g / P) (fun grp =>
      let r0 := tile_row * tile_H g + grp * P in
      let dst_group := dst_tile + grp * (tile_W g * P * size) in
      if H g <=? r0 then ZeroRowHighway dst_group (tile_W g * P * size)
      else
        loop 0 (tile_W g) (fun c =>
          interleave src P size
            (fun p => if (c <? valid_elements) && (r0 + p <? H g) then Some (row_at g size src_batch (r0 + p) col) else None)
            dst_group c)).

Definition DetileSingleTilePackedNoPadding g (P kRowBytes : Z) (src : Buffer) (src_tile dst_batch tile_row tile_col : Z) : Stores :=
  let col := tile_col * tile_W g in
  if P =? 1 then
    let row_stride := if 0 <? kRowBytes then kRowBytes else tile_W g * itemsize g in
    loop 0 (tile_H g) (fun r =>
      memcpy src (row_at g (itemsize g) dst_batch (tile_row * tile_H g + r) col) (src_tile + r * row_stride) row_stride)
  else
    let size := packed_size P in
    loop 0 (tile_H g / P) (fun grp =>
      let r0 := tile_row * tile_H g + grp * P in
      columns (packed_lanes P) (tile_W g)
        (deinterleave src P size (fun p => Some (row_at g size dst_batch (r0 + p) col)) (src_tile + grp * (tile_W g * P * size)))).

Definition DetileSingleTilePackedWithPadding g (P : Z) (src : Buffer) (src_tile dst_batch tile_row tile_col : Z) : Stores :=
  let col := tile_col * tile_W g in
  let valid_elements := Z.min (tile_W g) (W g - col) in
  if valid_elements <=? 0 then []
  else if P =? 1 then
    let total_row_bytes := tile_W g * itemsize g in
    loop 0 (tile_H g) (fun r =>
      let logical_row := tile_row * tile_H g + r in
      if H g <=? logical_row then []
      else DetileRowWithPaddingHighway src (src_tile + r * total_row_bytes) (row_at g (itemsize g) dst_batch logical_row col)
             (valid_elements * itemsize g))
  else
    let size := packed_size P in
    loop 0 (tile_H g / P) (fun grp =>
      let r0 := tile_row * tile_H g + grp * P in
      if H g <=? r0 then []
      else
        loop 0 valid_elements
          (deinterleave src P size (fun p => if r0 + p <? H g then Some (row_at g size dst_batch (r0 + p) col) else None)
             (src_tile + grp * (tile_W g * P * size)))).

(** ** Whole buffers *)

Definition kParallelizationThresholdBytes : Z := 2 * 1024 * 1024.
Definition kMaxNumThreads : Z := 4.

Definition DispatchByPackingFactor (P : Z) : Z := if P =? 2 then 2 else if P =? 4 then 4 else 1.
Definition DispatchByRowBytes (row_bytes : Z) : Z :=
  if bool_decide (row_bytes ∈ [8; 16; 32; 64; 128; 256; 512]) then row_bytes else 0.

Definition fast_path g : bool :=
  (packing_factor g =? 1) && negb (has_padding g) && ((W g =? tile_W g) || ((H g =? 1) && (tile_H g =? 1))).
Definition interior g (tile_row tile_col : Z) : bool :=
  (tile_row * tile_H g + tile_H g <=? H g) && (tile_col * tile_W g + tile_W g <=? W g).

(** The loops over the batches and the tiles: in order below the threshold, otherwise in
    chunks of rows of tiles that the threads of the pool run; [task] is one row of tiles. *)
Definition total_tasks g : Z := batch_size g * num_tiles_0 g.
Definition sequential g : bool :=
  (batch_size g * H g * W g * itemsize g <? kParallelizationThresholdBytes) || (total_tasks g <=? 1).
Definition chunk_size g : Z := (total_tasks g + kMaxNumThreads - 1) / kMaxNumThreads.
Definition num_chunks g : Z := (total_tasks g + chunk_size g - 1) / chunk_size g.
Definition chunk g (task : Z -> Z -> Stores) (t : Z) : Stores :=
  loop (t * chunk_size g) (Z.min (t * chunk_size g + chunk_size g) (total_tasks g))
    (fun i => task (i / num_tiles_0 g) (i mod num_tiles_0 g)).
(** The scheduled closures: the loop over the threads breaks at the first empty chunk. *)
Fixpoint schedule (threads : nat) g (t : Z) (task : Z -> Z -> Stores) : list Stores :=
  match threads with
  | O => []
  | S threads =>
      if Z.min (t * chunk_size g + chunk_size g) (total_tasks g) <=? t * chunk_size g then []
      else chunk g task t :: schedule threads g (t + 1) task
  end.
Definition over_tasks g (task : Z -> Z -> Stores) : Stores :=
  if sequential g then loop 0 (batch_size g) (fun b => loop 0 (num_tiles_0 g) (task b))
  else concat (schedule (Z.to_nat kMaxNumThreads) g 0 task).

Definition tile_task g (src : Buffer) (b tile_row : Z) : Stores :=
  let P := DispatchByPackingFactor (packing_factor g) in
  let kRowBytes := DispatchByRowBytes (if packing_factor g =? 1 then tile_W g * itemsize g else 0) in
  let src_batch := b * matrix_size_bytes g in
  let dst_batch := b * tiled_matrix_size_bytes g in
  loop 0 (num_tiles_1 g) (fun tile_col =>
    let dst_tile := dst_batch + (tile_row * num_tiles_1 g + tile_col) * tile_size_bytes g in
    if negb (has_padding g) || interior g tile_row tile_col
    then CopyTilePackedNoPadding g P kRowBytes src src_batch dst_tile tile_row tile_col
    else CopyTilePackedWithPadding g P src src_batch dst_tile tile_row tile_col).

(** One-dimensional tensors: a tile of padding rows per column of tiles. *)
Definition tile_vector g (src : Buffer) (b tile_col : Z) : Stores :=
  let logical_col_start := tile_col * tile_W g in
  let valid_elements := Z.min (tile_W g) (W g - logical_col_start) in
  let dst_tile := b * tiled_matrix_size_bytes g + tile_col * tile_size_bytes g in
  (if 0 <? valid_elements then
     memcpy src dst_tile (b * matrix_size_bytes g + logical_col_start * itemsize g) (valid_elements * itemsize g) ++
     (if valid_elements <? tile_W g
      then memset (dst_tile + valid_elements * itemsize g) ((tile_W g - valid_elements) * itemsize g) else [])
   else memset dst_tile (tile_W g * itemsize g)) ++
  (if 1 <? tile_H g then memset (dst_tile + tile_W g * itemsize g) ((tile_H g - 1) * tile_W g * itemsize g) else []).

Definition TileBufferNDOptimized g (src : Buffer) : Stores :=
  if fast_path g then memcpy src 0 0 (batch_size g * matrix_size_bytes g)
  else if (packing_factor g =? 1) && (H g =? 1) then
    loop 0 (batch_size g) (fun b => loop 0 (num_tiles_1 g) (tile_vector g src b))
  else over_tasks g (tile_task g src).

Definition detile_task g (src : Buffer) (b tile_row : Z) : Stores :=
  let P := DispatchByPackingFactor (packing_factor g) in
  let kRowBytes := DispatchByRowBytes (if packing_factor g =? 1 then tile_W g * itemsize g else 0) in
  let src_batch := b * tiled_matrix_size_bytes g in
  let dst_batch := b * matrix_size_bytes g in
  loop 0 (num_tiles_1 g) (fun tile_col =>
    let src_tile := src_batch + (tile_row * num_tiles_1 g + tile_col) * tile_size_bytes g in
    if negb (has_padding g) || interior g tile_row tile_col
    then DetileSingleTilePackedNoPadding g P kRowBytes src src_tile dst_batch tile_row tile_col
    else DetileSingleTilePackedWithPadding g P src src_tile dst_batch tile_row tile_col).

(** The loop over the columns of tiles, which breaks at the first one past the end. *)
Fixpoint detile_vector g (src : Buffer) (b : Z) (fuel : nat) (tile_col : Z) : Stores :=
  match fuel with
  | O => []
  | S fuel =>
      let logical_col_start := tile_col * tile_W g in
      let valid_elements := Z.min (tile_W g) (W g - logical_col_start) in
      if valid_elements <=? 0 then []
      else
        memcpy src (b * matrix_size_bytes g + logical_col_start * itemsize g)
          (b * tiled_matrix_size_bytes g + tile_col * tile_size_bytes g) (valid_elements * itemsize g) ++
        detile_vector g src b fuel (tile_col + 1)
  end.

Definition DetileBufferNDOptimized g (src : Buffer) : Stores :=
  if fast_path g then memcpy src 0 0 (batch_size g * matrix_size_bytes g)
  else if (packing_factor g =? 1) && (H g =? 1) then
    loop 0 (batch_size g) (fun b => detile_vector g src b (Z.to_nat (num_tiles_1 g)) 0)
  else over_tasks g (detile_task g src).

(** ** Shapes *)

Record Layout : Type := mkLayout {
  minor_to_major : list nat;
  tiles : list (list Z)
}.
Record Shape : Type := mkShape {
  dimensions : list Z;
  layout : Layout;
  element_bytes : Z
}.
Implicit Types shape : Shape.

Definition dim (l : list Z) (i : nat) : Z := nth i l 1.

Definition IsStandardRowMajorTiled shape : bool :=
  let R := length (dimensions shape) in
  negb (R =? 0)%nat && bool_decide (minor_to_major (layout shape) = rev (seq 0 R)) &&
  match tiles (layout shape) with
  | [t0] => (length t0 =? 2)%nat
  | [t0; t1] =>
      (length t0 =? 2)%nat && (length t1 =? 2)%nat &&
      ((dim t1 1 =? 1) && ((dim t1 0 =? 2) || (dim t1 0 =? 4)) && (dim t0 0 mod dim t1 0 =? 0))
  | _ => false
  end.

(** The extent of the dimension at a minor position. *)
Definition minor shape (i : nat) : Z := dim (dimensions shape) (nth i (minor_to_major (layout shape)) 0%nat).
Definition product (l : list Z) : Z := foldr Z.mul 1 l.

Definition geometry shape : Geometry :=
  let R := length (dimensions shape) in
  mkGeometry (product (minor shape <$> seq 2 (R - 2))) (if (R =? 1)%nat then 1 else minor shape 1) (minor shape 0)
    (element_bytes shape) (dim (nth 0 (tiles (layout shape)) []) 0) (dim (nth 0 (tiles (layout shape)) []) 1)
    (match tiles (layout shape) with _ :: t1 :: _ => dim t1 0 | _ => 1 end).

(** One level of tiling: the dimensions a tile covers become a grid of tiles and the tile. *)
Definition tile_dimensions (current_shape tile : list Z) : list Z :=
  let current_shape := replicate (length tile - length current_shape) 1 ++ current_shape in
  let suffix_start := (length current_shape - length tile)%nat in
  take suffix_start current_shape ++ zip_with CeilOfRatio (drop suffix_start current_shape) tile ++ tile.

Definition GetTiledBufferElements shape : Z :=
  match dimensions shape with
  | [] => 1
  | [n] => product (foldl tile_dimensions [1; n] (tiles (layout shape)))
  | _ => product (foldl tile_dimensions (minor shape <$> rev (seq 0 (length (dimensions shape)))) (tiles (layout shape)))
  end.

Section xla.
(** The indices of a shape, and the position of an element in the linear and in the tiled
    layout. *)
Variable ForEachIndex : list (list Z).
Variable linear_index nested_index : list Z -> Z.

Definition DetileBuffer shape (src : Buffer) : Stores :=
  match tiles (layout shape) with
  | [] => memcpy src 0 0 (product (dimensions shape) * element_bytes shape)
  | _ =>
      if IsStandardRowMajorTiled shape then DetileBufferNDOptimized (geometry shape) src
      else
        ForEachIndex ≫= fun indices =>
          memcpy src (linear_index indices * element_bytes shape) (nested_index indices * element_bytes shape) (element_bytes shape)
  end.

Definition TileBuffer shape (src : Buffer) : Stores :=
  match tiles (layout shape) with
  | [] => memcpy src 0 0 (product (dimensions shape) * element_bytes shape)
  | _ =>
      if IsStandardRowMajorTiled shape then TileBufferNDOptimized (geometry shape) src
      else
        let total_physical_elements := GetTiledBufferElements shape in
        (if product (dimensions shape) <? total_physical_elements then memset 0 (total_physical_elements * element_bytes shape) else []) ++
        (ForEachIndex ≫= fun indices =>
           memcpy src (nested_index indices * element_bytes shape) (linear_index indices * element_bytes shape) (element_bytes shape))
  end.
End xla.
End lanes.

End Tiling.
