(* ===== verification/TilingProofs.v ===== *)
(** * Tiling is exact and invertible

    The routines of Tiling.v are characterised by the set of byte stores they make.  Every
    store of a tile is the byte of one cell (row, column, byte of the element) of one tile,
    so the final buffer does not depend on the order of the stores: it is the same for every
    interleaving of the threads. *)

From S2P Require Import Prelude Tiling.

Module TilingProofs.
Import Tiling.

(** ** Mixed radix *)

Lemma split_range n s i : 0 < s -> 0 <= i < n * s <-> exists a b, 0 <= a < n ∧ 0 <= b < s ∧ i = a * s + b.
Proof.
  intros Hs. split.
  - intros Hi. exists (i / s), (i mod s). pose proof (Z.div_mod i s). pose proof (Z.mod_pos_bound i s Hs).
    split_and!; [apply Z.div_pos; lia|apply Z.div_lt_upper_bound; lia|lia|lia|lia].
  - intros (a & b & Ha & Hb & ->). nia.
Qed.
Lemma digits_unique s a b a' b' : 0 <= b < s -> 0 <= b' < s -> a * s + b = a' * s + b' -> a = a' ∧ b = b'.
Proof. intros Hb Hb' E. assert (a = a') by nia. subst a'. split; [done|lia]. Qed.

Lemma ceil_pos a b : 0 < a -> 0 < b -> 0 < CeilOfRatio a b.
Proof. intros. unfold CeilOfRatio. apply Z.div_str_pos. lia. Qed.
Lemma ceil_covers a b : 0 < b -> a <= CeilOfRatio a b * b.
Proof. intros. unfold CeilOfRatio. pose proof (Z.div_mod (a + b - 1) b). pose proof (Z.mod_pos_bound (a + b - 1) b). lia. Qed.
Lemma ceil_tight a b i : 0 < b -> 0 <= i < CeilOfRatio a b -> i * b < a.
Proof. intros Hb Hi. unfold CeilOfRatio in Hi. pose proof (Z.mul_div_le (a + b - 1) b Hb). nia. Qed.
Lemma ceil_exact a b : 0 < b -> a mod b = 0 -> CeilOfRatio a b * b = a.
Proof.
  intros Hb Hm. unfold CeilOfRatio. pose proof (Z.div_mod a b ltac:(lia)) as E. rewrite Hm, Z.add_0_r in E. rewrite E at 1.
  replace (b * (a / b) + b - 1) with (a / b * b + (b - 1)) by lia. rewrite Z.div_add_l by lia. rewrite (Z.div_small (b - 1) b) by lia. lia.
Qed.

(** ** Stores *)

Lemma run_outside ws m o : (forall v, (o, v) ∉ ws) -> run ws m o = m o.
Proof.
  revert m. induction ws as [|[o' v'] ws IH]; intros m Hout; [done|]. change (run ((o', v') :: ws) m) with (run ws (put m (o', v'))).
  rewrite IH by (intros v Hv; apply (Hout v); by right). unfold put. cbn. destruct (Z.eqb_spec o o') as [->|]; [|done].
  exfalso. apply (Hout v'). by left.
Qed.
(** All stores at an offset agree: their order does not matter. *)
Lemma run_agreed ws m o v : (o, v) ∈ ws -> (forall v', (o, v') ∈ ws -> v' = v) -> run ws m o = v.
Proof.
  revert m. induction ws as [|[o' v'] ws IH]; intros m Hin Hall; [by apply elem_of_nil in Hin|].
  change (run ((o', v') :: ws) m) with (run ws (put m (o', v'))).
  destruct (decide ((o, v) ∈ ws)) as [Hin'|Hout]; [apply IH; [done|intros v2 Hv2; apply Hall; by right]|].
  apply elem_of_cons in Hin as [[= <- <-]|]; [|done]. rewrite run_outside.
  - unfold put. cbn. by rewrite Z.eqb_refl.
  - intros v2 Hv2. assert (v2 = v) as -> by (apply Hall; by right). done.
Qed.

Lemma elem_of_memcpy src d s n o v : (o, v) ∈ memcpy src d s n <-> exists i, 0 <= i < n ∧ o = d + i ∧ v = src (s + i).
Proof.
  unfold memcpy. rewrite list_elem_of_fmap. setoid_rewrite elem_of_zrange. split; intros (i & H1 & H2); exists i; [injection H1 as -> ->|destruct H2 as [-> ->]]; done.
Qed.
Lemma elem_of_memset d n o v : (o, v) ∈ memset d n <-> exists i, 0 <= i < n ∧ o = d + i ∧ v = 0.
Proof.
  unfold memset. rewrite list_elem_of_fmap. setoid_rewrite elem_of_zrange. split; intros (i & H1 & H2); exists i; [injection H1 as -> ->|destruct H2 as [-> ->]]; done.
Qed.
Lemma elem_of_loop lo hi body w : w ∈ loop lo hi body <-> exists i, lo <= i < hi ∧ w ∈ body i.
Proof. unfold loop. rewrite list_elem_of_bind. setoid_rewrite elem_of_zrange. naive_solver. Qed.

(** A vector loop whose body handles the lanes [o, ..., o + N - 1]. *)
Lemma vectors_spec (Q : Z -> Z * Z -> Prop) N limit body offset :
  0 < N -> 0 <= offset -> (forall o w, w ∈ body o <-> exists i, o <= i < o + N ∧ Q i w) ->
  let r := vectors N limit body offset in
  offset <= r.2 ∧ (r.2 <= limit ∨ r.2 = offset) ∧ limit < r.2 + N ∧ (r.2 - offset) mod N = 0 ∧
  forall w, w ∈ r.1 <-> exists i, offset <= i < r.2 ∧ Q i w.
Proof.
  intros HN Ho Hbody. unfold vectors. assert (Hfuel : limit - offset <= Z.of_nat (Z.to_nat limit)) by lia. revert Hfuel. clear Ho.
  generalize (Z.to_nat limit) as fuel. intros fuel. revert offset. induction fuel as [|fuel IH]; intros offset Hfuel.
  { cbn. split_and!; [lia|by right|lia|by rewrite Z.sub_diag|]. intros w. split; [by intros ?%elem_of_nil|intros (i & ? & _); lia]. }
  cbn [vector_loop]. destruct (Z.leb_spec (offset + N) limit) as [Hle|Hgt].
  - specialize (IH (offset + N) ltac:(lia)). destruct (vector_loop fuel N limit body (offset + N)) as [ws final]. cbn [fst snd] in *.
    destruct IH as (H1 & H2 & H3 & H4 & H5). split_and!; [lia|lia|lia| |].
    + replace (final - offset) with (final - (offset + N) + 1 * N) by lia. by rewrite Z.mod_add by lia.
    + intros w. rewrite elem_of_app, Hbody, H5. split.
      * intros [(i & Hi & Hq)|(i & Hi & Hq)]; exists i; (split; [lia|done]).
      * intros (i & Hi & Hq). destruct (decide (i < offset + N)); [left|right]; exists i; (split; [lia|done]).
  - cbn. split_and!; [lia|by right|lia|by rewrite Z.sub_diag|]. intros w. split; [by intros ?%elem_of_nil|intros (i & ? & _); lia].
Qed.

Lemma vectors_memcpy N limit src s d offset :
  0 < N -> 0 <= offset ->
  let r := vectors N limit (fun o => memcpy src (d + o) (s + o) N) offset in
  offset <= r.2 ∧ (r.2 <= limit ∨ r.2 = offset) ∧ limit < r.2 + N ∧ (r.2 - offset) mod N = 0 ∧
  forall o v, (o, v) ∈ r.1 <-> exists i, offset <= i < r.2 ∧ o = d + i ∧ v = src (s + i).
Proof.
  intros HN Ho. destruct (vectors_spec (fun i w => w = (d + i, src (s + i))) N limit (fun o => memcpy src (d + o) (s + o) N) offset HN Ho) as (H1 & H2 & H3 & H4 & H5).
  - intros o [o' v]. rewrite elem_of_memcpy. split.
    + intros (i & Hi & -> & ->). exists (o + i). split; [lia|]. f_equal; [lia|f_equal; lia].
    + intros (i & Hi & [= -> ->]). exists (i - o). split_and!; [lia|lia|lia|f_equal; lia].
  - split_and!; [done..|]. intros o v. rewrite H5. split; intros (i & Hi & Hx); exists i; (split; [done|]); [by injection Hx|by destruct Hx as [-> ->]].
Qed.
Lemma vectors_memset N limit d offset :
  0 < N -> 0 <= offset ->
  let r := vectors N limit (fun o => memset (d + o) N) offset in
  offset <= r.2 ∧ (r.2 <= limit ∨ r.2 = offset) ∧ limit < r.2 + N ∧
  forall o v, (o, v) ∈ r.1 <-> exists i, offset <= i < r.2 ∧ o = d + i ∧ v = 0.
Proof.
  intros HN Ho. destruct (vectors_spec (fun i w => w = (d + i, 0)) N limit (fun o => memset (d + o) N) offset HN Ho) as (H1 & H2 & H3 & _ & H5).
  - intros o [o' v]. rewrite elem_of_memset. split.
    + intros (i & Hi & -> & ->). exists (o + i). split; [lia|]. f_equal. lia.
    + intros (i & Hi & [= -> ->]). exists (i - o). split_and!; [lia|lia|lia|done].
  - split_and!; [done..|]. intros o v. rewrite H5. split; intros (i & Hi & Hx); exists i; (split; [done|]); [by injection Hx|by destruct Hx as [-> ->]].
Qed.

(** ** Rows *)

Section lanes.
Variables N8 N16 : Z.
Hypothesis N8_pos : 0 < N8.
Hypothesis N16_pos : 0 < N16.

(** The vector that holds the last valid bytes is stored whole: it fits in the row when the
    row is a whole number of vectors. *)
Lemma CopyRow_spec src s d valid total o v :
  0 <= valid <= total -> total mod N8 = 0 ->
  (o, v) ∈ CopyRowWithPaddingHighway N8 src s d valid total <->
  exists i, 0 <= i < total ∧ o = d + i ∧ v = if i <? valid then src (s + i) else 0.
Proof.
  intros Hv Hd. unfold CopyRowWithPaddingHighway. pose proof (vectors_memcpy N8 valid src s d 0 N8_pos ltac:(lia)) as H.
  destruct (vectors N8 valid _ 0) as [w1 o1]. cbn [fst snd] in H. destruct H as (H1 & H2 & H3 & H4 & H5). rewrite Z.sub_0_r in H4.
  assert (Hfit : o1 < valid -> o1 + N8 <= total).
  { intros Hlt. assert (E : total = N8 * (total / N8)) by (pose proof (Z.div_mod total N8 ltac:(lia)); lia).
    assert (E1 : o1 = N8 * (o1 / N8)) by (pose proof (Z.div_mod o1 N8 ltac:(lia)); lia). assert (N8 * (o1 / N8) < N8 * (total / N8)) as Hq%Z.mul_lt_mono_pos_l by lia; [|lia]. nia. }
  set (mid := if o1 <? valid then _ else _).
  assert (Hmid : 0 <= mid.2 <= total ∧ o1 <= mid.2 ∧ valid <= mid.2 ∧
    ((o, v) ∈ mid.1 <-> exists i, o1 <= i < mid.2 ∧ o = d + i ∧ v = if i <? valid then src (s + i) else 0)).
  { subst mid. destruct (Z.ltb_spec o1 valid) as [Hlt|Hge]; cbn [fst snd].
    - split_and!; [lia|lia|lia|lia|]. rewrite list_elem_of_fmap. setoid_rewrite elem_of_zrange. split.
      + intros (i & [= -> ->] & Hi). exists (o1 + i). split_and!; [lia|lia|lia|]. rewrite Z.add_assoc.
        destruct (Z.ltb_spec i (valid - o1)), (Z.ltb_spec (o1 + i) valid); try lia; done.
      + intros (i & Hi & -> & ->). exists (i - o1). split; [|lia]. f_equal; [lia|].
        destruct (Z.ltb_spec i valid), (Z.ltb_spec (i - o1) (valid - o1)); try lia; f_equal; lia.
    - split_and!; [lia|lia|lia|lia|]. split; [by intros ?%elem_of_nil|intros (i & ? & _); lia]. }
  clearbody mid. destruct mid as [w2 o2]. cbn [fst snd] in Hmid. destruct Hmid as (Ho2 & Hle & Hval & Hw2).
  pose proof (vectors_memset N8 total d o2 N8_pos ltac:(lia)) as H. destruct (vectors N8 total _ o2) as [w3 o3]. cbn [fst snd] in H. destruct H as (G1 & G2 & G3 & G4).
  assert (Hw4 : (o, v) ∈ (if o3 <? total then memset (d + o3) (total - o3) else []) <-> exists i, o3 <= i < total ∧ o = d + i ∧ v = 0).
  { destruct (Z.ltb_spec o3 total); [rewrite elem_of_memset|split; [by intros ?%elem_of_nil|intros (i & ? & _); lia]].
    split; intros (i & Hi & -> & ->); [exists (o3 + i)|exists (i - o3)]; (split_and!; [lia|lia|lia|done]). }
  rewrite !elem_of_app, H5, Hw2, G4, Hw4. split.
  - intros [(i & Hi & -> & ->)|[(i & Hi & -> & ->)|[(i & Hi & -> & ->)|(i & Hi & -> & ->)]]]; exists i; (split_and!; [lia|lia|lia|]);
      destruct (Z.ltb_spec i valid); try lia; done.
  - intros (i & Hi & -> & ->). destruct (decide (i < o1)); [left|right; destruct (decide (i < o2)); [left|right; destruct (decide (i < o3)); [left|right]]];
      exists i; (split_and!; [lia|lia|lia|]); destruct (Z.ltb_spec i valid); try lia; done.
Qed.

Lemma DetileRow_spec src s d valid o v :
  0 <= valid -> (o, v) ∈ DetileRowWithPaddingHighway N8 src s d valid <-> exists i, 0 <= i < valid ∧ o = d + i ∧ v = src (s + i).
Proof.
  intros Hv. unfold DetileRowWithPaddingHighway. pose proof (vectors_memcpy N8 valid src s d 0 N8_pos ltac:(lia)) as H.
  destruct (vectors N8 valid _ 0) as [w1 o1]. cbn [fst snd] in H. destruct H as (H1 & H2 & H3 & _ & H5).
  rewrite elem_of_app, H5. destruct (Z.ltb_spec o1 valid) as [Hlt|Hge]; [rewrite elem_of_memcpy|rewrite elem_of_nil]; split.
  - intros [(i & Hi & -> & ->)|(i & Hi & -> & ->)]; [exists i|exists (o1 + i)]; (split_and!; [lia|lia|lia|f_equal; lia]).
  - intros (i & Hi & -> & ->). destruct (decide (i < o1)); [left; exists i|right; exists (i - o1)]; (split_and!; [lia|lia|lia|f_equal; lia]).
  - intros [(i & Hi & -> & ->)|[]]. exists i. split_and!; [lia|lia|lia|done].
  - intros (i & Hi & -> & ->). left. exists i. split_and!; [lia|lia|lia|done].
Qed.
Lemma ZeroRow_spec d total o v : 0 <= total -> (o, v) ∈ ZeroRowHighway N8 d total <-> exists i, 0 <= i < total ∧ o = d + i ∧ v = 0.
Proof.
  intros Hv. unfold ZeroRowHighway. pose proof (vectors_memset N8 total d 0 N8_pos ltac:(lia)) as H.
  destruct (vectors N8 total _ 0) as [w1 o1]. cbn [fst snd] in H. destruct H as (H1 & H2 & H3 & H5).
  rewrite elem_of_app, H5. destruct (Z.ltb_spec o1 total) as [Hlt|Hge]; [rewrite elem_of_memset|rewrite elem_of_nil]; split.
  - intros [(i & Hi & -> & ->)|(i & Hi & -> & ->)]; [exists i|exists (o1 + i)]; (split_and!; [lia|lia|lia|done]).
  - intros (i & Hi & -> & ->). destruct (decide (i < o1)); [left; exists i|right; exists (i - o1)]; (split_and!; [lia|lia|lia|done]).
  - intros [(i & Hi & -> & ->)|[]]. exists i. split_and!; [lia|lia|lia|done].
  - intros (i & Hi & -> & ->). left. exists i. split_and!; [lia|lia|lia|done].
Qed.
Lemma columns_spec N n body w : 0 < N -> 0 <= n -> w ∈ columns N n body <-> exists c, 0 <= c < n ∧ w ∈ body c.
Proof.
  intros HN Hn. unfold columns. pose proof (vectors_spec (fun c w => w ∈ body c) N n (fun c => loop c (c + N) body) 0 HN ltac:(lia)) as H.
  destruct (vectors N n _ 0) as [ws c0]. cbn [fst snd] in H. destruct H as (H1 & H2 & H3 & _ & H5); [intros o w'; apply elem_of_loop|].
  rewrite elem_of_app, H5, elem_of_loop. split.
  - intros [(c & Hc & Hw)|(c & Hc & Hw)]; exists c; (split; [lia|done]).
  - intros (c & Hc & Hw). destruct (decide (c < c0)); [left|right]; exists c; (split; [lia|done]).
Qed.

(** ** Cells *)

(** What the routines rely on: positive sizes, and packed rows only for elements that fill 32
    bits with their packing. *)
Record good (g : Geometry) : Prop := {
  good_batch : 0 <= batch_size g;
  good_H : 0 < H g;
  good_W : 0 < W g;
  good_item : 0 < itemsize g;
  good_tile_H : 0 < tile_H g;
  good_tile_W : 0 < tile_W g;
  good_packing : packing_factor g = 1 ∨
    (packing_factor g = 2 ∨ packing_factor g = 4) ∧ itemsize g = packed_size (packing_factor g) ∧ tile_H g mod packing_factor g = 0
}.

(** The position of row [r], column [c] of a tile in it; rows are packed by the factor. *)
Definition within (g : Geometry) (r c : Z) : Z :=
  (r / packing_factor g * tile_W g + c) * packing_factor g + r mod packing_factor g.
(** Byte [k] of that cell in the tiled buffer, and of an element in the linear one. *)
Definition tiled_offset (g : Geometry) (b tr tc r c k : Z) : Z :=
  (((b * num_tiles_0 g + tr) * num_tiles_1 g + tc) * (tile_H g * tile_W g) + within g r c) * itemsize g + k.
Definition linear_offset (g : Geometry) (b row col k : Z) : Z := ((b * H g + row) * W g + col) * itemsize g + k.
(** The element padded with zeros. *)
Definition padded (g : Geometry) (src : Buffer) (b row col k : Z) : Z :=
  if (row <? H g) && (col <? W g) then src (linear_offset g b row col k) else 0.
Definition in_tile (g : Geometry) (r c k : Z) : Prop := 0 <= r < tile_H g ∧ 0 <= c < tile_W g ∧ 0 <= k < itemsize g.

Lemma within_packed g grp p c : 0 < packing_factor g -> 0 <= p < packing_factor g ->
  within g (grp * packing_factor g + p) c = (grp * tile_W g + c) * packing_factor g + p.
Proof.
  intros HP Hp. unfold within. rewrite Z.div_add_l by lia. rewrite (Z.div_small p) by lia. rewrite Z.add_0_r.
  replace ((grp * packing_factor g + p) mod packing_factor g) with p; [lia|].
  rewrite (Z.add_comm (grp * _)), Z.mod_add by lia. by rewrite Z.mod_small.
Qed.
Lemma packing_pos g : good g -> 0 < packing_factor g.
Proof. intros [_ _ _ _ _ _ [->|[[->| ->] _]]]; lia. Qed.
Lemma packed_groups g : good g -> tile_H g / packing_factor g * packing_factor g = tile_H g.
Proof.
  intros Hg. pose proof (packing_pos g Hg). pose proof (Z.div_mod (tile_H g) (packing_factor g) ltac:(lia)) as E.
  destruct (good_packing g Hg) as [Hp|(_ & _ & Hm)]; [rewrite Hp in *; rewrite Z.div_1_r; lia|lia].
Qed.
(** Rows of a tile by their group. *)
Lemma rows_by_group g r : good g -> 0 <= r < tile_H g <->
  exists grp p, 0 <= grp < tile_H g / packing_factor g ∧ 0 <= p < packing_factor g ∧ r = grp * packing_factor g + p.
Proof. intros Hg. rewrite <-(packed_groups g Hg) at 1. apply split_range, packing_pos, Hg. Qed.

Lemma interleave_spec src P size row dst c o v :
  (o, v) ∈ interleave src P size row dst c <->
  exists p k, 0 <= p < P ∧ 0 <= k < size ∧ o = dst + (P * c + p) * size + k ∧ v = match row p with Some r => src (r + c * size + k) | None => 0 end.
Proof.
  unfold interleave. rewrite elem_of_loop. unfold elem. split.
  - intros (p & Hp & Hw). destruct (row p) as [r|] eqn:Er; [apply elem_of_memcpy in Hw|apply elem_of_memset in Hw]; destruct Hw as (k & Hk & -> & ->);
      exists p, k; rewrite Er; done.
  - intros (p & k & Hp & Hk & -> & ->). exists p. split; [done|]. destruct (row p) as [r|]; [apply elem_of_memcpy|apply elem_of_memset]; by exists k.
Qed.
Lemma deinterleave_spec src P size row sg c o v :
  (o, v) ∈ deinterleave src P size row sg c <->
  exists p k r, 0 <= p < P ∧ 0 <= k < size ∧ row p = Some r ∧ o = r + c * size + k ∧ v = src (sg + (P * c + p) * size + k).
Proof.
  unfold deinterleave. rewrite elem_of_loop. unfold elem. split.
  - intros (p & Hp & Hw). destruct (row p) as [r|] eqn:Er; [apply elem_of_memcpy in Hw|by apply elem_of_nil in Hw]. destruct Hw as (k & Hk & -> & ->). by exists p, k, r.
  - intros (p & k & r & Hp & Hk & Er & -> & ->). exists p. split; [done|]. rewrite Er. apply elem_of_memcpy. by exists k.
Qed.

Lemma dispatch_packing g : good g -> DispatchByPackingFactor (packing_factor g) = packing_factor g.
Proof. intros [_ _ _ _ _ _ [->|[[->| ->] _]]]; done. Qed.
Definition row_bytes_tag (g : Geometry) : Z := DispatchByRowBytes (if packing_factor g =? 1 then tile_W g * itemsize g else 0).
Lemma row_stride g : good g -> packing_factor g = 1 -> (if 0 <? row_bytes_tag g then row_bytes_tag g else tile_W g * itemsize g) = tile_W g * itemsize g.
Proof.
  intros Hg Hp. unfold row_bytes_tag, DispatchByRowBytes. rewrite Hp. cbn [Z.eqb Pos.eqb]. case_bool_decide; [|done]. by destruct (0 <? _).
Qed.
(** Columns of bytes by their element. *)
Lemma bytes_by_column g i : good g -> 0 <= i < tile_W g * itemsize g <-> exists c k, 0 <= c < tile_W g ∧ 0 <= k < itemsize g ∧ i = c * itemsize g + k.
Proof. intros Hg. apply split_range, Hg. Qed.

(** ** One tile *)

Definition tile_origin (g : Geometry) (b tr tc : Z) : Z := b * tiled_matrix_size_bytes g + (tr * num_tiles_1 g + tc) * tile_size_bytes g.

Lemma tile_cell g b tr tc r c k : tile_origin g b tr tc + within g r c * itemsize g + k = tiled_offset g b tr tc r c k.
Proof. unfold tile_origin, tiled_offset, tiled_matrix_size_bytes, tile_size_bytes. ring. Qed.
Lemma matrix_cell g b row col c k : row_at g (itemsize g) (b * matrix_size_bytes g) row col + c * itemsize g + k = linear_offset g b row (col + c) k.
Proof. unfold row_at, linear_offset, matrix_size_bytes. ring. Qed.
Lemma within_unpacked g r c : packing_factor g = 1 -> within g r c = r * tile_W g + c.
Proof. intros E. unfold within. rewrite E, Z.div_1_r, Z.mod_1_r. lia. Qed.
Lemma packed_cell g b tr tc grp p c k :
  good g -> 0 <= p < packing_factor g -> itemsize g = packed_size (packing_factor g) ->
  tile_origin g b tr tc + grp * (tile_W g * packing_factor g * packed_size (packing_factor g)) + (packing_factor g * c + p) * packed_size (packing_factor g) + k
  = tiled_offset g b tr tc (grp * packing_factor g + p) c k.
Proof.
  intros Hg Hp Hs. rewrite <-tile_cell, within_packed by (done || by apply packing_pos). rewrite Hs. ring.
Qed.

(** Every cell of the tile, padded with zeros. *)
Definition tile_cells (g : Geometry) (src : Buffer) (b tr tc : Z) (w : Z * Z) : Prop :=
  exists r c k, in_tile g r c k ∧ w = (tiled_offset g b tr tc r c k, padded g src b (tr * tile_H g + r) (tc * tile_W g + c) k).

Lemma padded_inside g src b row col k : row < H g -> col < W g -> padded g src b row col k = src (linear_offset g b row col k).
Proof. intros. unfold padded. destruct (Z.ltb_spec row (H g)), (Z.ltb_spec col (W g)); try lia; done. Qed.

Lemma copy_nopad_spec g src b tr tc w :
  good g -> tr * tile_H g + tile_H g <= H g -> tc * tile_W g + tile_W g <= W g ->
  w ∈ CopyTilePackedNoPadding N8 N16 g (packing_factor g) (row_bytes_tag g) src (b * matrix_size_bytes g) (tile_origin g b tr tc) tr tc <->
  tile_cells g src b tr tc w.
Proof.
  intros Hg Hr Hc. destruct w as [o v]. unfold CopyTilePackedNoPadding, tile_cells, in_tile. destruct (Z.eqb_spec (packing_factor g) 1) as [HP|HP].
  - rewrite row_stride, elem_of_loop by done. setoid_rewrite elem_of_memcpy. setoid_rewrite (bytes_by_column g _ Hg). split.
    + intros (r & Hr' & i & (c & k & Hc' & Hk & ->) & -> & ->). exists r, c, k. split_and!; [lia..|].
      rewrite padded_inside, <-matrix_cell, <-tile_cell, within_unpacked by (done || lia). f_equal; [lia|f_equal; lia].
    + intros (r & c & k & (Hr' & Hc' & Hk) & [= -> ->]). exists r. split; [lia|]. exists (c * itemsize g + k). split; [by exists c, k|].
      rewrite padded_inside, <-matrix_cell, <-tile_cell, within_unpacked by (done || lia). split; [lia|f_equal; lia].
  - destruct (good_packing g Hg) as [|(HP2 & Hs & Hm)]; [done|]. rewrite elem_of_loop.
    assert (Hl : 0 < packed_lanes N8 N16 (packing_factor g)) by (unfold packed_lanes; by destruct (_ =? 2)).
    setoid_rewrite columns_spec; [|done|apply Z.lt_le_incl, Hg]. setoid_rewrite interleave_spec. setoid_rewrite (rows_by_group g _ Hg). rewrite <-Hs. split.
    + intros (grp & Hgrp & c & Hc' & p & k & Hp & Hk & -> & ->). exists (grp * packing_factor g + p), c, k. split_and!; [by exists grp, p|lia..|].
      assert (0 <= grp * packing_factor g + p < tile_H g) by (apply (rows_by_group g _ Hg); by exists grp, p).
      rewrite padded_inside, <-matrix_cell, <-packed_cell by (done || lia). by rewrite <-Hs, (Z.add_assoc (tr * tile_H g)).
    + intros (r & c & k & ((grp & p & Hgrp & Hp & ->) & Hc' & Hk) & [= -> ->]). exists grp. split; [done|]. exists c. split; [done|]. exists p, k. split; [done|]. split; [done|].
      assert (0 <= grp * packing_factor g + p < tile_H g) by (apply (rows_by_group g _ Hg); by exists grp, p).
      rewrite padded_inside, <-matrix_cell, <-packed_cell by (done || lia). by rewrite <-Hs, (Z.add_assoc (tr * tile_H g)).
Qed.

Lemma padded_outside g src b row col k : H g <= row ∨ W g <= col -> padded g src b row col k = 0.
Proof. intros. unfold padded. destruct (Z.ltb_spec row (H g)), (Z.ltb_spec col (W g)); try lia; done. Qed.
(** A byte of a row is valid when its column is. *)
Lemma valid_byte g n c k : good g -> 0 <= k < itemsize g -> (c * itemsize g + k <? n * itemsize g) = (c <? n).
Proof. intros Hg Hk. destruct (Z.ltb_spec c n), (Z.ltb_spec (c * itemsize g + k) (n * itemsize g)); try done; nia. Qed.

(** A row of an unpacked tile. *)
Lemma padded_row_spec g src b tr tc r w :
  good g -> tc * tile_W g < W g -> packing_factor g = 1 -> (tile_W g * itemsize g) mod N8 = 0 ->
  w ∈ (if H g <=? tr * tile_H g + r then ZeroRowHighway N8 (tile_origin g b tr tc + r * (tile_W g * itemsize g)) (tile_W g * itemsize g)
    else CopyRowWithPaddingHighway N8 src (row_at g (itemsize g) (b * matrix_size_bytes g) (tr * tile_H g + r) (tc * tile_W g))
           (tile_origin g b tr tc + r * (tile_W g * itemsize g)) (Z.min (tile_W g) (W g - tc * tile_W g) * itemsize g) (tile_W g * itemsize g)) <->
  exists c k, (0 <= c < tile_W g ∧ 0 <= k < itemsize g) ∧ w = (tiled_offset g b tr tc r c k, padded g src b (tr * tile_H g + r) (tc * tile_W g + c) k).
Proof.
  intros Hg Hc HP Hvec. destruct w as [o v]. pose proof (good_tile_W g Hg) as HtW. pose proof (good_item g Hg) as His.
  set (valid := Z.min (tile_W g) (W g - tc * tile_W g)).
  setoid_rewrite <-tile_cell. setoid_rewrite (within_unpacked g _ _ HP). destruct (Z.leb_spec (H g) (tr * tile_H g + r)) as [Hout|Hin].
  - rewrite ZeroRow_spec by (done || nia). setoid_rewrite (bytes_by_column g _ Hg). split.
    + intros (i & (c & k & Hc' & Hk & ->) & -> & ->). exists c, k. split; [done|]. rewrite padded_outside by lia. f_equal. lia.
    + intros (c & k & [Hc' Hk] & [= -> ->]). exists (c * itemsize g + k). split; [by exists c, k|]. rewrite padded_outside by lia. split; [lia|done].
  - rewrite CopyRow_spec by (done || nia). setoid_rewrite (bytes_by_column g _ Hg). split.
    + intros (i & (c & k & Hc' & Hk & ->) & -> & ->). exists c, k. split; [done|]. rewrite valid_byte by done. f_equal; [lia|].
      destruct (Z.ltb_spec c valid); [rewrite padded_inside, <-matrix_cell by lia; f_equal; lia|by rewrite padded_outside by lia].
    + intros (c & k & [Hc' Hk] & [= -> ->]). exists (c * itemsize g + k). split; [by exists c, k|]. split; [lia|]. rewrite valid_byte by done.
      destruct (Z.ltb_spec c valid); [rewrite padded_inside, <-matrix_cell by lia; f_equal; lia|by rewrite padded_outside by lia].
Qed.

(** A group of packed rows. *)
Lemma padded_group_spec g src b tr tc grp w :
  good g -> tc * tile_W g < W g -> itemsize g = packed_size (packing_factor g) -> 0 <= grp ->
  w ∈ (if H g <=? tr * tile_H g + grp * packing_factor g
    then ZeroRowHighway N8 (tile_origin g b tr tc + grp * (tile_W g * packing_factor g * itemsize g)) (tile_W g * packing_factor g * itemsize g)
    else loop 0 (tile_W g) (fun c => interleave src (packing_factor g) (itemsize g)
           (fun p => if (c <? Z.min (tile_W g) (W g - tc * tile_W g)) && (tr * tile_H g + grp * packing_factor g + p <? H g)
                     then Some (row_at g (itemsize g) (b * matrix_size_bytes g) (tr * tile_H g + grp * packing_factor g + p) (tc * tile_W g)) else None)
           (tile_origin g b tr tc + grp * (tile_W g * packing_factor g * itemsize g)) c)) <->
  exists c p k, (0 <= c < tile_W g ∧ 0 <= p < packing_factor g ∧ 0 <= k < itemsize g) ∧
    w = (tiled_offset g b tr tc (grp * packing_factor g + p) c k, padded g src b (tr * tile_H g + (grp * packing_factor g + p)) (tc * tile_W g + c) k).
Proof.
  intros Hg Hc Hs Hgrp. destruct w as [o v]. pose proof (good_tile_W g Hg) as HtW. pose proof (good_item g Hg) as His. pose proof (packing_pos g Hg) as HPp.
  set (valid := Z.min (tile_W g) (W g - tc * tile_W g)). destruct (Z.leb_spec (H g) (tr * tile_H g + grp * packing_factor g)) as [Hout|Hin].
  - rewrite ZeroRow_spec by (done || nia). split.
    + intros (i & Hi & -> & ->). rewrite split_range in Hi by done. destruct Hi as (cp & k & Hcp & Hk & ->). rewrite split_range in Hcp by done.
      destruct Hcp as (c & p & Hc' & Hp & ->). exists c, p, k. split; [done|]. rewrite padded_outside, <-packed_cell by (done || lia). rewrite <-Hs. f_equal. lia.
    + intros (c & p & k & (Hc' & Hp & Hk) & [= -> ->]). exists ((c * packing_factor g + p) * itemsize g + k).
      rewrite padded_outside, <-packed_cell by (done || lia). rewrite <-Hs. split; [|split; [lia|done]].
      apply split_range; [done|]. exists (c * packing_factor g + p), k. split; [|done]. apply split_range; [done|]. by exists c, p.
  - rewrite elem_of_loop. setoid_rewrite interleave_spec. split.
    + intros (c & Hc' & p & k & Hp & Hk & -> & ->). exists c, p, k. split; [done|]. rewrite <-packed_cell, <-Hs by done. f_equal.
      rewrite Z.add_assoc. destruct (Z.ltb_spec c valid), (Z.ltb_spec (tr * tile_H g + grp * packing_factor g + p) (H g)); cbn [andb];
        rewrite ?padded_inside, ?padded_outside, <-?matrix_cell by lia; done.
    + intros (c & p & k & (Hc' & Hp & Hk) & [= -> ->]). exists c. split; [done|]. exists p, k. split_and!; [lia..| |].
      * by rewrite <-packed_cell, <-Hs.
      * rewrite Z.add_assoc. destruct (Z.ltb_spec c valid), (Z.ltb_spec (tr * tile_H g + grp * packing_factor g + p) (H g)); cbn [andb];
          rewrite ?padded_inside, ?padded_outside, <-?matrix_cell by lia; done.
Qed.

Lemma copy_padded_spec g src b tr tc w :
  good g -> tc * tile_W g < W g -> (packing_factor g = 1 -> (tile_W g * itemsize g) mod N8 = 0) ->
  w ∈ CopyTilePackedWithPadding N8 g (packing_factor g) src (b * matrix_size_bytes g) (tile_origin g b tr tc) tr tc <->
  tile_cells g src b tr tc w.
Proof.
  intros Hg Hc Hvec. unfold CopyTilePackedWithPadding, tile_cells, in_tile. pose proof (good_tile_W g Hg) as HtW.
  destruct (Z.leb_spec (Z.min (tile_W g) (W g - tc * tile_W g)) 0); [lia|]. destruct (Z.eqb_spec (packing_factor g) 1) as [HP|HP]; rewrite elem_of_loop.
  - split.
    + intros (r & Hr' & Hw). apply padded_row_spec in Hw as (c & k & [Hc' Hk] & Hw); [|by auto..]. by exists r, c, k.
    + intros (r & c & k & (Hr' & Hc' & Hk) & Hw). exists r. split; [done|]. apply padded_row_spec; [by auto..|]. by exists c, k.
  - destruct (good_packing g Hg) as [|(_ & Hs & _)]; [done|]. rewrite <-Hs. setoid_rewrite (rows_by_group g _ Hg). split.
    + intros (grp & Hg' & Hw). apply padded_group_spec in Hw as (c & p & k & (Hc' & Hp & Hk) & Hw); [|done..|lia].
      exists (grp * packing_factor g + p), c, k. split; [|done]. split_and!; [by exists grp, p|lia..].
    + intros (r & c & k & ((grp & p & Hg' & Hp & ->) & Hc' & Hk) & Hw). exists grp. split; [done|]. apply padded_group_spec; [done..|lia|]. by exists c, p, k.
Qed.

(** ** All tiles *)

Lemma num_tiles_pos g : good g -> 0 < num_tiles_0 g ∧ 0 < num_tiles_1 g.
Proof. intros Hg. split; apply ceil_pos; apply Hg. Qed.

Lemma schedule_spec threads g t (task : Z -> Z -> Stores) w :
  0 < chunk_size g -> 0 <= t ->
  w ∈ concat (schedule threads g t task) <->
  exists i, t * chunk_size g <= i < Z.min ((t + Z.of_nat threads) * chunk_size g) (total_tasks g) ∧ w ∈ task (i / num_tiles_0 g) (i mod num_tiles_0 g).
Proof.
  intros Hc. revert t. induction threads as [|threads IH]; intros t Ht.
  { cbn. split; [by intros ?%elem_of_nil|intros (i & Hi & _); lia]. }
  cbn [schedule]. destruct (Z.leb_spec (Z.min (t * chunk_size g + chunk_size g) (total_tasks g)) (t * chunk_size g)) as [Hle|Hgt].
  { split; [by intros ?%elem_of_nil|intros (i & Hi & _); nia]. }
  cbn [concat]. rewrite elem_of_app, IH by lia. unfold chunk. rewrite elem_of_loop. replace (t + 1 + Z.of_nat threads) with (t + Z.of_nat (S threads)) by lia. split.
  - intros [(i & Hi & Hw)|(i & Hi & Hw)]; exists i; (split; [nia|done]).
  - intros (i & Hi & Hw). destruct (decide (i < t * chunk_size g + chunk_size g)); [left|right]; exists i; (split; [nia|done]).
Qed.

(** Whether in order or in chunks, every row of tiles is one task. *)
Lemma over_tasks_spec g (task : Z -> Z -> Stores) w :
  good g -> w ∈ over_tasks g task <-> exists b tr, 0 <= b < batch_size g ∧ 0 <= tr < num_tiles_0 g ∧ w ∈ task b tr.
Proof.
  intros Hg. destruct (num_tiles_pos g Hg) as [H0 _]. unfold over_tasks. destruct (sequential g) eqn:Es.
  - rewrite elem_of_loop. setoid_rewrite elem_of_loop. split; [intros (b & ? & tr & ? & ?)|intros (b & tr & ? & ? & ?)]; exists b; [by exists tr|split; [done|by exists tr]].
  - unfold sequential in Es. to_prop. destruct Es as [_ Ht]. assert (Hc : 0 < chunk_size g) by (apply ceil_pos; unfold kMaxNumThreads; lia).
    rewrite schedule_spec by lia. pose proof (ceil_covers (total_tasks g) kMaxNumThreads ltac:(unfold kMaxNumThreads; lia)) as Hcov.
    change (CeilOfRatio (total_tasks g) kMaxNumThreads) with (chunk_size g) in Hcov. change (Z.of_nat (Z.to_nat kMaxNumThreads)) with kMaxNumThreads.
    assert (Hall : forall i, 0 * chunk_size g <= i < Z.min ((0 + kMaxNumThreads) * chunk_size g) (total_tasks g) <-> 0 <= i < batch_size g * num_tiles_0 g)
      by (intros i; unfold total_tasks in *; lia).
    setoid_rewrite Hall. split.
    + intros (i & Hi & Hw). apply (split_range _ _ _ H0) in Hi as (b & tr & Hb & Htr & ->). exists b, tr. split_and!; [lia..|].
      rewrite Z.div_add_l, (Z.div_small tr), Z.add_0_r in Hw by lia. by rewrite Z.add_comm, Z.mod_add, Z.mod_small in Hw by lia.
    + intros (b & tr & Hb & Htr & Hw). exists (b * num_tiles_0 g + tr). split; [apply split_range; [done|]; by exists b, tr|].
      rewrite Z.div_add_l, (Z.div_small tr), Z.add_0_r by lia. by rewrite Z.add_comm, Z.mod_add, Z.mod_small by lia.
Qed.

(** The pool runs as many closures as the counter waits for. *)
Lemma schedule_counts g (task : Z -> Z -> Stores) :
  good g -> sequential g = false -> Z.of_nat (length (schedule (Z.to_nat kMaxNumThreads) g 0 task)) = num_chunks g.
Proof.
  intros Hg Es. unfold sequential in Es. to_prop. destruct Es as [_ Ht]. assert (Hc : 0 < chunk_size g) by (apply ceil_pos; unfold kMaxNumThreads; lia).
  assert (Hlen : forall threads t, 0 <= t -> Z.of_nat (length (schedule threads g t task)) = Z.max 0 (Z.min (Z.of_nat threads) (num_chunks g - t))).
  { induction threads as [|threads IH]; intros t Ht0; [cbn; lia|]. cbn [schedule].
    change (num_chunks g) with (CeilOfRatio (total_tasks g) (chunk_size g)) in *.
    pose proof (ceil_covers (total_tasks g) (chunk_size g) Hc) as Hcov. pose proof (ceil_tight (total_tasks g) (chunk_size g) t Hc) as Htight.
    destruct (Z.leb_spec (Z.min (t * chunk_size g + chunk_size g) (total_tasks g)) (t * chunk_size g)) as [Hle|Hgt]; cbn [length].
    - assert (CeilOfRatio (total_tasks g) (chunk_size g) <= t) by lia. lia.
    - rewrite Nat2Z.inj_succ, IH by lia. assert (t < CeilOfRatio (total_tasks g) (chunk_size g)) by nia. lia. }
  rewrite Hlen by lia. change (num_chunks g) with (CeilOfRatio (total_tasks g) (chunk_size g)).
  assert (Hle : CeilOfRatio (total_tasks g) (chunk_size g) <= kMaxNumThreads).
  { apply Z.le_ngt. intros Hgt. pose proof (ceil_tight (total_tasks g) (chunk_size g) kMaxNumThreads Hc ltac:(unfold kMaxNumThreads in *; lia)) as Htight.
    pose proof (ceil_covers (total_tasks g) kMaxNumThreads ltac:(unfold kMaxNumThreads; lia)) as Hcov. change (CeilOfRatio (total_tasks g) kMaxNumThreads) with (chunk_size g) in Hcov. lia. }
  pose proof (ceil_pos (total_tasks g) (chunk_size g) ltac:(lia) Hc). lia.
Qed.

(** A tile without padding is interior. *)
Lemma unpadded_interior g tr tc : good g -> has_padding g = false -> 0 <= tr < num_tiles_0 g -> 0 <= tc < num_tiles_1 g ->
  tr * tile_H g + tile_H g <= H g ∧ tc * tile_W g + tile_W g <= W g.
Proof.
  intros Hg Hp Htr Htc. unfold has_padding in Hp. to_prop. destruct Hp as [Hp1 Hp2].
  pose proof (ceil_exact (H g) (tile_H g) (good_tile_H g Hg) Hp1) as E1. pose proof (ceil_exact (W g) (tile_W g) (good_tile_W g Hg) Hp2) as E2.
  fold (num_tiles_0 g) in E1. fold (num_tiles_1 g) in E2. pose proof (good_tile_H g Hg). pose proof (good_tile_W g Hg). split; nia.
Qed.

Definition in_tiles (g : Geometry) (b tr tc : Z) : Prop := 0 <= b < batch_size g ∧ 0 <= tr < num_tiles_0 g ∧ 0 <= tc < num_tiles_1 g.
Definition all_cells (g : Geometry) (src : Buffer) (w : Z * Z) : Prop := exists b tr tc, in_tiles g b tr tc ∧ tile_cells g src b tr tc w.
(** The rows of the padded tiles are whole vectors. *)
Definition whole_vectors (g : Geometry) : Prop :=
  packing_factor g = 1 -> has_padding g = true -> H g <> 1 -> (tile_W g * itemsize g) mod N8 = 0.

Lemma tile_task_spec g src b tr w :
  good g -> (packing_factor g = 1 -> has_padding g = true -> (tile_W g * itemsize g) mod N8 = 0) -> 0 <= tr < num_tiles_0 g ->
  w ∈ tile_task N8 N16 g src b tr <-> exists tc, 0 <= tc < num_tiles_1 g ∧ tile_cells g src b tr tc w.
Proof.
  intros Hg Hvec Htr. unfold tile_task. rewrite elem_of_loop, dispatch_packing by done. fold (row_bytes_tag g).
  assert (Hone : forall tc, 0 <= tc < num_tiles_1 g ->
    w ∈ (if negb (has_padding g) || interior g tr tc
         then CopyTilePackedNoPadding N8 N16 g (packing_factor g) (row_bytes_tag g) src (b * matrix_size_bytes g) (tile_origin g b tr tc) tr tc
         else CopyTilePackedWithPadding N8 g (packing_factor g) src (b * matrix_size_bytes g) (tile_origin g b tr tc) tr tc) <-> tile_cells g src b tr tc w).
  { intros tc Htc. destruct (negb (has_padding g) || interior g tr tc) eqn:Ei.
    - assert (tr * tile_H g + tile_H g <= H g ∧ tc * tile_W g + tile_W g <= W g) as [? ?]; [|by apply copy_nopad_spec].
      destruct (has_padding g) eqn:Ep; [|by apply unpadded_interior]. cbn in Ei. unfold interior in Ei. to_prop. lia.
    - destruct (has_padding g) eqn:Ep; [|done]. apply copy_padded_spec; [done| |by auto]. apply ceil_tight; [apply Hg|done]. }
  unfold tile_origin in Hone. split; intros (tc & Htc & Hw); exists tc; (split; [done|]); by apply Hone.
Qed.

(** The single row of a one-dimensional tensor: the bytes of a tile, of which the first are valid. *)
Lemma vector_byte g src b tc r c k :
  good g -> H g = 1 -> 0 <= tc * tile_W g -> in_tile g r c k ->
  padded g src b (0 * tile_H g + r) (tc * tile_W g + c) k =
  if (r * tile_W g + c) * itemsize g + k <? Z.min (tile_W g) (W g - tc * tile_W g) * itemsize g
  then src (b * matrix_size_bytes g + tc * tile_W g * itemsize g + ((r * tile_W g + c) * itemsize g + k)) else 0.
Proof.
  intros Hg HH Htc (Hr & Hc & Hk). rewrite valid_byte by done. destruct (decide (r = 0)) as [->|Hr0].
  - destruct (Z.ltb_spec (0 * tile_W g + c) (Z.min (tile_W g) (W g - tc * tile_W g))); [|rewrite padded_outside by lia; done].
    rewrite padded_inside, <-matrix_cell by lia. unfold row_at. f_equal. ring.
  - rewrite padded_outside by lia. destruct (Z.ltb_spec (r * tile_W g + c) (Z.min (tile_W g) (W g - tc * tile_W g))); [nia|done].
Qed.
Lemma vector_cells g src b tc o v :
  good g -> packing_factor g = 1 -> H g = 1 -> 0 <= tc ->
  tile_cells g src b 0 tc (o, v) <-> exists i, 0 <= i < tile_size_bytes g ∧ o = tile_origin g b 0 tc + i ∧
    v = if i <? Z.min (tile_W g) (W g - tc * tile_W g) * itemsize g then src (b * matrix_size_bytes g + tc * tile_W g * itemsize g + i) else 0.
Proof.
  intros Hg HP HH Htc. pose proof (good_tile_W g Hg) as HtW. pose proof (good_item g Hg) as His. assert (Ht : 0 <= tc * tile_W g) by nia.
  unfold tile_cells. setoid_rewrite <-tile_cell. setoid_rewrite (within_unpacked g _ _ HP). split.
  - intros (r & c & k & Hin & [= -> ->]). exists ((r * tile_W g + c) * itemsize g + k). rewrite (vector_byte g src b tc r c k) by done.
    destruct Hin as (Hr & Hc & Hk). split; [|split; [lia|done]]. unfold tile_size_bytes. apply split_range; [done|].
    exists (r * tile_W g + c), k. split; [|done]. apply split_range; [done|]. by exists r, c.
  - intros (i & Hi & -> & ->). unfold tile_size_bytes in Hi. rewrite split_range in Hi by done. destruct Hi as (rc & k & Hrc & Hk & ->).
    rewrite split_range in Hrc by done. destruct Hrc as (r & c & Hr & Hc & ->). exists r, c, k. split; [done|]. rewrite vector_byte by done. f_equal. lia.
Qed.
(** A guarded [memset] of the bytes from [lo] to [hi]. *)
Lemma guarded_memset (guard : bool) d lo hi n o v :
  n = hi - lo -> (guard = false -> hi <= lo) -> (o, v) ∈ (if guard then memset (d + lo) n else []) <-> exists i, lo <= i < hi ∧ o = d + i ∧ v = 0.
Proof.
  intros -> Hguard. destruct guard; [rewrite elem_of_memset|split; [by intros ?%elem_of_nil|intros (i & ? & _); lia]].
  split; intros (i & Hi & -> & ->); [exists (lo + i)|exists (i - lo)]; split_and!; lia.
Qed.
Lemma tile_vector_spec g src b tc w :
  good g -> packing_factor g = 1 -> H g = 1 -> 0 <= tc < num_tiles_1 g ->
  w ∈ tile_vector g src b tc <-> tile_cells g src b 0 tc w.
Proof.
  intros Hg HP HH Htc. destruct w as [o v]. pose proof (good_tile_W g Hg) as HtW. pose proof (good_item g Hg) as His. pose proof (good_tile_H g Hg) as HtH.
  assert (Hlt : tc * tile_W g < W g) by (apply ceil_tight; [apply Hg|done]).
  rewrite vector_cells by (done || lia). unfold tile_vector, tile_origin, tile_size_bytes. set (valid := Z.min (tile_W g) (W g - tc * tile_W g)).
  destruct (Z.ltb_spec 0 valid); [|lia]. replace ((0 * num_tiles_1 g + tc) * _) with (tc * (tile_H g * tile_W g * itemsize g)) by lia.
  set (d := b * tiled_matrix_size_bytes g + tc * (tile_H g * tile_W g * itemsize g)).
  assert (Hv : valid * itemsize g <= tile_W g * itemsize g) by nia. assert (Ht : tile_W g * itemsize g <= tile_H g * tile_W g * itemsize g) by nia.
  rewrite !elem_of_app, elem_of_memcpy, (guarded_memset _ d (valid * itemsize g) (tile_W g * itemsize g)),
    (guarded_memset _ d (tile_W g * itemsize g) (tile_H g * tile_W g * itemsize g)); [|lia|intros ?; to_prop; nia|lia|intros ?; to_prop; nia]. split.
  - intros [[(i & Hi & -> & ->)|(i & Hi & -> & ->)]|(i & Hi & -> & ->)]; exists i; (split_and!; [lia..|]); destruct (Z.ltb_spec i (valid * itemsize g)); done || lia.
  - intros (i & Hi & -> & ->). destruct (Z.ltb_spec i (valid * itemsize g)); [left; left; exists i; split_and!; done || lia|].
    destruct (decide (i < tile_W g * itemsize g)); [left; right|right]; exists i; split_and!; done || lia.
Qed.

(** ** Offsets as positions *)

Definition in_matrix (g : Geometry) (b row col k : Z) : Prop := 0 <= b < batch_size g ∧ 0 <= row < H g ∧ 0 <= col < W g ∧ 0 <= k < itemsize g.

Lemma linear_offset_range g o : good g ->
  0 <= o < batch_size g * matrix_size_bytes g <-> exists b row col k, in_matrix g b row col k ∧ o = linear_offset g b row col k.
Proof.
  intros Hg. destruct Hg as [_ HH HW Hi _ _ _]. unfold matrix_size_bytes, linear_offset, in_matrix.
  replace (batch_size g * (H g * W g * itemsize g)) with (batch_size g * H g * W g * itemsize g) by ring.
  rewrite split_range by done. setoid_rewrite (split_range _ _ _ HW). setoid_rewrite (split_range _ _ _ HH). split.
  - intros (a & k & (a' & col & (b & row & Hb & Hr & ->) & Hc & ->) & Hk & ->). by exists b, row, col, k.
  - intros (b & row & col & k & (Hb & Hr & Hc & Hk) & ->). exists ((b * H g + row) * W g + col), k. split; [|done].
    exists (b * H g + row), col. split; [|done]. by exists b, row.
Qed.
Lemma linear_offset_inj g b row col k b' row' col' k' :
  in_matrix g b row col k -> in_matrix g b' row' col' k' -> linear_offset g b row col k = linear_offset g b' row' col' k' ->
  b = b' ∧ row = row' ∧ col = col' ∧ k = k'.
Proof.
  intros (Hb & Hr & Hc & Hk) (Hb' & Hr' & Hc' & Hk') E. apply digits_unique in E as [E ->]; [|done..].
  apply digits_unique in E as [E ->]; [|done..]. by apply digits_unique in E as [-> ->].
Qed.

Lemma within_range g i : good g -> 0 <= i < tile_H g * tile_W g <-> exists r c, 0 <= r < tile_H g ∧ 0 <= c < tile_W g ∧ i = within g r c.
Proof.
  intros Hg. pose proof (packing_pos g Hg) as HP. pose proof (good_tile_W g Hg) as HtW. rewrite <-(packed_groups g Hg) at 1.
  replace (tile_H g / packing_factor g * packing_factor g * tile_W g) with (tile_H g / packing_factor g * tile_W g * packing_factor g) by ring.
  rewrite split_range by done. setoid_rewrite (split_range _ _ _ HtW). setoid_rewrite (rows_by_group g _ Hg). split.
  - intros (a & p & (grp & c & Hgrp & Hc & ->) & Hp & ->). exists (grp * packing_factor g + p), c. rewrite within_packed by done. split; [by exists grp, p|done].
  - intros (r & c & (grp & p & Hgrp & Hp & ->) & Hc & ->). rewrite within_packed by done. exists (grp * tile_W g + c), p. split; [by exists grp, c|done].
Qed.
Lemma within_inj g r c r' c' : good g -> 0 <= c < tile_W g -> 0 <= c' < tile_W g -> within g r c = within g r' c' -> r = r' ∧ c = c'.
Proof.
  intros Hg Hc Hc' E. pose proof (packing_pos g Hg) as HP. unfold within in E.
  apply digits_unique in E as [E Em]; [|by apply Z.mod_pos_bound..]. apply digits_unique in E as [Ed ->]; [|done..].
  split; [|done]. rewrite (Z.div_mod r (packing_factor g)), (Z.div_mod r' (packing_factor g)) by lia. by rewrite Ed, Em.
Qed.

Lemma tiled_offset_range g o : good g ->
  0 <= o < batch_size g * tiled_matrix_size_bytes g <-> exists b tr tc r c k, in_tiles g b tr tc ∧ in_tile g r c k ∧ o = tiled_offset g b tr tc r c k.
Proof.
  intros Hg. destruct (num_tiles_pos g Hg) as [H0 H1]. pose proof (good_tile_W g Hg). pose proof (good_tile_H g Hg).
  assert (Ht : 0 < tile_H g * tile_W g) by nia. unfold tiled_matrix_size_bytes, tile_size_bytes, tiled_offset, in_tiles, in_tile.
  replace (batch_size g * (num_tiles_0 g * num_tiles_1 g * (tile_H g * tile_W g * itemsize g)))
    with (batch_size g * num_tiles_0 g * num_tiles_1 g * (tile_H g * tile_W g) * itemsize g) by ring.
  rewrite split_range by apply Hg. setoid_rewrite (split_range _ _ _ Ht). setoid_rewrite (split_range _ _ _ H1).
  setoid_rewrite (split_range _ _ _ H0). setoid_rewrite (within_range g _ Hg). split.
  - intros (a & k & (a1 & a2 & (a3 & tc & (b & tr & Hb & Htr & ->) & Htc & ->) & (r & c & Hr & Hc & ->) & ->) & Hk & ->). by exists b, tr, tc, r, c, k.
  - intros (b & tr & tc & r & c & k & (Hb & Htr & Htc) & (Hr & Hc & Hk) & ->).
    exists (((b * num_tiles_0 g + tr) * num_tiles_1 g + tc) * (tile_H g * tile_W g) + within g r c), k. split; [|done].
    exists ((b * num_tiles_0 g + tr) * num_tiles_1 g + tc), (within g r c). split; [|split; [by exists r, c|done]].
    exists (b * num_tiles_0 g + tr), tc. split; [|done]. by exists b, tr.
Qed.
Lemma tiled_offset_inj g b tr tc r c k b' tr' tc' r' c' k' :
  good g -> in_tiles g b tr tc -> in_tile g r c k -> in_tiles g b' tr' tc' -> in_tile g r' c' k' ->
  tiled_offset g b tr tc r c k = tiled_offset g b' tr' tc' r' c' k' -> (b = b' ∧ tr = tr' ∧ tc = tc') ∧ r = r' ∧ c = c' ∧ k = k'.
Proof.
  intros Hg (Hb & Htr & Htc) (Hr & Hc & Hk) (Hb' & Htr' & Htc') (Hr' & Hc' & Hk') E.
  apply digits_unique in E as [E ->]; [|done..]. apply digits_unique in E as [E Ew]; [|apply (within_range g _ Hg); by exists r, c|apply (within_range g _ Hg); by exists r', c'].
  apply within_inj in Ew as [-> ->]; [|done..]. apply digits_unique in E as [E ->]; [|done..]. by apply digits_unique in E as [-> ->].
Qed.

(** The tile of an element. *)
Lemma elements_by_tile g b row col k : good g ->
  in_matrix g b row col k <->
  exists tr tc r c, in_tiles g b tr tc ∧ in_tile g r c k ∧ row = tr * tile_H g + r ∧ col = tc * tile_W g + c ∧ row < H g ∧ col < W g.
Proof.
  intros Hg. pose proof (good_tile_H g Hg) as HtH. pose proof (good_tile_W g Hg) as HtW. unfold in_matrix, in_tiles, in_tile. split.
  - intros (Hb & Hr & Hc & Hk). pose proof (ceil_covers (H g) (tile_H g) HtH). pose proof (ceil_covers (W g) (tile_W g) HtW).
    assert (0 <= row < num_tiles_0 g * tile_H g) as (tr & r & Htr & Hr' & ->)%(split_range _ _ _ HtH) by (done || unfold num_tiles_0; lia).
    assert (0 <= col < num_tiles_1 g * tile_W g) as (tc & c & Htc & Hc' & ->)%(split_range _ _ _ HtW) by (done || unfold num_tiles_1; lia).
    exists tr, tc, r, c. split_and!; lia || done.
  - intros (tr & tc & r & c & (Hb & Htr & Htc) & (Hr & Hc & Hk) & -> & -> & Hlr & Hlc). split_and!; lia || nia.
Qed.

(** Buffers whose tiles are whole rows are copied as they are. *)
Lemma fast_path_offset g b tr tc r c k : good g -> fast_path g = true -> in_tiles g b tr tc -> in_tile g r c k ->
  tiled_offset g b tr tc r c k = linear_offset g b (tr * tile_H g + r) (tc * tile_W g + c) k.
Proof.
  intros Hg Hf (Hb & Htr & Htc) (Hr & Hc & Hk). unfold fast_path in Hf. to_prop. destruct Hf as [[HP Hpad] Hcase].
  unfold has_padding in Hpad. to_prop. destruct Hpad as [Hp1 Hp2].
  pose proof (ceil_exact (H g) (tile_H g) (good_tile_H g Hg) Hp1) as E1. pose proof (ceil_exact (W g) (tile_W g) (good_tile_W g Hg) Hp2) as E2.
  fold (num_tiles_0 g) in E1. fold (num_tiles_1 g) in E2. pose proof (good_tile_W g Hg).
  unfold tiled_offset, linear_offset. rewrite within_unpacked by done. do 2 f_equal. destruct Hcase as [HW|[HH HtH]].
  - assert (num_tiles_1 g = 1) as E by nia. rewrite E in *. assert (tc = 0) as -> by lia. rewrite <-E1, HW. ring.
  - rewrite HtH in *. assert (num_tiles_0 g = 1) as E by lia. rewrite E in *. assert (tr = 0) as -> by lia. assert (r = 0) as -> by lia. rewrite HH, <-E2. ring.
Qed.
Lemma fast_path_unpadded g : fast_path g = true -> has_padding g = false.
Proof. unfold fast_path. intros. to_prop. tauto. Qed.
Lemma fast_path_size g : good g -> fast_path g = true -> batch_size g * matrix_size_bytes g = batch_size g * tiled_matrix_size_bytes g.
Proof.
  intros Hg Hf%fast_path_unpadded. unfold has_padding in Hf. to_prop. destruct Hf as [Hp1 Hp2].
  pose proof (ceil_exact (H g) (tile_H g) (good_tile_H g Hg) Hp1) as E1. pose proof (ceil_exact (W g) (tile_W g) (good_tile_W g Hg) Hp2) as E2.
  unfold matrix_size_bytes, tiled_matrix_size_bytes, tile_size_bytes, num_tiles_0, num_tiles_1. rewrite <-E1, <-E2 at 1. ring.
Qed.

(** Tiling stores every cell of every tile, and nothing else. *)
Lemma tile_buffer_spec g src w : good g -> whole_vectors g -> w ∈ TileBufferNDOptimized N8 N16 g src <-> all_cells g src w.
Proof.
  intros Hg Hvec. unfold TileBufferNDOptimized, all_cells. destruct (fast_path g) eqn:Ef.
  - destruct w as [o v]. rewrite elem_of_memcpy, fast_path_size by done. setoid_rewrite (tiled_offset_range g _ Hg).
    assert (Hval : forall b tr tc r c k, in_tiles g b tr tc -> in_tile g r c k ->
      padded g src b (tr * tile_H g + r) (tc * tile_W g + c) k = src (tiled_offset g b tr tc r c k)).
    { intros b tr tc r c k Ht Hc. rewrite fast_path_offset by done. apply fast_path_unpadded in Ef. destruct Ht as (? & Htr & Htc), Hc as (? & ? & ?).
      destruct (unpadded_interior g tr tc Hg Ef Htr Htc). apply padded_inside; lia. }
    split.
    + intros (i & (b & tr & tc & r & c & k & Ht & Hc & ->) & -> & ->). exists b, tr, tc. split; [done|]. exists r, c, k. split; [done|]. by rewrite Hval.
    + intros (b & tr & tc & Ht & r & c & k & Hc & [= -> ->]). exists (tiled_offset g b tr tc r c k). split; [by exists b, tr, tc, r, c, k|]. by rewrite Hval.
  - destruct ((packing_factor g =? 1) && (H g =? 1)) eqn:E1.
    + to_prop. destruct E1 as [HP HH]. rewrite elem_of_loop. setoid_rewrite elem_of_loop.
      assert (Hn : num_tiles_0 g = 1).
      { unfold num_tiles_0, CeilOfRatio. rewrite HH. pose proof (good_tile_H g Hg). replace (1 + tile_H g - 1) with (tile_H g) by lia. apply Z.div_same. lia. }
      unfold in_tiles. rewrite Hn. split.
      * intros (b & Hb & tc & Htc & Hw). exists b, 0, tc. split; [lia|]. by apply tile_vector_spec.
      * intros (b & tr & tc & (Hb & Htr & Htc) & Hw). assert (tr = 0) as -> by lia. exists b. split; [done|]. exists tc. split; [done|]. by apply tile_vector_spec.
    + assert (Hvec' : packing_factor g = 1 -> has_padding g = true -> (tile_W g * itemsize g) mod N8 = 0).
      { intros HP Hpad. apply Hvec; [done..|]. intros HH. rewrite HP, HH in E1. done. }
      rewrite over_tasks_spec by done. split.
      * intros (b & tr & Hb & Htr & Hw). apply tile_task_spec in Hw as (tc & Htc & Hw); [|done..]. by exists b, tr, tc.
      * intros (b & tr & tc & (Hb & Htr & Htc) & Hw). exists b, tr. split; [done|]. split; [done|]. apply tile_task_spec; [done..|]. by exists tc.
Qed.

(** The buffer after tiling: the stores agree at every offset, in whatever order they are made. *)
Lemma tiled_cell_value g src ws m b tr tc r c k :
  good g -> whole_vectors g -> ws ≡ₚ TileBufferNDOptimized N8 N16 g src -> in_tiles g b tr tc -> in_tile g r c k ->
  run ws m (tiled_offset g b tr tc r c k) = padded g src b (tr * tile_H g + r) (tc * tile_W g + c) k.
Proof.
  intros Hg Hvec Hp Ht Hc. apply run_agreed.
  - rewrite Hp, tile_buffer_spec by done. exists b, tr, tc. split; [done|]. by exists r, c, k.
  - intros v' Hv'. rewrite Hp, tile_buffer_spec in Hv' by done. destruct Hv' as (b' & tr' & tc' & Ht' & r' & c' & k' & Hc' & [= E ->]).
    by apply tiled_offset_inj in E as [(-> & -> & ->) (-> & -> & ->)].
Qed.
Lemma tiled_outside g src ws m o :
  good g -> whole_vectors g -> ws ≡ₚ TileBufferNDOptimized N8 N16 g src -> ~ (0 <= o < batch_size g * tiled_matrix_size_bytes g) -> run ws m o = m o.
Proof.
  intros Hg Hvec Hp Ho. apply run_outside. intros v Hv. rewrite Hp, tile_buffer_spec in Hv by done. apply Ho. apply tiled_offset_range; [done|].
  destruct Hv as (b & tr & tc & Ht & r & c & k & Hc & [= -> ->]). by exists b, tr, tc, r, c, k.
Qed.

(** ** The way back *)

(** Every element of the tile that is not padding. *)
Definition element_cells (g : Geometry) (src : Buffer) (b tr tc : Z) (w : Z * Z) : Prop :=
  exists r c k, in_tile g r c k ∧ (tr * tile_H g + r < H g ∧ tc * tile_W g + c < W g) ∧
    w = (linear_offset g b (tr * tile_H g + r) (tc * tile_W g + c) k, src (tiled_offset g b tr tc r c k)).

Lemma detile_nopad_spec g src b tr tc w :
  good g -> tr * tile_H g + tile_H g <= H g -> tc * tile_W g + tile_W g <= W g ->
  w ∈ DetileSingleTilePackedNoPadding N8 N16 g (packing_factor g) (row_bytes_tag g) src (tile_origin g b tr tc) (b * matrix_size_bytes g) tr tc <->
  element_cells g src b tr tc w.
Proof.
  intros Hg Hr Hc. destruct w as [o v]. unfold DetileSingleTilePackedNoPadding, element_cells, in_tile. destruct (Z.eqb_spec (packing_factor g) 1) as [HP|HP].
  - rewrite row_stride, elem_of_loop by done. setoid_rewrite elem_of_memcpy. setoid_rewrite (bytes_by_column g _ Hg). split.
    + intros (r & Hr' & i & (c & k & Hc' & Hk & ->) & -> & ->). exists r, c, k. split_and!; [lia..|].
      rewrite <-matrix_cell, <-tile_cell, within_unpacked by done. f_equal; [lia|f_equal; lia].
    + intros (r & c & k & (Hr' & Hc' & Hk) & _ & [= -> ->]). exists r. split; [lia|]. exists (c * itemsize g + k). split; [by exists c, k|].
      rewrite <-matrix_cell, <-tile_cell, within_unpacked by done. split; [lia|f_equal; lia].
  - destruct (good_packing g Hg) as [|(HP2 & Hs & Hm)]; [done|]. rewrite elem_of_loop.
    assert (Hl : 0 < packed_lanes N8 N16 (packing_factor g)) by (unfold packed_lanes; by destruct (_ =? 2)).
    setoid_rewrite columns_spec; [|done|apply Z.lt_le_incl, Hg]. setoid_rewrite deinterleave_spec. setoid_rewrite (rows_by_group g _ Hg). rewrite <-Hs. split.
    + intros (grp & Hgrp & c & Hc' & p & k & row & Hp & Hk & [= <-] & -> & ->). exists (grp * packing_factor g + p), c, k.
      assert (0 <= grp * packing_factor g + p < tile_H g) by (apply (rows_by_group g _ Hg); by exists grp, p).
      split_and!; [by exists grp, p|lia..|]. rewrite <-matrix_cell, <-packed_cell by done. by rewrite <-Hs, (Z.add_assoc (tr * tile_H g)).
    + intros (r & c & k & ((grp & p & Hgrp & Hp & ->) & Hc' & Hk) & _ & [= -> ->]). exists grp. split; [done|]. exists c. split; [done|].
      exists p, k. eexists. split; [done|]. split; [done|]. split; [done|]. rewrite <-matrix_cell, <-packed_cell by done. by rewrite <-Hs, (Z.add_assoc (tr * tile_H g)).
Qed.

Lemma detile_padded_spec g src b tr tc w :
  good g -> tc * tile_W g < W g ->
  w ∈ DetileSingleTilePackedWithPadding N8 g (packing_factor g) src (tile_origin g b tr tc) (b * matrix_size_bytes g) tr tc <->
  element_cells g src b tr tc w.
Proof.
  intros Hg Hc. destruct w as [o v]. unfold DetileSingleTilePackedWithPadding, element_cells, in_tile. pose proof (good_tile_W g Hg) as HtW. pose proof (good_item g Hg) as His.
  set (valid := Z.min (tile_W g) (W g - tc * tile_W g)). destruct (Z.leb_spec valid 0); [lia|]. destruct (Z.eqb_spec (packing_factor g) 1) as [HP|HP].
  - rewrite elem_of_loop. split.
    + intros (r & Hr & Hw). destruct (Z.leb_spec (H g) (tr * tile_H g + r)); [by apply elem_of_nil in Hw|].
      rewrite DetileRow_spec in Hw by nia. destruct Hw as (i & Hi & -> & ->). apply (split_range _ _ _ His) in Hi as (c & k & Hc' & Hk & ->).
      exists r, c, k. split_and!; [lia..|]. rewrite <-matrix_cell, <-tile_cell, within_unpacked by done. f_equal; [lia|f_equal; lia].
    + intros (r & c & k & (Hr & Hc' & Hk) & [Hin Hin'] & [= -> ->]). exists r. split; [done|]. destruct (Z.leb_spec (H g) (tr * tile_H g + r)); [lia|].
      rewrite DetileRow_spec by nia. exists (c * itemsize g + k). split; [apply split_range; [done|]; exists c, k; split_and!; lia|].
      rewrite <-matrix_cell, <-tile_cell, within_unpacked by done. split; [lia|f_equal; lia].
  - destruct (good_packing g Hg) as [|(_ & Hs & _)]; [done|]. rewrite <-Hs, elem_of_loop. setoid_rewrite (rows_by_group g _ Hg). split.
    + intros (grp & Hgrp & Hw). destruct (Z.leb_spec (H g) (tr * tile_H g + grp * packing_factor g)); [by apply elem_of_nil in Hw|].
      apply elem_of_loop in Hw as (c & Hc' & Hw). apply deinterleave_spec in Hw as (p & k & row & Hp & Hk & Hrow & -> & ->).
      destruct (Z.ltb_spec (tr * tile_H g + grp * packing_factor g + p) (H g)); [|done]. injection Hrow as <-.
      exists (grp * packing_factor g + p), c, k. split_and!; [by exists grp, p|lia..|]. rewrite <-matrix_cell, <-packed_cell by done. by rewrite <-Hs, (Z.add_assoc (tr * tile_H g)).
    + intros (r & c & k & ((grp & p & Hgrp & Hp & ->) & Hc' & Hk) & [Hin Hin'] & [= -> ->]). exists grp. split; [done|].
      destruct (Z.leb_spec (H g) (tr * tile_H g + grp * packing_factor g)); [lia|]. apply elem_of_loop. exists c. split; [lia|]. apply deinterleave_spec.
      exists p, k. eexists. split; [done|]. split; [done|]. destruct (Z.ltb_spec (tr * tile_H g + grp * packing_factor g + p) (H g)); [|lia]. split; [done|].
      rewrite <-matrix_cell, <-packed_cell by done. by rewrite <-Hs, (Z.add_assoc (tr * tile_H g)).
Qed.

Lemma detile_task_spec g src b tr w :
  good g -> 0 <= tr < num_tiles_0 g ->
  w ∈ detile_task N8 N16 g src b tr <-> exists tc, 0 <= tc < num_tiles_1 g ∧ element_cells g src b tr tc w.
Proof.
  intros Hg Htr. unfold detile_task. rewrite elem_of_loop, dispatch_packing by done. fold (row_bytes_tag g).
  assert (Hone : forall tc, 0 <= tc < num_tiles_1 g ->
    w ∈ (if negb (has_padding g) || interior g tr tc
         then DetileSingleTilePackedNoPadding N8 N16 g (packing_factor g) (row_bytes_tag g) src (tile_origin g b tr tc) (b * matrix_size_bytes g) tr tc
         else DetileSingleTilePackedWithPadding N8 g (packing_factor g) src (tile_origin g b tr tc) (b * matrix_size_bytes g) tr tc) <-> element_cells g src b tr tc w).
  { intros tc Htc. destruct (negb (has_padding g) || interior g tr tc) eqn:Ei.
    - assert (tr * tile_H g + tile_H g <= H g ∧ tc * tile_W g + tile_W g <= W g) as [? ?]; [|by apply detile_nopad_spec].
      destruct (has_padding g) eqn:Ep; [|by apply unpadded_interior]. cbn in Ei. unfold interior in Ei. to_prop. lia.
    - apply detile_padded_spec; [done|]. apply ceil_tight; [apply Hg|done]. }
  unfold tile_origin in Hone. split; intros (tc & Htc & Hw); exists tc; (split; [done|]); by apply Hone.
Qed.

Lemma single_row g : good g -> H g = 1 -> num_tiles_0 g = 1.
Proof.
  intros Hg HH. unfold num_tiles_0, CeilOfRatio. rewrite HH. pose proof (good_tile_H g Hg). replace (1 + tile_H g - 1) with (tile_H g) by lia. apply Z.div_same. lia.
Qed.
Lemma vector_elements g src b tc o v :
  good g -> packing_factor g = 1 -> H g = 1 -> 0 <= tc -> tc * tile_W g < W g ->
  (o, v) ∈ memcpy src (b * matrix_size_bytes g + tc * tile_W g * itemsize g) (b * tiled_matrix_size_bytes g + tc * tile_size_bytes g)
    (Z.min (tile_W g) (W g - tc * tile_W g) * itemsize g) <-> element_cells g src b 0 tc (o, v).
Proof.
  intros Hg HP HH Htc Hlt. pose proof (good_tile_H g Hg) as HtH. unfold element_cells, in_tile. rewrite elem_of_memcpy. setoid_rewrite (split_range _ _ _ (good_item g Hg)).
  setoid_rewrite <-tile_cell. setoid_rewrite <-matrix_cell. setoid_rewrite (within_unpacked g _ _ HP). unfold row_at, tile_origin. rewrite HH. split.
  - intros (i & (c & k & Hc & Hk & ->) & -> & ->). exists 0, c, k. split_and!; [lia..|]. f_equal; [ring|f_equal; ring].
  - intros (r & c & k & (Hr & Hc & Hk) & [Hin Hin'] & [= -> ->]). assert (r = 0) as -> by lia. exists (c * itemsize g + k).
    split; [exists c, k; split_and!; lia|]. split; [ring|f_equal; ring].
Qed.
Lemma detile_vector_spec g src b fuel tc w :
  good g -> packing_factor g = 1 -> H g = 1 -> 0 <= tc -> tc + Z.of_nat fuel <= num_tiles_1 g ->
  w ∈ detile_vector g src b fuel tc <-> exists tc', tc <= tc' < tc + Z.of_nat fuel ∧ element_cells g src b 0 tc' w.
Proof.
  intros Hg HP HH. revert tc. induction fuel as [|fuel IH]; intros tc Htc Hf.
  { cbn. split; [by intros ?%elem_of_nil|intros (i & Hi & _); lia]. }
  assert (Hlt : tc * tile_W g < W g) by (apply ceil_tight; [apply Hg|unfold num_tiles_1 in Hf; lia]). pose proof (good_tile_W g Hg).
  cbn [detile_vector]. destruct (Z.leb_spec (Z.min (tile_W g) (W g - tc * tile_W g)) 0); [lia|]. destruct w as [o v].
  rewrite elem_of_app, vector_elements, IH by (done || lia). split.
  - intros [Hw|(tc' & Ht & Hw)]; [exists tc|exists tc']; (split; [lia|done]).
  - intros (tc' & Ht & Hw). destruct (decide (tc' = tc)) as [->|]; [by left|right]. exists tc'. split; [lia|done].
Qed.

(** Detiling stores every element, and nothing else. *)
Lemma detile_buffer_spec g src w : good g ->
  w ∈ DetileBufferNDOptimized N8 N16 g src <-> exists b tr tc, in_tiles g b tr tc ∧ element_cells g src b tr tc w.
Proof.
  intros Hg. unfold DetileBufferNDOptimized. destruct (fast_path g) eqn:Ef.
  - destruct w as [o v]. rewrite elem_of_memcpy. setoid_rewrite (linear_offset_range g _ Hg). setoid_rewrite (elements_by_tile g _ _ _ _ Hg). split.
    + intros (i & (b & row & col & k & (tr & tc & r & c & Ht & Hc & -> & -> & Hin) & ->) & -> & ->). exists b, tr, tc. split; [done|]. exists r, c, k.
      split_and!; [apply Hc..|apply Hin|apply Hin|]. by rewrite fast_path_offset.
    + intros (b & tr & tc & Ht & r & c & k & Hc & Hin & [= -> ->]). exists (linear_offset g b (tr * tile_H g + r) (tc * tile_W g + c) k). split.
      * exists b, (tr * tile_H g + r), (tc * tile_W g + c), k. split; [|done]. exists tr, tc, r, c. by destruct Hin.
      * by rewrite fast_path_offset.
  - destruct ((packing_factor g =? 1) && (H g =? 1)) eqn:E1.
    + to_prop. destruct E1 as [HP HH]. rewrite elem_of_loop. destruct (num_tiles_pos g Hg). unfold in_tiles. rewrite (single_row g Hg HH). split.
      * intros (b & Hb & Hw). apply detile_vector_spec in Hw as (tc & Htc & Hw); [|done || lia..]. exists b, 0, tc. split; [lia|done].
      * intros (b & tr & tc & (Hb & Htr & Htc) & Hw). assert (tr = 0) as -> by lia. exists b. split; [done|].
        apply detile_vector_spec; [done || lia..|]. exists tc. split; [lia|done].
    + rewrite over_tasks_spec by done. split.
      * intros (b & tr & Hb & Htr & Hw). apply detile_task_spec in Hw as (tc & Htc & Hw); [|done..]. by exists b, tr, tc.
      * intros (b & tr & tc & (Hb & Htr & Htc) & Hw). exists b, tr. split; [done|]. split; [done|]. apply detile_task_spec; [done..|]. by exists tc.
Qed.

Lemma detiled_cell_value g src ws m b tr tc r c k :
  good g -> ws ≡ₚ DetileBufferNDOptimized N8 N16 g src -> in_tiles g b tr tc -> in_tile g r c k -> tr * tile_H g + r < H g -> tc * tile_W g + c < W g ->
  run ws m (linear_offset g b (tr * tile_H g + r) (tc * tile_W g + c) k) = src (tiled_offset g b tr tc r c k).
Proof.
  intros Hg Hp Ht Hc Hin Hin'. apply run_agreed.
  - rewrite Hp, detile_buffer_spec by done. exists b, tr, tc. split; [done|]. by exists r, c, k.
  - intros v' Hv'. rewrite Hp, detile_buffer_spec in Hv' by done. destruct Hv' as (b' & tr' & tc' & Ht' & r' & c' & k' & Hc' & [Hi Hi'] & [= E ->]).
    apply linear_offset_inj in E as (-> & Er & Ec & ->); [|apply (elements_by_tile g _ _ _ _ Hg); by eexists _, _, _, _..].
    destruct Hc as (Hr & Hcc & Hk), Hc' as (Hr' & Hcc' & Hk'). by apply digits_unique in Er as [-> ->], Ec as [-> ->].
Qed.

Lemma round_trip_spec g src ws m ws' m' o :
  good g -> whole_vectors g -> ws ≡ₚ TileBufferNDOptimized N8 N16 g src -> ws' ≡ₚ DetileBufferNDOptimized N8 N16 g (run ws m) ->
  run ws' m' o = if (0 <=? o) && (o <? batch_size g * matrix_size_bytes g) then src o else m' o.
Proof.
  intros Hg Hvec Hp Hp'. destruct ((0 <=? o) && (o <? batch_size g * matrix_size_bytes g)) eqn:Eo; to_prop.
  - apply (linear_offset_range g _ Hg) in Eo as (b & row & col & k & Hin & ->).
    apply (elements_by_tile g _ _ _ _ Hg) in Hin as (tr & tc & r & c & Ht & Hc & -> & -> & Hi & Hi').
    rewrite (detiled_cell_value g (run ws m)), (tiled_cell_value g src) by done. by apply padded_inside.
  - apply run_outside. intros v Hv. rewrite Hp', detile_buffer_spec in Hv by done.
    destruct Hv as (b & tr & tc & Ht & r & c & k & Hc & [Hi Hi'] & [= -> _]).
    assert (0 <= linear_offset g b (tr * tile_H g + r) (tc * tile_W g + c) k < batch_size g * matrix_size_bytes g); [|lia].
    apply linear_offset_range; [done|]. eexists _, _, _, _. split; [|done]. apply elements_by_tile; [done|]. by exists tr, tc, r, c.
Qed.

End lanes.

End TilingProofs.
