(* ===== verification/TilingShapes.v ===== *)
(** * Shapes of tiled buffers: what tiling promises of a shape

    The shape and its layout determine the geometry that the routines of Tiling.v work on.
    This file relates the sizes of a shape to those of its geometry and states what tiling
    and detiling promise: the tiled buffer holds exactly the padded elements for every
    interleaving of the pool's threads, and detiling gives the elements back. *)

From S2P Require Import Prelude Tiling TilingProofs.

Module TilingShapes.
Import Tiling TilingProofs.

(** ** Sizes of a shape *)

Lemma product_app l1 l2 : product (l1 ++ l2) = product l1 * product l2.
Proof. unfold product. induction l1 as [|x l1 IH]; cbn [app foldr]; [lia|]. rewrite IH. lia. Qed.
Lemma product_rev l : product (rev l) = product l.
Proof. induction l as [|x l IH]; [done|]. cbn [rev]. rewrite product_app, IH. unfold product. cbn [foldr]. lia. Qed.
Lemma product_nonneg l : Forall (fun d => 0 < d) l -> 0 < product l.
Proof. unfold product. induction 1; cbn [foldr]; [lia|nia]. Qed.

(** What makes a standard layout usable: positive extents, and packed rows only for elements
    that fill 32 bits with their packing. *)
Record sound (shape : Shape) : Prop := {
  sound_dimensions : Forall (fun d => 0 < d) (dimensions shape);
  sound_tiles : Forall (Forall (fun d => 0 < d)) (tiles (layout shape));
  sound_element : 0 < element_bytes shape;
  sound_packing : packing_factor (geometry shape) = 1 ∨ element_bytes shape = packed_size (packing_factor (geometry shape))
}.

Lemma standard_layout shape : IsStandardRowMajorTiled shape = true ->
  minor_to_major (layout shape) = rev (seq 0 (length (dimensions shape))) ∧ dimensions shape <> [] ∧
  exists tH tW, tiles (layout shape) = [[tH; tW]] ∨ exists P, tiles (layout shape) = [[tH; tW]; [P; 1]] ∧ (P = 2 ∨ P = 4) ∧ tH mod P = 0.
Proof.
  unfold IsStandardRowMajorTiled. intros Hs. to_prop. destruct Hs as [[Hn Hm] Ht]. split; [done|]. split; [by intros E; rewrite E in Hn|].
  destruct (tiles (layout shape)) as [|t0 [|t1 [|? ?]]]; try done.
  - destruct t0 as [|tH [|tW [|? ?]]]; try done. exists tH, tW. by left.
  - destruct t0 as [|tH [|tW [|? ?]]]; try done. destruct t1 as [|P [|sub_W [|? ?]]]; try done. exists tH, tW. right. exists P. cbn in Ht. to_prop. destruct Ht as [[-> HP] Hm2]. done.
Qed.

(** Minor to major is last to first. *)
Lemma minor_spec shape i : minor_to_major (layout shape) = rev (seq 0 (length (dimensions shape))) -> (i < length (dimensions shape))%nat ->
  minor shape i = nth i (rev (dimensions shape)) 1.
Proof.
  intros Em Hi. unfold minor, dim. rewrite Em, (rev_nth (seq _ _)), (rev_nth (dimensions shape)) by (rewrite ?length_seq; done).
  rewrite length_seq, seq_nth by lia. done.
Qed.
Lemma minor_dimensions shape : minor_to_major (layout shape) = rev (seq 0 (length (dimensions shape))) ->
  minor shape <$> seq 0 (length (dimensions shape)) = rev (dimensions shape).
Proof.
  intros Em. apply (nth_ext _ _ 1 1); [by rewrite length_fmap, length_seq, length_rev|]. intros i Hi. rewrite length_fmap, length_seq in Hi.
  rewrite (nth_indep _ 1 (minor shape 0)) by (by rewrite length_fmap, length_seq).
  change (nth i (map (minor shape) (seq 0 (length (dimensions shape)))) (minor shape 0) = nth i (rev (dimensions shape)) 1).
  rewrite map_nth, seq_nth by done. by apply minor_spec.
Qed.

(** A shape is a batch of matrices; a one-dimensional one is a single row. *)
Lemma shape_matrix shape : IsStandardRowMajorTiled shape = true ->
  exists pre h w, product (dimensions shape) = product (pre ++ [h; w]) ∧
    (Forall (fun d => 0 < d) (dimensions shape) -> Forall (fun d => 0 < d) (pre ++ [h; w])) ∧
    batch_size (geometry shape) = product pre ∧ H (geometry shape) = h ∧ W (geometry shape) = w ∧
    GetTiledBufferElements shape = product (foldl tile_dimensions (pre ++ [h; w]) (tiles (layout shape))).
Proof.
  intros (Em & Hne & _)%standard_layout. pose proof (minor_dimensions shape Em) as Hd. unfold geometry, GetTiledBufferElements. cbn [batch_size H W].
  destruct (dimensions shape) as [|n [|n2 rest]] eqn:Ed; [done| |].
  - injection Hd as Hm. exists [], 1, n. split; [unfold product; cbn [app foldr]; lia|]. split; [intros Hf; by constructor; [lia|]|]. cbn [length Nat.sub Nat.eqb seq fmap list_fmap]. by rewrite Hm.
  - destruct (exists_last (l := n :: n2 :: rest)) as (init & w & E); [done|]. destruct (exists_last (l := init)) as (pre & h & E').
    { intros ->. by injection E. }
    rewrite E', <-app_assoc in E. cbn [app] in E. exists pre, h, w. rewrite <-E. rewrite E in Hd at 2. rewrite rev_app_distr in Hd.
    cbn [length seq fmap list_fmap rev app] in Hd. injection Hd as Hw Hh Hpre.
    cbn [length Nat.sub Nat.eqb]. rewrite Nat.sub_0_r, Hpre, Hw, Hh, product_rev. split_and!; [done..|]. do 2 f_equal.
    change (map (minor shape) (rev (seq 0 (length (n :: n2 :: rest)))) = n :: n2 :: rest). rewrite map_rev, <-Ed. change (map ?f ?l) with (f <$> l).
    rewrite minor_dimensions, rev_involutive; [done|by rewrite Ed].
Qed.

Lemma product_positive_good shape : IsStandardRowMajorTiled shape = true -> sound shape -> good (geometry shape).
Proof.
  intros Hs [Hd Ht He Hp]. destruct (shape_matrix shape Hs) as (pre & h & w & _ & Hpos & Eb & EH & EW & _).
  specialize (Hpos Hd). apply Forall_app in Hpos as [Hpre Hhw]. rewrite !Forall_cons in Hhw. destruct Hhw as (? & ? & _).
  apply standard_layout in Hs as (_ & _ & tH & tW & Hs). constructor.
  - rewrite Eb. by apply Z.lt_le_incl, product_nonneg.
  - by rewrite EH.
  - by rewrite EW.
  - done.
  - cbn. destruct Hs as [E|(P & E & _)]; rewrite E in *; rewrite !Forall_cons in Ht; cbn; tauto.
  - cbn. destruct Hs as [E|(P & E & _)]; rewrite E in *; rewrite !Forall_cons in Ht; cbn; tauto.
  - cbn in Hp |- *. destruct Hs as [E|(P & E & HP & Hm)]; rewrite E in *; [by left|right]. cbn in Hp |- *. destruct Hp as [|Hp]; [lia|done].
Qed.

(** The bytes of the linear buffer, and the bytes the caller allocates for the tiled one. *)
Lemma linear_size shape : IsStandardRowMajorTiled shape = true ->
  batch_size (geometry shape) * matrix_size_bytes (geometry shape) = product (dimensions shape) * element_bytes shape.
Proof.
  intros Hs. destruct (shape_matrix shape Hs) as (pre & h & w & -> & _ & Eb & EH & EW & _).
  unfold matrix_size_bytes. rewrite Eb, EH, EW, product_app. unfold product at 3. cbn [foldr]. change (itemsize (geometry shape)) with (element_bytes shape). ring.
Qed.
Lemma tile_pair pre h w a b : tile_dimensions (pre ++ [h; w]) [a; b] = (pre ++ [CeilOfRatio h a; CeilOfRatio w b]) ++ [a; b].
Proof.
  assert (Hz : (length [a; b] - length (pre ++ [h; w]))%nat = 0%nat) by (rewrite length_app; cbn; lia).
  assert (Hl : (length (pre ++ [h; w]) - length [a; b])%nat = length pre) by (rewrite length_app; cbn; lia).
  unfold tile_dimensions. rewrite Hz. cbn [replicate]. change ([] ++ ?l) with l. rewrite Hl, take_app_length, drop_app_length, <-app_assoc. done.
Qed.
Lemma tiled_size shape : IsStandardRowMajorTiled shape = true -> sound shape ->
  GetTiledBufferElements shape * element_bytes shape = batch_size (geometry shape) * tiled_matrix_size_bytes (geometry shape).
Proof.
  intros Hs Hsound. destruct (shape_matrix shape Hs) as (pre & h & w & _ & _ & Eb & EH & EW & ->).
  unfold tiled_matrix_size_bytes, tile_size_bytes, num_tiles_0, num_tiles_1. rewrite Eb, EH, EW. change (itemsize (geometry shape)) with (element_bytes shape).
  apply standard_layout in Hs as (_ & _ & tH & tW & [E|(P & E & HP & Hm)]); cbn [geometry tile_H tile_W]; rewrite E; cbn [nth dim foldl].
  - rewrite tile_pair, !product_app. unfold product. cbn [foldr]. unfold dim. cbn [nth]. ring.
  - rewrite !tile_pair, !product_app. unfold product. cbn [foldr]. unfold dim. cbn [nth].
    pose proof (ceil_exact tH P ltac:(lia) Hm) as EP. assert (CeilOfRatio tW 1 = tW) as -> by (unfold CeilOfRatio; rewrite Z.div_1_r; lia). replace (tH * tW * element_bytes shape) with (CeilOfRatio tH P * P * tW * element_bytes shape) by (by rewrite EP). ring.
Qed.

(** ** What the callers rely on *)

Section lanes.
Variables N8 N16 : Z.
Hypothesis N8_pos : 0 < N8.
Hypothesis N16_pos : 0 < N16.

Section xla.
Variable ForEachIndex : list (list Z).
Variable linear_index nested_index : list Z -> Z.

(** The documented behaviour of XLA's indices: every element has one position in the linear
    layout, which the enumeration covers, and a position of its own in the tiled layout. *)
Record indices_ok (shape : Shape) : Prop := {
  linear_covers n : 0 <= n < product (dimensions shape) <-> exists i, i ∈ ForEachIndex ∧ linear_index i = n;
  linear_unique i j : i ∈ ForEachIndex -> j ∈ ForEachIndex -> linear_index i = linear_index j -> i = j;
  nested_unique i j : i ∈ ForEachIndex -> j ∈ ForEachIndex -> nested_index i = nested_index j -> i = j
}.

(** What the pool makes of the stores of a routine: any interleaving of the threads on the
    optimised path, program order on the others. *)
Definition executed (shape : Shape) (ws program : Stores) : Prop :=
  if IsStandardRowMajorTiled shape then ws ≡ₚ program else ws = program.

(** One element of a copy driven by XLA's indices. *)
Lemma elem_of_indexed (to from : list Z -> Z) src size o v :
  (o, v) ∈ (ForEachIndex ≫= fun i => memcpy src (to i * size) (from i * size) size) <->
  exists i k, i ∈ ForEachIndex ∧ 0 <= k < size ∧ o = to i * size + k ∧ v = src (from i * size + k).
Proof.
  rewrite list_elem_of_bind. setoid_rewrite elem_of_memcpy. split.
  - intros (i & (k & Hk & -> & ->) & Hi). by exists i, k.
  - intros (i & k & Hi & Hk & -> & ->). exists i. split; [by exists k|done].
Qed.
Lemma indexed_value (to from : list Z -> Z) src size m i k :
  (forall j, j ∈ ForEachIndex -> to j = to i -> j = i) -> i ∈ ForEachIndex -> 0 <= k < size ->
  run (ForEachIndex ≫= fun i => memcpy src (to i * size) (from i * size) size) m (to i * size + k) = src (from i * size + k).
Proof.
  intros Hinj Hi Hk. apply run_agreed; [apply elem_of_indexed; by exists i, k|].
  intros v (j & k' & Hj & Hk' & E & ->)%elem_of_indexed. apply digits_unique in E as [E ->]; [|done..]. by rewrite (Hinj j).
Qed.

Lemma indexed_round_trip shape src pre m m' o :
  indices_ok shape -> 0 < element_bytes shape ->
  let tile := pre ++ (ForEachIndex ≫= fun i => memcpy src (nested_index i * element_bytes shape) (linear_index i * element_bytes shape) (element_bytes shape)) in
  run (ForEachIndex ≫= fun i => memcpy (run tile m) (linear_index i * element_bytes shape) (nested_index i * element_bytes shape) (element_bytes shape)) m' o =
  if (0 <=? o) && (o <? product (dimensions shape) * element_bytes shape) then src o else m' o.
Proof.
  intros [Hcov Hlin Hnest] He tile. destruct ((0 <=? o) && (o <? product (dimensions shape) * element_bytes shape)) eqn:Eo; to_prop.
  - apply (split_range _ _ _ He) in Eo as (n & k & Hn & Hk & ->). apply Hcov in Hn as (i & Hi & <-). rewrite indexed_value by (intros; try apply Hlin; done).
    unfold tile, run at 1. rewrite foldl_app. by apply indexed_value; [intros; apply Hnest|..].
  - apply run_outside. intros v (i & k & Hi & Hk & -> & _)%elem_of_indexed.
    assert (0 <= linear_index i < product (dimensions shape)) by (apply Hcov; by exists i). nia.
Qed.

Lemma plain_copy src n m m' o :
  run (memcpy (run (memcpy src 0 0 n) m) 0 0 n) m' o = if (0 <=? o) && (o <? n) then src o else m' o.
Proof.
  assert (Hc : forall s m0, run (memcpy s 0 0 n) m0 o = if (0 <=? o) && (o <? n) then s o else m0 o).
  { intros s m0. destruct ((0 <=? o) && (o <? n)) eqn:Eo; to_prop.
    - apply run_agreed; [apply elem_of_memcpy; exists o; split_and!; done || lia|]. by intros v (i & Hi & -> & ->)%elem_of_memcpy.
    - apply run_outside. intros v (i & Hi & -> & _)%elem_of_memcpy. lia. }
  rewrite !Hc. by destruct ((0 <=? o) && (o <? n)).
Qed.

(** tiling a buffer with a standard layout gives, for every interleaving of the stores of
    the pool's threads, the tiled buffer that the layout prescribes: each cell of each tile
    holds the byte of its element or zero padding, the cells are exactly the bytes that
    [GetTiledBufferElements] sizes, and no other byte is touched. *)
Theorem tile_buffer_exact shape src ws m :
  IsStandardRowMajorTiled shape = true -> sound shape -> whole_vectors N8 (geometry shape) ->
  executed shape ws (TileBuffer N8 N16 ForEachIndex linear_index nested_index shape src) ->
  let g := geometry shape in
  (forall b tr tc r c k, in_tiles g b tr tc -> in_tile g r c k ->
     run ws m (tiled_offset g b tr tc r c k) = padded g src b (tr * tile_H g + r) (tc * tile_W g + c) k) ∧
  (forall o, 0 <= o < GetTiledBufferElements shape * element_bytes shape <->
     exists b tr tc r c k, in_tiles g b tr tc ∧ in_tile g r c k ∧ o = tiled_offset g b tr tc r c k) ∧
  (forall o, ~ (0 <= o < GetTiledBufferElements shape * element_bytes shape) -> run ws m o = m o).
Proof.
  intros Hs Hsound Hvec Hp g. pose proof (product_positive_good shape Hs Hsound) as Hg. rewrite tiled_size by done.
  unfold executed, TileBuffer in Hp. rewrite Hs in Hp. destruct (tiles (layout shape)) eqn:Et; [unfold IsStandardRowMajorTiled in Hs; by rewrite Et, andb_false_r in Hs|].
  split; [|split].
  - intros. by apply (tiled_cell_value N8 N16).
  - intros o. by apply tiled_offset_range.
  - intros o Ho. by apply (tiled_outside N8 N16 N8_pos N16_pos g src).
Qed.

(** C29: detiling gives back what was tiled, whatever was in the two destination buffers and
    however the threads of the pool interleave, and bytes outside the linear buffer are not
    written by the detiling.  The layout is none at all; or a standard one whose extents and
    element size are positive, whose packed elements fill 32 bits with their packing
    ([sound]) and whose padded rows are whole vectors ([whole_vectors]; without this the
    routine writes past its rows: [short_rows_overrun]); or any other, through XLA's indices,
    if these give each element one position in either layout ([indices_ok]). *)
Theorem tile_round_trip shape src ws m ws' m' o :
  0 < element_bytes shape ->
  (IsStandardRowMajorTiled shape = true -> sound shape ∧ whole_vectors N8 (geometry shape)) ->
  (IsStandardRowMajorTiled shape = false -> indices_ok shape) ->
  executed shape ws (TileBuffer N8 N16 ForEachIndex linear_index nested_index shape src) ->
  executed shape ws' (DetileBuffer N8 N16 ForEachIndex linear_index nested_index shape (run ws m)) ->
  run ws' m' o = if (0 <=? o) && (o <? product (dimensions shape) * element_bytes shape) then src o else m' o.
Proof.
  intros He Hstd Hother Hp Hp'. unfold executed, TileBuffer, DetileBuffer in *. destruct (IsStandardRowMajorTiled shape) eqn:Es.
  - destruct (Hstd eq_refl) as [Hsound Hvec]. pose proof (product_positive_good shape Es Hsound) as Hg. rewrite <-linear_size by done.
    destruct (tiles (layout shape)) eqn:Et; [unfold IsStandardRowMajorTiled in Es; by rewrite Et, andb_false_r in Es|].
    by apply (round_trip_spec N8 N16 N8_pos N16_pos _ src ws m).
  - subst ws ws'. destruct (tiles (layout shape)) eqn:Et; [apply plain_copy|]. by apply indexed_round_trip; [apply Hother|].
Qed.
End xla.
End lanes.

(** ** Instances *)

(** Three rows of five bf16 elements in packed tiles of two rows and four columns. *)
Definition packed_shape : Shape := mkShape [3; 5] (mkLayout [1%nat; 0%nat] [[2; 4]; [2; 1]]) 2.
Lemma packed_shape_sound : sound packed_shape.
Proof. constructor; [repeat constructor..|by right]. Qed.

(** A column-major matrix of two rows and three columns, tiled by two columns. *)
Definition column_shape : Shape := mkShape [2; 3] (mkLayout [0%nat; 1%nat] [[2]]) 4.
Definition column_indices : list (list Z) := [[0; 0]; [0; 1]; [0; 2]; [1; 0]; [1; 1]; [1; 2]].
Definition row_major (i : list Z) : Z := dim i 0 * 3 + dim i 1.
Definition column_major (i : list Z) : Z := dim i 1 * 2 + dim i 0.
Lemma column_indices_ok : indices_ok column_indices row_major column_major column_shape.
Proof.
  constructor.
  - intros n. change (product (dimensions column_shape)) with 6. split.
    + intros Hn. assert (Hc : n = 0 ∨ n = 1 ∨ n = 2 ∨ n = 3 ∨ n = 4 ∨ n = 5) by lia.
      destruct Hc as [->|[->|[->|[->|[->| ->]]]]]; [exists [0; 0]|exists [0; 1]|exists [0; 2]|exists [1; 0]|exists [1; 1]|exists [1; 2]];
        (split; [unfold column_indices; set_solver|done]).
    + intros (i & Hi & <-). unfold column_indices in Hi. rewrite !elem_of_cons in Hi. destruct Hi as [->|[->|[->|[->|[->|[->|Hi]]]]]]; [..|by apply elem_of_nil in Hi];
        vm_compute; split; done.
  - intros i j Hi Hj. unfold column_indices in Hi, Hj. rewrite !elem_of_cons, elem_of_nil in Hi, Hj. by intuition subst.
  - intros i j Hi Hj. unfold column_indices in Hi, Hj. rewrite !elem_of_cons, elem_of_nil in Hi, Hj. by intuition subst.
Qed.

(** A linear buffer whose byte at [o] is [o + 1], and destination buffers filled with 7 and 9. *)
Definition counted : Buffer := fun o => o + 1.
Definition sevens : Buffer := fun _ => 7.
Definition nines : Buffer := fun _ => 9.
Definition packed_stores : Stores := TileBuffer 8 4 [] row_major column_major packed_shape counted.
Definition column_stores : Stores := TileBuffer 8 4 column_indices row_major column_major column_shape counted.

Lemma tile_buffer_exact_witness :
  run packed_stores sevens (tiled_offset (geometry packed_shape) 0 1 1 0 0 1) = 30 ∧
  run packed_stores sevens (tiled_offset (geometry packed_shape) 0 1 1 1 0 1) = 0 ∧
  run packed_stores sevens 64 = 7.
Proof.
  destruct (tile_buffer_exact 8 4 ltac:(lia) ltac:(lia) [] row_major column_major packed_shape counted packed_stores sevens) as (Hcells & _ & Hout).
  - reflexivity.
  - apply packed_shape_sound.
  - intros HP. discriminate HP.
  - reflexivity.
  - split; [|split].
    + rewrite Hcells by (vm_compute; repeat split; discriminate). reflexivity.
    + rewrite Hcells by (vm_compute; repeat split; discriminate). reflexivity.
    + apply Hout. vm_compute. intros [_ Hlt]. discriminate Hlt.
Defined.

Lemma tile_round_trip_witness :
  run (DetileBuffer 8 4 [] row_major column_major packed_shape (run packed_stores sevens)) nines 17 = 18 ∧
  run (DetileBuffer 8 4 column_indices row_major column_major column_shape (run column_stores sevens)) nines 23 = 24 ∧
  run (DetileBuffer 8 4 column_indices row_major column_major column_shape (run column_stores sevens)) nines 24 = 9.
Proof.
  split; [|split].
  - apply (tile_round_trip 8 4 ltac:(lia) ltac:(lia) [] row_major column_major packed_shape counted packed_stores sevens _ nines 17).
    + reflexivity.
    + intros _. split; [apply packed_shape_sound|intros HP; discriminate HP].
    + intros Hs. discriminate Hs.
    + reflexivity.
    + reflexivity.
  - apply (tile_round_trip 8 4 ltac:(lia) ltac:(lia) column_indices row_major column_major column_shape counted column_stores sevens _ nines 23).
    + reflexivity.
    + intros Hs. discriminate Hs.
    + intros _. apply column_indices_ok.
    + reflexivity.
    + reflexivity.
  - apply (tile_round_trip 8 4 ltac:(lia) ltac:(lia) column_indices row_major column_major column_shape counted column_stores sevens _ nines 24).
    + reflexivity.
    + intros Hs. discriminate Hs.
    + intros _. apply column_indices_ok.
    + reflexivity.
    + reflexivity.
Defined.

(** A padded row shorter than a vector is stored past its end: with 32-byte vectors, a 2x5
    matrix of bytes in tiles of 2x8 is given a buffer of 16 bytes and written past it. *)
Definition short_shape : Shape := mkShape [2; 5] (mkLayout [1%nat; 0%nat] [[2; 8]]) 1.
Lemma short_rows_overrun :
  IsStandardRowMajorTiled short_shape = true ∧ sound short_shape ∧ GetTiledBufferElements short_shape * element_bytes short_shape = 16 ∧
  forall src, (39, 0) ∈ TileBuffer 32 16 [] row_major column_major short_shape src.
Proof.
  split; [done|]. split; [constructor; [repeat constructor..|by left]|]. split; [done|].
  intros src. apply (list_elem_of_lookup_2 _ 63). reflexivity.
Qed.

End TilingShapes.
