(* ===== verification/ControllerService.v ===== *)
(** * Read leases at the source ([src/tpu_sync/core/controller/controller_service.cc])

    A peer that reads blocks of this node acquires a lease, which pins the blocks, and
    releases it when its transfer is done; the answer to the release says whether the pins
    were held all along.  A sweeper takes the pins of expired leases back.  The store's hooks
    ([ValidateAndPinCallback], [UnpinCallback]) are the interface [LeaseHooks].  Handlers that
    leave the service's lock are split at it: [acquire_pins] and [RecordLease], [release_locked]
    and [call_unpin].  Times and durations are nanoseconds. *)

From S2P Require Import Prelude ReshardTypes StoreBackend WorkerRegistry KVCacheStoreService.
Import Workers.

(** ** The store's hooks *)

Class LeaseHooks (S : Type) : Type := {
  validate_and_pin : list Hash -> S -> StatusOr (list Z) * S;
  unpin : list Hash -> S -> S
}.

Module ControllerService.

Abbreviation Seconds := Service.Seconds.
Abbreviation Milliseconds := Service.Milliseconds.
Abbreviation ToInt64Milliseconds := Service.ToInt64Milliseconds.

(** ** Data *)

Inductive LeaseVerdict : Type := LEASE_VERDICT_UNSPECIFIED | LEASE_HELD | LEASE_REVOKED | LEASE_UNKNOWN.
#[global] Instance LeaseVerdict_eq_dec : EqDecision LeaseVerdict.
Proof. solve_decision. Defined.

Record ReadLease : Type := mkLease {
  block_hashes : list Hash;
  requester_key : string;
  expiration : Z;
  live : bool;
  revoked : bool;
  (** [None] is [InfiniteFuture]. *)
  retire_at : option Z
}.

Record RaidenControllerServiceImpl : Type := mkService {
  worker_registry_ : WorkerRegistry;
  (** [validate_and_pin_cb_] and [unpin_cb_] are set and reset together. *)
  hooks_ : bool;
  read_leases_ : gmap Z ReadLease;
  (** [sweeper_ != nullptr]. *)
  sweeper_ : bool;
  sweeper_stop_ : bool
}.
Implicit Types (s : RaidenControllerServiceImpl) (l : ReadLease).

Definition with_leases m s : RaidenControllerServiceImpl :=
  mkService (worker_registry_ s) (hooks_ s) m (sweeper_ s) (sweeper_stop_ s).
Definition StartSweeperIfNeeded s : RaidenControllerServiceImpl :=
  if sweeper_ s || sweeper_stop_ s then s
  else mkService (worker_registry_ s) (hooks_ s) (read_leases_ s) true (sweeper_stop_ s).

Record RaidenWorkerEndpoints : Type := mkGroup {
  group_node_id : Z;
  group_worker_id : string;
  group_endpoints : list RaidenTransferEndpoint
}.
Record AcquireReadLeaseRequest : Type := mkAcquire {
  aq_block_hashes : list Hash;
  aq_ttl_ms : Z;
  aq_requester_raiden_id : RaidenIdProto
}.
Record AcquireReadLeaseResponse : Type := mkAcquired {
  ar_lease_id : Z;
  ar_src_host_block_ids : list Z;
  ar_src_worker_endpoints : list RaidenWorkerEndpoints;
  ar_granted_ttl_ms : Z
}.

(** ** Durations *)

(** The variable, if it is set: its value in seconds, if it parses. *)
Abbreviation Env := (option (option Z)).
Definition DurationFromEnv (raw : Env) (fallback : Z) : Z :=
  match raw with
  | None | Some None => fallback
  | Some (Some seconds) => if seconds <=? 0 then fallback else Seconds seconds
  end.

Definition RequesterKey (id : RaidenIdProto) : string :=
  render StrCat[p_job_name id; "/"; p_job_replica_id id; "/"; p_data_name id; "/"; p_data_replica_idx id].

Definition DefaultLeaseTtl (ttl_env : Env) : Z := DurationFromEnv ttl_env (Seconds 120).
Definition MinLeaseTtl : Z := Seconds 30.
Definition MaxLeaseTtl : Z := Seconds 600.
Definition RevokedLeaseRetention (ttl_env retention_env : Env) : Z :=
  DurationFromEnv retention_env (DefaultLeaseTtl ttl_env + Seconds 180).

(** The duration granted for a requested one: the default for none, clamped. *)
Definition granted (ttl_env : Env) (requested_ms : Z) : Z :=
  let ttl := if 0 <? requested_ms then Milliseconds requested_ms else DefaultLeaseTtl ttl_env in
  Z.max MinLeaseTtl (Z.min MaxLeaseTtl ttl).

(** ** Handlers *)

Definition endpoint_group (reg : WorkerRegistration) : RaidenWorkerEndpoints :=
  mkGroup (node_id reg) (worker_id reg) (raiden_transfer_endpoints reg).

(** Draws of the generator until one is neither zero nor in use. *)
Fixpoint draw_lease_id (draws : list Z) (leases : gmap Z ReadLease) : option Z :=
  match draws with
  | [] => None
  | d :: draws => if (d =? 0) || bool_decide (is_Some (leases !! d)) then draw_lease_id draws leases else Some d
  end.

(** The lease's record, under the lock; [now] was read before it. *)
Definition RecordLease (now lease_id : Z) (hashes : list Hash) (requester : string) (ttl : Z) s : RaidenControllerServiceImpl :=
  StartSweeperIfNeeded (with_leases (<[lease_id := mkLease hashes requester (now + ttl) true false None]> (read_leases_ s)) s).

(** [TransitionOutOfLive]: the hashes to unpin. *)
Definition TransitionOutOfLive (retention now lease_id : Z) (as_revoked : bool) s : list Hash * RaidenControllerServiceImpl :=
  match read_leases_ s !! lease_id with
  | Some l =>
      if live l then
        (block_hashes l,
         with_leases (<[lease_id := mkLease (block_hashes l) (requester_key l) (expiration l) false as_revoked (Some (now + retention))]>
                        (read_leases_ s)) s)
      else ([], s)
  | None => ([], s)
  end.

Definition RenewReadLease (ttl_env : Env) (now lease_id extend_ms : Z) s : LeaseVerdict * Z * RaidenControllerServiceImpl :=
  let extend := granted ttl_env extend_ms in
  match read_leases_ s !! lease_id with
  | None => (LEASE_UNKNOWN, 0, s)
  | Some l =>
      if live l then
        (LEASE_HELD, ToInt64Milliseconds extend,
         with_leases (<[lease_id := mkLease (block_hashes l) (requester_key l) (now + extend) (live l) (revoked l) (retire_at l)]>
                        (read_leases_ s)) s)
      else (if revoked l then LEASE_REVOKED else LEASE_HELD, 0, s)
  end.

(** [ReleaseReadLease] under the lock: the verdict and the hashes to unpin. *)
Definition release_locked (retention now lease_id : Z) s : LeaseVerdict * list Hash * RaidenControllerServiceImpl :=
  match read_leases_ s !! lease_id with
  | None => (LEASE_UNKNOWN, [], s)
  | Some l =>
      if revoked l then (LEASE_REVOKED, [], s)
      else let '(to_unpin, s) := TransitionOutOfLive retention now lease_id false s in (LEASE_HELD, to_unpin, s)
  end.

(** One of the loops over expired or live leases: every id transitions, the hashes are
    collected. *)
Definition revoke_all (retention now : Z) (ids : list Z) s : list Hash * RaidenControllerServiceImpl :=
  foldl (fun '(to_unpin, s) id =>
    let '(hashes, s) := TransitionOutOfLive retention now id true s in (to_unpin ++ hashes, s)) ([], s) ids.

Definition due (now : Z) (e : Z * ReadLease) : bool := live e.2 && (expiration e.2 <=? now).
Definition aged_out (now : Z) (e : Z * ReadLease) : bool :=
  negb (live e.2) && match retire_at e.2 with Some t => t <=? now | None => false end.

(** [RunSweepOnce] under the lock. *)
Definition sweep_locked (retention now : Z) s : list Hash * RaidenControllerServiceImpl :=
  let expired := (filter (fun e => due now e = true) (map_to_list (read_leases_ s))).*1 in
  let retired := (filter (fun e => aged_out now e = true) (map_to_list (read_leases_ s))).*1 in
  let '(to_unpin, s) := revoke_all retention now expired s in
  (to_unpin, with_leases (foldl (fun m id => delete id m) (read_leases_ s) retired) s).

(** When [SweeperLoop] wakes up, if nothing signals it before. *)
Definition sweep_wake (now : Z) (leases : gmap Z ReadLease) : Z :=
  let wakes := omap (fun e : Z * ReadLease => if live e.2 then Some (expiration e.2) else retire_at e.2) (map_to_list leases) in
  match wakes with
  | [] => now + Seconds 1
  | w :: ws => foldl Z.min w ws
  end.

(** The destructor under the lock. *)
Definition shutdown_locked (retention now : Z) s : list Hash * RaidenControllerServiceImpl :=
  let live_ids := (filter (fun e : Z * ReadLease => live e.2 = true) (map_to_list (read_leases_ s))).*1 in
  let '(to_unpin, s) := revoke_all retention now live_ids s in
  (to_unpin, mkService (worker_registry_ s) (hooks_ s) (read_leases_ s) false true).

Definition SetReadRemoteHooks s : RaidenControllerServiceImpl :=
  mkService (worker_registry_ s) true (read_leases_ s) (sweeper_ s) (sweeper_stop_ s).
Definition ClearReadRemoteHooks s : RaidenControllerServiceImpl :=
  mkService (worker_registry_ s) false (read_leases_ s) (sweeper_ s) (sweeper_stop_ s).
(** A null registry is ignored. *)
Definition SetWorkerRegistry (registry : option WorkerRegistry) s : RaidenControllerServiceImpl :=
  match registry with
  | Some r => mkService r (hooks_ s) (read_leases_ s) (sweeper_ s) (sweeper_stop_ s)
  | None => s
  end.
Definition create (registry : option WorkerRegistry) : RaidenControllerServiceImpl :=
  mkService (default ∅ registry) false ∅ false false.

Definition LeaseCount s : nat := size (read_leases_ s).
Definition LeasedBlocksForPeer (key : string) s : Z :=
  zsum ((fun e : Z * ReadLease => if live e.2 && bool_decide (requester_key e.2 = key) then Z.of_nat (length (block_hashes e.2)) else 0)
          <$> map_to_list (read_leases_ s)).

(** [RegisterWorker]: whether it succeeded and the error message. *)
Definition RegisterWorker (cb : option (WorkerRegistration -> StatusOr WorkerRegistration)) (request : WorkerRegistration) s :
    bool * list Frag * RaidenControllerServiceImpl :=
  let reg := mkWorker (worker_id request) (raiden_worker_endpoint request) (raiden_transfer_endpoints request) None
               (node_id request) (block_array_bytes request) (num_kv_shards request) in
  match Workers.RegisterWorker cb reg (worker_registry_ s) with
  | (Err _ msg, r) => (false, msg, SetWorkerRegistry (Some r) s)
  | (Ok _, r) => (true, [], SetWorkerRegistry (Some r) s)
  end.

(** ** Handlers over a store *)

Section store.
Context {S : Type} {HS : LeaseHooks S}.

(** The hook is called outside the lock, with what was under it. *)
Definition call_unpin (hooked : bool) (to_unpin : list Hash) (st : S) : S :=
  if negb (length to_unpin =? 0)%nat && hooked then unpin to_unpin st else st.

(** The first half of [AcquireReadLease]: the pins are taken when it succeeds. *)
Definition acquire_pins (request : AcquireReadLeaseRequest) s (st : S) : StatusOr (list Z) * S :=
  match aq_block_hashes request with
  | [] => (Err kInvalidArgument StrCat["AcquireReadLease requires a non-empty block_hashes"], st)
  | hashes =>
      if negb (hooks_ s) then (Err kFailedPrecondition StrCat["ReadRemote verify hook is not registered"], st)
      else validate_and_pin hashes st
  end.

Definition lease_response (registry : WorkerRegistry) (lease_id : Z) (ids : list Z) (ttl : Z) : AcquireReadLeaseResponse :=
  mkAcquired lease_id ids (endpoint_group <$> GetRegisteredWorkers registry) (ToInt64Milliseconds ttl).

(** [AcquireReadLease] when nothing runs in between; it loops for ever on a generator that
    draws no fresh id. *)
Definition AcquireReadLease (ttl_env : Env) (now : Z) (draws : list Z) (request : AcquireReadLeaseRequest) s (st : S) :
    option (StatusOr AcquireReadLeaseResponse * RaidenControllerServiceImpl * S) :=
  match acquire_pins request s st with
  | (Err code msg, st) => Some (Err code msg, s, st)
  | (Ok ids, st) =>
      let ttl := granted ttl_env (aq_ttl_ms request) in
      match draw_lease_id draws (read_leases_ s) with
      | None => None
      | Some lease_id =>
          Some (Ok (lease_response (worker_registry_ s) lease_id ids ttl),
                RecordLease now lease_id (aq_block_hashes request) (RequesterKey (aq_requester_raiden_id request)) ttl s, st)
      end
  end.

Definition ReleaseReadLease (retention now lease_id : Z) s (st : S) : LeaseVerdict * RaidenControllerServiceImpl * S :=
  let '(verdict, to_unpin, s) := release_locked retention now lease_id s in (verdict, s, call_unpin (hooks_ s) to_unpin st).

Definition ForceExpireForTest (retention now lease_id : Z) s (st : S) : bool * RaidenControllerServiceImpl * S :=
  let '(to_unpin, s) := TransitionOutOfLive retention now lease_id true s in
  (negb (length to_unpin =? 0)%nat, s, call_unpin (hooks_ s) to_unpin st).

Definition RunSweepOnce (retention now : Z) s (st : S) : RaidenControllerServiceImpl * S :=
  let '(to_unpin, s) := sweep_locked retention now s in (s, call_unpin (hooks_ s) to_unpin st).

Definition destroy (retention now : Z) s (st : S) : RaidenControllerServiceImpl * S :=
  let '(to_unpin, s) := shutdown_locked retention now s in (s, call_unpin (hooks_ s) to_unpin st).
End store.

End ControllerService.
