(* ===== verification/ControllerServiceSteps.v ===== *)
(** * Read leases under every interleaving

    [Module LeaseSteps] interleaves the critical sections of ControllerService.v with calls of
    the store's hooks outside the lock, the clock and the rest of the node.  What the service
    relies on of the hooks is the interface [LeaseHooksLaws].  The pins of the store are
    accounted for exactly: those of the rest of the node, of the live leases, of the acquires
    that have not recorded their lease and of the unpins on their way. *)

From S2P Require Import Prelude ReshardTypes StoreBackend WorkerRegistry LruCache HostOffloadBackend HostOffloadLookup ControllerService.
Import ControllerService OffloadLookup.

(** ** What the hooks promise *)

Class LeaseHooksLaws (S : Type) `{LeaseHooks S} : Type := {
  usable : S -> Prop;
  pins : S -> Hash -> Z;
  (** The host block of a resident hash. *)
  bound : S -> Hash -> option Z;
  validate_ok hs st ids st' : usable st -> validate_and_pin hs st = (Ok ids, st') ->
    usable st' ∧ Forall2 (fun h id => bound st h = Some id) hs ids ∧
    forall h, pins st' h = pins st h + occ h hs ∧ bound st' h = bound st h;
  validate_refused hs st code msg st' : usable st -> validate_and_pin hs st = (Err code msg, st') ->
    usable st' ∧ forall h, pins st' h = pins st h ∧ bound st' h = bound st h;
  unpin_spec hs st : usable st ->
    usable (unpin hs st) ∧ forall h, pins (unpin hs st) h = Z.max 0 (pins st h - occ h hs) ∧ bound (unpin hs st) h = bound st h
}.

Module LeaseSteps.

(** ** The table of leases *)

Implicit Types (m : gmap Z ReadLease) (l : ReadLease) (s : RaidenControllerServiceImpl) (h : Hash).

(** The hashes a lease holds pinned, and those of the table. *)
Definition held l : list Hash := if live l then block_hashes l else [].
Definition held_by m : list Hash := map_to_list m ≫= fun e => held e.2.

Lemma held_by_insert m id l h : m !! id = None -> occ h (held_by (<[id := l]> m)) = occ h (held l) + occ h (held_by m).
Proof. intros Hn. unfold held_by. rewrite (occ_perm h _ (((id, l) :: map_to_list m) ≫= fun e => held e.2)); [|by rewrite map_to_list_insert]. apply occ_app. Qed.
Lemma held_by_delete m id l h : m !! id = Some l -> occ h (held_by m) = occ h (held l) + occ h (held_by (delete id m)).
Proof. intros Hl. rewrite <-(insert_delete_id m id l Hl) at 1. apply held_by_insert, lookup_delete_eq. Qed.
Lemma held_by_update m id l l' h :
  m !! id = Some l -> occ h (held_by (<[id := l']> m)) + occ h (held l) = occ h (held_by m) + occ h (held l').
Proof.
  intros Hl. rewrite <-insert_delete_eq, held_by_insert, (held_by_delete m id l h Hl) by apply lookup_delete_eq. lia.
Qed.
Lemma held_by_lookup m id l h : m !! id = Some l -> occ h (held l) <= occ h (held_by m).
Proof. intros Hl. rewrite (held_by_delete m id l h Hl). pose proof (occ_nonneg h (held_by (delete id m))). lia. Qed.

(** What a transition does to a record: it keeps or leaves the live state for good. *)
Definition demoted l l' : Prop :=
  l' = l ∨ live l = true ∧ live l' = false ∧ block_hashes l' = block_hashes l ∧ expiration l' = expiration l.

Lemma transition_spec retention now id rv s :
  let r := TransitionOutOfLive retention now id rv s in
  hooks_ r.2 = hooks_ s ∧
  (forall h, occ h (held_by (read_leases_ s)) = occ h r.1 + occ h (held_by (read_leases_ r.2))) ∧
  (forall k, k ≠ id -> read_leases_ r.2 !! k = read_leases_ s !! k) ∧
  match read_leases_ s !! id with
  | Some l => read_leases_ r.2 !! id = Some (if live l then mkLease (block_hashes l) (requester_key l) (expiration l) false rv (Some (now + retention)) else l)
  | None => read_leases_ r.2 !! id = None
  end.
Proof.
  unfold TransitionOutOfLive. destruct (read_leases_ s !! id) as [l|] eqn:El.
  - destruct (live l) eqn:Ev; cbn.
    + split_and!; [done| |intros k Hk; by rewrite lookup_insert_ne|by rewrite lookup_insert_eq].
      intros h. set (l' := mkLease _ _ _ _ _ _). pose proof (held_by_update (read_leases_ s) id l l' h El) as Hu.
      unfold held at 1 2 in Hu. rewrite Ev in Hu. cbn [live l'] in Hu. rewrite occ_nil in Hu. lia.
    + split_and!; [done|intros h; rewrite occ_nil; lia|done|done].
  - cbn. split_and!; [done|intros h; rewrite occ_nil; lia|done|done].
Qed.

(** The loop that revokes a list of leases. *)
Lemma revoke_all_spec retention now ids acc s :
  let r := foldl (fun '(to_unpin, s) id => let '(hashes, s) := TransitionOutOfLive retention now id true s in (to_unpin ++ hashes, s)) (acc, s) ids in
  hooks_ r.2 = hooks_ s ∧
  (forall h, occ h acc + occ h (held_by (read_leases_ s)) = occ h r.1 + occ h (held_by (read_leases_ r.2))) ∧
  forall k, read_leases_ r.2 !! k =
    (fun l => if live l && bool_decide (k ∈ ids) then mkLease (block_hashes l) (requester_key l) (expiration l) false true (Some (now + retention)) else l)
      <$> read_leases_ s !! k.
Proof.
  revert acc s. induction ids as [|id ids IH]; intros acc s; cbn [foldl].
  { cbn. split_and!; [done|done|]. intros k. destruct (read_leases_ s !! k) as [l|]; [|done]. cbn. by rewrite andb_false_r. }
  pose proof (transition_spec retention now id true s) as (H1 & H2 & H3 & H4).
  destruct (TransitionOutOfLive retention now id true s) as [hashes s1]. cbn [fst snd] in *.
  destruct (IH (acc ++ hashes) s1) as (G1 & G2 & G3). split_and!; [by rewrite G1| |].
  - intros h. rewrite <-G2, occ_app, H2. lia.
  - intros k. rewrite G3. destruct (decide (k = id)) as [->|Hk].
    + destruct (read_leases_ s !! id) as [l|]; [|by rewrite H4]. rewrite H4. cbn. rewrite (bool_decide_eq_true_2 (id ∈ id :: ids)) by set_solver.
      destruct (live l) eqn:Ev; cbn; [done|]. by rewrite Ev.
    + rewrite H3 by done. destruct (read_leases_ s !! k) as [l|]; [|done]. cbn. rewrite (bool_decide_ext (k ∈ id :: ids) (k ∈ ids)) by set_solver. done.
Qed.

Lemma delete_all_lookup (ids : list Z) m k : foldl (fun m id => delete id m) m ids !! k = if bool_decide (k ∈ ids) then None else m !! k.
Proof.
  revert m. induction ids as [|id ids IH]; intros m; cbn [foldl]; [done|]. rewrite IH. destruct (decide (k = id)) as [->|Hk].
  - rewrite lookup_delete_eq, (bool_decide_eq_true_2 (id ∈ id :: ids)) by set_solver. by case_bool_decide.
  - rewrite lookup_delete_ne by done. by rewrite (bool_decide_ext (k ∈ id :: ids) (k ∈ ids)) by set_solver.
Qed.
Lemma delete_all_held (ids : list Z) m h :
  (forall k l, k ∈ ids -> m !! k = Some l -> live l = false) -> occ h (held_by (foldl (fun m id => delete id m) m ids)) = occ h (held_by m).
Proof.
  revert m. induction ids as [|id ids IH]; intros m Hd; cbn [foldl]; [done|]. rewrite IH.
  - destruct (m !! id) as [l|] eqn:El; [|by rewrite delete_id]. rewrite (held_by_delete m id l h El). unfold held. rewrite (Hd id l) by set_solver. by rewrite occ_nil.
  - intros k l Hk [_ Hl]%lookup_delete_Some. apply (Hd k l); set_solver.
Qed.

(** A sweep revokes exactly the live leases whose time has come and forgets exactly the
    others whose retention has passed. *)
Definition swept retention now l : option ReadLease :=
  if due now (0, l) then Some (mkLease (block_hashes l) (requester_key l) (expiration l) false true (Some (now + retention)))
  else if aged_out now (0, l) then None else Some l.

Lemma selected_ids (f : Z * ReadLease -> bool) m k : k ∈ (filter (fun e => f e = true) (map_to_list m)).*1 <-> exists l, m !! k = Some l ∧ f (k, l) = true.
Proof.
  rewrite list_elem_of_fmap. setoid_rewrite list_elem_of_filter. split.
  - intros ([k' l] & -> & Hf & Hin%elem_of_map_to_list). by exists l.
  - intros (l & Hl & Hf). exists (k, l). split; [done|]. split; [done|]. by apply elem_of_map_to_list.
Qed.

Lemma sweep_locked_spec retention now s :
  let r := sweep_locked retention now s in
  hooks_ r.2 = hooks_ s ∧
  (forall h, occ h (held_by (read_leases_ s)) = occ h r.1 + occ h (held_by (read_leases_ r.2))) ∧
  forall k, read_leases_ r.2 !! k = read_leases_ s !! k ≫= swept retention now.
Proof.
  unfold sweep_locked, revoke_all. set (expired := (filter _ (map_to_list _)).*1). set (retired := (filter (fun e => aged_out now e = true) _).*1).
  destruct (revoke_all_spec retention now expired [] s) as (G1 & G2 & G3). destruct (foldl _ _ expired) as [to_unpin s1]. cbn [fst snd] in *.
  assert (He : forall k l, read_leases_ s !! k = Some l -> bool_decide (k ∈ expired) = due now (0, l)).
  { intros k l Hl. unfold expired. case_bool_decide as Hk; rewrite (selected_ids (due now)) in Hk; [destruct Hk as (l' & Hl' & <-); by simplify_eq|].
    destruct (due now (0, l)) eqn:Ed; [|done]. exfalso. apply Hk. by exists l. }
  assert (Hr : forall k l, read_leases_ s !! k = Some l -> bool_decide (k ∈ retired) = aged_out now (0, l)).
  { intros k l Hl. unfold retired. case_bool_decide as Hk; rewrite (selected_ids (aged_out now)) in Hk; [destruct Hk as (l' & Hl' & <-); by simplify_eq|].
    destruct (aged_out now (0, l)) eqn:Ed; [|done]. exfalso. apply Hk. by exists l. }
  split_and!; [done| |].
  - intros h. cbn [read_leases_ with_leases]. rewrite delete_all_held; [specialize (G2 h); rewrite occ_nil in G2; lia|].
    intros k l' Hk Hl'. rewrite G3 in Hl'. destruct (read_leases_ s !! k) as [l|] eqn:El; [|done]. cbn in Hl'. injection Hl' as <-.
    specialize (Hr k l El). rewrite bool_decide_eq_true_2 in Hr by done. unfold aged_out in Hr. cbn in Hr. destruct (live l) eqn:Ev; [done|]. by cbn.
  - intros k. cbn [read_leases_ with_leases]. rewrite delete_all_lookup, G3. destruct (read_leases_ s !! k) as [l|] eqn:El; [|by case_bool_decide].
    cbn. rewrite (Hr k l), (He k l) by done. unfold swept, due, aged_out. cbn. destruct (live l) eqn:Ev; cbn; [by destruct (expiration l <=? now)|].
    destruct (retire_at l) as [t|]; [by destruct (t <=? now)|done].
Qed.

(** ** The system *)

Section system.
Context {S : Type} {HS : LeaseHooks S} {HL : LeaseHooksLaws S}.
Variables (ttl_env : Env) (retention : Z).

(** An acquire whose hook has pinned the hashes and that has not recorded its lease. *)
Record Acquire : Type := mkAcquiring { acq_hashes : list Hash; acq_ids : list Z; acq_since : Z }.
(** What a recorded lease was granted for, and when. *)
Record Grant : Type := mkGrant { g_hashes : list Hash; g_ids : list Z; g_at : Z }.

(** [unpinning] are the batches whose hook is about to be called, [stranded] those given up
    while no hook was set; [own] are the pins of the rest of the node, [grants] the leases
    ever recorded and [released] the release calls that were answered. *)
Record World : Type := mkWorld {
  svc : RaidenControllerServiceImpl;
  store : S;
  clock : Z;
  acquiring : list Acquire;
  unpinning : list (list Hash);
  stranded : list (list Hash);
  own : Hash -> Z;
  grants : gmap Z Grant;
  released : list Z
}.
Implicit Types w : World.

(** A critical section of the service that gives hashes up, for the release calls [rel]. *)
Definition gave_up (rel : list Z) (r : list Hash * RaidenControllerServiceImpl) w : World :=
  mkWorld r.2 (store w) (clock w) (acquiring w)
    (if hooks_ r.2 then unpinning w ++ [r.1] else unpinning w)
    (if hooks_ r.2 then stranded w else stranded w ++ [r.1]) (own w) (grants w) (rel ++ released w).
Definition set_svc s w : World :=
  mkWorld s (store w) (clock w) (acquiring w) (unpinning w) (stranded w) (own w) (grants w) (released w).
Definition set_store st w : World :=
  mkWorld (svc w) st (clock w) (acquiring w) (unpinning w) (stranded w) (own w) (grants w) (released w).
(** The rest of the node moves only pins of its own and keeps the blocks of pinned hashes. *)
Definition node_step (st st' : S) (own own' : Hash -> Z) : Prop :=
  usable st' ∧ forall h, 0 <= own' h ∧ pins st' h = pins st h + own' h - own h ∧
    (0 < pins st h -> 0 < pins st' h -> bound st' h = bound st h).

(** Two idealisations.  A lease id is new for the whole run ([grants w !! id = None]), while the
    code only avoids the ids of current leases: the random 64-bit number is taken not to
    come up twice.  And an acquire uses the hooks of the moment at which it pins, while the
    code copies them under its lock shortly before; they are set once, at start-up. *)
Inductive step : World -> World -> Prop :=
  | StepTime w t : clock w <= t ->
      step w (mkWorld (svc w) (store w) t (acquiring w) (unpinning w) (stranded w) (own w) (grants w) (released w))
  | StepValidate w request ids st' :
      acquire_pins request (svc w) (store w) = (Ok ids, st') ->
      step w (mkWorld (svc w) st' (clock w) (acquiring w ++ [mkAcquiring (aq_block_hashes request) ids (clock w)]) (unpinning w)
                (stranded w) (own w) (grants w) (released w))
  | StepRefuse w request code msg st' :
      acquire_pins request (svc w) (store w) = (Err code msg, st') -> step w (set_store st' w)
  | StepRecord w i a t id requester ttl_ms :
      acquiring w !! i = Some a -> acq_since a <= t <= clock w -> id ≠ 0 -> grants w !! id = None ->
      step w (mkWorld (RecordLease t id (acq_hashes a) requester (granted ttl_env ttl_ms) (svc w)) (store w) (clock w)
                (delete i (acquiring w)) (unpinning w) (stranded w) (own w)
                (<[id := mkGrant (acq_hashes a) (acq_ids a) (clock w)]> (grants w)) (released w))
  | StepRenew w id extend_ms :
      step w (set_svc (RenewReadLease ttl_env (clock w) id extend_ms (svc w)).2 w)
  | StepRelease w id verdict to_unpin s :
      release_locked retention (clock w) id (svc w) = (verdict, to_unpin, s) ->
      step w (gave_up [id] (to_unpin, s) w)
  | StepForceExpire w id :
      step w (gave_up [] (TransitionOutOfLive retention (clock w) id true (svc w)) w)
  | StepSweep w :
      step w (gave_up [] (sweep_locked retention (clock w) (svc w)) w)
  | StepUnpin w i hs :
      unpinning w !! i = Some hs ->
      step w (mkWorld (svc w) (call_unpin true hs (store w)) (clock w) (acquiring w) (delete i (unpinning w)) (stranded w)
                (own w) (grants w) (released w))
  | StepSetHooks w : step w (set_svc (SetReadRemoteHooks (svc w)) w)
  | StepClearHooks w : step w (set_svc (ClearReadRemoteHooks (svc w)) w)
  | StepRegistry w registry : step w (set_svc (SetWorkerRegistry registry (svc w)) w)
  | StepNode w st' own' : node_step (store w) st' (own w) own' ->
      step w (mkWorld (svc w) st' (clock w) (acquiring w) (unpinning w) (stranded w) own' (grants w) (released w)).

Definition initial w : Prop :=
  read_leases_ (svc w) = ∅ ∧ acquiring w = [] ∧ unpinning w = [] ∧ stranded w = [] ∧ grants w = ∅ ∧ released w = [] ∧
  usable (store w) ∧ forall h, 0 <= own w h ∧ pins (store w) h = own w h.
Definition reachable w : Prop := exists w0, initial w0 ∧ rtc step w0 w.

(** ** The invariant *)

(** The pins taken for peers. *)
Definition lent w : list Hash :=
  held_by (read_leases_ (svc w)) ++ (acquiring w ≫= acq_hashes) ++ concat (unpinning w) ++ concat (stranded w).

(** A record against what was granted. *)
Record lease_ok w (id : Z) (l : ReadLease) : Prop := {
  lease_granted : exists g, grants w !! id = Some g ∧ g_hashes g = block_hashes l ∧ g_at g <= clock w ∧
    (forall t, retire_at l = Some t -> g_at g + retention <= t);
  lease_live : live l = true -> revoked l = false ∧ retire_at l = None;
  lease_ended : live l = false -> revoked l = false -> id ∈ released w
}.

Record inv w : Prop := {
  inv_usable : usable (store w);
  inv_own h : 0 <= own w h;
  inv_pins h : pins (store w) h = own w h + occ h (lent w);
  inv_acquiring : Forall (fun a => Forall2 (fun h id => bound (store w) h = Some id) (acq_hashes a) (acq_ids a)) (acquiring w);
  inv_bound id l g : read_leases_ (svc w) !! id = Some l -> live l = true -> grants w !! id = Some g ->
    Forall2 (fun h b => bound (store w) h = Some b) (g_hashes g) (g_ids g);
  inv_leases id l : read_leases_ (svc w) !! id = Some l -> lease_ok w id l
}.

(** ** Preservation *)

Lemma bound_kept (st st' : S) hs ids :
  (forall h, h ∈ hs -> bound st' h = bound st h) -> Forall2 (fun h id => bound st h = Some id) hs ids -> Forall2 (fun h id => bound st' h = Some id) hs ids.
Proof. intros Hb. induction 1; constructor; [rewrite Hb by set_solver; done|]. apply IHForall2. intros h Hh. apply Hb. set_solver. Qed.

Lemma lent_pinned w h : inv w -> h ∈ lent w -> 0 < pins (store w) h.
Proof. intros Hi Hin. rewrite (inv_pins w Hi). pose proof (inv_own w Hi h). pose proof (occ_pos h _ Hin). lia. Qed.
Lemma live_lent w id l h : read_leases_ (svc w) !! id = Some l -> live l = true -> h ∈ block_hashes l -> h ∈ lent w.
Proof.
  intros Hl Hv Hh. unfold lent. rewrite elem_of_app. left. unfold held_by. rewrite list_elem_of_bind. exists (id, l). split; [|by apply elem_of_map_to_list].
  unfold held. cbn. by rewrite Hv.
Qed.
Lemma acquiring_lent w a h : a ∈ acquiring w -> h ∈ acq_hashes a -> h ∈ lent w.
Proof. intros Ha Hh. unfold lent. rewrite !elem_of_app. right. left. rewrite list_elem_of_bind. by exists a. Qed.

(** The store moves: the pins stay accounted for and blocks of lent hashes stay bound. *)
Lemma inv_store w st' own' unp' :
  inv w -> usable st' -> (forall h, 0 <= own' h) ->
  (forall h, pins st' h = own' h + occ h (held_by (read_leases_ (svc w))) + occ h (acquiring w ≫= acq_hashes) + occ h (concat unp') + occ h (concat (stranded w))) ->
  (forall h, 0 < occ h (held_by (read_leases_ (svc w))) + occ h (acquiring w ≫= acq_hashes) -> bound st' h = bound (store w) h) ->
  inv (mkWorld (svc w) st' (clock w) (acquiring w) unp' (stranded w) own' (grants w) (released w)).
Proof.
  intros Hi Hu Ho Hp Hb. constructor; cbn [svc store clock acquiring unpinning stranded own grants released].
  - done.
  - done.
  - intros h. rewrite Hp. unfold lent. cbn [svc acquiring unpinning stranded]. rewrite !occ_app. lia.
  - eapply Forall_impl; [apply Forall_and; split; [apply (inv_acquiring w Hi)|apply Forall_forall; intros a Ha; exact Ha]|].
    intros a [Ha Hin]. eapply bound_kept; [|exact Ha]. intros h Hh. apply Hb. pose proof (occ_nonneg h (held_by (read_leases_ (svc w)))).
    assert (h ∈ acquiring w ≫= acq_hashes) as ?%occ_pos by (rewrite list_elem_of_bind; by exists a). lia.
  - intros id l g Hl Hv Hg. eapply bound_kept; [|by eapply (inv_bound w Hi)]. intros h Hh. apply Hb.
    destruct (lease_granted w id l (inv_leases w Hi id l Hl)) as (g' & Hg' & Hh' & _). simplify_eq. rewrite Hh' in Hh.
    pose proof (occ_nonneg h (acquiring w ≫= acq_hashes)). pose proof (held_by_lookup _ _ _ h Hl) as Hle. unfold held in Hle. rewrite Hv in Hle. apply occ_pos in Hh. lia.
  - intros id l Hl. by destruct (inv_leases w Hi id l Hl).
Qed.

(** The service moves without giving hashes up. *)
Lemma inv_svc w s :
  inv w -> (forall h, occ h (held_by (read_leases_ s)) = occ h (held_by (read_leases_ (svc w)))) ->
  (forall k l', read_leases_ s !! k = Some l' -> exists l, read_leases_ (svc w) !! k = Some l ∧
     block_hashes l' = block_hashes l ∧ live l' = live l ∧ revoked l' = revoked l ∧ retire_at l' = retire_at l) ->
  inv (set_svc s w).
Proof.
  intros Hi Ho Hl. constructor; cbn [set_svc svc store clock acquiring unpinning stranded own grants released].
  - apply Hi.
  - apply Hi.
  - intros h. rewrite (inv_pins w Hi). unfold lent. cbn [set_svc svc acquiring unpinning stranded]. by rewrite !occ_app, Ho.
  - apply Hi.
  - intros id l' g Hl' Hv Hg. destruct (Hl id l' Hl') as (l & Hl0 & _ & Ev & _). eapply (inv_bound w Hi); [done|by rewrite <-Ev|done].
  - intros id l' Hl'. destruct (Hl id l' Hl') as (l & Hl0 & Eh & Ev & Er & Et). destruct (inv_leases w Hi id l Hl0) as [Hg Hlive Hend].
    constructor; cbn [set_svc grants clock released]; [by rewrite Eh, Et|by rewrite Ev, Er, Et|by rewrite Ev, Er].
Qed.

(** The service gives hashes up: the leases that end are revoked or were released. *)
Lemma inv_gave_up w rel r :
  inv w -> 0 <= retention ->
  (forall h, occ h (held_by (read_leases_ (svc w))) = occ h r.1 + occ h (held_by (read_leases_ r.2))) ->
  (forall k l', read_leases_ r.2 !! k = Some l' -> exists l, read_leases_ (svc w) !! k = Some l ∧
     (l' = l ∨ live l = true ∧ live l' = false ∧ block_hashes l' = block_hashes l ∧ retire_at l' = Some (clock w + retention) ∧
               (revoked l' = true ∨ k ∈ rel))) ->
  inv (gave_up rel r w).
Proof.
  intros Hi Hret Ho Hl. constructor; cbn [gave_up svc store clock acquiring unpinning stranded own grants released].
  - apply Hi.
  - apply Hi.
  - intros h. rewrite (inv_pins w Hi). unfold lent. cbn [gave_up svc acquiring unpinning stranded]. rewrite !occ_app, Ho.
    destruct (hooks_ r.2); rewrite concat_app, occ_app; cbn [concat]; rewrite app_nil_r; lia.
  - apply Hi.
  - intros id l' g Hl' Hv Hg. destruct (Hl id l' Hl') as (l & Hl0 & [->|(_ & Hv' & _)]); [by eapply (inv_bound w Hi)|congruence].
  - intros id l' Hl'. destruct (Hl id l' Hl') as (l & Hl0 & Hcase). destruct (inv_leases w Hi id l Hl0) as [(g & Hg & Hh & Hat & Ht) Hlive Hend].
    destruct Hcase as [->|(Hv & Hv' & Eh & Et & Hwhy)]; constructor; cbn [gave_up grants clock released].
    + by exists g.
    + done.
    + intros H1 H2. apply elem_of_app. right. by apply Hend.
    + exists g. split_and!; [done|congruence|done|]. intros t. rewrite Et. intros [= <-]. lia.
    + congruence.
    + intros _ Hr. apply elem_of_app. left. destruct Hwhy; [congruence|done].
Qed.
Lemma recorded t id hs requester ttl s : read_leases_ (RecordLease t id hs requester ttl s) = <[id := mkLease hs requester (t + ttl) true false None]> (read_leases_ s).
Proof. unfold RecordLease, StartSweeperIfNeeded. by destruct (_ || _). Qed.

Lemma acquire_ok request s (st st' : S) ids : usable st -> acquire_pins request s st = (Ok ids, st') ->
  usable st' ∧ Forall2 (fun h id => bound st h = Some id) (aq_block_hashes request) ids ∧
  forall h, pins st' h = pins st h + occ h (aq_block_hashes request) ∧ bound st' h = bound st h.
Proof.
  intros Hu. unfold acquire_pins. destruct (aq_block_hashes request) as [|h0 hs]; [done|]. destruct (negb (hooks_ s)); [done|]. by apply validate_ok.
Qed.
Lemma acquire_refused request s (st st' : S) code msg : usable st -> acquire_pins request s st = (Err code msg, st') ->
  usable st' ∧ forall h, pins st' h = pins st h ∧ bound st' h = bound st h.
Proof.
  intros Hu. unfold acquire_pins. destruct (aq_block_hashes request) as [|h0 hs]; [intros [= _ _ <-]; done|].
  destruct (negb (hooks_ s)); [intros [= _ _ <-]; done|]. by apply validate_refused.
Qed.

Lemma inv_validate w request ids st' :
  inv w -> acquire_pins request (svc w) (store w) = (Ok ids, st') ->
  inv (mkWorld (svc w) st' (clock w) (acquiring w ++ [mkAcquiring (aq_block_hashes request) ids (clock w)]) (unpinning w)
         (stranded w) (own w) (grants w) (released w)).
Proof.
  intros Hi Ha. destruct (acquire_ok request (svc w) (store w) st' ids (inv_usable w Hi) Ha) as (Hu & Hids & Hp).
  assert (Hb : forall hs js, Forall2 (fun h id => bound (store w) h = Some id) hs js -> Forall2 (fun h id => bound st' h = Some id) hs js).
  { intros hs js. apply bound_kept. intros h _. apply Hp. }
  constructor; cbn [svc store clock acquiring unpinning stranded own grants released].
  - done.
  - apply Hi.
  - intros h. destruct (Hp h) as [-> _]. rewrite (inv_pins w Hi). unfold lent. cbn [svc acquiring unpinning stranded].
    rewrite bind_app, !occ_app. cbn. rewrite app_nil_r. lia.
  - apply Forall_app. split; [eapply Forall_impl; [apply (inv_acquiring w Hi)|]; intros a; apply Hb|]. constructor; [|done]. by apply Hb.
  - intros id l g Hl Hv Hg. apply Hb. by eapply (inv_bound w Hi).
  - intros id l Hl. by destruct (inv_leases w Hi id l Hl).
Qed.

Lemma lease_inv_record w i a t id requester ttl :
  inv w -> acquiring w !! i = Some a -> grants w !! id = None ->
  inv (mkWorld (RecordLease t id (acq_hashes a) requester ttl (svc w)) (store w) (clock w) (delete i (acquiring w)) (unpinning w)
         (stranded w) (own w) (<[id := mkGrant (acq_hashes a) (acq_ids a) (clock w)]> (grants w)) (released w)).
Proof.
  intros Hi Ha Hfresh. assert (Hnew : read_leases_ (svc w) !! id = None).
  { destruct (read_leases_ (svc w) !! id) as [l|] eqn:El; [|done]. destruct (lease_granted w id l (inv_leases w Hi id l El)) as (g & Hg & _). congruence. }
  constructor; cbn [svc store clock acquiring unpinning stranded own grants released].
  - apply Hi.
  - apply Hi.
  - intros h. rewrite (inv_pins w Hi). unfold lent. cbn [svc acquiring unpinning stranded]. rewrite recorded, !occ_app, held_by_insert by done.
    rewrite (occ_perm h (acquiring w ≫= acq_hashes) ((a :: delete i (acquiring w)) ≫= acq_hashes)); [|by rewrite <-delete_Permutation].
    cbn. rewrite occ_app. unfold held. cbn. lia.
  - by apply Forall_delete, (inv_acquiring w Hi).
  - intros id' l g. rewrite recorded. intros [[<- <-]|[Hne Hl]]%lookup_insert_Some Hv.
    + rewrite lookup_insert_eq. intros [= <-]. cbn. pose proof (inv_acquiring w Hi) as Hall. by eapply Forall_lookup_1 in Hall; [|exact Ha].
    + rewrite lookup_insert_ne by done. by eapply (inv_bound w Hi).
  - intros id' l. rewrite recorded. intros [[<- <-]|[Hne Hl]]%lookup_insert_Some.
    + constructor; cbn; [|done|done]. eexists. rewrite lookup_insert_eq. split_and!; [done|done|cbn; lia|done].
    + destruct (inv_leases w Hi id' l Hl) as [Hg Hlive Hend]. constructor; cbn; [by rewrite lookup_insert_ne|done|done].
Qed.

Hypothesis retention_nonneg : 0 <= retention.

Lemma inv_transition w id rv rel : inv w -> (rv = true ∨ id ∈ rel) -> inv (gave_up rel (TransitionOutOfLive retention (clock w) id rv (svc w)) w).
Proof.
  intros Hi Hwhy. destruct (transition_spec retention (clock w) id rv (svc w)) as (_ & Ho & Hne & Heq). apply inv_gave_up; [done..|].
  intros k l' Hl'. destruct (decide (k = id)) as [->|Hk]; [|rewrite Hne in Hl' by done; exists l'; by auto].
  destruct (read_leases_ (svc w) !! id) as [l|] eqn:El; [|congruence]. exists l. split; [done|]. rewrite Heq in Hl'. injection Hl' as <-.
  destruct (live l) eqn:Ev; [right|by left]. cbn. by split_and!.
Qed.
Lemma inv_nothing w rel : inv w -> inv (gave_up rel ([], svc w) w).
Proof.
  intros Hi. apply inv_gave_up; [done..|intros h; cbn; rewrite occ_nil; lia|]. intros k l' Hl'. exists l'. by auto.
Qed.
Lemma lease_inv_release w id verdict to_unpin s : inv w -> release_locked retention (clock w) id (svc w) = (verdict, to_unpin, s) -> inv (gave_up [id] (to_unpin, s) w).
Proof.
  intros Hi. unfold release_locked. destruct (read_leases_ (svc w) !! id) as [l|]; [|intros [= <- <- <-]; by apply inv_nothing].
  destruct (revoked l); [intros [= <- <- <-]; by apply inv_nothing|].
  pose proof (inv_transition w id false [id] Hi ltac:(right; set_solver)) as Ht.
  destruct (TransitionOutOfLive retention (clock w) id false (svc w)) as [hashes s1]. by intros [= <- <- <-].
Qed.
Lemma inv_sweep w : inv w -> inv (gave_up [] (sweep_locked retention (clock w) (svc w)) w).
Proof.
  intros Hi. destruct (sweep_locked_spec retention (clock w) (svc w)) as (_ & Ho & Hl). apply inv_gave_up; [done..|].
  intros k l' Hl'. rewrite Hl in Hl'. destruct (read_leases_ (svc w) !! k) as [l|]; [|done]. cbn in Hl'. exists l. split; [done|].
  unfold swept in Hl'. destruct (due (clock w) (0, l)) eqn:Ed; [|destruct (aged_out _ _); [done|injection Hl' as <-; by left]].
  injection Hl' as <-. right. unfold due in Ed. cbn in Ed. to_prop. cbn. split_and!; try done; [by destruct Ed|by left].
Qed.
Lemma inv_renew w id extend_ms : inv w -> inv (set_svc (RenewReadLease ttl_env (clock w) id extend_ms (svc w)).2 w).
Proof.
  intros Hi. apply inv_svc; [done| |].
  - intros h. unfold RenewReadLease. destruct (read_leases_ (svc w) !! id) as [l|] eqn:El; [|done]. destruct (live l) eqn:Ev; [|done]. cbn.
    set (l' := mkLease _ _ _ _ _ _). pose proof (held_by_update (read_leases_ (svc w)) id l l' h El) as Hu.
    assert (held l' = held l) as E by (unfold held; cbn; by rewrite Ev). rewrite E in Hu. lia.
  - intros k l'. unfold RenewReadLease. destruct (read_leases_ (svc w) !! id) as [l|] eqn:El; [|cbn; intros Hl'; by exists l'].
    destruct (live l) eqn:Ev; cbn; [|intros Hl'; by exists l'].
    intros [[<- <-]|[Hne Hl']]%lookup_insert_Some; [exists l; cbn; by rewrite Ev|by exists l'].
Qed.
Lemma lease_inv_unpin w i hs : inv w -> unpinning w !! i = Some hs ->
  inv (mkWorld (svc w) (call_unpin true hs (store w)) (clock w) (acquiring w) (delete i (unpinning w)) (stranded w) (own w) (grants w) (released w)).
Proof.
  intros Hi Hhs. destruct (unpin_spec hs (store w) (inv_usable w Hi)) as [Hu Hp].
  assert (Hperm : forall h, occ h (concat (unpinning w)) = occ h hs + occ h (concat (delete i (unpinning w)))).
  { intros h. rewrite (occ_perm h (concat (unpinning w)) (concat (hs :: delete i (unpinning w)))); [apply occ_app|]. by rewrite <-delete_Permutation. }
  assert (Hcall : usable (call_unpin true hs (store w)) ∧ forall h, pins (call_unpin true hs (store w)) h = pins (store w) h - occ h hs ∧ bound (call_unpin true hs (store w)) h = bound (store w) h).
  { unfold call_unpin. destruct hs as [|h0 hs']; cbn [length Nat.eqb negb andb]; [split; [apply Hi|]; intros h; rewrite occ_nil; split; [lia|done]|].
    split; [done|]. intros h. destruct (Hp h) as [Hp1 Hp2]. rewrite Hp1, Hp2. split; [|done]. rewrite (inv_pins w Hi). unfold lent. rewrite !occ_app, Hperm.
    pose proof (inv_own w Hi h). pose proof (occ_nonneg h (held_by (read_leases_ (svc w)))). pose proof (occ_nonneg h (acquiring w ≫= acq_hashes)).
    pose proof (occ_nonneg h (concat (delete i (unpinning w)))). pose proof (occ_nonneg h (concat (stranded w))). lia. }
  destruct Hcall as [Hu' Hp']. apply inv_store; [done|done|apply Hi| |].
  - intros h. destruct (Hp' h) as [-> _]. rewrite (inv_pins w Hi). unfold lent. rewrite !occ_app, Hperm. lia.
  - intros h _. apply Hp'.
Qed.

Lemma lease_inv_step w w' : inv w -> step w w' -> inv w'.
Proof.
  intros Hi Hs. inv Hs; try (apply inv_svc; [done|done|intros k l' Hl'; by exists l']).
  - destruct Hi as [H1 H2 H3 H4 H5 H6]. constructor; try done. intros id l Hl. destruct (H6 id l Hl) as [(g & Hg & Hh & Hat & Ht) Hlive Hend].
    constructor; [|done|done]. exists g. split_and!; [done|done|cbn; lia|done].
  - by apply inv_validate.
  - destruct (acquire_refused request (svc w) (store w) st' code msg (inv_usable w Hi) H) as [Hu Hp]. apply inv_store; [done|done|apply Hi| |].
    + intros h. destruct (Hp h) as [-> _]. rewrite (inv_pins w Hi). unfold lent. rewrite !occ_app. lia.
    + intros h _. apply Hp.
  - by apply lease_inv_record.
  - by apply inv_renew.
  - by eapply lease_inv_release.
  - apply inv_transition; [done|by left].
  - by apply inv_sweep.
  - by apply lease_inv_unpin.
  - apply inv_svc; [done| |]; destruct registry; [done|done|intros k l' Hl'; by exists l'..].
  - destruct H as [Hu Hn]. apply inv_store; [done|done|intros h; apply Hn| |].
    + intros h. destruct (Hn h) as (_ & -> & _). rewrite (inv_pins w Hi). unfold lent. rewrite !occ_app. lia.
    + intros h Hpos. destruct (Hn h) as (Ho & Hp & Hb). assert (Hlent : pins (store w) h = own w h + occ h (lent w)) by apply (inv_pins w Hi).
      unfold lent in Hlent. rewrite !occ_app in Hlent. pose proof (inv_own w Hi h).
      pose proof (occ_nonneg h (concat (unpinning w))). pose proof (occ_nonneg h (concat (stranded w))). apply Hb; lia.
Qed.

Lemma inv_initial w : initial w -> inv w.
Proof.
  intros (Hl & Ha & Hu & Hst & Hg & Hr & Hus & Hp). constructor.
  - done.
  - intros h. apply Hp.
  - intros h. unfold lent. rewrite Hl, Ha, Hu, Hst. unfold held_by. rewrite map_to_list_empty. cbn. rewrite occ_nil. destruct (Hp h). lia.
  - by rewrite Ha.
  - intros id l g. by rewrite Hl, lookup_empty.
  - intros id l. by rewrite Hl, lookup_empty.
Qed.
Lemma lease_reachable_inv w : reachable w -> inv w.
Proof. intros (w0 & H0 & Hs). apply inv_initial in H0. induction Hs; [done|]. apply IHHs. by eapply lease_inv_step. Qed.
End system.
Arguments World S : clear implicits.

End LeaseSteps.
