(* ===== verification/ControllerServiceLeases.v ===== *)
(** * What a read lease promises

    [Module Leases]: a lease that is answered [LEASE_HELD] kept its blocks pinned and bound
    from its grant to its release, every pin is accounted for, an expired lease is reclaimed
    by the next sweep, and a release within the retention is never told [LEASE_UNKNOWN].
    [Module StoreHooks]: the store's hooks satisfy the interface. *)

From S2P Require Import Prelude ReshardTypes StoreBackend WorkerRegistry LruCache LogicalBlockManager HostOffloadBackend HostOffloadLookup HostOffloadInsert HostOffloadPins KVCacheStore KVCacheStoreWrites ControllerService ControllerServiceSteps.
Import ControllerService OffloadLookup LeaseSteps.

Module Leases.

Section leases.
Context {S : Type} {HS : LeaseHooks S} {HL : LeaseHooksLaws S}.
Variables (ttl_env : Env) (retention : Z).
Hypothesis retention_nonneg : 0 <= retention.
Abbreviation step := (step ttl_env retention).
Abbreviation reachable := (reachable ttl_env retention).
Implicit Types w : World S.

(** ** Runs *)

Lemma lease_run w w' : reachable w -> rtc step w w' -> reachable w'.
Proof. intros (w0 & H0 & Hs) Hs'. exists w0. split; [done|]. by etrans. Qed.

Lemma grants_kept w w' id g : rtc step w w' -> grants w !! id = Some g -> grants w' !! id = Some g.
Proof.
  induction 1 as [|w w1 w' Hs _ IH]; [done|]. intros Hg. apply IH. inv Hs; try done. cbn. by rewrite lookup_insert_ne by congruence.
Qed.
Lemma released_kept w w' id : rtc step w w' -> id ∈ released w -> id ∈ released w'.
Proof. induction 1 as [|w w1 w' Hs _ IH]; [done|]. intros Hr. apply IH. inv Hs; cbn; set_solver. Qed.

Definition live_lease w id : Prop := exists l, read_leases_ (svc w) !! id = Some l ∧ live l = true.

(** A record that is not live stays so. *)
Lemma live_transition now id id' rv s l' :
  read_leases_ (TransitionOutOfLive retention now id' rv s).2 !! id = Some l' -> live l' = true -> read_leases_ s !! id = Some l'.
Proof.
  destruct (transition_spec retention now id' rv s) as (_ & _ & Hne & Heq). destruct (decide (id = id')) as [<-|Hk]; [|by rewrite Hne].
  destruct (read_leases_ s !! id) as [l|] eqn:El; [|congruence]. rewrite Heq. intros [= <-]. by destruct (live l) eqn:Ev.
Qed.
Lemma live_step w w' id g : step w w' -> grants w !! id = Some g -> live_lease w' id -> live_lease w id.
Proof.
  intros Hs Hg (l' & Hl' & Hv). inv Hs; cbn [svc set_svc set_store gave_up snd] in Hl'; try (by exists l').
  - rewrite recorded in Hl'. rewrite lookup_insert_ne in Hl' by congruence. by exists l'.
  - unfold RenewReadLease in Hl'. destruct (read_leases_ (svc w) !! id0) as [l|] eqn:El; [|by exists l']. destruct (live l) eqn:Ev; [|by exists l'].
    cbn in Hl'. apply lookup_insert_Some in Hl' as [[<- <-]|[Hne Hl']]; [by exists l|by exists l'].
  - unfold release_locked in H. destruct (read_leases_ (svc w) !! id0) as [l|] eqn:El; [|injection H as <- <- <-; by exists l'].
    destruct (revoked l); [injection H as <- <- <-; by exists l'|]. pose proof (live_transition (clock w) id id0 false (svc w) l') as Ht.
    destruct (TransitionOutOfLive retention (clock w) id0 false (svc w)). injection H as <- <- <-. exists l'. by auto.
  - exists l'. split; [|done]. by eapply live_transition.
  - destruct (sweep_locked_spec retention (clock w) (svc w)) as (_ & _ & Hsw). rewrite Hsw in Hl'. destruct (read_leases_ (svc w) !! id) as [l|] eqn:El; [|done].
    exists l. split; [done|]. cbn in Hl'. unfold swept in Hl'. destruct (due _ _); [injection Hl' as <-; done|]. destruct (aged_out _ _); [done|]. by injection Hl' as <-.
  - destruct registry; by exists l'.
Qed.
Lemma live_run w w' id g : rtc step w w' -> grants w !! id = Some g -> live_lease w' id -> live_lease w id.
Proof.
  intros Hs. revert g. induction Hs as [|w w1 w' Hs Hs' IH]; intros g Hg Hv; [done|]. eapply live_step; [done..|]. eapply IH; [|done].
  apply (grants_kept w w1 id g); [by apply rtc_once|done].
Qed.

(** While a lease is live its blocks are pinned and bound as granted. *)
Lemma live_pinned w id g : reachable w -> grants w !! id = Some g -> live_lease w id ->
  Forall2 (fun h b => 0 < pins (store w) h ∧ bound (store w) h = Some b) (g_hashes g) (g_ids g).
Proof.
  intros Hi%lease_reachable_inv Hg (l & Hl & Hv); [|done]. pose proof (inv_bound _ w Hi id l g Hl Hv Hg) as Hb.
  destruct (lease_granted _ w id l (inv_leases _ w Hi id l Hl)) as (g' & Hg' & Hh & _). simplify_eq.
  assert (Hp : Forall (fun h => 0 < pins (store w) h) (g_hashes g)).
  { apply Forall_forall. intros h Hin. rewrite Hh in Hin. eapply lent_pinned; [done|]. by eapply live_lent. }
  clear -Hb Hp. induction Hb; [constructor|]. apply Forall_cons in Hp as [? ?]. constructor; auto.
Qed.

(** The first release that is answered [LEASE_HELD] finds the lease live. *)
Lemma held_live w id : reachable w -> id ∉ released w -> (release_locked retention (clock w) id (svc w)).1.1 = LEASE_HELD -> live_lease w id.
Proof.
  intros Hi%lease_reachable_inv Hr; [|done]. unfold release_locked. destruct (read_leases_ (svc w) !! id) as [l|] eqn:El; [|done].
  destruct (revoked l) eqn:Er; [done|]. intros _. exists l. split; [done|]. destruct (live l) eqn:Ev; [done|]. exfalso.
  apply Hr. by apply (lease_ended _ w id l (inv_leases _ w Hi id l El)).
Qed.

(** C15: when the first release of a lease is answered [LEASE_HELD], the source kept every
    block of the lease pinned and bound to the granted host block at every moment from the
    grant to the release, whatever the sweeper, other readers and the rest of the node did. *)
Theorem lease_held_continuously w w1 w' id g :
  reachable w -> grants w !! id = Some g -> rtc step w w1 -> rtc step w1 w' ->
  id ∉ released w' -> (release_locked retention (clock w') id (svc w')).1.1 = LEASE_HELD ->
  Forall2 (fun h b => 0 < pins (store w1) h ∧ bound (store w1) h = Some b) (g_hashes g) (g_ids g).
Proof.
  intros Hr Hg Hs1 Hs2 Hrel Hheld. assert (Hr1 : reachable w1) by (by eapply lease_run).
  assert (Hg1 : grants w1 !! id = Some g) by (by eapply grants_kept). apply (live_pinned w1 id); [done..|].
  eapply live_run; [done..|]. apply held_live; [by eapply lease_run|done|done].
Qed.

(** every pin in the store is one of the rest of the node, of a live lease, of an acquire
    that is about to record its lease or of an unpin that is on its way (or was given up
    while no hook was set): none is dropped twice and none is forgotten. *)
Theorem lease_pins_accounted w h : reachable w ->
  pins (store w) h = own w h + occ h (held_by (read_leases_ (svc w))) + occ h (acquiring w ≫= acq_hashes) +
                     occ h (concat (unpinning w)) + occ h (concat (stranded w)).
Proof. intros Hi%lease_reachable_inv; [|done]. rewrite (inv_pins _ w Hi). unfold lent. rewrite !occ_app. lia. Qed.

(** ** Expiry and retention *)

(** Records are kept for the retention. *)
Lemma record_kept w id g : reachable w -> grants w !! id = Some g -> clock w < g_at g + retention -> is_Some (read_leases_ (svc w) !! id).
Proof.
  intros (w0 & H0 & Hs). assert (Hi0 : inv retention w0) by (by apply inv_initial).
  assert (Hk0 : forall id g, grants w0 !! id = Some g -> clock w0 < g_at g + retention -> is_Some (read_leases_ (svc w0) !! id)).
  { intros i g'. destruct H0 as (_ & _ & _ & _ & -> & _). by rewrite lookup_empty. }
  clear H0. revert id g. induction Hs as [|w0 w1 w Hs Hs' IH]; [done|]. apply IH; [by eapply lease_inv_step|].
  clear IH Hs'. intros id g. inv Hs; cbn [svc grants clock set_svc set_store gave_up snd]; try by apply Hk0.
  - intros Hg Ht. eapply Hk0; [done|]. lia.
  - rewrite recorded. intros Hg. rewrite lookup_insert. case_decide; [done|]. rewrite lookup_insert_ne in Hg by done. by eapply Hk0.
  - intros Hg Ht. destruct (Hk0 id g Hg Ht) as [l Hl]. unfold RenewReadLease. destruct (read_leases_ (svc w0) !! id0) eqn:E; [|by exists l].
    destruct (live _); [|by exists l]. cbn. rewrite lookup_insert. case_decide; [done|by exists l].
  - intros Hg Ht. destruct (Hk0 id g Hg Ht) as [l Hl]. unfold release_locked in H. destruct (read_leases_ (svc w0) !! id0) eqn:E; [|injection H as <- <- <-; by exists l].
    destruct (revoked _); [injection H as <- <- <-; by exists l|]. destruct (transition_spec retention (clock w0) id0 false (svc w0)) as (_ & _ & Hne & Heq).
    destruct (TransitionOutOfLive retention (clock w0) id0 false (svc w0)). injection H as <- <- <-. cbn in Hne, Heq.
    destruct (decide (id = id0)) as [->|Hk]; [rewrite E in Heq; rewrite Heq; done|]. rewrite Hne by done. by exists l.
  - intros Hg Ht. destruct (Hk0 id g Hg Ht) as [l Hl]. destruct (transition_spec retention (clock w0) id0 true (svc w0)) as (_ & _ & Hne & Heq).
    destruct (decide (id = id0)) as [->|Hk]; [rewrite Hl in Heq; rewrite Heq; done|]. rewrite Hne by done. by exists l.
  - intros Hg Ht. destruct (Hk0 id g Hg Ht) as [l Hl]. destruct (sweep_locked_spec retention (clock w0) (svc w0)) as (_ & _ & Hsw). rewrite Hsw, Hl. cbn. unfold swept.
    destruct (due _ _); [done|]. destruct (aged_out (clock w0) (0, l)) eqn:Ea; [|done]. exfalso. unfold aged_out in Ea. cbn in Ea. to_prop. destruct Ea as [_ Ea].
    destruct (retire_at l) as [t|] eqn:Et; [|done]. to_prop. destruct (lease_granted _ w0 id l (inv_leases _ w0 Hi0 id l Hl)) as (g' & Hg' & _ & _ & Hret).
    simplify_eq. specialize (Hret t Et). lia.
  - destruct registry; by apply Hk0.
Qed.

(** a reader that releases within the retention of its grant learns what became of the
    pins: it is answered [LEASE_HELD] or [LEASE_REVOKED], never [LEASE_UNKNOWN]. *)
Theorem lease_verdict_known w id g :
  reachable w -> grants w !! id = Some g -> clock w < g_at g + retention ->
  let verdict := (release_locked retention (clock w) id (svc w)).1.1 in verdict = LEASE_HELD ∨ verdict = LEASE_REVOKED.
Proof.
  intros Hr Hg Ht. destruct (record_kept w id g Hr Hg Ht) as [l Hl]. unfold release_locked. rewrite Hl. destruct (revoked l); [by right|].
  destruct (TransitionOutOfLive _ _ _ _ _). by left.
Qed.

Lemma min_fold_le (ws : list Z) (a x : Z) : x = a ∨ x ∈ ws -> foldl Z.min a ws <= x.
Proof.
  revert a x. induction ws as [|y ws IH]; intros a x Hx; cbn [foldl]; [destruct Hx as [->|Hx]; [lia|by apply elem_of_nil in Hx]|].
  assert (Hmin : foldl Z.min (Z.min a y) ws <= Z.min a y) by (apply IH; by left).
  destruct Hx as [->|[->|Hx]%elem_of_cons]; [lia|lia|apply IH; by right].
Qed.
(** The sweeper does not sleep past the end of a lease. *)
Lemma wake_in_time now m id l : m !! id = Some l -> live l = true -> sweep_wake now m <= expiration l.
Proof.
  intros Hl Hv. unfold sweep_wake. set (wakes := omap _ _). assert (Hin : expiration l ∈ wakes).
  { unfold wakes. apply list_elem_of_omap. exists (id, l). split; [by apply elem_of_map_to_list|]. cbn. by rewrite Hv. }
  destruct wakes as [|x ws]; [by apply elem_of_nil in Hin|]. apply min_fold_le. by apply elem_of_cons in Hin.
Qed.

(** expired leases are reclaimed and no others: the sweeper wakes up no later than the end
    of any live lease, a sweep at or after that end revokes the lease, so that its reader is
    told [LEASE_REVOKED], a sweep before it leaves the lease as it is, and every hash a sweep
    takes out of the table is handed to the unpin hook. *)
Theorem lease_reclaimed s id l now :
  read_leases_ s !! id = Some l -> live l = true ->
  let r := sweep_locked retention now s in
  (forall t, sweep_wake t (read_leases_ s) <= expiration l) ∧
  (expiration l <= now -> forall now', (release_locked retention now' id r.2).1 = (LEASE_REVOKED, [])) ∧
  (now < expiration l -> read_leases_ r.2 !! id = Some l) ∧
  (forall h, occ h (held_by (read_leases_ s)) = occ h r.1 + occ h (held_by (read_leases_ r.2))).
Proof.
  intros Hl Hv r. destruct (sweep_locked_spec retention now s) as (_ & Ho & Hsw). specialize (Hsw id). rewrite Hl in Hsw. cbn in Hsw. unfold swept, due, aged_out in Hsw.
  cbn in Hsw. rewrite Hv in Hsw. cbn in Hsw. split_and!; [intros t; by eapply wake_in_time| | |done].
  - intros He now'. destruct (Z.leb_spec (expiration l) now); [|lia]. unfold release_locked. fold r in Hsw. by rewrite Hsw.
  - intros He. destruct (Z.leb_spec (expiration l) now); [lia|]. done.
Qed.
End leases.
End Leases.

(** ** The hooks of the store *)

Module StoreHooks.
Import OffloadPins.

(** The hooks [RegisterReadRemoteHooks] sets, with the answers of the global registry fixed. *)
#[export] Instance store_hooks (registry : list Hash -> StatusOr (list HostOffload.KVBlockMetadata)) : LeaseHooks Store.KVCacheStore := {
  validate_and_pin := Store.ValidateAndPinHostBlocks registry;
  unpin := Store.UnpinHostBlocks
}.

Abbreviation index s := (HostOffload.lru_cache_ (Store.tier0 s)).
Definition host_binding (s : Store.KVCacheStore) (h : Hash) : option Z :=
  LRU.Peek h (index s) ≫= fun blk => if on_host blk then Some (host_block_id blk) else None.

Lemma check_host_ids l acc ids : for_each Store.check_host l acc = Ok ids ->
  ids = acc ++ ((fun e => host_block_id e.2) <$> l) ∧ Forall (fun e => on_host e.2 = true) l.
Proof.
  revert acc. induction l as [|e l IH]; intros acc; cbn [for_each]; [intros [= <-]; by rewrite app_nil_r|].
  unfold Store.check_host at 1. destruct (on_host e.2) eqn:Eh; [|done]. intros [-> Hall]%IH. split; [by rewrite <-app_assoc|by constructor].
Qed.

(** The hash and slice pairs of a full answer of a lookup that does not pin. *)
Lemma full_answer registry hs s : LRU.wf (index s) ->
  let slices := Store.lookup0 registry default_options hs s in
  (length hs <= length slices)%nat -> slices.*1 = hs ∧
  Forall (fun e => on_host e.2 = true -> LRU.Peek e.1 (index s) = Some e.2) slices.
Proof.
  intros Hwf slices Hlen. destruct (Lookup_nopin registry hs default_options (Store.tier0 s) Hwf eq_refl) as (_ & Hle & Hpre & Hres).
  fold (Store.lookup0 registry default_options hs s) in Hle, Hpre, Hres. fold slices in Hle, Hpre, Hres. split; [rewrite Hpre, take_ge; done|].
  apply Forall_lookup. intros i [h blk] Hi. destruct (Hres i h blk Hi) as [_ [Hp|Hp]]; [done|]. cbn. intros Hh. unfold on_host in Hh. rewrite Hp in Hh. done.
Qed.

Lemma store_validate_ok registry hs s ids s' : LRU.wf (index s) -> Store.ValidateAndPinHostBlocks registry hs s = (Ok ids, s') ->
  LRU.wf (index s') ∧ Forall2 (fun h id => host_binding s h = Some id) hs ids ∧
  forall h, HostOffload.GetPinCount h (Store.tier0 s') = HostOffload.GetPinCount h (Store.tier0 s) + occ h hs ∧ host_binding s' h = host_binding s h.
Proof.
  intros Hwf. unfold Store.ValidateAndPinHostBlocks. set (slices := Store.lookup0 registry default_options hs s).
  destruct (Nat.ltb_spec (length slices) (length hs)) as [|Hlen]; [done|]. destruct (full_answer registry hs s Hwf Hlen) as [Hfst Hpeek]. fold slices in Hfst, Hpeek.
  destruct (for_each Store.check_host (zip hs slices.*2) []) as [js|] eqn:Ec; [|done].
  assert (Hz : zip hs slices.*2 = slices) by (rewrite <-Hfst; by apply zip_fst_snd). rewrite Hz in Ec. apply check_host_ids in Ec as [-> Hhost]. cbn [app].
  assert (Hall : Forall (fun e => LRU.Peek e.1 (index s) = Some e.2 ∧ on_host e.2 = true) slices).
  { apply Forall_forall. intros e He. rewrite Forall_forall in Hpeek, Hhost. split; [by apply Hpeek; [|apply Hhost]|by apply Hhost]. }
  assert (Hpk : Forall (fun h => is_Some (LRU.Peek h (index s))) hs).
  { rewrite <-Hfst. apply Forall_fmap. eapply Forall_impl; [exact Hall|]. intros e [He _]. by exists e.2. }
  destruct (Pin_spec hs (Store.tier0 s) Hwf) as (_ & Hwf' & _ & Hpins). destruct (Pin_Peeks hs (Store.tier0 s) Hwf Hpk) as [Hp1 Hp2].
  destruct (HostOffload.Pin hs (Store.tier0 s)) as [pinned b]. cbn [fst snd] in *. subst pinned. intros [= <- <-]. split_and!; [done| |].
  - rewrite <-Hfst. clear -Hall. induction Hall as [|e l [He Hh] _ IH]; cbn; constructor; [|done]. unfold host_binding. rewrite He. cbn. by rewrite Hh.
  - intros h. split; [apply Hpins|]. unfold host_binding. cbn [Store.tier0 Store.set_tier0]. by rewrite Hp2.
Qed.
Lemma store_validate_refused registry hs s code msg s' : LRU.wf (index s) -> Store.ValidateAndPinHostBlocks registry hs s = (Err code msg, s') -> s' = s.
Proof.
  intros Hwf. unfold Store.ValidateAndPinHostBlocks. set (slices := Store.lookup0 registry default_options hs s).
  destruct (Nat.ltb_spec (length slices) (length hs)) as [|Hlen]; [by intros [= _ _ <-]|]. destruct (full_answer registry hs s Hwf Hlen) as [Hfst Hpeek]. fold slices in Hfst, Hpeek.
  destruct (for_each Store.check_host (zip hs slices.*2) []) as [js|] eqn:Ec; [|by intros [= _ _ <-]].
  assert (Hz : zip hs slices.*2 = slices) by (rewrite <-Hfst; by apply zip_fst_snd). rewrite Hz in Ec. apply check_host_ids in Ec as [-> Hhost].
  assert (Hpk : Forall (fun h => is_Some (LRU.Peek h (index s))) hs).
  { rewrite <-Hfst. apply Forall_fmap, Forall_forall. intros e He. rewrite Forall_forall in Hpeek, Hhost. exists e.2. by apply Hpeek; [|apply Hhost]. }
  destruct (Pin_Peeks hs (Store.tier0 s) Hwf Hpk) as [Hp1 _]. destruct (HostOffload.Pin hs (Store.tier0 s)) as [pinned b]. cbn in Hp1. by subst pinned.
Qed.

#[export] Instance store_hooks_laws registry : @LeaseHooksLaws _ (store_hooks registry).
Proof.
  refine {| usable s := LRU.wf (index s); pins s h := HostOffload.GetPinCount h (Store.tier0 s); bound := host_binding |}.
  - intros hs s ids s'. apply store_validate_ok.
  - intros hs s code msg s' Hwf Hr. by apply store_validate_refused in Hr as ->.
  - intros hs s Hwf. split; [by apply Release_wf|]. intros h. split; [by apply Release_pins|]. unfold host_binding. cbn. by rewrite Release_Peek.
Defined.
End StoreHooks.

(** ** A run *)

Module LeaseRun.
Import StoreHooks Leases.

Definition no_registry (hs : list Hash) : StatusOr (list HostOffload.KVBlockMetadata) := Ok [].
#[local] Instance run_hooks : LeaseHooks Store.KVCacheStore := store_hooks no_registry.
#[local] Instance run_laws : LeaseHooksLaws Store.KVCacheStore := store_hooks_laws no_registry.

(** A store with three host blocks, of which a peer leases two for a minute. *)
Definition keep : Z := RevokedLeaseRetention None None.
Definition source : Store.KVCacheStore := StoreWrites.empty_store demo (LBM.create 4).
Definition request : AcquireReadLeaseRequest := mkAcquire [[1]; [2]] 60000 (RaidenIdToProto (node 2)).
Definition world0 : World Store.KVCacheStore :=
  mkWorld (SetReadRemoteHooks (create None)) source 0 [] [] [] (fun h => HostOffload.GetPinCount h demo) ∅ [].
Definition pinned : Store.KVCacheStore := (acquire_pins request (svc world0) source).2.
Definition world1 : World Store.KVCacheStore :=
  mkWorld (svc world0) pinned 0 [mkAcquiring [[1]; [2]] [10; 11] 0] [] [] (own world0) ∅ [].
Definition acquiring1 : Acquire := mkAcquiring [[1]; [2]] [10; 11] 0.
Definition grant : Grant := mkGrant (acq_hashes acquiring1) (acq_ids acquiring1) (clock world1).
Definition world2 : World Store.KVCacheStore :=
  mkWorld (RecordLease 0 7 (acq_hashes acquiring1) "peer" (granted None 60000) (svc world1)) (store world1) (clock world1)
    (delete 0%nat (acquiring world1)) (unpinning world1) (stranded world1) (own world1) (<[7 := grant]> (grants world1)) (released world1).
Definition at_time (t : Z) (w : World Store.KVCacheStore) : World Store.KVCacheStore :=
  mkWorld (svc w) (store w) t (acquiring w) (unpinning w) (stranded w) (own w) (grants w) (released w).

Lemma world0_initial : initial world0.
Proof.
  split_and!; [done..|exact offload_demo_wf|]. intros h. split; [|done]. apply LRU.wf_pin_nonneg, offload_demo_wf.
Qed.
Lemma acquired : acquire_pins request (svc world0) source = (Ok [10; 11], pinned).
Proof. assert (E : (acquire_pins request (svc world0) source).1 = Ok [10; 11]) by (vm_compute; reflexivity). unfold pinned. rewrite <-E. apply surjective_pairing. Qed.
Lemma world2_reachable : reachable None keep world2.
Proof.
  exists world0. split; [apply world0_initial|]. eapply rtc_l; [exact (StepValidate None keep world0 request [10; 11] pinned acquired)|].
  apply rtc_once. exact (StepRecord None keep world1 0 acquiring1 0 7 "peer" 60000 eq_refl (conj (Z.le_refl 0) (Z.le_refl 0)) ltac:(discriminate) eq_refl).
Qed.

Lemma lease_held_continuously_witness :
  Forall2 (fun h b => 0 < pins (store world2) h ∧ bound (store world2) h = Some b) (g_hashes grant) (g_ids grant).
Proof.
  assert (Hv : (release_locked keep (Seconds 59) 7 (svc world2)).1.1 = LEASE_HELD) by (vm_compute; reflexivity).
  assert (Hg : grants world2 !! 7 = Some grant) by (vm_compute; reflexivity).
  apply (lease_held_continuously (S := Store.KVCacheStore) None keep ltac:(vm_compute; discriminate) world2 world2 (at_time (Seconds 59) world2) 7 grant
           world2_reachable Hg (rtc_refl _ _)).
  - apply rtc_once. apply (StepTime None keep world2). vm_compute. discriminate.
  - apply not_elem_of_nil.
  - exact Hv.
Defined.
Lemma lease_pins_accounted_witness : pins (store world2) [1] = 1.
Proof.
  refine (eq_trans (lease_pins_accounted (S := Store.KVCacheStore) None keep ltac:(vm_compute; discriminate) world2 [1] world2_reachable) _).
  vm_compute. reflexivity.
Defined.
Lemma lease_verdict_known_witness :
  let verdict := (release_locked keep (Seconds 200) 7 (svc world2)).1.1 in verdict = LEASE_HELD ∨ verdict = LEASE_REVOKED.
Proof.
  assert (Hg : grants world2 !! 7 = Some grant) by (vm_compute; reflexivity).
  apply (lease_verdict_known (S := Store.KVCacheStore) None keep ltac:(vm_compute; discriminate) (at_time (Seconds 200) world2) 7 grant).
  - eapply lease_run; [exact world2_reachable|]. apply rtc_once. apply (StepTime None keep world2). vm_compute. discriminate.
  - exact Hg.
  - vm_compute. reflexivity.
Defined.
Lemma lease_reclaimed_witness : (release_locked keep (Seconds 70) 7 (sweep_locked keep (Seconds 61) (svc world2)).2).1 = (LEASE_REVOKED, []).
Proof.
  assert (Hl : read_leases_ (svc world2) !! 7 = Some (mkLease [[1]; [2]] "peer" (Seconds 60) true false None)) by (vm_compute; reflexivity).
  destruct (lease_reclaimed keep (svc world2) 7 _ (Seconds 61) Hl eq_refl) as (_ & Hr & _). apply Hr. vm_compute. discriminate.
Defined.
End LeaseRun.
