(* ===== verification/RaidenController.v ===== *)
(** * The controller of a node ([src/tpu_sync/core/controller/raiden_controller.cc], [src/tpu_sync/core/buffer.cc])

    Buffers and their protos, allocation of logical blocks, transfers broadcast to the
    registered workers and the caller's side of a remote read up to the lease protocol, which
    RemoteRead.v models.  A call that may wait is split where it does; the worker services
    ([CreateBuffers], [TransferBuffers], [DeleteBuffers]) are what was sent to them and
    parameters for what they answer. *)

From S2P Require Import Prelude ReshardTypes StoreBackend LogicalBlockManager WorkerRegistry KVCacheStoreService ControllerService.
Import Workers.

Module Controller.
Import ControllerService.

(** ** Buffers *)

Inductive MemoryType : Type := MEMORY_TYPE_UNSPECIFIED | MEMORY_TYPE_DRAM | MEMORY_TYPE_HBM.
#[global] Instance MemoryType_eq_dec : EqDecision MemoryType.
Proof. solve_decision. Defined.

Record BufferShard : Type := mkShard { handle : Z; offset : Z; size : Z }.
Record Buffer : Type := mkBuffer {
  index : Z;
  buffer_shards : list BufferShard;
  remote_address : option string;
  memory_type : MemoryType;
  remote_descriptors : list RaidenTransferEndpoint;
  remote_worker_endpoints : list RaidenWorkerEndpoints
}.
(** [index] is optional; an unset string is empty. *)
Record BufferProto : Type := mkProto {
  buffer_handles : list Z;
  p_index : option Z;
  p_memory_type : MemoryType;
  p_remote_address : string;
  p_remote_descriptors : list RaidenTransferEndpoint;
  p_remote_worker_endpoints : list RaidenWorkerEndpoints
}.

Definition ToProto (b : Buffer) : BufferProto :=
  mkProto (handle <$> buffer_shards b) (if 0 <=? index b then Some (index b) else None) (memory_type b)
    (default EmptyString (remote_address b)) (remote_descriptors b) (remote_worker_endpoints b).

Definition FromProto (p : BufferProto) (address : option string) : Buffer :=
  mkBuffer (default (-1) (p_index p)) ((fun h => mkShard h 0 0) <$> buffer_handles p)
    (match address with
     | Some a => Some a
     | None => if is_empty (p_remote_address p) then None else Some (p_remote_address p)
     end)
    (p_memory_type p) (p_remote_descriptors p) (p_remote_worker_endpoints p).

Definition set_index (i : Z) (p : BufferProto) : BufferProto :=
  mkProto (buffer_handles p) (Some i) (p_memory_type p) (p_remote_address p) (p_remote_descriptors p) (p_remote_worker_endpoints p).
Definition set_memory_type (t : MemoryType) (b : Buffer) : Buffer :=
  mkBuffer (index b) (buffer_shards b) (remote_address b) t (remote_descriptors b) (remote_worker_endpoints b).
(** [set_remote_descriptors] followed by [set_remote_worker_endpoints({})]. *)
Definition set_peer (eps : list RaidenTransferEndpoint) (b : Buffer) : Buffer :=
  mkBuffer (index b) (buffer_shards b) (remote_address b) (memory_type b) eps [].
Definition set_remote_descriptors (eps : list RaidenTransferEndpoint) (b : Buffer) : Buffer :=
  mkBuffer (index b) (buffer_shards b) (remote_address b) (memory_type b) eps (remote_worker_endpoints b).
(** [Buffer(id, {}, std::nullopt, type)]. *)
Definition block_buffer (t : MemoryType) (id : Z) : Buffer := mkBuffer id [] None t [] [].
Definition set_remote_worker_endpoints (gs : list RaidenWorkerEndpoints) (b : Buffer) : Buffer :=
  mkBuffer (index b) (buffer_shards b) (remote_address b) (memory_type b) (remote_descriptors b) gs.

(** ** State *)

Record RaidenController : Type := mkController {
  unit_ : RaidenIdProto;
  num_shards_ : Z;
  shard_size_bytes_ : Z;
  num_total_blocks_ : Z;
  preprovision_worker_buffers_ : bool;
  all_sharded_buffers_ : list BufferProto;
  registry_ : WorkerRegistry;
  block_manager_ : LBM.LogicalBlockManager;
  (** Channels to peers by address, and the order in which they were dialled. *)
  stubs_ : gmap string nat;
  stub_order_ : list string
}.
Implicit Types c : RaidenController.

Definition create (unit : RaidenIdProto) (num_blocks num_shards shard_size_bytes : Z) (preprovision : bool) : RaidenController :=
  mkController unit num_shards shard_size_bytes num_blocks preprovision [] ∅ (LBM.create num_blocks) ∅ [].
Definition set_manager m c : RaidenController :=
  mkController (unit_ c) (num_shards_ c) (shard_size_bytes_ c) (num_total_blocks_ c) (preprovision_worker_buffers_ c)
    (all_sharded_buffers_ c) (registry_ c) m (stubs_ c) (stub_order_ c).
Definition set_sharded_buffers bs c : RaidenController :=
  mkController (unit_ c) (num_shards_ c) (shard_size_bytes_ c) (num_total_blocks_ c) (preprovision_worker_buffers_ c)
    bs (registry_ c) (block_manager_ c) (stubs_ c) (stub_order_ c).
Definition set_registry r c : RaidenController :=
  mkController (unit_ c) (num_shards_ c) (shard_size_bytes_ c) (num_total_blocks_ c) (preprovision_worker_buffers_ c)
    (all_sharded_buffers_ c) r (block_manager_ c) (stubs_ c) (stub_order_ c).
Definition set_stubs stubs order c : RaidenController :=
  mkController (unit_ c) (num_shards_ c) (shard_size_bytes_ c) (num_total_blocks_ c) (preprovision_worker_buffers_ c)
    (all_sharded_buffers_ c) (registry_ c) (block_manager_ c) stubs order.

(** ** Worker buffers *)

Record CreateBuffersResponse : Type := mkCreated { cr_success : bool; cr_message : list Frag; cr_buffers : list BufferProto }.

Definition CreateBuffersForWorker (answer : StatusOr CreateBuffersResponse) (worker : string) (num_blocks : Z) : StatusOr CreateBuffersResponse :=
  match answer with
  | Err code msg => Err code (StrCat["Failed to create buffers on worker "; worker; ": "] ++ msg)
  | Ok resp =>
      if negb (cr_success resp) then
        Err kFailedPrecondition (StrCat["WorkerService CreateBuffers failed on worker "; worker; ": "] ++ cr_message resp)
      else if negb (Z.of_nat (length (cr_buffers resp)) =? num_blocks) then
        Err kFailedPrecondition StrCat["WorkerService returned unexpected number of buffers on "; worker; ": ";
                                       Z.of_nat (length (cr_buffers resp)); " vs expected "; num_blocks]
      else Ok resp
  end.

(** [InitializeWorkerBuffers]: the request is [provision_blocks] equal specs; [answer] is what
    the worker's service says to it. *)
Definition provision_blocks c : Z := if preprovision_worker_buffers_ c then num_total_blocks_ c else 0.
Definition InitializeWorkerBuffers (answer : StatusOr CreateBuffersResponse) (reg : WorkerRegistration) c : Status * list BufferProto * RaidenController :=
  match worker_service_client reg with
  | None => (Err kFailedPrecondition StrCat["WorkerServiceClient for "; worker_id reg; " is not initialized"], [], c)
  | Some _ =>
      match CreateBuffersForWorker answer (worker_id reg) (provision_blocks c) with
      | Err _ msg => (Err kFailedPrecondition (StrCat["CreateBuffers RPC failed: "] ++ msg), [], c)
      | Ok resp =>
          let created := imap (fun i p => set_index (Z.of_nat i) p) (take (Z.to_nat (provision_blocks c)) (cr_buffers resp)) in
          (OkStatus, created, match all_sharded_buffers_ c with [] => set_sharded_buffers created c | _ => c end)
      end
  end.

(** ** Allocation *)

(** The outer option is the crash of an index past the provisioned buffers. *)
Definition Allocate (num_blocks : Z) c : option (StatusOr (list BufferProto) * RaidenController) :=
  match all_sharded_buffers_ c with
  | [] =>
      Some (Err kFailedPrecondition
              StrCat["No physical buffers provisioned: register a worker first, and note that Physical/BufferProto mode is unavailable when the controller was built with preprovision_worker_buffers=false"], c)
  | bs =>
      match LBM.Allocate (block_manager_ c) num_blocks true with
      | (Err code msg, m) => Some (Err code msg, set_manager m c)
      | (Ok ids, m) =>
          match mapM (fun id => bs !! Z.to_nat id) ids with
          | None => None
          | Some protos => Some (Ok protos, set_manager m c)
          end
      end
  end.

Definition AllocateBuffers (num_blocks : Z) c : option (StatusOr (list Buffer) * RaidenController) :=
  match Allocate num_blocks c with
  | None => None
  | Some (Err code msg, c) => Some (Err code msg, c)
  | Some (Ok protos, c) => Some (Ok ((fun p => set_memory_type MEMORY_TYPE_DRAM (FromProto p None)) <$> (protos : list BufferProto)), c)
  end.

Definition block_index (acc : list Z) (p : BufferProto) : StatusOr (list Z) :=
  match p_index p with
  | Some i => if i <? 0 then Err kInvalidArgument StrCat["BufferProto has invalid or missing index"] else Ok (acc ++ [i])
  | None => Err kInvalidArgument StrCat["BufferProto has invalid or missing index"]
  end.
Definition Deallocate (sharded_buffers : list BufferProto) c : Status * RaidenController :=
  match for_each block_index sharded_buffers [] with
  | Err code msg => (Err code msg, c)
  | Ok ids => let '(st, m) := LBM.Deallocate (block_manager_ c) ids in (st, set_manager m c)
  end.
Definition DeallocateBuffers (buffers : list Buffer) c : Status * RaidenController := Deallocate (ToProto <$> buffers) c.

Definition AllocateBlockIds (num_blocks : Z) c : StatusOr (list Z) * RaidenController :=
  let '(r, m) := LBM.Allocate (block_manager_ c) num_blocks true in (r, set_manager m c).
Definition DeallocateBlockIds (ids : list Z) c : Status * RaidenController :=
  let '(st, m) := LBM.Deallocate (block_manager_ c) ids in (st, set_manager m c).
Definition AllocateTargetBlockIds (ids : list Z) c : Status * RaidenController :=
  let '(st, m) := LBM.AllocateTarget (block_manager_ c) ids in (st, set_manager m c).

(** ** Transfers *)

Record TransferBuffersRequest : Type := mkTransfer {
  src_mem_type : MemoryType;
  dst_mem_type : MemoryType;
  src_buffers : list BufferProto;
  dst_buffers : list BufferProto;
  copy_sizes : list Z;
  staging_host_buffers : list BufferProto
}.

(** One of the loops over the buffers of a role. *)
Definition add_buffer (role : string) (acc : list BufferProto) (b : Buffer) : StatusOr (list BufferProto) :=
  if index b <? 0 then Err kInvalidArgument StrCat[role; " buffer has invalid negative index: "; index b]
  else Ok (acc ++ [set_index (index b) (ToProto b)]).

Definition same_length : list Frag := StrCat["Source and destination buffers must have the same non-zero length"].
Definition sizes_length : list Frag := StrCat["copy_sizes, if provided, must match the length of src_buffers"].
(** [!copy_sizes.empty() && copy_sizes.size() != src_buffers.size()]. *)
Definition bad_sizes (src : list Buffer) (sizes : list Z) : bool :=
  negb (length sizes =? 0)%nat && negb (length sizes =? length src)%nat.

Definition BuildTransferBuffersRequest (src dst staging : list Buffer) (sizes : list Z) : StatusOr TransferBuffersRequest :=
  match src, dst with
  | s0 :: _, d0 :: _ =>
      if negb (length src =? length dst)%nat then Err kInvalidArgument same_length
      else if bad_sizes src sizes then Err kInvalidArgument sizes_length
      else
        let? srcs := for_each (add_buffer "Source") src [] in
        let? dsts := for_each (add_buffer "Destination") dst [] in
        let? stagings := for_each (add_buffer "Staging host") staging [] in
        Ok (mkTransfer (memory_type s0) (memory_type d0) srcs dsts sizes stagings)
  | _, _ => Err kInvalidArgument same_length
  end.

(** The request that goes to one worker, with the worker. *)
Abbreviation Sent := (WorkerRegistration * TransferBuffersRequest)%type.

Definition TransferBuffersTo (worker : string) (src dst staging : list Buffer) (sizes : list Z) c : StatusOr Sent :=
  match BuildTransferBuffersRequest src dst staging sizes with
  | Err code msg => Err code msg
  | Ok request =>
      match GetWorker worker (registry_ c) with
      | Err _ _ => Err kFailedPrecondition StrCat["Worker "; worker; " is not registered. Did you wait for the worker to register?"]
      | Ok reg =>
          match worker_service_client reg with
          | None => Err kFailedPrecondition StrCat["WorkerServiceClient for "; worker; " is not initialized."]
          | Some _ => Ok (reg, request)
          end
      end
  end.

Definition remote_buffer (b : Buffer) : bool :=
  negb (length (remote_worker_endpoints b) =? 0)%nat || bool_decide (is_Some (remote_address b)).
Definition first_hbm (bs : list Buffer) : bool :=
  match bs with b :: _ => bool_decide (memory_type b = MEMORY_TYPE_HBM) | [] => false end.

Section atoi.
(** [absl::SimpleAtoi] into an [int]. *)
Variable SimpleAtoi : string -> option Z.

Definition strip_worker (s : string) : option string := if String.prefix "worker_" s then Some (String.substring 7 (String.length s - 7) s) else None.
Definition worker_number (s : string) : option Z := match strip_worker s with Some rest => SimpleAtoi rest | None => None end.
Definition CompareWorkerIds (a b : string) : bool :=
  match worker_number a, worker_number b with
  | Some id_a, Some id_b => id_a <? id_b
  | _, _ => match String.compare a b with Lt => true | _ => false end
  end.

(** The groups of the peer by node id; the first of a node id stays. *)
Definition add_group (m : gmap Z RaidenWorkerEndpoints) (g : RaidenWorkerEndpoints) : gmap Z RaidenWorkerEndpoints :=
  match m !! group_node_id g with Some _ => m | None => <[group_node_id g := g]> m end.
Definition groups_of (bs : list Buffer) : gmap Z RaidenWorkerEndpoints := foldl add_group ∅ (bs ≫= remote_worker_endpoints).
Definition peer_node_id_to_endpoints (src dst : list Buffer) : gmap Z RaidenWorkerEndpoints :=
  if bool_decide (groups_of dst = ∅) then groups_of src else groups_of dst.

Definition no_group (side other : string) (w : WorkerRegistration) (b : Buffer) : list Frag :=
  StrCat["TransferBuffers: no "; side; " worker group with node_id "; node_id w; " to match "; other; " worker '"; worker_id w; "' (";
         side; " provided "; Z.of_nat (length (remote_worker_endpoints b)); " group(s))"].

Definition pair_src (peers : gmap Z RaidenWorkerEndpoints) (w : WorkerRegistration) (b : Buffer) : StatusOr Buffer :=
  match remote_worker_endpoints b with
  | [] => Ok b
  | _ =>
      match peers !! node_id w with
      | None => Err kFailedPrecondition (no_group "source" "local" w b)
      | Some g => Ok (set_peer (group_endpoints g) b)
      end
  end.
Definition pair_dst (peers : gmap Z RaidenWorkerEndpoints) (w : WorkerRegistration) (b : Buffer) : StatusOr Buffer :=
  match remote_worker_endpoints b with
  | [] =>
      if (length (remote_descriptors b) =? 0)%nat && bool_decide (remote_address b = None) && negb (length (raiden_transfer_endpoints w) =? 0)%nat
      then Ok (set_remote_descriptors (raiden_transfer_endpoints w) b) else Ok b
  | _ =>
      match peers !! node_id w with
      | None => Err kFailedPrecondition (no_group "destination" "source" w b)
      | Some g => Ok (set_peer (group_endpoints g) b)
      end
  end.
Definition pair_buffers (peers : gmap Z RaidenWorkerEndpoints) (w : WorkerRegistration) (acc : list Buffer * list Buffer) (e : Buffer * Buffer) :
    StatusOr (list Buffer * list Buffer) :=
  let? s := pair_src peers w e.1 in
  let? d := pair_dst peers w e.2 in
  Ok (acc.1 ++ [s], acc.2 ++ [d]).

Definition worker_request (peers : gmap Z RaidenWorkerEndpoints) (src dst staging : list Buffer) (sizes : list Z) (w : WorkerRegistration) :
    StatusOr TransferBuffersRequest :=
  let? bufs := for_each (pair_buffers peers w) (zip src dst) ([], []) in
  BuildTransferBuffersRequest bufs.1 bufs.2 staging sizes.

(** The loop over the workers: what was sent before it ended. *)
Fixpoint send_all (request : WorkerRegistration -> StatusOr TransferBuffersRequest) (workers : list WorkerRegistration) (sent : list Sent) : Status * list Sent :=
  match workers with
  | [] => (OkStatus, sent)
  | w :: rest =>
      match worker_service_client w with
      | None => send_all request rest sent
      | Some _ =>
          match request w with
          | Err code msg => (Err code msg, sent)
          | Ok r => send_all request rest (sent ++ [(w, r)])
          end
      end
  end.

(** The staging blocks of a remote transfer: the error, or the blocks the request uses and
    those allocated for it. *)
Definition staging_for (src dst staging : list Buffer) c : StatusOr (list Buffer * option (list Z)) * RaidenController :=
  let is_src_remote := existsb remote_buffer src in
  let is_dst_remote := existsb remote_buffer dst in
  if negb (is_src_remote || is_dst_remote) then (Ok (staging, None), c)
  else
    let local_required := (negb is_src_remote && first_hbm src) || (negb is_dst_remote && first_hbm dst) in
    let remote_required := (is_src_remote && first_hbm src) || (is_dst_remote && first_hbm dst) in
    let '(r, c) :=
      if local_required && (length staging =? 0)%nat then
        match AllocateBlockIds (Z.of_nat (length src)) c with
        | (Err code msg, c) => (Err code msg, c)
        | (Ok ids, c) => (Ok (block_buffer MEMORY_TYPE_DRAM <$> ids, Some ids), c)
        end
      else (Ok (staging, None), c) in
    match r with
    | Err code msg => (Err code msg, c)
    | Ok (bufs, ids) =>
        if remote_required && (length bufs =? 0)%nat
        then (Err kInvalidArgument StrCat["Remote transfer requires remote host staging blocks, but none were provided."], c)
        else (Ok (bufs, ids), c)
    end.

(** The broadcast [TransferBuffers]: how the call ends before the workers answer, what was
    sent, and the staging blocks that the completion of the transfers gives back. *)
Definition TransferBuffers (src dst staging : list Buffer) (sizes : list Z) c : Status * list Sent * option (list Z) * RaidenController :=
  if (length src =? 0)%nat || negb (length src =? length dst)%nat then (Err kInvalidArgument same_length, [], None, c)
  else if bad_sizes src sizes then (Err kInvalidArgument sizes_length, [], None, c)
  else
    match staging_for src dst staging c with
    | (Err code msg, c) => (Err code msg, [], None, c)
    | (Ok (request_staging, ids), c) =>
        let workers := sort_by (fun a b => CompareWorkerIds (worker_id a) (worker_id b)) (GetRegisteredWorkers (registry_ c)) in
        match workers with
        | [] => (Err kFailedPrecondition StrCat["No registered workers available for TransferBuffers"], [], None, c)
        | _ =>
            let peers := peer_node_id_to_endpoints src dst in
            match send_all (worker_request peers src dst request_staging sizes) workers [] with
            | (Err code msg, sent) => (Err code msg, sent, None, c)
            | (Ok _, []) => (Err kFailedPrecondition StrCat["No active WorkerServiceClient available for TransferBuffers"], [], None, c)
            | (Ok _, sent) => (OkStatus, sent, ids, c)
            end
        end
    end.

(** The completion of the joined transfers. *)
Definition transfers_done (ids : option (list Z)) c : RaidenController :=
  match ids with Some ids => (DeallocateBlockIds ids c).2 | None => c end.
End atoi.

(** ** Remote reads at the destination *)

Definition RemoteReadDeadline (ttl_env deadline_env : Env) : Z := DurationFromEnv deadline_env (DefaultLeaseTtl ttl_env + Seconds 30).

(** [CheckTimingTripleOnce]: whether the timing is coherent. *)
Definition timing_coherent (ttl_env deadline_env retention_env : Env) : bool :=
  (RemoteReadDeadline ttl_env deadline_env <? RevokedLeaseRetention ttl_env retention_env) &&
  (DefaultLeaseTtl ttl_env <? RemoteReadDeadline ttl_env deadline_env).

(** The checks of [ReadRemote], in its order. *)
Definition check_read (src_controller_address : string) (src_host_block_ids dst_host_block_ids : list Z) (block_hashes : list Hash)
    (dst_device_block_ids : list Z) c : Status :=
  if negb (length src_host_block_ids =? length dst_host_block_ids)%nat then
    Err kInvalidArgument StrCat["Mismatch in block IDs sizes: src size "; Z.of_nat (length src_host_block_ids); " vs dst size ";
                                Z.of_nat (length dst_host_block_ids)]
  else if (length block_hashes =? 0)%nat then
    Err kInvalidArgument StrCat["ReadRemote requires block_hashes to validate at the source"]
  else if negb (length block_hashes =? length dst_host_block_ids)%nat then
    Err kInvalidArgument StrCat["block_hashes size "; Z.of_nat (length block_hashes); " does not match block id count ";
                                Z.of_nat (length dst_host_block_ids)]
  else if negb (length dst_device_block_ids =? 0)%nat && negb (length dst_device_block_ids =? length dst_host_block_ids)%nat then
    Err kInvalidArgument StrCat["dst_device_block_ids size "; Z.of_nat (length dst_device_block_ids);
                                " must be empty (read to host) or match the block count "; Z.of_nat (length dst_host_block_ids)]
  else if (length (GetRegisteredWorkers (registry_ c)) =? 0)%nat then
    Err kFailedPrecondition StrCat["No registered workers available for ReadRemote"]
  else if is_empty src_controller_address then
    Err kInvalidArgument StrCat["ReadRemote requires the source's controller address; the caller resolves it (KVCacheStore reads it from the global registry)"]
  else OkStatus.

Definition kMaxCachedStubs : nat := 256.

(** [while (stub_order_.size() > kMaxCachedStubs)]. *)
Fixpoint trim_stubs (order : list string) (stubs : gmap string nat) : list string * gmap string nat :=
  match order with
  | oldest :: rest => if (kMaxCachedStubs <? length order)%nat then trim_stubs rest (delete oldest stubs) else (order, stubs)
  | [] => ([], stubs)
  end.

(** The second critical section of the cache: [fresh] was created since the first. *)
Definition cache_stub (address : string) (fresh : nat) c : nat * RaidenController :=
  match stubs_ c !! address with
  | Some stub => (stub, c)
  | None =>
      let '(order, stubs) := trim_stubs (stub_order_ c ++ [address]) (<[address := fresh]> (stubs_ c)) in
      (fresh, set_stubs stubs order c)
  end.
(** Both sections when nothing runs in between. *)
Definition get_stub (address : string) (fresh : nat) c : nat * RaidenController :=
  match stubs_ c !! address with Some stub => (stub, c) | None => cache_stub address fresh c end.

(** The request for the lease. *)
Definition acquire_request (ttl_env : Env) (block_hashes : list Hash) c : AcquireReadLeaseRequest :=
  mkAcquire block_hashes (ToInt64Milliseconds (DefaultLeaseTtl ttl_env)) (unit_ c).

(** [PullAndRelease] up to the transfer: the buffers it hands to [TransferBuffers]. *)
Definition pull_buffers (src_host_block_ids : list Z) (src_groups : list RaidenWorkerEndpoints) (dst_host_block_ids dst_device_block_ids : list Z) :
    list Buffer * list Buffer * list Buffer :=
  let src := (fun id => set_remote_worker_endpoints src_groups (block_buffer MEMORY_TYPE_DRAM id)) <$> src_host_block_ids in
  match dst_device_block_ids with
  | [] => (src, block_buffer MEMORY_TYPE_DRAM <$> dst_host_block_ids, [])
  | _ => (src, block_buffer MEMORY_TYPE_HBM <$> dst_device_block_ids, block_buffer MEMORY_TYPE_DRAM <$> dst_host_block_ids)
  end.

(** What the release's callback settles the read with. *)
Definition read_outcome (transfer_status : Status) (release : StatusOr LeaseVerdict) : Status :=
  match transfer_status with
  | Err code msg => Err code msg
  | Ok _ =>
      match release with
      | Err _ msg => Err kUnavailable (StrCat["ReleaseReadLease failed, verdict unknown: "] ++ msg)
      | Ok LEASE_HELD => OkStatus
      | Ok LEASE_REVOKED =>
          Err kFailedPrecondition StrCat["read discarded: the source lease was revoked mid-read (its TTL expired), so the bytes may be from reused blocks"]
      | Ok _ =>
          Err kFailedPrecondition StrCat["read discarded: the source has no record of this lease (aged out or restarted), so the pin cannot be attested"]
      end
  end.

(** ** Transfer programs *)

(** The worker the program goes to. *)
Definition SubmitTransferProgram (worker : string) c : StatusOr WorkerRegistration :=
  match GetWorker worker (registry_ c) with
  | Err _ msg => Err kUnavailable (StrCat["SubmitTransferProgram: worker '"; worker; "' is not registered with this controller: "] ++ msg)
  | Ok reg =>
      match worker_service_client reg with
      | None => Err kUnavailable StrCat["SubmitTransferProgram: worker '"; worker; "' has no WorkerService channel"]
      | Some _ => Ok reg
      end
  end.

(** ** Set-up and teardown *)

(** The host of an address: up to its last bracket (character 93), or else up to its last
    colon (58). *)
Fixpoint rfind (ch : Ascii.ascii) (s : string) : option nat :=
  match s with
  | EmptyString => None
  | String.String a rest =>
      match rfind ch rest with
      | Some i => Some (S i)
      | None => if Ascii.eqb a ch then Some 0%nat else None
      end
  end.
Definition host_of (address : string) : string :=
  match rfind (Ascii.ascii_of_nat 93) address with
  | Some i => String.substring 0 (i + 1) address
  | None => match rfind (Ascii.ascii_of_nat 58) address with Some i => String.substring 0 i address | None => address end
  end.
Definition controller_address (address : string) (port : Z) : string :=
  if is_empty address then render StrCat["[::]:"; port] else render StrCat[host_of address; ":"; port].

(** The static workers, [worker_0] onwards; [answer] is what a worker's service says to its
    buffers. *)
Definition register_static (answer : string -> StatusOr CreateBuffersResponse) (c : RaidenController) (e : nat * string) : StatusOr RaidenController :=
  let id := render StrCat["worker_"; Z.of_nat e.1] in
  let reg := mkWorker id e.2 [] None 0 [] 0 in
  let cb := fun entry => match InitializeWorkerBuffers (answer e.2) entry c with (Err code msg, _, _) => Err code msg | (Ok _, _, _) => Ok entry end in
  match Workers.RegisterWorker (Some cb) reg (registry_ c) with
  | (Err code msg, _) => Err code (StrCat["Failed to register static worker "; e.2; ": "] ++ msg)
  | (Ok _, r) => Ok (set_registry r (InitializeWorkerBuffers (answer e.2) (dial reg) c).2)
  end.
Definition register_all (answer : string -> StatusOr CreateBuffersResponse) (worker_addresses : list string) c : StatusOr RaidenController :=
  for_each (register_static answer) (imap pair worker_addresses) c.

(** [Cleanup]: the workers that are asked to delete the buffers. *)
Definition Cleanup c : list (WorkerRegistration * list BufferProto) :=
  match all_sharded_buffers_ c with
  | [] => []
  | bs => (fun reg => (reg, bs)) <$> filter (fun reg => is_Some (worker_service_client reg)) (GetRegisteredWorkers (registry_ c))
  end.

End Controller.
