(* ===== verification/RaidenControllerProofs.v ===== *)
(** * What the controller promises its callers

    [Module ControllerProofs]: buffers survive their proto, the channel cache is bounded and
    consistent, allocated buffers are those of the locked blocks, a broadcast transfer pairs
    every worker with the peer's worker of the same node, and the timing of remote reads is
    coherent unless it is overridden. *)

From S2P Require Import Prelude ReshardTypes StoreBackend LogicalBlockManager WorkerRegistry HostOffloadBackend HostOffloadTransfer KVCacheStoreService ControllerService RaidenController.
Import Workers.

Module ControllerProofs.
Import ControllerService Controller.

Implicit Types c : RaidenController.

(** ** Buffers *)

(** A buffer in the form that a proto carries: no offsets within its shards, no negative index
    but the unset one, no empty address. *)
Record portable (b : Buffer) : Prop := {
  portable_index : index b = -1 ∨ 0 <= index b;
  portable_shards : Forall (fun s => offset s = 0 ∧ size s = 0) (buffer_shards b);
  portable_address : remote_address b ≠ Some EmptyString
}.
Lemma buffer_round_trip b : portable b -> FromProto (ToProto b) None = b.
Proof.
  intros [Hi Hs Ha]. destruct b as [i shards addr mt descs groups]. unfold FromProto, ToProto. cbn in *. f_equal.
  - destruct (Z.leb_spec 0 i); cbn; [done|lia].
  - induction Hs as [|[h o z] l [Ho Hz] _ IH]; [done|]. cbn in *. subst. by rewrite IH.
  - unfold is_empty. destruct addr as [a|]; cbn; [|by rewrite bool_decide_eq_true_2]. rewrite bool_decide_eq_false_2; [done|]. by intros ->.
Qed.
Lemma proto_round_trip p : (forall i, p_index p = Some i -> 0 <= i) -> ToProto (FromProto p None) = p.
Proof.
  intros Hi. destruct p as [hs i mt addr descs groups]. unfold FromProto, ToProto. cbn in *. f_equal.
  - rewrite <-list_fmap_compose. unfold compose. cbn. by rewrite list_fmap_id.
  - destruct i as [i|]; [|done]. cbn. specialize (Hi i eq_refl). by destruct (Z.leb_spec 0 i); [|lia].
  - unfold is_empty. case_bool_decide as E; [by rewrite E|done].
Qed.

(** ** The channel cache *)

Record stubs_ok c : Prop := {
  stubs_nodup : NoDup (stub_order_ c);
  stubs_listed a : is_Some (stubs_ c !! a) <-> a ∈ stub_order_ c;
  stubs_bounded : (length (stub_order_ c) <= kMaxCachedStubs)%nat
}.

Lemma drop_weaken {A} (x : A) k l : x ∈ drop k l -> x ∈ l.
Proof. intros Hx. rewrite <-(take_drop k l). apply elem_of_app. by right. Qed.
Lemma nodup_drop {A} k (l : list A) : NoDup l -> NoDup (drop k l).
Proof. rewrite <-(take_drop k l) at 1. by intros (_ & _ & ?)%NoDup_app. Qed.

Lemma trim_spec order (stubs : gmap string nat) :
  NoDup order -> (forall a, is_Some (stubs !! a) <-> a ∈ order) ->
  let r := trim_stubs order stubs in
  (exists k, r.1 = drop k order ∧ (length r.1 = Nat.min (length order) kMaxCachedStubs)) ∧
  (forall a, is_Some (r.2 !! a) <-> a ∈ r.1) ∧ forall a, a ∈ r.1 -> r.2 !! a = stubs !! a.
Proof.
  revert stubs. induction order as [|a order IH]; intros stubs Hnd Hl; cbn [trim_stubs]; [split_and!; [by exists 0%nat|done|done]|].
  apply NoDup_cons in Hnd as [Ha Hnd]. destruct (Nat.ltb_spec kMaxCachedStubs (length (a :: order))) as [Hlt|Hge].
  - destruct (IH (delete a stubs)) as ((k & Hk & Hlen) & H1 & H2); [done| |].
    { intros x. rewrite lookup_delete_is_Some, Hl, elem_of_cons. split; [intros [? [->|?]]; done|]. intros Hx. split; [by intros ->|by right]. }
    split_and!; [exists (S k); split; [done|cbn [length] in *; lia]|done|]. intros x Hx. rewrite H2 by done. apply lookup_delete_ne. intros <-.
    apply Ha. rewrite Hk in Hx. by apply drop_weaken in Hx.
  - split_and!; [exists 0%nat; split; [done|]|done|done]. cbn [fst length] in *. lia.
Qed.

(** the cache of channels to peers is bounded and consistent, and a read always gets a
    channel that is cached for its address: the one another thread cached, or the fresh one;
    what ages out is the address dialled first. *)
Theorem stub_cache_bounded c address fresh :
  stubs_ok c ->
  let r := cache_stub address fresh c in
  stubs_ok r.2 ∧ stubs_ r.2 !! address = Some r.1 ∧
  (r.1 = fresh ∨ stubs_ c !! address = Some r.1) ∧
  (forall a, a ≠ address -> (a ∈ stub_order_ r.2 -> stubs_ r.2 !! a = stubs_ c !! a) ∧
     (a ∈ stub_order_ c -> a ∉ stub_order_ r.2 -> length (stub_order_ c) = kMaxCachedStubs ∧ head (stub_order_ c) = Some a)).
Proof.
  intros [Hnd Hl Hb]. unfold cache_stub. destruct (stubs_ c !! address) as [stub|] eqn:Ea; [by split_and!; [constructor|..]; auto|].
  assert (Hnew : address ∉ stub_order_ c) by (rewrite <-Hl, Ea; by intros []).
  assert (Hnd' : NoDup (stub_order_ c ++ [address])) by (apply NoDup_app; split_and!; [done|set_solver|apply NoDup_singleton]).
  destruct (trim_spec (stub_order_ c ++ [address]) (<[address := fresh]> (stubs_ c)) Hnd') as ((k & Hk & Hlen) & Hd & Hv).
  { intros a. rewrite lookup_insert_is_Some, Hl, elem_of_app, list_elem_of_singleton. destruct (decide (a = address)); naive_solver. }
  destruct (trim_stubs _ _) as [order stubs]. cbn [fst snd] in *. rewrite length_app in Hlen. cbn [length] in Hlen.
  assert (Hk1 : (k <= 1)%nat ∧ (k = 1%nat -> length (stub_order_ c) = kMaxCachedStubs)).
  { rewrite Hk, length_drop, length_app in Hlen. cbn [length] in Hlen. unfold kMaxCachedStubs in *. lia. }
  assert (Hin : address ∈ order).
  { rewrite Hk. destruct k as [|[|k]]; [cbn; set_solver| |lia]. destruct (stub_order_ c) as [|x l]; [cbn in *; unfold kMaxCachedStubs in *; lia|cbn; set_solver]. }
  split_and!.
  - constructor; cbn; [rewrite Hk; by apply nodup_drop|done|unfold kMaxCachedStubs in *; lia].
  - cbn. by rewrite (Hv address Hin), lookup_insert_eq.
  - by left.
  - intros a Hne. cbn. split; [intros Ha; rewrite Hv by done; by apply lookup_insert_ne|]. intros Ha Hout. rewrite Hk in Hout.
    destruct k as [|[|k]]; [exfalso; apply Hout; cbn; set_solver| |lia]. destruct Hk1 as [_ Hlen1]. split; [by apply Hlen1|].
    destruct (stub_order_ c) as [|x l]; [by apply elem_of_nil in Ha|]. cbn in Hout |- *. apply elem_of_cons in Ha as [->|Ha]; [done|]. exfalso. apply Hout. set_solver.
Qed.

(** ** Broadcast transfers *)

Definition has_client (w : WorkerRegistration) : Prop := is_Some (worker_service_client w).
#[local] Instance has_client_dec w : Decision (has_client w).
Proof. unfold has_client. apply _. Defined.

Lemma groups_fold l m n g : foldl add_group m l !! n = Some g -> m !! n = Some g ∨ group_node_id g = n ∧ g ∈ l.
Proof.
  revert m. induction l as [|x l IH]; intros m; cbn [foldl]; [by left|]. intros [Hm|[Hn Hin]]%IH; [|right; split; [done|by right]].
  unfold add_group in Hm. destruct (m !! group_node_id x) eqn:E; [by left|]. apply lookup_insert_Some in Hm as [[<- <-]|[_ Hm]]; [right; split; [done|by left]|by left].
Qed.
Lemma groups_of_spec bs n g : groups_of bs !! n = Some g -> group_node_id g = n ∧ g ∈ bs ≫= remote_worker_endpoints.
Proof. intros [Hm|?]%groups_fold; [by rewrite lookup_empty in Hm|done]. Qed.
Lemma peers_spec src dst n g : peer_node_id_to_endpoints src dst !! n = Some g -> group_node_id g = n ∧ g ∈ (src ++ dst) ≫= remote_worker_endpoints.
Proof.
  unfold peer_node_id_to_endpoints. rewrite bind_app, elem_of_app. case_bool_decide; intros [? ?]%groups_of_spec; by auto.
Qed.

Lemma add_buffers role l acc out : for_each (add_buffer role) l acc = Ok out -> out = acc ++ ((fun b => set_index (index b) (ToProto b)) <$> l).
Proof.
  revert acc. induction l as [|b l IH]; intros acc; cbn [for_each]; [intros [= <-]; by rewrite app_nil_r|].
  unfold add_buffer at 1. destruct (index b <? 0); [done|]. intros ->%IH. by rewrite <-app_assoc.
Qed.
Lemma build_spec src dst staging sizes r : BuildTransferBuffersRequest src dst staging sizes = Ok r ->
  src_buffers r = (fun b => set_index (index b) (ToProto b)) <$> src ∧ dst_buffers r = (fun b => set_index (index b) (ToProto b)) <$> dst ∧
  staging_host_buffers r = (fun b => set_index (index b) (ToProto b)) <$> staging ∧ copy_sizes r = sizes.
Proof.
  unfold BuildTransferBuffersRequest. destruct src as [|s0 src0] eqn:Es; [done|]. destruct dst as [|d0 dst0] eqn:Ed; [done|]. rewrite <-Es, <-Ed.
  destruct (negb _); [done|]. destruct (bad_sizes _ _); [done|]. destruct (for_each (add_buffer "Source") src []) as [srcs|] eqn:E1; [|done].
  destruct (for_each (add_buffer "Destination") dst []) as [dsts|] eqn:E2; [|done]. destruct (for_each (add_buffer "Staging host") staging []) as [st|] eqn:E3; [|done].
  intros [= <-]. cbn. apply add_buffers in E1, E2, E3. by subst.
Qed.

(** A buffer as a worker gets it: the same block, and for a remote one the endpoints of the
    peer's worker of the same node. *)
Definition matched (groups : list RaidenWorkerEndpoints) (w : WorkerRegistration) (b : Buffer) (p : BufferProto) : Prop :=
  p_index p = Some (index b) ∧ p_memory_type p = memory_type b ∧ p_remote_worker_endpoints p = [] ∧
  (remote_worker_endpoints b ≠ [] -> exists g, g ∈ groups ∧ group_node_id g = node_id w ∧ p_remote_descriptors p = group_endpoints g).

Lemma pair_src_matched src dst w b b' : pair_src (peer_node_id_to_endpoints src dst) w b = Ok b' ->
  matched ((src ++ dst) ≫= remote_worker_endpoints) w b (set_index (index b') (ToProto b')).
Proof.
  unfold pair_src. destruct (remote_worker_endpoints b) as [|g0 gs] eqn:Eg; [intros [= <-]; by unfold matched; cbn; rewrite Eg|].
  destruct (peer_node_id_to_endpoints src dst !! node_id w) as [g|] eqn:Ep; [|done]. intros [= <-]. apply peers_spec in Ep as [Hn Hin].
  unfold matched; cbn. split_and!; try done. intros _. by exists g.
Qed.
Lemma pair_dst_matched src dst w b b' : pair_dst (peer_node_id_to_endpoints src dst) w b = Ok b' ->
  matched ((src ++ dst) ≫= remote_worker_endpoints) w b (set_index (index b') (ToProto b')).
Proof.
  unfold pair_dst. destruct (remote_worker_endpoints b) as [|g0 gs] eqn:Eg.
  { destruct (_ && _); intros [= <-]; unfold matched; cbn; by rewrite Eg. }
  destruct (peer_node_id_to_endpoints src dst !! node_id w) as [g|] eqn:Ep; [|done]. intros [= <-]. apply peers_spec in Ep as [Hn Hin].
  unfold matched; cbn. split_and!; try done. intros _. by exists g.
Qed.

Lemma pair_all peers w l acc out : for_each (pair_buffers peers w) l acc = Ok out ->
  exists ss ds, out = (acc.1 ++ ss, acc.2 ++ ds) ∧ Forall2 (fun b s => pair_src peers w b = Ok s) l.*1 ss ∧ Forall2 (fun b d => pair_dst peers w b = Ok d) l.*2 ds.
Proof.
  revert acc. induction l as [|[s d] l IH]; intros acc; cbn [for_each]; [intros [= <-]; exists [], []; rewrite !app_nil_r; by destruct acc|].
  unfold pair_buffers at 1. cbn [fst snd]. destruct (pair_src peers w s) as [s'|] eqn:E1; [|done]. destruct (pair_dst peers w d) as [d'|] eqn:E2; [|done].
  intros (ss & ds & -> & H1 & H2)%IH. exists (s' :: ss), (d' :: ds). cbn [fst snd fmap list_fmap]. rewrite <-!app_assoc. split; [done|]. split; by constructor.
Qed.

Lemma worker_request_matched src dst staging sizes w r :
  length src = length dst -> worker_request (peer_node_id_to_endpoints src dst) src dst staging sizes w = Ok r ->
  let groups := (src ++ dst) ≫= remote_worker_endpoints in
  Forall2 (matched groups w) src (src_buffers r) ∧ Forall2 (matched groups w) dst (dst_buffers r) ∧
  staging_host_buffers r = (fun b => set_index (index b) (ToProto b)) <$> staging ∧ copy_sizes r = sizes.
Proof.
  intros Hlen. unfold worker_request. destruct (for_each _ _ _) as [bufs|] eqn:E; [|done]. intros (H1 & H2 & H3 & H4)%build_spec.
  apply pair_all in E as (ss & ds & -> & Hs & Hd). cbn [fst snd app] in *. rewrite fst_zip in Hs by lia. rewrite snd_zip in Hd by lia.
  rewrite H1, H2. split_and!; [| |done|done]; apply Forall2_fmap_r; (eapply Forall2_impl; [eassumption|]); [apply pair_src_matched|apply pair_dst_matched].
Qed.

Lemma send_all_spec request workers sent st out : send_all request workers sent = (st, out) ->
  exists more k, out = sent ++ more ∧ more.*1 = take k (filter has_client workers) ∧ (ok st = true -> more.*1 = filter has_client workers) ∧
  Forall (fun e => request e.1 = Ok e.2) more.
Proof.
  revert sent. induction workers as [|w workers IH]; intros sent; cbn [send_all].
  { intros [= <- <-]. exists [], 0%nat. by rewrite app_nil_r. }
  rewrite filter_cons. destruct (worker_service_client w) as [cl|] eqn:Ecl.
  - rewrite decide_True by (unfold has_client; by rewrite Ecl). destruct (request w) as [r|code msg] eqn:Er.
    + intros (more & k & -> & Hk & Hall & Hf)%IH. exists ((w, r) :: more), (S k). rewrite <-app_assoc. cbn. split_and!; [done|by rewrite Hk| |by constructor].
      intros Hok. by rewrite Hall.
    + intros [= <- <-]. exists [], 0%nat. by rewrite app_nil_r.
  - rewrite decide_False by (unfold has_client; rewrite Ecl; by intros []). apply IH.
Qed.

Lemma staging_for_spec src dst staging c r c' : staging_for src dst staging c = (r, c') ->
  registry_ c' = registry_ c ∧
  match r with
  | Ok (bufs, None) => bufs = staging ∧ block_manager_ c' = block_manager_ c
  | Ok (bufs, Some ids) => staging = [] ∧ bufs = block_buffer MEMORY_TYPE_DRAM <$> ids ∧
      HostOffload.AllocateBlockIds (block_manager_ c) (Z.of_nat (length src)) = (Ok ids, block_manager_ c')
  | Err _ _ => True
  end.
Proof.
  unfold staging_for. destruct (negb _); [by intros [= <- <-]|]. destruct (_ && (length staging =? 0)%nat) eqn:El.
  - apply andb_true_iff in El as [_ El]. apply Nat.eqb_eq in El. destruct staging; [|done].
    unfold AllocateBlockIds, HostOffload.AllocateBlockIds. destruct (LBM.Allocate (block_manager_ c) (Z.of_nat (length src)) true) as [[ids|code msg] m] eqn:Ea.
    + destruct (_ && _); [by intros [= <- <-]|]. intros [= <- <-]. by split_and!.
    + by intros [= <- <-].
  - match goal with |- context [if ?b then _ else _] => destruct b end; by intros [= <- <-].
Qed.

(** a broadcast transfer asks each registered worker that has a channel exactly once, in
    whatever order they registered, and never pairs a worker with a peer's worker of another
    node: every remote buffer a worker is sent carries the endpoints of a group of the peer
    with the worker's own node id, also in the requests that went out before an error. *)
Theorem transfer_broadcast atoi src dst staging sizes c :
  let r := TransferBuffers atoi src dst staging sizes c in
  let groups := (src ++ dst) ≫= remote_worker_endpoints in
  (forall w q, (w, q) ∈ r.1.1.2 -> w ∈ GetRegisteredWorkers (registry_ c) ∧
     Forall2 (matched groups w) src (src_buffers q) ∧ Forall2 (matched groups w) dst (dst_buffers q) ∧ copy_sizes q = sizes) ∧
  (ok r.1.1.1 = true -> r.1.1.2.*1 ≡ₚ filter has_client (GetRegisteredWorkers (registry_ c)) ∧ r.1.1.2 ≠ []).
Proof.
  intros r groups. unfold r, TransferBuffers. assert (Hnone : forall P : WorkerRegistration -> TransferBuffersRequest -> Prop, forall w q, (w, q) ∈ ([] : list Sent) -> P w q) by (intros P w q Hq; by apply elem_of_nil in Hq).
  destruct (_ || _) eqn:Elen; [split; [by apply Hnone|done]|]. destruct (bad_sizes src sizes); [split; [by apply Hnone|done]|].
  apply orb_false_iff in Elen as [_ Elen]. apply negb_false_iff, Nat.eqb_eq in Elen.
  destruct (staging_for src dst staging c) as [[[bufs ids]|code msg] c1] eqn:Es; [|split; [by apply Hnone|done]].
  apply staging_for_spec in Es as [Hreg _]. set (workers := sort_by _ (GetRegisteredWorkers (registry_ c1))).
  assert (Hperm : workers ≡ₚ GetRegisteredWorkers (registry_ c)) by (rewrite <-Hreg; apply sort_by_perm).
  destruct workers as [|w0 ws] eqn:Ew; [split; [by apply Hnone|done]|]. rewrite <-Ew in *.
  destruct (send_all _ workers []) as [st sent] eqn:Esend. apply send_all_spec in Esend as (more & k & -> & Htake & Hfull & Hall). cbn [app].
  assert (Hreq : forall w q, (w, q) ∈ more -> w ∈ GetRegisteredWorkers (registry_ c) ∧
    Forall2 (matched groups w) src (src_buffers q) ∧ Forall2 (matched groups w) dst (dst_buffers q) ∧ copy_sizes q = sizes).
  { intros w q Hq. split.
    - rewrite <-Hperm. assert (Hw : w ∈ more.*1) by (by apply (list_elem_of_fmap_2 fst more (w, q))). rewrite Htake in Hw. by apply elem_of_take_weaken, list_elem_of_filter in Hw as [_ Hw].
    - rewrite Forall_forall in Hall. specialize (Hall (w, q) Hq). cbn in Hall. destruct (worker_request_matched src dst bufs sizes w q Elen Hall) as (H1 & H2 & _ & H4). done. }
  destruct st as [u|code msg]; [|split; [done|done]]. destruct more as [|e more]; [split; [by apply Hnone|done]|]. split; [done|]. intros _. split; [|done].
  cbn [fst snd]. rewrite (Hfull eq_refl). by rewrite Hperm.
Qed.

Lemma allocated_wf m n ids m' : LBM.wf m -> LBM.access_counter_ m + 1 < 2 ^ 64 -> LBM.Allocate m n true = (Ok ids, m') -> LBM.wf m'.
Proof. intros Hwf Hc Ha. destruct (LBM.lbm_apply_op_wf (LBM.OpAllocate n true) m Hwf Hc) as [Hw _]. cbn in Hw. by rewrite Ha in Hw. Qed.

(** The staging blocks allocated for a transfer that went out are the ones its requests name;
    they stay locked until the workers are done, and are free afterwards. *)
Lemma staging_given_back atoi src dst staging sizes c ids :
  LBM.wf (block_manager_ c) -> LBM.access_counter_ (block_manager_ c) + 1 < 2 ^ 64 ->
  let r := TransferBuffers atoi src dst staging sizes c in
  r.1.2 = Some ids ->
  staging = [] ∧ OffloadTransfer.owns (block_manager_ r.2) ids ∧
  OffloadTransfer.frees (block_manager_ r.2) (block_manager_ (transfers_done (Some ids) r.2)) ids.
Proof.
  intros Hwf Hcnt r. unfold r, TransferBuffers. destruct (_ || _); [done|]. destruct (bad_sizes src sizes); [done|].
  destruct (staging_for src dst staging c) as [[[bufs oids]|code msg] c1] eqn:Es; [|done]. apply staging_for_spec in Es as [_ Hst].
  destruct (sort_by _ _); [done|]. destruct (send_all _ _ _) as [[u|code msg] [|e sent]]; try done. cbn [fst snd]. intros ->.
  destruct Hst as (-> & _ & Ha). destruct (OffloadTransfer.allocate_owns _ _ _ _ Hwf Ha) as (_ & Hown & _). split_and!; [done|done|].
  assert (Hwf' : LBM.wf (block_manager_ c1)) by (by eapply allocated_wf).
  pose proof (OffloadTransfer.deallocate_frees _ ids Hwf' Hown) as Hf. unfold transfers_done, DeallocateBlockIds. unfold HostOffload.DeallocateBlockIds in Hf.
  destruct (LBM.Deallocate (block_manager_ c1) ids) as [st m]. exact Hf.
Qed.

(** ** Provisioned buffers *)

(** The provisioned buffers are numbered by the blocks of the manager. *)
Record provisioned c : Prop := {
  prov_wf : LBM.wf (block_manager_ c);
  prov_total : LBM.total_blocks_ (block_manager_ c) = num_total_blocks_ c;
  prov_buffers : all_sharded_buffers_ c = [] ∨ Z.of_nat (length (all_sharded_buffers_ c)) = num_total_blocks_ c;
  prov_index i p : all_sharded_buffers_ c !! i = Some p -> p_index p = Some (Z.of_nat i)
}.

Lemma initialize_provisioned answer reg c : provisioned c -> 0 <= num_total_blocks_ c -> provisioned (InitializeWorkerBuffers answer reg c).2.
Proof.
  intros [H1 H2 H3 H4] Hn. unfold InitializeWorkerBuffers. destruct (worker_service_client reg); [|done]. destruct (CreateBuffersForWorker _ _ _) as [resp|] eqn:E; [|done].
  destruct (all_sharded_buffers_ c) eqn:Ea; [|by rewrite <-Ea in *]. cbn [snd]. unfold CreateBuffersForWorker in E. destruct answer as [resp'|]; [|done].
  destruct (negb _); [done|]. destruct (Z.eqb_spec (Z.of_nat (length (cr_buffers resp'))) (provision_blocks c)) as [El|]; [|done]. cbn in E. injection E as ->.
  constructor; cbn; [done|done| |].
  - rewrite length_imap, length_take, <-El. unfold provision_blocks in El. destruct (preprovision_worker_buffers_ c); [right; lia|left].
    assert (length (cr_buffers resp) = 0%nat) as ->%nil_length_inv by lia. by rewrite take_nil.
  - intros i p. rewrite list_lookup_imap. destruct (_ !! i); [|done]. intros [= <-]. done.
Qed.

Lemma mapM_lookup {A} (bs : list A) (ids : list Z) : Forall (fun id => 0 <= id < Z.of_nat (length bs)) ids ->
  exists out, mapM (fun id => bs !! Z.to_nat id) ids = Some out ∧ Forall2 (fun id p => bs !! Z.to_nat id = Some p) ids out.
Proof.
  induction 1 as [|id ids Hid _ (out & IH & IH2)]; [by exists []|]. destruct (lookup_lt_is_Some_2 bs (Z.to_nat id)) as [p Hp]; [lia|].
  exists (p :: out). cbn. rewrite Hp. cbn. rewrite IH. split; [done|]. by constructor.
Qed.

(** allocation never reaches past the provisioned buffers; when it succeeds it returns as
    many buffers as asked for, each with the index of a distinct block that is now locked for
    the caller, and handing these buffers back frees exactly those blocks. *)
Theorem allocate_deallocate c n : provisioned c -> LBM.access_counter_ (block_manager_ c) + 1 < 2 ^ 64 ->
  exists r c', Allocate n c = Some (r, c') ∧
  match r with
  | Err _ _ => block_manager_ c' = block_manager_ c
  | Ok bufs => exists ids, p_index <$> bufs = Some <$> ids ∧ Z.of_nat (length ids) = n ∧ OffloadTransfer.owns (block_manager_ c') ids ∧
      (Deallocate bufs c').1 = OkStatus ∧ OffloadTransfer.frees (block_manager_ c') (block_manager_ (Deallocate bufs c').2) ids
  end.
Proof.
  intros [H1 H2 H3 H4] Hcnt. unfold Allocate. destruct (all_sharded_buffers_ c) as [|b0 bs0] eqn:Eb; [by eexists _, _|]. rewrite <-Eb in *. destruct H3 as [H3|H3]; [by rewrite Eb in H3|].
  destruct (LBM.Allocate (block_manager_ c) n true) as [[ids|code msg] m] eqn:Ea.
  2: { eexists _, _. split; [done|]. cbn. unfold LBM.Allocate in Ea. repeat case_match; by simplify_eq. }
  destruct (OffloadTransfer.allocate_owns _ n ids m H1 Ea) as (Hlen & Hown & _). assert (Hwf' : LBM.wf m) by (by eapply allocated_wf).
  assert (Htot : LBM.total_blocks_ m = LBM.total_blocks_ (block_manager_ c)) by (unfold LBM.Allocate in Ea; repeat case_match; by simplify_eq).
  assert (Hr : Forall (fun id => 0 <= id < Z.of_nat (length (all_sharded_buffers_ c))) ids).
  { eapply Forall_impl; [apply Hown|]. intros id (Hr & _). unfold LBM.in_range in Hr. lia. }
  destruct (mapM_lookup _ _ Hr) as (bufs & -> & Hb). eexists _, _. split; [done|]. exists ids.
  assert (Hidx : p_index <$> bufs = Some <$> ids).
  { clear -Hb H4 Hr. induction Hb as [|id p ids bufs Hp _ IH]; [done|]. apply Forall_cons in Hr as [Hid Hr]. cbn. rewrite (IH Hr), (H4 _ _ Hp). by rewrite Z2Nat.id by lia. }
  assert (Hloop : for_each block_index bufs [] = Ok ids).
  { assert (Hgen : forall acc, for_each block_index bufs acc = Ok (acc ++ ids)); [|apply (Hgen [])].
    clear -Hidx Hr. revert ids Hidx Hr. induction bufs as [|p bufs IH]; intros [|id ids] Hidx Hr acc; try done; [cbn; by rewrite app_nil_r|].
    cbn in Hidx. injection Hidx as Hp Hidx. apply Forall_cons in Hr as [Hid Hr]. cbn [for_each]. unfold block_index at 1. rewrite Hp. destruct (Z.ltb_spec id 0); [lia|].
    rewrite (IH ids Hidx Hr). by rewrite <-app_assoc. }
  unfold Deallocate. rewrite Hloop. pose proof (OffloadTransfer.deallocate_frees m ids Hwf' Hown) as Hf. unfold HostOffload.DeallocateBlockIds in Hf.
  split_and!; [done|done|done| |]; cbn [block_manager_ set_manager].
  - unfold LBM.Deallocate. rewrite (proj2 (LBM.check_allocated_loop m _ ids)); [done|].
    eapply Forall_impl; [apply Hown|]. intros id (Hrr & Hal & _). by rewrite <-LBM.IsAllocated_in_range.
  - destruct (LBM.Deallocate m ids) as [st m']. exact Hf.
Qed.

(** ** Timing *)

(** unless the deadline or the retention is set explicitly, the timing of remote reads is
    coherent for every setting of the time to live, and the destination's deadline outlives
    the lease the source grants for its request, whatever the source clamps it to. *)
Theorem read_timing_coherent ttl_env :
  timing_coherent ttl_env None None = true ∧
  forall hashes c, granted ttl_env (aq_ttl_ms (acquire_request ttl_env hashes c)) < RemoteReadDeadline ttl_env None.
Proof.
  assert (Hd : 0 < DefaultLeaseTtl ttl_env ∧ exists k, DefaultLeaseTtl ttl_env = k * 1000000000).
  { unfold DefaultLeaseTtl, DurationFromEnv, Service.Seconds. destruct ttl_env as [[s|]|]; [|by split; [lia|exists 120]..].
    destruct (Z.leb_spec s 0); [by split; [lia|exists 120]|split; [lia|by exists s]]. }
  destruct Hd as [Hd [k Hk]]. unfold timing_coherent, RemoteReadDeadline, RevokedLeaseRetention, DurationFromEnv, Service.Seconds. split.
  - apply andb_true_iff. split; apply Z.ltb_lt; lia.
  - intros hashes c. cbn [aq_ttl_ms acquire_request]. unfold granted, Service.ToInt64Milliseconds, Service.Milliseconds, MinLeaseTtl, MaxLeaseTtl, Service.Seconds.
    assert (E : DefaultLeaseTtl ttl_env ÷ 1000000 = k * 1000) by (rewrite Hk; symmetry; apply Z.quot_unique_exact; lia). rewrite E. destruct (Z.ltb_spec 0 (k * 1000)); lia.
Qed.

(** ** Evaluations *)

(** Staging blocks that a failed call allocated are never given back: a transfer from local
    HBM to a remote host with no worker registered fails with a block locked. *)
Definition idle_controller : RaidenController := create (mkRaidenIdProto "job" EmptyString EmptyString 0) 4 1 64 false.
Definition hbm_to_remote : list Buffer * list Buffer :=
  ([block_buffer MEMORY_TYPE_HBM 0], [mkBuffer 0 [] (Some "peer:1"%string) MEMORY_TYPE_DRAM [] []]).
Lemma staging_leaked_on_error :
  let r := TransferBuffers (fun _ => None) hbm_to_remote.1 hbm_to_remote.2 [] [] idle_controller in
  ok r.1.1.1 = false ∧ r.1.2 = None ∧
  LBM.IsLocked (block_manager_ idle_controller) 0 = false ∧ LBM.IsLocked (block_manager_ r.2) 0 = true.
Proof. vm_compute. done. Qed.

(** The order of worker ids is not one: three ids each before the next. *)
Definition decimal_digit (a : Ascii.ascii) : option Z :=
  let n := Z.of_nat (Ascii.nat_of_ascii a) in if (48 <=? n) && (n <=? 57) then Some (n - 48) else None.
Fixpoint decimal (acc : Z) (s : string) : option Z :=
  match s with
  | EmptyString => Some acc
  | String.String a s => match decimal_digit a with Some d => decimal (10 * acc + d) s | None => None end
  end.
Lemma worker_order_cycle :
  let lt := CompareWorkerIds (decimal 0) in
  lt "worker_9" "worker_10" = true ∧ lt "worker_10" "worker_1a" = true ∧ lt "worker_1a" "worker_9" = true.
Proof. vm_compute. done. Qed.

(** The check of the timing compares with the unclamped time to live: it accepts a deadline
    that ends before the shortest lease a source grants. *)
Lemma timing_check_unclamped :
  timing_coherent (Some (Some 10)) (Some (Some 20)) None = true ∧
  RemoteReadDeadline (Some (Some 10)) (Some (Some 20)) < granted (Some (Some 10)) 10000.
Proof. vm_compute. done. Qed.

(** Unset node ids are not unique, and the peers' groups are looked up by node id: two workers
    without one are both paired with the first such worker of the peer. *)
Definition unset_worker (id endpoint : string) : WorkerRegistration := mkWorker id "rpc" [mkEndpoint endpoint [0]] None 0 [] 0.
Definition two_workers : WorkerRegistry := (Workers.RegisterWorker None (unset_worker "worker_1" "b") (Workers.RegisterWorker None (unset_worker "worker_0" "a") ∅).2).2.
Definition two_groups : list RaidenWorkerEndpoints := [mkGroup 0 "worker_0" [mkEndpoint "peer_a" [0]]; mkGroup 0 "worker_1" [mkEndpoint "peer_b" [1]]].
Lemma unset_nodes_share_peer :
  let src := [set_remote_worker_endpoints two_groups (block_buffer MEMORY_TYPE_DRAM 3)] in
  let r := TransferBuffers (decimal 0) src [block_buffer MEMORY_TYPE_DRAM 5] [] [] (set_registry two_workers idle_controller) in
  ok r.1.1.1 = true ∧ (fun e => (worker_id e.1, p_remote_descriptors <$> src_buffers e.2)) <$> r.1.1.2 =
    [("worker_0"%string, [[mkEndpoint "peer_a" [0]]]); ("worker_1"%string, [[mkEndpoint "peer_a" [0]]])].
Proof. vm_compute. done. Qed.

Lemma stub_cache_bounded_witness : stubs_ (cache_stub "peer:1" 7 idle_controller).2 !! "peer:1"%string = Some 7%nat.
Proof.
  assert (Hok : stubs_ok idle_controller).
  { constructor; [apply NoDup_nil_2| |unfold kMaxCachedStubs; cbn; lia]. intros a. change (stubs_ idle_controller) with (∅ : gmap string nat).
    rewrite lookup_empty. split; [by intros []|by intros ?%elem_of_nil]. }
  destruct (stub_cache_bounded idle_controller "peer:1" 7 Hok) as (_ & Hs & _). exact Hs.
Defined.

(** A controller with two provisioned blocks. *)
Definition answer_two : StatusOr CreateBuffersResponse := Ok (mkCreated true [] (replicate 2 (mkProto [] None MEMORY_TYPE_DRAM EmptyString [] []))).
Definition fresh_controller : RaidenController := create (mkRaidenIdProto "job" EmptyString EmptyString 0) 2 1 64 true.
Definition provisioned_controller : RaidenController := (InitializeWorkerBuffers answer_two (dial (unset_worker "worker_0" "a")) fresh_controller).2.
Lemma allocate_deallocate_witness :
  exists r c', Allocate 2 provisioned_controller = Some (r, c') ∧
  match r with
  | Err _ _ => block_manager_ c' = block_manager_ provisioned_controller
  | Ok bufs => exists ids, p_index <$> bufs = Some <$> ids ∧ Z.of_nat (length ids) = 2 ∧ OffloadTransfer.owns (block_manager_ c') ids ∧
      (Deallocate bufs c').1 = OkStatus ∧ OffloadTransfer.frees (block_manager_ c') (block_manager_ (Deallocate bufs c').2) ids
  end.
Proof.
  assert (Hp : provisioned fresh_controller).
  { constructor; [apply LBM.lbm_create_wf; lia|done|by left|]. intros i p Hi. change (all_sharded_buffers_ fresh_controller) with (@nil BufferProto) in Hi. by rewrite lookup_nil in Hi. }
  apply (allocate_deallocate provisioned_controller 2).
  - apply initialize_provisioned; [exact Hp|]. vm_compute. discriminate.
  - vm_compute. reflexivity.
Defined.

End ControllerProofs.
