(* ===== verification/RemoteRead.v ===== *)
(** * A remote read against its source ([RaidenController::ReadRemote], [PullAndRelease])

    [Module RemoteRead] composes the destination's side of a read, its deadline thread
    included, with the source of ControllerServiceSteps.v.  The workers' transfer reads the
    blocks of the lease one by one, at any moment; the release and the deadline race as they do
    in the code.  A read that settles with success has read every block while the source kept
    it pinned and bound, unless the deadline thread's own release got in first. *)

From S2P Require Import Prelude ReshardTypes StoreBackend WorkerRegistry LruCache HostOffloadBackend HostOffloadLookup KVCacheStore ControllerService ControllerServiceSteps ControllerServiceLeases RaidenController.
Import ControllerService OffloadLookup LeaseSteps Leases.

Module RemoteRead.
Import Controller.

(** ** The destination *)

Inductive Phase : Type :=
  | Acquiring
  | Pulling
  | Pulled (transfer_status : Status)
  | Released (transfer_status : Status) (release : StatusOr LeaseVerdict)
  | Finished.

(** The deadline thread: asleep, past its check of [settled], past its release, done. *)
Inductive Timer : Type := Sleeping | Fired | TimerReleased | TimerDone.

(** A block read by a worker: its position in the lease, its hash and host block, and how often
    the source had pinned the hash and what it had bound it to at that moment. *)
Record PullEvent : Type := mkPull { pull_index : nat; pull_hash : Hash; pull_id : Z; pull_pins : Z; pull_bound : option Z }.
Definition clean (e : PullEvent) : Prop := 0 < pull_pins e ∧ pull_bound e = Some (pull_id e).

Record Read : Type := mkRead {
  phase : Phase;
  timer : Timer;
  (** [state->lease_id]; zero until the lease is acquired. *)
  lease_id : Z;
  read_hashes : list Hash;
  read_ids : list Z;
  pulls : list PullEvent;
  (** What [Settle] set the promise to. *)
  outcome : option Status;
  (** Whether the source answered the deadline thread's release before the read's own. *)
  timer_first : bool
}.
Implicit Types r : Read.

Definition start (hashes : list Hash) : Read := mkRead Acquiring Sleeping 0 hashes [] [] None false.

(** The read's own release has not been answered. *)
Definition before_release (p : Phase) : bool := match p with Acquiring | Pulling | Pulled _ => true | _ => false end.

(** [Settle] is idempotent. *)
Definition Settle (st : Status) r : option Status := match outcome r with Some o => Some o | None => Some st end.

Definition with_phase p o r : Read := mkRead p (timer r) (lease_id r) (read_hashes r) (read_ids r) (pulls r) o (timer_first r).
Definition with_timer t o b r : Read := mkRead (phase r) t (lease_id r) (read_hashes r) (read_ids r) (pulls r) o b.

Section system.
Context {S : Type} {HS : LeaseHooks S} {HL : LeaseHooksLaws S}.
Variables (ttl_env : Env) (retention : Z).
Hypothesis retention_nonneg : 0 <= retention.
Abbreviation source_step := (LeaseSteps.step ttl_env retention).
Implicit Types w : World S.

(** The source answers a release of the read's lease. *)
Definition answered w w' (id : Z) (verdict : LeaseVerdict) : Prop :=
  let '(v, to_unpin, s) := release_locked retention (clock w) id (svc w) in verdict = v ∧ w' = gave_up [id] (to_unpin, s) w.

Inductive step : World S * Read -> World S * Read -> Prop :=
  | StepSource w w' r : source_step w w' -> (before_release (phase r) = true -> lease_id r ∈ released w' -> lease_id r ∈ released w) -> step (w, r) (w', r)
  | StepGrant w w' r id g :
      source_step w w' -> phase r = Acquiring -> id ≠ 0 -> grants w !! id = None -> grants w' !! id = Some g -> id ∉ released w' ->
      g_hashes g = read_hashes r ->
      step (w, r) (w', mkRead Pulling (timer r) id (read_hashes r) (g_ids g) [] (outcome r) (timer_first r))
  | StepRefused w r code msg : phase r = Acquiring ->
      step (w, r) (w, with_phase Finished (Settle (Err code (StrCat["AcquireReadLease failed: "] ++ msg)) r) r)
  | StepAbandon w r : phase r = Pulling ->
      step (w, r) (w, with_phase Finished (Settle (Err kCancelled StrCat["ReadRemote abandoned: controller shut down mid-read"]) r) r)
  | StepPull w r i h b : phase r = Pulling -> read_hashes r !! i = Some h -> read_ids r !! i = Some b ->
      step (w, r) (w, mkRead Pulling (timer r) (lease_id r) (read_hashes r) (read_ids r) (pulls r ++ [mkPull i h b (pins (store w) h) (bound (store w) h)])
                       (outcome r) (timer_first r))
  | StepTransferred w r status : phase r = Pulling ->
      (ok status = true -> forall i, (i < length (read_ids r))%nat -> exists e, e ∈ pulls r ∧ pull_index e = i) ->
      step (w, r) (w, with_phase (Pulled status) (outcome r) r)
  | StepRelease w w' r status verdict : phase r = Pulled status -> answered w w' (lease_id r) verdict ->
      step (w, r) (w', with_phase (Released status (Ok verdict)) (outcome r) r)
  | StepReleaseLost w r status code msg : phase r = Pulled status ->
      step (w, r) (w, with_phase (Released status (Err code msg)) (outcome r) r)
  | StepSettle w r status release : phase r = Released status release ->
      step (w, r) (w, with_phase Finished (Settle (read_outcome status release) r) r)
  | StepTimer w r : timer r = Sleeping -> outcome r = None -> step (w, r) (w, with_timer Fired (outcome r) (timer_first r) r)
  | StepTimerRelease w w' r verdict : timer r = Fired -> lease_id r ≠ 0 -> answered w w' (lease_id r) verdict ->
      step (w, r) (w', with_timer TimerReleased (outcome r) (timer_first r || before_release (phase r)) r)
  | StepTimerSettle w r deadline : timer r = Fired ∨ timer r = TimerReleased ->
      step (w, r) (w, with_timer TimerDone
        (Settle (Err kDeadlineExceeded StrCat["ReadRemote exceeded the destination deadline ("; deadline; ")"]) r) (timer_first r) r).

Definition reachable w r : Prop := exists w0 hashes, LeaseSteps.reachable ttl_env retention w0 ∧ rtc step (w0, start hashes) (w, r).

(** ** The invariant *)

(** Every block of the lease was read, and each while it was bound as granted. *)
Definition complete r : Prop := forall i, (i < length (read_ids r))%nat -> exists e, e ∈ pulls r ∧ pull_index e = i.
Definition clean_read r : Prop := complete r ∧ Forall clean (pulls r).
(** It is a block of the lease. *)
Definition genuine r (e : PullEvent) : Prop := read_hashes r !! pull_index e = Some (pull_hash e) ∧ read_ids r !! pull_index e = Some (pull_id e).

Record inv w r : Prop := {
  inv_source : LeaseSteps.reachable ttl_env retention w;
  inv_acquiring : phase r = Acquiring -> lease_id r = 0;
  inv_granted : lease_id r ≠ 0 -> exists g, grants w !! lease_id r = Some g ∧ g_hashes g = read_hashes r ∧ g_ids g = read_ids r;
  inv_pulls : lease_id r ≠ 0 -> live_lease w (lease_id r) -> Forall clean (pulls r);
  inv_first : lease_id r ≠ 0 -> timer_first r = false -> before_release (phase r) = true -> lease_id r ∉ released w;
  inv_pulled st : phase r = Pulled st -> lease_id r ≠ 0 ∧ (ok st = true -> complete r);
  inv_pulling : phase r = Pulling -> lease_id r ≠ 0;
  inv_released st v : phase r = Released st (Ok v) -> timer_first r = false -> ok st = true -> v = LEASE_HELD -> clean_read r;
  inv_unsettled : before_release (phase r) = true -> outcome r ≠ Some OkStatus;
  inv_outcome : outcome r = Some OkStatus -> timer_first r = false -> clean_read r;
  inv_genuine : Forall (genuine r) (pulls r)
}.

(** ** Preservation *)

(** The source moves: what was read while the lease was live stays clean. *)
Lemma inv_source_step w w' r :
  inv w r -> source_step w w' -> (before_release (phase r) = true -> lease_id r ∈ released w' -> lease_id r ∈ released w) -> inv w' r.
Proof.
  intros [H1 H2 H3 H4 H5 H6 H7 H8 H9 H10 H11] Hs Hrel. constructor; try done.
  - eapply lease_run; [done|]. by apply rtc_once.
  - intros Hne. destruct (H3 Hne) as (g & Hg & Hx). exists g. split; [|done]. eapply (grants_kept ttl_env retention w w'); [by apply rtc_once|done].
  - intros Hne Hl. destruct (H3 Hne) as (g & Hg & _). apply H4; [done|]. by eapply live_step.
  - intros Hne Ht Hb Hin. by apply (H5 Hne Ht Hb), Hrel.
Qed.

Lemma answered_step w w' id v : answered w w' id v ->
  source_step w w' ∧ v = (release_locked retention (clock w) id (svc w)).1.1 ∧ released w' = id :: released w.
Proof.
  unfold answered. destruct (release_locked retention (clock w) id (svc w)) as [[v' to_unpin] s] eqn:E. intros [-> ->].
  split_and!; [by eapply LeaseSteps.StepRelease|done|done].
Qed.

(** The read's own release, when it comes first: [LEASE_HELD] attests the pulls. *)
Lemma held_clean w r : inv w r -> lease_id r ≠ 0 -> timer_first r = false -> before_release (phase r) = true ->
  (release_locked retention (clock w) (lease_id r) (svc w)).1.1 = LEASE_HELD -> Forall clean (pulls r).
Proof.
  intros Hi Hne Ht Hb Hv. apply (inv_pulls w r Hi Hne). apply (held_live ttl_env retention retention_nonneg w); [apply Hi| |done]. by apply (inv_first w r Hi).
Qed.

Lemma inv_pull w r i h b : inv w r -> phase r = Pulling -> read_hashes r !! i = Some h -> read_ids r !! i = Some b ->
  inv w (mkRead Pulling (timer r) (lease_id r) (read_hashes r) (read_ids r) (pulls r ++ [mkPull i h b (pins (store w) h) (bound (store w) h)]) (outcome r) (timer_first r)).
Proof.
  intros Hi Hph Hh Hb. pose proof (inv_pulling w r Hi Hph) as Hne. destruct (inv_granted w r Hi Hne) as (g & Hg & Hgh & Hgi).
  constructor; cbn [phase timer lease_id read_hashes read_ids pulls outcome timer_first]; try done.
  - apply Hi.
  - intros _. by exists g.
  - intros _ Hl. apply Forall_app. split; [by apply (inv_pulls w r Hi)|]. constructor; [|done]. unfold clean. cbn.
    pose proof (live_pinned ttl_env retention retention_nonneg w (lease_id r) g (inv_source w r Hi) Hg Hl) as Hp. rewrite Hgh, Hgi in Hp.
    by apply (Forall2_lookup_lr _ _ _ _ _ _ Hp Hh Hb).
  - intros _ Ht _. apply (inv_first w r Hi); [done|done|by rewrite Hph].
  - intros _. apply (inv_unsettled w r Hi). by rewrite Hph.
  - intros Ho. exfalso. apply (inv_unsettled w r Hi); [by rewrite Hph|done].
  - apply Forall_app. split; [apply (inv_genuine w r Hi)|by repeat constructor].
Qed.

(** [Settle] with an error keeps a success that is there. *)
Lemma settle_ok st r : Settle st r = Some OkStatus -> outcome r = Some OkStatus ∨ outcome r = None ∧ st = OkStatus.
Proof. unfold Settle. destruct (outcome r) as [o|]; intros [= ->]; by auto. Qed.

(** A phase change that settles nothing with success. *)
Lemma inv_phase w r p o :
  inv w r -> (p = Pulling -> phase r = Pulling) -> p ≠ Acquiring -> (before_release p = true -> before_release (phase r) = true) ->
  (forall st, p = Pulled st -> lease_id r ≠ 0 ∧ (ok st = true -> complete r)) ->
  (forall st v, p = Released st (Ok v) -> timer_first r = false -> ok st = true -> v = LEASE_HELD -> clean_read r) ->
  (o = outcome r ∨ before_release p = false) -> (o = Some OkStatus -> timer_first r = false -> clean_read r) ->
  inv w (with_phase p o r).
Proof.
  intros [H1 H2 H3 H4 H5 H6 H7 H8 H9 H10 H11] Hp Ha Hb Hpu Hre Ho Hok. constructor; cbn [with_phase phase timer lease_id read_hashes read_ids pulls outcome timer_first]; try done.
  - intros Hne Ht Hbp. apply H5; [done|done|by apply Hb].
  - intros E. apply H7, Hp, E.
  - intros Hbp. destruct Ho as [->|Ho]; [|congruence]. apply H9, Hb, Hbp.
Qed.
Lemma inv_timer w r t st b : inv w r -> (timer_first r = true -> b = true) -> st ≠ OkStatus -> inv w (with_timer t (outcome r) b r) ∧ inv w (with_timer t (Settle st r) b r).
Proof.
  intros [H1 H2 H3 H4 H5 H6 H7 H8 H9 H10 H11] Hb Hst. assert (Hf : b = false -> timer_first r = false) by (destruct (timer_first r); [intros ->; by discriminate Hb|done]).
  split; constructor; cbn [with_timer phase timer lease_id read_hashes read_ids pulls outcome timer_first]; try done.
  - intros Hne Ht. apply H5; [done|by apply Hf].
  - intros st0 v E Ht. apply H8; [done|by apply Hf].
  - intros E Ht. apply H10; [done|by apply Hf].
  - intros Hne Ht. apply H5; [done|by apply Hf].
  - intros st0 v E Ht. apply H8; [done|by apply Hf].
  - intros Hbp [E|[_ E]]%settle_ok; [by apply H9|done].
  - intros [E|[_ E]]%settle_ok Ht; [|done]. apply H10; [done|by apply Hf].
Qed.

Lemma read_inv_step w r w' r' : inv w r -> step (w, r) (w', r') -> inv w' r'.
Proof.
  intros Hi Hs. inv Hs.
  - by apply (inv_source_step w).
  - assert (Hr' : LeaseSteps.reachable ttl_env retention w') by (eapply lease_run; [apply Hi|by apply rtc_once]).
    constructor; cbn [phase timer lease_id read_hashes read_ids pulls outcome timer_first]; try done.
    + intros _. by exists g.
    + intros _. apply (inv_unsettled w r Hi). match goal with H : phase r = Acquiring |- _ => by rewrite H end.
    + intros Ho. exfalso. apply (inv_unsettled w r Hi); [|done]. match goal with H : phase r = Acquiring |- _ => by rewrite H end.
  - apply inv_phase; try done; [by right|]. intros [E|[_ E]]%settle_ok; [by apply (inv_outcome w' r Hi)|done].
  - apply inv_phase; try done; [by right|]. intros [E|[_ E]]%settle_ok; [by apply (inv_outcome w' r Hi)|done].
  - by apply inv_pull.
  - match goal with H : phase r = Pulling |- _ => rename H into Hph end. apply inv_phase; try done; [by rewrite Hph| |by left|].
    + intros st [= <-]. split; [by apply (inv_pulling w' r Hi)|done].
    + intros Ho. exfalso. apply (inv_unsettled w' r Hi); [by rewrite Hph|done].
  - match goal with H : answered _ _ _ _ |- _ => apply answered_step in H as (Hs & -> & Hr) end. match goal with H : phase r = Pulled status |- _ => rename H into Hph end.
    destruct (inv_pulled w r Hi status Hph) as [Hne Hcomp].
    assert (Hclean : timer_first r = false -> (release_locked retention (clock w) (lease_id r) (svc w)).1.1 = LEASE_HELD -> Forall clean (pulls r)).
    { intros Ht Hv. apply (held_clean w r); [done..|by rewrite Hph|done]. }
    assert (Hi' : inv w (with_phase (Released status (Ok (release_locked retention (clock w) (lease_id r) (svc w)).1.1)) (outcome r) r)).
    { apply inv_phase; try done; [|by left|]; [|intros Ho; exfalso; apply (inv_unsettled w r Hi); [by rewrite Hph|done]].
      intros st v [= <- <-] Ht Hok Hv. split; [by apply Hcomp|by apply Hclean]. }
    apply (inv_source_step w); [done|done|]. done.
  - match goal with H : phase r = Pulled status |- _ => rename H into Hph end. apply inv_phase; try done; [by left|].
    intros Ho. exfalso. apply (inv_unsettled w' r Hi); [by rewrite Hph|done].
  - apply inv_phase; try done; [by right|]. intros [E|[_ E]]%settle_ok Ht; [by apply (inv_outcome w' r Hi)|].
    destruct status as [[]|]; [|done]. destruct release as [v|]; [|done]. destruct v; try done. by apply (inv_released w' r Hi (Ok ()) LEASE_HELD).
  - by apply (inv_timer w' r Fired (Err kInternal [])).
  - match goal with H : answered _ _ _ _ |- _ => apply answered_step in H as (Hs & -> & Hr) end.
    assert (Hi' : inv w (with_timer TimerReleased (outcome r) (timer_first r || before_release (phase r)) r)) by (apply (inv_timer w r TimerReleased (Err kInternal [])); [done|by intros ->|done]).
    destruct Hi' as [G1 G2 G3 G4 G5 G6 G7 G8 G9 G10 G11]. constructor; try done; cbn [with_timer phase timer lease_id read_hashes read_ids pulls outcome timer_first] in *.
    + eapply lease_run; [done|]. by apply rtc_once.
    + intros Hne. destruct (G3 Hne) as (g & Hg & Hx). exists g. split; [|done]. eapply (grants_kept ttl_env retention w w'); [by apply rtc_once|done].
    + intros Hne Hl. destruct (G3 Hne) as (g & Hg & _). apply G4; [done|]. by eapply live_step.
    + intros _ Ht Hb. rewrite Hb, orb_true_r in Ht. done.
  - by apply (inv_timer w' r TimerDone).
Qed.

Lemma read_reachable_inv w r : reachable w r -> inv w r.
Proof.
  intros (w0 & hashes & H0 & Hs). assert (Hi : inv w0 (start hashes)) by (by constructor). remember (w0, start hashes) as a eqn:Ea. remember (w, r) as b eqn:Eb.
  revert w0 H0 Hi Ea. generalize (start hashes). induction Hs as [x|x [w1 r1] z Hs _ IH]; intros r0 w0 H0 Hi ->; [by injection Eb as -> ->|].
  eapply (IH Eb r1 w1); [| |done]; [by apply (read_inv_step w0 r0 w1 r1 Hi) in Hs as []|by eapply read_inv_step].
Qed.

(** C7: when a remote read reports success, every pull it made read a block of its lease at a
    moment at which the source had that hash pinned and bound to exactly the block that was
    read, whatever the sweeper, other readers and evictions did meanwhile, provided the source
    did not answer the deadline thread's release before the read's own.  That the pulls are all
    the blocks of the lease is what a transfer that reports success promises (the premise of
    [StepTransferred]); the theorem adds that no other path leads to success. *)
Theorem remote_read_safe w r :
  reachable w r -> outcome r = Some OkStatus -> timer_first r = false ->
  complete r ∧ Forall (fun e => genuine r e ∧ clean e) (pulls r).
Proof.
  intros Hi%read_reachable_inv Ho Ht. destruct (inv_outcome w r Hi Ho Ht) as [Hc Hcl]. split; [exact Hc|].
  apply Forall_and. split; [apply (inv_genuine w r Hi)|exact Hcl].
Qed.
End system.
End RemoteRead.

(** ** Runs *)

Module ReadRuns.
Import RemoteRead Leases LeaseRun StoreHooks.

#[local] Instance read_hooks : LeaseHooks Store.KVCacheStore := store_hooks no_registry.
#[local] Instance read_laws : LeaseHooksLaws Store.KVCacheStore := store_hooks_laws no_registry.

(** The run of ControllerServiceLeases.v, read to the end. *)
Definition begun : Read := start [[1]; [2]].
Definition granted_read : Read := mkRead Pulling (timer begun) 7 (read_hashes begun) (g_ids grant) [] (outcome begun) (timer_first begun).
Definition pull (i : nat) (h : Hash) (b : Z) (w : World Store.KVCacheStore) (r : Read) : Read :=
  mkRead Pulling (timer r) (lease_id r) (read_hashes r) (read_ids r) (pulls r ++ [mkPull i h b (pins (store w) h) (bound (store w) h)]) (outcome r) (timer_first r).
Definition pulled_read : Read := pull 1 [2] 11 world2 (pull 0 [1] 10 world2 granted_read).
Definition transferred : Read := with_phase (Pulled OkStatus) (outcome pulled_read) pulled_read.
Definition releasing := release_locked keep (clock world2) 7 (svc world2).
Definition world3 : World Store.KVCacheStore := gave_up [7] (releasing.1.2, releasing.2) world2.
Definition answered_read : Read := with_phase (Released OkStatus (Ok LEASE_HELD)) (outcome transferred) transferred.
Definition settled_read : Read := with_phase Finished (Settle OkStatus answered_read) answered_read.

Lemma settled_reachable : RemoteRead.reachable None keep world3 settled_read.
Proof.
  exists world0, [[1]; [2]]. split; [by exists world0; split; [apply world0_initial|]|].
  eapply rtc_l; [apply (StepSource None keep world0 world1 begun); [exact (StepValidate None keep world0 request [10; 11] pinned acquired)|intros _ Hin; exact Hin]|].
  eapply rtc_l; [apply (StepGrant None keep world1 world2 begun 7 grant)|].
  { exact (StepRecord None keep world1 0 acquiring1 0 7 "peer" 60000 eq_refl (conj (Z.le_refl 0) (Z.le_refl 0)) ltac:(discriminate) eq_refl). }
  { reflexivity. } { discriminate. } { reflexivity. } { unfold world2. cbn [grants]. apply lookup_insert_eq. } { apply not_elem_of_nil. } { reflexivity. }
  eapply rtc_l; [exact (StepPull None keep world2 granted_read 0 [1] 10 eq_refl eq_refl eq_refl)|].
  eapply rtc_l; [exact (StepPull None keep world2 (pull 0 [1] 10 world2 granted_read) 1 [2] 11 eq_refl eq_refl eq_refl)|].
  eapply rtc_l; [apply (StepTransferred None keep world2 pulled_read OkStatus); [reflexivity|]|].
  { intros _ i Hi. cbn in Hi. destruct i as [|[|i]]; [|..|lia]; eexists; unfold pulled_read, pull; cbn [pulls app].
    - split; [apply list_elem_of_here|reflexivity].
    - split; [apply list_elem_of_further, list_elem_of_here|reflexivity]. }
  assert (Hv : releasing.1.1 = LEASE_HELD) by (vm_compute; reflexivity).
  eapply rtc_l; [apply (RemoteRead.StepRelease None keep world2 world3 transferred OkStatus LEASE_HELD); [reflexivity|]|].
  { unfold answered. change (lease_id transferred) with 7. fold releasing. unfold world3. rewrite <-Hv. destruct releasing as [[v u] s]. done. }
  apply rtc_once. exact (StepSettle None keep world3 answered_read OkStatus (Ok LEASE_HELD) eq_refl).
Qed.

Lemma remote_read_safe_witness : complete settled_read ∧ Forall (fun e => genuine settled_read e ∧ clean e) (pulls settled_read).
Proof.
  apply (remote_read_safe (S := Store.KVCacheStore) None keep ltac:(vm_compute; discriminate) world3 settled_read settled_reachable); reflexivity.
Defined.
End ReadRuns.

(** ** The deadline thread's release *)

(** A release is answered [LEASE_HELD] again after the first.  The deadline thread releases the
    lease before it settles the read, so the read's own release can be answered, and settle the
    read with success, after the first release gave the pins up in the middle of the transfer. *)
Module DeadlineRace.
Import RemoteRead Leases.

(** The smallest store with hooks: pin counts and host blocks. *)
Record Node : Type := mkNode { node_pins : Hash -> Z; node_bound : Hash -> option Z }.
#[local] Instance node_hooks : LeaseHooks Node := {
  validate_and_pin hs n :=
    match mapM (node_bound n) hs with
    | Some ids => (Ok ids, mkNode (fun h => node_pins n h + occ h hs) (node_bound n))
    | None => (Err kNotFound [], n)
    end;
  unpin hs n := mkNode (fun h => Z.max 0 (node_pins n h - occ h hs)) (node_bound n)
}.
#[local] Instance node_laws : LeaseHooksLaws Node.
Proof.
  refine {| usable _ := True; pins := node_pins; bound := node_bound |}.
  - intros hs n ids n' _. cbn. destruct (mapM (node_bound n) hs) as [js|] eqn:E; [|done]. intros [= <- <-]. split_and!; [done| |done]. by apply mapM_Some_1.
  - intros hs n code msg n' _. cbn. destruct (mapM _ hs); [done|]. intros [= _ _ <-]. done.
  - intros hs n _. done.
Defined.

Definition keep : Z := RevokedLeaseRetention None None.
Definition request : AcquireReadLeaseRequest := mkAcquire [[1]] 0 (RaidenIdToProto (OffloadLookup.node 2)).
Definition node0 : Node := mkNode (fun _ => 0) (fun h => if decide (h = [1]) then Some 10 else None).
Definition w0 : World Node := mkWorld (SetReadRemoteHooks (create None)) node0 0 [] [] [] (fun _ => 0) ∅ [].
Definition acq : Acquire := mkAcquiring [[1]] [10] 0.
Definition w1 : World Node := mkWorld (svc w0) (validate_and_pin [[1]] node0).2 0 [acq] [] [] (own w0) ∅ [].
Definition given : Grant := mkGrant [[1]] [10] 0.
Definition w2 : World Node :=
  mkWorld (RecordLease 0 7 [[1]] "peer" (granted None 0) (svc w1)) (store w1) 0 [] [] [] (own w1) (<[7 := given]> ∅) [].
(** The source answers the deadline thread, unpins, and evicts the block for another hash. *)
Definition first := release_locked keep 0 7 (svc w2).
Definition w3 : World Node := gave_up [7] (first.1.2, first.2) w2.
Definition w4 : World Node := mkWorld (svc w3) (call_unpin true [[1]] (store w3)) 0 [] [] [] (own w3) (grants w3) (released w3).
Definition evicted : Node := mkNode (node_pins (store w4)) (fun h => if decide (h = [9]) then Some 10 else None).
Definition w5 : World Node := mkWorld (svc w4) evicted 0 [] [] [] (own w4) (grants w4) (released w4).
Definition second := release_locked keep 0 7 (svc w5).
Definition w6 : World Node := gave_up [7] (second.1.2, second.2) w5.

Definition r1 : Read := mkRead Pulling Sleeping 7 [[1]] [10] [] None false.
Definition r2 : Read := with_timer TimerReleased None true (with_timer Fired None false r1).
Definition r3 : Read := mkRead Pulling TimerReleased 7 [[1]] [10] [mkPull 0 [1] 10 (pins (store w5) [1]) (bound (store w5) [1])] None true.
Definition r4 : Read := with_phase (Released OkStatus (Ok LEASE_HELD)) None (with_phase (Pulled OkStatus) None r3).
Definition r5 : Read := with_phase Finished (Settle OkStatus r4) r4.

Lemma eviction : node_step (store w4) evicted (own w4) (own w4).
Proof.
  split; [exact I|]. intros h. change (pins (store w4) h) with (Z.max 0 (0 + occ h [[1]] - occ h [[1]])).
  change (pins evicted h) with (Z.max 0 (0 + occ h [[1]] - occ h [[1]])). split_and!; [done|lia|]. intros Hp. exfalso. lia.
Qed.

(** A read can report success with a block that was read after the source had given it to
    another hash. *)
Lemma deadline_release_steals :
  exists w r, RemoteRead.reachable None keep w r ∧ outcome r = Some OkStatus ∧ ~ Forall clean (pulls r).
Proof.
  exists w6, r5. split_and!; [|done|].
  2: { intros Hc. apply Forall_cons in Hc as [[_ Hc] _]. vm_compute in Hc. discriminate Hc. }
  exists w0, [[1]]. split; [exists w0; split; [|done]; split_and!; done|].
  eapply rtc_l; [apply (StepSource None keep w0 w1 (start [[1]])); [exact (StepValidate None keep w0 request [10] (store w1) eq_refl)|intros _ Hin; exact Hin]|].
  eapply rtc_l; [apply (StepGrant None keep w1 w2 (start [[1]]) 7 given)|].
  { exact (StepRecord None keep w1 0 acq 0 7 "peer" 0 eq_refl (conj (Z.le_refl 0) (Z.le_refl 0)) ltac:(discriminate) eq_refl). }
  { reflexivity. } { discriminate. } { reflexivity. } { apply lookup_insert_eq. } { apply not_elem_of_nil. } { reflexivity. }
  eapply rtc_l; [exact (StepTimer None keep w2 r1 eq_refl eq_refl)|].
  eapply rtc_l; [apply (StepTimerRelease None keep w2 w3 (with_timer Fired None false r1) LEASE_HELD); [reflexivity|discriminate|]|].
  { unfold answered. change (lease_id (with_timer Fired None false r1)) with 7. change (clock w2) with 0. fold first. unfold w3. by destruct first as [[v u] s] eqn:E; vm_compute in E; injection E as <- <- <-. }
  eapply rtc_l; [apply (StepSource None keep w3 w4 r2); [exact (StepUnpin None keep w3 0 [[1]] eq_refl)|intros _ Hin; exact Hin]|].
  eapply rtc_l; [apply (StepSource None keep w4 w5 r2); [exact (StepNode None keep w4 evicted (own w4) eviction)|intros _ Hin; exact Hin]|].
  eapply rtc_l; [exact (StepPull None keep w5 r2 0 [1] 10 eq_refl eq_refl eq_refl)|].
  eapply rtc_l; [apply (StepTransferred None keep w5 r3 OkStatus); [reflexivity|]|].
  { intros _ i Hi. cbn in Hi. destruct i; [|lia]. eexists. split; [apply list_elem_of_singleton; reflexivity|reflexivity]. }
  eapply rtc_l; [apply (RemoteRead.StepRelease None keep w5 w6 (with_phase (Pulled OkStatus) None r3) OkStatus LEASE_HELD); [reflexivity|]|].
  { unfold answered. change (lease_id (with_phase (Pulled OkStatus) None r3)) with 7. change (clock w5) with 0. fold second. unfold w6. by destruct second as [[v u] s] eqn:E; vm_compute in E; injection E as <- <- <-. }
  apply rtc_once. exact (StepSettle None keep w6 r4 OkStatus (Ok LEASE_HELD) eq_refl).
Qed.
End DeadlineRace.
