(* ===== verification/FramedRpc.v ===== *)
(** * Framed calls ([src/tpu_sync/kv_cache/reshard/framed_rpc.cc])

    One call is one connection: a body behind its length, four bytes in network order, in
    each direction.  A socket is what arrives on it, in the portions in which [read] hands
    it over, and how much each [send] takes; both are arbitrary.  The sockets of the two
    ends are related by the theorems: what one end has sent is the stream the other reads,
    cut into portions at any places.  The listener's set-up and its accept loop are not
    modelled. *)

From Stdlib Require Import Ascii.
From S2P Require Import Prelude Bytes.

Module Framed.

(** ** Sockets *)

(** What [read] finds next: bytes, or an error (a reset, an expired timeout).  The end of
    the list, and an empty portion, are the end of the stream. *)
Inductive Arrival : Type :=
  | Data (bs : list Z)
  | Broken.

(** [read(fd, _, n)]: the bytes handed over, none for a result that is not positive. *)
Definition read (n : nat) (fd : list Arrival) : list Z * list Arrival :=
  match fd with
  | [] => ([], [])
  | Broken :: rest => ([], rest)
  | Data bs :: rest =>
      (take n bs, match drop n bs with [] => rest | more => Data more :: rest end)
  end.

(** [out] is what has been read; the fuel is the number of bytes asked for, of which every
    iteration reads one at least. *)
Fixpoint read_loop (fuel n : nat) (out : list Z) (fd : list Arrival) : option (list Z) * list Arrival :=
  if (length out <? n)%nat then
    match fuel with
    | O => (None, fd)
    | S fuel =>
        let '(r, fd) := read (n - length out) fd in
        match r with [] => (None, fd) | _ => read_loop fuel n (out ++ r) fd end
    end
  else (Some out, fd).
Definition ReadExactly (n : nat) (fd : list Arrival) : option (list Z) * list Arrival := read_loop n n [] fd.

(** [accepts] is what the successive calls of [send] return, if they are offered that much;
    the result is the verdict and the bytes that went out. *)
Fixpoint SendAll (data : list Z) (accepts : list Z) : bool * list Z * list Z :=
  match data, accepts with
  | [], _ => (true, [], accepts)
  | _, [] => (false, [], [])
  | _, w :: rest =>
      if w <=? 0 then (false, [], rest)
      else
        let '(done_, sent, rest) := SendAll (drop (Z.to_nat w) data) rest in
        (done_, take (Z.to_nat w) data ++ sent, rest)
  end.

Record Socket : Type := mkSocket {
  incoming : list Arrival;
  accepts : list Z
}.

(** ** Addresses *)

(** [rfind(':')]: what is before the last colon and what is after it. *)
Fixpoint rsplit (s : string) : option (string * string) :=
  match s with
  | EmptyString => None
  | String c rest =>
      match rsplit rest with
      | Some (host, port) => Some (String c host, port)
      | None => if Ascii.eqb c ":"%char then Some (EmptyString, rest) else None
      end
  end.

(** The string without its last character, and that character. *)
Fixpoint unsnoc (s : string) : option (string * Ascii.ascii) :=
  match s with
  | EmptyString => None
  | String c rest =>
      match unsnoc rest with
      | Some (init, back) => Some (String c init, back)
      | None => Some (EmptyString, c)
      end
  end.

Definition strip_brackets (host : string) : string :=
  match host with
  | String front rest =>
      match unsnoc rest with
      | Some (init, back) => if Ascii.eqb front "["%char && Ascii.eqb back "]"%char then init else host
      | None => host
      end
  | EmptyString => host
  end.

(** [atoi] is [absl::SimpleAtoi] into an [int]. *)
Definition SplitAddress (atoi : string -> option Z) (address : string) : StatusOr (string * Z) :=
  match rsplit address with
  | None => Err kInvalidArgument StrCat["Malformed endpoint (no port): "; address]
  | Some (host_view, port) =>
      match atoi port with
      | None => Err kInvalidArgument StrCat["Malformed endpoint port: "; address]
      | Some parsed_port => Ok (strip_brackets host_view, parsed_port)
      end
  end.

(** ** Connecting *)

(** What one resolved address leads to. *)
Inductive Candidate : Type :=
  | no_socket
  | refused
  | connected (fd : Socket).

(** [None] when the name does not resolve. *)
Definition TryConnectOnce (resolved : option (list Candidate)) : option Socket :=
  match resolved with
  | None => None
  | Some candidates => head (omap (fun c => match c with connected fd => Some fd | _ => None end) candidates)
  end.

Definition ToInt64Seconds (d : Z) : Z := d ÷ 1000000000.
Definition kRetryPause : Z := 2 * 1000000000.

(** One round of the loop per element: what the names resolve to, and the clock when the
    attempt has failed.  [None]: the rounds given are over and the loop still runs. *)
Fixpoint connect_loop (timeout deadline : Z) (address : string) (rounds : list (option (list Candidate) * Z)) :
    option (StatusOr Socket) :=
  match rounds with
  | [] => None
  | (resolved, now) :: rest =>
      match TryConnectOnce resolved with
      | Some fd => Some (Ok fd)
      | None =>
          if deadline <? now then
            Some (Err kDeadlineExceeded
              StrCat["Timeout ("; ToInt64Seconds timeout; "s) failed to connect to robust endpoint "; address])
          else connect_loop timeout deadline address rest
      end
  end.

(** ** One exchange *)

(** [htonl] of a length and [ntohl] of four bytes. *)
Definition net_len (n : nat) : list Z := rev (le_bytes 4 (u32 (Z.of_nat n))).
Definition host_len (bs : list Z) : nat := Z.to_nat (of_le (rev bs)).

(** The client's side: the verdict and what was sent. *)
Definition converse (strerror address : string) (payload : list Z) (fd : Socket) : StatusOr (list Z) * list Z :=
  let send_failed := Err kUnavailable StrCat["Failed to send framed payload to "; address; ": "; strerror] in
  match SendAll (net_len (length payload)) (accepts fd) with
  | (false, sent, _) => (send_failed, sent)
  | (true, sent1, rest) =>
      match SendAll payload rest with
      | (false, sent2, _) => (send_failed, sent1 ++ sent2)
      | (true, sent2, _) =>
          (match ReadExactly 4 (incoming fd) with
           | (None, _) => Err kUnavailable StrCat["Remote servicer closed connection while reading response length"]
           | (Some resp_net_len, fd) =>
               if (host_len resp_net_len =? 0)%nat then Ok []
               else match ReadExactly (host_len resp_net_len) fd with
                    | (None, _) => Err kUnavailable StrCat["Remote servicer closed connection while reading response data"]
                    | (Some response, _) => Ok response
                    end
           end, sent1 ++ sent2)
      end
  end.

Definition Call (atoi : string -> option Z) (strerror address : string) (payload : list Z) (timeout start : Z)
    (resolve : string * Z -> list (option (list Candidate) * Z)) : option (StatusOr (list Z)) :=
  match SplitAddress atoi address with
  | Err code msg => Some (Err code msg)
  | Ok host_port =>
      match connect_loop timeout (start + timeout) address (resolve host_port) with
      | None => None
      | Some (Err code msg) => Some (Err code msg)
      | Some (Ok fd) => Some (converse strerror address payload fd).1
      end
  end.

(** The server's side: the body the handler is called with, if it is called, and what is
    sent back. *)
Definition ServeConnection (handler : list Z -> list Z) (fd : Socket) : option (list Z) * list Z :=
  match ReadExactly 4 (incoming fd) with
  | (None, _) => (None, [])
  | (Some net, rest) =>
      match (if (host_len net =? 0)%nat then Some [] else (ReadExactly (host_len net) rest).1) with
      | None => (None, [])
      | Some request =>
          let response := handler request in
          let '(_, sent1, more) := SendAll (net_len (length response)) (accepts fd) in
          let '(_, sent2, _) := SendAll response more in
          (Some request, sent1 ++ sent2)
      end
  end.

(** ** The stream of a socket *)

(** What can be read before the end of the stream or an error. *)
Fixpoint stream (fd : list Arrival) : list Z :=
  match fd with
  | Data (b :: bs) :: rest => (b :: bs) ++ stream rest
  | _ => []
  end.

Lemma read_stream n fd r fd' : (0 < n)%nat -> read n fd = (r, fd') ->
  (r = [] ∧ stream fd = []) ∨ (r ≠ [] ∧ stream fd = r ++ stream fd' ∧ (length r <= n)%nat).
Proof.
  intros Hn. destruct fd as [|[[|b bs]|] rest]; cbn [read]; [intros [= <- <-]; by left|..|intros [= <- <-]; by left].
  { destruct n; intros [= <- <-]; by left. }
  destruct n as [|n]; [lia|]. cbn [take drop]. intros [= <- <-]. right. split; [done|]. split; [|cbn; rewrite length_take; lia].
  cbn [stream]. rewrite <-(take_drop n bs) at 1. cbn [app]. rewrite <-app_assoc. f_equal. f_equal.
  by destruct (drop n bs).
Qed.

Lemma read_loop_stream fuel n out fd : (n - length out <= fuel)%nat -> (length out <= n)%nat ->
  let k := (n - length out)%nat in
  if (k <=? length (stream fd))%nat
  then exists fd', read_loop fuel n out fd = (Some (out ++ take k (stream fd)), fd') ∧ stream fd' = drop k (stream fd)
  else (read_loop fuel n out fd).1 = None.
Proof.
  revert out fd. induction fuel as [|fuel IH]; intros out fd Hf Hl k; cbn [read_loop].
  - destruct (Nat.ltb_spec (length out) n); [lia|]. replace k with 0%nat by lia. exists fd. by rewrite app_nil_r.
  - destruct (Nat.ltb_spec (length out) n) as [Hlt|Hge]; [|replace k with 0%nat by lia; exists fd; by rewrite app_nil_r].
    destruct (read (n - length out) fd) as [r fd1] eqn:Er.
    apply read_stream in Er as [[-> Es]|(Hr & Es & Hrn)]; [|..|lia].
    + rewrite Es. cbn [length]. by destruct (Nat.leb_spec k 0); [lia|].
    + assert (0 < length r)%nat by (destruct r; [done|cbn; lia]).
      assert (Hm : forall A (x y : A), match r with [] => x | _ :: _ => y end = y) by (by destruct r). rewrite !Hm.
      specialize (IH (out ++ r) fd1). rewrite length_app in IH. specialize (IH ltac:(lia) ltac:(lia)). cbv zeta in IH.
      rewrite Es, length_app. replace (n - (length out + length r))%nat with (k - length r)%nat in IH by lia.
      destruct (Nat.leb_spec (k - length r) (length (stream fd1))) as [Hle|Hgt].
      * destruct (Nat.leb_spec k (length r + length (stream fd1))); [|lia]. destruct IH as (fd' & -> & Hs). exists fd'.
        rewrite take_app, drop_app, (take_ge r), (drop_ge r) by lia. by rewrite app_assoc.
      * by destruct (Nat.leb_spec k (length r + length (stream fd1))); [lia|].
Qed.

(** [ReadExactly] returns the next [n] bytes of the stream when it has them, however they
    are cut into portions, and fails otherwise. *)
Lemma read_exactly_spec n fd :
  if (n <=? length (stream fd))%nat
  then exists fd', ReadExactly n fd = (Some (take n (stream fd)), fd') ∧ stream fd' = drop n (stream fd)
  else (ReadExactly n fd).1 = None.
Proof.
  pose proof (read_loop_stream n n [] fd) as Hs. cbn [length] in Hs. rewrite Nat.sub_0_r in Hs. cbv zeta in Hs. apply Hs; lia.
Qed.

(** ** Frames *)

Definition frame (body : list Z) : list Z := net_len (length body) ++ body.
(** A length that fits the four bytes in front of a body. *)
Definition fits (body : list Z) : Prop := Z.of_nat (length body) < 2 ^ 32.
Lemma length_net_len n : length (net_len n) = 4%nat.
Proof. unfold net_len. by rewrite length_rev, length_le_bytes. Qed.
Lemma host_net_len body : fits body -> host_len (net_len (length body)) = length body.
Proof.
  intros Hf. unfold fits in Hf. unfold host_len, net_len. rewrite rev_involutive, of_le_le_bytes; unfold u32.
  - rewrite Z.mod_small by lia. lia.
  - change (256 ^ Z.of_nat 4) with (2 ^ 32). apply Z.mod_pos_bound. lia.
Qed.
Lemma length_frame body : length (frame body) = (4 + length body)%nat.
Proof. unfold frame. by rewrite length_app, length_net_len. Qed.

(** All of the data goes out, or a proper part of it and the failure is seen. *)
Lemma send_all_part data acc done_ sent rest : SendAll data acc = (done_, sent, rest) ->
  if done_ then sent = data else exists m, (m < length data)%nat ∧ sent = take m data.
Proof.
  revert data done_ sent rest. induction acc as [|w acc IH]; intros [|b data] done_ sent rest; cbn [SendAll].
  - by intros [= <- <- <-].
  - intros [= <- <- <-]. exists 0%nat. split; [cbn; lia|done].
  - by intros [= <- <- <-].
  - destruct (Z.leb_spec w 0); [intros [= <- <- <-]; exists 0%nat; split; [cbn; lia|done]|].
    destruct (SendAll (drop (Z.to_nat w) (b :: data)) acc) as [[d s] r] eqn:E. intros [= <- <- <-]. apply IH in E. destruct d.
    + subst s. apply take_drop.
    + destruct E as (m & Hm & ->). rewrite length_drop in Hm. exists (Z.to_nat w + m)%nat. split; [lia|]. by rewrite take_take_drop.
Qed.

(** Header and body leave as one frame if the header leaves at all. *)
Definition sends (body : list Z) (acc : list Z) : Prop :=
  exists mid rest, SendAll (net_len (length body)) acc = (true, net_len (length body), mid) ∧ SendAll body mid = (true, body, rest).
Definition header_sent (body : list Z) (acc : list Z) : Prop := (SendAll (net_len (length body)) acc).1.1 = true.

(** Reading what is there of a frame: its body, or a failure in front of its end. *)
Lemma frame_read fd body k : stream fd = take k (frame body) -> fits body ->
  if (length (frame body) <=? k)%nat
  then exists fd', ReadExactly 4 fd = (Some (net_len (length body)), fd') ∧ (ReadExactly (length body) fd').1 = Some body
  else (ReadExactly 4 fd).1 = None ∨
       exists fd', ReadExactly 4 fd = (Some (net_len (length body)), fd') ∧ (0 < length body)%nat ∧ (ReadExactly (length body) fd').1 = None.
Proof.
  intros Hs Hf. pose proof (length_net_len (length body)) as Hn. pose proof (length_frame body) as Hlf.
  pose proof (read_exactly_spec 4 fd) as H4. rewrite Hs, length_take, Hlf in H4.
  destruct (Nat.leb_spec 4 (k `min` (4 + length body))) as [Hk|Hk].
  2:{ destruct (Nat.leb_spec (length (frame body)) k); [lia|]. by left. }
  destruct H4 as (fd' & H4 & Hs'). rewrite take_take in H4. replace (4 `min` k)%nat with (length (net_len (length body))) in H4 by lia.
  unfold frame in H4, Hs'. rewrite take_app_length in H4.
  assert (Hd : stream fd' = take (k - 4) body).
  { rewrite Hs'. rewrite take_app, drop_app, drop_ge by (rewrite length_take; lia). rewrite (take_ge (net_len _)) by lia. by rewrite Hn. }
  pose proof (read_exactly_spec (length body) fd') as Hb. rewrite Hd, length_take in Hb.
  destruct (Nat.leb_spec (length (frame body)) k).
  - exists fd'. split; [done|]. destruct (Nat.leb_spec (length body) ((k - 4) `min` length body)); [|lia].
    destruct Hb as (fd2 & -> & _). cbn. by rewrite take_take, take_ge by lia.
  - right. exists fd'. split_and!; [done|lia|]. by destruct (Nat.leb_spec (length body) ((k - 4) `min` length body)); [lia|].
Qed.

(** The server on [k] bytes of a frame: the handler sees the whole body or nothing. *)
Lemma serve_spec handler fd body k : stream (incoming fd) = take k (frame body) -> fits body ->
  if (length (frame body) <=? k)%nat
  then (ServeConnection handler fd).1 = Some body ∧
       (header_sent (handler body) (accepts fd) -> exists m, (ServeConnection handler fd).2 = take m (frame (handler body)))
  else ServeConnection handler fd = (None, []).
Proof.
  intros Hs Hf. pose proof (frame_read _ _ _ Hs Hf) as Hr. unfold ServeConnection.
  destruct (Nat.leb_spec (length (frame body)) k) as [Hk|Hk].
  - destruct Hr as (fd' & -> & Hb). rewrite (host_net_len _ Hf).
    assert ((if (length body =? 0)%nat then Some [] else (ReadExactly (length body) fd').1) = Some body) as ->.
    { destruct (Nat.eqb_spec (length body) 0) as [Hz|]; [|done]. by destruct body. }
    split; [by destruct (SendAll _ _) as [[? ?] ?], (SendAll _ _) as [[? ?] ?]|].
    unfold header_sent. destruct (SendAll (net_len _) (accepts fd)) as [[d1 sent1] more] eqn:E1. cbn [fst snd]. intros ->.
    apply send_all_part in E1. subst sent1. destruct (SendAll (handler body) more) as [[d2 sent2] rest] eqn:E2. apply send_all_part in E2.
    assert (exists m, sent2 = take m (handler body)) as [m ->].
    { destruct d2; [subst sent2; exists (length (handler body)); by rewrite take_ge|destruct E2 as (m & _ & ->); by exists m]. }
    exists (4 + m)%nat. unfold frame. by rewrite <-(length_net_len (length (handler body))), take_app_add.
  - destruct Hr as [Hn|(fd' & -> & Hpos & Hn)].
    + by destruct (ReadExactly 4 (incoming fd)) as [[?|] ?].
    + rewrite (host_net_len _ Hf). destruct (Nat.eqb_spec (length body) 0); [lia|]. by rewrite Hn.
Qed.

(** The client on [k] bytes of the answer: the answer or an error. *)
Lemma converse_spec strerror address payload fd body k :
  sends payload (accepts fd) -> stream (incoming fd) = take k (frame body) -> fits body ->
  (converse strerror address payload fd).2 = frame payload ∧
  if (length (frame body) <=? k)%nat then (converse strerror address payload fd).1 = Ok body
  else exists msg, (converse strerror address payload fd).1 = Err kUnavailable msg.
Proof.
  intros (mid & rest & E1 & E2) Hs Hf. pose proof (frame_read _ _ _ Hs Hf) as Hr. unfold converse. rewrite E1, E2. split; [done|]. cbn [fst].
  destruct (Nat.leb_spec (length (frame body)) k) as [Hk|Hk].
  - destruct Hr as (fd' & -> & Hb). rewrite (host_net_len _ Hf). destruct (Nat.eqb_spec (length body) 0) as [Hz|]; [by destruct body|].
    destruct (ReadExactly (length body) fd') as [[?|] ?]; [by simplify_eq/=|done].
  - destruct Hr as [Hn|(fd' & -> & Hpos & Hn)].
    + destruct (ReadExactly 4 (incoming fd)) as [[?|] ?]; [done|]. by eexists.
    + rewrite (host_net_len _ Hf). destruct (Nat.eqb_spec (length body) 0); [lia|].
      destruct (ReadExactly (length body) fd') as [[?|] ?]; [done|]. by eexists.
Qed.

(** The client sends its frame and goes on to read, or a proper part of it and fails. *)
Lemma converse_sent strerror address payload fd :
  sends payload (accepts fd) ∧ (converse strerror address payload fd).2 = frame payload ∨
  (exists m, (m < length (frame payload))%nat ∧ (converse strerror address payload fd).2 = take m (frame payload)) ∧
  (exists msg, (converse strerror address payload fd).1 = Err kUnavailable msg).
Proof.
  unfold converse, sends. pose proof (length_net_len (length payload)) as Hn. rewrite length_frame. unfold frame.
  destruct (SendAll (net_len (length payload)) (accepts fd)) as [[d1 sent1] mid] eqn:E1. apply send_all_part in E1. destruct d1.
  2:{ right. destruct E1 as (m & Hm & ->). split; [|by eexists]. exists m. split; [lia|]. cbn [snd]. by rewrite take_app_le by lia. }
  subst sent1. destruct (SendAll payload mid) as [[d2 sent2] rest] eqn:E2. pose proof (send_all_part _ _ _ _ _ E2) as H2. destruct d2.
  - subst sent2. left. split; [by exists mid, rest|done].
  - right. destruct H2 as (m & Hm & ->). split; [|by eexists]. exists (4 + m)%nat. split; [lia|]. cbn [snd]. by rewrite <-Hn, take_app_add.
Qed.

(** C23: a framed call is exact or fails.  Let the server receive the first [k] of the bytes
    the client sent and the client the first [j] of the bytes the server sent, in any portions,
    and let either end's [send] take as little as it likes or fail, except that the server's
    four header bytes go out.  The handler is called with the payload if the whole request
    arrived and is not called otherwise, it is never given a part of it; the call returns
    exactly what the handler answered if both frames arrived in full and an error otherwise.
    (The exception is needed: [ServeConnection] does not look at the verdict of sending the
    header and sends the body anyway, and the client then takes body bytes for a length:
    [lost_header_returns_garbage].) *)
Theorem framed_call_exact handler payload strerror address client server k j :
  fits payload -> fits (handler payload) -> header_sent (handler payload) (accepts server) ->
  stream (incoming server) = take k (converse strerror address payload client).2 ->
  stream (incoming client) = take j (ServeConnection handler server).2 ->
  let whole := (length (frame payload) <=? length (stream (incoming server)))%nat in
  let back := (length (frame (handler payload)) <=? length (stream (incoming client)))%nat in
  (ServeConnection handler server).1 = (if whole then Some payload else None) ∧
  if whole && back
  then (converse strerror address payload client).1 = Ok (handler payload)
  else exists msg, (converse strerror address payload client).1 = Err kUnavailable msg.
Proof.
  intros Hp Hr Hh Hs Ha whole back. unfold whole, back.
  destruct (converse_sent strerror address payload client) as [[Hsends Hsent]|[(m & Hm & Hsent) He]]; rewrite Hsent in Hs.
  - pose proof (serve_spec handler server payload k Hs Hp) as Hserve. rewrite Hs, length_take.
    destruct (Nat.leb_spec (length (frame payload)) k) as [Hk|Hk].
    + rewrite Nat.min_r, Nat.leb_refl by lia. destruct Hserve as [H1 H2]. split; [done|]. cbn [andb]. destruct (H2 Hh) as [n En].
      rewrite En, take_take in Ha. pose proof (converse_spec strerror address payload client (handler payload) (j `min` n) Hsends Ha Hr) as [_ Hc].
      rewrite Ha, length_take. destruct (Nat.leb_spec (length (frame (handler payload))) (j `min` n)); destruct (Nat.leb_spec (length (frame (handler payload))) ((j `min` n) `min` length (frame (handler payload)))); [done|lia|lia|done].
    + rewrite Nat.min_l by lia. destruct (Nat.leb_spec (length (frame payload)) k); [lia|]. rewrite Hserve in Ha |- *. split; [done|]. cbn [andb].
      destruct (converse_spec strerror address payload client [] 0 Hsends) as [_ He]; [rewrite Ha; by destruct j|done|]. exact He.
  - rewrite take_take in Hs. pose proof (serve_spec handler server payload (k `min` m) Hs Hp) as Hserve. rewrite Hs, length_take.
    destruct (Nat.leb_spec (length (frame payload)) (k `min` m)); [lia|]. destruct (Nat.leb_spec (length (frame payload)) ((k `min` m) `min` length (frame payload))); [lia|].
    rewrite Hserve. split; [done|]. exact He.
Qed.

(** ** Connecting returns *)

(** Between two rounds the client sleeps, so the clock advances by the pause at least. *)
Fixpoint paced (last : Z) (rounds : list (option (list Candidate) * Z)) : Prop :=
  match rounds with
  | [] => True
  | (_, now) :: rest => last <= now ∧ paced (now + kRetryPause) rest
  end.

Lemma connect_loop_returns timeout deadline address rounds last :
  paced last rounds -> last <= deadline + kRetryPause -> deadline < last + (Z.of_nat (length rounds) - 1) * kRetryPause ->
  is_Some (connect_loop timeout deadline address rounds).
Proof.
  unfold kRetryPause. revert last. induction rounds as [|[resolved now] rest IH]; intros last Hp Hl Hd; cbn [connect_loop length] in *; [lia|].
  destruct Hp as [Hn Hp]. destruct (TryConnectOnce resolved); [by eexists|].
  destruct (Z.ltb_spec deadline now); [by eexists|]. apply (IH (now + kRetryPause)); [done|unfold kRetryPause; lia..].
Qed.

(** The retry loop of a call ends: it makes at most one attempt per pause within the timeout
    and one more, whatever the attempts do. *)
Theorem framed_connect_returns timeout start address rounds :
  0 <= timeout -> paced start rounds -> timeout < (Z.of_nat (length rounds) - 1) * kRetryPause ->
  is_Some (connect_loop timeout (start + timeout) address rounds).
Proof. intros. apply (connect_loop_returns _ _ _ _ start); [done|unfold kRetryPause; lia|lia]. Qed.

(** ** Addresses *)

Lemma append_nil t : String.append EmptyString t = t.
Proof. done. Qed.
Lemma append_cons c s t : String.append (String c s) t = String c (String.append s t).
Proof. done. Qed.
Lemma append_snoc s c t : String.append (String.append s (String c EmptyString)) t = String.append s (String c t).
Proof. induction s as [|d s IH]; [done|]. by rewrite !append_cons, IH. Qed.
(** A port has no colon, so the split is at the colon in front of it, whatever the host. *)
Lemma rsplit_join host port : rsplit port = None -> rsplit (String.append host (String ":"%char port)) = Some (host, port).
Proof.
  intros Hp. induction host as [|c host IH]; [rewrite append_nil|rewrite append_cons]; cbn [rsplit]; [by rewrite Hp|by rewrite IH].
Qed.
Lemma unsnoc_join s c : unsnoc (String.append s (String c EmptyString)) = Some (s, c).
Proof. induction s as [|d s IH]; [done|]. rewrite append_cons. cbn [unsnoc]. by rewrite IH. Qed.
(** A bracketed IPv6 address loses its brackets and keeps its colons. *)
Lemma split_bracketed atoi host port n : rsplit port = None -> atoi port = Some n ->
  SplitAddress atoi (String "["%char (String.append host (String "]"%char (String ":"%char port)))) = Ok (host, n).
Proof.
  intros Hp Hn. unfold SplitAddress. rewrite <-append_snoc, <-append_cons, rsplit_join, Hn by done.
  cbn [strip_brackets]. by rewrite unsnoc_join.
Qed.

(** ** Instances *)

(** A server that answers with the reversed body, three bytes at a time on the way there,
    one at a time on the way back. *)
Definition demo_client : Socket :=
  mkSocket [Data [0]; Data [0]; Data [0]; Data [3]; Data [9]; Data [8]; Data [7]] [3; 1; 1; 1; 1; 2; 9].
Definition demo_server : Socket := mkSocket [Data [0; 0; 0]; Data [3; 7; 8]; Data [9]] [9; 9; 9; 9; 9; 9; 9].

Lemma framed_call_exact_witness :
  (ServeConnection (rev (A:=Z)) demo_server).1 = Some [7; 8; 9] ∧
  (converse EmptyString "h:1" [7; 8; 9] demo_client).1 = Ok [9; 8; 7].
Proof.
  apply (framed_call_exact (rev (A:=Z)) [7; 8; 9] EmptyString "h:1" demo_client demo_server 7 7); reflexivity.
Defined.

(** The server's header fails to go out (its first [send] is interrupted) and the body is sent
    all the same: the client reads the first four bytes of the body as a length and returns
    some of the bytes behind them as the answer. *)
Definition headless_server : Socket := mkSocket [Data [0; 0; 0; 1]; Data [7]] [0; 9].
Lemma lost_header_returns_garbage :
  let answer := fun _ : list Z => [0; 0; 0; 2; 40; 41] in
  let sent := (ServeConnection answer headless_server).2 in
  (ServeConnection answer headless_server).1 = Some [7] ∧
  (converse EmptyString "h:1" [7] (mkSocket [Data sent] [9; 9])).1 = Ok [40; 41].
Proof. vm_compute. done. Qed.

End Framed.
