(* ===== verification/ReshardService.v ===== *)
(** * The reshard service ([src/tpu_sync/kv_cache/reshard/reshard_service.cc])

    The control plane of resharding: one frame in, one frame out.  The service owns the
    work-unit directory, the request-block registry and the coordinator; a frame is tried
    as a [ControllerRequest] and, when that is not one of the controller's commands, as a
    [ControlRequest].  The encoding of the messages is protobuf's and not part of this
    code: the class [Protobuf] has its functions and [ProtobufLaws] what the service relies
    on.  Frames arrive on threads of their own: [d_manifest] is the directory when
    [Register] read the manifest, [during] what other threads do to the registry while a
    transfer runs; every other command is one critical section. *)

From S2P Require Import Prelude PoolLayout ReshardTypes WorkUnitDirectory RequestBlockRegistry PoolReshardPlanner TransferProgram ReshardCoordinator.

Module ReshardMessages.

(** ** Messages of [rpc/controller_service.proto] *)

Record PoolByteSpanProto : Type := mkSpanProto {
  m_src_block_ordinal : Z;
  m_src_offset_bytes : Z;
  m_dst_block_index : Z;
  m_dst_offset_bytes : Z;
  m_size_bytes : Z;
  m_src_stride_bytes : Z;
  m_dst_stride_bytes : Z;
  m_count : Z
}.
Record PoolSpanRegistrationProto : Type := mkSpanRegProto {
  m_tag : string;
  m_block_ids : list Z;
  m_spans : list PoolByteSpanProto;
  m_declared_bytes : Z;
  m_dst_space_version : Z
}.
Record RegisterRequestBlocksRequest : Type := mkRegisterBlocks {
  rb_req_id : string;
  rb_uuid : Z;
  rb_unit : RaidenIdProto;
  rb_block_ids : list Z;
  rb_pool_spans : list PoolSpanRegistrationProto
}.
Record ReleaseRequestBlocksRequest : Type := mkReleaseBlocks {
  rl_req_id : string;
  rl_uuid : Z;
  force : bool
}.
Record CompleteRequestBlocksRequest : Type := mkCompleteBlocks {
  cp_req_id : string;
  cp_uuid : Z;
  cp_unit : RaidenIdProto
}.
Record CancelRequestBlocksIfUnclaimedRequest : Type := mkCancelBlocks {
  cn_req_id : string;
  cn_uuid : Z
}.
Record GetTransferStatusRequest : Type := mkGetStatus {
  gs_req_id : string;
  gs_uuid : Z
}.
Record CoordinateTransferRequest : Type := mkCoordinate {
  ct_src_units : list RaidenIdProto;
  ct_dst_units : list RaidenIdProto;
  ct_uuid : Z;
  ct_is_sender : bool;
  ct_dst_mem_type : Z;
  ct_use_block_chunks : bool;
  ct_expected_block_count : Z;
  ct_req_id : string;
  ct_src_controller_address : string;
  ct_dst_controller_address : string;
  ct_dst_device_block_ids : list Z;
  ct_transfer_pool_tags : list string;
  ct_dst_block_counts : list Z;
  ct_dst_skip_bytes : list Z
}.

(** The command is an open enum; a body is present or absent. *)
Record ControllerRequest : Type := mkController {
  c_command : Z;
  coordinate_transfer_request : option CoordinateTransferRequest;
  get_transfer_status_request : option GetTransferStatusRequest;
  register_request_blocks_request : option RegisterRequestBlocksRequest;
  release_request_blocks_request : option ReleaseRequestBlocksRequest;
  complete_request_blocks_request : option CompleteRequestBlocksRequest;
  cancel_request_blocks_if_unclaimed_request : option CancelRequestBlocksIfUnclaimedRequest
}.
Record ControllerResponse : Type := mkControllerResponse {
  cr_success : bool;
  cr_message : string;
  get_transfer_status_response : option Z;
  response_data : string
}.

Definition COORDINATE_TRANSFER : Z := 1.
Definition GET_TRANSFER_STATUS : Z := 2.
Definition REGISTER_REQUEST_BLOCKS : Z := 3.
Definition RELEASE_REQUEST_BLOCKS : Z := 4.
Definition COMPLETE_REQUEST_BLOCKS : Z := 5.
Definition CANCEL_REQUEST_BLOCKS_IF_UNCLAIMED : Z := 6.

(** ** Messages of [rpc/raiden_service.proto] *)

Record ControlRequest : Type := mkControl {
  command : Z;
  peers : list string;
  start_transfer_request : option Program.StartTransferRequest;
  register_work_unit_request : option WUD.RegisterWorkUnitRequest
}.
Record ControlResponse : Type := mkControlResponse {
  success : bool;
  message : string;
  get_metadata_response : list WUD.RegisterWorkUnitRequest
}.

Definition START_TRANSFER : Z := 1.
Definition SHUTDOWN : Z := 2.
Definition REGISTER_WORK_UNIT : Z := 3.
Definition GET_METADATA : Z := 4.
Definition REGISTER_TRANSFER_SCHEDULE : Z := 5.

(** Reading a body that is absent gives its default instance. *)
Definition no_id : RaidenIdProto := mkRaidenIdProto EmptyString EmptyString EmptyString 0.
Definition default_start : Program.StartTransferRequest :=
  Program.mkStart [] [] ∅ 0 false 0 false 0 EmptyString [] [] 0 None [] ∅ ∅.
Definition default_registration : WUD.RegisterWorkUnitRequest :=
  WUD.mkRequest no_id [] EmptyString 0 EmptyString 0 0 0 [] [] [] [] [].

(** ** Encoding *)

(** [SerializeAsString] and [ParseFromString] of the messages the two ends exchange. *)
Class Protobuf (B : Type) := {
  put_controller : ControllerRequest -> B;
  get_controller : B -> option ControllerRequest;
  put_control : ControlRequest -> B;
  get_control : B -> option ControlRequest;
  put_controller_response : ControllerResponse -> B;
  get_controller_response : B -> option ControllerResponse;
  put_control_response : ControlResponse -> B;
  get_control_response : B -> option ControlResponse
}.

(** The request the bytes of another type are read as: the command is field 1 of both, and
    the bodies of one have the field numbers 2 to 4, those of the other 8 to 13. *)
Definition bare_controller (n : Z) : ControllerRequest := mkController n None None None None None None.
Definition bare_control (n : Z) : ControlRequest := mkControl n [] None None.

(** Messages survive the wire, and a field a type does not have is skipped. *)
Class ProtobufLaws (B : Type) `{Protobuf B} := {
  controller_codec r : get_controller (put_controller r) = Some r;
  control_codec r : get_control (put_control r) = Some r;
  controller_response_codec r : get_controller_response (put_controller_response r) = Some r;
  control_response_codec r : get_control_response (put_control_response r) = Some r;
  control_as_controller r : get_controller (put_control r) = Some (bare_controller (command r));
  controller_as_control r : get_control (put_controller r) = Some (bare_control (c_command r))
}.

End ReshardMessages.

Module ReshardService.

Import ReshardMessages.

(** ** State *)

Record ReshardService : Type := mkService {
  directory_ : WUD.WorkUnitDirectory;
  registry_ : Registry.RequestBlockRegistry;
  coordinator_ : Coordinator.ReshardCoordinator
}.

Implicit Types (s : ReshardService) (now : Z).

(** [counter] is the process-wide claim counter. *)
Definition create (ttl_s counter : Z) : ReshardService :=
  mkService WUD.create (Registry.create ttl_s) (Coordinator.mkCoordinator ∅ counter).

Definition with_registry (r : Registry.RequestBlockRegistry) s : ReshardService := mkService (directory_ s) r (coordinator_ s).

(** What the service does beside its answer. *)
Inductive Effect : Type :=
  | Coordinated (e : Coordinator.Event)
  | ShutdownWorker (address : string)
  | ShutdownCallback  (* if one is set *)
  | Submitted (worker_id : string) (program : Program.TransferProgramRequest).

Definition fails (msg : list Frag) : ControllerResponse := mkControllerResponse false (render msg) None EmptyString.
Definition answers (data : string) : ControllerResponse := mkControllerResponse true EmptyString None data.
Definition refuses (msg : list Frag) : ControlResponse := mkControlResponse false (render msg) [].
Definition accepts : ControlResponse := mkControlResponse true EmptyString [].

(** ** Decoding *)

Definition is_controller_command (req : ControllerRequest) : bool :=
  ((c_command req =? COORDINATE_TRANSFER) && WUD.has_value (coordinate_transfer_request req)) ||
  ((c_command req =? GET_TRANSFER_STATUS) && WUD.has_value (get_transfer_status_request req)) ||
  ((c_command req =? REGISTER_REQUEST_BLOCKS) && WUD.has_value (register_request_blocks_request req)) ||
  ((c_command req =? RELEASE_REQUEST_BLOCKS) && WUD.has_value (release_request_blocks_request req)) ||
  ((c_command req =? COMPLETE_REQUEST_BLOCKS) && WUD.has_value (complete_request_blocks_request req)) ||
  ((c_command req =? CANCEL_REQUEST_BLOCKS_IF_UNCLAIMED) && WUD.has_value (cancel_request_blocks_if_unclaimed_request req)).

Definition span_of (span : PoolByteSpanProto) : PoolByteSpan :=
  mkSpan (m_src_block_ordinal span) (m_src_offset_bytes span) (m_dst_block_index span) (m_dst_offset_bytes span)
    (m_size_bytes span) (m_src_stride_bytes span) (m_dst_stride_bytes span) (m_count span).
Definition spans_of (entry : PoolSpanRegistrationProto) : PoolSpanRegistration :=
  mkSpanReg (m_tag entry) (m_block_ids entry) (span_of <$> m_spans entry) (m_declared_bytes entry) (m_dst_space_version entry).

Definition nonempty {A} (l : list A) : bool := negb (length l =? 0)%nat.

Definition is_pool_request (req : CoordinateTransferRequest) : bool :=
  nonempty (ct_dst_device_block_ids req) || nonempty (ct_transfer_pool_tags req).

Definition args_of (req : CoordinateTransferRequest) : Coordinator.PoolReshardArgs :=
  Coordinator.mkArgs (RaidenIdFromProto <$> ct_src_units req) (RaidenIdFromProto <$> ct_dst_units req) (ct_req_id req)
    (ct_dst_device_block_ids req) (nonempty (ct_dst_device_block_ids req)) (ct_use_block_chunks req) (ct_dst_mem_type req)
    (ct_dst_controller_address req) (if 0 <? ct_uuid req then ct_uuid req else 0) (ct_is_sender req)
    (if nonempty (ct_dst_device_block_ids req) then Some 0 else None) (ct_transfer_pool_tags req)
    (nonempty (ct_transfer_pool_tags req)) None false (ct_dst_block_counts req) (ct_dst_skip_bytes req).

(** A repeated field that is empty, a string that is empty, a number that is not positive:
    not given. *)
Definition given {A} (l : list A) : option (list A) := if nonempty l then Some l else None.
Definition given_string (x : string) : option string := if bool_decide (x = EmptyString) then None else Some x.
Definition given_positive (n : Z) : option Z := if 0 <? n then Some n else None.

Definition registration_of (reg : WUD.RegisterWorkUnitRequest) : WUD.WorkUnitRegistration :=
  let pool_manifest := given (WUD.q_pools reg) in
  WUD.mkReg (RaidenIdFromProto (WUD.q_unit reg)) (WUD.q_shards reg) (given_string (WUD.q_control_plane_rpc_address reg))
    (given (WUD.q_mesh_shape reg)) (given (WUD.q_layout reg)) (given (WUD.q_global_shape reg)) (given_positive (WUD.q_itemsize reg))
    pool_manifest (given_string (WUD.q_layout_fingerprint reg)) (given_positive (WUD.q_page_tokens reg))
    (given_positive (WUD.q_transfer_parallelism reg)) (if WUD.has_value pool_manifest then Some (WUD.q_transfer_rank reg) else None)
    (given (WUD.q_variables reg)).

Definition status_number (t : Coordinator.TransferStatus) : Z :=
  match t with Coordinator.kNotStarted => 1 | Coordinator.kInProgress => 2 | Coordinator.kCompleted => 3 | Coordinator.kFailed => 4 end.

(** [std::set<std::string>] of the addresses of the workers. *)
Definition worker_addresses (d : WUD.WorkUnitDirectory) : list string :=
  sort_by String.ltb (elements (list_to_set (C := gset string)
    (filter (fun a => a ≠ EmptyString) (WUD.q_control_plane_rpc_address <$> WUD.AllMetadata d)))).

Section service.

(** The transport to the workers, the controller, and [absl::Uniform]. *)
Variable call : string -> Coordinator.ControlRequest -> StatusOr (option Coordinator.ControlResponse).
Variable submit : string -> Program.TransferProgramRequest -> StatusOr Coordinator.TransferProgramResponse.
Variable random_uuid : Z.
(** [delivery_]: the mode, and whether there is a controller. *)
Variable mode : Coordinator.Mode.
Variable controller : bool.

(** ** The controller's commands *)

(** What a registry call answers, and the registry after it. *)
Definition registry_answer {A} (data : A -> string) (r : StatusOr A * Registry.RequestBlockRegistry) s : ControllerResponse * ReshardService :=
  (match r.1 with Ok x => answers (data x) | Err _ msg => fails msg end, with_registry r.2 s).

(** [during] is what other calls do to the registry while the transfer is coordinated.  The
    directory is the one of the moment the frame is handled: a worker that registers while
    StartPoolReshard runs is taken to be seen by the next frame only. *)
Definition HandleCoordinate now (during : list (Z * Registry.Op WUD.WorkUnitDirectory)) (req : CoordinateTransferRequest) s :
    ControllerResponse * ReshardService * list Effect :=
  if negb (is_pool_request req) then
    (fails StrCat["Legacy dense transfers are not implemented by the C++ reshard controller; keep the Python sidecar for dense/weight-sync paths"], s, [])
  else
    let '(out, coordinator) :=
      Coordinator.StartPoolReshard call submit random_uuid WUD.WorkUnitDirectory mode controller (directory_ s) now during
        (coordinator_ s) (args_of req) (registry_ s) in
    (match Coordinator.o_status out with Ok _ => answers EmptyString | Err _ msg => fails msg end,
     mkService (directory_ s) (Coordinator.o_registry out) coordinator, Coordinated <$> Coordinator.o_events out).

Definition HandleControllerCommand now (d_manifest : WUD.WorkUnitDirectory) (during : list (Z * Registry.Op WUD.WorkUnitDirectory))
    (req : ControllerRequest) s : ControllerResponse * ReshardService * list Effect :=
  if c_command req =? COORDINATE_TRANSFER then
    HandleCoordinate now during
      (default (mkCoordinate [] [] 0 false 0 false 0 EmptyString EmptyString EmptyString [] [] [] []) (coordinate_transfer_request req)) s
  else if c_command req =? GET_TRANSFER_STATUS then
    let status_req := default (mkGetStatus EmptyString 0) (get_transfer_status_request req) in
    (mkControllerResponse true EmptyString
       (Some (status_number (Coordinator.GetTransferStatus (coordinator_ s) (gs_req_id status_req)))) EmptyString, s, [])
  else if c_command req =? REGISTER_REQUEST_BLOCKS then
    let block_req := default (mkRegisterBlocks EmptyString 0 no_id [] []) (register_request_blocks_request req) in
    (registry_answer (fun _ => EmptyString)
       (Registry.Register d_manifest (directory_ s) now (registry_ s) (rb_req_id block_req) (rb_uuid block_req)
          (RaidenIdFromProto (rb_unit block_req)) (rb_block_ids block_req) (spans_of <$> rb_pool_spans block_req)) s, [])
  else if c_command req =? RELEASE_REQUEST_BLOCKS then
    let release_req := default (mkReleaseBlocks EmptyString 0 false) (release_request_blocks_request req) in
    if negb (force release_req) then
      (fails StrCat["Legacy rank-local release is unsafe; use the aggregate completion-vote RPC"], s, [])
    else (registry_answer pretty (Registry.Release now (registry_ s) (rl_req_id release_req) (rl_uuid release_req)) s, [])
  else if c_command req =? COMPLETE_REQUEST_BLOCKS then
    let complete_req := default (mkCompleteBlocks EmptyString 0 no_id) (complete_request_blocks_request req) in
    (registry_answer pretty
       (Registry.Complete now (registry_ s) (cp_req_id complete_req) (cp_uuid complete_req) (RaidenIdFromProto (cp_unit complete_req))) s, [])
  else if c_command req =? CANCEL_REQUEST_BLOCKS_IF_UNCLAIMED then
    let cancel_req := default (mkCancelBlocks EmptyString 0) (cancel_request_blocks_if_unclaimed_request req) in
    (registry_answer (fun b : bool => if b then "true" else "false")
       (Registry.CancelIfUnclaimed now (registry_ s) (cn_req_id cancel_req) (cn_uuid cancel_req)) s, [])
  else (fails StrCat["COMMAND_UNSPECIFIED"], s, []).

(** ** The workers' commands *)

(** The directory and the registry change in one critical section. *)
Definition HandleRegisterWorkUnit (reg : WUD.RegisterWorkUnitRequest) s : ControlResponse * ReshardService :=
  let registration := registration_of reg in
  match WUD.Validate registration with
  | Err _ msg => (refuses msg, s)
  | Ok _ =>
      (accepts, mkService (WUD.RegisterLocked (directory_ s) registration)
                  (Registry.InvalidateUnitLocked (registry_ s) (WUD.unit_ registration)) (coordinator_ s))
  end.

(** The worker a relayed transfer goes to. *)
Definition relay_worker (req : Program.StartTransferRequest) s : string :=
  match Program.dst_units req with
  | [] => "worker_0"
  | unit :: _ =>
      match WUD.LocalMetadata (directory_ s) [RaidenIdFromProto unit] with
      | Ok (meta :: _) => if 0 <=? WUD.q_transfer_rank meta then render StrCat["worker_"; WUD.q_transfer_rank meta] else "worker_0"
      | _ => "worker_0"
      end
  end.

Definition HandleRaidenStartTransfer (req : ControlRequest) s : ControlResponse * list Effect :=
  match mode with
  | Coordinator.kFramed => (refuses StrCat["START_TRANSFER is handled by worker listeners in framed mode"], [])
  | Coordinator.kController =>
      if negb controller then (refuses StrCat["ReshardService has no RaidenController configured"], [])
      else
        let start_req := default default_start (start_transfer_request req) in
        match Program.CompileStartTransfer start_req with
        | Err _ msg => (refuses msg, [])
        | Ok compiled =>
            let worker_id := relay_worker start_req s in
            (match submit worker_id compiled with
             | Err _ msg => refuses msg
             | Ok resp => mkControlResponse (Coordinator.p_success resp) (Coordinator.p_message resp) []
             end, [Submitted worker_id compiled])
        end
  end.

Definition HandleRaidenCommand (parsed : option ControlRequest) s : ControlResponse * ReshardService * list Effect :=
  match parsed with
  | None => (refuses StrCat["Failed to parse ControlRequest"], s, [])
  | Some req =>
      if command req =? REGISTER_WORK_UNIT then
        (HandleRegisterWorkUnit (default default_registration (register_work_unit_request req)) s, [])
      else if command req =? GET_METADATA then
        (mkControlResponse true EmptyString (WUD.AllMetadata (directory_ s)), s, [])
      else if command req =? REGISTER_TRANSFER_SCHEDULE then
        let start_req := default default_start (start_transfer_request req) in
        if nonempty (Program.transfer_pool_indices start_req) || nonempty (Program.pool_groups start_req) then
          (refuses StrCat["Inter-controller reshard schedule registration is retired: the planning controller arms destination workers directly"], s, [])
        else
          (refuses StrCat["Legacy transfer scheduling is not implemented by the C++ reshard controller; keep the Python sidecar for dense/weight-sync paths"], s, [])
      else if command req =? START_TRANSFER then
        let '(resp, effects) := HandleRaidenStartTransfer req s in (resp, s, effects)
      else if command req =? SHUTDOWN then
        (accepts, s, (ShutdownWorker <$> worker_addresses (directory_ s)) ++ [ShutdownCallback])
      else (refuses StrCat["COMMAND_UNSPECIFIED"], s, [])
  end.

(** ** Frames *)

Context {B : Type} `{Protobuf B}.

Definition HandleFrame now (d_manifest : WUD.WorkUnitDirectory) (during : list (Z * Registry.Op WUD.WorkUnitDirectory))
    (request_bytes : B) s : B * ReshardService * list Effect :=
  let raiden :=
    let '(resp, s', effects) := HandleRaidenCommand (get_control request_bytes) s in (put_control_response resp, s', effects) in
  match get_controller request_bytes with
  | None => raiden
  | Some req =>
      if is_controller_command req then
        let '(resp, s', effects) := HandleControllerCommand now d_manifest during req s in (put_controller_response resp, s', effects)
      else raiden
  end.

End service.

End ReshardService.
