(* ===== verification/ReshardServiceProofs.v ===== *)
(** * The reshard service: state and dispatch

    A frame is a sequence of registry operations and at most one registration in the
    directory, so what the registry and the directory promise holds of the service; what
    relates the two components is proved here by induction over the frames. *)

From S2P Require Import Prelude PoolLayout ReshardTypes WorkUnitDirectory RequestBlockRegistry PoolReshardPlanner TransferProgram ReshardCoordinator ReshardService.

Module ServiceState.
Import ReshardMessages ReshardService.

(** ** Registry operations *)

Abbreviation Ops := (list (Z * Registry.Op WUD.WorkUnitDirectory)).

(** The first conditional of the goal. *)
Ltac pick_guard := match goal with |- context [if ?b then _ else _] => destruct b end.

(** Registrations are committed against a directory that knows no unit [d] does not know. *)
Definition commits_in (d : WUD.WorkUnitDirectory) (o : Registry.Op WUD.WorkUnitDirectory) : Prop :=
  match o with
  | Registry.OpRegister _ d' _ _ _ _ _ => forall u, is_registered d' u = true -> is_registered d u = true
  | _ => True
  end.

(** Rows belong to registered units. *)
Definition rows_registered (d : WUD.WorkUnitDirectory) (r : Registry.RequestBlockRegistry) : Prop :=
  forall k row, Registry.request_blocks_ r !! k = Some row -> is_registered d k.2 = true.
(** Nothing is added to the rows. *)
Definition rows_within (r' r : Registry.RequestBlockRegistry) : Prop :=
  forall k row, Registry.request_blocks_ r' !! k = Some row -> Registry.request_blocks_ r !! k = Some row.

#[local] Instance rows_within_refl : Reflexive rows_within.
Proof. by intros r k row. Qed.
Lemma rows_within_trans r1 r2 r3 : rows_within r1 r2 -> rows_within r2 r3 -> rows_within r1 r3.
Proof. unfold rows_within. eauto. Qed.
Lemma purge_within now r : rows_within (Registry.Purge now r) r.
Proof. by intros k row [Hr _]%(Registry.purge_rb_rows now). Qed.
Lemma retire_within k r : rows_within (Registry.RetireLocked k r).2 r.
Proof. by intros bk row [Hr _]%Registry.generation_rows_spec. Qed.

(** The rows are the same. *)
Ltac same_rows := by intros ? ?.

Lemma release_within now r req uuid : rows_within (Registry.Release now r req uuid).2 r.
Proof.
  unfold Registry.Release. destruct (Registry.check_ids req uuid); [|done].
  apply (rows_within_trans _ (Registry.Purge now r)); [apply retire_within|apply purge_within].
Qed.
Lemma complete_within now r req uuid u : rows_within (Registry.Complete now r req uuid u).2 r.
Proof.
  unfold Registry.Complete. destruct (Registry.check_ids req uuid); [|same_rows]. cbv zeta.
  apply (rows_within_trans _ (Registry.Purge now r)); [|apply purge_within].
  match goal with |- context [if ?b then (Err _ _, _) else _] => destruct b; [same_rows|] end.
  match goal with |- context [if ?b then (Ok 0, Registry.Purge now r) else _] => destruct b; [same_rows|] end.
  destruct (Registry.claimed_units_ _ !! _); [|same_rows]. match goal with |- context [if ?b then _ else _] => destruct b; [|same_rows] end.
  by intros bk row [Hr _]%Registry.generation_rows_spec.
Qed.
Lemma cancel_within now r req uuid : rows_within (Registry.CancelIfUnclaimed now r req uuid).2 r.
Proof.
  unfold Registry.CancelIfUnclaimed. destruct (Registry.check_ids req uuid); [|same_rows]. cbv zeta.
  pick_guard; [same_rows|]. pick_guard; [same_rows|]. by intros k row [Hr _]%Registry.generation_rows_spec.
Qed.
Lemma lookup_within now r req uuid us owner : rows_within (Registry.LookupAndClaim now r req uuid us owner).2 r.
Proof.
  unfold Registry.LookupAndClaim. cbv zeta. apply (rows_within_trans _ (Registry.Purge now r)); [|apply purge_within].
  pick_guard; [same_rows|]. destruct (Registry.check_claim _ _ _ _); [|same_rows].
  destruct (for_each _ _ _); [|same_rows]. destruct (Registry.completed_units_ _ !! _); [|same_rows]. pick_guard; [|same_rows].
  by intros bk row [Hr _]%Registry.generation_rows_spec.
Qed.
Lemma abandon_within r req uuid owner : rows_within (Registry.AbandonClaim r req uuid owner).2 r.
Proof. unfold Registry.AbandonClaim. destruct (_ || _); same_rows. Qed.
Lemma invalidate_within r u : rows_within (Registry.InvalidateUnitLocked r u) r.
Proof. by intros k row [Hr _]%map_lookup_filter_Some. Qed.

Lemma register_rows d1 d2 now r req uuid u ids ps k row :
  Registry.request_blocks_ (Registry.Register d1 d2 now r req uuid u ids ps).2 !! k = Some row ->
  Registry.request_blocks_ r !! k = Some row ∨ k = (req, u) ∧ is_registered d2 u = true.
Proof.
  unfold Registry.Register. destruct (let? _ := _ in _); [|by left]. unfold Registry.commit_registration.
  destruct (is_registered d2 u) eqn:Er; cbn [negb]; [|intros ?; left; by apply (purge_within now)].
  pick_guard; [intros ?; left; by apply (purge_within now)|].
  pick_guard; [intros ?; left; by apply (purge_within now)|]. cbv zeta.
  destruct (match _ !! _ with Some _ => _ | None => _ end); [intros ?; left; by apply (purge_within now)|]. cbn [snd Registry.request_blocks_].
  destruct (decide (k = (req, u))) as [->|Hne]; [by right|]. rewrite lookup_insert_ne by done. intros ?. left. by apply (purge_within now).
Qed.

Lemma op_rows d now o r : commits_in d o -> rows_registered d r -> rows_registered d (Registry.apply_op now o r).
Proof.
  intros Hc Hr. assert (Hw : forall r', rows_within r' r -> rows_registered d r') by (intros r' Hw k row Hk; eapply Hr, Hw; done).
  destruct o; cbn [Registry.apply_op]; [|apply Hw..].
  - intros k row [Hk|[-> Hu]]%register_rows; [by eapply Hr|]. by apply Hc.
  - apply release_within.
  - apply complete_within.
  - apply cancel_within.
  - apply lookup_within.
  - apply abandon_within.
  - apply invalidate_within.
Qed.
Lemma ops_rows d (ops : Ops) r : Forall (fun o => commits_in d o.2) ops -> rows_registered d r -> rows_registered d (Registry.run ops r).
Proof.
  intros Hc. revert r. induction Hc as [|o ops Ho _ IH]; intros r Hr; [done|]. apply IH. by apply op_rows.
Qed.

(** ** Frames *)

Section service.
Context {B : Type} `{Protobuf B}.
Variable call : string -> Coordinator.ControlRequest -> StatusOr (option Coordinator.ControlResponse).
Variable submit : string -> Program.TransferProgramRequest -> StatusOr Coordinator.TransferProgramResponse.
Variable random_uuid : Z.
Variable mode : Coordinator.Mode.
Variable controller : bool.

(** What a frame can do to the directory and the registry. *)
Inductive moves s : ReshardService -> Prop :=
  | moves_registry c (ops : Ops) : Forall (fun o => commits_in (directory_ s) o.2) ops ->
      moves s (mkService (directory_ s) (Registry.run ops (registry_ s)) c)
  | moves_directory reg : WUD.Validate reg = OkStatus ->
      moves s (mkService (WUD.RegisterLocked (directory_ s) reg) (Registry.InvalidateUnitLocked (registry_ s) (WUD.unit_ reg)) (coordinator_ s)).

Lemma moves_none s : moves s s.
Proof. destruct s as [d r c]. exact (moves_registry (mkService d r c) c [] (Forall_nil_2 _)). Qed.
Lemma moves_one s o now : commits_in (directory_ s) o -> moves s (with_registry (Registry.apply_op now o (registry_ s)) s).
Proof. intros Ho. apply (moves_registry s (coordinator_ s) [(now, o)]). by repeat constructor. Qed.

(** A transfer claims, lets the other threads run, and may abandon its claim. *)
Lemma execute_ops d now (during : Ops) counter args registry :
  exists pre post : Ops, Forall (fun o => forall d', commits_in d' o.2) (pre ++ post) ∧
    (Coordinator.o_registry (Coordinator.ExecutePoolReshard call submit random_uuid WUD.WorkUnitDirectory mode controller d now during counter args registry) =
       Registry.run (pre ++ during ++ post) registry ∨
     Coordinator.o_registry (Coordinator.ExecutePoolReshard call submit random_uuid WUD.WorkUnitDirectory mode controller d now during counter args registry) = registry).
Proof.
  set (claim := (now, Registry.OpLookup (D := WUD.WorkUnitDirectory) (Coordinator.a_req_id args) (Coordinator.transfer_uuid random_uuid args) (Coordinator.a_src_units args) counter)).
  set (abandon := (now, Registry.OpAbandon (D := WUD.WorkUnitDirectory) (Coordinator.a_req_id args) (Coordinator.transfer_uuid random_uuid args) counter)).
  assert (Hsame : exists pre post : Ops, Forall (fun o => forall d', commits_in d' o.2) (pre ++ post) ∧
    (registry = Registry.run (pre ++ during ++ post) registry ∨ registry = registry)) by (exists [], []; split; [constructor|by right]).
  unfold Coordinator.ExecutePoolReshard. destruct (negb _); [done|].
  destruct (WUD.LocalMetadata _ _) as [src|]; [|done]. destruct (Coordinator.fetch_dst _ _ _) as [? [dst|]]; [|done].
  assert (Hclaim : forall pre kept, kept = Registry.run (pre ++ during) registry -> (pre = [] ∨ pre = [claim]) ->
    forall ab, ab = kept ∨ ab = (Registry.AbandonClaim kept (Coordinator.a_req_id args) (Coordinator.transfer_uuid random_uuid args) counter).2 ->
    exists pre post : Ops, Forall (fun o => forall d', commits_in d' o.2) (pre ++ post) ∧ (ab = Registry.run (pre ++ during ++ post) registry ∨ ab = registry)).
  { intros pre kept -> Hpre ab [->| ->]; exists pre; [exists []|exists [abandon]]; (split; [destruct Hpre as [->| ->]; repeat constructor|left]).
    - by rewrite app_nil_r.
    - rewrite app_assoc. unfold Registry.run. by rewrite foldl_snoc. }
  destruct (Planner.BuildPoolReshardPlan _ _ _ _) as [plan_or claimed] eqn:Eb.
  assert (Hb : exists pre, claimed = Registry.run pre registry ∧ (pre = [] ∨ pre = [claim])).
  { unfold Planner.BuildPoolReshardPlan in Eb. destruct (Planner.prepare _); [|injection Eb as <- <-; exists []; split; [done|by left]].
    exists [claim]. split; [|by right]. cbn. cbn in Eb. destruct (Registry.LookupAndClaim _ _ _ _ _ _) as [[?|] ?]; by injection Eb as <- <-. }
  destruct Hb as (pre & -> & Hpre). cbv zeta.
  assert (Hrun : Registry.run during (Registry.run pre registry) = Registry.run (pre ++ during) registry) by (unfold Registry.run; by rewrite foldl_app).
  destruct plan_or as [plan|]; cbn [Coordinator.o_registry]; [|by eapply Hclaim; [exact Hrun|done|by right]].
  eapply Hclaim; [exact Hrun|done|]. unfold Coordinator.deliver.
  destruct (Coordinator.arm _ _) as [? [?|]]; [|by right]. destruct mode; [|destruct controller]; cbn [negb];
    [destruct (Coordinator.dispatch _ _ _ _); by left|destruct (Coordinator.dispatch _ _ _ _); by left|by right].
Qed.

Lemma coordinate_moves now (during : Ops) req s : Forall (fun o => commits_in (directory_ s) o.2) during ->
  moves s (HandleCoordinate call submit random_uuid mode controller now during req s).1.2.
Proof.
  intros Hd. unfold HandleCoordinate. destruct (negb _); [apply moves_none|]. unfold Coordinator.StartPoolReshard.
  destruct (Coordinator.check_args _); [|by apply (moves_registry s _ [])]. cbn [fst snd].
  destruct (execute_ops (directory_ s) now during (Coordinator.c_claim_counter (coordinator_ s)) (args_of req) (registry_ s)) as (pre & post & Hf & [E|E]); rewrite E.
  - apply moves_registry. rewrite !Forall_app in *. destruct Hf as [H1 H2]. split_and!; [|done|]; (eapply Forall_impl; [done|]; intros o Ho; apply Ho).
  - apply (moves_registry s _ []). constructor.
Qed.

Lemma frame_moves now d_manifest (during : Ops) bytes s : Forall (fun o => commits_in (directory_ s) o.2) during ->
  moves s (HandleFrame call submit random_uuid mode controller (B := B) now d_manifest during bytes s).1.2.
Proof.
  intros Hd. unfold HandleFrame.
  assert (Hr : moves s (HandleRaidenCommand submit mode controller (get_control bytes) s).1.2).
  { unfold HandleRaidenCommand. destruct (get_control bytes) as [req|]; [|apply moves_none].
    destruct (command req =? REGISTER_WORK_UNIT).
    { unfold HandleRegisterWorkUnit. destruct (WUD.Validate _) as [[]|] eqn:Ev; [by apply moves_directory|apply moves_none]. }
    repeat (pick_guard; try apply moves_none). destruct (HandleRaidenStartTransfer _ _ _ _ _); apply moves_none. }
  assert (Hraiden : moves s (let '(resp, s', effects) := HandleRaidenCommand submit mode controller (get_control bytes) s in (put_control_response resp, s', effects)).1.2).
  { by destruct (HandleRaidenCommand _ _ _ _ _) as [[? ?] ?]. }
  destruct (get_controller bytes) as [req|]; [|done]. destruct (is_controller_command req); [|done].
  enough (Hc : moves s (HandleControllerCommand call submit random_uuid mode controller now d_manifest during req s).1.2)
    by (by destruct (HandleControllerCommand _ _ _ _ _ _ _ _ _ _) as [[? ?] ?]).
  unfold HandleControllerCommand. pick_guard; [by apply coordinate_moves|]. pick_guard; [apply moves_none|].
  pick_guard; [apply (moves_one s (Registry.OpRegister d_manifest (directory_ s) _ _ _ _ _) now); by cbn|].
  pick_guard; [pick_guard; [apply moves_none|apply (moves_one s (Registry.OpRelease _ _) now); by cbn]|].
  pick_guard; [apply (moves_one s (Registry.OpComplete _ _ _) now); by cbn|].
  pick_guard; [apply (moves_one s (Registry.OpCancel _ _) now); by cbn|apply moves_none].
Qed.

(** ** Reachable states *)

(** Frames one after the other, each with its interference. *)
Inductive reachable (ttl counter : Z) : ReshardService -> Prop :=
  | reach_start : reachable ttl counter (create ttl counter)
  | reach_frame s now d_manifest (during : Ops) bytes : reachable ttl counter s ->
      Forall (fun o => commits_in (directory_ s) o.2) during ->
      reachable ttl counter (HandleFrame call submit random_uuid mode controller (B := B) now d_manifest during bytes s).1.2.

(** The registry's maps agree, the directory is a dictionary, and the rows of the one
    belong to units of the other. *)
Record good s : Prop := {
  good_registry : Registry.inv (registry_ s);
  good_directory : exists regs, directory_ s = WUD.run regs ∧ Forall (fun reg => WUD.Validate reg = OkStatus) regs;
  good_rows : rows_registered (directory_ s) (registry_ s)
}.

Lemma registered_iff regs u : is_registered (WUD.run regs) u = true <-> u ∈ (WUD.dict_run regs).*1.
Proof.
  pose proof (WUD.find_negative _ _ u (WUD.wud_run_represents regs)) as Hn. cbn. unfold WUD.IsRegisteredLocked. rewrite Z.leb_le. split.
  - intros Hge. destruct (decide (u ∈ (WUD.dict_run regs).*1)) as [|Hno]; [done|]. apply Hn in Hno. lia.
  - intros Hin. destruct (Z.le_gt_cases 0 (WUD.FindLocked (WUD.run regs) u)) as [|Hlt]; [done|]. by apply Hn in Hlt.
Qed.
Lemma register_keeps_units regs reg u : is_registered (WUD.run regs) u = true -> is_registered (WUD.run (regs ++ [reg])) u = true.
Proof.
  rewrite !registered_iff, <-!WUD.dict_get_elem. unfold WUD.dict_run. rewrite foldl_app. cbn. rewrite WUD.dict_set_get. by case_decide.
Qed.
Lemma run_snoc regs reg : WUD.RegisterLocked (WUD.run regs) reg = WUD.run (regs ++ [reg]).
Proof. unfold WUD.run. by rewrite foldl_app. Qed.

Lemma moves_good s s' : moves s s' -> good s -> good s'.
Proof.
  intros Hm [Hr (regs & Ed & Hv) Hrows]. destruct Hm as [c ops Hops|reg Hreg].
  - split; [by apply Registry.registry_run_inv|by exists regs|by apply ops_rows].
  - split; cbn.
    + exact (Registry.registry_apply_op_inv 0 (Registry.OpInvalidate (D := WUD.WorkUnitDirectory) (WUD.unit_ reg)) _ Hr).
    + exists (regs ++ [reg]). rewrite Ed, run_snoc. split; [done|]. apply Forall_app. by repeat constructor.
    + intros k row Hk%invalidate_within. rewrite Ed, run_snoc in *. apply register_keeps_units. by eapply Hrows.
Qed.

Lemma create_good ttl counter : good (create ttl counter).
Proof.
  split; cbn; [apply Registry.registry_create_inv|by exists []|]. intros k row. cbn. by rewrite lookup_empty.
Qed.
Lemma reachable_good ttl counter s : reachable ttl counter s -> good s.
Proof.
  induction 1 as [|s now d_manifest during bytes Hr IH Hd]; [apply create_good|]. eapply moves_good; [|done]. by apply frame_moves.
Qed.

(** C22: the state of the service.  After any frames, with any interference of concurrent
    ones: the directory holds validated registrations, the registry's maps agree, and every
    row belongs to a registered unit.  A worker that registers (again) is in the directory
    with exactly what it declared, none of its earlier rows is left for a plan to use, and
    the rows of the other units are untouched. *)
Theorem service_state ttl counter s : reachable ttl counter s ->
  good s ∧
  forall reg s', HandleRegisterWorkUnit reg s = (accepts, s') ->
    let registration := registration_of reg in let unit := WUD.unit_ registration in
    WUD.MetadataProtoLocked (directory_ s') unit = Ok (WUD.metadata_proto unit (WUD.record_of registration)) ∧
    (forall req, Registry.request_blocks_ (registry_ s') !! (req, unit) = None) ∧
    (forall req u, u ≠ unit ->
       Registry.request_blocks_ (registry_ s') !! (req, u) = Registry.request_blocks_ (registry_ s) !! (req, u) ∧
       WUD.MetadataProtoLocked (directory_ s') u = WUD.MetadataProtoLocked (directory_ s) u).
Proof.
  intros Hg%reachable_good. split; [done|]. intros reg s' Hh registration unit. unfold HandleRegisterWorkUnit in Hh. fold registration in Hh.
  destruct (WUD.Validate registration); [|done]. injection Hh as <-. cbn [directory_ registry_].
  destruct (good_directory _ Hg) as (regs & -> & _).
  pose proof (WUD.register_represents _ _ registration (WUD.wud_run_represents regs)) as Hrep. split_and!.
  - rewrite (WUD.metadata_spec _ _ _ Hrep), WUD.dict_set_get. by rewrite decide_True.
  - intros req. cbn. apply map_lookup_filter_None. right. intros row _. cbn. by intros [].
  - intros req u Hu. split.
    + cbn. apply option_eq. intros row. rewrite map_lookup_filter_Some. cbn. naive_solver.
    + rewrite (WUD.metadata_spec _ _ _ Hrep), (WUD.metadata_spec _ _ _ (WUD.wud_run_represents regs)), WUD.dict_set_get. by rewrite decide_False.
Qed.

(** ** Dispatch *)

Context `{!ProtobufLaws B}.

(** A worker's request is never taken for a controller command. *)
Lemma control_dispatch now d_manifest (during : Ops) req s :
  HandleFrame call submit random_uuid mode controller (B := B) now d_manifest during (put_control req) s =
  let '(resp, s', effects) := HandleRaidenCommand submit mode controller (Some req) s in (put_control_response resp, s', effects).
Proof.
  unfold HandleFrame. rewrite control_as_controller, control_codec. unfold is_controller_command, bare_controller. cbn [coordinate_transfer_request get_transfer_status_request register_request_blocks_request release_request_blocks_request complete_request_blocks_request cancel_request_blocks_if_unclaimed_request WUD.has_value].
  by rewrite !andb_false_r.
Qed.
(** A controller's request with its body reaches the controller's handler. *)
Lemma controller_dispatch now d_manifest (during : Ops) req s : is_controller_command req = true ->
  HandleFrame call submit random_uuid mode controller (B := B) now d_manifest during (put_controller req) s =
  let '(resp, s', effects) := HandleControllerCommand call submit random_uuid mode controller now d_manifest during req s in
  (put_controller_response resp, s', effects).
Proof. intros Hc. unfold HandleFrame. by rewrite controller_codec, Hc. Qed.

(** A controller command without its body is taken for the worker command of the same
    number: a status query (2) that lost its body shuts the workers down. *)
Theorem bodyless_status_query_shuts_down now d_manifest (during : Ops) s :
  HandleFrame call submit random_uuid mode controller (B := B) now d_manifest during (put_controller (bare_controller GET_TRANSFER_STATUS)) s =
  (put_control_response accepts, s, (ShutdownWorker <$> worker_addresses (directory_ s)) ++ [ShutdownCallback]).
Proof. unfold HandleFrame. rewrite controller_codec, controller_as_control. reflexivity. Qed.

(** The workers a shutdown reaches: each address of the directory once. *)
Lemma shutdown_addresses regs a :
  NoDup (worker_addresses (WUD.run regs)) ∧
  (a ∈ worker_addresses (WUD.run regs) <->
   a ≠ EmptyString ∧ exists u w, WUD.dict_get u (WUD.dict_run regs) = Some w ∧ WUD.r_control_plane_rpc_address w = a).
Proof.
  unfold worker_addresses. rewrite sort_by_perm. split; [apply NoDup_elements|].
  rewrite elem_of_elements, elem_of_list_to_set, list_elem_of_filter, list_elem_of_fmap.
  pose proof (WUD.wud_run_represents regs) as Hrep. apply and_iff_compat_l. unfold WUD.AllMetadata. setoid_rewrite list_elem_of_omap.
  setoid_rewrite (WUD.metadata_spec _ _ _ Hrep). split.
  - intros (p & -> & u & _ & Hp). destruct (WUD.dict_get u _) as [w|] eqn:Eu; [|done]. injection Hp as <-. by exists u, w.
  - intros (u & w & Eu & <-). exists (WUD.metadata_proto u w). split; [done|]. exists u. rewrite Eu. split; [|done].
    destruct Hrep as (-> & _ & _). apply WUD.dict_get_elem. by eexists.
Qed.

End service.

End ServiceState.
