(* ===== verification/ReshardClient.v ===== *)
(** * The reshard client ([src/tpu_sync/kv_cache/reshard/reshard_client.cc])

    The client builds the request messages, calls the controller over the framed transport
    and decodes the answers.  The theorem composes it with the service: a call of the client
    is the operation of the directory, the registry or the coordinator it stands for, on
    the arguments the caller gave. *)

From S2P Require Import Prelude PoolLayout ReshardTypes WorkUnitDirectory RequestBlockRegistry PoolReshardPlanner TransferProgram ReshardCoordinator ReshardService ReshardServiceProofs.

Module ReshardClient.
Import ReshardMessages.

(** ** Arguments *)

Record ClientPoolRegion : Type := mkClientRegion {
  cl_name : string;
  cl_offset_bytes : Z;
  cl_stride_bytes : Z;
  cl_unit_bytes : Z;
  cl_num_units : Z;
  cl_units_per_stride : Z
}.
Record ClientPoolSpec : Type := mkClientPool {
  cl_tag : string;
  cl_storage_index : Z;
  cl_base_offset_bytes : Z;
  cl_block_stride_bytes : Z;
  cl_num_blocks : Z;
  cl_dtype_tag : string;
  cl_regions : list ClientPoolRegion
}.
Record ClientByteSpan : Type := mkClientSpan {
  cs_src_block_ordinal : Z;
  cs_src_offset_bytes : Z;
  cs_dst_block_index : Z;
  cs_dst_offset_bytes : Z;
  cs_size_bytes : Z;
  cs_src_stride_bytes : Z;
  cs_dst_stride_bytes : Z;
  cs_count : Z
}.
Record ClientPoolSpans : Type := mkClientSpans {
  cs_tag : string;
  cs_block_ids : list Z;
  cs_declared_bytes : Z;
  cs_dst_space_version : Z;
  cs_spans : list ClientByteSpan
}.

Section client.
(** [B] is the type of serialized messages. *)
Context {B : Type} `{Protobuf B}.
(** [VariableMetadataProto]: what [ParseFromString] leaves in the message; the serialized
    form of a [RegisterWorkUnitRequest]. *)
Variable get_variable : B -> WUD.VariableMetadataProto.
Variable put_registration : WUD.RegisterWorkUnitRequest -> B.

Record RegisterWorkUnitArgs : Type := mkRegisterArgs {
  ra_unit : RaidenId;
  ra_shards : list string;
  ra_control_plane_rpc_address : string;
  ra_mesh_shape : list Z;
  ra_layout : list Z;
  ra_global_shape : list Z;
  ra_itemsize : Z;
  has_pool_manifest : bool;
  ra_pool_manifest : list ClientPoolSpec;
  ra_layout_fingerprint : option string;
  ra_page_tokens : option Z;
  ra_transfer_parallelism : option Z;
  ra_transfer_rank : option Z;
  has_variables : bool;
  ra_variables : list B
}.
Record StartTransferArgs : Type := mkStartArgs {
  sa_src_units : list RaidenId;
  sa_dst_units : list RaidenId;
  sa_req_id : string;
  sa_use_block_chunks : bool;
  sa_is_sender : bool;
  sa_expected_block_count : Z;
  sa_uuid : Z;
  sa_dst_controller_address : string;
  sa_src_controller_address : string;
  sa_dst_mem_type : Z;
  has_dst_device_block_ids : bool;
  sa_dst_device_block_ids : list Z;
  has_transfer_pool_tags : bool;
  sa_transfer_pool_tags : list string;
  sa_dst_block_counts : list Z;
  sa_dst_skip_bytes : list Z
}.

(** ** Requests *)

Definition RaidenIdProtoOf (unit : RaidenId) : RaidenIdProto :=
  mkRaidenIdProto (job_name unit) (job_replica_id unit) (data_name unit) (data_replica_idx unit).

Definition region_proto (r : ClientPoolRegion) : Pool.RegionSpecProto :=
  Pool.mkRegionProto (cl_name r) (cl_offset_bytes r) (cl_stride_bytes r) (cl_unit_bytes r) (cl_num_units r) (cl_units_per_stride r).
Definition pool_proto (p : ClientPoolSpec) : Pool.PoolSpecProto :=
  Pool.mkPoolProto (cl_tag p) (cl_storage_index p) (cl_base_offset_bytes p) (cl_block_stride_bytes p) (cl_num_blocks p)
    (region_proto <$> cl_regions p) (cl_dtype_tag p).

Definition BuildRegisterWorkUnit (args : RegisterWorkUnitArgs) : ControlRequest :=
  mkControl REGISTER_WORK_UNIT [] None
    (Some (WUD.mkRequest (RaidenIdProtoOf (ra_unit args)) (ra_shards args) (ra_control_plane_rpc_address args)
       (ra_itemsize args) (default EmptyString (ra_layout_fingerprint args)) (default 0 (ra_page_tokens args))
       (default 0 (ra_transfer_parallelism args)) (default 0 (ra_transfer_rank args)) (ra_mesh_shape args) (ra_layout args)
       (ra_global_shape args) (if has_pool_manifest args then pool_proto <$> ra_pool_manifest args else [])
       (if has_variables args then get_variable <$> ra_variables args else []))).

(** [set_count] takes an [int32_t], the argument is an [int64_t]. *)
Definition span_proto (span : ClientByteSpan) : PoolByteSpanProto :=
  mkSpanProto (cs_src_block_ordinal span) (cs_src_offset_bytes span) (cs_dst_block_index span) (cs_dst_offset_bytes span)
    (cs_size_bytes span) (cs_src_stride_bytes span) (cs_dst_stride_bytes span) (wrap32 (cs_count span)).
Definition spans_proto (entry : ClientPoolSpans) : PoolSpanRegistrationProto :=
  mkSpanRegProto (cs_tag entry) (cs_block_ids entry) (span_proto <$> cs_spans entry) (cs_declared_bytes entry) (cs_dst_space_version entry).

Definition BuildRegisterRequestBlocks (req_id : string) (uuid : Z) (unit : RaidenId) (block_ids : list Z)
    (pool_spans : list ClientPoolSpans) : ControllerRequest :=
  mkController REGISTER_REQUEST_BLOCKS None None
    (Some (mkRegisterBlocks req_id uuid (RaidenIdProtoOf unit) block_ids (spans_proto <$> pool_spans))) None None None.
Definition BuildReleaseRequestBlocks (req_id : string) (uuid : Z) : ControllerRequest :=
  mkController RELEASE_REQUEST_BLOCKS None None None (Some (mkReleaseBlocks req_id uuid true)) None None.
Definition BuildCompleteRequestBlocks (req_id : string) (uuid : Z) (unit : RaidenId) : ControllerRequest :=
  mkController COMPLETE_REQUEST_BLOCKS None None None None (Some (mkCompleteBlocks req_id uuid (RaidenIdProtoOf unit))) None.
Definition BuildCancelRequestBlocksIfUnclaimed (req_id : string) (uuid : Z) : ControllerRequest :=
  mkController CANCEL_REQUEST_BLOCKS_IF_UNCLAIMED None None None None None (Some (mkCancelBlocks req_id uuid)).
Definition BuildStartTransfer (args : StartTransferArgs) : ControllerRequest :=
  mkController COORDINATE_TRANSFER
    (Some (mkCoordinate (RaidenIdProtoOf <$> sa_src_units args) (RaidenIdProtoOf <$> sa_dst_units args) (sa_uuid args)
       (sa_is_sender args) (sa_dst_mem_type args) (sa_use_block_chunks args) (sa_expected_block_count args) (sa_req_id args)
       (sa_src_controller_address args) (sa_dst_controller_address args)
       (if has_dst_device_block_ids args then sa_dst_device_block_ids args else [])
       (if has_transfer_pool_tags args then sa_transfer_pool_tags args else [])
       (wrap32 <$> sa_dst_block_counts args) (sa_dst_skip_bytes args))) None None None None None.
Definition BuildGetTransferStatus (req_id : string) (uuid : Z) : ControllerRequest :=
  mkController GET_TRANSFER_STATUS None (Some (mkGetStatus req_id uuid)) None None None None.
Definition BuildGetMetadata : ControlRequest := mkControl GET_METADATA [] None None.
Definition BuildShutdown : ControlRequest := mkControl SHUTDOWN [] None None.

(** ** Calls *)

(** [transport_->Call] at the client's address, with what it does to the rest of the world. *)
Context {W : Type}.
Variable transport : B -> W -> StatusOr B * W.

Definition CallController (request : ControllerRequest) (w : W) : StatusOr ControllerResponse * W :=
  let '(body, w) := transport (put_controller request) w in
  (let? bytes := body in
   match get_controller_response bytes with
   | None => Err kInternal StrCat["Failed to parse ControllerResponse"]
   | Some response =>
       if negb (cr_success response) then Err kInternal StrCat["Remote Controller Server execution failed: "; cr_message response]
       else Ok response
   end, w).
Definition CallRaiden (request : ControlRequest) (w : W) : StatusOr ControlResponse * W :=
  let '(body, w) := transport (put_control request) w in
  (let? bytes := body in
   match get_control_response bytes with
   | None => Err kInternal StrCat["Failed to parse ControlResponse"]
   | Some response =>
       if negb (success response) then Err kInternal StrCat["Remote Controller Server execution failed: "; message response]
       else Ok response
   end, w).

(** The status of a call, and a value read from its response. *)
Definition and_then {A R} (f : R -> StatusOr A) (r : StatusOr R * W) : StatusOr A * W := (let? x := r.1 in f x, r.2).

Definition RegisterWorkUnit (args : RegisterWorkUnitArgs) w : Status * W :=
  and_then (fun _ => OkStatus) (CallRaiden (BuildRegisterWorkUnit args) w).
Definition RegisterRequestBlocks req_id uuid unit block_ids pool_spans w : Status * W :=
  and_then (fun _ => OkStatus) (CallController (BuildRegisterRequestBlocks req_id uuid unit block_ids pool_spans) w).
Definition ReleaseRequestBlocks req_id uuid w : Status * W :=
  and_then (fun _ => OkStatus) (CallController (BuildReleaseRequestBlocks req_id uuid) w).
Definition CompleteRequestBlocks req_id uuid unit w : Status * W :=
  and_then (fun _ => OkStatus) (CallController (BuildCompleteRequestBlocks req_id uuid unit) w).
Definition CancelRequestBlocksIfUnclaimed req_id uuid w : StatusOr bool * W :=
  and_then (fun response =>
    if bool_decide (response_data response = "true"%string) then Ok true
    else if bool_decide (response_data response = "false"%string) then Ok false
    else Err kInternal StrCat["Remote Controller Server returned an invalid cancellation result: '"; response_data response; "'"])
    (CallController (BuildCancelRequestBlocksIfUnclaimed req_id uuid) w).
Definition StartTransfer (args : StartTransferArgs) w : StatusOr bool * W :=
  and_then (fun _ => Ok true) (CallController (BuildStartTransfer args) w).
Definition GetTransferStatus req_id uuid w : StatusOr Z * W :=
  and_then (fun response => Ok (default 0 (get_transfer_status_response response))) (CallController (BuildGetTransferStatus req_id uuid) w).
Definition GetMetadata w : StatusOr (list B) * W :=
  and_then (fun response => Ok (put_registration <$> get_metadata_response response)) (CallRaiden BuildGetMetadata w).
Definition Shutdown w : StatusOr bool * W :=
  and_then (fun _ => Ok true) (CallRaiden BuildShutdown w).

End client.

End ReshardClient.
