(* ===== verification/ReshardEndToEnd.v ===== *)
(** * Client and service together

    The client of ReshardClient.v calls the service of ReshardService.v: what comes of each
    call, stated on the components behind the service. *)

From S2P Require Import Prelude PoolLayout ReshardTypes WorkUnitDirectory RequestBlockRegistry PoolReshardPlanner TransferProgram ReshardCoordinator ReshardService ReshardServiceProofs ReshardClient.

Module EndToEnd.
Import ReshardMessages ReshardService.

Section over_the_wire.
Context {B : Type} `{ProtobufLaws B}.
Variable get_variable : B -> WUD.VariableMetadataProto.
Variable put_registration : WUD.RegisterWorkUnitRequest -> B.
Variable call : string -> Coordinator.ControlRequest -> StatusOr (option Coordinator.ControlResponse).
Variable submit : string -> Program.TransferProgramRequest -> StatusOr Coordinator.TransferProgramResponse.
Variable random_uuid : Z.
Variable mode : Coordinator.Mode.
Variable controller : bool.
Variable now : Z.
Variable d_manifest : WUD.WorkUnitDirectory.
Variable during : list (Z * Registry.Op WUD.WorkUnitDirectory).

(** The service, and what it has done to the workers so far. *)
Abbreviation World := (ReshardService * list Effect)%type.

(** A transport that delivers: the service handles the frame. *)
Definition served (bytes : B) (w : World) : StatusOr B * World :=
  let '(response, s, effects) := HandleFrame call submit random_uuid mode controller now d_manifest during bytes w.1 in
  (Ok response, (s, w.2 ++ effects)).

(** What a caller sees of the answer of a component. *)
Definition remote {A} (x : StatusOr A) : StatusOr A :=
  match x with
  | Ok a => Ok a
  | Err _ msg => Err kInternal StrCat["Remote Controller Server execution failed: "; render msg]
  end.
Definition discard {A} (x : StatusOr A) : Status := match x with Ok _ => OkStatus | Err code msg => Err code msg end.

(** ** What the caller means *)

Definition declared (entry : ReshardClient.ClientPoolSpans) : PoolSpanRegistration :=
  mkSpanReg (ReshardClient.cs_tag entry) (ReshardClient.cs_block_ids entry)
    ((fun sp => mkSpan (ReshardClient.cs_src_block_ordinal sp) (ReshardClient.cs_src_offset_bytes sp) (ReshardClient.cs_dst_block_index sp)
        (ReshardClient.cs_dst_offset_bytes sp) (ReshardClient.cs_size_bytes sp) (ReshardClient.cs_src_stride_bytes sp)
        (ReshardClient.cs_dst_stride_bytes sp) (ReshardClient.cs_count sp)) <$> ReshardClient.cs_spans entry)
    (ReshardClient.cs_declared_bytes entry) (ReshardClient.cs_dst_space_version entry).

(** Counts that the messages can hold. *)
Definition counts_fit (entry : ReshardClient.ClientPoolSpans) : Prop :=
  Forall (fun sp => in_int32 (ReshardClient.cs_count sp)) (ReshardClient.cs_spans entry).

Definition meant {A} (has : bool) (l : list A) : option (list A) := if has then given l else None.
Definition registration (args : ReshardClient.RegisterWorkUnitArgs (B := B)) : WUD.WorkUnitRegistration :=
  let manifest := meant (ReshardClient.has_pool_manifest args) (ReshardClient.pool_proto <$> ReshardClient.ra_pool_manifest args) in
  WUD.mkReg (ReshardClient.ra_unit args) (ReshardClient.ra_shards args) (given_string (ReshardClient.ra_control_plane_rpc_address args))
    (given (ReshardClient.ra_mesh_shape args)) (given (ReshardClient.ra_layout args)) (given (ReshardClient.ra_global_shape args))
    (given_positive (ReshardClient.ra_itemsize args)) manifest
    (ReshardClient.ra_layout_fingerprint args ≫= given_string) (ReshardClient.ra_page_tokens args ≫= given_positive)
    (ReshardClient.ra_transfer_parallelism args ≫= given_positive)
    (if WUD.has_value manifest then Some (default 0 (ReshardClient.ra_transfer_rank args)) else None)
    (meant (ReshardClient.has_variables args) (get_variable <$> ReshardClient.ra_variables args)).

Definition transfer (args : ReshardClient.StartTransferArgs) : Coordinator.PoolReshardArgs :=
  let ids := if ReshardClient.has_dst_device_block_ids args then ReshardClient.sa_dst_device_block_ids args else [] in
  let tags := if ReshardClient.has_transfer_pool_tags args then ReshardClient.sa_transfer_pool_tags args else [] in
  Coordinator.mkArgs (ReshardClient.sa_src_units args) (ReshardClient.sa_dst_units args) (ReshardClient.sa_req_id args) ids (nonempty ids)
    (ReshardClient.sa_use_block_chunks args) (ReshardClient.sa_dst_mem_type args) (ReshardClient.sa_dst_controller_address args)
    (Z.max 0 (ReshardClient.sa_uuid args)) (ReshardClient.sa_is_sender args) (if nonempty ids then Some 0 else None) tags (nonempty tags)
    None false (ReshardClient.sa_dst_block_counts args) (ReshardClient.sa_dst_skip_bytes args).

(** ** Calls *)

Lemma call_controller req w : is_controller_command req = true ->
  ReshardClient.CallController served req w =
  let r := HandleControllerCommand call submit random_uuid mode controller now d_manifest during req w.1 in
  (if negb (cr_success r.1.1) then Err kInternal StrCat["Remote Controller Server execution failed: "; cr_message r.1.1] else Ok r.1.1,
   (r.1.2, w.2 ++ r.2)).
Proof.
  intros Hc. unfold ReshardClient.CallController, served. rewrite (ServiceState.controller_dispatch call submit random_uuid mode controller) by done.
  destruct (HandleControllerCommand _ _ _ _ _ _ _ _ _ _) as [[resp s'] effects]. by rewrite controller_response_codec.
Qed.
Lemma call_raiden req w :
  ReshardClient.CallRaiden served req w =
  let r := HandleRaidenCommand submit mode controller (Some req) w.1 in
  (if negb (success r.1.1) then Err kInternal StrCat["Remote Controller Server execution failed: "; message r.1.1] else Ok r.1.1,
   (r.1.2, w.2 ++ r.2)).
Proof.
  unfold ReshardClient.CallRaiden, served. rewrite (ServiceState.control_dispatch call submit random_uuid mode controller).
  destruct (HandleRaidenCommand _ _ _ _ _) as [[resp s'] effects]. by rewrite control_response_codec.
Qed.

Lemma ids_kept (l : list RaidenId) : RaidenIdFromProto <$> (ReshardClient.RaidenIdProtoOf <$> l) = l.
Proof. rewrite <-list_fmap_compose. rewrite <-(list_fmap_id l) at 2. apply list_fmap_ext. by intros i [] _. Qed.
Lemma id_kept u : RaidenIdFromProto (ReshardClient.RaidenIdProtoOf u) = u.
Proof. by destruct u. Qed.
Lemma spans_kept ps : Forall counts_fit ps -> spans_of <$> (ReshardClient.spans_proto <$> ps) = declared <$> ps.
Proof.
  intros Hps. rewrite <-list_fmap_compose. apply list_fmap_ext. intros i entry Hi. eapply Forall_lookup_1 in Hi; [|done].
  unfold compose, spans_of, ReshardClient.spans_proto, declared. cbn. f_equal. rewrite <-list_fmap_compose.
  apply list_fmap_ext. intros j sp Hj. eapply Forall_lookup_1 in Hj; [|done]. unfold compose, span_of. cbn. by rewrite (wrap32_id (ReshardClient.cs_count sp)).
Qed.
Lemma registration_kept args :
  registration_of (default default_registration (register_work_unit_request (ReshardClient.BuildRegisterWorkUnit get_variable args))) = registration args.
Proof.
  unfold registration_of, registration. cbn. rewrite id_kept. f_equal.
  - by destruct (ReshardClient.has_pool_manifest args).
  - by destruct (ReshardClient.ra_layout_fingerprint args).
  - by destruct (ReshardClient.ra_page_tokens args).
  - by destruct (ReshardClient.ra_transfer_parallelism args).
  - by destruct (ReshardClient.has_pool_manifest args).
  - by destruct (ReshardClient.has_variables args).
Qed.
Lemma transfer_kept args : Forall in_int32 (ReshardClient.sa_dst_block_counts args) ->
  args_of (default (mkCoordinate [] [] 0 false 0 false 0 EmptyString EmptyString EmptyString [] [] [] [])
    (coordinate_transfer_request (ReshardClient.BuildStartTransfer args))) = transfer args.
Proof.
  intros Hc. unfold args_of, transfer. cbn. rewrite !ids_kept. f_equal.
  - destruct (Z.ltb_spec 0 (ReshardClient.sa_uuid args)); lia.
  - rewrite <-(list_fmap_id (ReshardClient.sa_dst_block_counts args)) at 2. apply list_fmap_ext. intros i c Hi. eapply Forall_lookup_1 in Hi; [|done]. by apply wrap32_id.
Qed.

(** A registry call through the service: the caller's view of its answer, the service with
    the registry it leaves. *)
Lemma registry_call {A R} (req : ControllerRequest) (data : A -> string) (r : StatusOr A * Registry.RequestBlockRegistry)
    (read : ControllerResponse -> StatusOr R) (f : A -> R) (w : World) :
  is_controller_command req = true ->
  HandleControllerCommand call submit random_uuid mode controller now d_manifest during req w.1 = (registry_answer data r w.1, []) ->
  (forall x, read (answers (data x)) = Ok (f x)) ->
  ReshardClient.and_then read (ReshardClient.CallController served req w) =
  (match remote r.1 with Ok x => Ok (f x) | Err code msg => Err code msg end, (with_registry r.2 w.1, w.2)).
Proof.
  intros Hc Hh Hread. rewrite call_controller, Hh by done. unfold registry_answer, ReshardClient.and_then. cbv zeta. cbn [fst snd].
  rewrite app_nil_r. destruct r as [[x|code msg] r']; cbn; [by rewrite Hread|done].
Qed.

(** C16: the client's calls are the operations of the components behind the service.  Over a
    transport that delivers the frames, each call has the effect of the operation it names
    on the registry, the directory or the coordinator, with the arguments the caller gave,
    and returns its result; an error carries the component's message.  Two calls have a
    condition: the repeat counts of registered spans ([counts_fit]) and the block counts of a
    transfer fit in 32 bits, which is what the message has for them (a larger repeat count is
    sent narrowed: [count_narrowed]), and a transfer is one of pools (it names destination
    blocks or pool tags); transfers of the other kind are not covered. *)
Theorem client_refines_service (w : World) :
  (forall req uuid u ids ps, Forall counts_fit ps ->
     let r := Registry.Register d_manifest (directory_ w.1) now (registry_ w.1) req uuid u ids (declared <$> ps) in
     ReshardClient.RegisterRequestBlocks served req uuid u ids ps w = (remote r.1, (with_registry r.2 w.1, w.2))) ∧
  (forall req uuid, let r := Registry.Release now (registry_ w.1) req uuid in
     ReshardClient.ReleaseRequestBlocks served req uuid w = (discard (remote r.1), (with_registry r.2 w.1, w.2))) ∧
  (forall req uuid u, let r := Registry.Complete now (registry_ w.1) req uuid u in
     ReshardClient.CompleteRequestBlocks served req uuid u w = (discard (remote r.1), (with_registry r.2 w.1, w.2))) ∧
  (forall req uuid, let r := Registry.CancelIfUnclaimed now (registry_ w.1) req uuid in
     ReshardClient.CancelRequestBlocksIfUnclaimed served req uuid w = (remote r.1, (with_registry r.2 w.1, w.2))) ∧
  (forall args, Forall in_int32 (ReshardClient.sa_dst_block_counts args) ->
     Coordinator.has_dst_device_block_ids (transfer args) || Coordinator.has_transfer_pool_tags (transfer args) = true ->
     let r := Coordinator.StartPoolReshard call submit random_uuid WUD.WorkUnitDirectory mode controller (directory_ w.1) now during
                (coordinator_ w.1) (transfer args) (registry_ w.1) in
     ReshardClient.StartTransfer served args w =
     (match remote (Coordinator.o_status r.1) with Ok _ => Ok true | Err code msg => Err code msg end,
      (mkService (directory_ w.1) (Coordinator.o_registry r.1) r.2, w.2 ++ (Coordinated <$> Coordinator.o_events r.1)))) ∧
  (forall req uuid, ReshardClient.GetTransferStatus served req uuid w =
     (Ok (status_number (Coordinator.GetTransferStatus (coordinator_ w.1) req)), w)) ∧
  (forall args, let reg := registration args in
     ReshardClient.RegisterWorkUnit get_variable served args w =
     (remote (WUD.Validate reg),
      if ok (WUD.Validate reg)
      then (mkService (WUD.RegisterLocked (directory_ w.1) reg) (Registry.InvalidateUnitLocked (registry_ w.1) (WUD.unit_ reg)) (coordinator_ w.1), w.2)
      else w)) ∧
  ReshardClient.GetMetadata put_registration served w = (Ok (put_registration <$> WUD.AllMetadata (directory_ w.1)), w) ∧
  ReshardClient.Shutdown served w = (Ok true, (w.1, w.2 ++ (ShutdownWorker <$> worker_addresses (directory_ w.1)) ++ [ShutdownCallback])).
Proof.
  destruct w as [s effects]. split_and!.
  - intros req uuid u ids ps Hps r. unfold ReshardClient.RegisterRequestBlocks.
    rewrite (registry_call _ (fun _ => EmptyString) r _ id); [by destruct r as [[[]|] ?]|done| |by intros []].
    transitivity (registry_answer (fun _ => EmptyString) (Registry.Register d_manifest (directory_ s) now (registry_ s) req uuid
      (RaidenIdFromProto (ReshardClient.RaidenIdProtoOf u)) ids (spans_of <$> (ReshardClient.spans_proto <$> ps))) s, @nil Effect); [reflexivity|]. by rewrite spans_kept, id_kept.
  - intros req uuid r. unfold ReshardClient.ReleaseRequestBlocks. rewrite (registry_call _ pretty r _ (fun _ => tt)); [|done..]. by destruct r as [[]].
  - intros req uuid u r. unfold ReshardClient.CompleteRequestBlocks. rewrite (registry_call _ pretty r _ (fun _ => tt)); [by destruct r as [[]]|done| |done].
    transitivity (registry_answer pretty (Registry.Complete now (registry_ s) req uuid (RaidenIdFromProto (ReshardClient.RaidenIdProtoOf u))) s, @nil Effect); [reflexivity|]. by rewrite id_kept.
  - intros req uuid r. unfold ReshardClient.CancelRequestBlocksIfUnclaimed. rewrite (registry_call _ (fun b : bool => if b then "true" else "false") r _ id); [by destruct r as [[]]|done..|by intros []].
  - intros args Hc Hp r. unfold ReshardClient.StartTransfer. rewrite call_controller by done. unfold HandleControllerCommand, HandleCoordinate. cbn [c_command ReshardClient.BuildStartTransfer Z.eqb COORDINATE_TRANSFER].
    change (Pos.eqb 1 1) with true. cbv iota. rewrite (transfer_kept args Hc).
    replace (is_pool_request _) with true by (symmetry; exact Hp). cbn [negb]. fold r. destruct r as [out c]. cbn [fst snd]. by destruct (Coordinator.o_status out).
  - intros req uuid. unfold ReshardClient.GetTransferStatus. rewrite call_controller by done. cbn. by rewrite app_nil_r.
  - intros args reg. unfold ReshardClient.RegisterWorkUnit. rewrite call_raiden. unfold HandleRaidenCommand, HandleRegisterWorkUnit.
    change (command (ReshardClient.BuildRegisterWorkUnit get_variable args) =? REGISTER_WORK_UNIT) with true. cbv iota. rewrite registration_kept. fold reg.
    destruct (WUD.Validate reg) as [[]|]; cbn; by rewrite app_nil_r.
  - unfold ReshardClient.GetMetadata. rewrite call_raiden. cbn. by rewrite app_nil_r.
  - unfold ReshardClient.Shutdown. by rewrite call_raiden.
Qed.

End over_the_wire.

(** ** Instances *)

(** A wire on which a message is itself: the laws of the encoding can hold. *)
Inductive Wire : Type :=
  | WController (r : ControllerRequest)
  | WControl (r : ControlRequest)
  | WControllerResponse (r : ControllerResponse)
  | WControlResponse (r : ControlResponse).
Instance wire_protobuf : Protobuf Wire := {|
  put_controller := WController;
  get_controller b := match b with WController r => Some r | WControl r => Some (bare_controller (command r)) | _ => None end;
  put_control := WControl;
  get_control b := match b with WControl r => Some r | WController r => Some (bare_control (c_command r)) | _ => None end;
  put_controller_response := WControllerResponse;
  get_controller_response b := match b with WControllerResponse r => Some r | _ => None end;
  put_control_response := WControlResponse;
  get_control_response b := match b with WControlResponse r => Some r | _ => None end
|}.
Instance wire_laws : ProtobufLaws Wire.
Proof. by split. Qed.

Definition demo_variable (b : Wire) : WUD.VariableMetadataProto := WUD.mkVariable EmptyString [] [] [] 0 0 [].
Definition demo_registration (r : WUD.RegisterWorkUnitRequest) : Wire := WControl (mkControl REGISTER_WORK_UNIT [] None (Some r)).
Definition demo_args : ReshardClient.RegisterWorkUnitArgs (B := Wire) :=
  ReshardClient.mkRegisterArgs Registry.unit0 ["h:1"%string] "h:2" [] [] [] 0 false [] None None None None false [].
Definition demo_world : ReshardService * list Effect := (create 100 1, []).
Definition demo_transport : Wire -> ReshardService * list Effect -> StatusOr Wire * (ReshardService * list Effect) :=
  served Coordinator.acknowledge Coordinator.accept 1 Coordinator.kFramed false 1 WUD.create [].

Lemma client_refines_service_witness :
  (ReshardClient.RegisterWorkUnit demo_variable demo_transport demo_args demo_world).1 = OkStatus ∧
  (ReshardClient.RegisterRequestBlocks demo_transport "r" 7 Registry.unit0 [4] [] demo_world).1 =
    Err kInternal StrCat["Remote Controller Server execution failed: ";
      "Work unit is not registered: RaidenId(job_name='', job_replica_id='', data_name='', data_replica_idx=0)"] ∧
  (ReshardClient.CancelRequestBlocksIfUnclaimed demo_transport "r" 7 demo_world).1 = Ok true.
Proof.
  destruct (client_refines_service demo_variable demo_registration Coordinator.acknowledge Coordinator.accept 1 Coordinator.kFramed false 1 WUD.create [] demo_world)
    as (Hreg & _ & _ & Hcancel & _ & _ & Hunit & _).
  split; [|split].
  - unfold demo_transport. rewrite Hunit. vm_compute. reflexivity.
  - unfold demo_transport. rewrite Hreg by constructor. vm_compute. reflexivity.
  - unfold demo_transport. rewrite Hcancel. vm_compute. reflexivity.
Defined.

(** The repeat count of a span is narrowed on its way: the registry is shown a count it
    accepts in place of one it would refuse. *)
Lemma count_narrowed :
  let span := ReshardClient.mkClientSpan 0 0 0 0 8 16 16 4294967297 in
  Registry.kMaxSpanCount < ReshardClient.cs_count span ∧ count (span_of (ReshardClient.span_proto span)) = 1.
Proof. by vm_compute. Qed.

(** A worker registers, declares blocks for a request, and registers again. *)
Definition demo_frame (bytes : Wire) (s : ReshardService) : ReshardService :=
  (HandleFrame Coordinator.acknowledge Coordinator.accept 1 Coordinator.kFramed false (B := Wire) 1 (directory_ s) [] bytes s).1.2.
Definition demo_registered : ReshardService :=
  demo_frame (put_control (ReshardClient.BuildRegisterWorkUnit demo_variable demo_args)) (create 100 1).
Definition demo_declared : ReshardService :=
  demo_frame (put_controller (ReshardClient.BuildRegisterRequestBlocks "r" 7 Registry.unit0 [4; 2] [])) demo_registered.
Definition demo_request : WUD.RegisterWorkUnitRequest :=
  default default_registration (register_work_unit_request (ReshardClient.BuildRegisterWorkUnit demo_variable demo_args)).

Lemma service_state_witness :
  req_block_ids <$> Registry.request_blocks_ (registry_ demo_declared) !! ("r"%string, Registry.unit0) = Some [4; 2] ∧
  Registry.request_blocks_ (registry_ (HandleRegisterWorkUnit demo_request demo_declared).2) !! ("r"%string, Registry.unit0) = None.
Proof.
  split; [vm_compute; reflexivity|].
  destruct (ServiceState.service_state (B := Wire) Coordinator.acknowledge Coordinator.accept 1 Coordinator.kFramed false 100 1 demo_declared) as [_ Hr].
  - apply ServiceState.reach_frame; [|constructor]. apply ServiceState.reach_frame; [|constructor]. apply ServiceState.reach_start.
  - assert (Ha : HandleRegisterWorkUnit demo_request demo_declared = (accepts, (HandleRegisterWorkUnit demo_request demo_declared).2)) by (vm_compute; reflexivity).
    destruct (Hr demo_request _ Ha) as (_ & Hrows & _). exact (Hrows "r"%string).
Defined.

End EndToEnd.
