(* ===== verification/WorkerService.v ===== *)
(** * The worker service ([src/tpu_sync/core/controller/worker_service_impl.cc])

    The service a controller drives on each of its workers: host buffers by handle,
    transfers routed to the transfer manager, and transfer programs.  Every call runs under
    the service's mutex.  The allocator and the transfer manager are parameters: the
    allocator is a function of its own state, the manager answers a call with the status of
    its dispatch and, if that is ok, the status the future resolves to. *)

From S2P Require Import Prelude ReshardTypes WorkerRegistry TransferProgram RaidenController.
Import Workers.

Module WorkerService.
Import Controller.

(** ** Buffers *)

Section buffers.
(** [HostBufferAllocation] and [allocator_->Allocate]. *)
Context {Allocation M : Type}.
Variable Allocate : Z -> M -> StatusOr Allocation * M.

Record WorkerServiceImpl : Type := mkWorker {
  next_buffer_handle_ : Z;
  buffers_ : gmap Z Allocation;
  memory : M
}.
Implicit Types s : WorkerServiceImpl.

Definition create (m : M) : WorkerServiceImpl := mkWorker 1 ∅ m.

Record CreateBufferSpec : Type := mkBufferSpec { num_shards : Z; size_bytes : Z }.
(** The handles of each buffer created, and the verdict. *)
Record Created : Type := mkCreated { c_success : bool; c_message : list Frag; c_buffers : list (list Z) }.

(** The loop over the shards of one buffer; the handles so far when it fails. *)
Fixpoint create_shards (n : nat) (size : Z) (handles : list Z) s : StatusOr (list Z) * WorkerServiceImpl :=
  match n with
  | O => (Ok handles, s)
  | S n =>
      match Allocate size (memory s) with
      | (Err code msg, m) => (Err code msg, mkWorker (next_buffer_handle_ s) (buffers_ s) m)
      | (Ok a, m) =>
          let handle := next_buffer_handle_ s in
          create_shards n size (handles ++ [handle]) (mkWorker (u64 (handle + 1)) (<[handle := a]> (buffers_ s)) m)
      end
  end.

Fixpoint create_buffers (specs : list CreateBufferSpec) (done_ : list (list Z)) s : Created * WorkerServiceImpl :=
  match specs with
  | [] => (mkCreated true StrCat["Buffers created successfully"] done_, s)
  | spec :: rest =>
      if (num_shards spec <=? 0) || (size_bytes spec <=? 0) then
        (mkCreated false StrCat["num_shards and size_bytes must be positive"] done_, s)
      else
        match create_shards (Z.to_nat (num_shards spec)) (size_bytes spec) [] s with
        | (Err _ msg, s) => (mkCreated false (StrCat["Failed to allocate memory: "] ++ msg) done_, s)
        | (Ok handles, s) => create_buffers rest (done_ ++ [handles]) s
        end
  end.
Definition CreateBuffers (specs : list CreateBufferSpec) s : Created * WorkerServiceImpl := create_buffers specs [] s.

Fixpoint delete_handles (handles : list Z) s : Status * WorkerServiceImpl :=
  match handles with
  | [] => (OkStatus, s)
  | handle :: rest =>
      match buffers_ s !! handle with
      | None => (Err kNotFound StrCat["Buffer not found for deletion: handle "; handle], s)
      | Some _ => delete_handles rest (mkWorker (next_buffer_handle_ s) (delete handle (buffers_ s)) (memory s))
      end
  end.
(** The verdict and its message; a failure leaves what was deleted before it deleted. *)
Fixpoint DeleteBuffers (sharded_buffers : list (list Z)) s : bool * list Frag * WorkerServiceImpl :=
  match sharded_buffers with
  | [] => (true, StrCat["Buffers deleted successfully"], s)
  | handles :: rest =>
      if (length handles =? 0)%nat then (false, StrCat["BufferProto has no buffer_handles"], s)
      else
        match delete_handles handles s with
        | (Err _ msg, s) => (false, msg, s)
        | (Ok _, s) => DeleteBuffers rest s
        end
  end.

Definition GetBuffer (handle : Z) s : StatusOr Allocation :=
  match buffers_ s !! handle with
  | None => Err kNotFound StrCat["Buffer not found: handle "; handle]
  | Some a => Ok a
  end.
Definition GetBufferCount s : Z := Z.of_nat (base.size (buffers_ s)).

End buffers.

(** ** Transfers *)

(** [TransferBufferSpec] of [proto/worker_service.proto]. *)
Record TransferBufferSpec : Type := mkSpec {
  t_src_offsets : list Z;
  t_dst_offsets : list Z;
  t_copy_sizes : list Z;
  t_src_mem_type : MemoryType;
  t_dst_mem_type : MemoryType;
  t_src_buffers : list BufferProto;
  t_dst_buffers : list BufferProto;
  t_staging_host_buffers : list BufferProto
}.

(** The calls of the transfer manager. *)
Inductive ManagerCall : Type :=
  | D2h (src dst sizes : list Z)
  | D2hRead (peer : string) (src dst sizes : list Z)
  | D2hWrite (peer : string) (src staging dst sizes : list Z)
  | H2d (src dst sizes : list Z)
  | H2dReadFrom (peers : list RaidenTransferEndpoint) (src staging dst sizes : list Z)
  | H2dRead (peer : string) (src staging dst sizes : list Z)
  | H2dWrite (peer : string) (src staging dst sizes : list Z)
  | H2hReadFrom (peers : list RaidenTransferEndpoint) (src dst : list Z)
  | H2hWriteTo (peers : list RaidenTransferEndpoint) (src dst : list Z)
  | H2hRead (peer : string) (src dst : list Z)
  | H2hWrite (peer : string) (src dst : list Z).

Definition IsD2H (src dst : MemoryType) : bool :=
  bool_decide (src = MEMORY_TYPE_HBM) && (bool_decide (dst = MEMORY_TYPE_DRAM) || bool_decide (dst = MEMORY_TYPE_UNSPECIFIED)).
Definition IsH2D (src dst : MemoryType) : bool :=
  (bool_decide (src = MEMORY_TYPE_DRAM) || bool_decide (src = MEMORY_TYPE_UNSPECIFIED)) && bool_decide (dst = MEMORY_TYPE_HBM).
Definition IsH2H (src dst : MemoryType) : bool := bool_decide (src = MEMORY_TYPE_DRAM) && bool_decide (dst = MEMORY_TYPE_DRAM).

(** The memory type of a side: the field, or the first buffer's. *)
Definition effective (t : MemoryType) (buffers : list BufferProto) : MemoryType :=
  match t, buffers with
  | MEMORY_TYPE_UNSPECIFIED, b :: _ => p_memory_type b
  | _, _ => t
  end.

Definition offset_of (acc : list Z) (b : BufferProto) : StatusOr (list Z) :=
  match p_index b with
  | Some i => if i <? 0 then Err kInvalidArgument StrCat["BufferProto missing valid index"] else Ok (acc ++ [i])
  | None => Err kInvalidArgument StrCat["BufferProto missing valid index"]
  end.

(** The offsets of the two sides: given, or the indices of the buffers. *)
Definition offsets (t : TransferBufferSpec) : StatusOr (list Z * list Z) :=
  if negb (length (t_src_offsets t) =? 0)%nat then Ok (t_src_offsets t, t_dst_offsets t)
  else if negb (length (t_src_buffers t) =? 0)%nat && (length (t_src_buffers t) =? length (t_dst_buffers t))%nat then
    let? src := for_each offset_of (t_src_buffers t) [] in
    let? dst := for_each offset_of (t_dst_buffers t) [] in
    Ok (src, dst)
  else Ok ([], []).

Definition first_address (buffers : list BufferProto) : option string :=
  match buffers with
  | b :: _ => if bool_decide (p_remote_address b = EmptyString) then None else Some (p_remote_address b)
  | [] => None
  end.
Definition first_descriptors (buffers : list BufferProto) : list RaidenTransferEndpoint :=
  match buffers with b :: _ => p_remote_descriptors b | [] => [] end.

(** Which call a transfer is. *)
Definition route (is_d2h is_h2d : bool) (t : TransferBufferSpec) (src dst sizes : list Z) : option ManagerCall :=
  let staging := (fun b => default 0 (p_index b)) <$> t_staging_host_buffers t in
  let src_peer := first_address (t_src_buffers t) in
  let dst_peer := first_address (t_dst_buffers t) in
  let src_remote_descriptors := first_descriptors (t_src_buffers t) in
  let dst_remote_descriptors := first_descriptors (t_dst_buffers t) in
  if is_d2h then
    match src_peer, dst_peer with
    | Some peer, _ => Some (D2hRead peer src dst sizes)
    | None, Some peer => Some (D2hWrite peer src staging dst sizes)
    | None, None => Some (D2h src dst sizes)
    end
  else if is_h2d then
    match src_remote_descriptors, src_peer, dst_peer with
    | (_ :: _) as eps, _, _ => Some (H2dReadFrom eps src staging dst sizes)
    | [], Some peer, _ => Some (H2dRead peer src staging dst sizes)
    | [], None, Some peer => Some (H2dWrite peer src staging dst sizes)
    | [], None, None => Some (H2d src dst sizes)
    end
  else
    match src_remote_descriptors, dst_remote_descriptors, src_peer, dst_peer with
    | (_ :: _) as eps, _, _, _ => Some (H2hReadFrom eps src dst)
    | [], (_ :: _) as eps, _, _ => Some (H2hWriteTo eps src dst)
    | [], [], Some peer, _ => Some (H2hRead peer src dst)
    | [], [], None, Some peer => Some (H2hWrite peer src dst)
    | [], [], None, None => None
    end.

(** [manager] is absent when none is configured.  The verdict, its message, and the call
    that was made. *)
Definition TransferBuffers (manager : option (ManagerCall -> StatusOr Status)) (t : TransferBufferSpec) :
    bool * list Frag * option ManagerCall :=
  let src_mem_type := effective (t_src_mem_type t) (t_src_buffers t) in
  let dst_mem_type := effective (t_dst_mem_type t) (t_dst_buffers t) in
  let is_d2h := IsD2H src_mem_type dst_mem_type in
  let is_h2d := IsH2D src_mem_type dst_mem_type in
  let is_h2h := IsH2H src_mem_type dst_mem_type in
  if negb is_d2h && negb is_h2d && negb is_h2h then
    (false, StrCat["Only D2H, H2D, and H2H (DRAM to DRAM) transfers are currently supported"], None)
  else if is_h2h && existsb (fun size => negb (size =? 1)) (t_copy_sizes t) then
    (false, StrCat["H2H transfers only support copy size of 1 per segment"], None)
  else
    match offsets t with
    | Err _ msg => (false, msg, None)
    | Ok (src, dst) =>
        if (length src =? 0)%nat || negb (length src =? length dst)%nat then
          (false, StrCat["Source and destination offsets must have the same non-zero length"], None)
        else if negb (length (t_copy_sizes t) =? 0)%nat && negb (length (t_copy_sizes t) =? length src)%nat then
          (false, StrCat["copy_sizes, if provided, must match the length of src_offsets"], None)
        else
          match manager with
          | None => (false, StrCat["Transfer manager is not configured on WorkerService"], None)
          | Some dispatch =>
              let sizes := if (length (t_copy_sizes t) =? 0)%nat then replicate (length src) 1 else t_copy_sizes t in
              match route is_d2h is_h2d t src dst sizes with
              | None => (false, StrCat["Peer address must be provided for H2H transfers"], None)
              | Some call =>
                  match dispatch call with
                  | Err _ msg =>
                      (false, StrCat[if is_d2h then "D2H" else if is_h2d then "H2D" else "H2H"; " transfer dispatch failed: "] ++ msg, Some call)
                  | Ok (Err _ msg) => (false, StrCat["Transfer execution failed: "] ++ msg, Some call)
                  | Ok (Ok _) => (true, StrCat["Buffers transferred successfully"], Some call)
                  end
              end
          end
    end.

(** ** Transfer programs *)

(** The operations of the pool executor, as this service and the listener call them. *)
Inductive ExecutorCall : Type :=
  | PoolReshardPush (request : Program.StartTransferRequest) (src_block_ids : list Z) (parallelism : Z)
  | PoolReshardRegisterRecv (request : Program.StartTransferRequest) (chip_block_ids : list Z)
  | PushKVCacheResharded (request : Program.StartTransferRequest)
  | RegisterActivePlan (uuid : Z) (request : Program.StartTransferRequest).

(** An error is the gRPC status; an answer is [success] and [message]. *)
Definition SubmitTransferProgram (executor : option (ExecutorCall -> Status)) (request : Program.TransferProgramRequest) :
    StatusOr (bool * list Frag) * list ExecutorCall :=
  match Program.NormalizeReshardProgram request with
  | Err code msg => (Err (match code with kUnimplemented => kUnimplemented | _ => kInvalidArgument end) msg, [])
  | Ok lowering_class =>
      match Program.LowerToStartTransfer request with
      | Err _ msg => (Err kInvalidArgument msg, [])
      | Ok lowered =>
          match executor with
          | None => (Ok (false, StrCat["Transfer manager is not initialized"]), [])
          | Some execute =>
              let call :=
                match lowering_class with
                | Program.kPoolReshardSender =>
                    PoolReshardPush lowered (Program.DeriveSenderSourceBlockIds lowered) (Program.parallelism lowered)
                | Program.kPoolReshardArm => PoolReshardRegisterRecv lowered (Program.DeriveArmChipBlockIds lowered)
                end in
              (Ok (match execute call with Ok _ => (true, StrCat["SUCCESS"]) | Err _ msg => (false, msg) end), [call])
          end
      end
  end.

Definition PollTransfer : Status :=
  Err kUnimplemented StrCat["PollTransfer is not implemented; transfer completion uses the existing connector polling path"].
Definition AbortTransfer : Status := Err kUnimplemented StrCat["AbortTransfer is not implemented"].

End WorkerService.
