(* ===== verification/WorkerServiceProofs.v ===== *)
(** * The worker service: buffers and transfers

    Handles are fresh and name their allocations until they are deleted; a transfer the
    controller asks for is the manager call with the blocks the controller named. *)

From S2P Require Import Prelude ReshardTypes WorkerRegistry TransferProgram ControllerService RaidenController RaidenControllerProofs WorkerService.
Import Workers.

Module WorkerServiceProofs.
Import Controller WorkerService.

(** ** Buffers *)

Section buffers.
Context {Allocation M : Type}.
Variable Allocate : Z -> M -> StatusOr Allocation * M.
Implicit Types s : WorkerServiceImpl (Allocation := Allocation) (M := M).

(** Handles in use are below the next one. *)
Definition handles_below s : Prop := 0 < next_buffer_handle_ s ∧ forall h a, buffers_ s !! h = Some a -> 0 < h < next_buffer_handle_ s.
(** The handles [first, first + n). *)
Definition run_of (first : Z) (n : nat) : list Z := zrange first (first + Z.of_nat n).
(** [s'] has the buffers of [s] and one for each of the handles from [next_buffer_handle_ s]
    up to its own next one. *)
Record extends s s' : Prop := {
  ext_next : next_buffer_handle_ s <= next_buffer_handle_ s';
  ext_old h : h < next_buffer_handle_ s -> buffers_ s' !! h = buffers_ s !! h;
  ext_new h : next_buffer_handle_ s <= h -> is_Some (buffers_ s' !! h) <-> h < next_buffer_handle_ s'
}.

Lemma extends_refl s : handles_below s -> extends s s.
Proof.
  intros [_ Hb]. split; [lia|done|]. intros h Hh. split; [intros [a Ha]; apply Hb in Ha; lia|lia].
Qed.
Lemma extends_trans s1 s2 s3 : extends s1 s2 -> extends s2 s3 -> extends s1 s3.
Proof.
  intros [N1 O1 W1] [N2 O2 W2]. split; [lia| |].
  - intros h Hh. rewrite O2 by lia. by apply O1.
  - intros h Hh. destruct (Z.lt_ge_cases h (next_buffer_handle_ s2)) as [Hlt|Hge]; [|by apply W2].
    rewrite O2 by done. rewrite W1 by done. lia.
Qed.
Lemma extends_below s s' : handles_below s -> extends s s' -> handles_below s'.
Proof.
  intros [Hp Hb] [N O W]. split; [lia|]. intros h a Ha. destruct (Z.lt_ge_cases h (next_buffer_handle_ s)) as [Hlt|Hge].
  - rewrite O in Ha by done. apply Hb in Ha. lia.
  - split; [lia|]. apply W; [done|]. by exists a.
Qed.

Lemma create_shards_spec n size handles s :
  handles_below s -> next_buffer_handle_ s + Z.of_nat n < 2 ^ 64 ->
  let r := create_shards Allocate n size handles s in
  extends s r.2 ∧ next_buffer_handle_ r.2 <= next_buffer_handle_ s + Z.of_nat n ∧
  (forall hs, r.1 = Ok hs -> hs = handles ++ run_of (next_buffer_handle_ s) n ∧ next_buffer_handle_ r.2 = next_buffer_handle_ s + Z.of_nat n).
Proof.
  revert handles s. induction n as [|n IH]; intros handles s Hb Hn; cbn [create_shards].
  { split; [by apply extends_refl|]. split; [cbn; lia|]. intros hs [= <-]. unfold run_of. rewrite zrange_empty by lia. rewrite app_nil_r. split; [done|cbn; lia]. }
  destruct (Allocate size (memory s)) as [[a|code msg] m].
  2:{ destruct (extends_refl s Hb) as [N O W]. split; [by split|]. split; [cbn; lia|done]. }
  cbv zeta. set (s1 := mkWorker (u64 (next_buffer_handle_ s + 1)) (<[next_buffer_handle_ s := a]> (buffers_ s)) m).
  destruct Hb as [Hpos Hb]. assert (Hnext : next_buffer_handle_ s1 = next_buffer_handle_ s + 1) by (cbn; unfold u64; apply Z.mod_small; lia).
  assert (He : extends s s1).
  { split; [lia| |].
    - intros h Hh. cbn. by rewrite lookup_insert_ne by lia.
    - intros h Hh. rewrite Hnext. cbn. destruct (decide (h = next_buffer_handle_ s)) as [->|Hne].
      + rewrite lookup_insert_eq. split; [lia|by eexists].
      + rewrite lookup_insert_ne by done. split; [intros [x Hx]; apply Hb in Hx; lia|lia]. }
  destruct (IH (handles ++ [next_buffer_handle_ s]) s1) as (Hx & Hle & Hok); [by eapply extends_below|rewrite Hnext; lia|].
  split; [by eapply extends_trans|]. split; [rewrite Hnext in Hle; lia|]. intros hs Hhs. destruct (Hok hs Hhs) as [-> En].
  split; [|rewrite Hnext in En; lia]. rewrite <-app_assoc. f_equal. rewrite Hnext. unfold run_of. rewrite (zrange_cons (next_buffer_handle_ s)) by lia.
  cbn. f_equal. f_equal. lia.
Qed.

(** The handles of the buffers of a request, in order. *)
Fixpoint handle_runs (first : Z) (specs : list CreateBufferSpec) : list (list Z) :=
  match specs with
  | [] => []
  | spec :: rest => run_of first (Z.to_nat (num_shards spec)) :: handle_runs (first + num_shards spec) rest
  end.
Definition total_shards (specs : list CreateBufferSpec) : Z := foldr (fun spec n => Z.max 0 (num_shards spec) + n) 0 specs.

Lemma total_shards_nonneg specs : 0 <= total_shards specs.
Proof. induction specs as [|spec specs IH]; cbn [total_shards foldr]; [lia|]. change (foldr _ 0 specs) with (total_shards specs). lia. Qed.

Lemma create_buffers_spec specs done_ s :
  handles_below s -> next_buffer_handle_ s + total_shards specs < 2 ^ 64 ->
  let r := create_buffers Allocate specs done_ s in
  extends s r.2 ∧
  (c_success r.1 = true -> Forall (fun spec => 0 < num_shards spec ∧ 0 < size_bytes spec) specs ∧
     c_buffers r.1 = done_ ++ handle_runs (next_buffer_handle_ s) specs ∧
     next_buffer_handle_ r.2 = next_buffer_handle_ s + total_shards specs).
Proof.
  revert done_ s. induction specs as [|spec specs IH]; intros done_ s Hb Hn; cbn [create_buffers].
  { split; [by apply extends_refl|]. intros _. cbn. rewrite app_nil_r. split; [constructor|]. split; [done|lia]. }
  destruct (_ || _) eqn:Eg; [split; [by apply extends_refl|done]|]. to_prop. destruct Eg as [Hshards Hsize].
  cbn [total_shards foldr] in Hn. change (foldr _ 0 specs) with (total_shards specs) in Hn. pose proof (total_shards_nonneg specs) as Hnn.
  destruct (create_shards_spec (Z.to_nat (num_shards spec)) (size_bytes spec) [] s Hb) as (He & _ & Hok); [lia|].
  destruct (create_shards Allocate _ _ _ s) as [[hs|code msg] s1]; cbn [fst snd] in *; [|split; [done|done]].
  destruct (Hok hs eq_refl) as [-> En]. rewrite Z2Nat.id in En by lia.
  destruct (IH (done_ ++ [[] ++ run_of (next_buffer_handle_ s) (Z.to_nat (num_shards spec))]) s1) as [Hx Hc]; [by eapply extends_below|lia|].
  split; [by eapply extends_trans|]. intros Hs. destruct (Hc Hs) as (Hf & -> & ->). split; [by constructor|]. split.
  - cbn [handle_runs]. rewrite <-app_assoc, En. done.
  - cbn [total_shards foldr]. change (foldr _ 0 specs) with (total_shards specs). lia.
Qed.

Lemma concat_runs first specs : Forall (fun spec => 0 < num_shards spec ∧ 0 < size_bytes spec) specs ->
  concat (handle_runs first specs) = zrange first (first + total_shards specs) ∧ Forall (fun hs => hs ≠ []) (handle_runs first specs) ∧
  Forall2 (fun hs spec => Z.of_nat (length hs) = num_shards spec) (handle_runs first specs) specs.
Proof.
  intros Hf. revert first. induction Hf as [|spec specs [Hs _] _ IH]; intros first; cbn [handle_runs concat total_shards foldr].
  { split; [by rewrite zrange_empty by lia|by split]. }
  change (foldr _ 0 specs) with (total_shards specs). destruct (IH (first + num_shards spec)) as (E1 & H2 & H3). pose proof (total_shards_nonneg specs).
  assert (Er : run_of first (Z.to_nat (num_shards spec)) = zrange first (first + num_shards spec)) by (unfold run_of; by rewrite Z2Nat.id by lia).
  rewrite Er, E1. split_and!.
  - rewrite zrange_app by lia. f_equal. lia.
  - constructor; [|done]. rewrite zrange_cons by lia. done.
  - constructor; [|done]. rewrite length_zrange. lia.
Qed.

Lemma delete_handles_spec handles s :
  NoDup handles -> (forall h, h ∈ handles -> is_Some (buffers_ s !! h)) ->
  exists s', delete_handles handles s = (OkStatus, s') ∧ next_buffer_handle_ s' = next_buffer_handle_ s ∧
    forall h, buffers_ s' !! h = if decide (h ∈ handles) then None else buffers_ s !! h.
Proof.
  intros Hnd. revert s. induction Hnd as [|x handles Hx _ IH]; intros s Hin; cbn [delete_handles].
  { exists s. split_and!; [done..|]. intros h. by rewrite decide_False by apply not_elem_of_nil. }
  destruct (Hin x) as [a Ha]; [by left|]. rewrite Ha.
  destruct (IH (mkWorker (next_buffer_handle_ s) (delete x (buffers_ s)) (memory s))) as (s' & -> & Hn & Hs').
  { intros h Hh. cbn. rewrite lookup_delete_ne by (by intros ->). apply Hin. by right. }
  exists s'. split_and!; [done..|]. intros h. rewrite Hs'. cbn. destruct (decide (h = x)) as [->|Hne].
  - rewrite lookup_delete_eq. repeat case_decide; try done. set_solver.
  - rewrite lookup_delete_ne by done. repeat case_decide; set_solver.
Qed.

Lemma delete_buffers_spec bufs s :
  Forall (fun hs => hs ≠ []) bufs -> NoDup (concat bufs) -> (forall h, h ∈ concat bufs -> is_Some (buffers_ s !! h)) ->
  exists msg s', DeleteBuffers bufs s = (true, msg, s') ∧ next_buffer_handle_ s' = next_buffer_handle_ s ∧
    forall h, buffers_ s' !! h = if decide (h ∈ concat bufs) then None else buffers_ s !! h.
Proof.
  intros Hf. revert s. induction Hf as [|hs bufs Hne _ IH]; intros s Hnd Hin; cbn [DeleteBuffers concat] in *.
  { eexists _, s. split_and!; [done..|]. intros h. by rewrite decide_False by apply not_elem_of_nil. }
  apply NoDup_app in Hnd as (Hnd1 & Hdisj & Hnd2). destruct (Nat.eqb_spec (length hs) 0) as [Hz|_]; [by destruct hs|].
  destruct (delete_handles_spec hs s Hnd1) as (s1 & -> & Hn1 & Hs1); [intros h Hh; apply Hin, elem_of_app; by left|].
  destruct (IH s1 Hnd2) as (msg & s' & -> & Hn & Hs').
  { intros h Hh. rewrite Hs1, decide_False by (intros Hx; by eapply Hdisj). apply Hin, elem_of_app. by right. }
  exists msg, s'. split_and!; [done|congruence|]. intros h. rewrite Hs', Hs1. repeat case_decide; set_solver.
Qed.

(** buffers and their handles.  When creating succeeds, each buffer of the request has one
    handle per shard; the handles are distinct, were not in use, and each of them names an
    allocation, while every other handle names what it did.  Deleting the buffers of the
    answer succeeds and leaves exactly the buffers there were before. *)
Theorem worker_create_delete specs s :
  handles_below s -> next_buffer_handle_ s + total_shards specs < 2 ^ 64 ->
  let r := CreateBuffers Allocate specs s in
  c_success r.1 = true ->
  Forall2 (fun hs spec => Z.of_nat (length hs) = num_shards spec) (c_buffers r.1) specs ∧
  NoDup (concat (c_buffers r.1)) ∧
  (forall h, if decide (h ∈ concat (c_buffers r.1)) then buffers_ s !! h = None ∧ is_Some (buffers_ r.2 !! h)
             else buffers_ r.2 !! h = buffers_ s !! h) ∧
  handles_below r.2 ∧
  exists msg s', DeleteBuffers (c_buffers r.1) r.2 = (true, msg, s') ∧ buffers_ s' = buffers_ s.
Proof.
  intros Hb Hcap r Hok. destruct (create_buffers_spec specs [] s Hb Hcap) as [He Hc]. fold (CreateBuffers Allocate specs s) in He, Hc. fold r in He, Hc.
  destruct (Hc Hok) as (Hf & Eb & En). rewrite app_nil_l in Eb. destruct (concat_runs (next_buffer_handle_ s) specs Hf) as (Ec & Hne & Hlen). rewrite Eb, Ec.
  pose proof (proj2 Hb) as Hold. destruct He as [N O W]. pose proof (total_shards_nonneg specs) as Hnn.
  assert (Hnone : forall h, next_buffer_handle_ s <= h -> buffers_ s !! h = None) by (intros h Hh; destruct (buffers_ s !! h) eqn:Eh; [apply Hold in Eh; lia|done]).
  assert (Hsplit : forall h, if decide (h ∈ zrange (next_buffer_handle_ s) (next_buffer_handle_ s + total_shards specs)) then buffers_ s !! h = None ∧ is_Some (buffers_ r.2 !! h)
             else buffers_ r.2 !! h = buffers_ s !! h).
  { intros h. case_decide as Hh; rewrite elem_of_zrange in Hh; [split; [apply Hnone; lia|apply W; lia]|].
    destruct (Z.lt_ge_cases h (next_buffer_handle_ s)) as [Hlt|Hge]; [by apply O|]. rewrite Hnone by done.
    destruct (buffers_ r.2 !! h) eqn:Eh; [|done]. assert (h < next_buffer_handle_ r.2) by (apply W; [done|by eexists]). lia. }
  split_and!; [done|apply NoDup_zrange|done|by eapply extends_below|].
  destruct (delete_buffers_spec (handle_runs (next_buffer_handle_ s) specs) r.2) as (msg & s' & Hd & _ & Hs'); [done|rewrite Ec; apply NoDup_zrange|..].
  { intros h Hh. rewrite Ec in Hh. specialize (Hsplit h). rewrite decide_True in Hsplit by done. apply Hsplit. }
  exists msg, s'. split; [done|]. apply map_eq. intros h. rewrite Hs', Ec. specialize (Hsplit h). case_decide; [|done]. by destruct Hsplit as [-> _].
Qed.

End buffers.

(** ** Transfers *)

(** The specification the controller's request carries. *)
Definition spec_of (r : TransferBuffersRequest) : TransferBufferSpec :=
  mkSpec [] [] (copy_sizes r) (src_mem_type r) (dst_mem_type r) (src_buffers r) (dst_buffers r) (staging_host_buffers r).

(** What a call of the manager copies. *)
Definition call_blocks (c : ManagerCall) : list Z * list Z :=
  match c with
  | D2h src dst _ | D2hRead _ src dst _ | D2hWrite _ src _ dst _ | H2d src dst _ | H2dReadFrom _ src _ dst _ | H2dRead _ src _ dst _
  | H2dWrite _ src _ dst _ | H2hReadFrom _ src dst | H2hWriteTo _ src dst | H2hRead _ src dst | H2hWrite _ src dst => (src, dst)
  end.
Definition call_sizes (c : ManagerCall) : option (list Z) :=
  match c with
  | D2h _ _ sizes | D2hRead _ _ _ sizes | D2hWrite _ _ _ _ sizes | H2d _ _ sizes | H2dReadFrom _ _ _ _ sizes | H2dRead _ _ _ _ sizes
  | H2dWrite _ _ _ _ sizes => Some sizes
  | _ => None
  end.
Definition call_staging (c : ManagerCall) : option (list Z) :=
  match c with
  | D2hWrite _ _ staging _ _ | H2dReadFrom _ _ staging _ _ | H2dRead _ _ staging _ _ | H2dWrite _ _ staging _ _ => Some staging
  | _ => None
  end.

Lemma add_buffers_index role l acc out : for_each (add_buffer role) l acc = Ok out -> Forall (fun b => 0 <= index b) l.
Proof.
  revert acc. induction l as [|b l IH]; intros acc; [constructor|]. cbn [for_each]. unfold add_buffer at 1.
  destruct (index b <? 0) eqn:Ei; [done|]. to_prop. intros Hl. constructor; [lia|by eapply IH].
Qed.
Lemma built_request src dst staging sizes r : BuildTransferBuffersRequest src dst staging sizes = Ok r ->
  src ≠ [] ∧ length src = length dst ∧ (sizes = [] ∨ length sizes = length src) ∧ copy_sizes r = sizes ∧
  Forall (fun b => 0 <= index b) src ∧ Forall (fun b => 0 <= index b) dst ∧
  src_buffers r = ((fun b => set_index (index b) (ToProto b)) <$> src) ∧ dst_buffers r = ((fun b => set_index (index b) (ToProto b)) <$> dst) ∧
  staging_host_buffers r = ((fun b => set_index (index b) (ToProto b)) <$> staging).
Proof.
  unfold BuildTransferBuffersRequest. destruct src as [|s0 src0] eqn:Es; [done|]. destruct dst as [|d0 dst0] eqn:Ed; [done|]. rewrite <-Es, <-Ed.
  destruct (negb _) eqn:El; [done|]. destruct (bad_sizes src sizes) eqn:Eb; [done|].
  destruct (for_each (add_buffer "Source") src []) as [srcs|] eqn:E1; [|done]. destruct (for_each (add_buffer "Destination") dst []) as [dsts|] eqn:E2; [|done].
  destruct (for_each (add_buffer "Staging host") staging []) as [st|] eqn:E3; [|done]. intros [= <-]. cbn.
  pose proof (add_buffers_index _ _ _ _ E1). pose proof (add_buffers_index _ _ _ _ E2). apply ControllerProofs.add_buffers in E1, E2, E3.
  rewrite negb_false_iff, Nat.eqb_eq in El. split_and!; [by subst|done|..|done|done|done|done|done|done].
  unfold bad_sizes in Eb. destruct (Nat.eqb_spec (length sizes) 0) as [Hz|]; [left; by destruct sizes|]. cbn in Eb. rewrite negb_false_iff, Nat.eqb_eq in Eb. by right.
Qed.

Lemma offsets_of l acc : Forall (fun b => 0 <= index b) l ->
  for_each offset_of ((fun b => set_index (index b) (ToProto b)) <$> l) acc = Ok (acc ++ (index <$> l)).
Proof.
  intros Hl. revert acc. induction Hl as [|b l Hb _ IH]; intros acc; cbn; [by rewrite app_nil_r|].
  destruct (Z.ltb_spec (index b) 0); [lia|]. by rewrite IH, <-app_assoc.
Qed.
Lemma offsets_built src dst staging sizes r : BuildTransferBuffersRequest src dst staging sizes = Ok r ->
  offsets (spec_of r) = Ok (index <$> src, index <$> dst).
Proof.
  intros (Hne & Hlen & _ & _ & Hs & Hd & Es & Ed & _)%built_request. unfold offsets, spec_of. cbn [t_src_offsets t_src_buffers t_dst_buffers length Nat.eqb negb].
  rewrite Es, Ed, !length_fmap, Hlen, Nat.eqb_refl. destruct (Nat.eqb_spec (length dst) 0) as [Hz|]; [by destruct src, dst|]. cbn [negb andb].
  by rewrite !offsets_of by done.
Qed.

(** A route keeps the blocks, the sizes and the staging blocks it is given. *)
Lemma route_keeps is_d2h is_h2d t src dst sizes c : route is_d2h is_h2d t src dst sizes = Some c ->
  call_blocks c = (src, dst) ∧ (forall z, call_sizes c = Some z -> z = sizes) ∧
  (forall st, call_staging c = Some st -> st = ((fun b => default 0 (p_index b)) <$> t_staging_host_buffers t)).
Proof.
  unfold route. destruct is_d2h; [|destruct is_h2d]; repeat case_match; intros [= <-]; by split_and!; [|intros ? [= <-]|intros ? [= <-]].
Qed.

(** The verdict on a call, by what the manager says. *)
Definition concluded (kind : string) (dispatch : ManagerCall -> StatusOr Status) (call : ManagerCall) : bool * list Frag * option ManagerCall :=
  match dispatch call with
  | Err _ msg => (false, StrCat[kind; " transfer dispatch failed: "] ++ msg, Some call)
  | Ok (Err _ msg) => (false, StrCat["Transfer execution failed: "] ++ msg, Some call)
  | Ok (Ok _) => (true, StrCat["Buffers transferred successfully"], Some call)
  end.
Lemma concluded_ok kind dispatch call : (concluded kind dispatch call).2 = Some call ∧ ((concluded kind dispatch call).1.1 = true <-> dispatch call = Ok OkStatus).
Proof. unfold concluded. by destruct (dispatch call) as [[[]|]|]. Qed.

Lemma transfer_built manager src dst staging sizes r (szs := match sizes with [] => replicate (length src) 1 | _ => sizes end)
    (s := effective (src_mem_type r) (src_buffers r)) (d := effective (dst_mem_type r) (dst_buffers r)) :
  BuildTransferBuffersRequest src dst staging sizes = Ok r ->
  let a := TransferBuffers manager (spec_of r) in
  if negb (IsD2H s d || IsH2D s d || IsH2H s d) || IsH2H s d && existsb (fun size => negb (size =? 1)) sizes then a.2 = None ∧ a.1.1 = false
  else match manager with
       | None => a.2 = None ∧ a.1.1 = false
       | Some dispatch =>
           match route (IsD2H s d) (IsH2D s d) (spec_of r) (index <$> src) (index <$> dst) szs with
           | None => a.2 = None ∧ a.1.1 = false
           | Some call => exists kind, a = concluded kind dispatch call
           end
       end.
Proof.
  intros Hb. pose proof (offsets_built _ _ _ _ _ Hb) as Ho. destruct (built_request _ _ _ _ _ Hb) as (Hne & Hlen & Hz & Ez & _).
  unfold TransferBuffers. rewrite Ho. change (t_copy_sizes (spec_of r)) with (copy_sizes r). rewrite Ez, !length_fmap.
  change (effective (t_src_mem_type (spec_of r)) (t_src_buffers (spec_of r))) with s. change (effective (t_dst_mem_type (spec_of r)) (t_dst_buffers (spec_of r))) with d.
  rewrite Hlen, Nat.eqb_refl, <-Hlen. destruct (Nat.eqb_spec (length src) 0) as [Hs0|_]; [by destruct src|]. cbn [negb orb].
  rewrite !negb_orb. destruct (negb (IsD2H s d) && negb (IsH2D s d) && negb (IsH2H s d)); [done|]. cbn [orb].
  destruct (IsH2H s d && _); [done|].
  assert (negb (length sizes =? 0)%nat && negb (length sizes =? length src)%nat = false) as ->.
  { destruct Hz as [->|Hz]; [done|]. rewrite Hz, Nat.eqb_refl. apply andb_false_r. }
  destruct manager as [dispatch|]; [|done].
  assert ((if (length sizes =? 0)%nat then replicate (length src) 1 else sizes) = szs) as -> by (unfold szs; by destruct sizes).
  destruct (route _ _ _ _ _ _) as [call|]; [|done].
  exists (if IsD2H s d then "D2H" else if IsH2D s d then "H2D" else "H2H")%string. by destruct (IsD2H s d), (IsH2D s d).
Qed.

Lemma h2h_only s d : IsH2H s d = true -> IsD2H s d = false ∧ IsH2D s d = false.
Proof. by destruct s, d. Qed.
Lemma existsb_not_one sizes : existsb (fun size => negb (size =? 1)) sizes = true <-> Exists (fun z => z ≠ 1) sizes.
Proof.
  rewrite existsb_exists, Exists_exists. setoid_rewrite negb_true_iff. setoid_rewrite Z.eqb_neq. setoid_rewrite <-list_elem_of_In. done.
Qed.

(** What a manager call says: which side is the device, and whom it talks to. *)
Definition call_direction (c : ManagerCall) : MemoryType * MemoryType :=
  match c with
  | D2h _ _ _ | D2hRead _ _ _ _ | D2hWrite _ _ _ _ _ => (MEMORY_TYPE_HBM, MEMORY_TYPE_DRAM)
  | H2d _ _ _ | H2dReadFrom _ _ _ _ _ | H2dRead _ _ _ _ _ | H2dWrite _ _ _ _ _ => (MEMORY_TYPE_DRAM, MEMORY_TYPE_HBM)
  | H2hReadFrom _ _ _ | H2hWriteTo _ _ _ | H2hRead _ _ _ | H2hWrite _ _ _ => (MEMORY_TYPE_DRAM, MEMORY_TYPE_DRAM)
  end.
Inductive Peer : Type :=
  | ReadFromAll (peers : list RaidenTransferEndpoint)
  | WriteToAll (peers : list RaidenTransferEndpoint)
  | ReadFromOne (peer : string)
  | WriteToOne (peer : string).
Definition call_peer (c : ManagerCall) : option Peer :=
  match c with
  | D2h _ _ _ | H2d _ _ _ => None
  | D2hRead p _ _ _ | H2dRead p _ _ _ _ | H2hRead p _ _ => Some (ReadFromOne p)
  | D2hWrite p _ _ _ _ | H2dWrite p _ _ _ _ | H2hWrite p _ _ => Some (WriteToOne p)
  | H2dReadFrom eps _ _ _ _ | H2hReadFrom eps _ _ => Some (ReadFromAll eps)
  | H2hWriteTo eps _ _ => Some (WriteToAll eps)
  end.

(** The memory types that can be moved: a side without one is the host, beside a device. *)
Definition supported : list (MemoryType * MemoryType) :=
  [(MEMORY_TYPE_HBM, MEMORY_TYPE_DRAM); (MEMORY_TYPE_HBM, MEMORY_TYPE_UNSPECIFIED); (MEMORY_TYPE_DRAM, MEMORY_TYPE_HBM);
   (MEMORY_TYPE_UNSPECIFIED, MEMORY_TYPE_HBM); (MEMORY_TYPE_DRAM, MEMORY_TYPE_DRAM)].
(** The peers the first buffer of each side names, those a transfer prefers first: endpoints of
    several shards before an address, the source before the destination.  A transfer from a
    device has no use for endpoints, one to a device only for those of its source. *)
Definition at_address (b : Buffer) : list string := match remote_address b with Some EmptyString | None => [] | Some a => [a] end.
Definition at_endpoints (b : Buffer) : list (list RaidenTransferEndpoint) := match remote_descriptors b with [] => [] | eps => [eps] end.
Definition meant_peers (from to : Buffer) : list Peer :=
  let addresses := (ReadFromOne <$> at_address from) ++ (WriteToOne <$> at_address to) in
  match memory_type from, memory_type to with
  | MEMORY_TYPE_HBM, _ => addresses
  | _, MEMORY_TYPE_HBM => (ReadFromAll <$> at_endpoints from) ++ addresses
  | _, _ => (ReadFromAll <$> at_endpoints from) ++ (WriteToAll <$> at_endpoints to) ++ addresses
  end.

Lemma first_address_of b l : first_address ((fun b => set_index (index b) (ToProto b)) <$> b :: l) = head (at_address b).
Proof. unfold first_address, at_address. cbn. by destruct (remote_address b) as [[]|]. Qed.
Lemma first_descriptors_of b l : first_descriptors ((fun b => set_index (index b) (ToProto b)) <$> b :: l) = remote_descriptors b.
Proof. done. Qed.
Lemma supported_iff s d : (s, d) ∈ supported <-> IsD2H s d || IsH2D s d || IsH2H s d = true.
Proof. rewrite list_elem_of_In. cbn. destruct s, d; cbn; naive_solver. Qed.
Lemma host_copy_iff s d : (s, d) = (MEMORY_TYPE_DRAM, MEMORY_TYPE_DRAM) <-> IsH2H s d = true.
Proof. by destruct s, d. Qed.
Lemma effective_of b l : effective (memory_type b) ((fun b => set_index (index b) (ToProto b)) <$> b :: l) = memory_type b.
Proof. unfold effective. cbn. by destruct (memory_type b). Qed.
Lemma built_types s0 src d0 dst staging sizes r : BuildTransferBuffersRequest (s0 :: src) (d0 :: dst) staging sizes = Ok r ->
  effective (src_mem_type r) (src_buffers r) = memory_type s0 ∧ effective (dst_mem_type r) (dst_buffers r) = memory_type d0.
Proof.
  intros Hb. destruct (built_request _ _ _ _ _ Hb) as (_ & _ & _ & _ & _ & _ & Es & Ed & _).
  assert (src_mem_type r = memory_type s0 ∧ dst_mem_type r = memory_type d0) as [Hs Hd].
  { revert Hb. unfold BuildTransferBuffersRequest. destruct (negb _); [done|]. destruct (bad_sizes _ _); [done|].
    destruct (for_each _ (s0 :: src) []); [|done]. destruct (for_each _ (d0 :: dst) []); [|done]. destruct (for_each _ staging []); [|done]. by intros [= <-]. }
  by rewrite Hs, Hd, Es, Ed, !effective_of.
Qed.

(** The route taken is the one the memory types and the peers mean. *)
Lemma route_means s0 src d0 dst t bs bd sizes (s := memory_type s0) (d := memory_type d0) :
  t_src_buffers t = ((fun b => set_index (index b) (ToProto b)) <$> s0 :: src) ->
  t_dst_buffers t = ((fun b => set_index (index b) (ToProto b)) <$> d0 :: dst) ->
  IsD2H s d || IsH2D s d || IsH2H s d = true ->
  match route (IsD2H s d) (IsH2D s d) t bs bd sizes with
  | Some c => ((call_direction c).1 = MEMORY_TYPE_HBM <-> s = MEMORY_TYPE_HBM) ∧ ((call_direction c).2 = MEMORY_TYPE_HBM <-> d = MEMORY_TYPE_HBM) ∧
      call_peer c = head (meant_peers s0 d0)
  | None => (s, d) = (MEMORY_TYPE_DRAM, MEMORY_TYPE_DRAM) ∧ meant_peers s0 d0 = []
  end.
Proof.
  intros Es Ed. unfold route, meant_peers. rewrite Es, Ed, !first_address_of, !first_descriptors_of. unfold s, d, at_endpoints.
  destruct (at_address s0) as [|a1 l1], (at_address d0) as [|a2 l2], (remote_descriptors s0), (remote_descriptors d0), (memory_type s0), (memory_type d0); by intros H.
Qed.


(** ** Instances *)

(** An allocator with room for [m] more allocations. *)
Definition demo_allocate (size : Z) (m : nat) : StatusOr Z * nat :=
  match m with O => (Err kResourceExhausted StrCat["out of memory"], O) | S m => (Ok size, m) end.

Lemma worker_create_delete_witness :
  c_buffers (CreateBuffers demo_allocate [mkBufferSpec 2 64; mkBufferSpec 1 8] (create 5%nat)).1 = [[1; 2]; [3]] ∧
  NoDup (concat (c_buffers (CreateBuffers demo_allocate [mkBufferSpec 2 64; mkBufferSpec 1 8] (create 5%nat)).1)).
Proof.
  split; [vm_compute; reflexivity|].
  apply (worker_create_delete demo_allocate [mkBufferSpec 2 64; mkBufferSpec 1 8] (create 5%nat)).
  - split; [cbn; lia|]. intros h a Ha. cbn in Ha. rewrite lookup_empty in Ha. discriminate Ha.
  - vm_compute. reflexivity.
  - vm_compute. reflexivity.
Defined.

(** A request that fails keeps what it allocated: the buffers completed before are in the
    answer, the shards of the one that failed are in no answer and cannot be deleted. *)
Lemma create_failure_leaks :
  let r := CreateBuffers demo_allocate [mkBufferSpec 3 64] (create 2%nat) in
  c_success r.1 = false ∧ c_buffers r.1 = [] ∧ GetBufferCount r.2 = 2.
Proof. by vm_compute. Qed.

Definition demo_src : list Buffer := [block_buffer MEMORY_TYPE_HBM 3; block_buffer MEMORY_TYPE_HBM 5].
Definition demo_dst : list Buffer := [block_buffer MEMORY_TYPE_DRAM 1; block_buffer MEMORY_TYPE_DRAM 2].
Definition demo_request : TransferBuffersRequest :=
  mkTransfer MEMORY_TYPE_HBM MEMORY_TYPE_DRAM ((fun b => set_index (index b) (ToProto b)) <$> demo_src)
    ((fun b => set_index (index b) (ToProto b)) <$> demo_dst) [] [].


(** A device-to-host write whose destination is given by worker groups goes to the local
    host: the request carries the peer's endpoints, the worker looks for an address only and
    copies into its own blocks with the peer's numbers. *)
Definition demo_worker : WorkerRegistration := Workers.mkWorker "worker_0" "h:1" [] (Some "h:1"%string) 0 [] 0.
Definition demo_peer : ControllerService.RaidenWorkerEndpoints := ControllerService.mkGroup 0 "worker_0" [mkEndpoint "peer:9" [0]].
Definition demo_remote : list Buffer := [set_remote_worker_endpoints [demo_peer] (block_buffer MEMORY_TYPE_DRAM 7)].
Lemma d2h_ignores_descriptors :
  let src := [block_buffer MEMORY_TYPE_HBM 3] in
  exists r, worker_request (peer_node_id_to_endpoints src demo_remote) src demo_remote [block_buffer MEMORY_TYPE_DRAM 4] [] demo_worker = Ok r ∧
    first_descriptors (dst_buffers r) = [mkEndpoint "peer:9" [0]] ∧
    TransferBuffers (Some (fun _ => Ok OkStatus)) (spec_of r) = (true, StrCat["Buffers transferred successfully"], Some (D2h [3] [7] [1])).
Proof. eexists. split; [vm_compute; reflexivity|]. by split; vm_compute. Qed.

End WorkerServiceProofs.
