(* ===== verification/KVCacheListener.v ===== *)
(** * The listener of a worker ([src/tpu_sync/kv_cache/kv_cache_listener.cc])

    The framed door to the pool executor: one [ControlRequest] per connection.  The executor
    is a parameter.  The set-up of the socket and the accept loop are not modelled.  The
    second half proves the two doors of a worker, this one and the transfer programs of the
    worker service, equivalent. *)

From S2P Require Import Prelude Bytes ReshardTypes TransferProgram ReshardService FramedRpc WorkerService.

Module KVCacheListener.
Import ReshardMessages WorkerService.

Definition HasPoolReshardFields (request : Program.StartTransferRequest) : bool :=
  negb (length (Program.transfer_pool_indices request) =? 0)%nat || negb (length (Program.pool_groups request) =? 0)%nat.

(** The [std::set] of the source blocks, filled entry by entry. *)
Definition src_id_set (request : Program.StartTransferRequest) : gset Z :=
  foldl (fun ids kv => foldl (fun ids entry => {[Program.e_src_block_id entry]} ∪ ids) ids kv.2) ∅
    (map_to_list (Program.shard_push_schedules request)).
Definition src_block_ids (request : Program.StartTransferRequest) : list Z := sort_by Z.ltb (elements (src_id_set request)).
(** The groups' destination lists, one after the other. *)
Definition chip_block_ids (request : Program.StartTransferRequest) : list Z :=
  foldl (fun ids group => ids ++ Program.g_dst_device_block_ids group) [] (Program.pool_groups request).

Section listener.
Variable execute : ExecutorCall -> Status.

(** [START_TRANSFER] with its request: the call, the answer. *)
Definition start_call (request : Program.StartTransferRequest) : ExecutorCall :=
  if HasPoolReshardFields request then
    if Program.is_sender request
    then PoolReshardPush request (src_block_ids request) (Program.parallelism request)
    else PoolReshardRegisterRecv request (chip_block_ids request)
  else if Program.is_sender request then PushKVCacheResharded request
  else RegisterActivePlan (Program.uuid request) request.

Definition answer_of (status : Status) : bool * list Frag :=
  match status with Ok _ => (true, StrCat["SUCCESS"]) | Err _ msg => (false, msg) end.

(** The answer to a request, the calls of the executor, and whether the listener stops;
    [WaitForPendingWork] delays a shutdown and its status is only logged. *)
Definition Respond (req : ControlRequest) : bool * list Frag * list ExecutorCall * bool :=
  if command req =? START_TRANSFER then
    match start_transfer_request req with
    | Some start_req => let call := start_call start_req in (answer_of (execute call), [call], false)
    | None => (false, StrCat["Missing start_transfer_request"], [], false)
    end
  else if command req =? SHUTDOWN then (true, StrCat["SUCCESS"], [], true)
  else (false, StrCat["COMMAND_UNSPECIFIED"], [], false).

(** ** The connection *)

Context `{Protobuf (list Z)}.

(** One [send], whose result is not looked at. *)
Definition send_once (data : list Z) (acc : list Z) : list Z * list Z :=
  match acc with
  | [] => ([], [])
  | w :: rest => (take (Z.to_nat w) data, rest)
  end.

(** The request, if one was read and parsed; what was sent back; whether the listener
    stops. *)
Definition ConnectionWorker (fd : Framed.Socket) : option ControlRequest * list Z * bool :=
  let '(net_len, rest) := Framed.read 4 (Framed.incoming fd) in
  if negb (length net_len =? 4)%nat then (None, [], false)
  else
    match (Framed.ReadExactly (Framed.host_len net_len) rest).1 with
    | None => (None, [], false)
    | Some buffer =>
        match get_control buffer with
        | None => (None, [], false)
        | Some req =>
            let '(success, message, _, stops) := Respond req in
            let resp_str := put_control_response (mkControlResponse success (render message) []) in
            let '(sent1, acc) := send_once (Framed.net_len (length resp_str)) (Framed.accepts fd) in
            let '(sent2, _) := send_once resp_str acc in
            (Some req, sent1 ++ sent2, stops)
        end
    end.

End listener.

(** ** The two doors *)

Lemma src_id_set_spec request x :
  x ∈ src_id_set request <-> exists rank es e, Program.shard_push_schedules request !! rank = Some es ∧ e ∈ es ∧ x = Program.e_src_block_id e.
Proof.
  unfold src_id_set.
  assert (Hin : forall (es : list Program.ShardPushEntryProto) (acc : gset Z), x ∈ foldl (fun ids entry => {[Program.e_src_block_id entry]} ∪ ids) acc es <->
    x ∈ acc ∨ exists e, e ∈ es ∧ x = Program.e_src_block_id e).
  { induction es as [|e es IH]; intros acc; cbn [foldl]; [setoid_rewrite elem_of_nil; naive_solver|].
    rewrite IH. setoid_rewrite elem_of_cons. set_solver. }
  assert (Hout : forall l (acc : gset Z), x ∈ foldl (fun ids (kv : Z * list Program.ShardPushEntryProto) => foldl (fun ids entry => {[Program.e_src_block_id entry]} ∪ ids) ids kv.2) acc l <->
    x ∈ acc ∨ exists rank es e, (rank, es) ∈ l ∧ e ∈ es ∧ x = Program.e_src_block_id e).
  { induction l as [|[rank es] l IH]; intros acc; cbn [foldl]; [setoid_rewrite elem_of_nil; naive_solver|].
    rewrite IH, Hin. setoid_rewrite elem_of_cons. naive_solver. }
  rewrite Hout. setoid_rewrite elem_of_map_to_list. set_solver.
Qed.

(** The listener's own loops compute what the worker service derives. *)
Lemma src_block_ids_derived request : src_block_ids request = Program.DeriveSenderSourceBlockIds request.
Proof.
  unfold src_block_ids, Program.DeriveSenderSourceBlockIds. do 2 f_equal. apply leibniz_equiv. intros x.
  rewrite src_id_set_spec, elem_of_list_to_set, list_elem_of_bind. setoid_rewrite list_elem_of_fmap. split.
  - intros (rank & es & e & Hes & He & ->). exists es. split; [by exists e|]. exists (rank, es). by rewrite elem_of_map_to_list.
  - intros (es & (e & -> & He) & [rank es'] & -> & Hr). cbn. exists rank, es', e. by rewrite elem_of_map_to_list in Hr.
Qed.
Lemma chip_block_ids_derived request : chip_block_ids request = Program.DeriveArmChipBlockIds request.
Proof.
  unfold chip_block_ids, Program.DeriveArmChipBlockIds.
  enough (Hg : forall gs acc, foldl (fun ids group => ids ++ Program.g_dst_device_block_ids group) acc gs = acc ++ (gs ≫= Program.g_dst_device_block_ids)) by apply Hg.
  induction gs as [|g gs IH]; intros acc; cbn; [by rewrite app_nil_r|]. by rewrite IH, <-app_assoc.
Qed.

(** A pool-reshard request that a transfer program can carry: what the program door checks
    before it executes, and nothing that the program form has no place for. *)
Record carriable (r : Program.StartTransferRequest) : Prop := {
  ca_typed : Program.request_typed r;
  ca_groups : Program.pool_groups r ≠ [];
  ca_pools : Program.transfer_pool_indices r ≠ [];
  ca_entries : exists rank es, Program.shard_push_schedules r !! rank = Some es ∧ es ≠ [];
  ca_scoped rank es e g : Program.shard_push_schedules r !! rank = Some es -> e ∈ es -> Program.e_pool_group e = Some g ->
    0 <= g < Z.of_nat (length (Program.pool_groups r));
  ca_ranks rank : Program.shard_push_schedules r !! rank ≠ Some [];
  ca_chunks : Program.expected_layer_chunk_counts r = ∅
}.

Definition class_of (r : Program.StartTransferRequest) : Program.ReshardLoweringClass :=
  if Program.is_sender r then Program.kPoolReshardSender else Program.kPoolReshardArm.

Lemma elem_of_compiled m step : step ∈ Program.compile_steps m <->
  exists rank es e, m !! rank = Some es ∧ e ∈ es ∧ step = Program.step_of rank e.
Proof.
  unfold Program.compile_steps. rewrite list_elem_of_bind. setoid_rewrite list_elem_of_fmap. destruct (Program.sorted_ranks_spec m) as [_ Hr]. split.
  - intros (rank & (e & -> & He) & [es Hes]%Hr). rewrite Hes in He. by exists rank, es, e.
  - intros (rank & es & e & Hes & He & ->). exists rank. split; [exists e; by rewrite Hes|]. apply Hr. by eexists.
Qed.

Lemma carriable_admitted r p : carriable r -> Program.CompileStartTransfer r = Ok p -> Program.NormalizeReshardProgram p = Ok (class_of r).
Proof.
  intros [Ht Hg Hp He Hs Hr Hc]. unfold Program.CompileStartTransfer. destruct (negb _); [done|]. intros [= <-].
  apply Program.normalize_ok. eexists. split; [reflexivity|by left|..]; cbn.
  - by intros ?%fmap_nil_inv.
  - done.
  - destruct He as (rank & es & Hes & Hne). destruct es as [|e es]; [done|]. intros Hnil.
    assert (Hin : Program.step_of rank e ∈ Program.compile_steps (Program.shard_push_schedules r)) by (apply elem_of_compiled; exists rank, (e :: es), e; by repeat constructor).
    rewrite Hnil in Hin. by apply elem_of_nil in Hin.
  - apply Forall_forall. intros step (rank & es & e & Hes & Hin & ->)%elem_of_compiled. rewrite length_fmap.
    split; [by eexists|]. split_and!; [done..|]. intros g. by eapply Hs.
  - unfold class_of. by destruct (Program.is_sender r).
Qed.

(** C17: the two doors of a worker are equivalent.  For every pool-reshard request that a
    program can carry, submitting the program compiled from it to the worker service makes
    the executor do exactly the one call that the listener makes when it is framed the
    request itself, on the same block lists, and answers with the same verdict. *)
Theorem doors_agree execute r :
  carriable r ->
  exists p, Program.CompileStartTransfer r = Ok p ∧
    SubmitTransferProgram (Some execute) p = (Ok (answer_of (execute (start_call r))), [start_call r]) ∧
    Respond execute (mkControl START_TRANSFER [] (Some r) None) = (answer_of (execute (start_call r)), [start_call r], false).
Proof.
  intros Hc. assert (Hf : Program.HasPoolReshardFields r = true).
  { unfold Program.HasPoolReshardFields. pose proof (ca_pools _ Hc). by destruct (Program.transfer_pool_indices r). }
  destruct (Program.compile_lower_spec r (ca_typed _ Hc) Hf) as (p & Hp & Hl & Hsame). exists p. split; [done|]. split; [|done].
  rewrite (proj2 Hsame) in Hl by (split; [apply ca_ranks|apply ca_chunks]; done).
  unfold SubmitTransferProgram. rewrite (carriable_admitted r p Hc Hp), Hl.
  assert (Hcall : start_call r = match class_of r with
    | Program.kPoolReshardSender => PoolReshardPush r (Program.DeriveSenderSourceBlockIds r) (Program.parallelism r)
    | Program.kPoolReshardArm => PoolReshardRegisterRecv r (Program.DeriveArmChipBlockIds r) end).
  { unfold start_call, class_of, HasPoolReshardFields. rewrite (Program.length_nonzero _ (ca_groups _ Hc)), orb_true_r.
    rewrite src_block_ids_derived, chip_block_ids_derived. by destruct (Program.is_sender r). }
  by rewrite <-Hcall.
Qed.

(** The listener takes its header from a single [read]: a frame whose first portion ends
    inside the header is dropped, where the framed server reads on. *)
Theorem split_header_dropped `{Protobuf (list Z)} execute handler body k acc :
  (0 < k < 4)%nat -> Framed.fits body ->
  let fd := Framed.mkSocket [Framed.Data (take k (Framed.frame body)); Framed.Data (drop k (Framed.frame body))] acc in
  ConnectionWorker execute fd = (None, [], false) ∧ (Framed.ServeConnection handler fd).1 = Some body.
Proof.
  intros Hk Hf fd. pose proof (Framed.length_frame body) as Hlen. split.
  - unfold ConnectionWorker. destruct (Framed.read 4 (Framed.incoming fd)) as [hdr rest] eqn:Er.
    assert (length hdr = k) as ->.
    { unfold fd in Er. cbn [Framed.incoming Framed.read] in Er. injection Er as <- _. rewrite !length_take, Hlen. lia. }
    by destruct (Nat.eqb_spec k 4); [lia|].
  - pose proof (Framed.serve_spec handler fd body (length (Framed.frame body))) as Hs.
    rewrite Nat.leb_refl in Hs. apply Hs; [|done]. unfold fd. cbn [Framed.incoming]. rewrite (take_ge (Framed.frame body) (length (Framed.frame body))) by done.
    destruct (take k (Framed.frame body)) as [|b bs] eqn:Et; [apply (f_equal length) in Et; rewrite length_take in Et; cbn in Et; lia|].
    destruct (drop k (Framed.frame body)) as [|c cs] eqn:Ed; [apply (f_equal length) in Ed; rewrite length_drop in Ed; cbn in Ed; lia|].
    cbn [Framed.stream]. by rewrite app_nil_r, <-Et, <-Ed, take_drop.
Qed.

(** ** Instances *)

Lemma example_carriable : carriable Program.example_start.
Proof.
  split; [apply Program.example_start_typed|done..| | | |done].
  - exists 1, [Program.example_entry 3 7 None]. done.
  - intros rank es e g Hes He Hg. cbn [Program.shard_push_schedules Program.example_start] in Hes.
    apply lookup_insert_Some in Hes as [[_ <-]|[_ Hes]]; [|apply lookup_insert_Some in Hes as [[_ <-]|[_ Hes]]; [|done]];
      rewrite !elem_of_cons, elem_of_nil in He; destruct He as [->|He]; try (destruct He as [->|He]); try done; cbn in Hg; injection Hg as <-; by cbn.
  - intros rank Hes. cbn [Program.shard_push_schedules Program.example_start] in Hes.
    apply lookup_insert_Some in Hes as [[_ ?]|[_ Hes]]; [done|]. by apply lookup_insert_Some in Hes as [[_ ?]|[_ Hes]].
Qed.

Lemma doors_agree_witness :
  exists p, Program.CompileStartTransfer Program.example_start = Ok p ∧
    SubmitTransferProgram (Some (fun _ => Err kInternal StrCat["busy"])) p =
      (Ok (false, StrCat["busy"]), [PoolReshardPush Program.example_start [2; 3; 4] 2]).
Proof.
  destruct (doors_agree (fun _ => Err kInternal StrCat["busy"]) Program.example_start example_carriable) as (p & Hp & Hs & _).
  exists p. split; [exact Hp|]. rewrite Hs. vm_compute. reflexivity.
Defined.

End KVCacheListener.
