(* ===== verification/KVManagerHolder.v ===== *)
(** * The type-erased transfer manager ([src/tpu_sync/core/kv_manager_holder.h])

    [KVManagerHolder] forwards a call to the manager it wraps, in the form that manager has:
    the presence of a method is a boolean of [Methods], decided by the traits at the top of
    the file.  Offsets of host-to-host calls become [int] block ids, with a range check. *)

From S2P Require Import Prelude ReshardTypes WorkerRegistry TransferProgram RaidenController WorkerService WorkerServiceProofs.
Import Workers.

Module KVManagerHolder.
Import WorkerService.

(** ** The wrapped manager *)

(** Which methods it has. *)
Record Methods : Type := mkMethods {
  has_h2d_write : bool;
  has_h2d_read : bool;
  has_d2h_write : bool;
  has_d2h_read : bool;
  has_vector_h2h_write : bool;
  has_vector_h2h_read : bool;
  has_vector_h2h_read_explicit : bool;
  has_peer_h2h_read_explicit : bool;
  has_vector_h2d_read : bool;
  has_pool_reshard_push : bool;
  has_pool_reshard_register_recv : bool
}.

(** Its calls.  A plain [H2hRead] allocates its destination blocks itself. *)
Inductive ImplCall : Type :=
  | ImplDirect (c : ManagerCall)
  | ImplH2hRead (peer : string) (src : list Z)
  | ImplH2hReadFrom (peers : list RaidenTransferEndpoint) (src : list Z)
  | ImplH2hReadExplicit (peer : string) (src dst : list Z)
  | ImplH2hReadExplicitFrom (peers : list RaidenTransferEndpoint) (src dst : list Z)
  | ImplH2hWrite (peer : string) (src dst : list Z)
  | ImplH2hWriteTo (peers : list RaidenTransferEndpoint) (src dst : list Z).

Definition cast_offset (ids : list Z) (offset : Z) : StatusOr (list Z) :=
  if (offset <? int32_min) || (int32_max <? offset) then Err kInvalidArgument StrCat["Offset "; offset; " overflows int"]
  else Ok (ids ++ [offset]).
Definition SafeCastOffsets (offsets : list Z) : StatusOr (list Z) := for_each cast_offset offsets [].

Section model.
Variable T : Methods.

Definition unimplemented (what : string) : StatusOr ImplCall :=
  Err kUnimplemented StrCat[what; " is not implemented by the underlying transfer manager."].
Definition first_endpoint (peers : list RaidenTransferEndpoint) : string :=
  match peers with [] => EmptyString | e :: _ => endpoint e end.
Definition nonempty {A} (l : list A) : bool := negb (length l =? 0)%nat.

Definition model_H2hRead (peer : string) (src dst : list Z) : StatusOr ImplCall :=
  let? src_ids := SafeCastOffsets src in
  if has_peer_h2h_read_explicit T && nonempty dst then
    let? dst_ids := SafeCastOffsets dst in Ok (ImplH2hReadExplicit peer src_ids dst_ids)
  else Ok (ImplH2hRead peer src_ids).

Definition model_H2hWrite (peer : string) (src dst : list Z) : StatusOr ImplCall :=
  let? src_ids := SafeCastOffsets src in
  let? dst_ids := SafeCastOffsets dst in
  Ok (ImplH2hWrite peer src_ids dst_ids).

Definition model_H2hReadFrom (peers : list RaidenTransferEndpoint) (src dst : list Z) : StatusOr ImplCall :=
  let? src_ids := SafeCastOffsets src in
  let plain := if has_vector_h2h_read T then Ok (ImplH2hReadFrom peers src_ids) else Ok (ImplH2hRead (first_endpoint peers) src_ids) in
  if has_vector_h2h_read_explicit T then
    if nonempty dst then let? dst_ids := SafeCastOffsets dst in Ok (ImplH2hReadExplicitFrom peers src_ids dst_ids) else plain
  else if has_peer_h2h_read_explicit T then
    if nonempty dst && nonempty peers then
      let? dst_ids := SafeCastOffsets dst in Ok (ImplH2hReadExplicit (first_endpoint peers) src_ids dst_ids)
    else plain
  else plain.

Definition model_H2hWriteTo (peers : list RaidenTransferEndpoint) (src dst : list Z) : StatusOr ImplCall :=
  let? src_ids := SafeCastOffsets src in
  let? dst_ids := SafeCastOffsets dst in
  if has_vector_h2h_write T then Ok (ImplH2hWriteTo peers src_ids dst_ids) else Ok (ImplH2hWrite (first_endpoint peers) src_ids dst_ids).

Definition model_H2dRead (peer : string) (src staging dst sizes : list Z) : StatusOr ImplCall :=
  if has_h2d_read T then Ok (ImplDirect (H2dRead peer src staging dst sizes)) else unimplemented "H2dRead".

(** [Model<T>]: the call the wrapped manager is given. *)
Definition model (c : ManagerCall) : StatusOr ImplCall :=
  match c with
  | D2h _ _ _ | H2d _ _ _ => Ok (ImplDirect c)
  | H2hRead peer src dst => model_H2hRead peer src dst
  | H2hWrite peer src dst => model_H2hWrite peer src dst
  | H2hReadFrom peers src dst => model_H2hReadFrom peers src dst
  | H2hWriteTo peers src dst => model_H2hWriteTo peers src dst
  | H2dWrite _ _ _ _ _ => if has_h2d_write T then Ok (ImplDirect c) else unimplemented "H2dWrite"
  | H2dRead peer src staging dst sizes => model_H2dRead peer src staging dst sizes
  | H2dReadFrom peers src staging dst sizes =>
      if has_vector_h2d_read T then Ok (ImplDirect c) else model_H2dRead (first_endpoint peers) src staging dst sizes
  | D2hWrite _ _ _ _ _ => if has_d2h_write T then Ok (ImplDirect c) else unimplemented "D2hWrite"
  | D2hRead _ _ _ _ => if has_d2h_read T then Ok (ImplDirect c) else unimplemented "D2hRead"
  end.

Definition model_execute (c : ExecutorCall) : StatusOr ExecutorCall :=
  match c with
  | PoolReshardPush _ _ _ =>
      if has_pool_reshard_push T then Ok c
      else Err kUnimplemented StrCat["PoolReshardPush is not implemented by the underlying transfer manager."]
  | PoolReshardRegisterRecv _ _ =>
      if has_pool_reshard_register_recv T then Ok c
      else Err kUnimplemented StrCat["PoolReshardRegisterRecv is not implemented by the underlying transfer manager."]
  | _ => Ok c
  end.
End model.

(** [KVManagerHolder]: [self] is absent in an empty holder. *)
Definition holder (self : option Methods) (c : ManagerCall) : StatusOr ImplCall :=
  match self with None => Err kInternal StrCat["KVManagerHolder is null"] | Some T => model T c end.
Definition holder_execute (self : option Methods) (c : ExecutorCall) : StatusOr ExecutorCall :=
  match self with None => Err kInternal StrCat["KVManagerHolder is null"] | Some T => model_execute T c end.

(** ** What reaches the manager *)

Lemma cast_offsets offs ids : SafeCastOffsets offs = Ok ids <-> ids = offs ∧ Forall in_int32 offs.
Proof.
  unfold SafeCastOffsets. enough (Hg : forall acc, for_each cast_offset offs acc = Ok ids <-> ids = acc ++ offs ∧ Forall in_int32 offs) by apply Hg.
  induction offs as [|o offs IH]; intros acc; cbn [for_each].
  { rewrite app_nil_r. split; [intros [= <-]; by split|by intros [-> _]]. }
  unfold cast_offset. rewrite Forall_cons. unfold in_int32 at 1. destruct (_ || _) eqn:Eo; to_prop; cbv iota.
  - split; [done|]. intros (_ & Hr & _). lia.
  - rewrite IH, <-app_assoc. cbn. intuition lia.
Qed.

(** The blocks of a call; the destination of an allocating read is not the caller's. *)
Definition impl_blocks (c : ImplCall) : list Z * option (list Z) :=
  match c with
  | ImplDirect c => ((WorkerServiceProofs.call_blocks c).1, Some (WorkerServiceProofs.call_blocks c).2)
  | ImplH2hRead _ src | ImplH2hReadFrom _ src => (src, None)
  | ImplH2hReadExplicit _ src dst | ImplH2hReadExplicitFrom _ src dst | ImplH2hWrite _ src dst | ImplH2hWriteTo _ src dst => (src, Some dst)
  end.

Definition host_read (c : ManagerCall) : bool := match c with H2hRead _ _ _ | H2hReadFrom _ _ _ => true | _ => false end.

(** The holder changes no block: the wrapped manager is given the caller's source blocks
    and the caller's destination blocks.  The destination is left to the manager only for
    a host read, when the caller named none or the manager has no read that takes one. *)
Theorem holder_keeps_blocks self c i : holder self c = Ok i ->
  (impl_blocks i).1 = (WorkerServiceProofs.call_blocks c).1 ∧
  ((impl_blocks i).2 = Some (WorkerServiceProofs.call_blocks c).2 ∨
   (impl_blocks i).2 = None ∧ host_read c = true ∧
   ((WorkerServiceProofs.call_blocks c).2 = [] ∨ exists T, self = Some T ∧
      match c with H2hRead _ _ _ => has_peer_h2h_read_explicit T = false
                 | H2hReadFrom peers _ _ => has_vector_h2h_read_explicit T = false ∧ (has_peer_h2h_read_explicit T = false ∨ peers = [])
                 | _ => False end)).
Proof.
  destruct self as [T|]; [|done]. cbn [holder].
  assert (Hne : forall {A} (l : list A), nonempty l = false -> l = []) by (intros A l; unfold nonempty; by destruct l).
  destruct c; cbn [model]; unfold model_H2hRead, model_H2hWrite, model_H2hReadFrom, model_H2hWriteTo, model_H2dRead, unimplemented; cbv zeta; intros Hm;
    repeat case_match; simplify_eq; repeat match goal with H : SafeCastOffsets _ = Ok _ |- _ => apply cast_offsets in H as [-> _] end; cbn;
    (split; [done|]); first [by left|right]; (do 2 (split; [done|]));
    repeat match goal with H : _ && _ = false |- _ => apply andb_false_iff in H as [H|H] | H : nonempty _ = false |- _ => apply Hne in H end;
    try (by left); right; exists T; (split; [done|]); try done; (split; [done|]); first [by left|by right].
Qed.

End KVManagerHolder.
