(* ===== verification/PoolPlanCheck.v ===== *)
(** * Plan validation of the pool executor

    [src/tpu_sync/core/kv_cache_manager_with_transfer.cc]: a worker checks a pool plan
    against its own pool table before any byte is staged or received
    ([ValidatePoolReshardPlan], [ValidatePoolReshardReceiverCoverage] and the span
    predicates they use).  The pool table and the shard count of the manager are the
    section's variables; hash sets are [gset]s, hash maps [gmap]s; the schedules of a plan
    are walked in the order of [map_to_list].  A result [None] is a null [PoolSpec]
    dereferenced (the loop of [RegionsCoverRange] always ends within its fuel). *)

From stdpp Require Import strings.
From S2P Require Import Prelude PoolLayout ReshardTypes TransferProgram.

Module PlanCheck.

Abbreviation Plan := Program.StartTransferRequest.
Abbreviation Entry := Program.ShardPushEntryProto.
Abbreviation Group := Program.PoolGroupProto.

(** [entry.pool_group()]: an unset optional field reads as zero. *)
Definition pool_group (entry : Entry) : Z := default 0 (Program.e_pool_group entry).

(** ** Strided spans *)

Definition StridedSpanFitsBlock (offset stride size count block_size : Z) : bool :=
  if (offset <? 0) || (stride <? 0) || (size <=? 0) || (count <=? 0) || (block_size <=? 0) ||
     (block_size <? offset) || (block_size - offset <? size)
  then false
  else if count =? 1 then true
  else
    let remaining := block_size - offset - size in
    stride <=? Z.quot remaining (count - 1).

Definition StridedSpanFitsRegions (offset stride size count block_size : Z)
    (regions : list Pool.RegionSpec) : option bool :=
  if negb (StridedSpanFitsBlock offset stride size count block_size) then Some false
  else
    foldl (fun acc repeat =>
             match acc with
             | Some true =>
                 let start := wrap64 (offset + wrap64 (repeat * stride)) in
                 Pool.RegionsCoverRange regions (u64 start) (u64 (wrap64 (start + size)))
             | _ => acc
             end) (Some true) (zrange 0 count).

(** ** Loops whose body may fault *)

Fixpoint run_each {A S} (body : S -> A -> option (StatusOr S)) (l : list A) (s : S) : option (StatusOr S) :=
  match l with
  | [] => Some (Ok s)
  | x :: l' =>
      match body s x with
      | Some (Ok s') => run_each body l' s'
      | r => r
      end
  end.

Section manager.
Context (pools : list Pool.PoolSpec) (num_shards : Z).

(** [KVCacheManagerBase::pool]: a pointer into the pool table or null. *)
Definition pool (pool_idx : Z) : option Pool.PoolSpec :=
  if Z.of_nat (length pools) <=? pool_idx then None else pools !! Z.to_nat pool_idx.
Definition num_pools : Z := Z.of_nat (length pools).

(** ** [ValidatePoolReshardReceiverCoverage] *)

Definition kMaxExpandedRepeats : Z := 1048576.

Record GroupState : Type := mkGroupState {
  segments : list Pool.PoolLiveSegment;
  live_bytes : Z;
  ordinals : gmap Z nat;
  coverage : list (list (Z * Z));
  pairs_by_sender : gmap Z (gset (string * Z * Z))
}.

(** The [GroupView]s are the groups of the message; this loop collects their pools. *)
Definition group_pool_step (grouped_pools : gset Z) (pool_idx : Z) : StatusOr (gset Z) :=
  if (pool_idx <? 0) || bool_decide (pool_idx ∈ grouped_pools) then
    Err kInvalidArgument StrCat["group pool indices must be unique and non-negative"]
  else Ok ({[pool_idx]} ∪ grouped_pools).

Definition grouped (plan : Plan) : StatusOr (gset Z) :=
  for_each (fun s group => for_each group_pool_step (Program.g_pool_indices group) s)
    (Program.pool_groups plan) ∅.

Definition segments_step (group_idx : Z) (segs : list Pool.PoolLiveSegment) (pool_idx : Z) :
    StatusOr (list Pool.PoolLiveSegment) :=
  match pool pool_idx with
  | None => Err kInvalidArgument StrCat["group pool index out of range: "; pool_idx]
  | Some spec =>
      let? segments := Pool.ExpandPoolLiveSegments spec in
      match segs with
      | [] => Ok segments
      | _ =>
          if bool_decide (segs = segments) then Ok segs
          else Err kInvalidArgument
                 StrCat["group "; group_idx; " pools must share one live-region map; pool "; pool_idx; " disagrees"]
      end
  end.

Definition extent_check (group_idx live : Z) (extents : list Z) (ordinal : nat) (extent : Z) : Status :=
  if (extent <=? 0) || (live <? extent) then
    Err kInvalidArgument
      StrCat["extent "; extent; " for destination block ordinal "; Z.of_nat ordinal; " of group ";
             group_idx; " is outside (0, "; live; "]"]
  else if negb (ordinal =? length extents - 1)%nat && negb (extent =? live) then
    Err kInvalidArgument StrCat["extents must cover every destination block fully except the final one"]
  else OkStatus.

Definition indexed {A} (l : list A) : list (nat * A) := zip (seq 0 (length l)) l.

(** The state of one group, before any entry. *)
Definition group_state (group_idx : Z) (view : Group) : StatusOr GroupState :=
  let dst_ids := Program.g_dst_device_block_ids view in
  let extents := Program.g_dst_expected_extent_bytes view in
  if bool_decide (Program.g_pool_indices view = []) then
    Err kInvalidArgument StrCat["group "; group_idx; " declares no pools"]
  else
    let? segs := for_each (segments_step group_idx) (Program.g_pool_indices view) [] in
    let live := foldl (fun acc s => wrap64 (acc + Pool.size s)) 0 segs in
    if live <=? 0 then
      Err kInvalidArgument StrCat["group "; group_idx; " has no live destination bytes"]
    else if bool_decide (extents = []) then
      Err kInvalidArgument StrCat["receiver plans require dst_expected_extent_bytes"]
    else if negb (length extents =? length dst_ids)%nat then
      Err kInvalidArgument
        StrCat["group "; group_idx; " extents do not match its destination block count: got ";
               Z.of_nat (length extents); ", expected "; Z.of_nat (length dst_ids)]
    else
      let? _ := for_each (fun _ oe => extent_check group_idx live extents oe.1 oe.2) (indexed extents) tt in
      Ok {| segments := segs;
            live_bytes := live;
            ordinals := foldl (fun m oi => <[oi.2 := oi.1]> m) ∅ (indexed dst_ids);
            coverage := replicate (length dst_ids) [];
            pairs_by_sender := ∅ |}.

Definition group_states (plan : Plan) : StatusOr (list GroupState) :=
  for_each (fun states iv => let? st := group_state (Z.of_nat iv.1) iv.2 in Ok (states ++ [st]))
    (indexed (Program.pool_groups plan)) [].

(** One repeat of an entry: the compact-live range it lands on. *)
Definition repeat_range (entry : Entry) (segs : list Pool.PoolLiveSegment) (extent : Z)
    (ranges : list (Z * Z)) (repeat : Z) : StatusOr (list (Z * Z)) :=
  let physical := wrap64 (Program.e_dst_offset_bytes entry + wrap64 (repeat * Program.e_dst_stride_bytes entry)) in
  match Pool.PhysicalLiveRangeToLogical segs physical (Program.e_size_bytes entry) with
  | Err _ msg =>
      Err kInvalidArgument
        (StrCat["reshard entry for destination block "; Program.e_dst_block_id entry;
                " crosses padding or lies outside declared live regions: "] ++ msg)
  | Ok range =>
      if extent <? range.2 then
        Err kInvalidArgument
          StrCat["reshard entry exceeds destination block "; Program.e_dst_block_id entry;
                 " declared live tail: end="; range.2; " extent="; extent]
      else Ok (ranges ++ [range])
  end.

(** One entry: its ranges are appended to its block's coverage, its pair to its sender. *)
Definition coverage_entry (groups : list Group) (source_rank : Z) (st : Z * list GroupState) (entry : Entry) :
    StatusOr (Z * list GroupState) :=
  let '(expanded_repeats, states) := st in
  let group_idx := u64 (pool_group entry) in
  let bad_group := Err kInvalidArgument StrCat["reshard entry declares an unknown pool group "; group_idx] in
  if Z.of_nat (length states) <=? group_idx then bad_group
  else
    match states !! Z.to_nat group_idx, groups !! Z.to_nat group_idx with
    | Some state, Some view =>
        match ordinals state !! Program.e_dst_block_id entry with
        | None =>
            Err kInvalidArgument
              StrCat["reshard entry targets destination block "; Program.e_dst_block_id entry;
                     " outside its group "; group_idx; " destination set"]
        | Some ordinal =>
            let extent := default 0 (Program.g_dst_expected_extent_bytes view !! ordinal) in
            let expanded_repeats := wrap64 (expanded_repeats + Program.e_count entry) in
            if kMaxExpandedRepeats <? expanded_repeats then
              Err kInvalidArgument StrCat["receiver plan exceeds the repeat expansion bound"]
            else
              let? ranges := for_each (repeat_range entry (segments state) extent)
                               (zrange 0 (Program.e_count entry)) [] in
              let state' :=
                {| segments := segments state;
                   live_bytes := live_bytes state;
                   ordinals := ordinals state;
                   coverage := alter (fun c => c ++ ranges) ordinal (coverage state);
                   pairs_by_sender :=
                     <[source_rank :=
                       {[(Program.e_dst_peer entry, Program.e_src_block_id entry, Program.e_dst_block_id entry)]}
                       ∪ default ∅ (pairs_by_sender state !! source_rank)]> (pairs_by_sender state) |} in
              Ok (expanded_repeats, <[Z.to_nat group_idx := state']> states)
        end
    | _, _ => bad_group
    end.

(** The sorted intervals of a block chain from byte zero. *)
Definition chain_step (block_id : Z) (covered_until : Z) (iv : Z * Z) : StatusOr Z :=
  if negb (iv.1 =? covered_until) then
    Err kInvalidArgument
      StrCat["receiver schedule has a destination coverage "; FStr (if iv.1 <? covered_until then "overlap"%string else "gap"%string);
             " for block "; block_id; " at byte "; iv.1]
  else Ok iv.2.

Definition block_covered (intervals : list (Z * Z)) (block_id extent : Z) : Status :=
  let? covered_until := for_each (chain_step block_id) (sort_by pair_ltb intervals) 0 in
  if negb (covered_until =? extent) then
    Err kInvalidArgument
      StrCat["receiver schedule does not cover the exact live bytes for destination block ";
             block_id; ": covered="; covered_until; " expected="; extent]
  else OkStatus.

Definition calculated_pushes (parallelism : Z) (state : GroupState) : Z :=
  foldl (fun acc (kv : Z * gset (string * Z * Z)) => wrap64 (acc + Z.min parallelism (Z.of_nat (base.size kv.2))))
    0 (map_to_list (pairs_by_sender state)).

Definition group_covered (parallelism group_idx : Z) (view : Group) (state : GroupState) : Status :=
  let calculated := calculated_pushes parallelism state in
  if negb (calculated =? Program.g_expected_pushes view) then
    Err kInvalidArgument
      StrCat["expected pushes for group "; group_idx; " do not match the received schedules: declared=";
             Program.g_expected_pushes view; " recomputed="; calculated]
  else
    for_each (fun _ (ob : nat * Z) =>
                block_covered (default [] (coverage state !! ob.1)) ob.2
                  (default 0 (Program.g_dst_expected_extent_bytes view !! ob.1)))
      (indexed (Program.g_dst_device_block_ids view)) tt.

Definition ValidatePoolReshardReceiverCoverage (plan : Plan) : Status :=
  let groups := Program.pool_groups plan in
  let partition_error :=
    Err kInvalidArgument StrCat["group pool indices do not partition the plan's transfer pools"] in
  let? grouped_pools := grouped plan in
  if negb (Z.of_nat (base.size grouped_pools) =? Z.of_nat (length (Program.transfer_pool_indices plan))) then partition_error
  else if negb (forallb (fun pool_idx => bool_decide (pool_idx ∈ grouped_pools)) (Program.transfer_pool_indices plan))
  then partition_error
  else
    let parallelism := Program.parallelism plan in
    if parallelism <=? 0 then
      Err kInvalidArgument StrCat["receiver plans require positive parallelism for push accounting"]
    else
      let? states := group_states plan in
      let? st := for_each (fun st sched => for_each (coverage_entry groups sched.1) sched.2 st)
                   (map_to_list (Program.shard_push_schedules plan)) (0, states) in
      for_each (fun _ (ivs : nat * (Group * GroupState)) =>
                  group_covered parallelism (Z.of_nat ivs.1) ivs.2.1 ivs.2.2)
        (indexed (zip groups st.2)) tt.

(** ** [ValidatePoolReshardPlan] *)

(** [receiver_blocks_with_zero_start] and [entry_count]. *)
Abbreviation EntryScan := (Z * gset Z)%type.

(** A destination run of the receiver's groups against the flat list of local ids. *)
Definition recv_id_step (local_block_ids : list Z) (st : gset Z * nat) (block_id : Z) : StatusOr (gset Z * nat) :=
  let '(group_ids, cursor) := st in
  if bool_decide (block_id ∈ group_ids) then
    Err kInvalidArgument StrCat["group destination block ids must be unique"]
  else if negb (bool_decide (local_block_ids !! cursor = Some block_id)) then
    Err kInvalidArgument StrCat["pool group block ids must concatenate to the plan's local block ids"]
  else Ok ({[block_id]} ∪ group_ids, S cursor).

Definition recv_group_step (local_block_ids : list Z) (cursor : nat) (group : Group) : StatusOr nat :=
  let? st := for_each (recv_id_step local_block_ids) (Program.g_dst_device_block_ids group) (∅, cursor) in
  Ok st.2.

Definition receiver_ids_check (plan : Plan) (local_block_ids : list Z) : Status :=
  let? cursor := for_each (recv_group_step local_block_ids) (Program.pool_groups plan) 0%nat in
  if negb (cursor =? length local_block_ids)%nat then
    Err kInvalidArgument StrCat["pool group block ids must cover the plan's local block ids"]
  else OkStatus.

Definition declared_pool_step (plan : Plan) (local_block_ids : list Z) (declared_pools : gset Z) (pool_idx : Z) :
    StatusOr (gset Z) :=
  if pool_idx <? 0 then Err kInvalidArgument StrCat["transfer pool index must be non-negative"]
  else if bool_decide (pool_idx ∈ declared_pools) then
    Err kInvalidArgument StrCat["duplicate transfer pool index "; pool_idx]
  else
    match pool pool_idx with
    | None => Err kInvalidArgument StrCat["transfer pool index out of range: "; pool_idx]
    | Some spec =>
        let tag := default EmptyString (Program.pool_dtype_tags plan !! Z.to_nat pool_idx) in
        if negb (bool_decide (tag = Pool.dtype_tag spec)) then
          Err kInvalidArgument
            StrCat["plan dtype tag mismatch for pool "; pool_idx; " ("; Pool.tag spec; "): plan="; tag;
                   " local="; Pool.dtype_tag spec]
        else
          match List.find (fun block_id : Z => Pool.num_blocks spec <=? block_id) local_block_ids with
          | Some block_id =>
              Err kInvalidArgument
                StrCat["local block id "; block_id; " is out of range for pool "; pool_idx]
          | None => Ok ({[pool_idx]} ∪ declared_pools)
          end
    end.

Definition entry_fields_bad (entry : Entry) : bool :=
  (Program.e_src_block_id entry <? 0) || (int32_max <? Program.e_src_block_id entry) ||
  (Program.e_dst_block_id entry <? 0) || (int32_max <? Program.e_dst_block_id entry) ||
  (Program.e_dst_shard_idx entry <? 0) || (Program.e_src_offset_bytes entry <? 0) ||
  (Program.e_dst_offset_bytes entry <? 0) || (Program.e_size_bytes entry <=? 0) ||
  (Program.e_src_stride_bytes entry <? 0) || (Program.e_dst_stride_bytes entry <? 0) ||
  (Program.e_count entry <=? 0) || (1048576 <? Program.e_count entry).

(** The span of an entry on the local side, against every pool of its group. *)
Definition span_step (is_sender : bool) (entry : Entry) (_ : unit) (pool_idx : Z) : option Status :=
  let local_id := if is_sender then Program.e_src_block_id entry else Program.e_dst_block_id entry in
  let local_offset := if is_sender then Program.e_src_offset_bytes entry else Program.e_dst_offset_bytes entry in
  let local_stride := if is_sender then Program.e_src_stride_bytes entry else Program.e_dst_stride_bytes entry in
  match pool (u64 pool_idx) with
  | None => None
  | Some spec =>
      match StridedSpanFitsRegions local_offset local_stride (Program.e_size_bytes entry) (Program.e_count entry)
              (Pool.block_stride_bytes spec) (Pool.regions spec) with
      | None => None
      | Some true => Some OkStatus
      | Some false =>
          Some (Err kInvalidArgument
            StrCat[FStr (if is_sender then "source"%string else "destination"%string);
                   " span exceeds declared pool "; u64 pool_idx; " live regions in block "; local_id; ": offset=";
                   local_offset; " stride="; local_stride; " size="; Program.e_size_bytes entry; " count=";
                   Program.e_count entry; " block_stride_bytes="; Pool.block_stride_bytes spec])
      end
  end.

Definition entry_step (plan : Plan) (is_sender : bool) (local_ids : gset Z) (st : EntryScan) (entry : Entry) :
    option (StatusOr EntryScan) :=
  let '(entry_count, zero_start) := st in
  let entry_count := u64 (entry_count + 1) in
  let local_id := if is_sender then Program.e_src_block_id entry else Program.e_dst_block_id entry in
  if bool_decide (Program.e_dst_peer entry = EmptyString) then
    Some (Err kInvalidArgument StrCat["reshard entry dst_peer must be non-empty"])
  else if entry_fields_bad entry then
    Some (Err kInvalidArgument StrCat["reshard entry contains invalid ids, offsets, sizes, or strides"])
  else if (1 <? Program.e_count entry) &&
          ((Program.e_src_stride_bytes entry =? 0) || (Program.e_dst_stride_bytes entry =? 0)) then
    Some (Err kInvalidArgument StrCat["multi-chunk reshard entries require positive strides"])
  else if negb is_sender && (num_shards <=? u64 (Program.e_dst_shard_idx entry)) then
    Some (Err kInvalidArgument
      StrCat["destination shard index "; Program.e_dst_shard_idx entry; " is out of range: receiver has ";
             num_shards; " shards"])
  else if negb (bool_decide (local_id ∈ local_ids)) then
    Some (Err kInvalidArgument
      StrCat[FStr (if is_sender then "source"%string else "destination"%string); " block id "; local_id;
             " is absent from the local block-id list"])
  else
    let zero_start :=
      if negb is_sender && (Program.e_dst_offset_bytes entry =? 0)
      then {[Program.e_dst_block_id entry]} ∪ zero_start else zero_start in
    let group_idx := pool_group entry in
    if group_idx <? 0 then
      Some (Err kInvalidArgument StrCat["reshard entry declares an unknown pool group "; group_idx])
    else
      match Program.pool_groups plan !! Z.to_nat group_idx with
      | None => Some (Err kInvalidArgument StrCat["reshard entry declares an unknown pool group "; group_idx])
      | Some group =>
          match run_each (span_step is_sender entry) (Program.g_pool_indices group) tt with
          | None => None
          | Some (Err c m) => Some (Err c m)
          | Some (Ok _) => Some (Ok (entry_count, zero_start))
          end
      end.

Definition schedule_step (plan : Plan) (is_sender : bool) (local_ids : gset Z) (st : EntryScan)
    (sched : Z * list Entry) : option (StatusOr EntryScan) :=
  if sched.1 <? 0 then
    Some (Err kInvalidArgument StrCat["reshard schedule source rank must be non-negative"])
  else run_each (entry_step plan is_sender local_ids) sched.2 st.

(** The checks before the entries are scanned. *)
Definition plan_prefix_check (plan : Plan) (local_block_ids : list Z) (is_sender : bool) : Status :=
  if bool_decide (Program.req_id plan = EmptyString) then
    Err kInvalidArgument StrCat["reshard plan req_id must be non-empty"]
  else if Program.uuid plan <=? 0 then
    Err kInvalidArgument StrCat["reshard plan uuid must be positive"]
  else if negb (Program.use_block_chunks plan) then
    Err kInvalidArgument StrCat["pool reshard requires use_block_chunks=true"]
  else if bool_decide (Program.transfer_pool_indices plan = []) then
    Err kInvalidArgument StrCat["reshard plan must declare transfer_pool_indices"]
  else if bool_decide (Program.pool_groups plan = []) then
    Err kInvalidArgument
      StrCat["reshard plans must declare pool_groups (a plan is a list of groups; entries name their group)"]
  else if existsb (fun group => Program.g_expected_pushes group <=? 0) (Program.pool_groups plan) then
    Err kInvalidArgument StrCat["every pool group must expect a positive push count"]
  else if negb (Z.of_nat (length (Program.pool_dtype_tags plan)) =? num_pools) then
    Err kInvalidArgument
      StrCat["reshard plan must declare one dtype tag per pool: plan=";
             Z.of_nat (length (Program.pool_dtype_tags plan)); " local="; num_pools]
  else if bool_decide (local_block_ids = []) then
    Err kInvalidArgument StrCat["local block ids must not be empty"]
  else if existsb (fun block_id => (block_id <? 0) || (int32_max <? block_id)) local_block_ids then
    Err kInvalidArgument StrCat["local block ids must be non-negative and fit in int"]
  else
    let? _ := if is_sender then OkStatus else receiver_ids_check plan local_block_ids in
    let? _ := for_each (declared_pool_step plan local_block_ids) (Program.transfer_pool_indices plan) ∅ in
    if bool_decide (Program.shard_push_schedules plan = ∅) then
      Err kInvalidArgument StrCat["reshard plan must contain shard push schedules"]
    else OkStatus.

Definition ValidatePoolReshardPlan (plan : Plan) (local_block_ids : list Z) (is_sender : bool) : option Status :=
  let local_ids := list_to_set local_block_ids : gset Z in
  match plan_prefix_check plan local_block_ids is_sender with
  | Err c m => Some (Err c m)
  | Ok _ =>
      match run_each (schedule_step plan is_sender local_ids) (map_to_list (Program.shard_push_schedules plan)) (0, ∅) with
      | None => None
      | Some (Err c m) => Some (Err c m)
      | Some (Ok (entry_count, zero_start)) =>
          if entry_count =? 0 then Some (Err kInvalidArgument StrCat["reshard plan contains no entries"])
          else if is_sender then Some OkStatus
          else
            match List.find (fun block_id : Z => negb (bool_decide (block_id ∈ zero_start))) (elements local_ids) with
            | Some block_id =>
                Some (Err kInvalidArgument
                  StrCat["destination block "; block_id;
                         " has no transfer entry starting at offset 0; partial-page destination preservation is not implemented"])
            | None => Some (ValidatePoolReshardReceiverCoverage plan)
            end
      end
  end.

End manager.
End PlanCheck.
