(* ===== verification/PoolPlanCheckProofs.v ===== *)
(** * What plan validation accepts

    The span predicates are exact over unbounded integers, and a receiver accepts a plan
    exactly when it is well formed and writes every live byte of every destination block,
    up to the block's declared extent, exactly once. *)

From stdpp Require Import strings sorting.
From S2P Require Import Prelude PoolLayout ReshardTypes TransferProgram PoolPlanCheck.

Module PlanCheckProofs.
Import PlanCheck.

Ltac i64 := Pool.int64_unfold; lia.

(** ** Strided spans *)

Lemma strided_block_exact offset stride size count block_size :
  StridedSpanFitsBlock offset stride size count block_size = true <->
  0 <= offset /\ 0 <= stride /\ 0 < size /\ 0 < count /\
  offset + (count - 1) * stride + size <= block_size.
Proof.
  unfold StridedSpanFitsBlock.
  destruct (_ || _) eqn:E; to_prop.
  { split; [done|]. intros (? & ? & ? & ? & H). assert (0 <= (count - 1) * stride) by nia. lia. }
  destruct (count =? 1) eqn:Ec; to_prop; [split; [intros _|done]; subst; lia|].
  rewrite Z.quot_div_nonneg by lia. split.
  - intros H. split_and!; try lia. assert ((count - 1) * stride <= block_size - offset - size); [|lia].
    etrans; [|apply (Z.mul_div_le _ (count - 1)); lia]. nia.
  - intros (? & ? & ? & ? & H). apply Z.div_le_lower_bound; lia.
Qed.

(** The bytes a strided span touches. *)
Definition span_bytes (offset stride size count : Z) : list Z :=
  zrange 0 count ≫= fun r => zrange (offset + r * stride) (offset + r * stride + size).

Lemma elem_of_span_bytes offset stride size count o :
  o ∈ span_bytes offset stride size count <->
  exists r, 0 <= r < count /\ offset + r * stride <= o < offset + r * stride + size.
Proof. unfold span_bytes. rewrite list_elem_of_bind. setoid_rewrite elem_of_zrange. naive_solver. Qed.

(** A loop that stops at the first failing check. *)
Lemma check_loop {A} (f : A -> option bool) l :
  (forall x, x ∈ l -> exists b, f x = Some b) ->
  exists b, foldl (fun acc x => match acc with Some true => f x | _ => acc end) (Some true) l = Some b /\
    (b = true <-> forall x, x ∈ l -> f x = Some true).
Proof.
  assert (Hstop : forall l, foldl (fun acc x => match acc with Some true => f x | _ => acc end) (Some false) l = Some false)
    by (intros l'; induction l'; done).
  induction l as [|x l IH]; intros Hf; simpl.
  { exists true. split; [done|]. split; [|done]. intros _ x Hx. by apply elem_of_nil in Hx. }
  destruct (Hf x) as [[] Hx]; [by left|..]; rewrite Hx.
  - destruct IH as (b & Hb & Hiff); [intros y Hy; apply Hf; by right|]. exists b. split; [done|].
    rewrite Hiff. setoid_rewrite elem_of_cons. naive_solver.
  - exists false. split; [apply Hstop|]. split; [done|]. intros H. specialize (H x ltac:(by left)). congruence.
Qed.

Definition table_ok (pools : list Pool.PoolSpec) : Prop :=
  Forall (fun p => Pool.pool_int64 p /\ ok (Pool.Validate p (-1)) = true) pools.

Lemma strided_regions_spec offset stride size count block_size rs :
  Forall Pool.region_int64 rs -> Forall (Pool.region_ok block_size) rs -> block_size <= int64_max ->
  exists b, StridedSpanFitsRegions offset stride size count block_size rs = Some b /\
    (b = true <->
     StridedSpanFitsBlock offset stride size count block_size = true /\
     forall o, o ∈ span_bytes offset stride size count -> Pool.live_in rs o).
Proof.
  intros Hint Hok Hmax. unfold StridedSpanFitsRegions.
  destruct (StridedSpanFitsBlock offset stride size count block_size) eqn:Hfit; simpl;
    [|exists false; naive_solver].
  apply strided_block_exact in Hfit as (Ho & Hs & Hsz & Hc & Hend).
  assert (Hr : forall r, 0 <= r < count -> 0 <= offset + r * stride /\ offset + r * stride + size <= block_size)
    by (intros r Hr; assert (r * stride <= (count - 1) * stride) by nia; nia).
  set (f := fun repeat => let start := wrap64 (offset + wrap64 (repeat * stride)) in
         Pool.RegionsCoverRange rs (u64 start) (u64 (wrap64 (start + size)))).
  assert (Hf : forall r, 0 <= r < count ->
            f r = Pool.RegionsCoverRange rs (offset + r * stride) (offset + r * stride + size)).
  { intros r Hrange. destruct (Hr r Hrange). assert (0 <= r * stride) by nia. unfold f.
    rewrite (wrap64_id (r * stride)) by (i64).
    rewrite (wrap64_id (offset + _)) by (i64).
    rewrite (wrap64_id (offset + r * stride + size)) by (i64).
    rewrite !u64_id by (i64). done. }
  assert (Hcov : forall r, 0 <= r < count -> exists b, f r = Some b /\
            (b = true <-> forall o, offset + r * stride <= o < offset + r * stride + size -> Pool.live_in rs o)).
  { intros r Hrange. destruct (Hr r Hrange). rewrite Hf by done.
    destruct (Pool.cover_loop_total (Z.to_nat size) rs (offset + r * stride + size) (offset + r * stride)) as [b Hb]; [lia|].
    exists b. unfold Pool.RegionsCoverRange. replace (offset + r * stride + size - (offset + r * stride)) with size by lia.
    split; [done|]. eapply (Pool.cover_loop_live block_size); [by apply Forall_and|done|lia|i64|done]. }
  destruct (check_loop f (zrange 0 count)) as (b & Hb & Hiff).
  { intros r Hrange%elem_of_zrange. destruct (Hcov r Hrange) as (b & Hb & _). eauto. }
  exists b. split; [done|]. rewrite Hiff. split.
  - intros H. split; [done|]. intros o (r & Hrange & Horange)%elem_of_span_bytes.
    destruct (Hcov r Hrange) as (b' & Hb' & Hiff'). rewrite (H r) in Hb' by (by apply elem_of_zrange).
    simplify_eq. by apply Hiff'.
  - intros [_ H] r Hrange%elem_of_zrange. destruct (Hcov r Hrange) as (b' & Hb' & Hiff'). rewrite Hb'.
    f_equal. apply Hiff'. intros o Horange. apply H, elem_of_span_bytes. eauto.
Qed.

(** ** Chains of intervals *)

(** The offsets a list of intervals covers, with repetitions. *)
Definition spread (ivs : list (Z * Z)) : list Z := ivs ≫= fun i => zrange i.1 i.2.
Arguments spread : simpl never.

Lemma spread_cons i ivs : spread (i :: ivs) = zrange i.1 i.2 ++ spread ivs.
Proof. done. Qed.
Lemma spread_app ivs1 ivs2 : spread (ivs1 ++ ivs2) = spread ivs1 ++ spread ivs2.
Proof. apply bind_app. Qed.
#[local] Instance spread_perm : Proper ((≡ₚ) ==> (≡ₚ)) spread.
Proof. intros l k H. unfold spread. by rewrite H. Qed.

Lemma chain_exact b ivs c x :
  for_each (chain_step b) ivs c = Ok x -> Forall (fun i : Z * Z => i.1 < i.2) ivs ->
  c <= x /\ spread ivs = zrange c x.
Proof.
  revert c. induction ivs as [|[s e] ivs IH]; intros c; simpl.
  { intros [= <-] _. split; [lia|]. by rewrite zrange_empty by lia. }
  unfold chain_step at 1. simpl. destruct (s =? c) eqn:E; simpl; [|done]. to_prop. subst s.
  intros H [Hlt Hrest]%Forall_cons. simpl in Hlt. destruct (IH e H Hrest) as [Hle Heq].
  split; [lia|]. rewrite spread_cons, Heq. apply zrange_app. simpl. lia.
Qed.

(** A sorted list of non-empty intervals that spreads over a range chains through it. *)
Lemma chain_complete b ivs c x :
  StronglySorted (fun i j : Z * Z => i.1 <= j.1) ivs -> Forall (fun i : Z * Z => i.1 < i.2) ivs -> c <= x ->
  spread ivs ≡ₚ zrange c x -> for_each (chain_step b) ivs c = Ok x.
Proof.
  intros Hsort. revert c. induction Hsort as [|[s e] ivs Hsort IH Hfst]; intros c Hpos Hcx Hp; simpl.
  { simpl in Hp. assert (Hl : length (zrange c x) = 0%nat) by (by rewrite <-Hp). rewrite length_zrange in Hl.
    f_equal. lia. }
  apply Forall_cons in Hpos as [Hse Hpos]. rewrite spread_cons in Hp. simpl in Hse, Hp.
  assert (Hs : s ∈ zrange c x) by (rewrite <-Hp; apply elem_of_app; left; apply elem_of_zrange; lia).
  apply elem_of_zrange in Hs.
  assert (Hc : c ∈ zrange s e ++ spread ivs) by (rewrite Hp; apply elem_of_zrange; lia).
  assert (s = c) as ->.
  { apply elem_of_app in Hc as [Hc%elem_of_zrange|Hc]; [lia|].
    apply list_elem_of_bind in Hc as ([s' e'] & Hc%elem_of_zrange & Hin). rewrite Forall_forall in Hfst.
    specialize (Hfst _ Hin). simpl in *. lia. }
  unfold chain_step at 1. simpl. rewrite Z.eqb_refl. simpl.
  assert (He : e - 1 ∈ zrange c x) by (rewrite <-Hp; apply elem_of_app; left; apply elem_of_zrange; lia).
  apply elem_of_zrange in He. apply IH; [done|lia|].
  rewrite <-(zrange_app c e x) in Hp by lia. by apply (Permutation_app_inv_l (zrange c e)).
Qed.

(** A block's coverage check is exact. *)
Lemma block_covered_exact ivs b x :
  Forall (fun i : Z * Z => i.1 < i.2) ivs -> 0 <= x ->
  block_covered ivs b x = OkStatus <-> spread ivs ≡ₚ zrange 0 x.
Proof.
  intros Hpos Hx. unfold block_covered.
  assert (Hpos' : Forall (fun i : Z * Z => i.1 < i.2) (sort_by pair_ltb ivs)) by (by rewrite sort_by_perm).
  assert (Hperm : spread (sort_by pair_ltb ivs) ≡ₚ spread ivs) by (by rewrite sort_by_perm).
  split.
  - intros H. step_guard H. destruct (negb _) eqn:E; [done|]. to_prop. subst.
    apply chain_exact in Hcall as [_ Heq]; [|done]. by rewrite <-Hperm, Heq.
  - intros Hp. rewrite (chain_complete b (sort_by pair_ltb ivs) 0 x); [by rewrite Z.eqb_refl| |done|done|by rewrite Hperm].
    pose proof (sort_by_sorted pair_ltb ivs) as Hsort.
    eapply StronglySorted_ind; [constructor| |exact Hsort].
    intros i l _ IH Hi. constructor; [done|]. eapply Forall_impl; [exact Hi|].
    intros j Hij. unfold not_after, pair_ltb in Hij. simpl in *. lia.
Qed.

(** ** Loops *)

Lemma for_each_bind {A B S} (body : S -> B -> StatusOr S) (f : A -> list B) l s :
  for_each (fun s x => for_each body (f x) s) l s = for_each body (l ≫= f) s.
Proof.
  revert s. induction l as [|x l IH]; intros s; simpl; [done|]. rewrite for_each_app.
  destruct (for_each body (f x) s); [apply IH|done].
Qed.

(** A loop that inserts elements in a set, refusing the bad ones and repetitions. *)
Lemma for_each_set (body : gset Z -> Z -> StatusOr (gset Z)) (good : Z -> Prop) l s r :
  (forall s x s', body s x = Ok s' <-> good x /\ x ∉ s /\ s' = {[x]} ∪ s) ->
  for_each body l s = Ok r <->
  Forall good l /\ NoDup l /\ (forall x, x ∈ l -> x ∉ s) /\ r = list_to_set l ∪ s.
Proof.
  intros Hb. revert s. induction l as [|x l IH]; intros s; simpl.
  { split; [intros [= <-]|intros (_ & _ & _ & ->); f_equal; set_solver].
    split_and!; [constructor|constructor|set_solver|set_solver]. }
  rewrite Forall_cons, NoDup_cons. destruct (body s x) as [s'|] eqn:E.
  - apply Hb in E as (Hg & Hx & ->). rewrite IH. setoid_rewrite elem_of_cons. split.
    + intros (HG & Hnd & Hfresh & ->). split_and!; try done; [|set_solver..].
      intros Hin. specialize (Hfresh x Hin). set_solver.
    + intros ((_ & HG) & (Hxl & Hnd) & Hfresh & ->). split_and!; try done; [|set_solver].
      intros y Hy. specialize (Hfresh y (or_intror Hy)). set_unfold. naive_solver.
  - split; [done|]. intros ((Hg & _) & _ & Hfresh & _).
    assert (body s x = Ok ({[x]} ∪ s)) by (apply Hb; split_and!; [done| |done]; apply Hfresh; by left). congruence.
Qed.

Lemma indexed_lookup {A} (l : list A) i x : (i, x) ∈ indexed l <-> l !! i = Some x.
Proof.
  unfold indexed. rewrite list_elem_of_lookup. setoid_rewrite lookup_zip_with_Some. split.
  - intros (k & a & b & [= -> ->] & Hs & Hl). apply lookup_seq in Hs as [-> _]. done.
  - intros Hl. exists i, i, x. split; [done|]. split; [|done]. apply lookup_seq. split; [done|]. by apply lookup_lt_Some in Hl.
Qed.

Lemma for_each_all {A} (check : A -> Status) l :
  for_each (fun _ x => check x) l tt = OkStatus <-> forall x, x ∈ l -> check x = OkStatus.
Proof.
  rewrite <-Forall_forall. induction l as [|x l IH]; simpl; [split; [constructor|done]|].
  rewrite Forall_cons, <-IH. destruct (check x) as [[]|]; naive_solver.
Qed.

(** ** Live segments: physical and compact-live ranges *)

(** Segments in address order with a gap between neighbours. *)
Fixpoint segs_apart (lo : Z) (segs : list Pool.PoolLiveSegment) : Prop :=
  match segs with
  | [] => True
  | s :: rest => lo <= Pool.physical_offset s /\
                 segs_apart (Pool.physical_offset s + Pool.size s + 1) rest
  end.

Lemma segs_apart_low k lo segs o :
  Pool.segs_ok k segs -> segs_apart lo segs -> o ∈ Pool.live_list segs -> lo <= o.
Proof.
  revert k lo. induction segs as [|s segs IH]; intros k lo; [by intros _ _ ?%elem_of_nil|].
  intros (_ & Hs & _ & _ & Hok) [Hlo Hap]. rewrite Pool.live_list_cons, elem_of_app, elem_of_zrange.
  intros [Ho|Ho]; [lia|]. specialize (IH _ _ Hok Hap Ho). lia.
Qed.

Lemma number_segments_apart bound k lo ivs :
  StronglySorted (fun i j : Z * Z => i.2 < j.1) ivs -> Forall (Pool.interval_ok bound) ivs ->
  bound <= int64_max -> Forall (fun i : Z * Z => lo <= i.1) ivs -> segs_apart lo (Pool.number_segments k ivs).
Proof.
  intros Hs Hok Hb. revert k lo. induction Hs as [|[s e] ivs Hs IH Hfst]; intros k lo Hlo; simpl; [done|].
  apply Forall_cons in Hok as [[Hse Heb] Hok]. apply Forall_cons in Hlo as [Hl _]. simpl in *.
  rewrite (Pool.wrap64_nonneg (e - s)) by lia. split; [done|]. apply IH; [done|].
  eapply Forall_impl; [exact Hfst|]. simpl. intros [s' e'] H. simpl in *. lia.
Qed.

Lemma expand_segments_apart pool segs :
  Pool.pool_int64 pool -> ok (Pool.Validate pool (-1)) = true -> Pool.ExpandPoolLiveSegments pool = Ok segs ->
  segs_apart 0 segs.
Proof.
  intros Hint [Hok _]%Pool.pool_validate_ok H; [|done|i64]. destruct Hok.
  pose proof Hint as (_ & [_ Hbs] & _).
  unfold Pool.ExpandPoolLiveSegments in H. guards H. injection H as <-.
  apply Pool.expand_loop in Hcall as (Hivs & _); [|done|done|constructor].
  apply (Pool.coalesce_loop pool (Pool.block_stride_bytes pool)) in Hcall0 as ([Hsort Hruns] & _);
    [|split; constructor|by rewrite sort_by_perm].
  apply StronglySorted_rev in Hsort. apply Forall_rev in Hruns.
  apply (number_segments_apart (Pool.block_stride_bytes pool)); [done|done|done|].
  eapply Forall_impl; [exact Hruns|]. intros ? []. lia.
Qed.

(** A range of live bytes lies in one segment. *)
Lemma live_range_found k lo segs p n :
  Pool.segs_ok k segs -> segs_apart lo segs -> 0 < n -> p + n <= int64_max ->
  (forall o, p <= o < p + n -> o ∈ Pool.live_list segs) ->
  exists s, List.find (fun s => (Pool.physical_offset s <=? p) &&
                                (p + n <=? wrap64 (Pool.physical_offset s + Pool.size s))) segs = Some s.
Proof.
  intros Hok Hap Hn Hend. revert k lo Hok Hap. induction segs as [|s segs IH]; intros k lo Hok Hap Hlive.
  { specialize (Hlive p ltac:(lia)). by apply elem_of_nil in Hlive. }
  destruct Hok as (_ & Hs & Hp & Hmax & Hok), Hap as [_ Hap]. simpl. rewrite Pool.wrap64_nonneg by lia.
  destruct (_ && _) eqn:E; to_prop; [eauto|].
  assert (Hcons : forall o, p <= o < p + n -> Pool.physical_offset s <= o < Pool.physical_offset s + Pool.size s \/
            (Pool.physical_offset s + Pool.size s + 1 <= o /\ o ∈ Pool.live_list segs)).
  { intros o Ho. specialize (Hlive o Ho). rewrite Pool.live_list_cons, elem_of_app, elem_of_zrange in Hlive.
    destruct Hlive as [?|Hin]; [by left|right]. split; [by eapply segs_apart_low|done]. }
  apply (IH _ _ Hok Hap). intros o Ho. destruct (Hcons o Ho) as [Hin|[_ ?]]; [|done].
  destruct (Hcons p ltac:(lia)) as [Hpin|[Hpge _]]; [|lia].
  destruct (Hcons (Pool.physical_offset s + Pool.size s)) as [?|[? _]]; lia.
Qed.

Lemma live_range_logical segs p n :
  Pool.segs_ok 0 segs -> segs_apart 0 segs -> 0 <= p -> 0 < n -> p + n <= int64_max ->
  (forall o, p <= o < p + n -> o ∈ Pool.live_list segs) ->
  exists l, Pool.PhysicalLiveRangeToLogical segs p n = Ok (l, l + n).
Proof.
  intros Hok Hap Hp Hn Hend Hlive. destruct (live_range_found 0 0 segs p n Hok Hap Hn Hend Hlive) as [s Hs].
  destruct (Pool.PhysicalLiveRangeToLogical segs p n) as [[l e]|] eqn:E.
  - destruct (Pool.pool_physical_to_logical segs p n l e Hok Hp Hend E) as (-> & _). eauto.
  - unfold Pool.PhysicalLiveRangeToLogical in E. destruct (_ || _) eqn:Eg; to_prop; [lia|].
    rewrite (Pool.wrap64_nonneg (p + n)), Hs in E by lia. done.
Qed.

(** The physical byte of a compact-live offset and back. *)
Definition phys_of (segs : list Pool.PoolLiveSegment) (l : Z) : Z :=
  default 0 (Pool.live_list segs !! Z.to_nat l).
Definition live_rank (segs : list Pool.PoolLiveSegment) (p : Z) : Z :=
  Z.of_nat (length (filter (fun o => o < p) (Pool.live_list segs))).

Lemma sorted_rank (l : list Z) i p :
  StronglySorted Z.lt l -> l !! i = Some p -> length (filter (fun o => o < p) l) = i.
Proof.
  intros Hs. revert i. induction Hs as [|x l Hs IH Hx]; intros i; [done|].
  destruct i as [|i]; simpl; intros Hi.
  - injection Hi as ->. rewrite filter_cons_False by lia. rewrite filter_none; [done|].
    eapply Forall_impl; [exact Hx|]. simpl. lia.
  - rewrite filter_cons_True; [simpl; by rewrite (IH i)|].
    rewrite Forall_forall in Hx. apply Hx. by eapply list_elem_of_lookup_2.
Qed.

Lemma phys_rank segs l :
  StronglySorted Z.lt (Pool.live_list segs) -> 0 <= l < Z.of_nat (length (Pool.live_list segs)) ->
  live_rank segs (phys_of segs l) = l.
Proof.
  intros Hs Hl. unfold live_rank, phys_of. destruct (lookup_lt_is_Some_2 (Pool.live_list segs) (Z.to_nat l)) as [p Hp]; [lia|].
  rewrite Hp. simpl. rewrite (sorted_rank _ _ _ Hs Hp). lia.
Qed.

(** A range the translation accepts is the image of its compact-live range. *)
Lemma logical_range_image segs p n l e :
  Pool.segs_ok 0 segs -> 0 <= p -> 0 < n -> p + n <= int64_max ->
  Pool.PhysicalLiveRangeToLogical segs p n = Ok (l, e) ->
  e = l + n /\ 0 <= l /\ e <= Z.of_nat (length (Pool.live_list segs)) /\
  zrange p (p + n) = phys_of segs <$> zrange l e.
Proof.
  intros Hok Hp Hn Hend H. destruct (Pool.pool_physical_to_logical _ _ _ _ _ Hok Hp Hend H) as (-> & Hl & Hi).
  split; [done|]. split; [done|]. split.
  { specialize (Hi (n - 1) ltac:(lia)). apply lookup_lt_Some in Hi. lia. }
  replace (zrange p (p + n)) with (Z.add p <$> zrange 0 n) by (rewrite <-zrange_shift; f_equal; lia).
  replace (zrange l (l + n)) with (Z.add l <$> zrange 0 n) by (rewrite <-zrange_shift; f_equal; lia).
  rewrite <-list_fmap_compose. apply list_fmap_ext. intros j x Hj. simpl.
  apply list_elem_of_lookup_2, elem_of_zrange in Hj. unfold phys_of. by rewrite (Hi x Hj).
Qed.

Lemma fmap_phys_take segs x :
  0 <= x <= Z.of_nat (length (Pool.live_list segs)) ->
  phys_of segs <$> zrange 0 x = take (Z.to_nat x) (Pool.live_list segs).
Proof.
  intros Hx. apply list_eq. intros i. rewrite list_lookup_fmap.
  destruct (decide (Z.of_nat i < x)).
  - rewrite lookup_take_lt by lia. replace i with (Z.to_nat (Z.of_nat i)) at 1 by lia.
    rewrite zrange_lookup, Z.add_0_l by lia. unfold phys_of. cbn [option_fmap option_map fmap].
    destruct (lookup_lt_is_Some_2 (Pool.live_list segs) i) as [p Hp]; [lia|].
    rewrite Nat2Z.id, Hp. done.
  - rewrite lookup_take_ge by lia. rewrite (lookup_ge_None_2 (zrange 0 x)); [done|]. rewrite length_zrange. lia.
Qed.

(** ** The ranges of one entry *)

Definition entry_bytes (e : Entry) : list Z :=
  span_bytes (Program.e_dst_offset_bytes e) (Program.e_dst_stride_bytes e) (Program.e_size_bytes e) (Program.e_count e).

(** The fields of an entry after the field checks of validation. *)
Record entry_sane (e : Entry) : Prop := {
  es_offset : 0 <= Program.e_dst_offset_bytes e;
  es_stride : 0 <= Program.e_dst_stride_bytes e;
  es_size : 0 < Program.e_size_bytes e;
  es_count : 0 < Program.e_count e <= 1048576;
  es_group : 0 <= pool_group e <= int32_max;
  es_end : Program.e_dst_offset_bytes e + (Program.e_count e - 1) * Program.e_dst_stride_bytes e +
           Program.e_size_bytes e <= int64_max
}.

Lemma repeat_physical e r :
  entry_sane e -> 0 <= r < Program.e_count e ->
  let p := Program.e_dst_offset_bytes e + r * Program.e_dst_stride_bytes e in
  wrap64 (Program.e_dst_offset_bytes e + wrap64 (r * Program.e_dst_stride_bytes e)) = p /\
  0 <= p /\ p + Program.e_size_bytes e <= int64_max.
Proof.
  intros [] Hr p. assert (r * Program.e_dst_stride_bytes e <= (Program.e_count e - 1) * Program.e_dst_stride_bytes e) by nia.
  assert (0 <= r * Program.e_dst_stride_bytes e) by nia. unfold p.
  rewrite (wrap64_id (r * _)), wrap64_id by i64. lia.
Qed.

(** Appending loops: what is produced does not depend on what was there. *)
Lemma repeat_ranges_prefix e segs x rs acc :
  for_each (repeat_range e segs x) rs acc =
  let? r := for_each (repeat_range e segs x) rs [] in Ok (acc ++ r).
Proof.
  revert acc. induction rs as [|r rs IH]; intros acc; simpl; [by rewrite app_nil_r|].
  unfold repeat_range at 1 3. destruct (Pool.PhysicalLiveRangeToLogical _ _ _); [|done].
  destruct (_ <? _); [done|]. rewrite IH. symmetry. rewrite IH.
  destruct (for_each _ rs []); [|done]. by rewrite <-?app_assoc.
Qed.

Lemma repeat_ranges_sound e segs x ranges :
  Pool.segs_ok 0 segs -> entry_sane e ->
  for_each (repeat_range e segs x) (zrange 0 (Program.e_count e)) [] = Ok ranges ->
  Forall (fun i : Z * Z => 0 <= i.1 < i.2 /\ i.2 <= x /\ i.2 <= Z.of_nat (length (Pool.live_list segs))) ranges /\
  entry_bytes e = phys_of segs <$> spread ranges.
Proof.
  intros Hok He. unfold entry_bytes, span_bytes.
  assert (Hsub : Forall (fun r => 0 <= r < Program.e_count e) (zrange 0 (Program.e_count e)))
    by (apply Forall_forall; intros r; by rewrite elem_of_zrange).
  revert ranges Hsub. generalize (zrange 0 (Program.e_count e)). intros rs.
  induction rs as [|r rs IH]; intros ranges Hsub; cbn [for_each]; [intros [= <-]; by split|].
  apply Forall_cons in Hsub as [Hr Hsub]. destruct (repeat_physical e r He Hr) as (Hw & Hp & Hend).
  unfold repeat_range at 1. rewrite Hw.
  destruct (Pool.PhysicalLiveRangeToLogical _ _ _) as [[l h]|] eqn:E; [|done]. cbn [snd].
  destruct (x <? h) eqn:Ex; [done|]. to_prop. rewrite repeat_ranges_prefix.
  destruct (for_each _ rs []) as [ranges'|] eqn:Er; [|done]. intros [= <-].
  destruct (IH ranges' Hsub eq_refl) as [Hall Heq].
  apply logical_range_image in E as (-> & Hl & Hlen & Him); [|done..|apply He|done].
  split; [constructor; [simpl; destruct He; lia|done]|]. rewrite spread_cons, fmap_app, bind_cons. cbn [fst snd]. by rewrite Him, Heq.
Qed.

Lemma repeat_ranges_complete e segs x :
  Pool.segs_ok 0 segs -> segs_apart 0 segs -> StronglySorted Z.lt (Pool.live_list segs) -> entry_sane e ->
  (forall o, o ∈ entry_bytes e -> o ∈ Pool.live_list segs /\ live_rank segs o < x) ->
  exists ranges, for_each (repeat_range e segs x) (zrange 0 (Program.e_count e)) [] = Ok ranges.
Proof.
  intros Hok Hap Hs He Hlive.
  destruct (for_each_succeeds (repeat_range e segs x) (fun _ => True) (zrange 0 (Program.e_count e)) []) as (r & Hr & _);
    [|done|eauto].
  intros st r Hr%elem_of_zrange _. destruct (repeat_physical e r He Hr) as (Hw & Hp & Hend).
  assert (Hin : forall o, Program.e_dst_offset_bytes e + r * Program.e_dst_stride_bytes e <= o <
      Program.e_dst_offset_bytes e + r * Program.e_dst_stride_bytes e + Program.e_size_bytes e -> o ∈ entry_bytes e)
    by (intros o Ho; apply elem_of_span_bytes; eauto).
  unfold repeat_range. rewrite Hw.
  destruct (live_range_logical segs (Program.e_dst_offset_bytes e + r * Program.e_dst_stride_bytes e) (Program.e_size_bytes e))
    as [l El]; [done|done|done|apply He|done|intros o Ho; by apply Hlive, Hin|].
  rewrite El. simpl. destruct (x <? _) eqn:Ex; [|eauto]. to_prop. exfalso.
  pose proof El as (_ & Hl & Hlen & Him)%logical_range_image; [|done..|apply He|done]. destruct He.
  assert (Hlast : phys_of segs (l + Program.e_size_bytes e - 1) ∈ entry_bytes e).
  { apply Hin. apply elem_of_zrange. rewrite Him. apply list_elem_of_fmap. eexists; split; [done|]. apply elem_of_zrange. lia. }
  apply Hlive in Hlast as [_ Hlast]. rewrite phys_rank in Hlast by (done || lia). lia.
Qed.

End PlanCheckProofs.
