(* ===== verification/PoolPlanCoverage.v ===== *)
(** * The receiver's coverage check

    What the entry loop of [ValidatePoolReshardReceiverCoverage] accumulates, and the
    theorem that a receiver accepts exactly the well-formed plans whose entries write
    every live byte of every destination block, up to its extent, exactly once. *)

From stdpp Require Import strings sorting.
From S2P Require Import Prelude PoolLayout ReshardTypes TransferProgram PoolPlanCheck PoolPlanCheckProofs.

Module PlanCoverage.
Import PlanCheck PlanCheckProofs.

(** ** The entry loop *)

(** All entries of a plan with the rank that sends them. *)
Definition plan_entries (plan : Plan) : list (Z * Entry) :=
  map_to_list (Program.shard_push_schedules plan) ≫= fun s => pair s.1 <$> s.2.

Lemma alter_insert {A} (f : A -> A) (l : list A) (i : nat) x : l !! i = Some x -> alter f i l = <[i := f x]> l.
Proof.
  revert i. induction l as [|y l IH]; intros [|i]; try done; [by intros [= ->]|].
  intros H. simpl. f_equal. by apply IH.
Qed.

Section loop.
Context (groups : list Group).

(** Where an entry lands: its group, the ordinal of its block and its ranges. *)
Definition lands (states : list GroupState) (e : Entry) : option (nat * nat * list (Z * Z)) :=
  let g := Z.to_nat (pool_group e) in
  match states !! g, groups !! g with
  | Some st, Some view =>
      match ordinals st !! Program.e_dst_block_id e with
      | Some o =>
          match for_each (repeat_range e (segments st) (default 0 (Program.g_dst_expected_extent_bytes view !! o)))
                  (zrange 0 (Program.e_count e)) [] with
          | Ok rs => Some (g, o, rs)
          | Err _ _ => None
          end
      | None => None
      end
  | _, _ => None
  end.

Definition pair_of (e : Entry) : string * Z * Z :=
  (Program.e_dst_peer e, Program.e_src_block_id e, Program.e_dst_block_id e).

Definition landed (rank : Z) (e : Entry) (o : nat) (rs : list (Z * Z)) (st : GroupState) : GroupState :=
  {| segments := segments st;
     live_bytes := live_bytes st;
     ordinals := ordinals st;
     coverage := alter (fun c => c ++ rs) o (coverage st);
     pairs_by_sender :=
       <[rank := {[pair_of e]} ∪ default ∅ (pairs_by_sender st !! rank)]> (pairs_by_sender st) |}.

Definition land (states0 states : list GroupState) (re : Z * Entry) : list GroupState :=
  match lands states0 re.2 with
  | Some (g, o, rs) => alter (landed re.1 re.2 o rs) g states
  | None => states
  end.

(** The part of the group states the loop never changes. *)
Definition static (st : GroupState) := (segments st, ordinals st).

Lemma land_static states0 states re : static <$> land states0 states re = static <$> states.
Proof.
  unfold land. destruct (lands states0 re.2) as [[[g o] rs]|]; [|done].
  apply list_eq. intros i. rewrite !list_lookup_fmap. destruct (decide (i = g)) as [->|].
  - rewrite list_lookup_alter_eq. by destruct (states !! g).
  - by rewrite list_lookup_alter_ne.
Qed.

Lemma lands_static s1 s2 e : static <$> s1 = static <$> s2 -> lands s1 e = lands s2 e.
Proof.
  intros H. unfold lands. set (g := Z.to_nat (pool_group e)).
  assert (Hg : static <$> s1 !! g = static <$> s2 !! g) by (by rewrite <-!list_lookup_fmap, H).
  destruct (s1 !! g) as [st1|], (s2 !! g) as [st2|]; try done.
  injection Hg as Hs Ho. destruct (groups !! g); [|done]. by rewrite Hs, Ho.
Qed.

Lemma coverage_entry_iff rank n states e n' states' :
  length states = length groups -> entry_sane e ->
  coverage_entry groups rank (n, states) e = Ok (n', states') <->
  is_Some (lands states e) /\ n' = wrap64 (n + Program.e_count e) /\ n' <= kMaxExpandedRepeats /\
  states' = land states states (rank, e).
Proof.
  intros Hlen [_ _ _ _ Hg _]. unfold coverage_entry, land, lands. cbn [snd fst].
  rewrite u64_id by (unfold int32_max in *; lia).
  destruct (_ <=? _) eqn:Egt; to_prop.
  { rewrite lookup_ge_None_2 by lia. split; [done|]. by intros [[] _]. }
  destruct (lookup_lt_is_Some_2 states (Z.to_nat (pool_group e))) as [st Hst]; [lia|].
  destruct (lookup_lt_is_Some_2 groups (Z.to_nat (pool_group e))) as [view Hview]; [lia|].
  rewrite Hst, Hview. destruct (ordinals st !! _) as [o|]; [|split; [done|]; by intros [[] _]].
  destruct (kMaxExpandedRepeats <? _) eqn:En; to_prop.
  { split; [done|]. intros (_ & -> & ? & _). lia. }
  destruct (for_each _ _ []) as [rs|]; [|split; [done|]; by intros [[] _]].
  rewrite (alter_insert _ states (Z.to_nat (pool_group e)) st) by done.
  split; [intros [= <- <-]; by eauto|by intros (_ & -> & _ & ->)].
Qed.

Definition counts (L : list (Z * Entry)) : Z := zsum ((fun re => Program.e_count re.2) <$> L).

Lemma land_length states0 states re : length (land states0 states re) = length states.
Proof. unfold land. destruct (lands _ _) as [[[??]?]|]; [|done]. apply length_alter. Qed.

Lemma counts_nonneg L : Forall (fun re => entry_sane re.2) L -> 0 <= counts L.
Proof.
  intros H. apply zsum_nonneg, Forall_fmap. eapply Forall_impl; [exact H|]. intros re []. simpl. lia.
Qed.

Lemma coverage_loop_iff L states0 n states n' states' :
  Forall (fun re => entry_sane re.2) L -> length states = length groups -> static <$> states = static <$> states0 ->
  0 <= n <= kMaxExpandedRepeats ->
  for_each (fun st re => coverage_entry groups re.1 st re.2) L (n, states) = Ok (n', states') <->
  Forall (fun re => is_Some (lands states0 re.2)) L /\ n' = n + counts L /\ n' <= kMaxExpandedRepeats /\
  states' = foldl (land states0) states L.
Proof.
  intros Hsane. revert n states. induction Hsane as [|[rank e] L He Hsane IH]; intros n states Hlen Hst Hn; cbn [for_each].
  { unfold counts. simpl. split; [intros [= <- <-]; split_and!; [constructor|lia|lia|done]|].
    intros (_ & -> & _ & ->). do 2 f_equal. lia. }
  cbn [fst snd] in *. pose proof (counts_nonneg L Hsane).
  assert (Hcons : counts ((rank, e) :: L) = Program.e_count e + counts L) by done.
  assert (Hw : wrap64 (n + Program.e_count e) = n + Program.e_count e).
  { apply wrap64_id. destruct He. unfold kMaxExpandedRepeats in *. i64. }
  assert (Hland : land states states (rank, e) = land states0 states (rank, e)).
  { unfold land. cbn [snd]. by rewrite (lands_static states states0). }
  rewrite Forall_cons, Hcons. cbn [foldl snd].
  destruct (coverage_entry groups rank (n, states) e) as [[n1 states1]|] eqn:E.
  - apply coverage_entry_iff in E as (Hl & -> & Hle & ->); [|done..].
    rewrite Hw in *. rewrite (lands_static states states0) in Hl by done. rewrite Hland.
    destruct He. rewrite (IH (n + Program.e_count e)); [|by rewrite land_length|by rewrite land_static|lia].
    rewrite Z.add_assoc. tauto.
  - split; [done|]. intros ([Hl _] & -> & Hle & _). destruct He.
    assert (coverage_entry groups rank (n, states) e = Ok (wrap64 (n + Program.e_count e), land states states (rank, e)));
      [|congruence].
    apply coverage_entry_iff; [done|by constructor|]. split_and!; [by rewrite (lands_static states states0)|done|lia|done].
Qed.

(** ** What the loop has collected *)

Definition in_group (g : nat) (re : Z * Entry) : Prop := pool_group re.2 = Z.of_nat g.
#[global] Instance in_group_dec g re : Decision (in_group g re) := decide (pool_group re.2 = Z.of_nat g).

(** The ranges of block ordinal [o] of group [g]. *)
Definition ranges_at (states0 : list GroupState) (g o : nat) (re : Z * Entry) : list (Z * Z) :=
  match lands states0 re.2 with
  | Some (g', o', rs) => if bool_decide (g' = g /\ o' = o) then rs else []
  | None => []
  end.

(** The distinct pairs of a sender in a group. *)
Definition pairs_at (g : nat) (rank : Z) (L : list (Z * Entry)) : gset (string * Z * Z) :=
  list_to_set ((fun re => pair_of re.2) <$> filter (fun re => in_group g re /\ re.1 = rank) L).

Record collected (states0 : list GroupState) (L : list (Z * Entry)) (g : nat) (st0 st : GroupState) : Prop := {
  co_static : static st = static st0;
  co_coverage o c0 : coverage st0 !! o = Some c0 ->
    coverage st !! o = Some (c0 ++ (L ≫= ranges_at states0 g o));
  co_pairs r : pairs_by_sender st !! r =
    let s := pairs_at g r L in if decide (s = ∅) then None else Some s
}.

Lemma pairs_at_snoc g r L re :
  pairs_at g r (L ++ [re]) =
  if decide (in_group g re /\ re.1 = r) then {[pair_of re.2]} ∪ pairs_at g r L else pairs_at g r L.
Proof.
  unfold pairs_at. rewrite filter_app, fmap_app, list_to_set_app_L. destruct (decide _).
  - rewrite filter_cons_True by done. rewrite filter_nil. simpl. set_solver.
  - rewrite filter_cons_False by done. rewrite filter_nil. simpl. set_solver.
Qed.

Lemma loop_collected states0 L g st0 :
  Forall (fun re => 0 <= pool_group re.2 /\ is_Some (lands states0 re.2)) L ->
  states0 !! g = Some st0 -> pairs_by_sender st0 = ∅ ->
  exists st, foldl (land states0) states0 L !! g = Some st /\ collected states0 L g st0 st.
Proof.
  intros HL Hg Hp. induction L as [|re L IH] using rev_ind.
  { exists st0. split; [done|]. split; [done|intros o c0 ->; by rewrite app_nil_r|]. intros r. by rewrite Hp. }
  apply Forall_app in HL as [HL [[Hpg [[[g' o'] rs] Hl]] _]%Forall_cons].
  destruct (IH HL) as (st & Hst & [Hstat Hcov Hpairs]). rewrite foldl_app. cbn [foldl].
  assert (Hg' : g' = Z.to_nat (pool_group re.2)) by (unfold lands in Hl; repeat case_match; by simplify_eq).
  unfold land at 1. rewrite Hl. destruct (decide (g' = g)) as [->|Hne].
  - exists (landed re.1 re.2 o' rs st). rewrite list_lookup_alter_eq, Hst. split; [done|].
    assert (Hin : in_group g re) by (unfold in_group; lia). split; [done| |].
    + intros o c0 Hc0. cbn [coverage landed]. rewrite bind_app, app_assoc. cbn [mbind list_bind].
      unfold ranges_at at 2. rewrite Hl, app_nil_r. destruct (decide (o' = o)) as [->|Hno].
      * rewrite list_lookup_alter_eq, (Hcov o c0 Hc0). rewrite bool_decide_true by done. done.
      * rewrite list_lookup_alter_ne, (Hcov o c0 Hc0) by done. rewrite bool_decide_false by tauto. by rewrite app_nil_r.
    + intros r. cbn [pairs_by_sender landed]. cbv zeta. rewrite pairs_at_snoc. destruct (decide (re.1 = r)) as [->|Hr].
      * rewrite lookup_insert_eq, Hpairs. cbv zeta. rewrite (decide_True (P := in_group g re /\ r = r)) by done.
        destruct (decide ({[pair_of re.2]} ∪ pairs_at g r L = ∅)) as [Hbad|_]; [set_solver|].
        f_equal. destruct (decide (pairs_at g r L = ∅)) as [->|]; done.
      * rewrite lookup_insert_ne by done. rewrite (decide_False (P := in_group g re /\ re.1 = r)) by tauto. apply Hpairs.
  - exists st. rewrite list_lookup_alter_ne by done. split; [done|]. split; [done| |].
    + intros o c0 Hc0. rewrite (Hcov o c0 Hc0), bind_app. cbn [mbind list_bind]. unfold ranges_at at 3.
      rewrite Hl, bool_decide_false by tauto. by rewrite !app_nil_r.
    + intros r. cbv zeta. rewrite pairs_at_snoc, (decide_False (P := in_group g re /\ re.1 = r)); [apply Hpairs|].
      unfold in_group. lia.
Qed.

End loop.

(** ** Push accounting *)

Definition msum {A} (f : A -> Z) (m : gmap Z A) : Z := zsum ((fun kv => f kv.2) <$> map_to_list m).

Lemma zsum_perm l k : l ≡ₚ k -> zsum l = zsum k.
Proof. induction 1; simpl; lia. Qed.

Lemma msum_insert {A} (f : A -> Z) m k x : m !! k = None -> msum f (<[k := x]> m) = f x + msum f m.
Proof. intros H. unfold msum. rewrite (zsum_perm _ ((fun kv : Z * A => f kv.2) <$> ((k, x) :: map_to_list m))); [done|]. by rewrite map_to_list_insert. Qed.

Lemma msum_delete {A} (f : A -> Z) m k x : m !! k = Some x -> msum f m = f x + msum f (delete k m).
Proof. intros H. rewrite <-(insert_delete_id m k x) at 1 by done. apply msum_insert, lookup_delete_eq. Qed.

Lemma msum_zero {A} (f : A -> Z) m : (forall k x, m !! k = Some x -> f x = 0) -> msum f m = 0.
Proof.
  induction m as [|k x m Hk IH] using map_ind; [done|]. intros H. rewrite msum_insert by done.
  rewrite (H k x), IH; [done| |by rewrite lookup_insert_eq].
  intros k' x' Hk'. apply (H k'). rewrite lookup_insert_ne; [done|congruence].
Qed.

(** Sums over two maps whose values agree, an absent key counting zero. *)
Lemma msum_agree {A B} (f1 : A -> Z) (f2 : B -> Z) m1 m2 :
  (forall k, default 0 (f1 <$> m1 !! k) = default 0 (f2 <$> m2 !! k)) -> msum f1 m1 = msum f2 m2.
Proof.
  revert m2. induction m1 as [|k x m1 Hk IH] using map_ind; intros m2 H.
  { symmetry. apply msum_zero. intros k y Hy. specialize (H k). by rewrite Hy, lookup_empty in H. }
  rewrite msum_insert by done. pose proof (H k) as Hkk. rewrite lookup_insert_eq in Hkk. simpl in Hkk.
  assert (Hrest : forall k', default 0 (f1 <$> m1 !! k') = default 0 (f2 <$> delete k m2 !! k')).
  { intros k'. destruct (decide (k' = k)) as [->|Hne]; [by rewrite Hk, lookup_delete_eq|].
    rewrite lookup_delete_ne by done. rewrite <-H, lookup_insert_ne by done. done. }
  rewrite (IH _ Hrest). destruct (m2 !! k) as [y|] eqn:Ey; simpl in Hkk.
  - rewrite (msum_delete f2 m2 k y) by done. lia.
  - rewrite delete_id by done. lia.
Qed.

Lemma foldl_wrap64_sum {A} (f : A -> Z) l acc :
  Forall (fun x => 0 <= f x) l -> 0 <= acc -> acc + zsum (f <$> l) <= int64_max ->
  foldl (fun a x => wrap64 (a + f x)) acc l = acc + zsum (f <$> l).
Proof.
  intros Hl. revert acc. induction Hl as [|x l Hx Hl IH]; intros acc Ha Hb; [simpl; lia|].
  rewrite fmap_cons, zsum_cons in *. cbn [foldl]. assert (0 <= zsum (f <$> l)) by (by apply zsum_nonneg, Forall_fmap).
  rewrite wrap64_id by i64. rewrite IH; lia.
Qed.

(** The pairs one sender's schedule has in a group, and the push streams they make. *)
Definition sender_pairs (g : nat) (es : list Entry) : gset (string * Z * Z) :=
  list_to_set (pair_of <$> filter (fun e => pool_group e = Z.of_nat g) es).
Definition push_count (plan : Plan) (g : nat) : Z :=
  msum (fun es => Z.min (Program.parallelism plan) (Z.of_nat (base.size (sender_pairs g es))))
    (Program.shard_push_schedules plan).

Lemma elem_of_plan_entries plan rank e :
  (rank, e) ∈ plan_entries plan <->
  exists es, Program.shard_push_schedules plan !! rank = Some es /\ e ∈ es.
Proof.
  unfold plan_entries. rewrite list_elem_of_bind. setoid_rewrite list_elem_of_fmap. split.
  - intros ([r es] & (e' & [= <- <-] & He) & Hin%elem_of_map_to_list). eauto.
  - intros (es & Hes & He). exists (rank, es). split; [eauto|]. by apply elem_of_map_to_list.
Qed.

Lemma pairs_at_plan plan g rank :
  pairs_at g rank (plan_entries plan) =
  default ∅ (sender_pairs g <$> Program.shard_push_schedules plan !! rank).
Proof.
  apply set_eq. intros p. unfold pairs_at. rewrite elem_of_list_to_set, list_elem_of_fmap.
  setoid_rewrite list_elem_of_filter. split.
  - intros ([r e] & -> & [Hg Hr] & (es & Hes & He)%elem_of_plan_entries). cbn in Hr. subst r. rewrite Hes. simpl.
    apply elem_of_list_to_set, list_elem_of_fmap. exists e. by rewrite list_elem_of_filter.
  - destruct (Program.shard_push_schedules plan !! rank) as [es|] eqn:Hes; simpl; [|set_solver].
    unfold sender_pairs. rewrite elem_of_list_to_set, list_elem_of_fmap. intros (e & -> & [Hg He]%list_elem_of_filter).
    exists (rank, e). split; [done|]. split; [done|]. apply elem_of_plan_entries. eauto.
Qed.

Lemma counts_schedules plan :
  counts (plan_entries plan) = msum (fun es => zsum (Program.e_count <$> es)) (Program.shard_push_schedules plan).
Proof.
  unfold counts, plan_entries, msum. induction (map_to_list _) as [|[r es] l IH]; [done|].
  rewrite bind_cons, fmap_app, zsum_app, IH. simpl. rewrite <-list_fmap_compose. done.
Qed.

Lemma size_list_to_set_le `{Countable A} (l : list A) : (base.size (list_to_set l : gset A) <= length l)%nat.
Proof.
  induction l as [|x l IH]; [done|]. cbn [list_to_set length]. rewrite size_union_alt, size_singleton.
  enough (base.size ((list_to_set l : gset A) ∖ {[x]}) <= base.size (list_to_set l : gset A))%nat by lia.
  apply subseteq_size. set_solver.
Qed.

Lemma sender_pairs_le g es :
  Forall entry_sane es -> Z.of_nat (base.size (sender_pairs g es)) <= zsum (Program.e_count <$> es).
Proof.
  intros Hes. unfold sender_pairs. etrans; [apply Nat2Z.inj_le, size_list_to_set_le|].
  rewrite length_fmap. induction Hes as [|e es He Hes IH]; [done|]. destruct He.
  rewrite fmap_cons, zsum_cons. destruct (decide (pool_group e = Z.of_nat g)).
  - rewrite filter_cons_True by done. simpl. lia.
  - rewrite filter_cons_False by done. lia.
Qed.

Lemma msum_le {A} (f h : A -> Z) m : (forall k x, m !! k = Some x -> f x <= h x) -> msum f m <= msum h m.
Proof.
  induction m as [|k x m Hk IH] using map_ind; [done|]. intros H. rewrite !msum_insert by done.
  pose proof (H k x (lookup_insert_eq _ _ _)). enough (msum f m <= msum h m) by lia. apply IH.
  intros k' x' Hk'. apply (H k'). rewrite lookup_insert_ne; [done|congruence].
Qed.

Lemma push_count_le plan g :
  Forall (fun re => entry_sane re.2) (plan_entries plan) -> push_count plan g <= counts (plan_entries plan).
Proof.
  intros Hsane. rewrite counts_schedules. apply msum_le. intros k es Hes.
  etrans; [apply Z.le_min_r|]. apply sender_pairs_le. apply Forall_forall. intros e He.
  rewrite Forall_forall in Hsane. apply (Hsane (k, e)), elem_of_plan_entries. eauto.
Qed.

Lemma calculated_pushes_exact plan g st :
  Forall (fun re => entry_sane re.2) (plan_entries plan) -> counts (plan_entries plan) <= kMaxExpandedRepeats ->
  0 < Program.parallelism plan ->
  (forall r, pairs_by_sender st !! r =
     let s := pairs_at g r (plan_entries plan) in if decide (s = ∅) then None else Some s) ->
  calculated_pushes (Program.parallelism plan) st = push_count plan g.
Proof.
  intros Hsane Hcount Hpar Hpairs.
  set (f := fun s : gset (string * Z * Z) => Z.min (Program.parallelism plan) (Z.of_nat (base.size s))).
  assert (Heq : msum f (pairs_by_sender st) = push_count plan g).
  { unfold push_count. apply msum_agree. intros k. rewrite Hpairs. cbv zeta. rewrite pairs_at_plan.
    destruct (Program.shard_push_schedules plan !! k) as [es|]; simpl; [|by rewrite decide_True].
    destruct (decide (sender_pairs g es = ∅)) as [He|]; simpl; [|done]. rewrite He, size_empty. lia. }
  pose proof (push_count_le plan g Hsane) as Hle.
  unfold calculated_pushes. rewrite foldl_wrap64_sum.
  - exact Heq.
  - apply Forall_forall. intros [k s] _. simpl. lia.
  - done.
  - unfold msum, f in Heq. rewrite Heq. unfold kMaxExpandedRepeats in Hcount. i64.
Qed.

(** ** The state of a group *)

Section states.
Context (pools : list Pool.PoolSpec) (Htable : table_ok pools).

Lemma pool_some p spec : pool pools p = Some spec -> Pool.pool_int64 spec /\ ok (Pool.Validate spec (-1)) = true.
Proof.
  unfold pool. destruct (_ <=? _); [done|]. intros H. pose proof Htable as HT. unfold table_ok in HT. rewrite Forall_forall in HT.
  by apply list_elem_of_lookup_2, HT in H.
Qed.

(** The live bytes of the segments of a validated pool. *)
Record segs_good (segs : list Pool.PoolLiveSegment) : Prop := {
  sg_ok : Pool.segs_ok 0 segs;
  sg_apart : segs_apart 0 segs;
  sg_sorted : StronglySorted Z.lt (Pool.live_list segs)
}.

Lemma expand_good p spec segs :
  pool pools p = Some spec -> Pool.ExpandPoolLiveSegments spec = Ok segs -> segs_good segs.
Proof.
  intros [Hi Hv]%pool_some H. destruct (Pool.expand_segments_spec spec segs Hi Hv H) as (? & ? & _).
  split; [done|by eapply expand_segments_apart|done].
Qed.

(** What one pool of a group contributes. *)
Definition shares (segs : list Pool.PoolLiveSegment) (p : Z) : Prop :=
  exists spec, pool pools p = Some spec /\ Pool.ExpandPoolLiveSegments spec = Ok segs.

Lemma segments_loop_sound gi ps segs0 segs :
  for_each (segments_step pools gi) ps segs0 = Ok segs ->
  Forall (fun p => shares segs p \/ shares [] p) ps /\
  (segs = segs0 \/ exists p, shares segs p) /\ (segs0 ≠ [] -> segs = segs0).
Proof.
  revert segs0. induction ps as [|p ps IH]; intros segs0; simpl; [intros [= <-]; naive_solver|].
  unfold segments_step at 1. destruct (pool pools p) as [spec|] eqn:Hp; [|done].
  destruct (Pool.ExpandPoolLiveSegments spec) as [sp|] eqn:Hsp; [|done]. destruct segs0 as [|s0 segs0].
  - intros (HF & Hor & Hst)%IH. assert (Hp' : shares sp p) by (by exists spec).
    destruct sp as [|s sp].
    + split; [constructor; auto|]. split; [|done]. destruct Hor as [->|?]; eauto.
    + rewrite Hst in * by done. split; [constructor; [by left|done]|]. split; [right; eauto|done].
  - destruct (bool_decide _) eqn:E; [|done]. to_prop. subst sp. intros (HF & Hor & Hst)%IH.
    rewrite Hst in * by done. split; [constructor; [left; by exists spec|done]|]. split; [by left|done].
Qed.

Lemma segments_loop_complete gi ps segs0 segs :
  Forall (shares segs) ps -> ps ≠ [] -> (segs0 = [] \/ segs0 = segs) ->
  for_each (segments_step pools gi) ps segs0 = Ok segs.
Proof.
  intros HF. revert segs0. induction HF as [|p ps (spec & Hp & Hsp) HF IH]; intros segs0 Hne H0; [done|].
  assert (Hstep : segments_step pools gi segs0 p = Ok segs).
  { unfold segments_step. rewrite Hp, Hsp. destruct H0 as [->| ->]; [done|]. destruct segs; [done|]. by rewrite bool_decide_true. }
  simpl. rewrite Hstep. destruct ps as [|q ps]; [done|]. apply IH; [done|by right].
Qed.

Lemma live_total segs :
  Pool.segs_ok 0 segs ->
  foldl (fun acc s => wrap64 (acc + Pool.size s)) 0 segs = Z.of_nat (length (Pool.live_list segs)).
Proof.
  assert (Hsum : forall k segs, Pool.segs_ok k segs ->
    Forall (fun s => 0 <= Pool.size s) segs /\ zsum (Pool.size <$> segs) = Z.of_nat (length (Pool.live_list segs))).
  { clear segs. intros k segs. revert k. induction segs as [|s segs IH]; intros k; [done|].
    intros (_ & Hs & _ & _ & [Hall Heq]%IH). split; [constructor; [lia|done]|].
    rewrite fmap_cons, zsum_cons, Heq, Pool.live_list_cons, length_app, length_zrange. lia. }
  intros Hok. destruct (Hsum 0 segs Hok) as [Hall Heq]. rewrite foldl_wrap64_sum; [lia|done|done|].
  rewrite Heq. apply Pool.segs_ok_length in Hok. lia.
Qed.

Lemma ordinals_exact (l : list Z) b o :
  NoDup l -> foldl (fun (m : gmap Z nat) oi => <[oi.2 := oi.1]> m) ∅ (indexed l) !! b = Some o <-> l !! o = Some b.
Proof.
  intros Hnd. unfold indexed.
  enough (H : forall n (m : gmap Z nat), foldl (fun (m : gmap Z nat) oi => <[oi.2 := oi.1]> m) m (zip (seq n (length l)) l) !! b = Some o <->
            (exists i, l !! i = Some b /\ o = (n + i)%nat) \/ (b ∉ l /\ m !! b = Some o)).
  { rewrite H. split; [intros [(i & Hi & ->)|[_ ?]]; [by simpl|done]|]. intros Ho. left. by exists o. }
  induction Hnd as [|x l Hx Hnd IH]; intros n m; simpl.
  { split; [intros H; right; split; [by apply not_elem_of_nil|done]|]. by intros [(i & ? & _)|[_ ?]]. }
  rewrite IH. destruct (decide (b = x)) as [->|Hne].
  - rewrite lookup_insert_eq. split.
    + intros [(i & Hi%list_elem_of_lookup_2 & _)|[_ [= <-]]]; [done|]. left. exists 0%nat. split; [done|lia].
    + intros [([|i] & Hi & ->)|[Hni _]]; simpl in *; [right; split; [done|f_equal; lia]| |].
      * by apply list_elem_of_lookup_2 in Hi.
      * destruct Hni. by left.
  - rewrite lookup_insert_ne by done. rewrite not_elem_of_cons. split.
    + intros [(i & Hi & ->)|[? ?]]; [left; exists (S i); split; [done|lia]|by right].
    + intros [([|i] & Hi & ->)|[[? ?] ?]]; simpl in *; [congruence| |by right].
      left. exists i. split; [done|lia].
Qed.

(** The declared extents of a group: the whole block, but for the last. *)
Definition extents_shape (live : Z) (extents : list Z) : Prop :=
  forall j x, extents !! j = Some x -> 0 < x <= live /\ (S j < length extents -> x = live)%nat.

Lemma extents_checked gi live extents :
  for_each (fun _ oe => extent_check gi live extents oe.1 oe.2) (indexed extents) tt = OkStatus <-> extents_shape live extents.
Proof.
  rewrite (for_each_all (fun oe : nat * Z => extent_check gi live extents oe.1 oe.2)). split.
  - intros H j x Hj. specialize (H (j, x) (proj2 (indexed_lookup _ _ _) Hj)). unfold extent_check in H. cbn in H.
    destruct (_ || _) eqn:E1; [done|]. to_prop. destruct (negb _ && _) eqn:E2; [done|]. to_prop.
    split; [lia|]. intros Hlt. destruct E2; lia.
  - intros H [j x] Hj%indexed_lookup. destruct (H j x Hj) as [Hx Hfull]. unfold extent_check. cbn.
    destruct (_ || _) eqn:E1; to_prop; [lia|]. destruct (negb _ && _) eqn:E2; [|done]. to_prop.
    apply lookup_lt_Some in Hj. lia.
Qed.

(** The part of [group_state] that depends on the message. *)
Definition fresh_state (view : Group) (segs : list Pool.PoolLiveSegment) : GroupState :=
  {| segments := segs;
     live_bytes := Z.of_nat (length (Pool.live_list segs));
     ordinals := foldl (fun m oi => <[oi.2 := oi.1]> m) ∅ (indexed (Program.g_dst_device_block_ids view));
     coverage := replicate (length (Program.g_dst_device_block_ids view)) [];
     pairs_by_sender := ∅ |}.

(** Structure of an accepted group, over the segments its pools expand to. *)
Record group_shape (gi : Z) (view : Group) (segs : list Pool.PoolLiveSegment) : Prop := {
  sh_pools : Program.g_pool_indices view ≠ [];
  sh_segs : for_each (segments_step pools gi) (Program.g_pool_indices view) [] = Ok segs;
  sh_live : Pool.live_list segs ≠ [];
  sh_extents : Program.g_dst_expected_extent_bytes view ≠ [];
  sh_length : length (Program.g_dst_expected_extent_bytes view) = length (Program.g_dst_device_block_ids view);
  sh_shape : extents_shape (Z.of_nat (length (Pool.live_list segs))) (Program.g_dst_expected_extent_bytes view)
}.

Lemma segments_loop_good gi ps segs :
  for_each (segments_step pools gi) ps [] = Ok segs -> segs_good segs.
Proof.
  intros (_ & [->|(p & spec & Hp & Hsp)] & _)%segments_loop_sound.
  - split; simpl; [i64|done|constructor].
  - by eapply expand_good.
Qed.

Lemma group_state_iff gi view st :
  group_state pools gi view = Ok st <-> exists segs, group_shape gi view segs /\ st = fresh_state view segs.
Proof.
  unfold group_state. destruct (bool_decide (Program.g_pool_indices view = [])) eqn:Ep; to_prop.
  { split; [done|]. by intros (segs & [] & _). }
  destruct (for_each (segments_step pools gi) _ []) as [segs|] eqn:Es.
  2:{ split; [done|]. intros (segs & [] & _). congruence. }
  pose proof (segments_loop_good _ _ _ Es) as [Hok _ _]. rewrite live_total by done.
  assert (Heq : forall segs', group_shape gi view segs' -> segs' = segs) by (intros segs' []; congruence).
  destruct (_ <=? 0) eqn:El; to_prop.
  { split; [done|]. intros (segs' & Hsh & _). pose proof (Heq _ Hsh) as ->. destruct Hsh as [_ _ Hne _ _ _].
    destruct (Pool.live_list segs); simpl in *; [done|lia]. }
  destruct (bool_decide (Program.g_dst_expected_extent_bytes view = [])) eqn:Ee; to_prop.
  { split; [done|]. by intros (segs' & [] & _). }
  destruct (negb _) eqn:En; to_prop.
  { split; [done|]. by intros (segs' & [] & _). }
  destruct (for_each _ (indexed _) tt) as [[]|] eqn:Ex.
  - apply extents_checked in Ex. split.
    + intros [= <-]. exists segs. split; [|done]. split; try done. intros Hnil. rewrite Hnil in El. simpl in El. lia.
    + intros (segs' & Hsh & ->). by rewrite (Heq _ Hsh).
  - split; [done|]. intros (segs' & Hsh & _). pose proof (Heq _ Hsh) as ->. destruct Hsh as [_ _ _ _ _ Hshape].
    apply (extents_checked gi) in Hshape. congruence.
Qed.

End states.

(** ** The bytes a plan writes *)

(** The offsets the entries of group [g] write in destination block [b]. *)
Definition writes (plan : Plan) (g : nat) (b : Z) : list Z :=
  filter (fun re => in_group g re /\ Program.e_dst_block_id re.2 = b) (plan_entries plan) ≫= fun re => entry_bytes re.2.

Lemma for_each_map {A B} (f : A -> StatusOr B) l acc r :
  for_each (fun s x => let? y := f x in Ok (s ++ [y])) l acc = Ok r <->
  exists ys, r = acc ++ ys /\ Forall2 (fun x y => f x = Ok y) l ys.
Proof.
  revert acc. induction l as [|x l IH]; intros acc; simpl.
  { split; [intros [= <-]; exists []; by rewrite app_nil_r|]. intros (ys & -> & H). inversion H. by rewrite app_nil_r. }
  destruct (f x) as [y|] eqn:E.
  - rewrite IH. split.
    + intros (ys & -> & H). exists (y :: ys). rewrite <-app_assoc. split; [done|by constructor].
    + intros (ys & -> & H). inversion H as [|? y' ? ys' Hy Hys]; subst. rewrite E in Hy. injection Hy as <-.
      exists ys'. by rewrite <-app_assoc.
  - split; [done|]. intros (ys & _ & H). inversion H; congruence.
Qed.

Lemma indexed_Forall2 {A B} (R : nat -> A -> B -> Prop) l k :
  Forall2 (fun ix y => R ix.1 ix.2 y) (indexed l) k <->
  length k = length l /\ forall i x y, l !! i = Some x -> k !! i = Some y -> R i x y.
Proof.
  assert (Hlen : length (indexed l) = length l) by (unfold indexed; rewrite length_zip_with, length_seq; lia).
  assert (Hix : forall i x, indexed l !! i = Some x -> x.1 = i /\ l !! i = Some x.2).
  { intros i [j x] (a & b & [= -> ->] & Hs & Hl)%lookup_zip_with_Some. apply lookup_seq in Hs as [-> _]. done. }
  rewrite Forall2_lookup. split.
  - intros H. assert (Hll : length k = length l).
    { rewrite <-Hlen. symmetry. eapply Forall2_length, Forall2_lookup. exact H. }
    split; [done|]. intros i x y Hx Hy. specialize (H i). rewrite Hy in H.
    destruct (indexed l !! i) as [[j x']|] eqn:E; inversion H; subst. apply Hix in E as [E1 E2]. simpl in *. congruence.
  - intros [Hll H] i. destruct (indexed l !! i) as [[j x]|] eqn:E.
    + destruct (Hix _ _ E) as [E1 E2]. simpl in *. subst j. pose proof (lookup_lt_Some _ _ _ E2) as Hlt.
      destruct (lookup_lt_is_Some_2 k i) as [y Hy]; [lia|]. rewrite Hy. constructor. simpl. by eapply H.
    + apply lookup_ge_None in E. rewrite (lookup_ge_None_2 k) by lia. constructor.
Qed.

Section coverage.
Context (pools : list Pool.PoolSpec) (Htable : table_ok pools) (plan : Plan).
Local Abbreviation groups := (Program.pool_groups plan).
Local Abbreviation L := (plan_entries plan).
Hypothesis Hsane : Forall (fun re => entry_sane re.2 /\ pool_group re.2 < Z.of_nat (length groups)) L.
Hypothesis Hnodup : Forall (fun view => NoDup (Program.g_dst_device_block_ids view)) groups.

(** The states before the entry loop. *)
Definition fresh (states0 : list GroupState) : Prop :=
  length states0 = length groups /\
  forall g view st, groups !! g = Some view -> states0 !! g = Some st ->
    exists segs, group_shape pools (Z.of_nat g) view segs /\ st = fresh_state view segs.

Lemma group_states_iff states0 : group_states pools plan = Ok states0 <-> fresh states0.
Proof using Htable.
  unfold group_states. rewrite (for_each_map (fun iv : nat * Group => group_state pools (Z.of_nat iv.1) iv.2)).
  unfold fresh. rewrite <-(indexed_Forall2 (fun g view st => exists segs, group_shape pools (Z.of_nat g) view segs /\ st = fresh_state view segs)).
  assert (Hiff : forall ys, Forall2 (fun (x : nat * Group) y => group_state pools (Z.of_nat x.1) x.2 = Ok y) (indexed groups) ys <->
    Forall2 (fun x y => exists segs, group_shape pools (Z.of_nat x.1) x.2 segs /\ y = fresh_state x.2 segs) (indexed groups) ys)
    by (intros ys; split; intros H; (eapply Forall2_impl; [exact H|]); intros x y; by rewrite group_state_iff).
  split; [intros (ys & -> & H); by apply Hiff|intros H; exists states0; split; [done|by apply Hiff]].
Qed.

Lemma group_lookup states0 re :
  fresh states0 -> re ∈ L ->
  exists g view segs, pool_group re.2 = Z.of_nat g /\ Z.to_nat (pool_group re.2) = g /\ groups !! g = Some view /\
    group_shape pools (Z.of_nat g) view segs /\ states0 !! g = Some (fresh_state view segs).
Proof.
  intros [Hlen Hst] Hre. rewrite Forall_forall in Hsane. destruct (Hsane _ Hre) as [[_ _ _ _ [Hg _] _] Hlt].
  set (g := Z.to_nat (pool_group re.2)). destruct (lookup_lt_is_Some_2 groups g) as [view Hview]; [lia|].
  destruct (lookup_lt_is_Some_2 states0 g) as [st Hst']; [lia|].
  destruct (Hst g view st Hview Hst') as (segs & Hsh & ->). exists g, view, segs. split_and!; try done. lia.
Qed.

Lemma view_nodup g view : groups !! g = Some view -> NoDup (Program.g_dst_device_block_ids view).
Proof. intros H%list_elem_of_lookup_2. rewrite Forall_forall in Hnodup. by apply Hnodup. Qed.

(** Where an entry of a group lands. *)
Lemma lands_iff states0 g view segs e o rs :
  pool_group e = Z.of_nat g -> groups !! g = Some view -> states0 !! g = Some (fresh_state view segs) ->
  lands groups states0 e = Some (g, o, rs) <->
  Program.g_dst_device_block_ids view !! o = Some (Program.e_dst_block_id e) /\
  for_each (repeat_range e segs (default 0 (Program.g_dst_expected_extent_bytes view !! o)))
    (zrange 0 (Program.e_count e)) [] = Ok rs.
Proof.
  intros Hg Hview Hst. unfold lands. rewrite Hg, Nat2Z.id, Hst, Hview. cbn [ordinals segments fresh_state].
  rewrite <-(ordinals_exact (Program.g_dst_device_block_ids view)) by (by eapply view_nodup).
  destruct (foldl _ _ _ !! _) as [o'|]; [|split; [done|by intros [? _]]].
  split.
  - destruct (for_each _ _ []) as [rs'|] eqn:E; [|done]. intros [= <- <-]. by rewrite E.
  - intros [[= ->] ->]. done.
Qed.

Lemma landed_group states0 re g o rs :
  fresh states0 -> re ∈ L -> lands groups states0 re.2 = Some (g, o, rs) -> pool_group re.2 = Z.of_nat g.
Proof.
  intros Hf Hre H. destruct (group_lookup states0 re Hf Hre) as (g' & view & segs & Hg & Hn & _).
  assert (g = Z.to_nat (pool_group re.2)) by (unfold lands in H; repeat case_match; by simplify_eq). lia.
Qed.

(** The ranges collected for a block are the compact-live image of its writes. *)
Lemma block_writes_live states0 g view segs j b :
  fresh states0 -> Forall (fun re => is_Some (lands groups states0 re.2)) L ->
  groups !! g = Some view -> states0 !! g = Some (fresh_state view segs) -> group_shape pools (Z.of_nat g) view segs ->
  Program.g_dst_device_block_ids view !! j = Some b ->
  Forall (fun i : Z * Z => 0 <= i.1 < i.2 /\ i.2 <= Z.of_nat (length (Pool.live_list segs))) (L ≫= ranges_at groups states0 g j) /\
  phys_of segs <$> spread (L ≫= ranges_at groups states0 g j) = writes plan g b.
Proof.
  intros Hf Hl Hview Hst Hsh Hj. unfold writes.
  assert (Hsub : forall re, re ∈ L -> re ∈ L) by done. revert Hsub Hl. generalize L at 1 3 4 5 6. intros l Hsub Hl.
  pose proof (segments_loop_good pools Htable _ _ _ (sh_segs _ _ _ _ Hsh)) as [Hok _ _].
  induction Hl as [|re l [[[g' o'] rs] Hre] Hl IH]; [done|].
  destruct IH as [IHF IH]; [intros re' Hre'; apply Hsub; by right|].
  assert (Hin : re ∈ L) by (apply Hsub; by left). pose proof (landed_group _ _ _ _ _ Hf Hin Hre) as Hpg.
  rewrite bind_cons, spread_app, fmap_app, IH. unfold ranges_at at 1 3. rewrite Hre.
  rewrite Forall_forall in Hsane. destruct (Hsane _ Hin) as [He _].
  case_bool_decide as Hcase.
  - destruct Hcase as [-> ->]. apply (lands_iff states0 g view segs) in Hre as [Ho Hrs]; [|done..].
    rewrite filter_cons_True by (split; [done|]; congruence). rewrite bind_cons.
    apply repeat_ranges_sound in Hrs as [HF ->]; [|done..]. split; [|done].
    apply Forall_app. split; [|done]. eapply Forall_impl; [exact HF|]. simpl. tauto.
  - rewrite filter_cons_False; [split; [done|reflexivity]|]. intros [Hig Hb]. apply Hcase.
    assert (g' = g) as -> by (unfold in_group in Hig; lia). split; [done|].
    apply (lands_iff states0 g view segs) in Hre as [Ho _]; [|done..].
    eapply NoDup_lookup; [by eapply view_nodup|exact Ho|]. by rewrite Hb.
Qed.

(** A block's chain check, in physical offsets. *)
Lemma covered_writes segs ivs b x :
  segs_good segs -> 0 <= x <= Z.of_nat (length (Pool.live_list segs)) ->
  Forall (fun i : Z * Z => 0 <= i.1 < i.2 /\ i.2 <= Z.of_nat (length (Pool.live_list segs))) ivs ->
  block_covered ivs b x = OkStatus <-> phys_of segs <$> spread ivs ≡ₚ take (Z.to_nat x) (Pool.live_list segs).
Proof using Type.
  intros [_ _ Hs] Hx Hivs. rewrite block_covered_exact; [|by eapply Forall_impl; [exact Hivs|simpl; lia]|lia].
  rewrite <-fmap_phys_take by done. split; [by intros ->|].
  intros Hp%(fmap_Permutation (live_rank segs)). rewrite <-!list_fmap_compose in Hp.
  assert (Hid : forall l : list Z, (forall o, o ∈ l -> 0 <= o < Z.of_nat (length (Pool.live_list segs))) ->
            live_rank segs ∘ phys_of segs <$> l = l).
  { intros l Hl. rewrite <-(list_fmap_id l) at 2. apply list_fmap_ext. intros i o Ho. simpl.
    apply phys_rank; [done|]. apply Hl. by eapply list_elem_of_lookup_2. }
  rewrite !Hid in Hp; [done| |].
  - intros o Ho%elem_of_zrange. lia.
  - intros o. unfold spread. rewrite list_elem_of_bind. intros (i & Ho%elem_of_zrange & Hi).
    rewrite Forall_forall in Hivs. specialize (Hivs i Hi). lia.
Qed.

(** What an accepted group promises: its shape, the streams it expects, that every entry
    of the group has one of its blocks, and the bytes written to each block. *)
Record group_covers (g : nat) (view : Group) (segs : list Pool.PoolLiveSegment) : Prop := {
  gc_shape : group_shape pools (Z.of_nat g) view segs;
  gc_pushes : Program.g_expected_pushes view = push_count plan g;
  gc_blocks re : re ∈ L -> in_group g re -> Program.e_dst_block_id re.2 ∈ Program.g_dst_device_block_ids view;
  gc_writes j b x : Program.g_dst_device_block_ids view !! j = Some b ->
    Program.g_dst_expected_extent_bytes view !! j = Some x ->
    writes plan g b ≡ₚ take (Z.to_nat x) (Pool.live_list segs)
}.

Lemma writes_entry g re o :
  re ∈ L -> in_group g re -> o ∈ entry_bytes re.2 -> o ∈ writes plan g (Program.e_dst_block_id re.2).
Proof using Type.
  intros Hre Hg Ho. unfold writes. apply list_elem_of_bind. exists re. split; [done|]. by apply list_elem_of_filter.
Qed.

(** An entry of a covered group lands. *)
Lemma covers_lands states0 re :
  fresh states0 -> (forall g view, groups !! g = Some view -> exists segs, group_covers g view segs) -> re ∈ L ->
  is_Some (lands groups states0 re.2).
Proof.
  intros Hf Hall Hre. destruct (group_lookup states0 re Hf Hre) as (g & view & segs & Hg & _ & Hview & Hsh & Hst).
  destruct (Hall g view Hview) as (segs' & [Hsh' _ Hblocks Hwrites]).
  assert (segs' = segs) as -> by (pose proof (sh_segs _ _ _ _ Hsh); pose proof (sh_segs _ _ _ _ Hsh'); congruence).
  pose proof (segments_loop_good pools Htable _ _ _ (sh_segs _ _ _ _ Hsh)) as [Hok Hap Hs].
  destruct (proj1 (list_elem_of_lookup _ _) (Hblocks re Hre Hg)) as [j Hj].
  destruct (lookup_lt_is_Some_2 (Program.g_dst_expected_extent_bytes view) j) as [x Hx].
  { rewrite (sh_length _ _ _ _ Hsh). by eapply lookup_lt_Some. }
  rewrite Forall_forall in Hsane. destruct (Hsane _ Hre) as [He _].
  destruct (repeat_ranges_complete re.2 segs x) as [rs Hrs]; [done..| |].
  { intros o Ho. apply (writes_entry g) in Ho; [|done..]. rewrite (Hwrites j _ x Hj Hx) in Ho.
    apply list_elem_of_lookup in Ho as [i Hi]. apply lookup_take_Some in Hi as [Hi Hlt].
    split; [by eapply list_elem_of_lookup_2|]. unfold live_rank. rewrite (sorted_rank _ _ _ Hs Hi). lia. }
  exists (g, j, rs). apply (lands_iff states0 g view segs); [done..|]. rewrite Hx. done.
Qed.

(** The last loop, over the states the entry loop leaves. *)
Lemma group_covered_iff states0 g view segs st :
  fresh states0 -> Forall (fun re => is_Some (lands groups states0 re.2)) L ->
  counts L <= kMaxExpandedRepeats -> 0 < Program.parallelism plan ->
  groups !! g = Some view -> states0 !! g = Some (fresh_state view segs) -> group_shape pools (Z.of_nat g) view segs ->
  collected groups states0 L g (fresh_state view segs) st ->
  group_covered (Program.parallelism plan) (Z.of_nat g) view st = OkStatus <-> group_covers g view segs.
Proof.
  intros Hf Hl Hcount Hpar Hview Hst Hsh [_ Hcov Hpairs].
  pose proof (segments_loop_good pools Htable _ _ _ (sh_segs _ _ _ _ Hsh)) as Hgood.
  unfold group_covered. rewrite (calculated_pushes_exact plan g st); [|by eapply Forall_impl; [exact Hsane|naive_solver]|done..].
  assert (Hblock : forall j b x, Program.g_dst_device_block_ids view !! j = Some b ->
    Program.g_dst_expected_extent_bytes view !! j = Some x ->
    block_covered (default [] (coverage st !! j)) b x = OkStatus <->
    writes plan g b ≡ₚ take (Z.to_nat x) (Pool.live_list segs)).
  { intros j b x Hj Hx. destruct (block_writes_live states0 g view segs j b Hf Hl Hview Hst Hsh Hj) as [HF <-].
    rewrite (Hcov j []); [|apply lookup_replicate; split; [done|by eapply lookup_lt_Some]]. simpl.
    apply covered_writes; [done| |done]. destruct (sh_shape _ _ _ _ Hsh j x Hx). lia. }
  assert (Hext : forall j b, Program.g_dst_device_block_ids view !! j = Some b ->
    exists x, Program.g_dst_expected_extent_bytes view !! j = Some x).
  { intros j b Hj. apply lookup_lt_is_Some_2. rewrite (sh_length _ _ _ _ Hsh). by eapply lookup_lt_Some. }
  split.
  - intros H. destruct (negb _) eqn:Ep; [done|]. to_prop.
    rewrite (for_each_all (fun ob : nat * Z => block_covered _ _ _)) in H. split; [done|done| |].
    + intros re Hre Hig. rewrite Forall_forall in Hl. destruct (Hl _ Hre) as [[[g' o] rs] Hlands].
      pose proof (landed_group _ _ _ _ _ Hf Hre Hlands) as Hg'. assert (g' = g) as -> by (unfold in_group in Hig; lia).
      apply (lands_iff states0 g view segs) in Hlands as [Ho _]; [|done..]. by eapply list_elem_of_lookup_2.
    + intros j b x Hj Hx. apply (Hblock j b x Hj Hx). specialize (H (j, b) (proj2 (indexed_lookup _ _ _) Hj)).
      cbn in H. by rewrite Hx in H.
  - intros [_ Hpushes _ Hwrites]. rewrite Hpushes, Z.eqb_refl. simpl.
    apply (for_each_all (fun ob : nat * Z => block_covered _ _ _)). intros [j b] Hj%indexed_lookup. cbn.
    destruct (Hext j b Hj) as [x Hx]. rewrite Hx. simpl. apply (Hblock j b x Hj Hx). by eapply Hwrites.
Qed.

Lemma final_loop_iff (f : nat -> Group -> GroupState -> Status) (states : list GroupState) :
  length states = length groups ->
  for_each (fun _ (ivs : nat * (Group * GroupState)) => f ivs.1 ivs.2.1 ivs.2.2) (indexed (zip groups states)) tt = OkStatus <->
  forall g view st, groups !! g = Some view -> states !! g = Some st -> f g view st = OkStatus.
Proof.
  intros Hlen. rewrite (for_each_all (fun ivs : nat * (Group * GroupState) => f ivs.1 ivs.2.1 ivs.2.2)). split.
  - intros H g view st Hv Hs. specialize (H (g, (view, st))). cbn in H. apply H, indexed_lookup, lookup_zip_with_Some.
    by exists view, st.
  - intros H [g [view st]] (v & s & [= -> ->] & Hv & Hs)%indexed_lookup%lookup_zip_with_Some. cbn. by apply H.
Qed.

Lemma foldl_land_length states0 states l : length (foldl (land groups states0) states l) = length states.
Proof. revert states. induction l as [|re l IH]; intros states; simpl; [done|]. by rewrite IH, land_length. Qed.

Lemma schedules_flat {S} (f : Z -> S -> Entry -> StatusOr S) (scheds : list (Z * list Entry)) s :
  for_each (fun st sched => for_each (f sched.1) sched.2 st) scheds s =
  for_each (fun st re => f re.1 st re.2) (scheds ≫= fun sc => pair sc.1 <$> sc.2) s.
Proof using Type.
  revert s. induction scheds as [|[r es] scheds IH]; intros s; [done|]. rewrite bind_cons, for_each_app. simpl.
  assert (Heq : for_each (fun st re => f re.1 st re.2) (pair r <$> es) s = for_each (f r) es s).
  { clear IH. revert s. induction es as [|e es IH]; intros s; simpl; [done|]. destruct (f r s e); [apply IH|done]. }
  rewrite Heq. destruct (for_each (f r) es s); [apply IH|done].
Qed.

(** The groups of a plan partition its transfer pools. *)
Record pools_partition : Prop := {
  pp_nonneg : Forall (fun p => 0 <= p) (groups ≫= Program.g_pool_indices);
  pp_nodup : NoDup (groups ≫= Program.g_pool_indices);
  pp_length : length (groups ≫= Program.g_pool_indices) = length (Program.transfer_pool_indices plan);
  pp_in p : p ∈ Program.transfer_pool_indices plan -> p ∈ groups ≫= Program.g_pool_indices
}.

Lemma partition_iff {A} (k : StatusOr A) v :
  (let? gp := grouped plan in
   if negb (Z.of_nat (base.size gp) =? Z.of_nat (length (Program.transfer_pool_indices plan)))
   then Err kInvalidArgument StrCat["group pool indices do not partition the plan's transfer pools"]
   else if negb (forallb (fun p => bool_decide (p ∈ gp)) (Program.transfer_pool_indices plan))
   then Err kInvalidArgument StrCat["group pool indices do not partition the plan's transfer pools"]
   else k) = Ok v <-> pools_partition /\ k = Ok v.
Proof using Type.
  clear Hsane Hnodup Htable.
  unfold grouped. rewrite for_each_bind.
  pose proof (for_each_set group_pool_step (fun p => 0 <= p) (groups ≫= Program.g_pool_indices) ∅) as Hset.
  assert (Hstep : forall s x s', group_pool_step s x = Ok s' <-> 0 <= x /\ x ∉ s /\ s' = {[x]} ∪ s).
  { intros s x s'. unfold group_pool_step. destruct (_ || _) eqn:E; to_prop; [split; [done|intros (? & ? & _); destruct E; [lia|done]]|].
    split; [intros [= <-]; split_and!; [lia|tauto|done]|by intros (_ & _ & ->)]. }
  destruct (for_each group_pool_step _ ∅) as [gp|code msg] eqn:Egp.
  2:{ split; [done|]. intros [[HF Hnd _ _] _]. specialize (Hset (list_to_set (groups ≫= Program.g_pool_indices) ∪ ∅) Hstep).
      assert (@Err (gset Z) code msg = Ok (list_to_set (groups ≫= Program.g_pool_indices) ∪ ∅)) by (apply Hset; set_solver). done. }
  destruct (proj1 (Hset gp Hstep) eq_refl) as (HF & Hnd & _ & ->).
  rewrite (right_id_L ∅ (∪)). rewrite size_list_to_set by done.
  destruct (negb (_ =? _)) eqn:Elen; to_prop; [split; [done|]; intros [[] _]; lia|].
  destruct (forallb _ _) eqn:Eall; simpl.
  - assert (Hin : forall p, p ∈ Program.transfer_pool_indices plan -> p ∈ groups ≫= Program.g_pool_indices).
    { intros p Hp%list_elem_of_In. rewrite forallb_forall in Eall. apply Eall in Hp. to_prop. by apply elem_of_list_to_set in Hp. }
    split; [|by intros [_ ?]]. intros ?. split; [|done]. split; [done|done|lia|done].
  - split; [done|]. intros [[_ _ _ Hin] _]. apply not_true_iff_false in Eall. exfalso. apply Eall.
    apply forallb_forall. intros p Hp%list_elem_of_In. apply bool_decide_eq_true, elem_of_list_to_set. by apply Hin.
Qed.

(** The final loop over the states the entry loop leaves. *)
Lemma final_check_iff states0 :
  fresh states0 -> Forall (fun re => is_Some (lands groups states0 re.2)) L -> counts L <= kMaxExpandedRepeats ->
  0 < Program.parallelism plan ->
  for_each (fun _ (ivs : nat * (Group * GroupState)) => group_covered (Program.parallelism plan) (Z.of_nat ivs.1) ivs.2.1 ivs.2.2)
    (indexed (zip groups (foldl (land groups states0) states0 L))) tt = OkStatus <->
  forall g view, groups !! g = Some view -> exists segs, group_covers g view segs.
Proof.
  intros Hf Hl Hc Hpar. pose proof Hf as [Hlen Hst].
  rewrite (final_loop_iff (fun g => group_covered (Program.parallelism plan) (Z.of_nat g))) by (by rewrite foldl_land_length).
  assert (Hg : forall g view, groups !! g = Some view -> exists segs st, group_shape pools (Z.of_nat g) view segs /\
    foldl (land groups states0) states0 L !! g = Some st /\
    (group_covered (Program.parallelism plan) (Z.of_nat g) view st = OkStatus <-> group_covers g view segs)).
  { intros g view Hg. destruct (lookup_lt_is_Some_2 states0 g) as [st0 Hst0]; [rewrite Hlen; by eapply lookup_lt_Some|].
    destruct (Hst g view st0 Hg Hst0) as (segs & Hsh & ->).
    destruct (loop_collected groups states0 L g (fresh_state view segs)) as (st & Hfst & Hcoll); [|done|done|].
    { apply Forall_forall. intros re Hre. rewrite Forall_forall in Hl. rewrite Forall_forall in Hsane.
      destruct (Hsane re Hre) as [[] _]. split; [lia|by apply Hl]. }
    exists segs, st. split; [done|]. split; [done|]. by eapply group_covered_iff. }
  split.
  - intros H g view Hv. destruct (Hg g view Hv) as (segs & st & _ & Hs & Hiff). exists segs. apply Hiff. by eapply H.
  - intros H g view st Hv Hs. destruct (Hg g view Hv) as (segs & st' & Hsh & Hs' & Hiff). rewrite Hs in Hs'. injection Hs' as <-.
    apply Hiff. destruct (H g view Hv) as (segs' & Hc'). enough (segs' = segs) by congruence.
    pose proof (sh_segs _ _ _ _ Hsh). pose proof (sh_segs _ _ _ _ (gc_shape _ _ _ Hc')). congruence.
Qed.

(** The groups' states, the entry loop and the final loop. *)
Lemma coverage_loops_iff :
  0 < Program.parallelism plan ->
  (let? states := group_states pools plan in
   let? st := for_each (fun st sched => for_each (coverage_entry groups sched.1) sched.2 st)
                (map_to_list (Program.shard_push_schedules plan)) (0, states) in
   for_each (fun _ (ivs : nat * (Group * GroupState)) =>
               group_covered (Program.parallelism plan) (Z.of_nat ivs.1) ivs.2.1 ivs.2.2)
     (indexed (zip groups st.2)) tt) = OkStatus <->
  counts L <= kMaxExpandedRepeats /\ forall g view, groups !! g = Some view -> exists segs, group_covers g view segs.
Proof.
  intros Hpar. destruct (group_states pools plan) as [states0|] eqn:Es.
  2:{ split; [done|]. intros [_ Hall]. exfalso. unfold group_states in Es.
      destruct (for_each_succeeds (fun states iv => let? st := group_state pools (Z.of_nat iv.1) iv.2 in Ok (states ++ [st]))
        (fun _ => True) (indexed groups) []) as (r & Hr & _); [|done|congruence].
      intros sts [g view] Hg%indexed_lookup _. destruct (Hall g view Hg) as (segs & Hc). cbn.
      rewrite (proj2 (group_state_iff pools Htable (Z.of_nat g) view (fresh_state view segs))); [eauto|].
      exists segs. split; [apply Hc|done]. }
  apply group_states_iff in Es. pose proof Es as [Hlen Hst]. rewrite schedules_flat. fold L.
  assert (Hsane' : Forall (fun re => entry_sane re.2) L) by (eapply Forall_impl; [exact Hsane|by intros ? []]).
  pose proof (coverage_loop_iff groups L states0 0 states0) as Hloop.
  destruct (for_each _ L (0, states0)) as [[n states]|] eqn:El.
  - destruct (proj1 (Hloop n states Hsane' Hlen eq_refl ltac:(unfold kMaxExpandedRepeats; lia)) eq_refl) as (Hl & -> & Hn & ->).
    cbn [snd]. rewrite final_check_iff by (done || lia). rewrite Z.add_0_l in Hn. tauto.
  - split; [done|]. intros [Hc Hall].
    discriminate (proj2 (Hloop (0 + counts L) (foldl (land groups states0) states0 L) Hsane' Hlen eq_refl
      ltac:(unfold kMaxExpandedRepeats; lia)) (conj (proj2 (Forall_forall _ _) (fun re Hre => covers_lands states0 re Es Hall Hre))
      (conj eq_refl (conj Hc eq_refl)))).
Qed.

(** The coverage check accepts exactly the plans whose groups partition the pools and
    whose entries cover every block of every group. *)
Lemma coverage_iff :
  ValidatePoolReshardReceiverCoverage pools plan = OkStatus <->
  pools_partition /\ 0 < Program.parallelism plan /\ counts L <= kMaxExpandedRepeats /\
  forall g view, groups !! g = Some view -> exists segs, group_covers g view segs.
Proof.
  unfold ValidatePoolReshardReceiverCoverage. cbv zeta. rewrite partition_iff.
  destruct (Program.parallelism plan <=? 0) eqn:E; to_prop.
  - split; [by intros [_ ?]|]. intros (_ & ? & _). lia.
  - rewrite coverage_loops_iff by lia. split; [intros (? & ? & ?)|intros (? & _ & ? & ?)]; done.
Qed.

End coverage.

End PlanCoverage.
