(* ===== verification/PoolPlanReceiver.v ===== *)
(** * What a receiver accepts

    [ValidatePoolReshardPlan] for a receiver, against its declarative contract. *)

From stdpp Require Import strings sorting.
From S2P Require Import Prelude PoolLayout ReshardTypes TransferProgram PoolPlanCheck PoolPlanCheckProofs PoolPlanCoverage.

Module PlanReceiver.
Import PlanCheck PlanCheckProofs PlanCoverage.

(** ** The flat list of destination ids *)

(** [l] is found in [local] from position [c]. *)
Definition found_at (local : list Z) (c : nat) (l : list Z) : Prop :=
  forall i x, l !! i = Some x -> local !! (c + i)%nat = Some x.

Lemma found_at_cons local c x l : found_at local c (x :: l) <-> local !! c = Some x /\ found_at local (S c) l.
Proof.
  unfold found_at. split.
  - intros H. split; [rewrite <-(Nat.add_0_r c); by apply H|]. intros i y Hy. replace (S c + i)%nat with (c + S i)%nat by lia. by apply H.
  - intros [H0 H] [|i] y Hy; simpl in Hy; [injection Hy as <-; by rewrite Nat.add_0_r|].
    replace (c + S i)%nat with (S c + i)%nat by lia. by apply (H i).
Qed.

Lemma found_at_app local c l1 l2 :
  found_at local c (l1 ++ l2) <-> found_at local c l1 /\ found_at local (c + length l1) l2.
Proof.
  revert c. induction l1 as [|x l1 IH]; intros c; simpl.
  - rewrite Nat.add_0_r. split; [intros H; split; [intros i x Hx; done|done]|by intros [_ ?]].
  - rewrite !found_at_cons, IH, Nat.add_succ_r. simpl. tauto.
Qed.

Lemma found_all local l : found_at local 0 l /\ length l = length local <-> l = local.
Proof.
  split; [|intros ->; by split; [intros i x Hx|]].
  intros [H Hlen]. apply list_eq. intros i. destruct (l !! i) as [x|] eqn:E.
  - symmetry. by apply (H i).
  - apply lookup_ge_None in E. symmetry. apply lookup_ge_None. lia.
Qed.

Lemma recv_ids_iff local l s c s' c' :
  for_each (recv_id_step local) l (s, c) = Ok (s', c') <->
  NoDup l /\ (forall x, x ∈ l -> x ∉ s) /\ s' = list_to_set l ∪ s /\ c' = (c + length l)%nat /\ found_at local c l.
Proof.
  revert s c. induction l as [|x l IH]; intros s c; simpl.
  { split; [intros [= <- <-]|intros (_ & _ & -> & -> & _); do 2 f_equal; [set_solver|lia]].
    split_and!; [constructor|set_solver|set_solver|lia|done]. }
  unfold recv_id_step at 1. rewrite found_at_cons, NoDup_cons.
  destruct (bool_decide (x ∈ s)) eqn:Ex; to_prop.
  { split; [done|]. intros (_ & Hf & _). destruct (Hf x); [by left|done]. }
  destruct (bool_decide (local !! c = Some x)) eqn:El; to_prop; cbn [negb].
  - rewrite IH. setoid_rewrite elem_of_cons. split.
    + intros (Hnd & Hf & -> & -> & Hl). split_and!; try done; [|set_solver..|lia].
      intros Hin. specialize (Hf x Hin). set_solver.
    + intros ((Hx & Hnd) & Hf & -> & -> & _ & Hl). split_and!; try done; [|set_solver|lia].
      intros y Hy. specialize (Hf y (or_intror Hy)). set_unfold. naive_solver.
  - split; [done|]. by intros (_ & _ & _ & _ & ? & _).
Qed.

Lemma recv_groups_iff local groups c c' :
  for_each (recv_group_step local) groups c = Ok c' <->
  Forall (fun view => NoDup (Program.g_dst_device_block_ids view)) groups /\
  c' = (c + length (groups ≫= Program.g_dst_device_block_ids))%nat /\
  found_at local c (groups ≫= Program.g_dst_device_block_ids).
Proof.
  revert c. induction groups as [|view groups IH]; intros c; cbn [for_each].
  { split; [intros [= <-]; split_and!; [constructor|simpl; lia|done]|]. intros (_ & -> & _). simpl. f_equal. lia. }
  rewrite bind_cons, found_at_app, length_app, Forall_cons. unfold recv_group_step at 1.
  destruct (for_each (recv_id_step local) _ (∅, c)) as [[s1 c1]|] eqn:E.
  - apply recv_ids_iff in E as (Hnd & _ & _ & -> & Hf). cbn [snd]. rewrite IH, Nat.add_assoc. tauto.
  - split; [done|]. intros ([Hnd _] & _ & Hf & _).
    assert (for_each (recv_id_step local) (Program.g_dst_device_block_ids view) (∅, c) =
      Ok (list_to_set (Program.g_dst_device_block_ids view) ∪ ∅, c + length (Program.g_dst_device_block_ids view))%nat)
      by (apply recv_ids_iff; split_and!; try done; set_solver). congruence.
Qed.

Lemma receiver_ids_iff plan ids :
  receiver_ids_check plan ids = OkStatus <->
  Forall (fun view => NoDup (Program.g_dst_device_block_ids view)) (Program.pool_groups plan) /\
  (Program.pool_groups plan ≫= Program.g_dst_device_block_ids) = ids.
Proof.
  unfold receiver_ids_check. rewrite <-found_all.
  destruct (for_each (recv_group_step ids) _ 0%nat) as [c|] eqn:E.
  - apply recv_groups_iff in E as (Hnd & -> & Hf). rewrite Nat.add_0_l. destruct (negb _) eqn:El; to_prop; [split; [done|]; by intros (_ & _ & ?)|tauto].
  - split; [done|]. intros (Hnd & Hf & Hlen).
    assert (for_each (recv_group_step ids) (Program.pool_groups plan) 0%nat =
      Ok (0 + length (Program.pool_groups plan ≫= Program.g_dst_device_block_ids))%nat); [by apply recv_groups_iff|congruence].
Qed.

(** ** The scan of the entries *)

Lemma run_each_app {A S} (body : S -> A -> option (StatusOr S)) l1 l2 s :
  run_each body (l1 ++ l2) s =
  match run_each body l1 s with Some (Ok s') => run_each body l2 s' | r => r end.
Proof.
  revert s. induction l1 as [|x l1 IH]; intros s; simpl; [done|]. destruct (body s x) as [[s'|]|]; [apply IH|done|done].
Qed.

Section scan.
Context (pools : list Pool.PoolSpec) (num_shards : Z) (plan : Plan) (ids : list Z).

(** The fields of an entry a receiver accepts. *)
Record entry_fields (e : Entry) : Prop := {
  ef_peer : Program.e_dst_peer e ≠ EmptyString;
  ef_src_block : 0 <= Program.e_src_block_id e <= int32_max;
  ef_dst_block : 0 <= Program.e_dst_block_id e <= int32_max;
  ef_shard : 0 <= Program.e_dst_shard_idx e < num_shards;
  ef_src : 0 <= Program.e_src_offset_bytes e /\ 0 <= Program.e_src_stride_bytes e;
  ef_dst : 0 <= Program.e_dst_offset_bytes e /\ 0 <= Program.e_dst_stride_bytes e;
  ef_size : 0 < Program.e_size_bytes e;
  ef_count : 0 < Program.e_count e <= 1048576;
  ef_strides : 1 < Program.e_count e -> 0 < Program.e_src_stride_bytes e /\ 0 < Program.e_dst_stride_bytes e;
  ef_group : 0 <= pool_group e < Z.of_nat (length (Program.pool_groups plan))
}.

(** The span of an entry in a pool of its group. *)
Definition span_ok (e : Entry) (pool_idx : Z) : Prop :=
  exists spec, pool pools (u64 pool_idx) = Some spec /\
    StridedSpanFitsRegions (Program.e_dst_offset_bytes e) (Program.e_dst_stride_bytes e) (Program.e_size_bytes e)
      (Program.e_count e) (Pool.block_stride_bytes spec) (Pool.regions spec) = Some true.

Definition entry_passes (e : Entry) : Prop :=
  entry_fields e /\ Program.e_dst_block_id e ∈ ids /\
  forall view, Program.pool_groups plan !! Z.to_nat (pool_group e) = Some view ->
    Forall (span_ok e) (Program.g_pool_indices view).

(** The ids of the entries that write the start of their block. *)
Definition zero_starts (es : list Entry) : gset Z :=
  list_to_set (Program.e_dst_block_id <$> filter (fun e => Program.e_dst_offset_bytes e = 0) es).

Lemma spans_iff e ps :
  run_each (span_step pools false e) ps tt = Some OkStatus <-> Forall (span_ok e) ps.
Proof.
  induction ps as [|p ps IH]; [split; [constructor|done]|]. rewrite Forall_cons, <-IH. unfold span_ok. cbn [run_each].
  unfold span_step at 1. destruct (pool pools (u64 p)) as [spec|]; [|split; [done|by intros [(? & ? & _) _]]].
  destruct (StridedSpanFitsRegions _ _ _ _ _ _) as [[]|] eqn:E.
  - split; [intros H; split; [by exists spec|done]|by intros [_ ?]].
  - split; [done|]. intros [(? & [= <-] & ?) _]. congruence.
  - split; [done|]. intros [(? & [= <-] & ?) _]. congruence.
Qed.

Lemma fields_iff e :
  in_int32 (Program.e_dst_shard_idx e) -> 0 <= num_shards <= int64_max ->
  bool_decide (Program.e_dst_peer e = EmptyString) || entry_fields_bad e ||
  ((1 <? Program.e_count e) && ((Program.e_src_stride_bytes e =? 0) || (Program.e_dst_stride_bytes e =? 0))) ||
  (num_shards <=? u64 (Program.e_dst_shard_idx e)) || (pool_group e <? 0) ||
  (Z.of_nat (length (Program.pool_groups plan)) <=? pool_group e) = false <-> entry_fields e.
Proof.
  intros Hsh Hns. unfold entry_fields_bad. rewrite !orb_false_iff, andb_false_iff, !orb_false_iff.
  rewrite !Z.ltb_ge, !Z.leb_gt, !Z.eqb_neq, !bool_decide_eq_false. split.
  - intros H. destruct_and! H. split; try done; try lia. rewrite u64_id in * by (unfold in_int32, int32_max, int32_min in *; lia). lia.
  - intros []. rewrite u64_id by (unfold in_int32, int32_max, int32_min in *; lia). split_and!; try done; lia.
Qed.

Lemma entry_step_iff n z e n' z' :
  in_int32 (Program.e_dst_shard_idx e) -> 0 <= num_shards <= int64_max ->
  entry_step pools num_shards plan false (list_to_set ids) (n, z) e = Some (Ok (n', z')) <->
  entry_passes e /\ n' = u64 (n + 1) /\ z' = zero_starts [e] ∪ z.
Proof.
  intros Hsh Hns. unfold entry_passes. rewrite <-(fields_iff e) by done. unfold entry_step, entry_passes. cbn [negb andb].
  destruct (bool_decide (_ = EmptyString)); [split; [done|by intros [[? _] _]]|]. cbn [orb].
  destruct (entry_fields_bad e); [split; [done|by intros [[? _] _]]|]. cbn [orb].
  destruct (_ && _); [split; [done|by intros [[? _] _]]|]. cbn [orb].
  destruct (num_shards <=? _); [split; [done|by intros [[? _] _]]|]. cbn [orb].
  rewrite (bool_decide_ext (_ ∈ list_to_set ids) (Program.e_dst_block_id e ∈ ids)) by set_solver.
  destruct (bool_decide (_ ∈ ids)) eqn:Eid; cbn [negb].
  2:{ apply bool_decide_eq_false in Eid. split; [done|by intros [[_ [? _]] _]]. }
  apply bool_decide_eq_true in Eid.
  destruct (pool_group e <? 0) eqn:Eneg; [split; [done|by intros [[? _] _]]|]. cbn [orb]. apply Z.ltb_ge in Eneg.
  destruct (Z.of_nat _ <=? pool_group e) eqn:Ege.
  { apply Z.leb_le in Ege. rewrite lookup_ge_None_2 by lia. split; [done|by intros [[? _] _]]. }
  apply Z.leb_gt in Ege.
  destruct (lookup_lt_is_Some_2 (Program.pool_groups plan) (Z.to_nat (pool_group e))) as [view Hview]; [lia|].
  rewrite Hview. pose proof (spans_iff e (Program.g_pool_indices view)) as Hsp.
  assert (Hz : (if Program.e_dst_offset_bytes e =? 0 then {[Program.e_dst_block_id e]} ∪ z else z) = zero_starts [e] ∪ z).
  { unfold zero_starts. destruct (_ =? 0) eqn:E; to_prop.
    - rewrite filter_cons_True by done. rewrite filter_nil. set_solver.
    - rewrite filter_cons_False by done. rewrite filter_nil. set_solver. }
  rewrite Hz. destruct (run_each _ _ tt) as [[[]|]|].
  - split; [intros [= <- <-]|by intros (_ & -> & ->)]. split; [|done]. split; [done|]. split; [done|].
    intros v [= <-]. by apply Hsp.
  - split; [done|]. intros [(_ & _ & H) _]. discriminate (proj2 Hsp (H view eq_refl)).
  - split; [done|]. intros [(_ & _ & H) _]. discriminate (proj2 Hsp (H view eq_refl)).
Qed.

Lemma zero_starts_cons e es : zero_starts (e :: es) = zero_starts es ∪ zero_starts [e].
Proof.
  unfold zero_starts. destruct (decide (Program.e_dst_offset_bytes e = 0)).
  - rewrite !(filter_cons_True _ e) by done. rewrite filter_nil. set_solver.
  - rewrite !(filter_cons_False _ e) by done. rewrite filter_nil. set_solver.
Qed.

Lemma entries_iff es n z n' z' :
  Forall (fun e => in_int32 (Program.e_dst_shard_idx e)) es -> 0 <= num_shards <= int64_max -> 0 <= n < 2 ^ 64 ->
  run_each (entry_step pools num_shards plan false (list_to_set ids)) es (n, z) = Some (Ok (n', z')) <->
  Forall entry_passes es /\ n' = u64 (n + Z.of_nat (length es)) /\ z' = zero_starts es ∪ z.
Proof.
  intros Hes Hns. revert n z. induction Hes as [|e es He Hes IH]; intros n z Hn; cbn [run_each].
  { rewrite Z.add_0_r, u64_id by done. unfold zero_starts. rewrite filter_nil.
    split; [intros [= <- <-]; split_and!; [constructor|done|set_solver]|]. intros (_ & -> & ->). do 3 f_equal. set_solver. }
  rewrite Forall_cons, zero_starts_cons.
  pose proof (entry_step_iff n z e (u64 (n + 1)) (zero_starts [e] ∪ z) He Hns) as Hstep.
  destruct (entry_step _ _ _ _ _ (n, z) e) as [[[n1 z1]|]|] eqn:E.
  - apply entry_step_iff in E as (Hp & -> & ->); [|done..]. rewrite IH by (apply Z.mod_pos_bound; lia).
    assert (Hu : u64 (u64 (n + 1) + Z.of_nat (length es)) = u64 (n + Z.of_nat (length (e :: es)))).
    { unfold u64. rewrite Zplus_mod_idemp_l. f_equal. simpl. lia. }
    rewrite Hu, (assoc_L (∪)). tauto.
  - split; [done|]. intros ([Hp _] & _). discriminate (proj2 Hstep (conj Hp (conj eq_refl eq_refl))).
  - split; [done|]. intros ([Hp _] & _). discriminate (proj2 Hstep (conj Hp (conj eq_refl eq_refl))).
Qed.

Definition all_entries : list Entry := (plan_entries plan).*2.

Lemma schedules_iff n' z' :
  Forall (fun e => in_int32 (Program.e_dst_shard_idx e)) all_entries -> 0 <= num_shards <= int64_max ->
  run_each (schedule_step pools num_shards plan false (list_to_set ids))
    (map_to_list (Program.shard_push_schedules plan)) (0, ∅) = Some (Ok (n', z')) <->
  (forall rank es, Program.shard_push_schedules plan !! rank = Some es -> 0 <= rank) /\
  Forall entry_passes all_entries /\ n' = u64 (Z.of_nat (length all_entries)) /\ z' = zero_starts all_entries.
Proof.
  intros Hes Hns. unfold all_entries, plan_entries in *. setoid_rewrite <-elem_of_map_to_list.
  generalize dependent (map_to_list (Program.shard_push_schedules plan)). intros scheds Hes.
  assert (Hflat : (scheds ≫= fun s => pair s.1 <$> s.2).*2 = scheds ≫= snd).
  { clear Hes. induction scheds as [|[r es] scheds IH]; [done|]. rewrite !bind_cons, fmap_app, IH. cbn.
    by rewrite <-list_fmap_compose, (list_fmap_ext (snd ∘ pair r) id), list_fmap_id. }
  rewrite Hflat in *. clear Hflat.
  enough (Hgen : forall n z, 0 <= n < 2 ^ 64 -> Forall (fun e => in_int32 (Program.e_dst_shard_idx e)) (scheds ≫= snd) ->
    run_each (schedule_step pools num_shards plan false (list_to_set ids)) scheds (n, z) = Some (Ok (n', z')) <->
    Forall (fun s => 0 <= s.1) scheds /\
    run_each (entry_step pools num_shards plan false (list_to_set ids)) (scheds ≫= snd) (n, z) = Some (Ok (n', z'))).
  { rewrite Hgen by (done || lia). rewrite entries_iff by (done || lia). rewrite (right_id_L ∅ (∪)), Z.add_0_l.
    rewrite Forall_forall. split; intros [Hr H]; (split; [|done]); [intros r es Hin; by apply (Hr (r, es))|intros [r es] Hin; by apply (Hr r es)]. }
  clear Hes. induction scheds as [|[r es] scheds IH]; intros n z Hn Hes; cbn [run_each]; [split; [intros H; split; [constructor|exact H]|intros [_ H]; exact H]|].
  rewrite bind_cons, run_each_app, Forall_cons. rewrite bind_cons, Forall_app in Hes. destruct Hes as [Hes1 Hes2].
  unfold schedule_step at 1. cbn [fst snd]. destruct (r <? 0) eqn:Er; to_prop; [split; [done|]; intros [[? _] _]; lia|].
  destruct (run_each (entry_step _ _ _ _ _) es (n, z)) as [[[n1 z1]|]|] eqn:E.
  - apply entries_iff in E as (_ & -> & _); [|done..]. rewrite IH by (done || by apply Z.mod_pos_bound). tauto.
  - split; [done|by intros [_ ?]].
  - split; [done|by intros [_ ?]].
Qed.

End scan.

(** ** The contract *)

Section receiver.
Context (pools : list Pool.PoolSpec) (num_shards : Z) (plan : Plan) (ids : list Z).
Local Abbreviation groups := (Program.pool_groups plan).

(** A pool the plan transfers: registered, of the declared type, with the local blocks. *)
Definition pool_declared (p : Z) : Prop :=
  0 <= p /\ exists spec, pool pools p = Some spec /\
    default EmptyString (Program.pool_dtype_tags plan !! Z.to_nat p) = Pool.dtype_tag spec /\
    Forall (fun b => b < Pool.num_blocks spec) ids.

(** One group: its pools share one map of live bytes, its extents are those of full
    blocks but for the last, it expects the streams its schedules make, its entries write
    to its blocks, and they write the live bytes of each block below its extent, each of
    them exactly once and nothing else. *)
Record group_received (g : nat) (view : Group) (segs : list Pool.PoolLiveSegment) : Prop := {
  gr_pools : Program.g_pool_indices view ≠ [];
  gr_shared : Forall (shares pools segs) (Program.g_pool_indices view);
  gr_extents : Program.g_dst_expected_extent_bytes view ≠ [];
  gr_length : length (Program.g_dst_expected_extent_bytes view) = length (Program.g_dst_device_block_ids view);
  gr_shape : extents_shape (Z.of_nat (length (Pool.live_list segs))) (Program.g_dst_expected_extent_bytes view);
  gr_pushes : Program.g_expected_pushes view = push_count plan g;
  gr_blocks re : re ∈ plan_entries plan -> in_group g re ->
    Program.e_dst_block_id re.2 ∈ Program.g_dst_device_block_ids view;
  gr_writes j b x : Program.g_dst_device_block_ids view !! j = Some b ->
    Program.g_dst_expected_extent_bytes view !! j = Some x ->
    writes plan g b ≡ₚ take (Z.to_nat x) (Pool.live_list segs)
}.

Record receiver_plan_ok : Prop := {
  rp_req : Program.req_id plan ≠ EmptyString;
  rp_uuid : 0 < Program.uuid plan;
  rp_chunks : Program.use_block_chunks plan = true;
  rp_tags : length (Program.pool_dtype_tags plan) = length pools;
  rp_transfer : Program.transfer_pool_indices plan ≠ [];
  rp_groups : groups ≠ [];
  rp_positive : Forall (fun view => 0 < Program.g_expected_pushes view) groups;
  rp_ids : ids ≠ [] /\ Forall (fun b => 0 <= b <= int32_max) ids;
  rp_unique : Forall (fun view => NoDup (Program.g_dst_device_block_ids view)) groups;
  rp_concat : (groups ≫= Program.g_dst_device_block_ids) = ids;
  rp_pools : Forall pool_declared (Program.transfer_pool_indices plan);
  rp_nodup : NoDup (Program.transfer_pool_indices plan);
  rp_ranks rank es : Program.shard_push_schedules plan !! rank = Some es -> 0 <= rank;
  rp_entries : Forall (entry_fields num_shards plan) (all_entries plan);
  rp_zero b : b ∈ ids -> b ∈ zero_starts (all_entries plan);
  rp_partition : pools_partition plan;
  rp_parallelism : 0 < Program.parallelism plan;
  rp_repeats : counts (plan_entries plan) <= kMaxExpandedRepeats;
  rp_covered g view : groups !! g = Some view -> exists segs, group_received g view segs
}.

(** The fields hold values of their types. *)
Record plan_typed : Prop := {
  pt_shards : 0 <= num_shards <= int64_max;
  pt_entries : Forall (fun e => in_int32 (Program.e_dst_shard_idx e) /\ in_int32 (pool_group e)) (all_entries plan);
  pt_pools : Forall in_int32 (groups ≫= Program.g_pool_indices);
}.

Lemma declared_step_iff s p s' :
  declared_pool_step pools plan ids s p = Ok s' <-> pool_declared p /\ p ∉ s /\ s' = {[p]} ∪ s.
Proof.
  unfold declared_pool_step, pool_declared. destruct (p <? 0) eqn:E; to_prop; [split; [done|lia]|].
  destruct (bool_decide (p ∈ s)) eqn:Ep; to_prop; [split; [done|by intros (_ & ? & _)]|].
  destruct (pool pools p) as [spec|]; [|split; [done|]; by intros ((_ & ? & ? & _) & _)].
  destruct (bool_decide (_ = _)) eqn:Et; cbn [negb]; to_prop; [|split; [done|]; by intros ((_ & ? & [= <-] & ? & _) & _)].
  destruct (List.find _ ids) as [b|] eqn:Ef.
  - apply find_some in Ef as [Hb%list_elem_of_In Hlt]. to_prop. split; [done|].
    intros ((_ & ? & [= <-] & _ & HF) & _). rewrite Forall_forall in HF. specialize (HF b Hb). lia.
  - split; [intros [= <-]|by intros (_ & _ & ->)]. split; [|done]. split; [done|]. exists spec. split; [done|]. split; [done|].
    apply Forall_forall. intros b Hb%list_elem_of_In. apply (find_none _ _ Ef) in Hb. to_prop. lia.
Qed.

Lemma existsb_false {A} (f : A -> bool) l : existsb f l = false <-> Forall (fun x => f x = false) l.
Proof. rewrite Forall_forall. setoid_rewrite list_elem_of_In. induction l as [|x l IH]; simpl; [tauto|]. rewrite orb_false_iff, IH. naive_solver. Qed.

Lemma prefix_iff :
  plan_prefix_check pools plan ids false = OkStatus <->
  Program.req_id plan ≠ EmptyString /\ 0 < Program.uuid plan /\ Program.use_block_chunks plan = true /\
  Program.transfer_pool_indices plan ≠ [] /\ groups ≠ [] /\
  Forall (fun view => 0 < Program.g_expected_pushes view) groups /\
  length (Program.pool_dtype_tags plan) = length pools /\ ids ≠ [] /\ Forall (fun b => 0 <= b <= int32_max) ids /\
  Forall (fun view => NoDup (Program.g_dst_device_block_ids view)) groups /\
  (groups ≫= Program.g_dst_device_block_ids) = ids /\
  Forall pool_declared (Program.transfer_pool_indices plan) /\ NoDup (Program.transfer_pool_indices plan) /\
  Program.shard_push_schedules plan ≠ ∅.
Proof.
  assert (HE1 : existsb (fun group => Program.g_expected_pushes group <=? 0) groups = false <->
            Forall (fun view => 0 < Program.g_expected_pushes view) groups).
  { rewrite existsb_false. apply Forall_iff. intros v. apply Z.leb_gt. }
  assert (HE2 : existsb (fun b => (b <? 0) || (int32_max <? b)) ids = false <-> Forall (fun b => 0 <= b <= int32_max) ids).
  { rewrite existsb_false. apply Forall_iff. intros b. rewrite orb_false_iff, !Z.ltb_ge. lia. }
  unfold plan_prefix_check, num_pools.
  destruct (bool_decide (Program.req_id plan = EmptyString)) eqn:E1; to_prop; [split; [done|tauto]|].
  destruct (Program.uuid plan <=? 0) eqn:E2; to_prop; [split; [done|lia]|].
  destruct (Program.use_block_chunks plan) eqn:E3; cbn [negb]; [|split; [done|by intros (_ & _ & ? & _)]].
  destruct (bool_decide (Program.transfer_pool_indices plan = [])) eqn:E4; to_prop; [split; [done|tauto]|].
  destruct (bool_decide (groups = [])) eqn:E5; to_prop; [split; [done|tauto]|].
  rewrite <-HE1. destruct (existsb (fun group => _) groups) eqn:E6; [split; [done|]; by intros (_ & _ & _ & _ & _ & ? & _)|].
  destruct (negb (_ =? _)) eqn:E7; to_prop; [split; [done|lia]|].
  destruct (bool_decide (ids = [])) eqn:E8; to_prop; [split; [done|tauto]|].
  rewrite <-HE2. destruct (existsb (fun b => _) ids) eqn:E9; [split; [done|]; by intros (_ & _ & _ & _ & _ & _ & _ & _ & ? & _)|].
  pose proof (receiver_ids_iff plan ids) as Hids.
  destruct (receiver_ids_check plan ids) as [[]|].
  2:{ split; [done|]. intros (_ & _ & _ & _ & _ & _ & _ & _ & _ & ? & ? & _). by discriminate (proj2 Hids (conj H H0)). }
  destruct (proj1 Hids eq_refl) as [Hnd Hcat].
  pose proof (for_each_set (declared_pool_step pools plan ids) pool_declared (Program.transfer_pool_indices plan) ∅
    (list_to_set (Program.transfer_pool_indices plan) ∪ ∅) declared_step_iff) as Hdecl.
  destruct (for_each (declared_pool_step pools plan ids) _ ∅) as [dp|] eqn:Ed.
  2:{ split; [done|]. intros (_ & _ & _ & _ & _ & _ & _ & _ & _ & _ & _ & ? & ? & _). exfalso.
      enough (Err code msg = Ok (list_to_set (Program.transfer_pool_indices plan) ∪ ∅ : gset Z)) by done. apply Hdecl. set_solver. }
  apply (for_each_set _ pool_declared) in Ed as (HF & Hnd' & _ & _); [|exact declared_step_iff].
  destruct (bool_decide (Program.shard_push_schedules plan = ∅)) eqn:E10; to_prop; [split; [done|tauto]|].
  split; [intros _|done]. split_and!; try done; lia.
Qed.

(** ** Spans and coverage *)

Hypothesis Htable : table_ok pools.
Hypothesis Htyped : plan_typed.

Lemma in_all_entries re : re ∈ plan_entries plan -> re.2 ∈ all_entries plan.
Proof. intros H. unfold all_entries. apply list_elem_of_fmap. eauto. Qed.

Lemma all_entries_inv e : e ∈ all_entries plan -> exists re, re ∈ plan_entries plan /\ re.2 = e.
Proof. unfold all_entries. rewrite list_elem_of_fmap. intros (re & -> & H). eauto. Qed.

Lemma spec_facts p spec : pool pools p = Some spec ->
  Pool.pool_int64 spec /\ ok (Pool.Validate spec (-1)) = true /\ Forall Pool.region_int64 (Pool.regions spec) /\
  Forall (Pool.region_ok (Pool.block_stride_bytes spec)) (Pool.regions spec) /\ Pool.block_stride_bytes spec <= int64_max.
Proof.
  intros H. destruct (pool_some pools Htable p spec H) as [Hi Hv]. split; [done|]. split; [done|].
  pose proof Hi as (_ & [_ Hb] & _ & Hr). apply Pool.pool_validate_ok in Hv as [Hok _]; [|done|i64].
  split; [done|]. split; [apply (Pool.po_each _ Hok)|done].
Qed.

(** The bytes of a span that passes are live, inside the block. *)
Lemma span_ok_live e p spec :
  pool pools (u64 p) = Some spec -> span_ok pools e p ->
  (forall o, o ∈ entry_bytes e -> Pool.live_in (Pool.regions spec) o) /\
  Program.e_dst_offset_bytes e + (Program.e_count e - 1) * Program.e_dst_stride_bytes e + Program.e_size_bytes e <= int64_max.
Proof.
  intros Hp (spec' & Hp' & Hs). rewrite Hp in Hp'. injection Hp' as <-.
  destruct (spec_facts _ _ Hp) as (_ & _ & Hri & Hro & Hb).
  destruct (strided_regions_spec (Program.e_dst_offset_bytes e) (Program.e_dst_stride_bytes e) (Program.e_size_bytes e)
    (Program.e_count e) (Pool.block_stride_bytes spec) (Pool.regions spec) Hri Hro Hb) as (b & Hb' & Hiff).
  rewrite Hs in Hb'. injection Hb' as <-. destruct (proj1 Hiff eq_refl) as [Hfit Hlive].
  apply strided_block_exact in Hfit. split; [done|lia].
Qed.

(** An entry whose bytes are live in a pool passes its span check there. *)
Lemma live_span_ok e p spec segs :
  entry_fields num_shards plan e -> in_int32 p -> 0 <= p -> pool pools p = Some spec ->
  Pool.ExpandPoolLiveSegments spec = Ok segs -> (forall o, o ∈ entry_bytes e -> o ∈ Pool.live_list segs) ->
  span_ok pools e p /\
  Program.e_dst_offset_bytes e + (Program.e_count e - 1) * Program.e_dst_stride_bytes e + Program.e_size_bytes e <= int64_max.
Proof.
  intros [_ _ _ _ _ [Ho Hst] Hsz Hc _ _] Hi32 Hp0 Hp Hx Hlive.
  destruct (spec_facts _ _ Hp) as (Hi & Hv & Hri & Hro & Hb).
  destruct (Pool.expand_segments_spec spec segs Hi Hv Hx) as (_ & _ & Hin & Hblock & _).
  assert (Hlast : Program.e_dst_offset_bytes e + (Program.e_count e - 1) * Program.e_dst_stride_bytes e
            + Program.e_size_bytes e - 1 ∈ entry_bytes e).
  { apply elem_of_span_bytes. exists (Program.e_count e - 1). lia. }
  apply Hlive, Hblock in Hlast. split; [|lia].
  destruct (strided_regions_spec (Program.e_dst_offset_bytes e) (Program.e_dst_stride_bytes e) (Program.e_size_bytes e)
    (Program.e_count e) (Pool.block_stride_bytes spec) (Pool.regions spec) Hri Hro Hb) as (b & Hb' & Hiff).
  exists spec. rewrite u64_id by (unfold in_int32, int32_max in *; lia). split; [done|]. rewrite Hb'. f_equal. apply Hiff.
  split; [apply strided_block_exact; lia|]. intros o Ho'. apply Hin. by apply Hlive.
Qed.

Lemma entry_bytes_nonempty e : entry_fields num_shards plan e -> Program.e_dst_offset_bytes e ∈ entry_bytes e.
Proof. intros []. apply elem_of_span_bytes. exists 0. lia. Qed.

Lemma group_index g view p :
  groups !! g = Some view -> p ∈ Program.g_pool_indices view -> p ∈ groups ≫= Program.g_pool_indices.
Proof. intros Hg Hp. apply list_elem_of_bind. exists view. split; [done|]. by eapply list_elem_of_lookup_2. Qed.

Lemma pool_index_facts p : pools_partition plan -> p ∈ groups ≫= Program.g_pool_indices -> 0 <= p /\ in_int32 p.
Proof.
  intros [Hn _ _ _] Hp. rewrite Forall_forall in Hn. pose proof (pt_pools Htyped) as Ht. rewrite Forall_forall in Ht.
  split; [by apply Hn|by apply Ht].
Qed.

(** The entries of a received plan are sane. *)
Lemma sane_of e g view :
  entry_fields num_shards plan e -> in_int32 (pool_group e) ->
  groups !! g = Some view -> pool_group e = Z.of_nat g -> Program.g_pool_indices view ≠ [] ->
  (forall p, p ∈ Program.g_pool_indices view -> span_ok pools e p) -> entry_sane e.
Proof.
  intros Hf Hi Hg Hpg Hne Hspan. destruct (Program.g_pool_indices view) as [|p ps]; [done|].
  destruct (Hspan p ltac:(by left)) as (spec & Hp & Hs). destruct (span_ok_live e p spec Hp) as [_ Hend]; [by exists spec|].
  destruct Hf. split; try tauto; try lia. unfold in_int32 in Hi. lia.
Qed.

(** The coverage of the check and of the contract agree. *)
Lemma covers_received g view segs :
  pools_partition plan -> groups !! g = Some view -> group_covers pools plan g view segs ->
  Forall (entry_passes pools num_shards plan ids) (all_entries plan) -> group_received g view segs.
Proof.
  intros Hpart Hg [[Hpools Hloop Hlive Hext Hlen Hshape] Hpush Hblocks Hwrites] Hpass.
  split; try done. apply segments_loop_sound in Hloop as (HF & _ & _). apply Forall_forall. rewrite Forall_forall in HF. rewrite Forall_forall in Hpass.
  intros p Hp. destruct (HF p Hp) as [?|(spec & Hspec & Hempty)]; [done|exfalso].
  destruct (Program.g_dst_expected_extent_bytes view) as [|x xs] eqn:Ex; [done|].
  destruct (Program.g_dst_device_block_ids view) as [|b bs] eqn:Eb; [done|].
  pose proof (Hwrites 0%nat b x eq_refl eq_refl) as Hw. destruct (Hshape 0%nat x eq_refl) as [Hx _].
  destruct (Pool.live_list segs) as [|o os] eqn:El; [done|].
  assert (Ho : o ∈ writes plan g b) by (rewrite Hw; destruct (Z.to_nat x) eqn:E; [lia|by left]).
  unfold writes in Ho. apply list_elem_of_bind in Ho as (re & Ho & [[Hig _] Hre]%list_elem_of_filter).
  destruct (Hpass _ (in_all_entries re Hre)) as (_ & _ & Hspan).
  unfold in_group in Hig. rewrite Hig, Nat2Z.id in Hspan. specialize (Hspan view Hg). rewrite Forall_forall in Hspan.
  destruct (pool_index_facts p Hpart (group_index g view p Hg Hp)) as [Hp0 Hp32].
  assert (Hu : u64 p = p) by (apply u64_id; unfold in_int32, int32_max in *; lia).
  destruct (span_ok_live re.2 p spec) as [Hl _]; [by rewrite Hu|by apply Hspan|].
  destruct (spec_facts _ _ Hspec) as (Hi & Hv & _). destruct (Pool.expand_segments_spec spec [] Hi Hv Hempty) as (_ & _ & Hin & _).
  apply Hl, Hin in Ho. by apply elem_of_nil in Ho.
Qed.

Lemma received_covers g view segs :
  groups !! g = Some view -> group_received g view segs -> group_covers pools plan g view segs.
Proof.
  intros Hg []. split; try done. split; try done.
  - apply segments_loop_complete; [done|done|by left].
  - destruct (Program.g_dst_expected_extent_bytes view) as [|x xs]; [done|].
    destruct (gr_shape0 0%nat x eq_refl) as [Hx _]. intros Hnil. rewrite Hnil in Hx. simpl in Hx. lia.
Qed.

(** The span checks hold of a plan that satisfies the contract. *)
Lemma received_spans re g view segs :
  pools_partition plan -> re ∈ plan_entries plan -> entry_fields num_shards plan re.2 -> pool_group re.2 = Z.of_nat g ->
  groups !! g = Some view -> group_received g view segs -> Forall (span_ok pools re.2) (Program.g_pool_indices view).
Proof.
  intros Hpart Hre Hf Hpg Hg [Hne Hsh _ Hlen _ _ Hblocks Hwrites]. apply Forall_forall. intros p Hp.
  rewrite Forall_forall in Hsh. destruct (Hsh p Hp) as (spec & Hspec & Hx).
  destruct (pool_index_facts p Hpart (group_index g view p Hg Hp)) as [Hp0 Hp32].
  apply (live_span_ok re.2 p spec segs); try done. intros o Ho.
  destruct (proj1 (list_elem_of_lookup _ _) (Hblocks re Hre Hpg)) as [j Hj].
  destruct (lookup_lt_is_Some_2 (Program.g_dst_expected_extent_bytes view) j) as [x Hxj]; [rewrite Hlen; by eapply lookup_lt_Some|].
  apply (writes_entry plan g) in Ho; [|done..]. rewrite (Hwrites j _ x Hj Hxj) in Ho. by eapply elem_of_take_weaken.
Qed.

Lemma group_at e : entry_fields num_shards plan e ->
  exists g view, pool_group e = Z.of_nat g /\ groups !! g = Some view.
Proof.
  intros []. destruct (lookup_lt_is_Some_2 groups (Z.to_nat (pool_group e))) as [view Hv]; [lia|].
  exists (Z.to_nat (pool_group e)), view. split; [lia|done].
Qed.

(** The coverage check on a plan whose entries have passed. *)
Lemma coverage_of_entries :
  Forall (entry_passes pools num_shards plan ids) (all_entries plan) ->
  Forall (fun view => NoDup (Program.g_dst_device_block_ids view)) groups ->
  ValidatePoolReshardReceiverCoverage pools plan = OkStatus <->
  pools_partition plan /\ 0 < Program.parallelism plan /\ counts (plan_entries plan) <= kMaxExpandedRepeats /\
  forall g view, groups !! g = Some view -> exists segs, group_received g view segs.
Proof.
  intros Hpass Hnd.
  assert (Hsane : (forall view, view ∈ groups -> Program.g_pool_indices view ≠ []) ->
    Forall (fun re => entry_sane re.2 /\ pool_group re.2 < Z.of_nat (length groups)) (plan_entries plan)).
  { intros Hne. apply Forall_forall. intros re Hre%in_all_entries. rewrite Forall_forall in Hpass.
    destruct (Hpass _ Hre) as (Hf & _ & Hspan). split; [|apply Hf]. destruct (group_at _ Hf) as (g & view & Hpg & Hg).
    eapply (sane_of re.2 g view); [done| |done|done|by eapply Hne, list_elem_of_lookup_2|].
    - pose proof (pt_entries Htyped) as Ht. rewrite Forall_forall in Ht. by apply Ht.
    - rewrite Hpg, Nat2Z.id in Hspan. apply Forall_forall. by apply Hspan. }
  split.
  - intros H. assert (Hne : forall view, view ∈ groups -> Program.g_pool_indices view ≠ []).
    { intros view [g Hg]%list_elem_of_lookup. unfold ValidatePoolReshardReceiverCoverage in H. cbv zeta in H.
      apply partition_iff in H as [_ H]. destruct (_ <=? 0); [done|]. destruct (group_states pools plan) as [sts|] eqn:Es; [|done].
      apply (group_states_iff pools Htable plan) in Es as [Hlen Hst].
      destruct (lookup_lt_is_Some_2 sts g) as [st Hs]; [rewrite Hlen; by eapply lookup_lt_Some|].
      destruct (Hst g view st Hg Hs) as (segs & [] & _). done. }
    apply coverage_iff in H as (Hpart & Hpar & Hc & Hall); [|done|by apply Hsane|done].
    split_and!; try done. intros g view Hg. destruct (Hall g view Hg) as [segs Hcov]. exists segs. by apply covers_received.
  - intros (Hpart & Hpar & Hc & Hall). apply coverage_iff; [done| |done|].
    + apply Hsane. intros view [g Hg]%list_elem_of_lookup. destruct (Hall g view Hg) as [segs []]. done.
    + split_and!; try done. intros g view Hg. destruct (Hall g view Hg) as [segs Hr]. exists segs. by apply received_covers.
Qed.

Lemma entry_count_small : Forall (entry_fields num_shards plan) (all_entries plan) ->
  Z.of_nat (length (all_entries plan)) <= counts (plan_entries plan).
Proof.
  unfold all_entries, counts. intros H. rewrite length_fmap. rewrite Forall_fmap in H.
  induction H as [|re l [] H IH]; [done|]. rewrite fmap_cons, zsum_cons. cbn [length]. lia.
Qed.

Lemma zero_find (z : gset Z) : List.find (fun b : Z => negb (bool_decide (b ∈ z))) (elements (list_to_set ids : gset Z)) = None <->
  forall b, b ∈ ids -> b ∈ z.
Proof.
  split.
  - intros H b Hb. assert (Hin : In b (elements (list_to_set ids : gset Z))) by (apply list_elem_of_In; set_solver).
    apply (find_none _ _ H) in Hin. to_prop. done.
  - intros H. destruct (List.find _ _) as [b|] eqn:E; [|done]. apply find_some in E as [Hb%list_elem_of_In Hz]. to_prop.
    destruct Hz. apply H. set_solver.
Qed.

Lemma scan_iff (k : option Status) :
  match run_each (schedule_step pools num_shards plan false (list_to_set ids)) (map_to_list (Program.shard_push_schedules plan)) (0, ∅) with
  | None => None
  | Some (Err c m) => Some (Err c m)
  | Some (Ok (entry_count, zero_start)) =>
      if entry_count =? 0 then Some (Err kInvalidArgument StrCat["reshard plan contains no entries"])
      else
        match List.find (fun b : Z => negb (bool_decide (b ∈ zero_start))) (elements (list_to_set ids : gset Z)) with
        | Some b =>
            Some (Err kInvalidArgument
              StrCat["destination block "; b;
                     " has no transfer entry starting at offset 0; partial-page destination preservation is not implemented"])
        | None => k
        end
  end = Some OkStatus <->
  (forall rank es, Program.shard_push_schedules plan !! rank = Some es -> 0 <= rank) /\
  Forall (entry_passes pools num_shards plan ids) (all_entries plan) /\ u64 (Z.of_nat (length (all_entries plan))) ≠ 0 /\
  (forall b, b ∈ ids -> b ∈ zero_starts (all_entries plan)) /\ k = Some OkStatus.
Proof.
  pose proof (schedules_iff pools num_shards plan ids) as Hsched.
  assert (Hes : Forall (fun e => in_int32 (Program.e_dst_shard_idx e)) (all_entries plan))
    by (eapply Forall_impl; [exact (pt_entries Htyped)|by intros ? []]).
  pose proof (pt_shards Htyped) as Hns.
  destruct (run_each _ _ (0, ∅)) as [[[n z]|]|].
  - destruct (proj1 (Hsched n z Hes Hns) eq_refl) as (Hr & Hp & -> & ->).
    destruct (_ =? 0) eqn:En; to_prop; [split; [done|by intros (_ & _ & ? & _)]|].
    rewrite <-zero_find. destruct (List.find _ _); [split; [done|by intros (_ & _ & _ & ? & _)]|]. tauto.
  - split; [done|]. intros (Hr & Hp & _).
    discriminate (proj2 (Hsched _ _ Hes Hns) (conj Hr (conj Hp (conj eq_refl eq_refl)))).
  - split; [done|]. intros (Hr & Hp & _).
    discriminate (proj2 (Hsched _ _ Hes Hns) (conj Hr (conj Hp (conj eq_refl eq_refl)))).
Qed.

Lemma receiver_plan_sound :
  ValidatePoolReshardPlan pools num_shards plan ids false = Some OkStatus -> receiver_plan_ok.
Proof using Htable Htyped.
  unfold ValidatePoolReshardPlan. pose proof prefix_iff as Hprefix.
  destruct (plan_prefix_check pools plan ids false) as [[]|]; [|done].
  destruct (proj1 Hprefix eq_refl) as (? & ? & ? & ? & ? & ? & ? & ? & ? & Hnd & Hcat & ? & ? & _). clear Hprefix.
  rewrite scan_iff. intros (Hr & Hp & _ & Hz & [= Hcov]).
  apply coverage_of_entries in Hcov as (Hpart & Hpar & Hc & Hall); [|done..].
  split; try done. eapply Forall_impl; [exact Hp|by intros ? []].
Qed.

Lemma receiver_plan_entries : receiver_plan_ok -> Forall (entry_passes pools num_shards plan ids) (all_entries plan).
Proof using Htable Htyped.
  intros []. apply Forall_forall. intros e He. destruct (all_entries_inv e He) as (re & Hre & <-).
  pose proof (proj1 (Forall_forall _ _) rp_entries0 _ He) as Hf. destruct (group_at _ Hf) as (g & view & Hpg & Hg).
  destruct (rp_covered0 g view Hg) as [segs Hrec]. split; [done|]. split.
  - rewrite <-rp_concat0. apply list_elem_of_bind. exists view. split; [|by eapply list_elem_of_lookup_2]. by apply (gr_blocks _ _ _ Hrec).
  - intros view'. rewrite Hpg, Nat2Z.id, Hg. intros [= <-]. by eapply received_spans.
Qed.

Lemma receiver_plan_complete :
  receiver_plan_ok -> ValidatePoolReshardPlan pools num_shards plan ids false = Some OkStatus.
Proof using Htable Htyped.
  intros Hok. pose proof (receiver_plan_entries Hok) as Hp. destruct Hok.
  unfold ValidatePoolReshardPlan. pose proof prefix_iff as Hprefix. destruct rp_ids0 as [Hids ?].
  assert (Hne : all_entries plan ≠ []).
  { intros He. destruct ids as [|b ids']; [done|]. specialize (rp_zero0 b ltac:(by left)). rewrite He in rp_zero0. set_solver. }
  assert (Hpre : plan_prefix_check pools plan ids false = OkStatus).
  { apply Hprefix. split_and!; try done. intros He. apply Hne. unfold all_entries, plan_entries. by rewrite He, map_to_list_empty. }
  rewrite Hpre, scan_iff.
  pose proof (entry_count_small rp_entries0). unfold kMaxExpandedRepeats in rp_repeats0.
  split_and!; try done.
  - rewrite u64_id by lia. destruct (all_entries plan); [done|simpl; lia].
  - f_equal. by apply coverage_of_entries.
Qed.

(** C4: The receiver's trust boundary.  On a manager whose pools validate, and on any message
    whose fields hold values of their types, [ValidatePoolReshardPlan] returns OK to a
    receiver exactly when the plan meets the whole contract [receiver_plan_ok]:
    - it has a request id, a positive uuid and a positive parallelism, uses block chunks,
      names transfer pools and groups, and gives one dtype tag per registered pool;
    - the local block ids are non-empty, non-negative 32-bit numbers, are the groups'
      destination blocks put one after the other, and are distinct within a group;
    - the transfer pools are registered, distinct, of the declared dtype and have those blocks;
      the groups partition them, and the pools of a group share one map of live bytes;
    - the schedule ranks are not negative; every entry has a peer, non-negative 32-bit block
      ids, a shard this worker has, non-negative offsets and strides, a positive size, a
      repeat count from 1 to 2^20 with positive strides when it repeats, and a group of the
      plan; some entry of every local block starts at byte 0; the repeats of the plan stay
      within their limit;
    - each group expects a positive number of pushes, and exactly the streams its schedules
      make; its extents are one per destination block, those of full blocks but for the last;
      its entries go to its blocks; and they write, in each of its destination blocks, exactly
      the live bytes below the block's extent, each exactly once (a permutation of that prefix
      of the live bytes).
    The entries of all destination shards of a block are put together in the last condition, as
    the code does ([shards_not_told_apart]); a block whose first live byte is not byte 0 can
    not meet the contract ([receiver_needs_live_start]). *)
Theorem receiver_plan_exact :
  ValidatePoolReshardPlan pools num_shards plan ids false = Some OkStatus <-> receiver_plan_ok.
Proof using Htable Htyped. split; [apply receiver_plan_sound|apply receiver_plan_complete]. Qed.

End receiver.

(** A pool with two live regions, and a plan of two senders for two blocks: block 5
    whole, block 7 up to compact byte 30. *)
Definition example_entry (off stride size src dst count : Z) : Entry :=
  Program.mkEntry "10.0.0.2:7000" 0 off 0 size src dst 32 stride count None (Some 0).
Definition example_plan : Plan :=
  Program.mkStart [] []
    {[0 := [example_entry 0 20 16 1 5 2; example_entry 0 20 16 2 7 1];
      1 := [example_entry 50 0 40 3 5 1; example_entry 20 0 14 4 7 1]]}
    9 false 2 true 0 "req" ["bf16"] [0] 4 None
    [Program.mkGroup [0] [5; 7] 4 [72; 30] 0] ∅ ∅.
Definition example_pools : list Pool.PoolSpec :=
  [Pool.mkPool "kv" 0 0 100 8
    [Pool.mkRegion "a" 0 20 8 2 2; Pool.mkRegion "b" 50 40 40 1 1] "bf16"].

Lemma example_table : table_ok example_pools.
Proof.
  constructor; [|constructor]. split; [|vm_compute; reflexivity].
  unfold Pool.pool_int64, Pool.region_int64, in_int64. simpl. repeat constructor; simpl; i64.
Qed.
Lemma example_typed : plan_typed 1 example_plan.
Proof.
  split; [i64| |].
  - assert (Hall : all_entries example_plan =
      [example_entry 50 0 40 3 5 1; example_entry 20 0 14 4 7 1; example_entry 0 20 16 1 5 2; example_entry 0 20 16 2 7 1])
      by (vm_compute; reflexivity).
    rewrite Hall. repeat constructor; vm_compute; discriminate.
  - repeat constructor; vm_compute; discriminate.
Qed.

Lemma receiver_plan_exact_witness :
  ValidatePoolReshardPlan example_pools 1 example_plan [5; 7] false = Some OkStatus /\
  exists segs, writes example_plan 0 7 ≡ₚ take 30 (Pool.live_list segs) /\
    Pool.live_list segs = zrange 0 16 ++ zrange 20 36 ++ zrange 50 90.
Proof.
  assert (H : ValidatePoolReshardPlan example_pools 1 example_plan [5; 7] false = Some OkStatus) by (vm_compute; reflexivity).
  split; [exact H|].
  pose proof (proj1 (receiver_plan_exact example_pools 1 example_plan [5; 7] example_table example_typed) H) as [].
  destruct (rp_covered0 0%nat _ eq_refl) as [segs Hrec]. exists segs. split; [by apply (gr_writes _ _ _ _ _ Hrec 1%nat 7 30)|].
  destruct (proj1 (Forall_cons _ _ _) (gr_shared _ _ _ _ _ Hrec)) as [(spec & Hspec & Hx) _].
  vm_compute in Hspec. injection Hspec as <-. vm_compute in Hx. injection Hx as <-. reflexivity.
Defined.

(** A receiver refuses every plan when no pool has a live byte at offset zero: the check
    for an entry at offset zero of each block is not relative to the first live byte. *)
Theorem receiver_needs_live_start pools num_shards plan ids :
  table_ok pools -> plan_typed num_shards plan ->
  Forall (fun spec => ~ Pool.live_in (Pool.regions spec) 0) pools ->
  ValidatePoolReshardPlan pools num_shards plan ids false ≠ Some OkStatus.
Proof.
  intros Htable Htyped Hnone H. apply receiver_plan_sound in H as []; [|done..].
  destruct rp_ids0 as [Hne _]. destruct ids as [|b ids']; [done|]. specialize (rp_zero0 b ltac:(by left)).
  unfold zero_starts in rp_zero0. rewrite elem_of_list_to_set, list_elem_of_fmap in rp_zero0.
  destruct rp_zero0 as (e & -> & [Hz He]%list_elem_of_filter).
  destruct (all_entries_inv plan e He) as (re & Hre & <-). pose proof (proj1 (Forall_forall _ _) rp_entries0 _ He) as Hf.
  destruct (group_at num_shards plan _ Hf) as (g & view & Hpg & Hg). destruct (rp_covered0 g view Hg) as [segs Hrec].
  pose proof (received_spans pools num_shards plan Htable Htyped re g view segs rp_partition0 Hre Hf Hpg Hg Hrec) as Hspan.
  pose proof (gr_pools _ _ _ _ _ Hrec) as Hp. destruct (Program.g_pool_indices view) as [|p ps]; [done|].
  apply Forall_cons in Hspan as [Hspan _]. pose proof Hspan as (spec & Hspec & _).
  destruct (span_ok_live pools Htable re.2 p spec Hspec Hspan) as [Hlive _].
  rewrite Forall_forall in Hnone. apply (Hnone spec).
  - unfold pool in Hspec. destruct (_ <=? _); [done|]. by eapply list_elem_of_lookup_2.
  - rewrite <-Hz. apply Hlive. by eapply entry_bytes_nonempty.
Qed.

(** The pools of a group are used before any check that they are in the table: a plan
    that names one beyond it is not refused but dereferences a null pool. *)
Theorem group_pool_unchecked :
  ValidatePoolReshardPlan example_pools 1
    (Program.mkStart [] [] {[0 := [example_entry 0 20 16 1 5 2]]} 9 false 2 true 0 "req" ["bf16"] [0] 4 None
       [Program.mkGroup [0; 3] [5] 1 [32] 0] ∅ ∅) [5] false = None.
Proof. vm_compute. reflexivity. Qed.

(** The coverage check does not look at the destination shard: a plan that gives each of
    two shards only one half of a block is accepted. *)
Theorem shards_not_told_apart :
  ValidatePoolReshardPlan [Pool.mkPool "kv" 0 0 100 8 [Pool.mkRegion "all" 0 100 100 1 1] "bf16"] 2
    (Program.mkStart [] []
       {[0 := [Program.mkEntry "10.0.0.2:7000" 0 0 0 50 1 5 0 0 1 None (Some 0);
               Program.mkEntry "10.0.0.2:7000" 1 50 50 50 1 5 0 0 1 None (Some 0)]]}
       9 false 2 true 0 "req" ["bf16"] [0] 4 None [Program.mkGroup [0] [5] 1 [100] 0] ∅ ∅) [5] false = Some OkStatus.
Proof. vm_compute. reflexivity. Qed.

End PlanReceiver.
