(* ===== verification/KVCacheManagerBase.v ===== *)
(** * KV cache manager: pools, plans and block chunks

    [src/tpu_sync/kv_cache/kv_cache_manager_base.cc] and the host-buffer accessors of
    [src/tpu_sync/core/raiden_manager_base.cc]: the pool table, the registered plans and
    the resolution of a block to the chunks of host memory a transfer reads or writes.
    Host pointers are addresses ([0] is the null pointer), [size_t] values are kept modulo
    [2^64].  The host allocator and the device copies are parameters. *)

From stdpp Require Import strings.
From S2P Require Import Prelude PoolLayout ReshardTypes TransferProgram PoolPlanCheck.

Module Manager.

Abbreviation Plan := Program.StartTransferRequest.
Abbreviation Entry := Program.ShardPushEntryProto.

(** ** Copy lists *)

Definition ValidateOffsetsAndSizes (src_offsets dst_offsets sizes : list Z) : Status :=
  if negb (bool_decide (dst_offsets = [])) && negb (length src_offsets =? length dst_offsets)%nat then
    Err kInvalidArgument StrCat["src_offsets, dst_offsets, and sizes must have the same length"]
  else if negb (bool_decide (sizes = [])) && negb (length src_offsets =? length sizes)%nat then
    Err kInvalidArgument StrCat["src_offsets, dst_offsets, and sizes must have the same length"]
  else if existsb (fun val => val <? 0) src_offsets then
    Err kInvalidArgument StrCat["copy offsets and sizes must be non-negative"]
  else if existsb (fun val => val <? 0) dst_offsets then
    Err kInvalidArgument StrCat["copy offsets and sizes must be non-negative"]
  else if existsb (fun val => val <? 0) sizes then
    Err kInvalidArgument StrCat["copy offsets and sizes must be non-negative"]
  else OkStatus.

Definition ToHostBlockIds (offsets : list Z) : StatusOr (list Z) :=
  for_each (fun ids offset =>
              if (offset <? 0) || (int32_max <? offset) then
                Err kInvalidArgument StrCat["Invalid host block ID: "; offset]
              else Ok (ids ++ [offset])) offsets [].

(** One copy of the major dimension: source, destination and size.  The output vectors
    are kept with their back first. *)
Definition coalesce_copy (out : list (Z * Z * Z)) (copy : Z * Z * Z) : list (Z * Z * Z) :=
  let '(src, dst, size) := copy in
  match out with
  | (out_src, out_dst, out_size) :: rest =>
      if (src =? wrap64 (out_src + out_size)) && (dst =? wrap64 (out_dst + out_size))
      then (out_src, out_dst, wrap64 (out_size + size)) :: rest
      else copy :: out
  | [] => [copy]
  end.

Definition CoalesceMajorDimCopies (src_offsets dst_offsets sizes : list Z) : list (Z * Z * Z) :=
  rev (foldl coalesce_copy [] (zip (zip src_offsets dst_offsets) sizes)).

(** ** State *)

Record ShardInfo : Type := mkShard {
  host_ptr : Z;
  host_size : Z;
  device_size : Z
}.

Record RegisteredPlan : Type := mkRegistered {
  request : Plan;
  is_sender : bool
}.

(** [buffer_holds_] by the physical size of each layer's device buffer; empty in a
    host-only manager. *)
Record State : Type := mkState {
  num_layers_ : Z;
  num_shards_ : Z;
  slice_byte_size_ : Z;
  major_dim_size_ : Z;
  layers_ : list (list ShardInfo);
  buffer_holds_ : list Z;
  pools_ : list Pool.PoolSpec;
  explicit_pools_ : bool;
  active_plans_ : gmap Z RegisteredPlan;
  staging_num_slots_ : Z;
  staging_max_major_per_slot_ : Z
}.

Implicit Types (s : State).

Definition set_layers s l : State :=
  mkState (num_layers_ s) (num_shards_ s) (slice_byte_size_ s) (major_dim_size_ s) l (buffer_holds_ s) (pools_ s)
    (explicit_pools_ s) (active_plans_ s) (staging_num_slots_ s) (staging_max_major_per_slot_ s).
Definition set_pools s pools explicit : State :=
  mkState (num_layers_ s) (num_shards_ s) (slice_byte_size_ s) (major_dim_size_ s) (layers_ s) (buffer_holds_ s) pools
    explicit (active_plans_ s) (staging_num_slots_ s) (staging_max_major_per_slot_ s).
Definition set_plans s plans : State :=
  mkState (num_layers_ s) (num_shards_ s) (slice_byte_size_ s) (major_dim_size_ s) (layers_ s) (buffer_holds_ s) (pools_ s)
    (explicit_pools_ s) plans (staging_num_slots_ s) (staging_max_major_per_slot_ s).
Definition set_staging s slots per_slot : State :=
  mkState (num_layers_ s) (num_shards_ s) (slice_byte_size_ s) (major_dim_size_ s) (layers_ s) (buffer_holds_ s) (pools_ s)
    (explicit_pools_ s) (active_plans_ s) slots per_slot.

(** Indexing a vector at a [size_t]. *)
Definition at_ {A} (l : list A) (i : Z) : option A :=
  if (0 <=? i) && (i <? Z.of_nat (length l)) then l !! Z.to_nat i else None.

(** ** Host buffers *)

Definition local_shard s (layer_idx shard_idx : Z) : option ShardInfo :=
  match at_ (layers_ s) layer_idx with
  | Some ((_ :: _) as shards) => at_ shards (shard_idx mod Z.of_nat (length shards))
  | _ => None
  end.

Definition GetHostPointer s (layer_idx shard_idx : Z) : Z :=
  match local_shard s layer_idx shard_idx with Some sh => host_ptr sh | None => 0 end.

Definition GetHostSize s (layer_idx shard_idx : Z) : Z :=
  match local_shard s layer_idx shard_idx with Some sh => host_size sh | None => 0 end.

(** [None]: an index past [buffer_holds_] is read. *)
Definition layer_block_byte_size s (layer_idx : Z) : option Z :=
  match at_ (buffer_holds_ s) layer_idx with
  | Some physical_size =>
      Some (if 0 <? physical_size then Z.quot (wrap64 physical_size) (major_dim_size_ s) else slice_byte_size_ s)
  | None => None
  end.

Definition LayerBlockByteSize s (layer_idx : Z) : Z :=
  if num_layers_ s <=? layer_idx then -1
  else match layer_block_byte_size s layer_idx with
       | Some size => size
       | None => wrap64 (slice_byte_size_ s)
       end.

Definition num_block_arrays s : Z :=
  if explicit_pools_ s then Z.of_nat (length (pools_ s)) else num_layers_ s.

Definition block_bytes s (block_array_idx : Z) : Z :=
  if negb (explicit_pools_ s) then
    let per_layer := LayerBlockByteSize s block_array_idx in
    if 0 <? per_layer then per_layer else slice_byte_size_ s
  else
    match at_ (pools_ s) block_array_idx with
    | Some pool => if Pool.block_stride_bytes pool <=? 0 then 0 else Pool.block_stride_bytes pool
    | None => 0
    end.

Definition GetBlockArrayHostPointer s (block_array_idx shard_idx : Z) : Z :=
  if negb (explicit_pools_ s) then GetHostPointer s block_array_idx shard_idx
  else
    match at_ (pools_ s) block_array_idx with
    | None => 0
    | Some pool =>
        let storage_base := GetHostPointer s (Pool.storage_index pool) shard_idx in
        if storage_base =? 0 then 0 else u64 (storage_base + Pool.base_offset_bytes pool)
    end.

Definition GetBlockArrayHostSize s (block_array_idx shard_idx : Z) : Z :=
  if negb (explicit_pools_ s) then GetHostSize s block_array_idx shard_idx
  else
    match at_ (pools_ s) block_array_idx with
    | None => 0
    | Some pool =>
        let storage_size := GetHostSize s (Pool.storage_index pool) shard_idx in
        let base_offset := u64 (Pool.base_offset_bytes pool) in
        let storage_end := Pool.storage_extent_end_bytes pool in
        if (storage_end <? Pool.base_offset_bytes pool) || (storage_size <? u64 storage_end) ||
           (storage_size <? base_offset)
        then 0 else u64 (wrap64 (storage_end - Pool.base_offset_bytes pool))
    end.

Definition GetBlockHostPointer s (layer_idx shard_idx block_id : Z) : Z :=
  if explicit_pools_ s then
    match at_ (pools_ s) layer_idx with
    | None => 0
    | Some pool =>
        if (block_id <? 0) || (Pool.num_blocks pool <=? block_id) then 0
        else
          let storage_base := GetHostPointer s (Pool.storage_index pool) shard_idx in
          if storage_base =? 0 then 0
          else u64 (storage_base + Pool.base_offset_bytes pool + block_id * Pool.block_stride_bytes pool)
    end
  else
    let base := GetBlockArrayHostPointer s layer_idx shard_idx in
    if (base =? 0) || (block_id <? 0) then 0 else u64 (base + u64 (block_id * block_bytes s layer_idx)).

Definition GetBlockHostPointerValue s (layer_idx shard_idx block_id : Z) : StatusOr Z :=
  if block_id <? 0 then Err kInvalidArgument StrCat["block_id must be non-negative"]
  else
    let bytes := block_bytes s layer_idx in
    let host_size := GetHostSize s layer_idx shard_idx in
    let base := GetHostPointer s layer_idx shard_idx in
    if base =? 0 then Err kOutOfRange StrCat["layer or shard index out of range"]
    else if (bytes =? 0) || (host_size / bytes <? block_id) ||
            (host_size <? u64 (u64 (block_id * bytes) + bytes))
    then Err kOutOfRange StrCat["block range exceeds host buffer"]
    else Ok (u64 (base + u64 (block_id * bytes))).

(** ** Staging slots *)

Definition ConfigureHostStagingSlots s (num_slots max_major_per_slot : Z) : Status * State :=
  if num_slots <=? 0 then (Err kInvalidArgument StrCat["num_slots must be positive"], s)
  else if max_major_per_slot <=? 0 then (Err kInvalidArgument StrCat["max_major_per_slot must be positive"], s)
  else (OkStatus, set_staging s num_slots max_major_per_slot).

Record KVCacheHostSpan : Type := mkSpan {
  span_ptr : Z;
  nbytes : Z;
  span_slot_idx : Z;
  base_major : Z;
  span_num_major : Z;
  span_layer_idx : Z;
  span_shard_idx : Z
}.

(** [None] as for [layer_block_byte_size]. *)
Definition HostSpan s (layer_idx shard_idx slot_idx num_major : Z) : option (StatusOr KVCacheHostSpan) :=
  if (staging_num_slots_ s <=? 0) || (staging_max_major_per_slot_ s <=? 0) then
    Some (Err kFailedPrecondition StrCat["Host staging slots have not been configured"])
  else if (slot_idx <? 0) || (staging_num_slots_ s <=? slot_idx) then
    Some (Err kOutOfRange StrCat["slot_idx out of range"])
  else if (num_major <? 0) || (staging_max_major_per_slot_ s <? num_major) then
    Some (Err kOutOfRange StrCat["num_major out of range"])
  else
    match at_ (layers_ s) layer_idx with
    | None => Some (Err kOutOfRange StrCat["HostSpan layer or shard index out of range"])
    | Some shards =>
        match at_ shards shard_idx with
        | None => Some (Err kOutOfRange StrCat["HostSpan layer or shard index out of range"])
        | Some shard_info =>
            match layer_block_byte_size s layer_idx with
            | None => None
            | Some layer_block_size =>
            let base_major := wrap64 (slot_idx * staging_max_major_per_slot_ s) in
            let byte_offset := u64 (u64 base_major * u64 layer_block_size) in
            let nbytes := u64 (u64 num_major * u64 layer_block_size) in
            if host_size shard_info <? u64 (byte_offset + nbytes) then
              Some (Err kOutOfRange StrCat["HostSpan exceeds host staging buffer"])
            else Some (Ok (mkSpan (u64 (host_ptr shard_info + byte_offset)) nbytes slot_idx base_major num_major layer_idx shard_idx))
            end
        end
    end.

(** ** Pools *)

Definition implicit_pool (storage_idx stride num_blocks : Z) : Pool.PoolSpec :=
  Pool.mkPool "opaque" storage_idx 0 stride num_blocks [Pool.mkRegion "block" 0 stride stride 1 1] EmptyString.

Definition implicit_pools s : list Pool.PoolSpec :=
  omap (fun storage_idx =>
          let stride := LayerBlockByteSize s storage_idx in
          if stride <=? 0 then None
          else
            let num_blocks := Z.quot (wrap64 (GetHostSize s storage_idx 0)) stride in
            if num_blocks <=? 0 then None else Some (implicit_pool storage_idx stride num_blocks))
    (zrange 0 (num_layers_ s)).

Definition EnsureImplicitPools s : State :=
  if explicit_pools_ s || negb (bool_decide (pools_ s = [])) then s
  else set_pools s (implicit_pools s) false.

(** [host_allocator_] when set ([None] for a null allocation), else [posix_memalign]. *)
Record Allocator : Type := mkAllocator {
  host_allocator_ : option (Z -> StatusOr (Z * Z));
  posix_memalign : Z -> option Z
}.

Definition grow_shard (a : Allocator) (needed_bytes : Z) (sh : ShardInfo) : StatusOr ShardInfo :=
  if needed_bytes <=? wrap64 (host_size sh) then Ok sh
  else
    let alloc_size := u64 needed_bytes in
    match host_allocator_ a with
    | Some alloc =>
        let? allocation := alloc alloc_size in
        if (allocation.1 =? 0) || (allocation.2 <? alloc_size) then
          Err kInternal
            StrCat["host allocator returned undersized buffer for pool mirror: "; "requested="; alloc_size]
        else Ok (mkShard allocation.1 allocation.2 (device_size sh))
    | None =>
        match posix_memalign a alloc_size with
        | None => Err kInternal StrCat["failed to allocate pool host mirror of size "; alloc_size]
        | Some ptr => Ok (mkShard ptr alloc_size (device_size sh))
        end
    end.

(** The shards are grown one by one: those before an error keep their new buffers. *)
Fixpoint grow_shards (a : Allocator) (needed_bytes : Z) (shards : list ShardInfo) : Status * list ShardInfo :=
  match shards with
  | [] => (OkStatus, [])
  | sh :: rest =>
      match grow_shard a needed_bytes sh with
      | Err c m => (Err c m, shards)
      | Ok sh' => let '(st, rest') := grow_shards a needed_bytes rest in (st, sh' :: rest')
      end
  end.

Definition EnsureHostMirrorCovers (a : Allocator) s (storage_idx needed_bytes : Z) : Status * State :=
  match at_ (layers_ s) storage_idx with
  | None => (OkStatus, s)
  | Some shards =>
      if needed_bytes <=? 0 then (OkStatus, s)
      else
        let '(st, shards') := grow_shards a needed_bytes shards in
        (st, set_layers s (<[Z.to_nat storage_idx := shards']> (layers_ s)))
  end.

Definition register_pool (a : Allocator) (pool_idx : nat) (pool : Pool.PoolSpec) s : Status * State :=
  if num_layers_ s <=? Pool.storage_index pool then
    (Err kInvalidArgument
       StrCat["pool "; Z.of_nat pool_idx; " ("; Pool.tag pool; ") storage_index "; Pool.storage_index pool;
              " out of range: manager wraps "; num_layers_ s; " storages"], s)
  else
    let device := match at_ (buffer_holds_ s) (Pool.storage_index pool) with
                  | Some size => if 0 <? size then Some size else None
                  | None => None
                  end in
    let storage_bytes := match device with
                         | Some size => wrap64 size
                         | None =>
                             let host_size := GetHostSize s (Pool.storage_index pool) 0 in
                             if 0 <? host_size then wrap64 host_size else -1
                         end in
    match Pool.Validate pool storage_bytes with
    | Err _ msg => (Err kInvalidArgument (StrCat["invalid pool "; Z.of_nat pool_idx; ": "] ++ msg), s)
    | Ok _ =>
        match device with
        | Some _ => EnsureHostMirrorCovers a s (Pool.storage_index pool) (Pool.storage_extent_end_bytes pool)
        | None => (OkStatus, s)
        end
    end.

Fixpoint register_pools (a : Allocator) (pool_idx : nat) (pools : list Pool.PoolSpec) s : Status * State :=
  match pools with
  | [] => (OkStatus, s)
  | pool :: rest =>
      match register_pool a pool_idx pool s with
      | (Ok _, s') => register_pools a (S pool_idx) rest s'
      | (Err c m, s') => (Err c m, s')
      end
  end.

Definition RegisterPools (a : Allocator) s (pools : list Pool.PoolSpec) : Status * State :=
  if bool_decide (pools = []) then (Err kInvalidArgument StrCat["pool table must be non-empty"], s)
  else if negb (bool_decide (active_plans_ s = ∅)) then
    (Err kFailedPrecondition StrCat["pools cannot be changed while active plans are registered"], s)
  else
    match register_pools a 0 pools s with
    | (Ok _, s') => (OkStatus, set_pools s' pools true)
    | (Err c m, s') => (Err c m, s')
    end.

Definition pool s (pool_idx : Z) : option Pool.PoolSpec := at_ (pools_ (EnsureImplicitPools s)) pool_idx.
Definition num_pools s : Z := Z.of_nat (length (pools_ (EnsureImplicitPools s))).

Definition PoolIndicesWithTag s (tag : string) : list Z :=
  let pools := pools_ (EnsureImplicitPools s) in
  filter (fun i => option_map Pool.tag (at_ pools i) = Some tag) (zrange 0 (Z.of_nat (length pools))).

Record PoolBlockRef : Type := mkRef {
  ref_ptr : Z;
  ref_block_stride_bytes : Z;
  ref_pool : Pool.PoolSpec;
  ref_pool_idx : Z;
  ref_shard_idx : Z;
  ref_block_id : Z
}.

Definition GetPoolBlockRef s (pool_idx shard_idx block_id : Z) : StatusOr PoolBlockRef :=
  let s := EnsureImplicitPools s in
  match at_ (pools_ s) pool_idx with
  | None =>
      Err kOutOfRange
        StrCat["pool index "; pool_idx; " out of range: "; Z.of_nat (length (pools_ s)); " pools"]
  | Some pool =>
      if block_id <? 0 then Err kInvalidArgument StrCat["block_id must be non-negative"]
      else if (num_layers_ s <=? Pool.storage_index pool) || (num_shards_ s <=? shard_idx) then
        Err kOutOfRange StrCat["storage or shard index out of range"]
      else
        match at_ (layers_ s) (Pool.storage_index pool) ≫= fun shards => at_ shards shard_idx with
        | None => Err kOutOfRange StrCat["storage or shard index out of range"]
        | Some shard_info =>
            let base := host_ptr shard_info in
            if base =? 0 then Err kFailedPrecondition StrCat["host pointer is null"]
            else if Pool.num_blocks pool <=? block_id then
              Err kOutOfRange
                StrCat["block_id "; block_id; " out of range for pool "; pool_idx; " ("; Pool.tag pool;
                       "): num_blocks="; Pool.num_blocks pool]
            else
              let offset := wrap64 (Pool.base_offset_bytes pool + wrap64 (block_id * Pool.block_stride_bytes pool)) in
              let block_live_end := foldl (fun acc r => Z.max acc (Pool.extent_end_bytes r)) 0 (Pool.regions pool) in
              if (wrap64 (host_size shard_info) <? offset) ||
                 (wrap64 (wrap64 (host_size shard_info) - offset) <? block_live_end)
              then Err kOutOfRange StrCat["block live regions exceed host buffer"]
              else Ok (mkRef (u64 (base + offset)) (Pool.block_stride_bytes pool) pool pool_idx shard_idx block_id)
        end
  end.

(** ** Copies between the device and the mirror *)

(** One copy of a shard: host address, device offset, bytes. *)
Record DeviceCopy : Type := mkCopy {
  copy_host : Z;
  copy_device_offset : Z;
  copy_bytes : Z
}.

Definition extent_check (shard_info : ShardInfo) (_ : unit) (extent : Pool.PoolBlockCopyExtent) : Status :=
  let end_ := wrap64 (Pool.ext_offset_bytes extent + Pool.size_bytes extent) in
  if wrap64 (host_size shard_info) <? end_ then
    Err kOutOfRange StrCat["pool block copy exceeds host buffer size"]
  else if device_size shard_info <? end_ then
    Err kOutOfRange StrCat["pool block copy exceeds device buffer size"]
  else OkStatus.

(** The copies of one shard; [issue] starts them and may refuse. *)
Definition copy_shard (issue : Z -> list DeviceCopy -> Status) (shards : list ShardInfo)
    (extents : list Pool.PoolBlockCopyExtent) (issued : list (Z * list DeviceCopy)) (sh : Z) :
    StatusOr (list (Z * list DeviceCopy)) :=
  match at_ shards sh with
  | None => Err kInternal StrCat["shard vector index out of range"]
  | Some shard_info =>
      if host_ptr shard_info =? 0 then Err kFailedPrecondition StrCat["host pointer is null"]
      else
        let? _ := for_each (extent_check shard_info) extents tt in
        let copies := (fun e => mkCopy (u64 (host_ptr shard_info + Pool.ext_offset_bytes e)) (Pool.ext_offset_bytes e)
                                  (Pool.size_bytes e)) <$> extents in
        let? _ := issue sh copies in
        Ok (issued ++ [(sh, copies)])
  end.

(** The result is the copies issued, by shard, in order. *)
Definition CopyPoolBlocks (issue : Z -> list DeviceCopy -> Status) s (pool_idx : Z) (block_ids : list Z)
    (shard_idx : option Z) : StatusOr (list (Z * list DeviceCopy)) :=
  let s := EnsureImplicitPools s in
  match at_ (pools_ s) pool_idx with
  | None =>
      Err kOutOfRange
        StrCat["pool index "; pool_idx; " out of range: "; Z.of_nat (length (pools_ s)); " pools"]
  | Some pool =>
      match at_ (buffer_holds_ s) (Pool.storage_index pool), at_ (layers_ s) (Pool.storage_index pool) with
      | Some _, Some shards =>
          if match shard_idx with Some i => num_shards_ s <=? i | None => false end then
            Err kOutOfRange StrCat["shard index out of range"]
          else
            let? extents := Pool.ComputePoolBlockCopyExtents pool block_ids in
            for_each (copy_shard issue shards extents)
              (filter (fun sh => shard_idx = None \/ shard_idx = Some sh) (zrange 0 (num_shards_ s))) []
      | _, _ => Err kFailedPrecondition StrCat["pool storage has no device buffers (host-only manager)"]
      end
  end.

(** ** Registered plans *)

Definition seen_step (pool_count : Z) (seen : gset Z) (pool_idx : Z) : StatusOr (gset Z) :=
  if (pool_idx <? 0) || (pool_count <=? pool_idx) then
    Err kInvalidArgument
      StrCat["transfer pool index "; pool_idx; " out of range: "; pool_count; " registered pools"]
  else if bool_decide (pool_idx ∈ seen) then
    Err kInvalidArgument StrCat["duplicate transfer pool index "; pool_idx]
  else Ok ({[pool_idx]} ∪ seen).

Definition dtype_check (plan : Plan) (_ : unit) (ip : nat * Pool.PoolSpec) : Status :=
  let tag := default EmptyString (Program.pool_dtype_tags plan !! ip.1) in
  if negb (bool_decide (tag = Pool.dtype_tag ip.2)) then
    Err kInvalidArgument
      StrCat["plan dtype tag mismatch for pool "; Z.of_nat ip.1; " ("; Pool.tag ip.2; "): plan="; tag;
             " local="; Pool.dtype_tag ip.2]
  else OkStatus.

Definition plan_structure_check s (plan : Plan) : Status :=
  let has_transfer_pools := negb (bool_decide (Program.transfer_pool_indices plan = [])) in
  if negb (eqb has_transfer_pools (negb (bool_decide (Program.pool_groups plan = [])))) then
    Err kInvalidArgument
      StrCat["pool-addressed plans must declare pool_groups partitioning their transfer_pool_indices"]
  else
    let? _ :=
      if has_transfer_pools then
        if existsb (fun group => Program.g_expected_pushes group <=? 0) (Program.pool_groups plan) then
          Err kInvalidArgument StrCat["every pool group must expect a positive push count"]
        else if bool_decide (Program.req_id plan = EmptyString) then
          Err kInvalidArgument StrCat["pool-keyed transfer plans require a non-empty req_id"]
        else
          let? _ := for_each (seen_step (num_pools s)) (Program.transfer_pool_indices plan) ∅ in OkStatus
      else OkStatus in
    let tags := Z.of_nat (length (Program.pool_dtype_tags plan)) in
    if (0 <? tags) && explicit_pools_ s then
      if negb (tags =? Z.of_nat (length (pools_ s))) then
        Err kInvalidArgument
          StrCat["plan pool_dtype_tags count "; tags; " does not match local pool count "; Z.of_nat (length (pools_ s))]
      else for_each (dtype_check plan) (PlanCheck.indexed (pools_ s)) tt
    else OkStatus.

Definition RegisterActivePlan s (uuid : Z) (plan : Plan) (sender : bool) : Status * State :=
  match plan_structure_check s plan with
  | Err c m => (Err c m, s)
  | Ok _ =>
      match active_plans_ s !! uuid with
      | Some _ => (Err kAlreadyExists StrCat["Plan with UUID "; uuid; " is already registered!"], s)
      | None => (OkStatus, set_plans s (<[uuid := mkRegistered plan sender]> (active_plans_ s)))
      end
  end.

(** The transport's receive progress is forgotten with the plan (by the caller). *)
Definition UnregisterActivePlan s (uuid : Z) : Status * State :=
  match active_plans_ s !! uuid with
  | None => (Err kNotFound StrCat["Plan with UUID "; uuid; " is not registered"], s)
  | Some _ => (OkStatus, set_plans s (delete uuid (active_plans_ s)))
  end.

Definition AcceptsPlanlessExplicitPush s (uuid : Z) : bool :=
  if negb (explicit_pools_ s) then true else bool_decide (is_Some (active_plans_ s !! uuid)).

Record PoolPushProgressSpec : Type := mkProgressSpec {
  expected_pushes : Z;
  expected_pools : Z
}.

Definition GetPoolPushProgressSpec s (pool_idx uuid : Z) : StatusOr (option PoolPushProgressSpec) :=
  match active_plans_ s !! uuid with
  | None => Ok None
  | Some plan_snapshot =>
      let request := request plan_snapshot in
      if bool_decide (Program.pool_groups request = []) then Ok None
      else if negb (existsb (fun p => (0 <=? p) && (p =? pool_idx)) (Program.transfer_pool_indices request)) then
        Err kInvalidArgument StrCat["pool "; pool_idx; " is not in the active plan's transfer set"]
      else
        match List.find (fun group => bool_decide (wrap32 pool_idx ∈ Program.g_pool_indices group)) (Program.pool_groups request) with
        | Some group =>
            Ok (Some (mkProgressSpec (u64 (Program.g_expected_pushes group))
                        (Z.of_nat (length (Program.transfer_pool_indices request)))))
        | None => Err kInvalidArgument StrCat["pool "; pool_idx; " is not in any of the plan's pool groups"]
        end
  end.

Definition ExpectedPushSenders s (uuid : Z) : option Z :=
  match active_plans_ s !! uuid with
  | None => None
  | Some snapshot =>
      let schedules := Z.of_nat (base.size (Program.shard_push_schedules (request snapshot))) in
      if is_sender snapshot || negb (bool_decide (Program.pool_groups (request snapshot) = [])) || (schedules =? 0)
      then None else Some schedules
  end.

(** ** Block chunks *)

(** A chunk of host memory: address and size. *)
Abbreviation BlockChunk := (Z * Z)%type.

(** The trailing loop of a block: chunks are cut at the bytes that are left.  The state is
    the chunks produced, back first, and [accumulated_bytes]. *)
Definition cut_chunk (total_bytes : Z) (st : list BlockChunk * Z) (chunk : BlockChunk) : list BlockChunk * Z :=
  let '(chunks, accumulated_bytes) := st in
  if total_bytes <=? accumulated_bytes then st
  else
    let size_to_add := Z.min chunk.2 (u64 (total_bytes - accumulated_bytes)) in
    if 0 <? size_to_add then ((chunk.1, size_to_add) :: chunks, u64 (accumulated_bytes + size_to_add)) else st.

Definition entry_targets_pool (plan : Plan) (layer_idx : Z) (entry : Entry) : bool :=
  if bool_decide (Program.pool_groups plan = []) then true
  else
    let group_idx := PlanCheck.pool_group entry in
    if group_idx <? 0 then false
    else
      match Program.pool_groups plan !! Z.to_nat group_idx with
      | None => false
      | Some group => bool_decide (wrap32 layer_idx ∈ Program.g_pool_indices group)
      end.

(** The chunks of one entry on one side. *)
Definition entry_chunks (start offset stride size count : Z) : list BlockChunk :=
  let count := if count <=? 0 then 1 else count in
  (fun c => (u64 (start + u64 (u64 offset + u64 (c * u64 stride))), u64 size)) <$> zrange 0 count.

Definition sender_match (plan : Plan) (layer_idx block_id : Z) (peer : string) (dst_block_id : Z) (entry : Entry) : bool :=
  entry_targets_pool plan layer_idx entry &&
  (bool_decide (peer = EmptyString) || bool_decide (Program.e_dst_peer entry = peer)) &&
  ((dst_block_id =? -1) || (Program.e_dst_block_id entry =? dst_block_id)) &&
  (u64 (Program.e_src_block_id entry) =? u64 block_id).

Definition receiver_match (plan : Plan) (layer_idx shard_idx block_id src_block_id : Z) (entry : Entry) : bool :=
  entry_targets_pool plan layer_idx entry &&
  (u64 (Program.e_dst_shard_idx entry) =? shard_idx) &&
  (u64 (Program.e_dst_block_id entry) =? u64 block_id) &&
  ((src_block_id =? -1) || (u64 (Program.e_src_block_id entry) =? u64 src_block_id)).

Definition sender_chunks (plan : Plan) (layer_idx shard_idx start block_id : Z) (peer : string) (dst_block_id : Z) :
    list BlockChunk :=
  match Program.shard_push_schedules plan !! wrap32 shard_idx with
  | None => []
  | Some entries =>
      List.filter (sender_match plan layer_idx block_id peer dst_block_id) entries ≫= fun e =>
        entry_chunks start (Program.e_src_offset_bytes e) (Program.e_src_stride_bytes e) (Program.e_size_bytes e)
          (Program.e_count e)
  end.

Definition find_src_shard (plan : Plan) (layer_idx shard_idx block_id sender_node_id src_block_id : Z) : Z :=
  if negb (sender_node_id =? -1) then wrap32 sender_node_id
  else
    match List.find (fun s : Z * list Entry => negb (s.1 =? -1) &&
                       existsb (receiver_match plan layer_idx shard_idx block_id src_block_id) s.2)
            (map_to_list (Program.shard_push_schedules plan)) with
    | Some s => s.1
    | None => -1
    end.

Definition receiver_chunks (plan : Plan) (layer_idx shard_idx start block_id sender_node_id : Z) (peer : string)
    (src_block_id : Z) : list BlockChunk :=
  let found_src_shard := find_src_shard plan layer_idx shard_idx block_id sender_node_id src_block_id in
  if found_src_shard =? -1 then []
  else
    match Program.shard_push_schedules plan !! found_src_shard with
    | None => []
    | Some entries =>
        List.filter (fun e => receiver_match plan layer_idx shard_idx block_id src_block_id e &&
                              (bool_decide (peer = EmptyString) || bool_decide (Program.e_dst_peer e = peer))) entries ≫= fun e =>
          entry_chunks start (Program.e_dst_offset_bytes e) (Program.e_dst_stride_bytes e) (Program.e_size_bytes e)
            (Program.e_count e)
    end.

(** The inner loop of the paths without a plan. *)
Definition fill_chunk (total_bytes : Z) (st : list BlockChunk * Z) (chunk : BlockChunk) : list BlockChunk * Z :=
  let '(chunks, accumulated_bytes) := st in
  if total_bytes <=? accumulated_bytes then st
  else
    let size := Z.min chunk.2 (u64 (total_bytes - accumulated_bytes)) in
    ((chunk.1, size) :: chunks, u64 (accumulated_bytes + size)).

(** Without a plan: the live extents of a pool's blocks, or whole blocks. *)
Definition legacy_pool_chunks s (pool : Pool.PoolSpec) (shard_idx : Z) (block_ids : list Z) (total_bytes : Z) : list BlockChunk :=
  match foldl (fun st block_id =>
                 match st with
                 | None => None
                 | Some (chunks, accumulated_bytes) =>
                     if total_bytes <=? accumulated_bytes then st
                     else
                       match Pool.ComputePoolBlockCopyExtents pool [block_id] with
                       | Err _ _ => None
                       | Ok extents =>
                           let storage_base := GetHostPointer s (Pool.storage_index pool) shard_idx in
                           if storage_base =? 0 then None
                           else Some (foldl (fill_chunk total_bytes) (chunks, accumulated_bytes)
                                       ((fun e => (u64 (storage_base + Pool.ext_offset_bytes e), u64 (Pool.size_bytes e))) <$> extents))
                       end
                 end) (Some ([], 0)) block_ids with
  | None => []
  | Some (chunks, _) => rev chunks
  end.

Definition legacy_chunks s (layer_idx shard_idx block_size_bytes : Z) (block_ids : list Z) (total_bytes : Z) : list BlockChunk :=
  rev (foldl (fun (st : list BlockChunk * Z) block_id =>
                fill_chunk total_bytes st (GetBlockHostPointer s layer_idx shard_idx block_id, block_size_bytes))
         ([], 0) block_ids).1.

Definition plan_chunks (snapshot : RegisteredPlan) (base_host_ptr block_size_bytes layer_idx shard_idx : Z)
    (block_ids : list Z) (total_bytes sender_node_id : Z) (peer : string) (src_block_id dst_block_id : Z) : list BlockChunk :=
  rev (foldl (fun (st : list BlockChunk * Z) block_id =>
                if total_bytes <=? st.2 then st
                else
                  let start := u64 (base_host_ptr + u64 (u64 block_id * block_size_bytes)) in
                  let resolved :=
                    if is_sender snapshot
                    then sender_chunks (request snapshot) layer_idx shard_idx start block_id peer dst_block_id
                    else receiver_chunks (request snapshot) layer_idx shard_idx start block_id sender_node_id peer src_block_id in
                  foldl (cut_chunk total_bytes) st resolved)
         ([], 0) block_ids).1.

Definition GetBlockChunks s (layer_idx shard_idx : Z) (block_ids : list Z) (total_bytes uuid sender_node_id : Z)
    (peer : string) (src_block_id dst_block_id : Z) : list BlockChunk :=
  let snapshot := active_plans_ s !! uuid in
  (* [None]: an address that does not resolve *)
  let geometry :=
    if explicit_pools_ s then
      match at_ (pools_ s) layer_idx with
      | None => None
      | Some pool =>
          if existsb (fun b => (b <? 0) || (Pool.num_blocks pool <=? b)) block_ids then None
          else
            let storage_base := GetHostPointer s (Pool.storage_index pool) shard_idx in
            if storage_base =? 0 then None
            else Some (u64 (storage_base + Pool.base_offset_bytes pool), u64 (Pool.block_stride_bytes pool), Some pool)
      end
    else Some (GetHostPointer s layer_idx shard_idx, block_bytes s layer_idx, None) in
  match geometry with
  | None => []
  | Some (base_host_ptr, block_size_bytes, pool) =>
      match snapshot with
      | Some snapshot =>
          if uuid =? 0 then
            match pool with
            | Some pool => legacy_pool_chunks s pool shard_idx block_ids total_bytes
            | None => legacy_chunks s layer_idx shard_idx block_size_bytes block_ids total_bytes
            end
          else plan_chunks snapshot base_host_ptr block_size_bytes layer_idx shard_idx block_ids total_bytes
                 sender_node_id peer src_block_id dst_block_id
      | None =>
          match pool with
          | Some pool => legacy_pool_chunks s pool shard_idx block_ids total_bytes
          | None => legacy_chunks s layer_idx shard_idx block_size_bytes block_ids total_bytes
          end
      end
  end.

(** ** Resharded pushes of a layer-addressed plan *)

(** Step 3 of [PushKVCacheResharded]: the transfers of each peer, and what is pushed to it
    ([seen] keeps the first occurrence of a pair). *)
Definition peer_transfers (plan : Plan) (peer : string) : list (Z * Z) :=
  ((map_to_list (Program.shard_push_schedules plan) ≫= snd) : list Entry) ≫= fun e =>
    if bool_decide (Program.e_dst_peer e = peer) then [(Program.e_src_block_id e, Program.e_dst_block_id e)] else [].

Fixpoint first_pairs (seen : gset (Z * Z)) (transfers : list (Z * Z)) : list (Z * Z) :=
  match transfers with
  | [] => []
  | p :: rest =>
      if bool_decide (p ∈ seen) then first_pairs seen rest else p :: first_pairs ({[p]} ∪ seen) rest
  end.

Definition pushes_of (plan : Plan) (peer : string) : list (Z * Z) := first_pairs ∅ (peer_transfers plan peer).

End Manager.
