(* ===== verification/BlockTransport.v ===== *)
(** * Block transport ([src/tpu_sync/transport/block_transport.cc])

    Pushes of blocks over a socket: the split of a transfer into streams, the order of its
    payloads, the requests of a push and their bytes, and the handler of an incoming push
    with its receive accounting.  The memory of a node is a function from addresses to bytes; a connection
    is the list of bytes not yet read.  The delegate (the manager behind the transport) is
    a record of the operations the transport calls. *)

From stdpp Require Import strings.
From S2P Require Import Prelude Bytes PoolLayout ReshardTypes TransferProgram PoolPlanCheck ChunkSerializer KVCacheManagerBase.

Module Transport.

Abbreviation BlockChunk := (Z * Z)%type.
Abbreviation Memory := (Z -> Z).

Inductive MajorOrder : Type := kLayerMajor | kBlockMajor.
#[global] Instance MajorOrder_eq_dec : EqDecision MajorOrder.
Proof. solve_decision. Defined.

(** ** Delegate *)

Record Delegate (S : Type) : Type := mkDelegate {
  num_layers : S -> Z;
  num_shards : S -> Z;
  num_block_arrays : S -> Z;
  shard_factor : S -> Z;
  node_id : S -> Z;
  block_bytes : S -> Z -> Z;
  GetBlockArrayHostPointer : S -> Z -> Z -> Z;
  GetBlockArrayHostSize : S -> Z -> Z -> Z;
  GetBlockChunks : S -> Z -> Z -> list Z -> Z -> Z -> Z -> string -> Z -> Z -> list BlockChunk;
  GetPoolPushProgressSpec : S -> Z -> Z -> StatusOr (option Manager.PoolPushProgressSpec);
  AcceptsPlanlessExplicitPush : S -> Z -> bool;
  ExpectedPushSenders : S -> Z -> option Z;
  AllocateBlocks : S -> Z -> Z -> StatusOr (list Z) * S;
  OnPoolReceived : S -> Z -> Z -> Status * S;
  OnLayerReceived : S -> Z -> Z -> Status * S;
  OnBlocksReceived : S -> list Z -> Z -> Status * S
}.
Arguments mkDelegate {S}.
Arguments num_layers {S}. Arguments num_shards {S}. Arguments num_block_arrays {S}. Arguments shard_factor {S}.
Arguments node_id {S}. Arguments block_bytes {S}. Arguments GetBlockArrayHostPointer {S}.
Arguments GetBlockArrayHostSize {S}. Arguments GetBlockChunks {S}. Arguments GetPoolPushProgressSpec {S}.
Arguments AcceptsPlanlessExplicitPush {S}. Arguments ExpectedPushSenders {S}. Arguments AllocateBlocks {S}.
Arguments OnPoolReceived {S}. Arguments OnLayerReceived {S}. Arguments OnBlocksReceived {S}.

(** ** Order of the payloads *)

Definition kUseBlockChunksFlag : Z := 128.

Definition ParseMajorOrder (value : Z) : StatusOr MajorOrder :=
  let order_val := Z.land value (Z.lxor 255 kUseBlockChunksFlag) in
  if order_val =? 0 then Ok kLayerMajor
  else if order_val =? 1 then Ok kBlockMajor
  else Err kInvalidArgument StrCat["Unknown block transport major order: "; value].

(** The coordinates (layer, shard, block index) in the order [ForEachPayload] visits them. *)
Definition payload_order (major_order : MajorOrder) (layer_ids : list Z) (num_shards num_blocks : Z) : list (Z * Z * Z) :=
  match major_order with
  | kLayerMajor => layer_ids ≫= fun l => zrange 0 num_shards ≫= fun sh => (fun k => (l, sh, k)) <$> zrange 0 num_blocks
  | kBlockMajor => zrange 0 num_blocks ≫= fun k => layer_ids ≫= fun l => (fun sh => (l, sh, k)) <$> zrange 0 num_shards
  end.

Definition ForEachPayload {S} (major_order : MajorOrder) (layer_ids : list Z) (num_shards num_blocks : Z)
    (fn : S -> Z * Z * Z -> StatusOr S) (s : S) : StatusOr S :=
  for_each fn (payload_order major_order layer_ids num_shards num_blocks) s.

(** [ResolveStepCoordinates]: the coordinates of a pull's step, by arithmetic. *)
Definition ResolveStepCoordinates (major_order : MajorOrder) (L Sh K step : Z) : Z * Z * Z :=
  match major_order with
  | kLayerMajor => (step / (K * Sh), (step / K) mod Sh, step mod K)
  | kBlockMajor => ((step / Sh) mod L, step mod Sh, step / (Sh * L))
  end.

(** ** Streams *)

(** The block ranges (offset, count) of the streams of a transfer of [num_blocks] blocks
    over [P] streams: the loop of [AsyncPush] and [SyncPullInternal]. *)
Fixpoint stream_loop (base_blocks_per_stream remainder block_offset i : Z) (todo : nat) : list (Z * Z) :=
  match todo with
  | O => []
  | S todo' =>
      let block_count := base_blocks_per_stream + (if i <? remainder then 1 else 0) in
      (block_offset, block_count) :: stream_loop base_blocks_per_stream remainder (block_offset + block_count) (i + 1) todo'
  end.

Definition stream_ranges (num_blocks parallelism : Z) : list (Z * Z) :=
  let P := if num_blocks <? parallelism then num_blocks else parallelism in
  stream_loop (num_blocks / P) (num_blocks mod P) 0 0 (Z.to_nat P).

Definition slice {A} (l : list A) (r : Z * Z) : list A := take (Z.to_nat r.2) (drop (Z.to_nat r.1) l).

(** The tasks [AsyncPush] queues: stream index, peer, block range; or its refusal. *)
Definition push_tasks (peers : list string) (src_block_ids : list Z) (parallelism : Z) :
    StatusOr (list (Z * string * (Z * Z))) :=
  if bool_decide (src_block_ids = []) then Err kInvalidArgument StrCat["Block list cannot be empty"]
  else if bool_decide (peers = []) then Err kInvalidArgument StrCat["Peer list cannot be empty"]
  else if parallelism <=? 0 then Err kInvalidArgument StrCat["parallelism must be positive"]
  else
    Ok ((fun ir : nat * (Z * Z) =>
           (Z.of_nat ir.1, default EmptyString (peers !! (ir.1 mod length peers)%nat), ir.2))
          <$> PlanCheck.indexed (stream_ranges (Z.of_nat (length src_block_ids)) parallelism)).

(** The status the last finished stream reports: that of the first stream that failed. *)
Definition final_status (statuses : list Status) : Status :=
  match List.find (fun st => negb (ok st)) statuses with
  | Some st => st
  | None => OkStatus
  end.

(** ** Chunks *)

Definition IOV_MAX : Z := 1024.

Definition ToIovec (chunks : list BlockChunk) : list BlockChunk :=
  List.filter (fun c => 0 <? c.2) chunks.

Section delegate.
Context {D : Type} (d : Delegate D).

Definition ValidateChunks (s : D) (l sh : Z) (chunks : list BlockChunk) : Status :=
  let base := GetBlockArrayHostPointer d s l sh in
  if base =? 0 then OkStatus
  else
    let host_size := GetBlockArrayHostSize d s l sh in
    for_each (fun _ (chunk : BlockChunk) =>
                let bad := Err kOutOfRange
                  StrCat["Chunk out of bounds. Chunk ptr: "; chunk.1; ", size: "; chunk.2;
                         ", Block array base: "; base; ", Block array size: "; host_size] in
                if chunk.1 <? base then bad
                else
                  let offset := chunk.1 - base in
                  if (host_size <? offset) || (host_size - offset <? chunk.2) then bad else OkStatus) chunks tt.

Definition GetChunksTotalSize (chunks : list BlockChunk) : Z :=
  foldl (fun total (chunk : BlockChunk) => u32 (total + chunk.2)) 0 chunks.

(** ** Requests of a push stream *)

Record Request : Type := mkRequest {
  socket_opcode : Z;
  laddr : Z;
  len : Z;
  req_major_order : MajorOrder;
  req_layer_idx : Z;
  req_parallelism : Z;
  req_remote_id : Z;
  req_local_id : Z;
  req_count_or_size : Z;
  req_uuid : Z;
  request_id : Z
}.

Definition BuildBlockRequest (s : D) (opcode laddr len count_or_size layer_idx request_id uuid parallelism : Z)
    (major_order : MajorOrder) : Request :=
  mkRequest opcode laddr len major_order layer_idx parallelism (u32 (node_id d s))
    (if layer_idx =? -1 then 4294967295 else u32 layer_idx) count_or_size uuid request_id.

Definition target_layers (s : D) (layer_idx : Z) : list Z :=
  if layer_idx =? -1 then zrange 0 (num_block_arrays d s) else [layer_idx].

Definition build_step (s : D) (peer : string) (block_offset block_count : Z) (src_block_ids dst_block_ids : list Z)
    (major_order : MajorOrder) (uuid layer_idx parallelism opcode : Z) (st : list Request * Z) (c : Z * Z * Z) :
    StatusOr (list Request * Z) :=
  let '(l, sh, k) := c in
  let '(requests, request_id) := st in
  let src_id := default 0 (src_block_ids !! Z.to_nat (block_offset + k)) in
  let dst_id_val := default (-1) (dst_block_ids !! Z.to_nat (block_offset + k)) in
  let chunks := GetBlockChunks d s l sh [src_id] (block_bytes d s l) uuid (-1) peer (-1) dst_id_val in
  if bool_decide (chunks = []) then
    Err kNotFound StrCat["No transfer chunks found for block "; src_id; " and uuid "; uuid]
  else
    let? _ := ValidateChunks s l sh chunks in
    Ok (requests ++ ((fun chunk : BlockChunk =>
                        BuildBlockRequest s opcode chunk.1 chunk.2 (u32 block_count) layer_idx request_id uuid parallelism major_order)
                       <$> chunks), u32 (request_id + 1)).

Definition BuildBlockRequests (s : D) (peer : string) (block_offset block_count : Z) (src_block_ids dst_block_ids : list Z)
    (major_order : MajorOrder) (uuid layer_idx parallelism : Z) : StatusOr (list Request) :=
  let opcode := if bool_decide (dst_block_ids = []) then 1 else 6 in
  if block_count =? 0 then
    Ok [BuildBlockRequest s opcode 0 0 0 layer_idx 0 uuid parallelism major_order]
  else
    let? st := ForEachPayload major_order (target_layers s layer_idx) (num_shards d s) block_count
      (build_step s peer block_offset block_count src_block_ids dst_block_ids major_order uuid layer_idx parallelism opcode)
      ([], 0) in
    Ok st.1.

(** ** The bytes of a push stream *)

Definition major_order_byte (m : MajorOrder) : Z := match m with kLayerMajor => 0 | kBlockMajor => 1 end.

Definition push_header (first : Request) : Chunk.ChunkHeader :=
  Chunk.mkHeader 1 (socket_opcode first) (major_order_byte (req_major_order first)) 0 (req_parallelism first mod 2 ^ 16)
    0 0 (req_remote_id first) (req_local_id first) (req_count_or_size first) (req_uuid first).

(** Memory read through a list of chunks. *)
Definition gather (mem : Memory) (chunks : list BlockChunk) : list Z :=
  chunks ≫= fun c => mem <$> zrange c.1 (c.1 + c.2).

(** [WriteVExact] of a gathered payload. *)
Definition WriteVExact (mem : Memory) (iov : list BlockChunk) : StatusOr (list Z) :=
  let n := Z.of_nat (length iov) in
  if (1 <=? n) && (n <=? IOV_MAX) then Ok (gather mem iov) else Err kInvalidArgument StrCat["#iovs="; n].

(** The requests that follow the first one and belong to the same payload. *)
Fixpoint same_payload (id : Z) (requests : list Request) : list Request * list Request :=
  match requests with
  | [] => ([], [])
  | r :: rest =>
      if request_id r =? id then let '(group, rest') := same_payload id rest in (r :: group, rest') else ([], requests)
  end.

(** The payload loop of [ProcessSocketPush]: size field and bytes of each payload. *)
Fixpoint push_payloads (fuel : nat) (mem : Memory) (requests : list Request) (out : list Z) : StatusOr (list Z) :=
  match fuel, requests with
  | S fuel', r :: _ =>
      let '(group, rest) := same_payload (request_id r) requests in
      let chunks := (fun q => (laddr q, len q)) <$> group in
      let total_size := GetChunksTotalSize chunks in
      let out := out ++ Chunk.SerializeChunkSize total_size in
      if 0 <? total_size then
        let? bytes := WriteVExact mem (ToIovec chunks) in
        push_payloads fuel' mem rest (out ++ bytes)
      else push_payloads fuel' mem rest out
  | _, _ => Ok out
  end.

(** What [ProcessSocketPush] writes for an explicit-destination push, up to the payloads:
    the header, the destination ids and the source ids of the stream's blocks. *)
Definition push_preamble (requests : list Request) (src_block_ids dst_block_ids : list Z) (block_offset : Z) : list Z :=
  match requests with
  | [] => []
  | first :: _ =>
      let r := (block_offset, req_count_or_size first) in
      Chunk.SerializeChunkHeader (push_header first) ++
      (if socket_opcode first =? 6
       then Chunk.SerializeBlockIds (slice dst_block_ids r) ++ Chunk.SerializeBlockIds (slice src_block_ids r)
       else [])
  end.

End delegate.

(** ** Receive accounting *)

Record SenderStreams : Type := mkStreams {
  landed : Z;
  declared : Z
}.

Record LayerProgress : Type := mkProgress {
  completed_chunks : Z;
  sender_streams : gmap Z SenderStreams;
  senders_complete : Z;
  expected_senders_resolved : bool;
  expected_senders : option Z;
  on_layer_received_called : bool
}.

Definition fresh_progress : LayerProgress := mkProgress 0 ∅ 0 false None false.

Abbreviation ProgressMap := (gmap (Z * Z) LayerProgress).

(** The senders branch of the accounting: the new progress and whether the array is
    complete, or the error with the progress it leaves. *)
Definition account_sender (l uuid remote_id reserved expected : Z) (p : LayerProgress) : StatusOr bool * LayerProgress :=
  let streams := default (mkStreams 0 0) (sender_streams p !! remote_id) in
  let put streams complete :=
    mkProgress (completed_chunks p) (<[remote_id := streams]> (sender_streams p)) complete
      (expected_senders_resolved p) (expected_senders p) (on_layer_received_called p) in
  if (landed streams =? 0) && (reserved =? 0) then
    (Err kInvalidArgument
       StrCat["block array "; l; " sender "; remote_id; " declared no streams for UUID "; uuid],
     put streams (senders_complete p))
  else
    let streams := if landed streams =? 0 then mkStreams 0 reserved else streams in
    let entered := put streams (senders_complete p) in
    if (landed streams =? 0) && (expected <? Z.of_nat (base.size (sender_streams entered))) then
      (Err kAlreadyExists
         StrCat["block array "; l; " received pushes from more than "; expected; " senders for UUID "; uuid], entered)
    else if negb (declared streams =? reserved) then
      (Err kFailedPrecondition
         StrCat["block array "; l; " sender "; remote_id; " declared "; reserved; " streams after declaring ";
                declared streams; " for UUID "; uuid], entered)
    else
      let streams := mkStreams (landed streams + 1) (declared streams) in
      if landed streams =? declared streams then
        let complete := senders_complete p + 1 in
        (Ok (complete =? expected), put streams complete)
      else if declared streams <? landed streams then
        (Err kAlreadyExists
           StrCat["block array "; l; " received "; landed streams; " streams from sender "; remote_id;
                  " which declared "; declared streams; " for UUID "; uuid], put streams (senders_complete p))
      else (Ok (senders_complete p =? expected), put streams (senders_complete p)).

(** Entries of a uuid. *)
Definition of_uuid (uuid : Z) (kv : (Z * Z) * LayerProgress) : Prop := kv.1.1 = uuid.
#[global] Instance of_uuid_dec uuid kv : Decision (of_uuid uuid kv) := decide (kv.1.1 = uuid).

Definition forget_progress (uuid : Z) (progress : ProgressMap) : ProgressMap :=
  filter (fun kv => ~ of_uuid uuid kv) progress.

(** What completing an array does to the map: a uuid whose arrays are all complete is
    retired. *)
Definition retire (num_layers uuid : Z) (spec : option Manager.PoolPushProgressSpec) (progress : ProgressMap) : ProgressMap :=
  match spec with
  | Some sp =>
      let completed_pools :=
        Z.of_nat (length (filter (fun kv : (Z * Z) * LayerProgress => of_uuid uuid kv /\ on_layer_received_called kv.2 = true)
                            (map_to_list progress))) in
      if completed_pools =? Manager.expected_pools sp then forget_progress uuid progress else progress
  | None =>
      if forallb (fun layer => match progress !! (uuid, layer) with
                               | Some p => on_layer_received_called p
                               | None => false
                               end) (zrange 0 num_layers)
      then foldl (fun m layer => delete (uuid, layer) m) progress (zrange 0 num_layers)
      else progress
  end.

(** The critical section of [HandleIncomingPush]: [senders] is what the delegate answered
    when the array's senders were not resolved yet.  The result says whether the
    completion callback of the array is to be called. *)
Definition account_push (num_layers : Z) (header : Chunk.ChunkHeader) (spec : option Manager.PoolPushProgressSpec)
    (senders : option Z) (progress : ProgressMap) : StatusOr bool * ProgressMap :=
  let uuid := Chunk.uuid header in
  let l := if Chunk.local_id header =? 4294967295 then 0 else wrap32 (Chunk.local_id header) in
  let plan_declared := match spec with Some _ => true | None => false end in
  let expected_chunks := match spec with Some sp => Manager.expected_pushes sp | None => Chunk.reserved header end in
  let p := default fresh_progress (progress !! (uuid, l)) in
  let p := if plan_declared || expected_senders_resolved p then p
           else mkProgress (completed_chunks p) (sender_streams p) (senders_complete p) true senders (on_layer_received_called p) in
  let expected := if plan_declared then None else expected_senders p in
  let p := mkProgress (u64 (completed_chunks p + 1)) (sender_streams p) (senders_complete p) (expected_senders_resolved p)
             (expected_senders p) (on_layer_received_called p) in
  let put p := <[(uuid, l) := p]> progress in
  if plan_declared && (expected_chunks <? completed_chunks p) then
    (Err kAlreadyExists
       StrCat["pool "; l; " received more than "; expected_chunks; " push streams for UUID "; uuid], put p)
  else
    let '(array_complete, p) :=
      match expected with
      | Some expected => account_sender l uuid (Chunk.remote_id header) (Chunk.reserved header) expected p
      | None => (Ok (completed_chunks p =? expected_chunks), p)
      end in
    match array_complete with
    | Err c m => (Err c m, put p)
    | Ok complete =>
        if complete && negb (on_layer_received_called p) then
          let p := mkProgress (completed_chunks p) (sender_streams p) (senders_complete p) (expected_senders_resolved p)
                     (expected_senders p) true in
          (Ok true, retire num_layers uuid spec (put p))
        else (Ok false, put p)
    end.

(** ** The handler of an incoming push *)

(** Memory written through a list of chunks. *)
Definition scatter (mem : Memory) (chunks : list BlockChunk) (bytes : list Z) : Memory :=
  foldl (fun mem (ab : Z * Z) => fun a => if a =? ab.1 then ab.2 else mem a) mem
    (zip (chunks ≫= fun c => zrange c.1 (c.1 + c.2)) bytes).

Definition ReadExact (n : nat) (input : list Z) : StatusOr (list Z * list Z) :=
  if (n <=? length input)%nat then Ok (take n input, drop n input) else Err kInternal StrCat["recv eof"].

(** The bytes that arrived before the end of the connection are already in place. *)
Definition ReadVExact (mem : Memory) (iov : list BlockChunk) (input : list Z) : Status * (Memory * list Z) :=
  let n := Z.of_nat (length iov) in
  if (1 <=? n) && (n <=? IOV_MAX) then
    let bytes := Z.to_nat (zsum (snd <$> iov)) in
    (if (bytes <=? length input)%nat then OkStatus else Err kInternal StrCat["readv eof"],
     (scatter mem iov (take bytes input), drop bytes input))
  else (Err kInvalidArgument StrCat["#iovs="; n], (mem, input)).

Section handler.
Context {D : Type} (d : Delegate D).

(** The arrays a push addresses and its receive contract, before any payload. *)
Definition resolve_spec (s : D) (layers : list Z) (uuid : Z) : StatusOr (option Manager.PoolPushProgressSpec) :=
  for_each (fun spec target_layer =>
              let? candidate := GetPoolPushProgressSpec d s target_layer uuid in
              match candidate with
              | None =>
                  match spec with
                  | Some _ => Err kInvalidArgument StrCat["push mixes pool-keyed and legacy block arrays"]
                  | None => Ok spec
                  end
              | Some sp =>
                  if negb (length layers =? 1)%nat then
                    Err kInvalidArgument StrCat["pool-keyed push must address exactly one transfer pool"]
                  else if (Manager.expected_pushes sp =? 0) || (Manager.expected_pools sp =? 0) then
                    Err kInvalidArgument StrCat["pool-keyed push progress counts must be positive"]
                  else Ok (Some sp)
              end) layers None.

Definition push_layers (s : D) (header : Chunk.ChunkHeader) : StatusOr (list Z) :=
  if Chunk.local_id header =? 4294967295 then Ok (zrange 0 (num_block_arrays d s))
  else if num_block_arrays d s <=? Chunk.local_id header then
    Err kOutOfRange
      StrCat["push block-array index "; Chunk.local_id header; " out of range: "; num_block_arrays d s]
  else Ok [wrap32 (Chunk.local_id header)].

(** One payload: the memory and the rest of the connection after it. *)
Definition receive_payload (s : D) (header : Chunk.ChunkHeader) (allocated_ids src_block_ids : list Z)
    (st : Memory * list Z) (c : Z * Z * Z) : Status * (Memory * list Z) :=
  let '(l, sh, k) := c in
  let '(mem, input) := st in
  let dst_id := default 0 (allocated_ids !! Z.to_nat k) in
  match ReadExact Chunk.kChunkSizeFieldSize input with
  | Err c m => (Err c m, st)
  | Ok (size_buf, input) =>
      let sender_size := Chunk.DeserializeChunkSize size_buf in
      let src_bid := default (-1) (src_block_ids !! Z.to_nat k) in
      let chunks := GetBlockChunks d s l sh [dst_id] sender_size (Chunk.uuid header) (Chunk.remote_id header) EmptyString src_bid (-1) in
      if bool_decide (chunks = []) then
        (Err kNotFound StrCat["No transfer chunks found for block "; dst_id; " and uuid "; Chunk.uuid header], (mem, input))
      else
        match ValidateChunks d s l sh chunks with
        | Err c m => (Err c m, (mem, input))
        | Ok _ =>
            let expected_size := GetChunksTotalSize chunks in
            if negb (sender_size =? expected_size) then
              (Err kInternal
                 StrCat["Block transfer size mismatch! Sender offered: "; sender_size; " bytes, but Receiver expected: ";
                        expected_size; " bytes for Block ID: "; dst_id], (mem, input))
            else if 0 <? expected_size then ReadVExact mem (ToIovec chunks) input
            else (OkStatus, (mem, input))
        end
  end.

(** [ForEachPayload] over the payloads of a push: memory written before an error stays. *)
Fixpoint receive_payloads (s : D) (header : Chunk.ChunkHeader) (allocated_ids src_block_ids : list Z)
    (coords : list (Z * Z * Z)) (st : Memory * list Z) : Status * (Memory * list Z) :=
  match coords with
  | [] => (OkStatus, st)
  | c :: rest =>
      match receive_payload s header allocated_ids src_block_ids st c with
      | (Ok _, st') => receive_payloads s header allocated_ids src_block_ids rest st'
      | (Err code msg, st') => (Err code msg, st')
      end
  end.

(** The ids of a push: allocated for an implicit destination, read for an explicit one. *)
Definition push_ids (s : D) (header : Chunk.ChunkHeader) (input : list Z) :
    StatusOr (list Z * list Z * list Z * list Z) * D :=
  let n := (Z.to_nat (Chunk.count_or_size header) * 4)%nat in
  if Chunk.op header =? 1 then
    match AllocateBlocks d s (Chunk.count_or_size header) (Chunk.uuid header) with
    | (Err c m, s) => (Err c m, s)
    | (Ok ids, s) => (Ok (ids, [], Chunk.SerializeBlockIds ids, input), s)
    end
  else
    (let? r := ReadExact n input in
     let '(dst_buf, input) := r in
     let? r := ReadExact n input in
     let '(src_buf, input) := r in
     Ok (Chunk.DeserializeBlockIds dst_buf, Chunk.DeserializeBlockIds src_buf, [1], input), s).

(** State of the receiving node. *)
Record Node : Type := mkNode {
  delegate_state : D;
  memory : Memory;
  layer_progress_ : ProgressMap
}.

(** [HandleIncomingPush]: the status, the bytes written back and the node after it. *)
Definition HandleIncomingPush (n : Node) (header : Chunk.ChunkHeader) (input : list Z) : Status * list Z * Node :=
  let s := delegate_state n in
  match ParseMajorOrder (Chunk.flags header) with
  | Err c m => (Err c m, [], n)
  | Ok major_order =>
      match push_layers s header with
      | Err c m => (Err c m, [], n)
      | Ok layers =>
          match resolve_spec s layers (Chunk.uuid header) with
          | Err c m => (Err c m, [], n)
          | Ok spec =>
              if (Chunk.op header =? 6) && bool_decide (spec = None) &&
                 negb (AcceptsPlanlessExplicitPush d s (Chunk.uuid header)) then
                (Err kFailedPrecondition
                   StrCat["explicit-destination push for uuid "; Chunk.uuid header;
                          " has no registered plan on this pool-mode worker"], [], n)
              else
                match push_ids s header input with
                | (Err c m, s) => (Err c m, [], mkNode s (memory n) (layer_progress_ n))
                | (Ok (allocated_ids, src_block_ids, reply, input), s) =>
                    match receive_payloads s header allocated_ids src_block_ids
                            (payload_order major_order layers (num_shards d s) (Chunk.count_or_size header)) (memory n, input) with
                    | (Err c m, (mem, _)) => (Err c m, reply, mkNode s mem (layer_progress_ n))
                    | (Ok _, (mem, _)) =>
                        let '(r, progress) :=
                          account_push (num_layers d s) header spec (ExpectedPushSenders d s (Chunk.uuid header)) (layer_progress_ n) in
                        match r with
                        | Err c m => (Err c m, reply, mkNode s mem progress)
                        | Ok trigger =>
                            let l := if Chunk.local_id header =? 4294967295 then 0 else wrap32 (Chunk.local_id header) in
                            let '(st, s) :=
                              if trigger then
                                match spec with
                                | Some _ => OnPoolReceived d s l (Chunk.uuid header)
                                | None => OnLayerReceived d s l (Chunk.uuid header)
                                end
                              else (OkStatus, s) in
                            match st with
                            | Err c m => (Err c m, reply, mkNode s mem progress)
                            | Ok _ =>
                                let '(st, s) := OnBlocksReceived d s allocated_ids (Chunk.uuid header) in
                                match st with
                                | Err c m => (Err c m, reply, mkNode s mem progress)
                                | Ok _ => (OkStatus, reply ++ [1], mkNode s mem progress)
                                end
                            end
                        end
                    end
                end
          end
      end
  end.

End handler.
End Transport.
