(* ===== verification/BlockTransportProofs.v ===== *)
(** * Streams, payload order and receive accounting of the block transport *)

From stdpp Require Import strings.
From S2P Require Import Prelude Bytes PoolLayout ReshardTypes TransferProgram PoolPlanCheck ChunkSerializer KVCacheManagerBase BlockTransport.

Module TransportProofs.
Import Transport.

(** ** Payload order *)

Lemma zrange_mul a b : 0 <= a -> 0 <= b ->
  zrange 0 (a * b) = zrange 0 a ≫= fun i => (fun j => i * b + j) <$> zrange 0 b.
Proof.
  intros Ha Hb. rewrite <-(Z2Nat.id a) by done. generalize (Z.to_nat a) as n. clear a Ha. intros n.
  induction n as [|n IH]; [done|].
  assert (H1 : zrange 0 (Z.of_nat (S n)) = zrange 0 (Z.of_nat n) ++ zrange (Z.of_nat n) (Z.of_nat (S n)))
    by (symmetry; apply zrange_app; lia).
  assert (H2 : zrange 0 (Z.of_nat (S n) * b) = zrange 0 (Z.of_nat n * b) ++ zrange (Z.of_nat n * b) (Z.of_nat (S n) * b))
    by (symmetry; apply zrange_app; nia).
  rewrite H1, H2, bind_app, <-IH. f_equal.
  rewrite (zrange_cons (Z.of_nat n)), (zrange_empty (Z.of_nat n + 1)) by lia. rewrite bind_cons. cbn [mbind list_bind].
  rewrite app_nil_r. transitivity (Z.add (Z.of_nat n * b) <$> zrange 0 b); [|done].
  rewrite <-zrange_shift. f_equal; lia.
Qed.

Lemma fmap_bind_ext {A B} (f : A -> B) (l : list A) : f <$> l = l ≫= fun x => [f x].
Proof. induction l as [|x l IH]; [done|]. rewrite fmap_cons, bind_cons. by rewrite IH. Qed.

Lemma bind_ext_zrange {B} (f g : Z -> list B) lo hi :
  (forall x, lo <= x < hi -> f x = g x) -> zrange lo hi ≫= f = zrange lo hi ≫= g.
Proof. intros H. apply bind_ext_Forall, Forall_forall. intros x Hx%elem_of_zrange. by apply H. Qed.

Lemma fmap_ext_zrange {B} (f g : Z -> B) lo hi :
  (forall x, lo <= x < hi -> f x = g x) -> f <$> zrange lo hi = g <$> zrange lo hi.
Proof. intros H. apply list_fmap_ext. intros i x Hx%list_elem_of_lookup_2%elem_of_zrange. by apply H. Qed.

Lemma divmod_add i j b : 0 <= j < b -> (i * b + j) / b = i /\ (i * b + j) mod b = j.
Proof.
  intros Hj. split.
  - rewrite Z.div_add_l by lia. rewrite Z.div_small by lia. lia.
  - rewrite Z.add_comm, Z.mod_add, Z.mod_small by lia. done.
Qed.

(** Pull steps.  The arithmetic of [ResolveStepCoordinates] enumerates, over the steps of a
    pull, exactly the payloads that [ForEachPayload] visits on the puller's side, in the
    same order, for both major orders: the bytes the responder sends and the chunks the
    puller reads them into correspond one to one. *)
Theorem resolve_steps_in_order major_order L Sh K :
  0 <= L -> 0 <= Sh -> 0 <= K ->
  ResolveStepCoordinates major_order L Sh K <$> zrange 0 (L * Sh * K) =
  payload_order major_order (zrange 0 L) Sh K.
Proof.
  intros HL HSh HK. destruct major_order; simpl.
  - rewrite <-Z.mul_assoc, (zrange_mul L (Sh * K)), fmap_bind_list by nia.
    apply bind_ext_zrange. intros l Hl. rewrite (zrange_mul Sh K), fmap_bind_list, fmap_bind_list by done.
    apply bind_ext_zrange. intros sh Hsh. rewrite <-!list_fmap_compose. apply fmap_ext_zrange. intros k Hk. simpl.
    unfold ResolveStepCoordinates.
    replace (l * (Sh * K) + (sh * K + k)) with ((l * Sh + sh) * K + k) by lia.
    destruct (divmod_add (l * Sh + sh) k K Hk) as [-> ->]. destruct (divmod_add l sh Sh Hsh) as [Hd ->].
    f_equal. f_equal. replace ((l * Sh + sh) * K + k) with (l * (K * Sh) + (sh * K + k)) by lia.
    apply (divmod_add l (sh * K + k) (K * Sh)). nia.
  - replace (L * Sh * K) with (K * (L * Sh)) by lia. rewrite (zrange_mul K (L * Sh)), fmap_bind_list by nia.
    apply bind_ext_zrange. intros k Hk. rewrite (zrange_mul L Sh), fmap_bind_list, fmap_bind_list by done.
    apply bind_ext_zrange. intros l Hl. rewrite <-!list_fmap_compose. apply fmap_ext_zrange. intros sh Hsh. simpl.
    unfold ResolveStepCoordinates.
    replace (k * (L * Sh) + (l * Sh + sh)) with ((k * L + l) * Sh + sh) by lia.
    destruct (divmod_add (k * L + l) sh Sh Hsh) as [-> ->]. destruct (divmod_add k l L Hl) as [_ ->].
    f_equal. replace ((k * L + l) * Sh + sh) with (k * (Sh * L) + (l * Sh + sh)) by lia.
    apply (divmod_add k (l * Sh + sh) (Sh * L)). nia.
Qed.

Lemma resolve_steps_in_order_witness :
  ResolveStepCoordinates kBlockMajor 2 3 4 <$> zrange 0 24 = payload_order kBlockMajor (zrange 0 2) 3 4.
Proof. apply (resolve_steps_in_order kBlockMajor 2 3 4); lia. Defined.

(** ** Streams *)

Lemma stream_loop_length b r o i n : length (stream_loop b r o i n) = n.
Proof. revert o i. induction n as [|n IH]; intros o i; simpl; [done|]. by rewrite IH. Qed.

(** The ranges of the loop, from stream [i], cover the blocks up to the end. *)
Lemma stream_loop_cover {A} (l : list A) b r o i n :
  0 <= b -> 0 <= o -> 0 <= i -> o + Z.of_nat n * b + (Z.max 0 (Z.min r (i + Z.of_nat n) - i)) = Z.of_nat (length l) ->
  concat (slice l <$> stream_loop b r o i n) = drop (Z.to_nat o) l.
Proof.
  revert o i. induction n as [|n IH]; intros o i Hb Ho Hi Hlen.
  { simpl. rewrite (drop_ge l) by lia. done. }
  cbn [stream_loop]. rewrite fmap_cons. cbn [concat].
  set (c := b + (if i <? r then 1 else 0)). assert (Hc : 0 <= c) by (unfold c; destruct (i <? r); lia).
  rewrite (IH (o + c) (i + 1)); try lia.
  - unfold slice. cbn [fst snd]. replace (Z.to_nat (o + c)) with (Z.to_nat o + Z.to_nat c)%nat by lia.
    rewrite <-drop_drop. apply take_drop.
  - unfold c. destruct (i <? r) eqn:E; to_prop; lia.
Qed.

Lemma stream_loop_counts b r o i n : Forall (fun rg : Z * Z => b <= rg.2 <= b + 1) (stream_loop b r o i n).
Proof.
  revert o i. induction n as [|n IH]; intros o i; simpl; [constructor|]. constructor; [|apply IH].
  simpl. destruct (i <? r); lia.
Qed.

(** Streams of a transfer.  A transfer of n > 0 blocks asked to run on P > 0 streams runs on
    min(n, P) streams; the streams' slices concatenate to the block list, so every block is
    in exactly one stream and keeps its order; stream sizes differ by at most one and none
    is empty. *)
Theorem stream_ranges_partition {A} (l : list A) (P : Z) :
  l ≠ [] -> 0 < P ->
  let n := Z.of_nat (length l) in
  Z.of_nat (length (stream_ranges n P)) = Z.min n P /\
  concat (slice l <$> stream_ranges n P) = l /\
  Forall (fun r : Z * Z => 1 <= r.2 /\ n / Z.min n P <= r.2 <= n / Z.min n P + 1) (stream_ranges n P).
Proof.
  intros Hl HP n. assert (Hn : 0 < n) by (unfold n; destruct l; simpl; [done|lia]).
  assert (Hmin : (if n <? P then n else P) = Z.min n P) by (destruct (n <? P) eqn:E; to_prop; lia).
  unfold stream_ranges. rewrite Hmin. set (p := Z.min n P). assert (Hp : 0 < p <= n) by lia.
  assert (Hq : 1 <= n / p) by (apply Z.div_le_lower_bound; lia).
  pose proof (Z.div_mod n p ltac:(lia)) as Hdm. pose proof (Z.mod_pos_bound n p ltac:(lia)) as Hmb.
  split; [rewrite stream_loop_length; lia|]. split.
  - rewrite stream_loop_cover; [done|lia..|]. fold n. rewrite Z2Nat.id by lia. lia.
  - eapply Forall_impl; [apply stream_loop_counts|]. simpl. lia.
Qed.

Lemma stream_ranges_partition_witness :
  let l := [10; 11; 12; 13; 14; 15; 16] in
  stream_ranges 7 3 = [(0, 3); (3, 2); (5, 2)] /\ concat (slice l <$> stream_ranges 7 3) = l.
Proof.
  split; [reflexivity|].
  apply (stream_ranges_partition [10; 11; 12; 13; 14; 15; 16] 3); [discriminate|lia].
Defined.

(** ** Receive accounting of a pool plan *)

Lemma length_filter_all {A} (P : A -> Prop) `{!forall x, Decision (P x)} l :
  length (filter P l) = length l <-> Forall P l.
Proof.
  split; [|intros HF; by rewrite filter_all]. induction l as [|x l IH]; [constructor|].
  rewrite filter_cons. pose proof (length_filter P l). destruct (decide (P x)); simpl; [|lia].
  intros [= H']. constructor; [done|by apply IH].
Qed.

Section accounting.
Context (layers uuid_ : Z) (pools : list Z) (pushes : Z -> Z).
Hypothesis Hpools : NoDup pools.
Hypothesis Hrange : Forall (fun l => 0 <= l <= int32_max) pools.
Hypothesis Hpushes : Forall (fun l => 0 < pushes l <= int32_max) pools.

(** The contract the manager answers for a pool of the plan. *)
Definition contract (l : Z) : Manager.PoolPushProgressSpec :=
  Manager.mkProgressSpec (pushes l) (Z.of_nat (length pools)).

(** The streams of the plan that arrive, in the order in which they are accounted. *)
Fixpoint account_streams (headers : list Chunk.ChunkHeader) (progress : ProgressMap) :
    list (StatusOr bool) * ProgressMap :=
  match headers with
  | [] => ([], progress)
  | h :: rest =>
      let '(r, progress) := account_push layers h (Some (contract (Chunk.local_id h))) None progress in
      let '(rs, progress) := account_streams rest progress in (r :: rs, progress)
  end.

Definition of_plan (h : Chunk.ChunkHeader) : Prop := Chunk.uuid h = uuid_ /\ Chunk.local_id h ∈ pools.

(** Streams of a pool among those that arrived. *)
Definition arrived (l : Z) (headers : list Chunk.ChunkHeader) : Z :=
  Z.of_nat (length (filter (fun h => Chunk.local_id h = l) headers)).
Definition complete (headers : list Chunk.ChunkHeader) (l : Z) : Prop := arrived l headers = pushes l.
#[global] Instance complete_dec headers l : Decision (complete headers l) := decide (arrived l headers = pushes l).

(** What the map holds of the plan's uuid after [headers], while a pool is incomplete. *)
Definition tracks (headers : list Chunk.ChunkHeader) (progress : ProgressMap) : Prop :=
  forall l, match progress !! (uuid_, l) with
            | Some p => l ∈ pools /\ 0 < arrived l headers /\ completed_chunks p = arrived l headers /\
                        (on_layer_received_called p = true <-> complete headers l)
            | None => arrived l headers = 0
            end.

Lemma arrived_snoc l headers h :
  arrived l (headers ++ [h]) = arrived l headers + (if decide (Chunk.local_id h = l) then 1 else 0).
Proof.
  unfold arrived. rewrite filter_app, length_app. destruct (decide _).
  - rewrite filter_cons_True by done. rewrite filter_nil. simpl. lia.
  - rewrite filter_cons_False by done. rewrite filter_nil. simpl. lia.
Qed.

Lemma arrived_nonneg l headers : 0 <= arrived l headers.
Proof. unfold arrived. lia. Qed.

(** The entries of the uuid that are complete are those of the complete pools. *)
Lemma complete_entries headers progress :
  tracks headers progress ->
  length (filter (fun kv : (Z * Z) * LayerProgress => of_uuid uuid_ kv /\ on_layer_received_called kv.2 = true) (map_to_list progress)) =
  length (filter (complete headers) pools).
Proof.
  intros Ht. rewrite <-(length_fmap fst (filter _ (map_to_list progress))), <-(length_fmap (pair uuid_) (filter _ pools)).
  apply Permutation_length, NoDup_Permutation.
  - eapply NoDup_fmap_fst; [|apply NoDup_filter, NoDup_map_to_list].
    intros k p p' [_ Hp%elem_of_map_to_list]%list_elem_of_filter [_ Hp'%elem_of_map_to_list]%list_elem_of_filter. congruence.
  - apply NoDup_fmap_2; [intros ? ? [=]; done|by apply NoDup_filter].
  - intros [u l]. rewrite !list_elem_of_fmap. setoid_rewrite list_elem_of_filter. split.
    + intros ([[u' l'] p] & [= -> ->] & [Hu Hc] & Hp%elem_of_map_to_list). unfold of_uuid in Hu. cbn in Hu, Hc. subst u'.
      specialize (Ht l'). rewrite Hp in Ht. destruct Ht as (Hl & _ & _ & Hiff). exists l'. split; [done|]. split; [by apply Hiff|done].
    + intros (l' & [= -> ->] & Hc & Hl). specialize (Ht l'). rewrite Forall_forall in Hpushes. specialize (Hpushes l' Hl).
      destruct (progress !! (uuid_, l')) as [p|] eqn:Hp.
      * destruct Ht as (_ & _ & _ & Hiff). exists ((uuid_, l'), p). split; [done|]. split; [split; [done|by apply Hiff]|].
        by apply elem_of_map_to_list.
      * unfold complete in Hc. lia.
Qed.

Lemma all_complete headers : length (filter (complete headers) pools) = length pools <-> Forall (complete headers) pools.
Proof. apply length_filter_all. Qed.

(** One more stream of the plan. *)
Lemma account_step headers progress h :
  tracks headers progress -> of_plan h -> arrived (Chunk.local_id h) headers < pushes (Chunk.local_id h) ->
  exists progress',
    account_push layers h (Some (contract (Chunk.local_id h))) None progress =
      (Ok (bool_decide (complete (headers ++ [h]) (Chunk.local_id h))), progress') /\
    (forall u l, u ≠ uuid_ -> progress' !! (u, l) = progress !! (u, l)) /\
    (if bool_decide (Forall (complete (headers ++ [h])) pools) then forall l, progress' !! (uuid_, l) = None
     else tracks (headers ++ [h]) progress').
Proof.
  intros Ht [Hu Hl] Hlt. rewrite Forall_forall in Hrange. pose proof (Hrange _ Hl) as Hr. set (l := Chunk.local_id h) in *.
  pose proof (proj1 (Forall_forall _ _) Hpushes _ Hl) as Hp. cbv beta in Hp. unfold int32_max in Hp. pose proof (arrived_nonneg l headers) as Hnn.
  set (p := default fresh_progress (progress !! (uuid_, l))).
  assert (Hcount : completed_chunks p = arrived l headers /\ on_layer_received_called p = false).
  { unfold p. specialize (Ht l). destruct (progress !! (uuid_, l)) as [q|]; simpl; [|done].
    destruct Ht as (_ & _ & -> & Hiff). split; [done|]. apply not_true_iff_false. rewrite Hiff. unfold complete. lia. }
  destruct Hcount as [Hc Hcalled]. assert (Hsnoc : arrived l (headers ++ [h]) = arrived l headers + 1).
  { rewrite arrived_snoc. fold l. by rewrite decide_True. }
  unfold account_push. fold l. rewrite Hu. assert (El : (l =? 4294967295) = false) by (apply Z.eqb_neq; unfold int32_max in *; lia).
  rewrite El, wrap32_id by (unfold in_int32, int32_min, int32_max in *; lia). fold p.
  cbn [contract Manager.expected_pushes orb andb completed_chunks]. rewrite Hc, (u64_id (arrived l headers + 1)) by lia.
  assert (Eov : (pushes l <? arrived l headers + 1) = false) by (apply Z.ltb_ge; lia). rewrite Eov.
  cbn [on_layer_received_called]. rewrite Hcalled, andb_true_r.
  assert (Edone : (arrived l headers + 1 =? pushes l) = bool_decide (complete (headers ++ [h]) l)).
  { symmetry. destruct (arrived l headers + 1 =? pushes l) eqn:E; [apply bool_decide_eq_true|apply bool_decide_eq_false]; unfold complete; rewrite Hsnoc; lia. }
  rewrite Edone. clear Edone Eov El.
  set (done := bool_decide (complete (headers ++ [h]) l)).
  set (q := mkProgress (arrived l headers + 1) (sender_streams p) (senders_complete p) (expected_senders_resolved p) (expected_senders p) done).
  assert (Htr : tracks (headers ++ [h]) (<[(uuid_, l) := q]> progress)).
  { intros l'. destruct (decide (l' = l)) as [->|Hne].
    - rewrite lookup_insert_eq. cbn [completed_chunks on_layer_received_called q]. split; [done|]. rewrite Hsnoc. split; [lia|].
      split; [done|]. unfold done. by rewrite bool_decide_eq_true.
    - rewrite lookup_insert_ne by congruence. specialize (Ht l').
      assert (Hsame : arrived l' (headers ++ [h]) = arrived l' headers).
      { rewrite arrived_snoc, decide_False; [lia|]. fold l. congruence. }
      unfold complete in *. rewrite Hsame. exact Ht. }
  assert (Hother : forall u l', u ≠ uuid_ -> <[(uuid_, l) := q]> progress !! (u, l') = progress !! (u, l'))
    by (intros u l' Hne; rewrite lookup_insert_ne; congruence).
  destruct done eqn:Ed; cbn [andb negb].
  - eexists. split; [reflexivity|]. unfold retire. cbn [Manager.expected_pools contract].
    change (mkProgress (arrived l headers + 1) _ _ _ _ true) with q. rewrite (complete_entries (headers ++ [h])) by done.
    destruct (_ =? _) eqn:E; to_prop.
    + split.
      * intros u l' Hne. unfold forget_progress. rewrite <-(Hother u l' Hne). destruct (<[(uuid_, l):=q]> progress !! (u, l')) eqn:Eq.
        -- apply map_lookup_filter_Some. split; [done|]. unfold of_uuid. done.
        -- apply map_lookup_filter_None. by left.
      * rewrite bool_decide_true by (apply all_complete; lia). intros l'. apply map_lookup_filter_None. right. intros x _ Hn.
        by apply Hn.
    + split; [done|]. rewrite bool_decide_false; [done|]. intros Hall%all_complete. lia.
  - eexists. split; [reflexivity|]. change (mkProgress (arrived l headers + 1) _ _ _ _ _) with q at 1.
    assert (Hq : mkProgress (arrived l headers + 1) (sender_streams p) (senders_complete p) (expected_senders_resolved p)
      (expected_senders p) (on_layer_received_called p) = q) by (unfold q; by rewrite Hcalled).
    rewrite ?Hq. split; [done|]. rewrite bool_decide_false; [done|]. intros Hall. rewrite Forall_forall in Hall.
    apply bool_decide_eq_false in Ed. by apply Ed, Hall.
Qed.

Lemma account_streams_app h1 h2 progress :
  account_streams (h1 ++ h2) progress =
  let '(rs1, p1) := account_streams h1 progress in
  let '(rs2, p2) := account_streams h2 p1 in (rs1 ++ rs2, p2).
Proof.
  revert progress. induction h1 as [|h h1 IH]; intros progress; simpl.
  { by destruct (account_streams h2 progress). }
  destruct (account_push _ _ _ _ _) as [r p]. rewrite IH. destruct (account_streams h1 p) as [rs1 p1].
  by destruct (account_streams h2 p1).
Qed.

(** C13: Receive accounting.  The streams of a pool plan arrive in any order, none beyond the
    count the plan declares for its pool.  Every stream is accepted; the completion of a
    pool is signalled by exactly the stream that brings its count to the declared one (so
    once per pool, and only when all its streams have landed); progress of other uuids is
    never touched; while a pool is incomplete the map holds the counts that arrived, and
    when the last pool completes every counter of the uuid is gone, so the uuid can be
    used again. *)
Theorem push_accounting_exact headers progress :
  Forall of_plan headers -> (forall l, l ∈ pools -> arrived l headers <= pushes l) ->
  (forall l, progress !! (uuid_, l) = None) -> pools ≠ [] ->
  exists progress',
    account_streams headers progress =
      (imap (fun i h => Ok (bool_decide (arrived (Chunk.local_id h) (take (S i) headers) = pushes (Chunk.local_id h)))) headers,
       progress') /\
    (forall u l, u ≠ uuid_ -> progress' !! (u, l) = progress !! (u, l)) /\
    (if bool_decide (Forall (complete headers) pools) then forall l, progress' !! (uuid_, l) = None
     else tracks headers progress').
Proof.
  intros Hplan Hle Hnone Hne. induction headers as [|h headers IH] using rev_ind.
  { exists progress. split; [done|]. split; [done|]. rewrite bool_decide_false.
    - intros l. by rewrite Hnone.
    - destruct pools as [|l ls]; [done|]. intros [Hc _]%Forall_cons. unfold complete, arrived in Hc. simpl in Hc.
      apply Forall_cons in Hpushes as [? _]. lia. }
  apply Forall_app in Hplan as [Hplan [Hh _]%Forall_cons]. pose proof Hh as [_ Hl].
  assert (Hlt : arrived (Chunk.local_id h) headers < pushes (Chunk.local_id h)).
  { specialize (Hle _ Hl). rewrite arrived_snoc, decide_True in Hle by done. lia. }
  destruct IH as (p1 & Hrun & Hother & Hst); [done| |].
  { intros l Hl'. specialize (Hle l Hl'). rewrite arrived_snoc in Hle. destruct (decide _); lia. }
  rewrite bool_decide_false in Hst.
  2:{ intros Hall. rewrite Forall_forall in Hall. specialize (Hall _ Hl). unfold complete in Hall. lia. }
  destruct (account_step headers p1 h Hst Hh Hlt) as (p2 & Hacc & Hother2 & Hst2).
  exists p2. split; [|split; [intros u l Hu; by rewrite Hother2, Hother|done]].
  rewrite account_streams_app, Hrun. simpl. rewrite Hacc. f_equal. rewrite imap_app. f_equal.
  - apply imap_ext. intros i x Hx. apply lookup_lt_Some in Hx. by rewrite take_app_le by lia.
  - simpl. rewrite Nat.add_0_r. rewrite (take_ge (headers ++ [h])) by (rewrite length_app; simpl; lia). done.
Qed.

(** A stream beyond the declared count, while the plan is incomplete, is refused. *)
Lemma push_over_count headers progress h :
  tracks headers progress -> of_plan h -> arrived (Chunk.local_id h) headers = pushes (Chunk.local_id h) ->
  exists msg progress', account_push layers h (Some (contract (Chunk.local_id h))) None progress = (Err kAlreadyExists msg, progress').
Proof.
  intros Ht [Hu Hl] Heq. rewrite Forall_forall in Hrange. pose proof (Hrange _ Hl) as Hr.
  pose proof (proj1 (Forall_forall _ _) Hpushes _ Hl) as Hp. cbv beta in Hp. unfold int32_max in Hp. specialize (Ht (Chunk.local_id h)).
  unfold account_push. rewrite Hu.
  rewrite (proj2 (Z.eqb_neq (Chunk.local_id h) 4294967295)) by (unfold int32_max in *; lia).
  rewrite wrap32_id by (unfold in_int32, int32_min, int32_max in *; lia).
  destruct (progress !! (uuid_, Chunk.local_id h)) as [p|]; [|lia]. destruct Ht as (_ & _ & Hc & _).
  cbn [default from_option id orb andb contract Manager.expected_pushes completed_chunks]. rewrite Hc, Heq.
  rewrite u64_id by lia. rewrite (proj2 (Z.ltb_lt _ _)) by lia. eauto.
Qed.

End accounting.

Definition example_stream (pool : Z) : Chunk.ChunkHeader := Chunk.mkHeader 1 6 0 0 2 0 0 0 pool 1 9.

Lemma push_accounting_exact_witness :
  exists progress',
    account_streams 4 [0; 2] (fun _ => 2) (example_stream <$> [2; 0; 2; 0]) ∅ =
      ([Ok false; Ok false; Ok true; Ok true], progress') /\ forall l, progress' !! (9, l) = None.
Proof.
  destruct (push_accounting_exact 4 9 [0; 2] (fun _ => 2)) with (headers := example_stream <$> [2; 0; 2; 0]) (progress := ∅ : ProgressMap)
    as (p & Hrun & _ & Hend).
  - apply (proj1 (bool_decide_eq_true _)); vm_compute; reflexivity.
  - repeat constructor; vm_compute; discriminate.
  - repeat constructor; vm_compute; discriminate.
  - repeat apply Forall_cons_2; [split; [reflexivity|apply (proj1 (bool_decide_eq_true _)); vm_compute; reflexivity]..|constructor].
  - intros l. rewrite !elem_of_cons, elem_of_nil. intros [->|[->|[]]]; vm_compute; discriminate.
  - intros l. apply lookup_empty.
  - discriminate.
  - exists p. split; [etransitivity; [exact Hrun|]; vm_compute; reflexivity|].
    rewrite bool_decide_true in Hend; [exact Hend|]. repeat constructor; vm_compute; reflexivity.
Defined.

End TransportProofs.
