(* ===== verification/DataPath.v ===== *)
(** * The bytes of a pool transfer

    From the memory of the senders to the memory of the receiver: the chunks that
    [GetBlockChunks] resolves on both ends of a push, the bytes [ProcessSocketPush] writes
    and [HandleIncomingPush] reads, and the composition with plan validation. *)

From stdpp Require Import strings.
From S2P Require Import Prelude Bytes PoolLayout ReshardTypes TransferProgram PoolPlanCheck PoolPlanCheckProofs PoolPlanCoverage PoolPlanReceiver ChunkSerializer KVCacheManagerBase BlockTransport.

Module DataPath.
Import PlanCheck PlanCheckProofs PlanCoverage PlanReceiver.
Import Transport(gather, scatter, BlockChunk, Memory).

(** ** Memory *)

(** The addresses of a list of chunks, in order. *)
Definition chunk_addrs (chunks : list BlockChunk) : list Z := chunks ≫= fun c => zrange c.1 (c.1 + c.2).

Definition store_all (mem : Memory) (l : list (Z * Z)) : Memory :=
  foldl (fun mem (ab : Z * Z) => fun a => if a =? ab.1 then ab.2 else mem a) mem l.

Lemma gather_addrs mem chunks : gather mem chunks = mem <$> chunk_addrs chunks.
Proof. unfold gather, chunk_addrs. induction chunks as [|c cs IH]; [done|]. by rewrite !bind_cons, fmap_app, IH. Qed.

Lemma scatter_addrs mem chunks bytes : scatter mem chunks bytes = store_all mem (zip (chunk_addrs chunks) bytes).
Proof. done. Qed.

Lemma store_all_app mem l1 l2 : store_all mem (l1 ++ l2) = store_all (store_all mem l1) l2.
Proof. apply foldl_app. Qed.

Lemma store_all_out mem l a : a ∉ l.*1 -> store_all mem l a = mem a.
Proof.
  revert mem. induction l as [|[x b] l IH]; intros mem Ha; [done|]. unfold store_all in *. simpl.
  rewrite fmap_cons, not_elem_of_cons in Ha. destruct Ha as [Ha1 Ha2]. rewrite IH by done.
  by rewrite (proj2 (Z.eqb_neq a x)) by done.
Qed.

Lemma store_all_in mem l a b : NoDup l.*1 -> (a, b) ∈ l -> store_all mem l a = b.
Proof.
  revert mem. induction l as [|[x v] l IH]; intros mem Hnd Hin; [by apply elem_of_nil in Hin|].
  rewrite fmap_cons in Hnd. apply NoDup_cons in Hnd as [Hx Hnd]. apply elem_of_cons in Hin as [[= -> ->]|Hin].
  - change (store_all (fun a => if a =? x then v else mem a) l x = v). rewrite store_all_out by done. by rewrite Z.eqb_refl.
  - apply (IH _ Hnd Hin).
Qed.

(** Stores to distinct addresses may be made in any order. *)
Lemma store_all_perm mem l k : NoDup l.*1 -> l ≡ₚ k -> forall a, store_all mem l a = store_all mem k a.
Proof.
  intros Hnd Hp a. destruct (decide (a ∈ l.*1)) as [Ha|Ha].
  - apply list_elem_of_fmap in Ha as ([x b] & -> & Hin). cbn [fst]. rewrite (store_all_in mem l x b) by done.
    symmetry. apply store_all_in; by rewrite <-Hp.
  - rewrite !store_all_out by (done || by rewrite <-Hp). done.
Qed.

(** ** Chunks *)

Lemma chunk_addrs_app l1 l2 : chunk_addrs (l1 ++ l2) = chunk_addrs l1 ++ chunk_addrs l2.
Proof. apply bind_app. Qed.

Lemma length_chunk_addrs chunks :
  Forall (fun c : BlockChunk => 0 <= c.2) chunks -> Z.of_nat (length (chunk_addrs chunks)) = zsum (snd <$> chunks).
Proof.
  induction 1 as [|c cs Hc _ IH]; [done|]. unfold chunk_addrs in *. rewrite bind_cons, length_app, length_zrange.
  rewrite fmap_cons, zsum_cons, <-IH. lia.
Qed.

Lemma to_iovec_all chunks : Forall (fun c : BlockChunk => 0 < c.2) chunks -> Transport.ToIovec chunks = chunks.
Proof.
  induction 1 as [|c cs Hc _ IH]; [done|]. unfold Transport.ToIovec in *. simpl. rewrite IH.
  by rewrite (proj2 (Z.ltb_lt 0 c.2)) by done.
Qed.

Lemma total_size_exact chunks :
  Forall (fun c : BlockChunk => 0 < c.2) chunks -> zsum (snd <$> chunks) < 2 ^ 32 ->
  Transport.GetChunksTotalSize chunks = zsum (snd <$> chunks).
Proof.
  unfold Transport.GetChunksTotalSize. intros Hpos.
  enough (Hgen : forall acc, 0 <= acc -> acc + zsum (snd <$> chunks) < 2 ^ 32 ->
    foldl (fun total (c : BlockChunk) => u32 (total + c.2)) acc chunks = acc + zsum (snd <$> chunks))
    by (intros Hlt; by rewrite Hgen by lia).
  induction Hpos as [|c cs Hc Hpos IH]; intros acc Hacc; cbn [foldl]; rewrite ?fmap_nil, ?fmap_cons, ?zsum_cons; [unfold zsum; simpl; lia|].
  intros Hlt. assert (0 <= zsum (snd <$> cs)) by (apply zsum_nonneg, Forall_fmap; eapply Forall_impl; [exact Hpos|simpl; lia]).
  unfold u32 at 2. rewrite Z.mod_small by lia. rewrite IH by lia. lia.
Qed.

(** The cut at [total_bytes] leaves chunks alone that fit. *)
Lemma cut_chunks_fit total chunks done_ acc :
  Forall (fun c : BlockChunk => 0 < c.2) chunks -> 0 <= acc -> acc + zsum (snd <$> chunks) <= total -> total < 2 ^ 64 ->
  foldl (Manager.cut_chunk total) (done_, acc) chunks = (rev chunks ++ done_, acc + zsum (snd <$> chunks)).
Proof.
  intros Hpos. revert done_ acc. induction Hpos as [|[p n] cs Hc Hpos IH]; intros done_ acc; cbn [foldl];
    rewrite ?fmap_nil, ?fmap_cons, ?zsum_cons; intros Hacc Hfit Ht; [by rewrite Z.add_0_r|].
  simpl in Hc, Hfit. assert (0 <= zsum (snd <$> cs)) by (apply zsum_nonneg, Forall_fmap; eapply Forall_impl; [exact Hpos|simpl; lia]).
  unfold Manager.cut_chunk at 2. simpl. rewrite (proj2 (Z.leb_gt total acc)) by lia.
  rewrite (u64_id (total - acc)), Z.min_l, (proj2 (Z.ltb_lt 0 n)), u64_id by lia.
  rewrite IH by (simpl in *; lia). rewrite <-app_assoc. f_equal. lia.
Qed.

(** ** Entries *)

(** The chunks of an entry on one side, over unbounded integers. *)
Definition spans (start offset stride size count : Z) : list BlockChunk :=
  (fun c => (start + offset + c * stride, size)) <$> zrange 0 count.

Lemma spans_addrs start offset stride size count :
  chunk_addrs (spans start offset stride size count) = Z.add start <$> span_bytes offset stride size count.
Proof.
  unfold chunk_addrs, spans, span_bytes. induction (zrange 0 count) as [|c cs IH]; [done|].
  rewrite fmap_cons, !bind_cons, fmap_app, IH. f_equal. cbn [fst snd]. rewrite <-zrange_shift. by rewrite !Z.add_assoc.
Qed.

Lemma entry_chunks_exact start offset stride size count :
  0 < start -> 0 <= offset -> 0 <= stride -> 0 < size -> 0 < count ->
  start + offset + (count - 1) * stride + size <= 2 ^ 64 ->
  Manager.entry_chunks start offset stride size count = spans start offset stride size count.
Proof.
  intros Hst Ho Hs Hsz Hc Hend. unfold Manager.entry_chunks, spans. rewrite (proj2 (Z.leb_gt count 0)) by done.
  apply list_fmap_ext. intros i c Hi. apply list_elem_of_lookup_2, elem_of_zrange in Hi.
  assert (c * stride <= (count - 1) * stride) by nia. assert (0 <= c * stride) by nia. assert (0 <= (count - 1) * stride) by nia.
  rewrite (u64_id offset), (u64_id size) by lia. destruct (decide (c = 0)) as [->|Hc0].
  { change (0 * u64 stride) with 0. rewrite (u64_id 0), (u64_id (offset + 0)), u64_id by lia. f_equal. lia. }
  assert (stride <= c * stride) by nia.
  rewrite (u64_id stride), (u64_id (c * stride)), (u64_id (offset + _)), u64_id by lia. f_equal. lia.
Qed.

(** ** Mirrors *)

(** What the transport relies on: the calls of a delegate are those of a manager. *)
Class ManagerDelegate {D} (d : Transport.Delegate D) (state : D -> Manager.State) : Prop := {
  md_shards s : Transport.num_shards d s = Manager.num_shards_ (state s);
  md_arrays s : Transport.num_block_arrays d s = Manager.num_block_arrays (state s);
  md_progress s l uuid : Transport.GetPoolPushProgressSpec d s l uuid = Manager.GetPoolPushProgressSpec (state s) l uuid;
  md_bytes s l : Transport.block_bytes d s l = Manager.block_bytes (state s) l;
  md_pointer s l sh : Transport.GetBlockArrayHostPointer d s l sh = Manager.GetBlockArrayHostPointer (state s) l sh;
  md_size s l sh : Transport.GetBlockArrayHostSize d s l sh = Manager.GetBlockArrayHostSize (state s) l sh;
  md_chunks s l sh ids total uuid node peer src dst :
    Transport.GetBlockChunks d s l sh ids total uuid node peer src dst =
    Manager.GetBlockChunks (state s) l sh ids total uuid node peer src dst
}.

(** A pool of a manager whose host mirror, at [base], holds all its blocks. *)
Record mirror (s : Manager.State) (p : Z) (spec : Pool.PoolSpec) (base : Z) : Prop := {
  mi_explicit : Manager.explicit_pools_ s = true;
  mi_pool : Manager.at_ (Manager.pools_ s) p = Some spec;
  mi_int64 : Pool.pool_int64 spec;
  mi_valid : ok (Pool.Validate spec (-1)) = true;
  mi_shards : Manager.num_shards_ s = 1;
  mi_host : Manager.GetHostPointer s (Pool.storage_index spec) 0 = base;
  mi_size : Pool.storage_extent_end_bytes spec <= Manager.GetHostSize s (Pool.storage_index spec) 0 < int64_max;
  mi_base : 0 < base;
  mi_end : base + Manager.GetHostSize s (Pool.storage_index spec) 0 < 2 ^ 64
}.

(** The address of a block. *)
Definition block_start (spec : Pool.PoolSpec) (base b : Z) : Z :=
  base + Pool.base_offset_bytes spec + b * Pool.block_stride_bytes spec.

Section mirror.
Context (s : Manager.State) (p : Z) (spec : Pool.PoolSpec) (base : Z) (Hm : mirror s p spec base).

Lemma mirror_ok : Pool.pool_ok spec.
Proof using Hm. destruct Hm. apply (Pool.pool_validate_ok spec (-1)) in mi_valid0 as [? _]; [done|done|i64]. Qed.

Lemma mirror_extent : Pool.storage_extent_end_bytes spec < int64_max.
Proof using Hm. destruct Hm. lia. Qed.

Lemma mirror_regions :
  Forall (fun r => Pool.base_offset_bytes spec + (Pool.num_blocks spec - 1) * Pool.block_stride_bytes spec
                   + Pool.region_extent r <= Pool.storage_extent_end_bytes spec) (Pool.regions spec).
Proof using Hm.
  apply Pool.storage_extent_end_le; [apply Hm|apply mirror_ok|apply mirror_extent|done].
Qed.

(** Live bytes of a block lie inside the pool's part of the mirror. *)
Lemma mirror_live b o :
  0 <= b < Pool.num_blocks spec -> Pool.live_in (Pool.regions spec) o ->
  0 <= o /\ Pool.base_offset_bytes spec + b * Pool.block_stride_bytes spec + o < Pool.storage_extent_end_bytes spec.
Proof using Hm.
  intros Hb (r & Hr & Hlive). destruct mirror_ok. rewrite Forall_forall in po_each.
  pose proof (Pool.live_byte_extent _ _ _ (po_each r Hr) Hlive) as Ho. destruct (po_each r Hr).
  pose proof (proj1 (Forall_forall _ _) mirror_regions r Hr) as Hend. cbv beta in Hend. nia.
Qed.

Lemma mirror_block b :
  0 <= b < Pool.num_blocks spec ->
  0 <= Pool.base_offset_bytes spec /\ 0 <= b * Pool.block_stride_bytes spec /\
  Pool.base_offset_bytes spec + b * Pool.block_stride_bytes spec <= Pool.storage_extent_end_bytes spec.
Proof using Hm.
  intros Hb. pose proof mirror_regions as Hall. destruct mirror_ok.
  destruct (Pool.regions spec) as [|r rs] eqn:Hr; [done|]. apply Forall_cons in Hall as [Hend _].
  apply Forall_cons in po_each as [Hreg _].
  destruct (Pool.region_ok_extent _ _ Hreg) as [_ Hext]; [destruct Hm as [_ _ (_ & Hs & _) _ _ _ _ _ _]; i64|].
  split_and!; [done|nia|nia].
Qed.

(** The pool as a block array. *)
Lemma mirror_pointer : Manager.GetBlockArrayHostPointer s p 0 = base + Pool.base_offset_bytes spec.
Proof using Hm.
  pose proof (mirror_block 0) as H0. pose proof Hm as []. destruct mirror_ok. destruct (H0 ltac:(lia)) as (? & _ & ?).
  unfold Manager.GetBlockArrayHostPointer. rewrite mi_explicit0, mi_pool0. cbn [negb]. rewrite mi_host0.
  rewrite (proj2 (Z.eqb_neq base 0)) by lia. apply u64_id. lia.
Qed.

Lemma mirror_array_size :
  Manager.GetBlockArrayHostSize s p 0 = Pool.storage_extent_end_bytes spec - Pool.base_offset_bytes spec.
Proof using Hm.
  pose proof (mirror_block 0) as H0. pose proof Hm as []. destruct mirror_ok. destruct (H0 ltac:(lia)) as (? & _ & ?).
  unfold Manager.GetBlockArrayHostSize. rewrite mi_explicit0, mi_pool0. cbn [negb]. cbv zeta.
  rewrite (u64_id (Pool.storage_extent_end_bytes spec)), (u64_id (Pool.base_offset_bytes spec)) by (unfold int64_max in *; lia).
  rewrite (proj2 (Z.ltb_ge _ _)), (proj2 (Z.ltb_ge _ _)), (proj2 (Z.ltb_ge _ _)) by lia. cbn [orb].
  rewrite wrap64_id by i64. apply u64_id. unfold int64_max in *. lia.
Qed.

Lemma mirror_block_bytes : Manager.block_bytes s p = Pool.block_stride_bytes spec.
Proof using Hm.
  pose proof Hm as []. destruct mirror_ok. unfold Manager.block_bytes. rewrite mi_explicit0, mi_pool0. cbn [negb].
  by rewrite (proj2 (Z.leb_gt _ 0)) by done.
Qed.

(** A span inside the live bytes of a block. *)
Lemma mirror_span b offset stride size count :
  0 <= b < Pool.num_blocks spec ->
  StridedSpanFitsRegions offset stride size count (Pool.block_stride_bytes spec) (Pool.regions spec) = Some true ->
  0 <= offset /\ 0 <= stride /\ 0 < size /\ 0 < count /\
  forall r, 0 <= r < count ->
    Pool.base_offset_bytes spec + b * Pool.block_stride_bytes spec + offset + r * stride + size
    <= Pool.storage_extent_end_bytes spec.
Proof using Hm.
  intros Hb Hfit. pose proof Hm as []. destruct mirror_ok. destruct mi_int65 as (_ & Hs & _ & Hr).
  destruct (strided_regions_spec offset stride size count _ _ Hr po_each ltac:(i64)) as (t & Ht & Hiff).
  rewrite Hfit in Ht. injection Ht as <-. destruct (proj1 Hiff eq_refl) as [Hblock Hlive].
  apply strided_block_exact in Hblock as (? & ? & ? & ? & ?). split_and!; [done..|]. intros r Hrr.
  destruct (mirror_live b (offset + r * stride + size - 1) Hb) as [_ ?]; [|lia].
  apply Hlive, elem_of_span_bytes. exists r. lia.
Qed.

(** The chunks of entries whose spans are live pass the bounds check. *)
Lemma mirror_validate {D} (d : Transport.Delegate D) state `{!ManagerDelegate d state} ds b chunks :
  state ds = s -> 0 <= b < Pool.num_blocks spec ->
  Forall (fun c : BlockChunk => block_start spec base b <= c.1 /\ 0 < c.2 /\ c.1 + c.2 <= base + Pool.storage_extent_end_bytes spec) chunks ->
  Transport.ValidateChunks d ds p 0 chunks = OkStatus.
Proof using Hm.
  intros Hds Hb Hin. unfold Transport.ValidateChunks. rewrite md_pointer, md_size, Hds, mirror_pointer, mirror_array_size.
  destruct (mirror_block b Hb) as (? & ? & ?). destruct (_ =? 0); [done|]. cbv zeta.
  match goal with |- for_each ?f ?l tt = _ => assert (Hok : ok (for_each f l tt) = true); [|by destruct (for_each f l tt) as [[]|]] end.
  apply (for_each_check (fun chunk => _)). eapply Forall_impl; [exact Hin|]. intros [a n] (Ha & Hn & Hend). unfold block_start in Ha. simpl in *.
  rewrite (proj2 (Z.ltb_ge a _)) by lia. rewrite (proj2 (Z.ltb_ge _ _)), (proj2 (Z.ltb_ge _ n)) by lia. done.
Qed.

End mirror.

(** ** Payloads *)

(** The entries of a schedule that move bytes of pool [p] from one block to another. *)
Definition pair_entries (plan : Plan) (p : Z) (es : list Entry) (src dst : Z) : list Entry :=
  List.filter (fun e => Manager.entry_targets_pool plan p e && (Program.e_src_block_id e =? src) &&
                        (Program.e_dst_block_id e =? dst)) es.

Definition payload_size (es : list Entry) : Z := zsum ((fun e => Program.e_size_bytes e * Program.e_count e) <$> es).
Definition payload_chunks (es : list Entry) : Z := zsum (Program.e_count <$> es).

(** The spans of an entry at its source and its destination. *)
Definition src_span (start : Z) (e : Entry) : list BlockChunk :=
  spans start (Program.e_src_offset_bytes e) (Program.e_src_stride_bytes e) (Program.e_size_bytes e) (Program.e_count e).
Definition dst_span (start : Z) (e : Entry) : list BlockChunk :=
  spans start (Program.e_dst_offset_bytes e) (Program.e_dst_stride_bytes e) (Program.e_size_bytes e) (Program.e_count e).

(** The bytes of the source, relative to the block ([entry_bytes] are those of the destination). *)
Definition src_offsets (e : Entry) : list Z :=
  span_bytes (Program.e_src_offset_bytes e) (Program.e_src_stride_bytes e) (Program.e_size_bytes e) (Program.e_count e).

Lemma bind_spans_addrs {A} (f : A -> list BlockChunk) (g : A -> list Z) l :
  (forall x, chunk_addrs (f x) = g x) -> chunk_addrs (l ≫= f) = l ≫= g.
Proof. intros H. induction l as [|x l IH]; [done|]. by rewrite !bind_cons, chunk_addrs_app, H, IH. Qed.

Lemma src_span_addrs start es : chunk_addrs (es ≫= src_span start) = es ≫= fun e => Z.add start <$> src_offsets e.
Proof. apply bind_spans_addrs. intros e. apply spans_addrs. Qed.
Lemma dst_span_addrs start es : chunk_addrs (es ≫= dst_span start) = es ≫= fun e => Z.add start <$> entry_bytes e.
Proof. apply bind_spans_addrs. intros e. apply spans_addrs. Qed.

(** Positive sizes and counts. *)
Definition sized (e : Entry) : Prop := 0 < Program.e_size_bytes e /\ 0 < Program.e_count e.

Lemma spans_sum start offset stride size count :
  0 <= count -> zsum (snd <$> spans start offset stride size count) = size * count.
Proof.
  intros Hc. unfold spans. rewrite <-list_fmap_compose.
  enough (Hgen : forall l : list Z, zsum ((snd ∘ fun c : Z => (start + offset + c * stride, size)) <$> l) = size * Z.of_nat (length l)).
  { rewrite Hgen, length_zrange. f_equal. lia. }
  induction l as [|x l IH]; [unfold zsum; simpl; lia|]. rewrite fmap_cons, zsum_cons, IH. cbn [length compose snd]. rewrite Nat2Z.inj_succ. lia.
Qed.

Lemma bind_span_facts (f : Entry -> list BlockChunk) es :
  Forall sized es ->
  (forall e, exists start offset stride, f e = spans start offset stride (Program.e_size_bytes e) (Program.e_count e)) ->
  Forall (fun c : BlockChunk => 0 < c.2) (es ≫= f) /\ zsum (snd <$> (es ≫= f)) = payload_size es /\
  Z.of_nat (length (es ≫= f)) = payload_chunks es.
Proof.
  intros Hs Hf. induction Hs as [|e es [Hsz Hc] Hs IH]; [done|]. rewrite !bind_cons.
  destruct IH as (IH1 & IH2 & IH3). rewrite fmap_app, zsum_app, length_app, IH2.
  unfold payload_size, payload_chunks in *. rewrite !fmap_cons, !zsum_cons.
  destruct (Hf e) as (start & offset & stride & ->). rewrite spans_sum by lia. split_and!; [|done|].
  - apply Forall_app. split; [|done]. unfold spans. apply Forall_fmap, Forall_forall. done.
  - unfold spans. rewrite length_fmap, length_zrange. lia.
Qed.

Lemma length_span_bytes offset stride size count :
  0 <= size -> 0 <= count -> Z.of_nat (length (span_bytes offset stride size count)) = size * count.
Proof.
  intros Hs Hc. rewrite <-(length_fmap (Z.add 0)), <-spans_addrs, length_chunk_addrs.
  - by apply spans_sum.
  - unfold spans. by apply Forall_fmap, Forall_forall.
Qed.

Lemma length_moves start start' es :
  Forall sized es ->
  length (es ≫= fun e => Z.add start <$> src_offsets e) = length (es ≫= fun e => Z.add start' <$> entry_bytes e).
Proof.
  induction 1 as [|e es [Hsz Hc] _ IH]; [done|]. rewrite !bind_cons, !length_app, !length_fmap, IH. f_equal.
  apply Nat2Z.inj. unfold src_offsets, entry_bytes. rewrite !length_span_bytes by lia. done.
Qed.

(** An entry whose source (destination) span fits the live regions of a pool. *)
Definition src_fits (spec : Pool.PoolSpec) (e : Entry) : Prop :=
  StridedSpanFitsRegions (Program.e_src_offset_bytes e) (Program.e_src_stride_bytes e) (Program.e_size_bytes e)
    (Program.e_count e) (Pool.block_stride_bytes spec) (Pool.regions spec) = Some true.
Definition dst_fits (spec : Pool.PoolSpec) (e : Entry) : Prop :=
  StridedSpanFitsRegions (Program.e_dst_offset_bytes e) (Program.e_dst_stride_bytes e) (Program.e_size_bytes e)
    (Program.e_count e) (Pool.block_stride_bytes spec) (Pool.regions spec) = Some true.

(** Ids a message can carry. *)
Definition ids_ok (e : Entry) : Prop :=
  0 <= Program.e_src_block_id e <= int32_max /\ 0 <= Program.e_dst_block_id e <= int32_max.

Section chunks.
Context (s : Manager.State) (p : Z) (spec : Pool.PoolSpec) (base : Z) (Hm : mirror s p spec base).

Lemma fits_chunks b offset stride size count :
  0 <= b < Pool.num_blocks spec ->
  StridedSpanFitsRegions offset stride size count (Pool.block_stride_bytes spec) (Pool.regions spec) = Some true ->
  Manager.entry_chunks (block_start spec base b) offset stride size count = spans (block_start spec base b) offset stride size count /\
  Forall (fun c : BlockChunk => block_start spec base b <= c.1 /\ 0 < c.2 /\ c.1 + c.2 <= base + Pool.storage_extent_end_bytes spec)
    (spans (block_start spec base b) offset stride size count).
Proof using Hm.
  intros Hb Hfit. destruct (mirror_span _ _ _ _ Hm b _ _ _ _ Hb Hfit) as (? & ? & ? & ? & Hend).
  destruct (mirror_block _ _ _ _ Hm b Hb) as (? & ? & ?). pose proof Hm as []. unfold block_start.
  split.
  - apply entry_chunks_exact; [lia..|]. specialize (Hend (count - 1) ltac:(lia)). lia.
  - unfold spans. apply Forall_fmap, Forall_forall. intros r Hr%elem_of_zrange. simpl. specialize (Hend r Hr). nia.
Qed.

(** The address a block resolves to. *)
Lemma plan_geometry b snapshot total uuid node peer src dst :
  0 <= b < Pool.num_blocks spec -> Manager.active_plans_ s !! uuid = Some snapshot -> uuid ≠ 0 -> 0 < total ->
  Manager.GetBlockChunks s p 0 [b] total uuid node peer src dst =
  rev (foldl (Manager.cut_chunk total) ([], 0)
    (if Manager.is_sender snapshot
     then Manager.sender_chunks (Manager.request snapshot) p 0 (block_start spec base b) b peer dst
     else Manager.receiver_chunks (Manager.request snapshot) p 0 (block_start spec base b) b node peer src)).1.
Proof using Hm.
  intros Hb Hplan Hu Ht. pose proof Hm as []. destruct (mirror_block _ _ _ _ Hm b Hb) as (? & ? & ?).
  pose proof (mirror_ok _ _ _ _ Hm) as []. unfold Manager.GetBlockChunks. rewrite mi_explicit0, mi_pool0, Hplan. cbn [existsb].
  rewrite (proj2 (Z.ltb_ge b 0)), (proj2 (Z.leb_gt _ b)) by lia. cbn [orb]. rewrite mi_host0.
  rewrite (proj2 (Z.eqb_neq base 0)), (proj2 (Z.eqb_neq uuid 0)) by lia. cbv zeta. unfold Manager.plan_chunks. cbn [foldl snd].
  rewrite (proj2 (Z.leb_gt total 0)) by lia.
  assert (Hst : u64 (u64 (base + Pool.base_offset_bytes spec) + u64 (u64 b * u64 (Pool.block_stride_bytes spec))) = block_start spec base b).
  { destruct mi_int65 as (? & ? & ? & ?). unfold in_int64, int64_max, int64_min in *.
    rewrite (u64_id b), (u64_id (Pool.block_stride_bytes spec)), (u64_id (base + _)), (u64_id (b * _)) by lia.
    unfold block_start. apply u64_id. lia. }
  by rewrite Hst.
Qed.

(** The chunks of a sender, those of a receiver. *)
Lemma sender_payload b plan total uuid peer dst es :
  0 <= b < Pool.num_blocks spec -> Manager.active_plans_ s !! uuid = Some (Manager.mkRegistered plan true) -> uuid ≠ 0 ->
  Program.shard_push_schedules plan !! 0 = Some es -> Forall ids_ok es -> peer ≠ EmptyString -> 0 <= dst ->
  let moved := pair_entries plan p (List.filter (fun e => bool_decide (Program.e_dst_peer e = peer)) es) b dst in
  Forall (src_fits spec) moved -> payload_size moved <= total -> 0 < total < 2 ^ 64 ->
  Manager.GetBlockChunks s p 0 [b] total uuid (-1) peer (-1) dst = moved ≫= src_span (block_start spec base b).
Proof using Hm.
  intros Hb Hplan Hu Hes Hids Hpeer Hdst moved Hfits Hsize Ht.
  rewrite (plan_geometry b _ _ _ _ _ _ _ Hb Hplan Hu) by lia. cbn [Manager.is_sender Manager.request].
  unfold Manager.sender_chunks. change (wrap32 0) with 0. rewrite Hes.
  assert (Hf : List.filter (Manager.sender_match plan p b peer dst) es = moved).
  { unfold moved, pair_entries. clear -Hids Hpeer Hdst Hb Hm. destruct (mirror_ok _ _ _ _ Hm).
    destruct Hm as [_ _ (_ & _ & Hn & _) _ _ _ _ _ _]. unfold in_int64, int64_max in Hn.
    induction Hids as [|e es [He1 He2] _ IH]; [done|]. cbn [List.filter]. unfold Manager.sender_match at 1. unfold int32_max in *.
    rewrite (bool_decide_eq_false_2 (peer = EmptyString)), (proj2 (Z.eqb_neq dst (-1))), (u64_id (Program.e_src_block_id e)), (u64_id b) by (done || lia).
    cbn [orb]. destruct (bool_decide (Program.e_dst_peer e = peer)); cbn [List.filter]; rewrite ?andb_false_r, ?andb_true_r; cbn [andb]; [|exact IH].
    rewrite IH. destruct (Manager.entry_targets_pool plan p e), (Program.e_src_block_id e =? b), (Program.e_dst_block_id e =? dst); done. }
  rewrite Hf. assert (Hch : (moved ≫= fun e => Manager.entry_chunks (block_start spec base b) (Program.e_src_offset_bytes e)
      (Program.e_src_stride_bytes e) (Program.e_size_bytes e) (Program.e_count e)) = moved ≫= src_span (block_start spec base b)).
  { clear Hf Hsize. induction Hfits as [|e es' He _ IH]; [done|]. rewrite !bind_cons, IH. f_equal. by apply (fits_chunks b). }
  rewrite Hch. destruct (bind_span_facts (src_span (block_start spec base b)) moved) as (Hpos & Hsum & _).
  { eapply Forall_impl; [exact Hfits|]. intros e He. destruct (mirror_span _ _ _ _ Hm b _ _ _ _ Hb He) as (_ & _ & ? & ? & _). done. }
  { intros e. unfold src_span. eauto. }
  rewrite cut_chunks_fit by (done || lia). simpl. by rewrite app_nil_r, rev_involutive.
Qed.

Lemma receiver_payload b plan total uuid rank src es :
  0 <= b < Pool.num_blocks spec -> Manager.active_plans_ s !! uuid = Some (Manager.mkRegistered plan false) -> uuid ≠ 0 ->
  0 <= rank <= int32_max -> Program.shard_push_schedules plan !! rank = Some es -> Forall ids_ok es ->
  Forall (fun e => Program.e_dst_shard_idx e = 0) es -> 0 <= src <= int32_max ->
  let moved := pair_entries plan p es src b in
  Forall (dst_fits spec) moved -> payload_size moved <= total -> 0 < total < 2 ^ 64 ->
  Manager.GetBlockChunks s p 0 [b] total uuid rank EmptyString src (-1) = moved ≫= dst_span (block_start spec base b).
Proof using Hm.
  intros Hb Hplan Hu Hrank Hes Hids Hshard Hsrc moved Hfits Hsize Ht.
  rewrite (plan_geometry b _ _ _ _ _ _ _ Hb Hplan Hu) by lia. cbn [Manager.is_sender Manager.request].
  unfold Manager.receiver_chunks, Manager.find_src_shard.
  rewrite (proj2 (Z.eqb_neq rank (-1))) by lia. cbn [negb]. rewrite wrap32_id by (unfold in_int32, int32_min, int32_max in *; lia).
  rewrite (proj2 (Z.eqb_neq rank (-1))), Hes by lia.
  assert (Hf : List.filter (fun e => Manager.receiver_match plan p 0 b src e &&
     (bool_decide (EmptyString = EmptyString) || bool_decide (Program.e_dst_peer e = EmptyString))) es = moved).
  { unfold moved, pair_entries. clear -Hids Hshard Hsrc Hb Hm. destruct (mirror_ok _ _ _ _ Hm).
    destruct Hm as [_ _ (_ & _ & Hn & _) _ _ _ _ _ _]. unfold in_int64, int64_max, int32_max in *.
    induction Hids as [|e es [He1 He2] _ IH]; [done|]. apply Forall_cons in Hshard as [Hs0 Hshard]. cbn [List.filter].
    rewrite (IH Hshard). unfold Manager.receiver_match at 1. unfold int32_max in *. rewrite Hs0, (bool_decide_eq_true_2 (EmptyString = EmptyString)) by done.
    change (u64 0) with 0. rewrite (proj2 (Z.eqb_neq src (-1))), !u64_id by (done || lia). cbn [orb].
    destruct (Manager.entry_targets_pool plan p e), (Program.e_src_block_id e =? src), (Program.e_dst_block_id e =? b); done. }
  rewrite Hf. assert (Hch : (moved ≫= fun e => Manager.entry_chunks (block_start spec base b) (Program.e_dst_offset_bytes e)
      (Program.e_dst_stride_bytes e) (Program.e_size_bytes e) (Program.e_count e)) = moved ≫= dst_span (block_start spec base b)).
  { clear Hf Hsize. induction Hfits as [|e es' He _ IH]; [done|]. rewrite !bind_cons, IH. f_equal. by apply (fits_chunks b). }
  rewrite Hch. destruct (bind_span_facts (dst_span (block_start spec base b)) moved) as (Hpos & Hsum & _).
  { eapply Forall_impl; [exact Hfits|]. intros e He. destruct (mirror_span _ _ _ _ Hm b _ _ _ _ Hb He) as (_ & _ & ? & ? & _). done. }
  { intros e. unfold dst_span. eauto. }
  rewrite cut_chunks_fit by (done || lia). simpl. by rewrite app_nil_r, rev_involutive.
Qed.

End chunks.

(** ** The bytes of a stream *)

(** A payload the transport can carry. *)
Record payload_ok (src_spec dst_spec : Pool.PoolSpec) (es : list Entry) : Prop := {
  pl_some : es ≠ [];
  pl_src : Forall (src_fits src_spec) es;
  pl_dst : Forall (dst_fits dst_spec) es;
  pl_block : payload_size es <= Pool.block_stride_bytes src_spec;
  pl_size : payload_size es < 2 ^ 32;
  pl_chunks : payload_chunks es <= Transport.IOV_MAX
}.

Definition frame (mem : Memory) (start : Z) (es : list Entry) : list Z :=
  Chunk.SerializeChunkSize (payload_size es) ++ (mem <$> (es ≫= fun e => Z.add start <$> src_offsets e)).

Definition stores (mem : Memory) (src_start dst_start : Z) (es : list Entry) : list (Z * Z) :=
  zip (es ≫= fun e => Z.add dst_start <$> entry_bytes e) (mem <$> (es ≫= fun e => Z.add src_start <$> src_offsets e)).

(** The chunk lists of consecutive payloads and the requests built for them. *)
Fixpoint number_requests (req : Z -> BlockChunk -> Transport.Request) (i : nat) (payloads : list (list BlockChunk)) :
    list Transport.Request :=
  match payloads with
  | [] => []
  | chunks :: rest => (req (Z.of_nat i) <$> chunks) ++ number_requests req (S i) rest
  end.

Definition carried (chunks : list BlockChunk) : Prop :=
  chunks ≠ [] /\ Forall (fun c : BlockChunk => 0 < c.2) chunks /\ zsum (snd <$> chunks) < 2 ^ 32 /\
  Z.of_nat (length chunks) <= Transport.IOV_MAX.

Section requests.
Context (req : Z -> BlockChunk -> Transport.Request).
Hypothesis Hid : forall id c, Transport.request_id (req id c) = id.
Hypothesis Haddr : forall id c, Transport.laddr (req id c) = c.1.
Hypothesis Hlen : forall id c, Transport.len (req id c) = c.2.

Lemma same_payload_first i chunks rest :
  Forall carried rest ->
  Transport.same_payload (Z.of_nat i) ((req (Z.of_nat i) <$> chunks) ++ number_requests req (S i) rest) =
  (req (Z.of_nat i) <$> chunks, number_requests req (S i) rest).
Proof using Hid.
  intros Hrest. induction chunks as [|c cs IH].
  - destruct Hrest as [|[|c cs] rest [Hne _] _]; [done|done|]. cbn [number_requests]. rewrite fmap_cons, fmap_nil. simpl.
    rewrite Hid, (proj2 (Z.eqb_neq _ _)) by lia. done.
  - rewrite fmap_cons. cbn [app Transport.same_payload]. by rewrite Hid, Z.eqb_refl, IH.
Qed.

Lemma push_payloads_exact fuel mem i payloads out :
  Forall carried payloads -> (length payloads <= fuel)%nat ->
  Transport.push_payloads fuel mem (number_requests req i payloads) out =
  Ok (out ++ (payloads ≫= fun chunks => Chunk.SerializeChunkSize (zsum (snd <$> chunks)) ++ gather mem chunks)).
Proof using Hid Haddr Hlen.
  intros Hall. revert fuel i out. induction Hall as [|chunks rest Hc Hall IH]; intros fuel i out Hfuel.
  { rewrite app_nil_r. by destruct fuel. }
  destruct fuel as [|fuel]; [simpl in Hfuel; lia|]. destruct Hc as (Hne & Hpos & Hsum & Hn).
  pose proof (same_payload_first i chunks rest Hall) as Hsame. cbn [number_requests Transport.push_payloads].
  assert (Hcs : (fun q => (Transport.laddr q, Transport.len q)) <$> (req (Z.of_nat i) <$> chunks) = chunks).
  { rewrite <-list_fmap_compose. etrans; [|apply list_fmap_id]. apply list_fmap_ext. intros j [a n] _. simpl. by rewrite Haddr, Hlen. }
  destruct chunks as [|c cs]; [done|]. rewrite fmap_cons in *. cbn [app] in *. rewrite Hid, Hsame, Hcs.
  rewrite total_size_exact by done. cbv zeta.
  assert (Hpos' : 0 < zsum (snd <$> c :: cs)).
  { rewrite fmap_cons, zsum_cons. apply Forall_cons in Hpos as [? Hpos].
    assert (0 <= zsum (snd <$> cs)); [|lia]. apply zsum_nonneg, Forall_fmap. eapply Forall_impl; [exact Hpos|simpl; lia]. }
  rewrite (proj2 (Z.ltb_lt 0 _)) by done. unfold Transport.WriteVExact. rewrite to_iovec_all by done.
  rewrite (proj2 (Z.leb_le 1 _)), (proj2 (Z.leb_le _ Transport.IOV_MAX)) by (simpl in *; lia). cbn [andb].
  rewrite IH by (simpl in Hfuel; lia). by rewrite bind_cons, <-!app_assoc.
Qed.

Lemma number_requests_length i payloads : Forall carried payloads -> (length payloads <= length (number_requests req i payloads))%nat.
Proof.
  intros Hall. revert i. induction Hall as [|chunks rest [Hne _] _ IH]; intros i; [done|]. cbn [number_requests length].
  rewrite length_app, length_fmap. specialize (IH (S i)). destruct chunks; [done|simpl; lia].
Qed.

End requests.

(** ** A stream of a push *)

Lemma targets_groups plan1 plan2 p e :
  Program.pool_groups plan1 = Program.pool_groups plan2 ->
  Manager.entry_targets_pool plan1 p e = Manager.entry_targets_pool plan2 p e.
Proof. intros H. unfold Manager.entry_targets_pool. by rewrite H. Qed.

Lemma pair_entries_groups plan1 plan2 p es src dst :
  Program.pool_groups plan1 = Program.pool_groups plan2 -> pair_entries plan1 p es src dst = pair_entries plan2 p es src dst.
Proof.
  intros H. unfold pair_entries. apply List.filter_ext. intros e. by rewrite (targets_groups plan1 plan2 p e H).
Qed.

Lemma payload_order_one m p n : Transport.payload_order m [p] 1 n = (fun k => (p, 0, k)) <$> zrange 0 n.
Proof.
  unfold Transport.payload_order. change (zrange 0 1) with [0]. destruct m.
  - rewrite !bind_cons. by rewrite !app_nil_r.
  - induction (zrange 0 n) as [|k ks IH]; [done|]. by rewrite bind_cons, fmap_cons, <-IH.
Qed.

(** One rank's plan as its sender has it, and the same rank's schedule in the receiver's
    plan: the entries of the sender's schedule for this receiver. *)
Record linked {DS DR} (sstate : DS -> Manager.State) (rstate : DR -> Manager.State)
    (uuid p : Z) (peer : string) (rank : Z) (ss : DS) (sr : DR)
    (sspec rspec : Pool.PoolSpec) (sbase rbase : Z) (rplan : Plan) (es : list Entry) : Prop := {
  lk_sender : mirror (sstate ss) p sspec sbase;
  lk_receiver : mirror (rstate sr) p rspec rbase;
  lk_uuid : 0 < uuid;
  lk_peer : peer ≠ EmptyString;
  lk_rank : 0 <= rank <= int32_max;
  lk_rplan : Manager.active_plans_ (rstate sr) !! uuid = Some (Manager.mkRegistered rplan false);
  lk_entries : Program.shard_push_schedules rplan !! rank = Some es;
  lk_ids : Forall ids_ok es;
  lk_shard : Forall (fun e => Program.e_dst_shard_idx e = 0) es;
  lk_splan : exists splan all, Manager.active_plans_ (sstate ss) !! uuid = Some (Manager.mkRegistered splan true) /\
    Program.pool_groups splan = Program.pool_groups rplan /\
    Program.shard_push_schedules splan !! 0 = Some all /\ Forall ids_ok all /\
    es = List.filter (fun e => bool_decide (Program.e_dst_peer e = peer)) all
}.

Section stream.
Context {DS DR : Type} (ds : Transport.Delegate DS) (dr : Transport.Delegate DR).
Context (sstate : DS -> Manager.State) (rstate : DR -> Manager.State).
Context `{!ManagerDelegate ds sstate, !ManagerDelegate dr rstate}.
Context (uuid p : Z) (peer : string) (rank : Z) (ss : DS) (sr : DR) (sspec rspec : Pool.PoolSpec) (sbase rbase : Z).
Context (rplan : Plan) (es : list Entry).
Hypothesis Hlink : linked sstate rstate uuid p peer rank ss sr sspec rspec sbase rbase rplan es.

Local Abbreviation moved sd := (pair_entries rplan p es sd.1 sd.2).

(** A pair of blocks both ends have. *)
Definition pair_ok (sd : Z * Z) : Prop :=
  0 <= sd.1 < Pool.num_blocks sspec /\ 0 <= sd.2 < Pool.num_blocks rspec /\
  sd.1 <= int32_max /\ sd.2 <= int32_max /\ payload_ok sspec rspec (moved sd).

Lemma payload_positive es' : payload_ok sspec rspec es' -> Forall sized es' /\ 0 < payload_size es'.
Proof using Hlink.
  intros []. pose proof (mirror_ok _ _ _ _ (lk_sender _ _ _ _ _ _ _ _ _ _ _ _ _ _ Hlink)) as [].
  assert (Hs : Forall sized es').
  { eapply Forall_impl; [exact pl_src0|]. intros e He.
    destruct (mirror_span _ _ _ _ (lk_sender _ _ _ _ _ _ _ _ _ _ _ _ _ _ Hlink) 0 _ _ _ _ ltac:(lia) He) as (_ & _ & ? & ? & _). done. }
  split; [done|]. destruct Hs as [|e es' [Hsz Hc] Hs]; [done|]. unfold payload_size. rewrite fmap_cons, zsum_cons.
  assert (0 <= zsum ((fun e => Program.e_size_bytes e * Program.e_count e) <$> es')); [|nia].
  apply zsum_nonneg, Forall_fmap. eapply Forall_impl; [exact Hs|]. intros e' [? ?]. simpl. nia.
Qed.

Lemma payload_carried es' start : payload_ok sspec rspec es' -> carried (es' ≫= src_span start) /\ carried (es' ≫= dst_span start).
Proof using Hlink.
  intros Hp. destruct (payload_positive es' Hp) as [Hs Hpos]. destruct Hp.
  destruct (bind_span_facts (src_span start) es' Hs) as (H1 & H2 & H3); [unfold src_span; eauto|].
  destruct (bind_span_facts (dst_span start) es' Hs) as (H4 & H5 & H6); [unfold dst_span; eauto|].
  unfold carried. rewrite H2, H3, H5, H6. split_and!; try done; intros He; [rewrite He in H2|rewrite He in H5]; unfold zsum in *; simpl in *; lia.
Qed.

(** Both ends resolve the same entries. *)
Lemma sender_resolves sd : pair_ok sd ->
  Transport.GetBlockChunks ds ss p 0 [sd.1] (Transport.block_bytes ds ss p) uuid (-1) peer (-1) sd.2 =
  moved sd ≫= src_span (block_start sspec sbase sd.1).
Proof using Hlink ManagerDelegate0.
  intros (H1 & H2 & H3 & H4 & Hp). destruct (payload_positive _ Hp) as [_ Hpos]. destruct Hlink, Hp.
  destruct lk_splan0 as (splan & all & Ha & Hg & Hs & Hids & ->). rewrite md_chunks, md_bytes.
  rewrite (mirror_block_bytes _ _ _ _ lk_sender0). pose proof (mirror_ok _ _ _ _ lk_sender0) as [].
  pose proof (mi_int64 _ _ _ _ lk_sender0) as (_ & Hst & _). unfold in_int64, int64_max in Hst.
  rewrite <-!(pair_entries_groups splan rplan) in * by done.
  apply (sender_payload _ _ _ _ lk_sender0 sd.1 splan _ _ _ sd.2 all); (done || lia).
Qed.

Lemma receiver_resolves sd : pair_ok sd ->
  Transport.GetBlockChunks dr sr p 0 [sd.2] (payload_size (moved sd)) uuid rank EmptyString sd.1 (-1) =
  moved sd ≫= dst_span (block_start rspec rbase sd.2).
Proof using Hlink ManagerDelegate1.
  intros (H1 & H2 & H3 & H4 & Hp). destruct (payload_positive _ Hp) as [_ Hpos]. destruct Hlink, Hp. rewrite md_chunks.
  apply (receiver_payload _ _ _ _ lk_receiver0 sd.2 rplan _ _ _ _ es); (done || lia).
Qed.

(** *** The sender *)

Local Abbreviation payload_of sd := (moved sd ≫= src_span (block_start sspec sbase sd.1)).

Lemma moved_bounds sd : pair_ok sd ->
  Transport.ValidateChunks ds ss p 0 (payload_of sd) = OkStatus /\
  Transport.ValidateChunks dr sr p 0 (moved sd ≫= dst_span (block_start rspec rbase sd.2)) = OkStatus.
Proof using Hlink ManagerDelegate0 ManagerDelegate1.
  intros (H1 & H2 & H3 & H4 & []). destruct Hlink. split.
  - eapply (mirror_validate _ _ _ _ lk_sender0 ds sstate); [done|done|].
    apply Forall_bind. eapply Forall_impl; [exact pl_src0|]. intros e He. by apply (fits_chunks _ _ _ _ lk_sender0 sd.1).
  - eapply (mirror_validate _ _ _ _ lk_receiver0 dr rstate); [done|done|].
    apply Forall_bind. eapply Forall_impl; [exact pl_dst0|]. intros e He. by apply (fits_chunks _ _ _ _ lk_receiver0 sd.2).
Qed.

Section sending.
Context (block_offset block_count : Z) (src_ids dst_ids : list Z) (m : Transport.MajorOrder) (parallelism opcode : Z).

Definition stream_request (id : Z) (c : BlockChunk) : Transport.Request :=
  Transport.BuildBlockRequest ds ss opcode c.1 c.2 (u32 block_count) p id uuid parallelism m.

Lemma build_step_exact requests rid k sd :
  pair_ok sd -> src_ids !! Z.to_nat (block_offset + k) = Some sd.1 -> dst_ids !! Z.to_nat (block_offset + k) = Some sd.2 ->
  Transport.build_step ds ss peer block_offset block_count src_ids dst_ids m uuid p parallelism opcode (requests, rid) (p, 0, k) =
  Ok (requests ++ (stream_request rid <$> payload_of sd), u32 (rid + 1)).
Proof using Hlink ManagerDelegate0 ManagerDelegate1.
  intros Hsd Hsrc Hdst. unfold Transport.build_step. rewrite Hsrc, Hdst. cbn [default from_option id].
  rewrite sender_resolves by done. cbv zeta. destruct (moved_bounds sd Hsd) as [-> _].
  rewrite bool_decide_eq_false_2; [done|]. apply (payload_carried _ (block_start sspec sbase sd.1)). apply Hsd.
Qed.

Lemma build_loop pairs requests i :
  Forall pair_ok pairs -> Z.of_nat i + Z.of_nat (length pairs) < 2 ^ 32 ->
  (forall j sd, pairs !! j = Some sd -> src_ids !! Z.to_nat (block_offset + Z.of_nat (i + j)) = Some sd.1 /\
     dst_ids !! Z.to_nat (block_offset + Z.of_nat (i + j)) = Some sd.2) ->
  for_each (Transport.build_step ds ss peer block_offset block_count src_ids dst_ids m uuid p parallelism opcode)
    ((fun k => (p, 0, k)) <$> zrange (Z.of_nat i) (Z.of_nat i + Z.of_nat (length pairs))) (requests, Z.of_nat i) =
  Ok (requests ++ number_requests stream_request i ((fun sd => payload_of sd) <$> pairs), Z.of_nat i + Z.of_nat (length pairs)).
Proof using Hlink ManagerDelegate0 ManagerDelegate1.
  intros Hall. revert requests i. induction Hall as [|sd pairs Hsd Hall IH]; intros requests i Hn Hids.
  { rewrite zrange_empty by (simpl; lia). cbn [fmap list_fmap for_each number_requests]. by rewrite app_nil_r, Z.add_0_r. }
  rewrite zrange_cons by (simpl; lia). rewrite !fmap_cons. cbn [for_each number_requests].
  destruct (Hids 0%nat sd eq_refl) as [Hs Hd]. rewrite Nat.add_0_r in Hs, Hd. rewrite (build_step_exact requests _ _ sd) by done.
  cbn [length] in Hn |- *. unfold u32 at 1. rewrite Z.mod_small by lia.
  replace (Z.of_nat i + 1) with (Z.of_nat (S i)) by lia. replace (Z.of_nat i + Z.of_nat (S (length pairs))) with (Z.of_nat (S i) + Z.of_nat (length pairs)) by lia.
  rewrite IH; [by rewrite <-app_assoc|lia|]. intros j sd' Hj. replace (S i + j)%nat with (i + S j)%nat by lia. by apply Hids.
Qed.

End sending.

(** *** The receiver *)

Definition pair_stores (mem : Memory) (sd : Z * Z) : list (Z * Z) :=
  stores mem (block_start sspec sbase sd.1) (block_start rspec rbase sd.2) (moved sd).
Definition pair_frame (mem : Memory) (sd : Z * Z) : list Z := frame mem (block_start sspec sbase sd.1) (moved sd).

Lemma frame_bytes mem sd : pair_ok sd ->
  Chunk.SerializeChunkSize (zsum (snd <$> payload_of sd)) ++ gather mem (payload_of sd) = pair_frame mem sd.
Proof using Hlink.
  intros (_ & _ & _ & _ & Hp). destruct (payload_positive _ Hp) as [Hs _].
  destruct (bind_span_facts (src_span (block_start sspec sbase sd.1)) (moved sd) Hs) as (_ & -> & _); [unfold src_span; eauto|].
  unfold pair_frame, frame. by rewrite gather_addrs, src_span_addrs.
Qed.

Lemma receive_payload_exact smem header allocated srcs mem rest k sd :
  pair_ok sd -> Chunk.uuid header = uuid -> Chunk.remote_id header = rank ->
  allocated !! Z.to_nat k = Some sd.2 -> srcs !! Z.to_nat k = Some sd.1 ->
  Transport.receive_payload dr sr header allocated srcs (mem, pair_frame smem sd ++ rest) (p, 0, k) =
  (OkStatus, (store_all mem (pair_stores smem sd), rest)).
Proof using Hlink ManagerDelegate0 ManagerDelegate1.
  intros Hsd Hu Hr Hd Hs. pose proof Hsd as (_ & _ & _ & _ & Hp). destruct (payload_positive _ Hp) as [Hsized Hpos].
  destruct (payload_carried _ (block_start rspec rbase sd.2) Hp) as [_ (Hne & Hcp & Hsum & Hlen)].
  destruct (bind_span_facts (dst_span (block_start rspec rbase sd.2)) (moved sd) Hsized) as (_ & Hsz & _); [unfold dst_span; eauto|].
  pose proof (pl_size _ _ _ Hp) as Hmax.
  unfold Transport.receive_payload. rewrite Hd, Hs, Hu, Hr. cbn [default from_option id].
  unfold Transport.ReadExact, pair_frame, frame. rewrite <-app_assoc.
  set (size_field := Chunk.SerializeChunkSize _).
  assert (Hl : length size_field = Chunk.kChunkSizeFieldSize) by apply length_le_bytes.
  rewrite (proj2 (Nat.leb_le _ _)) by (rewrite length_app; lia). rewrite <-Hl, take_app_length, drop_app_length.
  assert (Hde : Chunk.DeserializeChunkSize size_field = payload_size (moved sd)).
  { apply Chunk.field_only. unfold Chunk.in_u. simpl. lia. }
  rewrite Hde, receiver_resolves by done. cbv zeta. rewrite bool_decide_eq_false_2 by done.
  destruct (moved_bounds sd Hsd) as [_ ->]. rewrite total_size_exact, Hsz, Z.eqb_refl by done. cbn [negb].
  rewrite (proj2 (Z.ltb_lt 0 _)) by done. unfold Transport.ReadVExact. rewrite to_iovec_all by done. cbv zeta.
  rewrite (proj2 (Z.leb_le 1 _)), (proj2 (Z.leb_le _ Transport.IOV_MAX)) by (destruct (moved sd ≫= _); [done|simpl in *; lia]).
  cbn [andb]. rewrite Hsz. set (bytes := smem <$> _).
  assert (Hbl : length bytes = Z.to_nat (payload_size (moved sd))).
  { unfold bytes. rewrite length_fmap, (length_moves _ (block_start rspec rbase sd.2)) by done. rewrite <-dst_span_addrs.
    apply Nat2Z.inj. rewrite length_chunk_addrs, Hsz by (eapply Forall_impl; [exact Hcp|simpl; lia]). lia. }
  rewrite (proj2 (Nat.leb_le _ _)) by (rewrite length_app; lia). rewrite <-Hbl, take_app_length, drop_app_length.
  by rewrite scatter_addrs, dst_span_addrs.
Qed.

Lemma receive_loop smem header allocated srcs mem rest pairs i :
  Forall pair_ok pairs -> Chunk.uuid header = uuid -> Chunk.remote_id header = rank ->
  (forall j sd, pairs !! j = Some sd -> allocated !! (i + j)%nat = Some sd.2 /\ srcs !! (i + j)%nat = Some sd.1) ->
  Transport.receive_payloads dr sr header allocated srcs
    ((fun k => (p, 0, k)) <$> zrange (Z.of_nat i) (Z.of_nat i + Z.of_nat (length pairs))) (mem, (pairs ≫= pair_frame smem) ++ rest) =
  (OkStatus, (store_all mem (pairs ≫= pair_stores smem), rest)).
Proof using Hlink ManagerDelegate0 ManagerDelegate1.
  intros Hall Hu Hr. revert mem i. induction Hall as [|sd pairs Hsd Hall IH]; intros mem i Hids.
  { rewrite zrange_empty by (simpl; lia). done. }
  rewrite zrange_cons by (simpl; lia). rewrite fmap_cons. cbn [Transport.receive_payloads]. rewrite !bind_cons, <-app_assoc.
  destruct (Hids 0%nat sd eq_refl) as [Ha Hs]. rewrite Nat.add_0_r in Ha, Hs.
  rewrite receive_payload_exact by (done || by rewrite Nat2Z.id). rewrite store_all_app.
  replace (Z.of_nat i + 1) with (Z.of_nat (S i)) by lia. cbn [length].
  replace (Z.of_nat i + Z.of_nat (S (length pairs))) with (Z.of_nat (S i) + Z.of_nat (length pairs)) by lia.
  apply IH. intros j sd' Hj. replace (S i + j)%nat with (i + S j)%nat by lia. by apply Hids.
Qed.

(** *** The whole exchange *)

Lemma zip_lookup {A B} (l : list A) (k : list B) j x :
  zip l k !! j = Some x -> l !! j = Some x.1 /\ k !! j = Some x.2.
Proof. intros (a & b & -> & Ha & Hb)%lookup_zip_with_Some. done. Qed.

Lemma slice_lookup {A} (l : list A) off n j x :
  0 <= off -> Transport.slice l (off, n) !! j = Some x -> l !! Z.to_nat (off + Z.of_nat j) = Some x.
Proof.
  intros Hoff. unfold Transport.slice. cbn [fst snd]. intros [Hj Hl]%lookup_take_Some. rewrite lookup_drop in Hj.
  by replace (Z.to_nat (off + Z.of_nat j)) with (Z.to_nat off + j)%nat by lia.
Qed.

Section exchange.
Context (block_offset : Z) (src_ids dst_ids : list Z) (m : Transport.MajorOrder) (parallelism : Z).
Local Abbreviation srcs n := (Transport.slice src_ids (block_offset, n)).
Local Abbreviation dsts n := (Transport.slice dst_ids (block_offset, n)).

(** The blocks of the stream: both lists have the slice, and the pairs are transferred. *)
Record stream_ok (n : Z) : Prop := {
  so_offset : 0 <= block_offset;
  so_count : 0 < n < 2 ^ 32;
  so_srcs : Z.of_nat (length (srcs n)) = n;
  so_dsts : Z.of_nat (length (dsts n)) = n;
  so_pairs : Forall pair_ok (zip (srcs n) (dsts n));
  so_node : Transport.node_id ds ss = rank;
  so_uuid : uuid < 2 ^ 64;
  so_array : 0 <= p <= int32_max;
  so_contract : exists spec, Manager.GetPoolPushProgressSpec (rstate sr) p uuid = Ok (Some spec) /\
    0 < Manager.expected_pushes spec /\ 0 < Manager.expected_pools spec
}.

Definition first_header (n : Z) : Chunk.ChunkHeader :=
  Chunk.mkHeader 1 6 (Transport.major_order_byte m) 0 (parallelism mod 2 ^ 16) 0 0 rank p n uuid.

Lemma stream_requests n : stream_ok n ->
  Transport.BuildBlockRequests ds ss peer block_offset n src_ids dst_ids m uuid p parallelism =
  Ok (number_requests (stream_request n m parallelism 6) 0 ((fun sd => payload_of sd) <$> zip (srcs n) (dsts n))).
Proof using Hlink ManagerDelegate0 ManagerDelegate1.
  intros []. unfold Transport.BuildBlockRequests. rewrite bool_decide_eq_false_2.
  2:{ intros Hd. rewrite Hd in so_dsts0. unfold Transport.slice in so_dsts0. rewrite drop_nil, take_nil in so_dsts0. simpl in so_dsts0. lia. }
  rewrite (proj2 (Z.eqb_neq n 0)) by lia. unfold Transport.ForEachPayload, Transport.target_layers.
  rewrite (proj2 (Z.eqb_neq p (-1))) by lia. rewrite md_shards, (mi_shards _ _ _ _ (lk_sender _ _ _ _ _ _ _ _ _ _ _ _ _ _ Hlink)), payload_order_one.
  pose proof (length_zip_with_l_eq pair (srcs n) (dsts n) ltac:(lia)) as Hlen.
  pose proof (build_loop block_offset n src_ids dst_ids m parallelism 6 _ [] 0 so_pairs0) as Hloop.
  rewrite Hlen, so_srcs0 in Hloop. change (Z.of_nat 0) with 0 in Hloop. rewrite Z.add_0_l in Hloop. rewrite Hloop; [done|lia|].
  intros j sd Hj%zip_lookup. cbn [plus]. destruct Hj as [Hj1 Hj2]. split; eapply slice_lookup; done.
Qed.

Lemma stream_carried n : stream_ok n -> Forall carried ((fun sd => payload_of sd) <$> zip (srcs n) (dsts n)).
Proof using Hlink.
  intros []. apply Forall_fmap. eapply Forall_impl; [exact so_pairs0|]. intros sd Hsd. simpl.
  apply (payload_carried _ (block_start sspec sbase sd.1)), Hsd.
Qed.

Lemma stream_payload_bytes n smem : stream_ok n ->
  (((fun sd => payload_of sd) <$> zip (srcs n) (dsts n)) ≫= fun chunks => Chunk.SerializeChunkSize (zsum (snd <$> chunks)) ++ gather smem chunks) =
  zip (srcs n) (dsts n) ≫= pair_frame smem.
Proof using Hlink.
  intros []. induction so_pairs0 as [|sd pairs Hsd _ IH]; [done|]. rewrite fmap_cons, !bind_cons, IH. f_equal. by apply frame_bytes.
Qed.

Lemma stream_preamble n rest : stream_ok n ->
  Transport.push_preamble (number_requests (stream_request n m parallelism 6) 0 ((fun sd => payload_of sd) <$> zip (srcs n) (dsts n)) ++ rest)
    src_ids dst_ids block_offset =
  Chunk.SerializeChunkHeader (first_header n) ++ Chunk.SerializeBlockIds (dsts n) ++ Chunk.SerializeBlockIds (srcs n).
Proof using Hlink.
  intros Hso. pose proof (stream_carried n Hso) as Hc. pose proof Hso as [].
  assert (Hne : exists sd pairs, zip (srcs n) (dsts n) = sd :: pairs).
  { pose proof (length_zip_with_l_eq pair (srcs n) (dsts n) ltac:(lia)) as Hlen.
    destruct (zip (srcs n) (dsts n)); [simpl in Hlen; lia|eauto]. }
  destruct Hne as (sd & pairs & Hz). rewrite Hz in *. rewrite fmap_cons in *. apply Forall_cons in Hc as [(Hne & _) _].
  destruct (payload_of sd) as [|c cs]; [done|]. cbn [number_requests]. rewrite fmap_cons. cbn [app Transport.push_preamble].
  pose proof (lk_rank _ _ _ _ _ _ _ _ _ _ _ _ _ _ Hlink) as Hr. unfold int32_max in *.
  unfold Transport.push_header, stream_request, Transport.BuildBlockRequest. cbn [Transport.socket_opcode Transport.req_major_order
    Transport.req_parallelism Transport.req_remote_id Transport.req_local_id Transport.req_count_or_size Transport.req_uuid].
  rewrite so_node0, (proj2 (Z.eqb_neq p (-1))) by lia. unfold u32. rewrite (Z.mod_small rank), (Z.mod_small p), (Z.mod_small n) by lia. done.
Qed.

(** What the handler reads before the payloads. *)
Lemma stream_ids n : stream_ok n -> Forall in_int32 (srcs n) /\ Forall in_int32 (dsts n).
Proof using Type.
  intros []. assert (Hb : forall j x y, srcs n !! j = Some x -> dsts n !! j = Some y -> in_int32 x /\ in_int32 y).
  { intros j x y Hx Hy. pose proof (proj1 (Forall_lookup _ _) so_pairs0 j (x, y)) as Hp.
    destruct Hp as (? & ? & ? & ? & _); [by apply lookup_zip_with_Some; eauto|]. simpl in *.
    unfold in_int32, int32_min, int32_max in *. lia. }
  split; apply Forall_lookup; intros j x Hx.
  - destruct (lookup_lt_is_Some_2 (dsts n) j) as [y Hy]; [apply lookup_lt_Some in Hx; lia|]. by apply (Hb j x y).
  - destruct (lookup_lt_is_Some_2 (srcs n) j) as [y Hy]; [apply lookup_lt_Some in Hx; lia|]. by apply (Hb j y x).
Qed.

Lemma stream_push_ids n rest : stream_ok n ->
  Transport.push_ids dr sr (first_header n) (Chunk.SerializeBlockIds (dsts n) ++ Chunk.SerializeBlockIds (srcs n) ++ rest) =
  (Ok (dsts n, srcs n, [1], rest), sr).
Proof using Type.
  intros Hso. pose proof (stream_ids n Hso) as Hids. destruct Hso.
  unfold Transport.push_ids, Transport.ReadExact. cbn [Chunk.op Chunk.count_or_size first_header]. change (6 =? 1) with false. cbv iota.
  replace (Z.to_nat n * 4)%nat with (length (Chunk.SerializeBlockIds (dsts n))) by (rewrite Chunk.length_blocks; lia).
  rewrite (proj2 (Nat.leb_le _ _)) by (rewrite length_app; lia). rewrite take_app_length, drop_app_length.
  replace (length (Chunk.SerializeBlockIds (dsts n))) with (length (Chunk.SerializeBlockIds (srcs n))) by (rewrite !Chunk.length_blocks; lia).
  rewrite (proj2 (Nat.leb_le _ _)) by (rewrite length_app; lia). rewrite take_app_length, drop_app_length.
  by rewrite !Chunk.block_ids_roundtrip by apply Hids.
Qed.

Lemma stream_contract n : stream_ok n ->
  Transport.ParseMajorOrder (Chunk.flags (first_header n)) = Ok m /\
  Transport.push_layers dr sr (first_header n) = Ok [p] /\
  exists spec, Manager.GetPoolPushProgressSpec (rstate sr) p uuid = Ok (Some spec) /\
    Transport.resolve_spec dr sr [p] (Chunk.uuid (first_header n)) = Ok (Some spec).
Proof using Hlink ManagerDelegate1.
  intros []. destruct so_contract0 as (spec & Hspec & Hpush & Hpools). destruct Hlink. split_and!.
  - unfold first_header. destruct m; reflexivity.
  - pose proof (mi_pool _ _ _ _ lk_receiver0) as Hat. unfold Manager.at_ in Hat. destruct (_ && _) eqn:E in Hat; [|done]. to_prop.
    unfold Transport.push_layers. cbn [Chunk.local_id first_header]. rewrite md_arrays. unfold Manager.num_block_arrays.
    rewrite (mi_explicit _ _ _ _ lk_receiver0). unfold int32_max in *.
    rewrite (proj2 (Z.eqb_neq p _)), (proj2 (Z.leb_gt _ p)) by lia. by rewrite wrap32_id by (unfold in_int32, int32_min, int32_max; lia).
  - exists spec. split; [done|]. unfold Transport.resolve_spec. cbn [for_each Chunk.uuid first_header]. rewrite md_progress, Hspec. cbn [length Nat.eqb negb].
    by rewrite (proj2 (Z.eqb_neq _ 0)), (proj2 (Z.eqb_neq _ 0)) by lia.
Qed.

(** What the node keeps when the payloads of a stream are in place. *)
Lemma handle_stream progress mem rest smem n : stream_ok n ->
  let node := Transport.mkNode (D := DR) sr mem progress in
  let r := Transport.HandleIncomingPush dr node (first_header n)
    (Chunk.SerializeBlockIds (dsts n) ++ Chunk.SerializeBlockIds (srcs n) ++ (zip (srcs n) (dsts n) ≫= pair_frame smem) ++ rest) in
  exists spec, Manager.GetPoolPushProgressSpec (rstate sr) p uuid = Ok (Some spec) /\
  Transport.memory r.2 = store_all mem (zip (srcs n) (dsts n) ≫= pair_stores smem) /\
  Transport.layer_progress_ r.2 =
    (Transport.account_push (Transport.num_layers dr sr) (first_header n) (Some spec)
       (Transport.ExpectedPushSenders dr sr uuid) progress).2.
Proof using Hlink ManagerDelegate0 ManagerDelegate1.
  intros Hso node r. destruct (stream_contract n Hso) as (Hpm & Hlay & spec & Hspec & Hres). exists spec. split; [done|].
  subst r. unfold Transport.HandleIncomingPush, node. cbn [Transport.delegate_state Transport.memory Transport.layer_progress_].
  rewrite Hpm, Hlay, Hres. rewrite (bool_decide_eq_false_2 (Some spec = None)) by done. rewrite andb_false_r. cbn [andb].
  rewrite stream_push_ids by done. destruct Hso.
  rewrite md_shards, (mi_shards _ _ _ _ (lk_receiver _ _ _ _ _ _ _ _ _ _ _ _ _ _ Hlink)), payload_order_one. cbn [Chunk.count_or_size first_header].
  pose proof (receive_loop smem (first_header n) (dsts n) (srcs n) mem rest (zip (srcs n) (dsts n)) 0 so_pairs0 eq_refl eq_refl) as Hloop.
  rewrite (length_zip_with_l_eq pair (srcs n) (dsts n) ltac:(lia)), so_srcs0 in Hloop. change (Z.of_nat 0) with 0 in Hloop.
  rewrite Z.add_0_l in Hloop. rewrite Hloop.
  2:{ intros j sd Hj%zip_lookup. cbn [plus]. tauto. }
  destruct (Transport.account_push _ _ _ _ progress) as [[trigger|] pr]; [|done].
  destruct trigger; repeat (case_match; simplify_eq; try done).
Qed.

(** The bytes of a stream.  [wire] is what [ProcessSocketPush] writes for the stream. *)
Lemma push_stream_delivered progress mem smem n : stream_ok n ->
  exists requests bytes header spec,
    Transport.BuildBlockRequests ds ss peer block_offset n src_ids dst_ids m uuid p parallelism = Ok requests /\
    Transport.push_payloads (length requests) smem requests [] = Ok bytes /\
    let wire := Transport.push_preamble requests src_ids dst_ids block_offset ++ bytes in
    Chunk.DeserializeChunkHeader (take Chunk.kChunkHeaderSize wire) = Ok header /\
    Manager.GetPoolPushProgressSpec (rstate sr) p uuid = Ok (Some spec) /\
    let r := Transport.HandleIncomingPush dr (Transport.mkNode (D := DR) sr mem progress) header (drop Chunk.kChunkHeaderSize wire) in
    Transport.memory r.2 = store_all mem (zip (srcs n) (dsts n) ≫= pair_stores smem) /\
    Transport.layer_progress_ r.2 =
      (Transport.account_push (Transport.num_layers dr sr) header (Some spec) (Transport.ExpectedPushSenders dr sr uuid) progress).2.
Proof using Hlink ManagerDelegate0 ManagerDelegate1.
  intros Hso. pose proof (stream_carried n Hso) as Hc.
  destruct (handle_stream progress mem [] smem n Hso) as (spec & Hspec & Hmem & Hprog). rewrite app_nil_r in Hmem, Hprog.
  eexists _, _, (first_header n), spec. split; [by apply stream_requests|]. split.
  { rewrite push_payloads_exact; [|done|done|done|done|by apply number_requests_length]. rewrite app_nil_l, stream_payload_bytes by done. done. }
  cbv zeta. rewrite <-(app_nil_r (number_requests _ _ _)), stream_preamble by done. rewrite <-!app_assoc.
  rewrite <-(Chunk.length_header (first_header n)), take_app_length, drop_app_length.
  split; [|by repeat split].
  destruct (Chunk.chunk_header_roundtrip (first_header n)) as [_ Hrt]; [|exact Hrt].
  pose proof (lk_rank _ _ _ _ _ _ _ _ _ _ _ _ _ _ Hlink). pose proof (lk_uuid _ _ _ _ _ _ _ _ _ _ _ _ _ _ Hlink). destruct Hso.
  unfold Chunk.header_typed, Chunk.in_u, first_header, int32_max in *. cbn. pose proof (Z.mod_pos_bound parallelism (2 ^ 16) ltac:(lia)).
  destruct m; simpl; lia.
Qed.

End exchange.

End stream.

End DataPath.
