(* ===== verification/PoolTransfer.v ===== *)
(** * A pool transfer, end to end

    The streams of all senders of a validated plan leave in the receiver's memory exactly
    the planned bytes: validation ([PoolPlanReceiver.v]) and the data path
    ([DataPath.v]) composed. *)

From stdpp Require Import strings.
From S2P Require Import Prelude Bytes PoolLayout ReshardTypes TransferProgram PoolPlanCheck PoolPlanCheckProofs PoolPlanCoverage PoolPlanReceiver ChunkSerializer KVCacheManagerBase BlockTransport DataPath.

Module PoolTransfer.
Import PlanCheck PlanCheckProofs PlanCoverage PlanReceiver DataPath.
Import Transport(Memory).

(** ** Grouping *)

Lemma filter_key_cons {A K} `{EqDecision K} (key : A -> K) x l k :
  filter (fun y => key y = k) (x :: l) =
  if decide (key x = k) then x :: filter (fun y => key y = k) l else filter (fun y => key y = k) l.
Proof. rewrite filter_cons. done. Qed.

(** A list is the concatenation of its classes, up to order. *)
Lemma group_by_perm {A K} `{EqDecision K} (key : A -> K) (keys : list K) (l : list A) :
  NoDup keys -> (forall x, x ∈ l -> key x ∈ keys) -> (keys ≫= fun k => filter (fun x => key x = k) l) ≡ₚ l.
Proof.
  intros Hnd. induction l as [|x l IH]; intros Hin.
  { clear. induction keys as [|k keys IH]; [done|]. by rewrite bind_cons, IH. }
  assert (Hx : key x ∈ keys) by (apply Hin; by left).
  etrans; [|apply Permutation_skip, IH; intros y Hy; apply Hin; by right]. clear IH Hin.
  induction Hnd as [|k keys Hk Hnd IH]; [by apply elem_of_nil in Hx|]. rewrite !bind_cons, filter_key_cons.
  destruct (decide (key x = k)) as [<-|Hne].
  - cbn [app]. apply Permutation_skip. apply Permutation_app_head.
    assert (Heq : (keys ≫= fun k => filter (fun y => key y = k) (x :: l)) = keys ≫= fun k => filter (fun y => key y = k) l); [|by rewrite Heq].
    clear -Hk. induction keys as [|k keys IH]; [done|]. rewrite not_elem_of_cons in Hk. destruct Hk as [Hne Hk].
    rewrite !bind_cons, filter_key_cons, IH by done. by rewrite decide_False by done.
  - apply elem_of_cons in Hx as [?|Hx]; [done|]. rewrite IH by done. by rewrite Permutation_middle.
Qed.

Lemma bind_ext_in {A B} (f g : A -> list B) l : (forall x, x ∈ l -> f x = g x) -> l ≫= f = l ≫= g.
Proof.
  induction l as [|x l IH]; intros H; [done|]. rewrite !bind_cons, (H x) by (by left). f_equal. apply IH. intros y Hy. apply H. by right.
Qed.

(** Lists in disjoint windows. *)
Lemma NoDup_windows {A} (start : A -> Z) (f : A -> list Z) (width : Z) (l : list A) :
  NoDup l -> (forall x, x ∈ l -> NoDup (f x)) -> (forall x o, x ∈ l -> o ∈ f x -> 0 <= o < width) ->
  (forall x y, x ∈ l -> y ∈ l -> x ≠ y -> start x + width <= start y \/ start y + width <= start x) ->
  NoDup (l ≫= fun x => Z.add (start x) <$> f x).
Proof.
  intros Hnd. induction Hnd as [|x l Hx Hnd IH]; intros Hf Hw Hs; [constructor|]. rewrite bind_cons. apply NoDup_app. split_and!.
  - apply NoDup_fmap_2; [intros ??; lia|]. apply Hf. by left.
  - intros a (o & -> & Ho)%list_elem_of_fmap (y & (o' & Heq & Ho')%list_elem_of_fmap & Hy)%list_elem_of_bind.
    pose proof (Hw x o ltac:(by left) Ho). pose proof (Hw y o' ltac:(by right) Ho').
    destruct (Hs x y) as [?|?]; [by left|by right|by intros ->|lia|lia].
  - apply IH; intros; [apply Hf|eapply Hw|apply Hs]; try (by right); done.
Qed.

(** ** The entries of a rank *)

Lemma filter_none_in {A} (P : A -> Prop) `{!forall x, Decision (P x)} l : (forall x, x ∈ l -> ~ P x) -> filter P l = [].
Proof.
  intros Hn. induction l as [|x l IH]; [done|]. rewrite filter_cons_False by (apply Hn; by left). apply IH. intros y Hy. apply Hn. by right.
Qed.

(** The class of a rank and a pair in the entries of a group is the payload of the pair. *)
Lemma rank_entries (plan : Plan) rank es (P : Entry -> Prop) `{!forall e, Decision (P e)} :
  Program.shard_push_schedules plan !! rank = Some es ->
  filter (fun re : Z * Entry => re.1 = rank /\ P re.2) (plan_entries plan) = pair rank <$> filter P es.
Proof.
  intros Hes. unfold plan_entries. apply elem_of_map_to_list in Hes.
  pose proof (NoDup_fst_map_to_list (Program.shard_push_schedules plan)) as Hnd.
  induction (map_to_list (Program.shard_push_schedules plan)) as [|[r l] scheds IH]; [by apply elem_of_nil in Hes|].
  rewrite bind_cons, filter_app. rewrite fmap_cons in Hnd. apply NoDup_cons in Hnd as [Hr Hnd]. cbn [fst snd] in *.
  assert (Hf : forall l' : list Entry, filter (fun re : Z * Entry => re.1 = rank /\ P re.2) (pair r <$> l') =
     if decide (r = rank) then pair r <$> filter P l' else []).
  { intros l'. induction l' as [|e l' IHl]; [by destruct (decide _)|]. rewrite fmap_cons, filter_cons, IHl. cbn [fst snd].
    destruct (decide (r = rank)) as [->|Hne]; [|by rewrite decide_False by tauto]. rewrite filter_cons.
    destruct (decide (P e)); [rewrite decide_True by done|rewrite decide_False by tauto]; done. }
  rewrite Hf. apply elem_of_cons in Hes as [[= -> ->]|Hes].
  - rewrite decide_True by done. rewrite (filter_none_in _ (scheds ≫= _)); [by rewrite app_nil_r|].
    intros [r' e'] ([r'' l''] & (? & [= -> ->] & _)%list_elem_of_fmap & Hin)%list_elem_of_bind [Heq _]. simpl in *. subst.
    apply Hr, list_elem_of_fmap. by exists (r, l'').
  - rewrite decide_False, app_nil_l; [by apply IH|]. intros ->. apply Hr, list_elem_of_fmap. by exists (rank, es).
Qed.

(** ** The transfer *)

Lemma list_filter_decide {A} (f : A -> bool) (P : A -> Prop) `{!forall x, Decision (P x)} l :
  (forall x, x ∈ l -> f x = true <-> P x) -> List.filter f l = filter P l.
Proof.
  induction l as [|x l IH]; intros Hf; [done|]. cbn [List.filter]. rewrite IH by (intros y Hy; apply Hf; by right).
  destruct (f x) eqn:E.
  - rewrite filter_cons_True; [done|]. apply Hf; [by left|done].
  - rewrite filter_cons_False; [done|]. intros HP. apply (Hf x) in HP; [congruence|by left].
Qed.

Lemma zip_bind {A B C} (f : A -> list B) (h : A -> list C) l :
  (forall x, x ∈ l -> length (f x) = length (h x)) -> zip (l ≫= f) (l ≫= h) = l ≫= fun x => zip (f x) (h x).
Proof.
  induction l as [|x l IH]; intros Hl; [done|]. rewrite !bind_cons, zip_with_app by (apply Hl; by left).
  f_equal. apply IH. intros y Hy. apply Hl. by right.
Qed.

(** A pair of blocks and the rank that sends it. *)
Definition key_of (re : Z * Entry) : Z * (Z * Z) := (re.1, (Program.e_src_block_id re.2, Program.e_dst_block_id re.2)).

Section plan.
Context (pools : list Pool.PoolSpec) (rplan : Plan) (ids : list Z) (p : Z) (rspec : Pool.PoolSpec) (g : nat) (view : Group).
Hypothesis Htable : table_ok pools.
Hypothesis Htyped : plan_typed 1 rplan.
Hypothesis Hok : receiver_plan_ok pools 1 rplan ids.
Hypothesis Hspec : pool pools p = Some rspec.
Hypothesis Hview : Program.pool_groups rplan !! g = Some view.
Hypothesis Hin : p ∈ Program.g_pool_indices view.

Local Abbreviation group_entries := (filter (in_group g) (plan_entries rplan)).

Lemma p_range : 0 <= p /\ in_int32 p.
Proof using Hok Htyped Hview Hin.
  apply (pool_index_facts 1 rplan Htyped); [apply Hok|]. by eapply group_index.
Qed.

(** The pool belongs to one group. *)
Lemma one_group g' view' : Program.pool_groups rplan !! g' = Some view' -> p ∈ Program.g_pool_indices view' -> g' = g.
Proof using Hok Hview Hin.
  intros Hg' Hp. pose proof (pp_nodup _ (rp_partition _ _ _ _ Hok)) as Hnd. revert Hview Hg' Hnd. clear -Hin Hp.
  generalize (Program.pool_groups rplan). intros groups. revert g g'.
  induction groups as [|v groups IH]; intros [|g] [|g'] Hview Hg' Hnd; try done; cbn in Hview, Hg'; simplify_eq.
  - rewrite bind_cons in Hnd. apply NoDup_app in Hnd as (_ & Hd & _). exfalso. apply (Hd p); [done|].
    apply list_elem_of_bind. exists view'. split; [done|]. by eapply list_elem_of_lookup_2.
  - rewrite bind_cons in Hnd. apply NoDup_app in Hnd as (_ & Hd & _). exfalso. apply (Hd p); [done|].
    apply list_elem_of_bind. exists view. split; [done|]. by eapply list_elem_of_lookup_2.
  - f_equal. rewrite bind_cons in Hnd. apply NoDup_app in Hnd as (_ & _ & Hnd). by apply IH.
Qed.

Lemma entry_facts rank e : (rank, e) ∈ plan_entries rplan -> entry_fields 1 rplan e /\ entry_passes pools 1 rplan ids e.
Proof using Hok Htable Htyped.
  intros He. pose proof (receiver_plan_entries pools 1 rplan ids Htable Htyped Hok) as Hp. rewrite Forall_forall in Hp.
  specialize (Hp e (in_all_entries rplan (rank, e) He)). split; [apply Hp|done].
Qed.

Lemma targets_group rank e : (rank, e) ∈ plan_entries rplan ->
  Manager.entry_targets_pool rplan p e = true <-> in_group g (rank, e).
Proof using Hok Htable Htyped Hview Hin.
  intros He. destruct (entry_facts rank e He) as [Hf _]. destruct p_range as [Hp0 Hp32].
  destruct (group_at 1 rplan e Hf) as (g' & view' & Hpg & Hg'). unfold Manager.entry_targets_pool, in_group. cbn [snd].
  rewrite bool_decide_eq_false_2 by apply Hok. rewrite Hpg, (proj2 (Z.ltb_ge _ 0)), Nat2Z.id, Hg', wrap32_id, bool_decide_eq_true by (done || lia).
  split.
  - intros Hp. by rewrite (one_group g' view' Hg' Hp).
  - intros ->%Nat2Z.inj. rewrite Hview in Hg'. by injection Hg' as <-.
Qed.

Lemma declared_pool : p ∈ Program.transfer_pool_indices rplan.
Proof using Hok Hview Hin.
  pose proof (rp_partition _ _ _ _ Hok) as [_ Hnd Hlen Hpin].
  assert (Hperm : Program.transfer_pool_indices rplan ≡ₚ (Program.pool_groups rplan ≫= Program.g_pool_indices)).
  { apply submseteq_length_Permutation; [|lia]. apply NoDup_submseteq; [apply Hok|done]. }
  rewrite Hperm. by eapply group_index.
Qed.

Lemma group_dst re : re ∈ plan_entries rplan -> in_group g re ->
  dst_fits rspec re.2 /\ 0 <= Program.e_dst_block_id re.2 < Pool.num_blocks rspec.
Proof using Hok Htable Htyped Hspec Hview Hin.
  destruct re as [rank e]. intros He Hg. destruct (entry_facts rank e He) as [Hf (_ & Hid & Hspan)]. cbn [snd] in *.
  destruct p_range as [Hp0 Hp32]. unfold in_group in Hg. cbn [snd] in Hg. rewrite Hg, Nat2Z.id in Hspan. specialize (Hspan view Hview).
  rewrite Forall_forall in Hspan. destruct (Hspan p Hin) as (spec & Hs & Hfit).
  rewrite u64_id in Hs by (unfold in_int32, int32_max in *; lia). rewrite Hspec in Hs. injection Hs as <-.
  split; [done|]. split; [apply Hf|].
  pose proof (rp_pools _ _ _ _ Hok) as Hpools. rewrite Forall_forall in Hpools. destruct (Hpools p declared_pool) as (_ & spec & Hs & _ & Hb).
  rewrite Hspec in Hs. injection Hs as <-. rewrite Forall_forall in Hb. by apply Hb.
Qed.

(** The payload of a pair is its class among the entries of the group. *)
Lemma payload_class rank src dst es :
  Program.shard_push_schedules rplan !! rank = Some es ->
  pair rank <$> pair_entries rplan p es src dst = filter (fun re => key_of re = (rank, (src, dst))) group_entries.
Proof using Hok Htable Htyped Hview Hin.
  intros Hes. set (P e := pool_group e = Z.of_nat g /\ Program.e_src_block_id e = src /\ Program.e_dst_block_id e = dst).
  assert (Hf : pair_entries rplan p es src dst = filter P es).
  { unfold pair_entries. apply list_filter_decide. intros e He. rewrite !andb_true_iff, !Z.eqb_eq, (targets_group rank) by (apply elem_of_plan_entries; eauto).
    unfold P, in_group. simpl. tauto. }
  rewrite Hf, <-(rank_entries rplan rank es P Hes), list_filter_filter. apply list_filter_iff.
  intros [r e]. unfold P, key_of, in_group. simpl. naive_solver.
Qed.

(** The payloads of all pairs are the entries of the group. *)
Lemma payloads_perm (L : list (Z * (Z * Z))) (moved : Z * (Z * Z) -> list Entry) :
  NoDup L -> (forall re, re ∈ group_entries -> key_of re ∈ L) ->
  (forall x, x ∈ L -> exists es, Program.shard_push_schedules rplan !! x.1 = Some es /\ moved x = pair_entries rplan p es x.2.1 x.2.2) ->
  (L ≫= fun x => pair x.1 <$> moved x) ≡ₚ group_entries.
Proof using Hok Htable Htyped Hview Hin.
  intros Hnd Hall Hm. rewrite <-(group_by_perm key_of L group_entries Hnd Hall).
  erewrite bind_ext_in; [done|]. intros [rank [src dst]] Hx. destruct (Hm _ Hx) as (es & Hes & ->). by apply payload_class.
Qed.

(** *** Addresses *)

Context (rbase : Z).
Local Abbreviation dst_ids := (Program.g_dst_device_block_ids view).

Definition entry_addrs (e : Entry) : list Z := Z.add (block_start rspec rbase (Program.e_dst_block_id e)) <$> entry_bytes e.

(** The addresses of the live bytes of the destination blocks below their extents. *)
Definition planned_addrs (segs : list Pool.PoolLiveSegment) : list Z :=
  zip dst_ids (Program.g_dst_expected_extent_bytes view) ≫= fun bx =>
    Z.add (block_start rspec rbase bx.1) <$> take (Z.to_nat bx.2) (Pool.live_list segs).

Lemma written_window b o : o ∈ writes rplan g b -> 0 <= o < Pool.block_stride_bytes rspec.
Proof using Hok Htable Htyped Hspec Hview Hin.
  intros (re & Ho & [[Hg _] Hre]%list_elem_of_filter)%list_elem_of_bind. destruct (group_dst re Hre Hg) as [Hfit _].
  apply elem_of_span_bytes in Ho as (r & Hr & Ho). destruct (spec_facts pools Htable p rspec Hspec) as (_ & _ & Hri & Hro & Hb).
  destruct (strided_regions_spec (Program.e_dst_offset_bytes re.2) (Program.e_dst_stride_bytes re.2) (Program.e_size_bytes re.2)
    (Program.e_count re.2) _ _ Hri Hro Hb) as (t & Ht & Hiff). unfold dst_fits in Hfit. rewrite Hfit in Ht. injection Ht as <-.
  destruct (proj1 Hiff eq_refl) as [Hblock _]. apply strided_block_exact in Hblock. nia.
Qed.

Lemma group_addrs : (group_entries ≫= fun re => entry_addrs re.2) ≡ₚ
  (dst_ids ≫= fun b => Z.add (block_start rspec rbase b) <$> writes rplan g b).
Proof using Hok Hview.
  destruct (rp_covered _ _ _ _ Hok g view Hview) as [segs Hrec].
  pose proof (rp_unique _ _ _ _ Hok) as Hu. rewrite Forall_forall in Hu. specialize (Hu view (list_elem_of_lookup_2 _ _ _ Hview)).
  rewrite <-(group_by_perm (fun re : Z * Entry => Program.e_dst_block_id re.2) dst_ids group_entries Hu) at 1.
  2:{ intros re [Hg Hre]%list_elem_of_filter. by apply (gr_blocks _ _ _ _ _ Hrec). }
  rewrite bind_bind_list. erewrite bind_ext_in; [done|]. intros b _. cbv beta. unfold writes. rewrite fmap_bind_list, list_filter_filter.
  erewrite (list_filter_iff _ (fun re => in_group g re /\ Program.e_dst_block_id re.2 = b)) by (intros; tauto).
  apply bind_ext_in. intros re [[_ <-] _]%list_elem_of_filter. done.
Qed.

Lemma received_segs : exists segs, group_received pools rplan g view segs /\ NoDup (Pool.live_list segs).
Proof using Hok Htable Hspec Hview Hin.
  destruct (rp_covered _ _ _ _ Hok g view Hview) as [segs Hrec]. exists segs. split; [done|].
  pose proof (gr_shared _ _ _ _ _ Hrec) as Hsh. rewrite Forall_forall in Hsh. destruct (Hsh p Hin) as (spec & Hs & Hx).
  destruct (expand_good pools Htable p spec segs Hs Hx) as [_ _ Hsort]. clear -Hsort.
  induction Hsort as [|x l Hl IH Hx]; constructor; [|done]. intros H. rewrite Forall_forall in Hx. specialize (Hx x H). lia.
Qed.

Lemma written_planned segs : group_received pools rplan g view segs ->
  (dst_ids ≫= fun b => Z.add (block_start rspec rbase b) <$> writes rplan g b) ≡ₚ planned_addrs segs.
Proof using Type.
  intros Hrec. pose proof (gr_length _ _ _ _ _ Hrec) as Hlen. pose proof (gr_writes _ _ _ _ _ Hrec) as Hw. unfold planned_addrs.
  clear Hrec. revert Hlen Hw. generalize (Program.g_dst_expected_extent_bytes view). generalize dst_ids.
  intros bs. induction bs as [|b bs IH]; intros [|x xs] Hlen Hw; try done. rewrite bind_cons. cbn [zip zip_with]. rewrite bind_cons.
  cbn [fst snd]. rewrite (Hw 0%nat b x eq_refl eq_refl), (IH xs); [done|by injection Hlen|]. intros j b' x' Hb Hx. by apply (Hw (S j)).
Qed.

Lemma planned_nodup segs : group_received pools rplan g view segs -> NoDup (Pool.live_list segs) ->
  NoDup (group_entries ≫= fun re => entry_addrs re.2).
Proof using Hok Htable Htyped Hspec Hview Hin.
  intros Hrec Hnd. rewrite group_addrs. apply (NoDup_windows _ _ (Pool.block_stride_bytes rspec)).
  - pose proof (rp_unique _ _ _ _ Hok) as Hu. rewrite Forall_forall in Hu. apply Hu. by eapply list_elem_of_lookup_2.
  - intros b [j Hj]%list_elem_of_lookup. pose proof (gr_length _ _ _ _ _ Hrec) as Hlen.
    destruct (lookup_lt_is_Some_2 (Program.g_dst_expected_extent_bytes view) j) as [x Hx]; [apply lookup_lt_Some in Hj; lia|].
    rewrite (gr_writes _ _ _ _ _ Hrec j b x Hj Hx). eapply sublist_NoDup; [exact Hnd|apply sublist_take].
  - intros b o _ Ho. by apply (written_window b).
  - intros b b' _ _ Hne. unfold block_start. destruct (spec_facts pools Htable p rspec Hspec) as (Hi & Hv & _).
    apply Pool.pool_validate_ok in Hv as [[] _]; [|done|i64]. nia.
Qed.

(** *** The receive contract *)

Lemma entries_sane : Forall (fun re => entry_sane re.2) (plan_entries rplan).
Proof using Hok Htable Htyped.
  apply Forall_forall. intros [rank e] He. destruct (entry_facts rank e He) as [Hf (_ & _ & Hspan)].
  destruct (group_at 1 rplan e Hf) as (g' & view' & Hpg & Hg'). rewrite Hpg, Nat2Z.id in Hspan. specialize (Hspan view' Hg').
  destruct (rp_covered _ _ _ _ Hok g' view' Hg') as [segs Hrec]. rewrite Forall_forall in Hspan.
  eapply (sane_of pools 1 rplan Htable e g' view'); try done; [|apply (gr_pools _ _ _ _ _ Hrec)].
  pose proof (pt_entries _ _ Htyped) as Ht. rewrite Forall_forall in Ht. apply Ht, (in_all_entries rplan (rank, e) He).
Qed.

Lemma contract s uuid : Manager.active_plans_ s !! uuid = Some (Manager.mkRegistered rplan false) ->
  exists spec, Manager.GetPoolPushProgressSpec s p uuid = Ok (Some spec) /\
    Manager.expected_pushes spec = Program.g_expected_pushes view /\
    Manager.expected_pools spec = Z.of_nat (length (Program.transfer_pool_indices rplan)) /\
    0 < Manager.expected_pushes spec /\ 0 < Manager.expected_pools spec.
Proof using Hok Htable Htyped Hview Hin.
  intros Hplan. destruct p_range as [Hp0 Hp32]. unfold Manager.GetPoolPushProgressSpec. rewrite Hplan. cbn [Manager.request].
  rewrite bool_decide_eq_false_2 by apply Hok.
  assert (Hex : existsb (fun q => (0 <=? q) && (q =? p)) (Program.transfer_pool_indices rplan) = true).
  { apply existsb_exists. exists p. split; [apply list_elem_of_In, declared_pool|]. by rewrite (proj2 (Z.leb_le 0 p)), Z.eqb_refl by done. }
  rewrite Hex. cbn [negb]. rewrite wrap32_id by done.
  assert (Hfind : List.find (fun group => bool_decide (p ∈ Program.g_pool_indices group)) (Program.pool_groups rplan) = Some view).
  { destruct (List.find _ _) as [view'|] eqn:Ef.
    - apply find_some in Ef as [Hv'%list_elem_of_In Hp']. to_prop. apply list_elem_of_lookup in Hv' as [g' Hg'].
      rewrite (one_group g' view' Hg' Hp') in Hg'. congruence.
    - pose proof (find_none _ _ Ef view (proj1 (list_elem_of_In _ _) (list_elem_of_lookup_2 _ _ _ Hview))) as Hn. by to_prop. }
  rewrite Hfind. eexists. split; [done|]. cbn [Manager.expected_pushes Manager.expected_pools].
  destruct (rp_covered _ _ _ _ Hok g view Hview) as [segs Hrec].
  pose proof (push_count_le rplan g entries_sane) as Hle. pose proof (rp_repeats _ _ _ _ Hok) as Hr. unfold kMaxExpandedRepeats in Hr.
  pose proof (gr_pushes _ _ _ _ _ Hrec) as Hc. pose proof (rp_positive _ _ _ _ Hok) as Hpos. rewrite Forall_forall in Hpos.
  specialize (Hpos view (list_elem_of_lookup_2 _ _ _ Hview)). rewrite u64_id by lia. split_and!; [done|done|lia|].
  pose proof declared_pool as Hd. destruct (Program.transfer_pool_indices rplan); [by apply elem_of_nil in Hd|simpl; lia].
Qed.

End plan.

(** ** Streams *)

Section transfer.
Context {DS DR : Type} (ds : Transport.Delegate DS) (dr : Transport.Delegate DR).
Context (sstate : DS -> Manager.State) (rstate : DR -> Manager.State).
Context `{!ManagerDelegate ds sstate, !ManagerDelegate dr rstate}.
Context (uuid p : Z) (peer : string).
(** The senders by rank: state, memory, pool and base of its mirror. *)
Context (ss : Z -> DS) (smem : Z -> Memory) (sspec : Z -> Pool.PoolSpec) (sbase : Z -> Z).
Context (pools : list Pool.PoolSpec) (rspec : Pool.PoolSpec) (rbase : Z) (rplan : Plan) (ids : list Z) (g : nat) (view : Group).

(** One stream of a push: what its sender was asked to send, and the state in which the
    receiver's handler meets it. *)
Record Stream : Type := mkStream {
  st_rank : Z;
  st_offset : Z;
  st_count : Z;
  st_srcs : list Z;
  st_dsts : list Z;
  st_order : Transport.MajorOrder;
  st_parallelism : Z;
  st_state : DR;
  st_progress : gmap (Z * Z) Transport.LayerProgress
}.

Local Abbreviation srcs x := (Transport.slice (st_srcs x) (st_offset x, st_count x)).
Local Abbreviation dsts x := (Transport.slice (st_dsts x) (st_offset x, st_count x)).

Definition stream_pairs (x : Stream) : list (Z * (Z * Z)) := pair (st_rank x) <$> zip (srcs x) (dsts x).

(** The bytes [ProcessSocketPush] writes for the stream. *)
Definition stream_wire (x : Stream) : StatusOr (list Z) :=
  let? requests := Transport.BuildBlockRequests ds (ss (st_rank x)) peer (st_offset x) (st_count x) (st_srcs x) (st_dsts x)
                     (st_order x) uuid p (st_parallelism x) in
  let? bytes := Transport.push_payloads (length requests) (smem (st_rank x)) requests [] in
  Ok (Transport.push_preamble requests (st_srcs x) (st_dsts x) (st_offset x) ++ bytes).

(** The receiver's memory after it handled the stream. *)
Definition stream_received (mem : Memory) (x : Stream) : Memory :=
  match stream_wire x with
  | Ok wire =>
      match Chunk.DeserializeChunkHeader (take Chunk.kChunkHeaderSize wire) with
      | Ok header =>
          Transport.memory (Transport.HandleIncomingPush dr (Transport.mkNode (D := DR) (st_state x) mem (st_progress x)) header
                              (drop Chunk.kChunkHeaderSize wire)).2
      | Err _ _ => mem
      end
  | Err _ _ => mem
  end.

Record stream_fits (x : Stream) : Prop := {
  sf_linked : exists es, linked sstate rstate uuid p peer (st_rank x) (ss (st_rank x)) (st_state x) (sspec (st_rank x)) rspec
                (sbase (st_rank x)) rbase rplan es;
  sf_offset : 0 <= st_offset x;
  sf_count : 0 < st_count x < 2 ^ 32;
  sf_srcs : Z.of_nat (length (srcs x)) = st_count x;
  sf_dsts : Z.of_nat (length (dsts x)) = st_count x;
  sf_node : Transport.node_id ds (ss (st_rank x)) = st_rank x
}.

Record transfer_ok (streams : list Stream) : Prop := {
  tr_valid : ValidatePoolReshardPlan pools 1 rplan ids false = Some OkStatus;
  tr_table : table_ok pools;
  tr_typed : plan_typed 1 rplan;
  tr_pool : pool pools p = Some rspec;
  tr_group : Program.pool_groups rplan !! g = Some view;
  tr_in : p ∈ Program.g_pool_indices view;
  tr_uuid : uuid < 2 ^ 64;
  tr_source re : re ∈ plan_entries rplan -> in_group g re ->
    0 <= Program.e_src_block_id re.2 < Pool.num_blocks (sspec re.1) /\ src_fits (sspec re.1) re.2;
  tr_payload rank es src dst : Program.shard_push_schedules rplan !! rank = Some es ->
    let moved := pair_entries rplan p es src dst in
    payload_size moved <= Pool.block_stride_bytes (sspec rank) /\ payload_size moved < 2 ^ 32 /\
    payload_chunks moved <= Transport.IOV_MAX;
  tr_streams : Forall stream_fits streams;
  tr_nodup : NoDup (streams ≫= stream_pairs);
  tr_pairs x : x ∈ streams ≫= stream_pairs <-> exists re, re ∈ plan_entries rplan /\ in_group g re /\ key_of re = x
}.

Section accepted.
Context (streams : list Stream) (Htr : transfer_ok streams).

Lemma accepted : receiver_plan_ok pools 1 rplan ids.
Proof using All. destruct Htr. by apply receiver_plan_sound. Qed.

Local Abbreviation schedule rank := (default [] (Program.shard_push_schedules rplan !! rank)).
Definition moved_by (x : Z * (Z * Z)) : list Entry := pair_entries rplan p (schedule x.1) x.2.1 x.2.2.
Definition key_stores (x : Z * (Z * Z)) : list (Z * Z) :=
  pair_stores p (sspec x.1) rspec (sbase x.1) rbase rplan (schedule x.1) (smem x.1) x.2.

Lemma payload_elem x e : e ∈ moved_by x ->
  (x.1, e) ∈ plan_entries rplan /\ in_group g (x.1, e) /\ key_of (x.1, e) = x.
Proof using All.
  pose proof accepted as Hok. destruct Htr. destruct x as [rank [src dst]]. unfold moved_by. cbn [fst snd]. intros He.
  destruct (Program.shard_push_schedules rplan !! rank) as [es|] eqn:Hes; [|by apply elem_of_nil in He].
  assert (Hin : (rank, e) ∈ filter (fun re => key_of re = (rank, (src, dst))) (filter (in_group g) (plan_entries rplan))).
  { rewrite <-(payload_class pools rplan ids p g view tr_table0 tr_typed0 Hok tr_group0 tr_in0 rank src dst es Hes). by apply list_elem_of_fmap_2. }
  rewrite !list_elem_of_filter in Hin. tauto.
Qed.

Lemma elem_payload rank e : (rank, e) ∈ plan_entries rplan -> in_group g (rank, e) -> e ∈ moved_by (key_of (rank, e)).
Proof using All.
  pose proof accepted as Hok. destruct Htr. intros He Hg. pose proof He as (es & Hes & Hin)%elem_of_plan_entries. unfold moved_by, key_of. cbn [fst snd]. rewrite Hes.
  assert (Hk : (rank, e) ∈ pair rank <$> pair_entries rplan p es (Program.e_src_block_id e) (Program.e_dst_block_id e)).
  { rewrite (payload_class pools rplan ids p g view) by done. by rewrite !list_elem_of_filter. }
  apply list_elem_of_fmap in Hk as (e' & [= <-] & ?). done.
Qed.

Lemma pair_transferable x : x ∈ streams ≫= stream_pairs -> pair_ok p (sspec x.1) rspec rplan (schedule x.1) x.2.
Proof using All.
  pose proof accepted as Hok. destruct Htr. intros ([rank e] & He & Hg & <-)%tr_pairs0.
  destruct (tr_source0 _ He Hg) as [Hsrc _]. destruct (entry_facts pools rplan ids tr_table0 tr_typed0 Hok rank e He) as [[] _].
  destruct (group_dst pools rplan ids p rspec g view tr_table0 tr_typed0 Hok tr_pool0 tr_group0 tr_in0 (rank, e) He Hg) as [_ Hdst].
  pose proof He as (es & Hes & _)%elem_of_plan_entries. cbn [key_of fst snd] in *. unfold pair_ok. rewrite Hes. cbn [default fst snd].
  split_and!; try (done || lia). destruct (tr_payload0 rank es (Program.e_src_block_id e) (Program.e_dst_block_id e) Hes) as (H1 & H2 & H3).
  pose proof (elem_payload rank e He Hg) as Hm. unfold moved_by in Hm. cbn [key_of fst snd] in Hm. rewrite Hes in Hm. cbn [default] in Hm.
  split; [intros Hn; rewrite Hn in Hm; by apply elem_of_nil in Hm|..]; try done.
  - apply Forall_forall. intros e' He'. pose proof (payload_elem (key_of (rank, e)) e') as Hp. unfold moved_by in Hp. cbn [key_of fst snd] in Hp.
    rewrite Hes in Hp. destruct (Hp He') as (Hin & Hg' & _). by apply (tr_source0 (rank, e')).
  - apply Forall_forall. intros e' He'. pose proof (payload_elem (key_of (rank, e)) e') as Hp. unfold moved_by in Hp. cbn [key_of fst snd] in Hp.
    rewrite Hes in Hp. destruct (Hp He') as (Hin & Hg' & _).
    by apply (group_dst pools rplan ids p rspec g view tr_table0 tr_typed0 Hok tr_pool0 tr_group0 tr_in0 (rank, e')).
Qed.

(** One stream stores the bytes of its pairs. *)
Lemma stream_stores mem x : x ∈ streams -> stream_received mem x = store_all mem (stream_pairs x ≫= key_stores).
Proof using All.
  intros Hx. pose proof accepted as Hok. pose proof pair_transferable as Hpt. destruct Htr.
  rewrite Forall_forall in tr_streams0. destruct (tr_streams0 x Hx) as [[es Hl] ? ? ? ? ?].
  pose proof (lk_entries _ _ _ _ _ _ _ _ _ _ _ _ _ _ Hl) as Hes.
  assert (Hso : stream_ok ds rstate uuid p (st_rank x) (ss (st_rank x)) (st_state x) (sspec (st_rank x)) rspec rplan es
            (st_offset x) (st_srcs x) (st_dsts x) (st_count x)).
  { split; try done.
    - apply Forall_forall. intros sd Hsd. specialize (Hpt (st_rank x, sd)). cbn [fst snd] in Hpt. rewrite Hes in Hpt. apply Hpt.
      apply list_elem_of_bind. exists x. split; [by apply list_elem_of_fmap_2|done].
    - destruct (p_range pools rplan ids p g view tr_typed0 Hok tr_group0 tr_in0) as [? Hp]. unfold in_int32 in Hp. lia.
    - destruct (contract pools rplan ids p g view tr_table0 tr_typed0 Hok tr_group0 tr_in0 (rstate (st_state x)) uuid) as (spec & ? & _ & _ & ? & ?);
        [apply Hl|eauto]. }
  destruct (push_stream_delivered ds dr sstate rstate uuid p peer _ _ _ _ _ _ _ _ _ Hl (st_offset x) (st_srcs x) (st_dsts x)
    (st_order x) (st_parallelism x) (st_progress x) mem (smem (st_rank x)) (st_count x) Hso)
    as (requests & bytes & header & spec & Hreq & Hbytes & Hwire). cbv zeta in Hwire. destruct Hwire as (Hh & _ & Hmem & _).
  unfold stream_received, stream_wire. rewrite Hreq, Hbytes. rewrite Hh. rewrite Hmem. unfold stream_pairs. rewrite bind_fmap_list.
  unfold key_stores. cbn [fst snd]. by rewrite Hes.
Qed.

Lemma streams_stores mem : foldl stream_received mem streams = store_all mem ((streams ≫= stream_pairs) ≫= key_stores).
Proof using All.
  pose proof stream_stores as Hs. clear Htr. revert mem. induction streams as [|x l IH]; intros mem; [done|]. cbn [foldl].
  rewrite bind_cons, bind_app, store_all_app, IH by (intros; apply Hs; by right). by rewrite Hs by (by left).
Qed.

(** The stores of a pair, entry by entry. *)
Lemma key_stores_entries x : x ∈ streams ≫= stream_pairs ->
  key_stores x = moved_by x ≫= fun e =>
    zip (entry_addrs rspec rbase e)
        (smem x.1 <$> (Z.add (block_start (sspec x.1) (sbase x.1) (Program.e_src_block_id e)) <$> src_offsets e)).
Proof using All.
  intros Hx. pose proof (pair_transferable x Hx) as (_ & _ & _ & _ & Hp).
  assert (Hsz : forall e, e ∈ moved_by x -> sized e).
  { intros e (He & _ & _)%payload_elem. destruct (entry_facts pools rplan ids (tr_table _ Htr) (tr_typed _ Htr) accepted x.1 e He) as [[] _]. split; lia. }
  unfold key_stores, pair_stores, stores. fold (moved_by x). rewrite fmap_bind_list, zip_bind.
  - apply bind_ext_in. intros e He. destruct (payload_elem x e He) as (_ & _ & Hk). destruct x as [rank [src dst]]. injection Hk as <- <-. done.
  - intros e He. destruct (Hsz e He). rewrite !length_fmap. apply Nat2Z.inj. unfold src_offsets, entry_bytes. by rewrite !length_span_bytes by lia.
Qed.

Lemma stores_addrs :
  ((streams ≫= stream_pairs) ≫= key_stores).*1 ≡ₚ (filter (in_group g) (plan_entries rplan) ≫= fun re => entry_addrs rspec rbase re.2).
Proof using All.
  rewrite <-(payloads_perm pools rplan ids p g view (tr_table _ Htr) (tr_typed _ Htr) accepted (tr_group _ Htr) (tr_in _ Htr)
    (streams ≫= stream_pairs) moved_by (tr_nodup _ Htr)).
  - rewrite fmap_bind_list, (bind_bind_list (fun x => pair x.1 <$> moved_by x)). apply reflexive_eq, bind_ext_in. intros x Hx. cbv beta. rewrite key_stores_entries, fmap_bind_list, bind_fmap_list by done.
    cbn [snd]. apply bind_ext_in. intros e (He & _ & _)%payload_elem.
    destruct (entry_facts pools rplan ids (tr_table _ Htr) (tr_typed _ Htr) accepted x.1 e He) as [[] _].
    apply fst_zip. unfold entry_addrs. rewrite !length_fmap. apply Nat2Z.inj_le. unfold src_offsets, entry_bytes. by rewrite !length_span_bytes by lia.
  - intros re [Hg Hre]%list_elem_of_filter. apply (tr_pairs _ Htr). eauto.
  - intros x ([rank e] & He & Hg & <-)%(tr_pairs _ Htr). pose proof He as (es & Hes & _)%elem_of_plan_entries. exists es.
    split; [done|]. unfold moved_by, key_of. cbn [fst snd]. by rewrite Hes.
Qed.

(** C3: End to end.  A worker accepted a plan ([ValidatePoolReshardPlan] returned OK), and
    each of its ranks sends, in streams of any split, order and interleaving, the pairs of
    blocks the plan gives it for pool [p]: [BuildBlockRequests] and [ProcessSocketPush] on
    the sender's memory, [HandleIncomingPush] on the receiver's.  Then every byte an entry
    of the plan moves is in its place, every live byte of every destination block below
    its extent is one of those, and no other byte of the receiver's memory has changed. *)
Theorem pool_transfer_exact mem :
  let final := foldl stream_received mem streams in
  exists segs, Pool.ExpandPoolLiveSegments rspec = Ok segs /\
  (forall rank e i s d, (rank, e) ∈ plan_entries rplan -> in_group g (rank, e) ->
     src_offsets e !! i = Some s -> entry_bytes e !! i = Some d ->
     final (block_start rspec rbase (Program.e_dst_block_id e) + d) =
     smem rank (block_start (sspec rank) (sbase rank) (Program.e_src_block_id e) + s)) /\
  (forall j b x o, Program.g_dst_device_block_ids view !! j = Some b ->
     Program.g_dst_expected_extent_bytes view !! j = Some x -> o ∈ take (Z.to_nat x) (Pool.live_list segs) ->
     exists rank e, (rank, e) ∈ plan_entries rplan /\ in_group g (rank, e) /\ Program.e_dst_block_id e = b /\ o ∈ entry_bytes e) /\
  (forall a, a ∉ planned_addrs rspec view rbase segs -> final a = mem a).
Proof using All.
  intros final. pose proof accepted as Hok. pose proof Htr as [].
  destruct (received_segs pools rplan ids p rspec g view) as (segs & Hrec & Hnd); [done..|]. exists segs.
  pose proof (planned_nodup pools rplan ids p rspec g view tr_table0 tr_typed0 Hok tr_pool0 tr_group0 tr_in0 rbase segs Hrec Hnd) as Hand.
  pose proof (group_addrs pools rplan ids rspec g view Hok tr_group0 rbase) as Hga.
  pose proof (written_planned pools rplan rspec g view rbase segs Hrec) as Hwp.
  split_and!.
  - pose proof (gr_shared _ _ _ _ _ Hrec) as Hsh. rewrite Forall_forall in Hsh. destruct (Hsh p tr_in0) as (spec & Hs & Hx).
    rewrite tr_pool0 in Hs. by injection Hs as <-.
  - intros rank e i s d He Hg Hs Hd. unfold final. rewrite streams_stores. apply store_all_in; [by rewrite stores_addrs|].
    apply list_elem_of_bind. exists (key_of (rank, e)). assert (Hx : key_of (rank, e) ∈ streams ≫= stream_pairs) by (apply tr_pairs0; eauto).
    split; [|done]. rewrite key_stores_entries by done. apply list_elem_of_bind. exists e. split; [|by apply elem_payload].
    apply list_elem_of_lookup. exists i. apply lookup_zip_with_Some. eexists _, _. split; [done|]. cbn [key_of fst snd].
    unfold entry_addrs. rewrite !list_lookup_fmap, Hs, Hd. done.
  - intros j b x o Hb Hx Ho. rewrite <-(gr_writes _ _ _ _ _ Hrec j b x Hb Hx) in Ho.
    apply list_elem_of_bind in Ho as ([rank e] & Ho & [[Hg Hbe] He]%list_elem_of_filter). eauto 10.
  - intros a Ha. unfold final. rewrite streams_stores. apply store_all_out. rewrite stores_addrs, Hga, Hwp. done.
Qed.

End accepted.
End transfer.

(** ** An instance *)

(** A manager with the transport's default callbacks, and its node id. *)
Definition manager_delegate : Transport.Delegate (Z * Manager.State) := {|
  Transport.num_layers s := Manager.num_layers_ s.2;
  Transport.num_shards s := Manager.num_shards_ s.2;
  Transport.num_block_arrays s := Manager.num_block_arrays s.2;
  Transport.shard_factor _ := 1;
  Transport.node_id s := s.1;
  Transport.block_bytes s := Manager.block_bytes s.2;
  Transport.GetBlockArrayHostPointer s := Manager.GetBlockArrayHostPointer s.2;
  Transport.GetBlockArrayHostSize s := Manager.GetBlockArrayHostSize s.2;
  Transport.GetBlockChunks s := Manager.GetBlockChunks s.2;
  Transport.GetPoolPushProgressSpec s := Manager.GetPoolPushProgressSpec s.2;
  Transport.AcceptsPlanlessExplicitPush s := Manager.AcceptsPlanlessExplicitPush s.2;
  Transport.ExpectedPushSenders s := Manager.ExpectedPushSenders s.2;
  Transport.AllocateBlocks s _ _ := (Err kUnimplemented StrCat["AllocateBlocks"], s);
  Transport.OnPoolReceived s _ _ := (OkStatus, s);
  Transport.OnLayerReceived s _ _ := (OkStatus, s);
  Transport.OnBlocksReceived s _ _ := (OkStatus, s)
|}.

#[global] Instance manager_delegate_ok : ManagerDelegate manager_delegate snd.
Proof. by split. Qed.

Lemma payload_filter_le (plan : Plan) p es src dst :
  Forall sized es -> payload_size (pair_entries plan p es src dst) <= payload_size es /\
  payload_chunks (pair_entries plan p es src dst) <= payload_chunks es.
Proof.
  induction 1 as [|e es [Hs Hc] _ [IH1 IH2]]; [done|]. unfold pair_entries in *. cbn [List.filter].
  unfold payload_size, payload_chunks in *. destruct (_ && _); rewrite !fmap_cons, !zsum_cons; nia.
Qed.

Definition example_sender_pool : Pool.PoolSpec := Pool.mkPool "kv" 0 0 100 8 [Pool.mkRegion "all" 0 100 100 1 1] "bf16".
Definition example_sender_plan (rank : Z) : Plan :=
  Program.mkStart [] [] {[0 := default [] (Program.shard_push_schedules example_plan !! rank)]}
    9 true 2 true 0 "req" ["bf16"] [0] 4 None (Program.pool_groups example_plan) ∅ ∅.
Definition example_manager (base : Z) (pools : list Pool.PoolSpec) (plan : Plan) (sender : bool) : Manager.State :=
  Manager.mkState 1 1 100 8 [[Manager.mkShard base 800 800]] [] pools true {[9 := Manager.mkRegistered plan sender]} 0 0.
Definition example_receiver : Z * Manager.State := (7, example_manager 4096 example_pools example_plan false).
Definition example_sender (rank : Z) : Z * Manager.State :=
  (rank, example_manager 8192 [example_sender_pool] (example_sender_plan rank) true).
Definition example_streams : list (Stream (DR := Z * Manager.State)) :=
  [mkStream 1 1 1 [3; 4] [5; 7] Transport.kLayerMajor 2 example_receiver ∅;
   mkStream 0 0 2 [1; 2] [5; 7] Transport.kBlockMajor 1 example_receiver ∅;
   mkStream 1 0 1 [3; 4] [5; 7] Transport.kLayerMajor 2 example_receiver ∅].

Lemma example_mirrors rank :
  mirror (example_sender rank).2 0 example_sender_pool 8192 /\
  mirror example_receiver.2 0 (default example_sender_pool (example_pools !! 0%nat)) 4096.
Proof.
  assert (H1 : Pool.pool_int64 example_sender_pool)
    by (unfold Pool.pool_int64, Pool.region_int64, in_int64; simpl; repeat constructor; simpl; i64).
  assert (H2 : Pool.pool_int64 (default example_sender_pool (example_pools !! 0%nat)))
    by (unfold Pool.pool_int64, Pool.region_int64, in_int64; simpl; repeat constructor; simpl; i64).
  split; split; first [exact H1|exact H2|vm_compute; reflexivity|vm_compute; split; (reflexivity || discriminate)].
Qed.

Definition example_spec : Pool.PoolSpec := default example_sender_pool (example_pools !! 0%nat).
Definition example_group : Group := Program.mkGroup [0] [5; 7] 4 [72; 30] 0.
Local Abbreviation example_transfer :=
  (transfer_ok manager_delegate snd snd 9 0 "10.0.0.2:7000" example_sender (fun _ => example_sender_pool) (fun _ => 8192)
     example_pools example_spec 4096 example_plan [5; 7] 0 example_group).

Lemma example_entries : plan_entries example_plan =
  [(1, example_entry 50 0 40 3 5 1); (1, example_entry 20 0 14 4 7 1); (0, example_entry 0 20 16 1 5 2); (0, example_entry 0 20 16 2 7 1)].
Proof. vm_compute. reflexivity. Qed.

Lemma example_schedules rank es : Program.shard_push_schedules example_plan !! rank = Some es ->
  (rank = 0 /\ es = [example_entry 0 20 16 1 5 2; example_entry 0 20 16 2 7 1]) \/
  (rank = 1 /\ es = [example_entry 50 0 40 3 5 1; example_entry 20 0 14 4 7 1]).
Proof.
  unfold example_plan. cbn [Program.shard_push_schedules]. intros [[-> <-]|[Hne H]]%lookup_insert_Some; [by left|].
  apply lookup_singleton_Some in H as [<- <-]. by right.
Qed.

Lemma example_linked rank es : Program.shard_push_schedules example_plan !! rank = Some es ->
  linked snd snd 9 0 "10.0.0.2:7000" rank (example_sender rank) example_receiver example_sender_pool example_spec 8192 4096 example_plan es.
Proof.
  intros Hes. pose proof (example_mirrors rank) as [Hs Hr].
  assert (Hids : Forall ids_ok es /\ Forall (fun e => Program.e_dst_shard_idx e = 0) es /\ 0 <= rank <= int32_max /\
    es = List.filter (fun e => bool_decide (Program.e_dst_peer e = "10.0.0.2:7000"%string)) es).
  { destruct (example_schedules rank es Hes) as [[-> ->]|[-> ->]]; unfold ids_ok, int32_max;
      split_and!; try (repeat constructor; simpl; lia); try lia; reflexivity. }
  destruct Hids as (Hids & Hsh & Hrk & Hf).
  split; try done. exists (example_sender_plan rank), es. split_and!; try done.
  unfold example_sender_plan. rewrite Hes. reflexivity.
Qed.

Lemma example_transfer_ok : example_transfer example_streams.
Proof.
  assert (Hp : example_streams ≫= stream_pairs = [(1, (4, 7)); (0, (1, 5)); (0, (2, 7)); (1, (3, 5))]) by reflexivity.
  assert (Hg : forall re, re ∈ plan_entries example_plan -> in_group 0 re /\
     0 <= Program.e_src_block_id re.2 < 8 /\ src_fits example_sender_pool re.2).
  { apply Forall_forall. rewrite example_entries. repeat (constructor; [split; [reflexivity|split; [cbn; lia|vm_compute; reflexivity]]|]). constructor. }
  split.
  - vm_compute. reflexivity.
  - exact example_table.
  - exact example_typed.
  - reflexivity.
  - reflexivity.
  - by left.
  - lia.
  - intros re Hre _. by apply Hg.
  - intros rank es src dst Hes moved.
    assert (Hs : Forall sized es /\ payload_size es < 100 /\ payload_chunks es < 10).
    { destruct (example_schedules rank es Hes) as [[_ ->]|[_ ->]]; (split; [repeat constructor|split; reflexivity]). }
    destruct (payload_filter_le example_plan 0 es src dst) as [H1 H2]; [apply Hs|]. fold moved in H1, H2. unfold Transport.IOV_MAX. simpl Pool.block_stride_bytes. lia.
  - repeat (constructor; [split; [eexists; apply example_linked; reflexivity|cbn; lia|cbn; lia|reflexivity|reflexivity|reflexivity]|]). constructor.
  - rewrite Hp. repeat constructor; set_solver.
  - intros x. rewrite Hp. split.
    + intros Hx. assert (Hk : x ∈ key_of <$> plan_entries example_plan) by (rewrite example_entries; cbn; set_solver).
      apply list_elem_of_fmap in Hk as (re & -> & Hre). exists re. split; [done|]. split; [by apply Hg|done].
    + intros (re & Hre & _ & <-). rewrite example_entries in Hre. revert re Hre. apply Forall_forall.
      repeat (constructor; [cbn; set_solver|]). constructor.
Qed.

(** Three streams of two ranks: byte 23 of block 5 comes from byte 35 of rank 0's block 1
    (the second repeat of its entry); byte 34 of block 7 is live but beyond the block's
    extent and keeps its value. *)
Lemma pool_transfer_exact_witness :
  example_transfer example_streams /\
  let smem := fun rank a => (a + 16 * rank) mod 256 in
  let final := foldl (stream_received manager_delegate manager_delegate 9 0 "10.0.0.2:7000" example_sender smem) (fun _ => 0) example_streams in
  final (4096 + 5 * 100 + 23) = (8192 + 1 * 100 + 35) mod 256 /\ final (4096 + 7 * 100 + 34) = 0.
Proof.
  split; [exact example_transfer_ok|]. intros smem final.
  destruct (pool_transfer_exact manager_delegate manager_delegate snd snd 9 0 "10.0.0.2:7000" example_sender smem
    (fun _ => example_sender_pool) (fun _ => 8192) example_pools example_spec 4096 example_plan [5; 7] 0 example_group
    example_streams example_transfer_ok (fun _ => 0)) as (segs & Hsegs & Hbytes & _ & Hout).
  vm_compute in Hsegs. injection Hsegs as <-. fold final in Hbytes, Hout. clearbody final. split.
  - pose proof (Hbytes 0 (example_entry 0 20 16 1 5 2) 19%nat 35 23) as H. rewrite example_entries in H.
    cbn [Program.e_dst_block_id Program.e_src_block_id example_entry] in H. unfold block_start, smem in H.
    apply H; [set_solver|reflexivity..].
  - apply (Hout 4830). vm_compute. set_solver.
Defined.

End PoolTransfer.
