(* ===== verification/PoolExecutor.v ===== *)
(** * The pool executor

    [src/tpu_sync/core/kv_cache_manager_with_transfer.cc]: a worker's executor of pool
    plans.  A sender stages the blocks of each pool and pushes them to the peers of its
    schedule; a receiver uploads each pool once its streams have arrived and the pools of
    lower order rank are on the device, and reports one verdict per request.  Every
    critical section of [mu_] is a function on [State]; what a thread or callback still has
    to do is a [Task].  Device copies are calls whose outcome is an argument, the clock is
    an argument, hash sets and maps are [gset]s and [gmap]s. *)

From stdpp Require Import strings.
From S2P Require Import Prelude PoolLayout ReshardTypes TransferProgram PoolPlanCheck KVCacheManagerBase.

Module Executor.

Abbreviation Plan := Program.StartTransferRequest.
Abbreviation Entry := Program.ShardPushEntryProto.

(** ** State *)

Record CopySpec : Type := mkCopySpec {
  src_offsets : list Z;
  dst_offsets : list Z;
  sizes : list Z
}.

Record RecvEntry : Type := mkRecv {
  req_id : string;
  slot_idx : Z;
  h2d_copy : CopySpec;
  chip_block_ids : list Z;
  total_blocks : Z;
  num_completed_blocks : Z;
  num_completed_layers : Z;
  network_completed : bool;
  h2d_started : bool;
  reshard_finalizing : bool;
  accumulated_host_block_ids : list Z;
  deadline : Z;
  h2d_futures : list (Z * Z);
  is_pool_reshard : bool;
  expected_pool_indices : gset Z;
  started_pool_indices : gset Z;
  completed_pool_indices : gset Z;
  pool_order_ranks : gmap Z Z;
  h2d_launched_pools : gset Z;
  pool_dst_block_ids : gmap Z (list Z)
}.

Record PoolReshardSendEntry : Type := mkSend {
  send_req_id : string;
  send_parallelism : Z;
  remaining_pool_peer_pushes : Z;
  failed : bool;
  finalizing : bool;
  send_deadline : Z;
  send_plan : Plan
}.

(** An entry of the pull path, as far as [CompleteReadRaw] uses it. *)
Record SendEntry : Type := mkPull {
  pull_req_id : string;
  pull_slot_idx : Z;
  registered_block_ids : list Z;
  slot_released : bool;
  pull_deadline : Z
}.

Record State : Type := mkState {
  manager : Manager.State;
  send_entries_ : gmap Z SendEntry;
  active_pool_reshard_sends_ : gmap Z PoolReshardSendEntry;
  active_recv_entries_ : gmap Z RecvEntry;
  pending_acks_ : gset Z;
  done_sending_ : gset string;
  done_recving_ : gset string;
  failed_recving_ : gset string;
  num_slots_ : Z;
  free_slots_ : list Z;
  active_producer_blocks_ : gset Z;
  staging_readiness_ : gset Z
}.

Implicit Types (s : State) (entry : RecvEntry).

(** Assignments to single fields. *)
Definition with_manager s m : State :=
  mkState m (send_entries_ s) (active_pool_reshard_sends_ s) (active_recv_entries_ s) (pending_acks_ s) (done_sending_ s)
    (done_recving_ s) (failed_recving_ s) (num_slots_ s) (free_slots_ s) (active_producer_blocks_ s) (staging_readiness_ s).
Definition with_sends s m : State :=
  mkState (manager s) (send_entries_ s) m (active_recv_entries_ s) (pending_acks_ s) (done_sending_ s)
    (done_recving_ s) (failed_recving_ s) (num_slots_ s) (free_slots_ s) (active_producer_blocks_ s) (staging_readiness_ s).
Definition with_pulls s m : State :=
  mkState (manager s) m (active_pool_reshard_sends_ s) (active_recv_entries_ s) (pending_acks_ s) (done_sending_ s)
    (done_recving_ s) (failed_recving_ s) (num_slots_ s) (free_slots_ s) (active_producer_blocks_ s) (staging_readiness_ s).
Definition with_recvs s m : State :=
  mkState (manager s) (send_entries_ s) (active_pool_reshard_sends_ s) m (pending_acks_ s) (done_sending_ s)
    (done_recving_ s) (failed_recving_ s) (num_slots_ s) (free_slots_ s) (active_producer_blocks_ s) (staging_readiness_ s).
Definition with_acks s m : State :=
  mkState (manager s) (send_entries_ s) (active_pool_reshard_sends_ s) (active_recv_entries_ s) m (done_sending_ s)
    (done_recving_ s) (failed_recving_ s) (num_slots_ s) (free_slots_ s) (active_producer_blocks_ s) (staging_readiness_ s).
Definition with_verdicts s sent received failed : State :=
  mkState (manager s) (send_entries_ s) (active_pool_reshard_sends_ s) (active_recv_entries_ s) (pending_acks_ s) sent
    received failed (num_slots_ s) (free_slots_ s) (active_producer_blocks_ s) (staging_readiness_ s).
Definition with_slots s free blocks readiness : State :=
  mkState (manager s) (send_entries_ s) (active_pool_reshard_sends_ s) (active_recv_entries_ s) (pending_acks_ s) (done_sending_ s)
    (done_recving_ s) (failed_recving_ s) (num_slots_ s) free blocks readiness.

Definition sent s r : State := with_verdicts s ({[r]} ∪ done_sending_ s) (done_recving_ s) (failed_recving_ s).
Definition received s r : State := with_verdicts s (done_sending_ s) ({[r]} ∪ done_recving_ s) (failed_recving_ s).
Definition recv_failed s r : State := with_verdicts s (done_sending_ s) (done_recving_ s) ({[r]} ∪ failed_recving_ s).

Definition put_recv s uuid entry : State := with_recvs s (<[uuid := entry]> (active_recv_entries_ s)).
Definition drop_recv s uuid : State := with_recvs s (delete uuid (active_recv_entries_ s)).

(** ** Slots *)

Definition AcquireSlotLocked s : option (Z * State) :=
  match free_slots_ s with
  | [] => None
  | slot :: rest => Some (slot, with_slots s rest (active_producer_blocks_ s) (staging_readiness_ s))
  end.

Definition ReleaseSlotLocked s (slot : Z) : State :=
  if (slot <? 0) || (num_slots_ s <=? slot) then s
  else with_slots s (free_slots_ s ++ [slot]) (active_producer_blocks_ s) (staging_readiness_ s).

(** The released entry and the state; the entry's flag is in the shared object. *)
Definition ReleaseEntrySlotLocked s (entry : SendEntry) : State * SendEntry :=
  if (pull_slot_idx entry <? 0) || slot_released entry then (s, entry)
  else
    let s := with_slots s (free_slots_ s) (active_producer_blocks_ s ∖ list_to_set (registered_block_ids entry))
               (staging_readiness_ s ∖ {[pull_slot_idx entry]}) in
    (ReleaseSlotLocked s (pull_slot_idx entry),
     mkPull (pull_req_id entry) (pull_slot_idx entry) (registered_block_ids entry) true (pull_deadline entry)).

(** ** Registration *)

(** Runs of consecutive blocks; [None] is the thrown [invalid_argument]. *)
Fixpoint coalesce_runs (src dst run_src run_dst run_size : Z) (rest : list (Z * Z)) : list (Z * Z * Z) :=
  match rest with
  | [] => [(run_src, run_dst, run_size)]
  | (a, b) :: rest' =>
      if (a =? wrap64 (src + 1)) && (b =? wrap64 (dst + 1)) then coalesce_runs a b run_src run_dst (run_size + 1) rest'
      else (run_src, run_dst, run_size) :: coalesce_runs a b a b 1 rest'
  end.

Definition BuildCoalescedCopySpec (src_block_ids dst_block_ids : list Z) : option CopySpec :=
  if negb (length src_block_ids =? length dst_block_ids)%nat then None
  else
    match zip src_block_ids dst_block_ids with
    | [] => Some (mkCopySpec [] [] [])
    | (a, b) :: rest =>
        let runs := coalesce_runs a b a b 1 rest in
        Some (mkCopySpec (runs.*1.*1) (runs.*1.*2) (runs.*2))
    end.

Definition MEMORY_TYPE_HBM : Z := 2.

Definition RegisterRecv s (uuid : Z) (req : string) (expected_block_count due : Z) : State :=
  put_recv s uuid
    (mkRecv req (-1) (mkCopySpec [] [] []) [] (wrap32 expected_block_count) 0 0 false false false [] due [] false ∅ ∅ ∅ ∅ ∅ ∅).

Definition NotifyForRead s (req : string) (uuid : Z) (block_ids : list Z) (due : Z) : Z * State :=
  if bool_decide (block_ids = []) then (0, s)
  else if bool_decide (uuid ∈ pending_acks_ s) then (0, sent (with_acks s (pending_acks_ s ∖ {[uuid]})) req)
  else (wrap64 uuid, with_pulls s (<[uuid := mkPull req (-1) block_ids false due]> (send_entries_ s))).

(** The entry a receiver arms for a plan. *)
Definition plan_recv (plan : Plan) (chip_ids : list Z) (due : Z) : RecvEntry :=
  let pools := Program.transfer_pool_indices plan in
  let per_pool {A} (f : Program.PoolGroupProto -> A) (m : gmap Z A) :=
    foldl (fun m group => foldl (fun m p => <[u64 p := f group]> m) m (Program.g_pool_indices group)) m (Program.pool_groups plan) in
  mkRecv (Program.req_id plan) (-1) (mkCopySpec [] [] []) chip_ids 0 0 0 false false false [] due [] true
    (list_to_set (u64 <$> pools)) ∅ ∅
    (per_pool Program.g_order_rank (foldl (fun m p => <[u64 p := 0]> m) ∅ pools)) ∅
    (per_pool Program.g_dst_device_block_ids ∅).

(** [None]: the null dereference of [ValidatePoolReshardPlan]. *)
Definition PoolReshardRegisterRecv s (plan : Plan) (chip_ids : list Z) (due : Z) : option (Status * State) :=
  let m := Manager.EnsureImplicitPools (manager s) in
  match PlanCheck.ValidatePoolReshardPlan (Manager.pools_ m) (Manager.num_shards_ m) plan chip_ids false with
  | None => None
  | Some (Err c msg) => Some (Err c msg, with_manager s m)
  | Some (Ok _) =>
      let s := with_manager s m in
      if bool_decide (Manager.buffer_holds_ m = []) then
        Some (Err kFailedPrecondition
          StrCat["pool reshard receive requires a device-attached manager; host-only managers are not supported"], s)
      else if negb (Program.dst_mem_type plan =? MEMORY_TYPE_HBM) then
        Some (Err kInvalidArgument StrCat["pool reshard receiver requires dst_mem_type=HBM"], s)
      else
        let uuid := u64 (Program.uuid plan) in
        match active_recv_entries_ s !! uuid with
        | Some _ =>
            Some (Err kAlreadyExists StrCat["pool reshard recv UUID already active: "; Program.uuid plan], s)
        | None =>
            match Manager.RegisterActivePlan m uuid plan false with
            | (Err c msg, m') => Some (Err c msg, with_manager s m')
            | (Ok _, m') => Some (OkStatus, put_recv (with_manager s m') uuid (plan_recv plan chip_ids due))
            end
        end
  end.

(** ** The receiver *)

Definition with_pools entry (started completed launched : gset Z) (fin net : bool) : RecvEntry :=
  mkRecv (req_id entry) (slot_idx entry) (h2d_copy entry) (chip_block_ids entry) (total_blocks entry) (num_completed_blocks entry)
    (num_completed_layers entry) net (h2d_started entry) fin (accumulated_host_block_ids entry) (deadline entry) (h2d_futures entry)
    (is_pool_reshard entry) (expected_pool_indices entry) started completed (pool_order_ranks entry) launched (pool_dst_block_ids entry).
Definition with_future entry f : RecvEntry :=
  mkRecv (req_id entry) (slot_idx entry) (h2d_copy entry) (chip_block_ids entry) (total_blocks entry) (num_completed_blocks entry)
    (num_completed_layers entry) (network_completed entry) (h2d_started entry) (reshard_finalizing entry)
    (accumulated_host_block_ids entry) (deadline entry) (h2d_futures entry ++ [f]) (is_pool_reshard entry)
    (expected_pool_indices entry) (started_pool_indices entry) (completed_pool_indices entry) (pool_order_ranks entry)
    (h2d_launched_pools entry) (pool_dst_block_ids entry).

Definition mark_started entry pool : RecvEntry :=
  with_pools entry ({[pool]} ∪ started_pool_indices entry) (completed_pool_indices entry) (h2d_launched_pools entry)
    (reshard_finalizing entry) (network_completed entry).

(** The critical section of [OnPoolReceived]. *)
Definition pool_received s (pool_idx uuid : Z) : Status * State :=
  match active_recv_entries_ s !! uuid with
  | None => (Err kNotFound StrCat["no active receiver for UUID "; uuid], s)
  | Some entry =>
      if negb (is_pool_reshard entry) then
        (Err kFailedPrecondition
           StrCat["pool completion for UUID "; uuid; " but the receiver was armed on the legacy path"], s)
      else if negb (bool_decide (pool_idx ∈ expected_pool_indices entry)) then
        (Err kInvalidArgument StrCat["received undeclared pool "; pool_idx; " for UUID "; uuid], s)
      else if bool_decide (pool_idx ∈ started_pool_indices entry) then
        (Err kAlreadyExists StrCat["pool completed more than once: "; pool_idx], s)
      else (OkStatus, put_recv s uuid (mark_started entry pool_idx))
  end.

Definition order_rank entry (pool : Z) : Z := default 0 (pool_order_ranks entry !! pool).

Definition prerequisites_uploaded entry (pool : Z) : bool :=
  forallb (fun other => negb (order_rank entry other <? order_rank entry pool) || bool_decide (other ∈ completed_pool_indices entry))
    (elements (expected_pool_indices entry)).

(** The pools [LaunchEligiblePoolH2ds] launches, with the blocks to upload. *)
Definition eligible entry : list Z :=
  List.filter (fun pool => negb (bool_decide (pool ∈ h2d_launched_pools entry)) && prerequisites_uploaded entry pool)
    (elements (started_pool_indices entry)).
Definition upload_ids entry (pool : Z) : list Z := default (chip_block_ids entry) (pool_dst_block_ids entry !! pool).

(** Its first critical section. *)
Definition launch_pools s (uuid : Z) : list (Z * list Z) * State :=
  match active_recv_entries_ s !! uuid with
  | None => ([], s)
  | Some entry =>
      if reshard_finalizing entry then ([], s)
      else
        let to_launch := eligible entry in
        ((fun pool => (pool, upload_ids entry pool)) <$> to_launch,
         put_recv s uuid
           (with_pools entry (started_pool_indices entry) (completed_pool_indices entry)
              (list_to_set to_launch ∪ h2d_launched_pools entry) (reshard_finalizing entry) (network_completed entry)))
  end.

(** Its second one: the future of an issued copy is kept with the entry. *)
Definition track_future s (uuid pool : Z) : State :=
  match active_recv_entries_ s !! uuid with
  | None => s
  | Some entry => put_recv s uuid (with_future entry (uuid, pool))
  end.

(** The first critical section of [FinishPoolReshardRecvPool]; the result is [finished], or
    [None] for its early returns. *)
Definition finish_upload s (uuid pool_idx : Z) (status : Status) : option bool * State :=
  match active_recv_entries_ s !! uuid with
  | None => (None, s)
  | Some entry =>
      if reshard_finalizing entry then (None, s)
      else if negb (ok status) then
        (Some true, put_recv s uuid
           (with_pools entry (started_pool_indices entry) (completed_pool_indices entry) (h2d_launched_pools entry) true (network_completed entry)))
      else
        let completed := {[pool_idx]} ∪ completed_pool_indices entry in
        let finished := bool_decide (completed = expected_pool_indices entry) in
        (Some finished, put_recv s uuid
           (with_pools entry (started_pool_indices entry) completed (h2d_launched_pools entry) finished (network_completed entry)))
  end.

(** Its last one, after the plan is unregistered. *)
Definition report_recv s (uuid : Z) (status unregister : Status) : State :=
  match active_recv_entries_ s !! uuid with
  | None => s
  | Some entry =>
      let not_found := match unregister with Err kNotFound _ => true | _ => false end in
      if negb (ok status) || (negb (ok unregister) && negb not_found) then drop_recv (recv_failed s (req_id entry)) uuid
      else
        received (put_recv s uuid
          (with_pools entry (started_pool_indices entry) (completed_pool_indices entry) (h2d_launched_pools entry)
             (reshard_finalizing entry) true)) (req_id entry)
  end.

(** ** Blocks and layers of the legacy path *)

Definition with_progress entry (blocks layers : Z) (net started : bool) (hosts : list Z) : RecvEntry :=
  mkRecv (req_id entry) (slot_idx entry) (h2d_copy entry) (chip_block_ids entry) (total_blocks entry) blocks layers net started
    (reshard_finalizing entry) hosts (deadline entry) (h2d_futures entry) (is_pool_reshard entry) (expected_pool_indices entry)
    (started_pool_indices entry) (completed_pool_indices entry) (pool_order_ranks entry) (h2d_launched_pools entry) (pool_dst_block_ids entry).

(** [OnBlocksReceived]: [forward] is the base class's handler, for pulls. *)
Definition OnBlocksReceived (forward : State -> list Z -> Z -> Status * State) s (block_ids : list Z) (uuid : Z) : Status * State :=
  match active_recv_entries_ s !! uuid with
  | None => forward s block_ids uuid
  | Some entry =>
      if is_pool_reshard entry then (OkStatus, s)
      else
        let blocks := wrap32 (num_completed_blocks entry + Z.of_nat (length block_ids)) in
        let entry := with_progress entry blocks (num_completed_layers entry) (network_completed entry) (h2d_started entry)
                       (accumulated_host_block_ids entry ++ block_ids) in
        let layers := Manager.num_layers_ (manager s) in
        if u64 (u64 (total_blocks entry) * layers) <=? u64 blocks then
          let entry := with_progress entry blocks (num_completed_layers entry) true (h2d_started entry) (accumulated_host_block_ids entry) in
          if u64 (num_completed_layers entry) =? layers then
            (OkStatus, ReleaseSlotLocked (received (drop_recv s uuid) (req_id entry)) (slot_idx entry))
          else forward (put_recv s uuid entry) block_ids uuid
        else (OkStatus, put_recv s uuid entry)
  end.

(** The callback of a layer's copy in [OnLayerReceived]. *)
Definition layer_copied s (uuid slot : Z) (req : string) (status : Status) : State :=
  match active_recv_entries_ s !! uuid with
  | None => s
  | Some entry =>
      if ok status then
        let entry := with_progress entry (num_completed_blocks entry) (wrap32 (num_completed_layers entry + 1)) (network_completed entry)
                       (h2d_started entry) (accumulated_host_block_ids entry) in
        if u64 (num_completed_layers entry) =? Manager.num_layers_ (manager s)
        then drop_recv (ReleaseSlotLocked (received s req) slot) uuid
        else put_recv s uuid entry
      else drop_recv (ReleaseSlotLocked (recv_failed s req) slot) uuid
  end.

(** [OnLayerReceived] up to the copy: what the copy and its callback are given. *)
Definition layer_received s (uuid : Z) : option (CopySpec * string * Z * bool) * State :=
  match active_recv_entries_ s !! uuid with
  | None => (None, s)
  | Some entry =>
      (Some (h2d_copy entry, req_id entry, slot_idx entry, negb (h2d_started entry)),
       put_recv s uuid (with_progress entry (num_completed_blocks entry) (num_completed_layers entry) (network_completed entry) true
                          (accumulated_host_block_ids entry)))
  end.
Definition layer_refused s (uuid slot : Z) (req : string) : State :=
  drop_recv (ReleaseSlotLocked (recv_failed s req) slot) uuid.

(** ** The sender *)

(** The schedule a sender pushes: key 0, or the first one of the map. *)
Definition local_schedule (plan : Plan) : option (list Entry) :=
  match Program.shard_push_schedules plan !! 0 with
  | Some es => Some es
  | None => snd <$> head (map_to_list (Program.shard_push_schedules plan))
  end.

(** The group of a pool, [-1] when it has none. *)
Fixpoint group_of (pool_idx : Z) (groups : list Program.PoolGroupProto) (i : Z) : Z :=
  match groups with
  | [] => -1
  | group :: rest =>
      if bool_decide (wrap32 pool_idx ∈ Program.g_pool_indices group) then i else group_of pool_idx rest (i + 1)
  end.
Definition pool_group_index (plan : Plan) (pool_idx : Z) : Z := group_of pool_idx (Program.pool_groups plan) 0.

Definition schedule_peers (es : list Entry) : gset string := list_to_set (Program.e_dst_peer <$> es).
Definition group_src_ids (plan : Plan) (pool_idx : Z) (es : list Entry) : gset Z :=
  list_to_set (Program.e_src_block_id <$> List.filter (fun e => PlanCheck.pool_group e =? pool_group_index plan pool_idx) es).

(** The transfers of a pool by peer, the first occurrence of each pair kept. *)
Definition pool_transfers (plan : Plan) (pool_idx : Z) (es : list Entry) (peer : string) : list (Z * Z) :=
  Manager.first_pairs ∅
    ((fun e => (wrap32 (Program.e_src_block_id e), wrap32 (Program.e_dst_block_id e))) <$>
     List.filter (fun e => (PlanCheck.pool_group e =? pool_group_index plan pool_idx) && bool_decide (Program.e_dst_peer e = peer)) es).

(** The peers a pool is pushed to. *)
Definition pool_peers (plan : Plan) (pool_idx : Z) (es : list Entry) : gset string :=
  list_to_set (Program.e_dst_peer <$> List.filter (fun e => PlanCheck.pool_group e =? pool_group_index plan pool_idx) es).

(** The first critical section of [FinishPoolReshardSend]: [Some] when this call finished
    the send. *)
Definition finish_push s (uuid : Z) (status : Status) : bool * State :=
  match active_pool_reshard_sends_ s !! uuid with
  | None => (false, s)
  | Some st =>
      if finalizing st then (false, s)
      else if negb (ok status) then
        (true, with_sends s (<[uuid := mkSend (send_req_id st) (send_parallelism st) (remaining_pool_peer_pushes st) true true
                                         (send_deadline st) (send_plan st)]> (active_pool_reshard_sends_ s)))
      else
        let remaining := wrap32 (remaining_pool_peer_pushes st - 1) in
        (remaining =? 0,
         with_sends s (<[uuid := mkSend (send_req_id st) (send_parallelism st) remaining (failed st) (remaining =? 0)
                                   (send_deadline st) (send_plan st)]> (active_pool_reshard_sends_ s)))
  end.

Definition is_not_found (st : Status) : bool := match st with Err kNotFound _ => true | _ => false end.

Definition report_send s (uuid : Z) (unregister : Status) : State :=
  match active_pool_reshard_sends_ s !! uuid with
  | None => s
  | Some st =>
      let s' := if failed st || (negb (ok unregister) && negb (is_not_found unregister))
                then recv_failed s (send_req_id st) else sent s (send_req_id st) in
      with_sends s' (delete uuid (active_pool_reshard_sends_ s))
  end.

Definition unregister_plan s (uuid : Z) : Status * State :=
  let '(st, m) := Manager.UnregisterActivePlan (manager s) uuid in (st, with_manager s m).

Definition FinishPoolReshardSend s (uuid : Z) (status : Status) : State :=
  let '(finished, s) := finish_push s uuid status in
  if finished then let '(unregister, s) := unregister_plan s uuid in report_send s uuid unregister else s.

(** The staging loop of [PoolReshardPush]: [d2h] is the outcome of [D2hPoolBlocks]; the
    result is the copies issued (pool and blocks). *)
Fixpoint stage_pools (d2h : Z -> gset Z -> Status) (plan : Plan) (es : list Entry) (uuid : Z) (peers : gset string)
    (pools : list Z) s : Status * State * list (Z * gset Z) :=
  match pools with
  | [] => (OkStatus, s, [])
  | pool :: rest =>
      let ids := group_src_ids plan (u64 pool) es in
      if bool_decide (ids = ∅) then
        let s := foldl (fun s _ => FinishPoolReshardSend s uuid OkStatus) s (elements peers) in
        stage_pools d2h plan es uuid peers rest s
      else
        match d2h (u64 pool) ids with
        | Err c m => (Err c m, FinishPoolReshardSend s uuid (Err c m), [])
        | Ok _ => let '(st, s, issued) := stage_pools d2h plan es uuid peers rest s in (st, s, (u64 pool, ids) :: issued)
        end
  end.

Definition PoolReshardPush (d2h : Z -> gset Z -> Status) s (plan : Plan) (src_block_ids : list Z) (parallelism due : Z) :
    option (Status * State * list (Z * gset Z)) :=
  let m := Manager.EnsureImplicitPools (manager s) in
  match PlanCheck.ValidatePoolReshardPlan (Manager.pools_ m) (Manager.num_shards_ m) plan src_block_ids true with
  | None => None
  | Some (Err c msg) => Some (Err c msg, with_manager s m, [])
  | Some (Ok _) =>
      let s := with_manager s m in
      if bool_decide (Manager.buffer_holds_ m = []) then
        Some (Err kFailedPrecondition
          StrCat["pool reshard push requires a device-attached manager; host-only managers are not supported"], s, [])
      else if parallelism <=? 0 then Some (Err kInvalidArgument StrCat["parallelism must be positive"], s, [])
      else if bool_decide (Program.shard_push_schedules plan !! 0 = None) &&
              negb (base.size (Program.shard_push_schedules plan) =? 1)%nat then
        Some (Err kInvalidArgument StrCat["sender plan must use local schedule key 0"], s, [])
      else
        let es := default [] (local_schedule plan) in
        let peers := schedule_peers es in
        if bool_decide (peers = ∅) then Some (Err kInvalidArgument StrCat["sender plan contains no peers"], s, [])
        else
          let uuid := u64 (Program.uuid plan) in
          match Manager.RegisterActivePlan m uuid plan true with
          | (Err c msg, m') => Some (Err c msg, with_manager s m', [])
          | (Ok _, m') =>
              let s := with_manager s m' in
              match active_pool_reshard_sends_ s !! uuid with
              | Some _ =>
                  let '(_, s) := unregister_plan s uuid in
                  Some (Err kAlreadyExists StrCat["pool reshard send UUID already active: "; Program.uuid plan], s, [])
              | None =>
                  let state := mkSend (Program.req_id plan) parallelism
                    (wrap32 (Z.of_nat (length (Program.transfer_pool_indices plan)) * Z.of_nat (base.size peers))) false false due plan in
                  let s := with_sends s (<[uuid := state]> (active_pool_reshard_sends_ s)) in
                  Some (stage_pools d2h plan es uuid peers (Program.transfer_pool_indices plan) s)
              end
          end
  end.

(** [StartPoolReshardPush]: the pushes of a staged pool (peer and transfers), or the send is
    finished when the transport is down. *)
Definition StartPoolReshardPush (transport_running : bool) s (uuid pool_idx : Z) : list (string * list (Z * Z)) * State :=
  match active_pool_reshard_sends_ s !! uuid with
  | None => ([], s)
  | Some st =>
      if negb transport_running then
        ([], FinishPoolReshardSend s uuid (Err kFailedPrecondition StrCat["transport server is not running"]))
      else
        let es := default [] (local_schedule (send_plan st)) in
        ((fun peer => (peer, pool_transfers (send_plan st) pool_idx es peer)) <$> elements (pool_peers (send_plan st) pool_idx es), s)
  end.

(** ** Polling *)

Definition expire_pull (now : Z) (acc : State * list Z) (kv : Z * SendEntry) : State * list Z :=
  let '(s, timed_out) := acc in
  if pull_deadline kv.2 <=? now then
    let s := sent s (pull_req_id kv.2) in
    let '(s, _) := ReleaseEntrySlotLocked s kv.2 in
    (with_pulls s (delete kv.1 (send_entries_ s)), timed_out ++ [kv.1])
  else acc.

Definition expire_send (now : Z) (acc : State * list Z) (kv : Z * PoolReshardSendEntry) : State * list Z :=
  let '(s, timed_out) := acc in
  if send_deadline kv.2 <=? now then
    (with_sends (recv_failed s (send_req_id kv.2)) (delete kv.1 (active_pool_reshard_sends_ s)), timed_out ++ [kv.1])
  else acc.

(** [ready]: whether a kept future is ready. *)
Definition poll_recv (now : Z) (ready : Z * Z -> bool) (acc : State * list Z) (kv : Z * RecvEntry) : State * list Z :=
  let '(s, timed_out) := acc in
  let '(uuid, entry) := kv in
  if (network_completed entry || (u64 (num_completed_layers entry) =? Manager.num_layers_ (manager s))) && forallb ready (h2d_futures entry)
  then (drop_recv (ReleaseSlotLocked (received s (req_id entry)) (slot_idx entry)) uuid, timed_out)
  else if deadline entry <=? now then
    (drop_recv (ReleaseSlotLocked (recv_failed s (req_id entry)) (slot_idx entry)) uuid, timed_out ++ [uuid])
  else acc.

(** [CompleteReadRaw]: the three answers and the state after the poll. *)
Definition CompleteReadRaw (now : Z) (ready : Z * Z -> bool) s : (gset string * gset string * gset string) * State :=
  let acc := foldl (expire_pull now) (s, []) (map_to_list (send_entries_ s)) in
  let acc := foldl (expire_send now) acc (map_to_list (active_pool_reshard_sends_ acc.1)) in
  let acc := foldl (poll_recv now ready) acc (map_to_list (active_recv_entries_ acc.1)) in
  let '(s, timed_out) := acc in
  let answer := (done_sending_ s, done_recving_ s, failed_recving_ s) in
  let s := with_verdicts s ∅ ∅ ∅ in
  (answer, foldl (fun s uuid => (unregister_plan s uuid).2) s timed_out).

(** ** Threads of a receive *)

(** What a thread or a callback has still to do for a pool receive. *)
Inductive Task : Type :=
  | Launch                                   (* enter LaunchEligiblePoolH2ds *)
  | Issue (pool : Z) (ids : list Z)          (* call H2dPoolBlocks *)
  | Upload (pool : Z)                        (* a copy in flight *)
  | Track (pool : Z)                         (* keep its future *)
  | Finish (pool : Z) (status : Status)      (* enter FinishPoolReshardRecvPool *)
  | Unregister (status : Status)             (* finished: unregister the plan *)
  | Report (status unregister : Status).     (* its last critical section *)

(** One critical section of a task of [uuid]; [outcome] is that of the call or copy it
    waits for. *)
Definition run_task (uuid : Z) (outcome : Status) (t : Task) s : State * list Task :=
  match t with
  | Launch => let '(pools, s') := launch_pools s uuid in (s', (fun p => Issue p.1 p.2) <$> pools)
  | Issue pool _ => if ok outcome then (s, [Upload pool; Track pool]) else (s, [Finish pool outcome])
  | Upload pool => (s, [Finish pool outcome])
  | Track pool => (track_future s uuid pool, [])
  | Finish pool status =>
      let '(finished, s') := finish_upload s uuid pool status in
      (s', match finished with
           | None => []
           | Some true => [Unregister status]
           | Some false => if ok status then [Launch] else []
           end)
  | Unregister status => let '(st, s') := unregister_plan s uuid in (s', [Report status st])
  | Report status st => (report_recv s uuid status st, [])
  end.

(** [OnPoolReceived]. *)
Definition OnPoolReceived s (pool_idx uuid : Z) : Status * State * list Task :=
  let '(st, s) := pool_received s pool_idx uuid in (st, s, if ok st then [Launch] else []).

End Executor.
