(* ===== verification/PoolExecutorProofs.v ===== *)
(** * What the pool executor guarantees

    Every interleaving of the threads of a pool receive: uploads respect the order ranks of
    the pools, each pool is uploaded at most once, one verdict is reported and it is the
    right one, and once all pools have arrived the receive ends. *)

From stdpp Require Import strings.
From S2P Require Import Prelude PoolLayout ReshardTypes TransferProgram PoolPlanCheck KVCacheManagerBase PoolExecutor.

Module ExecutorProofs.
Import Executor.

(** ** Counting *)

Definition total {A} (w : A -> nat) (l : list A) : nat := list_sum (w <$> l).

Lemma total_app {A} (w : A -> nat) l k : total w (l ++ k) = (total w l + total w k)%nat.
Proof. unfold total. by rewrite fmap_app, list_sum_app. Qed.
Lemma total_cons {A} (w : A -> nat) x l : total w (x :: l) = (w x + total w l)%nat.
Proof. done. Qed.
Lemma total_mid {A} (w : A -> nat) l x k : total w (l ++ x :: k) = (w x + total w (l ++ k))%nat.
Proof. rewrite !total_app, total_cons. lia. Qed.
Lemma total_nil {A} (w : A -> nat) : total w [] = 0%nat.
Proof. done. Qed.
Lemma total_zero {A} (w : A -> nat) l : total w l = 0%nat <-> forall x, x ∈ l -> w x = 0%nat.
Proof.
  induction l as [|x l IH]; [split; [by intros _ ? ?%elem_of_nil|done]|]. rewrite total_cons, Nat.eq_add_0, IH.
  setoid_rewrite elem_of_cons. naive_solver.
Qed.
Lemma total_in {A} (w : A -> nat) l x : x ∈ l -> (w x <= total w l)%nat.
Proof. intros (l1 & l2 & ->)%list_elem_of_split. rewrite total_mid. lia. Qed.

#[local] Arguments total {A} w l : simpl never.
Create Rewrite HintDb total.
#[local] Hint Rewrite @total_app @total_cons @total_nil : total.

(** ** Runs *)

(** What happens to a receive: calls of [H2dPoolBlocks], uploads that ended well, and the
    verdicts its threads and the polls come to.  Which verdict the caller is given is read off
    the executor's sets and the answers of its polls, below. *)
Inductive Event : Type :=
  | Called (pool : Z) (ids : list Z)
  | Uploaded (pool : Z)
  | Verdict (good : bool).

Record Config : Type := mkConfig {
  state : State;
  tasks : list Task;
  log : list Event
}.

(** What a poll answers of receives: those done and those failed. *)
Abbreviation Answer := (gset string * gset string)%type.

Section receive.
Context (uuid : Z).

Definition task_events (t : Task) (s : State) : list Event :=
  match t with
  | Issue pool ids => [Called pool ids]
  | Finish pool status =>
      match active_recv_entries_ s !! uuid with
      | Some entry => if reshard_finalizing entry then [] else if ok status then [Uploaded pool] else []
      | None => []
      end
  | Report status unregister =>
      match active_recv_entries_ s !! uuid with
      | Some _ => [Verdict (ok status && (ok unregister || is_not_found unregister))]
      | None => []
      end
  | _ => []
  end.

(** What a poll does to the entry: a finished receive that was already reported is only
    removed. *)
Definition poll_events (now : Z) (ready : Z * Z -> bool) (s : State) : list Event :=
  match active_recv_entries_ s !! uuid with
  | Some entry =>
      if (network_completed entry || (u64 (num_completed_layers entry) =? Manager.num_layers_ (manager s))) &&
         forallb ready (h2d_futures entry)
      then if network_completed entry then [] else [Verdict true]
      else if deadline entry <=? now then [Verdict false] else []
  | None => []
  end.

Inductive task_step (outcome : Status) : Config -> Config -> Prop :=
  | do_task s ts1 t ts2 l s' new :
      run_task uuid outcome t s = (s', new) ->
      task_step outcome (mkConfig s (ts1 ++ t :: ts2) l) (mkConfig s' ((ts1 ++ ts2) ++ new) (l ++ task_events t s)).

(** Nothing else of the executor reports under the request's id. *)
Definition sole (req : string) (s : State) : Prop :=
  (forall v e, active_recv_entries_ s !! v = Some e -> req_id e = req -> v = uuid) /\
  (forall v e, active_pool_reshard_sends_ s !! v = Some e -> send_req_id e ≠ req).
Definition unsaid (req : string) (s s' : State) : Prop :=
  (req ∈ done_recving_ s' <-> req ∈ done_recving_ s) /\ (req ∈ failed_recving_ s' <-> req ∈ failed_recving_ s).

(** A step, with the answer of a poll. *)
Inductive step (req : string) : option Answer -> Config -> Config -> Prop :=
  | step_task outcome c c' : task_step outcome c c' -> step req None c c'
  | step_receive s ts l pool st s' new :
      OnPoolReceived s pool uuid = (st, s', new) -> step req None (mkConfig s ts l) (mkConfig s' (ts ++ new) l)
  | step_poll s ts l now ready sending done failed s' :
      (forall f, f.1 = uuid -> Upload f.2 ∉ ts -> ready f = true) -> sole req s ->
      CompleteReadRaw now ready s = ((sending, done, failed), s') ->
      step req (Some (done, failed)) (mkConfig s ts l) (mkConfig s' ts (l ++ poll_events now ready s))
  | step_other s s' ts l :
      active_recv_entries_ s' !! uuid = active_recv_entries_ s !! uuid ->
      Manager.num_layers_ (manager s') = Manager.num_layers_ (manager s) -> unsaid req s s' ->
      step req None (mkConfig s ts l) (mkConfig s' ts l).

(** A run, with the answers its polls have given. *)
Inductive watched (R : option Answer -> Config -> Config -> Prop) : Config * list Answer -> Config * list Answer -> Prop :=
  | watch a c c' answers : R a c c' -> watched R (c, answers) (c', answers ++ option_list a).

(** ** The invariant *)

Section armed.
Context (e0 : RecvEntry).
Local Abbreviation E := (expected_pool_indices e0).
Local Abbreviation rank := (order_rank e0).

Definition w_pending (pool : Z) (t : Task) : nat :=
  match t with Issue p _ | Upload p | Finish p _ => if bool_decide (p = pool) then 1 else 0 | _ => 0 end.
Definition w_issue (pool : Z) (t : Task) : nat :=
  match t with Issue p _ => if bool_decide (p = pool) then 1 else 0 | _ => 0 end.
Definition w_called (pool : Z) (e : Event) : nat :=
  match e with Called p _ => if bool_decide (p = pool) then 1 else 0 | _ => 0 end.
Definition w_closing (t : Task) : nat := match t with Unregister _ | Report _ _ => 1 | _ => 0 end.
Definition w_verdict (e : Event) : nat := match e with Verdict _ => 1 | _ => 0 end.

(** Launches of a pool: calls to come and calls made. *)
Definition launches (c : Config) (pool : Z) : nat := (total (w_issue pool) (tasks c) + total (w_called pool) (log c))%nat.

(** A log in which every call comes after the uploads it has to wait for. *)
Definition waits (l : list Event) (pool : Z) (ids : list Z) : Prop :=
  pool ∈ E /\ ids = upload_ids e0 pool /\ forall q, q ∈ E -> rank q < rank pool -> Uploaded q ∈ l.
Fixpoint ordered (l : list Event) : Prop :=
  match l with
  | [] => True
  | e :: older =>
      ordered older /\
      match e with
      | Called pool ids => waits older pool ids
      | Verdict true => forall q, q ∈ E -> Uploaded q ∈ older
      | _ => True
      end
  end.

(** The entry is one of the plan, and keeps futures of its own copies. *)
Record same_plan (e : RecvEntry) : Prop := {
  sp_pool : is_pool_reshard e = true;
  sp_expected : expected_pool_indices e = E;
  sp_ranks : pool_order_ranks e = pool_order_ranks e0;
  sp_chip : chip_block_ids e = chip_block_ids e0;
  sp_dst : pool_dst_block_ids e = pool_dst_block_ids e0;
  sp_layers : num_completed_layers e = 0;
  sp_req : req_id e = req_id e0;
  sp_futures f : f ∈ h2d_futures e -> f.1 = uuid
}.

Record entry_inv (c : Config) (e : RecvEntry) : Prop := {
  ei_plan : same_plan e;
  ei_started : started_pool_indices e ⊆ E;
  ei_launched : h2d_launched_pools e ⊆ started_pool_indices e;
  ei_completed : completed_pool_indices e ⊆ h2d_launched_pools e;
  ei_log p : p ∈ completed_pool_indices e <-> Uploaded p ∈ log c;
  ei_launches p : launches c p = if bool_decide (p ∈ h2d_launched_pools e) then 1%nat else 0%nat;
  ei_idle p : p ∉ h2d_launched_pools e \/ p ∈ completed_pool_indices e -> total (w_pending p) (tasks c) = 0%nat;
  ei_pending p : (total (w_pending p) (tasks c) <= 1)%nat;
  ei_running : reshard_finalizing e = false ->
    (forall p, p ∈ h2d_launched_pools e -> p ∉ completed_pool_indices e -> total (w_pending p) (tasks c) = 1%nat) /\
    (eligible e ≠ [] -> Launch ∈ tasks c) /\
    total w_closing (tasks c) = 0%nat /\ network_completed e = false /\ completed_pool_indices e ≠ E;
  ei_closing : reshard_finalizing e = true -> total w_closing (tasks c) = (if network_completed e then 0%nat else 1%nat);
  ei_verdict : total w_verdict (log c) = (if network_completed e then 1%nat else 0%nat) /\
    (network_completed e = true -> Verdict true ∈ log c)
}.

(** The parts of the invariant that do not look at the entry. *)
Record calm (c : Config) : Prop := {
  ca_layers : 0 < Manager.num_layers_ (manager (state c));
  ca_launches p : (launches c p <= 1)%nat;
  ca_issue p ids : Issue p ids ∈ tasks c -> waits (log c) p ids;
  ca_ordered : ordered (reverse (log c));
  ca_closing status : (Unregister status ∈ tasks c \/ exists un, Report status un ∈ tasks c) -> ok status = true ->
    forall q, q ∈ E -> Uploaded q ∈ log c;
  ca_good : Verdict true ∈ log c -> forall q, q ∈ E -> Uploaded q ∈ log c
}.

Record inv (c : Config) : Prop := {
  in_calm : calm c;
  in_entry e : active_recv_entries_ (state c) !! uuid = Some e -> entry_inv c e;
  in_gone : active_recv_entries_ (state c) !! uuid = None -> total w_verdict (log c) = 1%nat
}.

Lemma waits_mono l l' p ids : waits l p ids -> waits (l ++ l') p ids.
Proof. intros (H1 & H2 & H3). split; [done|]. split; [done|]. intros q Hq Hr. apply elem_of_app. left. by apply H3. Qed.

Lemma waits_reverse l p ids : waits (reverse l) p ids <-> waits l p ids.
Proof. unfold waits. by setoid_rewrite elem_of_reverse. Qed.

Lemma elem_of_rest {A} (x t : A) ts1 ts2 new : x ∈ (ts1 ++ ts2) ++ new -> x ∈ ts1 ++ t :: ts2 \/ x ∈ new.
Proof. rewrite !elem_of_app, elem_of_cons. tauto. Qed.

Lemma put_lookup s e : active_recv_entries_ (put_recv s uuid e) !! uuid = Some e.
Proof. apply lookup_insert_eq. Qed.

Lemma ordered_snoc l ev :
  ordered (reverse l) -> (length ev <= 1)%nat -> (forall p ids, Called p ids ∈ ev -> waits l p ids) ->
  (Verdict true ∈ ev -> forall q, q ∈ E -> Uploaded q ∈ l) -> ordered (reverse (l ++ ev)).
Proof.
  intros Hl Hlen Hev Hgood. destruct ev as [|e [|? ?]]; [by rewrite app_nil_r| |cbn in Hlen; lia]. rewrite reverse_snoc. split; [done|].
  destruct e as [p ids| |[]]; [|done| |done]; [apply waits_reverse, Hev; by left|].
  intros q Hq. apply elem_of_reverse, Hgood; [by left|done].
Qed.

(** A step of a task that adds no call to come. *)
Lemma calm_task s s' ts1 t ts2 new l ev :
  calm (mkConfig s (ts1 ++ t :: ts2) l) ->
  Manager.num_layers_ (manager s') = Manager.num_layers_ (manager s) ->
  (forall p, (total (w_issue p) new + total (w_called p) ev <= w_issue p t)%nat) ->
  (forall p ids, Issue p ids ∉ new) ->
  (length ev <= 1)%nat -> (forall p ids, Called p ids ∈ ev -> t = Issue p ids) ->
  (forall st, (Unregister st ∈ new \/ exists un, Report st un ∈ new) -> ok st = true -> forall q, q ∈ E -> Uploaded q ∈ l ++ ev) ->
  (Verdict true ∈ ev -> forall q, q ∈ E -> Uploaded q ∈ l) ->
  calm (mkConfig s' ((ts1 ++ ts2) ++ new) (l ++ ev)).
Proof.
  intros [H0 H1 H2 H3 H4 H5] Hlay Hcount Hnew Hlen Hev Hclose Hgood. unfold launches in *. cbn [state tasks log] in *.
  assert (Hup : forall q, Uploaded q ∈ l -> Uploaded q ∈ l ++ ev) by (intros; apply elem_of_app; by left).
  split; unfold launches; cbn [state tasks log].
  - by rewrite Hlay.
  - intros p. specialize (H1 p). specialize (Hcount p). rewrite total_mid in H1. rewrite !(total_app _ _ new), (total_app _ l ev). lia.
  - intros p ids [Hin|Hin]%(elem_of_rest _ t); [by apply waits_mono, H2|by destruct (Hnew p ids)].
  - apply ordered_snoc; [done|done| |done]. intros p ids ->%Hev. apply H2, elem_of_app. right. by left.
  - intros st [[Hin|Hin]%(elem_of_rest _ t)|[un [Hin|Hin]%(elem_of_rest _ t)]] Hok q Hq; eauto.
  - intros [Hv|Hv]%elem_of_app q Hq; apply Hup; auto.
Qed.

(** What a step keeps when it leaves the entry alone. *)
Lemma entry_task c c' e :
  entry_inv c e ->
  (forall p, launches c' p = launches c p) ->
  (forall p, total (w_pending p) (tasks c') = total (w_pending p) (tasks c)) ->
  total w_closing (tasks c') = total w_closing (tasks c) ->
  (Launch ∈ tasks c -> Launch ∈ tasks c') ->
  (forall ev, (forall p ids, ev ≠ Called p ids) -> ev ∈ log c' <-> ev ∈ log c) ->
  total w_verdict (log c') = total w_verdict (log c) ->
  entry_inv c' e.
Proof.
  intros [] Hl Hp Hc HL Hlog Hv. split; try done.
  - intros p. rewrite Hlog by done. auto.
  - intros p. rewrite Hl. auto.
  - intros p. rewrite Hp. auto.
  - intros p. rewrite Hp. auto.
  - intros Hf. destruct (ei_running0 Hf) as (H1 & H2 & H3 & H4). setoid_rewrite Hp. rewrite Hc. eauto 10.
  - intros Hf. rewrite Hc. auto.
  - rewrite Hv, Hlog by done. done.
Qed.

Ltac counts := unfold launches in *; cbn [tasks log] in *;
  autorewrite with total in *; cbn [w_issue w_pending w_closing w_called w_verdict] in *.

(** Not-called events of a log extended by calls. *)
Lemma elem_of_called (l : list Event) p ids ev : (forall q k, ev ≠ Called q k) -> ev ∈ l ++ [Called p ids] <-> ev ∈ l.
Proof. intros H. rewrite elem_of_app, list_elem_of_singleton. split; [intros [?| ->]; [done|by destruct (H p ids)]|by left]. Qed.

Lemma launch_kept ts1 t ts2 new : t ≠ Launch -> Launch ∈ ts1 ++ t :: ts2 -> Launch ∈ (ts1 ++ ts2) ++ new.
Proof. rewrite !elem_of_app, elem_of_cons. intros H [?|[<-|?]]; [tauto|done|tauto]. Qed.

Lemma inv_issue s ts1 pool ids ts2 l new :
  inv (mkConfig s (ts1 ++ Issue pool ids :: ts2) l) ->
  new = [Upload pool; Track pool] \/ (exists st, new = [Finish pool st]) ->
  inv (mkConfig s ((ts1 ++ ts2) ++ new) (l ++ [Called pool ids])).
Proof.
  intros [Hcalm He Hg] Hnew. split.
  - apply (calm_task s s ts1 (Issue pool ids) ts2); [done|done| | |cbn; lia| | |].
    + intros p. destruct Hnew as [->|[st ->]]; counts; lia.
    + intros p k. destruct Hnew as [->|[st ->]]; set_solver.
    + intros p k [= -> ->]%list_elem_of_singleton. done.
    + intros st'. destruct Hnew as [->|[st ->]]; set_solver.
    + intros Hv%list_elem_of_singleton. done.
  - intros e Hl. cbn [state] in Hl. apply (entry_task (mkConfig s (ts1 ++ Issue pool ids :: ts2) l)); [by apply He| | | | | |].
    + intros p. destruct Hnew as [->|[st ->]]; counts; lia.
    + intros p. destruct Hnew as [->|[st ->]]; counts; lia.
    + destruct Hnew as [->|[st ->]]; counts; lia.
    + by apply launch_kept.
    + intros ev. apply elem_of_called.
    + counts. lia.
  - intros Hl. cbn [state log] in *. rewrite total_app. rewrite (Hg Hl). done.
Qed.

Lemma inv_upload s ts1 pool ts2 l st :
  inv (mkConfig s (ts1 ++ Upload pool :: ts2) l) -> inv (mkConfig s ((ts1 ++ ts2) ++ [Finish pool st]) (l ++ [])).
Proof.
  intros [Hcalm He Hg]. split.
  - apply (calm_task s s ts1 (Upload pool) ts2); [done|done|intros p; counts; lia|set_solver|cbn; lia|set_solver|set_solver|set_solver].
  - rewrite app_nil_r. intros e Hl. apply (entry_task (mkConfig s (ts1 ++ Upload pool :: ts2) l)); [by apply He| | | |by apply launch_kept|done|done].
    + intros p. counts. lia.
    + intros p. counts. lia.
    + counts. lia.
  - rewrite app_nil_r. done.
Qed.

Lemma unregister_lookup s st s' : unregister_plan s uuid = (st, s') ->
  active_recv_entries_ s' = active_recv_entries_ s /\ Manager.num_layers_ (manager s') = Manager.num_layers_ (manager s) /\
  (ok st || is_not_found st = true).
Proof.
  unfold unregister_plan, Manager.UnregisterActivePlan. destruct (Manager.active_plans_ _ !! _); intros [= <- <-]; repeat split.
Qed.

Lemma inv_unregister s ts1 status ts2 l st s' :
  inv (mkConfig s (ts1 ++ Unregister status :: ts2) l) -> unregister_plan s uuid = (st, s') ->
  inv (mkConfig s' ((ts1 ++ ts2) ++ [Report status st]) (l ++ [])).
Proof.
  intros [Hcalm He Hg] (Hrecv & Hlay & _)%unregister_lookup. split.
  - apply (calm_task s s' ts1 (Unregister status) ts2); [done|done|intros p; counts; lia|set_solver|cbn; lia|set_solver| |set_solver].
    rewrite app_nil_r. intros st' Hin Hok. apply (ca_closing _ Hcalm st'); [|done]. cbn [tasks]. left. set_solver.
  - rewrite app_nil_r. intros e Hl. cbn [state] in Hl. rewrite Hrecv in Hl.
    apply (entry_task (mkConfig s (ts1 ++ Unregister status :: ts2) l)); [by apply He| | | |by apply launch_kept|done|done].
    + intros p. counts. lia.
    + intros p. counts. lia.
    + counts. lia.
  - rewrite app_nil_r. cbn [state log]. rewrite Hrecv. apply Hg.
Qed.

Lemma entry_future c e pool : entry_inv c e -> entry_inv c (with_future e (uuid, pool)).
Proof. intros [[]]. split; try done. split; try done. cbn. intros f [?| ->%list_elem_of_singleton]%elem_of_app; [auto|done]. Qed.

Lemma inv_track s ts1 pool ts2 l :
  inv (mkConfig s (ts1 ++ Track pool :: ts2) l) -> inv (mkConfig (track_future s uuid pool) ((ts1 ++ ts2) ++ []) (l ++ [])).
Proof.
  intros [Hcalm He Hg].
  assert (Hlay : manager (track_future s uuid pool) = manager s) by (unfold track_future; by case_match).
  split.
  - apply (calm_task s _ ts1 (Track pool) ts2); [done|by rewrite Hlay|intros p; counts; lia|set_solver|cbn; lia|set_solver|set_solver|set_solver].
  - intros e. cbn [state]. rewrite !app_nil_r. unfold track_future. destruct (active_recv_entries_ s !! uuid) as [e1|] eqn:Hl; [|congruence].
    rewrite put_lookup. intros [= <-]. apply entry_future.
    apply (entry_task (mkConfig s (ts1 ++ Track pool :: ts2) l)); [by apply He| | | | |done|done].
    + intros p. counts. lia.
    + intros p. counts. lia.
    + counts. lia.
    + intros HL. rewrite <- (app_nil_r (ts1 ++ ts2)). by apply (launch_kept _ (Track pool)).
  - rewrite !app_nil_r. cbn [state log]. unfold track_future. destruct (active_recv_entries_ s !! uuid) eqn:Hl; [by rewrite put_lookup|].
    intros _. by apply Hg.
Qed.

(** A task that closes the receive meets an entry that is being finalized. *)
Lemma closing_entry c e t : entry_inv c e -> t ∈ tasks c -> w_closing t = 1%nat -> reshard_finalizing e = true /\ network_completed e = false.
Proof.
  intros [] Ht%(total_in w_closing) Hw. destruct (reshard_finalizing e).
  - split; [done|]. specialize (ei_closing0 eq_refl). destruct (network_completed e); [lia|done].
  - destruct (ei_running0 eq_refl) as (_ & _ & Hc & _). lia.
Qed.

Lemma report_recv_eq s status un :
  report_recv s uuid status un =
  match active_recv_entries_ s !! uuid with
  | None => s
  | Some e =>
      if ok status && (ok un || is_not_found un) then
        received (put_recv s uuid (with_pools e (started_pool_indices e) (completed_pool_indices e) (h2d_launched_pools e) (reshard_finalizing e) true))
          (req_id e)
      else drop_recv (recv_failed s (req_id e)) uuid
  end.
Proof.
  unfold report_recv. destruct (_ !! uuid); [|done]. fold (is_not_found un). by destruct (ok status), (ok un), (is_not_found un).
Qed.

Lemma entry_reported s s' ts1 status un ts2 l e :
  entry_inv (mkConfig s (ts1 ++ Report status un :: ts2) l) e ->
  entry_inv (mkConfig s' (ts1 ++ ts2) (l ++ [Verdict true]))
    (with_pools e (started_pool_indices e) (completed_pool_indices e) (h2d_launched_pools e) (reshard_finalizing e) true).
Proof.
  intros He. destruct (closing_entry _ e (Report status un) He) as [Hf Hn]; [apply elem_of_app; right; by left|done|].
  destruct He as [[] ????? Hi Hp _ Hc [Hv _]]. split; cbn; try done.
  - intros p. rewrite elem_of_app, list_elem_of_singleton. rewrite ei_log0. cbn. naive_solver.
  - intros p. specialize (ei_launches0 p). counts.
    lia.
  - intros p Hd%Hi. counts. lia.
  - intros p. specialize (Hp p). counts. lia.
  - congruence.
  - intros _. specialize (Hc Hf). rewrite Hn in Hc. counts. lia.
  - rewrite Hn in Hv. split; [counts; lia|]. intros _. apply elem_of_app. right. by left.
Qed.

Lemma inv_report s ts1 status un ts2 l :
  inv (mkConfig s (ts1 ++ Report status un :: ts2) l) ->
  inv (mkConfig (report_recv s uuid status un) ((ts1 ++ ts2) ++ []) (l ++ task_events (Report status un) s)).
Proof.
  intros [Hcalm He Hg].
  assert (Hlay : manager (report_recv s uuid status un) = manager s) by (rewrite report_recv_eq; repeat case_match; done).
  assert (Hin : Report status un ∈ ts1 ++ Report status un :: ts2) by (apply elem_of_app; right; by left).
  assert (Hcalm' : calm (mkConfig (report_recv s uuid status un) ((ts1 ++ ts2) ++ []) (l ++ task_events (Report status un) s))).
  { apply (calm_task s _ ts1 (Report status un) ts2); [done|by rewrite Hlay| |set_solver| | |set_solver|].
    + intros p. cbn [task_events]. case_match; counts; lia.
    + cbn [task_events]. case_match; cbn; lia.
    + cbn [task_events]. case_match; set_solver.
    + cbn [task_events]. case_match; [|by intros ?%elem_of_nil]. intros [= Hv]%list_elem_of_singleton. symmetry in Hv.
      apply andb_prop in Hv as [Hv _]. apply (ca_closing _ Hcalm status); [right; by exists un|done]. }
  split; [done| |]; cbn [state task_events log]; rewrite report_recv_eq.
  all: destruct (active_recv_entries_ s !! uuid) as [e1|] eqn:Hl; [|rewrite ?app_nil_r; by auto; congruence].
  - intros e. destruct (ok status && _); [|cbn; rewrite lookup_delete_eq; congruence].
    cbn [active_recv_entries_ received with_verdicts]. rewrite put_lookup. intros [= <-]. rewrite app_nil_r. by eapply entry_reported, He.
  - destruct (ok status && _); [cbn; by rewrite lookup_insert_eq|]. intros _.
    destruct (closing_entry _ e1 (Report status un) (He e1 Hl) Hin eq_refl) as [_ Hn].
    destruct (ei_verdict _ _ (He e1 Hl)) as [Hv _]. rewrite Hn in Hv. counts. lia.
Qed.

(** The pool of a pending upload is launched and not completed. *)
Lemma pending_entry c e t pool : entry_inv c e -> t ∈ tasks c -> w_pending pool t = 1%nat ->
  pool ∈ h2d_launched_pools e /\ pool ∉ completed_pool_indices e.
Proof.
  intros [] Ht%(total_in (w_pending pool)) Hw.
  split; [destruct (decide (pool ∈ h2d_launched_pools e)) as [|Hn]; [done|]; specialize (ei_idle0 pool (or_introl Hn)); lia|].
  intros Hc. specialize (ei_idle0 pool (or_intror Hc)). lia.
Qed.

Lemma entry_finish_late s s' ts1 pool status ts2 l e :
  entry_inv (mkConfig s (ts1 ++ Finish pool status :: ts2) l) e -> reshard_finalizing e = true ->
  entry_inv (mkConfig s' (ts1 ++ ts2) l) e.
Proof.
  intros [] Hf. split; try done.
  - intros p. specialize (ei_launches0 p). counts. lia.
  - intros p Hp%ei_idle0. counts. lia.
  - intros p. specialize (ei_pending0 p). counts. lia.
  - congruence.
  - intros _. specialize (ei_closing0 Hf). counts. lia.
Qed.

Lemma entry_finish_failed s s' ts1 pool status st ts2 l e :
  entry_inv (mkConfig s (ts1 ++ Finish pool status :: ts2) l) e -> reshard_finalizing e = false ->
  entry_inv (mkConfig s' ((ts1 ++ ts2) ++ [Unregister st]) l)
    (with_pools e (started_pool_indices e) (completed_pool_indices e) (h2d_launched_pools e) true (network_completed e)).
Proof.
  intros [[]] Hf. destruct (ei_running0 Hf) as (_ & _ & Hc & Hn & _). split; cbn; try done.
  - intros p. specialize (ei_launches0 p). counts. lia.
  - intros p Hp%ei_idle0. counts. lia.
  - intros p. specialize (ei_pending0 p). counts. lia.
  - intros _. rewrite Hn. counts. lia.
Qed.

Lemma entry_finish_ok s s' ts1 pool status ts2 l e :
  entry_inv (mkConfig s (ts1 ++ Finish pool status :: ts2) l) e -> reshard_finalizing e = false ->
  let completed := {[pool]} ∪ completed_pool_indices e in
  let finished := bool_decide (completed = expected_pool_indices e) in
  entry_inv (mkConfig s' ((ts1 ++ ts2) ++ (if finished then [Unregister status] else [Launch])) (l ++ [Uploaded pool]))
    (with_pools e (started_pool_indices e) completed (h2d_launched_pools e) finished (network_completed e)).
Proof.
  intros He Hf. destruct (pending_entry _ e (Finish pool status) pool He) as [Hla Hco]; [apply elem_of_app; right; by left|cbn; by rewrite bool_decide_true|].
  destruct He as [[]]. destruct (ei_running0 Hf) as (Hr & _ & Hc & Hn & _). rewrite Hn in *. destruct ei_verdict0 as [Hv _].
  cbn zeta. set (finished := bool_decide _). split; cbn; try done.
  - set_solver.
  - intros p. rewrite elem_of_union, elem_of_singleton, elem_of_app, list_elem_of_singleton, ei_log0. cbn. naive_solver.
  - intros p. specialize (ei_launches0 p). destruct finished; counts; lia.
  - intros p Hp. destruct (decide (p = pool)) as [->|Hne].
    + specialize (Hr pool Hla Hco). destruct finished; counts; rewrite bool_decide_true in Hr by done; lia.
    + assert (Hz : total (w_pending p) (ts1 ++ Finish pool status :: ts2) = 0%nat) by (apply ei_idle0; set_solver).
      destruct finished; counts; lia.
  - intros p. specialize (ei_pending0 p). destruct finished; counts; lia.
  - intros Hfin. rewrite Hfin. apply bool_decide_eq_false in Hfin. split; [|split; [|split; [counts; lia|split; [done|by rewrite <- sp_expected0]]]].
    + intros p Hp Hp'. assert (p ≠ pool /\ p ∉ completed_pool_indices e) as [Hne Hp''] by set_solver. specialize (Hr p Hp Hp'').
      counts. rewrite bool_decide_false in Hr by done. lia.
    + intros _. apply elem_of_app. right. by left.
  - intros Hfin. rewrite Hfin. counts. lia.
  - split; [counts; lia|done].
Qed.

Definition finish_tasks (finished : option bool) (status : Status) : list Task :=
  match finished with None => [] | Some true => [Unregister status] | Some false => if ok status then [Launch] else [] end.

Lemma finish_upload_manager s pool status : manager (finish_upload s uuid pool status).2 = manager s.
Proof. unfold finish_upload. repeat case_match; done. Qed.

(** The verdict a last upload leads to. *)
Lemma finish_closing s pool ts l q e :
  entry_inv (mkConfig s ts l) e -> {[pool]} ∪ completed_pool_indices e = expected_pool_indices e -> q ∈ E ->
  Uploaded q ∈ l ++ [Uploaded pool].
Proof.
  intros [[]] Heq Hq. rewrite elem_of_app, list_elem_of_singleton. rewrite <- sp_expected0, <- Heq in Hq.
  apply elem_of_union in Hq as [->%elem_of_singleton|Hq]; [by right|left]. by apply ei_log0.
Qed.

Lemma calm_finish s ts1 pool status ts2 l :
  inv (mkConfig s (ts1 ++ Finish pool status :: ts2) l) ->
  let r := finish_upload s uuid pool status in
  calm (mkConfig r.2 ((ts1 ++ ts2) ++ finish_tasks r.1 status) (l ++ task_events (Finish pool status) s)).
Proof.
  intros [Hcalm He _]. cbn zeta. apply (calm_task s _ ts1 (Finish pool status) ts2); [done|by rewrite finish_upload_manager| | | | | |].
  - intros p. unfold finish_tasks. cbn [task_events]. repeat case_match; counts; lia.
  - intros p ids. unfold finish_tasks. repeat case_match; set_solver.
  - cbn [task_events]. repeat case_match; cbn; lia.
  - intros p ids. cbn [task_events]. repeat case_match; set_solver.
  - intros st Hin Hok q Hq. unfold finish_upload in Hin. cbn [task_events].
    destruct (active_recv_entries_ s !! uuid) as [e|] eqn:Hl; [|set_solver].
    destruct (reshard_finalizing e) eqn:Hf; [set_solver|]. destruct (ok status) eqn:Hst; cbn [negb fst finish_tasks] in Hin.
    + rewrite Hst in Hin. case_bool_decide as Heq; [|set_solver]. by eapply finish_closing; [apply He| |].
    + assert (st = status) as -> by set_solver. congruence.
  - cbn [task_events]. repeat case_match; set_solver.
Qed.

Lemma inv_finish s ts1 pool status ts2 l :
  inv (mkConfig s (ts1 ++ Finish pool status :: ts2) l) ->
  let r := finish_upload s uuid pool status in
  inv (mkConfig r.2 ((ts1 ++ ts2) ++ finish_tasks r.1 status) (l ++ task_events (Finish pool status) s)).
Proof.
  intros Hinv r. split; [by apply calm_finish| |]; destruct Hinv as [_ He Hg]; subst r; cbn [state log task_events]; unfold finish_upload.
  - intros e'. destruct (active_recv_entries_ s !! uuid) as [e|] eqn:Hl; [|cbn; congruence]. specialize (He e Hl).
    destruct (reshard_finalizing e) eqn:Hf; cbn [fst snd finish_tasks].
    { rewrite Hl, !app_nil_r. intros [= <-]. by eapply entry_finish_late. }
    destruct (ok status) eqn:Hst; cbn [negb fst snd finish_tasks]; rewrite put_lookup; intros [= <-].
    + rewrite Hst. by apply (entry_finish_ok s _ ts1 pool status ts2).
    + rewrite app_nil_r. by apply (entry_finish_failed s _ ts1 pool status status ts2).
  - destruct (active_recv_entries_ s !! uuid) as [e|] eqn:Hl; [|intros _; rewrite app_nil_r; by apply Hg].
    destruct (reshard_finalizing e); cbn [snd]; [congruence|]. destruct (ok status); cbn [negb snd]; by rewrite put_lookup.
Qed.

(** *** Launches *)

Lemma eligible_spec e p : p ∈ eligible e <->
  p ∈ started_pool_indices e /\ p ∉ h2d_launched_pools e /\
  forall q, q ∈ expected_pool_indices e -> order_rank e q < order_rank e p -> q ∈ completed_pool_indices e.
Proof.
  unfold eligible, prerequisites_uploaded. rewrite list_elem_of_In, filter_In, <- list_elem_of_In, elem_of_elements.
  rewrite andb_true_iff, negb_true_iff, bool_decide_eq_false, forallb_forall. setoid_rewrite <- list_elem_of_In.
  setoid_rewrite elem_of_elements. setoid_rewrite orb_true_iff. setoid_rewrite negb_true_iff. setoid_rewrite Z.ltb_ge.
  setoid_rewrite bool_decide_eq_true. split; intros (H1 & H2 & H3); repeat split; try done.
  - intros q Hq Hr. destruct (H3 q Hq); [lia|done].
  - intros q Hq. destruct (decide (order_rank e p <= order_rank e q)); [by left|right]. apply H3; [done|lia].
Qed.

Lemma eligible_NoDup e : NoDup (eligible e).
Proof. apply NoDup_ListNoDup, List.NoDup_filter, NoDup_ListNoDup, NoDup_elements. Qed.

Lemma total_issues (f : Z -> list Z) p ps (w : Z -> Task -> nat) :
  (forall q ids, w p (Issue q ids) = if bool_decide (q = p) then 1%nat else 0%nat) -> NoDup ps ->
  total (w p) ((fun x => Issue x.1 x.2) <$> ((fun pool => (pool, f pool)) <$> ps)) = if bool_decide (p ∈ ps) then 1%nat else 0%nat.
Proof.
  intros Hw. induction 1 as [|q ps Hq _ IH]; [done|]. rewrite !fmap_cons, total_cons, IH, Hw. cbn [fst snd].
  destruct (decide (q = p)) as [->|Hne].
  - rewrite (bool_decide_true (p = p)), (bool_decide_false (p ∈ ps)), bool_decide_true by (done || by left). done.
  - rewrite (bool_decide_false (q = p)) by done. rewrite (bool_decide_ext (p ∈ q :: ps) (p ∈ ps)); [done|]. rewrite elem_of_cons. naive_solver.
Qed.

Definition launched_entry (e : RecvEntry) : RecvEntry :=
  with_pools e (started_pool_indices e) (completed_pool_indices e) (list_to_set (eligible e) ∪ h2d_launched_pools e)
    (reshard_finalizing e) (network_completed e).
Definition issues (e : RecvEntry) : list Task := (fun x => Issue x.1 x.2) <$> ((fun pool => (pool, upload_ids e pool)) <$> eligible e).

Lemma eligible_launched e : eligible (launched_entry e) = [].
Proof.
  apply elem_of_nil_inv. intros p (H1 & H2 & H3)%eligible_spec. apply H2. cbn. apply elem_of_union. left.
  apply elem_of_list_to_set, eligible_spec. split; [done|]. split; [set_solver|done].
Qed.

Lemma issues_pending e p : total (w_pending p) (issues e) = if bool_decide (p ∈ eligible e) then 1%nat else 0%nat.
Proof. apply (total_issues (upload_ids e) p (eligible e) w_pending); [done|apply eligible_NoDup]. Qed.
Lemma issues_issue e p : total (w_issue p) (issues e) = if bool_decide (p ∈ eligible e) then 1%nat else 0%nat.
Proof. apply (total_issues (upload_ids e) p (eligible e) w_issue); [done|apply eligible_NoDup]. Qed.
Lemma issues_closing e : total w_closing (issues e) = 0%nat.
Proof. apply total_zero. intros x Hx. unfold issues in Hx. by apply list_elem_of_fmap in Hx as (? & -> & _). Qed.

Lemma not_eligible e p : p ∈ h2d_launched_pools e -> p ∉ eligible e.
Proof. by intros H (_ & Hn & _)%eligible_spec. Qed.

Lemma entry_launch s s' ts1 ts2 l e :
  entry_inv (mkConfig s (ts1 ++ Launch :: ts2) l) e -> reshard_finalizing e = false ->
  entry_inv (mkConfig s' ((ts1 ++ ts2) ++ issues e) l) (launched_entry e).
Proof.
  intros [[]] Hf. destruct (ei_running0 Hf) as (Hr & _ & Hc & Hn). split; try done.
  - cbn. apply union_subseteq. split; [|done]. intros p Hp%elem_of_list_to_set%eligible_spec. apply Hp.
  - cbn. set_solver.
  - intros p. specialize (ei_launches0 p). cbn [launched_entry with_pools h2d_launched_pools]. counts. rewrite issues_issue.
    rewrite (bool_decide_ext (p ∈ list_to_set (eligible e) ∪ h2d_launched_pools e) (p ∈ eligible e \/ p ∈ h2d_launched_pools e)) by set_solver.
    pose proof (not_eligible e p). repeat case_bool_decide; try tauto; lia.
  - intros p Hp. cbn in Hp. assert (Hne : p ∉ eligible e) by (destruct Hp; [set_solver|]; apply not_eligible; set_solver).
    assert (Hz : total (w_pending p) (ts1 ++ Launch :: ts2) = 0%nat) by (apply ei_idle0; set_solver).
    counts. rewrite issues_pending, bool_decide_false by done. lia.
  - intros p. specialize (ei_pending0 p). counts. rewrite issues_pending. case_bool_decide as He; [|lia].
    assert (Hz : total (w_pending p) (ts1 ++ Launch :: ts2) = 0%nat).
    { apply ei_idle0. left. intros Hl. by apply (not_eligible e p). }
    counts. lia.
  - intros _. split; [|rewrite eligible_launched; split; [done|split; [|done]]].
    + intros p Hp Hco. cbn in Hp, Hco. counts. rewrite issues_pending. case_bool_decide as He.
      * assert (Hz : total (w_pending p) (ts1 ++ Launch :: ts2) = 0%nat).
        { apply ei_idle0. left. intros Hl. by apply (not_eligible e p). }
        counts. lia.
      * assert (Hz : p ∈ h2d_launched_pools e) by set_solver. specialize (Hr p Hz Hco). counts. lia.
    + counts. rewrite issues_closing. lia.
  - cbn. congruence.
Qed.

Lemma same_rank e p : same_plan e -> order_rank e p = order_rank e0 p.
Proof. intros []. unfold order_rank. by rewrite sp_ranks0. Qed.

Lemma calm_launch s s' ts1 ts2 l e :
  calm (mkConfig s (ts1 ++ Launch :: ts2) l) -> entry_inv (mkConfig s (ts1 ++ Launch :: ts2) l) e ->
  manager s' = manager s -> calm (mkConfig s' ((ts1 ++ ts2) ++ issues e) l).
Proof.
  intros [] He Hm. split; cbn [state tasks log]; try done; [by rewrite Hm| | |].
  - intros p. pose proof (ei_launches _ _ He p) as Hl. specialize (ca_launches0 p). counts. rewrite issues_issue.
    destruct (decide (p ∈ eligible e)) as [Hel|Hel]; [|rewrite (bool_decide_false (p ∈ eligible e)) by done; lia].
    rewrite bool_decide_false in Hl by (intros Hx; by apply (not_eligible e p)). rewrite bool_decide_true by done. lia.
  - intros p ids [Hin|Hin]%(elem_of_rest _ Launch); [by apply ca_issue0|].
    unfold issues in Hin. rewrite <- list_fmap_compose in Hin. apply list_elem_of_fmap in Hin as (q & [= -> ->] & Hq).
    destruct He as [Hp Hst _ _ Hlog _ _ _ _ _ _]. apply eligible_spec in Hq as (Hin & _ & Hq). split; [by apply Hst|split].
    + destruct Hp. unfold upload_ids. by rewrite sp_chip0, sp_dst0.
    + intros r Hr Hlt. apply Hlog, Hq; [by rewrite (sp_expected _ Hp)|by rewrite !(same_rank e)].
  - intros st Hin Hok. apply (ca_closing0 st); [|done].
    destruct Hin as [[Hin|Hin]%(elem_of_rest _ Launch)|[un [Hin|Hin]%(elem_of_rest _ Launch)]]; [by left| |by right; exists un|].
    all: unfold issues in Hin; by apply list_elem_of_fmap in Hin as (? & ? & _).
Qed.

Lemma inv_launch s ts1 ts2 l :
  inv (mkConfig s (ts1 ++ Launch :: ts2) l) ->
  let r := launch_pools s uuid in
  inv (mkConfig r.2 ((ts1 ++ ts2) ++ ((fun p => Issue p.1 p.2) <$> r.1)) (l ++ [])).
Proof.
  intros [Hcalm He Hg] r. subst r. rewrite (app_nil_r l). unfold launch_pools.
  destruct (active_recv_entries_ s !! uuid) as [e|] eqn:Hl; [specialize (He e Hl); destruct (reshard_finalizing e) eqn:Hf|]; cbn [fst snd].
  - split; [|intros e' Hl'; cbn in Hl'; replace e' with e by congruence|done].
    + rewrite <- (app_nil_r l). apply (calm_task s s ts1 Launch ts2); done || set_solver || (cbn; lia).
    + destruct He as [[]]. rewrite app_nil_r. split; try done; [| | |congruence|].
      * intros p. specialize (ei_launches0 p). counts. lia.
      * intros p Hp%ei_idle0. counts. lia.
      * intros p. specialize (ei_pending0 p). counts. lia.
      * intros H. specialize (ei_closing0 H). counts. lia.
  - split; [by apply (calm_launch s)| |cbn; by rewrite lookup_insert_eq].
    intros e'. cbn [state]. rewrite put_lookup. intros [= <-]. rewrite <- Hf. by apply (entry_launch s).
  - split; [|cbn; congruence|done].
    rewrite <- (app_nil_r l). apply (calm_task s s ts1 Launch ts2); done || set_solver || (cbn; lia).
Qed.

(** *** Arrivals, polls and the rest of the program *)

Lemma entry_received s s' ts l e pool :
  entry_inv (mkConfig s ts l) e -> pool ∈ E -> entry_inv (mkConfig s' (ts ++ [Launch]) l) (mark_started e pool).
Proof.
  intros [[]] Hp. split; cbn; try done.
  - set_solver.
  - set_solver.
  - intros p. specialize (ei_launches0 p). counts. lia.
  - intros p Hi%ei_idle0. counts. lia.
  - intros p. specialize (ei_pending0 p). counts. lia.
  - intros Hf. destruct (ei_running0 Hf) as (H1 & _ & H3 & H4). split; [|split; [set_solver|split; [counts; lia|done]]].
    intros p Hl Hc. specialize (H1 p Hl Hc). counts. lia.
  - intros Hf. specialize (ei_closing0 Hf). counts. lia.
Qed.

Lemma inv_receive s ts l pool st s' new :
  inv (mkConfig s ts l) -> OnPoolReceived s pool uuid = (st, s', new) -> inv (mkConfig s' (ts ++ new) l).
Proof.
  unfold OnPoolReceived, pool_received. intros Hinv. destruct (active_recv_entries_ s !! uuid) as [e|] eqn:Hl;
    [|intros [= <- <- <-]; by rewrite app_nil_r].
  destruct (negb _); [intros [= <- <- <-]; by rewrite app_nil_r|].
  destruct (negb (bool_decide _)) eqn:Hex; [intros [= <- <- <-]; by rewrite app_nil_r|].
  destruct (bool_decide (pool ∈ started_pool_indices e)); [intros [= <- <- <-]; by rewrite app_nil_r|]. cbn. intros [= <- <- <-].
  apply negb_false_iff, bool_decide_eq_true in Hex. destruct Hinv as [[] He Hg].
  rewrite (sp_expected _ (ei_plan _ _ (He e Hl))) in Hex. split; [|cbn; rewrite lookup_insert_eq|cbn; by rewrite lookup_insert_eq].
  - split; cbn [state tasks log]; try done.
    + intros p. specialize (ca_launches0 p). counts. lia.
    + intros p ids Hin. apply ca_issue0. set_solver.
    + intros status Hin. apply ca_closing0. cbn [tasks]. set_solver.
  - intros e' [= <-]. apply (entry_received s); [by apply He|done].
Qed.

Definition poll_keeps (now : Z) (ready : Z * Z -> bool) (layers : Z) (e : RecvEntry) : bool :=
  negb ((network_completed e || (u64 (num_completed_layers e) =? layers)) && forallb ready (h2d_futures e)) && negb (deadline e <=? now).

Lemma ReleaseSlotLocked_recv s slot :
  active_recv_entries_ (ReleaseSlotLocked s slot) = active_recv_entries_ s /\ manager (ReleaseSlotLocked s slot) = manager s.
Proof. unfold ReleaseSlotLocked. by case_match. Qed.

Lemma expire_fold_recv {A} (f : State * list Z -> A -> State * list Z) acc kvs :
  (forall acc kv, active_recv_entries_ (f acc kv).1 = active_recv_entries_ acc.1 /\ manager (f acc kv).1 = manager acc.1) ->
  active_recv_entries_ (foldl f acc kvs).1 = active_recv_entries_ acc.1 /\ manager (foldl f acc kvs).1 = manager acc.1.
Proof.
  intros Hf. revert acc. induction kvs as [|kv kvs IH]; intros acc; [done|]. cbn [foldl].
  destruct (IH (f acc kv)) as [-> ->]. apply Hf.
Qed.

Lemma expire_pull_recv now acc kv :
  active_recv_entries_ (expire_pull now acc kv).1 = active_recv_entries_ acc.1 /\ manager (expire_pull now acc kv).1 = manager acc.1.
Proof.
  destruct acc as [s t]. unfold expire_pull, ReleaseEntrySlotLocked, ReleaseSlotLocked. repeat case_match; by simplify_eq.
Qed.

Lemma expire_send_recv now acc kv :
  active_recv_entries_ (expire_send now acc kv).1 = active_recv_entries_ acc.1 /\ manager (expire_send now acc kv).1 = manager acc.1.
Proof. destruct acc as [s t]. unfold expire_send. by case_match. Qed.

Lemma poll_recv_one now ready acc kv :
  manager (poll_recv now ready acc kv).1 = manager acc.1 /\
  active_recv_entries_ (poll_recv now ready acc kv).1 =
    if poll_keeps now ready (Manager.num_layers_ (manager acc.1)) kv.2 then active_recv_entries_ acc.1
    else delete kv.1 (active_recv_entries_ acc.1).
Proof.
  destruct acc as [s t], kv as [u e]. unfold poll_recv, poll_keeps. cbn [fst snd]. destruct (_ && _); cbn [negb andb].
  - destruct (ReleaseSlotLocked_recv (received s (req_id e)) (slot_idx e)) as [H1 H2]. cbn. by rewrite H1, H2.
  - destruct (_ <=? _); cbn [negb]; [|done]. destruct (ReleaseSlotLocked_recv (recv_failed s (req_id e)) (slot_idx e)) as [H1 H2].
    cbn. by rewrite H1, H2.
Qed.

Lemma poll_fold now ready kvs acc u :
  let r := (foldl (poll_recv now ready) acc kvs).1 in
  manager r = manager acc.1 /\
  ((exists e, (u, e) ∈ kvs /\ poll_keeps now ready (Manager.num_layers_ (manager acc.1)) e = false) /\ active_recv_entries_ r !! u = None \/
   (forall e, (u, e) ∈ kvs -> poll_keeps now ready (Manager.num_layers_ (manager acc.1)) e = true) /\
   active_recv_entries_ r !! u = active_recv_entries_ acc.1 !! u).
Proof.
  revert acc. induction kvs as [|[v e] kvs IH]; intros acc; [split; [done|]; right; split; [|done]; by intros e He%elem_of_nil|].
  cbn [foldl]. destruct (poll_recv_one now ready acc (v, e)) as [Hm Hr]. destruct (IH (poll_recv now ready acc (v, e))) as [IHm IHr].
  rewrite Hm in IHm, IHr. cbn zeta. split; [done|]. cbn [fst snd] in Hr.
  destruct IHr as [((e' & Hin & Hk) & ->)|(Hall & Hlook)]; [left; split; [|done]; exists e'; split; [by right|done]|].
  destruct (poll_keeps now ready (Manager.num_layers_ (manager acc.1)) e) eqn:Hk.
  - right. split; [|by rewrite Hlook, Hr]. intros e' [[= -> ->]|Hin]%elem_of_cons; [done|by apply Hall].
  - destruct (decide (u = v)) as [->|Hne].
    + left. split; [exists e; split; [by left|done]|]. by rewrite Hlook, Hr, lookup_delete_eq.
    + right. split; [intros e' [[= -> ->]|Hin]%elem_of_cons; [done|by apply Hall]|]. by rewrite Hlook, Hr, lookup_delete_ne.
Qed.

Lemma unregister_fold_recv us s :
  active_recv_entries_ (foldl (fun s u => (unregister_plan s u).2) s us) = active_recv_entries_ s /\
  Manager.num_layers_ (manager (foldl (fun s u => (unregister_plan s u).2) s us)) = Manager.num_layers_ (manager s).
Proof.
  revert s. induction us as [|u us IH]; intros s; [done|]. cbn [foldl]. destruct (IH (unregister_plan s u).2) as [-> ->].
  unfold unregister_plan, Manager.UnregisterActivePlan. by destruct (Manager.active_plans_ _ !! _).
Qed.

(** What a poll does to the entry of the receive. *)
Lemma CompleteReadRaw_recv now ready s answer s' :
  CompleteReadRaw now ready s = (answer, s') ->
  Manager.num_layers_ (manager s') = Manager.num_layers_ (manager s) /\
  active_recv_entries_ s' !! uuid =
    (active_recv_entries_ s !! uuid ≫= fun e => if poll_keeps now ready (Manager.num_layers_ (manager s)) e then Some e else None).
Proof.
  unfold CompleteReadRaw. set (acc1 := foldl (expire_pull now) _ _). set (acc2 := foldl (expire_send now) _ _).
  assert (H2 : active_recv_entries_ acc2.1 = active_recv_entries_ s /\ manager acc2.1 = manager s).
  { destruct (expire_fold_recv (expire_send now) acc1 (map_to_list (active_pool_reshard_sends_ acc1.1)) (expire_send_recv now)) as [H1 H1'].
    destruct (expire_fold_recv (expire_pull now) (s, []) (map_to_list (send_entries_ s)) (expire_pull_recv now)) as [H0 H0'].
    subst acc2. rewrite H1, H1'. split; [apply H0|apply H0']. }
  destruct H2 as [Hr Hm]. pose proof (poll_fold now ready (map_to_list (active_recv_entries_ acc2.1)) acc2 uuid) as Hp. cbn zeta in Hp.
  destruct (foldl (poll_recv now ready) acc2 _) as [s3 timed_out]. cbn [fst] in Hp. destruct Hp as [Hm3 Hp].
  destruct (unregister_fold_recv timed_out (with_verdicts s3 ∅ ∅ ∅)) as [Hu1 Hu2]. intros [= _ <-]. rewrite Hu1, Hu2. cbn [manager with_verdicts active_recv_entries_].
  rewrite Hm3, Hm. split; [done|]. rewrite Hm in Hp. setoid_rewrite elem_of_map_to_list in Hp. rewrite Hr in Hp.
  destruct (active_recv_entries_ s !! uuid) as [e|]; cbn [mbind option_bind].
  - destruct Hp as [((e' & [= <-] & ->) & ->)|(Hall & ->)]; [done|]. by rewrite (Hall e eq_refl).
  - by destruct Hp as [((e' & ? & _) & _)|(_ & ->)].
Qed.

Lemma calm_quiet s s' ts l ev :
  calm (mkConfig s ts l) -> Manager.num_layers_ (manager s') = Manager.num_layers_ (manager s) ->
  ev = [] \/ ev = [Verdict false] -> calm (mkConfig s' ts (l ++ ev)).
Proof.
  intros [] Hlay Hev. assert (Hup : forall q, Uploaded q ∈ l -> Uploaded q ∈ l ++ ev) by (intros; apply elem_of_app; by left).
  split; cbn [state tasks log] in *; [by rewrite Hlay| | | | |].
  - intros p. specialize (ca_launches0 p). destruct Hev as [-> | ->]; counts; lia.
  - intros p ids Hin. by apply waits_mono, ca_issue0.
  - apply ordered_snoc; [done|destruct Hev as [-> | ->]; cbn; lia|destruct Hev as [-> | ->]; set_solver|destruct Hev as [-> | ->]; set_solver].
  - eauto.
  - intros Hv q Hq. apply Hup, ca_good0; [|done]. destruct Hev as [-> | ->]; set_solver.
Qed.

(** Once a receive is reported no copy of it is in flight. *)
Lemma reported_idle s ts l e p :
  calm (mkConfig s ts l) -> entry_inv (mkConfig s ts l) e -> network_completed e = true -> Upload p ∉ ts.
Proof.
  intros Hcalm [[]] Hn Hin%(total_in (w_pending p)). destruct ei_verdict0 as [_ Hv]. specialize (ca_good _ Hcalm (Hv Hn)) as Hgood.
  assert (Hz : total (w_pending p) ts = 0%nat).
  { apply ei_idle0. destruct (decide (p ∈ h2d_launched_pools e)); [right|by left]. apply ei_log0, Hgood. set_solver. }
  cbn in Hin. rewrite bool_decide_true in Hin by done. lia.
Qed.

Lemma recv_inv_poll s ts l now ready answer s' :
  inv (mkConfig s ts l) -> (forall f, f.1 = uuid -> Upload f.2 ∉ ts -> ready f = true) ->
  CompleteReadRaw now ready s = (answer, s') -> inv (mkConfig s' ts (l ++ poll_events now ready s)).
Proof.
  intros [Hcalm He Hg] Hready (Hlay & Hlook)%CompleteReadRaw_recv. unfold poll_events. cbn [state] in *.
  destruct (active_recv_entries_ s !! uuid) as [e|] eqn:Hl; cbn [mbind option_bind] in Hlook.
  2: { split; [apply (calm_quiet s); [done|done|by left]|cbn; congruence|]. intros _. rewrite app_nil_r. by apply Hg. }
  specialize (He e eq_refl). pose proof He as [[] _ _ _ _ _ _ _ _ _ [Hv _]]. pose proof (ca_layers _ Hcalm) as Hpos. cbn [state] in Hpos.
  assert (Hz : (u64 (num_completed_layers e) =? Manager.num_layers_ (manager s)) = false) by (rewrite sp_layers0; apply Z.eqb_neq; change (u64 0) with 0; lia).
  unfold poll_keeps in Hlook. rewrite Hz, orb_false_r in *. destruct (network_completed e) eqn:Hn.
  - assert (Hrd : forallb ready (h2d_futures e) = true).
    { apply forallb_forall. intros f Hf%list_elem_of_In. apply Hready; [by apply sp_futures0|]. by eapply reported_idle. }
    rewrite Hrd in *. cbn in Hlook |- *. split; [apply (calm_quiet s); [done|done|by left]|cbn; congruence|]. intros _. by rewrite app_nil_r.
  - cbn [andb negb] in *. destruct (deadline e <=? now); cbn [negb] in Hlook.
    + split; [apply (calm_quiet s); [done|done|by right]|cbn; congruence|]. intros _. counts. lia.
    + split; [apply (calm_quiet s); [done|done|by left]| |cbn; congruence]. intros e' Hl'. cbn in Hl'.
      replace e' with e by congruence. rewrite app_nil_r. by apply (entry_task (mkConfig s ts l)).
Qed.

Lemma inv_other s s' ts l :
  inv (mkConfig s ts l) -> active_recv_entries_ s' !! uuid = active_recv_entries_ s !! uuid ->
  Manager.num_layers_ (manager s') = Manager.num_layers_ (manager s) -> inv (mkConfig s' ts l).
Proof.
  intros [Hcalm He Hg] Hl Hlay. split.
  - rewrite <- (app_nil_r l). apply (calm_quiet s); [done|done|by left].
  - intros e He'. cbn [state] in He'. rewrite Hl in He'. by apply (entry_task (mkConfig s ts l)); [apply He|..].
  - cbn [state]. rewrite Hl. apply Hg.
Qed.

Lemma inv_task outcome c c' : inv c -> task_step outcome c c' -> inv c'.
Proof.
  intros Hinv Hs. destruct Hs as [s ts1 t ts2 l s' new Hrun]. destruct t as [|pool ids|pool|pool|pool status|status|status un]; cbn [run_task task_events] in *.
  - pose proof (inv_launch _ _ _ _ Hinv) as H. destruct (launch_pools s uuid). by simplify_eq.
  - destruct (ok outcome); simplify_eq; eapply inv_issue; eauto.
  - simplify_eq. by apply inv_upload.
  - simplify_eq. by apply inv_track.
  - pose proof (inv_finish _ _ _ _ _ _ Hinv) as H. cbn zeta in H. destruct (finish_upload s uuid pool status). by simplify_eq.
  - destruct (unregister_plan s uuid) eqn:Hu. simplify_eq. by eapply inv_unregister.
  - simplify_eq. by apply inv_report.
Qed.

Lemma inv_step req a c c' : inv c -> step req a c c' -> inv c'.
Proof.
  intros Hinv Hs. destruct Hs as [outcome ? ? Ht|? ? ? ? ? ? ? Hr|? ? ? ? ? ? ? ? ? ? _ Hp|? ? ? ? ? ? ?].
  - by eapply inv_task.
  - by eapply inv_receive.
  - by eapply recv_inv_poll.
  - by eapply inv_other.
Qed.

(** *** The start *)

(** An entry as a receiver arms it. *)
Record fresh : Prop := {
  fr_pool : is_pool_reshard e0 = true;
  fr_empty : started_pool_indices e0 = ∅ /\ completed_pool_indices e0 = ∅ /\ h2d_launched_pools e0 = ∅;
  fr_flags : reshard_finalizing e0 = false /\ network_completed e0 = false;
  fr_layers : num_completed_layers e0 = 0;
  fr_futures : h2d_futures e0 = [];
  fr_expected : E ≠ ∅
}.

Lemma recv_inv_start s :
  fresh -> active_recv_entries_ s !! uuid = Some e0 -> 0 < Manager.num_layers_ (manager s) -> inv (mkConfig s [] []).
Proof.
  intros [Hp (Hs & Hc & Hl) [Hf Hn] Hy Hu He] Hlook Hpos. split; [|cbn; rewrite Hlook|cbn; congruence].
  - split; unfold launches; cbn; try done; set_solver.
  - intros e [= <-]. split; unfold launches; cbn; rewrite ?Hs, ?Hc, ?Hl, ?Hn, ?Hf; try done; try set_solver.
    + split; try done. rewrite Hu. set_solver.
    + intros _. split; [set_solver|]. split; [|done]. intros Hel. destruct (eligible e0) as [|p ?] eqn:Heq; [done|].
      assert (Hin : p ∈ eligible e0) by (rewrite Heq; by left). apply eligible_spec in Hin. set_solver.
Qed.

(** *** What the caller is told *)

Lemma verdict_once c : inv c -> (total w_verdict (log c) <= 1)%nat.
Proof.
  intros [_ He Hg]. destruct (active_recv_entries_ (state c) !! uuid) as [e|] eqn:Hl; [|rewrite Hg; [lia|done]].
  destruct (ei_verdict _ _ (He e eq_refl)) as [-> _]. destruct (network_completed e); lia.
Qed.

Definition mentions (req : string) (X : gset string) : nat := if bool_decide (req ∈ X) then 1 else 0.
Definition w_good (e : Event) : nat := match e with Verdict true => 1 | _ => 0 end.
Definition w_bad (e : Event) : nat := match e with Verdict false => 1 | _ => 0 end.
Lemma total_verdict l : total w_verdict l = (total w_good l + total w_bad l)%nat.
Proof. induction l as [|[| |[]] l IH]; [done|..]; rewrite !total_cons, IH; cbn; lia. Qed.
Lemma total_good l : Verdict true ∈ l <-> total w_good l ≠ 0%nat.
Proof.
  split; [by intros H%(total_in w_good); cbn in *; lia|]. induction l as [|[| |[]] l IH]; [done|rewrite total_cons; cbn; intros H; right; auto..| |].
  - intros _. by left.
  - rewrite total_cons. cbn. intros H. right. auto.
Qed.

(** The sets and the answers mention the request once per verdict, on the side of the
    verdict; a receive that is done is in the set until it is answered. *)
Record told (c : Config) (answers : list Answer) : Prop := {
  to_done : (total (fun a => mentions (req_id e0) a.1) answers + mentions (req_id e0) (done_recving_ (state c)) = total w_good (log c))%nat;
  to_failed : (total (fun a => mentions (req_id e0) a.2) answers + mentions (req_id e0) (failed_recving_ (state c)) = total w_bad (log c))%nat;
  to_kept e : active_recv_entries_ (state c) !! uuid = Some e -> network_completed e = true -> req_id e0 ∈ done_recving_ (state c)
}.

Lemma mentions_iff req X Y : (req ∈ X <-> req ∈ Y) -> mentions req X = mentions req Y.
Proof. intros H. unfold mentions. by rewrite (bool_decide_ext _ _ H). Qed.

(** Steps that come to no verdict. *)
Lemma told_quiet s s' ts ts' l ev answers :
  told (mkConfig s ts l) answers -> unsaid (req_id e0) s s' -> total w_verdict ev = 0%nat ->
  (forall e', active_recv_entries_ s' !! uuid = Some e' -> network_completed e' = true ->
     exists e, active_recv_entries_ s !! uuid = Some e /\ network_completed e = true) ->
  told (mkConfig s' ts' (l ++ ev)) (answers ++ []).
Proof.
  intros [H1 H2 H3] [Hd Hf] Hev Hkeep. rewrite total_verdict in Hev. rewrite app_nil_r. split; cbn [state log] in *.
  - rewrite total_app, (mentions_iff _ _ _ Hd). lia.
  - rewrite total_app, (mentions_iff _ _ _ Hf). lia.
  - intros e' He' Hn. destruct (Hkeep e' He' Hn) as (e & He & Hn'). apply Hd. by eapply H3.
Qed.

Lemma run_task_quiet outcome t s s' new : run_task uuid outcome t s = (s', new) -> (forall st un, t ≠ Report st un) ->
  unsaid (req_id e0) s s' /\ total w_verdict (task_events t s) = 0%nat /\
  (forall e', active_recv_entries_ s' !! uuid = Some e' -> network_completed e' = true ->
     exists e, active_recv_entries_ s !! uuid = Some e /\ network_completed e = true).
Proof.
  intros Hrun Ht. split; [|split].
  - destruct t as [|pool ids|pool|pool|pool status|status|status un]; cbn [run_task] in Hrun; [..|by destruct (Ht status un)].
    + unfold launch_pools in Hrun. by repeat case_match; simplify_eq.
    + by destruct (ok outcome); simplify_eq.
    + by simplify_eq.
    + simplify_eq. unfold track_future. by case_match.
    + unfold finish_upload in Hrun. by repeat case_match; simplify_eq.
    + unfold unregister_plan in Hrun. by repeat case_match; simplify_eq.
  - destruct t; cbn; repeat case_match; try done. by edestruct Ht.
  - intros e' He' Hn. destruct t as [|pool ids|pool|pool|pool status|status|status un]; cbn [run_task] in Hrun; [..|by destruct (Ht status un)].
    + unfold launch_pools in Hrun. destruct (active_recv_entries_ s !! uuid) as [e|] eqn:Hl; [|simplify_eq; congruence].
      exists e. split; [done|]. destruct (reshard_finalizing e); injection Hrun as <- <-; [congruence|]. rewrite put_lookup in He'. injection He' as <-. exact Hn.
    + destruct (ok outcome); simplify_eq; eauto.
    + simplify_eq; eauto.
    + injection Hrun as <- <-. unfold track_future in He'. destruct (active_recv_entries_ s !! uuid) as [e|] eqn:Hl; [|congruence].
      rewrite put_lookup in He'. injection He' as <-. by exists e.
    + destruct (finish_upload s uuid pool status) as [fin s1] eqn:Hf. injection Hrun as <- <-. unfold finish_upload in Hf.
      destruct (active_recv_entries_ s !! uuid) as [e|] eqn:Hl; [|congruence].
      exists e. split; [done|]. destruct (reshard_finalizing e); [congruence|].
      destruct (negb _); injection Hf as <- <-; rewrite put_lookup in He'; injection He' as <-; exact Hn.
    + destruct (unregister_plan s uuid) as [st s1] eqn:Hu. simplify_eq. apply unregister_lookup in Hu as (Hr & _). rewrite Hr in He'. eauto.
Qed.

Lemma mentions_add req X : mentions req ({[req]} ∪ X) = 1%nat.
Proof. unfold mentions. by rewrite bool_decide_true by set_solver. Qed.

Lemma told_report s ts1 status un ts2 l answers :
  inv (mkConfig s (ts1 ++ Report status un :: ts2) l) -> told (mkConfig s (ts1 ++ Report status un :: ts2) l) answers ->
  told (mkConfig (report_recv s uuid status un) ((ts1 ++ ts2) ++ []) (l ++ task_events (Report status un) s)) (answers ++ []).
Proof.
  intros Hinv Htold. rewrite report_recv_eq. cbn [task_events]. destruct (active_recv_entries_ s !! uuid) as [e|] eqn:Hl.
  2: { eapply told_quiet; [exact Htold|done|done|]. cbn. congruence. }
  pose proof (in_entry _ Hinv e Hl) as He. destruct (closing_entry _ e (Report status un) He) as [_ Hn]; [apply elem_of_app; right; by left|done|].
  destruct (ei_verdict _ _ He) as [Hv _]. rewrite Hn, total_verdict in Hv. cbn [log] in Hv. pose proof (sp_req _ (ei_plan _ _ He)) as Hreq.
  destruct Htold as [H1 H2 H3]. rewrite app_nil_r. cbn [state log] in *. destruct (_ && _); split; cbn [state log].
  - rewrite !total_app, ?total_nil. cbn [received with_verdicts done_recving_]. rewrite Hreq, mentions_add. cbn [total fmap list_fmap list_sum foldr w_good].
    change (total w_good [Verdict true]) with 1%nat. lia.
  - rewrite !total_app, ?total_nil. cbn [received with_verdicts failed_recving_ put_recv with_recvs]. change (total w_bad [Verdict true]) with 0%nat. lia.
  - intros _ _ _. cbn. rewrite Hreq. set_solver.
  - rewrite !total_app, ?total_nil. cbn [drop_recv recv_failed with_verdicts with_recvs done_recving_]. change (total w_good [Verdict false]) with 0%nat. lia.
  - rewrite !total_app, ?total_nil. cbn [drop_recv recv_failed with_verdicts with_recvs failed_recving_]. rewrite Hreq, mentions_add. change (total w_bad [Verdict false]) with 1%nat. lia.
  - intros e'. cbn. by rewrite lookup_delete_eq.
Qed.

(** What a poll puts in its answer. *)
Definition poll_done (now : Z) (ready : Z * Z -> bool) (layers : Z) (e : RecvEntry) : bool :=
  (network_completed e || (u64 (num_completed_layers e) =? layers)) && forallb ready (h2d_futures e).
Definition poll_late (now : Z) (ready : Z * Z -> bool) (layers : Z) (e : RecvEntry) : bool :=
  negb (poll_done now ready layers e) && (deadline e <=? now).

Lemma ReleaseSlotLocked_sets s slot :
  done_recving_ (ReleaseSlotLocked s slot) = done_recving_ s /\ failed_recving_ (ReleaseSlotLocked s slot) = failed_recving_ s.
Proof. unfold ReleaseSlotLocked. by case_match. Qed.

Lemma some_cons {A B} (v : A) (e : B) kvs (P : B -> Prop) :
  (exists v' e', (v', e') ∈ (v, e) :: kvs /\ P e') <-> P e \/ exists v' e', (v', e') ∈ kvs /\ P e'.
Proof.
  split.
  - intros (v' & e' & [[= -> ->]|Hin]%elem_of_cons & HP); [by left|right; by exists v', e'].
  - intros [HP|(v' & e' & Hin & HP)]; [exists v, e; split; [by left|done]|exists v', e'; split; [by right|done]].
Qed.

Lemma poll_fold_sets now ready req kvs acc :
  let r := (foldl (poll_recv now ready) acc kvs).1 in
  let layers := Manager.num_layers_ (manager acc.1) in
  (req ∈ done_recving_ r <-> req ∈ done_recving_ acc.1 \/ exists v e, (v, e) ∈ kvs /\ req_id e = req /\ poll_done now ready layers e = true) /\
  (req ∈ failed_recving_ r <-> req ∈ failed_recving_ acc.1 \/ exists v e, (v, e) ∈ kvs /\ req_id e = req /\ poll_late now ready layers e = true).
Proof.
  revert acc. induction kvs as [|[v e] kvs IH]; intros acc; [cbn; setoid_rewrite elem_of_nil; naive_solver|].
  cbn [foldl]. destruct (poll_recv_one now ready acc (v, e)) as [Hm _]. destruct (IH (poll_recv now ready acc (v, e))) as [H1 H2].
  cbv zeta. rewrite H1, H2, Hm, !some_cons. clear IH H1 H2 Hm. unfold poll_late. set (layers := Manager.num_layers_ (manager acc.1)).
  assert (Hs : done_recving_ (poll_recv now ready acc (v, e)).1 = (if poll_done now ready layers e then {[req_id e]} ∪ done_recving_ acc.1 else done_recving_ acc.1) /\
    failed_recving_ (poll_recv now ready acc (v, e)).1 =
      (if negb (poll_done now ready layers e) && (deadline e <=? now) then {[req_id e]} ∪ failed_recving_ acc.1 else failed_recving_ acc.1)).
  { destruct acc as [s t]. unfold poll_recv, poll_done, layers. cbn [fst]. destruct (_ && forallb _ _); cbn [negb andb].
    - destruct (ReleaseSlotLocked_sets (received s (req_id e)) (slot_idx e)) as [E1 E2]. cbn [fst drop_recv with_recvs done_recving_ failed_recving_]. by rewrite E1, E2.
    - destruct (_ <=? _); [|done]. destruct (ReleaseSlotLocked_sets (recv_failed s (req_id e)) (slot_idx e)) as [E1 E2]. cbn [fst drop_recv with_recvs done_recving_ failed_recving_]. by rewrite E1, E2. }
  destruct Hs as [-> ->]. split.
  - destruct (poll_done now ready layers e); [rewrite elem_of_union, elem_of_singleton|]; (split; [intuition congruence|]); intros [?|[[? ?]|?]]; auto; done.
  - destruct (negb _ && _); [rewrite elem_of_union, elem_of_singleton|]; (split; [intuition congruence|]); intros [?|[[? ?]|?]]; auto; done.
Qed.

Lemma expire_pull_sets now acc kv :
  done_recving_ (expire_pull now acc kv).1 = done_recving_ acc.1 /\ failed_recving_ (expire_pull now acc kv).1 = failed_recving_ acc.1 /\
  active_pool_reshard_sends_ (expire_pull now acc kv).1 = active_pool_reshard_sends_ acc.1.
Proof. destruct acc as [s t]. unfold expire_pull, ReleaseEntrySlotLocked, ReleaseSlotLocked. repeat case_match; by simplify_eq. Qed.
Lemma expire_pulls_sets now kvs acc :
  let r := (foldl (expire_pull now) acc kvs).1 in
  done_recving_ r = done_recving_ acc.1 /\ failed_recving_ r = failed_recving_ acc.1 /\ active_pool_reshard_sends_ r = active_pool_reshard_sends_ acc.1.
Proof.
  revert acc. induction kvs as [|kv kvs IH]; intros acc; [done|]. cbn [foldl]. destruct (expire_pull_sets now acc kv) as (H1 & H2 & H3).
  cbv zeta. destruct (IH (expire_pull now acc kv)) as (-> & -> & ->). by rewrite H1, H2, H3.
Qed.
Lemma expire_sends_sets now req kvs acc : (forall v e, (v, e) ∈ kvs -> send_req_id e ≠ req) ->
  let r := (foldl (expire_send now) acc kvs).1 in
  done_recving_ r = done_recving_ acc.1 /\ (req ∈ failed_recving_ r <-> req ∈ failed_recving_ acc.1).
Proof.
  revert acc. induction kvs as [|[v e] kvs IH]; intros acc Hne; [done|]. cbn [foldl]. cbv zeta.
  destruct (IH (expire_send now acc (v, e))) as [-> ->]; [intros v' e' Hin; apply (Hne v'); by right|].
  assert (send_req_id e ≠ req) by (apply (Hne v); by left). destruct acc as [s t]. unfold expire_send. cbn [snd fst]. destruct (_ <=? _); cbn; [|done]. split; [done|set_solver].
Qed.

Lemma unregister_fold_sets us s :
  done_recving_ (foldl (fun s u => (unregister_plan s u).2) s us) = done_recving_ s /\
  failed_recving_ (foldl (fun s u => (unregister_plan s u).2) s us) = failed_recving_ s.
Proof.
  revert s. induction us as [|u us IH]; intros s; [done|]. cbn [foldl]. destruct (IH (unregister_plan s u).2) as [-> ->].
  unfold unregister_plan. by destruct (Manager.UnregisterActivePlan _ _).
Qed.

Lemma CompleteReadRaw_sets now ready req s sending done failed s' : sole req s ->
  CompleteReadRaw now ready s = ((sending, done, failed), s') ->
  let layers := Manager.num_layers_ (manager s) in
  let own (P : RecvEntry -> Prop) := exists e, active_recv_entries_ s !! uuid = Some e /\ req_id e = req /\ P e in
  done_recving_ s' = ∅ /\ failed_recving_ s' = ∅ /\
  (req ∈ done <-> req ∈ done_recving_ s \/ own (fun e => poll_done now ready layers e = true)) /\
  (req ∈ failed <-> req ∈ failed_recving_ s \/ own (fun e => poll_late now ready layers e = true)).
Proof.
  intros [Hr Hs]. unfold CompleteReadRaw. set (acc1 := foldl (expire_pull now) _ _). set (acc2 := foldl (expire_send now) _ _).
  destruct (expire_pulls_sets now (map_to_list (send_entries_ s)) (s, [])) as (D1 & F1 & S1). fold acc1 in D1, F1, S1. cbn [fst] in D1, F1, S1.
  destruct (expire_sends_sets now req (map_to_list (active_pool_reshard_sends_ acc1.1)) acc1) as [D2 F2].
  { intros v e Hin%elem_of_map_to_list. rewrite S1 in Hin. by eapply Hs. }
  fold acc2 in D2, F2.
  destruct (expire_fold_recv (expire_pull now) (s, []) (map_to_list (send_entries_ s)) (expire_pull_recv now)) as [R1 M1]. fold acc1 in R1, M1.
  destruct (expire_fold_recv (expire_send now) acc1 (map_to_list (active_pool_reshard_sends_ acc1.1)) (expire_send_recv now)) as [R2 M2]. fold acc2 in R2, M2.
  destruct (poll_fold_sets now ready req (map_to_list (active_recv_entries_ acc2.1)) acc2) as [HD HF].
  destruct (foldl (poll_recv now ready) acc2 _) as [s3 timed_out]. cbn [fst] in *.
  destruct (unregister_fold_sets timed_out (with_verdicts s3 ∅ ∅ ∅)) as [U1 U2].
  intros [= _ <- <- <-]. rewrite U1, U2. split; [done|]. split; [done|]. setoid_rewrite elem_of_map_to_list in HD. setoid_rewrite elem_of_map_to_list in HF.
  rewrite HD, HF, D2, F2, D1, F1, R2, R1, M2, M1. cbn [fst]. clear -Hr.
  split; (apply or_iff_compat_l; split; [intros (v & e & Hl & He & Hp); rewrite (Hr v e Hl He) in Hl; by exists e|intros (e & Hl & He & Hp); by exists uuid, e]).
Qed.

Lemma told_poll s ts l now ready sending done failed s' answers :
  inv (mkConfig s ts l) -> told (mkConfig s ts l) answers ->
  (forall f, f.1 = uuid -> Upload f.2 ∉ ts -> ready f = true) -> sole (req_id e0) s ->
  CompleteReadRaw now ready s = ((sending, done, failed), s') ->
  told (mkConfig s' ts (l ++ poll_events now ready s)) (answers ++ [(done, failed)]).
Proof.
  intros [Hcalm He _] [H1 H2 H3] Hready Hsole Hp. destruct (CompleteReadRaw_recv _ _ _ _ _ Hp) as [_ Hlook].
  destruct (CompleteReadRaw_sets _ _ _ _ _ _ _ _ Hsole Hp) as (E1 & E2 & HD & HF). cbn [state log] in *.
  assert (Hm : mentions (req_id e0) (∅ : gset string) = 0%nat) by (unfold mentions; by rewrite bool_decide_false by set_solver).
  enough (Hkey : mentions (req_id e0) done = (mentions (req_id e0) (done_recving_ s) + total w_good (poll_events now ready s))%nat /\
    mentions (req_id e0) failed = (mentions (req_id e0) (failed_recving_ s) + total w_bad (poll_events now ready s))%nat /\
    (forall e, active_recv_entries_ s' !! uuid = Some e -> network_completed e = false)).
  { destruct Hkey as (K1 & K2 & K3). split; cbn [state log]; rewrite ?E1, ?E2, ?Hm, ?total_app, ?total_cons, ?total_nil; cbn [fst snd]; [lia|lia|].
    intros e Hl Hn. by rewrite K3 in Hn. }
  unfold poll_events. destruct (active_recv_entries_ s !! uuid) as [e|] eqn:Hl; cbn [mbind option_bind] in Hlook.
  2: { rewrite !total_nil, !Nat.add_0_r. split_and!; [apply mentions_iff; rewrite HD|apply mentions_iff; rewrite HF|congruence].
       all: (split; [intros [?|(? & ? & _)]; [done|congruence]|by left]). }
  specialize (He e eq_refl). pose proof He as [Hplan _ _ _ _ _ _ _ _ _ [Hv _]]. pose proof (ca_layers _ Hcalm) as Hpos. cbn [state log] in *.
  pose proof (sp_req _ Hplan) as Hreq. unfold poll_keeps in Hlook. fold (poll_done now ready (Manager.num_layers_ (manager s)) e) in Hlook |- *.
  assert (HD' : req_id e0 ∈ done <-> req_id e0 ∈ done_recving_ s \/ poll_done now ready (Manager.num_layers_ (manager s)) e = true).
  { rewrite HD. split; (intros [?|Hx]; [by left|right]); [by destruct Hx as (e' & [= <-] & _ & ?)|by exists e]. }
  assert (HF' : req_id e0 ∈ failed <-> req_id e0 ∈ failed_recving_ s \/ poll_late now ready (Manager.num_layers_ (manager s)) e = true).
  { rewrite HF. split; (intros [?|Hx]; [by left|right]); [by destruct Hx as (e' & [= <-] & _ & ?)|by exists e]. }
  clear HD HF. rewrite total_verdict in Hv. unfold poll_late in HF'.
  assert (Hz : (u64 (num_completed_layers e) =? Manager.num_layers_ (manager s)) = false) by (rewrite (sp_layers _ Hplan); apply Z.eqb_neq; change (u64 0) with 0; lia).
  destruct (network_completed e) eqn:Hn.
  - assert (Hd : poll_done now ready (Manager.num_layers_ (manager s)) e = true).
    { unfold poll_done. rewrite Hn. cbn [orb andb]. apply forallb_forall. intros f Hf%list_elem_of_In. apply Hready; [by apply (sp_futures _ Hplan)|]. by eapply reported_idle. }
    rewrite Hd in *. cbn [negb andb] in *. rewrite !total_nil, !Nat.add_0_r. specialize (H3 e eq_refl Hn). split_and!; [apply mentions_iff; tauto|apply mentions_iff; naive_solver|congruence].
  - assert (Hd : poll_done now ready (Manager.num_layers_ (manager s)) e = false) by (unfold poll_done; by rewrite Hn, Hz).
    rewrite Hd in *. cbn [negb andb] in *. destruct (deadline e <=? now) eqn:Edl; cbn [negb] in Hlook.
    + change (total w_good [Verdict false]) with 0%nat. change (total w_bad [Verdict false]) with 1%nat. split_and!; [rewrite Nat.add_0_r; apply mentions_iff; naive_solver| |congruence].
      unfold mentions. rewrite bool_decide_true by tauto. unfold mentions in H2. destruct (bool_decide _) in H2 |- *; lia.
    + rewrite !total_nil, !Nat.add_0_r. split_and!; [apply mentions_iff; naive_solver|apply mentions_iff; naive_solver|congruence].
Qed.

Lemma told_receive s ts l pool st s' new answers :
  told (mkConfig s ts l) answers -> OnPoolReceived s pool uuid = (st, s', new) -> told (mkConfig s' (ts ++ new) l) (answers ++ []).
Proof.
  intros Ht Hr. rewrite <-(app_nil_r l). eapply told_quiet; [exact Ht| |done|]; unfold OnPoolReceived, pool_received in Hr.
  - by repeat case_match; simplify_eq.
  - intros e' He' Hn. destruct (active_recv_entries_ s !! uuid) as [e|] eqn:He; [|simplify_eq; congruence].
    exists e. split; [done|]. destruct (negb _); [simplify_eq; congruence|]. destruct (negb (bool_decide _)); [simplify_eq; congruence|].
    destruct (bool_decide _); [simplify_eq; congruence|]. cbn in Hr. injection Hr as <- <- <-. rewrite put_lookup in He'. injection He' as <-. exact Hn.
Qed.

Lemma told_step a c c' answers : inv c -> told c answers -> step (req_id e0) a c c' -> told c' (answers ++ option_list a).
Proof.
  intros Hinv Ht Hs. destruct Hs as [outcome ? ? Htask|? ? ? ? ? ? ? Hr|? ? ? ? ? ? ? ? ? ? ? Hp|? ? ? ? Hl ? ?]; cbn [option_list].
  - destruct Htask as [s ts1 t ts2 l s' new Hrun]. assert (Ht' : (exists st un, t = Report st un) \/ forall st un, t ≠ Report st un) by (destruct t; eauto; by right).
    destruct Ht' as [(st & un & ->)|Hno]; [cbn in Hrun; simplify_eq; by apply told_report|].
    destruct (run_task_quiet _ _ _ _ _ Hrun Hno) as (Q1 & Q2 & Q3). by eapply told_quiet.
  - by eapply told_receive.
  - by eapply told_poll.
  - match goal with |- told (mkConfig ?s' ?ts ?l) _ => rewrite <-(app_nil_r l) end. eapply told_quiet; [exact Ht|done|done|]. rewrite Hl. eauto.
Qed.

Definition silent (s : State) : Prop := req_id e0 ∉ done_recving_ s /\ req_id e0 ∉ failed_recving_ s.
Lemma told_start s : fresh -> active_recv_entries_ s !! uuid = Some e0 -> silent s -> told (mkConfig s [] []) [].
Proof.
  intros Hf Hl [Hd Hx]. split; unfold mentions; cbn; [by rewrite bool_decide_false|by rewrite bool_decide_false|].
  intros e. rewrite Hl. intros [= <-]. by destruct (fr_flags Hf) as [_ ->].
Qed.

(** The request is reported as received, or as failed: a poll has answered so or the next
    one will. *)
Definition reported_done (c : Config) (answers : list Answer) : Prop := req_id e0 ∈ done_recving_ (state c) \/ exists a, a ∈ answers /\ req_id e0 ∈ a.1.
Definition reported_failed (c : Config) (answers : list Answer) : Prop := req_id e0 ∈ failed_recving_ (state c) \/ exists a, a ∈ answers /\ req_id e0 ∈ a.2.
(** How often it is reported. *)
Definition reports (c : Config) (answers : list Answer) : nat :=
  (total (fun a => mentions (req_id e0) a.1 + mentions (req_id e0) a.2) answers +
   mentions (req_id e0) (done_recving_ (state c)) + mentions (req_id e0) (failed_recving_ (state c)))%nat.

Lemma mentions_pos req X : mentions req X ≠ 0%nat <-> req ∈ X.
Proof. unfold mentions. by case_bool_decide. Qed.
Lemma total_mentions req (f : Answer -> gset string) answers : total (fun a => mentions req (f a)) answers ≠ 0%nat <-> exists a, a ∈ answers /\ req ∈ f a.
Proof.
  induction answers as [|a answers IH]; [split; [done|by intros (? & ?%elem_of_nil & _)]|]. rewrite total_cons. setoid_rewrite elem_of_cons.
  rewrite Nat.eq_add_0. pose proof (mentions_pos req (f a)). split.
  - intros Hn. destruct (decide (req ∈ f a)) as [|Hna]; [exists a; naive_solver|]. assert (total (fun a => mentions req (f a)) answers ≠ 0%nat) as Ht by (rewrite <-H in Hna; lia). apply IH in Ht as (a' & ? & ?). exists a'. naive_solver.
  - intros (a' & [->|Hin] & Hr); [tauto|]. intros [_ H0]. revert H0. apply IH. by exists a'.
Qed.

Lemma told_done c answers : told c answers -> reported_done c answers <-> Verdict true ∈ log c.
Proof.
  intros [H1 _ _]. rewrite total_good, <-H1. unfold reported_done.
  rewrite <-(total_mentions (req_id e0) fst answers), <-mentions_pos. clear. lia.
Qed.
Lemma told_said c answers : told c answers -> total w_verdict (log c) = 1%nat -> reported_done c answers \/ reported_failed c answers.
Proof.
  intros [H1 H2 _] Hv. rewrite total_verdict, <-H1, <-H2 in Hv. unfold reported_done, reported_failed.
  rewrite <-(total_mentions (req_id e0) fst answers), <-(total_mentions (req_id e0) snd answers), <-!mentions_pos. clear -Hv. lia.
Qed.
Lemma told_reports c answers : told c answers -> reports c answers = total w_verdict (log c).
Proof.
  intros [H1 H2 _]. rewrite total_verdict, <-H1, <-H2. unfold reports. enough (total (fun a => mentions (req_id e0) a.1 + mentions (req_id e0) a.2) answers =
    total (fun a => mentions (req_id e0) a.1) answers + total (fun a => mentions (req_id e0) a.2) answers)%nat by lia.
  clear. induction answers as [|a answers IH]; [done|]. rewrite !total_cons. lia.
Qed.

Lemma told_never c answers : inv c -> told c answers -> Verdict true ∈ log c -> ~ reported_failed c answers.
Proof.
  intros Hi [_ H2 _] Hv%total_good Hf. pose proof (verdict_once _ Hi) as Ho. rewrite total_verdict in Ho.
  assert (Hz : total w_bad (log c) = 0%nat) by lia. rewrite Hz in H2. destruct Hf as [Hf|Hf].
  - apply mentions_pos in Hf. lia.
  - apply (total_mentions (req_id e0) snd answers) in Hf. lia.
Qed.

Lemma inv_run s x : fresh -> active_recv_entries_ s !! uuid = Some e0 -> 0 < Manager.num_layers_ (manager s) -> silent s ->
  rtc (watched (step (req_id e0))) (mkConfig s [] [], []) x -> inv x.1 /\ told x.1 x.2.
Proof.
  intros Hf Hl Hp Hsil. apply (rtc_ind_r (fun x => inv x.1 /\ told x.1 x.2) (mkConfig s [] [], [])); [split; [by apply recv_inv_start|by apply told_start]|].
  intros y z _ Hs [Hi Ht]. destruct Hs as [a c c' answers Hs]. cbn [fst snd] in *. split; [by eapply inv_step|by eapply told_step].
Qed.

(** *** What the invariant says of the log *)

Lemma ordered_at l1 p ids l2 : ordered (reverse (l1 ++ Called p ids :: l2)) -> waits l1 p ids.
Proof.
  induction l2 as [|x l2 IH] using rev_ind.
  - rewrite reverse_snoc. intros [_ H]. by apply waits_reverse.
  - rewrite app_comm_cons, app_assoc, reverse_snoc. intros [H _]. auto.
Qed.

Lemma verdict_at l1 l2 : ordered (reverse (l1 ++ Verdict true :: l2)) -> forall q, q ∈ E -> Uploaded q ∈ l1.
Proof.
  induction l2 as [|x l2 IH] using rev_ind.
  - rewrite reverse_snoc. intros [_ H] q Hq. by apply elem_of_reverse, H.
  - rewrite app_comm_cons, app_assoc, reverse_snoc. intros [H _]. auto.
Qed.

Lemma verdict_some l : total w_verdict l = 1%nat -> exists good, Verdict good ∈ l.
Proof.
  induction l as [|[| |good] l IH]; [done|rewrite total_cons; cbn; intros [g Hg]%IH; exists g; by right..|]. exists good. by left.
Qed.

Lemma once_at c l1 p ids l2 k : calm c -> log c = l1 ++ Called p ids :: l2 -> Called p k ∉ l1 ++ l2.
Proof.
  intros [] Hlog Hin%(total_in (w_called p)). specialize (ca_launches0 p). unfold launches in *. rewrite Hlog, total_mid in ca_launches0.
  cbn [w_called] in *. rewrite bool_decide_true in * by done. lia.
Qed.

(** *** Progress *)

(** Steps in which every call and copy goes well and no deadline passes. *)
Inductive good_step (req : string) : option Answer -> Config -> Config -> Prop :=
  | good_task c c' : task_step OkStatus c c' -> good_step req None c c'
  | good_receive s ts l pool st s' new :
      OnPoolReceived s pool uuid = (st, s', new) -> good_step req None (mkConfig s ts l) (mkConfig s' (ts ++ new) l)
  | good_poll s ts l now ready sending done failed s' :
      (forall f, f.1 = uuid -> Upload f.2 ∉ ts -> ready f = true) -> sole req s ->
      (forall e, active_recv_entries_ s !! uuid = Some e -> now < deadline e) ->
      CompleteReadRaw now ready s = ((sending, done, failed), s') ->
      good_step req (Some (done, failed)) (mkConfig s ts l) (mkConfig s' ts (l ++ poll_events now ready s))
  | good_other s s' ts l :
      active_recv_entries_ s' !! uuid = active_recv_entries_ s !! uuid ->
      Manager.num_layers_ (manager s') = Manager.num_layers_ (manager s) -> unsaid req s s' ->
      good_step req None (mkConfig s ts l) (mkConfig s' ts l).

Lemma good_is_step req a c c' : good_step req a c c' -> step req a c c'.
Proof. intros []; [eapply step_task|eapply step_receive|eapply step_poll|eapply step_other]; eauto. Qed.

Definition good_task_status (t : Task) : Prop :=
  match t with
  | Finish _ st | Unregister st => ok st = true
  | Report st un => ok st && (ok un || is_not_found un) = true
  | _ => True
  end.

Record unfailed (c : Config) : Prop := {
  uf_tasks : Forall good_task_status (tasks c);
  uf_gone : active_recv_entries_ (state c) !! uuid = None -> Verdict true ∈ log c
}.

Lemma Forall_rest {A} (P : A -> Prop) ts1 t ts2 new : Forall P (ts1 ++ t :: ts2) -> Forall P new -> Forall P ((ts1 ++ ts2) ++ new).
Proof. rewrite !Forall_app, Forall_cons. tauto. Qed.

Lemma unfailed_task c c' : unfailed c -> task_step OkStatus c c' -> unfailed c'.
Proof.
  intros [Ht Hg] Hs. destruct Hs as [s ts1 t ts2 l s' new Hrun]. cbn [tasks state log] in *.
  assert (Hgt : good_task_status t) by (apply Forall_app in Ht as [_ Ht]; by apply Forall_cons in Ht as [Ht _]).
  assert (Hgone : active_recv_entries_ s !! uuid = None -> Verdict true ∈ l ++ task_events t s) by (intros H%Hg; apply elem_of_app; by left).
  destruct t as [|pool ids|pool|pool|pool status|status|status un]; cbn [run_task good_task_status] in *.
  - destruct (launch_pools s uuid) as [pools s1] eqn:Hl. simplify_eq. split; cbn [tasks state log].
    + eapply Forall_rest; [done|]. apply Forall_fmap, Forall_true. done.
    + unfold launch_pools in Hl. destruct (active_recv_entries_ s !! uuid) as [e|] eqn:He; [|simplify_eq; auto].
      destruct (reshard_finalizing e); simplify_eq; [congruence|]. by rewrite put_lookup.
  - cbn in Hrun. simplify_eq. split; [|done]. eapply Forall_rest; [done|]. by repeat constructor.
  - simplify_eq. split; [|done]. eapply Forall_rest; [done|]. by repeat constructor.
  - simplify_eq. split; cbn [tasks state log]; [by eapply Forall_rest|]. unfold track_future.
    destruct (active_recv_entries_ s !! uuid) eqn:He; [by rewrite put_lookup|auto].
  - destruct (finish_upload s uuid pool status) as [fin s1] eqn:Hfu. simplify_eq. split; cbn [tasks state log].
    + eapply Forall_rest; [done|]. destruct fin as [[]|]; [by repeat constructor|rewrite Hgt; by repeat constructor|done].
    + unfold finish_upload in Hfu. destruct (active_recv_entries_ s !! uuid) as [e|] eqn:He; [|simplify_eq; auto].
      rewrite Hgt in Hfu. cbn [negb] in Hfu. destruct (reshard_finalizing e); simplify_eq; [congruence|]. by rewrite put_lookup.
  - destruct (unregister_plan s uuid) as [st s1] eqn:Hu. simplify_eq. apply unregister_lookup in Hu as (Hr & _ & Hst).
    split; cbn [tasks state log]; [|rewrite Hr; auto]. eapply Forall_rest; [done|]. repeat constructor. cbn. by rewrite Hgt, Hst.
  - simplify_eq. split; cbn [tasks state log]; [by eapply Forall_rest|]. rewrite report_recv_eq, Hgt.
    destruct (active_recv_entries_ s !! uuid) eqn:He; [cbn; by rewrite lookup_insert_eq|auto].
Qed.

Lemma unfailed_step req a c c' : inv c -> unfailed c -> good_step req a c c' -> unfailed c'.
Proof.
  intros Hinv Huf Hs. destruct Hs as [? ? Ht|s ts l pool st s' new Hr|s ts l now ready sending done failed s' Hready _ Hdl Hp|s s' ts l Hl _ _];
    [by eapply unfailed_task| | |]; destruct Huf as [Ht Hg]; cbn [tasks state log] in *.
  - unfold OnPoolReceived, pool_received in Hr. split; cbn [tasks state log].
    + apply Forall_app. split; [done|]. destruct (match _ with Some _ => _ | None => _ end) as [st1 s1]; simplify_eq.
      destruct (ok st); by repeat constructor.
    + destruct (active_recv_entries_ s !! uuid) as [e|] eqn:He; [|simplify_eq; auto].
      destruct (negb _); [simplify_eq; congruence|]. destruct (negb (bool_decide _)); [simplify_eq; congruence|].
      destruct (bool_decide _); simplify_eq; [congruence|]. by rewrite put_lookup.
  - split; [done|]. cbn [state log]. destruct (CompleteReadRaw_recv _ _ _ _ _ Hp) as [_ ->]. rewrite elem_of_app.
    destruct (active_recv_entries_ s !! uuid) as [e|] eqn:He; [|auto]. cbn [mbind option_bind]. specialize (Hdl e eq_refl).
    destruct Hinv as [Hcalm Hent _]. specialize (Hent e He). unfold poll_keeps. rewrite (proj2 (Z.leb_gt _ _) Hdl).
    destruct (network_completed e) eqn:Hn; [intros _; left; by apply (ei_verdict _ _ Hent)|].
    replace (u64 (num_completed_layers e) =? Manager.num_layers_ (manager s)) with false; [done|].
    symmetry. apply Z.eqb_neq. rewrite (sp_layers _ (ei_plan _ _ Hent)). pose proof (ca_layers _ Hcalm). cbn in *. change (u64 0) with 0. lia.
  - split; [done|]. cbn. by rewrite Hl.
Qed.

(** What the threads have left to do. *)
Definition w_left (t : Task) : nat :=
  match t with Launch | Track _ | Report _ _ => 1 | Unregister _ => 2 | Finish _ _ => 3 | Upload _ => 4 | Issue _ _ => 6 end%nat.
Definition to_launch (s : State) : nat :=
  match active_recv_entries_ s !! uuid with Some e => base.size (E ∖ h2d_launched_pools e) | None => 0 end.
Definition left (c : Config) : nat := (6 * to_launch (state c) + total w_left (tasks c))%nat.

Lemma issues_left e : total w_left (issues e) = (6 * length (eligible e))%nat.
Proof. unfold issues. induction (eligible e) as [|p ps IH]; [done|]. rewrite !fmap_cons, total_cons, IH. cbn. lia. Qed.


Lemma put_to_launch s e : to_launch (put_recv s uuid e) = base.size (E ∖ h2d_launched_pools e).
Proof. unfold to_launch. by rewrite put_lookup. Qed.

Lemma launched_left c e : entry_inv c e ->
  (base.size (E ∖ (list_to_set (eligible e) ∪ h2d_launched_pools e)) + length (eligible e) = base.size (E ∖ h2d_launched_pools e))%nat.
Proof.
  intros He. rewrite <- (size_list_to_set (C := gset Z) (eligible e)) by apply eligible_NoDup.
  rewrite <- size_union.
  - f_equal. apply set_eq. intros p. destruct (decide (p ∈ eligible e)) as [Hp|Hp]; [|set_solver].
    pose proof (proj1 (eligible_spec e p) Hp) as (Hs & Hl & _). apply (ei_started _ _ He) in Hs. set_solver.
  - set_solver.
Qed.

Lemma left_task outcome c c' : inv c -> task_step outcome c c' -> (left c' < left c)%nat.
Proof.
  intros Hinv Hs. destruct Hs as [s ts1 t ts2 l s' new Hrun]. unfold left. cbn [state tasks]. rewrite total_mid, (total_app _ (ts1 ++ ts2)).
  enough (6 * to_launch s' + total w_left new < 6 * to_launch s + w_left t)%nat by lia. destruct Hinv as [_ He _]. cbn [state] in He.
  destruct t as [|pool ids|pool|pool|pool status|status|status un]; cbn [run_task w_left] in *.
  - unfold launch_pools in Hrun. destruct (active_recv_entries_ s !! uuid) as [e|] eqn:Hl; [|simplify_eq; rewrite fmap_nil, total_nil; lia].
    destruct (reshard_finalizing e); simplify_eq; [rewrite fmap_nil, total_nil; lia|]. rewrite put_to_launch. fold (issues e). rewrite issues_left.
    pose proof (launched_left _ e (He e eq_refl)). unfold to_launch. rewrite Hl. cbn [h2d_launched_pools with_pools]. lia.
  - destruct (ok outcome); simplify_eq; rewrite ?total_cons, ?total_nil; cbn; lia.
  - simplify_eq. rewrite total_cons, total_nil. cbn. lia.
  - simplify_eq. rewrite total_nil. unfold track_future, to_launch. destruct (active_recv_entries_ s !! uuid) eqn:Hl; [|rewrite Hl; lia].
    rewrite put_lookup. cbn. lia.
  - destruct (finish_upload s uuid pool status) as [fin s1] eqn:Hf. simplify_eq.
    assert (to_launch s' = to_launch s) as ->.
    { unfold finish_upload, to_launch in *. destruct (active_recv_entries_ s !! uuid) as [e|] eqn:Hl; [|simplify_eq; by rewrite Hl].
      destruct (reshard_finalizing e); [simplify_eq; by rewrite Hl|]. destruct (negb _); simplify_eq; by rewrite put_lookup. }
    destruct fin as [[]|]; [|destruct (ok status)|]; rewrite ?total_cons, total_nil; cbn; lia.
  - destruct (unregister_plan s uuid) as [st s1] eqn:Hu. simplify_eq. apply unregister_lookup in Hu as (Hr & _).
    unfold to_launch. rewrite Hr, total_cons, total_nil. cbn. lia.
  - simplify_eq. rewrite total_nil, report_recv_eq. destruct (active_recv_entries_ s !! uuid) as [e|] eqn:Hl; [|lia].
    unfold to_launch. rewrite Hl. destruct (_ && _); cbn; [rewrite lookup_insert_eq; cbn; lia|rewrite lookup_delete_eq; lia].
Qed.

(** A pool of least rank among those not uploaded. *)
Lemma least_missing (missing : gset Z) : missing ≠ ∅ -> exists p, p ∈ missing /\ forall q, q ∈ missing -> rank p <= rank q.
Proof.
  induction missing as [|x m Hx IH] using set_ind_L; [done|]. intros _. destruct (decide (m = ∅)) as [->|Hm]; [exists x; set_solver by lia|].
  destruct (IH Hm) as (p & Hp & Hmin). destruct (decide (rank x <= rank p)) as [Hle|Hgt].
  - exists x. split; [set_solver|]. intros q [->%elem_of_singleton|Hq]%elem_of_union; [lia|]. specialize (Hmin q Hq). lia.
  - exists p. split; [set_solver|]. intros q [->%elem_of_singleton|Hq]%elem_of_union; [lia|]. by apply Hmin.
Qed.

(** With every pool received, threads that have nothing left to do have reported. *)
Lemma quiet_reported c :
  inv c -> unfailed c -> (forall e, active_recv_entries_ (state c) !! uuid = Some e -> started_pool_indices e = E) ->
  tasks c = [] -> Verdict true ∈ log c.
Proof.
  intros [_ He _] [_ Hg] Hst Ht. destruct (active_recv_entries_ (state c) !! uuid) as [e|] eqn:Hl; [|by apply Hg].
  specialize (He e eq_refl). specialize (Hst e eq_refl). destruct He as [Hp Hs1 Hs2 Hs3 _ _ _ _ Hr Hc [_ Hv]]. rewrite Ht in *.
  destruct (reshard_finalizing e); [destruct (network_completed e); [by apply Hv|by specialize (Hc eq_refl)]|].
  destruct (Hr eq_refl) as (Hpend & Hel & _ & _ & Hne). exfalso.
  destruct (decide (E ∖ completed_pool_indices e = ∅)) as [Hz|Hz].
  - apply Hne, set_eq. intros p. destruct (decide (p ∈ completed_pool_indices e)); set_solver.
  - destruct (least_missing _ Hz) as (p & Hin & Hmin). apply elem_of_difference in Hin as [HpE Hpc].
    assert (Hpe : p ∈ eligible e).
    { apply eligible_spec. rewrite Hst. split; [done|]. split; [intros Hla; by specialize (Hpend p Hla Hpc)|].
      intros q Hq Hlt. rewrite (sp_expected _ Hp) in Hq. rewrite !(same_rank e) in Hlt by done.
      destruct (decide (q ∈ completed_pool_indices e)) as [|Hqc]; [done|]. specialize (Hmin q (proj2 (elem_of_difference _ _ _) (conj Hq Hqc))). lia. }
    destruct (eligible e); [by apply elem_of_nil in Hpe|]. by apply (not_elem_of_nil Launch), Hel.
Qed.

Lemma started_task outcome c c' e' : task_step outcome c c' -> active_recv_entries_ (state c') !! uuid = Some e' ->
  exists e, active_recv_entries_ (state c) !! uuid = Some e /\ started_pool_indices e = started_pool_indices e'.
Proof.
  intros Hs. destruct Hs as [s ts1 t ts2 l s' new Hrun]. cbn [state].
  destruct t as [|pool ids|pool|pool|pool status|status|status un]; cbn [run_task] in *.
  - unfold launch_pools in Hrun. destruct (active_recv_entries_ s !! uuid) as [e|] eqn:Hl; [|simplify_eq; congruence].
    destruct (reshard_finalizing e); simplify_eq; [rewrite Hl|rewrite put_lookup]; intros [= <-]; by exists e.
  - destruct (ok outcome); simplify_eq; eauto.
  - simplify_eq; eauto.
  - simplify_eq. unfold track_future. destruct (active_recv_entries_ s !! uuid) as [e|] eqn:Hl; [|congruence].
    rewrite put_lookup. intros [= <-]. by exists e.
  - destruct (finish_upload s uuid pool status) as [fin s1] eqn:Hf. simplify_eq. unfold finish_upload in Hf.
    destruct (active_recv_entries_ s !! uuid) as [e|] eqn:Hl; [|simplify_eq; congruence].
    destruct (reshard_finalizing e); [simplify_eq; rewrite Hl; eauto|].
    destruct (negb _); simplify_eq; rewrite put_lookup; intros [= <-]; by exists e.
  - destruct (unregister_plan s uuid) as [st s1] eqn:Hu. simplify_eq. apply unregister_lookup in Hu as (-> & _). eauto.
  - simplify_eq. rewrite report_recv_eq. destruct (active_recv_entries_ s !! uuid) as [e|] eqn:Hl; [|congruence].
    destruct (_ && _); cbn; [rewrite lookup_insert_eq; intros [= <-]; by exists e|by rewrite lookup_delete_eq].
Qed.

(** Runs of the threads alone. *)
Lemma bounded_run n c c' :
  inv c -> unfailed c -> (forall e, active_recv_entries_ (state c) !! uuid = Some e -> started_pool_indices e = E) ->
  nsteps (task_step OkStatus) n c c' -> (n <= left c)%nat /\ (tasks c' = [] -> Verdict true ∈ log c').
Proof.
  intros Hi Hu Hst Hn. revert Hi Hu Hst. induction Hn as [c|n c c1 c' Hs _ IH]; intros Hi Hu Hst.
  - split; [lia|]. by apply quiet_reported.
  - pose proof (left_task _ _ _ Hi Hs) as Hlt. destruct IH as [Hle Hv]; [by eapply inv_task|by eapply unfailed_task| |split; [lia|done]].
    intros e He. destruct (started_task _ _ _ _ Hs He) as (e1 & He1 & <-). by apply Hst.
Qed.

Lemma task_enabled outcome c : tasks c ≠ [] -> exists c', task_step outcome c c'.
Proof.
  destruct c as [s ts l]. cbn. destruct ts as [|t ts]; [done|]. intros _. destruct (run_task uuid outcome t s) as [s' new] eqn:Hr.
  eexists. by apply (do_task outcome s [] t ts).
Qed.

Lemma finishing_run c :
  inv c -> unfailed c -> (forall e, active_recv_entries_ (state c) !! uuid = Some e -> started_pool_indices e = E) ->
  exists c', rtc (task_step OkStatus) c c' /\ tasks c' = [] /\ Verdict true ∈ log c'.
Proof.
  induction c as [c IH] using (well_founded_induction (well_founded_ltof _ left)). intros Hi Hu Hst. destruct (tasks c) as [|t ts] eqn:Ht.
  - exists c. split; [done|]. split; [done|]. by apply quiet_reported.
  - destruct (task_enabled OkStatus c) as [c1 Hs]; [by rewrite Ht|]. destruct (IH c1) as (c' & Hr & Hend).
    + unfold ltof. by eapply left_task.
    + by eapply inv_task.
    + by eapply unfailed_task.
    + intros e He. destruct (started_task _ _ _ _ Hs He) as (e1 & He1 & <-). by apply Hst.
    + exists c'. split; [by eapply rtc_l|done].
Qed.


End armed.
End receive.
(** ** Armed receives *)

Lemma valid_pools pools n plan ids sender : PlanCheck.ValidatePoolReshardPlan pools n plan ids sender = Some OkStatus ->
  Program.transfer_pool_indices plan ≠ [].
Proof.
  unfold PlanCheck.ValidatePoolReshardPlan, PlanCheck.plan_prefix_check. intros H Hnil. revert H.
  rewrite (bool_decide_true (Program.transfer_pool_indices plan = [])) by done. destruct (bool_decide (Program.req_id plan = _)); [done|].
  destruct (_ <=? _); [done|]. by destruct (negb _).
Qed.

Lemma plan_recv_fresh plan ids due : Program.transfer_pool_indices plan ≠ [] -> fresh (plan_recv plan ids due).
Proof.
  intros Hne. split; try done. cbn. destruct (Program.transfer_pool_indices plan) as [|p ps]; [done|]. cbn. set_solver.
Qed.

Lemma register_armed s plan ids due s' : PoolReshardRegisterRecv s plan ids due = Some (OkStatus, s') ->
  fresh (plan_recv plan ids due) /\ active_recv_entries_ s' !! u64 (Program.uuid plan) = Some (plan_recv plan ids due).
Proof.
  unfold PoolReshardRegisterRecv. destruct (PlanCheck.ValidatePoolReshardPlan _ _ _ _ _) as [[[]|]|] eqn:Hv; [|done..].
  destruct (bool_decide _); [done|]. destruct (negb _); [done|]. destruct (active_recv_entries_ _ !! _); [done|].
  destruct (Manager.RegisterActivePlan _ _ _ _) as [[[]|] m]; [|done]. intros [= <-].
  split; [by eapply plan_recv_fresh, valid_pools|]. cbn. by rewrite lookup_insert_eq.
Qed.

Section theorems.
Context (s s0 : State) (plan : Plan) (ids : list Z) (due : Z).
Context (Harmed : PoolReshardRegisterRecv s plan ids due = Some (OkStatus, s0)).
Context (Hlayers : 0 < Manager.num_layers_ (manager s0)).
Local Abbreviation e0 := (plan_recv plan ids due).
Local Abbreviation u := (u64 (Program.uuid plan)).


(** C32: A receive, armed as above, whose copies go well and whose deadline does not pass ends:
    once all its pools have arrived, the number of steps its threads can still take is
    bounded, they can always take one while they have something left to do, and when they
    have nothing left to do the request is in [done_recving_] or in the received part of a
    poll's answer, and in no failed part. *)
Theorem pool_receive_reports c answers :
  silent e0 s0 -> rtc (watched (good_step u (req_id e0))) (mkConfig s0 [] [], []) (c, answers) ->
  (forall e, active_recv_entries_ (state c) !! u = Some e -> started_pool_indices e = expected_pool_indices e0) ->
  (exists bound, forall n c', nsteps (task_step u OkStatus) n c c' -> (n <= bound)%nat /\
     (tasks c' ≠ [] -> exists c'', task_step u OkStatus c' c'') /\
     (tasks c' = [] -> reported_done e0 c' answers /\ ~ reported_failed e0 c' answers)) /\
  exists c', rtc (task_step u OkStatus) c c' /\ tasks c' = [] /\ reported_done e0 c' answers.
Proof.
  intros Hsil Hrun Hst. destruct (register_armed _ _ _ _ _ Harmed) as [Hf Hl].
  assert (Hc : inv u e0 c /\ told u e0 c answers /\ unfailed u c).
  { revert Hrun. apply (rtc_ind_r (fun x => inv u e0 x.1 /\ told u e0 x.1 x.2 /\ unfailed u x.1) (mkConfig s0 [] [], [])).
    - split_and!; [by apply recv_inv_start|by apply told_start|split; [done|cbn; congruence]].
    - intros y z _ Hs (Hi & Ht & Hu). destruct Hs as [a c1 c2 A Hs]. cbn [fst snd] in *.
      split_and!; [by eapply inv_step, good_is_step|by eapply told_step, good_is_step|by eapply unfailed_step]. }
  destruct Hc as (Hi & Ht & Hu).
  assert (Hend : forall c', rtc (task_step u OkStatus) c c' -> inv u e0 c' /\ told u e0 c' answers).
  { apply (rtc_ind_r (fun x => inv u e0 x /\ told u e0 x answers)); [done|]. intros y z _ Hs [Hi' Ht']. split; [by eapply inv_task|].
    rewrite <-(app_nil_r answers). change [] with (option_list (@None Answer)). eapply told_step; [done|done|by eapply step_task]. }
  split.
  - exists (left u e0 c). intros n c' Hn. destruct (bounded_run _ _ _ _ _ Hi Hu Hst Hn) as [Hle Hv]. split; [done|]. split; [apply task_enabled|]. intros Hnil.
    destruct (Hend c' (rtc_nsteps_2 _ _ _ Hn)) as [Hi' Ht']. specialize (Hv Hnil). split; [by apply (told_done _ _ _ _ Ht')|].
    by eapply told_never.
  - destruct (finishing_run u e0 c Hi Hu Hst) as (c' & Hr & Hnil & Hv). exists c'. split_and!; [done|done|]. destruct (Hend c' Hr) as [_ Ht']. by apply (told_done _ _ _ _ Ht').
Qed.

End theorems.

(** ** A receive of two pools *)

(** Threads run in the order of their tasks. *)
Fixpoint drive (uuid : Z) (fuel : nat) (c : Config) : Config :=
  match fuel, tasks c with
  | S fuel, t :: ts =>
      let '(s', new) := run_task uuid OkStatus t (state c) in
      drive uuid fuel (mkConfig s' (ts ++ new) (log c ++ task_events uuid t (state c)))
  | _, _ => c
  end.

Lemma drive_run uuid req fuel c answers : rtc (watched (good_step uuid req)) (c, answers) (drive uuid fuel c, answers).
Proof.
  revert c. induction fuel as [|fuel IH]; intros c; [done|]. cbn [drive]. destruct c as [s [|t ts] l]; cbn [tasks state log]; [done|].
  destruct (run_task uuid OkStatus t s) as [s' new] eqn:Hr. eapply rtc_l; [|apply IH]. rewrite <-(app_nil_r answers) at 2.
  apply (watch _ None), good_task. by apply (do_task uuid OkStatus s [] t ts).
Qed.

Definition arrive (uuid pool : Z) (c : Config) : Config :=
  let '(_, s', new) := OnPoolReceived (state c) pool uuid in mkConfig s' (tasks c ++ new) (log c).
Lemma arrive_run uuid req pool c answers : watched (good_step uuid req) (c, answers) (arrive uuid pool c, answers).
Proof.
  rewrite <-(app_nil_r answers) at 2. apply (watch _ None). unfold arrive. destruct c as [s ts l]. cbn.
  destruct (OnPoolReceived s pool uuid) as [[st s'] new] eqn:Hr. by eapply good_receive.
Qed.

(** Pool 1 has the lower rank; pool 0 arrives first. *)
Definition two_pools : list Pool.PoolSpec :=
  [Pool.mkPool "kv" 0 0 100 8 [Pool.mkRegion "all" 0 100 100 1 1] "bf16"; Pool.mkPool "state" 0 800 100 8 [Pool.mkRegion "all" 0 100 100 1 1] "bf16"].
Definition two_entry (group : Z) : Entry := Program.mkEntry "10.0.0.2:7000" 0 0 0 100 1 (5 + group) 0 0 1 None (Some group).
Definition two_plan : Plan :=
  Program.mkStart [] [] {[0 := [two_entry 0; two_entry 1]]} 9 false 2 true 0 "req" ["bf16"; "bf16"] [0; 1] 4 None
    [Program.mkGroup [0] [5] 1 [100] 1; Program.mkGroup [1] [6] 1 [100] 0] ∅ ∅.
Definition two_idle : State :=
  mkState (Manager.mkState 1 1 100 16 [[Manager.mkShard 4096 1600 1600]] [1600] two_pools true ∅ 0 0) ∅ ∅ ∅ ∅ ∅ ∅ ∅ 0 [] ∅ ∅.
Definition two_armed : State := default two_idle (snd <$> PoolReshardRegisterRecv two_idle two_plan [5; 6] 60).
Definition two_arrived : Config := arrive 9 1 (drive 9 4 (arrive 9 0 (mkConfig two_armed [] []))).

Lemma two_arrived_run : rtc (watched (good_step 9 "req")) (mkConfig two_armed [] [], []) (two_arrived, []).
Proof.
  eapply rtc_l; [apply (arrive_run 9 "req" 0)|]. etrans; [apply (drive_run 9 "req" 4)|]. apply rtc_once, arrive_run.
Qed.

Lemma good_steps uuid req x x' : rtc (watched (good_step uuid req)) x x' -> rtc (watched (step uuid req)) x x'.
Proof. induction 1 as [|x x1 x' Hs _ IH]; [done|]. eapply rtc_l; [|exact IH]. destruct Hs. by constructor; apply good_is_step. Qed.


Lemma pool_receive_reports_witness :
  exists c, rtc (task_step 9 OkStatus) two_arrived c /\ tasks c = [] /\ reported_done (plan_recv two_plan [5; 6] 60) c [].
Proof.
  assert (Harm : PoolReshardRegisterRecv two_idle two_plan [5; 6] 60 = Some (OkStatus, two_armed)) by (vm_compute; reflexivity).
  apply (pool_receive_reports two_idle two_armed two_plan [5; 6] 60 Harm ltac:(vm_compute; reflexivity) two_arrived []).
  - split; apply (bool_decide_unpack _); vm_compute; reflexivity.
  - apply two_arrived_run.
  - intros e. vm_compute (active_recv_entries_ _ !! _). intros [= <-]. vm_compute. reflexivity.
Defined.

(** A copy that outlives its receive: pool 1 is in flight when the receive times out, the
    request is armed again under the same uuid, and the end of the old copy marks pool 1 as
    uploaded although nothing has arrived for it; pool 0, which has to wait for pool 1, is
    then uploaded at once and the request is reported as received. *)
Definition two_stale : Config :=
  let c := drive 9 2 (arrive 9 1 (mkConfig two_armed [] [])) in
  let s := (CompleteReadRaw 60 (fun _ => false) (state c)).2 in
  mkConfig (default s (snd <$> PoolReshardRegisterRecv s two_plan [5; 6] 120)) (tasks c) [].

Theorem stale_upload_counts :
  tasks two_stale = [Upload 1; Track 1] /\
  (forall e, active_recv_entries_ (state two_stale) !! 9 = Some e -> e = plan_recv two_plan [5; 6] 120) /\
  log (arrive 9 0 (drive 9 4 two_stale)) = [Uploaded 1] /\
  log (drive 9 20 (arrive 9 0 (drive 9 4 two_stale))) = [Uploaded 1; Called 0 [5]; Uploaded 0; Verdict true].
Proof.
  split; [vm_compute; reflexivity|]. split; [|split; vm_compute; reflexivity].
  assert (H : active_recv_entries_ (state two_stale) !! 9 = Some (plan_recv two_plan [5; 6] 120)) by (vm_compute; reflexivity).
  intros e. rewrite H. by intros [= <-].
Qed.

End ExecutorProofs.
