(* ===== verification/PoolSend.v ===== *)
(** * Verdicts of a pool send

    [FinishPoolReshardSend] of [src/tpu_sync/core/kv_cache_manager_with_transfer.cc] counts
    the pushes of a send down: what a sequence of outcomes leads to, and a plan whose count
    is never reached. *)

From stdpp Require Import strings.
From S2P Require Import Prelude PoolLayout ReshardTypes TransferProgram PoolPlanCheck KVCacheManagerBase PoolExecutor.

Module PoolSend.
Import Executor.

(** The verdict of [n] expected pushes with the given outcomes: none while pushes are
    missing, bad at the first failure. *)
Fixpoint send_verdict (n : nat) (outcomes : list Status) : option bool :=
  match n, outcomes with
  | O, _ => Some true
  | _, [] => None
  | S m, st :: rest => if ok st then send_verdict m rest else Some false
  end.

Definition report_outcome (s : State) (req : string) (good : bool) : State := if good then sent s req else recv_failed s req.

Lemma finish_gone s uuid outcomes : active_pool_reshard_sends_ s !! uuid = None ->
  foldl (fun s st => FinishPoolReshardSend s uuid st) s outcomes = s.
Proof.
  intros Hn. induction outcomes as [|st rest IH]; [done|]. cbn [foldl].
  assert (FinishPoolReshardSend s uuid st = s) as ->; [|done]. unfold FinishPoolReshardSend, finish_push. by rewrite Hn.
Qed.

Lemma unregister_send s uuid st s' : unregister_plan s uuid = (st, s') ->
  active_pool_reshard_sends_ s' = active_pool_reshard_sends_ s /\ done_sending_ s' = done_sending_ s /\
  failed_recving_ s' = failed_recving_ s /\ ok st || is_not_found st = true.
Proof.
  unfold unregister_plan, Manager.UnregisterActivePlan. destruct (Manager.active_plans_ _ !! _); intros [= <- <-]; repeat split.
Qed.

(** What a finished send leaves behind. *)
Definition settled (s s' : State) (uuid : Z) (req : string) (good : bool) : Prop :=
  active_pool_reshard_sends_ s' = delete uuid (active_pool_reshard_sends_ s) /\
  done_sending_ s' = done_sending_ (report_outcome s req good) /\ failed_recving_ s' = failed_recving_ (report_outcome s req good).

Lemma finish_settles s uuid entry status bad :
  active_pool_reshard_sends_ s !! uuid = Some entry -> finalizing entry = false -> failed entry = false ->
  (bad = negb (ok status)) -> (bad = false -> remaining_pool_peer_pushes entry = 1) ->
  settled s (FinishPoolReshardSend s uuid status) uuid (send_req_id entry) (negb bad).
Proof.
  intros Hs Hf Hfail -> Hlast. unfold FinishPoolReshardSend, finish_push. rewrite Hs, Hf. destruct (ok status); cbn [negb].
  - rewrite (Hlast eq_refl). change (wrap32 (1 - 1) =? 0) with true. cbv iota.
    destruct (unregister_plan _ uuid) as [un s1] eqn:Hu. apply unregister_send in Hu as (H1 & H2 & H3 & H4).
    unfold report_send. rewrite H1. cbn [active_pool_reshard_sends_ with_sends]. rewrite lookup_insert_eq. cbn [failed].
    rewrite Hfail, <- negb_orb, H4. unfold settled. cbn. by rewrite H2, H3, delete_insert_eq.
  - destruct (unregister_plan _ uuid) as [un s1] eqn:Hu. apply unregister_send in Hu as (H1 & H2 & H3 & H4).
    unfold report_send. rewrite H1. cbn [active_pool_reshard_sends_ with_sends]. rewrite lookup_insert_eq. unfold settled. cbn.
    by rewrite H2, H3, delete_insert_eq.
Qed.

Lemma finish_counts s uuid entry status : ok status = true ->
  active_pool_reshard_sends_ s !! uuid = Some entry -> finalizing entry = false -> 1 < remaining_pool_peer_pushes entry <= int32_max ->
  FinishPoolReshardSend s uuid status =
  with_sends s (<[uuid := mkSend (send_req_id entry) (send_parallelism entry) (remaining_pool_peer_pushes entry - 1) (failed entry) false
                            (send_deadline entry) (send_plan entry)]> (active_pool_reshard_sends_ s)).
Proof.
  intros Hok Hs Hf Hr. unfold FinishPoolReshardSend, finish_push. rewrite Hs, Hf, Hok. cbn [negb].
  rewrite wrap32_id by (unfold in_int32, int32_min, int32_max in *; lia).
  by rewrite (proj2 (Z.eqb_neq _ _)) by lia.
Qed.

(** The outcomes of a send's pushes, in any order: while all are good and some are
    missing the send stays active with the number still missing; the first failure, or
    else the last missing push, settles it with the right verdict, and later outcomes
    change nothing. *)
Theorem pool_send_verdict s uuid entry n outcomes :
  active_pool_reshard_sends_ s !! uuid = Some entry -> finalizing entry = false -> failed entry = false ->
  remaining_pool_peer_pushes entry = Z.of_nat (S n) -> Z.of_nat (S n) <= int32_max ->
  let s' := foldl (fun s st => FinishPoolReshardSend s uuid st) s outcomes in
  match send_verdict (S n) outcomes with
  | Some good => settled s s' uuid (send_req_id entry) good
  | None =>
      (length outcomes <= n)%nat /\ done_sending_ s' = done_sending_ s /\ failed_recving_ s' = failed_recving_ s /\
      exists entry', active_pool_reshard_sends_ s' !! uuid = Some entry' /\
        remaining_pool_peer_pushes entry' = Z.of_nat (S n - length outcomes)
  end.
Proof.
  revert s entry n. induction outcomes as [|st rest IH]; intros s entry n Hs Hf Hfail Hrem Hmax; cbn zeta.
  { cbn. split; [lia|]. split; [done|]. split; [done|]. by exists entry. }
  cbn [send_verdict foldl]. destruct (ok st) eqn:Hst.
  - destruct n as [|n].
    + cbn [send_verdict]. pose proof (finish_settles s uuid entry st false Hs Hf Hfail) as Hset. rewrite Hst in Hset.
      specialize (Hset eq_refl ltac:(intros _; lia)). destruct rest as [|st' rest]; [done|]. cbn [send_verdict].
      rewrite finish_gone; [done|]. rewrite (proj1 Hset). apply lookup_delete_eq.
    + rewrite (finish_counts s uuid entry st) by (done || lia).
      set (s1 := with_sends s _). set (entry1 := mkSend _ _ _ _ _ _ _) in s1.
      assert (Hs1 : active_pool_reshard_sends_ s1 !! uuid = Some entry1) by apply lookup_insert_eq.
      specialize (IH s1 entry1 n Hs1 eq_refl Hfail ltac:(cbn [remaining_pool_peer_pushes entry1]; lia) ltac:(lia)). cbn zeta in IH.
      destruct (send_verdict (S n) rest) as [good|].
      * destruct IH as (H1 & H2 & H3). unfold settled. rewrite H1, H2, H3. cbn [s1 with_sends active_pool_reshard_sends_].
        rewrite delete_insert_eq. by destruct good.
      * destruct IH as (H1 & H2 & H3 & H4). cbn [length]. split; [lia|]. split; [done|]. split; [done|]. by rewrite Nat.sub_succ.
  - pose proof (finish_settles s uuid entry st true Hs Hf Hfail) as Hset. rewrite Hst in Hset. specialize (Hset eq_refl ltac:(done)).
    rewrite finish_gone; [done|]. rewrite (proj1 Hset). apply lookup_delete_eq.
Qed.

(** Two pools of two groups, each group pushed to a peer of its own. *)
Definition split_pools : list Pool.PoolSpec :=
  [Pool.mkPool "kv" 0 0 100 8 [Pool.mkRegion "all" 0 100 100 1 1] "bf16"; Pool.mkPool "state" 0 800 100 8 [Pool.mkRegion "all" 0 100 100 1 1] "bf16"].
Definition split_entry (peer : string) (group : Z) : Entry := Program.mkEntry peer 0 0 0 100 (1 + group) (5 + group) 0 0 1 None (Some group).
Definition split_plan : Plan :=
  Program.mkStart [] [] {[0 := [split_entry "10.0.0.2:7000" 0; split_entry "10.0.0.3:7000" 1]]} 9 true 2 true 0 "req" ["bf16"; "bf16"] [0; 1] 4 None
    [Program.mkGroup [0] [5] 1 [100] 0; Program.mkGroup [1] [6] 1 [100] 0] ∅ ∅.
Definition split_idle : State :=
  mkState (Manager.mkState 1 1 100 16 [[Manager.mkShard 4096 1600 1600]] [1600] split_pools true ∅ 0 0) ∅ ∅ ∅ ∅ ∅ ∅ ∅ 0 [] ∅ ∅.
Definition staged : option (Status * State * list (Z * gset Z)) := PoolReshardPush (fun _ _ => OkStatus) split_idle split_plan [1; 2] 1 60.
Definition split_sending : State := from_option (fun r => r.1.2) split_idle staged.

(** Every push of every staged pool, and a good outcome for each. *)
Definition all_pushes (s : State) (uuid : Z) (pools : list Z) : list (string * list (Z * Z)) :=
  pools ≫= fun p => (StartPoolReshardPush true s uuid p).1.

(** A send whose pools go to different peers is counted for every pool and peer, so it is
    still active, and unreported, after each of its pushes has ended well. *)
Theorem split_send_never_settles :
  fst <$> (fst <$> staged) = Some OkStatus /\
  all_pushes split_sending 9 [0; 1] = [("10.0.0.2:7000", [(1, 5)]); ("10.0.0.3:7000", [(2, 6)])] /\
  let s' := foldl (fun s st => FinishPoolReshardSend s 9 st) split_sending ((fun _ => OkStatus) <$> all_pushes split_sending 9 [0; 1]) in
  done_sending_ s' = ∅ /\ failed_recving_ s' = ∅ /\
  remaining_pool_peer_pushes <$> (active_pool_reshard_sends_ s' !! 9) = Some 2.
Proof. vm_compute. repeat split. Qed.

Lemma pool_send_verdict_witness :
  settled split_sending (foldl (fun s st => FinishPoolReshardSend s 9 st) split_sending [OkStatus; OkStatus; OkStatus; OkStatus; OkStatus])
    9 "req" true /\
  settled split_sending (foldl (fun s st => FinishPoolReshardSend s 9 st) split_sending [OkStatus; Err kInternal []; OkStatus]) 9 "req" false.
Proof.
  assert (Hs : exists entry, active_pool_reshard_sends_ split_sending !! 9 = Some entry /\ finalizing entry = false /\ failed entry = false /\
    remaining_pool_peer_pushes entry = 4 /\ send_req_id entry = "req") by (eexists; split; [vm_compute; reflexivity|repeat split]).
  destruct Hs as (entry & H1 & H2 & H3 & H4 & H5).
  pose proof (pool_send_verdict split_sending 9 entry 3 [OkStatus; OkStatus; OkStatus; OkStatus; OkStatus] H1 H2 H3 H4 ltac:(done)) as Ha.
  pose proof (pool_send_verdict split_sending 9 entry 3 [OkStatus; Err kInternal []; OkStatus] H1 H2 H3 H4 ltac:(done)) as Hb.
  rewrite H5 in Ha, Hb. split; [exact Ha|exact Hb].
Defined.

End PoolSend.
