(* ===== verification/RawBufferTransport.v ===== *)
(** * Raw buffer transport

    [src/tpu_sync/transport/lib/raw_buffer_transport.cc]: pushes and pulls of byte ranges of
    whole host buffers.  The batches of a push and their bytes, the handler of a request of
    a peer, and the count of chunks by which a receiver knows that a layer, and then a
    transfer, is complete.  Memory is a function from addresses to bytes, a connection the
    list of bytes not yet read; whether an answer can still be written is an argument. *)

From stdpp Require Import strings.
From S2P Require Import Prelude Bytes ChunkSerializer BlockTransport.

Module RawTransport.
Import Transport (Memory, BlockChunk, IOV_MAX, gather, scatter, WriteVExact, ReadExact, ReadVExact).

(** ** Batches of a push *)

Record BufferPushTask : Type := mkTask {
  peer : string;
  buffer_id : Z;
  dst_shard_idx : Z;
  dst_offset_bytes : Z;
  data_ptr : Z;
  size_bytes : Z
}.

Record BatchInfo : Type := mkBatch {
  b_peer : string;
  start_idx : nat;
  count : nat
}.

Definition peer_ltb (a b : BufferPushTask) : bool := String.ltb (peer a) (peer b).

(** How many tasks at the front go to the same peer. *)
Fixpoint peer_run (p : string) (tasks : list BufferPushTask) : nat :=
  match tasks with
  | t :: rest => if bool_decide (peer t = p) then S (peer_run p rest) else 0
  | [] => 0
  end.

(** The tasks of a sub-batch: the first, and those that still fit in the window. *)
Fixpoint sub_batch (window : Z) (tasks : list BufferPushTask) (bytes : Z) (n : nat) : nat :=
  match tasks with
  | [] => n
  | t :: rest =>
      if (0 <? n)%nat && (window <? u64 (bytes + size_bytes t)) then n
      else sub_batch window rest (u64 (bytes + size_bytes t)) (S n)
  end.

(** The sub-batches of a chunk of tasks; every one takes at least one task. *)
Fixpoint sub_batches (fuel : nat) (window : Z) (p : string) (start : nat) (tasks : list BufferPushTask) : list BatchInfo :=
  match fuel, tasks with
  | S fuel, _ :: _ =>
      let n := sub_batch window tasks 0 0 in
      mkBatch p start n :: sub_batches fuel window p (start + n) (drop n tasks)
  | _, _ => []
  end.

Definition chunk_batches (window : Z) (p : string) (start : nat) (tasks : list BufferPushTask) : list BatchInfo :=
  if 0 <? window then sub_batches (length tasks) window p start tasks else [mkBatch p start (length tasks)].

(** The tasks of one peer in chunks of [base] tasks. *)
Fixpoint peer_batches (fuel : nat) (window : Z) (base : nat) (p : string) (start : nat) (tasks : list BufferPushTask) : list BatchInfo :=
  match fuel, tasks with
  | S fuel, _ :: _ =>
      let n := Nat.min base (length tasks) in
      chunk_batches window p start (take n tasks) ++ peer_batches fuel window base p (start + n) (drop n tasks)
  | _, _ => []
  end.

Definition base_batch_size (parallelism : Z) (n : nat) : nat :=
  let p := Z.max 1 parallelism in
  Z.to_nat (Z.min (Z.max ((Z.of_nat n + p - 1) / p) 1) IOV_MAX).

Fixpoint all_batches (fuel : nat) (window parallelism : Z) (start : nat) (tasks : list BufferPushTask) : list BatchInfo :=
  match fuel, tasks with
  | S fuel, t :: _ =>
      let n := peer_run (peer t) tasks in
      peer_batches n window (base_batch_size parallelism n) (peer t) start (take n tasks) ++
      all_batches fuel window parallelism (start + n) (drop n tasks)
  | _, _ => []
  end.

Definition grouped_tasks (tasks : list BufferPushTask) : list BufferPushTask := sort_by peer_ltb tasks.
Definition batches (window parallelism : Z) (tasks : list BufferPushTask) : list BatchInfo :=
  all_batches (length tasks) window parallelism 0 (grouped_tasks tasks).

Definition batch_tasks (grouped : list BufferPushTask) (b : BatchInfo) : list BufferPushTask :=
  take (count b) (drop (start_idx b) grouped).

(** One after the other up to the first failure. *)
Fixpoint push_in_turn (push : BatchInfo -> Status) (bs : list BatchInfo) : list BatchInfo * Status :=
  match bs with
  | [] => ([], OkStatus)
  | b :: rest =>
      match push b with
      | Ok _ => let '(done, st) := push_in_turn push rest in (b :: done, st)
      | Err c m => ([b], Err c m)
      end
  end.

(** The batches pushed ([push] is the outcome of [PushBatch]) and the status. *)
Definition PushBuffers (push : BatchInfo -> Status) (window parallelism : Z) (tasks : list BufferPushTask) :
    list BatchInfo * Status :=
  let bs := batches window parallelism tasks in
  if bool_decide (bs = []) then ([], OkStatus)
  else if (parallelism <=? 1) || (length bs =? 1)%nat then push_in_turn push bs
  else (bs, default OkStatus (List.find (fun st => negb (ok st)) (push <$> bs))).

(** ** The bytes of a request *)

Definition kOpBufferPull : Z := 3.
Definition kOpBufferPush : Z := 5.
Definition kOpBufferPushBatched : Z := 7.

Definition batch_header (n : nat) (uuid : Z) : Chunk.ChunkHeader :=
  Chunk.mkHeader 1 kOpBufferPushBatched 0 0 0 (Z.of_nat (Chunk.GetChunkMetadataSize 1)) 0 0 0 (u32 (Z.of_nat n)) uuid.

Definition task_metadata (t : BufferPushTask) : Chunk.ChunkMetadata :=
  Chunk.mkMetadata (u32 (buffer_id t)) (u32 (dst_shard_idx t)) (u64 (dst_offset_bytes t)) (u64 (size_bytes t)).

Definition task_iov (t : BufferPushTask) : BlockChunk := (data_ptr t, size_bytes t).

(** The payload: packed, or gathered from the tasks that are not empty. *)
Definition batch_payload (mem : Memory) (window : Z) (tasks : list BufferPushTask) : StatusOr (list Z) :=
  if 0 <? window then Ok (gather mem (task_iov <$> tasks))
  else
    let iovs := List.filter (fun c : BlockChunk => 0 <? c.2) (task_iov <$> tasks) in
    if bool_decide (iovs = []) then Ok [] else WriteVExact mem iovs.

(** What [PushBatch] writes. *)
Definition PushBatch (mem : Memory) (window : Z) (p : string) (tasks : list BufferPushTask) (uuid : Z) : StatusOr (list Z) :=
  if bool_decide (p = EmptyString) then Err kInvalidArgument StrCat["Destination peer address cannot be empty"]
  else
    let head := Chunk.SerializeChunkHeader (batch_header (length tasks) uuid) ++
                (tasks ≫= fun t => Chunk.SerializeChunkMetadata (task_metadata t)) in
    let? payload := batch_payload mem window tasks in
    Ok (head ++ payload).

Definition push_header (r : Transport.Request) : Chunk.ChunkHeader :=
  Chunk.mkHeader 1 kOpBufferPush 0 (Transport.req_layer_idx r mod 2 ^ 16) 0 0 0 (Transport.req_remote_id r)
    (Transport.req_local_id r) (u32 (Transport.len r)) (Transport.req_uuid r).

(** What [ProcessSocketBufferPush] writes. *)
Definition ProcessSocketBufferPush (mem : Memory) (p : string) (r : Transport.Request) : StatusOr (list Z) :=
  if bool_decide (p = EmptyString) then Err kInvalidArgument StrCat["Destination peer address cannot be empty"]
  else if negb (Transport.socket_opcode r =? kOpBufferPush) then
    Err kInvalidArgument StrCat["Unsupported buffer push opcode: "; Transport.socket_opcode r]
  else Ok (Chunk.SerializeChunkHeader (push_header r) ++ gather mem [(Transport.laddr r, Transport.len r)]).

Definition pull_header (buffer_id src_shard_idx src_offset_bytes size_bytes : Z) : Chunk.ChunkHeader :=
  Chunk.mkHeader 1 kOpBufferPull 0 (buffer_id mod 2 ^ 16) 0 0 0 (u32 src_offset_bytes) (u32 src_shard_idx) (u32 size_bytes) 0.

(** ** Receive progress *)

Record RawProgress : Type := mkProgress {
  completed_chunks : Z;
  expected_chunks : option Z;
  completed_chunks_per_layer : gmap Z Z;
  expected_chunks_per_layer : gmap Z Z;
  triggered_layers : gset Z
}.
Definition fresh_progress : RawProgress := mkProgress 0 None ∅ ∅ ∅.
Abbreviation ProgressMap := (gmap Z RawProgress).

(** The calls of the delegate a step leads to, made in order until one fails. *)
Inductive Callback : Type :=
  | OnLayerDataReceived (layer_idx : Z)
  | OnDataReceived.
Fixpoint run_callbacks (call : Callback -> Status) (cs : list Callback) : list Callback * Status :=
  match cs with
  | [] => ([], OkStatus)
  | c :: rest =>
      match call c with
      | Ok _ => let '(done, st) := run_callbacks call rest in (c :: done, st)
      | Err k m => ([c], Err k m)
      end
  end.

(** One chunk of a layer: the layer is triggered by its last expected chunk. *)
Definition count_layer (acc : RawProgress * list Z) (l : Z) : RawProgress * list Z :=
  let '(prog, triggered) := acc in
  let n := u32 (default 0 (completed_chunks_per_layer prog !! l) + 1) in
  let per_layer := <[l := n]> (completed_chunks_per_layer prog) in
  if bool_decide (expected_chunks_per_layer prog !! l = Some n) && negb (bool_decide (l ∈ triggered_layers prog)) then
    (mkProgress (completed_chunks prog) (expected_chunks prog) per_layer (expected_chunks_per_layer prog) ({[l]} ∪ triggered_layers prog),
     triggered ++ [l])
  else (mkProgress (completed_chunks prog) (expected_chunks prog) per_layer (expected_chunks_per_layer prog) (triggered_layers prog), triggered).

(** The critical section after the chunks of [layers] arrived for [uuid].  The callbacks are
    what the thread makes of it after it has released the mutex, in this order and up to the
    first that fails ([RawProofs.exec]). *)
Definition account_chunks (uuid : Z) (layers : list Z) (m : ProgressMap) : list Callback * ProgressMap :=
  if uuid <=? 0 then ([], m)
  else
    let prog := default fresh_progress (m !! uuid) in
    let prog := mkProgress (u32 (completed_chunks prog + Z.of_nat (length layers))) (expected_chunks prog)
                  (completed_chunks_per_layer prog) (expected_chunks_per_layer prog) (triggered_layers prog) in
    let '(prog, triggered) := foldl count_layer (prog, []) layers in
    if bool_decide (expected_chunks prog = Some (completed_chunks prog))
    then ((OnLayerDataReceived <$> triggered) ++ [OnDataReceived], delete uuid m)
    else (OnLayerDataReceived <$> triggered, <[uuid := prog]> m).

Definition RegisterExpectedChunks (uuid n : Z) (m : ProgressMap) : Status * list Callback * ProgressMap :=
  if n =? 0 then (Err kInvalidArgument StrCat["expected_chunks must be positive"], [], m)
  else
    let prog := default fresh_progress (m !! uuid) in
    if completed_chunks prog =? n then (OkStatus, [OnDataReceived], delete uuid m)
    else (OkStatus, [], <[uuid := mkProgress (completed_chunks prog) (Some n) (completed_chunks_per_layer prog)
                                    (expected_chunks_per_layer prog) (triggered_layers prog)]> m).

Definition register_layer (prog : RawProgress) (acc : gset Z * list Z) (lc : Z * Z) : gset Z * list Z :=
  let '(triggered, out) := acc in
  if bool_decide (completed_chunks_per_layer prog !! lc.1 = Some lc.2) && negb (bool_decide (lc.1 ∈ triggered))
  then ({[lc.1]} ∪ triggered, out ++ [lc.1]) else acc.

Definition RegisterExpectedLayerChunks (uuid : Z) (expected : gmap Z Z) (m : ProgressMap) : list Callback * ProgressMap :=
  if bool_decide (expected = ∅) then ([], m)
  else
    let prog := default fresh_progress (m !! uuid) in
    let '(triggered, out) := foldl (register_layer prog) (triggered_layers prog, []) (map_to_list expected) in
    (OnLayerDataReceived <$> out,
     <[uuid := mkProgress (completed_chunks prog) (expected_chunks prog) (completed_chunks_per_layer prog) expected triggered]> m).

Definition ForgetPushProgress (uuid : Z) (m : ProgressMap) : ProgressMap := delete uuid m.

(** ** The handler of a request *)

Record Delegate (S : Type) : Type := mkDelegate {
  GetHostPointer : S -> Z -> Z -> Z;
  GetHostSize : S -> Z -> Z -> Z
}.
Arguments mkDelegate {S}. Arguments GetHostPointer {S}. Arguments GetHostSize {S}.

(** What a request leads to: the status, the bytes written back, the memory, the bytes
    left on the connection, the progress and the calls of the delegate. *)
Record Answer : Type := mkAnswer {
  a_status : Status;
  a_output : list Z;
  a_memory : Memory;
  a_rest : list Z;
  a_progress : ProgressMap;
  a_callbacks : list Callback
}.

Section handler.
Context {S : Type} (d : Delegate S) (s : S).

(** [ReadExact] into memory: bytes that came before the end are in place. *)
Definition recv_into (mem : Memory) (addr n : Z) (input : list Z) : Status * (Memory * list Z) :=
  let n := Z.to_nat n in
  (if (n <=? length input)%nat then OkStatus else Err kInternal StrCat["recv eof"],
   (scatter mem [(addr, Z.of_nat n)] (take n input), drop n input)).

(** The acknowledgement ([wrote]: the peer could be written to) and the count. *)
Definition acknowledge (wrote : bool) (uuid : Z) (layers : list Z) (mem : Memory) (rest : list Z) (m : ProgressMap) : Answer :=
  if negb wrote then mkAnswer (Err kInternal StrCat["send"]) [] mem rest m []
  else let '(calls, m') := account_chunks uuid layers m in mkAnswer OkStatus [1] mem rest m' calls.

Definition handle_pull (wrote : bool) (header : Chunk.ChunkHeader) (mem : Memory) (rest : list Z) (m : ProgressMap) : Answer :=
  let base := GetHostPointer d s (Chunk.buffer_id header) (Chunk.local_id header) in
  let host_size := GetHostSize d s (Chunk.buffer_id header) (Chunk.local_id header) in
  let src_offset := Chunk.remote_id header in
  let size := Chunk.count_or_size header in
  if (base =? 0) || (host_size <? u32 (src_offset + size)) then
    mkAnswer (Err kInvalidArgument StrCat["Source out of bounds"]) [] mem rest m []
  else if negb wrote then mkAnswer (Err kInternal StrCat["send"]) [] mem rest m []
  else mkAnswer OkStatus (gather mem [(base + src_offset, size)]) mem rest m [].

Definition handle_push (wrote : bool) (header : Chunk.ChunkHeader) (mem : Memory) (rest : list Z) (m : ProgressMap) : Answer :=
  let base := GetHostPointer d s (Chunk.buffer_id header) (Chunk.local_id header) in
  let host_size := GetHostSize d s (Chunk.buffer_id header) (Chunk.local_id header) in
  let dst_offset := Chunk.remote_id header in
  let size := Chunk.count_or_size header in
  if (base =? 0) || (host_size <? u32 (dst_offset + size)) then
    mkAnswer (Err kInvalidArgument StrCat["Destination out of bounds"]) [] mem rest m []
  else
    let '(st, (mem', rest')) := recv_into mem (base + dst_offset) size rest in
    if negb (ok st) then mkAnswer st [] mem' rest' m []
    else acknowledge wrote (Chunk.uuid header) [Chunk.buffer_id header] mem' rest' m.

(** The metadata of a batch. *)
Definition parse_metadata (ver : Z) (n : nat) (bytes : list Z) : StatusOr (list Chunk.ChunkMetadata) :=
  let m_size := Chunk.GetChunkMetadataSize ver in
  for_each (fun acc i => let? meta := Chunk.DeserializeChunkMetadata (take m_size (drop (i * m_size) bytes)) ver in Ok (acc ++ [meta]))
    (seq 0 n) [].

(** The vectors of a batch, in the order of its metadata. *)
Definition batch_step (iovs : list BlockChunk) (meta : Chunk.ChunkMetadata) : StatusOr (list BlockChunk) :=
  let base := GetHostPointer d s (Chunk.layer_idx meta) (Chunk.dst_shard_idx meta) in
  let host_size := GetHostSize d s (Chunk.layer_idx meta) (Chunk.dst_shard_idx meta) in
  if (base =? 0) || (host_size <? u64 (Chunk.dst_offset_bytes meta + Chunk.size_bytes meta)) then
    Err kInvalidArgument StrCat["Destination out of bounds in batched push"]
  else if 0 <? Chunk.size_bytes meta then Ok (iovs ++ [(base + Chunk.dst_offset_bytes meta, Chunk.size_bytes meta)])
  else Ok iovs.

Definition handle_batch (wrote : bool) (header : Chunk.ChunkHeader) (mem : Memory) (rest : list Z) (m : ProgressMap) : Answer :=
  let failed st mem rest := mkAnswer st [] mem rest m [] in
  let batch_size := Chunk.count_or_size header in
  if IOV_MAX <? batch_size then
    failed (Err kInvalidArgument StrCat["Batch size "; batch_size; " exceeds IOV_MAX ("; IOV_MAX; ")"]) mem rest
  else
    let n := Z.to_nat batch_size in
    match ReadExact (Chunk.GetChunkMetadataSize (Chunk.version header) * n) rest with
    | Err c msg => failed (Err c msg) mem []
    | Ok (meta_buf, rest) =>
        match parse_metadata (Chunk.version header) n meta_buf with
        | Err c msg => failed (Err c msg) mem rest
        | Ok metadata =>
            match for_each batch_step metadata [] with
            | Err c msg => failed (Err c msg) mem rest
            | Ok iovs =>
                let total_bytes := foldl (fun t (c : BlockChunk) => u64 (t + c.2)) 0 iovs in
                let '(st, (mem', rest')) := if 0 <? total_bytes then ReadVExact mem iovs rest else (OkStatus, (mem, rest)) in
                if negb (ok st) then failed st mem' rest'
                else acknowledge wrote (Chunk.uuid header) (Chunk.layer_idx <$> metadata) mem' rest' m
            end
        end
    end.

(** [custom]: the handler of the other opcodes, when there is one. *)
Definition ProcessPeerRequest (custom : option (Chunk.ChunkHeader -> list Z -> Answer)) (wrote : bool) (mem : Memory) (input : list Z)
    (m : ProgressMap) : Answer :=
  match ReadExact Chunk.kChunkHeaderSize input with
  | Err c msg => mkAnswer (Err c msg) [] mem [] m []
  | Ok (bytes, rest) =>
      match Chunk.DeserializeChunkHeader bytes with
      | Err c msg => mkAnswer (Err c msg) [] mem rest m []
      | Ok header =>
          if Chunk.op header =? kOpBufferPull then handle_pull wrote header mem rest m
          else if Chunk.op header =? kOpBufferPush then handle_push wrote header mem rest m
          else if Chunk.op header =? kOpBufferPushBatched then handle_batch wrote header mem rest m
          else
            match custom with
            | Some handler => handler header rest
            | None => mkAnswer (Err kUnimplemented StrCat["Unsupported raw transport op code: "; Chunk.op header]) [] mem rest m []
            end
      end
  end.

(** [PullBuffer]: the request, and what the bytes of the answer do. *)
Definition PullBuffer (p : string) (buffer_id src_shard_idx src_offset dst_shard_idx dst_offset size : Z) (mem : Memory)
    (answer : list Z) : StatusOr (list Z * (Status * Memory)) :=
  if bool_decide (p = EmptyString) then Err kInvalidArgument StrCat["Source peer address cannot be empty"]
  else
    let host_size := GetHostSize d s buffer_id dst_shard_idx in
    if host_size <? u64 (dst_offset + size) then
      Err kInvalidArgument
        StrCat["Destination offset out of bounds. Offset: "; dst_offset; ", Size: "; size; ", Shard Host Size: "; host_size]
    else
      let '(st, (mem', _)) := recv_into mem (GetHostPointer d s buffer_id dst_shard_idx + dst_offset) size answer in
      Ok (Chunk.SerializeChunkHeader (pull_header buffer_id src_shard_idx src_offset size), (st, mem')).

End handler.
End RawTransport.
