(* ===== verification/RawBufferProofs.v ===== *)
(** * What the raw buffer transport guarantees

    The batches of a push are its tasks, in the order of each peer; the bytes of a batch,
    handled by the peer, put every task in its place; and the count of chunks triggers each
    layer and the transfer once, on the last chunk, whenever the expectation is registered. *)

From stdpp Require Import strings.
From S2P Require Import Prelude Bytes PoolPlanCheck PoolPlanReceiver ChunkSerializer KVCacheManagerBase BlockTransport DataPath RawBufferTransport.

Module RawProofs.
Import Transport (Memory, BlockChunk, IOV_MAX, gather, scatter, WriteVExact, ReadExact, ReadVExact).
Import RawTransport.

(** ** Batches *)

(** The tasks that stand at an index of the grouped list. *)
Definition located (grouped : list BufferPushTask) (start : nat) (tasks : list BufferPushTask) : Prop :=
  take (length tasks) (drop start grouped) = tasks.

Lemma located_app grouped start a b : located grouped start (a ++ b) -> located grouped start a /\ located grouped (start + length a) b.
Proof.
  unfold located. rewrite length_app. intros H. rewrite <- (take_drop (length a) (take _ _)) in H.
  rewrite take_take, Nat.min_l, skipn_firstn_comm, drop_drop in H by lia.
  replace (length a + length b - length a)%nat with (length b) in H by lia.
  assert (Hl : length (take (length a) (drop start grouped)) = length a).
  { apply (f_equal length) in H. rewrite !length_app in H. pose proof (length_take_le (drop start grouped) (length a)).
    rewrite length_take in *. pose proof (length_take (drop (start + length a) grouped) (length b)). lia. }
  by apply app_inj_1 in H.
Qed.

Lemma located_split grouped start n tasks : (n <= length tasks)%nat -> located grouped start tasks ->
  located grouped start (take n tasks) /\ located grouped (start + n) (drop n tasks).
Proof.
  intros Hn H. rewrite <- (take_drop n tasks) in H. apply located_app in H as [H1 H2]. by rewrite length_take, Nat.min_l in H2 by lia.
Qed.

Definition sizes (tasks : list BufferPushTask) : Z := zsum (size_bytes <$> tasks).

(** A batch that obeys the bounds of a push. *)
Record good_batch (window : Z) (limit : nat) (p : string) (grouped : list BufferPushTask) (b : BatchInfo) : Prop := {
  gb_peer : b_peer b = p;
  gb_count : (0 < count b <= limit)%nat;
  gb_length : length (batch_tasks grouped b) = count b;
  gb_window : 0 < window -> count b = 1%nat \/ sizes (batch_tasks grouped b) <= window
}.

Definition sized (tasks : list BufferPushTask) : Prop := Forall (fun t => 0 <= size_bytes t) tasks /\ sizes tasks < 2 ^ 64.

Lemma sized_cons t tasks : sized (t :: tasks) -> 0 <= size_bytes t /\ 0 <= sizes tasks /\ sized tasks.
Proof.
  intros [Hf Hs]. apply Forall_cons in Hf as [Ht Hf]. unfold sizes in *. rewrite fmap_cons, zsum_cons in Hs.
  assert (0 <= zsum (size_bytes <$> tasks)) by (apply zsum_nonneg, Forall_fmap; done). split; [done|]. split; [done|]. split; [done|]. unfold sizes. lia.
Qed.

Lemma sized_split n tasks : sized tasks -> sized (take n tasks) /\ sized (drop n tasks).
Proof.
  revert n. induction tasks as [|t tasks IH]; intros n H; [by rewrite take_nil, drop_nil|]. destruct n as [|n]; [split; [split; [done|cbn; lia]|done]|].
  pose proof (sized_cons _ _ H) as (Ht & Hn & Hs). destruct (IH n Hs) as [[H1 H2] H3]. split; [|done]. cbn [take].
  split; [by constructor|]. destruct H as [_ H]. unfold sizes in *. rewrite !fmap_cons, !zsum_cons in *.
  assert (zsum (size_bytes <$> take n tasks) <= zsum (size_bytes <$> tasks)).
  { rewrite <- (take_drop n tasks) at 2. rewrite fmap_app, zsum_app. destruct H3 as [H3 _].
    assert (0 <= zsum (size_bytes <$> drop n tasks)) by (apply zsum_nonneg, Forall_fmap; done). lia. }
  lia.
Qed.

Lemma sub_batch_spec window tasks bytes k : 0 <= bytes -> Forall (fun t => 0 <= size_bytes t) tasks -> bytes + sizes tasks < 2 ^ 64 ->
  exists j, sub_batch window tasks bytes k = (k + j)%nat /\ (j <= length tasks)%nat /\ (k = 0%nat -> tasks ≠ [] -> (0 < j)%nat) /\
    ((k <= 1)%nat \/ bytes <= window -> (k + j <= 1)%nat \/ bytes + sizes (take j tasks) <= window).
Proof.
  revert bytes k. induction tasks as [|t tasks IH]; intros bytes k Hb Hf Hs.
  { exists 0%nat. unfold sizes. cbn. split; [lia|]. split; [lia|]. split; [done|]. lia. }
  apply Forall_cons in Hf as [Ht Hf]. unfold sizes in *. rewrite fmap_cons, zsum_cons in Hs.
  assert (Hn : 0 <= zsum (size_bytes <$> tasks)) by (apply zsum_nonneg, Forall_fmap; done).
  cbn [sub_batch]. rewrite u64_id by lia. destruct (0 <? k)%nat eqn:Hk; cbn [andb].
  - destruct (window <? bytes + size_bytes t) eqn:Hw.
    + exists 0%nat. apply Nat.ltb_lt in Hk. split; [lia|]. split; [lia|]. split; [lia|]. cbn. intros [?|?]; [left; lia|right; lia].
    + apply Z.ltb_ge in Hw. destruct (IH (bytes + size_bytes t) (S k)) as (j & -> & Hj & _ & Hc); [lia|done|lia|].
      exists (S j). split; [lia|]. split; [cbn; lia|]. split; [lia|]. intros _. cbn [take]. rewrite fmap_cons, zsum_cons. destruct Hc; [by right|left; lia|right; lia].
  - apply Nat.ltb_ge in Hk. destruct (IH (bytes + size_bytes t) (S k)) as (j & -> & Hj & _ & Hc); [lia|done|lia|].
    exists (S j). split; [lia|]. split; [cbn; lia|]. split; [lia|]. intros _. cbn [take]. rewrite fmap_cons, zsum_cons. destruct Hc; [left; lia|left; lia|right; lia].
Qed.

Lemma located_batch grouped start p tasks : located grouped start tasks -> batch_tasks grouped (mkBatch p start (length tasks)) = tasks.
Proof. done. Qed.

Lemma good_batch_mono window l1 l2 p grouped b : (l1 <= l2)%nat -> good_batch window l1 p grouped b -> good_batch window l2 p grouped b.
Proof. intros Hl []. split; [done|lia|done|done]. Qed.

(** What each of the loops produces for a located part of the list. *)
Definition splits (window : Z) (limit : nat) (p : string) (grouped : list BufferPushTask) (bs : list BatchInfo) (tasks : list BufferPushTask) : Prop :=
  bs ≫= batch_tasks grouped = tasks /\ Forall (good_batch window limit p grouped) bs.

Lemma splits_app window limit p grouped b1 b2 t1 t2 :
  splits window limit p grouped b1 t1 -> splits window limit p grouped b2 t2 -> splits window limit p grouped (b1 ++ b2) (t1 ++ t2).
Proof. intros [H1 H2] [H3 H4]. split; [by rewrite bind_app, H1, H3|by apply Forall_app]. Qed.

Lemma sub_batches_split fuel window p grouped start tasks limit :
  (length tasks <= fuel)%nat -> (length tasks <= limit)%nat -> 0 < window -> sized tasks -> located grouped start tasks ->
  splits window limit p grouped (sub_batches fuel window p start tasks) tasks.
Proof.
  revert start tasks. induction fuel as [|fuel IH]; intros start tasks Hf Hl Hw Hs Hloc; [by destruct tasks; [|cbn in Hf; lia]|].
  destruct tasks as [|t tasks]; [done|]. cbn [sub_batches]. set (ts := t :: tasks) in *.
  destruct (sub_batch_spec window ts 0 0) as (j & -> & Hj & Hpos & Hfit); [lia|apply Hs|apply Hs|]. cbn [Nat.add].
  specialize (Hpos eq_refl ltac:(done)). destruct (located_split grouped start j ts Hj Hloc) as [L1 L2].
  destruct (sized_split j ts Hs) as [_ S2]. assert (Hlen : length (take j ts) = j) by (rewrite length_take; lia).
  assert (Hb : batch_tasks grouped (mkBatch p start j) = take j ts).
  { rewrite <- Hlen. rewrite located_batch; [by rewrite Hlen|done]. }
  refine (eq_ind _ (splits window limit p grouped _) _ _ (take_drop j ts)). apply (splits_app _ _ _ _ [_]).
  - split; [cbn [mbind list_bind]; rewrite app_nil_r; exact Hb|]. constructor; [|constructor].
    split; [done|cbn; lia|by rewrite Hb|]. intros _. rewrite Hb. cbn [count]. destruct (Hfit ltac:(left; lia)) as [?|?]; [left; lia|right; lia].
  - apply IH; [rewrite length_drop; lia|rewrite length_drop; lia|done|done|done].
Qed.

Lemma chunk_batches_split window p grouped start tasks limit :
  tasks ≠ [] -> (length tasks <= limit)%nat -> sized tasks -> located grouped start tasks ->
  splits window limit p grouped (chunk_batches window p start tasks) tasks.
Proof.
  intros Hne Hl Hs Hloc. unfold chunk_batches. destruct (0 <? window) eqn:Hw.
  - apply sub_batches_split; [lia|done|lia|done|done].
  - split; [cbn [mbind list_bind]; by rewrite app_nil_r|]. constructor; [|constructor]. split; [done| |by rewrite located_batch|lia].
    cbn [count]. destruct tasks; [done|cbn in *; lia].
Qed.

Lemma peer_batches_split fuel window base p grouped start tasks :
  (length tasks <= fuel)%nat -> (0 < base)%nat -> sized tasks -> located grouped start tasks ->
  splits window base p grouped (peer_batches fuel window base p start tasks) tasks.
Proof.
  revert start tasks. induction fuel as [|fuel IH]; intros start tasks Hf Hb Hs Hloc; [by destruct tasks; [|cbn in Hf; lia]|].
  destruct tasks as [|t tasks]; [done|]. cbn [peer_batches]. set (ts := t :: tasks) in *. set (n := Nat.min base (length ts)).
  assert (Hn : (0 < n <= length ts)%nat) by (subst n; cbn; lia). destruct (located_split grouped start n ts ltac:(lia) Hloc) as [L1 L2].
  destruct (sized_split n ts Hs) as [S1 S2]. refine (eq_ind _ (splits window base p grouped _) _ _ (take_drop n ts)). apply splits_app.
  - apply chunk_batches_split; [|rewrite length_take; subst n; lia|done|done].
    intros Hnil%(f_equal length). rewrite length_take in Hnil. cbn [length] in Hnil. lia.
  - apply IH; [rewrite length_drop; lia|done|done|done].
Qed.

Lemma peer_run_le p tasks : (peer_run p tasks <= length tasks)%nat.
Proof. induction tasks as [|t tasks IH]; cbn; [lia|]. case_bool_decide; lia. Qed.

Lemma peer_run_peer p tasks : Forall (fun t => peer t = p) (take (peer_run p tasks) tasks).
Proof. induction tasks as [|t tasks IH]; cbn; [constructor|]. case_bool_decide; [by constructor|constructor]. Qed.

Lemma base_batch_size_bounds parallelism n : (0 < base_batch_size parallelism n <= 1024)%nat.
Proof. unfold base_batch_size, IOV_MAX. lia. Qed.

(** A batch of tasks of one peer. *)
Definition proper_batch (window : Z) (grouped : list BufferPushTask) (b : BatchInfo) : Prop :=
  good_batch window 1024 (b_peer b) grouped b /\ Forall (fun t => peer t = b_peer b) (batch_tasks grouped b).

Lemma splits_proper window limit p grouped bs tasks :
  (limit <= 1024)%nat -> Forall (fun t => peer t = p) tasks -> splits window limit p grouped bs tasks ->
  bs ≫= batch_tasks grouped = tasks /\ Forall (proper_batch window grouped) bs.
Proof.
  intros Hl Hp [Hc Hg]. split; [done|]. rewrite <- Hc in Hp. apply Forall_forall. intros b Hb.
  pose proof (proj1 (Forall_forall _ _) Hg b Hb) as Hgb. pose proof (gb_peer _ _ _ _ _ Hgb) as Hbp. split.
  - rewrite Hbp. by eapply good_batch_mono.
  - apply Forall_forall. intros t Ht. rewrite Hbp. apply (proj1 (Forall_forall _ _) Hp), list_elem_of_bind. eauto.
Qed.

Lemma all_batches_split fuel window parallelism grouped start tasks :
  (length tasks <= fuel)%nat -> sized tasks -> located grouped start tasks ->
  all_batches fuel window parallelism start tasks ≫= batch_tasks grouped = tasks /\
  Forall (proper_batch window grouped) (all_batches fuel window parallelism start tasks).
Proof.
  revert start tasks. induction fuel as [|fuel IH]; intros start tasks Hf Hs Hloc; [by destruct tasks; [|cbn in Hf; lia]|].
  destruct tasks as [|t tasks]; [done|]. cbn [all_batches]. set (ts := t :: tasks) in *. set (n := peer_run (peer t) ts).
  assert (Hn : (0 < n <= length ts)%nat) by (split; [subst n ts; cbn; case_bool_decide; [lia|done]|apply peer_run_le]).
  destruct (located_split grouped start n ts ltac:(lia) Hloc) as [L1 L2]. destruct (sized_split n ts Hs) as [S1 S2].
  destruct (splits_proper window (base_batch_size parallelism n) (peer t) grouped
    (peer_batches n window (base_batch_size parallelism n) (peer t) start (take n ts)) (take n ts)) as [P1 P2];
    [apply base_batch_size_bounds|apply peer_run_peer|apply peer_batches_split; [rewrite length_take; lia|apply base_batch_size_bounds|done|done]|].
  destruct (IH (start + n)%nat (drop n ts)) as [Q1 Q2]; [rewrite length_drop; lia|done|done|].
  split; [rewrite bind_app, P1, Q1; apply take_drop|by apply Forall_app].
Qed.

Lemma ltb_irrefl s : String.ltb s s = false.
Proof. unfold String.ltb. pose proof (String.compare_antisym s s) as H. by destruct (String.compare s s). Qed.

Lemma insert_by_stable p x l :
  filter (fun t => peer t = p) (insert_by peer_ltb x l) = filter (fun t => peer t = p) (x :: l).
Proof.
  induction l as [|y l IH]; [done|]. cbn [insert_by]. destruct (peer_ltb y x) eqn:Hlt; [|done].
  rewrite filter_cons, IH, !filter_cons. destruct (decide (peer x = p)) as [Hx|Hx], (decide (peer y = p)) as [Hy|Hy]; try done.
  exfalso. unfold peer_ltb in Hlt. rewrite Hx, Hy, ltb_irrefl in Hlt. done.
Qed.

Lemma grouped_stable p tasks : filter (fun t => peer t = p) (grouped_tasks tasks) = filter (fun t => peer t = p) tasks.
Proof.
  unfold grouped_tasks, sort_by. induction tasks as [|t tasks IH]; [done|]. cbn [foldr]. rewrite insert_by_stable, !filter_cons, IH. done.
Qed.

Lemma sized_perm a b : a ≡ₚ b -> sized a -> sized b.
Proof.
  intros Hp [H1 H2]. split; [by rewrite <- Hp|]. unfold sizes in *. enough (zsum (size_bytes <$> a) = zsum (size_bytes <$> b)) by lia.
  clear -Hp. induction Hp; rewrite ?fmap_cons, ?zsum_cons in *; [done|lia|lia|congruence].
Qed.

Lemma batches_split window parallelism tasks : sized tasks ->
  batches window parallelism tasks ≫= batch_tasks (grouped_tasks tasks) = grouped_tasks tasks /\
  Forall (proper_batch window (grouped_tasks tasks)) (batches window parallelism tasks).
Proof.
  intros Hs. assert (Hp : grouped_tasks tasks ≡ₚ tasks) by apply sort_by_perm. apply all_batches_split; [by rewrite Hp| |apply take_ge; cbn; lia].
  eapply sized_perm; [by symmetry|done].
Qed.

(** The batches of a push: put together they are the tasks, those of each peer in their
    order; every batch is of one peer, not empty, within the vector limit, and within the
    coalescing window unless it is a single task. *)
Theorem push_batches_exact window parallelism tasks :
  sized tasks ->
  let grouped := grouped_tasks tasks in
  (forall p, filter (fun t => peer t = p) grouped = filter (fun t => peer t = p) tasks) /\
  grouped ≡ₚ tasks /\ batches window parallelism tasks ≫= batch_tasks grouped = grouped /\
  Forall (fun b => (0 < count b)%nat /\ Z.of_nat (count b) <= IOV_MAX /\ length (batch_tasks grouped b) = count b /\
                   Forall (fun t => peer t = b_peer b) (batch_tasks grouped b) /\
                   (0 < window -> count b = 1%nat \/ sizes (batch_tasks grouped b) <= window)) (batches window parallelism tasks).
Proof.
  intros Hs grouped. assert (Hp : grouped ≡ₚ tasks) by apply sort_by_perm. split; [intros p; apply grouped_stable|]. split; [done|].
  destruct (batches_split window parallelism tasks Hs) as (H1 & H2). split; [done|]. apply Forall_forall. intros b Hb.
  destruct (proj1 (Forall_forall _ _) H2 b Hb) as [[_ Hc Hlen Hw] Hpeer]. unfold IOV_MAX. by split_and!; [lia|lia|..].
Qed.

Lemma push_batches_exact_witness :
  let task p n := mkTask p 0 0 0 0 n in
  let tasks := [task "b" 30; task "a" 10; task "b" 20; task "a" 10; task "b" 5]%string in
  (sized tasks /\ batches 40 1 tasks = [mkBatch "a" 0 2; mkBatch "b" 2 1; mkBatch "b" 3 2] /\
  batches 40 1 tasks ≫= batch_tasks (grouped_tasks tasks) = [task "a" 10; task "a" 10; task "b" 30; task "b" 20; task "b" 5])%string.
Proof.
  intros task tasks. assert (Hs : sized tasks) by (split; [repeat constructor; cbn; lia|cbn; lia]).
  split; [exact Hs|]. split; [vm_compute; reflexivity|].
  destruct (push_batches_exact 40 1 tasks Hs) as (_ & _ & H & _). rewrite H. vm_compute. reflexivity.
Defined.

(** ** Delivery *)

Section delivery.
Context {S : Type} (d : Delegate S) (s : S).

Definition dst_iov (t : BufferPushTask) : BlockChunk := (GetHostPointer d s (buffer_id t) (dst_shard_idx t) + dst_offset_bytes t, size_bytes t).

(** A task that lies in a buffer of the receiver. *)
Record task_fits (t : BufferPushTask) : Prop := {
  tf_ids : 0 <= buffer_id t < 2 ^ 32 /\ 0 <= dst_shard_idx t < 2 ^ 32;
  tf_range : 0 <= dst_offset_bytes t /\ 0 <= size_bytes t;
  tf_buffer : GetHostPointer d s (buffer_id t) (dst_shard_idx t) ≠ 0;
  tf_size : dst_offset_bytes t + size_bytes t <= GetHostSize d s (buffer_id t) (dst_shard_idx t) < 2 ^ 64
}.

Lemma task_metadata_eq t : task_fits t -> task_metadata t = Chunk.mkMetadata (buffer_id t) (dst_shard_idx t) (dst_offset_bytes t) (size_bytes t).
Proof. intros []. unfold task_metadata, u32, u64. rewrite !Z.mod_small by lia. done. Qed.

Lemma length_metadata m : length (Chunk.SerializeChunkMetadata m) = 24%nat.
Proof. unfold Chunk.SerializeChunkMetadata, Chunk.SerializeMetadataV1. by rewrite !length_app, !length_le_bytes. Qed.

Lemma metadata_parses t : task_fits t -> Chunk.DeserializeChunkMetadata (Chunk.SerializeChunkMetadata (task_metadata t)) 1 = Ok (task_metadata t).
Proof.
  intros Ht. destruct (Chunk.chunk_payload_roundtrip (task_metadata t) [] 0 (replicate 24 0)) as [H _]; [| | | |done|done].
  - rewrite task_metadata_eq by done. destruct Ht. unfold Chunk.metadata_typed, Chunk.in_u. cbn. lia.
  - constructor.
  - unfold Chunk.in_u. cbn. lia.
  - apply Forall_replicate. unfold is_byte. lia.
Qed.

Lemma parse_metadata_all ts pre acc k :
  Forall task_fits ts -> length pre = (k * 24)%nat ->
  for_each (fun acc i => let? meta := Chunk.DeserializeChunkMetadata (take 24 (drop (i * 24) (pre ++ (ts ≫= fun t => Chunk.SerializeChunkMetadata (task_metadata t))))) 1 in Ok (acc ++ [meta]))
    (seq k (length ts)) acc = Ok (acc ++ (task_metadata <$> ts)).
Proof.
  revert pre acc k. induction ts as [|t ts IH]; intros pre acc k Hf Hpre; [cbn; by rewrite app_nil_r|].
  apply Forall_cons in Hf as [Ht Hf]. rewrite bind_cons, app_assoc. cbn [length seq for_each].
  assert (take 24 (drop (k * 24) ((pre ++ Chunk.SerializeChunkMetadata (task_metadata t)) ++ (ts ≫= fun t => Chunk.SerializeChunkMetadata (task_metadata t)))) =
    Chunk.SerializeChunkMetadata (task_metadata t)) as ->.
  { rewrite <- app_assoc, <- Hpre, drop_app_length. apply take_app_length'. by rewrite length_metadata. }
  rewrite metadata_parses by done. rewrite IH; [|done|rewrite length_app, length_metadata; lia]. by rewrite fmap_cons, <- app_assoc.
Qed.

Lemma metadata_list ts : Forall task_fits ts ->
  parse_metadata 1 (length ts) (ts ≫= fun t => Chunk.SerializeChunkMetadata (task_metadata t)) = Ok (task_metadata <$> ts).
Proof. intros Hf. exact (parse_metadata_all ts [] [] 0 Hf eq_refl). Qed.

Definition nonempty (c : BlockChunk) : bool := 0 <? c.2.

Lemma batch_steps ts acc : Forall task_fits ts ->
  for_each (batch_step d s) (task_metadata <$> ts) acc = Ok (acc ++ List.filter nonempty (dst_iov <$> ts)).
Proof.
  revert acc. induction ts as [|t ts IH]; intros acc Hf; [cbn; by rewrite app_nil_r|]. apply Forall_cons in Hf as [Ht Hf].
  rewrite !fmap_cons. cbn [for_each List.filter]. rewrite task_metadata_eq by done. unfold batch_step at 1.
  cbn [Chunk.layer_idx Chunk.dst_shard_idx Chunk.dst_offset_bytes Chunk.size_bytes].
  destruct Ht as [_ [Ho Hz] Hb Hs]. rewrite u64_id by lia. rewrite (proj2 (Z.eqb_neq _ _)) by done. rewrite (proj2 (Z.ltb_ge _ _)) by lia. cbn [orb].
  unfold nonempty at 1. cbn [dst_iov snd]. destruct (0 <? size_bytes t); rewrite IH by done; [by rewrite <- app_assoc|done].
Qed.

Lemma addrs_nonempty chunks : Forall (fun c : BlockChunk => 0 <= c.2) chunks ->
  DataPath.chunk_addrs (List.filter nonempty chunks) = DataPath.chunk_addrs chunks.
Proof.
  unfold DataPath.chunk_addrs. induction 1 as [|c cs Hc _ IH]; [done|]. cbn [List.filter]. unfold nonempty at 1. destruct (0 <? c.2) eqn:H.
  - by rewrite !bind_cons, IH.
  - apply Z.ltb_ge in H. rewrite bind_cons, IH, zrange_empty by lia. done.
Qed.

Lemma payload_gathers mem window ts payload : Forall (fun t => 0 <= size_bytes t) ts ->
  batch_payload mem window ts = Ok payload -> payload = gather mem (task_iov <$> ts).
Proof.
  intros Hz. unfold batch_payload. destruct (0 <? window); [by intros [= <-]|].
  rewrite !DataPath.gather_addrs. rewrite <- (addrs_nonempty (task_iov <$> ts)) by (apply Forall_fmap; exact Hz). fold nonempty.
  change (fun c : BlockChunk => 0 <? c.2) with nonempty. case_bool_decide as Hnil; [rewrite Hnil; by intros [= <-]|].
  unfold WriteVExact. destruct (_ && _); [|done]. intros [= <-]. by rewrite DataPath.gather_addrs.
Qed.

Lemma total_of_iovs chunks acc : Forall (fun c : BlockChunk => 0 <= c.2) chunks -> 0 <= acc -> acc + zsum (snd <$> chunks) < 2 ^ 64 ->
  foldl (fun t (c : BlockChunk) => u64 (t + c.2)) acc chunks = acc + zsum (snd <$> chunks).
Proof.
  intros Hf. revert acc. induction Hf as [|c cs Hc Hf IH]; intros acc Ha Hs; [cbn; lia|]. rewrite fmap_cons, zsum_cons in *. cbn [foldl].
  assert (0 <= zsum (snd <$> cs)) by (apply zsum_nonneg, Forall_fmap; done). rewrite u64_id, IH by lia. lia.
Qed.

Lemma zsum_nonempty chunks : Forall (fun c : BlockChunk => 0 <= c.2) chunks -> zsum (snd <$> List.filter nonempty chunks) = zsum (snd <$> chunks).
Proof.
  induction 1 as [|c cs Hc _ IH]; [done|]. cbn [List.filter]. unfold nonempty at 1. destruct (0 <? c.2) eqn:H; rewrite ?fmap_cons, ?zsum_cons; [lia|].
  apply Z.ltb_ge in H. lia.
Qed.

Lemma fits_sizes ts : Forall task_fits ts -> Forall (fun t => 0 <= size_bytes t) ts.
Proof. intros H. eapply Forall_impl; [done|]. by intros t [_ [_ ?] _ _]. Qed.

Lemma length_gather mem chunks : Forall (fun c : BlockChunk => 0 <= c.2) chunks -> length (gather mem chunks) = Z.to_nat (zsum (snd <$> chunks)).
Proof.
  induction 1 as [|c cs Hc Hf IH]; [done|]. unfold gather in *. rewrite bind_cons, length_app, IH, length_fmap, length_zrange, fmap_cons, zsum_cons.
  assert (0 <= zsum (snd <$> cs)) by (apply zsum_nonneg, Forall_fmap; done). lia.
Qed.

(** What the receiver does once the metadata is read. *)
Lemma batch_received mem_s mem_r ts rest :
  Forall task_fits ts -> sized ts -> (length ts <= 1024)%nat ->
  let iovs := List.filter nonempty (dst_iov <$> ts) in
  (if 0 <? foldl (fun t (c : BlockChunk) => u64 (t + c.2)) 0 iovs then ReadVExact mem_r iovs (gather mem_s (task_iov <$> ts) ++ rest)
   else (OkStatus, (mem_r, gather mem_s (task_iov <$> ts) ++ rest))) =
  (OkStatus, (scatter mem_r (dst_iov <$> ts) (gather mem_s (task_iov <$> ts)), rest)).
Proof.
  intros Hf Hs Hn iovs. pose proof (fits_sizes ts Hf) as Hz.
  assert (Hd : Forall (fun c : BlockChunk => 0 <= c.2) (dst_iov <$> ts)) by (apply Forall_fmap; exact Hz).
  assert (Hsrc : Forall (fun c : BlockChunk => 0 <= c.2) (task_iov <$> ts)) by (apply Forall_fmap; exact Hz).
  assert (Hi : Forall (fun c : BlockChunk => 0 <= c.2) iovs).
  { apply Forall_forall. intros c Hc%list_elem_of_In%filter_In. apply (proj1 (Forall_forall _ _) Hd), list_elem_of_In, Hc. }
  assert (Hsum : zsum (snd <$> iovs) = sizes ts) by (subst iovs; rewrite zsum_nonempty by done; unfold sizes; by rewrite <- list_fmap_compose).
  rewrite total_of_iovs by (done || (rewrite Hsum; destruct Hs; lia)). rewrite Hsum, Z.add_0_l.
  assert (Hlen : length (gather mem_s (task_iov <$> ts)) = Z.to_nat (sizes ts)).
  { rewrite length_gather by done. unfold sizes. by rewrite <- list_fmap_compose. }
  rewrite DataPath.scatter_addrs, <- (addrs_nonempty (dst_iov <$> ts)), <- DataPath.scatter_addrs by done. fold iovs.
  destruct (0 <? sizes ts) eqn:Hpos.
  - unfold ReadVExact. rewrite Hsum, <- Hlen, take_app_length, drop_app_length, length_app.
    assert (Hcount : (1 <= length iovs <= 1024)%nat).
    { split; [destruct iovs; [cbn in Hsum; lia|cbn; lia]|]. subst iovs. etrans; [apply filter_length_le|]. by rewrite length_fmap. }
    unfold IOV_MAX. rewrite (proj2 (Z.leb_le 1 _)), (proj2 (Z.leb_le _ 1024)) by lia. cbn [andb]. by rewrite (proj2 (Nat.leb_le _ _)) by lia.
  - apply Z.ltb_ge in Hpos. assert (gather mem_s (task_iov <$> ts) = []) as -> by (apply nil_length_inv; rewrite Hlen; lia).
    unfold scatter. by rewrite zip_with_nil_r.
Qed.

Lemma batch_header_typed n uuid : (n <= 1024)%nat -> 0 <= uuid < 2 ^ 64 -> Chunk.header_typed (batch_header n uuid).
Proof.
  intros Hn Hu. unfold Chunk.header_typed. cbn [batch_header Chunk.version Chunk.op Chunk.flags Chunk.buffer_id Chunk.reserved
    Chunk.metadata_size Chunk.padding Chunk.remote_id Chunk.local_id Chunk.count_or_size Chunk.uuid].
  do 9 (split; [vm_compute; split; [discriminate|reflexivity]|]). split; [apply Chunk.u32_in_u|].
  unfold Chunk.in_u. change (256 ^ Z.of_nat 8) with (2 ^ 64). exact Hu.
Qed.

Lemma batch_delivered custom mem_s mem_r window p ts uuid wire rest m :
  Forall task_fits ts -> sized ts -> (length ts <= 1024)%nat -> 0 <= uuid < 2 ^ 64 ->
  PushBatch mem_s window p ts uuid = Ok wire ->
  ProcessPeerRequest d s custom true mem_r (wire ++ rest) m =
  let '(calls, m') := account_chunks uuid (buffer_id <$> ts) m in
  mkAnswer OkStatus [1] (scatter mem_r (dst_iov <$> ts) (gather mem_s (task_iov <$> ts))) rest m' calls.
Proof.
  intros Hf Hs Hn Hu. unfold PushBatch. case_bool_decide; [done|]. destruct (batch_payload mem_s window ts) as [payload|] eqn:Hp; [|done].
  apply payload_gathers in Hp as ->; [|by apply fits_sizes].
  intros Hw. apply (f_equal (fun r => match r with Ok w => w | Err _ _ => [] end)) in Hw. cbv beta iota in Hw. subst wire.
  unfold ProcessPeerRequest, ReadExact.
  set (head := Chunk.SerializeChunkHeader (batch_header (length ts) uuid)). assert (Hh : length head = Chunk.kChunkHeaderSize) by apply Chunk.length_header.
  rewrite <- !app_assoc, !length_app, Hh. rewrite (proj2 (Nat.leb_le _ _)) by lia. rewrite <- Hh, take_app_length, drop_app_length.
  destruct (Chunk.chunk_header_roundtrip (batch_header (length ts) uuid)) as [_ Hrt]; [by apply batch_header_typed|]. fold head in Hrt.
  rewrite Hrt. clear Hrt. clearbody head.
  cbn [Chunk.op Chunk.on_wire batch_header]. cbn [Z.eqb Pos.eqb kOpBufferPull kOpBufferPush kOpBufferPushBatched].
  unfold handle_batch. cbn [Chunk.count_or_size Chunk.version Chunk.uuid Chunk.on_wire batch_header].
  assert (u32 (Z.of_nat (length ts)) = Z.of_nat (length ts)) as -> by (apply Z.mod_small; lia). unfold IOV_MAX. rewrite (proj2 (Z.ltb_ge _ _)) by lia. rewrite Nat2Z.id.
  set (metas := ts ≫= _). assert (Hm : length metas = (24 * length ts)%nat).
  { subst metas. clear. induction ts as [|t ts IH]; [done|]. rewrite bind_cons, length_app, length_metadata, IH. cbn. lia. }
  unfold ReadExact. change (Chunk.GetChunkMetadataSize 1) with 24%nat. rewrite length_app, Hm. rewrite (proj2 (Nat.leb_le _ _)) by lia.
  rewrite <- Hm, take_app_length, drop_app_length. unfold metas. rewrite (metadata_list ts Hf), batch_steps by done. cbn [app].
  rewrite (batch_received mem_s mem_r ts rest Hf Hs Hn). cbn [negb ok]. unfold acknowledge. cbn [negb].
  assert (Chunk.layer_idx <$> (task_metadata <$> ts) = buffer_id <$> ts) as ->; [|done].
  rewrite <- list_fmap_compose. apply list_fmap_ext. intros i t Hi. cbn.
  pose proof (proj1 (Forall_forall _ _) Hf t (list_elem_of_lookup_2 _ _ _ Hi)) as [[? ?] _ _ _]. unfold u32. by apply Z.mod_small.
Qed.

(** *** A whole push *)

(** The bytes a task moves: destination address and value. *)
Definition task_stores (mem_s : Memory) (t : BufferPushTask) : list (Z * Z) :=
  (fun i => ((dst_iov t).1 + i, mem_s (data_ptr t + i))) <$> zrange 0 (size_bytes t).

Lemma zip_stores mem_s ts : Forall (fun t => 0 <= size_bytes t) ts ->
  zip (DataPath.chunk_addrs (dst_iov <$> ts)) (gather mem_s (task_iov <$> ts)) = ts ≫= task_stores mem_s.
Proof.
  induction 1 as [|t ts Ht _ IH]; [done|]. rewrite DataPath.gather_addrs in *. unfold DataPath.chunk_addrs in *.
  rewrite !fmap_cons, !bind_cons, fmap_app. cbn [fst snd dst_iov task_iov].
  rewrite zip_with_app by (rewrite length_fmap, !length_zrange; lia). rewrite IH. f_equal. unfold task_stores. cbn [fst dst_iov].
  set (a := _ + dst_offset_bytes t). replace (zrange a (a + size_bytes t)) with (Z.add a <$> zrange 0 (size_bytes t)) by (rewrite <- zrange_shift; f_equal; lia).
  replace (zrange (data_ptr t) (data_ptr t + size_bytes t)) with (Z.add (data_ptr t) <$> zrange 0 (size_bytes t)) by (rewrite <- zrange_shift; f_equal; lia).
  generalize (zrange 0 (size_bytes t)) as l. intros l. induction l as [|x l IHl]; [done|]. rewrite !fmap_cons. cbn [zip_with]. by rewrite IHl.
Qed.

Lemma stores_fst mem_s ts : Forall (fun t => 0 <= size_bytes t) ts -> (ts ≫= task_stores mem_s).*1 = DataPath.chunk_addrs (dst_iov <$> ts).
Proof.
  intros H. rewrite <- zip_stores by done. apply fst_zip. rewrite DataPath.gather_addrs, length_fmap. unfold DataPath.chunk_addrs.
  induction H as [|t ts Ht _ IH]; [done|]. rewrite !fmap_cons, !bind_cons, !length_app, !length_zrange. cbn [fst snd dst_iov task_iov]. lia.
Qed.

Lemma filter_batches window grouped p bs : Forall (proper_batch window grouped) bs ->
  filter (fun b => b_peer b = p) bs ≫= batch_tasks grouped = filter (fun t => peer t = p) (bs ≫= batch_tasks grouped).
Proof.
  induction 1 as [|b bs [_ Hp] _ IH]; [done|]. rewrite bind_cons, filter_app, filter_cons. destruct (decide (b_peer b = p)) as [Hb|Hb].
  - rewrite bind_cons, IH, (filter_all _ (batch_tasks grouped b)); [done|]. eapply Forall_impl; [done|]. cbn. intros t ->. done.
  - rewrite IH, (filter_none _ (batch_tasks grouped b)); [done|]. eapply Forall_impl; [done|]. cbn. intros t -> ?. done.
Qed.

Lemma PushBatch_ok mem window p ts uuid : p ≠ EmptyString -> (length ts <= 1024)%nat -> exists wire, PushBatch mem window p ts uuid = Ok wire.
Proof.
  intros Hp Hn. unfold PushBatch, batch_payload. rewrite bool_decide_false by done. destruct (0 <? window); [eauto|].
  case_bool_decide as Hnil; [eauto|]. unfold WriteVExact, IOV_MAX.
  fold nonempty in *. change (fun c : BlockChunk => 0 <? c.2) with nonempty in *.
  assert (1 <= length (List.filter nonempty (task_iov <$> ts)) <= 1024)%nat as [H1 H2].
  { split; [destruct (List.filter _ _); [done|cbn; lia]|]. etrans; [apply filter_length_le|]. by rewrite length_fmap. }
  rewrite (proj2 (Z.leb_le 1 _)), (proj2 (Z.leb_le _ 1024)) by lia. cbn [andb]. eauto.
Qed.

(** The receiver after one batch: memory, progress and whether it was acknowledged. *)
Definition deliver custom (mem_s : Memory) (window : Z) (p : string) (uuid : Z) (grouped : list BufferPushTask)
    (st : Memory * ProgressMap * bool) (b : BatchInfo) : Memory * ProgressMap * bool :=
  match PushBatch mem_s window p (batch_tasks grouped b) uuid with
  | Ok wire =>
      let a := ProcessPeerRequest d s custom true st.1.1 wire st.1.2 in
      (a_memory a, a_progress a, st.2 && ok (a_status a) && bool_decide (a_output a = [1]))
  | Err _ _ => (st.1, false)
  end.

Lemma deliver_all custom mem_s window p uuid grouped order mem m :
  p ≠ EmptyString -> 0 <= uuid < 2 ^ 64 ->
  Forall (fun b => Forall task_fits (batch_tasks grouped b) /\ sized (batch_tasks grouped b) /\ (length (batch_tasks grouped b) <= 1024)%nat) order ->
  exists m', foldl (deliver custom mem_s window p uuid grouped) (mem, m, true) order =
    (DataPath.store_all mem ((order ≫= batch_tasks grouped) ≫= task_stores mem_s), m', true).
Proof.
  intros Hp Hu Hf. revert mem m. induction Hf as [|b order (H1 & H2 & H3) _ IH]; intros mem m; [by exists m|]. cbn [foldl].
  unfold deliver at 2. destruct (PushBatch_ok mem_s window p (batch_tasks grouped b) uuid Hp H3) as [wire Hw]. rewrite Hw. cbn [fst snd].
  pose proof (batch_delivered custom mem_s mem window p _ uuid wire [] m H1 H2 H3 Hu Hw) as Hd. rewrite app_nil_r in Hd. rewrite Hd.
  destruct (account_chunks uuid (buffer_id <$> batch_tasks grouped b) m) as [calls m1]. cbn [a_memory a_progress a_status a_output ok andb].
  rewrite bool_decide_true by done. destruct (IH (scatter mem (dst_iov <$> batch_tasks grouped b) (gather mem_s (task_iov <$> batch_tasks grouped b))) m1) as [m' ->].
  exists m'. rewrite bind_cons, bind_app, DataPath.store_all_app, DataPath.scatter_addrs, zip_stores by (by apply fits_sizes). done.
Qed.

(** C14: The tasks of a push for one peer, cut into batches and handled by that peer in any
    order: every batch is acknowledged, every byte of every task is in its place, and
    nothing else in the memory of the receiver has changed. *)
Theorem raw_push_exact custom mem_s mem window parallelism p uuid tasks order m :
  let mine := filter (fun t => peer t = p) tasks in
  let grouped := grouped_tasks tasks in
  p ≠ EmptyString -> 0 <= uuid < 2 ^ 64 -> sized tasks -> Forall task_fits mine -> NoDup (DataPath.chunk_addrs (dst_iov <$> mine)) ->
  order ≡ₚ filter (fun b => b_peer b = p) (batches window parallelism tasks) ->
  exists mem' m', foldl (deliver custom mem_s window p uuid grouped) (mem, m, true) order = (mem', m', true) /\
    (forall t i, t ∈ mine -> 0 <= i < size_bytes t -> mem' ((dst_iov t).1 + i) = mem_s (data_ptr t + i)) /\
    (forall a, a ∉ DataPath.chunk_addrs (dst_iov <$> mine) -> mem' a = mem a).
Proof.
  intros mine grouped Hp Hu Hs Hf Hnd Ho. destruct (batches_split window parallelism tasks Hs) as [Hcat Hgood].
  assert (Hmine : order ≫= batch_tasks grouped ≡ₚ mine).
  { rewrite Ho, (filter_batches window grouped p _ Hgood). unfold grouped, mine. by rewrite Hcat, grouped_stable. }
  destruct (deliver_all custom mem_s window p uuid grouped order mem m Hp Hu) as [m' Hrun].
  { apply Forall_forall. intros b Hb. assert (Hsub : batch_tasks grouped b ⊆ mine).
    { intros t Ht. rewrite <- Hmine. apply list_elem_of_bind. eauto. }
    rewrite Ho in Hb. apply list_elem_of_filter in Hb as [_ Hb]. destruct (proj1 (Forall_forall _ _) Hgood b Hb) as [[_ Hc Hlen _] _].
    split; [apply Forall_forall; intros t Ht; by apply (proj1 (Forall_forall _ _) Hf), Hsub|]. split; [|unfold grouped; lia].
    unfold batch_tasks. apply sized_split, sized_split. eapply sized_perm; [|exact Hs]. symmetry. apply sort_by_perm. }
  exists (DataPath.store_all mem ((order ≫= batch_tasks grouped) ≫= task_stores mem_s)), m'. split; [exact Hrun|].
  assert (Hz : Forall (fun t => 0 <= size_bytes t) mine) by by apply fits_sizes.
  assert (Hperm : ((order ≫= batch_tasks grouped) ≫= task_stores mem_s) ≡ₚ (mine ≫= task_stores mem_s)) by by rewrite Hmine.
  assert (Hnd' : NoDup ((order ≫= batch_tasks grouped) ≫= task_stores mem_s).*1) by (rewrite Hperm, stores_fst; done). split.
  - intros t i Ht Hi. apply DataPath.store_all_in; [done|]. rewrite Hperm. apply list_elem_of_bind. exists t. split; [|done].
    apply list_elem_of_fmap. exists i. split; [done|]. by apply elem_of_zrange.
  - intros a Ha. apply DataPath.store_all_out. rewrite Hperm, stores_fst by done. done.
Qed.

End delivery.

(** A push of three tasks to two peers; the batches for the second arrive in reverse. *)
Definition example_delegate : Delegate unit := mkDelegate (fun _ _ _ => 4096) (fun _ _ _ => 100).
Definition example_tasks : list BufferPushTask :=
  [mkTask "b" 0 0 0 1000 10; mkTask "a" 0 0 0 3000 7; mkTask "b" 0 0 50 2000 5]%string.
Lemma raw_push_exact_witness :
  let run := foldl (deliver example_delegate tt None (fun a => a mod 251) 0 "b" 9 (grouped_tasks example_tasks)) (fun _ => 0, ∅, true)
               [mkBatch "b" 2 1; mkBatch "b" 1 1] in
  run.2 = true /\ run.1.1 (4096 + 52) = 2002 mod 251 /\ run.1.1 (4096 + 20) = 0.
Proof.
  intros run.
  destruct (raw_push_exact example_delegate tt None (fun a => a mod 251) (fun _ => 0) 0 2 "b" 9 example_tasks [mkBatch "b" 2 1; mkBatch "b" 1 1] ∅)
    as (mem' & m' & Hrun & Hin & Hout).
  - done.
  - lia.
  - split; [repeat constructor; cbn; lia|cbn; lia].
  - cbn. repeat constructor; cbn; lia.
  - apply (bool_decide_unpack _). vm_compute. exact I.
  - assert (filter (fun b => b_peer b = "b"%string) (batches 0 2 example_tasks) = [mkBatch "b" 1 1; mkBatch "b" 2 1]) as -> by (vm_compute; reflexivity).
    apply Permutation_swap.
  - unfold run. rewrite Hrun. cbn [fst snd]. split; [done|]. split.
    + specialize (Hin (mkTask "b" 0 0 50 2000 5) 2). cbn [dst_iov fst data_ptr size_bytes dst_offset_bytes buffer_id dst_shard_idx] in Hin.
      apply Hin; [|lia]. apply list_elem_of_filter. split; [done|]. unfold example_tasks. right. right. left.
    + apply Hout. apply (bool_decide_unpack _). vm_compute. exact I.
Defined.

(** ** Counting chunks *)

Section counting.
Context (uuid : Z) (expected : gmap Z Z) (all : list Z).

Definition occ (l : Z) (arr : list Z) : Z := Z.of_nat (length (filter (fun x => x = l) arr)).
Lemma chunk_occ_app l a b : occ l (a ++ b) = occ l a + occ l b.
Proof. unfold occ. rewrite filter_app, length_app. lia. Qed.
Lemma occ_one l x : occ l [x] = if bool_decide (x = l) then 1 else 0.
Proof. unfold occ. rewrite filter_cons. destruct (decide (x = l)); [by rewrite bool_decide_true|by rewrite bool_decide_false]. Qed.
Lemma chunk_occ_nonneg l arr : 0 <= occ l arr.
Proof. unfold occ. lia. Qed.
Lemma occ_le l arr : occ l arr <= Z.of_nat (length arr).
Proof. unfold occ. pose proof (length_filter (fun x => x = l) arr). lia. Qed.

(** The expectation names the chunks that come, and fits a counter. *)
Hypothesis Huuid : 0 < uuid.
Hypothesis Hsome : all ≠ [].
Hypothesis Hfit : Z.of_nat (length all) < 2 ^ 32.
Hypothesis Hexpected : forall l n, expected !! l = Some n <-> 0 < n /\ n = occ l all.

(** Layers complete after the chunks [arr], when the expectation is known. *)
Definition complete (known : bool) (arr : list Z) (l : Z) : Prop := known = true /\ 0 < occ l arr /\ occ l arr = occ l all.

Record counted (known total : bool) (arr out : list Z) (prog : RawProgress) : Prop := {
  co_expected : expected_chunks prog = if total then Some (Z.of_nat (length all)) else None;
  co_layers : expected_chunks_per_layer prog = if known then expected else ∅;
  co_counts l : completed_chunks_per_layer prog !! l = if bool_decide (0 < occ l arr) then Some (occ l arr) else None;
  co_triggered l : l ∈ triggered_layers prog <-> complete known arr l;
  co_out l : l ∈ out <-> complete known arr l;
  co_nodup : NoDup out
}.

Lemma prefix_occ arr rest l : all = arr ++ rest -> occ l arr <= occ l all.
Proof. intros ->. rewrite chunk_occ_app. pose proof (chunk_occ_nonneg l rest). lia. Qed.

Lemma count_one known total arr out prog l rest done :
  counted known total arr (out ++ done) prog -> all = arr ++ l :: rest ->
  exists prog' new, count_layer (prog, done) l = (prog', done ++ new) /\ counted known total (arr ++ [l]) (out ++ done ++ new) prog' /\
    completed_chunks prog' = completed_chunks prog.
Proof.
  intros [He Hl Hc Ht Ho Hnd] Hall. assert (Hall' : all = (arr ++ [l]) ++ rest) by (by rewrite <- app_assoc).
  assert (Hocc : occ l (arr ++ [l]) = occ l arr + 1) by (rewrite chunk_occ_app, occ_one, bool_decide_true by done; lia).
  assert (Hother : forall x, x ≠ l -> occ x (arr ++ [l]) = occ x arr) by (intros x Hx; rewrite chunk_occ_app, occ_one, bool_decide_false by done; lia).
  pose proof (prefix_occ (arr ++ [l]) rest l Hall') as Hpre. pose proof (chunk_occ_nonneg l arr) as Hnn.
  assert (Hn : u32 (default 0 (completed_chunks_per_layer prog !! l) + 1) = occ l (arr ++ [l])).
  { rewrite Hc, Hocc. pose proof (occ_le l all). unfold u32. case_bool_decide; cbn [default from_option]; rewrite Z.mod_small; unfold id in *; lia. }
  assert (Hcounts : forall x, <[l:=occ l (arr ++ [l])]> (completed_chunks_per_layer prog) !! x =
    (if bool_decide (0 < occ x (arr ++ [l])) then Some (occ x (arr ++ [l])) else None)).
  { intros x. destruct (decide (x = l)) as [->|Hx]; [rewrite lookup_insert_eq, bool_decide_true; [done|lia]|].
    rewrite lookup_insert_ne, Hother by done. apply Hc. }
  assert (Hnot : l ∉ triggered_layers prog) by (rewrite Ht; intros (_ & _ & ?); lia).
  assert (Hstay : forall x, complete known (arr ++ [l]) x <-> complete known arr x \/ (x = l /\ complete known (arr ++ [l]) l)).
  { intros x. unfold complete. destruct (decide (x = l)) as [->|Hx]; [split; [by right|intros [(_ & _ & ?)|[_ ?]]; [lia|done]]|]. rewrite Hother by done. split; [intros H; by left|intros [H|[H _]]; done]. }
  unfold count_layer. rewrite Hn. rewrite (bool_decide_false (l ∈ triggered_layers prog)) by done. cbn [negb]. rewrite andb_true_r.
  case_bool_decide as Htrig.
  - assert (Hcl : complete known (arr ++ [l]) l).
    { rewrite Hl in Htrig. destruct known; [|by rewrite lookup_empty in Htrig]. apply Hexpected in Htrig. split; [done|lia]. }
    eexists _, [l]. split; [done|]. split; [|done]. rewrite app_assoc. split; cbn; try done.
    + intros x. rewrite elem_of_union, elem_of_singleton, Ht, (Hstay x). naive_solver.
    + intros x. rewrite elem_of_app, list_elem_of_singleton, Ho, (Hstay x). naive_solver.
    + apply NoDup_app. split; [done|]. split; [|apply NoDup_singleton]. intros x Hx ->%list_elem_of_singleton. apply Ho in Hx as (_ & _ & ?). lia.
  - assert (Hcl : ~ complete known (arr ++ [l]) l).
    { intros (-> & Hp & Heq). apply Htrig. rewrite Hl. apply Hexpected. lia. }
    eexists _, []. rewrite !app_nil_r. split; [done|]. split; [|done]. split; cbn; try done.
    + intros x. rewrite Ht, (Hstay x). naive_solver.
    + intros x. rewrite Ho, (Hstay x). naive_solver.
Qed.

Lemma count_many known total ls arr out prog rest done :
  counted known total arr (out ++ done) prog -> all = arr ++ ls ++ rest ->
  exists prog' new, foldl count_layer (prog, done) ls = (prog', done ++ new) /\ counted known total (arr ++ ls) (out ++ done ++ new) prog' /\
    completed_chunks prog' = completed_chunks prog.
Proof.
  revert arr prog done. induction ls as [|l ls IH]; intros arr prog done Hc Hall.
  { exists prog, []. rewrite !app_nil_r. done. }
  cbn [foldl]. destruct (count_one known total arr out prog l (ls ++ rest) done Hc Hall) as (p1 & n1 & -> & H1 & E1).
  destruct (IH (arr ++ [l]) p1 (done ++ n1)) as (p2 & n2 & -> & H2 & E2); [done|by rewrite <- app_assoc|].
  exists p2, (n1 ++ n2). rewrite <- !app_assoc in *. split; [done|]. split; [done|]. congruence.
Qed.

(** The progress of the transfer before its last event. *)
Definition in_progress (known total : bool) (arr out : list Z) (m : ProgressMap) : Prop :=
  let prog := default fresh_progress (m !! uuid) in counted known total arr out prog /\ completed_chunks prog = Z.of_nat (length arr).

Lemma chunks_step known total arr out m ls rest :
  in_progress known total arr out m -> all = arr ++ ls ++ rest ->
  exists new m', account_chunks uuid ls m =
      ((OnLayerDataReceived <$> new) ++ (if total && bool_decide (rest = []) then [OnDataReceived] else []), m') /\
    (if total && bool_decide (rest = []) then m' !! uuid = None /\ NoDup (out ++ new) /\ forall l, l ∈ out ++ new <-> complete known all l
     else in_progress known total (arr ++ ls) (out ++ new) m').
Proof.
  intros [Hc Hn] Hall. unfold account_chunks. rewrite (proj2 (Z.leb_gt _ _)) by lia. set (prog := default fresh_progress (m !! uuid)) in *.
  assert (Hlen : Z.of_nat (length all) = Z.of_nat (length arr) + Z.of_nat (length ls) + Z.of_nat (length rest)) by (rewrite Hall, !length_app; lia).
  set (prog1 := mkProgress _ _ _ _ _). assert (Hc1 : counted known total arr (out ++ []) prog1) by (rewrite app_nil_r; by destruct Hc).
  destruct (count_many known total ls arr out prog1 rest [] Hc1 Hall) as (p2 & new & -> & H2 & E2). cbn [app] in H2 |- *.
  assert (Hcount : completed_chunks p2 = Z.of_nat (length (arr ++ ls))).
  { rewrite E2. cbn [prog1 completed_chunks]. rewrite Hn, length_app. unfold u32. rewrite Z.mod_small by lia. lia. }
  rewrite (co_expected _ _ _ _ _ H2), Hcount, length_app.
  assert (Hiff : bool_decide ((if total then Some (Z.of_nat (length all)) else None) = Some (Z.of_nat (length arr + length ls))) = total && bool_decide (rest = [])).
  { destruct total; cbn [andb]; [|done]. apply bool_decide_ext. split; [intros [= H]; apply nil_length_inv; lia|intros ->; f_equal; cbn in Hlen; lia]. }
  rewrite Hiff. destruct (total && bool_decide (rest = [])) eqn:Hlast.
  - exists new, (delete uuid m). split; [done|]. split; [apply lookup_delete_eq|]. apply andb_prop in Hlast as [_ Hr%bool_decide_eq_true]. subst rest.
    rewrite app_nil_r in Hall. rewrite Hall. destruct H2. split; [done|]. rewrite <- Hall. rewrite <- Hall in co_out0. done.
  - exists new, (<[uuid := p2]> m). rewrite app_nil_r. split; [done|]. unfold in_progress. rewrite lookup_insert_eq. cbn [default from_option]. by split.
Qed.

Lemma register_fold prog kvs T out :
  NoDup kvs.*1 -> (forall kv, kv ∈ kvs -> kv.1 ∉ T) ->
  exists new, foldl (register_layer prog) (T, out) kvs = (list_to_set new ∪ T, out ++ new) /\ NoDup new /\
    forall l, l ∈ new <-> exists n, (l, n) ∈ kvs /\ completed_chunks_per_layer prog !! l = Some n.
Proof.
  revert T out. induction kvs as [|[l n] kvs IH]; intros T out Hnd HT.
  { exists []. rewrite app_nil_r. cbn. split; [f_equal; set_solver|]. split; [constructor|]. set_solver. }
  rewrite fmap_cons in Hnd. apply NoDup_cons in Hnd as [Hl Hnd]. cbn [foldl]. unfold register_layer at 2. cbn [fst snd].
  rewrite (bool_decide_false (l ∈ T)) by (apply (HT (l, n)); by left). cbn [negb]. rewrite andb_true_r. case_bool_decide as Hc.
  - destruct (IH ({[l]} ∪ T) (out ++ [l])) as (new & -> & Hn & Hin); [done| |].
    { intros kv Hkv. apply not_elem_of_union. split; [|apply HT; by right]. intros Heq%elem_of_singleton. apply Hl, list_elem_of_fmap. by exists kv. }
    exists (l :: new). split; [rewrite <- app_assoc; f_equal; cbn; set_solver|]. split.
    + constructor; [|done]. intros (n' & Hkv & _)%Hin. apply Hl, list_elem_of_fmap. by exists (l, n').
    + intros x. rewrite elem_of_cons, Hin. split; [intros [->|(k & ? & ?)]; [exists n; split; [by left|done]|exists k; split; [by right|done]]|].
      intros (k & [[= -> ->]|Hk]%elem_of_cons & ?); [by left|right; eauto].
  - destruct (IH T out) as (new & -> & Hn & Hin); [done|intros kv Hkv; apply HT; by right|]. exists new. split; [done|]. split; [done|].
    intros x. rewrite Hin. split; [intros (k & ? & ?); exists k; split; [by right|done]|].
    intros (k & [[= -> ->]|Hk]%elem_of_cons & ?); [done|eauto].
Qed.

Lemma layers_step arr m rest :
  in_progress false false arr [] m -> all = arr ++ rest ->
  exists new m', RegisterExpectedLayerChunks uuid expected m = (OnLayerDataReceived <$> new, m') /\ in_progress true false arr new m'.
Proof.
  intros [[He Hl Hc Ht Ho Hnd] Hn] Hall. unfold RegisterExpectedLayerChunks. rewrite bool_decide_false.
  2: { intros Hempty. destruct all as [|x xs] eqn:Hx; [done|]. assert (expected !! x = Some (occ x (x :: xs))) as Hs; [|by rewrite Hempty, lookup_empty in Hs].
       apply Hexpected. split; [|done]. change (x :: xs) with ([x] ++ xs). rewrite chunk_occ_app, occ_one, bool_decide_true by done. pose proof (chunk_occ_nonneg x xs). lia. }
  set (prog := default fresh_progress (m !! uuid)) in *.
  assert (HT : forall l, l ∉ triggered_layers prog) by (intros l Hx; by apply Ht in Hx as [? _]).
  destruct (register_fold prog (map_to_list expected) (triggered_layers prog) []) as (new & -> & Hnew & Hin); [apply NoDup_fst_map_to_list|auto|].
  exists new. eexists. split; [done|]. unfold in_progress. rewrite lookup_insert_eq. cbn [default from_option completed_chunks]. split; [|done].
  assert (Hcl : forall l, l ∈ new <-> complete true arr l).
  { intros l. rewrite Hin. setoid_rewrite elem_of_map_to_list. setoid_rewrite Hexpected. rewrite Hc. unfold complete.
    case_bool_decide as Hp; split; [intros (n & [Hn1 ->] & [= Hn2]); auto|intros (_ & _ & Hn2); exists (occ l all); rewrite Hn2; split; [lia|done]|by intros (n & _ & ?)|intros (_ & ? & _); lia]. }
  split; cbn; try done. intros l. rewrite elem_of_union, elem_of_list_to_set, Hcl. split; [intros [?|Hx]; [done|by apply HT in Hx]|by left].
Qed.

Lemma total_step known arr out m rest :
  in_progress known false arr out m -> all = arr ++ rest ->
  exists m', RegisterExpectedChunks uuid (Z.of_nat (length all)) m = (OkStatus, if bool_decide (rest = []) then [OnDataReceived] else [], m') /\
    (if bool_decide (rest = []) then m' !! uuid = None else in_progress known true arr out m').
Proof.
  intros [[He Hl Hc Ht Ho Hnd] Hn] Hall. unfold RegisterExpectedChunks.
  assert (Hlen : Z.of_nat (length all) = Z.of_nat (length arr) + Z.of_nat (length rest)) by (rewrite Hall, length_app; lia).
  rewrite (proj2 (Z.eqb_neq (Z.of_nat (length all)) 0)) by (destruct all; [done|cbn; lia]). rewrite Hn. case_bool_decide as Hr.
  - subst rest. cbn in Hlen. rewrite (proj2 (Z.eqb_eq _ _)) by lia. exists (delete uuid m). split; [done|apply lookup_delete_eq].
  - rewrite (proj2 (Z.eqb_neq _ _)) by (destruct rest; [done|cbn in Hlen; lia]). eexists. split; [done|]. unfold in_progress. rewrite lookup_insert_eq.
    cbn [default from_option completed_chunks]. split; [|done]. by split.
Qed.

(** What happens to a transfer, in order. *)
Inductive Event : Type := ExpectLayers | ExpectTotal | Arrive (layers : list Z).

Definition act (e : Event) (m : ProgressMap) : list Callback * ProgressMap :=
  match e with
  | ExpectLayers => RegisterExpectedLayerChunks uuid expected m
  | ExpectTotal => let '(_, calls, m') := RegisterExpectedChunks uuid (Z.of_nat (length all)) m in (calls, m')
  | Arrive ls => account_chunks uuid ls m
  end.
Fixpoint run (es : list Event) (m : ProgressMap) : list Callback * ProgressMap :=
  match es with
  | [] => ([], m)
  | e :: rest => let '(calls, m1) := act e m in let '(calls', m2) := run rest m1 in (calls ++ calls', m2)
  end.

Lemma events_run_app es fs m : run (es ++ fs) m = let '(c1, m1) := run es m in let '(c2, m2) := run fs m1 in (c1 ++ c2, m2).
Proof.
  revert m. induction es as [|e es IH]; intros m; [cbn; by destruct (run fs m)|]. cbn [app run]. destruct (act e m) as [c m1]. rewrite IH.
  destruct (run es m1) as [c1 m2]. destruct (run fs m2) as [c2 m3]. by rewrite app_assoc.
Qed.

Lemma chunks_phase known total cs arr out m rest :
  in_progress known total arr out m -> all = arr ++ concat cs ++ rest -> (total = true -> rest ≠ []) ->
  exists new m', run (Arrive <$> cs) m = (OnLayerDataReceived <$> new, m') /\ in_progress known total (arr ++ concat cs) (out ++ new) m'.
Proof.
  revert arr out m. induction cs as [|c cs IH]; intros arr out m Hp Hall Hr.
  { exists [], m. rewrite !app_nil_r. done. }
  rewrite fmap_cons. cbn [run act concat] in *. rewrite <- app_assoc in Hall.
  destruct (chunks_step known total arr out m c (concat cs ++ rest) Hp Hall) as (n1 & m1 & -> & H1).
  assert (Hnot : total && bool_decide (concat cs ++ rest = []) = false).
  { destruct total; [|done]. cbn [andb]. apply bool_decide_eq_false. intros [_ ?]%app_nil. by apply Hr. }
  rewrite Hnot in *. destruct (IH (arr ++ c) (out ++ n1) m1 H1) as (n2 & m2 & -> & H2); [by rewrite <- app_assoc|done|].
  exists (n1 ++ n2), m2. rewrite app_nil_r, fmap_app. split; [done|]. by rewrite !app_assoc.
Qed.

Lemma fresh_in_progress m : m !! uuid = None -> in_progress false false [] [] m.
Proof.
  intros Hm. unfold in_progress. rewrite Hm. cbn [default from_option]. split; [|done].
  assert (Hno : forall l, complete false [] l <-> False) by (intros l; split; [by intros [? _]|done]).
  split; cbn [fresh_progress expected_chunks expected_chunks_per_layer completed_chunks_per_layer triggered_layers]; try done.
  - intros l. rewrite Hno. set_solver.
  - intros l. rewrite Hno. set_solver.
  - constructor.
Qed.

Lemma complete_all l : complete true all l <-> l ∈ dom expected.
Proof.
  rewrite elem_of_dom. unfold complete. split; [intros (_ & Hp & _); exists (occ l all); by apply Hexpected|].
  intros [n [Hn ->]%Hexpected]. done.
Qed.

(** The critical sections in an order of theirs: every expected layer is handed out once, then
    the transfer. *)
Lemma sections_exact c1 c2 c3 m :
  all = concat (c1 ++ c2 ++ c3) -> Forall (fun ls => ls ≠ []) (c1 ++ c2 ++ c3) -> m !! uuid = None ->
  exists layers m',
    run ((Arrive <$> c1) ++ ExpectLayers :: (Arrive <$> c2) ++ ExpectTotal :: (Arrive <$> c3)) m =
      ((OnLayerDataReceived <$> layers) ++ [OnDataReceived], m') /\
    NoDup layers /\ (forall l, l ∈ layers <-> l ∈ dom expected) /\ m' !! uuid = None.
Proof.
  intros Hall Hne Hm. rewrite !concat_app in Hall. setoid_rewrite <- complete_all.
  destruct (chunks_phase false false c1 [] [] m (concat c2 ++ concat c3)) as (n1 & m1 & R1 & P1); [by apply fresh_in_progress|done|done|].
  cbn [app] in P1. assert (n1 = []) as ->.
  { apply elem_of_nil_inv. intros l Hl. by apply (co_out _ _ _ _ _ (proj1 P1)) in Hl as [? _]. }
  rewrite events_run_app, R1. cbn [run act fmap list_fmap app].
  destruct (layers_step (concat c1) m1 (concat c2 ++ concat c3) P1 Hall) as (n2 & m2 & -> & P2). rewrite events_run_app.
  destruct (chunks_phase true false c2 (concat c1) n2 m2 (concat c3) P2 Hall ltac:(done)) as (n3 & m3 & -> & P3). cbn [run act].
  destruct (total_step true (concat c1 ++ concat c2) (n2 ++ n3) m3 (concat c3) P3) as (m4 & -> & P4); [by rewrite <- app_assoc|].
  destruct c3 as [|c0 c3' _] using rev_ind.
  - cbn [concat] in *. rewrite bool_decide_true in P4 |- * by done. cbn [fmap list_fmap run app]. exists (n2 ++ n3), m4.
    rewrite fmap_app, <- app_assoc. destruct P3 as [[] _]. rewrite ?app_nil_r in Hall. rewrite <- Hall in co_out0. done.
  - rewrite !app_assoc, Forall_app in Hne. destruct Hne as [_ Hc0]. apply Forall_cons in Hc0 as [Hc0 _].
    rewrite concat_app in *. cbn [concat] in *. rewrite app_nil_r in *.
    rewrite bool_decide_false in P4 |- * by (intros [_ ?]%app_nil; done).
    rewrite fmap_app, events_run_app. rewrite !app_assoc in Hall. rewrite <- (app_assoc _ (concat c3')) in Hall.
    destruct (chunks_phase true true c3' (concat c1 ++ concat c2) (n2 ++ n3) m4 c0 P4) as (n5 & m5 & -> & P5); [by rewrite Hall|done|]. cbn [fmap list_fmap run act app].
    destruct (chunks_step true true ((concat c1 ++ concat c2) ++ concat c3') ((n2 ++ n3) ++ n5) m5 c0 [] P5) as (n6 & m6 & -> & P6);
      [by rewrite app_nil_r, <- app_assoc|]. cbn [andb] in P6 |- *. rewrite bool_decide_true in P6 |- * by done. destruct P6 as (P6 & P7 & P8).
    exists (((n2 ++ n3) ++ n5) ++ n6), m6. split; [|done]. rewrite !fmap_app, <- !app_assoc, app_nil_r. done.
Qed.

(** ** The threads

    A thread leaves the critical section with the callbacks it has to make, and makes them with
    the mutex released: callbacks of different threads interleave in any way with each other and
    with critical sections.  A callback that fails ends its thread's loop ([RETURN_IF_ERROR]). *)

Record Threads : Type := mkThreads {
  progress : ProgressMap;
  (** What each thread that left its critical section still has to call. *)
  todo : list (list Callback);
  made : list Callback;
  (** What came after a failed callback in its thread. *)
  dropped : list Callback
}.
Inductive Move : Type := Critical (e : Event) | Invoke (thread : nat) (succeeds : bool).

Definition exec (st : Threads) (a : Move) : Threads :=
  match a with
  | Critical e => let '(calls, m) := act e (progress st) in mkThreads m (todo st ++ [calls]) (made st) (dropped st)
  | Invoke i succeeds =>
      match todo st !! i with
      | Some (c :: rest) =>
          mkThreads (progress st) (<[i := if succeeds then rest else []]> (todo st)) (made st ++ [c])
            (if succeeds then dropped st else dropped st ++ rest)
      | _ => st
      end
  end.
Definition threads (moves : list Move) (m : ProgressMap) : Threads := foldl exec (mkThreads m [] [] []) moves.
Definition sections (moves : list Move) : list Event := omap (fun a => match a with Critical e => Some e | Invoke _ _ => None end) moves.

(** Every callback handed out is made, still to be made, or dropped. *)
Definition accounted (st : Threads) : list Callback := made st ++ concat (todo st) ++ dropped st.

Lemma concat_replace (ls : list (list Callback)) i x y : ls !! i = Some x -> concat (<[i := y]> ls) ++ x ≡ₚ concat ls ++ y.
Proof.
  revert i. induction ls as [|l ls IH]; intros [|i] Hi; [done..| |]; cbn in Hi |- *.
  - injection Hi as ->. rewrite (Permutation_app_comm (y ++ _)), <- app_assoc. apply Permutation_app_head, Permutation_app_comm.
  - rewrite <- !app_assoc. by rewrite IH.
Qed.
Lemma exec_accounted st a :
  progress (exec st a) = (run (sections [a]) (progress st)).2 /\
  accounted (exec st a) ≡ₚ accounted st ++ (run (sections [a]) (progress st)).1.
Proof.
  destruct a as [e|i succeeds]; cbn.
  - destruct (act e (progress st)) as [calls m]. cbn. split; [done|]. rewrite app_nil_r. unfold accounted. cbn.
    rewrite concat_app. cbn. rewrite app_nil_r, <- !app_assoc. do 2 apply Permutation_app_head. apply Permutation_app_comm.
  - rewrite app_nil_r. destruct (todo st !! i) as [[|c rest]|] eqn:E; [done| |done]. split; [done|]. unfold accounted. cbn [made todo dropped].
    rewrite <- !app_assoc. apply Permutation_app_head. pose proof (concat_replace (todo st) i (c :: rest) (if succeeds then rest else []) E) as Hc.
    destruct succeeds.
    + rewrite <- Permutation_middle in Hc. apply (Permutation_app_inv_r rest (c :: _)) in Hc. by rewrite <- Hc.
    + rewrite app_nil_r, <- Permutation_middle in Hc. rewrite <- Hc. cbn. apply perm_skip. rewrite <- app_assoc.
      apply Permutation_app_head, Permutation_app_comm.
Qed.
Lemma threads_accounted moves st :
  progress (foldl exec st moves) = (run (sections moves) (progress st)).2 /\
  accounted (foldl exec st moves) ≡ₚ accounted st ++ (run (sections moves) (progress st)).1.
Proof.
  revert st. induction moves as [|a moves IH]; intros st; [cbn; by rewrite app_nil_r|]. cbn [foldl].
  assert (Hs : sections (a :: moves) = sections [a] ++ sections moves) by (by destruct a).
  destruct (exec_accounted st a) as [H1 H2]. destruct (IH (exec st a)) as [H3 H4]. rewrite Hs, events_run_app, H3, H4, H2, H1.
  destruct (run (sections [a]) (progress st)) as [k1 m1]. cbn [fst snd]. destruct (run (sections moves) m1) as [k2 m2]. by rewrite <- app_assoc.
Qed.
Lemma none_dropped moves st : (forall i, Invoke i false ∉ moves) -> dropped (foldl exec st moves) = dropped st.
Proof.
  revert st. induction moves as [|a moves IH]; intros st H; [done|]. cbn [foldl].
  rewrite IH by (intros i Hi; apply (H i); by right). destruct a as [e|i [|]]; cbn.
  - by destruct (act e (progress st)).
  - by destruct (todo st !! i) as [[|c rest]|].
  - destruct (H i). by left.
Qed.

(** C28: The chunks of a transfer are counted in any order and in any batches, before, between
    and after the two registrations of what is expected, and the callbacks of each critical
    section are made after it, with the mutex released, interleaved in any way with other
    threads.  The critical sections hand out one callback for every expected layer, when its
    last chunk and its expectation are known, and then one for the whole transfer, and the
    counters of the transfer are gone.  Each callback handed out is made once, or still to be
    made by its thread, or was dropped behind a callback of its thread that failed; when none
    fails none is dropped.  (In which order different threads make them is not determined:
    [transfer_before_layer].) *)
Theorem raw_progress_exact c1 c2 c3 m moves :
  all = concat (c1 ++ c2 ++ c3) -> Forall (fun ls => ls ≠ []) (c1 ++ c2 ++ c3) -> m !! uuid = None ->
  sections moves = (Arrive <$> c1) ++ ExpectLayers :: (Arrive <$> c2) ++ ExpectTotal :: (Arrive <$> c3) ->
  let st := threads moves m in
  exists layers,
    (run (sections moves) m).1 = (OnLayerDataReceived <$> layers) ++ [OnDataReceived] /\
    NoDup layers /\ (forall l, l ∈ layers <-> l ∈ dom expected) /\ progress st !! uuid = None /\
    made st ++ concat (todo st) ++ dropped st ≡ₚ (OnLayerDataReceived <$> layers) ++ [OnDataReceived] /\
    ((forall i, Invoke i false ∉ moves) -> dropped st = []).
Proof.
  intros Hall Hne Hm Hs st. destruct (sections_exact c1 c2 c3 m Hall Hne Hm) as (layers & m' & Hr & Hnd & Hl & Hm').
  destruct (threads_accounted moves (mkThreads m [] [] [])) as [H1 H2]. unfold threads in st. fold st in H1, H2. cbn [progress] in H1, H2.
  rewrite Hs, Hr in H1, H2. exists layers. rewrite Hs, Hr. split; [done|]. split; [done|]. split; [done|]. split; [by rewrite H1|]. split; [exact H2|].
  intros Hi. by apply none_dropped.
Qed.

End counting.

(** Two threads: the second layer's last chunk completes the transfer, and its thread calls back
    before the thread of the first layer does. *)
Definition race_moves : list Move :=
  [Critical (Arrive [0]); Critical ExpectLayers; Critical (Arrive [1]); Critical ExpectTotal; Critical (Arrive [0]);
   Invoke 4 true; Invoke 4 true; Invoke 2 true].
Lemma transfer_before_layer :
  made (threads 9 {[0 := 2; 1 := 1]} [0; 1; 0] race_moves ∅) = [OnLayerDataReceived 0; OnDataReceived; OnLayerDataReceived 1].
Proof. vm_compute. reflexivity. Qed.

Lemma raw_progress_exact_witness :
  exists layers, let st := threads 9 {[0 := 2; 1 := 1]} [0; 1; 0] race_moves ∅ in
    made st ++ concat (todo st) ++ dropped st ≡ₚ (OnLayerDataReceived <$> layers) ++ [OnDataReceived] /\ NoDup layers /\
    dropped st = [] /\ progress st !! 9 = None.
Proof.
  destruct (raw_progress_exact 9 {[0 := 2; 1 := 1]} [0; 1; 0]) with (c1 := [[0]]) (c2 := [[1]]) (c3 := [[0]]) (m := ∅ : ProgressMap) (moves := race_moves)
    as (layers & _ & Hnd & _ & Hm & Hp & Hd).
  - lia.
  - done.
  - cbn; lia.
  - intros l n. destruct (decide (l = 0)) as [->|H0]; [cbn; split; [intros [= <-]; done|intros [_ ->]; done]|].
    destruct (decide (l = 1)) as [->|H1]; [cbn; split; [intros [= <-]; done|intros [_ ->]; done]|].
    rewrite lookup_insert_ne, lookup_singleton_ne by done. unfold occ. rewrite !filter_cons. repeat rewrite decide_False by done. cbn. split; [done|lia].
  - done.
  - repeat constructor; done.
  - apply lookup_empty.
  - reflexivity.
  - exists layers. cbv zeta. split; [exact Hp|]. split; [exact Hnd|]. split; [|exact Hm]. apply Hd. intros i Hi. unfold race_moves in Hi.
    repeat (apply elem_of_cons in Hi as [Hi|Hi]; [discriminate Hi|]). by apply elem_of_nil in Hi.
Defined.

(** The bound of a push is checked in 32 bits: an offset far past the buffer is accepted
    when it wraps around, and the bytes are written there. *)
Theorem push_bound_wraps :
  let header := Chunk.mkHeader 1 kOpBufferPush 0 0 0 0 0 (2 ^ 32 - 16) 0 32 0 in
  let a := handle_push example_delegate tt true header (fun _ => 0) (replicate 32 7) ∅ in
  GetHostSize example_delegate tt 0 0 = 100 /\ a_status a = OkStatus /\ a_output a = [1] /\ a_memory a (4096 + (2 ^ 32 - 16)) = 7.
Proof. vm_compute. repeat split. Qed.

(** The same for a batch, in 64 bits. *)
Theorem batch_bound_wraps :
  batch_step example_delegate tt [] (Chunk.mkMetadata 0 0 (2 ^ 64 - 8) 16) = Ok [(4096 + (2 ^ 64 - 8), 16)].
Proof. vm_compute. reflexivity. Qed.

End RawProofs.
